(* ===== verification/_CoqProject ===== *)
-Q . S2P
Prelude.v
Storage.v
Backends.v
Committee.v
Certificate.v
CertStore.v
PendingCerts.v
Output.v
ConsensusState.v
OrderDag.v
LeaderSchedule.v
Bullshark.v
BullsharkFacts.v
Demo.v
CertStoreSafety.v
CertificateSafety.v
Aggregators.v
CertManager.v
BullsharkSafety.v
CertValidator.v
CommitOrder.v
Agreement.v
CertManagerSafety.v
Consensus.v
Proposer.v
ProposerSafety.v
VoteHandler.v
VoteSafety.v
Certifier.v
CertFetcher.v
Worker.v
WorkerSafety.v
ConsensusChain.v
ChainSafety.v
System.v
RecoverySafety.v
Engine.v
EngineSafety.v
ExecutionAgreement.v
BatchBuilder.v
Network.v
Genesis.v
Sync.v
Faucet.v
Tasks.v
Node.v
NodeSafety.v
Dispatch.v
Channels.v
Metrics.v
Encodings.v
Rocks.v
Assembly.v
