(* ===== verification/Prelude.v ===== *)
(** Verification of the Telcoin Network node.

    * The program

    A node is a validator, or an observer, of a network that orders transactions with a DAG of
    certificates and executes them with an EVM.

    - A worker collects the transactions of its pool into batches, sends them to the workers of the
      other validators and waits for a quorum of them (crates/consensus/worker,
      crates/execution/batch-builder and batch-validator).
    - The primary proposes headers that name batches and the certificates of the previous round,
      collects votes for them into certificates, votes for the headers of others, and keeps
      the certificates it receives in causal order (crates/consensus/primary: proposer, certifier,
      network, state_sync, aggregators, certificate_fetcher).
    - Bullshark commits leaders of the DAG and flattens what they reference into
      sub-dags (crates/consensus/primary/src/consensus).
    - The subscriber turns the sub-dags into a chain of consensus headers with their batches
      (crates/consensus/executor, crates/state-sync), and the engine executes those, one block
      for each batch (crates/engine).
    - Underneath are the storage (crates/storage), the peer-to-peer network
      (crates/network-libp2p), the synchronization primitives and the task managers
      (crates/types, crates/tn-utils); beside them the key and genesis commands
      (bin/telcoin-network, crates/config) and a faucet (crates/execution/faucet).

    * How it is modelled

    Each component has a module with a record for its state, inductive types for its enums and
    one definition for each operation, with the names of the source.  Integers are values of [N]
    that wrap around at their width where the code does not check; digests, keys and identifiers
    are values of [N]; hash maps and B-tree maps are [gmap], iterated in the order of their
    keys where the code does.  Fallible code returns an [outcome]: a value, an error, a panic,
    or no result yet.  Tasks are step functions over their events, and what they share is
    part of their state: channels are the lists of what they hold, a select is the choice of the
    next event.  Where the code can interleave, between two awaits or two locks, the steps are
    separate.

    Code that is not of the repository is a parameter, a type class of operations with a class of
    the behaviour that is documented for it: signatures, hashes and their collision resistance
    ([Crypto], [CollisionFree], [AggregateLaws], [ChainHash], [BatchHash], [KeyOps]), the seeded
    generator of the leaders ([SeededChoice]), the EVM and the blocks of the execution client
    ([ExecutionLayer], [ExecutionClient], [StateLaws]), the pool, serialization and
    compression ([MessageFormat], [Serializer], [Format]), the storage engines
    ([StorageEngine], [MdbxCursors], [RedbTables], [RocksEngine], [RocksTransactions]), each call
    of which may fail, the channels of tokio ([Mpsc], [Broadcast]) and the cache of the faucet
    ([TimeCache]).
    Every theorem about them has a witness in which they are instantiated.

    * The files

    - Prelude: integers, outcomes, ordered maps and sorting, with their lemmas, tactics and hints.
    - Storage: mem_db.rs and layered_db.rs; Backends: the MDBX, ReDB and RocksDB databases and
      codec.rs; Rocks: the transactions of RocksDB, its options and its tables; CertStore,
      CertStoreSafety: the stores.
    - Committee, Certificate, CertificateSafety, Output: committee.rs, headers, votes,
      certificates, sub-dags and consensus headers of crates/types.
    - ConsensusState, OrderDag, LeaderSchedule, Bullshark: the consensus core; BullsharkFacts,
      BullsharkSafety, CommitOrder, Agreement: its theorems; Consensus: its task.
    - PendingCerts, CertManager, CertManagerSafety, CertValidator, CertFetcher, Aggregators: from
      a received certificate to one in the DAG.
    - Proposer, ProposerSafety, VoteHandler, VoteSafety, Certifier: from a header to a
      certificate.
    - Worker, WorkerSafety, BatchBuilder: batches.
    - ConsensusChain, ChainSafety, RecoverySafety: the chain of outputs, restarts and catching up.
    - Engine, EngineSafety: execution.
    - System, ExecutionAgreement: the nodes of a network together.
    - Network: network-libp2p; Dispatch: network/mod.rs of the primary and of the worker, the tasks
      that answer requests, and local.rs; Channels: sync.rs and metered_channel.rs, and the
      backlog of a node that catches up.
    - Node, NodeSafety: crates/node, the start and the restart of a node; Assembly: the tasks of
      the primary, the channels of consensus_bus.rs and who reads them.
    - Sync: notifier and pending reads; Tasks: task managers and the publication of certificates;
      Genesis: keys, the ceremony and the configuration of a node; Faucet: the faucet; Encodings:
      the text and binary forms of keys, the handshake and the arguments of the faucet; Metrics:
      histograms, gauges and scopes of consensus-metrics.
    - Demo: the four authorities that the witnesses evaluate.

    * What the theorems show

    - Agreement.  In a network where less than a third of the stake is faulty, two nodes have the
      same committed sub-dags as far as both have come, outputs with the same number are the same,
      and the execution blocks of one are a prefix of those of the other while neither misses an
      output ([commit_agreement], [honest_nodes_agree], [honest_chains_agree],
      [honest_blocks_agree]): votes never conflict, so certificates are unique, so the DAGs are
      consistent, so the leaders that one node commits are those another one commits.  A node
      keeps its votes over a restart as far as its table of votes was persisted
      ([votes_never_conflict]).
    - The commit rule never panics and always returns, commits each certificate once, in causal
      order, and only elected leaders with support ([process_certificate_safe],
      [commit_at_most_once], [commit_sequence_causal], [order_dag_correct], [commit_needs_support]).
    - Certificates: what is verified is signed by a quorum; what is accepted has its parents and
      what is forwarded is accepted, and the manager ends only when a receiver or the database is
      gone ([manager_run_causal]); a request for missing certificates is answered by exactly those
      ([collector_correct]); a header for which a quorum votes is certified, whatever else the
      requests for votes meet, and every voter accepts the certificate ([header_certified]).
    - The proposer proposes one header for each round, keeps every batch until it is committed,
      and stops only when something it depends on is gone ([proposals_unique], [batches_kept],
      [proposer_progress]).  Restarting recovers a state that decides as the lost one.
    - Restarting a node neither loses nor repeats an output ([restart_resumes]): the recent blocks
      it reads back are those it had, the engine starts on its head, and what was saved and not
      executed is executed by an active validator with the result it would have had.
    - The tasks of a node take each channel once, in any order ([node_wiring]); a request of a peer
      is answered by what its handler gives in a state of the node ([peers_answered]); votes that
      tasks send at the same time agree when no two of them are for the same author
      ([exclusive_votes_agree]); a node starts when enough peers are reached ([startup_quorum]),
      and catches up when the channel of headers holds what it missed ([catch_up_backlog]).
    - Workers: the batches of a header that peers hold are fetched and stored
      ([batches_available]), and what a worker acknowledges it keeps, the very batch
      ([acknowledged_batches_kept]).  A batch that is built is accepted by the others unless it is
      empty, too early, or longer than its transactions are in memory ([built_batch_valid]).
    - The subscriber extends the chain by what is committed; the engine executes it in order, with
      blocks within the gas limit.
    - Storage: the MDBX and redb backends implement the in-memory tables and report errors without
      effect ([mdbx_redb_implement]), and the layered database over them persists what is
      committed while no error was logged ([layered_over_engine]); a transaction of RocksDB is all
      or nothing ([rocks_txn_atomic]).
    - The ceremony: the files that it writes start every node when there are as many workers as
      validators, and panic it otherwise ([create_committee_starts]); a validator without a proof
      of possession is refused, and no file is written ([unproven_validator_refused]).
    - Shutdown: when a manager leaves its loop the one at the top returns within four seconds
      ([node_stops]).  Pending reads, callers of the network and requests of the faucet: each is
      resolved, in every interleaving.

    Some theorems show what the code does against its documentation, and are named in the
    findings: [concurrent_votes_conflict], [restart_equivocates], [cancel_drops_new_header],
    [one_rejection_is_final], [gas_sum_wraps], [nonce_reused], [racing_requests_conflict],
    [faucet_amount_wrong], [restart_forgets_vote], [failed_write_lost], [long_encoding_rejected] and
    others.

    * Fuel

    Loops whose recursion is not structural take fuel, chosen at the call so that it is enough, and
    the theorems show the result and not only that a result is right: [order_loop] one turn for
    each certificate of the DAG and [update_loop] one for each that is pending, as a certificate is
    visited once; [commit_loop] one for each round up to that of the leader; [find_next_loop] one
    for each entry of the index by origin, [next_loop] one for each origin of the queue; [gc_loop]
    one for each missing parent; [collect], [prior] and the chunks of a list one for each
    entry; [build_loop] one for each transaction, [drop_repeats] one for each vote; [drain] one for
    each value of the channel and one for the end.  [OutOfFuel] is otherwise the result of code that still waits for an event.

    * Not modelled

    Argument parsing, the definitions and the registration of metrics, and logging; derived serde
    and display code, and accessors, which are fields of records; the swarm of libp2p, the EVM and
    the transaction pool, which are libraries, and the construction of the execution node, which
    only calls them; opening and compacting database files, and the secondary databases and
    checkpoints of RocksDB; the HTTP request for a signature; the methods of the network handle
    that ask the swarm for its peers and scores; the node traits, which are type definitions;
    fixtures of the tests; contracts, which are not in the repository.  Clocks are
    what a step reads; memory exhaustion and the panics of libraries are not considered. *)

From Stdlib Require Export ZifyBool Sorted.
From stdpp Require Export base tactics numbers strings sets gmap fin_maps list sorting.

#[global] Open Scope N_scope.

(** * Machine integers

    Rounds and epochs are [u32], stakes, scores and indices are [u64].  All are
    values of [N]; [N.sub] is then [saturating_sub], and the operations below are
    the ones whose behaviour at the border of the type matters: the release
    profile of the workspace does not enable overflow checks, so they wrap. *)

Definition u32_modulus : N := 2 ^ 32.
Definition u64_modulus : N := 2 ^ 64.

Definition wrap64 (n : N) : N := n mod u64_modulus.

Definition wrapping_sub32 (a b : N) : N :=
  if b <=? a then a - b else a + u32_modulus - b.

Definition wrapping_sub64 (a b : N) : N :=
  if b <=? a then a - b else a + u64_modulus - b.

(** * Results of fallible code

    [Ok] and [Err] are Rust's [Result]; [Panic] is a failed [assert!], [expect],
    [unwrap] or a division by zero; [OutOfFuel] is the verdict of a loop whose
    bound was too small, which the development shows never to be returned. *)

Inductive outcome (E A : Type) :=
  | Ok (a : A)
  | Err (e : E)
  | Panic
  | OutOfFuel.

Arguments Ok {E A} a.
Arguments Err {E A} e.
Arguments Panic {E A}.
Arguments OutOfFuel {E A}.

#[global] Instance outcome_ret {E} : MRet (outcome E) := @Ok E.

#[global] Instance outcome_bind {E} : MBind (outcome E) := fun A B f m =>
  match m with
  | Ok a => f a
  | Err e => Err e
  | Panic => Panic
  | OutOfFuel => OutOfFuel
  end.

#[global] Instance outcome_fmap {E} : FMap (outcome E) := fun A B f m =>
  match m with
  | Ok a => Ok (f a)
  | Err e => Err e
  | Panic => Panic
  | OutOfFuel => OutOfFuel
  end.

(** [ensure!(b, e)] and [assert!(b)]. *)
Definition ensure {E} (b : bool) (e : E) : outcome E unit :=
  if b then Ok () else Err e.

Definition assert {E} (b : bool) : outcome E unit :=
  if b then Ok () else Panic.

(** [o.expect(_)] and [o.ok_or(e)]. *)
Definition expect {E A} (o : option A) : outcome E A :=
  match o with Some a => Ok a | None => Panic end.

Definition ok_or {E A} (o : option A) (e : E) : outcome E A :=
  match o with Some a => Ok a | None => Err e end.

Definition map_err {E E' A} (f : E -> E') (m : outcome E A) : outcome E' A :=
  match m with
  | Ok a => Ok a
  | Err e => Err (f e)
  | Panic => Panic
  | OutOfFuel => OutOfFuel
  end.

Definition is_ok {E A} (m : outcome E A) : bool :=
  match m with Ok _ => true | _ => false end.

(** [for x in l { f(x)?; }] with an accumulator. *)
Fixpoint foldM {E A S} (f : S -> A -> outcome E S) (s : S) (l : list A) : outcome E S :=
  match l with
  | [] => Ok s
  | x :: l' => s' ← f s x; foldM f s' l'
  end.

(** ** Stateful actions

    Code that updates a state and may stop with an error: the state is kept on every
    outcome, as [&mut self] is. *)

Definition action (S E A : Type) : Type := S -> S * outcome E A.

#[global] Instance action_ret {S E} : MRet (action S E) := fun A a s => (s, Ok a).

#[global] Instance action_bind {S E} : MBind (action S E) := fun A B k m s =>
  match m s with
  | (s, Ok a) => k a s
  | (s, Err e) => (s, Err e)
  | (s, Panic) => (s, Panic)
  | (s, OutOfFuel) => (s, OutOfFuel)
  end.

Definition lift {S E A} (o : outcome E A) : action S E A := fun s => (s, o).
Definition gets {S E A} (f : S -> A) : action S E A := fun s => (s, Ok (f s)).
Definition with_state {S E A} (f : S -> action S E A) : action S E A := fun s => f s s.
Definition modify {S E} (f : S -> S) : action S E unit := fun s => (f s, Ok ()).

(** * Sums of stake *)

Definition sumN (l : list N) : N := foldr N.add 0 l.

(** The stake of a set of holders. *)
Definition weigh {K} `{Countable K} (w : K -> N) (X : gset K) : N :=
  sumN (w <$> elements X).

(** * Stable sorting, as [slice::sort_by] *)

Fixpoint insert_by {A} (leb : A -> A -> bool) (x : A) (l : list A) : list A :=
  match l with
  | [] => [x]
  | y :: l' => if leb x y then x :: y :: l' else y :: insert_by leb x l'
  end.

Definition sort_by {A} (leb : A -> A -> bool) (l : list A) : list A :=
  foldr (insert_by leb) [] l.

Definition sort_by_key {A} (key : A -> N) : list A -> list A :=
  sort_by (fun a b => key a <=? key b).

(** * Ordered maps and sets

    A [BTreeMap] is a [gmap] read in the order of its keys. *)

Class BTreeKey (K : Type) := {
  key_leb : K -> K -> bool;
  key_leb_total : forall a b, key_leb a b = true \/ key_leb b a = true;
  key_leb_trans : forall a b c, key_leb a b = true -> key_leb b c = true -> key_leb a c = true;
  key_leb_antisymm : forall a b, key_leb a b = true -> key_leb b a = true -> a = b;
}.

Definition pair_leb (a b : N * N) : bool :=
  (a.1 <? b.1) || ((a.1 =? b.1) && (a.2 <=? b.2)).

#[global] Program Instance N_btree_key : BTreeKey N := {| key_leb := N.leb |}.
Next Obligation. intros a b. destruct (N.leb_spec a b); [auto|right]. apply N.leb_le. lia. Qed.
Next Obligation. intros a b c. rewrite !N.leb_le. lia. Qed.
Next Obligation. intros a b. rewrite !N.leb_le. lia. Qed.

#[global] Program Instance pair_btree_key : BTreeKey (N * N) := {| key_leb := pair_leb |}.
Next Obligation. intros [a1 a2] [b1 b2]. unfold pair_leb; simpl. lia. Qed.
Next Obligation. intros [a1 a2] [b1 b2] [c1 c2]. unfold pair_leb; simpl. lia. Qed.
Next Obligation.
  intros [a1 a2] [b1 b2]. unfold pair_leb; simpl. intros ? ?. f_equal; lia.
Qed.

Section btree_defs.
Context {K : Type} `{Countable K} `{!BTreeKey K} {A : Type}.

Definition btree_iter (m : gmap K A) : list (K * A) :=
  sort_by (fun p q => key_leb p.1 q.1) (map_to_list m).

Definition btree_keys (m : gmap K A) : list K := (btree_iter m).*1.

Definition btree_values (m : gmap K A) : list A := (btree_iter m).*2.

Definition first_key_value (m : gmap K A) : option (K * A) := head (btree_iter m).

Definition last_key_value (m : gmap K A) : option (K * A) := last (btree_iter m).
End btree_defs.

Definition bset_iter {K} `{Countable K} `{!BTreeKey K} (X : gset K) : list K :=
  sort_by key_leb (elements X).

(** [iter.collect::<HashMap<_, _>>()]: later entries replace earlier ones. *)
Definition collect_map {K A} `{Countable K} (l : list (K * A)) : gmap K A :=
  foldl (fun m kv => <[kv.1 := kv.2]> m) ∅ l.

(** * Automation *)

Create HintDb tn.

(** Inversion of monadic code: a bind that returned [Ok] had both parts return it. *)
Ltac inv_ok :=
  repeat match goal with
  | H : Ok _ = Ok _ |- _ => injection H as H; subst
  | H : Err _ = Ok _ |- _ => discriminate H
  | H : Panic = Ok _ |- _ => discriminate H
  | H : OutOfFuel = Ok _ |- _ => discriminate H
  | H : Some _ = Some _ |- _ => injection H as H; subst
  | H : None = Some _ |- _ => discriminate H
  | H : (_, _) = (_, _) |- _ => injection H as H; subst
  end.

(** Linear arithmetic with divisions and remainders by constants. *)
Ltac div_lia := zify; Z.to_euclidean_division_equations; lia.

(** * Lemmas on outcomes *)

Lemma bind_Ok {E A B} (m : outcome E A) (f : A -> outcome E B) b :
  (x ← m; f x) = Ok b <-> exists a, m = Ok a /\ f a = Ok b.
Proof. destruct m; simpl; naive_solver. Qed.

Lemma bind_Err {E A B} (m : outcome E A) (f : A -> outcome E B) e :
  (x ← m; f x) = Err e <-> m = Err e \/ exists a, m = Ok a /\ f a = Err e.
Proof. destruct m; simpl; naive_solver. Qed.

Lemma ensure_Ok {E} b (e : E) u : ensure b e = Ok u <-> b = true.
Proof. destruct b, u; simpl; naive_solver. Qed.

Lemma assert_Ok {E} b u : @assert E b = Ok u <-> b = true.
Proof. destruct b, u; simpl; naive_solver. Qed.

Lemma expect_Ok {E A} (o : option A) a : @expect E A o = Ok a <-> o = Some a.
Proof. destruct o; simpl; naive_solver. Qed.

Lemma ok_or_Ok {E A} (o : option A) (e : E) a : ok_or o e = Ok a <-> o = Some a.
Proof. destruct o; simpl; naive_solver. Qed.

(** Invariants of a fallible loop. *)
Lemma foldM_invariant {E A S} (f : S -> A -> outcome E S) (I : S -> Prop) s l s' :
  I s -> (forall s x s', I s -> x ∈ l -> f s x = Ok s' -> I s') ->
  foldM f s l = Ok s' -> I s'.
Proof.
  revert s. induction l as [|x l IH]; simpl; intros s Hs Hstep.
  - by intros [= <-].
  - intros [s1 [Hf Hl]]%bind_Ok. eapply IH; [| |done].
    + apply (Hstep s x); [done|set_solver|done].
    + intros s2 y s3 ??. apply (Hstep s2 y); [done|set_solver].
Qed.

(** A fallible loop returns when every step does, under an invariant. *)
Lemma foldM_total {E A S} (f : S -> A -> outcome E S) (I : S -> Prop) s l :
  I s -> (forall s x, I s -> x ∈ l -> exists s', f s x = Ok s' /\ I s') ->
  exists s', foldM f s l = Ok s' /\ I s'.
Proof.
  revert s. induction l as [|x l IH]; simpl; intros s Hs Hstep; [by eauto|].
  destruct (Hstep s x) as (s1 & Hf & Hs1); [done|set_solver|].
  rewrite Hf; simpl. apply IH; [done|]. intros. apply Hstep; [done|set_solver].
Qed.

(** Code that returns a value or an error: it neither panics nor waits. *)
Definition returns {E A} (m : outcome E A) : Prop := m <> Panic /\ m <> OutOfFuel.

Lemma returns_Ok {E A} (a : A) : @returns E A (Ok a).
Proof. by split. Qed.

Lemma returns_Err {E A} (e : E) : @returns E A (Err e).
Proof. by split. Qed.

Lemma returns_ensure {E} b (e : E) : returns (ensure b e).
Proof. by destruct b; split. Qed.

Lemma returns_ok_or {E A} (o : option A) (e : E) : returns (ok_or o e).
Proof. by destruct o; split. Qed.

Lemma returns_map_err {E E' A} (f : E -> E') (m : outcome E A) : returns m -> returns (map_err f m).
Proof. intros []. by destruct m; split. Qed.

Lemma returns_bind {E A B} (m : outcome E A) (k : A -> outcome E B) :
  returns m -> (forall a, m = Ok a -> returns (k a)) -> returns (a ← m; k a).
Proof. intros [] Hk. destruct m; simpl; [by apply Hk|apply returns_Err|done|done]. Qed.

Lemma returns_foldM {E A S} (f : S -> A -> outcome E S) s l :
  (forall s x, x ∈ l -> returns (f s x)) -> returns (foldM f s l).
Proof.
  revert s. induction l as [|x l IH]; intros s Hf; cbn [foldM]; [apply returns_Ok|].
  apply returns_bind; [apply Hf; set_solver|]. intros a _. apply IH. intros. apply Hf. set_solver.
Qed.

(** An action leaves a part of the state as it is. *)
Definition keeps {S E A B} (f : S -> B) (m : action S E A) : Prop := forall s, f (m s).1 = f s.

Lemma keeps_lift {S E A B} (f : S -> B) (o : outcome E A) : keeps f (lift o).
Proof. done. Qed.

Lemma keeps_gets {S E A B} (f : S -> B) (g : S -> A) : @keeps S E A B f (gets g).
Proof. done. Qed.

Lemma keeps_ret {S E A B} (f : S -> B) (a : A) : @keeps S E A B f (mret a).
Proof. done. Qed.

Lemma keeps_bind {S E A A' B} (f : S -> B) (m : action S E A) (k : A -> action S E A') :
  keeps f m -> (forall a, keeps f (k a)) -> keeps f (m ≫= k).
Proof.
  intros Hm Hk s. unfold mbind, action_bind. specialize (Hm s). destruct (m s) as [s1 [a|e| |]]; simpl in *; [|done..].
  by rewrite Hk.
Qed.

Lemma keeps_with_state {S E A B} (f : S -> B) (g : S -> action S E A) : (forall s, keeps f (g s)) -> keeps f (with_state g).
Proof. intros Hg s. apply Hg. Qed.

Lemma keeps_if {S E A B} (f : S -> B) (b : bool) (m k : action S E A) :
  keeps f m -> keeps f k -> keeps f (if b then m else k).
Proof. by destruct b. Qed.

Create HintDb keeps.
#[export] Hint Resolve keeps_lift keeps_gets keeps_ret keeps_bind keeps_if keeps_with_state : keeps.

(** Actions that preserve an invariant of the state, whatever their outcome. *)
Definition preserves {S E A} (P : S -> Prop) (m : action S E A) : Prop := forall s, P s -> P (m s).1.

Lemma preserves_lift {S E A} (P : S -> Prop) (o : outcome E A) : preserves P (lift o).
Proof. by intros s. Qed.

Lemma preserves_gets {S E A} (P : S -> Prop) (g : S -> A) : @preserves S E A P (gets g).
Proof. by intros s. Qed.

Lemma preserves_modify {S E} (P : S -> Prop) (f : S -> S) : (forall s, P s -> P (f s)) -> @preserves S E unit P (modify f).
Proof. intros Hf s. apply Hf. Qed.

Lemma preserves_bind {S E A B} (P : S -> Prop) (m : action S E A) (k : A -> action S E B) :
  preserves P m -> (forall a, preserves P (k a)) -> preserves P (m ≫= k).
Proof.
  intros Hm Hk s Hs. specialize (Hm s Hs). unfold mbind, action_bind.
  destruct (m s) as [s' [a|e| |]]; [|done..]. by apply Hk.
Qed.

Lemma preserves_with_state {S E A} (P : S -> Prop) (g : S -> action S E A) :
  (forall s, preserves P (g s)) -> preserves P (with_state g).
Proof. intros Hg s. apply Hg. Qed.

Lemma preserves_if {S E A} (P : S -> Prop) (b : bool) (m k : action S E A) :
  preserves P m -> preserves P k -> preserves P (if b then m else k).
Proof. by destruct b. Qed.

Create HintDb preserves.
#[export] Hint Resolve preserves_lift preserves_gets preserves_modify preserves_bind preserves_with_state preserves_if : preserves.

Lemma action_bind_Ok {S E A B} (m : action S E A) (k : A -> action S E B) s s' b :
  (m ≫= k) s = (s', Ok b) <-> exists s1 a, m s = (s1, Ok a) /\ k a s1 = (s', Ok b).
Proof.
  unfold mbind, action_bind. destruct (m s) as [s1 [a|e| |]]; split; try done.
  - intros Hk. by exists s1, a.
  - by intros (? & ? & [= <- <-] & ?).
  - by intros (? & ? & ? & ?).
  - by intros (? & ? & ? & ?).
  - by intros (? & ? & ? & ?).
Qed.

Create HintDb returns.
#[export] Hint Resolve returns_Ok returns_Err returns_ensure returns_ok_or returns_map_err returns_bind returns_foldM : returns.

Lemma triple_eta {A B C} (x : A * B * C) : x = (x.1.1, x.1.2, x.2).
Proof. by destruct x as [[a b] c]. Qed.

Lemma foldM_ext {E A S} (f g : S -> A -> outcome E S) s l : (forall s x, f s x = g s x) -> foldM f s l = foldM g s l.
Proof. intros Hfg. revert s. induction l as [|x l IH]; intros s; simpl; [done|]. rewrite Hfg. by destruct (g s x); simpl. Qed.

Lemma foldM_app {E A S} (f : S -> A -> outcome E S) s l k :
  foldM f s (l ++ k) = (s' ← foldM f s l; foldM f s' k).
Proof. revert s. induction l as [|x l IH]; intros s; simpl; [done|]. by destruct (f s x); simpl. Qed.

Lemma foldM_expect {E A B} (f : A -> option B) (l : list A) :
  (forall x, x ∈ l -> is_Some (f x)) ->
  foldM (fun (_ : unit) x => _ ← expect (f x); Ok ()) () l = @Ok E _ ().
Proof.
  induction l as [|x l IH]; intros Hl; [done|]. simpl. destruct (Hl x) as [y ->]; [set_solver|].
  simpl. apply IH. set_solver.
Qed.

(** * Lemmas on machine integers *)

Lemma wrap64_small n : n < u64_modulus -> wrap64 n = n.
Proof. intros. unfold wrap64. by apply N.mod_small. Qed.

Lemma wrap64_bound n : wrap64 n < u64_modulus.
Proof. unfold wrap64. by apply N.mod_lt. Qed.

Lemma wrapping_sub32_small a b : b <= a -> wrapping_sub32 a b = a - b.
Proof. intros ?%N.leb_le. unfold wrapping_sub32. by case_match. Qed.

Lemma wrapping_sub64_small a b : b <= a -> wrapping_sub64 a b = a - b.
Proof. intros ?%N.leb_le. unfold wrapping_sub64. by case_match. Qed.

(** * Lemmas on sums *)

Lemma sumN_app l k : sumN (l ++ k) = sumN l + sumN k.
Proof. induction l; simpl; lia. Qed.

#[global] Instance sumN_perm : Proper ((≡ₚ) ==> (=)) sumN.
Proof. intros l k H. induction H; simpl; lia. Qed.

Lemma sumN_submseteq l k : l ⊆+ k -> sumN l <= sumN k.
Proof. intros [k' ->]%submseteq_Permutation. rewrite sumN_app. lia. Qed.

(** * Lemmas on lists *)

Lemma filter_ext_elem {A} (P Q : A -> Prop) `{!forall x, Decision (P x)} `{!forall x, Decision (Q x)} (l : list A) :
  (forall x, x ∈ l -> P x <-> Q x) -> filter P l = filter Q l.
Proof.
  induction l as [|x l IH]; intros HPQ; [done|]. rewrite !filter_cons.
  rewrite IH by (intros y ?; apply HPQ; set_solver).
  pose proof (HPQ x ltac:(set_solver)). destruct (decide (P x)), (decide (Q x)); naive_solver.
Qed.

Lemma StronglySorted_lt_NoDup (l : list N) : StronglySorted N.lt l -> NoDup l.
Proof.
  induction 1 as [|x l ? IH Hx]; constructor; [|done].
  rewrite Forall_forall in Hx. intros Hin. specialize (Hx x Hin). lia.
Qed.

Lemma filter_all {A} (P : A -> Prop) `{!forall x, Decision (P x)} (l : list A) :
  (forall x, x ∈ l -> P x) -> filter P l = l.
Proof.
  induction l as [|x l IH]; intros Hall; [done|]. rewrite filter_cons_True by (apply Hall; set_solver).
  f_equal. apply IH. intros y Hy. apply Hall. set_solver.
Qed.

(** ** Sorted lists *)

Lemma StronglySorted_app_2 {A} (R : A -> A -> Prop) l k :
  StronglySorted R l -> StronglySorted R k -> (forall x y, x ∈ l -> y ∈ k -> R x y) ->
  StronglySorted R (l ++ k).
Proof.
  induction 1 as [|x l ? IH Hx]; intros Hk Hlk; simpl; [done|]. constructor.
  - apply IH; [done|set_solver].
  - apply Forall_app. split; [done|]. apply Forall_forall. intros y Hy. apply Hlk; set_solver.
Qed.

Lemma StronglySorted_app_elem {A} (R : A -> A -> Prop) l k x y :
  StronglySorted R (l ++ k) -> x ∈ l -> y ∈ k -> R x y.
Proof.
  induction l as [|z l IH]; [by intros _ ?%elem_of_nil|]. simpl. inversion 1 as [|? ? Hs Hall]; subst.
  rewrite Forall_app, !Forall_forall in Hall. intros [->|Hx]%elem_of_cons Hy; [by apply Hall|auto].
Qed.

Lemma StronglySorted_lt_last (l : list N) x : StronglySorted N.lt l -> last l = Some x -> forall y, y ∈ l -> y <= x.
Proof.
  intros Hs (l' & ->)%last_Some y [Hy|Hy%list_elem_of_singleton]%elem_of_app; [|lia].
  assert (y < x); [|lia]. apply (StronglySorted_app_elem N.lt l' [x]); [done|done|set_solver].
Qed.

Lemma StronglySorted_rev {A} (R : A -> A -> Prop) l :
  StronglySorted R l -> StronglySorted (fun x y => R y x) (rev l).
Proof.
  induction 1 as [|x l _ IH Hx]; simpl; [constructor|]. apply StronglySorted_app_2; [done|by repeat constructor|].
  rewrite Forall_forall in Hx. intros y z Hy ->%list_elem_of_singleton. apply Hx.
  rewrite list_elem_of_In in Hy |- *. by rewrite in_rev.
Qed.

Lemma StronglySorted_filter {A} (R : A -> A -> Prop) (P : A -> Prop) `{!forall x, Decision (P x)} l :
  StronglySorted R l -> StronglySorted R (filter P l).
Proof.
  induction 1 as [|x l _ IH Hx]; [constructor|].
  destruct (decide (P x)); [rewrite filter_cons_True by done|by rewrite filter_cons_False].
  constructor; [done|]. rewrite Forall_forall in *. intros y [_ Hy]%list_elem_of_filter. by apply Hx.
Qed.

(** * Lemmas on sorting *)

Section sorting.
Context {A : Type} (leb : A -> A -> bool).

Lemma insert_by_perm x l : insert_by leb x l ≡ₚ x :: l.
Proof.
  induction l as [|y l IH]; simpl; [done|]. case_match; [done|].
  rewrite IH. by rewrite Permutation_swap.
Qed.

Lemma sort_by_perm l : sort_by leb l ≡ₚ l.
Proof.
  unfold sort_by. induction l as [|x l IH]; simpl; [done|].
  by rewrite insert_by_perm, IH.
Qed.

Hypothesis leb_total : forall a b, leb a b = true \/ leb b a = true.
Hypothesis leb_trans : forall a b c, leb a b = true -> leb b c = true -> leb a c = true.

Lemma insert_by_sorted x l :
  StronglySorted (fun a b => leb a b = true) l ->
  StronglySorted (fun a b => leb a b = true) (insert_by leb x l).
Proof.
  induction 1 as [|y l Hl IH Hy]; simpl; [repeat constructor|].
  case_match eqn:Hxy.
  - constructor; [by constructor|]. constructor; [done|].
    eapply Forall_impl; [exact Hy|]. intros z ?. by eapply leb_trans.
  - constructor; [done|]. rewrite insert_by_perm. constructor; [|done].
    destruct (leb_total x y); congruence.
Qed.

Lemma sort_by_sorted l : StronglySorted (fun a b => leb a b = true) (sort_by leb l).
Proof.
  unfold sort_by. induction l; simpl; [constructor|]. by apply insert_by_sorted.
Qed.
End sorting.

Lemma sort_by_key_perm {A} (key : A -> N) l : sort_by_key key l ≡ₚ l.
Proof. apply sort_by_perm. Qed.

Lemma sort_by_key_sorted {A} (key : A -> N) l :
  StronglySorted (fun a b => key a <= key b) (sort_by_key key l).
Proof.
  assert (StronglySorted (fun a b => (key a <=? key b) = true) (sort_by_key key l)) as H.
  { apply sort_by_sorted; intros; lia. }
  induction H as [|x l' ? IH Hx]; constructor; [done|].
  eapply Forall_impl; [exact Hx|]. simpl. lia.
Qed.

(** Lists that match with equal keys are sorted alike. *)
Lemma Forall2_sort_by_key {A B} (R : A -> B -> Prop) f g l k :
  (forall x y, R x y -> f x = g y) -> Forall2 R l k -> Forall2 R (sort_by_key f l) (sort_by_key g k).
Proof.
  intros Hfg. assert (forall x y l' k', R x y -> Forall2 R l' k' ->
    Forall2 R (insert_by (fun a b => f a <=? f b) x l') (insert_by (fun a b => g a <=? g b) y k')) as Hins.
  { intros x y l' k' Hxy. induction 1 as [|a b l' k' Hab Hl IH]; cbn [insert_by]; [by repeat constructor|].
    rewrite (Hfg x y), (Hfg a b) by done. destruct (g y <=? g b); by repeat constructor. }
  induction 1 as [|x y l k Hxy _ IH]; [constructor|]. by apply Hins.
Qed.

(** The sort is stable: elements of one key keep their order. *)
Lemma sort_by_key_stable {A} (key : A -> N) k l :
  filter (fun x => key x = k) (sort_by_key key l) = filter (fun x => key x = k) l.
Proof.
  unfold sort_by_key, sort_by. induction l as [|x l IH]; simpl; [done|].
  set (s := foldr _ [] l) in *. clearbody s.
  assert (forall s, filter (fun x => key x = k) (insert_by (fun a b => key a <=? key b) x s)
    = filter (fun x => key x = k) (x :: s)) as Hins.
  { clear. induction s as [|y s IH]; simpl; [done|]. case_match eqn:Hle; [done|].
    rewrite !filter_cons, IH, filter_cons.
    destruct (decide (key y = k)), (decide (key x = k)); try done. lia. }
  rewrite Hins, !filter_cons, IH. done.
Qed.

(** * Lemmas on ordered maps *)

Section btree.
Context {K : Type} `{Countable K} `{!BTreeKey K} {A : Type}.
Implicit Types m : gmap K A.

Lemma btree_iter_perm m : btree_iter m ≡ₚ map_to_list m.
Proof. apply sort_by_perm. Qed.

Lemma elem_of_btree_iter m k a : (k, a) ∈ btree_iter m <-> m !! k = Some a.
Proof. rewrite btree_iter_perm. apply elem_of_map_to_list. Qed.

Lemma btree_keys_NoDup m : NoDup (btree_keys m).
Proof. unfold btree_keys. rewrite btree_iter_perm. apply NoDup_fst_map_to_list. Qed.

Lemma elem_of_btree_keys m k : k ∈ btree_keys m <-> is_Some (m !! k).
Proof.
  unfold btree_keys. rewrite list_elem_of_fmap. split.
  - intros ([k' a] & -> & Hk). apply elem_of_btree_iter in Hk. by eexists.
  - intros [a Ha]. exists (k, a). by rewrite elem_of_btree_iter.
Qed.

Lemma elem_of_btree_values m a : a ∈ btree_values m <-> exists k, m !! k = Some a.
Proof.
  unfold btree_values. rewrite list_elem_of_fmap. split.
  - intros ([k a'] & -> & Hk). exists k. by apply elem_of_btree_iter.
  - intros [k Hk]. exists (k, a). by rewrite elem_of_btree_iter.
Qed.

Lemma btree_iter_sorted m :
  StronglySorted (fun p q => key_leb p.1 q.1 = true) (btree_iter m).
Proof.
  apply sort_by_sorted; intros.
  - apply key_leb_total.
  - by eapply key_leb_trans.
Qed.

Lemma length_btree_iter m : length (btree_iter m) = size m.
Proof. by rewrite btree_iter_perm, length_map_to_list. Qed.
End btree.

(** The keys of an ordered map of numbers are read in increasing order. *)
Lemma StronglySorted_lt_of_le {A} (f : A -> N) l :
  StronglySorted (fun p q => (f p <=? f q) = true) l -> NoDup (f <$> l) ->
  StronglySorted N.lt (f <$> l).
Proof.
  induction 1 as [|x l ? IH Hx]; simpl; intros Hnd; [constructor|].
  apply NoDup_cons in Hnd as [Hni Hnd]. constructor; [by apply IH|].
  rewrite Forall_forall in Hx. apply Forall_forall. intros k Hk.
  assert (k <> f x) by (by intros ->).
  apply list_elem_of_fmap in Hk as (y & -> & Hy). specialize (Hx y Hy). simpl in Hx. lia.
Qed.

Lemma btree_keys_sorted {A} (m : gmap N A) : StronglySorted N.lt (btree_keys m).
Proof.
  apply StronglySorted_lt_of_le; [exact (btree_iter_sorted m)|apply btree_keys_NoDup].
Qed.

Lemma bset_iter_sorted (X : gset N) : StronglySorted N.lt (bset_iter X).
Proof.
  rewrite <-(list_fmap_id (bset_iter X)). apply StronglySorted_lt_of_le.
  - exact (sort_by_sorted (@key_leb N _) key_leb_total key_leb_trans (elements X)).
  - rewrite list_fmap_id. unfold bset_iter. rewrite sort_by_perm. apply NoDup_elements.
Qed.

(** Reading is determined by the contents: two sorted readings of a map agree. *)
Lemma sorted_keys_unique {A} (l k : list (N * A)) :
  StronglySorted N.lt l.*1 -> StronglySorted N.lt k.*1 -> l ≡ₚ k -> l = k.
Proof.
  revert k. induction l as [|[x a] l IH]; intros k Hl Hk Hp.
  { by apply Permutation_nil_l in Hp. }
  destruct k as [|[y b] k]; [by apply Permutation_nil_r in Hp|].
  inversion Hl as [|? ? Hl' Hxl]; inversion Hk as [|? ? Hk' Hyk]; subst.
  rewrite Forall_forall in Hxl, Hyk.
  assert ((x, a) = (y, b)) as Heq.
  { assert ((x, a) ∈ (y, b) :: k) as [?|Hx]%elem_of_cons by (rewrite <-Hp; set_solver); [done|].
    assert ((y, b) ∈ (x, a) :: l) as [?|Hy]%elem_of_cons by (rewrite Hp; set_solver); [done|].
    apply (list_elem_of_fmap_2 fst) in Hx, Hy. apply Hyk in Hx. apply Hxl in Hy. simpl in *. lia. }
  rewrite Heq in *. f_equal. apply IH; [done..|]. by apply Permutation_cons_inv in Hp.
Qed.

(** Strictly sorted lists with the same elements are equal. *)
Lemma sorted_unique (l k : list N) :
  StronglySorted N.lt l -> StronglySorted N.lt k -> (forall x, x ∈ l <-> x ∈ k) -> l = k.
Proof.
  intros Hl Hk Hlk.
  assert (forall j : list N, ((fun i => (i, tt)) <$> j).*1 = j) as Hj.
  { intros j. rewrite <-list_fmap_compose. apply list_fmap_id. }
  rewrite <-(Hj l), <-(Hj k). f_equal. apply sorted_keys_unique; rewrite ?Hj; [done..|].
  apply fmap_Permutation, NoDup_Permutation; [by apply StronglySorted_lt_NoDup..|done].
Qed.

Lemma btree_iter_delete_first {A} (m : gmap N A) kv l :
  btree_iter m = kv :: l -> btree_iter (delete kv.1 m) = l.
Proof.
  intros Hm. pose proof (btree_keys_sorted m) as Hs. unfold btree_keys in Hs.
  rewrite Hm in Hs. inversion Hs; subst.
  apply sorted_keys_unique; [apply btree_keys_sorted|done|].
  destruct kv as [k a].
  assert (m !! k = Some a) as Hk by (apply elem_of_btree_iter; rewrite Hm; set_solver).
  pose proof (btree_iter_perm m) as Hp. rewrite Hm, <-(insert_delete_id m k a Hk) in Hp.
  rewrite map_to_list_insert in Hp by apply lookup_delete_eq.
  apply Permutation_cons_inv in Hp. by rewrite btree_iter_perm.
Qed.

Lemma btree_iter_nil {A} (m : gmap N A) : btree_iter m = [] <-> m = ∅.
Proof.
  rewrite <-map_to_list_empty_iff. split; intros Hm.
  - apply Permutation_nil_r. by rewrite <-(btree_iter_perm m), Hm.
  - apply Permutation_nil_r. by rewrite btree_iter_perm, Hm.
Qed.

#[export] Hint Rewrite @elem_of_btree_iter @elem_of_btree_keys @elem_of_btree_values : tn.

Lemma elem_of_bset_iter {K} `{Countable K} `{!BTreeKey K} (X : gset K) x :
  x ∈ bset_iter X <-> x ∈ X.
Proof. unfold bset_iter. rewrite sort_by_perm. apply elem_of_elements. Qed.

Lemma NoDup_bset_iter {K} `{Countable K} `{!BTreeKey K} (X : gset K) : NoDup (bset_iter X).
Proof. unfold bset_iter. rewrite sort_by_perm. apply NoDup_elements. Qed.

Lemma bset_iter_key_sorted {K} `{Countable K} `{!BTreeKey K} (X : gset K) :
  StronglySorted (fun a b => key_leb a b = true) (bset_iter X).
Proof. apply sort_by_sorted; [apply key_leb_total|apply key_leb_trans]. Qed.

(** The least element is read first. *)
Lemma bset_iter_cons {K} `{Countable K} `{!BTreeKey K} (X : gset K) x :
  x ∈ X -> (forall y, y ∈ X -> key_leb x y = true) -> bset_iter X = x :: bset_iter (X ∖ {[x]}).
Proof.
  intros Hx Hmin.
  assert (AntiSymm eq (fun a b : K => key_leb a b = true)) as Hanti by (intros a b; apply key_leb_antisymm).
  apply (StronglySorted_unique (fun a b => key_leb a b = true)).
  - apply bset_iter_key_sorted.
  - constructor; [apply bset_iter_key_sorted|]. apply Forall_forall. intros y Hy%elem_of_bset_iter. apply Hmin. set_solver.
  - apply NoDup_Permutation; [apply NoDup_bset_iter| |].
    + apply NoDup_cons. split; [rewrite elem_of_bset_iter; set_solver|apply NoDup_bset_iter].
    + intros y. rewrite elem_of_cons, !elem_of_bset_iter, elem_of_difference, elem_of_singleton.
      destruct (decide (y = x)) as [->|]; naive_solver.
Qed.

Lemma bset_iter_empty {K} `{Countable K} `{!BTreeKey K} : bset_iter (∅ : gset K) = [].
Proof. unfold bset_iter. by rewrite elements_empty. Qed.

(** * Lemmas on collected maps *)

Section collect.
Context {K A : Type} `{Countable K}.
Implicit Types l : list (K * A).

Lemma collect_map_snoc l k a : collect_map (l ++ [(k, a)]) = <[k := a]> (collect_map l).
Proof. unfold collect_map. by rewrite foldl_app. Qed.

Lemma dom_collect_map l : dom (collect_map l) = list_to_set (C := gset K) l.*1.
Proof.
  induction l as [|[k a] l IH] using rev_ind; [apply dom_empty_L|].
  rewrite collect_map_snoc, dom_insert_L, IH, fmap_app, list_to_set_app_L. set_solver.
Qed.

Lemma collect_map_elem l k a : collect_map l !! k = Some a -> (k, a) ∈ l.
Proof.
  induction l as [|[k' a'] l IH] using rev_ind; [done|].
  rewrite collect_map_snoc, lookup_insert_Some. set_solver.
Qed.

Lemma size_list_to_set_le (ks : list K) :
  (size (list_to_set (C := gset K) ks) <= length ks)%nat.
Proof.
  induction ks as [|k ks IH]; [done|].
  rewrite list_to_set_cons, length_cons, size_union_alt, size_singleton.
  assert (size (list_to_set (C := gset K) ks ∖ {[k]}) <= size (list_to_set (C := gset K) ks))%nat.
  { apply subseteq_size. set_solver. }
  lia.
Qed.

Lemma size_list_to_set_NoDup (ks : list K) :
  size (list_to_set (C := gset K) ks) = length ks -> NoDup ks.
Proof.
  induction ks as [|k ks IH]; [constructor|].
  rewrite list_to_set_cons, length_cons. intros Hsz.
  pose proof (size_list_to_set_le ks).
  destruct (decide (k ∈ ks)) as [Hk|Hk].
  - assert ({[k]} ∪ list_to_set ks = list_to_set (C := gset K) ks) as Heq by set_solver.
    rewrite Heq in Hsz. lia.
  - rewrite size_union, size_singleton in Hsz by set_solver.
    constructor; [done|]. apply IH. lia.
Qed.

Lemma collect_map_perm l :
  NoDup l.*1 -> map_to_list (collect_map l) ≡ₚ l.
Proof.
  induction l as [|[k a] l IH] using rev_ind; intros Hnd; [done|].
  rewrite fmap_app in Hnd. apply NoDup_app in Hnd as (Hl & Hk & _).
  rewrite collect_map_snoc, map_to_list_insert, (IH Hl).
  - by rewrite Permutation_app_comm.
  - apply not_elem_of_dom. rewrite dom_collect_map, elem_of_list_to_set.
    intros Hin. apply (Hk _ Hin). simpl. set_solver.
Qed.

Lemma collect_map_size_NoDup l : size (collect_map l) = length l -> NoDup l.*1.
Proof.
  intros Hsz. apply size_list_to_set_NoDup.
  by rewrite <-dom_collect_map, size_dom, length_fmap.
Qed.

Lemma collect_map_lookup l k a :
  NoDup l.*1 -> collect_map l !! k = Some a <-> (k, a) ∈ l.
Proof. intros Hnd. by rewrite <-elem_of_map_to_list, (collect_map_perm l Hnd). Qed.
End collect.

(** Collecting the entries of an ordered map gives the map back. *)
Lemma collect_map_btree {K A} `{Countable K} `{!BTreeKey K} (m : gmap K A) : collect_map (btree_iter m) = m.
Proof.
  apply map_eq. intros k. apply option_eq. intros a. rewrite <-(elem_of_btree_iter m). split; [apply collect_map_elem|].
  intros Hin. assert (k ∈ dom (collect_map (btree_iter m))) as [b Hb]%elem_of_dom.
  { rewrite dom_collect_map, elem_of_list_to_set. by apply (list_elem_of_fmap_2 fst) in Hin. }
  rewrite Hb. apply collect_map_elem, elem_of_btree_iter in Hb. apply elem_of_btree_iter in Hin. congruence.
Qed.

(** * Stake of a set of keys *)

Section weigh.
Context {K : Type} `{Countable K} (w : K -> N).
Implicit Types X Y : gset K.

Lemma weigh_empty : weigh w ∅ = 0.
Proof. unfold weigh. by rewrite elements_empty. Qed.

Lemma weigh_disj_union X Y : X ## Y -> weigh w (X ∪ Y) = weigh w X + weigh w Y.
Proof.
  intros. unfold weigh. by rewrite elements_disj_union, fmap_app, sumN_app by done.
Qed.

Lemma weigh_insert X k : k ∉ X -> weigh w ({[k]} ∪ X) = w k + weigh w X.
Proof.
  intros. rewrite weigh_disj_union by set_solver. unfold weigh.
  rewrite elements_singleton. simpl. lia.
Qed.

Lemma weigh_mono X Y : X ⊆ Y -> weigh w X <= weigh w Y.
Proof.
  intros. rewrite (union_difference_L X Y) by done.
  rewrite weigh_disj_union by set_solver. lia.
Qed.

Lemma weigh_union_inter X Y : weigh w (X ∪ Y) + weigh w (X ∩ Y) = weigh w X + weigh w Y.
Proof.
  assert (X ∪ Y = X ∪ (Y ∖ X)) as -> by (apply set_eq; intros k; destruct (decide (k ∈ X)); set_solver).
  rewrite weigh_disj_union by set_solver.
  assert (weigh w Y = weigh w (Y ∖ X) + weigh w (X ∩ Y)) as ->; [|lia].
  rewrite <-weigh_disj_union by set_solver. f_equal.
  apply set_eq; intros k; destruct (decide (k ∈ X)); set_solver.
Qed.

Lemma weigh_list_to_set (ks : list K) :
  NoDup ks -> weigh w (list_to_set ks) = sumN (w <$> ks).
Proof. intros. unfold weigh. by rewrite elements_list_to_set. Qed.
End weigh.
