(* ===== verification/Storage.v ===== *)
(** The key-value storage: ordered tables in memory, and the layered database that
    answers from memory and persists in the background.
    Models crates/storage/src/{mem_db,layered_db}.rs; the persistent backend is an
    interface, [TransactionalDb].  Keys are compared in the order of their encodings. *)

From S2P Require Import Prelude.

(** * Tables *)

Module MemTable.
Section table.
Context {K : Type} `{Countable K} `{!BTreeKey K} {V : Type}.
Implicit Types m : gmap K V.

Definition key_ltb (a b : K) : bool := negb (key_leb b a).

Fixpoint skip_while {A} (p : A -> bool) (l : list A) : list A :=
  match l with
  | [] => []
  | x :: l' => if p x then skip_while p l' else l
  end.

Definition contains_key m (k : K) : bool := bool_decide (is_Some (m !! k)).

Definition get m (k : K) : option V := m !! k.

Definition insert m (k : K) (v : V) : gmap K V := <[k := v]> m.

Definition remove m (k : K) : gmap K V := delete k m.

Definition is_empty m : bool := bool_decide (m = ∅).

Definition iter m : list (K * V) := btree_iter m.

Definition skip_to m (k : K) : list (K * V) := skip_while (fun kv => key_ltb kv.1 k) (btree_iter m).

Definition reverse_iter m : list (K * V) := rev (btree_iter m).

(** The loop of [record_prior_to], with the last record seen. *)
Fixpoint prior_loop (k : K) (last : option (K * V)) (l : list (K * V)) : option (K * V) :=
  match l with
  | [] => last
  | kv :: l' => if key_leb k kv.1 then last else prior_loop k (Some kv) l'
  end.

Definition record_prior_to m (k : K) : option (K * V) := prior_loop k None (btree_iter m).

Definition last_record m : option (K * V) := last_key_value m.

End table.
End MemTable.

(** * The in-memory database *)

(** Tables by name, on encoded keys and values. *)
Notation Store := (gmap N (gmap N N)) (only parsing).

Module MemDatabase.
Implicit Types (s : Store).

Definition open_table s (name : N) : Store := <[name := ∅]> s.

Definition get s (name key : N) : option N := s !! name ≫= fun table => MemTable.get table key.

Definition contains_key s (name key : N) : bool :=
  match s !! name with Some table => MemTable.contains_key table key | None => false end.

Definition insert s (name key value : N) : Store :=
  match s !! name with Some table => <[name := MemTable.insert table key value]> s | None => s end.

Definition remove s (name key : N) : Store :=
  match s !! name with Some table => <[name := MemTable.remove table key]> s | None => s end.

Definition clear_table s (name : N) : Store :=
  match s !! name with Some table => <[name := ∅]> s | None => s end.

Definition is_empty s (name : N) : bool :=
  match s !! name with Some table => MemTable.is_empty table | None => false end.

Definition iter {E} s (name : N) : outcome E (list (N * N)) :=
  match s !! name with Some table => Ok (MemTable.iter table) | None => Panic end.

Definition skip_to s (name key : N) : outcome unit (list (N * N)) :=
  match s !! name with Some table => Ok (MemTable.skip_to table key) | None => Err () end.

Definition reverse_iter {E} s (name : N) : outcome E (list (N * N)) :=
  match s !! name with Some table => Ok (MemTable.reverse_iter table) | None => Panic end.

Definition record_prior_to s (name key : N) : option (N * N) :=
  s !! name ≫= fun table => MemTable.record_prior_to table key.

Definition last_record s (name : N) : option (N * N) :=
  s !! name ≫= fun table => MemTable.last_record table.

End MemDatabase.

(** * The persistent backend *)

(** What the layered database uses of its backend: iterators, single operations that commit,
    and a write transaction.  Every one of them can fail. *)
Class TransactionalDb (DB Txn : Type) := {
  db_iter : DB -> N -> outcome unit (list (N * N));
  db_write_txn : DB -> outcome unit Txn;
  db_insert : DB -> N -> N -> N -> DB * outcome unit unit;
  db_remove : DB -> N -> N -> DB * outcome unit unit;
  db_clear : DB -> N -> DB * outcome unit unit;
  txn_insert : Txn -> N -> N -> N -> Txn * outcome unit unit;
  txn_remove : Txn -> N -> N -> Txn * outcome unit unit;
  txn_clear : Txn -> N -> Txn * outcome unit unit;
  txn_commit : DB -> Txn -> DB * outcome unit unit;
}.

(** A write that succeeds takes [pre] to [post]; one that does not gives an error, and does
    not panic. *)
Definition writes {S} (r : S * outcome unit unit) (pre : Prop) (post : S -> Prop) : Prop :=
  match r.2 with
  | Ok _ => pre -> post r.1
  | Err _ => True
  | Panic | OutOfFuel => False
  end.

(** What a backend promises: on well-formed contents and tables that were opened, a write that
    succeeds is the one of the in-memory database, in a transaction it becomes visible when
    the commit succeeds.  Nothing is promised about a transaction after a write in it
    failed. *)
Class TransactionalLaws (DB Txn : Type) `{!TransactionalDb DB Txn} := {
  db_view : DB -> Store;
  txn_view : Txn -> Store;
  db_wf : DB -> Prop;
  txn_wf : Txn -> Prop;
  write_txn_law d : match db_write_txn d with
    | Ok t => db_wf d -> txn_wf t /\ txn_view t = db_view d
    | Err _ => True
    | Panic | OutOfFuel => False
    end;
  db_insert_law d n k v : writes (db_insert d n k v) (db_wf d /\ is_Some (db_view d !! n))
    (fun d' => db_wf d' /\ db_view d' = MemDatabase.insert (db_view d) n k v);
  db_remove_law d n k : writes (db_remove d n k) (db_wf d /\ is_Some (db_view d !! n))
    (fun d' => db_wf d' /\ db_view d' = MemDatabase.remove (db_view d) n k);
  db_clear_law d n : writes (db_clear d n) (db_wf d /\ is_Some (db_view d !! n))
    (fun d' => db_wf d' /\ db_view d' = MemDatabase.clear_table (db_view d) n);
  txn_insert_law t n k v : writes (txn_insert t n k v) (txn_wf t /\ is_Some (txn_view t !! n))
    (fun t' => txn_wf t' /\ txn_view t' = MemDatabase.insert (txn_view t) n k v);
  txn_remove_law t n k : writes (txn_remove t n k) (txn_wf t /\ is_Some (txn_view t !! n))
    (fun t' => txn_wf t' /\ txn_view t' = MemDatabase.remove (txn_view t) n k);
  txn_clear_law t n : writes (txn_clear t n) (txn_wf t /\ is_Some (txn_view t !! n))
    (fun t' => txn_wf t' /\ txn_view t' = MemDatabase.clear_table (txn_view t) n);
  txn_commit_law d t : writes (txn_commit d t) (txn_wf t) (fun d' => db_wf d' /\ db_view d' = txn_view t);
}.

(** * The layered database *)

Inductive DBMessage :=
  | StartTxn
  | CommitTxn
  | Insert (name key value : N)
  | Remove (name key : N)
  | Clear (name : N)
  | Shutdown.

Module LayeredDatabase.
Section layered.
Context {DB Txn : Type} `{!TransactionalDb DB Txn}.

(** The memory, the messages sent and not yet handled, and the state of the background
    thread: the backend, its open transaction with the number of clients in it, whether
    it still runs, and how many errors it has logged. *)
Record t := mk {
  mem_db : Store;
  queue : list DBMessage;
  db : DB;
  txn : option (Txn * N);
  running : bool;
  errors : N;
}.

(** [open] followed by [open_table] of every table of the backend. *)
Definition open_table (mem : Store) (d : DB) (name : N) : outcome unit Store :=
  let mem := MemDatabase.open_table mem name in
  rows ← db_iter d name;
  Ok (foldl (fun mem kv => MemDatabase.insert mem name kv.1 kv.2) mem rows).

Definition open (d : DB) (tables : list N) : outcome unit t :=
  mem ← foldM (fun mem name => open_table mem d name) ∅ tables;
  Ok (mk mem [] d None true 0).

(** A send fails when the thread is gone. *)
Definition send (l : t) (m : DBMessage) : t * bool :=
  if running l then (mk (mem_db l) (queue l ++ [m]) (db l) (txn l) true (errors l), true) else (l, false).

Definition set_mem (l : t) (mem : Store) : t := mk mem (queue l) (db l) (txn l) (running l) (errors l).

(** The operations of the database and of a write transaction, which do the same. *)
Definition insert (l : t) (name key value : N) : t * bool :=
  send (set_mem l (MemDatabase.insert (mem_db l) name key value)) (Insert name key value).

Definition remove (l : t) (name key : N) : t * bool :=
  send (set_mem l (MemDatabase.remove (mem_db l) name key)) (Remove name key).

Definition clear_table (l : t) (name : N) : t * bool :=
  send (set_mem l (MemDatabase.clear_table (mem_db l) name)) (Clear name).

Definition write_txn (l : t) : t * bool := send l StartTxn.

Definition commit (l : t) : t * bool := send l CommitTxn.

Definition get (l : t) (name key : N) : option N := MemDatabase.get (mem_db l) name key.

(** One iteration of [db_run] on the backend and its transaction: [Ok] tells whether to go
    on, an error is logged. *)
Definition handle (d : DB) (tx : option (Txn * N)) (m : DBMessage) : DB * option (Txn * N) * outcome unit bool :=
  match m with
  | StartTxn =>
      match tx with
      | Some (t, count) => (d, Some (t, count + 1), Ok true)
      | None =>
          match db_write_txn d with
          | Ok ntxn => (d, Some (ntxn, 1), Ok true)
          | Err e => (d, None, Err e)
          | Panic => (d, None, Panic)
          | OutOfFuel => (d, None, OutOfFuel)
          end
      end
  | CommitTxn =>
      match tx with
      | Some (t, count) =>
          if count <=? 1 then let '(d, r) := txn_commit d t in (d, None, (_ ← r; Ok true))
          else (d, Some (t, count - 1), Ok true)
      | None => (d, None, Ok true)
      end
  | Insert n k v =>
      match tx with
      | Some (t, count) => let '(t, r) := txn_insert t n k v in (d, Some (t, count), (_ ← r; Ok true))
      | None => let '(d, r) := db_insert d n k v in (d, None, (_ ← r; Ok true))
      end
  | Remove n k =>
      match tx with
      | Some (t, count) => let '(t, r) := txn_remove t n k in (d, Some (t, count), (_ ← r; Ok true))
      | None => let '(d, r) := db_remove d n k in (d, None, (_ ← r; Ok true))
      end
  | Clear n =>
      match tx with
      | Some (t, count) => let '(t, r) := txn_clear t n in (d, Some (t, count), (_ ← r; Ok true))
      | None => let '(d, r) := db_clear d n in (d, None, (_ ← r; Ok true))
      end
  | Shutdown => (d, tx, Ok false)
  end.

(** The background thread takes the next message; a panic ends it. *)
Definition db_run_step (l : t) : t :=
  match queue l with
  | m :: q =>
      if running l then
        let '(d, tx, r) := handle (db l) (txn l) m in
        match r with
        | Ok go => mk (mem_db l) q d tx go (errors l)
        | Err _ => mk (mem_db l) q d tx true (errors l + 1)
        | Panic | OutOfFuel => mk (mem_db l) q d tx false (errors l)
        end
      else l
  | [] => l
  end.

(** The background thread handles what was sent. *)
Definition drain (l : t) : t := Nat.iter (length (queue l)) db_run_step l.

End layered.
Arguments t : clear implicits.
End LayeredDatabase.

(** * Facts about tables *)

Module TableFacts.
Section table.
Context {K : Type} `{Countable K} `{!BTreeKey K} {V : Type}.
Implicit Types m : gmap K V.

Lemma key_ltb_iff (a b : K) : MemTable.key_ltb a b = true <-> key_leb a b = true /\ a <> b.
Proof.
  unfold MemTable.key_ltb. rewrite negb_true_iff. split.
  - intros Hn. destruct (key_leb_total a b) as [?|?]; [|congruence]. split; [done|]. intros ->.
    destruct (key_leb_total b b); congruence.
  - intros [Hle Hne]. destruct (key_leb b a) eqn:Hba; [|done]. by destruct Hne; apply key_leb_antisymm.
Qed.

Lemma iter_key_unique m k v v' : (k, v) ∈ btree_iter m -> (k, v') ∈ btree_iter m -> v = v'.
Proof. rewrite !elem_of_btree_iter. congruence. Qed.

(** Sorted lists skip exactly their smaller part. *)
Lemma skip_while_filter (l : list (K * V)) k :
  StronglySorted (fun p q => key_leb p.1 q.1 = true) l ->
  MemTable.skip_while (fun kv => MemTable.key_ltb kv.1 k) l = filter (fun kv => key_leb k kv.1 = true) l.
Proof.
  induction 1 as [|x l Hs IH Hx]; simpl; [done|]. rewrite Forall_forall in Hx.
  unfold MemTable.key_ltb at 1. destruct (key_leb k x.1) eqn:Hk; simpl.
  - rewrite filter_cons_True by done. f_equal. symmetry. apply filter_all. intros y Hy.
    eapply key_leb_trans; [exact Hk|by apply Hx].
  - rewrite filter_cons_False by congruence. done.
Qed.

Lemma skip_to_spec m k : MemTable.skip_to m k = filter (fun kv => key_leb k kv.1 = true) (btree_iter m).
Proof. apply skip_while_filter, btree_iter_sorted. Qed.

Lemma prior_loop_spec (l : list (K * V)) k acc :
  StronglySorted (fun p q => key_leb p.1 q.1 = true) l ->
  MemTable.prior_loop k acc l =
    match last (filter (fun kv => key_leb k kv.1 = false) l) with Some x => Some x | None => acc end.
Proof.
  intros Hs. revert acc. induction Hs as [|x l Hs IH Hx]; intros acc; simpl; [done|].
  rewrite Forall_forall in Hx. destruct (key_leb k x.1) eqn:Hk.
  - assert (filter (fun kv : K * V => key_leb k kv.1 = false) (x :: l) = []) as ->; [|done].
    apply elem_of_nil_inv. intros y [Hy Hin]%list_elem_of_filter.
    apply elem_of_cons in Hin as [->|Hin]; [congruence|].
    assert (key_leb k y.1 = true) by (eapply key_leb_trans; [exact Hk|by apply Hx]). congruence.
  - rewrite IH, filter_cons_True by done. rewrite last_cons. by destruct (last _).
Qed.

(** The record before a key is the greatest smaller one. *)
Lemma record_prior_to_Some m k k' v :
  MemTable.record_prior_to m k = Some (k', v) <->
  m !! k' = Some v /\ key_leb k k' = false /\
  forall j, is_Some (m !! j) -> key_leb k j = false -> key_leb j k' = true.
Proof.
  unfold MemTable.record_prior_to. rewrite prior_loop_spec by apply btree_iter_sorted.
  set (l := filter _ _).
  assert (StronglySorted (fun p q : K * V => key_leb p.1 q.1 = true) l) as Hsl.
  { apply StronglySorted_filter, btree_iter_sorted. }
  assert (forall j w, (j, w) ∈ l <-> m !! j = Some w /\ key_leb k j = false) as Hl.
  { intros j w. unfold l. rewrite list_elem_of_filter, elem_of_btree_iter. simpl. naive_solver. }
  destruct (last l) as [[k0 v0]|] eqn:Hlast.
  - apply last_Some in Hlast as [l' Hl'].
    assert ((k0, v0) ∈ l) as [Hk0 Hlt]%Hl by (rewrite Hl'; set_solver).
    assert (forall j, is_Some (m !! j) -> key_leb k j = false -> key_leb j k0 = true) as Hmax.
    { intros j [w Hw] Hj. assert ((j, w) ∈ l) as Hin by (by apply Hl). rewrite Hl' in Hin, Hsl.
      apply elem_of_app in Hin as [Hin|Hin%list_elem_of_singleton].
      - apply (StronglySorted_app_elem _ _ _ (j, w) (k0, v0)) in Hsl; [done|done|set_solver].
      - simplify_eq. destruct (key_leb_total k0 k0); done. }
    split; [intros [= <- <-]; done|]. intros (Hk' & Hlt' & Hmax').
    assert (k0 = k') as -> by (apply key_leb_antisymm; [apply Hmax'|apply Hmax]; eauto). congruence.
  - apply last_None in Hlast. split; [done|]. intros (Hk' & Hlt & _).
    assert ((k', v) ∈ l) as Hin by (by apply Hl). rewrite Hlast in Hin. by apply elem_of_nil in Hin.
Qed.

Lemma record_prior_to_None m k :
  MemTable.record_prior_to m k = None -> forall j, is_Some (m !! j) -> key_leb k j = false -> False.
Proof.
  unfold MemTable.record_prior_to. rewrite prior_loop_spec by apply btree_iter_sorted.
  destruct (last _) eqn:Hl; [done|]. intros _ j [v Hj] Hk. apply last_None in Hl.
  assert ((j, v) ∈ filter (fun kv : K * V => key_leb k kv.1 = false) (btree_iter m)) as Hin.
  { apply list_elem_of_filter. by rewrite elem_of_btree_iter. }
  rewrite Hl in Hin. by apply elem_of_nil in Hin.
Qed.

(** The first record from a key on is the least one. *)
Lemma skip_to_head m k k' v :
  head (MemTable.skip_to m k) = Some (k', v) ->
  m !! k' = Some v /\ key_leb k k' = true /\
  forall j, is_Some (m !! j) -> key_leb k j = true -> key_leb k' j = true.
Proof.
  rewrite skip_to_spec. set (l := filter _ _).
  assert (StronglySorted (fun p q : K * V => key_leb p.1 q.1 = true) l) as Hs by apply StronglySorted_filter, btree_iter_sorted.
  assert (forall j w, (j, w) ∈ l <-> m !! j = Some w /\ key_leb k j = true) as Hl.
  { intros j w. unfold l. rewrite list_elem_of_filter, elem_of_btree_iter. simpl. naive_solver. }
  destruct l as [|x l']; [done|]. intros [= ->].
  assert ((k', v) ∈ (k', v) :: l') as [Hm Hk]%Hl by set_solver. split_and!; [done|done|].
  intros j [w Hw] Hj. assert ((j, w) ∈ (k', v) :: l') as Hin by (by apply Hl).
  inversion Hs as [|? ? _ Hx]; subst. rewrite Forall_forall in Hx.
  apply elem_of_cons in Hin as [[= -> ->]|Hin]; [by destruct (key_leb_total k' k')|]. by apply (Hx (j, w)).
Qed.

Lemma skip_to_head_None m k j :
  head (MemTable.skip_to m k) = None -> is_Some (m !! j) -> key_leb k j = false.
Proof.
  rewrite skip_to_spec. intros Hh [v Hv]. destruct (key_leb k j) eqn:Hk; [|done].
  assert ((j, v) ∈ filter (fun kv : K * V => key_leb k kv.1 = true) (btree_iter m)) as Hin.
  { apply list_elem_of_filter. by rewrite elem_of_btree_iter. }
  destruct (filter _ _); [by apply elem_of_nil in Hin|done].
Qed.

End table.
End TableFacts.

(** * The layered database refines the in-memory one *)

Module LayeredFacts.
Import LayeredDatabase.
Section layered.
Context {DB Txn : Type} `{!TransactionalDb DB Txn} `{!TransactionalLaws DB Txn}.
Implicit Types (l : t DB Txn) (s : Store).

(** The clients' operations on open tables and the steps of the background thread. *)
Inductive layered_step l : t DB Txn -> Prop :=
  | step_insert n k v : is_Some (mem_db l !! n) -> layered_step l (insert l n k v).1
  | step_remove n k : is_Some (mem_db l !! n) -> layered_step l (remove l n k).1
  | step_clear n : is_Some (mem_db l !! n) -> layered_step l (clear_table l n).1
  | step_write_txn : layered_step l (write_txn l).1
  | step_commit : layered_step l (commit l).1
  | step_background : layered_step l (db_run_step l).

(** The effect of a message on the data. *)
Definition apply_msg s (m : DBMessage) : Store :=
  match m with
  | Insert n k v => MemDatabase.insert s n k v
  | Remove n k => MemDatabase.remove s n k
  | Clear n => MemDatabase.clear_table s n
  | _ => s
  end.

(** The table of a message is open. *)
Definition on_table s (m : DBMessage) : Prop :=
  match m with
  | Insert n _ _ | Remove n _ | Clear n => is_Some (s !! n)
  | _ => True
  end.

(** The number of clients in the transaction after a message. *)
Definition count_msg (c : N) (m : DBMessage) : N :=
  match m with
  | StartTxn => c + 1
  | CommitTxn => c - 1
  | _ => c
  end.

(** What the background thread has done so far, committed or not. *)
Definition current (d : DB) (tx : option (Txn * N)) : Store :=
  match tx with Some (x, _) => txn_view x | None => db_view d end.

Definition count (tx : option (Txn * N)) : N := match tx with Some (_, c) => c | None => 0 end.

(** The transactions opened by clients and not yet committed, counting the queue. *)
Definition opened l : N := foldl count_msg (count (txn l)) (queue l).

(** States reached from [l0], with the past contents of the memory. *)
Inductive reach (l0 : t DB Txn) : list Store -> t DB Txn -> Prop :=
  | reach_init : reach l0 [mem_db l0] l0
  | reach_step past l l' : reach l0 past l -> layered_step l l' -> reach l0 (mem_db l' :: past) l'.

(** A transaction has a client, and well-formed tables. *)
Definition txn_good (tx : option (Txn * N)) : Prop := forall x c, tx = Some (x, c) -> 1 <= c /\ txn_wf x.

(** As long as nothing was logged. *)
Record layered_inv (past : list Store) l : Prop := {
  lay_prefix q1 q2 : queue l = q1 ++ q2 -> foldl apply_msg (current (db l) (txn l)) q1 ∈ past;
  lay_replay : foldl apply_msg (current (db l) (txn l)) (queue l) = mem_db l;
  lay_durable : db_view (db l) ∈ past;
  lay_wf : db_wf (db l);
  lay_txn : txn_good (txn l);
  lay_tables m : m ∈ queue l -> on_table (mem_db l) m;
}.

(** Messages keep the tables. *)
Lemma apply_msg_tables s m n : is_Some (apply_msg s m !! n) <-> is_Some (s !! n).
Proof.
  destruct m as [| |n' k v|n' k|n'|]; try done; cbn [apply_msg]; unfold MemDatabase.insert, MemDatabase.remove, MemDatabase.clear_table;
    destruct (s !! n') as [tbl|] eqn:Hn; try done; (destruct (decide (n = n')) as [->|]; [rewrite lookup_insert_eq, Hn; split; intros; by eexists|by rewrite lookup_insert_ne]).
Qed.

Lemma on_table_apply s m m' : on_table (apply_msg s m) m' <-> on_table s m'.
Proof. destruct m'; cbn [on_table]; try done; apply apply_msg_tables. Qed.

Lemma on_table_replay q s m : on_table (foldl apply_msg s q) m <-> on_table s m.
Proof. revert s. induction q as [|m' q IH]; intros s; cbn [foldl]; [done|]. by rewrite IH, on_table_apply. Qed.

(** A message is handled, or its error is logged; the thread goes on. *)
Lemma handle_spec d tx m :
  m <> Shutdown ->
  let '(d', tx', r) := handle d tx m in
  match r with
  | Ok go => go = true /\ (db_wf d -> txn_good tx -> on_table (current d tx) m ->
      current d' tx' = apply_msg (current d tx) m /\ count tx' = count_msg (count tx) m /\
      (db_view d' = db_view d \/ db_view d' = current d' tx') /\ db_wf d' /\ txn_good tx')
  | Err _ => True
  | Panic | OutOfFuel => False
  end.
Proof.
  intros Hm. destruct tx as [[x c]|]; destruct m; try done; cbn [handle].
  - split; [done|]. intros Hwf Hg _. destruct (Hg x c eq_refl). split_and!; [done..|by left|done|]. intros ? ? [= <- <-]. split; [lia|done].
  - destruct (N.leb_spec c 1).
    + pose proof (txn_commit_law d x) as Hl. unfold writes in Hl. destruct (txn_commit d x) as [d' [[]|e| |]]; simpl in *; try done.
      split; [done|]. intros Hwf Hg _. destruct (Hg x c eq_refl) as [Hc Hx]. destruct (Hl Hx) as [Hwf' Hv].
      split_and!; [done|lia|by right|done|done].
    + split; [done|]. intros Hwf Hg _. destruct (Hg x c eq_refl). split_and!; [done..|by left|done|]. intros ? ? [= <- <-]. split; [lia|done].
  - pose proof (txn_insert_law x name key value) as Hl. unfold writes in Hl. destruct (txn_insert x name key value) as [x' [[]|e| |]]; simpl in *; try done.
    split; [done|]. intros Hwf Hg Ht. destruct (Hg x c eq_refl) as [Hc Hx]. destruct (Hl (conj Hx Ht)) as [Hwf' Hv].
    split_and!; [done..|by left|done|]. by intros ? ? [= <- <-].
  - pose proof (txn_remove_law x name key) as Hl. unfold writes in Hl. destruct (txn_remove x name key) as [x' [[]|e| |]]; simpl in *; try done.
    split; [done|]. intros Hwf Hg Ht. destruct (Hg x c eq_refl) as [Hc Hx]. destruct (Hl (conj Hx Ht)) as [Hwf' Hv].
    split_and!; [done..|by left|done|]. by intros ? ? [= <- <-].
  - pose proof (txn_clear_law x name) as Hl. unfold writes in Hl. destruct (txn_clear x name) as [x' [[]|e| |]]; simpl in *; try done.
    split; [done|]. intros Hwf Hg Ht. destruct (Hg x c eq_refl) as [Hc Hx]. destruct (Hl (conj Hx Ht)) as [Hwf' Hv].
    split_and!; [done..|by left|done|]. by intros ? ? [= <- <-].
  - pose proof (write_txn_law d) as Hl. destruct (db_write_txn d) as [x|e| |]; simpl in *; try done.
    split; [done|]. intros Hwf Hg _. destruct (Hl Hwf) as [Hx Hv]. split_and!; [done..|by left|done|]. by intros ? ? [= <- <-].
  - split; [done|]. intros Hwf Hg _. split_and!; [done..|by left|done|done].
  - pose proof (db_insert_law d name key value) as Hl. unfold writes in Hl. destruct (db_insert d name key value) as [d' [[]|e| |]]; simpl in *; try done.
    split; [done|]. intros Hwf Hg Ht. destruct (Hl (conj Hwf Ht)) as [Hwf' Hv]. split_and!; [done..|by right|done|done].
  - pose proof (db_remove_law d name key) as Hl. unfold writes in Hl. destruct (db_remove d name key) as [d' [[]|e| |]]; simpl in *; try done.
    split; [done|]. intros Hwf Hg Ht. destruct (Hl (conj Hwf Ht)) as [Hwf' Hv]. split_and!; [done..|by right|done|done].
  - pose proof (db_clear_law d name) as Hl. unfold writes in Hl. destruct (db_clear d name) as [d' [[]|e| |]]; simpl in *; try done.
    split; [done|]. intros Hwf Hg Ht. destruct (Hl (conj Hwf Ht)) as [Hwf' Hv]. split_and!; [done..|by right|done|done].
Qed.

(** A client's message keeps the invariant: the memory changes as the message says. *)
Lemma send_inv past l s m :
  running l = true -> layered_inv past l -> on_table (mem_db l) m -> s = apply_msg (mem_db l) m ->
  layered_inv (mem_db (send (set_mem l s) m).1 :: past) (send (set_mem l s) m).1.
Proof.
  intros Hr [Hp Hre Hd Hwf Hc Htb] Hm ->. unfold send. simpl. rewrite Hr. simpl. constructor; simpl; [| | |done|done|].
  - intros q1 q2 Hq. destruct (decide (q2 = [])) as [->|Hne].
    + rewrite app_nil_r in Hq. subst q1. rewrite foldl_app, Hre. simpl. set_solver.
    + destruct (exists_last Hne) as (q2' & m' & ->). rewrite app_assoc in Hq.
      apply app_inj_tail in Hq as [Hq _]. apply elem_of_cons. right. by eapply Hp.
  - by rewrite foldl_app, Hre.
  - set_solver.
  - intros m' [Hm'| ->%list_elem_of_singleton]%elem_of_app; apply on_table_apply; [by apply Htb|done].
Qed.

(** The thread goes on whatever fails, and leaves the memory. *)
Lemma background_runs l : running l = true -> (forall m, m ∈ queue l -> m <> Shutdown) ->
  running (db_run_step l) = true /\ queue (db_run_step l) = tail (queue l) /\ mem_db (db_run_step l) = mem_db l /\
  errors l <= errors (db_run_step l).
Proof.
  intros Hr Hns. unfold db_run_step. destruct (queue l) as [|m q] eqn:Hq; [rewrite Hq; split_and!; [done..|lia]|]. rewrite Hr.
  pose proof (handle_spec (db l) (txn l) m (Hns m ltac:(set_solver))) as Hh.
  destruct (handle (db l) (txn l) m) as [[d' tx'] [go|e| |]]; simpl; [destruct Hh as [-> _]| |done|done]; split_and!; done || lia.
Qed.

Lemma background_inv past l :
  running l = true -> (forall m, m ∈ queue l -> m <> Shutdown) -> layered_inv past l -> errors (db_run_step l) = errors l ->
  layered_inv (mem_db (db_run_step l) :: past) (db_run_step l) /\ opened (db_run_step l) = opened l.
Proof.
  intros Hr Hns [Hp Hre Hd Hwf Hc Htb]. unfold db_run_step, opened.
  destruct (queue l) as [|m q] eqn:Hq.
  { intros _. split; [|by rewrite Hq]. constructor; rewrite ?Hq in *; [|done|set_solver|done|done|done].
    intros q1 q2 Hqq. specialize (Hp q1 q2 Hqq). set_solver. }
  rewrite Hr. pose proof (handle_spec (db l) (txn l) m (Hns m ltac:(set_solver))) as Hh.
  assert (on_table (current (db l) (txn l)) m) as Ht by (apply (on_table_replay (m :: q)); rewrite Hre; apply Htb; set_solver).
  destruct (handle (db l) (txn l) m) as [[d' tx'] [go|e| |]]; simpl; [|lia|done|done]. intros _.
  destruct Hh as [-> Hh]. destruct (Hh Hwf Hc Ht) as (Hcur & Hcnt & Hdv & Hwf' & Hc').
  split; [|by rewrite Hcnt]. constructor; simpl; [| | |done|done|].
  - intros q1 q2 ->. rewrite Hcur. apply elem_of_cons. right. exact (Hp (m :: q1) q2 eq_refl).
  - by rewrite Hcur.
  - apply elem_of_cons. right. destruct Hdv as [->| ->]; [done|]. rewrite Hcur. exact (Hp [m] q eq_refl).
  - intros m' Hm'. apply Htb. set_solver.
Qed.

(** The thread runs in every state that is reached; with nothing logged, it is up to date. *)
Definition state_ok (past : list Store) l : Prop :=
  running l = true /\ (forall m, m ∈ queue l -> m <> Shutdown) /\ (errors l = 0 -> layered_inv past l).

Lemma send_ok past l s m : m <> Shutdown -> on_table (mem_db l) m -> s = apply_msg (mem_db l) m ->
  state_ok past l -> state_ok (mem_db (send (set_mem l s) m).1 :: past) (send (set_mem l s) m).1.
Proof.
  intros Hm Ht -> (Hr & Hns & Hinv). unfold state_ok. split_and!.
  - unfold send. simpl. by rewrite Hr.
  - unfold send. simpl. rewrite Hr. simpl. intros m' [?| ->%list_elem_of_singleton]%elem_of_app; [by apply Hns|done].
  - intros He. apply send_inv; [done| |done|done]. apply Hinv. unfold send in He. simpl in He. by rewrite Hr in He.
Qed.

Lemma background_ok past l : state_ok past l -> state_ok (mem_db (db_run_step l) :: past) (db_run_step l).
Proof.
  intros (Hr & Hns & Hinv). destruct (background_runs l Hr Hns) as (Hr' & Hq & Hm & He). split_and!; [done| |].
  - rewrite Hq. intros m Hin. apply Hns. destruct (queue l); [done|]. set_solver.
  - intros He'. apply background_inv; [done|done|apply Hinv; lia|lia].
Qed.

Lemma reach_ok l0 past l :
  mem_db l0 = db_view (db l0) -> queue l0 = [] -> txn l0 = None -> running l0 = true -> db_wf (db l0) ->
  reach l0 past l -> state_ok past l.
Proof.
  intros Hm Hq Ht Hr Hwf. induction 1 as [|past l l' _ IH Hstep].
  - split_and!; [done|rewrite Hq; by intros m ?%elem_of_nil|]. intros _.
    constructor; rewrite ?Hq, ?Ht; simpl; [|done|rewrite Hm; set_solver|done|done|by intros m ?%elem_of_nil].
    intros q1 q2 Hqq. symmetry in Hqq. apply app_eq_nil in Hqq as [-> _]. simpl. rewrite Hm. set_solver.
  - assert (l = set_mem l (mem_db l)) as Heta by (by destruct l).
    destruct Hstep; [by apply send_ok..|unfold write_txn; rewrite Heta; by apply send_ok|unfold commit; rewrite Heta; by apply send_ok|].
    by apply background_ok.
Qed.

(** Opening a table loads the records that the backend's iterator gives. *)
Lemma open_table_spec mem (d : DB) name m : db_iter d name = Ok (MemTable.iter m) ->
  open_table mem d name = Ok (<[name := m]> mem).
Proof.
  intros Hi. unfold open_table, MemDatabase.open_table. rewrite Hi. simpl. f_equal.
  assert (forall kvs (t0 : gmap N N), foldl (fun mem kv => MemDatabase.insert mem name kv.1 kv.2) (<[name := t0]> mem) kvs =
    <[name := foldl (fun t kv => <[kv.1 := kv.2]> t) t0 kvs]> mem) as Hf.
  { induction kvs as [|kv kvs IH]; intros t0; simpl; [done|].
    unfold MemDatabase.insert at 2. rewrite lookup_insert_eq. unfold MemTable.insert.
    by rewrite insert_insert_eq, IH. }
  rewrite Hf. f_equal. apply map_eq. intros k. apply option_eq. intros v.
  change (foldl _ ∅ (MemTable.iter m)) with (collect_map (MemTable.iter m)).
  rewrite collect_map_lookup by apply btree_keys_NoDup. apply elem_of_btree_iter.
Qed.

(** The tables of the backend are read in full when they are opened. *)
Definition loads (d : DB) (tables : list N) : Prop :=
  (forall n, is_Some (db_view d !! n) <-> n ∈ tables) /\
  forall n, n ∈ tables -> db_iter d n = MemDatabase.iter (db_view d) n.

Lemma open_spec (d : DB) tables :
  loads d tables -> open d tables = Ok (mk (db_view d) [] d None true 0).
Proof.
  intros [Ht Hl].
  assert (forall ts mem, (forall n, n ∈ ts -> n ∈ tables) -> exists mem', foldM (fun mem name => open_table mem d name) mem ts = Ok mem' /\
    forall n, mem' !! n = if decide (n ∈ ts) then db_view d !! n else mem !! n) as Hf.
  { induction ts as [|x ts IH]; intros mem Hts; [exists mem; split; [done|]; intros n; by rewrite decide_False by apply not_elem_of_nil|].
    assert (x ∈ tables) as Hx by set_solver. destruct (proj2 (Ht x) Hx) as [m Hm].
    assert (db_iter d x = Ok (MemTable.iter m)) as Hi by (rewrite (Hl x Hx); unfold MemDatabase.iter; by rewrite Hm).
    cbn [foldM]. rewrite (open_table_spec mem d x m Hi). cbn [mbind outcome_bind].
    destruct (IH (<[x := m]> mem) ltac:(set_solver)) as (mem' & Hf & Hn). exists mem'. split; [done|]. intros n. rewrite Hn.
    destruct (decide (n ∈ ts)); [by rewrite decide_True by set_solver|].
    destruct (decide (n = x)) as [->|]; [by rewrite lookup_insert_eq, decide_True by set_solver|].
    by rewrite lookup_insert_ne, decide_False by set_solver. }
  destruct (Hf tables ∅ ltac:(done)) as (mem' & Hfold & Hn). unfold open. rewrite Hfold. cbn [mbind outcome_bind]. f_equal. f_equal.
  apply map_eq. intros n. rewrite Hn, lookup_empty. case_decide as Hin; [done|].
  destruct (db_view d !! n) as [m|] eqn:Hm; [|done]. destruct Hin. apply Ht. by eauto.
Qed.

(** Running the background thread over its queue. *)
Lemma queue_drained past l :
  state_ok past l -> queue (drain l) = [] /\ mem_db (drain l) = mem_db l /\ errors l <= errors (drain l) /\
  (errors (drain l) = 0 -> opened (drain l) = opened l) /\ exists past', state_ok past' (drain l).
Proof.
  unfold drain. remember (queue l) as q eqn:Hq. revert past l Hq. induction q as [|m q IH]; intros past l Hq Hok.
  { simpl. split_and!; [done..|by eauto]. }
  pose proof Hok as (Hr & Hns & Hinv). destruct (background_runs l Hr Hns) as (_ & Hq' & Hm' & He'). rewrite <-Hq in Hq'. simpl in Hq'.
  destruct (IH _ (db_run_step l) (eq_sym Hq') (background_ok past l Hok)) as (Hqe & Hme & Hee & Hoe & Hex).
  cbn [length]. rewrite Nat.iter_succ_r. split_and!; [done|congruence|lia| |done].
  intros He0. rewrite Hoe by done. apply (background_inv past); [done..|apply Hinv; lia|lia].
Qed.

End layered.
End LayeredFacts.

(** * Properties *)

Section properties.
Context {DB Txn : Type} `{!TransactionalDb DB Txn} `{!TransactionalLaws DB Txn}.
Import LayeredDatabase LayeredFacts.

(** The layered database is durable: from opening a backend, through any interleaving
    of inserts, removals, clears, transactions and steps of the background thread, the
    thread goes on; as long as it has logged no error, what the backend holds is the complete
    content the memory had at some earlier moment, and replaying the queued messages on it
    gives the present memory. *)
Theorem layered_durable (d : DB) tables past l0 l :
  db_wf d -> loads d tables -> open d tables = Ok l0 -> reach l0 past l ->
  running l = true /\
  (errors l = 0 -> db_view (db l) ∈ past /\ foldl apply_msg (current (db l) (txn l)) (queue l) = mem_db l).
Proof.
  intros Hwf Hl Ho Hr. rewrite (open_spec d tables Hl) in Ho. injection Ho as <-.
  apply reach_ok in Hr as (Hrun & _ & Hinv); [|done..]. split; [done|]. intros He. by destruct (Hinv He).
Qed.

(** Once every client has committed its transaction, the background thread persists
    everything unless it logs an error: after handling its queue the backend equals the
    memory, and the memory is unchanged. *)
Theorem layered_persists (d : DB) tables past l0 l :
  db_wf d -> loads d tables -> open d tables = Ok l0 -> reach l0 past l -> opened l = 0 ->
  queue (drain l) = [] /\ mem_db (drain l) = mem_db l /\ running (drain l) = true /\
  (errors (drain l) = 0 -> txn (drain l) = None /\ db_view (db (drain l)) = mem_db l /\ db_wf (db (drain l))).
Proof.
  intros Hwf Hl Ho Hr Hop. rewrite (open_spec d tables Hl) in Ho. injection Ho as <-.
  apply reach_ok in Hr as Hok; [|done..].
  destruct (queue_drained past l Hok) as (Hq & Hm & He & Hc & past' & Hrun & _ & Hinv). split_and!; [done..|]. intros He0.
  destruct (Hinv He0) as [_ Hre _ Hwf' Hg _]. specialize (Hc He0). rewrite Hop in Hc. unfold opened in Hc. rewrite Hq in *. simpl in *.
  assert (txn (drain l) = None) as Htx.
  { destruct (txn (drain l)) as [[x c]|]; [|done]. destruct (Hg x c eq_refl). simpl in Hc. lia. }
  rewrite Htx in Hre. simpl in Hre. split_and!; [done|congruence|done].
Qed.

(** Seeking in a table: [skip_to] returns exactly the records from the key on, in
    order, and [record_prior_to] the record with the greatest smaller key. *)
Theorem table_seek {K V : Type} `{Countable K} `{!BTreeKey K} (m : gmap K V) k :
  (forall k' v, (k', v) ∈ MemTable.skip_to m k <-> m !! k' = Some v /\ key_leb k k' = true) /\
  StronglySorted (fun p q => key_leb p.1 q.1 = true) (MemTable.skip_to m k) /\
  (forall k' v, MemTable.record_prior_to m k = Some (k', v) <->
     m !! k' = Some v /\ key_leb k k' = false /\
     forall j, is_Some (m !! j) -> key_leb k j = false -> key_leb j k' = true).
Proof.
  split_and!.
  - intros k' v. rewrite TableFacts.skip_to_spec, list_elem_of_filter, elem_of_btree_iter. simpl. naive_solver.
  - rewrite TableFacts.skip_to_spec. apply StronglySorted_filter, btree_iter_sorted.
  - intros k' v. apply TableFacts.record_prior_to_Some.
Qed.

End properties.

(** * Witnesses *)

Section witnesses.
Import LayeredDatabase LayeredFacts.

(** A backend that is a store, with transactions on a copy; it refuses the value 0, so that
    it can fail. *)
Definition refuse {S} (s s' : S) (v : N) : S * outcome unit unit := if v =? 0 then (s, Err ()) else (s', Ok ()).

Definition store_db : TransactionalDb Store Store := {|
  db_iter s n := MemDatabase.iter s n;
  db_write_txn s := Ok s;
  db_insert s n k v := refuse s (MemDatabase.insert s n k v) v;
  db_remove s n k := (MemDatabase.remove s n k, Ok ());
  db_clear s n := (MemDatabase.clear_table s n, Ok ());
  txn_insert s n k v := refuse s (MemDatabase.insert s n k v) v;
  txn_remove s n k := (MemDatabase.remove s n k, Ok ());
  txn_clear s n := (MemDatabase.clear_table s n, Ok ());
  txn_commit _ t := (t, Ok ());
|}.

#[local] Existing Instance store_db.

Definition store_laws : TransactionalLaws Store Store.
Proof.
  refine {| db_view (s : Store) := s; txn_view (s : Store) := s; db_wf _ := True; txn_wf _ := True |}; try done.
  - intros d n k v. simpl. unfold refuse, writes. by destruct (v =? 0).
  - intros d n k v. simpl. unfold refuse, writes. by destruct (v =? 0).
Defined.

#[local] Existing Instance store_laws.

Definition demo_db : Store := {[ 1 := ∅ ]}.
Definition demo_l0 : t Store Store := mk demo_db [] demo_db None true 0.
Definition demo_l1 : t Store Store := (write_txn demo_l0).1.
Definition demo_l2 : t Store Store := (insert demo_l1 1 5 50).1.
Definition demo_l3 : t Store Store := db_run_step demo_l2.
Definition demo_l4 : t Store Store := (commit demo_l3).1.

Lemma demo_loads : loads demo_db [1].
Proof. split; [|done]. intros n. simpl. unfold demo_db. rewrite lookup_singleton_is_Some. set_solver. Qed.

Lemma demo_opens : open demo_db [1] = Ok demo_l0.
Proof. apply (open_spec demo_db [1] demo_loads). Qed.

Lemma demo_reach : reach demo_l0 [mem_db demo_l4; mem_db demo_l3; mem_db demo_l2; mem_db demo_l1; mem_db demo_l0] demo_l4.
Proof. repeat (eapply reach_step; [|constructor; by eexists]). apply reach_init. Qed.

Lemma layered_durable_witness :
  db_view (db demo_l4) ∈ [mem_db demo_l4; mem_db demo_l3; mem_db demo_l2; mem_db demo_l1; mem_db demo_l0] /\
  foldl apply_msg (current (db demo_l4) (txn demo_l4)) (queue demo_l4) = mem_db demo_l4.
Proof. apply (@layered_durable Store Store store_db store_laws demo_db [1] _ demo_l0 demo_l4 I demo_loads demo_opens demo_reach). reflexivity. Defined.

Lemma layered_persists_witness : txn (drain demo_l4) = None /\ db_view (db (drain demo_l4)) = mem_db demo_l4 /\ db_wf (db (drain demo_l4)).
Proof. apply (@layered_persists Store Store store_db store_laws demo_db [1] _ demo_l0 demo_l4 I demo_loads demo_opens demo_reach eq_refl). reflexivity. Defined.

(** A transaction that is dropped without a commit keeps every later one from being
    persisted: the second client commits, the queue is handled, the backend is empty. *)
Lemma dropped_txn_blocks_persistence :
  let l := (commit (insert (write_txn demo_l1).1 1 5 50).1).1 in
  queue (drain l) = [] /\ get (drain l) 1 5 = Some 50 /\ MemDatabase.get (db_view (db (drain l))) 1 5 = None.
Proof. by vm_compute. Qed.

(** A write that the backend refuses is only logged: the client had its answer, the memory
    has the record, the backend never does. *)
Lemma failed_write_lost :
  let '(l, sent) := insert demo_l0 1 5 0 in
  sent = true /\ running (drain l) = true /\ errors (drain l) = 1 /\ get (drain l) 1 5 = Some 0 /\
  MemDatabase.get (db_view (db (drain l))) 1 5 = None.
Proof. by vm_compute. Qed.

End witnesses.
