(* ===== verification/Backends.v ===== *)
(** The persistent backends of the storage: libmdbx, redb and RocksDB.
    Models crates/storage/src/{mdbx,redb,rocks}/database.rs with redb/wraps.rs, rocks/iter.rs
    and the encodings of crates/types/src/codec.rs.  The engines and the serializers are
    libraries: they are parameters, with the documented behaviour of an ordered store of byte
    strings with transactions.  Each backend is shown to implement the interface of the
    in-memory tables, and to be a backend of the layered database. *)

From S2P Require Import Prelude Storage.

(** * Byte strings *)

(** [<[u8] as Ord>::cmp] *)
Fixpoint bytes_leb (a b : list N) : bool :=
  match a, b with
  | [], _ => true
  | _ :: _, [] => false
  | x :: a, y :: b => (x <? y) || ((x =? y) && bytes_leb a b)
  end.

#[global] Program Instance bytes_btree_key : BTreeKey (list N) := {| key_leb := bytes_leb |}.
Next Obligation. induction a as [|x a IH]; intros [|y b]; cbn [bytes_leb]; auto. destruct (IH b); lia. Qed.
Next Obligation.
  induction a as [|x a IH]; intros [|y b] [|z c]; cbn [bytes_leb]; try done. intros Hab Hbc.
  specialize (IH b c). destruct (bytes_leb a b), (bytes_leb b c), (bytes_leb a c); try specialize (IH eq_refl eq_refl); lia.
Qed.
Next Obligation.
  induction a as [|x a IH]; intros [|y b]; cbn [bytes_leb]; try done. intros Hab Hba.
  assert (x = y) as -> by lia. f_equal. apply IH; lia.
Qed.

(** * Encodings *)

(** bincode with big-endian fixed-width integers, for keys, and bcs, for values. *)
Class Serializer := {
  bincode_serialize : N -> list N;
  bincode_deserialize : list N -> option N;
  bcs_to_bytes : N -> option (list N);
  bcs_from_bytes : list N -> option N;
}.

(** The documented behaviour: what is serialized can be read back, a key has one encoding,
    and the encodings of keys sort like the keys. *)
Class SerializerLaws `{Serializer} := {
  bincode_roundtrip k : bincode_deserialize (bincode_serialize k) = Some k;
  bincode_canonical b k : bincode_deserialize b = Some k -> b = bincode_serialize k;
  bincode_order a b : bytes_leb (bincode_serialize a) (bincode_serialize b) = (a <=? b);
  bcs_total v : is_Some (bcs_to_bytes v);
  bcs_roundtrip v b : bcs_to_bytes v = Some b -> bcs_from_bytes b = Some v;
}.

Section codec.
Context `{Serializer}.

Definition encode_key (k : N) : list N := bincode_serialize k.
Definition try_decode_key (b : list N) : option N := bincode_deserialize b.
Definition decode_key (b : list N) : outcome unit N := expect (bincode_deserialize b).
Definition encode_value (v : N) : outcome unit (list N) := expect (bcs_to_bytes v).
Definition decode_value (b : list N) : outcome unit N := expect (bcs_from_bytes b).

Definition decode_entry (kv : list N * list N) : outcome unit (N * N) :=
  k ← decode_key kv.1; v ← decode_value kv.2; Ok (k, v).

End codec.

(** * The engines *)

Notation RawStore := (gmap N (gmap (list N) (list N))) (only parsing).

(** Tables of byte strings by name, and transactions on them.  Every call can fail: [None] and
    [false] are errors.  [env_tables] and [txn_tables] are what is committed and what a
    transaction sees. *)
Class StorageEngine := {
  Env : Type;
  Txn : Type;
  env_tables : Env -> RawStore;
  txn_tables : Txn -> RawStore;
  begin_txn : Env -> option Txn;
  engine_open : Txn -> N -> bool;
  engine_get : Txn -> N -> list N -> option (option (list N));
  engine_put : Txn -> N -> list N -> list N -> Txn * bool;
  engine_del : Txn -> N -> list N -> Txn * bool;
  engine_create : Txn -> N -> Txn * bool;
  engine_delete : Txn -> N -> Txn * bool;
  engine_clear : Txn -> N -> Txn * bool;
  engine_commit : Env -> Txn -> Env * bool;
}.

(** A transaction starts from what is committed; a call that succeeds acts on the tables of
    the transaction, which replace the committed ones when the commit succeeds.  A commit
    that fails changes nothing. *)
Class StorageEngineLaws `{StorageEngine} := {
  begin_tables e t : begin_txn e = Some t -> txn_tables t = env_tables e;
  open_tables t n : engine_open t n = true -> is_Some (txn_tables t !! n);
  get_tables t n k m r : txn_tables t !! n = Some m -> engine_get t n k = Some r -> r = m !! k;
  put_tables t n k v m t' : txn_tables t !! n = Some m -> engine_put t n k v = (t', true) ->
    txn_tables t' = <[n := <[k := v]> m]> (txn_tables t);
  del_tables t n k m t' : txn_tables t !! n = Some m -> engine_del t n k = (t', true) ->
    txn_tables t' = <[n := delete k m]> (txn_tables t);
  create_tables t n t' : engine_create t n = (t', true) ->
    txn_tables t' = match txn_tables t !! n with Some _ => txn_tables t | None => <[n := ∅]> (txn_tables t) end;
  delete_tables t n t' : engine_delete t n = (t', true) -> txn_tables t' = delete n (txn_tables t);
  clear_tables t n m t' : txn_tables t !! n = Some m -> engine_clear t n = (t', true) ->
    txn_tables t' = <[n := ∅]> (txn_tables t);
  commit_tables e t : env_tables (engine_commit e t).1 = if (engine_commit e t).2 then txn_tables t else env_tables e;
}.

(** The engine answers: no call on a table that exists fails. *)
Class EngineAnswers `{StorageEngine} : Prop := {
  begin_answers e : is_Some (begin_txn e);
  open_answers t n : is_Some (txn_tables t !! n) -> engine_open t n = true;
  get_answers t n k : is_Some (txn_tables t !! n) -> is_Some (engine_get t n k);
  put_answers t n k v : is_Some (txn_tables t !! n) -> (engine_put t n k v).2 = true;
  del_answers t n k : is_Some (txn_tables t !! n) -> (engine_del t n k).2 = true;
  create_answers t n : (engine_create t n).2 = true;
  delete_answers t n : (engine_delete t n).2 = true;
  clear_answers t n : is_Some (txn_tables t !! n) -> (engine_clear t n).2 = true;
  commit_answers e t : (engine_commit e t).2 = true;
}.

(** The operations of the [Database] trait on one table, over numbers in the order of the
    keys.  Iterators are collected. *)
Module Database.

Record t := mk {
  Db : Type;
  get : Db -> N -> N -> outcome unit (option N);
  contains_key : Db -> N -> N -> outcome unit bool;
  insert : Db -> N -> N -> N -> Db * outcome unit unit;
  remove : Db -> N -> N -> Db * outcome unit unit;
  clear_table : Db -> N -> Db * outcome unit unit;
  is_empty : Db -> N -> outcome unit bool;
  iter : Db -> N -> outcome unit (list (N * N));
  skip_to : Db -> N -> N -> outcome unit (list (N * N));
  reverse_iter : Db -> N -> outcome unit (list (N * N));
  record_prior_to : Db -> N -> N -> outcome unit (option (N * N));
  last_record : Db -> N -> outcome unit (option (N * N));
}.

End Database.

(** Calls of the engine, with [?]. *)
Section calls.
Context `{Serializer} `{StorageEngine}.

Definition call (f : Txn -> Txn * bool) : action Txn unit unit := fun tx =>
  let '(tx, ok) := f tx in (tx, ensure ok ()).

(** The value under a key in a table that is open. *)
Definition table_get (tx : Txn) (name key : N) : outcome unit (option N) :=
  res ← ok_or (engine_get tx name (encode_key key)) ();
  match res with
  | Some bytes => v ← decode_value bytes; Ok (Some v)
  | None => Ok None
  end.

Definition commit_txn (e : Env) (tx : Txn) : Env * outcome unit unit :=
  let '(e, ok) := engine_commit e tx in (e, ensure ok ()).

(** A write transaction with [f] in it; it is dropped when [f] fails. *)
Definition in_txn (e : Env) (f : action Txn unit unit) : Env * outcome unit unit :=
  match begin_txn e with
  | None => (e, Err ())
  | Some tx =>
      let '(tx, r) := f tx in
      match r with
      | Ok _ => commit_txn e tx
      | Err x => (e, Err x)
      | Panic => (e, Panic)
      | OutOfFuel => (e, OutOfFuel)
      end
  end.

End calls.

(** An iterator that is collected: [next] until it has nothing more. *)
Section iterators.
Context {I A : Type} (next : I -> outcome unit (I * option A)).

Fixpoint collect (fuel : nat) (i : I) : outcome unit (list A) :=
  match fuel with
  | O => OutOfFuel
  | S fuel =>
      r ← next i;
      match r.2 with
      | None => Ok []
      | Some a => l ← collect fuel r.1; Ok (a :: l)
      end
  end.

End iterators.

(** The loop of [record_prior_to]: the last record seen before one that is not smaller. *)
Fixpoint prior {I} (next : I -> outcome unit (I * option (N * N))) (fuel : nat) (key : N)
    (last : option (N * N)) (i : I) : outcome unit (option (N * N)) :=
  match fuel with
  | O => OutOfFuel
  | S fuel =>
      r ← next i;
      match r.2 with
      | None => Ok last
      | Some kv => if key <=? kv.1 then Ok last else prior next fuel key (Some kv) r.1
      end
  end.

(** * MDBX *)

(** Cursors over the entries of a table: a position, none at first.  A step can fail. *)
Class MdbxCursors `{StorageEngine} := {
  Cursor : Type;
  cursor_with_dbi : Txn -> N -> option Cursor;
  cursor_next : Cursor -> Cursor * option (option (list N * list N));
  cursor_prev : Cursor -> Cursor * option (option (list N * list N));
  cursor_last : Cursor -> Cursor * option (option (list N * list N));
  cursor_entries : Cursor -> list (list N * list N);
  cursor_index : Cursor -> option nat;
}.

(** A cursor walks the entries in the order of their keys: forward from the first one,
    backward from the last one. *)
Class MdbxCursorLaws `{MdbxCursors} := {
  cursor_open t n m c : txn_tables t !! n = Some m -> cursor_with_dbi t n = Some c ->
    cursor_entries c = btree_iter m /\ cursor_index c = None;
  cursor_keeps c :
    cursor_entries (cursor_next c).1 = cursor_entries c /\ cursor_entries (cursor_prev c).1 = cursor_entries c /\
    cursor_entries (cursor_last c).1 = cursor_entries c;
  cursor_next_at c r : (cursor_next c).2 = Some r -> let i := from_option S O (cursor_index c) in
    r = cursor_entries c !! i /\ (is_Some r -> cursor_index (cursor_next c).1 = Some i);
  cursor_last_at c r : (cursor_last c).2 = Some r -> r = last (cursor_entries c) /\
    (is_Some r -> cursor_index (cursor_last c).1 = Some (pred (length (cursor_entries c))));
  cursor_prev_at c i r : cursor_index c = Some i -> (cursor_prev c).2 = Some r ->
    match i with
    | O => r = None
    | S j => r = cursor_entries c !! j /\ cursor_index (cursor_prev c).1 = Some j
    end;
}.

Class CursorsAnswer `{MdbxCursors} : Prop := {
  cursor_answers t n : is_Some (txn_tables t !! n) -> is_Some (cursor_with_dbi t n);
  next_answers c : is_Some (cursor_next c).2;
  prev_answers c : is_Some (cursor_prev c).2;
  last_answers c : is_Some (cursor_last c).2;
}.

Module MdbxDatabase.
Section mdbx.
Context `{Serializer} `{StorageEngine} `{!MdbxCursors}.

Definition open_table (e : Env) (name : N) : Env * outcome unit unit := in_txn e (call (fun tx => engine_create tx name)).

(** A table that does not exist is an error. *)
Definition get_dbi (tx : Txn) (name : N) : outcome unit unit := ensure (engine_open tx name) ().

Definition tx_get (tx : Txn) (name key : N) : outcome unit (option N) :=
  _ ← get_dbi tx name; table_get tx name key.

Definition tx_insert (name key value : N) : action Txn unit unit :=
  let key_buf := encode_key key in
  value_buf ← lift (encode_value value);
  _ ← with_state (fun tx => lift (get_dbi tx name));
  call (fun tx => engine_put tx name key_buf value_buf).

Definition tx_remove (name key : N) : action Txn unit unit :=
  let key_buf := encode_key key in
  _ ← with_state (fun tx => lift (get_dbi tx name));
  call (fun tx => engine_del tx name key_buf).

Definition tx_clear_table (name : N) : action Txn unit unit :=
  _ ← with_state (fun tx => lift (get_dbi tx name));
  call (fun tx => engine_clear tx name).

Definition tx_commit (e : Env) (tx : Txn) : Env * outcome unit unit := commit_txn e tx.

(** [read_txn] and [write_txn] *)
Definition read_txn (e : Env) : outcome unit Txn := ok_or (begin_txn e) ().
Definition write_txn (e : Env) : outcome unit Txn := ok_or (begin_txn e) ().

Definition get (e : Env) (name key : N) : outcome unit (option N) :=
  tx ← read_txn e; tx_get tx name key.

Definition contains_key (e : Env) (name key : N) : outcome unit bool :=
  tx ← read_txn e; v ← tx_get tx name key; Ok (bool_decide (is_Some v)).

Definition insert (e : Env) (name key value : N) : Env * outcome unit unit := in_txn e (tx_insert name key value).

Definition remove (e : Env) (name key : N) : Env * outcome unit unit := in_txn e (tx_remove name key).

Definition clear_table (e : Env) (name : N) : Env * outcome unit unit := in_txn e (tx_clear_table name).

(** [MdbxIter]: an error ends the iterator. *)
Definition iter_next (c : Cursor) : outcome unit (Cursor * option (N * N)) :=
  match cursor_next c with
  | (c, Some (Some kv)) => e ← decode_entry kv; Ok (c, Some e)
  | (c, _) => Ok (c, None)
  end.

(** [MdbxRevIter], with the flag [started]. *)
Definition rev_next (i : Cursor * bool) : outcome unit (Cursor * bool * option (N * N)) :=
  let '(c, started) := i in
  match (if started then cursor_prev c else cursor_last c) with
  | (c, Some (Some kv)) => e ← decode_entry kv; Ok (c, true, Some e)
  | (c, _) => Ok (c, true, None)
  end.

(** [MdbxTx::cursor] in a new transaction. *)
Definition read_cursor (e : Env) (name : N) : outcome unit Cursor :=
  tx ← read_txn e; _ ← get_dbi tx name; ok_or (cursor_with_dbi tx name) ().

(** [expect("Failed to get cursor!")] *)
Definition cursor (e : Env) (name : N) : outcome unit Cursor :=
  match read_cursor e name with Ok c => Ok c | _ => Panic end.

Definition iter (e : Env) (name : N) : outcome unit (list (N * N)) :=
  c ← cursor e name; collect iter_next (S (length (cursor_entries c))) c.

Definition skip_to (e : Env) (name key : N) : outcome unit (list (N * N)) :=
  l ← iter e name; Ok (MemTable.skip_while (fun kv => MemTable.key_ltb kv.1 key) l).

Definition reverse_iter (e : Env) (name : N) : outcome unit (list (N * N)) :=
  c ← cursor e name; collect rev_next (S (length (cursor_entries c))) (c, false).

Definition is_empty (e : Env) (name : N) : outcome unit bool :=
  c ← cursor e name; r ← iter_next c; Ok (bool_decide (r.2 = None)).

Definition record_prior_to (e : Env) (name key : N) : outcome unit (option (N * N)) :=
  c ← cursor e name; prior iter_next (S (length (cursor_entries c))) key None c.

(** An error is no record here. *)
Definition last_record (e : Env) (name : N) : outcome unit (option (N * N)) :=
  match read_cursor e name with
  | Ok c =>
      match (cursor_last c).2 with
      | Some (Some kv) => e ← decode_entry kv; Ok (Some e)
      | _ => Ok None
      end
  | _ => Ok None
  end.

Definition db : Database.t :=
  Database.mk Env get contains_key insert remove clear_table is_empty iter skip_to reverse_iter
    record_prior_to last_record.

End mdbx.
End MdbxDatabase.

(** * redb *)

(** The tables of a read transaction: the rows of [iter], of which some cannot be read,
    [is_empty] and [last]. *)
Class RedbTables `{StorageEngine} := {
  table_rows : Txn -> N -> option (list (option (list N * list N)));
  table_is_empty : Txn -> N -> option bool;
  table_last : Txn -> N -> option (option (list N * list N));
}.

(** [filter(|r| r.is_ok())]: the rows that can be read. *)
Definition readable (l : list (option (list N * list N))) : list (list N * list N) := omap id l.

(** The rows are in the order of [KeyWrap::compare], the order of the byte strings. *)
Class RedbTableLaws `{RedbTables} := {
  rows_tables t n m l : txn_tables t !! n = Some m -> table_rows t n = Some l -> readable l `sublist_of` btree_iter m;
  is_empty_tables t n m b : txn_tables t !! n = Some m -> table_is_empty t n = Some b -> b = bool_decide (m = ∅);
  last_tables t n m r : txn_tables t !! n = Some m -> table_last t n = Some r -> r = last (btree_iter m);
}.

Class TablesAnswer `{RedbTables} : Prop := {
  rows_answers t n m : txn_tables t !! n = Some m -> table_rows t n = Some (Some <$> btree_iter m);
  is_empty_answers t n : is_Some (txn_tables t !! n) -> is_Some (table_is_empty t n);
  table_last_answers t n : is_Some (txn_tables t !! n) -> is_Some (table_last t n);
}.

Module ReDB.
Section redb.
Context `{Serializer} `{StorageEngine} `{!RedbTables}.

(** A write transaction creates the table when it opens it, a read transaction does not. *)
Definition open_write (name : N) : action Txn unit unit := call (fun tx => engine_create tx name).
Definition open_read (tx : Txn) (name : N) : outcome unit unit := ensure (engine_open tx name) ().

Definition open_table (e : Env) (name : N) : Env * outcome unit unit := in_txn e (open_write name).

Definition tx_get (name key : N) : action Txn unit (option N) :=
  _ ← open_write name; with_state (fun tx => lift (table_get tx name key)).

Definition tx_insert (name key value : N) : action Txn unit unit :=
  _ ← open_write name;
  value_buf ← lift (encode_value value);
  call (fun tx => engine_put tx name (encode_key key) value_buf).

Definition tx_remove (name key : N) : action Txn unit unit :=
  _ ← open_write name;
  call (fun tx => engine_del tx name (encode_key key)).

Definition tx_clear_table (name : N) : action Txn unit unit :=
  _ ← call (fun tx => engine_delete tx name);
  open_write name.

Definition tx_commit (e : Env) (tx : Txn) : Env * outcome unit unit := commit_txn e tx.

(** [read_txn] and [write_txn] *)
Definition read_txn (e : Env) : outcome unit Txn := ok_or (begin_txn e) ().
Definition write_txn (e : Env) : outcome unit Txn := ok_or (begin_txn e) ().

(** [ReDbTx::get] *)
Definition get (e : Env) (name key : N) : outcome unit (option N) :=
  tx ← read_txn e; _ ← open_read tx name; table_get tx name key.

Definition contains_key (e : Env) (name key : N) : outcome unit bool :=
  v ← get e name key; Ok (bool_decide (is_Some v)).

Definition insert (e : Env) (name key value : N) : Env * outcome unit unit := in_txn e (tx_insert name key value).

Definition remove (e : Env) (name key : N) : Env * outcome unit unit := in_txn e (tx_remove name key).

Definition clear_table (e : Env) (name : N) : Env * outcome unit unit := in_txn e (tx_clear_table name).

(** The table of a new read transaction. *)
Definition read_table (e : Env) (name : N) : outcome unit Txn :=
  tx ← read_txn e; _ ← open_read tx name; Ok tx.

(** A missing table, or an error, is not empty. *)
Definition is_empty (e : Env) (name : N) : outcome unit bool :=
  match read_table e name with
  | Ok tx => Ok (default false (table_is_empty tx name))
  | _ => Ok false
  end.

(** The rows that can be read; a table that cannot be opened panics. *)
Definition rows (e : Env) (name : N) : outcome unit (list (list N * list N)) :=
  match read_table e name with
  | Ok tx => match table_rows tx name with Some l => Ok (readable l) | None => Panic end
  | _ => Panic
  end.

(** The rows left, each one decoded when it is reached. *)
Definition row_next (l : list (list N * list N)) : outcome unit (list (list N * list N) * option (N * N)) :=
  match l with
  | kv :: l => e ← decode_entry kv; Ok (l, Some e)
  | [] => Ok ([], None)
  end.

Definition decode_rows (l : list (list N * list N)) : outcome unit (list (N * N)) :=
  collect row_next (S (length l)) l.

Definition iter (e : Env) (name : N) : outcome unit (list (N * N)) :=
  l ← rows e name; decode_rows l.

Definition skip_to (e : Env) (name key : N) : outcome unit (list (N * N)) :=
  l ← rows e name; l ← decode_rows l; Ok (MemTable.skip_while (fun kv => MemTable.key_ltb kv.1 key) l).

Definition reverse_iter (e : Env) (name : N) : outcome unit (list (N * N)) :=
  l ← rows e name; decode_rows (rev l).

(** An error is no record. *)
Definition record_prior_to (e : Env) (name key : N) : outcome unit (option (N * N)) :=
  match read_table e name with
  | Ok tx =>
      match table_rows tx name with
      | Some l => prior row_next (S (length (readable l))) key None (readable l)
      | None => Ok None
      end
  | _ => Ok None
  end.

Definition last_record (e : Env) (name : N) : outcome unit (option (N * N)) :=
  match read_table e name with
  | Ok tx => match table_last tx name with Some (Some kv) => e ← decode_entry kv; Ok (Some e) | _ => Ok None end
  | _ => Ok None
  end.

Definition db : Database.t :=
  Database.mk Env get contains_key insert remove clear_table is_empty iter skip_to reverse_iter
    record_prior_to last_record.

End redb.
End ReDB.

(** * RocksDB *)

(** Column families of byte strings, with operations that are applied at once, and raw
    iterators, which are at an entry or not valid.  Reads and writes can fail: [None] and
    [false] are errors.  [key_may_exist_cf] can be wrong when the key does not exist. *)
Class RocksEngine := {
  Rocks : Type;
  RawIter : Type;
  rocks_tables : Rocks -> RawStore;
  get_cf : Rocks -> N -> list N -> option (option (list N));
  put_cf : Rocks -> N -> list N -> list N -> Rocks * bool;
  delete_cf : Rocks -> N -> list N -> Rocks * bool;
  drop_cf : Rocks -> N -> Rocks * bool;
  create_cf : Rocks -> N -> Rocks * bool;
  key_may_exist_cf : Rocks -> N -> list N -> bool;
  raw_iterator_cf : Rocks -> N -> RawIter;
  raw_entries : RawIter -> list (list N * list N);
  raw_pos : RawIter -> option nat;
  raw_key : RawIter -> option (list N);
  raw_value : RawIter -> option (list N);
  raw_valid : RawIter -> bool;
  seek_to_first : RawIter -> RawIter;
  seek_to_last : RawIter -> RawIter;
  seek : RawIter -> list N -> RawIter;
  seek_for_prev : RawIter -> list N -> RawIter;
  raw_next : RawIter -> RawIter;
  raw_prev : RawIter -> RawIter;
}.

(** The entry under a raw iterator. *)
Definition raw_entry `{RocksEngine} (i : RawIter) : option (list N * list N) := raw_pos i ≫= fun p => raw_entries i !! p.

(** The position before one; none before the first. *)
Definition before (p : nat) : option nat := match p with O => None | S p => Some p end.

Class RocksEngineLaws `{RocksEngine} := {
  get_cf_tables d n k m r : rocks_tables d !! n = Some m -> get_cf d n k = Some r -> r = m !! k;
  put_cf_tables d n k v m d' : rocks_tables d !! n = Some m -> put_cf d n k v = (d', true) ->
    rocks_tables d' = <[n := <[k := v]> m]> (rocks_tables d);
  delete_cf_tables d n k m d' : rocks_tables d !! n = Some m -> delete_cf d n k = (d', true) ->
    rocks_tables d' = <[n := delete k m]> (rocks_tables d);
  drop_cf_tables d n d' : drop_cf d n = (d', true) -> rocks_tables d' = delete n (rocks_tables d);
  create_cf_tables d n d' : create_cf d n = (d', true) -> rocks_tables d !! n = None /\ rocks_tables d' = <[n := ∅]> (rocks_tables d);
  key_may_exist d n k m : rocks_tables d !! n = Some m -> is_Some (m !! k) -> key_may_exist_cf d n k = true;
  raw_iterator_entries d n m : rocks_tables d !! n = Some m -> raw_entries (raw_iterator_cf d n) = btree_iter m;
  raw_key_at i : raw_key i = fst <$> raw_entry i;
  raw_value_at i : raw_value i = snd <$> raw_entry i;
  raw_valid_at i : raw_valid i = bool_decide (is_Some (raw_entry i));
  raw_keeps i k : raw_entries (seek_to_first i) = raw_entries i /\ raw_entries (seek_to_last i) = raw_entries i /\
    raw_entries (seek i k) = raw_entries i /\ raw_entries (seek_for_prev i k) = raw_entries i /\
    raw_entries (raw_next i) = raw_entries i /\ raw_entries (raw_prev i) = raw_entries i;
  seek_to_first_pos i : raw_pos (seek_to_first i) = Some O;
  seek_to_last_pos i : raw_pos (seek_to_last i) = before (length (raw_entries i));
  seek_pos i k : raw_pos (seek i k) = Some (length (filter (fun kv => key_leb k kv.1 = false) (raw_entries i)));
  seek_for_prev_pos i k : raw_pos (seek_for_prev i k) = before (length (filter (fun kv => key_leb kv.1 k = true) (raw_entries i)));
  raw_next_pos i p : raw_pos i = Some p -> is_Some (raw_entry i) -> raw_pos (raw_next i) = Some (S p);
  raw_prev_pos i p : raw_pos i = Some p -> is_Some (raw_entry i) -> raw_pos (raw_prev i) = before p;
}.

(** The engine answers: no call on a column family that exists fails. *)
Class RocksAnswers `{RocksEngine} : Prop := {
  get_cf_answers d n k : is_Some (rocks_tables d !! n) -> is_Some (get_cf d n k);
  put_cf_answers d n k v : is_Some (rocks_tables d !! n) -> (put_cf d n k v).2 = true;
  delete_cf_answers d n k : is_Some (rocks_tables d !! n) -> (delete_cf d n k).2 = true;
  drop_cf_answers d n : is_Some (rocks_tables d !! n) -> (drop_cf d n).2 = true;
  create_cf_answers d n : rocks_tables d !! n = None -> (create_cf d n).2 = true;
}.

(** The iterator of rocks/iter.rs. *)
Module RocksIter.
Section iter.
Context `{Serializer} `{RocksEngine}.

Record t := mk {
  db_iter : RawIter;
  reversed : bool;
  is_initialized : bool;
}.

Definition new (i : RawIter) : t := mk i false false.

Definition next (it : t) : outcome unit (t * option (N * N)) :=
  let i := if is_initialized it then db_iter it else seek_to_first (db_iter it) in
  if raw_valid i then
    key_buf ← expect (raw_key i);
    value_buf ← expect (raw_value i);
    let key := try_decode_key key_buf in
    value ← decode_value value_buf;
    let i := if reversed it then raw_prev i else raw_next i in
    Ok (mk i (reversed it) true, (fun k => (k, value)) <$> key)
  else Ok (mk i (reversed it) true, None).

Definition skip_to (it : t) (key : N) : t := mk (seek (db_iter it) (encode_key key)) (reversed it) true.

Definition skip_prior_to (it : t) (key : N) : t := mk (seek_for_prev (db_iter it) (encode_key key)) (reversed it) true.

Definition skip_to_last (it : t) : t := mk (seek_to_last (db_iter it)) (reversed it) true.

Definition reverse (it : t) : t := mk (db_iter it) true (is_initialized it).

End iter.
End RocksIter.

Module RocksDatabase.
Section rocks.
Context `{Serializer} `{RocksEngine}.

(** A column family that does not exist panics. *)
Definition cf_handle (d : Rocks) (name : N) : outcome unit unit :=
  if decide (is_Some (rocks_tables d !! name)) then Ok () else Panic.

Definition contains_key (d : Rocks) (name key : N) : outcome unit bool :=
  _ ← cf_handle d name;
  let key_buf := encode_key key in
  if key_may_exist_cf d name key_buf then
    res ← ok_or (get_cf d name key_buf) (); Ok (bool_decide (is_Some res))
  else Ok false.

Definition get (d : Rocks) (name key : N) : outcome unit (option N) :=
  _ ← cf_handle d name;
  let key_buf := encode_key key in
  res ← ok_or (get_cf d name key_buf) ();
  match res with
  | Some data => v ← decode_value data; Ok (Some v)
  | None => Ok None
  end.

Definition rocks_call (f : Rocks -> Rocks * bool) : action Rocks unit unit := fun d =>
  let '(d, ok) := f d in (d, ensure ok ()).

Definition insert (d : Rocks) (name key value : N) : Rocks * outcome unit unit :=
  (_ ← with_state (fun d => lift (cf_handle d name));
   let key_buf := encode_key key in
   value_buf ← lift (encode_value value);
   rocks_call (fun d => put_cf d name key_buf value_buf)) d.

Definition remove (d : Rocks) (name key : N) : Rocks * outcome unit unit :=
  (_ ← with_state (fun d => lift (cf_handle d name));
   let key_buf := encode_key key in
   rocks_call (fun d => delete_cf d name key_buf)) d.

(** An error of dropping the column family is ignored. *)
Definition clear_table (d : Rocks) (name : N) : Rocks * outcome unit unit :=
  let '(d, _) := drop_cf d name in rocks_call (fun d => create_cf d name) d.

Definition unbounded_iter_inner (d : Rocks) (name : N) : outcome unit RocksIter.t :=
  _ ← cf_handle d name; Ok (RocksIter.new (raw_iterator_cf d name)).

(** The fuel that an iterator takes. *)
Definition rows (it : RocksIter.t) : nat := S (length (raw_entries (RocksIter.db_iter it))).

Definition iter (d : Rocks) (name : N) : outcome unit (list (N * N)) :=
  it ← unbounded_iter_inner d name; collect RocksIter.next (rows it) it.

Definition is_empty (d : Rocks) (name : N) : outcome unit bool :=
  it ← unbounded_iter_inner d name; r ← RocksIter.next it; Ok (bool_decide (r.2 = None)).

Definition skip_to (d : Rocks) (name key : N) : outcome unit (list (N * N)) :=
  it ← unbounded_iter_inner d name; collect RocksIter.next (rows it) (RocksIter.skip_to it key).

Definition reverse_iter (d : Rocks) (name : N) : outcome unit (list (N * N)) :=
  it ← unbounded_iter_inner d name; collect RocksIter.next (rows it) (RocksIter.reverse (RocksIter.skip_to_last it)).

Definition record_prior_to (d : Rocks) (name key : N) : outcome unit (option (N * N)) :=
  it ← unbounded_iter_inner d name; r ← RocksIter.next (RocksIter.skip_prior_to it key); Ok r.2.

Definition last_record (d : Rocks) (name : N) : outcome unit (option (N * N)) :=
  it ← unbounded_iter_inner d name; r ← RocksIter.next (RocksIter.skip_to_last it); Ok r.2.

Definition db : Database.t :=
  Database.mk Rocks get contains_key insert remove clear_table is_empty
    iter skip_to reverse_iter record_prior_to last_record.

End rocks.
End RocksDatabase.

(** * What the tables of bytes stand for *)

Section decoded.
Context `{SerializerLaws}.

Definition decode_row (kv : list N * list N) : option (N * N) :=
  k ← bincode_deserialize kv.1; v ← bcs_from_bytes kv.2; Some (k, v).

Definition decode_table (m : gmap (list N) (list N)) : gmap N N := list_to_map (omap decode_row (btree_iter m)).

(** The contents of a database, and that every row of it can be decoded. *)
Definition decoded (s : RawStore) : Store := decode_table <$> s.
Definition wf_table (m : gmap (list N) (list N)) : Prop := Forall (fun kv => is_Some (decode_row kv)) (btree_iter m).
Definition wf_store (s : RawStore) : Prop := map_Forall (fun _ => wf_table) s.

Lemma decode_row_Some kv k v :
  decode_row kv = Some (k, v) <-> kv.1 = encode_key k /\ bcs_from_bytes kv.2 = Some v.
Proof.
  unfold decode_row, encode_key. rewrite bind_Some. setoid_rewrite bind_Some. split.
  - intros (k' & Hk & v' & Hv & [= <- <-]). split; [exact (bincode_canonical _ _ Hk)|done].
  - intros [-> Hv]. exists k. split; [apply bincode_roundtrip|by exists v].
Qed.

Lemma encode_key_inj k k' : encode_key k = encode_key k' -> k = k'.
Proof. intros Heq. apply Some_inj. unfold encode_key in Heq. by rewrite <-!bincode_roundtrip, Heq. Qed.

Lemma decoded_sorted l :
  StronglySorted (fun p q : list N * list N => key_leb p.1 q.1 = true) l -> NoDup l.*1 ->
  StronglySorted N.lt (omap decode_row l).*1.
Proof.
  induction 1 as [|x l Hs IH Hx]; intros Hnd; simpl; [constructor|]. apply NoDup_cons in Hnd as [Hni Hnd].
  destruct (decode_row x) as [[k v]|] eqn:Hr; simpl; [|by apply IH]. constructor; [by apply IH|].
  apply Forall_forall. intros k' ([k2 v'] & -> & (y & Hy & Hr')%list_elem_of_omap)%list_elem_of_fmap. simpl.
  apply decode_row_Some in Hr as [Hr _], Hr' as [Hr' _]. rewrite Forall_forall in Hx. specialize (Hx y Hy). simpl in Hx.
  rewrite Hr, Hr' in Hx. change (bytes_leb (encode_key k) (encode_key k2) = true) in Hx. unfold encode_key in Hx.
  rewrite bincode_order in Hx. assert (k <> k2); [|lia]. intros ->. apply Hni. rewrite Hr, <-Hr'. by apply list_elem_of_fmap_2.
Qed.

Lemma decoded_keys_sorted m : StronglySorted N.lt (omap decode_row (btree_iter m)).*1.
Proof. apply decoded_sorted; [apply btree_iter_sorted|apply btree_keys_NoDup]. Qed.

Lemma decode_table_Some m k v :
  decode_table m !! k = Some v <-> exists b, m !! encode_key k = Some b /\ bcs_from_bytes b = Some v.
Proof.
  unfold decode_table. rewrite <-elem_of_list_to_map by apply StronglySorted_lt_NoDup, decoded_keys_sorted.
  rewrite list_elem_of_omap. split.
  - intros ([kb b] & Hin & [Hk Hv]%decode_row_Some). simpl in *. subst. exists b. by rewrite <-elem_of_btree_iter.
  - intros (b & Hin & Hv). exists (encode_key k, b). by rewrite elem_of_btree_iter, decode_row_Some.
Qed.

Lemma decode_table_lookup m k : decode_table m !! k = m !! encode_key k ≫= bcs_from_bytes.
Proof. apply option_eq. intros v. by rewrite decode_table_Some, bind_Some. Qed.

(** The rows decode, in their order, to the records of the table. *)
Lemma decoded_iter m : omap decode_row (btree_iter m) = btree_iter (decode_table m).
Proof.
  apply sorted_keys_unique; [apply decoded_keys_sorted|apply btree_keys_sorted|].
  rewrite (btree_iter_perm (decode_table m)). unfold decode_table. symmetry. apply map_to_list_to_map.
  apply StronglySorted_lt_NoDup, decoded_keys_sorted.
Qed.

Lemma decode_table_empty : decode_table ∅ = ∅.
Proof. done. Qed.

Lemma decode_table_insert m k v b :
  bcs_to_bytes v = Some b -> decode_table (<[encode_key k := b]> m) = <[k := v]> (decode_table m).
Proof.
  intros Hb. apply map_eq. intros k'. rewrite decode_table_lookup. destruct (decide (k' = k)) as [->|Hne].
  - rewrite !lookup_insert_eq. simpl. by apply bcs_roundtrip.
  - rewrite !lookup_insert_ne by (intros ?; by apply Hne; try apply encode_key_inj). by rewrite decode_table_lookup.
Qed.

Lemma decode_table_delete m k : decode_table (delete (encode_key k) m) = delete k (decode_table m).
Proof.
  apply map_eq. intros k'. rewrite decode_table_lookup. destruct (decide (k' = k)) as [->|Hne].
  - by rewrite !lookup_delete_eq.
  - rewrite !lookup_delete_ne by (intros ?; by apply Hne; try apply encode_key_inj). by rewrite decode_table_lookup.
Qed.

Lemma wf_table_alt m : wf_table m <-> forall k b, m !! k = Some b -> is_Some (decode_row (k, b)).
Proof. unfold wf_table. rewrite Forall_forall. setoid_rewrite <-(elem_of_btree_iter m). split; [auto|intros Hm []; auto]. Qed.

Lemma wf_table_insert m k v b : bcs_to_bytes v = Some b -> wf_table m -> wf_table (<[encode_key k := b]> m).
Proof.
  rewrite !wf_table_alt. intros Hb Hm k' b' [[<- <-]|[_ ?]]%lookup_insert_Some; [|by apply Hm].
  exists (k, v). apply decode_row_Some. split; [done|by apply bcs_roundtrip].
Qed.

Lemma wf_table_delete m k : wf_table m -> wf_table (delete k m).
Proof. rewrite !wf_table_alt. intros Hm k' b' [_ ?]%lookup_delete_Some. by apply Hm. Qed.

Lemma wf_table_empty : wf_table ∅.
Proof. constructor. Qed.

End decoded.

(** * What a backend promises *)

(** On well-formed contents and tables that were opened, an operation that succeeds is the one of
    the in-memory database on the decoded contents; a write that fails changes nothing.  The iterators
    have no way to report an error: they give some of the records, in their order. *)
Record reports_errors (D : Database.t) (view : Database.Db D -> Store) (wf : Database.Db D -> Prop) : Prop := {
  rep_get d n k : wf d -> is_Some (view d !! n) ->
    match Database.get D d n k with Ok r => r = MemDatabase.get (view d) n k | Err _ => True | _ => False end;
  rep_contains_key d n k : wf d -> is_Some (view d !! n) ->
    match Database.contains_key D d n k with Ok r => r = MemDatabase.contains_key (view d) n k | Err _ => True | _ => False end;
  rep_insert d n k v : wf d -> is_Some (view d !! n) ->
    let '(d', r) := Database.insert D d n k v in
    wf d' /\ match r with Ok _ => view d' = MemDatabase.insert (view d) n k v | Err _ => view d' = view d | _ => False end;
  rep_remove d n k : wf d -> is_Some (view d !! n) ->
    let '(d', r) := Database.remove D d n k in
    wf d' /\ match r with Ok _ => view d' = MemDatabase.remove (view d) n k | Err _ => view d' = view d | _ => False end;
  rep_clear_table d n : wf d -> is_Some (view d !! n) ->
    let '(d', r) := Database.clear_table D d n in
    wf d' /\ match r with Ok _ => view d' = MemDatabase.clear_table (view d) n | Err _ => view d' = view d | _ => False end;
  rep_iter d n m l : wf d -> view d !! n = Some m -> Database.iter D d n = Ok l -> l `sublist_of` MemTable.iter m;
  rep_skip_to d n m k l : wf d -> view d !! n = Some m -> Database.skip_to D d n k = Ok l -> l `sublist_of` MemTable.skip_to m k;
  rep_reverse_iter d n m l : wf d -> view d !! n = Some m -> Database.reverse_iter D d n = Ok l -> l `sublist_of` MemTable.reverse_iter m;
  rep_last_record d n m kv : wf d -> view d !! n = Some m -> Database.last_record D d n = Ok (Some kv) -> MemTable.last_record m = Some kv;
  rep_record_prior_to d n m k kv : wf d -> view d !! n = Some m -> Database.record_prior_to D d n k = Ok (Some kv) ->
    m !! kv.1 = Some kv.2 /\ kv.1 < k;
}.

(** When the engine does not fail, every operation succeeds and is the one of the in-memory
    database. *)
Record implements (D : Database.t) (view : Database.Db D -> Store) (wf : Database.Db D -> Prop) : Prop := {
  impl_get d n k : wf d -> is_Some (view d !! n) -> Database.get D d n k = Ok (MemDatabase.get (view d) n k);
  impl_contains_key d n k : wf d -> is_Some (view d !! n) ->
    Database.contains_key D d n k = Ok (MemDatabase.contains_key (view d) n k);
  impl_insert d n k v : wf d -> is_Some (view d !! n) ->
    exists d', Database.insert D d n k v = (d', Ok ()) /\ wf d' /\ view d' = MemDatabase.insert (view d) n k v;
  impl_remove d n k : wf d -> is_Some (view d !! n) ->
    exists d', Database.remove D d n k = (d', Ok ()) /\ wf d' /\ view d' = MemDatabase.remove (view d) n k;
  impl_clear_table d n : wf d -> is_Some (view d !! n) ->
    exists d', Database.clear_table D d n = (d', Ok ()) /\ wf d' /\ view d' = MemDatabase.clear_table (view d) n;
  impl_is_empty d n : wf d -> is_Some (view d !! n) -> Database.is_empty D d n = Ok (MemDatabase.is_empty (view d) n);
  impl_iter d n : wf d -> is_Some (view d !! n) -> Database.iter D d n = MemDatabase.iter (view d) n;
  impl_skip_to d n k : wf d -> is_Some (view d !! n) -> Database.skip_to D d n k = MemDatabase.skip_to (view d) n k;
  impl_reverse_iter d n : wf d -> is_Some (view d !! n) -> Database.reverse_iter D d n = MemDatabase.reverse_iter (view d) n;
  impl_last_record d n : wf d -> is_Some (view d !! n) -> Database.last_record D d n = Ok (MemDatabase.last_record (view d) n);
}.

(** The record before a key is the last one with a smaller key. *)
Definition prior_is_smaller (D : Database.t) (view : Database.Db D -> Store) (wf : Database.Db D -> Prop) : Prop :=
  forall d n k, wf d -> is_Some (view d !! n) ->
    Database.record_prior_to D d n k = Ok (MemDatabase.record_prior_to (view d) n k).

(** What an iterator still gives. *)
Inductive yields {I A} (next : I -> outcome unit (I * option A)) : I -> list A -> Prop :=
  | yields_nil i i' : next i = Ok (i', None) -> yields next i []
  | yields_cons i i' a l : next i = Ok (i', Some a) -> yields next i' l -> yields next i (a :: l).

Lemma collect_yields {I A} (next : I -> outcome unit (I * option A)) fuel i l :
  yields next i l -> (length l < fuel)%nat -> collect next fuel i = Ok l.
Proof.
  intros Hy. revert fuel. induction Hy as [i i' Hn|i i' a l Hn Hy IH]; intros [|fuel] Hf; simpl in *; try lia; rewrite Hn; simpl.
  - done.
  - by rewrite IH by lia.
Qed.

Lemma prior_yields {I} (next : I -> outcome unit (I * option (N * N))) fuel i l key acc :
  yields next i l -> (length l < fuel)%nat -> prior next fuel key acc i = Ok (MemTable.prior_loop key acc l).
Proof.
  intros Hy. revert fuel acc.
  induction Hy as [i i' Hn|i i' a l Hn Hy IH]; intros [|fuel] acc Hf; simpl in *; try lia; rewrite Hn; simpl; [done|].
  change (key_leb key a.1) with (key <=? a.1). destruct (key <=? a.1); [done|]. apply IH. lia.
Qed.

Lemma yields_head {I A} (next : I -> outcome unit (I * option A)) i l :
  yields next i l -> exists i', next i = Ok (i', head l).
Proof. destruct 1; eauto. Qed.

(** Whether a table is empty is whether its iterator starts with nothing. *)
Lemma head_is_empty (m : gmap N N) : bool_decide (head (btree_iter m) = None) = MemTable.is_empty m.
Proof.
  unfold MemTable.is_empty. apply bool_decide_ext. rewrite <-btree_iter_nil. by destruct (btree_iter m).
Qed.

#[global] Arguments collect : simpl never.
#[global] Arguments prior : simpl never.

Section operations.
Context `{SerializerLaws}.

Lemma decode_entry_Ok kv e : decode_row kv = Some e -> decode_entry kv = Ok e.
Proof.
  destruct e as [k v]. intros [Hk Hv]%decode_row_Some. unfold decode_entry, decode_key, decode_value, encode_key in *.
  by rewrite Hk, bincode_roundtrip, Hv.
Qed.

Lemma decoded_lookup s n m : s !! n = Some m -> decoded s !! n = Some (decode_table m).
Proof. intros Hs. unfold decoded. by rewrite lookup_fmap, Hs. Qed.

Lemma decoded_open s n : is_Some (decoded s !! n) -> exists m, s !! n = Some m.
Proof. unfold decoded. rewrite lookup_fmap, fmap_is_Some. by intros []; eexists. Qed.

(** Reading the bytes under a key. *)
Lemma get_decoded m k : wf_table m ->
  match m !! encode_key k with Some b => v ← decode_value b; Ok (Some v) | None => Ok None end = (Ok (decode_table m !! k) : outcome unit _).
Proof.
  intros Hwf. rewrite decode_table_lookup. destruct (m !! encode_key k) as [b|] eqn:Hb; simpl; [|done].
  destruct (proj1 (wf_table_alt m) Hwf _ _ Hb) as [[k' v] [_ Hv]%decode_row_Some]. simpl in Hv. unfold decode_value. by rewrite Hv.
Qed.

Lemma contains_decoded m k : wf_table m -> is_Some (m !! encode_key k) <-> is_Some (decode_table m !! k).
Proof.
  intros Hwf. rewrite decode_table_lookup. destruct (m !! encode_key k) as [b|] eqn:Hb; simpl; [|done].
  destruct (proj1 (wf_table_alt m) Hwf _ _ Hb) as [[k' v] [_ Hv]%decode_row_Some]. simpl in Hv. rewrite Hv. naive_solver.
Qed.

Lemma encode_value_Ok v : exists b, encode_value v = Ok b /\ bcs_to_bytes v = Some b.
Proof. unfold encode_value. destruct (bcs_total v) as [b ->]. by exists b. Qed.

Lemma put_decoded s n m k v b : s !! n = Some m -> bcs_to_bytes v = Some b -> wf_store s ->
  wf_store (<[n := <[encode_key k := b]> m]> s) /\
  decoded (<[n := <[encode_key k := b]> m]> s) = MemDatabase.insert (decoded s) n k v.
Proof.
  intros Hs Hb Hwf. split.
  - apply map_Forall_insert_2; [|done]. eapply wf_table_insert; [done|]. by apply (Hwf n).
  - unfold MemDatabase.insert. rewrite (decoded_lookup s n m Hs). unfold decoded, MemTable.insert.
    by rewrite fmap_insert, (decode_table_insert m k v b).
Qed.

Lemma del_decoded s n m k : s !! n = Some m -> wf_store s ->
  wf_store (<[n := delete (encode_key k) m]> s) /\
  decoded (<[n := delete (encode_key k) m]> s) = MemDatabase.remove (decoded s) n k.
Proof.
  intros Hs Hwf. split.
  - apply map_Forall_insert_2; [|done]. apply wf_table_delete. by apply (Hwf n).
  - unfold MemDatabase.remove. rewrite (decoded_lookup s n m Hs). unfold decoded, MemTable.remove.
    by rewrite fmap_insert, decode_table_delete.
Qed.

Lemma clear_decoded s n m : s !! n = Some m -> wf_store s ->
  wf_store (<[n := ∅]> s) /\ decoded (<[n := ∅]> s) = MemDatabase.clear_table (decoded s) n.
Proof.
  intros Hs Hwf. split.
  - apply map_Forall_insert_2; [apply wf_table_empty|done].
  - unfold MemDatabase.clear_table. rewrite (decoded_lookup s n m Hs). unfold decoded. by rewrite fmap_insert.
Qed.

(** Rows that all decode. *)
Lemma decoded_length l : Forall (fun kv => is_Some (decode_row kv)) l -> length (omap decode_row l) = length l.
Proof. induction 1 as [|x l [e He] _ IH]; simpl; [done|]. rewrite He. simpl. by f_equal. Qed.

Lemma decoded_fmap l : Forall (fun kv => is_Some (decode_row kv)) l -> decode_row <$> l = Some <$> omap decode_row l.
Proof. induction 1 as [|x l [e He] _ IH]; simpl; [done|]. rewrite He. simpl. by f_equal. Qed.

Lemma decoded_last l : Forall (fun kv => is_Some (decode_row kv)) l -> last (omap decode_row l) = last l ≫= decode_row.
Proof.
  intros Hl%decoded_fmap. pose proof (f_equal last Hl) as Heq. rewrite !fmap_last in Heq.
  destruct (last l), (last (omap decode_row l)); simpl in *; congruence.
Qed.

Lemma decoded_rev l : omap decode_row (rev l) = rev (omap decode_row l).
Proof. induction l as [|x l IH]; simpl; [done|]. rewrite omap_app, IH. simpl. destruct (decode_row x); simpl; by rewrite ?app_nil_r. Qed.

(** The last row. *)
Lemma last_row l : Forall (fun kv => is_Some (decode_row kv)) l ->
  match last l with Some kv => e ← decode_entry kv; Ok (Some e) | None => Ok None end = (Ok (last (omap decode_row l)) : outcome unit _).
Proof.
  intros Hl. rewrite decoded_last by done. destruct (last l) as [kv|] eqn:Hkv; simpl; [|done]. apply last_Some in Hkv as [es ->].
  rewrite Forall_app, Forall_singleton in Hl. destruct Hl as [_ [row Hrow]]. by rewrite Hrow, (decode_entry_Ok _ _ Hrow).
Qed.

End operations.

(** ** Some of the rows *)

Lemma sublist_filter_mono {A} (P : A -> Prop) `{forall x, Decision (P x)} (l1 l2 : list A) :
  l1 `sublist_of` l2 -> filter P l1 `sublist_of` filter P l2.
Proof.
  induction 1 as [|x l1 l2 _ IH|x l1 l2 _ IH]; [done| |].
  - rewrite !filter_cons. case_decide; [by apply sublist_skip|done].
  - rewrite filter_cons. case_decide; [by apply sublist_cons|done].
Qed.

Lemma sublist_omap {A B} (f : A -> option B) (l1 l2 : list A) : l1 `sublist_of` l2 -> omap f l1 `sublist_of` omap f l2.
Proof.
  induction 1 as [|x l1 l2 _ IH|x l1 l2 _ IH]; cbn [omap list_omap]; [done| |]; destruct (f x); [by apply sublist_skip|done|by apply sublist_cons|done].
Qed.

Lemma sublist_rev {A} (l1 l2 : list A) : l1 `sublist_of` l2 -> rev l1 `sublist_of` rev l2.
Proof.
  induction 1 as [|x l1 l2 _ IH|x l1 l2 _ IH]; cbn [rev]; [done|by apply sublist_app|].
  rewrite <-(app_nil_r (rev l1)). apply sublist_app; [done|apply sublist_nil_l].
Qed.

Lemma prefix_sublist {A} (l1 l2 : list A) : l1 `prefix_of` l2 -> l1 `sublist_of` l2.
Proof. intros [k ->]. by apply sublist_inserts_r. Qed.

Lemma StronglySorted_sublist {A} (R : A -> A -> Prop) (l1 l2 : list A) :
  l1 `sublist_of` l2 -> StronglySorted R l2 -> StronglySorted R l1.
Proof.
  induction 1 as [|x l1 l2 Hs IH|x l1 l2 Hs IH]; intros Hl; inversion Hl as [|? ? Hl2 Hx]; subst; [done| |by apply IH].
  constructor; [by apply IH|]. apply Forall_forall. intros y Hy. eapply Forall_forall; [exact Hx|].
  by eapply elem_of_sublist; [exact Hy|].
Qed.

Section partial.
Context (m : gmap N N) (l : list (N * N)) (Hl : l `sublist_of` MemTable.iter m).

Lemma partial_sorted : StronglySorted (fun p q => key_leb p.1 q.1 = true) l.
Proof. eapply StronglySorted_sublist; [exact Hl|apply btree_iter_sorted]. Qed.

Lemma partial_skip k : MemTable.skip_while (fun kv => MemTable.key_ltb kv.1 k) l `sublist_of` MemTable.skip_to m k.
Proof.
  rewrite TableFacts.skip_while_filter by apply partial_sorted. rewrite TableFacts.skip_to_spec. by apply sublist_filter_mono.
Qed.

Lemma partial_prior k kv : MemTable.prior_loop k None l = Some kv -> m !! kv.1 = Some kv.2 /\ kv.1 < k.
Proof.
  rewrite TableFacts.prior_loop_spec by apply partial_sorted. destruct (last _) as [x|] eqn:Hx; [|done]. intros [= ->].
  apply last_Some in Hx as [l' Hx]. assert (kv ∈ filter (fun x => key_leb k x.1 = false) l) as [Hk Hin]%list_elem_of_filter by (rewrite Hx; set_solver).
  assert (kv ∈ MemTable.iter m) as Hin' by (eapply elem_of_sublist; [exact Hin|exact Hl]). destruct kv as [k' v]. split; [by apply elem_of_btree_iter|].
  simpl in *. change ((k <=? k') = false) in Hk. lia.
Qed.

End partial.

(** ** Transactions of an engine *)

Section engine.
Context `{SerializerLaws} `{StorageEngineLaws}.

Definition view (e : Env) : Store := decoded (env_tables e).
Definition wf (e : Env) : Prop := wf_store (env_tables e).

(** A write [f] of a transaction that acts on the decoded tables as [g], and one that does so
    whenever the engine answers. *)
Definition acts (f : action Txn unit unit) (g : Store -> Store) (n : N) : Prop := forall tx,
  writes (f tx) (wf_store (txn_tables tx) /\ is_Some (decoded (txn_tables tx) !! n))
    (fun tx' => wf_store (txn_tables tx') /\ decoded (txn_tables tx') = g (decoded (txn_tables tx))).

Definition succeeds (f : action Txn unit unit) (n : N) : Prop := forall tx,
  is_Some (decoded (txn_tables tx) !! n) -> (f tx).2 = Ok ().

(** A single write is a transaction with it. *)
Lemma in_txn_spec f g n e : acts f g n -> wf e -> is_Some (view e !! n) ->
  let '(e', r) := in_txn e f in
  wf e' /\ match r with Ok _ => view e' = g (view e) | Err _ => view e' = view e | _ => False end.
Proof.
  intros Hf Hwf Hn. unfold in_txn. destruct (begin_txn e) as [tx|] eqn:Hb; [|done]. pose proof (begin_tables e tx Hb) as Ht.
  specialize (Hf tx). unfold writes, view, wf in *. rewrite Ht in Hf. destruct (f tx) as [tx' [[]|x| |]]; cbn [fst snd] in Hf; [|done..].
  destruct (Hf (conj Hwf Hn)) as [Hwf' Hv]. unfold commit_txn. pose proof (commit_tables e tx') as Hc.
  destruct (engine_commit e tx') as [e' []]; cbn [fst snd ensure] in *; rewrite Hc; split; congruence || done.
Qed.

Lemma in_txn_writes f g n e : acts f g n ->
  writes (in_txn e f) (wf e /\ is_Some (view e !! n)) (fun e' => wf e' /\ view e' = g (view e)).
Proof.
  intros Hf. unfold writes. pose proof (in_txn_spec f g n e Hf) as Hs. destruct (in_txn e f) as [e' r] eqn:Hr. cbn [fst snd].
  destruct r as [u|x| |]; [intros [Hwf Hn]; by apply Hs|done| |]; revert Hr; unfold in_txn; (destruct (begin_txn e) as [tx|]; [|done]);
    specialize (Hf tx); unfold writes in Hf; destruct (f tx) as [tx' [[]|x| |]]; cbn [fst snd] in Hf; try done;
    unfold commit_txn; by destruct (engine_commit e tx') as [? []].
Qed.

Lemma in_txn_succeeds f n e : EngineAnswers -> succeeds f n -> is_Some (view e !! n) -> (in_txn e f).2 = Ok ().
Proof.
  intros Ha Hf Hn. unfold in_txn. destruct (begin_answers e) as [tx Hb]. rewrite Hb.
  specialize (Hf tx). rewrite (begin_tables e tx Hb) in Hf. specialize (Hf Hn). destruct (f tx) as [tx' r]. simpl in Hf. subst r.
  unfold commit_txn. pose proof (commit_answers e tx') as Hc. destruct (engine_commit e tx') as [e' ok]. simpl in *. by subst.
Qed.

Lemma in_txn_implements f g n e : EngineAnswers -> acts f g n -> succeeds f n -> wf e -> is_Some (view e !! n) ->
  exists e', in_txn e f = (e', Ok ()) /\ wf e' /\ view e' = g (view e).
Proof.
  intros Ha Hf Hs Hwf Hn. pose proof (in_txn_succeeds f n e Ha Hs Hn) as Hr. pose proof (in_txn_spec f g n e Hf Hwf Hn) as Hv.
  destruct (in_txn e f) as [e' r]. simpl in Hr. subst r. exists e'. by destruct Hv.
Qed.

(** Reading a table that is there. *)
Lemma table_get_decoded tx n k : is_Some (decoded (txn_tables tx) !! n) -> wf_store (txn_tables tx) ->
  match table_get tx n k with Ok r => r = MemDatabase.get (decoded (txn_tables tx)) n k | Err _ => True | _ => False end.
Proof.
  intros [m Hm]%decoded_open Hwf. unfold table_get, MemDatabase.get, MemTable.get. rewrite (decoded_lookup _ _ _ Hm). cbn [mbind option_bind].
  destruct (engine_get tx n (encode_key k)) as [r|] eqn:Hg; [|done]. apply (get_tables _ _ _ m) in Hg as ->; [|done].
  cbn [ok_or mbind outcome_bind]. by rewrite get_decoded by by apply (Hwf n).
Qed.

Lemma table_get_answers tx n k : EngineAnswers -> is_Some (decoded (txn_tables tx) !! n) -> wf_store (txn_tables tx) ->
  table_get tx n k = Ok (MemDatabase.get (decoded (txn_tables tx)) n k).
Proof.
  intros Ha Hn Hwf. pose proof (table_get_decoded tx n k Hn Hwf) as Hg. pose proof (decoded_open _ _ Hn) as [m Hm].
  destruct (get_answers tx n (encode_key k) ltac:(by eexists)) as [r Hr]. pose proof (get_tables _ _ _ m _ Hm Hr) as ->.
  unfold table_get in *. rewrite Hr in *. cbn [ok_or mbind outcome_bind] in *. rewrite get_decoded in * by by apply (Hwf n). by rewrite Hg.
Qed.

Lemma call_writes f tx pre post : (forall tx', f tx = (tx', true) -> pre -> post tx') -> writes (call f tx) pre post.
Proof. intros Hf. unfold writes, call. destruct (f tx) as [tx' []] eqn:Hx; cbn [fst snd ensure]; [by apply Hf|done]. Qed.

Lemma call_spec f tx : (call f tx).2 = if (f tx).2 then Ok () else Err ().
Proof. unfold call. by destruct (f tx) as [? []]. Qed.

End engine.

(** ** MDBX *)

Module MdbxFacts.
Import MdbxDatabase.
Section facts.
Context `{SerializerLaws} `{StorageEngineLaws} `{!MdbxCursors} `{!MdbxCursorLaws}.

(** The rows after the cursor: up to the first error. *)
Lemma iter_yields c : Forall (fun kv => is_Some (decode_row kv)) (cursor_entries c) ->
  let rest := omap decode_row (drop (from_option S O (cursor_index c)) (cursor_entries c)) in
  exists l, yields iter_next c l /\ l `prefix_of` rest /\ (CursorsAnswer -> l = rest).
Proof.
  intros Hwf. remember (length (cursor_entries c) - from_option S O (cursor_index c))%nat as left eqn:Hleft.
  revert c Hwf Hleft. induction left as [|left IH]; intros c Hwf Hleft rest; pose proof (cursor_next_at c) as Hn;
    destruct (cursor_keeps c) as (Hk & _ & _); (destruct (cursor_next c) as [c' [r|]] eqn:Hc; simpl in Hn, Hk;
      [specialize (Hn r eq_refl) as [-> Hi]|exists []; split_and!;
        [apply (yields_nil _ _ c'); unfold iter_next; by rewrite Hc|apply prefix_nil
        |intros Ha; destruct (next_answers c) as [x Hx]; by rewrite Hc in Hx]]);
    destruct (cursor_entries c !! from_option S O (cursor_index c)) as [kv|] eqn:Hkv.
  - apply lookup_lt_Some in Hkv. lia.
  - exists []. unfold rest. rewrite drop_ge by (by apply lookup_ge_None).
    split_and!; [apply (yields_nil _ _ c'); unfold iter_next; by rewrite Hc|done|done].
  - destruct (proj1 (Forall_lookup _ _) Hwf _ _ Hkv) as [row Hrow]. unfold rest. rewrite (drop_S _ _ _ Hkv). simpl. rewrite Hrow.
    specialize (Hi ltac:(eauto)). specialize (IH c'). rewrite Hk, Hi in IH. destruct IH as (l & Hy & Hp & Ha); [done|simpl; apply lookup_lt_Some in Hkv; lia|].
    exists (row :: l). split_and!; [|by apply prefix_cons|intros Hans; f_equal; by apply Ha].
    apply (yields_cons _ _ c'); [|done]. unfold iter_next. by rewrite Hc, (decode_entry_Ok _ _ Hrow).
  - apply lookup_ge_None in Hkv. lia.
Qed.

(** The rows before the cursor, from the last one. *)
Lemma rev_yields_started c i : Forall (fun kv => is_Some (decode_row kv)) (cursor_entries c) ->
  cursor_index c = Some i -> (i < length (cursor_entries c))%nat ->
  let rest := omap decode_row (rev (take i (cursor_entries c))) in
  exists l, yields rev_next (c, true) l /\ l `prefix_of` rest /\ (CursorsAnswer -> l = rest).
Proof.
  revert c. induction i as [|i IH]; intros c Hwf Hi Hlt rest; pose proof (fun r => cursor_prev_at c _ r Hi) as Hp;
    destruct (cursor_keeps c) as (_ & Hk & _); (destruct (cursor_prev c) as [c' [r|]] eqn:Hc; simpl in Hp, Hk;
      [specialize (Hp r eq_refl)|exists []; split_and!;
        [apply (yields_nil _ _ (c', true)); unfold rev_next; by rewrite Hc|apply prefix_nil
        |intros Ha; destruct (prev_answers c) as [x Hx]; by rewrite Hc in Hx]]).
  - subst r. exists []. split_and!; [apply (yields_nil _ _ (c', true)); unfold rev_next; by rewrite Hc|done|done].
  - destruct Hp as [-> Hi']. destruct (lookup_lt_is_Some_2 (cursor_entries c) i) as [kv Hkv]; [lia|].
    unfold rest. rewrite (take_S_r _ _ _ Hkv), rev_app_distr. simpl.
    destruct (proj1 (Forall_lookup _ _) Hwf _ _ Hkv) as [row Hrow]. rewrite Hrow. rewrite Hkv in Hc.
    specialize (IH c'). rewrite Hk in IH. destruct IH as (l & Hy & Hpre & Ha); [done..|lia|].
    exists (row :: l). split_and!; [|by apply prefix_cons|intros Hans; f_equal; by apply Ha].
    apply (yields_cons _ _ (c', true)); [|done]. unfold rev_next. by rewrite Hc, (decode_entry_Ok _ _ Hrow).
Qed.

Lemma rev_yields c : Forall (fun kv => is_Some (decode_row kv)) (cursor_entries c) ->
  let rest := rev (omap decode_row (cursor_entries c)) in
  exists l, yields rev_next (c, false) l /\ l `prefix_of` rest /\ (CursorsAnswer -> l = rest).
Proof.
  intros Hwf rest. unfold rest. rewrite <-decoded_rev. pose proof (cursor_last_at c) as Hl. destruct (cursor_keeps c) as (_ & _ & Hk).
  destruct (cursor_last c) as [c' [r|]] eqn:Hc; simpl in Hl, Hk;
    [specialize (Hl r eq_refl) as [-> Hi]|exists []; split_and!;
        [apply (yields_nil _ _ (c', true)); unfold rev_next; by rewrite Hc|apply prefix_nil
        |intros Ha; destruct (last_answers c) as [x Hx]; by rewrite Hc in Hx]].
  destruct (last (cursor_entries c)) as [kv|] eqn:Hkv.
  - specialize (Hi ltac:(eauto)). pose proof Hkv as [es Hes]%last_Some. rewrite Hes, rev_app_distr. simpl.
    assert (is_Some (decode_row kv)) as [row Hrow] by (rewrite Hes, Forall_app, Forall_singleton in Hwf; apply Hwf). rewrite Hrow.
    pose proof (rev_yields_started c' (length es)) as Hy. rewrite Hk, Hi, Hes, length_app in Hy. simpl in Hy. rewrite take_app_length in Hy.
    destruct Hy as (l & Hy & Hpre & Ha); [by rewrite <-Hes|f_equal; lia|lia|].
    exists (row :: l). split_and!; [|by apply prefix_cons|intros Hans; f_equal; by apply Ha].
    apply (yields_cons _ _ (c', true)); [|done]. unfold rev_next. by rewrite Hc, (decode_entry_Ok _ _ Hrow).
  - apply last_None in Hkv. rewrite Hkv. exists []. split_and!; [apply (yields_nil _ _ (c', true)); unfold rev_next; by rewrite Hc|done|done].
Qed.

(** Writes of a transaction. *)
Lemma guarded_run n f tx :
  (_ ← with_state (fun tx => lift (get_dbi tx n)); call f) tx = if engine_open tx n then call f tx else (tx, Err ()).
Proof. unfold mbind, action_bind, with_state, lift, get_dbi. by destruct (engine_open tx n). Qed.

Lemma insert_run n k v : exists b, bcs_to_bytes v = Some b /\ forall tx,
  tx_insert n k v tx = if engine_open tx n then call (fun tx => engine_put tx n (encode_key k) b) tx else (tx, Err ()).
Proof.
  destruct (encode_value_Ok v) as (b & Hv & Hb). exists b. split; [done|]. intros tx. rewrite <-guarded_run. unfold tx_insert. by rewrite Hv.
Qed.

Lemma insert_acts n k v : acts (tx_insert n k v) (fun s => MemDatabase.insert s n k v) n.
Proof.
  intros tx. destruct (insert_run n k v) as (b & Hb & Hrun). rewrite Hrun. destruct (engine_open tx n); [|done].
  apply call_writes. intros tx' Hp [Hwf [m Hm]%decoded_open]. rewrite (put_tables tx n _ b m tx' Hm Hp). by apply put_decoded.
Qed.

Lemma remove_acts n k : acts (tx_remove n k) (fun s => MemDatabase.remove s n k) n.
Proof.
  intros tx. unfold tx_remove. rewrite guarded_run. destruct (engine_open tx n); [|done].
  apply call_writes. intros tx' Hp [Hwf [m Hm]%decoded_open]. rewrite (del_tables tx n _ m tx' Hm Hp). by apply del_decoded.
Qed.

Lemma clear_acts n : acts (tx_clear_table n) (fun s => MemDatabase.clear_table s n) n.
Proof.
  intros tx. unfold tx_clear_table. rewrite guarded_run. destruct (engine_open tx n); [|done].
  apply call_writes. intros tx' Hp [Hwf [m Hm]%decoded_open]. rewrite (clear_tables tx n m tx' Hm Hp). by apply (clear_decoded _ n m).
Qed.

Lemma writes_succeed n k v : EngineAnswers ->
  succeeds (tx_insert n k v) n /\ succeeds (tx_remove n k) n /\ succeeds (tx_clear_table n) n.
Proof.
  intros Ha. destruct (insert_run n k v) as (b & _ & Hrun). split_and!; intros tx [m Hm]%decoded_open;
    [rewrite Hrun|unfold tx_remove; rewrite guarded_run|unfold tx_clear_table; rewrite guarded_run];
    rewrite open_answers by (by eexists); rewrite call_spec.
  - by rewrite put_answers by by eexists.
  - by rewrite del_answers by by eexists.
  - by rewrite clear_answers by by eexists.
Qed.

(** Reading. *)
Lemma get_spec e n k : wf e -> is_Some (view e !! n) ->
  match get e n k with Ok r => r = MemDatabase.get (view e) n k | Err _ => True | _ => False end.
Proof.
  intros Hwf Hn. unfold get, read_txn. destruct (begin_txn e) as [tx|] eqn:Hb; [|done]. cbn [ok_or mbind outcome_bind].
  unfold view, wf in *. rewrite <-(begin_tables e tx Hb) in *. unfold tx_get, get_dbi. destruct (engine_open tx n); [|done].
  by apply table_get_decoded.
Qed.

Lemma get_answers_spec e n k : EngineAnswers -> wf e -> is_Some (view e !! n) -> get e n k = Ok (MemDatabase.get (view e) n k).
Proof.
  intros Ha Hwf Hn. unfold get, read_txn. destruct (begin_answers e) as [tx Hb]. rewrite Hb. cbn [ok_or mbind outcome_bind].
  unfold view, wf in *. rewrite <-(begin_tables e tx Hb) in *. unfold tx_get, get_dbi. rewrite open_answers.
  - cbn [ensure mbind outcome_bind]. by apply table_get_answers.
  - apply decoded_open in Hn as [m Hm]. by eexists.
Qed.

Lemma read_cursor_spec e n m c : env_tables e !! n = Some m -> read_cursor e n = Ok c -> cursor_entries c = btree_iter m /\ cursor_index c = None.
Proof.
  intros Hm. unfold read_cursor, read_txn. destruct (begin_txn e) as [tx|] eqn:Hb; [|done]. cbn [ok_or mbind outcome_bind].
  unfold get_dbi. destruct (engine_open tx n); [|done]. cbn [ensure mbind outcome_bind]. intros Hc%ok_or_Ok.
  rewrite <-(begin_tables e tx Hb) in Hm. by eapply cursor_open.
Qed.

Lemma read_cursor_answers e n : EngineAnswers -> CursorsAnswer -> is_Some (env_tables e !! n) -> exists c, read_cursor e n = Ok c.
Proof.
  intros Ha Hc Hn. unfold read_cursor, read_txn. destruct (begin_answers e) as [tx Hb]. rewrite Hb. cbn [ok_or mbind outcome_bind].
  rewrite <-(begin_tables e tx Hb) in Hn. unfold get_dbi. rewrite open_answers by done. cbn [ensure mbind outcome_bind].
  destruct (cursor_answers tx n Hn) as [c Hcc]. exists c. by rewrite Hcc.
Qed.

Lemma cursor_Ok e n c : cursor e n = Ok c <-> read_cursor e n = Ok c.
Proof. unfold cursor. by destruct (read_cursor e n). Qed.

(** What the forward iterator gives. *)
Lemma cursor_rows e n m c : wf e -> env_tables e !! n = Some m -> cursor e n = Ok c ->
  exists l, yields iter_next c l /\ (length l < S (length (cursor_entries c)))%nat /\
    l `sublist_of` btree_iter (decode_table m) /\ (CursorsAnswer -> l = btree_iter (decode_table m)).
Proof.
  intros Hwf Hm Hc%cursor_Ok. destruct (read_cursor_spec e n m c Hm Hc) as [Hes Hi]. assert (wf_table m) as Ht by by apply (Hwf n).
  destruct (iter_yields c) as (l & Hy & Hp & Ha); [by rewrite Hes|]. rewrite Hes, Hi in Hp, Ha. cbn [from_option] in Hp, Ha. rewrite drop_0 in Hp, Ha.
  rewrite <-decoded_iter. exists l. split_and!; [done| |by apply prefix_sublist|done].
  apply prefix_length in Hp. rewrite decoded_length in Hp by done. rewrite Hes. lia.
Qed.

Lemma reverse_rows e n m c : wf e -> env_tables e !! n = Some m -> cursor e n = Ok c ->
  exists l, yields rev_next (c, false) l /\ (length l < S (length (cursor_entries c)))%nat /\
    l `sublist_of` rev (btree_iter (decode_table m)) /\ (CursorsAnswer -> l = rev (btree_iter (decode_table m))).
Proof.
  intros Hwf Hm Hc%cursor_Ok. destruct (read_cursor_spec e n m c Hm Hc) as [Hes Hi]. assert (wf_table m) as Ht by by apply (Hwf n).
  destruct (rev_yields c) as (l & Hy & Hp & Ha); [by rewrite Hes|]. rewrite Hes in Hp, Ha.
  rewrite <-decoded_iter. exists l. split_and!; [done| |by apply prefix_sublist|done].
  apply prefix_length in Hp. rewrite length_rev, decoded_length in Hp by done. rewrite Hes. lia.
Qed.

Lemma iter_spec e n m l : wf e -> env_tables e !! n = Some m -> iter e n = Ok l -> l `sublist_of` btree_iter (decode_table m).
Proof.
  intros Hwf Hm. unfold iter. intros (c & Hc & Hl)%bind_Ok. destruct (cursor_rows e n m c Hwf Hm Hc) as (l' & Hy & Hf & Hs & _).
  rewrite (collect_yields _ _ _ _ Hy Hf) in Hl. by injection Hl as <-.
Qed.

Lemma iter_answers e n m : EngineAnswers -> CursorsAnswer -> wf e -> env_tables e !! n = Some m -> iter e n = Ok (btree_iter (decode_table m)).
Proof.
  intros Ha Hca Hwf Hm. destruct (read_cursor_answers e n Ha Hca ltac:(by eexists)) as [c Hc%cursor_Ok].
  destruct (cursor_rows e n m c Hwf Hm Hc) as (l' & Hy & Hf & _ & Heq). specialize (Heq Hca). subst l'. unfold iter. rewrite Hc. by apply collect_yields.
Qed.

Lemma last_spec e n m : wf e -> env_tables e !! n = Some m ->
  last_record e n = Ok None \/ last_record e n = Ok (MemTable.last_record (decode_table m)).
Proof.
  intros Hwf Hm. assert (wf_table m) as Ht by by apply (Hwf n). unfold last_record. destruct (read_cursor e n) as [c| | |] eqn:Hc; [|by left..].
  destruct (read_cursor_spec e n m c Hm Hc) as [Hes _]. destruct (cursor_last c).2 as [r|] eqn:Hl; [|by left]. right.
  apply cursor_last_at in Hl as [-> _]. rewrite Hes. unfold MemTable.last_record, last_key_value. rewrite <-decoded_iter. by apply last_row.
Qed.

Lemma mdbx_reports : reports_errors db view wf.
Proof.
  constructor; intros d n *; simpl.
  - apply get_spec.
  - intros Hwf Hn. unfold contains_key. pose proof (get_spec d n k Hwf Hn) as Hg. unfold get in Hg. destruct (read_txn d) as [tx| | |]; try done.
    cbn [mbind outcome_bind] in *. destruct (tx_get tx n k) as [r| | |]; try done. subst r. cbn [mbind outcome_bind].
    unfold MemDatabase.contains_key, MemDatabase.get. destruct Hn as [m ->]. done.
  - intros Hwf Hn. exact (in_txn_spec _ _ n d (insert_acts n k v) Hwf Hn).
  - intros Hwf Hn. exact (in_txn_spec _ _ n d (remove_acts n k) Hwf Hn).
  - intros Hwf Hn. exact (in_txn_spec _ _ n d (clear_acts n) Hwf Hn).
  - intros Hwf Hn Hi. destruct (decoded_open (env_tables d) n) as [m' Hm]; [by eexists|]. unfold view in Hn. rewrite (decoded_lookup _ _ _ Hm) in Hn.
    injection Hn as <-. by eapply iter_spec.
  - intros Hwf Hn. destruct (decoded_open (env_tables d) n) as [m' Hm]; [by eexists|]. unfold view in Hn. rewrite (decoded_lookup _ _ _ Hm) in Hn.
    injection Hn as <-. unfold skip_to. intros (l' & Hl & [= <-])%bind_Ok. apply partial_skip. by eapply iter_spec.
  - intros Hwf Hn. destruct (decoded_open (env_tables d) n) as [m' Hm]; [by eexists|]. unfold view in Hn. rewrite (decoded_lookup _ _ _ Hm) in Hn.
    injection Hn as <-. unfold reverse_iter. intros (c & Hc & Hl)%bind_Ok. destruct (reverse_rows d n m' c Hwf Hm Hc) as (l' & Hy & Hf & Hs & _).
    rewrite (collect_yields _ _ _ _ Hy Hf) in Hl. by injection Hl as <-.
  - intros Hwf Hn Hl. destruct (decoded_open (env_tables d) n) as [m' Hm]; [by eexists|]. unfold view in Hn. rewrite (decoded_lookup _ _ _ Hm) in Hn.
    injection Hn as <-. destruct (last_spec d n m' Hwf Hm) as [Heq|Heq]; rewrite Heq in Hl; by injection Hl.
  - intros Hwf Hn. destruct (decoded_open (env_tables d) n) as [m' Hm]; [by eexists|]. unfold view in Hn. rewrite (decoded_lookup _ _ _ Hm) in Hn.
    injection Hn as <-. unfold record_prior_to. intros (c & Hc & Hl)%bind_Ok. destruct (cursor_rows d n m' c Hwf Hm Hc) as (l' & Hy & Hf & Hs & _).
    rewrite (prior_yields _ _ _ _ _ _ Hy Hf) in Hl. injection Hl as Hl. by eapply partial_prior.
Qed.

Lemma mdbx_tables : EngineAnswers -> CursorsAnswer -> implements db view wf.
Proof.
  intros Ha Hca. constructor; intros d n *; simpl; intros Hwf Hop; pose proof (decoded_open _ _ Hop) as (m & Hm);
    pose proof (decoded_lookup _ _ _ Hm) as Hd; fold (view d) in Hd;
    destruct (read_cursor_answers d n Ha Hca ltac:(by eexists)) as [c Hc]; pose proof (proj2 (cursor_Ok d n c) Hc) as Hcur;
    destruct (cursor_rows d n m c Hwf Hm Hcur) as (l & Hy & Hf & _ & Heq); specialize (Heq Hca); subst l.
  - by apply get_answers_spec.
  - pose proof (get_answers_spec d n k Ha Hwf Hop) as (tx & Htx & Hg)%bind_Ok. unfold contains_key. rewrite Htx. cbn [mbind outcome_bind].
    rewrite Hg. cbn [mbind outcome_bind]. unfold MemDatabase.contains_key, MemDatabase.get. by rewrite Hd.
  - exact (in_txn_implements _ _ n d Ha (insert_acts n k v) (proj1 (writes_succeed n k v Ha)) Hwf Hop).
  - exact (in_txn_implements _ _ n d Ha (remove_acts n k) (proj1 (proj2 (writes_succeed n k 0 Ha))) Hwf Hop).
  - exact (in_txn_implements _ _ n d Ha (clear_acts n) (proj2 (proj2 (writes_succeed n 0 0 Ha))) Hwf Hop).
  - unfold is_empty, MemDatabase.is_empty. rewrite Hcur, Hd. cbn [mbind outcome_bind]. apply yields_head in Hy as [c' Hn]. rewrite Hn.
    simpl. by rewrite head_is_empty.
  - rewrite (iter_answers d n m) by done. unfold MemDatabase.iter. by rewrite Hd.
  - unfold skip_to. rewrite (iter_answers d n m) by done. unfold MemDatabase.skip_to. by rewrite Hd.
  - unfold reverse_iter, MemDatabase.reverse_iter. rewrite Hcur, Hd. cbn [mbind outcome_bind].
    destruct (reverse_rows d n m c Hwf Hm Hcur) as (l' & Hy' & Hf' & _ & Heq). specialize (Heq Hca). subst l'. by apply collect_yields.
  - unfold MemDatabase.last_record. rewrite Hd. cbn [mbind option_bind]. unfold last_record. rewrite Hc. destruct (last_answers c) as [r Hr].
    rewrite Hr. apply cursor_last_at in Hr as [-> _]. destruct (read_cursor_spec d n m c Hm Hc) as [-> _].
    unfold MemTable.last_record, last_key_value. rewrite <-decoded_iter. apply last_row. by apply (Hwf n).
Qed.

Lemma prior_decoded e n m k : EngineAnswers -> CursorsAnswer -> wf e -> env_tables e !! n = Some m ->
  record_prior_to e n k = Ok (MemTable.record_prior_to (decode_table m) k).
Proof.
  intros Ha Hca Hwf Hm. destruct (read_cursor_answers e n Ha Hca ltac:(by eexists)) as [c Hc%cursor_Ok].
  destruct (cursor_rows e n m c Hwf Hm Hc) as (l & Hy & Hf & _ & Heq). specialize (Heq Hca). subst l. unfold record_prior_to. rewrite Hc. by apply prior_yields.
Qed.

End facts.
End MdbxFacts.

(** ** redb *)

Module ReDBFacts.
Import ReDB.
Section facts.
Context `{SerializerLaws} `{StorageEngineLaws} `{!RedbTables} `{!RedbTableLaws}.

Lemma open_write_tables n tx tx' : open_write n tx = (tx', Ok ()) -> is_Some (txn_tables tx !! n) -> txn_tables tx' = txn_tables tx.
Proof.
  unfold open_write, call. pose proof (create_tables tx n) as Hc. destruct (engine_create tx n) as [tx1 []]; [|done].
  intros [= <-] [m Hm]. specialize (Hc tx1 eq_refl). by rewrite Hm in Hc.
Qed.

Lemma open_write_cases n tx : exists tx', open_write n tx = (tx', Ok ()) \/ open_write n tx = (tx', Err ()).
Proof. unfold open_write, call. destruct (engine_create tx n) as [tx' []]; eauto. Qed.

Lemma opened_run {A} n (k : unit -> action Txn unit A) tx tx' : open_write n tx = (tx', Ok ()) -> (open_write n ≫= k) tx = k () tx'.
Proof. intros Ho. unfold mbind, action_bind. by rewrite Ho. Qed.

Lemma not_opened_run {A} n (k : unit -> action Txn unit A) tx tx' : open_write n tx = (tx', Err ()) -> (open_write n ≫= k) tx = (tx', Err ()).
Proof. intros Ho. unfold mbind, action_bind. by rewrite Ho. Qed.

Lemma re_insert_run n k v : exists b, bcs_to_bytes v = Some b /\
  tx_insert n k v = (open_write n ≫= fun _ => call (fun tx => engine_put tx n (encode_key k) b)).
Proof. destruct (encode_value_Ok v) as (b & Hv & Hb). exists b. split; [done|]. unfold tx_insert. by rewrite Hv. Qed.

Lemma re_insert_acts n k v : acts (tx_insert n k v) (fun s => MemDatabase.insert s n k v) n.
Proof.
  intros tx. destruct (re_insert_run n k v) as (b & Hb & ->).
  destruct (open_write_cases n tx) as (tx1 & [Ho|Ho]); [rewrite (opened_run _ _ _ _ Ho)|by rewrite (not_opened_run _ _ _ _ Ho)].
  apply call_writes. intros tx' Hp [Hwf [m Hm]%decoded_open]. pose proof (open_write_tables n tx tx1 Ho ltac:(by eexists)) as Ht.
  rewrite (put_tables tx1 n _ b m tx') by (done || by rewrite Ht). rewrite Ht. by apply put_decoded.
Qed.

Lemma re_remove_acts n k : acts (tx_remove n k) (fun s => MemDatabase.remove s n k) n.
Proof.
  intros tx. unfold tx_remove.
  destruct (open_write_cases n tx) as (tx1 & [Ho|Ho]); [rewrite (opened_run _ _ _ _ Ho)|by rewrite (not_opened_run _ _ _ _ Ho)].
  apply call_writes. intros tx' Hp [Hwf [m Hm]%decoded_open]. pose proof (open_write_tables n tx tx1 Ho ltac:(by eexists)) as Ht.
  rewrite (del_tables tx1 n _ m tx') by (done || by rewrite Ht). rewrite Ht. by apply del_decoded.
Qed.

Lemma re_clear_run n tx : tx_clear_table n tx =
  if (engine_delete tx n).2 then call (fun tx => engine_create tx n) (engine_delete tx n).1 else ((engine_delete tx n).1, Err ()).
Proof. unfold tx_clear_table, mbind, action_bind, open_write. unfold call at 1. by destruct (engine_delete tx n) as [? []]. Qed.

Lemma re_clear_acts n : acts (tx_clear_table n) (fun s => MemDatabase.clear_table s n) n.
Proof.
  intros tx. rewrite re_clear_run. destruct (engine_delete tx n) as [tx1 []] eqn:Hd; [|done]. cbn [fst snd].
  apply call_writes. intros tx' Hc [Hwf [m Hm]%decoded_open].
  rewrite (create_tables tx1 n tx' Hc), (delete_tables tx n tx1 Hd), lookup_delete_eq, insert_delete_eq. by apply (clear_decoded _ n m).
Qed.

Lemma open_write_answers n tx : EngineAnswers -> is_Some (txn_tables tx !! n) ->
  exists tx', open_write n tx = (tx', Ok ()) /\ is_Some (txn_tables tx' !! n).
Proof.
  intros Ha Hn. pose proof (create_answers tx n) as Hc. destruct (open_write_cases n tx) as (tx' & [Ho|Ho]).
  - exists tx'. split; [done|]. by rewrite (open_write_tables n tx tx' Ho Hn).
  - unfold open_write, call in Ho. destruct (engine_create tx n) as [? []]; done.
Qed.

Lemma re_writes_succeed n k v : EngineAnswers ->
  succeeds (tx_insert n k v) n /\ succeeds (tx_remove n k) n /\ succeeds (tx_clear_table n) n.
Proof.
  intros Ha. destruct (re_insert_run n k v) as (b & _ & Hrun). split_and!; intros tx [m Hm]%decoded_open;
    destruct (open_write_answers n tx Ha ltac:(by eexists)) as (tx1 & Ho & Hn).
  - rewrite Hrun, (opened_run _ _ _ _ Ho), call_spec. by rewrite put_answers.
  - unfold tx_remove. rewrite (opened_run _ _ _ _ Ho), call_spec. by rewrite del_answers.
  - rewrite re_clear_run, delete_answers, call_spec. by rewrite create_answers.
Qed.

Lemma read_table_spec e n tx : read_table e n = Ok tx -> txn_tables tx = env_tables e.
Proof.
  unfold read_table, read_txn. destruct (begin_txn e) as [tx'|] eqn:Hb; [|done]. cbn [ok_or mbind outcome_bind].
  unfold open_read. destruct (engine_open tx' n); [|done]. intros [= <-]. by apply begin_tables.
Qed.

Lemma read_table_answers e n : EngineAnswers -> is_Some (env_tables e !! n) -> exists tx, read_table e n = Ok tx.
Proof.
  intros Ha Hn. unfold read_table, read_txn. destruct (begin_answers e) as [tx Hb]. rewrite Hb. cbn [ok_or mbind outcome_bind].
  rewrite <-(begin_tables e tx Hb) in Hn. unfold open_read. rewrite open_answers by done. by exists tx.
Qed.

Lemma re_get_read e n k : get e n k = (tx ← read_table e n; table_get tx n k).
Proof.
  unfold get, read_table, read_txn. destruct (begin_txn e) as [tx|]; [|done]. cbn [ok_or mbind outcome_bind].
  by destruct (open_read tx n).
Qed.

Lemma read_table_returns e n : match read_table e n with Ok _ | Err _ => True | _ => False end.
Proof.
  unfold read_table, read_txn. destruct (begin_txn e) as [tx|]; [|done]. cbn [ok_or mbind outcome_bind]. unfold open_read. by destruct (engine_open tx n).
Qed.

Lemma re_get_spec e n k : wf e -> is_Some (view e !! n) ->
  match get e n k with Ok r => r = MemDatabase.get (view e) n k | Err _ => True | _ => False end.
Proof.
  intros Hwf Hn. rewrite re_get_read. pose proof (read_table_returns e n) as Hr. destruct (read_table e n) as [tx| | |] eqn:Ht; try done.
  cbn [mbind outcome_bind]. unfold view, wf in *. rewrite <-(read_table_spec e n tx Ht) in *. by apply table_get_decoded.
Qed.

Lemma re_get_answers e n k : EngineAnswers -> wf e -> is_Some (view e !! n) -> get e n k = Ok (MemDatabase.get (view e) n k).
Proof.
  intros Ha Hwf Hn. rewrite re_get_read. destruct (read_table_answers e n Ha) as [tx Ht]; [apply decoded_open in Hn as [m Hm]; by eexists|].
  rewrite Ht. cbn [mbind outcome_bind]. unfold view, wf in *. rewrite <-(read_table_spec e n tx Ht) in *. by apply table_get_answers.
Qed.

Lemma rows_yield l : Forall (fun kv => is_Some (decode_row kv)) l -> yields row_next l (omap decode_row l).
Proof.
  induction 1 as [|kv l [row Hrow] _ IH]; [by eapply yields_nil|]. simpl. rewrite Hrow.
  apply (yields_cons _ _ l); [|done]. simpl. by rewrite (decode_entry_Ok _ _ Hrow).
Qed.

Lemma rows_decoded l : Forall (fun kv => is_Some (decode_row kv)) l -> decode_rows l = Ok (omap decode_row l).
Proof. intros Hl. apply collect_yields; [by apply rows_yield|]. rewrite decoded_length by done. lia. Qed.

(** Some of the rows of a table decode to some of its records. *)
Lemma some_rows m l : wf_table m -> l `sublist_of` btree_iter m ->
  Forall (fun kv => is_Some (decode_row kv)) l /\ omap decode_row l `sublist_of` btree_iter (decode_table m).
Proof.
  intros Ht Hl. split.
  - apply Forall_forall. intros kv Hkv. apply (proj1 (Forall_forall _ _) Ht). by eapply elem_of_sublist; [exact Hkv|].
  - rewrite <-decoded_iter. by apply sublist_omap.
Qed.

Lemma table_rows_spec e n m tx l : env_tables e !! n = Some m -> read_table e n = Ok tx -> table_rows tx n = Some l -> readable l `sublist_of` btree_iter m.
Proof. intros Hm Ht Hl. rewrite <-(read_table_spec e n tx Ht) in Hm. by eapply rows_tables. Qed.

Lemma rows_spec e n m l : env_tables e !! n = Some m -> rows e n = Ok l -> l `sublist_of` btree_iter m.
Proof.
  intros Hm. unfold rows. destruct (read_table e n) as [tx| | |] eqn:Ht; try done. destruct (table_rows tx n) as [rs|] eqn:Hrs; [|done].
  intros [= <-]. by eapply table_rows_spec.
Qed.

Lemma readable_Some l : readable (Some <$> l) = l.
Proof. unfold readable. induction l as [|x l IH]; [done|]. cbn [fmap list_fmap omap list_omap id]. by f_equal. Qed.

Lemma rows_answer e n m : EngineAnswers -> TablesAnswer -> env_tables e !! n = Some m -> rows e n = Ok (btree_iter m).
Proof.
  intros Ha Hta Hm. destruct (read_table_answers e n Ha ltac:(by eexists)) as [tx Ht]. unfold rows. rewrite Ht.
  rewrite <-(read_table_spec e n tx Ht) in Hm. rewrite (rows_answers tx n m Hm). by rewrite readable_Some.
Qed.

Lemma empty_decoded m : wf_table m -> bool_decide (m = ∅) = MemTable.is_empty (decode_table m).
Proof.
  intros Hwf. unfold MemTable.is_empty. apply bool_decide_ext.
  rewrite <-!map_size_empty_iff, <-!length_btree_iter, <-decoded_iter. by rewrite decoded_length.
Qed.

Lemma re_last_spec e n m : wf e -> env_tables e !! n = Some m ->
  last_record e n = Ok None \/ last_record e n = Ok (MemTable.last_record (decode_table m)).
Proof.
  intros Hwf Hm. unfold last_record. destruct (read_table e n) as [tx| | |] eqn:Ht; [|by left..].
  destruct (table_last tx n) as [r|] eqn:Hl; [|by left]. right. rewrite <-(read_table_spec e n tx Ht) in Hm. apply (last_tables _ _ m) in Hl as ->; [|done].
  unfold MemTable.last_record, last_key_value. rewrite <-decoded_iter. apply last_row. apply (Hwf n). by rewrite <-(read_table_spec e n tx Ht).
Qed.

Lemma redb_reports : reports_errors db view wf.
Proof.
  constructor; intros d n *; simpl.
  - apply re_get_spec.
  - intros Hwf Hn. unfold contains_key. pose proof (re_get_spec d n k Hwf Hn) as Hg. destruct (get d n k) as [r| | |]; try done.
    subst r. cbn [mbind outcome_bind]. unfold MemDatabase.contains_key, MemDatabase.get. destruct Hn as [m ->]. done.
  - intros Hwf Hn. exact (in_txn_spec _ _ n d (re_insert_acts n k v) Hwf Hn).
  - intros Hwf Hn. exact (in_txn_spec _ _ n d (re_remove_acts n k) Hwf Hn).
  - intros Hwf Hn. exact (in_txn_spec _ _ n d (re_clear_acts n) Hwf Hn).
  - intros Hwf Hn. destruct (decoded_open (env_tables d) n) as [m' Hm]; [by eexists|]. unfold view in Hn. rewrite (decoded_lookup _ _ _ Hm) in Hn.
    injection Hn as <-. unfold iter. intros (r & Hr & Hl)%bind_Ok. destruct (some_rows m' r (Hwf n m' Hm) (rows_spec d n m' r Hm Hr)) as [Hd Hs].
    rewrite rows_decoded in Hl by done. by injection Hl as <-.
  - intros Hwf Hn. destruct (decoded_open (env_tables d) n) as [m' Hm]; [by eexists|]. unfold view in Hn. rewrite (decoded_lookup _ _ _ Hm) in Hn.
    injection Hn as <-. unfold skip_to. intros (r & Hr & (r' & Hl & [= <-])%bind_Ok)%bind_Ok.
    destruct (some_rows m' r (Hwf n m' Hm) (rows_spec d n m' r Hm Hr)) as [Hd Hs]. rewrite rows_decoded in Hl by done. injection Hl as <-. by apply partial_skip.
  - intros Hwf Hn. destruct (decoded_open (env_tables d) n) as [m' Hm]; [by eexists|]. unfold view in Hn. rewrite (decoded_lookup _ _ _ Hm) in Hn.
    injection Hn as <-. unfold reverse_iter. intros (r & Hr & Hl)%bind_Ok. destruct (some_rows m' r (Hwf n m' Hm) (rows_spec d n m' r Hm Hr)) as [Hd Hs].
    rewrite rows_decoded, decoded_rev in Hl by by apply Forall_rev. injection Hl as <-. by apply sublist_rev.
  - intros Hwf Hn Hl. destruct (decoded_open (env_tables d) n) as [m' Hm]; [by eexists|]. unfold view in Hn. rewrite (decoded_lookup _ _ _ Hm) in Hn.
    injection Hn as <-. destruct (re_last_spec d n m' Hwf Hm) as [Heq|Heq]; rewrite Heq in Hl; by injection Hl.
  - intros Hwf Hn. destruct (decoded_open (env_tables d) n) as [m' Hm]; [by eexists|]. unfold view in Hn. rewrite (decoded_lookup _ _ _ Hm) in Hn.
    injection Hn as <-. unfold record_prior_to. destruct (read_table d n) as [tx| | |] eqn:Ht; try done. destruct (table_rows tx n) as [l|] eqn:Hl; [|done].
    destruct (some_rows m' _ (Hwf n m' Hm) (table_rows_spec d n m' tx l Hm Ht Hl)) as [Hd Hs].
    rewrite (prior_yields _ _ _ _ _ _ (rows_yield _ Hd)) by (rewrite decoded_length by done; lia). intros [= Hp]. by eapply partial_prior.
Qed.

Lemma redb_tables : EngineAnswers -> TablesAnswer -> implements db view wf.
Proof.
  intros Ha Hta. constructor; intros d n *; simpl; intros Hwf Hop; pose proof (decoded_open _ _ Hop) as (m & Hm);
    pose proof (decoded_lookup _ _ _ Hm) as Hd; fold (view d) in Hd; assert (wf_table m) as Ht by by apply (Hwf n).
  - by apply re_get_answers.
  - unfold contains_key. rewrite re_get_answers by done. cbn [mbind outcome_bind]. unfold MemDatabase.contains_key, MemDatabase.get. by rewrite Hd.
  - exact (in_txn_implements _ _ n d Ha (re_insert_acts n k v) (proj1 (re_writes_succeed n k v Ha)) Hwf Hop).
  - exact (in_txn_implements _ _ n d Ha (re_remove_acts n k) (proj1 (proj2 (re_writes_succeed n k 0 Ha))) Hwf Hop).
  - exact (in_txn_implements _ _ n d Ha (re_clear_acts n) (proj2 (proj2 (re_writes_succeed n 0 0 Ha))) Hwf Hop).
  - unfold is_empty, MemDatabase.is_empty. destruct (read_table_answers d n Ha ltac:(by eexists)) as [tx Htx]. rewrite Htx, Hd.
    rewrite <-(read_table_spec d n tx Htx) in Hm. destruct (is_empty_answers tx n ltac:(by eexists)) as [b Hb]. rewrite Hb.
    apply (is_empty_tables _ _ m) in Hb as ->; [|done]. simpl. by rewrite empty_decoded.
  - unfold iter, MemDatabase.iter. rewrite (rows_answer d n m Ha Hta Hm), Hd. cbn [mbind outcome_bind]. by rewrite rows_decoded, decoded_iter.
  - unfold skip_to, MemDatabase.skip_to. rewrite (rows_answer d n m Ha Hta Hm), Hd. cbn [mbind outcome_bind]. by rewrite rows_decoded, decoded_iter.
  - unfold reverse_iter, MemDatabase.reverse_iter. rewrite (rows_answer d n m Ha Hta Hm), Hd. cbn [mbind outcome_bind].
    rewrite rows_decoded by by apply Forall_rev. by rewrite decoded_rev, decoded_iter.
  - unfold last_record, MemDatabase.last_record. destruct (read_table_answers d n Ha ltac:(by eexists)) as [tx Htx]. rewrite Htx, Hd.
    rewrite <-(read_table_spec d n tx Htx) in Hm. destruct (table_last_answers tx n ltac:(by eexists)) as [r Hr]. rewrite Hr.
    apply (last_tables _ _ m) in Hr as ->; [|done]. cbn [mbind option_bind]. unfold MemTable.last_record, last_key_value. rewrite <-decoded_iter. by apply last_row.
Qed.

Lemma re_prior_decoded e n m k : EngineAnswers -> TablesAnswer -> wf e -> env_tables e !! n = Some m ->
  record_prior_to e n k = Ok (MemTable.record_prior_to (decode_table m) k).
Proof.
  intros Ha Hta Hwf Hm. unfold record_prior_to. destruct (read_table_answers e n Ha ltac:(by eexists)) as [tx Htx]. rewrite Htx.
  assert (wf_table m) as Ht by by apply (Hwf n). rewrite <-(read_table_spec e n tx Htx) in Hm. rewrite (rows_answers tx n m Hm), readable_Some.
  unfold MemTable.record_prior_to. rewrite <-decoded_iter. apply prior_yields; [by apply rows_yield|]. rewrite decoded_length by done. lia.
Qed.

End facts.
End ReDBFacts.

(** ** RocksDB *)

Module RocksFacts.
Import RocksIter RocksDatabase.
Section facts.
Context `{SerializerLaws} `{RocksEngineLaws}.

Definition rocks_view (d : Rocks) : Store := decoded (rocks_tables d).
Definition rocks_wf (d : Rocks) : Prop := wf_store (rocks_tables d).

(** One step of an iterator at an entry, and of one that is not valid. *)
Lemma next_entry i r kv row : raw_entry i = Some kv -> decode_row kv = Some row ->
  RocksIter.next (mk i r true) = Ok (mk (if r then raw_prev i else raw_next i) r true, Some row).
Proof.
  destruct kv as [kb vb], row as [k v]. intros Hi [Hk Hv]%decode_row_Some. simpl in *. subst.
  unfold RocksIter.next. simpl. rewrite raw_valid_at, raw_key_at, raw_value_at, Hi. simpl.
  unfold decode_value, try_decode_key, encode_key. by rewrite Hv, bincode_roundtrip.
Qed.

Lemma next_invalid i r : raw_entry i = None -> RocksIter.next (mk i r true) = Ok (mk i r true, None).
Proof. intros Hi. unfold RocksIter.next. simpl. by rewrite raw_valid_at, Hi. Qed.

Lemma forward_yields i p : Forall (fun kv => is_Some (decode_row kv)) (raw_entries i) -> raw_pos i = Some p ->
  yields RocksIter.next (mk i false true) (omap decode_row (drop p (raw_entries i))).
Proof.
  intros Hwf Hp. remember (length (raw_entries i) - p)%nat as left eqn:Hleft. revert i p Hwf Hp Hleft.
  induction left as [|left IH]; intros i p Hwf Hp Hleft; destruct (raw_entries i !! p) as [kv|] eqn:Hkv;
    assert (raw_entry i = raw_entries i !! p) as He by (unfold raw_entry; by rewrite Hp); rewrite Hkv in He.
  - apply lookup_lt_Some in Hkv. lia.
  - rewrite drop_ge by by apply lookup_ge_None. eapply yields_nil. by apply next_invalid.
  - destruct (proj1 (Forall_lookup _ _) Hwf _ _ Hkv) as [row Hrow]. rewrite (drop_S _ _ _ Hkv). simpl. rewrite Hrow.
    eapply yields_cons; [by eapply next_entry|]. destruct (raw_keeps i []) as (_ & _ & _ & _ & Hk & _).
    specialize (IH (raw_next i) (S p)). rewrite Hk in IH. apply IH; [done|by apply raw_next_pos; [|rewrite He]|].
    apply lookup_lt_Some in Hkv. lia.
  - apply lookup_ge_None in Hkv. lia.
Qed.

Lemma backward_yields i p : Forall (fun kv => is_Some (decode_row kv)) (raw_entries i) -> raw_pos i = before p ->
  (p <= length (raw_entries i))%nat -> yields RocksIter.next (mk i true true) (omap decode_row (rev (take p (raw_entries i)))).
Proof.
  revert i. induction p as [|p IH]; intros i Hwf Hp Hle; simpl in Hp.
  { eapply yields_nil. apply next_invalid. unfold raw_entry. by rewrite Hp. }
  destruct (lookup_lt_is_Some_2 (raw_entries i) p) as [kv Hkv]; [lia|]. rewrite (take_S_r _ _ _ Hkv), rev_app_distr. simpl.
  destruct (proj1 (Forall_lookup _ _) Hwf _ _ Hkv) as [row Hrow]. rewrite Hrow.
  assert (raw_entry i = Some kv) as He by (unfold raw_entry; by rewrite Hp). eapply yields_cons; [by eapply next_entry|].
  destruct (raw_keeps i []) as (_ & _ & _ & _ & _ & Hk). specialize (IH (raw_prev i)). rewrite Hk in IH.
  apply IH; [done|by apply raw_prev_pos; [|rewrite He]|lia].
Qed.

(** A fresh iterator starts at the first entry. *)
Lemma fresh_yields i : Forall (fun kv => is_Some (decode_row kv)) (raw_entries i) ->
  yields RocksIter.next (new i) (omap decode_row (raw_entries i)).
Proof.
  intros Hwf. pose proof (forward_yields (seek_to_first i) 0) as Hy. destruct (raw_keeps i []) as (Hk & _). rewrite Hk, drop_0 in Hy.
  specialize (Hy Hwf (seek_to_first_pos i)).
  assert (RocksIter.next (new i) = RocksIter.next (mk (seek_to_first i) false true)) as Heq by done.
  inversion Hy; subst; [eapply yields_nil|eapply yields_cons]; by rewrite ?Heq.
Qed.

(** The step of an iterator set to an entry, or before the first one. *)
Lemma next_before i p : Forall (fun kv => is_Some (decode_row kv)) (raw_entries i) -> raw_pos i = before p ->
  (p <= length (raw_entries i))%nat -> exists it, RocksIter.next (mk i false true) = Ok (it, last (omap decode_row (take p (raw_entries i)))).
Proof.
  intros Hwf Hp Hle. destruct p as [|p]; simpl in Hp.
  { eexists. apply next_invalid. unfold raw_entry. by rewrite Hp. }
  destruct (lookup_lt_is_Some_2 (raw_entries i) p) as [kv Hkv]; [lia|].
  destruct (proj1 (Forall_lookup _ _) Hwf _ _ Hkv) as [row Hrow]. rewrite (take_S_r _ _ _ Hkv), omap_app. simpl. rewrite Hrow, last_snoc.
  eexists. eapply next_entry; [|done]. unfold raw_entry. by rewrite Hp.
Qed.

Lemma rocks_open d n : is_Some (rocks_view d !! n) -> exists m, rocks_tables d !! n = Some m.
Proof. apply decoded_open. Qed.

Lemma unbounded_Ok d n m : rocks_tables d !! n = Some m ->
  unbounded_iter_inner d n = Ok (new (raw_iterator_cf d n)) /\ raw_entries (raw_iterator_cf d n) = btree_iter m.
Proof. intros Hm. unfold unbounded_iter_inner, cf_handle. rewrite decide_True by by eexists. split; [done|by apply raw_iterator_entries]. Qed.

(** A sorted list splits at a key. *)
Lemma sorted_split {V} (l : list (list N * V)) (p : list N -> bool) :
  StronglySorted (fun a b => key_leb a.1 b.1 = true) l ->
  (forall a b, key_leb a b = true -> p b = true -> p a = true) ->
  l = filter (fun kv => p kv.1 = true) l ++ filter (fun kv => p kv.1 = false) l.
Proof.
  intros Hs Hp. induction Hs as [|x l Hs IH Hx]; [done|]. rewrite Forall_forall in Hx. destruct (p x.1) eqn:Hpx.
  - rewrite filter_cons_True, filter_cons_False by congruence. simpl. by rewrite <-IH.
  - assert (forall y, y ∈ l -> p y.1 = false) as Hl.
    { intros y Hy. apply not_true_iff_false. intros Hpy. rewrite (Hp x.1 y.1) in Hpx; [done|by apply Hx|done]. }
    rewrite filter_cons_False, filter_cons_True by congruence. rewrite (filter_all _ l Hl).
    assert (filter (fun kv => p kv.1 = true) l = []) as ->; [|done].
    apply elem_of_nil_inv. intros y [Hpy Hy]%list_elem_of_filter. specialize (Hl y Hy). congruence.
Qed.

Lemma drop_smaller {V} (l : list (list N * V)) k : StronglySorted (fun a b => key_leb a.1 b.1 = true) l ->
  drop (length (filter (fun kv => key_leb k kv.1 = false) l)) l = filter (fun kv => key_leb k kv.1 = true) l.
Proof.
  intros Hs. pose proof (sorted_split l (fun x => negb (key_leb k x)) Hs) as Hl.
  rewrite (list_filter_iff _ (fun kv => key_leb k kv.1 = false)) in Hl by (intros []; simpl; by rewrite negb_true_iff).
  rewrite (list_filter_iff (fun kv => negb (key_leb k kv.1) = false) (fun kv => key_leb k kv.1 = true)) in Hl
    by (intros []; simpl; by rewrite negb_false_iff).
  rewrite Hl at 2; [by rewrite drop_app_length|]. intros a b Hab. rewrite !negb_true_iff. intros Hb.
  apply not_true_iff_false. intros Ha. rewrite (key_leb_trans k a b Ha Hab) in Hb. done.
Qed.

Lemma take_not_greater {V} (l : list (list N * V)) k : StronglySorted (fun a b => key_leb a.1 b.1 = true) l ->
  take (length (filter (fun kv => key_leb kv.1 k = true) l)) l = filter (fun kv => key_leb kv.1 k = true) l.
Proof.
  intros Hs. rewrite (sorted_split l (fun x => key_leb x k) Hs) at 2; [by rewrite take_app_length|].
  intros a b Hab Hb. by apply (key_leb_trans a b k).
Qed.

Lemma decoded_filter (p : list N -> bool) (q : N -> bool) (l : list (list N * list N)) : (forall k, p (encode_key k) = q k) ->
  omap decode_row (filter (fun kv => p kv.1 = true) l) = filter (fun kv => q kv.1 = true) (omap decode_row l).
Proof.
  intros Hpq. induction l as [|x l IH]; [done|].
  change (omap decode_row (x :: l)) with (match decode_row x with Some y => y :: omap decode_row l | None => omap decode_row l end).
  destruct (p x.1) eqn:Hp; [rewrite filter_cons_True by done|rewrite filter_cons_False by congruence; rewrite IH].
  - change (omap decode_row (x :: ?l')) with (match decode_row x with Some y => y :: omap decode_row l' | None => omap decode_row l' end).
    rewrite IH. destruct (decode_row x) as [[k v]|] eqn:Hr; [|done]. apply decode_row_Some in Hr as [Hk _].
    rewrite filter_cons_True; [done|]. simpl. by rewrite <-Hpq, <-Hk.
  - destruct (decode_row x) as [[k v]|] eqn:Hr; [|done]. apply decode_row_Some in Hr as [Hk _].
    rewrite filter_cons_False; [done|]. simpl. rewrite <-Hpq, <-Hk. congruence.
Qed.

Lemma encode_leb a b : key_leb (encode_key a) (encode_key b) = (a <=? b).
Proof. apply bincode_order. Qed.

Lemma rocks_skip_to d n m k : rocks_wf d -> rocks_tables d !! n = Some m ->
  RocksDatabase.skip_to d n k = Ok (MemTable.skip_to (decode_table m) k).
Proof.
  intros Hwf Hm. assert (wf_table m) as Ht by by apply (Hwf n). destruct (unbounded_Ok d n m Hm) as [Hu Hes].
  unfold RocksDatabase.skip_to. rewrite Hu. simpl. rewrite TableFacts.skip_to_spec, <-decoded_iter.
  destruct (raw_keeps (raw_iterator_cf d n) (encode_key k)) as (_ & _ & Hk & _). rewrite Hes in Hk.
  rewrite <-(decoded_filter (fun b => key_leb (encode_key k) b)) by (intros k'; apply encode_leb).
  apply collect_yields.
  - unfold RocksIter.skip_to. simpl. pose proof (forward_yields _ _ ltac:(rewrite Hk; exact Ht) (seek_pos (raw_iterator_cf d n) (encode_key k))) as Hy.
    rewrite Hk, Hes, drop_smaller in Hy by apply btree_iter_sorted. exact Hy.
  - unfold rows. simpl. rewrite Hes, decoded_length
      by (apply Forall_forall; intros x [_ Hx]%list_elem_of_filter; by apply (proj1 (Forall_forall _ _) Ht)). 
    apply Nat.lt_succ_r, length_filter.
Qed.

(** The record at the key or the last one before it. *)
Lemma rocks_prior d n m k : rocks_wf d -> rocks_tables d !! n = Some m ->
  RocksDatabase.record_prior_to d n k = Ok (last (filter (fun kv => (kv.1 <=? k) = true) (btree_iter (decode_table m)))).
Proof.
  intros Hwf Hm. assert (wf_table m) as Ht by by apply (Hwf n). destruct (unbounded_Ok d n m Hm) as [Hu Hes].
  unfold RocksDatabase.record_prior_to. rewrite Hu. simpl.
  destruct (raw_keeps (raw_iterator_cf d n) (encode_key k)) as (_ & _ & _ & Hk & _). rewrite Hes in Hk.
  pose proof (seek_for_prev_pos (raw_iterator_cf d n) (encode_key k)) as Hp. rewrite Hes in Hp.
  unfold skip_prior_to. simpl. edestruct (next_before _ _ ltac:(rewrite Hk; exact Ht) Hp) as [it Hit].
  { rewrite Hk. apply length_filter. }
  rewrite Hit. simpl. rewrite Hk, take_not_greater by apply btree_iter_sorted. rewrite <-decoded_iter.
  by rewrite (decoded_filter (fun b => key_leb b (encode_key k)) (fun k' => k' <=? k)) by (intros k'; apply encode_leb).
Qed.

Lemma rocks_last d n m : rocks_wf d -> rocks_tables d !! n = Some m ->
  RocksDatabase.last_record d n = Ok (MemTable.last_record (decode_table m)).
Proof.
  intros Hwf Hm. assert (wf_table m) as Ht by by apply (Hwf n). destruct (unbounded_Ok d n m Hm) as [Hu Hes].
  unfold RocksDatabase.last_record. rewrite Hu. simpl.
  destruct (raw_keeps (raw_iterator_cf d n) []) as (_ & Hk & _). rewrite Hes in Hk.
  pose proof (seek_to_last_pos (raw_iterator_cf d n)) as Hp. rewrite Hes in Hp.
  unfold skip_to_last. simpl. edestruct (next_before _ _ ltac:(rewrite Hk; exact Ht) Hp) as [it Hit]; [by rewrite Hk|].
  rewrite Hit. simpl. rewrite Hk, take_ge, decoded_iter by lia. done.
Qed.

Lemma rocks_reverse d n m : rocks_wf d -> rocks_tables d !! n = Some m ->
  RocksDatabase.reverse_iter d n = Ok (rev (btree_iter (decode_table m))).
Proof.
  intros Hwf Hm. assert (wf_table m) as Ht by by apply (Hwf n). destruct (unbounded_Ok d n m Hm) as [Hu Hes].
  unfold RocksDatabase.reverse_iter. rewrite Hu. simpl. rewrite <-decoded_iter, <-decoded_rev.
  destruct (raw_keeps (raw_iterator_cf d n) []) as (_ & Hk & _). rewrite Hes in Hk. apply collect_yields.
  - pose proof (backward_yields _ _ ltac:(rewrite Hk; exact Ht) (seek_to_last_pos (raw_iterator_cf d n))) as Hy.
    rewrite Hk, Hes, take_ge in Hy by lia. by apply Hy.
  - unfold rows. simpl. rewrite decoded_length by by apply Forall_rev. rewrite length_rev, Hes. lia.
Qed.

Lemma cf_handle_Ok d n m : rocks_tables d !! n = Some m -> cf_handle d n = Ok ().
Proof. intros Hm. unfold cf_handle. by rewrite decide_True by by eexists. Qed.

(** A write that succeeds is the one of the tables. *)
Lemma rocks_insert d n m k v d' : rocks_wf d -> rocks_tables d !! n = Some m -> RocksDatabase.insert d n k v = (d', Ok ()) ->
  rocks_wf d' /\ rocks_view d' = MemDatabase.insert (rocks_view d) n k v.
Proof.
  intros Hwf Hm. destruct (encode_value_Ok v) as (b & Hv & Hb). unfold insert, with_state, lift, mbind, action_bind. rewrite (cf_handle_Ok d n m Hm), Hv.
  unfold rocks_call. destruct (put_cf d n (encode_key k) b) as [d1 []] eqn:Hp; [|done]. intros [= <-].
  unfold rocks_wf, rocks_view. rewrite (put_cf_tables d n _ b m d1 Hm Hp). by apply put_decoded.
Qed.

Lemma rocks_remove d n m k d' : rocks_wf d -> rocks_tables d !! n = Some m -> RocksDatabase.remove d n k = (d', Ok ()) ->
  rocks_wf d' /\ rocks_view d' = MemDatabase.remove (rocks_view d) n k.
Proof.
  intros Hwf Hm. unfold remove, with_state, lift, mbind, action_bind. rewrite (cf_handle_Ok d n m Hm).
  unfold rocks_call. destruct (delete_cf d n (encode_key k)) as [d1 []] eqn:Hp; [|done]. intros [= <-].
  unfold rocks_wf, rocks_view. rewrite (delete_cf_tables d n _ m d1 Hm Hp). by apply del_decoded.
Qed.

Lemma rocks_clear d n m d' : RocksAnswers -> rocks_wf d -> rocks_tables d !! n = Some m -> RocksDatabase.clear_table d n = (d', Ok ()) ->
  rocks_wf d' /\ rocks_view d' = MemDatabase.clear_table (rocks_view d) n.
Proof.
  intros Ha Hwf Hm. unfold clear_table, rocks_call. pose proof (drop_cf_answers d n ltac:(by eexists)) as Hd.
  destruct (drop_cf d n) as [d1 ok] eqn:Hdrop. simpl in Hd. subst ok. destruct (create_cf d1 n) as [d2 []] eqn:Hc; [|done]. intros [= <-].
  apply create_cf_tables in Hc as [_ Hc]. unfold rocks_wf, rocks_view. rewrite Hc, (drop_cf_tables d n d1 Hdrop), insert_delete_eq.
  by apply (clear_decoded _ n m).
Qed.

Lemma rocks_writes_succeed d n m k v : RocksAnswers -> rocks_tables d !! n = Some m ->
  (RocksDatabase.insert d n k v).2 = Ok () /\ (RocksDatabase.remove d n k).2 = Ok () /\ (RocksDatabase.clear_table d n).2 = Ok ().
Proof.
  intros Ha Hm. destruct (encode_value_Ok v) as (b & Hv & _). split_and!.
  - unfold insert, with_state, lift, mbind, action_bind. rewrite (cf_handle_Ok d n m Hm), Hv. unfold rocks_call.
    pose proof (put_cf_answers d n (encode_key k) b ltac:(by eexists)) as Hp. by destruct (put_cf _ _ _ _) as [? []].
  - unfold remove, with_state, lift, mbind, action_bind. rewrite (cf_handle_Ok d n m Hm). unfold rocks_call.
    pose proof (delete_cf_answers d n (encode_key k) ltac:(by eexists)) as Hp. by destruct (delete_cf _ _ _) as [? []].
  - unfold clear_table, rocks_call. pose proof (drop_cf_answers d n ltac:(by eexists)) as Hd. destruct (drop_cf d n) as [d1 ok] eqn:Hdrop.
    simpl in Hd. subst ok. pose proof (create_cf_answers d1 n) as Hc. rewrite (drop_cf_tables d n d1 Hdrop) in Hc. specialize (Hc (lookup_delete_eq _ _)).
    by destruct (create_cf d1 n) as [? []].
Qed.

Lemma rocks_get_cf d n m k : RocksAnswers -> rocks_tables d !! n = Some m -> get_cf d n k = Some (m !! k).
Proof. intros Ha Hm. destruct (get_cf_answers d n k ltac:(by eexists)) as [r Hr]. by rewrite Hr, (get_cf_tables d n k m r Hm Hr). Qed.

Lemma rocks_contains d n m k : RocksAnswers -> rocks_wf d -> rocks_tables d !! n = Some m ->
  contains_key d n k = Ok (MemTable.contains_key (decode_table m) k).
Proof.
  intros Ha Hwf Hm. unfold contains_key. rewrite (cf_handle_Ok d n m Hm), (rocks_get_cf d n m) by done. cbn [mbind outcome_bind ok_or].
  unfold MemTable.contains_key. pose proof (contains_decoded m k (Hwf n m Hm)) as Hc.
  destruct (key_may_exist_cf d n (encode_key k)) eqn:Hk; [f_equal; by apply bool_decide_ext|].
  f_equal. symmetry. apply bool_decide_false. rewrite <-Hc. intros Hs. by rewrite (key_may_exist d n (encode_key k) m Hm Hs) in Hk.
Qed.

Lemma rocks_table_ops : RocksAnswers -> implements db rocks_view rocks_wf.
Proof.
  intros Ha. constructor; intros d n *; simpl; intros Hwf Hop; pose proof (rocks_open _ _ Hop) as (m & Hm);
    pose proof (decoded_lookup _ _ _ Hm) as Hd; fold (rocks_view d) in Hd; assert (wf_table m) as Ht by (by apply (Hwf n));
    destruct (unbounded_Ok d n m Hm) as [Hu Hes].
  - unfold get. rewrite (cf_handle_Ok d n m Hm), (rocks_get_cf d n m) by done. unfold MemDatabase.get. rewrite Hd. by apply get_decoded.
  - rewrite (rocks_contains d n m) by done. unfold MemDatabase.contains_key. by rewrite Hd.
  - destruct (rocks_writes_succeed d n m k v Ha Hm) as (Hr & _). destruct (RocksDatabase.insert d n k v) as [d' r] eqn:Hi. simpl in Hr. subst r.
    exists d'. split; [done|]. by apply (rocks_insert d n m).
  - destruct (rocks_writes_succeed d n m k 0 Ha Hm) as (_ & Hr & _). destruct (RocksDatabase.remove d n k) as [d' r] eqn:Hi. simpl in Hr. subst r.
    exists d'. split; [done|]. by apply (rocks_remove d n m).
  - destruct (rocks_writes_succeed d n m 0 0 Ha Hm) as (_ & _ & Hr). destruct (RocksDatabase.clear_table d n) as [d' r] eqn:Hi. simpl in Hr. subst r.
    exists d'. split; [done|]. by apply (rocks_clear d n m).
  - unfold is_empty, MemDatabase.is_empty. rewrite Hu, Hd. simpl. pose proof (fresh_yields (raw_iterator_cf d n)) as Hy. rewrite Hes in Hy.
    apply yields_head in Hy as [it Hy]; [|done]. rewrite Hy. simpl. by rewrite decoded_iter, head_is_empty.
  - unfold iter, MemDatabase.iter. rewrite Hu, Hd. simpl. apply collect_yields.
    + unfold MemTable.iter. rewrite <-decoded_iter, <-Hes. apply fresh_yields. by rewrite Hes.
    + unfold rows, MemTable.iter. simpl. rewrite <-decoded_iter, decoded_length, Hes by done. lia.
  - rewrite (rocks_skip_to d n m) by done. unfold MemDatabase.skip_to. by rewrite Hd.
  - rewrite (rocks_reverse d n m) by done. unfold MemDatabase.reverse_iter. by rewrite Hd.
  - rewrite (rocks_last d n m) by done. unfold MemDatabase.last_record. by rewrite Hd.
Qed.

End facts.
End RocksFacts.

(** * Backends of the layered database *)

Inductive write :=
  | WInsert (name key value : N)
  | WRemove (name key : N)
  | WClear (name : N).

Definition write_name (w : write) : N := match w with WInsert n _ _ | WRemove n _ | WClear n => n end.

(** A write on the in-memory database. *)
Definition mem_write (s : Store) (w : write) : Store :=
  match w with
  | WInsert n k v => MemDatabase.insert s n k v
  | WRemove n k => MemDatabase.remove s n k
  | WClear n => MemDatabase.clear_table s n
  end.

(** The databases that a node can be built with, as backends of the layered database. *)
Inductive backend := Mdbx | Redb.

Section layered.
Context `{Serializer} `{StorageEngine} `{!MdbxCursors} `{!RedbTables}.

Definition backend_ops (b : backend) : TransactionalDb Env Txn :=
  match b with
  | Mdbx => {|
      db_iter := MdbxDatabase.iter;
      db_write_txn := MdbxDatabase.write_txn;
      db_insert := MdbxDatabase.insert;
      db_remove := MdbxDatabase.remove;
      db_clear := MdbxDatabase.clear_table;
      txn_insert t n k v := MdbxDatabase.tx_insert n k v t;
      txn_remove t n k := MdbxDatabase.tx_remove n k t;
      txn_clear t n := MdbxDatabase.tx_clear_table n t;
      txn_commit := MdbxDatabase.tx_commit;
    |}
  | Redb => {|
      db_iter := ReDB.iter;
      db_write_txn := ReDB.write_txn;
      db_insert := ReDB.insert;
      db_remove := ReDB.remove;
      db_clear := ReDB.clear_table;
      txn_insert t n k v := ReDB.tx_insert n k v t;
      txn_remove t n k := ReDB.tx_remove n k t;
      txn_clear t n := ReDB.tx_clear_table n t;
      txn_commit := ReDB.tx_commit;
    |}
  end.

(** Reading a record of the backend. *)
Definition backend_get (b : backend) : Env -> N -> N -> outcome unit (option N) :=
  match b with Mdbx => MdbxDatabase.get | Redb => ReDB.get end.

End layered.

Section laws.
Context `{SerializerLaws} `{StorageEngineLaws} `{!MdbxCursors} `{!MdbxCursorLaws} `{!RedbTables} `{!RedbTableLaws}.

Lemma begin_writes e : match ok_or (begin_txn e) () : outcome unit Txn with
  | Ok t => wf e -> wf_store (txn_tables t) /\ decoded (txn_tables t) = view e
  | Err _ => True
  | Panic | OutOfFuel => False
  end.
Proof.
  destruct (begin_txn e) as [t|] eqn:Hb; [|done]. cbn [ok_or]. unfold wf, view. by rewrite (begin_tables e t Hb).
Qed.

Lemma commit_writes e t : writes (commit_txn e t) (wf_store (txn_tables t)) (fun e' => wf e' /\ view e' = decoded (txn_tables t)).
Proof.
  unfold writes, commit_txn, wf, view. pose proof (commit_tables e t) as Hc. destruct (engine_commit e t) as [e' []]; cbn [fst snd ensure] in *; [|done].
  by rewrite Hc.
Qed.

Definition backend_laws (b : backend) : @TransactionalLaws Env Txn (backend_ops b).
Proof.
  refine (Build_TransactionalLaws Env Txn (backend_ops b) view (fun t => decoded (txn_tables t)) wf (fun t => wf_store (txn_tables t)) _ _ _ _ _ _ _ _);
    destruct b; cbn [backend_ops db_write_txn db_insert db_remove db_clear txn_insert txn_remove txn_clear txn_commit].
  1-2: apply begin_writes.
  all: intros.
  - apply (in_txn_writes _ _ _ _ (MdbxFacts.insert_acts n k v)).
  - apply (in_txn_writes _ _ _ _ (ReDBFacts.re_insert_acts n k v)).
  - apply (in_txn_writes _ _ _ _ (MdbxFacts.remove_acts n k)).
  - apply (in_txn_writes _ _ _ _ (ReDBFacts.re_remove_acts n k)).
  - apply (in_txn_writes _ _ _ _ (MdbxFacts.clear_acts n)).
  - apply (in_txn_writes _ _ _ _ (ReDBFacts.re_clear_acts n)).
  - apply (MdbxFacts.insert_acts n k v).
  - apply (ReDBFacts.re_insert_acts n k v).
  - apply (MdbxFacts.remove_acts n k).
  - apply (ReDBFacts.re_remove_acts n k).
  - apply (MdbxFacts.clear_acts n).
  - apply (ReDBFacts.re_clear_acts n).
  - apply commit_writes.
  - apply commit_writes.
Defined.

Lemma backend_get_spec b e n k : wf e -> is_Some (view e !! n) ->
  match backend_get b e n k with Ok r => r = MemDatabase.get (view e) n k | Err _ => True | _ => False end.
Proof. destruct b; [apply MdbxFacts.get_spec|apply ReDBFacts.re_get_spec]. Qed.

End laws.

(** * Properties *)

Section properties.
Context `{SerializerLaws}.

(** C34: The MDBX and the redb backends implement the tables.  On contents whose rows decode
    and on tables that were opened: a read of a key that succeeds gives what the in-memory
    database gives on the decoded contents; a write that succeeds acts like its write, and one
    that fails, at any call of the engine, leaves the contents; neither panics.  The iterators and
    seeks give records of the table in its order, of which an engine that fails on the way
    can leave out some.  With an engine that answers every call, every operation succeeds
    and gives exactly what the in-memory database gives. *)
Theorem mdbx_redb_implement `{StorageEngineLaws} `{!MdbxCursors} `{!MdbxCursorLaws} `{!RedbTables} `{!RedbTableLaws} :
  (reports_errors MdbxDatabase.db view wf /\ reports_errors ReDB.db view wf) /\
  (EngineAnswers -> CursorsAnswer -> implements MdbxDatabase.db view wf /\ prior_is_smaller MdbxDatabase.db view wf) /\
  (EngineAnswers -> TablesAnswer -> implements ReDB.db view wf /\ prior_is_smaller ReDB.db view wf).
Proof.
  split; [split; [apply MdbxFacts.mdbx_reports|apply ReDBFacts.redb_reports]|].
  split; intros Ha Hta; (split; [by apply MdbxFacts.mdbx_tables || by apply ReDBFacts.redb_tables|]); intros d n k Hwf [m Hm]%decoded_open; simpl;
    unfold MemDatabase.record_prior_to; unfold view; rewrite (decoded_lookup _ _ _ Hm).
  - by apply MdbxFacts.prior_decoded.
  - by apply ReDBFacts.re_prior_decoded.
Qed.

(** The RocksDB backend implements the tables too when the engine answers, but for the record before a key:
    it gives the record at the key when there is one, where the other backends give the
    last record with a smaller key. *)
Theorem rocks_implements `{RocksEngineLaws} `{!RocksAnswers} :
  implements RocksDatabase.db RocksFacts.rocks_view RocksFacts.rocks_wf /\
  forall d n k t, RocksFacts.rocks_wf d -> RocksFacts.rocks_view d !! n = Some t ->
    RocksDatabase.record_prior_to d n k = Ok (last (filter (fun kv => (kv.1 <=? k) = true) (btree_iter t))) /\
    forall v, t !! k = Some v -> RocksDatabase.record_prior_to d n k = Ok (Some (k, v)).
Proof.
  split; [by apply RocksFacts.rocks_table_ops|]. intros d n k t Hwf Ht.
  destruct (decoded_open (rocks_tables d) n) as [m Hm]; [by eexists|]. unfold RocksFacts.rocks_view in Ht.
  rewrite (decoded_lookup _ _ _ Hm) in Ht. simplify_eq. rewrite (RocksFacts.rocks_prior d n m k Hwf Hm). split; [done|].
  intros v Hv. f_equal. apply elem_of_btree_iter in Hv.
  set (l := filter (fun kv : N * N => (kv.1 <=? k) = true) (btree_iter (decode_table m))).
  assert ((k, v) ∈ l) as Hin by (apply list_elem_of_filter; split; [simpl; lia|done]).
  destruct (last l) as [[k' v']|] eqn:Hl; [|apply last_None in Hl; rewrite Hl in Hin; by apply not_elem_of_nil in Hin].
  apply last_Some in Hl as [l' Hl]. assert ((k', v') ∈ l) as [Hk' Hin']%list_elem_of_filter by (rewrite Hl; set_solver).
  assert (k' = k) as ->.
  { assert (StronglySorted (fun p q : N * N => key_leb p.1 q.1 = true) l) as Hs by apply StronglySorted_filter, btree_iter_sorted.
    rewrite Hl in Hs, Hin. apply elem_of_app in Hin as [Hin|Hin]; [|set_solver].
    pose proof (StronglySorted_app_elem _ _ _ (k, v) (k', v') Hs Hin ltac:(set_solver)) as Hle. simpl in *. lia. }
  f_equal. f_equal. exact (TableFacts.iter_key_unique _ _ _ _ Hin' Hv).
Qed.

End properties.

Section layered_property.
Context `{SerializerLaws} `{StorageEngineLaws} `{!MdbxCursors} `{!MdbxCursorLaws} `{!RedbTables} `{!RedbTableLaws} (b : backend).
#[local] Instance layer_ops : TransactionalDb Env Txn := backend_ops b.
#[local] Instance layer_laws : TransactionalLaws Env Txn := backend_laws b.


End layered_property.

(** * Instances *)

(** A key is its number, a value too; transactions are copies of the tables. *)
#[local] Instance demo_serializer : Serializer := {|
  bincode_serialize k := [k];
  bincode_deserialize b := match b with [k] => Some k | _ => None end;
  bcs_to_bytes v := Some [v];
  bcs_from_bytes b := match b with [v] => Some v | _ => None end;
|}.

#[local] Program Instance demo_serializer_laws : SerializerLaws.
Next Obligation. done. Qed.
Next Obligation. intros [|x [|]]; simpl; congruence. Qed.
Next Obligation. intros a b. simpl. lia. Qed.
Next Obligation. by eexists. Qed.
Next Obligation. by intros v b [= <-]. Qed.

Definition demo_on (s : RawStore) (n : N) (f : gmap (list N) (list N) -> gmap (list N) (list N)) : RawStore :=
  match s !! n with Some m => <[n := f m]> s | None => s end.

(** The engine of the instances refuses empty values, and otherwise answers. *)
#[local] Instance demo_engine : StorageEngine := {|
  Env := RawStore;
  Txn := RawStore;
  env_tables s := s;
  txn_tables s := s;
  begin_txn s := Some s;
  engine_open s n := bool_decide (is_Some (s !! n));
  engine_get s n k := Some (s !! n ≫= fun m => m !! k);
  engine_put s n k v := if bool_decide (v = []) then (s, false) else (demo_on s n (fun m => <[k := v]> m), true);
  engine_del s n k := (demo_on s n (fun m => delete k m), true);
  engine_create s n := (match s !! n with Some _ => s | None => <[n := ∅]> s end, true);
  engine_delete s n := (delete n s, true);
  engine_clear s n := (demo_on s n (fun _ => ∅), true);
  engine_commit _ s := (s, true);
|}.

#[local] Program Instance demo_engine_laws : StorageEngineLaws.
Next Obligation. by intros e t [= <-]. Qed.
Next Obligation. intros t n Hn. by apply bool_decide_eq_true in Hn. Qed.
Next Obligation. intros t n k m r Hm. simpl in *. rewrite Hm. by intros [= <-]. Qed.
Next Obligation.
  intros t n k v m t' Hm. cbn [engine_put demo_engine txn_tables] in *. case_bool_decide; [done|]. intros [= <-]. unfold demo_on. by rewrite Hm.
Qed.
Next Obligation. intros t n k m t' Hm. simpl in *. intros [= <-]. unfold demo_on. by rewrite Hm. Qed.
Next Obligation. by intros t n t' [= <-]. Qed.
Next Obligation. by intros t n t' [= <-]. Qed.
Next Obligation. intros t n m t' Hm. simpl in *. intros [= <-]. unfold demo_on. by rewrite Hm. Qed.
Next Obligation. done. Qed.

#[local] Instance demo_cursors : MdbxCursors := {|
  Cursor := list (list N * list N) * option nat;
  cursor_with_dbi s n := Some (btree_iter (default ∅ (s !! n)), None);
  cursor_next c := let i := from_option S O c.2 in ((c.1, if decide (is_Some (c.1 !! i)) then Some i else c.2), Some (c.1 !! i));
  cursor_prev c := match c.2 with
    | Some (S j) => ((c.1, Some j), Some (c.1 !! j))
    | Some O | None => (c, Some None)
    end;
  cursor_last c := ((c.1, Some (pred (length c.1))), Some (last c.1));
  cursor_entries c := c.1;
  cursor_index c := c.2;
|}.

#[local] Program Instance demo_cursor_laws : MdbxCursorLaws.
Next Obligation. intros t n m c Hm. simpl in *. rewrite Hm. by intros [= <-]. Qed.
Next Obligation. intros [l [[|i]|]]; done. Qed.
Next Obligation. intros [l i] r [= <-]. simpl. split; [done|]. intros. by rewrite decide_True. Qed.
Next Obligation. by intros [l i] r [= <-]. Qed.
Next Obligation. by intros [l [[|j]|]] i r [= <-] [= <-]. Qed.

#[local] Instance demo_tables_redb : RedbTables := {|
  table_rows s n := Some (Some <$> btree_iter (default ∅ (s !! n)));
  table_is_empty s n := Some (bool_decide (default ∅ (s !! n) = ∅));
  table_last s n := Some (last (btree_iter (default ∅ (s !! n))));
|}.

#[local] Program Instance demo_table_laws : RedbTableLaws.
Next Obligation. intros t n m l Hm. simpl in *. rewrite Hm. intros [= <-]. by rewrite ReDBFacts.readable_Some. Qed.
Next Obligation. intros t n m b Hm. simpl in *. rewrite Hm. by intros [= <-]. Qed.
Next Obligation. intros t n m r Hm. simpl in *. rewrite Hm. by intros [= <-]. Qed.

#[local] Instance demo_rocks : RocksEngine := {|
  Rocks := RawStore;
  RawIter := list (list N * list N) * option nat;
  rocks_tables s := s;
  get_cf s n k := Some (s !! n ≫= fun m => m !! k);
  put_cf s n k v := (demo_on s n (fun m => <[k := v]> m), true);
  delete_cf s n k := (demo_on s n (fun m => delete k m), true);
  drop_cf s n := (delete n s, true);
  create_cf s n := match s !! n with Some _ => (s, false) | None => (<[n := ∅]> s, true) end;
  key_may_exist_cf _ _ _ := true;
  raw_iterator_cf s n := (btree_iter (default ∅ (s !! n)), None);
  raw_entries i := i.1;
  raw_pos i := i.2;
  raw_key i := fst <$> (i.2 ≫= fun p => i.1 !! p);
  raw_value i := snd <$> (i.2 ≫= fun p => i.1 !! p);
  raw_valid i := bool_decide (is_Some (i.2 ≫= fun p => i.1 !! p));
  seek_to_first i := (i.1, Some O);
  seek_to_last i := (i.1, before (length i.1));
  seek i k := (i.1, Some (length (filter (fun kv => key_leb k kv.1 = false) i.1)));
  seek_for_prev i k := (i.1, before (length (filter (fun kv => key_leb kv.1 k = true) i.1)));
  raw_next i := (i.1, S <$> i.2);
  raw_prev i := (i.1, i.2 ≫= before);
|}.

#[local] Program Instance demo_rocks_laws : RocksEngineLaws.
Next Obligation. intros d n k m r Hm. simpl in *. rewrite Hm. by intros [= <-]. Qed.
Next Obligation. intros d n k v m d' Hm. simpl in *. intros [= <-]. unfold demo_on. by rewrite Hm. Qed.
Next Obligation. intros d n k m d' Hm. simpl in *. intros [= <-]. unfold demo_on. by rewrite Hm. Qed.
Next Obligation. by intros d n d' [= <-]. Qed.
Next Obligation. intros d n d'. simpl in *. destruct (@lookup N _ RawStore _ n d); [done|]. by intros [= <-]. Qed.
Next Obligation. done. Qed.
Next Obligation. intros d n m Hm. simpl in *. by rewrite Hm. Qed.
Next Obligation. done. Qed.
Next Obligation. done. Qed.
Next Obligation. done. Qed.
Next Obligation. done. Qed.
Next Obligation. done. Qed.
Next Obligation. done. Qed.
Next Obligation. done. Qed.
Next Obligation. done. Qed.
Next Obligation. intros i p Hp _. simpl in *. by rewrite Hp. Qed.
Next Obligation. intros i p Hp _. simpl in *. by rewrite Hp. Qed.

#[local] Program Instance demo_rocks_answers : RocksAnswers.
Next Obligation. intros. by eexists. Qed.
Next Obligation. done. Qed.
Next Obligation. done. Qed.
Next Obligation. done. Qed.
Next Obligation. intros d n Hn. simpl in *. by rewrite Hn. Qed.

(** A table with two records. *)
Definition demo_store : RawStore := {[ 1 := {[ [4] := [40]; [7] := [70] ]} ]}.

Lemma demo_raw_store_wf : wf_store demo_store.
Proof.
  unfold wf_store, demo_store. intros n m [<- <-]%lookup_singleton_Some. unfold wf_table.
  assert (btree_iter {[ [4] := [40]; [7] := [70] ]} = [([4], [40]); ([7], [70])]) as -> by reflexivity.
  repeat constructor; by eexists.
Qed.

Definition demo_env : Env := demo_store.

(** On the engine of the instances, which answers but for empty values. *)
Lemma mdbx_redb_implement_witness :
  view (MdbxDatabase.remove demo_env 1 4).1 = MemDatabase.remove (decoded demo_store) 1 4.
Proof.
  pose proof (rep_remove _ _ _ (proj1 (proj1 mdbx_redb_implement)) demo_env 1 4 demo_raw_store_wf (ex_intro _ _ eq_refl)) as Hr.
  cbn [Database.remove MdbxDatabase.db] in Hr.
  assert ((MdbxDatabase.remove demo_env 1 4).2 = Ok ()) as Hok by reflexivity.
  destruct (MdbxDatabase.remove demo_env 1 4) as [d' r]. simpl in Hok. subst r. exact (proj2 Hr).
Defined.

Lemma rocks_implements_witness :
  RocksDatabase.record_prior_to demo_store 1 7 = Ok (Some (7, 70)) /\ MemDatabase.record_prior_to (decoded demo_store) 1 7 = Some (4, 40).
Proof.
  split; [|reflexivity].
  refine (proj2 (proj2 rocks_implements demo_store 1 7 _ demo_raw_store_wf eq_refl) 70 _). reflexivity.
Defined.

(** The layered database over MDBX and over redb, with one insertion that is committed. *)
Section layered_demo.
Context (b : backend).
#[local] Instance demo_ops : TransactionalDb RawStore RawStore := backend_ops b.
#[local] Instance demo_laws : TransactionalLaws RawStore RawStore := backend_laws b.

Definition empty_store : RawStore := {[ 1 := ∅ ]}.

Lemma empty_store_wf : wf empty_store.
Proof. unfold wf, wf_store. simpl. unfold empty_store. intros n m [<- <-]%lookup_singleton_Some. apply wf_table_empty. Qed.

Definition layer0 : LayeredDatabase.t RawStore RawStore := LayeredDatabase.mk {[ 1 := ∅ ]} [] empty_store None true 0.
Definition layer1 : LayeredDatabase.t RawStore RawStore := (LayeredDatabase.write_txn layer0).1.
Definition layer2 : LayeredDatabase.t RawStore RawStore := (LayeredDatabase.insert layer1 1 5 50).1.
Definition layer3 : LayeredDatabase.t RawStore RawStore := (LayeredDatabase.commit layer2).1.

Lemma layer_loads : LayeredFacts.loads empty_store [1].
Proof.
  split.
  - intros n. change (db_view empty_store) with (view empty_store). unfold view, decoded. simpl.
    rewrite lookup_fmap, fmap_is_Some. unfold empty_store. rewrite lookup_singleton_is_Some. set_solver.
  - intros n ->%list_elem_of_singleton. unfold demo_laws, demo_ops. by destruct b; vm_compute.
Qed.

Lemma layer_reach : LayeredFacts.reach layer0
  [LayeredDatabase.mem_db layer3; LayeredDatabase.mem_db layer2; LayeredDatabase.mem_db layer1; LayeredDatabase.mem_db layer0] layer3.
Proof. repeat (eapply LayeredFacts.reach_step; [|constructor; by eexists]). apply LayeredFacts.reach_init. Qed.

Lemma layer_opens : LayeredDatabase.open empty_store [1] = Ok layer0.
Proof. rewrite (LayeredFacts.open_spec empty_store [1] layer_loads). by vm_compute. Qed.

End layered_demo.

