(* ===== verification/Committee.v ===== *)
(** The committee: authorities, their stake, and the quorum and validity thresholds.
    Models crates/types/src/committee.rs. *)

From S2P Require Import Prelude.

(** Keys, identifiers and digests are byte strings compared as big-endian numbers. *)
Notation BlsPublicKey := N (only parsing).
Notation AuthorityIdentifier := N (only parsing).
Notation VotingPower := N (only parsing).
Notation Round := N (only parsing).
Notation Epoch := N (only parsing).

(** libp2p derives the peer id, which is the authority's identifier, from its network key. *)
Class NetworkKeys := { to_peer_id : N -> N }.

Module Authority.

Record t := mk {
  protocol_key : BlsPublicKey;
  voting_power : VotingPower;
  primary_network_address : string;
  execution_address : N;
  network_key : N;
  hostname : string;
}.

#[global] Instance t_eq_dec : EqDecision t.
Proof. solve_decision. Defined.

Definition id `{NetworkKeys} (a : t) : AuthorityIdentifier := to_peer_id (network_key a).

End Authority.

(** The random choices of the [rand] crate the node uses, both a function of the
    seed and of the slice: [choose_weighted] fails on a slice without positive
    weight, [choose] on an empty one, and both return an element of the slice. *)
Class SeededChoice := {
  choose_weighted : N -> list (Authority.t * N) -> option Authority.t;
  choose_weighted_elem seed l a :
    choose_weighted seed l = Some a -> exists w, (a, w) ∈ l;
  choose_weighted_some seed l :
    (exists a w, (a, w) ∈ l /\ 0 < w) -> is_Some (choose_weighted seed l);
  choose : N -> list Authority.t -> option Authority.t;
  choose_elem seed l a : choose seed l = Some a -> a ∈ l;
  choose_some seed l : l <> [] -> is_Some (choose seed l);
}.

Module Committee.

Record t := mk {
  authorities : gmap BlsPublicKey Authority.t;
  authorities_by_id : gmap AuthorityIdentifier Authority.t;
  epoch : Epoch;
  quorum_threshold : VotingPower;
  validity_threshold : VotingPower;
}.

(** The stake of the committee before it is reduced to 64 bits. *)
Definition stake (auths : gmap BlsPublicKey Authority.t) : N :=
  sumN (Authority.voting_power <$> btree_values auths).

Definition total_voting_power (c : t) : VotingPower := wrap64 (stake (authorities c)).

Definition non_zero (n : N) : option N := if n =? 0 then None else Some n.

Definition calculate_quorum_threshold {E} (c : t) : outcome E N :=
  let total_votes := total_voting_power c in
  expect (non_zero (wrap64 (wrap64 (2 * total_votes) / 3 + 1))).

Definition div_ceil (a b : N) : N := if a mod b =? 0 then a / b else a / b + 1.

Definition calculate_validity_threshold {E} (c : t) : outcome E N :=
  let total_votes := total_voting_power c in
  match non_zero (div_ceil total_votes 3) with
  | Some v => Ok v
  | None => expect (non_zero 1)
  end.

Definition load `{NetworkKeys} {E} (c : t) : outcome E t :=
  let by_id := collect_map ((fun a => (Authority.id a, a)) <$> btree_values (authorities c)) in
  validity ← calculate_validity_threshold c;
  quorum ← calculate_quorum_threshold c;
  _ ← assert (1 <? N.of_nat (size by_id));
  Ok (mk (authorities c) by_id (epoch c) quorum validity).

Definition new `{NetworkKeys} {E} (auths : gmap BlsPublicKey Authority.t) (e : Epoch) : outcome E t :=
  committee ← load (mk auths ∅ e 0 0);
  _ ← assert (N.of_nat (size (authorities_by_id committee)) =?
              N.of_nat (size (authorities committee)));
  v ← calculate_validity_threshold committee;
  _ ← assert (validity_threshold committee =? v);
  q ← calculate_quorum_threshold committee;
  _ ← assert (quorum_threshold committee =? q);
  Ok committee.

Definition authority (c : t) (identifier : AuthorityIdentifier) : option Authority.t :=
  authorities_by_id c !! identifier.

Definition authority_by_key (c : t) (key : BlsPublicKey) : option Authority.t :=
  authorities c !! key.

(** [authorities()]: sorted by identifier. *)
Definition authorities_list (c : t) : list Authority.t := btree_values (authorities_by_id c).

Definition is_authority (c : t) (id : AuthorityIdentifier) : bool :=
  bool_decide (is_Some (authorities_by_id c !! id)).

Definition size (c : t) : N := N.of_nat (base.size (authorities c)).

Definition voting_power (c : t) (name : BlsPublicKey) : VotingPower :=
  from_option Authority.voting_power 0 (authorities c !! name).

Definition voting_power_by_id (c : t) (id : AuthorityIdentifier) : VotingPower :=
  from_option Authority.voting_power 0 (authorities_by_id c !! id).

Definition reached_quorum (c : t) (power : VotingPower) : bool := quorum_threshold c <=? power.

Definition reached_validity (c : t) (power : VotingPower) : bool := validity_threshold c <=? power.

Definition leader `{SeededChoice} {E} (c : t) (seed : N) : outcome E Authority.t :=
  let choices := (fun a => (a, Authority.voting_power a)) <$> btree_values (authorities c) in
  expect (choose_weighted seed choices).

Definition others_primaries_by_id `{NetworkKeys} (c : t) (myself : AuthorityIdentifier)
    : list (AuthorityIdentifier * string * N) :=
  (fun a => (Authority.id a, Authority.primary_network_address a, Authority.network_key a)) <$>
    filter (fun a => Authority.id a <> myself) (btree_values (authorities c)).

(** The identifiers of the committee, and the stake of a set of identifiers. *)
Definition members (c : t) : gset AuthorityIdentifier := dom (authorities_by_id c).

Definition weight (c : t) (X : gset AuthorityIdentifier) : N := weigh (voting_power_by_id c) X.

(** The largest stake that may be faulty. *)
Definition max_faulty (c : t) : N := (stake (authorities c) - 1) / 3.

(** What [new] establishes, on a committee whose stake fits in 63 bits. *)
Record wf `{NetworkKeys} (c : t) : Prop := {
  wf_index i a : authorities_by_id c !! i = Some a <->
    Authority.id a = i /\ exists k, authorities c !! k = Some a;
  wf_stake : weight c (members c) = stake (authorities c);
  wf_size : base.size (members c) = base.size (authorities c);
  wf_many : (1 < base.size (members c))%nat;
  wf_quorum : quorum_threshold c = 2 * stake (authorities c) / 3 + 1;
  wf_validity : validity_threshold c = N.max 1 (div_ceil (stake (authorities c)) 3);
  wf_total : total_voting_power c = stake (authorities c);
}.

Lemma elem_of_members c i : i ∈ members c <-> is_Some (authorities_by_id c !! i).
Proof. unfold members. by rewrite elem_of_dom. Qed.

End Committee.

Module CommitteeBuilder.

Record t := mk {
  epoch : Epoch;
  authorities : gmap BlsPublicKey Authority.t;
}.

Definition new (e : Epoch) : t := mk e ∅.

Definition add_authority (b : t) (protocol_key : BlsPublicKey) (stake : VotingPower)
    (address : string) (execution_address network_key : N) (hostname : string) : t :=
  let authority :=
    Authority.mk protocol_key stake address execution_address network_key hostname in
  mk (epoch b) (<[protocol_key := authority]> (authorities b)).

Definition build `{NetworkKeys} {E} (b : t) : outcome E Committee.t :=
  Committee.new (authorities b) (epoch b).

End CommitteeBuilder.

(** * Thresholds *)

Module CommitteeFacts.
Import Committee.

Section thresholds.
Context `{NetworkKeys}.
Implicit Types (c : Committee.t) (X Y : gset AuthorityIdentifier).

Lemma quorum_threshold_total {E} c :
  stake (authorities c) < 2 ^ 63 ->
  @calculate_quorum_threshold E c = Ok (2 * stake (authorities c) / 3 + 1).
Proof.
  intros Hb. unfold calculate_quorum_threshold, total_voting_power, non_zero.
  assert (u64_modulus = 2 * 2 ^ 63) as Hu by done.
  rewrite (wrap64_small (stake _)) by lia.
  rewrite (wrap64_small (2 * _)) by lia.
  rewrite wrap64_small; [destruct (N.eqb_spec (2 * stake (authorities c) / 3 + 1) 0) as [Hz|]; [|done]|].
  { rewrite N.add_1_r in Hz. by apply N.neq_succ_0 in Hz. }
  assert (2 * stake (authorities c) / 3 <= 2 * stake (authorities c)) by (apply N.Div0.div_le_upper_bound; lia).
  lia.
Qed.

Lemma validity_threshold_total {E} c :
  stake (authorities c) < 2 ^ 63 ->
  @calculate_validity_threshold E c = Ok (N.max 1 (div_ceil (stake (authorities c)) 3)).
Proof.
  intros Hb. unfold calculate_validity_threshold, total_voting_power, non_zero.
  assert (u64_modulus = 2 * 2 ^ 63) as Hu by done.
  rewrite wrap64_small by lia.
  destruct (N.eqb_spec (div_ceil (stake (authorities c)) 3) 0); simpl; f_equal; lia.
Qed.

(** [new] does not panic on two or more authorities with distinct identifiers. *)
Lemma new_ok {E} auths e :
  stake auths < 2 ^ 63 -> (1 < base.size auths)%nat ->
  NoDup (Authority.id <$> btree_values auths) ->
  exists c, @new _ E auths e = Ok c /\ authorities c = auths /\ epoch c = e.
Proof.
  intros Hb Hsz Hnd. unfold new, load. simpl.
  rewrite validity_threshold_total, quorum_threshold_total by done. simpl.
  set (l := _ <$> btree_values auths) in *.
  assert (base.size (collect_map ((λ a, (Authority.id a, a)) <$> btree_values auths)) = base.size auths) as Hlen.
  { rewrite <-length_map_to_list, collect_map_perm.
    - unfold btree_values. by rewrite !length_fmap, length_btree_iter.
    - by rewrite <-list_fmap_compose. }
  rewrite Hlen. destruct (N.ltb_spec 1 (N.of_nat (base.size auths))); [|lia]. simpl.
  rewrite Hlen, N.eqb_refl. simpl.
  rewrite validity_threshold_total, quorum_threshold_total by done. simpl.
  rewrite !N.eqb_refl. simpl. eauto.
Qed.

Lemma new_wf {E} auths e c :
  stake auths < 2 ^ 63 -> @new _ E auths e = Ok c ->
  wf c /\ authorities c = auths /\ epoch c = e.
Proof.
  intros Hb Hnew. unfold new, load in Hnew. simpl in Hnew.
  rewrite validity_threshold_total, quorum_threshold_total in Hnew by done. simpl in Hnew.
  set (l := (λ a, (Authority.id a, a)) <$> btree_values auths) in *.
  apply bind_Ok in Hnew as (c0 & Hload & Hnew).
  apply bind_Ok in Hload as (u & Hsz%assert_Ok & [= <-]). simpl in Hnew.
  apply bind_Ok in Hnew as (u' & Hlen%assert_Ok & Hnew).
  rewrite validity_threshold_total, quorum_threshold_total in Hnew by done. simpl in Hnew.
  rewrite !N.eqb_refl in Hnew. simpl in Hnew. injection Hnew as <-.
  assert (base.size (collect_map l) = length l) as Hll.
  { assert (length l = base.size auths) as ->; [|simpl in Hlen; lia].
    unfold l, btree_values. by rewrite !length_fmap, length_btree_iter. }
  pose proof (collect_map_size_NoDup l Hll) as Hnd.
  split; [|done]. constructor; simpl.
  - intros i a. rewrite collect_map_lookup by done. unfold l.
    rewrite list_elem_of_fmap. setoid_rewrite elem_of_btree_values. naive_solver.
  - unfold weight, weigh, members, stake. simpl.
    assert (voting_power_by_id (mk auths (collect_map l) e (2 * stake auths / 3 + 1)
       (N.max 1 (div_ceil (stake auths) 3))) <$> elements (dom (collect_map l))
       ≡ₚ Authority.voting_power <$> btree_values auths) as ->; [|done].
    assert (elements (dom (collect_map l)) ≡ₚ l.*1) as ->.
    { rewrite dom_collect_map. by apply elements_list_to_set. }
    assert (l.*1 = Authority.id <$> btree_values auths) as ->.
    { unfold l. by rewrite <-list_fmap_compose. }
    rewrite <-list_fmap_compose. apply Permutation_refl', list_fmap_ext.
    intros i a Ha. unfold compose, voting_power_by_id. simpl.
    assert (collect_map l !! Authority.id a = Some a) as ->; [|done].
    apply collect_map_lookup; [done|]. unfold l. apply list_elem_of_fmap.
    exists a. split; [done|]. by eapply list_elem_of_lookup_2.
  - unfold members. rewrite size_dom. simpl. lia.
  - unfold members. rewrite size_dom. simpl. lia.
  - done.
  - done.
  - unfold total_voting_power. simpl. apply wrap64_small.
    assert (u64_modulus = 2 * 2 ^ 63) as Hu by done. lia.
Qed.

Context (c : Committee.t) (Hwf : wf c).

Lemma voting_power_nonmember i : i ∉ members c -> voting_power_by_id c i = 0.
Proof.
  unfold members. intros Hi%not_elem_of_dom. unfold voting_power_by_id. by rewrite Hi.
Qed.

Lemma weight_nonmember X : X ## members c -> weight c X = 0.
Proof.
  induction X as [|i X Hi IH] using set_ind_L; intros Hd; [apply weigh_empty|].
  unfold weight in *. rewrite weigh_insert by done.
  rewrite voting_power_nonmember by set_solver. rewrite IH; [done|set_solver].
Qed.

Lemma weight_le_stake X : weight c X <= stake (authorities c).
Proof.
  rewrite <-(wf_stake c Hwf). unfold weight.
  assert (X = (X ∩ members c) ∪ (X ∖ members c)) as ->.
  { apply set_eq; intros i; destruct (decide (i ∈ members c)); set_solver. }
  rewrite weigh_disj_union by set_solver.
  pose proof (weight_nonmember (X ∖ members c)) as Hz. unfold weight in Hz.
  rewrite Hz by set_solver. rewrite N.add_0_r. apply weigh_mono. set_solver.
Qed.

Lemma div_ceil_3 n : 3 * div_ceil n 3 < n + 3 /\ n <= 3 * div_ceil n 3.
Proof.
  unfold div_ceil. case_match; div_lia.
Qed.

(** With stake [t] and [f = (t - 1) / 3], the thresholds are [t - f] and [f + 1]. *)
Lemma thresholds_exact :
  0 < stake (authorities c) ->
  quorum_threshold c = stake (authorities c) - max_faulty c /\
  validity_threshold c = max_faulty c + 1.
Proof.
  intros Hpos. rewrite (wf_quorum c Hwf), (wf_validity c Hwf). unfold max_faulty.
  pose proof (div_ceil_3 (stake (authorities c))). div_lia.
Qed.

(** A quorum and a valid set of supporters meet. *)
Lemma quorums_intersect Q1 Q2 :
  0 < stake (authorities c) ->
  reached_quorum c (weight c Q1) = true -> reached_quorum c (weight c Q2) = true ->
  reached_validity c (weight c (Q1 ∩ Q2)) = true.
Proof.
  intros Hpos HQ1 HQ2. destruct (thresholds_exact Hpos) as [Hq Hv].
  pose proof (weigh_union_inter (voting_power_by_id c) Q1 Q2) as Hui.
  pose proof (weight_le_stake (Q1 ∪ Q2)) as Hle.
  unfold reached_quorum, reached_validity, weight, max_faulty in *. div_lia.
Qed.

(** Of two quorums, a member that is not faulty. *)
Lemma quorums_honest Q1 Q2 B :
  0 < stake (authorities c) ->
  reached_quorum c (weight c Q1) = true -> reached_quorum c (weight c Q2) = true ->
  reached_validity c (weight c B) = false -> exists i, i ∈ Q1 ∩ Q2 /\ i ∉ B.
Proof.
  intros Hpos HQ1 HQ2 HB. pose proof (quorums_intersect Q1 Q2 Hpos HQ1 HQ2) as Hv.
  destruct (decide (Q1 ∩ Q2 ⊆ B)) as [Hsub|Hns].
  - pose proof (weigh_mono (voting_power_by_id c) _ _ Hsub) as Hle.
    unfold reached_validity, weight in *. lia.
  - destruct (set_choose_L ((Q1 ∩ Q2) ∖ B)) as [i Hi]; [|set_solver].
    intros He. apply Hns. intros i Hi. destruct (decide (i ∈ B)); [done|]. set_solver.
Qed.

Lemma quorum_meets_validity Q V :
  reached_quorum c (weight c Q) = true -> reached_validity c (weight c V) = true ->
  exists i, i ∈ Q ∩ V ∩ members c.
Proof.
  unfold reached_quorum, reached_validity. intros HQ HV.
  destruct (decide (Q ∩ V ∩ members c = ∅)) as [He|Hne]; [|by apply set_choose_L in Hne].
  exfalso.
  assert (weight c (Q ∩ V) = 0) as Hz by (apply weight_nonmember; set_solver).
  pose proof (weigh_union_inter (voting_power_by_id c) Q V) as Hui.
  pose proof (weight_le_stake (Q ∪ V)) as Hle. unfold weight in *.
  rewrite (wf_quorum c Hwf) in HQ. rewrite (wf_validity c Hwf) in HV.
  pose proof (div_ceil_3 (stake (authorities c))). div_lia.
Qed.

End thresholds.
End CommitteeFacts.
