(* ===== verification/Certificate.v ===== *)
(** Headers, votes and certificates, and their validation.
    Models crates/types/src/primary/{header,vote,certificate}.rs, the worker cache
    of crates/types/src/worker/info.rs and the errors of crates/types/src/error.rs. *)

From S2P Require Import Prelude Committee.

Notation Digest := N (only parsing).
Notation BlsSignature := N (only parsing).
Notation TimestampSec := N (only parsing).
Notation WorkerId := N (only parsing).

(** * Errors *)

Inductive HeaderError :=
  | InvalidEpoch (theirs ours : Epoch)
  | InvalidHeaderDigest
  | UnknownAuthority (id : AuthorityIdentifier)
  | UnkownWorkerId
  | TooManyParents (given limit : N)
  | UnknownNetworkKey (peer : N)
  | PeerNotAuthor
  | ClosedWatchChannel
  | UnknownExecutionResult (block : N * N)
  | InvalidGenesisParent (parent : Digest)
  | HeaderStorage
  | HeaderTooOld (digest : Digest) (header_round max_round : Round)
  | ParentMissingSignature
  | InvalidParentRound
  | InvalidParentTimestamp (header parent : TimestampSec)
  | DuplicateParents
  | SyncBatches
  | InvalidTimestamp (created received : TimestampSec)
  | AlreadyVoted (digest : Digest) (round : Round)
  | AlreadyVotedForLaterRound (theirs ours : Round)
  | TNSend
  | PendingCertificateOneshot.

Inductive CertificateError :=
  | Suspended
  | CertStorage
  | CertHeader (e : HeaderError)
  | Inquorate (stake threshold : N)
  | InvalidSignature
  | TooOld (digest : Digest) (round gc_round : Round)
  | TooNew (digest : Digest) (round max_round : Round)
  | ResChannelClosed
  | RecoverBlsAggregateSignatureBytes
  | Unsigned_certificate
  | DebugSuspend.

(** Text an error prints is kept as the value it names, or left out.  [DagSuspended] holds
    a notification handle in the source. *)
Inductive DagError :=
  | DagHeader (e : HeaderError)
  | DagCertificate (e : CertificateError)
  | DagClosedChannel
  | DagInvalidBitmap
  | DagInvalidSignature
  | DagInvalidRandomnessSignature
  | DagStoreError
  | DagInvalidHeaderDigest
  | DagInvalidSystemMessage
  | DagDuplicateSystemMessage
  | DagInvalidCertificateVersion
  | DagHeaderHasBadWorkerIds (digest : Digest)
  | DagHeaderHasInvalidParentRoundNumbers (digest : Digest)
  | DagHeaderHasInvalidParentTimestamp (digest : Digest)
  | DagHeaderHasDuplicateParentAuthorities (digest : Digest)
  | DagUnknownAuthority (id : AuthorityIdentifier)
  | DagAuthorityReuse (id : AuthorityIdentifier)
  | DagUnexpectedVote (digest : Digest)
  | DagAlreadyVoted (vote digest : Digest) (round : Round)
  | DagAlreadyVotedNewerHeader (digest : Digest) (round voted_round : Round)
  | DagCouldNotFormCertificate (digest : Digest)
  | DagCertificateRequiresQuorum
  | DagProposedHeaderMissingCertificates
  | DagHeaderRequiresQuorum (digest : Digest)
  | DagTooManyParents (given limit : N)
  | DagTooOld (digest : Digest) (round gc_round : Round)
  | DagTooNew (digest : Digest) (round max_round : Round)
  | DagVoteTooOld (digest : Digest) (round header_round : Round)
  | DagInvalidEpoch (expected received : Epoch)
  | DagInvalidRound (expected received : Round)
  | DagInvalidTimestamp (created_time local_time : TimestampSec)
  | DagInvalidGenesisParent (parent : Digest)
  | DagNoCertificateFetched
  | DagTooManyFetchedCertificatesReturned (response request : N)
  | DagNetworkError
  | DagSuspended
  | DagShuttingDown
  | DagChannelFull
  | DagCanceled
  | DagCertManager.

(** * Worker cache *)

Module WorkerInfo.
Record t := mk {
  name : N;
  transactions : string;
  worker_address : string;
}.
End WorkerInfo.

Module WorkerCache.

Record t := mk {
  epoch : Epoch;
  workers : gmap BlsPublicKey (gmap WorkerId WorkerInfo.t);
}.

(** [worker] fails with [ConfigError::NotInWorkerCache], here [()]. *)
Definition worker (wc : t) (to : BlsPublicKey) (id : WorkerId) : outcome unit WorkerInfo.t :=
  authority ← ok_or (workers wc !! to) ();
  ok_or (authority !! id) ().

Definition our_workers (wc : t) (myself : BlsPublicKey) : outcome unit (list WorkerInfo.t) :=
  authority ← ok_or (workers wc !! myself) ();
  Ok (btree_values authority).

Definition all_workers `{NetworkKeys} (wc : t) : list (N * string) :=
  flat_map (fun w => (fun i => (to_peer_id (WorkerInfo.name i), WorkerInfo.worker_address i)) <$> btree_values w)
    (btree_values (workers wc)).

Definition others_workers_by_id (wc : t) (myself : BlsPublicKey) (id : WorkerId)
    : list (BlsPublicKey * WorkerInfo.t) :=
  flat_map (fun na =>
      (fun w => (na.1, w.2)) <$> filter (fun w => w.1 = id) (btree_iter na.2))
    (filter (fun na => na.1 <> myself) (btree_iter (workers wc))).

Definition others_workers (wc : t) (myself : BlsPublicKey) : list (BlsPublicKey * WorkerInfo.t) :=
  flat_map (fun na => (fun w => (na.1, w.2)) <$> btree_iter na.2)
    (filter (fun na => na.1 <> myself) (btree_iter (workers wc))).

End WorkerCache.

(** * Headers *)

Module Header.

Record t := mk {
  author : AuthorityIdentifier;
  round : Round;
  epoch : Epoch;
  created_at : TimestampSec;
  payload : list (N * (WorkerId * TimestampSec));
  parents : gset Digest;
  latest_execution_block : N * N;
  digest_cell : option Digest;
}.

(** [..Default::default()] around the author and the epoch of a genesis header. *)
Definition genesis (author : AuthorityIdentifier) (epoch : Epoch) : t :=
  mk author 0 epoch 0 [] ∅ (0, 0) None.

(** What [Serialize] keeps of a header: every field but the digest cell. *)
Definition serialized (h : t) : t :=
  mk (author h) (round h) (epoch h) (created_at h) (payload h) (parents h)
    (latest_execution_block h) None.

#[global] Instance t_eq_dec : EqDecision t.
Proof. solve_decision. Defined.

(** [((self.epoch as u64) << 32) | self.round as u64] *)
Definition nonce (h : t) : N := N.lor (N.shiftl (epoch h) 32) (round h).

End Header.

(** The hash function and the signature scheme, which live in other crates:
    the digest of an encoded header, BLS aggregation and verification, and the
    conversion of a sorted sequence to a roaring bitmap. *)
Class Crypto := {
  header_hash : Header.t -> Digest;
  bls_default : BlsSignature;
  bls_aggregate : list BlsSignature -> option BlsSignature;
  bls_verify_secure : BlsSignature -> Digest -> list BlsPublicKey -> bool;
  bls_verify : BlsSignature -> Digest -> BlsPublicKey -> bool;
  bitmap_from_sorted_iter : list N -> option (gset N);
  bitmap_from_sorted_iter_ok l :
    StronglySorted N.lt l -> bitmap_from_sorted_iter l = Some (list_to_set l);
}.

(** Collision resistance, as far as the consensus code relies on it. *)
Class CollisionFree `{Crypto} := {
  header_hash_binds h h' :
    header_hash h = header_hash h' ->
    Header.author h = Header.author h' /\ Header.round h = Header.round h' /\
    Header.epoch h = Header.epoch h';
}.

(** The same for the parents, which only the comparison of two DAGs needs. *)
Class BindsParents `{Crypto} := {
  header_hash_parents h h' :
    header_hash h = header_hash h' -> Header.parents h = Header.parents h';
}.

Module HeaderOps.
Import Header.
Section header.
Context `{NetworkKeys} `{Crypto}.

(** [Hash::digest]: the hash of the encoded header. *)
Definition hash_digest (h : t) : Digest := header_hash (serialized h).

Definition new (author : AuthorityIdentifier) (round : Round) (epoch : Epoch)
    (payload : list (N * (WorkerId * TimestampSec))) (parents : gset Digest)
    (latest_execution_block : N * N) (now : TimestampSec) : t :=
  let header := mk author round epoch now payload parents latest_execution_block None in
  mk author round epoch now payload parents latest_execution_block (Some (hash_digest header)).

Definition digest (h : t) : Digest := default (hash_digest h) (digest_cell h).

Definition validate (h : t) (committee : Committee.t) (worker_cache : WorkerCache.t)
    : outcome HeaderError unit :=
  _ ← ensure (epoch h =? Committee.epoch committee)
        (InvalidEpoch (epoch h) (Committee.epoch committee));
  _ ← ensure (hash_digest h =? digest h) InvalidHeaderDigest;
  _ ← ensure (negb (Committee.voting_power_by_id committee (author h) =? 0))
        (UnknownAuthority (author h));
  foldM (fun _ w =>
      a ← ok_or (Committee.authority committee (author h)) (UnknownAuthority (author h));
      _ ← map_err (fun _ => UnkownWorkerId)
            (WorkerCache.worker worker_cache (Authority.protocol_key a) w.1);
      Ok ()) () (payload h).*2.

End header.
End HeaderOps.

(** * Votes *)

Module Vote.
Record t := mk {
  header_digest : Digest;
  round : Round;
  epoch : Epoch;
  origin : AuthorityIdentifier;
  author : AuthorityIdentifier;
  signature : BlsSignature;
}.

(** [sign] is the node's signature service. *)
Definition new_sync `{Crypto} (header : Header.t) (author : AuthorityIdentifier)
    (sign : Digest -> BlsSignature) : t :=
  let header_digest := HeaderOps.digest header in
  mk header_digest (Header.round header) (Header.epoch header) (Header.author header) author
    (sign header_digest).

Definition digest (v : t) : Digest := header_digest v.
End Vote.

Module VoteInfo.
Record t := mk {
  epoch : Epoch;
  round : Round;
  vote_digest : Digest;
}.

#[global] Instance t_eq_dec : EqDecision t.
Proof. solve_decision. Defined.

Definition from_vote (v : Vote.t) : t := mk (Vote.epoch v) (Vote.round v) (Vote.digest v).
End VoteInfo.

(** * Certificates *)

Inductive SignatureVerificationState :=
  | Unsigned (sig : BlsSignature)
  | Unverified (sig : BlsSignature)
  | VerifiedDirectly (sig : BlsSignature)
  | VerifiedIndirectly (sig : BlsSignature)
  | Genesis.

#[global] Instance SignatureVerificationState_eq_dec : EqDecision SignatureVerificationState.
Proof. solve_decision. Defined.

Module Certificate.

Record t := mk {
  header : Header.t;
  signature_verification_state : SignatureVerificationState;
  signed_authorities : gset N;
  created_at : TimestampSec;
}.

#[global] Instance t_eq_dec : EqDecision t.
Proof. solve_decision. Defined.

Definition round (c : t) : Round := Header.round (header c).
Definition epoch (c : t) : Epoch := Header.epoch (header c).
Definition nonce (c : t) : N := Header.nonce (header c).
Definition origin (c : t) : AuthorityIdentifier := Header.author (header c).
Definition parents (c : t) : gset Digest := Header.parents (header c).

Definition aggregated_signature (c : t) : option BlsSignature :=
  match signature_verification_state c with
  | VerifiedDirectly sig | Unverified sig | VerifiedIndirectly sig | Unsigned sig => Some sig
  | Genesis => None
  end.

Definition set_signature_verification_state (c : t) (s : SignatureVerificationState) : t :=
  mk (header c) s (signed_authorities c) (created_at c).

Definition is_verified (c : t) : bool :=
  match signature_verification_state c with
  | VerifiedDirectly _ | VerifiedIndirectly _ | Genesis => true
  | _ => false
  end.

Section certificate.
Context `{NetworkKeys} `{Crypto}.

Definition digest (c : t) : Digest := HeaderOps.digest (header c).

(** [PartialEq for Certificate] *)
Definition eqb (a b : t) : bool :=
  (HeaderOps.digest (header a) =? HeaderOps.digest (header b)) && (round a =? round b)
  && (epoch a =? epoch b) && (origin a =? origin b).

Definition genesis (committee : Committee.t) : list t :=
  (fun a => mk (Header.genesis (Authority.id a) (Committee.epoch committee))
              (Unsigned bls_default) ∅ 0) <$> Committee.authorities_list committee.

(** The inner loop of [new_internal] that drops repeats of the vote just taken. *)
Fixpoint drop_repeats (fuel : nat) (votes : gmap AuthorityIdentifier BlsSignature)
    (last : AuthorityIdentifier * BlsSignature) : gmap AuthorityIdentifier BlsSignature :=
  match fuel, first_key_value votes with
  | S fuel', Some kv =>
      if bool_decide (kv = last) then drop_repeats fuel' (delete kv.1 votes) last else votes
  | _, _ => votes
  end.

(** The closure [filtered_votes] runs over the enumerated authorities: the indexes
    kept, the votes taken in order, their weight, and the votes left. *)
Fixpoint take_votes (i : N) (auths : list Authority.t)
    (votes : gmap AuthorityIdentifier BlsSignature)
    : list N * list (AuthorityIdentifier * BlsSignature) * N
      * gmap AuthorityIdentifier BlsSignature :=
  match auths with
  | [] => ([], [], 0, votes)
  | a :: auths' =>
      match first_key_value votes with
      | Some kv =>
          if Authority.id a =? kv.1 then
            let votes' := delete kv.1 votes in
            let votes' := drop_repeats (size votes') votes' kv in
            let '(idx, sigs, weight, rest) := take_votes (i + 1) auths' votes' in
            (i :: idx, kv :: sigs, Authority.voting_power a + weight, rest)
          else take_votes (i + 1) auths' votes
      | None => take_votes (i + 1) auths' votes
      end
  end.

Definition new_internal (committee : Committee.t) (header : Header.t)
    (votes : gmap AuthorityIdentifier BlsSignature) (check_stake : bool) (now : TimestampSec)
    : outcome DagError t :=
  let auths := Committee.authorities_list committee in
  let '(idx, sigs, weight, rest) := take_votes 0 auths votes in
  signed ← ok_or (bitmap_from_sorted_iter idx) DagInvalidBitmap;
  _ ← match first_key_value rest with
      | None => Ok ()
      | Some kv => Err (DagUnknownAuthority kv.1)
      end;
  _ ← ensure (negb check_stake || (Committee.quorum_threshold committee <=? weight))
        DagCertificateRequiresQuorum;
  bls_signature ←
    match sigs.*2 with
    | [] => Ok bls_default
    | l => ok_or (bls_aggregate l) DagInvalidSignature
    end;
  let state := if check_stake then Unverified bls_signature else Unsigned bls_signature in
  Ok (mk header state signed now).

Definition new_unverified (committee : Committee.t) (header : Header.t)
    (votes : list (AuthorityIdentifier * BlsSignature)) (now : TimestampSec)
    : outcome DagError t :=
  new_internal committee header (collect_map votes) true now.

(** The closure of [signed_by] over the enumerated authorities, with the cursor
    [auth_iter] into the sorted indexes of the bitmap. *)
Fixpoint signed_by_loop (auth_indexes : list N) (auth_iter : nat) (i : N)
    (auths : list Authority.t) : N * list BlsPublicKey :=
  match auths with
  | [] => (0, [])
  | a :: auths' =>
      match auth_indexes !! auth_iter with
      | Some index =>
          if index =? i then
            let '(weight, pks) := signed_by_loop auth_indexes (S auth_iter) (i + 1) auths' in
            (Authority.voting_power a + weight, Authority.protocol_key a :: pks)
          else signed_by_loop auth_indexes auth_iter (i + 1) auths'
      | None => signed_by_loop auth_indexes auth_iter (i + 1) auths'
      end
  end.

Definition signed_by (c : t) (committee : Committee.t) : N * list BlsPublicKey :=
  signed_by_loop (bset_iter (signed_authorities c)) 0 0 (Committee.authorities_list committee).

Definition verify_signature (c : t) (pks : list BlsPublicKey) : outcome CertificateError t :=
  match signature_verification_state c with
  | VerifiedIndirectly _ | VerifiedDirectly _ | Genesis => Ok c
  | Unsigned _ => Err Unsigned_certificate
  | Unverified sig =>
      if bls_verify_secure sig (digest c) pks
      then Ok (set_signature_verification_state c (VerifiedDirectly sig))
      else Err InvalidSignature
  end.

Definition validate_received (c : t) : outcome CertificateError t :=
  sig ← ok_or (aggregated_signature c) RecoverBlsAggregateSignatureBytes;
  Ok (set_signature_verification_state c (Unverified sig)).

Definition verify (c : t) (committee : Committee.t) (worker_cache : WorkerCache.t)
    : outcome CertificateError t :=
  _ ← ensure (epoch c =? Committee.epoch committee)
        (CertHeader (InvalidEpoch (epoch c) (Committee.epoch committee)));
  if (round c =? 0) && existsb (eqb c) (genesis committee) then Ok c else
  _ ← map_err CertHeader (HeaderOps.validate (header c) committee worker_cache);
  let '(weight, pks) := signed_by c committee in
  let threshold := Committee.quorum_threshold committee in
  _ ← ensure (threshold <=? weight) (Inquorate weight threshold);
  verify_signature c pks.

Definition verify_cert (c : t) (committee : Committee.t) : outcome CertificateError t :=
  c ← validate_received c;
  let '(weight, pks) := signed_by c committee in
  let threshold := Committee.quorum_threshold committee in
  _ ← ensure (threshold <=? weight) (Inquorate weight threshold);
  verify_signature c pks.

End certificate.
End Certificate.

(** * Signers of a certificate *)

Module CertificateFacts.
Import Certificate.

(** The authorities at the positions [X], counting from [i]: what the cursor of
    [signed_by] is meant to select. *)
Fixpoint selected (i : N) (auths : list Authority.t) (X : gset N) : list Authority.t :=
  match auths with
  | [] => []
  | a :: auths' =>
      if bool_decide (i ∈ X) then a :: selected (i + 1) auths' X else selected (i + 1) auths' X
  end.

Definition signers `{NetworkKeys} (c : t) (committee : Committee.t) : list Authority.t :=
  selected 0 (Committee.authorities_list committee) (signed_authorities c).

(** The signers as a set of identifiers. *)
Definition signer_ids `{NetworkKeys} (c : t) (committee : Committee.t) : gset AuthorityIdentifier :=
  list_to_set (Authority.id <$> signers c committee).

(** The authorities of a list that voted. *)
Definition voters `{NetworkKeys} (auths : list Authority.t)
    (votes : gmap AuthorityIdentifier BlsSignature) : list Authority.t :=
  filter (fun a => Authority.id a ∈ dom votes) auths.

(** References point to the round below. *)
Definition parent_rounds `{Crypto} (U : t -> Prop) : Prop :=
  forall x p, U x -> U p -> digest p ∈ parents x -> round p + 1 = round x.

Section facts.
Context `{NetworkKeys} `{Crypto}.

Lemma selected_sublist i auths X : selected i auths X `sublist_of` auths.
Proof.
  revert i. induction auths as [|a auths IH]; intros i; simpl; [done|].
  case_bool_decide; [by apply sublist_skip|by apply sublist_cons].
Qed.

Lemma selected_ext i auths X Y :
  (forall j, i <= j -> j ∈ X <-> j ∈ Y) -> selected i auths X = selected i auths Y.
Proof.
  revert i. induction auths as [|a auths IH]; intros i HXY; simpl; [done|].
  rewrite (bool_decide_ext _ _ (HXY i (N.le_refl i))).
  assert (selected (i + 1) auths X = selected (i + 1) auths Y) as ->; [|done].
  apply IH. intros j ?. apply HXY. lia.
Qed.

(** The cursor walk of [signed_by] is a selection by membership. *)
Lemma signed_by_loop_selected l k i auths rem X :
  drop k l = rem -> StronglySorted N.lt rem ->
  (forall j, j ∈ rem -> i <= j) -> (forall j, i <= j -> j ∈ X <-> j ∈ rem) ->
  signed_by_loop l k i auths =
    (sumN (Authority.voting_power <$> selected i auths X),
     Authority.protocol_key <$> selected i auths X).
Proof.
  revert k i rem. induction auths as [|a auths IH]; intros k i rem Hd Hs Hge HX; simpl; [done|].
  assert (l !! k = head rem) as -> by (by rewrite <-Hd, head_lookup, lookup_drop, Nat.add_0_r).
  destruct rem as [|x rem]; simpl.
  { rewrite bool_decide_false by (rewrite HX by lia; set_solver).
    apply (IH k (i + 1) []); [done..|set_solver|]. intros j ?. apply HX. lia. }
  inversion Hs as [|? ? Hs' Hx]; subst. rewrite Forall_forall in Hx.
  assert (drop (S k) l = rem) as Hd'.
  { rewrite <-Nat.add_1_r, <-drop_drop, Hd. done. }
  destruct (N.eqb_spec x i) as [->|Hne].
  - rewrite bool_decide_true by (rewrite HX by lia; set_solver).
    rewrite (IH (S k) (i + 1) rem); [done..| |].
    + intros j Hj. specialize (Hx j Hj). lia.
    + intros j ?. rewrite HX by lia. rewrite elem_of_cons. naive_solver lia.
  - assert (i < x) by (specialize (Hge x ltac:(set_solver)); lia).
    rewrite bool_decide_false.
    + apply (IH k (i + 1) (x :: rem)); [done..| |].
      * intros j [->|Hj]%elem_of_cons; [lia|]. specialize (Hx j Hj). lia.
      * intros j ?. apply HX. lia.
    + rewrite HX by lia. intros [->|Hi]%elem_of_cons; [lia|]. specialize (Hx i Hi). lia.
Qed.

Lemma signed_by_signers c committee :
  signed_by c committee =
    (sumN (Authority.voting_power <$> signers c committee),
     Authority.protocol_key <$> signers c committee).
Proof.
  unfold signed_by, signers. eapply signed_by_loop_selected.
  - apply drop_0.
  - apply bset_iter_sorted.
  - intros; lia.
  - intros j _. by rewrite elem_of_bset_iter.
Qed.

(** ** The committee's authorities in order of their identifiers *)

Lemma authorities_list_ids c :
  Committee.wf c -> Authority.id <$> Committee.authorities_list c = btree_keys (Committee.authorities_by_id c).
Proof.
  intros Hwf. unfold Committee.authorities_list, btree_values, btree_keys.
  rewrite <-list_fmap_compose. apply list_fmap_ext. intros i [k a] Hl.
  apply list_elem_of_lookup_2, elem_of_btree_iter, (Committee.wf_index c Hwf) in Hl. apply Hl.
Qed.

Lemma authorities_list_sorted c :
  Committee.wf c -> StronglySorted N.lt (Authority.id <$> Committee.authorities_list c).
Proof. intros Hwf. rewrite authorities_list_ids by done. apply btree_keys_sorted. Qed.

Lemma elem_of_authorities_list c a :
  Committee.wf c -> a ∈ Committee.authorities_list c <-> Committee.authority c (Authority.id a) = Some a.
Proof.
  intros Hwf. unfold Committee.authorities_list, Committee.authority.
  rewrite elem_of_btree_values. split; [|by eauto].
  intros [k Hk]. pose proof Hk as [<- _]%(Committee.wf_index c Hwf). done.
Qed.

(** The stake of a selection is the stake of its set of identifiers. *)
Lemma weight_of_sublist c l :
  Committee.wf c -> l `sublist_of` Committee.authorities_list c ->
  sumN (Authority.voting_power <$> l) = Committee.weight c (list_to_set (Authority.id <$> l)).
Proof.
  intros Hwf Hsub. unfold Committee.weight.
  rewrite weigh_list_to_set.
  - rewrite <-list_fmap_compose. f_equal. apply list_fmap_ext. intros i a Ha%list_elem_of_lookup_2.
    assert (a ∈ Committee.authorities_list c) as Hc by (by eapply elem_of_sublist).
    apply elem_of_authorities_list in Hc; [|done].
    unfold compose, Committee.voting_power_by_id. unfold Committee.authority in Hc. by rewrite Hc.
  - eapply sublist_NoDup; [|by apply fmap_sublist].
    apply StronglySorted_lt_NoDup. by apply authorities_list_sorted.
Qed.

Lemma signed_by_weight c committee :
  Committee.wf committee ->
  (signed_by c committee).1 = Committee.weight committee (signer_ids c committee).
Proof.
  intros Hwf. rewrite signed_by_signers. simpl. apply weight_of_sublist; [done|].
  apply selected_sublist.
Qed.

Lemma signer_ids_members c committee :
  Committee.wf committee -> signer_ids c committee ⊆ Committee.members committee.
Proof.
  intros Hwf i. unfold signer_ids. rewrite elem_of_list_to_set, list_elem_of_fmap.
  intros (a & -> & Ha). unfold Committee.members. apply elem_of_dom. exists a.
  apply elem_of_authorities_list; [done|]. eapply elem_of_sublist; [done|]. apply selected_sublist.
Qed.

(** ** Aggregating votes *)

Lemma drop_repeats_id n votes kv :
  votes !! kv.1 = None -> drop_repeats n votes kv = votes.
Proof.
  intros Hk. destruct n; simpl; [done|]. destruct (first_key_value votes) as [kv'|] eqn:Hf; [|done].
  case_bool_decide as He; [|done]. subst. unfold first_key_value in Hf.
  destruct (btree_iter votes) as [|kv' l] eqn:Hi; simplify_eq/=.
  destruct kv as [k s]. assert (votes !! k = Some s); [|by simplify_eq/=].
  apply elem_of_btree_iter. rewrite Hi. set_solver.
Qed.

(** What [take_votes] leaves untaken. *)
Lemma take_votes_rest i auths votes idx sigs w rest :
  take_votes i auths votes = (idx, sigs, w, rest) ->
  dom votes ⊆ dom rest ∪ list_to_set (Authority.id <$> auths).
Proof.
  revert i votes idx sigs w. induction auths as [|a auths IH]; intros i votes idx sigs w; simpl.
  { intros [= <- <- <- <-]. set_solver. }
  destruct (first_key_value votes) as [[k s]|] eqn:Hf; [|intros Ht; apply IH in Ht; set_solver].
  simpl. destruct (N.eqb_spec (Authority.id a) k) as [<-|]; [|intros Ht; apply IH in Ht; set_solver].
  rewrite drop_repeats_id by apply lookup_delete_eq.
  destruct (take_votes _ _ _) as [[[idx' sigs'] w'] rest'] eqn:Ht. intros [= <- <- <- <-].
  apply IH in Ht. rewrite dom_delete_L in Ht. intros j Hj.
  destruct (decide (j = Authority.id a)); set_solver.
Qed.

Lemma first_key_value_Some (votes : gmap AuthorityIdentifier BlsSignature) k s :
  first_key_value votes = Some (k, s) ->
  votes !! k = Some s /\ btree_iter votes = (k, s) :: btree_iter (delete k votes) /\
  forall j, j ∈ dom votes -> k <= j.
Proof.
  unfold first_key_value. destruct (btree_iter votes) as [|kv l] eqn:Hi; intros; simplify_eq/=.
  split_and!.
  - apply elem_of_btree_iter. rewrite Hi. set_solver.
  - f_equal. symmetry. exact (btree_iter_delete_first votes _ _ Hi).
  - intros j Hj. apply elem_of_dom, elem_of_btree_keys in Hj.
    pose proof (btree_keys_sorted votes) as Hs. unfold btree_keys in *. rewrite Hi in *.
    inversion Hs as [|? ? _ Hk]; subst. rewrite Forall_forall in Hk.
    apply elem_of_cons in Hj as [->|Hj]; [simpl; lia|]. specialize (Hk j Hj). simpl in *. lia.
Qed.

(** The specification of [take_votes] when every vote is taken: the positions kept
    are those of the voters, in order, and the votes come out sorted. *)
Definition taken (i : N) (auths : list Authority.t) (votes : gmap AuthorityIdentifier BlsSignature)
    (idx : list N) (sigs : list (AuthorityIdentifier * BlsSignature)) (w : N) : Prop :=
  StronglySorted N.lt idx /\ Forall (fun j => i <= j) idx /\
  selected i auths (list_to_set idx) = voters auths votes /\
  w = sumN (Authority.voting_power <$> voters auths votes) /\ sigs = btree_iter votes.

Lemma taken_skip i a auths votes idx sigs w :
  Authority.id a ∉ dom votes -> taken (i + 1) auths votes idx sigs w ->
  taken i (a :: auths) votes idx sigs w.
Proof.
  intros Hni (H1 & H2 & H3 & H4 & H5). rewrite Forall_forall in H2.
  assert (voters (a :: auths) votes = voters auths votes) as Hv.
  { unfold voters. by rewrite filter_cons_False. }
  unfold taken. rewrite Hv. simpl. rewrite bool_decide_false.
  - split_and!; [done| |done..]. apply Forall_forall. intros j Hj. specialize (H2 j Hj). lia.
  - rewrite elem_of_list_to_set. intros Hi. specialize (H2 i Hi). lia.
Qed.

Lemma taken_take i a auths votes s idx sigs w :
  votes !! Authority.id a = Some s ->
  btree_iter votes = (Authority.id a, s) :: btree_iter (delete (Authority.id a) votes) ->
  (forall j, j ∈ Authority.id <$> auths -> Authority.id a < j) ->
  taken (i + 1) auths (delete (Authority.id a) votes) idx sigs w ->
  taken i (a :: auths) votes (i :: idx) ((Authority.id a, s) :: sigs) (Authority.voting_power a + w).
Proof.
  intros Hs Hi Ha (H1 & H2 & H3 & -> & ->). rewrite Forall_forall in H2.
  assert (voters auths (delete (Authority.id a) votes) = voters auths votes) as Hv.
  { unfold voters. apply filter_ext_elem. intros b Hb%(list_elem_of_fmap_2 Authority.id).
    rewrite dom_delete_L. specialize (Ha _ Hb). assert (Authority.id b <> Authority.id a) by lia.
    set_solver. }
  assert (voters (a :: auths) votes = a :: voters auths votes) as Hv'.
  { unfold voters. rewrite filter_cons_True; [done|]. by apply elem_of_dom. }
  unfold taken. rewrite Hv', Hv in *. split_and!.
  - constructor; [done|]. apply Forall_forall. intros j Hj. specialize (H2 j Hj). lia.
  - constructor; [lia|]. apply Forall_forall. intros j Hj. specialize (H2 j Hj). lia.
  - simpl. rewrite bool_decide_true by set_solver. f_equal. rewrite <-H3.
    apply selected_ext. intros j Hj. rewrite elem_of_union, elem_of_singleton.
    split; [intros [->|]; [lia|done]|by right].
  - done.
  - done.
Qed.

Lemma take_votes_spec i auths votes idx sigs w :
  StronglySorted N.lt (Authority.id <$> auths) ->
  take_votes i auths votes = (idx, sigs, w, ∅) -> taken i auths votes idx sigs w.
Proof.
  revert i votes idx sigs w. induction auths as [|a auths IH]; intros i votes idx sigs w; simpl.
  { intros _ [= <- <- <- ->]. split_and!; [constructor|constructor|done|done|].
    symmetry. by apply btree_iter_nil. }
  intros Hs Ht. inversion Hs as [|? ? Hs' Ha]; subst. rewrite Forall_forall in Ha.
  destruct (first_key_value votes) as [[k s]|] eqn:Hf; simpl in Ht.
  - pose proof (first_key_value_Some _ _ _ Hf) as (Hk & Hi & Hmin).
    destruct (N.eqb_spec (Authority.id a) k) as [<-|Hne].
    + rewrite drop_repeats_id in Ht by apply lookup_delete_eq.
      destruct (take_votes _ _ _) as [[[idx' sigs'] w'] rest'] eqn:Ht'. simplify_eq.
      apply taken_take; auto.
    + apply taken_skip; [|by apply IH]. intros Hin.
      pose proof (take_votes_rest _ _ _ _ _ _ _ Ht) as Hr. rewrite dom_empty_L in Hr.
      specialize (Hmin _ Hin). apply elem_of_dom_2, Hr in Hk.
      assert (k ∈ Authority.id <$> auths) as Hka%Ha by set_solver. lia.
  - apply taken_skip; [|by apply IH]. unfold first_key_value in Hf.
    destruct (btree_iter votes) eqn:Hi; [|done]. apply btree_iter_nil in Hi. set_solver.
Qed.

(** The voters are the voting members, so their stake is the stake of the votes' keys. *)
Lemma voters_weight committee votes :
  Committee.wf committee -> dom votes ⊆ Committee.members committee ->
  sumN (Authority.voting_power <$> voters (Committee.authorities_list committee) votes) =
    Committee.weight committee (dom votes).
Proof.
  intros Hwf Hsub. rewrite (weight_of_sublist committee); [|done|apply sublist_filter].
  f_equal. apply set_eq. intros i. rewrite elem_of_list_to_set, list_elem_of_fmap. split.
  - intros (a & -> & Ha). by apply list_elem_of_filter in Ha as [? _].
  - intros Hi. pose proof (Hsub i Hi) as [a Ha]%Committee.elem_of_members.
    pose proof Ha as [Hid _]%(Committee.wf_index _ Hwf). exists a. split; [done|].
    apply list_elem_of_filter. split; [by rewrite Hid|].
    apply elem_of_authorities_list; [done|]. unfold Committee.authority. by rewrite Hid.
Qed.

(** What a successful [new_internal] says of the votes. *)
Lemma new_internal_inv committee header votes check now cert :
  Committee.wf committee -> new_internal committee header votes check now = Ok cert ->
  Certificate.header cert = header /\ dom votes ⊆ Committee.members committee /\
  signers cert committee = voters (Committee.authorities_list committee) votes /\
  (check = true -> Committee.reached_quorum committee (Committee.weight committee (dom votes)) = true).
Proof.
  intros Hwf Hnew. unfold new_internal in Hnew.
  destruct (take_votes 0 _ votes) as [[[idx sigs] w] rest] eqn:Ht.
  apply bind_Ok in Hnew as (signed & Hbm%ok_or_Ok & Hnew).
  apply bind_Ok in Hnew as (? & Hrest & Hnew).
  assert (rest = ∅) as ->.
  { unfold first_key_value in Hrest. destruct (btree_iter rest) eqn:Hi; [by apply btree_iter_nil|done]. }
  pose proof (take_votes_rest _ _ _ _ _ _ _ Ht) as Hdom.
  rewrite dom_empty_L, authorities_list_ids in Hdom by done.
  pose proof (take_votes_spec _ _ _ _ _ _ (authorities_list_sorted _ Hwf) Ht) as (Hs & _ & Hsel & Hw & _).
  assert (dom votes ⊆ Committee.members committee) as Hmem.
  { intros i Hi. apply Hdom in Hi. unfold Committee.members. apply elem_of_dom.
    apply elem_of_btree_keys. set_solver. }
  rewrite bitmap_from_sorted_iter_ok in Hbm by done. injection Hbm as <-.
  apply bind_Ok in Hnew as (? & Hq%ensure_Ok & Hnew).
  apply bind_Ok in Hnew as (sig & _ & [= <-]). simpl. split_and!; [done|done|done|].
  intros ->. simpl in Hq. unfold Committee.reached_quorum.
  by rewrite <-voters_weight, <-Hw by done.
Qed.

(** An uncertified header becomes a certificate only if its author may vote. *)
Lemma validate_Ok h committee wc u :
  HeaderOps.validate h committee wc = Ok u ->
  Header.epoch h = Committee.epoch committee /\ HeaderOps.hash_digest h = HeaderOps.digest h /\
  Committee.voting_power_by_id committee (Header.author h) <> 0.
Proof.
  unfold HeaderOps.validate. intros (? & He%ensure_Ok & Hv)%bind_Ok.
  apply bind_Ok in Hv as (? & Hd%ensure_Ok & Hv). apply bind_Ok in Hv as (? & Hp%ensure_Ok & _).
  repeat split; lia.
Qed.
End facts.
End CertificateFacts.
