(* ===== verification/CertStore.v ===== *)
(** The certificate store and the consensus stores.
    Models crates/storage/src/stores/{certificate_store,vote_digest_store,
    proposer_store,payload_store}.rs on tables that are open.  Subscribers of
    [notify_read] are told about every certificate saved: those are recorded in order. *)

From S2P Require Import Prelude Storage Committee Certificate.

Definition ROUNDS_TO_KEEP : Round := 64.

(** [u32::MAX] *)
Definition round_max : Round := 2 ^ 32 - 1.

Module CertificateStore.

Record t := mk {
  certificates : gmap Digest Certificate.t;
  digest_by_round : gmap (Round * AuthorityIdentifier) Digest;
  digest_by_origin : gmap (AuthorityIdentifier * Round) Digest;
  notified : list (Digest * Certificate.t);
}.

Definition empty : t := mk ∅ ∅ ∅ [].

Section store.
Context `{Crypto}.

Definition save_cert (s : t) (digest : Digest) (certificate : Certificate.t) : t :=
  let round := Certificate.round certificate in
  let origin := Certificate.origin certificate in
  mk (MemTable.insert (certificates s) digest certificate)
    (MemTable.insert (digest_by_round s) (round, origin) digest)
    (MemTable.insert (digest_by_origin s) (origin, round) digest)
    (notified s ++ [(digest, certificate)]).

(** The records of the round index below a round: the loop stops at the first other. *)
Fixpoint take_below (target_round : Round) (l : list ((Round * AuthorityIdentifier) * Digest))
    : list ((Round * AuthorityIdentifier) * Digest) :=
  match l with
  | [] => []
  | x :: l' => if x.1.1 <? target_round then x :: take_below target_round l' else []
  end.

Definition gc_remove (s : t) (x : (Round * AuthorityIdentifier) * Digest) : t :=
  mk (MemTable.remove (certificates s) x.2) (MemTable.remove (digest_by_round s) x.1)
    (MemTable.remove (digest_by_origin s) (x.1.2, x.1.1)) (notified s).

Definition gc_rounds (s : t) (target_round : Round) : t :=
  if target_round <=? ROUNDS_TO_KEEP then s else
  let target_round := target_round - ROUNDS_TO_KEEP in
  let certs := take_below target_round (MemTable.iter (digest_by_round s)) in
  foldl gc_remove s certs.

Definition write (s : t) (certificate : Certificate.t) : t :=
  let s := save_cert s (Certificate.digest certificate) certificate in
  gc_rounds s (Certificate.round certificate).

Definition write_all (s : t) (certs : list Certificate.t) : t :=
  let '(s, round) :=
    foldl (fun acc certificate =>
        (save_cert acc.1 (Certificate.digest certificate) certificate, N.max acc.2 (Certificate.round certificate)))
      (s, 0) certs in
  gc_rounds s round.

Definition read (s : t) (id : Digest) : option Certificate.t := MemTable.get (certificates s) id.

Definition read_by_index (s : t) (origin : AuthorityIdentifier) (round : Round) : option Certificate.t :=
  match MemTable.get (digest_by_origin s) (origin, round) with
  | Some d => read s d
  | None => None
  end.

Definition contains (s : t) (digest : Digest) : bool := MemTable.contains_key (certificates s) digest.

Definition multi_contains (s : t) (digests : list Digest) : list bool := contains s <$> digests.

Definition read_all (s : t) (ids : list Digest) : list (option Certificate.t) := read s <$> ids.

Definition delete (s : t) (id : Digest) : t :=
  match read s id with
  | None => s
  | Some cert =>
      mk (MemTable.remove (certificates s) id)
        (MemTable.remove (digest_by_round s) (Certificate.round cert, Certificate.origin cert))
        (digest_by_origin s) (notified s)
  end.

(** The first identifier that is not found ends the loop. *)
Fixpoint delete_all (s : t) (ids : list Digest) : t :=
  match ids with
  | [] => s
  | id :: ids' =>
      match read s id with
      | None => s
      | Some cert =>
          delete_all
            (mk (MemTable.remove (certificates s) id)
               (MemTable.remove (digest_by_round s) (Certificate.round cert, Certificate.origin cert))
               (digest_by_origin s) (notified s)) ids'
      end
  end.

(** [AuthorityIdentifier::default()] *)
Context (default_id : AuthorityIdentifier).

(** The records of the round index from a row at or before the round. *)
Definition rows_from (s : t) (round : Round) : list ((Round * AuthorityIdentifier) * Digest) :=
  if 0 <? round then MemTable.skip_to (digest_by_round s) (round - 1, default_id) else MemTable.iter (digest_by_round s).

(** Fails on a record whose certificate is missing. *)
Definition after_round (s : t) (round : Round) : outcome Digest (list Certificate.t) :=
  foldM (fun certs x =>
      if round <=? x.1.1 then
        cert ← ok_or (read s x.2) x.2;
        Ok (certs ++ [cert])
      else Ok certs) [] (rows_from s round).

Definition origins_after_round (s : t) (round : Round) : gmap Round (list AuthorityIdentifier) :=
  foldl (fun result x =>
      if x.1.1 <? round then result
      else <[x.1.1 := default [] (result !! x.1.1) ++ [x.1.2]]> result) ∅ (rows_from s round).

(** The loop of [last_two_rounds_certs], with the round captured and the certificates. *)
Fixpoint last_two_loop (s : t) (round : Round) (acc : list Certificate.t)
    (l : list ((Round * AuthorityIdentifier) * Digest)) : outcome Digest (list Certificate.t) :=
  match l with
  | [] => Ok acc
  | x :: l' =>
      let certificate_round := x.1.1 in
      let round' := if round =? 0 then certificate_round else round in
      if negb (round =? 0) && (certificate_round <? round - 1) then Ok acc
      else
        certificate ← ok_or (read s x.2) x.2;
        last_two_loop s round' (acc ++ [certificate]) l'
  end.

Definition last_two_rounds_certs (s : t) : outcome Digest (list Certificate.t) :=
  last_two_loop s 0 [] (MemTable.reverse_iter (digest_by_round s)).

Definition last_round (s : t) (origin : AuthorityIdentifier) : option Certificate.t :=
  match MemTable.record_prior_to (digest_by_origin s) (origin, round_max) with
  | Some ((name, _), digest) => if name =? origin then read s digest else None
  | None => None
  end.

Definition highest_round_number (s : t) : Round :=
  match head (MemTable.reverse_iter (digest_by_round s)) with
  | Some ((round, _), _) => round
  | None => 0
  end.

Definition last_round_number (s : t) (origin : AuthorityIdentifier) : option Round :=
  match MemTable.record_prior_to (digest_by_origin s) (origin, round_max) with
  | Some ((name, round), _) => if name =? origin then Some round else None
  | None => None
  end.

Definition next_round_number (s : t) (origin : AuthorityIdentifier) (round : Round) : option Round :=
  match head (MemTable.skip_to (digest_by_origin s) (origin, (round + 1) mod u32_modulus)) with
  | Some ((name, round), _) => if name =? origin then Some round else None
  | None => None
  end.

Definition clear (s : t) : t := mk ∅ ∅ ∅ (notified s).

Definition is_empty_certs (s : t) : bool := MemTable.is_empty (certificates s).

End store.
End CertificateStore.

(** * The other stores *)

Module VoteDigestStore.
Notation t := (gmap AuthorityIdentifier VoteInfo.t) (only parsing).

(** The vote is filed under the author of the header voted for. *)
Definition write_vote (s : t) (vote : Vote.t) : t :=
  MemTable.insert s (Vote.origin vote) (VoteInfo.from_vote vote).

Definition read_vote_info (s : t) (header_author : AuthorityIdentifier) : option VoteInfo.t :=
  MemTable.get s header_author.
End VoteDigestStore.

Module ProposerStore.
Notation t := (gmap N Header.t) (only parsing).

Definition LAST_PROPOSAL_KEY : N := 0.

Definition write_last_proposed (s : t) (header : Header.t) : t := MemTable.insert s LAST_PROPOSAL_KEY header.

Definition get_last_proposed (s : t) : option Header.t := MemTable.get s LAST_PROPOSAL_KEY.
End ProposerStore.

Module PayloadStore.
Notation t := (gmap (N * WorkerId) N) (only parsing).

Definition write_payload (s : t) (digest : N) (worker_id : WorkerId) : t := MemTable.insert s (digest, worker_id) 0.

Definition contains_payload (s : t) (digest : N) (worker_id : WorkerId) : bool :=
  MemTable.contains_key s (digest, worker_id).
End PayloadStore.

(** * Facts *)

Module CertStoreFacts.
Import CertificateStore.

(** Deleting a list of keys. *)
Lemma foldl_delete_lookup {K V A} `{Countable K} (f : A -> K) (l : list A) (m : gmap K V) k :
  foldl (fun m x => base.delete (f x) m) m l !! k = if decide (k ∈ f <$> l) then None else m !! k.
Proof.
  revert m. induction l as [|x l IH]; intros m; [by rewrite decide_False by apply not_elem_of_nil|].
  cbn [foldl]. rewrite IH. destruct (decide (k ∈ f <$> l)); [by rewrite decide_True by set_solver|].
  destruct (decide (k = f x)) as [->|].
  - rewrite lookup_delete_eq, decide_True by set_solver. done.
  - rewrite lookup_delete_ne, decide_False by set_solver. done.
Qed.

Lemma take_below_filter (target : Round) (m : gmap (Round * AuthorityIdentifier) Digest) :
  take_below target (btree_iter m) = filter (fun x => x.1.1 < target) (btree_iter m).
Proof.
  pose proof (btree_iter_sorted m) as Hs. induction Hs as [|x l Hs IH Hx]; simpl; [done|].
  rewrite Forall_forall in Hx. destruct (N.ltb_spec x.1.1 target).
  - rewrite filter_cons_True by done. by rewrite IH.
  - symmetry. apply elem_of_nil_inv. intros y [Hy Hin]%list_elem_of_filter.
    apply elem_of_cons in Hin as [->|Hin]; [lia|]. specialize (Hx y Hin). simpl in Hx. unfold pair_leb in Hx. lia.
Qed.

Lemma some_fmap_cons {A B} (f : A -> option B) x y l k :
  f x = Some y -> Some <$> k = f <$> l -> Some <$> (y :: k) = f <$> (x :: l).
Proof. intros Hx Hl. by rewrite !fmap_cons, Hx, Hl. Qed.

Section facts.
Context `{Crypto}.
Implicit Types (s : t).

(** A certificate that carries the digest of its header. *)
Definition valid (c : Certificate.t) : Prop := HeaderOps.hash_digest (Certificate.header c) = Certificate.digest c.

(** The two indexes agree, and lead to the certificate they name. *)
Record store_wf s : Prop := {
  sw_agree r o : digest_by_round s !! (r, o) = digest_by_origin s !! (o, r);
  sw_index r o d : digest_by_round s !! (r, o) = Some d ->
    exists c, certificates s !! d = Some c /\ Certificate.round c = r /\ Certificate.origin c = o;
  sw_cert d c : certificates s !! d = Some c -> Certificate.digest c = d /\ valid c;
}.

(** Every certificate is found through the indexes: no author equivocated. *)
Definition indexed s : Prop :=
  forall d c, certificates s !! d = Some c -> digest_by_round s !! (Certificate.round c, Certificate.origin c) = Some d.

Lemma empty_wf : store_wf empty /\ indexed empty.
Proof. split; [constructor|]; unfold indexed; simpl; intros *; by rewrite ?lookup_empty. Qed.

Lemma valid_slot `{!CollisionFree} c c' :
  valid c -> valid c' -> Certificate.digest c = Certificate.digest c' ->
  Certificate.round c = Certificate.round c' /\ Certificate.origin c = Certificate.origin c'.
Proof.
  unfold valid. intros Hv Hv' Hd. rewrite <-Hv, <-Hv' in Hd. by apply header_hash_binds in Hd as (? & ? & _).
Qed.

Lemma save_cert_wf `{!CollisionFree} s c :
  store_wf s -> valid c -> store_wf (save_cert s (Certificate.digest c) c).
Proof.
  intros [Ha Hi Hc] Hv. unfold save_cert, MemTable.insert. constructor; simpl.
  - intros r o. destruct (decide (r = Certificate.round c /\ o = Certificate.origin c)) as [[-> ->]|Hne].
    + by rewrite !lookup_insert_eq.
    + rewrite !lookup_insert_ne by naive_solver. done.
  - intros r o d. destruct (decide ((r, o) = (Certificate.round c, Certificate.origin c))) as [Heq|Hne].
    + rewrite Heq, lookup_insert_eq. intros [= <-]. exists c. rewrite lookup_insert_eq. by simplify_eq.
    + rewrite lookup_insert_ne by done. intros (c' & Hc' & Hr & Ho)%Hi.
      destruct (decide (d = Certificate.digest c)) as [->|Hd]; [|exists c'; by rewrite lookup_insert_ne].
      destruct (Hc _ _ Hc') as [Hdc Hv']. destruct (valid_slot c' c) as [? ?]; [done..|]. congruence.
  - intros d c'. destruct (decide (d = Certificate.digest c)) as [->|Hd].
    + rewrite lookup_insert_eq. intros [= <-]. done.
    + rewrite lookup_insert_ne by done. apply Hc.
Qed.

Lemma save_cert_indexed `{!CollisionFree} s c :
  store_wf s -> indexed s -> valid c ->
  (forall d, digest_by_round s !! (Certificate.round c, Certificate.origin c) = Some d -> d = Certificate.digest c) ->
  indexed (save_cert s (Certificate.digest c) c).
Proof.
  intros Hs Hx Hv Hne d c'. unfold save_cert, MemTable.insert. simpl.
  destruct (decide (d = Certificate.digest c)) as [->|Hd].
  - rewrite lookup_insert_eq. intros [= <-]. by rewrite lookup_insert_eq.
  - rewrite lookup_insert_ne by done. intros Hc'. pose proof (Hx _ _ Hc') as Hi.
    rewrite lookup_insert_ne; [done|]. intros [= Hr Ho]. rewrite <-Hr, <-Ho in Hi. by apply Hne in Hi.
Qed.

(** What garbage collection leaves. *)
Lemma gc_rounds_spec s target (t' := target - ROUNDS_TO_KEEP) :
  store_wf s ->
  (forall r o, digest_by_round (gc_rounds s target) !! (r, o) =
     if decide (r < t') then None else digest_by_round s !! (r, o)) /\
  (forall r o, digest_by_origin (gc_rounds s target) !! (o, r) =
     if decide (r < t') then None else digest_by_origin s !! (o, r)) /\
  (forall d c, certificates (gc_rounds s target) !! d = Some c <->
     certificates s !! d = Some c /\
     ~ (digest_by_round s !! (Certificate.round c, Certificate.origin c) = Some d /\ Certificate.round c < t')) /\
  notified (gc_rounds s target) = notified s.
Proof.
  intros Hs. unfold gc_rounds. destruct (N.leb_spec target ROUNDS_TO_KEEP) as [Hle|Hgt].
  { assert (t' = 0) as -> by (unfold t'; lia).
    split_and!; [intros r o; by rewrite decide_False by lia..| |done].
    intros d c. split; [intros Hc; split; [done|lia]|by intros [? _]]. }
  fold t'. set (l := take_below t' _).
  assert (forall r o d, ((r, o), d) ∈ l <-> digest_by_round s !! (r, o) = Some d /\ r < t') as Hl.
  { intros r o d. unfold l, MemTable.iter. rewrite take_below_filter, list_elem_of_filter, elem_of_btree_iter.
    simpl. naive_solver. }
  assert (forall s0, digest_by_round (foldl gc_remove s0 l) = foldl (fun m x => base.delete (fst x) m) (digest_by_round s0) l /\
    digest_by_origin (foldl gc_remove s0 l) = foldl (fun m x => base.delete (x.1.2, x.1.1) m) (digest_by_origin s0) l /\
    certificates (foldl gc_remove s0 l) = foldl (fun m x => base.delete (snd x) m) (certificates s0) l /\
    notified (foldl gc_remove s0 l) = notified s0) as Hf.
  { clear Hl. induction l as [|x l IH]; intros s0; [done|]. cbn [foldl]. by destruct (IH (gc_remove s0 x)) as (-> & -> & -> & ->). }
  destruct (Hf s) as (-> & -> & -> & ->). split_and!; [| | |done].
  - intros r o. rewrite foldl_delete_lookup. destruct (decide ((r, o) ∈ l.*1)) as [Hin|Hni].
    + apply list_elem_of_fmap in Hin as ([[r' o'] d] & Heq & Hin). simplify_eq/=. apply Hl in Hin as [_ ?].
      by rewrite decide_True.
    + case_decide; [|done]. destruct (digest_by_round s !! (r, o)) as [d|] eqn:Hd; [|done]. destruct Hni.
      apply list_elem_of_fmap. exists ((r, o), d). split; [done|by apply Hl].
  - intros r o. rewrite foldl_delete_lookup. rewrite <-(sw_agree _ Hs).
    destruct (decide ((o, r) ∈ (fun x => (x.1.2, x.1.1)) <$> l)) as [Hin|Hni].
    + apply list_elem_of_fmap in Hin as ([[r' o'] d] & Heq & Hin). simplify_eq/=. apply Hl in Hin as [_ ?].
      by rewrite decide_True.
    + case_decide; [|done]. destruct (digest_by_round s !! (r, o)) as [d|] eqn:Hd; [|done]. destruct Hni.
      apply list_elem_of_fmap. exists ((r, o), d). split; [done|by apply Hl].
  - intros d c. rewrite foldl_delete_lookup. destruct (decide (d ∈ l.*2)) as [Hin|Hni].
    + split; [done|]. intros [Hc Hn]. destruct Hn.
      apply list_elem_of_fmap in Hin as ([[r o] d'] & Heq & Hin). simplify_eq/=. apply Hl in Hin as [Hd Hlt].
      destruct (sw_index _ Hs _ _ _ Hd) as (c' & Hc' & <- & <-). simplify_eq. done.
    + split; [|by intros [? _]]. intros Hc. split; [done|]. intros [Hd Hlt]. destruct Hni.
      apply list_elem_of_fmap. eexists. split; [|apply Hl; split; [exact Hd|exact Hlt]]. done.
Qed.

Lemma gc_rounds_wf s target : store_wf s -> store_wf (gc_rounds s target) /\ (indexed s -> indexed (gc_rounds s target)).
Proof.
  intros Hs. destruct (gc_rounds_spec s target Hs) as (Hr & Ho & Hc & _). split.
  - constructor.
    + intros r o. rewrite Hr, Ho. by rewrite (sw_agree _ Hs).
    + intros r o d. rewrite Hr. case_decide as Hd; [done|]. intros Hi.
      destruct (sw_index _ Hs _ _ _ Hi) as (c & Hcd & <- & <-). exists c. split; [|done].
      apply Hc. split; [done|]. intros [_ ?]. lia.
    + intros d c [Hcd _]%Hc. by apply (sw_cert _ Hs).
  - intros Hx d c [Hcd Hn]%Hc. rewrite Hr. pose proof (Hx _ _ Hcd). case_decide; [|done]. by destruct Hn.
Qed.

(** ** Writing *)

(** The loop of [write_all] saves every certificate and finds the highest round. *)
Definition save_all s (cs : list Certificate.t) : t :=
  foldl (fun s c => save_cert s (Certificate.digest c) c) s cs.

Definition max_round (cs : list Certificate.t) : Round := foldr N.max 0 (Certificate.round <$> cs).

Lemma write_all_save s cs : write_all s cs = gc_rounds (save_all s cs) (max_round cs).
Proof.
  unfold write_all, save_all, max_round.
  assert (forall s0 r, foldl (fun acc c => (save_cert acc.1 (Certificate.digest c) c, N.max acc.2 (Certificate.round c)))
    (s0, r) cs = (foldl (fun s c => save_cert s (Certificate.digest c) c) s0 cs,
                  N.max r (foldr N.max 0 (Certificate.round <$> cs)))) as Hf.
  { induction cs as [|c cs IH]; intros s0 r; simpl; [by rewrite N.max_0_r|].
    by rewrite IH, N.max_assoc. }
  by rewrite Hf, N.max_0_l.
Qed.

Lemma save_all_wf `{!CollisionFree} s cs :
  store_wf s -> Forall valid cs -> store_wf (save_all s cs).
Proof.
  intros Hs Hcs. revert s Hs. induction Hcs as [|c cs Hc _ IH]; intros s Hs; [done|].
  unfold save_all. cbn [foldl]. by apply IH, save_cert_wf.
Qed.

Lemma save_all_lookup s cs d :
  certificates (save_all s cs) !! d = 
    match last (filter (fun c => Certificate.digest c = d) cs) with
    | Some c => Some c
    | None => certificates s !! d
    end.
Proof.
  unfold save_all. induction cs as [|c cs IH] using rev_ind; [done|].
  rewrite foldl_app, filter_app. cbn [foldl save_cert certificates]. unfold MemTable.insert.
  destruct (decide (Certificate.digest c = d)) as [<-|Hd].
  - rewrite lookup_insert_eq, (filter_cons_True _ c []), filter_nil by done. by rewrite last_snoc.
  - rewrite lookup_insert_ne, (filter_cons_False _ c []), filter_nil by done. rewrite app_nil_r. apply IH.
Qed.

Lemma save_all_nodup s cs c :
  NoDup (Certificate.digest <$> cs) -> c ∈ cs -> certificates (save_all s cs) !! Certificate.digest c = Some c.
Proof.
  intros Hnd Hc. rewrite save_all_lookup.
  destruct (last _) as [c'|] eqn:Hl.
  - apply last_Some_elem_of, list_elem_of_filter in Hl as [Hd Hc'].
    apply list_elem_of_lookup in Hc as [i Hi]. apply list_elem_of_lookup in Hc' as [j Hj].
    assert (i = j) as ->; [|congruence].
    eapply (NoDup_lookup _ _ _ _ Hnd); rewrite list_lookup_fmap; [by rewrite Hi|by rewrite Hj; simpl; rewrite Hd].
  - apply last_None in Hl. assert (c ∈ filter (fun c' => Certificate.digest c' = Certificate.digest c) cs) as Hin.
    { by apply list_elem_of_filter. }
    rewrite Hl in Hin. by apply elem_of_nil in Hin.
Qed.

(** ** Reading by round *)

Context (default_id : AuthorityIdentifier).

Lemma rows_from_filter s round :
  filter (fun x => round <= x.1.1) (rows_from default_id s round) =
    filter (fun x => round <= x.1.1) (btree_iter (digest_by_round s)).
Proof.
  unfold rows_from. destruct (N.ltb_spec 0 round); [|done].
  rewrite TableFacts.skip_to_spec, list_filter_filter. apply filter_ext_elem.
  intros [[r o] d] _. simpl. unfold pair_leb. simpl. split; [by intros [? _]|]. intros Hr. split; [done|lia].
Qed.

Lemma after_round_spec s round :
  store_wf s ->
  exists certs, after_round default_id s round = Ok certs /\
    Some <$> certs = (fun x => certificates s !! x.2) <$> filter (fun x => round <= x.1.1) (btree_iter (digest_by_round s)).
Proof.
  intros Hs. unfold after_round. rewrite <-rows_from_filter.
  assert (forall x, x ∈ rows_from default_id s round -> is_Some (certificates s !! x.2)) as Hread.
  { intros [[r o] d] Hx.
    assert (digest_by_round s !! (r, o) = Some d) as Hi.
    { unfold rows_from in Hx. destruct (0 <? round); [|by apply elem_of_btree_iter].
      rewrite TableFacts.skip_to_spec in Hx. apply list_elem_of_filter in Hx as [_ Hx]. by apply elem_of_btree_iter. }
    destruct (sw_index _ Hs _ _ _ Hi) as (c & Hc & _). by eauto. }
  revert Hread. generalize (rows_from default_id s round) as l. intros l Hread.
  assert (forall acc, exists certs, foldM (fun certs x => if round <=? x.1.1
      then cert ← ok_or (read s x.2) x.2; Ok (certs ++ [cert]) else Ok certs) acc l = Ok (acc ++ certs) /\
    Some <$> certs = (fun x => certificates s !! x.2) <$> filter (fun x => round <= x.1.1) l) as Hf.
  { induction l as [|x l IH]; intros acc; [exists []; by rewrite app_nil_r|]. cbn [foldM].
    destruct (N.leb_spec round x.1.1).
    - destruct (Hread x) as [c Hc]; [set_solver|]. unfold read, MemTable.get. rewrite Hc. simpl.
      destruct (IH ltac:(intros; apply Hread; set_solver) (acc ++ [c])) as (certs & Hok & Hcs).
      exists (c :: certs). rewrite filter_cons_True by done. rewrite (cons_middle c acc certs), app_assoc.
      split; [exact Hok|]. by apply some_fmap_cons.
    - simpl. destruct (IH ltac:(intros; apply Hread; set_solver) acc) as (certs & Hok & Hcs).
      exists certs. rewrite filter_cons_False by lia. done. }
  destruct (Hf []) as (certs & Hok & Hcs). exists certs. done.
Qed.

(** ** The last two rounds *)

Lemma last_two_above s h l acc :
  0 < h -> StronglySorted (fun x y : (Round * AuthorityIdentifier) * Digest => y.1.1 <= x.1.1) l ->
  (forall x, x ∈ l -> is_Some (certificates s !! x.2)) ->
  exists certs, last_two_loop s h acc l = Ok (acc ++ certs) /\
    Some <$> certs = (fun x => certificates s !! x.2) <$> filter (fun x => h - 1 <= x.1.1) l.
Proof.
  intros Hh Hs. revert acc. induction Hs as [|x l Hs IH Hx]; intros acc Hread; simpl.
  { exists []. by rewrite app_nil_r. }
  rewrite Forall_forall in Hx. destruct (N.eqb_spec h 0) as [|_]; [lia|]. simpl.
  destruct (N.ltb_spec x.1.1 (h - 1)).
  - exists []. rewrite app_nil_r. split; [done|]. symmetry. rewrite filter_cons_False by lia.
    assert (filter (fun x0 : (Round * AuthorityIdentifier) * Digest => h - 1 <= x0.1.1) l = []) as ->; [|done].
    apply elem_of_nil_inv. intros y [Hy Hin]%list_elem_of_filter. specialize (Hx y Hin). simpl in Hx. lia.
  - destruct (Hread x) as [c Hc]; [set_solver|]. unfold read at 1, MemTable.get. rewrite Hc. simpl.
    destruct (IH (acc ++ [c])) as (certs & Hok & Hcs); [intros; apply Hread; set_solver|].
    exists (c :: certs). rewrite filter_cons_True by done. rewrite (cons_middle c acc certs), app_assoc.
    split; [exact Hok|]. by apply some_fmap_cons.
Qed.

Lemma last_two_zero s l acc :
  (forall x, x ∈ l -> x.1.1 = 0 /\ is_Some (certificates s !! x.2)) ->
  exists certs, last_two_loop s 0 acc l = Ok (acc ++ certs) /\
    Some <$> certs = (fun x => certificates s !! x.2) <$> l.
Proof.
  revert acc. induction l as [|x l IH]; intros acc Hl; [exists []; by rewrite app_nil_r|].
  destruct (Hl x) as [Hx [c Hc]]; [set_solver|].
  assert (last_two_loop s 0 acc (x :: l) = last_two_loop s 0 (acc ++ [c]) l) as ->.
  { simpl. unfold read at 1, MemTable.get. by rewrite Hc, Hx. }
  destruct (IH (acc ++ [c])) as (certs & Hok & Hcs); [intros; apply Hl; set_solver|].
  exists (c :: certs). rewrite (cons_middle c acc certs), app_assoc. split; [exact Hok|]. by apply some_fmap_cons.
Qed.

Lemma last_two_rounds_spec s :
  store_wf s ->
  exists certs, last_two_rounds_certs s = Ok certs /\
    Some <$> certs = (fun x => certificates s !! x.2) <$>
      filter (fun x => highest_round_number s - 1 <= x.1.1) (rev (btree_iter (digest_by_round s))) /\
  forall x, x ∈ btree_iter (digest_by_round s) -> x.1.1 <= highest_round_number s.
Proof.
  intros Hs. unfold last_two_rounds_certs, highest_round_number, MemTable.reverse_iter.
  assert (StronglySorted (fun x y : (Round * AuthorityIdentifier) * Digest => y.1.1 <= x.1.1)
    (rev (btree_iter (digest_by_round s)))) as Hsort.
  { pose proof (StronglySorted_rev _ _ (btree_iter_sorted (digest_by_round s))) as Hr.
    clear -Hr. induction Hr as [|x l _ IH Hx]; constructor; [done|]. rewrite Forall_forall in *.
    intros y Hy. specialize (Hx y Hy). simpl in Hx. unfold pair_leb in Hx. lia. }
  assert (forall x, x ∈ rev (btree_iter (digest_by_round s)) <-> x ∈ btree_iter (digest_by_round s)) as Hrev.
  { intros x. by rewrite !list_elem_of_In, <-in_rev. }
  assert (forall x, x ∈ rev (btree_iter (digest_by_round s)) -> is_Some (certificates s !! x.2)) as Hread.
  { intros [[r o] d] Hi%Hrev%elem_of_btree_iter. destruct (sw_index _ Hs _ _ _ Hi) as (c & Hc & _). by eauto. }
  setoid_rewrite <-Hrev. destruct (rev _) as [|x l] eqn:Hl; [exists []; split_and!; [done..|by intros ? ?%elem_of_nil]|].
  assert (forall y, y ∈ x :: l -> y.1.1 <= x.1.1) as Hmax.
  { intros y [->|Hy]%elem_of_cons; [done|]. inversion Hsort as [|? ? _ Hx]; subst. rewrite Forall_forall in Hx. by apply Hx. }
  destruct x as [[h o] d]. cbn [head]. simpl in Hmax.
  destruct (decide (h = 0)) as [->|Hh].
  - destruct (last_two_zero s (((0, o), d) :: l) []) as (certs & Hok & Hcs).
    { intros y Hy. split; [specialize (Hmax y Hy); lia|by apply Hread]. }
    exists certs. split_and!; [done| |done]. by rewrite filter_all by (intros; lia).
  - inversion Hsort as [|? ? Hsort' _]; subst. destruct (Hread ((h, o), d)) as [c Hc]; [set_solver|].
    destruct (last_two_above s h l [c]) as (certs & Hok & Hcs); [lia|done|intros; apply Hread; set_solver|].
    exists (c :: certs). split_and!; [|rewrite filter_cons_True by (simpl; lia); by apply some_fmap_cons|done].
    simpl in *. unfold read, MemTable.get. rewrite Hc. exact Hok.
Qed.

End facts.
End CertStoreFacts.
