(* ===== verification/PendingCerts.v ===== *)
(** Certificates that wait for their parents.
    Models crates/consensus/primary/src/state_sync/pending_cert_manager.rs and the
    errors of crates/consensus/primary/src/error/{cert_manager,gc}.rs.  A hash set is
    iterated in the order of [elements]. *)

From S2P Require Import Prelude Committee Certificate.

Inductive GarbageCollectorError :=
  | GcTNSend
  | GcConsensusRoundWatchChannel
  | GcTimeout.

Inductive CertManagerError :=
  | CertManagerCertificate (e : CertificateError)
  | GC (e : GarbageCollectorError)
  | UnverifiedSignature (digest : Digest)
  | CertManagerMissingParent (digest : Digest)
  | CertificateManagerOneshot
  | PendingCertificateNotFound (digest : Digest)
  | FatalAppendParent
  | FatalForwardAcceptedCertificate
  | JoinError
  | Pending (digest : Digest)
  | CertManagerStorage
  | PendingParentsMismatch (digest : Digest)
  | CertManagerTNSend
  | TooManyFetchedCertificatesReturned (response request : N)
  | NoCertificateFetched.

Module PendingCertificate.
Record t := mk {
  certificate : Certificate.t;
  missing_parent_digests : gset Digest;
}.

Definition is_ready (p : t) : bool := bool_decide (missing_parent_digests p = ∅).

Definition remove_parent (p : t) (parent_digest : Digest) : t :=
  mk (certificate p) (missing_parent_digests p ∖ {[parent_digest]}).
End PendingCertificate.

Module PendingCertificateManager.
Import PendingCertificate.

Record t := mk {
  pending : gmap Digest PendingCertificate.t;
  missing_for_pending : gmap (Round * Digest) (gset Digest);
}.

Definition new : t := mk ∅ ∅.

Section manager.
Context `{Crypto}.

(** [&mut self] is returned with the result. *)
Definition insert_pending (m : t) (certificate : Certificate.t) (missing_parents : gset Digest)
    : t * outcome CertManagerError unit :=
  let digest := Certificate.digest certificate in
  let parent_round := wrapping_sub32 (Certificate.round certificate) 1 in
  let existing := pending m !! digest in
  let pending' := <[digest := PendingCertificate.mk certificate missing_parents]> (pending m) in
  let mismatch :=
    match existing with
    | Some e => negb (bool_decide (missing_parent_digests e = missing_parents))
    | None => false
    end in
  if mismatch then (mk pending' (missing_for_pending m), Err (PendingParentsMismatch digest))
  else
    (mk pending'
       (foldl (fun mfp parent =>
            <[(parent_round, parent) := {[digest]} ∪ default ∅ (mfp !! (parent_round, parent))]> mfp)
          (missing_for_pending m) (elements missing_parents)),
     Ok ()).

(** The [for] loop of [update_pending] over the children of [next_digest]. *)
Fixpoint unlock_children (m : t) (next_digest : Digest) (pending_digests : list Digest)
    (certificates_to_process : list (Round * Digest)) (ready_certificates : list Certificate.t)
    : t * outcome CertManagerError (list (Round * Digest) * list Certificate.t) :=
  match pending_digests with
  | [] => (m, Ok (certificates_to_process, ready_certificates))
  | pending_digest :: rest =>
      match pending m !! pending_digest with
      | None => (m, Err (PendingCertificateNotFound pending_digest))
      | Some pending_cert =>
          let pending_cert := remove_parent pending_cert next_digest in
          if is_ready pending_cert then
            let ready := certificate pending_cert in
            unlock_children (mk (delete pending_digest (pending m)) (missing_for_pending m)) next_digest rest
              (certificates_to_process ++ [(Certificate.round ready, pending_digest)])
              (ready_certificates ++ [ready])
          else
            unlock_children (mk (<[pending_digest := pending_cert]> (pending m)) (missing_for_pending m))
              next_digest rest certificates_to_process ready_certificates
      end
  end.

(** [while let Some(..) = certificates_to_process.pop_front()] *)
Fixpoint update_loop (fuel : nat) (m : t) (certificates_to_process : list (Round * Digest))
    (ready_certificates : list Certificate.t) : t * outcome CertManagerError (list Certificate.t) :=
  match certificates_to_process with
  | [] => (m, Ok ready_certificates)
  | (next_round, next_digest) :: queue =>
      match fuel with
      | O => (m, OutOfFuel)
      | S fuel' =>
          match missing_for_pending m !! (next_round, next_digest) with
          | None => update_loop fuel' m queue ready_certificates
          | Some pending_digests =>
              let m := mk (pending m) (delete (next_round, next_digest) (missing_for_pending m)) in
              match unlock_children m next_digest (elements pending_digests) queue ready_certificates with
              | (m, Ok (queue, ready)) => update_loop fuel' m queue ready
              | (m, Err e) => (m, Err e)
              | (m, Panic) => (m, Panic)
              | (m, OutOfFuel) => (m, OutOfFuel)
              end
          end
      end
  end.

(** Each certificate is queued at most once, so the queue sees at most one entry more
    than there are pending certificates. *)
Definition update_pending (m : t) (round : Round) (digest : Digest)
    : t * outcome CertManagerError (list Certificate.t) :=
  update_loop (S (size (pending m))) m [(round, digest)] [].

Definition next_for_gc_round (m : t) (gc_round : Round) : t * option (Round * Digest) :=
  match first_key_value (missing_for_pending m) with
  | None => (m, None)
  | Some ((round, digest), _) =>
      if gc_round <? round then (m, None)
      else
        let pending' :=
          match pending m !! digest with
          | Some p => <[digest := PendingCertificate.mk (certificate p) ∅]> (pending m)
          | None => pending m
          end in
        (mk pending' (missing_for_pending m), Some (round, digest))
  end.

Definition is_pending (m : t) (digest : Digest) : bool := bool_decide (is_Some (pending m !! digest)).

Definition num_pending (m : t) : N := N.of_nat (size (pending m)).

Definition filter_unknown_digests (m : t) (unknown : list Digest) : list Digest :=
  filter (fun digest => is_pending m digest = false) unknown.

End manager.
End PendingCertificateManager.

(** * Facts *)

Module PendingFacts.
Import PendingCertificate PendingCertificateManager.
Section facts.
Context `{Crypto}.
Implicit Types (m : PendingCertificateManager.t) (p : PendingCertificate.t) (gone : list (Round * Digest)).

Definition pround p : Round := Certificate.round (certificate p).

(** Every pending certificate is filed under its digest and registered with each parent
    it misses, of which there is at least one; and nothing else is registered. *)
Record pending_wf m : Prop := {
  pw_digest c p : pending m !! c = Some p -> Certificate.digest (certificate p) = c;
  pw_missing c p : pending m !! c = Some p -> missing_parent_digests p <> ∅;
  pw_round c p : pending m !! c = Some p -> 1 <= pround p;
  pw_registered c p d : pending m !! c = Some p -> d ∈ missing_parent_digests p ->
    exists S, missing_for_pending m !! (pround p - 1, d) = Some S /\ c ∈ S;
  pw_children r d S c : missing_for_pending m !! (r, d) = Some S -> c ∈ S ->
    exists p, pending m !! c = Some p /\ d ∈ missing_parent_digests p /\ pround p = r + 1;
  pw_nonempty k S : missing_for_pending m !! k = Some S -> S <> ∅;
  pw_parents c p : pending m !! c = Some p -> missing_parent_digests p ⊆ Certificate.parents (certificate p);
}.

Lemma pending_new_wf : pending_wf new.
Proof. constructor; simpl; intros *; by rewrite lookup_empty. Qed.

(** What a pending certificate still misses once the certificates in [gone] are there. *)
Definition remaining gone p : gset Digest :=
  filter (fun q => (pround p - 1, q) ∉ gone) (missing_parent_digests p).

Definition pending_after gone m : gmap Digest PendingCertificate.t :=
  omap (fun p => if decide (remaining gone p = ∅) then None
                 else Some (PendingCertificate.mk (certificate p) (remaining gone p))) (pending m).

Definition state_after gone m : PendingCertificateManager.t :=
  PendingCertificateManager.mk (pending_after gone m) (filter (fun kv => kv.1 ∉ gone) (missing_for_pending m)).

Lemma pending_after_Some gone m c p' :
  pending_after gone m !! c = Some p' <->
  exists p, pending m !! c = Some p /\ remaining gone p <> ∅ /\
    p' = PendingCertificate.mk (certificate p) (remaining gone p).
Proof.
  unfold pending_after. rewrite lookup_omap, bind_Some. split.
  - intros (p & Hp & Hd). case_decide; simplify_eq. by eauto.
  - intros (p & Hp & Hd & ->). exists p. by rewrite decide_False.
Qed.

Lemma pending_after_None gone m c p :
  pending m !! c = Some p -> pending_after gone m !! c = None <-> remaining gone p = ∅.
Proof.
  intros Hp. unfold pending_after. rewrite lookup_omap, Hp. cbn [mbind option_bind].
  destruct (decide (remaining gone p = ∅)); split; done.
Qed.

Lemma remaining_ext gone gone' p :
  (forall q, (pround p - 1, q) ∈ gone <-> (pround p - 1, q) ∈ gone') -> remaining gone p = remaining gone' p.
Proof. intros Hg. unfold remaining. apply set_eq. intros q. rewrite !elem_of_filter, Hg. done. Qed.

Lemma state_after_wf gone m : pending_wf m -> pending_wf (state_after gone m).
Proof.
  intros [Hd Hm Hr Hreg Hch Hne Hpar]. constructor; simpl.
  - intros c p' (p & Hp & _ & ->)%pending_after_Some. exact (Hd c p Hp).
  - intros c p' (p & Hp & Hrem & ->)%pending_after_Some. done.
  - intros c p' (p & Hp & _ & ->)%pending_after_Some. exact (Hr c p Hp).
  - intros c p' d (p & Hp & _ & ->)%pending_after_Some. simpl. unfold remaining. intros [Hg Hd']%elem_of_filter.
    destruct (Hreg c p d Hp Hd') as (S & HS & Hc). exists S. split; [|done].
    apply map_lookup_filter_Some. done.
  - intros r d S c [HS Hg]%map_lookup_filter_Some Hc. simpl in Hg.
    destruct (Hch r d S c HS Hc) as (p & Hp & Hd' & Hrp).
    assert (d ∈ remaining gone p) as Hrem.
    { apply elem_of_filter. split; [|done]. by replace (pround p - 1) with r by lia. }
    exists (PendingCertificate.mk (certificate p) (remaining gone p)). split_and!; [|done|done].
    apply pending_after_Some. exists p. split_and!; [done|set_solver|done].
  - intros k S [HS _]%map_lookup_filter_Some. by eapply Hne.
  - intros c p' (p & Hp & _ & ->)%pending_after_Some. simpl. intros q [_ Hq]%elem_of_filter. by apply (Hpar c p Hp).
Qed.

Lemma state_after_nil m : pending_wf m -> state_after [] m = m.
Proof.
  intros Hwf. unfold state_after. destruct m as [pd mfp]. f_equal.
  - apply map_eq. intros c. unfold pending_after. simpl. rewrite lookup_omap.
    destruct (pd !! c) as [p|] eqn:Hp; simpl; [|done].
    assert (remaining [] p = missing_parent_digests p) as ->.
    { unfold remaining. apply set_eq. intros q. rewrite elem_of_filter. pose proof (not_elem_of_nil (pround p - 1, q)). naive_solver. }
    rewrite decide_False by (by eapply (pw_missing _ Hwf c p)). by destruct p.
  - simpl. apply map_filter_id. intros k S _. apply not_elem_of_nil.
Qed.

(** A parent nobody waits for changes nothing. *)
Lemma state_after_noop gone m k :
  pending_wf m -> missing_for_pending (state_after gone m) !! k = None ->
  state_after (gone ++ [k]) m = state_after gone m.
Proof.
  intros Hwf Hk. simpl in Hk.
  assert (k ∈ gone \/ missing_for_pending m !! k = None) as Hk'.
  { apply map_lookup_filter_None in Hk as [Hk|Hk]; [by right|]. destruct (decide (k ∈ gone)); [by left|].
    right. destruct (missing_for_pending m !! k) as [S|] eqn:HS; [|done]. by destruct (Hk S eq_refl). }
  assert (forall c p, pending m !! c = Some p -> remaining (gone ++ [k]) p = remaining gone p) as Hrem.
  { intros c p Hp. unfold remaining. apply set_eq. intros q. rewrite !elem_of_filter, elem_of_app.
    split; [naive_solver|]. intros [Hg Hq]. split; [|done]. intros [?|Heq%list_elem_of_singleton]; [done|].
    destruct Hk' as [Hk'|Hk']; [by subst k|].
    destruct (pw_registered _ Hwf c p q Hp Hq) as (S & HS & _). congruence. }
  unfold state_after. f_equal.
  - apply map_eq. intros c. unfold pending_after. rewrite !lookup_omap.
    destruct (pending m !! c) as [p|] eqn:Hp; simpl; [|done]. by rewrite (Hrem c p Hp).
  - apply map_eq. intros j. apply option_eq. intros S. rewrite !map_lookup_filter_Some. simpl.
    rewrite elem_of_app, list_elem_of_singleton. split; [naive_solver|]. intros [HS Hg]. split; [done|].
    intros [?| ->]; [done|]. destruct Hk' as [?|?]; [done|congruence].
Qed.

(** ** The loop over the children *)

Definition strip (d : Digest) p : option PendingCertificate.t :=
  if is_ready (remove_parent p d) then None else Some (remove_parent p d).

(** The certificates among [cs] that become ready. *)
Definition unlocked m (d : Digest) (cs : list Digest) : list (Digest * Certificate.t) :=
  omap (fun c => pending m !! c ≫= fun p => if is_ready (remove_parent p d) then Some (c, certificate p) else None) cs.

Lemma unlock_children_spec m d cs queue ready :
  NoDup cs -> (forall c, c ∈ cs -> is_Some (pending m !! c)) ->
  exists m', unlock_children m d cs queue ready =
      (m', Ok (queue ++ ((fun x => (Certificate.round x.2, x.1)) <$> unlocked m d cs), ready ++ (unlocked m d cs).*2)) /\
    missing_for_pending m' = missing_for_pending m /\
    (forall c, pending m' !! c = if decide (c ∈ cs) then pending m !! c ≫= strip d else pending m !! c) /\
    (size (pending m') + length (unlocked m d cs) = size (pending m))%nat.
Proof.
  revert m queue ready. induction cs as [|c cs IH]; intros m queue ready Hnd Hin.
  { exists m. split_and!; [simpl; by rewrite !app_nil_r|done| |simpl; lia].
    intros c. by rewrite decide_False by apply not_elem_of_nil. }
  apply NoDup_cons in Hnd as [Hc Hnd]. destruct (Hin c) as [p Hp]; [set_solver|].
  assert (Hext : forall m1, (forall j, j <> c -> pending m1 !! j = pending m !! j) -> unlocked m1 d cs = unlocked m d cs).
  { intros m1 Heq. unfold unlocked. apply list_omap_ext. apply Forall2_same_length_lookup_2; [done|].
    intros i x y Hx Hy. assert (x = y) as <- by congruence. rewrite Heq; [done|]. intros ->.
    by apply Hc; eapply list_elem_of_lookup_2. }
  assert (unlocked m d (c :: cs) = (if is_ready (remove_parent p d) then [(c, certificate p)] else []) ++ unlocked m d cs) as Hu.
  { unfold unlocked at 1. simpl. rewrite Hp. simpl. by destruct (is_ready _). }
  rewrite Hu. cbn [unlock_children]. rewrite Hp. destruct (is_ready (remove_parent p d)) eqn:Hr.
  - set (m1 := PendingCertificateManager.mk (delete c (pending m)) (missing_for_pending m)).
    assert (forall j, j <> c -> pending m1 !! j = pending m !! j) as Heq by (intros j ?; by apply lookup_delete_ne).
    destruct (IH m1 (queue ++ [(Certificate.round (certificate p), c)]) (ready ++ [certificate p]) Hnd)
      as (m' & Hrun & Hmf & Hpd & Hsz).
    { intros j Hj. rewrite Heq by (intros ->; done). apply Hin. set_solver. }
    rewrite (Hext m1 Heq) in Hrun, Hsz. exists m'. simpl. rewrite <-!app_assoc in Hrun. split_and!; [exact Hrun|done| |].
    + intros j. rewrite Hpd. destruct (decide (j = c)) as [->|Hj].
      * rewrite decide_False, decide_True by set_solver. unfold m1. simpl. rewrite lookup_delete_eq, Hp. simpl.
        unfold strip. by rewrite Hr.
      * rewrite Heq by done. destruct (decide (j ∈ cs)); [rewrite decide_True by set_solver|rewrite decide_False by set_solver]; done.
    + unfold m1 in Hsz. simpl in Hsz. rewrite map_size_delete_Some in Hsz by eauto. assert (size (pending m) <> 0)%nat by (apply map_size_ne_0_lookup; eauto). lia.
  - set (m1 := PendingCertificateManager.mk (<[c := remove_parent p d]> (pending m)) (missing_for_pending m)).
    assert (forall j, j <> c -> pending m1 !! j = pending m !! j) as Heq by (intros j ?; by apply lookup_insert_ne).
    destruct (IH m1 queue ready Hnd) as (m' & Hrun & Hmf & Hpd & Hsz).
    { intros j Hj. rewrite Heq by (intros ->; done). apply Hin. set_solver. }
    rewrite (Hext m1 Heq) in Hrun, Hsz. exists m'. simpl. split_and!; [exact Hrun|done| |].
    + intros j. rewrite Hpd. destruct (decide (j = c)) as [->|Hj].
      * rewrite decide_False, decide_True by set_solver. unfold m1. simpl. rewrite lookup_insert_eq, Hp. simpl.
        unfold strip. by rewrite Hr.
      * rewrite Heq by done. destruct (decide (j ∈ cs)); [rewrite decide_True by set_solver|rewrite decide_False by set_solver]; done.
    + unfold m1 in Hsz. simpl in Hsz. rewrite map_size_insert_Some in Hsz by eauto. lia.
Qed.

(** ** The cascade *)

Definition item (x : Certificate.t) : Round * Digest := (Certificate.round x, Certificate.digest x).

(** The state of the loop when the entries [gone] have been taken from the queue: the
    manager is the initial one without them, and the certificates that are ready are those
    that miss nothing else; each of them follows what it waited for. *)
Record cascade m0 (k : Round * Digest) gone (queue : list (Round * Digest)) (ready : list Certificate.t) : Prop := {
  cas_all : gone ++ queue = k :: (item <$> ready);
  cas_ready x : x ∈ ready <-> exists c p, pending m0 !! c = Some p /\ certificate p = x /\ remaining gone p = ∅;
  cas_nodup : NoDup (Certificate.digest <$> ready);
  cas_order i x : ready !! i = Some x ->
    exists c p, pending m0 !! c = Some p /\ certificate p = x /\
      remaining (k :: (item <$> take i ready)) p = ∅;
}.

Lemma remaining_mono gone gone' p :
  (forall j, j ∈ gone -> j ∈ gone') -> remaining gone p = ∅ -> remaining gone' p = ∅.
Proof.
  intros Hg He. apply elem_of_equiv_empty_L. intros q [Hq Hm]%elem_of_filter.
  assert (q ∈ remaining gone p) as Hin by (apply elem_of_filter; split; [|done]; by intros ?%Hg).
  by rewrite He in Hin.
Qed.

Lemma remaining_snoc gone r d p :
  remaining (gone ++ [(r, d)]) p =
    if decide (pround p - 1 = r) then remaining gone p ∖ {[d]} else remaining gone p.
Proof.
  unfold remaining. apply set_eq. intros q. case_decide as Hr.
  - rewrite elem_of_difference, !elem_of_filter, elem_of_app, elem_of_singleton, list_elem_of_singleton.
    subst r. naive_solver.
  - rewrite !elem_of_filter, elem_of_app, list_elem_of_singleton. naive_solver.
Qed.

(** One round of the loop with children: the manager loses the entry. *)
Lemma unlock_state_after m0 gone r d S m' :
  pending_wf m0 -> missing_for_pending (state_after gone m0) !! (r, d) = Some S ->
  missing_for_pending m' = delete (r, d) (missing_for_pending (state_after gone m0)) ->
  (forall c, pending m' !! c = if decide (c ∈ elements S) then pending (state_after gone m0) !! c ≫= strip d
                               else pending (state_after gone m0) !! c) ->
  m' = state_after (gone ++ [(r, d)]) m0.
Proof.
  intros Hwf HS Hmf Hpd. pose proof (state_after_wf gone m0 Hwf) as Hwf1.
  destruct m' as [pd mf]. unfold state_after. simpl in *. f_equal.
  - apply map_eq. intros c. rewrite Hpd. unfold pending_after. rewrite !lookup_omap.
    destruct (pending m0 !! c) as [p|] eqn:Hp; simpl; [|by case_decide]. rewrite remaining_snoc.
    set (rem := remaining gone p). case_decide as Hc.
    + apply elem_of_elements in Hc. destruct (pw_children _ Hwf1 r d S c HS Hc) as (p1 & Hp1 & Hd & Hr).
      simpl in Hp1. apply pending_after_Some in Hp1 as (p' & Hp' & Hne & ->). simplify_eq. unfold pround in Hr. simpl in Hr.
      rewrite (decide_False (P := rem = ∅)) by done. rewrite (decide_True (P := pround p - 1 = r)) by (unfold pround; lia). simpl.
      unfold strip, is_ready, remove_parent. simpl. fold rem. case_bool_decide; [by rewrite decide_True|by rewrite decide_False].
    + destruct (decide (pround p - 1 = r)) as [Hr|Hr]; [|done].
      destruct (decide (d ∈ rem)) as [Hd|Hd].
      * exfalso. apply Hc, elem_of_elements. assert (rem <> ∅) as Hne by set_solver.
        destruct (pw_registered _ Hwf1 c (PendingCertificate.mk (certificate p) rem) d) as (S' & HS' & Hc').
        -- simpl. apply pending_after_Some. by exists p.
        -- done.
        -- simpl in HS'. unfold pround at 1 in HS'. simpl in HS'. fold (pround p) in HS'. rewrite Hr in HS'. congruence.
      * by replace (rem ∖ {[d]}) with rem by set_solver.
  - rewrite Hmf. apply map_eq. intros j. apply option_eq. intros T.
    rewrite lookup_delete_Some, !map_lookup_filter_Some. simpl. rewrite elem_of_app, list_elem_of_singleton. naive_solver.
Qed.

(** The certificates that become ready in one round of the loop. *)
Lemma unlocked_spec m0 gone r d S :
  pending_wf m0 -> missing_for_pending (state_after gone m0) !! (r, d) = Some S ->
  let new := unlocked (PendingCertificateManager.mk (pending (state_after gone m0))
               (delete (r, d) (missing_for_pending (state_after gone m0)))) d (elements S) in
  (forall c x, (c, x) ∈ new <-> exists p, pending m0 !! c = Some p /\ certificate p = x /\
     remaining gone p <> ∅ /\ remaining (gone ++ [(r, d)]) p = ∅) /\ NoDup new.*1.
Proof.
  intros Hwf HS. pose proof (state_after_wf gone m0 Hwf) as Hwf1. cbv zeta. unfold unlocked. cbn [pending]. split.
  - intros c x. rewrite list_elem_of_omap. split.
    + intros (c' & Hc' & Hx). apply bind_Some in Hx as (p1 & Hp1 & Hx). apply elem_of_elements in Hc'.
      pose proof (pw_children _ Hwf1 r d S c' HS Hc') as (p2 & Hp2 & _ & Hr). rewrite Hp1 in Hp2. simplify_eq.
      pose proof Hp1 as (p & Hp & Hne & ->)%pending_after_Some. unfold is_ready, remove_parent in Hx. simpl in Hx.
      case_bool_decide as He; simplify_eq. exists p. split_and!; [done|done|done|]. rewrite remaining_snoc.
      rewrite decide_True; [done|]. unfold pround in *. simpl in Hr. lia.
    + intros (p & Hp & <- & Hne & He). rewrite remaining_snoc in He. case_decide as Hr; [|done].
      assert (pending (state_after gone m0) !! c = Some (PendingCertificate.mk (certificate p) (remaining gone p))) as Hp1.
      { apply pending_after_Some. by exists p. }
      assert (d ∈ remaining gone p) as Hd by (destruct (decide (d ∈ remaining gone p)); [done|set_solver]).
      destruct (pw_registered _ Hwf1 c _ d Hp1 Hd) as (S' & HS' & Hc').
      unfold pround at 1 in HS'. simpl in HS'. fold (pround p) in HS'. rewrite Hr in HS'.
      assert (S' = S) as -> by (simpl in HS; congruence). exists c. split; [by apply elem_of_elements|].
      rewrite Hp1. simpl. unfold is_ready, remove_parent. simpl. by rewrite bool_decide_true.
  - eapply (sublist_NoDup _ (elements S)); [apply NoDup_elements|].
    generalize (elements S) as cs. intros cs. induction cs as [|c cs IH]; [done|]. simpl.
    destruct (pending_after gone m0 !! c) as [p|]; simpl; [|by apply sublist_cons].
    destruct (is_ready _); simpl; [by apply sublist_skip|by apply sublist_cons].
Qed.

Lemma cascade_none m0 k gone j queue ready :
  pending_wf m0 -> missing_for_pending (state_after gone m0) !! j = None ->
  cascade m0 k gone (j :: queue) ready -> cascade m0 k (gone ++ [j]) queue ready.
Proof.
  intros Hwf Hj [Hall Hrd Hnd Hord]. constructor; [by rewrite <-app_assoc| |done|done].
  intros x. rewrite Hrd. pose proof (state_after_noop gone m0 j Hwf Hj) as Heq. injection Heq as Heq _.
  split; intros (c & p & Hp & Hx & He); exists c, p; (split_and!; [done|done|]);
    apply (pending_after_None _ _ _ _ Hp) in He; apply (pending_after_None _ _ _ _ Hp); congruence.
Qed.

Lemma cascade_some m0 k gone r d S queue ready :
  pending_wf m0 -> missing_for_pending (state_after gone m0) !! (r, d) = Some S ->
  cascade m0 k gone ((r, d) :: queue) ready ->
  let new := unlocked (PendingCertificateManager.mk (pending (state_after gone m0))
               (delete (r, d) (missing_for_pending (state_after gone m0)))) d (elements S) in
  cascade m0 k (gone ++ [(r, d)]) (queue ++ ((fun x => (Certificate.round x.2, x.1)) <$> new)) (ready ++ new.*2).
Proof.
  intros Hwf HS [Hall Hrd Hnd Hord] new. destruct (unlocked_spec m0 gone r d S Hwf HS) as [Hnew Hnnd]. fold new in Hnew, Hnnd.
  assert (Hdig : forall c x, (c, x) ∈ new -> Certificate.digest x = c).
  { intros c x (p & Hp & <- & _)%Hnew. by apply (pw_digest _ Hwf) in Hp. }
  assert ((fun x => (Certificate.round x.2, x.1)) <$> new = item <$> new.*2) as Hit.
  { rewrite <-list_fmap_compose. apply list_fmap_ext. intros i [c x] Hx%list_elem_of_lookup_2.
    unfold compose, item. simpl. by rewrite (Hdig c x Hx). }
  assert (Certificate.digest <$> new.*2 = new.*1) as Hdn.
  { rewrite <-list_fmap_compose. apply list_fmap_ext. intros i [c x] Hx%list_elem_of_lookup_2. by apply (Hdig c x). }
  constructor.
  - rewrite Hit, fmap_app, app_comm_cons, <-Hall, <-!app_assoc. done.
  - intros x. rewrite elem_of_app, Hrd, list_elem_of_fmap. split.
    + intros [(c & p & Hp & Hx & He)|([c x'] & -> & Hin)].
      * exists c, p. split_and!; [done|done|]. eapply remaining_mono; [|exact He]. set_solver.
      * apply Hnew in Hin as (p & Hp & Hx & _ & He). simpl. by exists c, p.
    + intros (c & p & Hp & Hx & He). destruct (decide (remaining gone p = ∅)) as [He'|Hne]; [left; by exists c, p|right].
      exists (c, x). split; [done|]. apply Hnew. by exists p.
  - rewrite fmap_app, Hdn. apply NoDup_app. split_and!; [done| |done].
    intros dg (x & -> & (c & p & Hp & <- & He)%Hrd)%list_elem_of_fmap ([c' x'] & Hc & Hin)%list_elem_of_fmap.
    apply Hnew in Hin as (p' & Hp' & _ & Hne & _). simpl in Hc. rewrite (pw_digest _ Hwf _ _ Hp) in Hc. subst c'. congruence.
  - intros i x Hi. apply lookup_app_Some in Hi as [Hi|[Hge Hi]].
    + destruct (Hord i x Hi) as (c & p & Hp & Hx & He). exists c, p. split_and!; [done|done|].
      rewrite take_app_le; [done|]. apply lookup_lt_Some in Hi. lia.
    + apply list_elem_of_lookup_2, list_elem_of_fmap in Hi as ([c x'] & -> & Hin).
      apply Hnew in Hin as (p & Hp & Hx & _ & He). exists c, p. split_and!; [done|done|].
      eapply remaining_mono; [|exact He]. intros j Hj. rewrite take_app_ge by lia.
      assert (j ∈ k :: (item <$> ready)) as Hj' by (rewrite <-Hall; set_solver).
      rewrite fmap_app. set_solver.
Qed.

Lemma update_loop_spec fuel m0 k gone queue ready :
  pending_wf m0 -> cascade m0 k gone queue ready ->
  (length queue + size (pending (state_after gone m0)) <= fuel)%nat ->
  exists gone' ready', update_loop fuel (state_after gone m0) queue ready = (state_after gone' m0, Ok ready') /\
    cascade m0 k gone' [] ready'.
Proof.
  intros Hwf. revert gone queue ready. induction fuel as [|fuel IH]; intros gone queue ready Hc Hf.
  { destruct queue as [|[r d] queue]; [|simpl in Hf; lia]. by exists gone, ready. }
  destruct queue as [|[r d] queue]; [by exists gone, ready|]. cbn [update_loop].
  destruct (missing_for_pending (state_after gone m0) !! (r, d)) as [S|] eqn:HS.
  - set (m1 := PendingCertificateManager.mk (pending (state_after gone m0)) (delete (r, d) (missing_for_pending (state_after gone m0)))).
    destruct (unlock_children_spec m1 d (elements S) queue ready) as (m' & Hu & Hmf & Hpd & Hsz).
    { apply NoDup_elements. }
    { intros c Hin%elem_of_elements. destruct (pw_children _ (state_after_wf gone m0 Hwf) r d S c HS Hin) as (p & Hp & _).
      by exists p. }
    rewrite Hu. pose proof (unlock_state_after m0 gone r d S m' Hwf HS Hmf Hpd) as ->.
    apply IH; [by apply cascade_some|]. rewrite length_app, length_fmap. cbn [length] in Hf.
    change (pending m1) with (pending (state_after gone m0)) in Hsz. lia.
  - pose proof (cascade_none _ _ _ _ _ _ Hwf HS Hc) as Hc'.
    rewrite <-(state_after_noop gone m0 (r, d) Hwf HS). apply IH; [done|].
    rewrite (state_after_noop gone m0 (r, d) Hwf HS). cbn [length] in Hf. lia.
Qed.

Lemma update_pending_spec m r d :
  pending_wf m ->
  exists ready, let gone := (r, d) :: (item <$> ready) in
    update_pending m r d = (state_after gone m, Ok ready) /\ cascade m (r, d) gone [] ready.
Proof.
  intros Hwf. unfold update_pending.
  destruct (update_loop_spec (S (size (pending m))) m (r, d) [] [(r, d)] []) as (gone & ready & Hu & Hc).
  - done.
  - constructor; [done| |constructor|done]. intros x. split; [by intros ?%elem_of_nil|].
    intros (c & p & Hp & _ & He). exfalso. apply (pw_missing _ Hwf c p Hp). rewrite <-He.
    unfold remaining. apply set_eq. intros q. rewrite elem_of_filter. pose proof (not_elem_of_nil (pround p - 1, q)). naive_solver.
  - rewrite state_after_nil by done. simpl. lia.
  - exists ready. pose proof (cas_all _ _ _ _ _ Hc) as Hall. rewrite app_nil_r in Hall. subst gone.
    rewrite state_after_nil in Hu by done. done.
Qed.

(** ** Inserting *)

Lemma register_all (parents : list Digest) (mfp : gmap (Round * Digest) (gset Digest)) (r : Round) (d : Digest) (j : Round * Digest) :
  foldl (fun mfp parent => <[(r, parent) := {[d]} ∪ default ∅ (mfp !! (r, parent))]> mfp) mfp parents !! j =
    if decide (j.1 = r /\ j.2 ∈ parents) then Some ({[d]} ∪ default ∅ (mfp !! j)) else mfp !! j.
Proof.
  revert mfp. induction parents as [|p parents IH]; intros mfp.
  { rewrite decide_False; [done|]. intros [_ ?%elem_of_nil]. done. }
  cbn [foldl]. rewrite IH. destruct j as [jr jd]. cbn [fst snd].
  destruct (decide ((r, p) = (jr, jd))) as [[= -> ->]|Hne].
  - rewrite lookup_insert_eq. rewrite (decide_True (P := _ /\ jd ∈ jd :: parents)) by set_solver.
    destruct (decide _); simpl; [|reflexivity]. f_equal. set_solver.
  - rewrite lookup_insert_ne by done. destruct (decide (jr = r /\ jd ∈ parents)) as [[-> Hin]|Hn].
    + rewrite decide_True; [done|set_solver].
    + rewrite decide_False; [done|]. intros [-> [->|Hin]%elem_of_cons]; [done|]. by apply Hn.
Qed.

Lemma insert_pending_wf m c missing :
  pending_wf m -> pending m !! Certificate.digest c = None -> missing <> ∅ -> 1 <= Certificate.round c ->
  missing ⊆ Certificate.parents c ->
  exists m', insert_pending m c missing = (m', Ok ()) /\ pending_wf m' /\
    pending m' = <[Certificate.digest c := PendingCertificate.mk c missing]> (pending m).
Proof.
  intros Hwf Hnone Hne Hr Hpar. unfold insert_pending. rewrite Hnone, wrapping_sub32_small by lia.
  eexists. split; [done|]. split; [|done]. constructor; simpl.
  - intros j p [[<- <-]|[_ Hp]]%lookup_insert_Some; [done|by apply (pw_digest _ Hwf)].
  - intros j p [[<- <-]|[_ Hp]]%lookup_insert_Some; [done|by eapply (pw_missing _ Hwf)].
  - intros j p [[<- <-]|[_ Hp]]%lookup_insert_Some; [done|by eapply (pw_round _ Hwf)].
  - intros j p d Hj Hd. rewrite register_all. simpl. apply lookup_insert_Some in Hj as [[<- <-]|[Hj Hp]]; simpl in *.
    + rewrite decide_True by (split; [done|by apply elem_of_elements]). eexists. split; [done|set_solver].
    + destruct (pw_registered _ Hwf j p d Hp Hd) as (S & HS & HjS). case_decide; [|by eauto].
      eexists. split; [done|]. rewrite HS. simpl. set_solver.
  - intros r d S j. rewrite register_all. simpl. case_decide as Hd; [|intros HS HjS].
    + destruct Hd as [-> Hd%elem_of_elements]. intros [= <-] [->%elem_of_singleton|Hj]%elem_of_union.
      * exists (PendingCertificate.mk c missing). rewrite lookup_insert_eq. split_and!; [done|done|]. unfold pround. simpl. lia.
      * destruct (missing_for_pending m !! _) as [S|] eqn:HS; [|set_solver].
        destruct (pw_children _ Hwf _ _ _ _ HS Hj) as (p & Hp & ? & ?). exists p. rewrite lookup_insert_ne by congruence. done.
    + destruct (pw_children _ Hwf _ _ _ _ HS HjS) as (p & Hp & ? & ?). exists p. rewrite lookup_insert_ne by congruence. done.
  - intros k S. rewrite register_all. case_decide; [intros [= <-]; set_solver|apply (pw_nonempty _ Hwf)].
  - intros j p [[<- <-]|[_ Hp]]%lookup_insert_Some; [done|by eapply (pw_parents _ Hwf)].
Qed.

End facts.
End PendingFacts.
