(* ===== verification/Output.v ===== *)
(** Reputation scores, committed sub-dags and the headers of the consensus chain.
    Models crates/types/src/primary/{reputation,output,block}.rs. *)

From S2P Require Import Prelude Committee Certificate.

(** * Reputation scores *)

Module ReputationScores.

Record t := mk {
  scores_per_authority : gmap AuthorityIdentifier N;
  final_of_schedule : bool;
}.

#[global] Instance t_eq_dec : EqDecision t.
Proof. solve_decision. Defined.

Definition default : t := mk ∅ false.

Definition new `{NetworkKeys} (committee : Committee.t) : t :=
  mk (collect_map ((fun a => (Authority.id a, 0)) <$> Committee.authorities_list committee)) false.

Definition add_score (s : t) (authority : AuthorityIdentifier) (score : N) : t :=
  let scores := scores_per_authority s in
  mk (match scores !! authority with
      | Some val => <[authority := wrap64 (val + score)]> scores
      | None => <[authority := score]> scores
      end) (final_of_schedule s).

Definition set_final (s : t) (b : bool) : t := mk (scores_per_authority s) b.

Definition total_authorities (s : t) : N := N.of_nat (size (scores_per_authority s)).

Definition all_zero (s : t) : bool :=
  negb (existsb (fun e => 0 <? e) (map_to_list (scores_per_authority s)).*2).

(** The comparison of [authorities_by_score_desc]: by score, then by identifier,
    both descending. *)
Definition score_desc (a1 a2 : AuthorityIdentifier * N) : bool :=
  match N.compare a2.2 a1.2 with
  | Eq => a2.1 <=? a1.1
  | Lt => true
  | Gt => false
  end.

Definition authorities_by_score_desc (s : t) : list (AuthorityIdentifier * N) :=
  sort_by score_desc (map_to_list (scores_per_authority s)).

End ReputationScores.

(** * Committed sub-dags *)

Module CommittedSubDag.

Record t := mk {
  certificates : list Certificate.t;
  leader : Certificate.t;
  reputation_score : ReputationScores.t;
  commit_timestamp_field : TimestampSec;
}.

Definition new (certificates : list Certificate.t) (leader : Certificate.t) (sub_dag_index : N)
    (reputation_score : ReputationScores.t) (previous_sub_dag : option t) : t :=
  let previous_sub_dag_ts := from_option commit_timestamp_field 0 previous_sub_dag in
  mk certificates leader reputation_score
    (N.max previous_sub_dag_ts (Header.created_at (Certificate.header leader))).

Definition len (s : t) : N := N.of_nat (length (certificates s)).

Definition num_primary_blocks (s : t) : N :=
  sumN ((fun c => N.of_nat (length (Header.payload (Certificate.header c)))) <$> certificates s).

Definition leader_round (s : t) : Round := Certificate.round (leader s).

Definition leader_epoch (s : t) : Epoch := Certificate.epoch (leader s).

Definition commit_timestamp (s : t) : TimestampSec :=
  if commit_timestamp_field s =? 0 then Header.created_at (Certificate.header (leader s))
  else commit_timestamp_field s.

Section verification.
Context `{NetworkKeys} `{Crypto}.

Definition is_last (s : t) (output : Certificate.t) : bool :=
  match last (certificates s) with
  | None => false
  | Some x => Certificate.eqb x output
  end.

(** The body of the loop of [verify_certificates]. *)
Definition verify_step (committee : Committee.t) (acc : gset Digest * list Certificate.t)
    (cert : Certificate.t) : outcome CertificateError (gset Digest * list Certificate.t) :=
  let '(verified_certs, new_certs) := acc in
  if bool_decide (Certificate.digest cert ∈ verified_certs) then
    sig ← ok_or (Certificate.aggregated_signature cert) RecoverBlsAggregateSignatureBytes;
    Ok (verified_certs,
        new_certs ++ [Certificate.set_signature_verification_state cert (VerifiedIndirectly sig)])
  else
    cert ← Certificate.verify_cert cert committee;
    Ok ({[Certificate.digest cert]} ∪ verified_certs, new_certs ++ [cert]).

Definition verify_certificates (s : t) (committee : Committee.t) : outcome CertificateError t :=
  leader ← Certificate.verify_cert (leader s) committee;
  acc ← foldM (verify_step committee) (Certificate.parents leader, []) (certificates s);
  Ok (mk acc.2 leader (reputation_score s) (commit_timestamp_field s)).

End verification.
End CommittedSubDag.

(** The hash of the consensus chain, over the digests of a sub-dag's certificates,
    its leader's digest and its timestamp, and over the parts of a header. *)
Class ChainHash := {
  sub_dag_hash : list Digest -> Digest -> TimestampSec -> N;
  chain_hash : N -> N -> N -> N;
}.

Module ConsensusHeader.

Record t := mk {
  parent_hash : N;
  sub_dag : CommittedSubDag.t;
  number : N;
  extra : N;
}.

Section header.
Context `{NetworkKeys} `{Crypto} `{ChainHash}.

(** [CommittedSubDag::digest] *)
Definition sub_dag_digest (s : CommittedSubDag.t) : N :=
  sub_dag_hash (Certificate.digest <$> CommittedSubDag.certificates s)
    (Certificate.digest (CommittedSubDag.leader s)) (CommittedSubDag.commit_timestamp_field s).

Definition digest_from_parts (parent_hash : N) (sub_dag : CommittedSubDag.t) (number : N) : N :=
  chain_hash parent_hash (sub_dag_digest sub_dag) number.

Definition digest (h : t) : N := digest_from_parts (parent_hash h) (sub_dag h) (number h).

Definition verify_certificates (h : t) (committee : Committee.t) : outcome CertificateError t :=
  sub_dag ← CommittedSubDag.verify_certificates (sub_dag h) committee;
  Ok (mk (parent_hash h) sub_dag (number h) (extra h)).

End header.
End ConsensusHeader.

(** * Facts *)

Module OutputFacts.
Section facts.
Context `{NetworkKeys} `{Crypto}.

Lemma new_scores_dom committee :
  Committee.wf committee ->
  dom (ReputationScores.scores_per_authority (ReputationScores.new committee)) =
    Committee.members committee.
Proof.
  intros Hwf. unfold ReputationScores.new, Committee.members. simpl. rewrite dom_collect_map.
  rewrite <-list_fmap_compose. change (list_to_set (Authority.id <$> Committee.authorities_list committee)
    = dom (Committee.authorities_by_id committee)).
  rewrite CertificateFacts.authorities_list_ids by done.
  apply set_eq. intros i. by rewrite elem_of_list_to_set, elem_of_btree_keys, elem_of_dom.
Qed.

Lemma add_score_dom s i n :
  dom (ReputationScores.scores_per_authority (ReputationScores.add_score s i n)) =
    {[i]} ∪ dom (ReputationScores.scores_per_authority s).
Proof. unfold ReputationScores.add_score. simpl. case_match; by rewrite dom_insert_L. Qed.

(** Scores are ranked by a total order, so the ranking does not depend on the
    iteration order of the hash map. *)
Lemma score_desc_total a b :
  ReputationScores.score_desc a b = true \/ ReputationScores.score_desc b a = true.
Proof.
  unfold ReputationScores.score_desc. rewrite (N.compare_antisym (snd a) (snd b)).
  destruct (N.compare_spec (snd a) (snd b)); simpl; lia.
Qed.

Lemma score_desc_iff a b :
  ReputationScores.score_desc a b = true <-> b.2 < a.2 \/ (b.2 = a.2 /\ b.1 <= a.1).
Proof.
  unfold ReputationScores.score_desc. destruct (N.compare_spec (snd b) (snd a)); lia.
Qed.

End facts.
End OutputFacts.
