(* ===== verification/ConsensusState.v ===== *)
(** The in-memory DAG and the consensus state: insertion of certificates, commit
    bookkeeping and garbage collection.
    Models crates/consensus/primary/src/consensus/state.rs, the error type of
    mod.rs and [gc_round] of utils.rs. *)

From S2P Require Import Prelude Committee Certificate Output.

(** [BTreeMap<Round, HashMap<AuthorityIdentifier, (CertificateDigest, Certificate)>>] *)
Notation Dag := (gmap Round (gmap AuthorityIdentifier (Digest * Certificate.t))) (only parsing).

Inductive ConsensusError :=
  | StoreError
  | CertificateEquivocation (certificate existing : Certificate.t)
  | ShuttingDown
  | MissingParent (parent : Digest) (certificate : Certificate.t)
  | MissingParentRound (certificate : Certificate.t).

(** Calculates the GC round given a commit round and the gc_depth *)
Definition gc_round_of (commit_round gc_depth : Round) : Round := commit_round - gc_depth.

Module ConsensusRound.

Record t := mk {
  committed_round : Round;
  gc_round : Round;
}.

Definition default : t := mk 0 0.

Definition new_with_gc_depth (committed_round gc_depth : Round) : t :=
  mk committed_round (gc_round_of committed_round gc_depth).

Definition update (r : t) (new_committed_round gc_depth : Round) : t :=
  let last_committed_round := N.max (committed_round r) new_committed_round in
  mk last_committed_round (gc_round_of last_committed_round gc_depth).

End ConsensusRound.

Module ConsensusState.

Record t := mk {
  last_round : ConsensusRound.t;
  gc_depth : Round;
  last_committed : gmap AuthorityIdentifier Round;
  last_committed_sub_dag : option CommittedSubDag.t;
  dag : Dag;
}.

Definition new (gc_depth : Round) : t := mk ConsensusRound.default gc_depth ∅ None ∅.

Definition committed_round (s : t) : Round := ConsensusRound.committed_round (last_round s).
Definition gc_round (s : t) : Round := ConsensusRound.gc_round (last_round s).

Definition set_dag (s : t) (d : Dag) : t :=
  mk (last_round s) (gc_depth s) (last_committed s) (last_committed_sub_dag s) d.

Definition set_last_committed_sub_dag (s : t) (d : CommittedSubDag.t) : t :=
  mk (last_round s) (gc_depth s) (last_committed s) (Some d) (dag s).

Section state.
Context `{NetworkKeys} `{Crypto}.

Definition check_parents (certificate : Certificate.t) (dag : Dag) (gc_round : Round)
    : outcome ConsensusError unit :=
  let round := Certificate.round certificate in
  if round <=? gc_round + 1 then Ok () else
  match dag !! (round - 1) with
  | Some round_table =>
      let store_parents : gset Digest := list_to_set ((map_to_list round_table).*2).*1 in
      foldM (fun _ parent_digest =>
          ensure (bool_decide (parent_digest ∈ store_parents))
            (MissingParent parent_digest certificate))
        () (bset_iter (Certificate.parents certificate))
  | None => Err (MissingParentRound certificate)
  end.

(** The [&mut Dag] is returned with the result: the insertion happens before the
    equivocation check and stays when that check fails. *)
Definition try_insert_in_dag (dag : Dag) (last_committed : gmap AuthorityIdentifier Round)
    (gc_round : Round) (certificate : Certificate.t) (check : bool)
    : Dag * outcome ConsensusError bool :=
  if Certificate.round certificate <=? gc_round then (dag, Ok false) else
  match (if check then check_parents certificate dag gc_round else Ok ()) with
  | Ok _ =>
      let row := default ∅ (dag !! Certificate.round certificate) in
      let existing := row !! Certificate.origin certificate in
      let row' := <[Certificate.origin certificate :=
                      (Certificate.digest certificate, certificate)]> row in
      let dag' := <[Certificate.round certificate := row']> dag in
      let inserted :=
        default 0 (last_committed !! Certificate.origin certificate) <? Certificate.round certificate in
      match existing with
      | Some (_, existing_certificate) =>
          if Certificate.digest existing_certificate =? Certificate.digest certificate
          then (dag', Ok inserted)
          else (dag', Err (CertificateEquivocation certificate existing_certificate))
      | None => (dag', Ok inserted)
      end
  | Err e => (dag, Err e)
  | Panic => (dag, Panic)
  | OutOfFuel => (dag, OutOfFuel)
  end.

Definition try_insert (s : t) (certificate : Certificate.t) : t * outcome ConsensusError bool :=
  let '(dag', r) :=
    try_insert_in_dag (dag s) (last_committed s) (gc_round s) certificate true in
  (set_dag s dag', r).

(** Update and clean up internal state after committing a certificate. *)
Definition update (s : t) (certificate : Certificate.t) : t :=
  let origin := Certificate.origin certificate in
  let round := Certificate.round certificate in
  let last_committed' :=
    match last_committed s !! origin with
    | Some r => <[origin := N.max r round]> (last_committed s)
    | None => <[origin := round]> (last_committed s)
    end in
  let last_round' := ConsensusRound.update (last_round s) round (gc_depth s) in
  let dag' := filter (fun kv => ConsensusRound.gc_round last_round' < kv.1) (dag s) in
  mk last_round' (gc_depth s) last_committed' (last_committed_sub_dag s) dag'.

(** The loop of [construct_dag_from_cert_store] over the certificates the store
    returned, stopping at the first error. *)
Definition construct_dag (certificates : list Certificate.t)
    (last_committed : gmap AuthorityIdentifier Round) (gc_round : Round)
    : outcome ConsensusError Dag :=
  foldM (fun dag cert =>
      let '(dag', r) := try_insert_in_dag dag last_committed gc_round cert false in
      _ ← r; Ok dag') ∅ certificates.

End state.
End ConsensusState.

(** * The shape of the DAG *)

Module DagFacts.
Section dag.
Context `{NetworkKeys} `{Crypto}.

(** The entry of an authority at a round. *)
Definition entry (dag : Dag) (r : Round) (a : AuthorityIdentifier) : option (Digest * Certificate.t) :=
  dag !! r ≫= fun row => row !! a.

Definition in_dag (dag : Dag) (c : Certificate.t) : Prop :=
  entry dag (Certificate.round c) (Certificate.origin c) = Some (Certificate.digest c, c).

(** Certificates whose header was validated. *)
Definition cert_wf (committee : Committee.t) (c : Certificate.t) : Prop :=
  HeaderOps.hash_digest (Certificate.header c) = Certificate.digest c /\
  Certificate.origin c ∈ Committee.members committee.

(** Every entry is filed under its round, author and digest. *)
Definition dag_wf (committee : Committee.t) (dag : Dag) : Prop :=
  forall r a d c, entry dag r a = Some (d, c) ->
    Certificate.round c = r /\ Certificate.origin c = a /\ Certificate.digest c = d /\
    cert_wf committee c.

(** [y] is a parent of [x] that the DAG holds. *)
Definition parent_of (dag : Dag) (x y : Certificate.t) : Prop :=
  in_dag dag y /\ Certificate.round y + 1 = Certificate.round x /\
  Certificate.digest y ∈ Certificate.parents x.

(** Above the GC round, the DAG holds the parents of its certificates. *)
Definition parents_closed (dag : Dag) (gc_round : Round) : Prop :=
  forall x, in_dag dag x -> gc_round + 1 < Certificate.round x ->
    forall d, d ∈ Certificate.parents x -> exists y, parent_of dag x y /\ Certificate.digest y = d.

(** The invariant of the consensus state. *)
Record state_wf (committee : Committee.t) (s : ConsensusState.t) : Prop := {
  state_dag : dag_wf committee (ConsensusState.dag s);
  state_gc : ConsensusState.gc_round s =
    gc_round_of (ConsensusState.committed_round s) (ConsensusState.gc_depth s);
  state_above r : is_Some (ConsensusState.dag s !! r) -> ConsensusState.gc_round s < r;
  state_closed : parents_closed (ConsensusState.dag s) (ConsensusState.gc_round s);
  state_committed a r :
    ConsensusState.last_committed s !! a = Some r -> r <= ConsensusState.committed_round s;
}.

Lemma entry_in_dag committee dag r a d c :
  dag_wf committee dag -> entry dag r a = Some (d, c) -> in_dag dag c.
Proof. intros Hwf He. unfold in_dag. destruct (Hwf _ _ _ _ He) as (-> & -> & -> & _). done. Qed.

Lemma in_dag_wf committee dag c : dag_wf committee dag -> in_dag dag c -> cert_wf committee c.
Proof. intros Hwf Hin. by apply Hwf in Hin as (_ & _ & _ & ?). Qed.

Lemma in_dag_unique dag c c' :
  in_dag dag c -> in_dag dag c' -> Certificate.round c = Certificate.round c' ->
  Certificate.origin c = Certificate.origin c' -> c = c'.
Proof. unfold in_dag. intros Hc Hc' Hr Ho. rewrite Hr, Ho in Hc. congruence. Qed.

Lemma cert_wf_slot `{!CollisionFree} committee c c' :
  cert_wf committee c -> cert_wf committee c' -> Certificate.digest c = Certificate.digest c' ->
  Certificate.round c = Certificate.round c' /\ Certificate.origin c = Certificate.origin c'.
Proof.
  intros [Hh _] [Hh' _] Hd. rewrite <-Hh, <-Hh' in Hd. unfold HeaderOps.hash_digest in Hd.
  apply header_hash_binds in Hd as (Ha & Hr & _). done.
Qed.

(** A digest names one certificate of the DAG. *)
Lemma in_dag_digest `{!CollisionFree} committee dag c c' :
  dag_wf committee dag -> in_dag dag c -> in_dag dag c' ->
  Certificate.digest c = Certificate.digest c' -> c = c'.
Proof.
  intros Hwf Hc Hc' Hd.
  destruct (cert_wf_slot committee c c') as [Hr Ho]; [by eapply in_dag_wf..|done|].
  by apply (in_dag_unique dag).
Qed.

Lemma cert_wf_parents `{!BindsParents} committee c c' :
  cert_wf committee c -> cert_wf committee c' -> Certificate.digest c = Certificate.digest c' ->
  Certificate.parents c = Certificate.parents c'.
Proof.
  intros [Hh _] [Hh' _] Hd. rewrite <-Hh, <-Hh' in Hd. by apply header_hash_parents in Hd.
Qed.

(** ** Insertion *)

Lemma entry_insert dag c r a :
  entry (<[Certificate.round c :=
      <[Certificate.origin c := (Certificate.digest c, c)]>
        (default ∅ (dag !! Certificate.round c))]> dag) r a =
  if decide (r = Certificate.round c /\ a = Certificate.origin c)
  then Some (Certificate.digest c, c) else entry dag r a.
Proof.
  unfold entry. destruct (decide (r = Certificate.round c)) as [->|Hr].
  - rewrite lookup_insert_eq. simpl. destruct (decide (a = Certificate.origin c)) as [->|Ha].
    + rewrite lookup_insert_eq, decide_True by done. done.
    + rewrite lookup_insert_ne, decide_False by naive_solver.
      by destruct (dag !! Certificate.round c).
  - rewrite lookup_insert_ne, decide_False by naive_solver. done.
Qed.

Lemma check_parents_Ok c dag gc u :
  ConsensusState.check_parents c dag gc = Ok u -> gc + 1 < Certificate.round c ->
  forall d, d ∈ Certificate.parents c ->
  exists a c', entry dag (Certificate.round c - 1) a = Some (d, c').
Proof.
  unfold ConsensusState.check_parents. intros Hck Hgc d Hd.
  destruct (N.leb_spec (Certificate.round c) (gc + 1)); [lia|].
  destruct (dag !! (Certificate.round c - 1)) as [row|] eqn:Hrow; [|done].
  assert (d ∈@{gset Digest} list_to_set ((map_to_list row).*2).*1) as Hin.
  { apply elem_of_bset_iter in Hd. revert Hck Hd. generalize (bset_iter (Certificate.parents c)).
    intros l. induction l as [|x l IH]; [by intros _ ?%elem_of_nil|].
    intros ([] & Hx%ensure_Ok%bool_decide_eq_true_1 & Hl)%bind_Ok [->|Hin]%elem_of_cons; auto. }
  apply elem_of_list_to_set, list_elem_of_fmap in Hin as ([d' c'] & -> & Hin).
  apply list_elem_of_fmap in Hin as ([a dc] & Heq & Hin%elem_of_map_to_list).
  exists a, c'. unfold entry. rewrite Hrow. by simplify_eq/=.
Qed.

Lemma try_insert_in_dag_Ok dag lc gc c check dag' b :
  ConsensusState.try_insert_in_dag dag lc gc c check = (dag', Ok b) ->
  (Certificate.round c <= gc /\ dag' = dag /\ b = false) \/
  (gc < Certificate.round c /\
   (check = true -> ConsensusState.check_parents c dag gc = Ok ()) /\
   b = (default 0 (lc !! Certificate.origin c) <? Certificate.round c) /\
   (forall d c', entry dag (Certificate.round c) (Certificate.origin c) = Some (d, c') ->
      Certificate.digest c' = Certificate.digest c) /\
   dag' = <[Certificate.round c :=
     <[Certificate.origin c := (Certificate.digest c, c)]>
       (default ∅ (dag !! Certificate.round c))]> dag).
Proof.
  unfold ConsensusState.try_insert_in_dag.
  destruct (N.leb_spec (Certificate.round c) gc); [intros [= <- <-]; by left|].
  destruct (if check then _ else _) as [[]| | |] eqn:Hck; try done.
  intros Hm. right. split; [done|].
  assert (Hex : forall d c', entry dag (Certificate.round c) (Certificate.origin c) = Some (d, c') ->
    default ∅ (dag !! Certificate.round c) !! Certificate.origin c = Some (d, c')).
  { unfold entry. intros d c'. by destruct (dag !! Certificate.round c). }
  destruct (default ∅ _ !! _) as [[d e]|] eqn:He.
  - destruct (N.eqb_spec (Certificate.digest e) (Certificate.digest c)); simplify_eq.
    split_and!; [by intros ->|done| |done]. intros d' c' Hc'%Hex. by simplify_eq.
  - simplify_eq. split_and!; [by intros ->|done| |done]. intros d' c' Hc'%Hex. done.
Qed.

Lemma in_dag_insert dag c x :
  in_dag (<[Certificate.round c :=
      <[Certificate.origin c := (Certificate.digest c, c)]>
        (default ∅ (dag !! Certificate.round c))]> dag) x <->
  x = c \/ (in_dag dag x /\
    ~ (Certificate.round x = Certificate.round c /\ Certificate.origin x = Certificate.origin c)).
Proof.
  unfold in_dag. rewrite entry_insert. case_decide as Hd.
  - split; [intros [= _ ->]; by left|]. intros [->|[_ ?]]; [done|naive_solver].
  - split; [naive_solver|]. intros [->|[? _]]; [naive_solver|done].
Qed.

Lemma dag_wf_insert committee dag c :
  dag_wf committee dag -> cert_wf committee c ->
  dag_wf committee (<[Certificate.round c :=
      <[Certificate.origin c := (Certificate.digest c, c)]>
        (default ∅ (dag !! Certificate.round c))]> dag).
Proof.
  intros Hwf Hc r a d c'. rewrite entry_insert. case_decide as Hd; [|apply Hwf].
  destruct Hd as [-> ->]. intros [= <- <-]. done.
Qed.

(** A parent stays findable under its digest when its own entry is rewritten. *)
Lemma parent_of_insert committee dag c x y :
  dag_wf committee dag ->
  (forall d c', entry dag (Certificate.round c) (Certificate.origin c) = Some (d, c') ->
      Certificate.digest c' = Certificate.digest c) ->
  parent_of dag x y ->
  exists y', parent_of (<[Certificate.round c :=
      <[Certificate.origin c := (Certificate.digest c, c)]>
        (default ∅ (dag !! Certificate.round c))]> dag) x y' /\
    Certificate.digest y' = Certificate.digest y.
Proof.
  intros Hwf Hex (Hin & Hr & Hp).
  destruct (decide (Certificate.round y = Certificate.round c /\ Certificate.origin y = Certificate.origin c))
    as [[Hry Hoy]|Hne].
  - pose proof Hin as Hd. unfold in_dag in Hd. rewrite Hry, Hoy in Hd. apply Hex in Hd.
    exists c. split; [|done]. split_and!; [apply in_dag_insert; by left|lia|by rewrite <-Hd].
  - exists y. split; [|done]. split_and!; [apply in_dag_insert; by right|done|done].
Qed.

(** Inserting a validated certificate preserves the invariant. *)
Lemma try_insert_wf committee s c s' b :
  state_wf committee s -> cert_wf committee c ->
  ConsensusState.try_insert s c = (s', Ok b) -> state_wf committee s'.
Proof.
  intros Hs Hc. unfold ConsensusState.try_insert.
  destruct (ConsensusState.try_insert_in_dag _ _ _ _ _) as [dag' r] eqn:Hins. intros [= <- ->].
  apply try_insert_in_dag_Ok in Hins as [(_ & -> & _)|(Hgc & Hck & _ & Hex & ->)]; [by destruct s|].
  specialize (Hck eq_refl). destruct Hs as [Hdag Hgc' Habove Hclosed Hcom].
  constructor; simpl; [by apply dag_wf_insert|done| | |done].
  - intros r. destruct (decide (r = Certificate.round c)) as [->|]; [done|].
    rewrite lookup_insert_ne by done. apply Habove.
  - intros x [->|[Hx _]]%in_dag_insert Hr d Hd.
    + destruct (check_parents_Ok _ _ _ _ Hck Hr d Hd) as (a & y & Hy).
      destruct (parent_of_insert committee (ConsensusState.dag s) c c y) as (y' & Hy' & Hd'); [done..| |].
      * destruct (Hdag _ _ _ _ Hy) as (Hry & _ & Hdy & _).
        split_and!; [by eapply entry_in_dag|lia|by rewrite Hdy].
      * exists y'. split; [done|]. by destruct (Hdag _ _ _ _ Hy) as (_ & _ & <- & _).
    + destruct (Hclosed x Hx Hr d Hd) as (y & Hy & Hdy).
      destruct (parent_of_insert committee (ConsensusState.dag s) c x y) as (y' & Hy' & Hd'); [done..|].
      exists y'. split; [done|congruence].
Qed.

(** ** Commit bookkeeping *)

Lemma entry_filter dag gc r a :
  entry (filter (fun kv => gc < kv.1) dag) r a = if decide (gc < r) then entry dag r a else None.
Proof.
  unfold entry. destruct (filter _ dag !! r) as [row|] eqn:Hf; simpl.
  - apply map_lookup_filter_Some in Hf as [-> Hr]. simpl in Hr. by rewrite decide_True.
  - apply map_lookup_filter_None in Hf. case_decide; [|done].
    destruct (dag !! r) as [row|]; [|done]. destruct Hf as [|Hf]; [done|]. by destruct (Hf row).
Qed.

Lemma in_dag_filter dag gc c :
  in_dag (filter (fun kv => gc < kv.1) dag) c <-> in_dag dag c /\ gc < Certificate.round c.
Proof. unfold in_dag. rewrite entry_filter. case_decide; naive_solver. Qed.

Lemma update_committed_round s c :
  ConsensusState.committed_round (ConsensusState.update s c) =
    N.max (ConsensusState.committed_round s) (Certificate.round c).
Proof. done. Qed.

Lemma update_last_committed s c a :
  ConsensusState.last_committed (ConsensusState.update s c) !! a =
  if decide (a = Certificate.origin c)
  then Some (N.max (default 0 (ConsensusState.last_committed s !! a)) (Certificate.round c))
  else ConsensusState.last_committed s !! a.
Proof.
  unfold ConsensusState.update. simpl. case_decide as Ha.
  - subst. case_match; rewrite lookup_insert_eq; simpl; f_equal; lia.
  - case_match; by rewrite lookup_insert_ne.
Qed.

Lemma update_wf committee s c :
  state_wf committee s -> state_wf committee (ConsensusState.update s c).
Proof.
  intros [Hdag Hgc Habove Hclosed Hcom].
  assert (ConsensusState.gc_round s <= ConsensusState.gc_round (ConsensusState.update s c)) as Hmono.
  { rewrite Hgc. unfold ConsensusState.update, ConsensusState.gc_round, gc_round_of. simpl.
    unfold gc_round_of, ConsensusState.committed_round. lia. }
  constructor.
  - intros r a d x. simpl. rewrite entry_filter. case_decide; [apply Hdag|done].
  - done.
  - intros r [row Hrow]. simpl in Hrow. apply map_lookup_filter_Some in Hrow as [_ ?]. done.
  - intros x. simpl. rewrite in_dag_filter. intros [Hx Hgx] Hr d Hd.
    destruct (Hclosed x Hx) with (d := d) as (y & (Hy & Hry & Hp) & Hdy); [lia|done|].
    exists y. split; [|done]. split_and!; [|done|done]. apply in_dag_filter. split; [done|].
    unfold ConsensusState.gc_round in *. simpl in *. lia.
  - intros a r. rewrite update_last_committed, update_committed_round. case_decide.
    + intros [= <-]. destruct (ConsensusState.last_committed s !! a) as [r0|] eqn:Ha; simpl; [|lia].
      apply Hcom in Ha. lia.
    + intros Ha%Hcom. lia.
Qed.

(** A new state satisfies the invariant. *)
Lemma new_state_wf committee gc_depth : state_wf committee (ConsensusState.new gc_depth).
Proof.
  constructor; simpl.
  - intros r a d c. unfold entry. by rewrite lookup_empty.
  - unfold ConsensusState.gc_round, ConsensusState.committed_round, gc_round_of. simpl. lia.
  - intros r [? Hr]. by rewrite lookup_empty in Hr.
  - intros x Hx. unfold in_dag, entry in Hx. by rewrite lookup_empty in Hx.
  - intros a r Ha. by rewrite lookup_empty in Ha.
Qed.
End dag.
End DagFacts.
