(* ===== verification/OrderDag.v ===== *)
(** Flattening the sub-dag of a leader.
    Models [order_dag] of crates/consensus/primary/src/consensus/utils.rs: a
    depth-first search over the DAG with an explicit stack, followed by a stable
    sort by round. *)

From S2P Require Import Prelude Committee Certificate Output ConsensusState.
Import DagFacts.

Section order_dag.
Context `{NetworkKeys} `{Crypto}.

(** [dag.get(&r).and_then(|x| x.values().find(|(x, _)| x == parent))] *)
Definition find_parent (dag : Dag) (r : Round) (parent : Digest) : option (Digest * Certificate.t) :=
  row ← dag !! r; head (filter (fun dc => dc.1 = parent) (map_to_list row).*2).

(** Whether this authority was already committed at or above the certificate's round. *)
Definition already_committed (s : ConsensusState.t) (c : Certificate.t) : bool :=
  match ConsensusState.last_committed s !! Certificate.origin c with
  | None => false
  | Some r => Certificate.round c <=? r
  end.

(** One iteration of [for parent in x.header().parents()], on the stack (top first)
    and the set of digests already pushed. *)
Definition visit_parent (s : ConsensusState.t) (x : Certificate.t)
    (acc : list Certificate.t * gset Digest) (parent : Digest) : list Certificate.t * gset Digest :=
  let '(buffer, already_ordered) := acc in
  match find_parent (ConsensusState.dag s) (wrapping_sub32 (Certificate.round x) 1) parent with
  | Some (digest, certificate) =>
      if bool_decide (digest ∈ already_ordered) || already_committed s certificate
      then acc
      else (certificate :: buffer, {[digest]} ∪ already_ordered)
  | None => acc
  end.

(** [while let Some(x) = buffer.pop()]; the fuel bounds the number of iterations. *)
Fixpoint order_loop {E} (fuel : nat) (s : ConsensusState.t) (gc_round : Round)
    (ordered buffer : list Certificate.t) (already_ordered : gset Digest)
    : outcome E (list Certificate.t) :=
  match buffer with
  | [] => Ok ordered
  | x :: buffer' =>
      match fuel with
      | O => OutOfFuel
      | S fuel' =>
          let ordered' := ordered ++ [x] in
          if Certificate.round x =? gc_round + 1
          then order_loop fuel' s gc_round ordered' buffer' already_ordered
          else
            let '(buffer'', already') :=
              foldl (visit_parent s x) (buffer', already_ordered)
                (bset_iter (Certificate.parents x)) in
            order_loop fuel' s gc_round ordered' buffer'' already'
      end
  end.

(** The digests filed in the DAG; a certificate is pushed at most once for each. *)
Definition dag_digests (dag : Dag) : gset Digest :=
  list_to_set (flat_map (fun row => ((map_to_list row).*2).*1) (map_to_list dag).*2).

Definition order_dag {E} (leader : Certificate.t) (s : ConsensusState.t)
    : outcome E (list Certificate.t) :=
  _ ← assert (0 <? Certificate.round leader);
  let gc_round := Certificate.round leader - ConsensusState.gc_depth s in
  ordered ← order_loop (S (size (dag_digests (ConsensusState.dag s)))) s gc_round [] [leader] ∅;
  Ok (sort_by_key Certificate.round ordered).

(** ** Specification *)

(** A certificate that [order_dag] may take: not yet committed for its author. *)
Definition fresh (s : ConsensusState.t) (c : Certificate.t) : Prop :=
  forall r, ConsensusState.last_committed s !! Certificate.origin c = Some r ->
    r < Certificate.round c.

(** The links [order_dag] follows from a certificate of a sub-dag. *)
Definition link (s : ConsensusState.t) (gc_round : Round) (x y : Certificate.t) : Prop :=
  Certificate.round x <> gc_round + 1 /\ parent_of (ConsensusState.dag s) x y /\ fresh s y.

(** The sub-dag of a leader: what can be reached over such links. *)
Definition sub_dag (s : ConsensusState.t) (leader : Certificate.t) : Certificate.t -> Prop :=
  rtc (link s (Certificate.round leader - ConsensusState.gc_depth s)) leader.

Lemma already_committed_fresh s c : already_committed s c = false <-> fresh s c.
Proof.
  unfold already_committed, fresh.
  destruct (ConsensusState.last_committed s !! Certificate.origin c); [|naive_solver].
  rewrite N.leb_gt. naive_solver.
Qed.

Context `{!CollisionFree} (committee : Committee.t).

Lemma find_parent_Some dag r d d' c :
  dag_wf committee dag -> find_parent dag r d = Some (d', c) ->
  d' = d /\ in_dag dag c /\ Certificate.round c = r /\ Certificate.digest c = d.
Proof.
  intros Hwf. unfold find_parent. destruct (dag !! r) as [row|] eqn:Hrow; simpl; [|done].
  intros Hh. assert ((d', c) ∈ filter (fun dc => dc.1 = d) (map_to_list row).*2) as Hin.
  { destruct (filter _ _); [done|]. simplify_eq/=. set_solver. }
  apply list_elem_of_filter in Hin as [Hd Hin]. simpl in Hd.
  apply list_elem_of_fmap in Hin as ([a dc] & Heq & Hin%elem_of_map_to_list). simplify_eq/=.
  assert (entry dag r a = Some (d, c)) as He by (unfold entry; by rewrite Hrow).
  pose proof (Hwf _ _ _ _ He) as (? & _ & ? & _). split_and!; [done| |done|done].
  by eapply entry_in_dag.
Qed.

(** The search by digest finds the parent, whatever the order of the hash map. *)
Lemma find_parent_in_dag dag c :
  dag_wf committee dag -> in_dag dag c ->
  find_parent dag (Certificate.round c) (Certificate.digest c) = Some (Certificate.digest c, c).
Proof.
  intros Hwf Hin.
  destruct (find_parent dag (Certificate.round c) (Certificate.digest c)) as [[d c']|] eqn:Hf.
  - apply find_parent_Some in Hf as (-> & Hc' & _ & Hd); [|done].
    by rewrite (in_dag_digest committee dag c' c).
  - unfold find_parent in Hf. unfold in_dag, entry in Hin.
    destruct (dag !! Certificate.round c) as [row|] eqn:Hrow; simpl in *; [|done].
    assert ((Certificate.digest c, c) ∈ filter (fun dc => dc.1 = Certificate.digest c) (map_to_list row).*2) as Hm.
    { apply list_elem_of_filter. split; [done|]. apply list_elem_of_fmap.
      exists (Certificate.origin c, (Certificate.digest c, c)). by rewrite elem_of_map_to_list. }
    destruct (filter _ _); set_solver.
Qed.

Lemma elem_of_dag_digests dag c : in_dag dag c -> Certificate.digest c ∈ dag_digests dag.
Proof.
  intros Hin. unfold in_dag, entry in Hin.
  destruct (dag !! Certificate.round c) as [row|] eqn:Hrow; simpl in *; [|done].
  apply elem_of_list_to_set, list_elem_of_In, in_flat_map. exists row. split.
  - apply list_elem_of_In, list_elem_of_fmap. exists (Certificate.round c, row).
    by rewrite elem_of_map_to_list.
  - apply list_elem_of_In, list_elem_of_fmap. exists (Certificate.digest c, c). split; [done|].
    apply list_elem_of_fmap. exists (Certificate.origin c, (Certificate.digest c, c)).
    by rewrite elem_of_map_to_list.
Qed.

(** ** The search *)

Section search.
Context (s : ConsensusState.t) (Hs : state_wf committee s) (leader : Certificate.t).
Context (Hleader : 0 < Certificate.round leader).
Let gc := Certificate.round leader - ConsensusState.gc_depth s.
Let dag := ConsensusState.dag s.

(** What holds of every certificate met so far. *)
Definition met (already : gset Digest) (y : Certificate.t) : Prop :=
  sub_dag s leader y /\
  (y = leader \/
    (in_dag dag y /\ Certificate.digest y ∈ already /\ Certificate.round y < Certificate.round leader)).

Record search_inv (ordered buffer : list Certificate.t) (already : gset Digest) : Prop := {
  inv_nodup : NoDup (ordered ++ buffer);
  inv_met y : y ∈ ordered ++ buffer -> met already y;
  inv_already d : d ∈ already ->
    exists y, y ∈ ordered ++ buffer /\ in_dag dag y /\ Certificate.digest y = d;
}.

Definition measure (buffer : list Certificate.t) (already : gset Digest) : nat :=
  length buffer + size (dag_digests dag ∖ already).

Lemma met_round already y : met already y -> 0 < Certificate.round y <= Certificate.round leader.
Proof.
  intros [_ [->|(Hin & _ & ?)]]; [lia|].
  assert (ConsensusState.gc_round s < Certificate.round y); [|lia].
  apply (state_above _ _ Hs). unfold in_dag, entry in Hin. fold dag.
  destruct (dag !! Certificate.round y); [by eexists|done].
Qed.

Lemma met_mono already already' y : already ⊆ already' -> met already y -> met already' y.
Proof. intros Hsub [? [?|(? & ? & ?)]]; split; [done|by left|done|right; set_solver]. Qed.

(** A parent of a certificate above the GC border, found and not committed, is met. *)
Lemma met_parent already x y :
  met already x -> Certificate.round x <> gc + 1 -> parent_of dag x y -> fresh s y ->
  met ({[Certificate.digest y]} ∪ already) y.
Proof.
  intros Hx Hr Hp Hf. pose proof (met_round _ _ Hx) as Hrx. destruct Hp as (Hin & Hry & Hd).
  split; [|right; split_and!; [done|set_solver|lia]].
  destruct Hx as [Hx _]. eapply rtc_r; [exact Hx|]. done.
Qed.

Lemma visit_parent_inv x ordered buffer already d buffer' already' :
  search_inv ordered buffer already -> x ∈ ordered -> Certificate.round x <> gc + 1 ->
  d ∈ Certificate.parents x ->
  visit_parent s x (buffer, already) d = (buffer', already') ->
  search_inv ordered buffer' already' /\ (exists k, buffer' = k ++ buffer) /\
  (measure buffer' already' <= measure buffer already)%nat /\
  (forall y, parent_of dag x y -> Certificate.digest y = d -> fresh s y -> y ∈ ordered ++ buffer').
Proof.
  intros Hinv Hx Hr Hd. unfold visit_parent. fold dag.
  assert (met already x) as Hmx by (apply (inv_met _ _ _ Hinv); set_solver).
  pose proof (met_round _ _ Hmx) as Hrx. rewrite wrapping_sub32_small by lia.
  pose proof (state_dag _ _ Hs) as Hwf. fold dag in Hwf.
  assert (Hfind : forall y, parent_of dag x y -> Certificate.digest y = d ->
    find_parent dag (Certificate.round x - 1) d = Some (d, y)).
  { intros y (Hy & Hry & _) <-. replace (Certificate.round x - 1) with (Certificate.round y) by lia.
    by apply find_parent_in_dag. }
  destruct (find_parent dag _ d) as [[d' c]|] eqn:Hf.
  2:{ intros [= <- <-]. split_and!; [done|by exists []|done|]. intros y Hy Hyd _.
      by specialize (Hfind y Hy Hyd). }
  apply find_parent_Some in Hf as (-> & Hc & Hrc & Hdc); [|done].
  assert (forall y, parent_of dag x y -> Certificate.digest y = d -> y = c) as Huniq.
  { intros y Hy Hyd. specialize (Hfind y Hy Hyd). by simplify_eq. }
  destruct (bool_decide (d ∈ already)) eqn:Hal; simpl.
  { intros [= <- <-]. split_and!; [done|by exists []|done|]. intros y Hy Hyd _.
    apply bool_decide_eq_true in Hal. apply (inv_already _ _ _ Hinv) in Hal as (z & Hz & Hzin & Hzd).
    rewrite (Huniq y) by done. by rewrite (in_dag_digest committee dag c z) by (done || congruence). }
  destruct (already_committed s c) eqn:Hac.
  { intros [= <- <-]. split_and!; [done|by exists []|done|]. intros y Hy Hyd Hfy.
    rewrite (Huniq y Hy Hyd) in Hfy. apply already_committed_fresh in Hfy. congruence. }
  apply bool_decide_eq_false in Hal. apply already_committed_fresh in Hac.
  intros [= <- <-].
  assert (met ({[d]} ∪ already) c) as Hmc.
  { rewrite <-Hdc. apply (met_parent _ x); [done..| |done]. split_and!; [done|lia|by rewrite Hdc]. }
  assert (c ∉ ordered ++ buffer) as Hnew.
  { intros Hin. apply (inv_met _ _ _ Hinv) in Hin as [_ [->|(_ & ? & _)]]; [lia|congruence]. }
  split_and!; [|by exists [c]| |].
  - constructor.
    + rewrite <-Permutation_middle. constructor; [done|apply (inv_nodup _ _ _ Hinv)].
    + intros y. rewrite <-Permutation_middle. intros [->|Hy]%elem_of_cons; [done|].
      eapply met_mono; [|by apply (inv_met _ _ _ Hinv)]. set_solver.
    + intros e [->%elem_of_singleton|He]%elem_of_union.
      * exists c. split_and!; [set_solver|done|done].
      * apply (inv_already _ _ _ Hinv) in He as (z & ? & ? & ?). exists z. set_solver.
  - unfold measure. rewrite length_cons.
    assert (dag_digests dag ∖ already = {[d]} ∪ (dag_digests dag ∖ ({[d]} ∪ already))) as ->.
    { pose proof (elem_of_dag_digests dag c Hc) as Hdd. rewrite Hdc in Hdd.
      apply set_eq. intros e. destruct (decide (e = d)); set_solver. }
    rewrite (size_union {[d]}) by set_solver. rewrite size_singleton. lia.
  - intros y Hy Hyd _. rewrite (Huniq y) by done. set_solver.
Qed.

Lemma visit_parents_inv x ordered ds buffer already buffer' already' :
  search_inv ordered buffer already -> x ∈ ordered -> Certificate.round x <> gc + 1 ->
  (forall d, d ∈ ds -> d ∈ Certificate.parents x) ->
  foldl (visit_parent s x) (buffer, already) ds = (buffer', already') ->
  search_inv ordered buffer' already' /\ (exists k, buffer' = k ++ buffer) /\
  (measure buffer' already' <= measure buffer already)%nat /\
  (forall y, parent_of dag x y -> Certificate.digest y ∈ ds -> fresh s y -> y ∈ ordered ++ buffer').
Proof.
  intros Hinv Hx Hr. revert buffer already Hinv.
  induction ds as [|d ds IH]; intros buffer already Hinv Hds; cbn [foldl].
  { intros [= <- <-]. split_and!; [done|by exists []|done|]. intros y _ ?. set_solver. }
  destruct (visit_parent s x (buffer, already) d) as [b1 a1] eqn:Hv. intros Hfold.
  apply (visit_parent_inv x ordered) in Hv as (Hinv1 & [k1 ->] & Hm1 & Hc1); [|done..|apply Hds; set_solver].
  apply IH in Hfold as (Hinv2 & [k2 ->] & Hm2 & Hc2); [|done|intros; apply Hds; set_solver].
  split_and!; [done|exists (k2 ++ k1); by rewrite <-app_assoc|lia|].
  intros y Hy [Hyd|Hyd]%elem_of_cons Hfy; [|by apply Hc2].
  specialize (Hc1 y Hy Hyd Hfy). set_solver.
Qed.

(** Following the links of [order_dag] stays inside a closed set. *)
Definition closed (done todo : list Certificate.t) : Prop :=
  forall x y, x ∈ done -> link s gc x y -> y ∈ done ++ todo.

Lemma search_inv_pop ordered x buffer already :
  search_inv ordered (x :: buffer) already -> search_inv (ordered ++ [x]) buffer already.
Proof. intros [Hnd Hmet Hal]. constructor; by rewrite <-app_assoc. Qed.

Lemma order_loop_done {E} fuel ordered already :
  search_inv ordered [] already -> closed ordered [] ->
  exists l, @order_loop E fuel s gc ordered [] already = Ok l /\
    NoDup l /\ (forall y, y ∈ l -> sub_dag s leader y) /\ closed l [] /\
    (forall y, y ∈ ordered ++ [] -> y ∈ l).
Proof.
  intros [Hnd Hmet _] Hcl. rewrite app_nil_r in Hnd. exists ordered.
  split_and!; [by destruct fuel|done| |done|by rewrite app_nil_r].
  intros y Hy. apply Hmet. by rewrite app_nil_r.
Qed.

Lemma order_loop_spec {E} fuel ordered buffer already :
  search_inv ordered buffer already -> closed ordered buffer ->
  (measure buffer already <= fuel)%nat ->
  exists l, @order_loop E fuel s gc ordered buffer already = Ok l /\
    NoDup l /\ (forall y, y ∈ l -> sub_dag s leader y) /\ closed l [] /\
    (forall y, y ∈ ordered ++ buffer -> y ∈ l).
Proof.
  revert ordered buffer already.
  induction fuel as [|fuel IH]; intros ordered [|x buffer] already Hinv Hcl Hm;
    [by apply order_loop_done| |by apply order_loop_done|]; unfold measure in Hm; simpl in Hm; [lia|].
  apply search_inv_pop in Hinv. simpl.
  assert (Hcl' : forall y z, y ∈ ordered -> link s gc y z -> z ∈ (ordered ++ [x]) ++ buffer).
  { intros y z Hy Hl. specialize (Hcl y z Hy Hl). by rewrite <-app_assoc. }
  destruct (N.eqb_spec (Certificate.round x) (gc + 1)) as [Hr|Hr].
  - destruct (IH (ordered ++ [x]) buffer already) as (l & Hl & Hnd & Hsub & Hc & Hin); [done| |unfold measure; lia|].
    { intros y z [Hy| ->%list_elem_of_singleton]%elem_of_app; [by apply Hcl'|]. by intros [? _]. }
    exists l. split_and!; [done..|]. intros y Hy. apply Hin. by rewrite <-app_assoc.
  - destruct (foldl _ _ _) as [b a] eqn:Hfold.
    apply visit_parents_inv with (ordered := ordered ++ [x]) in Hfold as (Hinv' & [k ->] & Hm' & Hpar);
      [|done|set_solver|done|intros d; by rewrite elem_of_bset_iter].
    destruct (IH (ordered ++ [x]) (k ++ buffer) a) as (l & Hl & Hnd & Hsub & Hc & Hin);
      [done| |unfold measure in *; lia|].
    { intros y z [Hy| ->%list_elem_of_singleton]%elem_of_app Hyz.
      - specialize (Hcl' y z Hy Hyz). set_solver.
      - destruct Hyz as (_ & Hp & Hf). apply Hpar; [done| |done]. rewrite elem_of_bset_iter.
        by destruct Hp as (_ & _ & ?). }
    exists l. split_and!; [done..|]. intros y Hy. apply Hin. set_solver.
Qed.

(** [order_dag] returns, and returns each certificate of the sub-dag once. *)
Lemma order_dag_spec {E} :
  exists l, @order_dag E leader s = Ok l /\ NoDup l /\
    (forall y, y ∈ l <-> sub_dag s leader y) /\
    StronglySorted (fun x y => Certificate.round x <= Certificate.round y) l.
Proof.
  unfold order_dag. destruct (N.ltb_spec 0 (Certificate.round leader)); [|lia]. cbn [assert mbind outcome_bind].
  edestruct (@order_loop_spec E (S (size (dag_digests dag))) [] [leader] ∅) as (l & Hl & Hnd & Hsub & Hc & Hin).
  - constructor; [apply NoDup_singleton| |set_solver].
    intros y ->%list_elem_of_singleton. split; [apply rtc_refl|by left].
  - intros x y Hx. by apply elem_of_nil in Hx.
  - unfold measure. simpl. pose proof (subseteq_size (dag_digests dag ∖ ∅) (dag_digests dag)). set_solver by lia.
  - fold dag gc. rewrite Hl. simpl. eexists. split; [done|]. split_and!.
    + by rewrite sort_by_key_perm.
    + intros y. rewrite sort_by_key_perm. split; [apply Hsub|].
      revert y. apply (rtc_ind_r (fun y => y ∈ l)).
      * apply Hin. set_solver.
      * intros x y _ Hxy IH. specialize (Hc _ _ IH Hxy). by rewrite app_nil_r in Hc.
    + apply sort_by_key_sorted.
Qed.
End search.
End order_dag.
