(* ===== verification/LeaderSchedule.v ===== *)
(** The leader schedule and its swap table.
    Models crates/consensus/primary/src/consensus/leader_schedule.rs. *)

From S2P Require Import Prelude Committee Certificate Output ConsensusState.

Module LeaderSwapTable.

Record t := mk {
  round : Round;
  good_nodes : list Authority.t;
  bad_nodes : gmap AuthorityIdentifier Authority.t;
}.

Definition default : t := mk 0 [] ∅.

Section table.
Context `{NetworkKeys}.

(** The loop of [retrieve_first_nodes] from the accumulated [voting_power]. *)
Fixpoint retrieve_from (committee : Committee.t) (voting_power_threshold voting_power : N)
    (authorities : list (AuthorityIdentifier * N)) : list Authority.t :=
  match authorities with
  | [] => []
  | (authority_id, _) :: authorities' =>
      let voting_power := wrap64 (voting_power + Committee.voting_power_by_id committee authority_id) in
      if wrap64 (voting_power_threshold * Committee.total_voting_power committee) / 100 <? voting_power
      then []
      else
        match Committee.authority committee authority_id with
        | Some auth => auth :: retrieve_from committee voting_power_threshold voting_power authorities'
        | None => retrieve_from committee voting_power_threshold voting_power authorities'
        end
  end.

Definition retrieve_first_nodes (committee : Committee.t) (authorities : list (AuthorityIdentifier * N))
    (voting_power_threshold : N) : list Authority.t :=
  retrieve_from committee voting_power_threshold 0 authorities.

Definition new {E} (committee : Committee.t) (round : Round) (scores : ReputationScores.t)
    (bad_nodes_stake_threshold : N) : outcome E t :=
  _ ← assert (bad_nodes_stake_threshold <=? 33);
  _ ← assert (ReputationScores.final_of_schedule scores);
  let ranked := ReputationScores.authorities_by_score_desc scores in
  let good_nodes := retrieve_first_nodes committee ranked bad_nodes_stake_threshold in
  let bad_nodes := collect_map ((fun a => (Authority.id a, a)) <$>
    retrieve_first_nodes committee (reverse ranked) bad_nodes_stake_threshold) in
  (* the scores looked up for the log lines *)
  _ ← foldM (fun _ a => s ← expect (ReputationScores.scores_per_authority scores !! Authority.id a); Ok ())
        () good_nodes;
  _ ← foldM (fun _ a => s ← expect (ReputationScores.scores_per_authority scores !! Authority.id a); Ok ())
        () (map_to_list bad_nodes).*2;
  Ok (mk round good_nodes bad_nodes).

Definition swap `{SeededChoice} {E} (table : t) (leader : AuthorityIdentifier) (leader_round : Round)
    : outcome E (option Authority.t) :=
  if bool_decide (is_Some (bad_nodes table !! leader)) then
    good_node ← expect (choose leader_round (good_nodes table));
    Ok (Some good_node)
  else Ok None.

End table.
End LeaderSwapTable.

Module LeaderSchedule.

Record t := mk {
  committee : Committee.t;
  leader_swap_table : LeaderSwapTable.t;
}.

Definition update_leader_swap_table (s : t) (table : LeaderSwapTable.t) : t :=
  mk (committee s) table.

Definition num_of_bad_nodes (s : t) : N :=
  N.of_nat (size (LeaderSwapTable.bad_nodes (leader_swap_table s))).

Section schedule.
Context `{NetworkKeys} `{SeededChoice}.

(** The table a schedule starts from: [from_store] and [reload_from_store] take the
    latest commit with final scores the store holds. *)
Definition table_from_commit {E} (committee : Committee.t) (commit : option CommittedSubDag.t)
    (bad_nodes_stake_threshold : N) : outcome E LeaderSwapTable.t :=
  match commit with
  | None => Ok LeaderSwapTable.default
  | Some c =>
      LeaderSwapTable.new committee (CommittedSubDag.leader_round c)
        (CommittedSubDag.reputation_score c) bad_nodes_stake_threshold
  end.

Definition from_store {E} (committee : Committee.t) (commit : option CommittedSubDag.t)
    (bad_nodes_stake_threshold : N) : outcome E t :=
  table ← table_from_commit committee commit bad_nodes_stake_threshold;
  Ok (mk committee table).

Definition reload_from_store {E} (s : t) (commit : option CommittedSubDag.t)
    (bad_nodes_stake_threshold : N) : outcome E t :=
  table ← table_from_commit (committee s) commit bad_nodes_stake_threshold;
  Ok (mk (committee s) table).

Definition leader {E} (s : t) (round : Round) : outcome E Authority.t :=
  _ ← assert (round mod 2 =? 0);
  leader ← Committee.leader (committee s) round;
  swapped ← LeaderSwapTable.swap (leader_swap_table s) (Authority.id leader) round;
  Ok (default leader swapped).

Definition leader_certificate {E} (s : t) (round : Round) (dag : Dag)
    : outcome E (Authority.t * option Certificate.t) :=
  leader ← leader s round;
  Ok (leader,
      row ← dag !! round; dc ← row !! Authority.id leader; Some dc.2).

End schedule.
End LeaderSchedule.

(** * Facts *)

Module ScheduleFacts.
Section facts.
Context `{NetworkKeys}.

(** A swap table of the committee: good nodes are members, and a bad node can
    always be replaced. *)
Definition table_wf (committee : Committee.t) (table : LeaderSwapTable.t) : Prop :=
  Forall (fun a => Committee.authority committee (Authority.id a) = Some a) (LeaderSwapTable.good_nodes table) /\
  (LeaderSwapTable.bad_nodes table <> ∅ -> LeaderSwapTable.good_nodes table <> []).

(** Thresholds for which every table built from full scores can swap. *)
Definition safe_threshold (committee : Committee.t) (threshold : N) : Prop :=
  forall (scores : ReputationScores.t),
    dom (ReputationScores.scores_per_authority scores) = Committee.members committee ->
    let ranked := ReputationScores.authorities_by_score_desc scores in
    LeaderSwapTable.retrieve_first_nodes committee (reverse ranked) threshold <> [] ->
    LeaderSwapTable.retrieve_first_nodes committee ranked threshold <> [].

Lemma retrieve_from_elem committee th vp l a :
  Committee.wf committee -> a ∈ LeaderSwapTable.retrieve_from committee th vp l ->
  Committee.authority committee (Authority.id a) = Some a /\ Authority.id a ∈ l.*1.
Proof.
  intros Hwf. revert vp. induction l as [|[i sc] l IH]; intros vp; simpl; [by intros ?%elem_of_nil|].
  case_match; [by intros ?%elem_of_nil|].
  destruct (Committee.authority committee i) as [b|] eqn:Hb; [|intros Ha%IH; set_solver].
  intros [->|Ha%IH]%elem_of_cons; [|set_solver].
  pose proof Hb as [Hid _]%(Committee.wf_index _ Hwf). rewrite Hid. split; [done|set_solver].
Qed.

Lemma ranked_elem scores i :
  i ∈ (ReputationScores.authorities_by_score_desc scores).*1 <->
  i ∈ dom (ReputationScores.scores_per_authority scores).
Proof.
  unfold ReputationScores.authorities_by_score_desc. rewrite sort_by_perm.
  rewrite list_elem_of_fmap, elem_of_dom. split.
  - intros ([j sc] & -> & Hj%elem_of_map_to_list). by eexists.
  - intros [sc Hsc]. exists (i, sc). by rewrite elem_of_map_to_list.
Qed.

(** [new] returns a well-formed table for final scores over the committee. *)
Lemma new_table_ok {E} committee round scores th :
  Committee.wf committee -> th <= 33 -> ReputationScores.final_of_schedule scores = true ->
  dom (ReputationScores.scores_per_authority scores) = Committee.members committee ->
  safe_threshold committee th ->
  exists table, @LeaderSwapTable.new _ E committee round scores th = Ok table /\ table_wf committee table.
Proof.
  intros Hwf Hth Hfin Hdom Hsafe. unfold LeaderSwapTable.new.
  destruct (N.leb_spec th 33); [|lia]. rewrite Hfin. cbn [assert mbind outcome_bind].
  set (ranked := ReputationScores.authorities_by_score_desc scores).
  set (good := LeaderSwapTable.retrieve_first_nodes committee ranked th).
  set (bad := LeaderSwapTable.retrieve_first_nodes committee (reverse ranked) th).
  rewrite !(foldM_expect (fun a => ReputationScores.scores_per_authority scores !! Authority.id a)).
  - simpl. eexists. split; [done|]. split; simpl.
    + apply Forall_forall. intros a Ha%retrieve_from_elem; [|done]. apply Ha.
    + intros Hne. apply Hsafe; [done|]. intros Hb. apply Hne. subst bad. fold ranked in Hb. by rewrite Hb.
  - intros a Ha%retrieve_from_elem; [|done]. apply elem_of_dom, ranked_elem, Ha.
  - intros a Ha. apply list_elem_of_fmap in Ha as ([i b] & -> & Ha%elem_of_map_to_list).
    apply collect_map_elem, list_elem_of_fmap in Ha as (c & [= -> ->] & Hc).
    apply retrieve_from_elem in Hc as [_ Hc]; [|done]. simpl. apply elem_of_dom, ranked_elem.
    unfold ranked in Hc. rewrite fmap_reverse in Hc. by rewrite elem_of_reverse in Hc.
Qed.

(** With threshold 0, the value the node is built with, and positive stakes, no
    authority is ever swapped. *)
Lemma safe_threshold_0 committee :
  Committee.wf committee -> Committee.stake (Committee.authorities committee) < 2 ^ 63 ->
  (forall i, i ∈ Committee.members committee -> 0 < Committee.voting_power_by_id committee i) ->
  safe_threshold committee 0.
Proof.
  intros Hwf Hb Hpos scores Hdom ranked Hne. exfalso. apply Hne.
  unfold LeaderSwapTable.retrieve_first_nodes.
  destruct (reverse ranked) as [|[i sc] l] eqn:Hr; [done|]. cbn [LeaderSwapTable.retrieve_from].
  assert (i ∈ Committee.members committee) as Hi.
  { rewrite <-Hdom. apply ranked_elem. fold ranked. apply list_elem_of_fmap. exists (i, sc).
    split; [done|]. apply elem_of_reverse. rewrite Hr. set_solver. }
  assert (Committee.voting_power_by_id committee i <= Committee.stake (Committee.authorities committee)).
  { pose proof (CommitteeFacts.weight_le_stake committee Hwf {[i]}) as Hw.
    unfold Committee.weight, weigh in Hw. rewrite elements_singleton in Hw. simpl in Hw. lia. }
  assert (u64_modulus = 2 * 2 ^ 63) as Hu by done.
  specialize (Hpos i Hi). rewrite N.add_0_l, N.mul_0_l.
  rewrite (wrap64_small (Committee.voting_power_by_id committee i)) by lia.
  assert (wrap64 0 / 100 = 0) as -> by done.
  destruct (N.ltb_spec 0 (Committee.voting_power_by_id committee i)); [done|lia].
Qed.

(** ** Leaders *)

Context `{SeededChoice}.

(** A schedule over its committee. *)
Definition schedule_wf (committee : Committee.t) (s : LeaderSchedule.t) : Prop :=
  LeaderSchedule.committee s = committee /\ table_wf committee (LeaderSchedule.leader_swap_table s).

Definition has_stake (committee : Committee.t) : Prop :=
  exists a, a ∈ btree_values (Committee.authorities committee) /\ 0 < Authority.voting_power a.

Lemma leader_ok {E} committee s r :
  Committee.wf committee -> has_stake committee -> schedule_wf committee s -> r mod 2 = 0 ->
  exists a, @LeaderSchedule.leader _ _ E s r = Ok a /\
    Committee.authority committee (Authority.id a) = Some a.
Proof.
  intros Hwf (a & Ha & Hpos) [<- [Hgood Hbad]] Hr. unfold LeaderSchedule.leader.
  rewrite Hr. cbn [N.eqb assert mbind outcome_bind].
  assert (is_Some (choose_weighted r ((fun a => (a, Authority.voting_power a)) <$>
    btree_values (Committee.authorities (LeaderSchedule.committee s))))) as [b Hb].
  { apply choose_weighted_some. exists a, (Authority.voting_power a). split; [|done].
    by apply (list_elem_of_fmap_2 (fun a => (a, Authority.voting_power a))). }
  unfold Committee.leader. rewrite Hb. cbn [expect mbind outcome_bind].
  assert (Committee.authority (LeaderSchedule.committee s) (Authority.id b) = Some b) as Hauth.
  { apply choose_weighted_elem in Hb as [w Hb]. apply list_elem_of_fmap in Hb as (c & [= <- ->] & Hc).
    apply elem_of_btree_values in Hc as [k Hk]. apply (Committee.wf_index _ Hwf). by eauto. }
  unfold LeaderSwapTable.swap. case_bool_decide as Hsw; [|by exists b].
  destruct (choose_some r (LeaderSwapTable.good_nodes (LeaderSchedule.leader_swap_table s))) as [g Hg].
  { apply Hbad. intros He. rewrite He, lookup_empty in Hsw. by destruct Hsw. }
  rewrite Hg. simpl. exists g. split; [done|]. apply choose_elem in Hg.
  rewrite Forall_forall in Hgood. by apply Hgood.
Qed.

End facts.
End ScheduleFacts.
