(* ===== verification/Bullshark.v ===== *)
(** The Bullshark protocol: leader election, commits and schedule changes.
    Models crates/consensus/primary/src/consensus/bullshark.rs and the [Outcome]
    of mod.rs.  Metrics, logs and the wall clock are left out; what they evaluate
    that can panic is kept. *)

From S2P Require Import Prelude Committee Certificate Output ConsensusState OrderDag LeaderSchedule.

Inductive Outcome :=
  | CertificateBelowCommitRound
  | NoLeaderElectedForOddRound
  | LeaderBelowCommitRound
  | LeaderNotFound
  | NotEnoughSupportForLeader
  | Commit
  | ScheduleChanged.

#[global] Instance Outcome_eq_dec : EqDecision Outcome.
Proof. solve_decision. Defined.

(** [(lo..hi).rev()] *)
Definition rev_range (lo hi : N) : list N :=
  (fun i => hi - 1 - N.of_nat i) <$> seq 0 (N.to_nat (hi - lo)).

(** [(lo..=hi).rev().step_by(2)] *)
Definition rev_range_step2 (lo hi : N) : list N :=
  if hi <? lo then []
  else (fun i => hi - 2 * N.of_nat i) <$> seq 0 (S (N.to_nat ((hi - lo) / 2))).

Module Bullshark.

Record t := mk {
  committee : Committee.t;
  max_inserted_certificate_round : Round;
  num_sub_dags_per_schedule : N;
  leader_schedule : LeaderSchedule.t;
  bad_nodes_stake_threshold : N;
}.

Definition new (committee : Committee.t) (num_sub_dags_per_schedule : N)
    (leader_schedule : LeaderSchedule.t) (bad_nodes_stake_threshold : N) : t :=
  mk committee 0 num_sub_dags_per_schedule leader_schedule bad_nodes_stake_threshold.

Definition set_leader_schedule (b : t) (s : LeaderSchedule.t) : t :=
  mk (committee b) (max_inserted_certificate_round b) (num_sub_dags_per_schedule b) s
    (bad_nodes_stake_threshold b).

Section bullshark.
Context `{NetworkKeys} `{Crypto} `{SeededChoice}.

(** [a % b] panics when [b] is zero. *)
Definition checked_rem {E} (a b : N) : outcome E N := if b =? 0 then Panic else Ok (a mod b).

Definition resolve_reputation_score {E} (b : t) (s : ConsensusState.t)
    (committed_sequence : list Certificate.t) (sub_dag_index : N) : outcome E ReputationScores.t :=
  rem ← checked_rem (sub_dag_index / 2) (num_sub_dags_per_schedule b);
  let reputation_score :=
    if rem =? 0 then ReputationScores.new (committee b)
    else match ConsensusState.last_committed_sub_dag s with
         | Some last => CommittedSubDag.reputation_score last
         | None => ReputationScores.new (committee b)
         end in
  let reputation_score :=
    match ConsensusState.last_committed_sub_dag s with
    | Some last_committed_sub_dag =>
        foldl (fun score certificate =>
            if bool_decide (Certificate.digest (CommittedSubDag.leader last_committed_sub_dag)
                              ∈ Certificate.parents certificate)
            then ReputationScores.add_score score (Certificate.origin certificate) 1
            else score)
          reputation_score committed_sequence
    | None => reputation_score
    end in
  rem' ← checked_rem (wrap64 (sub_dag_index / 2 + 1)) (num_sub_dags_per_schedule b);
  let reputation_score := ReputationScores.set_final reputation_score (rem' =? 0) in
  _ ← assert (ReputationScores.total_authorities reputation_score =? Committee.size (committee b));
  Ok reputation_score.

(** Checks if there is a path between two leaders. *)
Definition linked (leader prev_leader : Certificate.t) (dag : Dag) : bool :=
  let parents :=
    foldl (fun parents r =>
        match dag !! r with
        | Some row =>
            (filter (fun dc => existsb (fun x => bool_decide (dc.1 ∈ Certificate.parents x)) parents = true)
               (map_to_list row).*2).*2
        | None => []
        end)
      [leader] (rev_range (Certificate.round prev_leader) (Certificate.round leader)) in
  existsb (fun x => Certificate.eqb x prev_leader) parents.

(** The body of the loop of [order_leaders] at round [r], on the last leader taken
    and the leaders to commit. *)
Definition order_leaders_step {E} (b : t) (dag : Dag) (acc : Certificate.t * list Certificate.t)
    (r : Round) : outcome E (Certificate.t * list Certificate.t) :=
  let '(leader, to_commit) := acc in
  found ← LeaderSchedule.leader_certificate (leader_schedule b) r dag;
  match found.2 with
  | None => Ok acc
  | Some prev_leader =>
      if linked leader prev_leader dag
      then Ok (prev_leader, prev_leader :: to_commit)
      else Ok acc
  end.

(** Order the past leaders that we didn't already commit, oldest first. *)
Definition order_leaders {E} (b : t) (leader : Certificate.t) (s : ConsensusState.t)
    : outcome E (list Certificate.t) :=
  _ ← assert (Certificate.round leader mod 2 =? 0);
  acc ← foldM (order_leaders_step b (ConsensusState.dag s)) (leader, [leader])
    (rev_range_step2 (ConsensusState.committed_round s + 2)
       (wrapping_sub32 (Certificate.round leader) 2));
  _ ← foldM (fun _ c => a ← expect (Committee.authority (committee b) (Certificate.origin c)); Ok ())
        () acc.2;
  Ok acc.2.

(** Returns the updated protocol and whether the schedule has been updated. *)
Definition update_leader_schedule {E} (b : t) (leader_round : Round)
    (reputation_scores : ReputationScores.t) : outcome E (t * bool) :=
  if ReputationScores.final_of_schedule reputation_scores then
    table ← LeaderSwapTable.new (committee b) leader_round reputation_scores
              (bad_nodes_stake_threshold b);
    Ok (set_leader_schedule b
          (LeaderSchedule.update_leader_swap_table (leader_schedule b) table), true)
  else Ok (b, false).

(** The stake of the certificates of a round that reference the leader. *)
Definition support (b : t) (row : gmap AuthorityIdentifier (Digest * Certificate.t))
    (leader : Certificate.t) : VotingPower :=
  wrap64 (sumN ((fun dc => Committee.voting_power_by_id (committee b) (Certificate.origin dc.2)) <$>
    filter (fun dc => Certificate.digest leader ∈ Certificate.parents dc.2) (map_to_list row).*2)).

(** [while let Some(leader) = leaders_to_commit.pop_front()] *)
Fixpoint commit_leaders {E} (b : t) (s : ConsensusState.t) (leaders_to_commit : list Certificate.t)
    (committed_sub_dags : list CommittedSubDag.t)
    : outcome E (t * ConsensusState.t * Outcome * list CommittedSubDag.t) :=
  match leaders_to_commit with
  | [] => Ok (b, s, Commit, committed_sub_dags)
  | leader :: leaders_to_commit' =>
      let sub_dag_index := Certificate.nonce leader in
      sequence ← order_dag leader s;
      let s := foldl ConsensusState.update s sequence in
      reputation_score ← resolve_reputation_score b s sequence sub_dag_index;
      let sub_dag :=
        CommittedSubDag.new sequence leader sub_dag_index reputation_score
          (ConsensusState.last_committed_sub_dag s) in
      let s := ConsensusState.set_last_committed_sub_dag s sub_dag in
      let committed_sub_dags := committed_sub_dags ++ [sub_dag] in
      upd ← update_leader_schedule b (Certificate.round leader) reputation_score;
      if upd.2 && bool_decide (leaders_to_commit' <> [])
      then Ok (upd.1, s, ScheduleChanged, committed_sub_dags)
      else commit_leaders upd.1 s leaders_to_commit' committed_sub_dags
  end.

Definition commit_leader {E} (b : t) (leader_round : Round) (s : ConsensusState.t)
    : outcome E (t * ConsensusState.t * Outcome * list CommittedSubDag.t) :=
  found ← LeaderSchedule.leader_certificate (leader_schedule b) leader_round (ConsensusState.dag s);
  match found.2 with
  | None => Ok (b, s, LeaderNotFound, [])
  | Some leader =>
      row ← expect (ConsensusState.dag s !! (leader_round + 1));
      if support b row leader <? Committee.validity_threshold (committee b)
      then Ok (b, s, NotEnoughSupportForLeader, [])
      else
        leaders_to_commit ← order_leaders b leader s;
        commit_leaders b s leaders_to_commit []
  end.

(** The loop of [process_certificate]: commit again while the schedule changes. *)
Fixpoint commit_loop {E} (fuel : nat) (b : t) (leader_round : Round) (s : ConsensusState.t)
    (committed_sub_dags : list CommittedSubDag.t)
    : outcome E (t * ConsensusState.t * Outcome * list CommittedSubDag.t) :=
  match fuel with
  | O => OutOfFuel
  | S fuel' =>
      res ← commit_leader b leader_round s;
      let '(b, s, outcome, committed) := res in
      let committed_sub_dags := committed_sub_dags ++ committed in
      if bool_decide (outcome = ScheduleChanged)
      then commit_loop fuel' b leader_round s committed_sub_dags
      else Ok (b, s, outcome, committed_sub_dags)
  end.

Definition report_leader_on_time_metrics {E} (b : t) (certificate_round : Round) : outcome E t :=
  _ ← (if (max_inserted_certificate_round b <? certificate_round)
          && (certificate_round mod 2 =? 0) && (2 <? certificate_round)
       then a ← LeaderSchedule.leader (leader_schedule b) (certificate_round - 2); Ok ()
       else Ok ());
  Ok (mk (committee b) (N.max (max_inserted_certificate_round b) certificate_round)
        (num_sub_dags_per_schedule b) (leader_schedule b) (bad_nodes_stake_threshold b)).

Definition process_certificate (b : t) (s : ConsensusState.t) (certificate : Certificate.t)
    : t * ConsensusState.t * outcome ConsensusError (Outcome * list CommittedSubDag.t) :=
  let round := Certificate.round certificate in
  let '(s, inserted) := ConsensusState.try_insert s certificate in
  match inserted with
  | Err e => (b, s, Err e)
  | Panic => (b, s, Panic)
  | OutOfFuel => (b, s, OutOfFuel)
  | Ok false => (b, s, Ok (CertificateBelowCommitRound, []))
  | Ok true =>
      match report_leader_on_time_metrics b round with
      | Err e => (b, s, Err e)
      | Panic => (b, s, Panic)
      | OutOfFuel => (b, s, OutOfFuel)
      | Ok b =>
          let r := wrapping_sub32 round 1 in
          if negb (r mod 2 =? 0) || (r <? 2) then (b, s, Ok (NoLeaderElectedForOddRound, [])) else
          let leader_round := r in
          if leader_round <=? ConsensusState.committed_round s
          then (b, s, Ok (LeaderBelowCommitRound, [])) else
          match commit_loop (N.to_nat leader_round) b leader_round s [] with
          | Err e => (b, s, Err e)
          | Panic => (b, s, Panic)
          | OutOfFuel => (b, s, OutOfFuel)
          | Ok (b, s, outcome, committed_sub_dags) =>
              match committed_sub_dags with
              | [] => (b, s, Ok (outcome, []))
              | _ => (b, s, Ok (Commit, committed_sub_dags))
              end
          end
      end
  end.

End bullshark.
End Bullshark.
