(* ===== verification/BullsharkFacts.v ===== *)
(** Facts about Bullshark: paths between leaders, the order of leaders, and what a
    sequence of commits does to the state. *)

From S2P Require Import Prelude Committee Certificate Output ConsensusState OrderDag LeaderSchedule Bullshark.
Import DagFacts ScheduleFacts Bullshark.

(** * What a commit is *)

Section commits.
Context `{NetworkKeys} `{Crypto}.

(** Committing one leader: its sub-dag is flattened, every certificate of it is
    recorded as committed, and the sub-dag becomes the last one. *)
Record commit_step (s : ConsensusState.t) (d : CommittedSubDag.t) (s' : ConsensusState.t) : Prop := {
  step_leader : in_dag (ConsensusState.dag s) (CommittedSubDag.leader d);
  step_even : Certificate.round (CommittedSubDag.leader d) mod 2 = 0;
  step_above : ConsensusState.committed_round s < Certificate.round (CommittedSubDag.leader d);
  step_nodup : NoDup (CommittedSubDag.certificates d);
  step_elem y : y ∈ CommittedSubDag.certificates d <-> sub_dag s (CommittedSubDag.leader d) y;
  step_sorted : StronglySorted (fun x y => Certificate.round x <= Certificate.round y)
    (CommittedSubDag.certificates d);
  step_time : CommittedSubDag.commit_timestamp_field d =
    N.max (from_option CommittedSubDag.commit_timestamp_field 0 (ConsensusState.last_committed_sub_dag s))
      (Header.created_at (Certificate.header (CommittedSubDag.leader d)));
  step_state : s' = ConsensusState.set_last_committed_sub_dag
    (foldl ConsensusState.update s (CommittedSubDag.certificates d)) d;
}.

Inductive commits : ConsensusState.t -> list CommittedSubDag.t -> ConsensusState.t -> Prop :=
  | commits_nil s : commits s [] s
  | commits_cons s d s1 ds s2 : commit_step s d s1 -> commits s1 ds s2 -> commits s (d :: ds) s2.

Lemma commits_one s d s' : commit_step s d s' -> commits s [d] s'.
Proof. intros. econstructor; [done|constructor]. Qed.

Lemma commits_app s ds s1 ds' s2 :
  commits s ds s1 -> commits s1 ds' s2 -> commits s (ds ++ ds') s2.
Proof. induction 1; simpl; [done|]. intros. econstructor; eauto. Qed.

(** The scores of the last sub-dag cover the committee. *)
Definition scores_wf (committee : Committee.t) (s : ConsensusState.t) : Prop :=
  forall d, ConsensusState.last_committed_sub_dag s = Some d ->
    dom (ReputationScores.scores_per_authority (CommittedSubDag.reputation_score d)) =
      Committee.members committee.

Context `{SeededChoice}.

(** The configuration of the protocol: a loaded committee with stake, a schedule
    of that committee, and parameters in range. *)
Record bullshark_wf (b : Bullshark.t) : Prop := {
  bs_committee : Committee.wf (committee b);
  bs_stake : Committee.stake (Committee.authorities (committee b)) < 2 ^ 63;
  bs_power : has_stake (committee b);
  bs_schedule : schedule_wf (committee b) (leader_schedule b);
  bs_period : 0 < num_sub_dags_per_schedule b;
  bs_threshold : bad_nodes_stake_threshold b <= 33;
  bs_safe : safe_threshold (committee b) (bad_nodes_stake_threshold b);
}.

End commits.

(** * Ranges *)

Lemma rev_range_nil lo hi : hi <= lo -> rev_range lo hi = [].
Proof. intros. unfold rev_range. assert (hi - lo = 0) as -> by lia. done. Qed.

Lemma rev_range_cons lo hi : lo < hi -> rev_range lo hi = (hi - 1) :: rev_range lo (hi - 1).
Proof.
  intros. unfold rev_range.
  assert (N.to_nat (hi - lo) = S (N.to_nat (hi - 1 - lo))) as -> by lia.
  cbn [seq]. rewrite <-fmap_S_seq. cbn [fmap list_fmap]. rewrite <-list_fmap_compose. f_equal; [lia|].
  apply list_fmap_ext. intros i x _. unfold compose. lia.
Qed.

Lemma elem_of_rev_range_step2 lo hi r :
  r ∈ rev_range_step2 lo hi -> lo <= r <= hi /\ r mod 2 = hi mod 2.
Proof.
  unfold rev_range_step2. destruct (N.ltb_spec hi lo); [by intros ?%elem_of_nil|].
  intros (i & -> & Hi)%list_elem_of_fmap. apply elem_of_seq in Hi. div_lia.
Qed.

Lemma rev_range_step2_desc lo hi : StronglySorted (fun a b => b < a) (rev_range_step2 lo hi).
Proof.
  unfold rev_range_step2. destruct (N.ltb_spec hi lo); [constructor|].
  assert (2 * N.of_nat (N.to_nat ((hi - lo) / 2)) <= hi) as Hb by div_lia.
  revert Hb. generalize (N.to_nat ((hi - lo) / 2)) as n. intros n Hb.
  assert (forall k m, 2 * N.of_nat (k + m) <= hi + 2 -> StronglySorted (fun a b => b < a)
    ((fun i => hi - 2 * N.of_nat i) <$> seq k m)) as Hgen; [|apply Hgen; lia].
  intros k m. revert k. induction m as [|m IH]; intros k Hk; simpl; constructor; [apply IH; lia|].
  apply Forall_forall. intros x (i & -> & Hi%elem_of_seq)%list_elem_of_fmap. lia.
Qed.

(** * Paths *)

Section paths.
Context `{NetworkKeys} `{Crypto} (committee : Committee.t) (dag : Dag).
Context (Hdag : dag_wf committee dag).

(** One round of [linked]. *)
Definition linked_step (parents : list Certificate.t) (r : Round) : list Certificate.t :=
  match dag !! r with
  | Some row =>
      (filter (fun dc => existsb (fun x => bool_decide (dc.1 ∈ Certificate.parents x)) parents = true)
         (map_to_list row).*2).*2
  | None => []
  end.

Lemma elem_of_linked_step parents r x :
  x ∈ linked_step parents r <->
  in_dag dag x /\ Certificate.round x = r /\
  exists p, p ∈ parents /\ Certificate.digest x ∈ Certificate.parents p.
Proof.
  unfold linked_step. split.
  - destruct (dag !! r) as [row|] eqn:Hrow; [|by intros ?%elem_of_nil].
    intros ([d c] & -> & Hin)%list_elem_of_fmap. apply list_elem_of_filter in Hin as [Hp Hin].
    apply list_elem_of_fmap in Hin as ([a dc] & Heq & Hin%elem_of_map_to_list). simplify_eq/=.
    assert (entry dag r a = Some (d, c)) as He by (unfold entry; by rewrite Hrow).
    pose proof (Hdag _ _ _ _ He) as (Hr & _ & Hd & _). split_and!; [by eapply entry_in_dag|done|].
    apply existsb_exists in Hp as (p & Hp & Hdp%bool_decide_eq_true). exists p.
    rewrite list_elem_of_In, Hd. done.
  - intros (Hin & <- & p & Hp & Hd). unfold in_dag, entry in Hin.
    destruct (dag !! Certificate.round x) as [row|] eqn:Hrow; simpl in Hin; [|done].
    apply list_elem_of_fmap. exists (Certificate.digest x, x). split; [done|].
    apply list_elem_of_filter. split.
    + apply existsb_exists. exists p. rewrite <-list_elem_of_In. split; [done|]. by apply bool_decide_eq_true.
    + apply list_elem_of_fmap. exists (Certificate.origin x, (Certificate.digest x, x)).
      by rewrite elem_of_map_to_list.
Qed.

(** After [n] rounds the candidates are what [n] parent links reach. *)
Lemma linked_steps n R parents x :
  (forall p, p ∈ parents -> Certificate.round p = R) -> N.of_nat n <= R ->
  x ∈ foldl linked_step parents (rev_range (R - N.of_nat n) R) <->
  exists p, p ∈ parents /\ nsteps (parent_of dag) n p x.
Proof.
  revert R parents. induction n as [|n IH]; intros R parents HR Hn.
  - rewrite rev_range_nil by lia. simpl. split.
    + intros Hx. exists x. split; [done|constructor].
    + intros (p & Hp & Hsteps). by inversion Hsteps; subst.
  - rewrite rev_range_cons by lia. cbn [foldl].
    replace (R - N.of_nat (S n)) with ((R - 1) - N.of_nat n) by lia.
    rewrite IH by (intros; rewrite ?elem_of_linked_step in *; (lia || naive_solver)).
    setoid_rewrite elem_of_linked_step. split.
    + intros (q & (Hq & Hrq & p & Hp & Hd) & Hsteps). exists p. split; [done|].
      econstructor; [|done]. split_and!; [done| |done]. rewrite (HR p Hp). lia.
    + intros (p & Hp & Hsteps). inversion Hsteps as [|? ? q ? (Hq & Hrq & Hd) Hrest]; subst.
      exists q. rewrite (HR p Hp) in Hrq. split; [|done]. split_and!; [done|lia|by exists p].
Qed.

Lemma nsteps_round n x y :
  nsteps (parent_of dag) n x y -> Certificate.round y + N.of_nat n = Certificate.round x.
Proof. induction 1 as [|n x y z (_ & Hr & _) _ IH]; lia. Qed.

Lemma rtc_in_dag x y : in_dag dag x -> rtc (parent_of dag) x y -> in_dag dag y.
Proof. intros Hx Hxy. revert Hx. induction Hxy as [|x y z (Hy & _) _ IH]; auto. Qed.

Lemma eqb_in_dag `{!CollisionFree} x y :
  in_dag dag x -> in_dag dag y -> Certificate.eqb x y = true <-> x = y.
Proof.
  intros Hx Hy. split.
  - unfold Certificate.eqb. intros He. apply (in_dag_digest committee dag); [done..|].
    unfold Certificate.digest. lia.
  - intros ->. unfold Certificate.eqb. rewrite !N.eqb_refl. done.
Qed.

(** [linked] decides reachability over parent links. *)
Lemma linked_iff `{!CollisionFree} leader prev :
  in_dag dag leader -> in_dag dag prev ->
  linked leader prev dag = true <-> rtc (parent_of dag) leader prev.
Proof.
  intros Hl Hp. unfold linked. fold linked_step.
  change (foldl _ _ _) with (foldl linked_step [leader] (rev_range (Certificate.round prev) (Certificate.round leader))).
  rewrite existsb_exists. setoid_rewrite <-list_elem_of_In. rewrite rtc_nsteps.
  destruct (N.le_gt_cases (Certificate.round prev) (Certificate.round leader)) as [Hle|Hgt].
  - set (n := N.to_nat (Certificate.round leader - Certificate.round prev)).
    assert (Certificate.round prev = Certificate.round leader - N.of_nat n) as Hn by lia.
    assert (forall x, x ∈ foldl linked_step [leader] (rev_range (Certificate.round prev) (Certificate.round leader))
      <-> nsteps (parent_of dag) n leader x) as Hel.
    { intros x. rewrite Hn, linked_steps; [|by intros p ->%list_elem_of_singleton|lia].
      setoid_rewrite list_elem_of_singleton. naive_solver. }
    setoid_rewrite Hel. split.
    + intros (x & Hx & He). exists n. rewrite eqb_in_dag in He; [by subst| |done].
      apply (rtc_in_dag leader); [done|]. apply rtc_nsteps. eauto.
    + intros (m & Hm). exists prev. pose proof (nsteps_round _ _ _ Hm). assert (m = n) as <- by lia.
      split; [done|]. by apply eqb_in_dag.
  - rewrite rev_range_nil by lia. simpl. split.
    + intros (x & ->%list_elem_of_singleton & He). apply eqb_in_dag in He; [subst; lia|done..].
    + intros (m & Hm). apply nsteps_round in Hm. lia.
Qed.
End paths.

(** * Recording a committed sequence *)

Section recording.
Context `{NetworkKeys} `{Crypto}.
Implicit Types (s : ConsensusState.t) (l : list Certificate.t).

Lemma fold_update_wf committee s l :
  state_wf committee s -> state_wf committee (foldl ConsensusState.update s l).
Proof. revert s. induction l; simpl; intros; [done|]. auto using update_wf. Qed.

Lemma fold_update_committed_round s l :
  ConsensusState.committed_round (foldl ConsensusState.update s l) =
    foldr N.max (ConsensusState.committed_round s) (Certificate.round <$> l).
Proof.
  revert s. induction l as [|x l IH]; intros s; [done|]. cbn [foldl fmap list_fmap foldr].
  rewrite IH, update_committed_round. generalize (Certificate.round <$> l) as k.
  induction k as [|r k IHk]; simpl; lia.
Qed.

Lemma foldr_max_ge (k : list N) n r : r ∈ k -> r <= foldr N.max n k.
Proof. induction k as [|x k IH]; [by intros ?%elem_of_nil|]. intros [->|Hr%IH]%elem_of_cons; simpl; lia. Qed.

Lemma foldr_max_le (k : list N) n m : n <= m -> (forall r, r ∈ k -> r <= m) -> foldr N.max n k <= m.
Proof.
  intros Hn. induction k as [|x k IH]; simpl; intros Hk; [done|].
  apply N.max_lub; [|apply IH]; set_solver.
Qed.

Lemma fold_update_sub_dag s l :
  ConsensusState.last_committed_sub_dag (foldl ConsensusState.update s l) =
    ConsensusState.last_committed_sub_dag s.
Proof. revert s. induction l as [|x l IH]; intros s; [done|]. cbn [foldl]. by rewrite IH. Qed.

(** Committed rounds of an author only grow ... *)
Lemma fold_update_mono s l a r :
  ConsensusState.last_committed s !! a = Some r ->
  exists r', ConsensusState.last_committed (foldl ConsensusState.update s l) !! a = Some r' /\ r <= r'.
Proof.
  revert s r. induction l as [|x l IH]; intros s r Ha; [by eauto|]. cbn [foldl].
  pose proof (update_last_committed s x a) as Hu. case_decide.
  - destruct (IH _ _ Hu) as (r' & ? & ?). rewrite Ha in *. simpl in *. eexists. split; [done|lia].
  - rewrite Ha in Hu. by apply IH.
Qed.

(** ... cover what is committed ... *)
Lemma fold_update_covers s l x :
  x ∈ l -> exists r, ConsensusState.last_committed (foldl ConsensusState.update s l) !! Certificate.origin x = Some r
    /\ Certificate.round x <= r.
Proof.
  revert s. induction l as [|y l IH]; intros s; [by intros ?%elem_of_nil|].
  intros [->|Hx]%elem_of_cons; cbn [foldl]; [|by apply IH].
  destruct (fold_update_mono (ConsensusState.update s y) l (Certificate.origin y)
    (N.max (default 0 (ConsensusState.last_committed s !! Certificate.origin y)) (Certificate.round y)))
    as (r & ? & ?); [by rewrite update_last_committed, decide_True|].
  eexists. split; [done|lia].
Qed.

(** ... and come from there. *)
Lemma fold_update_origin s l a r :
  ConsensusState.last_committed (foldl ConsensusState.update s l) !! a = Some r ->
  ConsensusState.last_committed s !! a = Some r \/
  exists x, x ∈ l /\ Certificate.origin x = a /\ Certificate.round x = r.
Proof.
  revert s. induction l as [|y l IH]; intros s; cbn [foldl]; [by left|].
  intros [Hu|(x & ? & ? & ?)]%IH; [|right; exists x; set_solver].
  rewrite update_last_committed in Hu. case_decide as Ha; [|by left]. simplify_eq.
  destruct (ConsensusState.last_committed s !! Certificate.origin y) as [r0|] eqn:Hr0; simpl.
  - destruct (N.le_gt_cases r0 (Certificate.round y)).
    + right. exists y. split_and!; [set_solver|done|lia].
    + left. rewrite N.max_l by lia. done.
  - right. exists y. split_and!; [set_solver|done|lia].
Qed.

Lemma fold_update_in_dag s l c :
  in_dag (ConsensusState.dag s) c ->
  ConsensusState.committed_round (foldl ConsensusState.update s l) < Certificate.round c ->
  in_dag (ConsensusState.dag (foldl ConsensusState.update s l)) c.
Proof.
  revert s. induction l as [|x l IH]; intros s Hin Hr; [done|]. cbn [foldl] in *. apply IH; [|done].
  simpl. apply in_dag_filter. split; [done|]. rewrite fold_update_committed_round in Hr.
  assert (ConsensusState.committed_round (ConsensusState.update s x) <=
    foldr N.max (ConsensusState.committed_round (ConsensusState.update s x)) (Certificate.round <$> l)).
  { generalize (Certificate.round <$> l) as k. induction k; simpl; lia. }
  rewrite update_committed_round in *. unfold gc_round_of. unfold ConsensusState.committed_round in *. lia.
Qed.

Lemma fold_update_row s l r :
  is_Some (ConsensusState.dag s !! r) ->
  ConsensusState.committed_round (foldl ConsensusState.update s l) < r ->
  is_Some (ConsensusState.dag (foldl ConsensusState.update s l) !! r).
Proof.
  revert s. induction l as [|x l IH]; intros s [row Hrow] Hr; [done|]. cbn [foldl] in *. apply IH; [|done].
  simpl. exists row. apply map_lookup_filter_Some. split; [done|]. simpl.
  rewrite fold_update_committed_round in Hr.
  assert (ConsensusState.committed_round (ConsensusState.update s x) <=
    foldr N.max (ConsensusState.committed_round (ConsensusState.update s x)) (Certificate.round <$> l)).
  { generalize (Certificate.round <$> l) as k. induction k; simpl; lia. }
  rewrite update_committed_round in *. unfold gc_round_of. unfold ConsensusState.committed_round in *. lia.
Qed.
End recording.

(** * Sub-dags *)

Section sub_dags.
Context `{NetworkKeys} `{Crypto} (committee : Committee.t).
Implicit Types (s : ConsensusState.t).

Lemma sub_dag_inv s leader y :
  in_dag (ConsensusState.dag s) leader -> sub_dag s leader y ->
  in_dag (ConsensusState.dag s) y /\ Certificate.round y <= Certificate.round leader /\
  (y = leader \/ (fresh s y /\ Certificate.round y < Certificate.round leader)).
Proof.
  intros Hl. revert y. apply (rtc_ind_r (fun y => in_dag (ConsensusState.dag s) y /\
    Certificate.round y <= Certificate.round leader /\
    (y = leader \/ (fresh s y /\ Certificate.round y < Certificate.round leader)))).
  - split_and!; [done|lia|by left].
  - intros x y _ (_ & (Hy & Hr & _) & Hf) (_ & Hrx & _). split_and!; [done|lia|].
    right. split; [done|lia].
Qed.

(** After a commit the committed round is the leader's. *)
Lemma commit_step_round s d s' :
  commit_step s d s' ->
  ConsensusState.committed_round s' = Certificate.round (CommittedSubDag.leader d).
Proof.
  intros [Hl Heven Habove Hnd Hel Hs Ht ->].
  change (ConsensusState.committed_round (foldl ConsensusState.update s (CommittedSubDag.certificates d)) =
    Certificate.round (CommittedSubDag.leader d)).
  rewrite fold_update_committed_round. apply N.le_antisymm.
  - apply foldr_max_le; [lia|]. intros r (y & -> & Hy%Hel)%list_elem_of_fmap.
    by apply sub_dag_inv in Hy as (_ & ? & _).
  - apply foldr_max_ge. apply list_elem_of_fmap_2, Hel. apply rtc_refl.
Qed.

Lemma commit_step_wf s d s' :
  commit_step s d s' -> state_wf committee s -> state_wf committee s'.
Proof.
  intros Hstep Hs. rewrite (step_state _ _ _ Hstep).
  apply (fold_update_wf committee s (CommittedSubDag.certificates d)) in Hs. by destruct Hs.
Qed.

(** A committed certificate is new for its author, and recorded. *)
Lemma commit_step_fresh s d s' y :
  state_wf committee s -> commit_step s d s' -> y ∈ CommittedSubDag.certificates d -> fresh s y.
Proof.
  intros Hs Hstep Hy%(step_elem _ _ _ Hstep).
  apply sub_dag_inv in Hy as (_ & _ & [->|[? _]]); [|done|apply (step_leader _ _ _ Hstep)].
  intros r Hr%(state_committed _ _ Hs). pose proof (step_above _ _ _ Hstep). lia.
Qed.

(** The rounds of each author grow along a sequence of certificates. *)
Definition author_increasing (l : list Certificate.t) : Prop :=
  StronglySorted (fun x y => Certificate.origin x = Certificate.origin y ->
    Certificate.round x < Certificate.round y) l.

Lemma commit_step_increasing s d s' :
  commit_step s d s' -> author_increasing (CommittedSubDag.certificates d).
Proof.
  intros Hstep. assert (forall y, y ∈ CommittedSubDag.certificates d -> in_dag (ConsensusState.dag s) y) as Hin.
  { intros y Hy%(step_elem _ _ _ Hstep). apply sub_dag_inv in Hy as [? _]; [done|apply (step_leader _ _ _ Hstep)]. }
  pose proof (step_nodup _ _ _ Hstep) as Hnd. unfold author_increasing.
  induction (step_sorted _ _ _ Hstep) as [|x l Hs IH Hx]; constructor.
  - apply IH; [set_solver|by apply NoDup_cons in Hnd as [_ ?]].
  - apply NoDup_cons in Hnd as [Hni Hnd]. rewrite Forall_forall in Hx. apply Forall_forall.
    intros y Hy Ho. specialize (Hx y Hy).
    destruct (decide (Certificate.round x = Certificate.round y)) as [Hr|]; [|lia].
    destruct Hni. by rewrite (in_dag_unique (ConsensusState.dag s) x y) by (done || set_solver).
Qed.

(** All certificates of a list of sub-dags, in commit order. *)
Definition committed_certificates (ds : list CommittedSubDag.t) : list Certificate.t :=
  ds ≫= CommittedSubDag.certificates.

(** What a sequence of commits guarantees, from state [s] to [s']. *)
Record commits_inv s (ds : list CommittedSubDag.t) s' : Prop := {
  ci_wf : state_wf committee s';
  ci_fresh y : y ∈ committed_certificates ds -> fresh s y;
  ci_recorded y : y ∈ committed_certificates ds ->
    exists r, ConsensusState.last_committed s' !! Certificate.origin y = Some r /\ Certificate.round y <= r;
  ci_mono a r : ConsensusState.last_committed s !! a = Some r ->
    exists r', ConsensusState.last_committed s' !! a = Some r' /\ r <= r';
  ci_certs y : y ∈ committed_certificates ds -> cert_wf committee y;
  ci_increasing : author_increasing (committed_certificates ds);
  ci_round : ConsensusState.committed_round s <= ConsensusState.committed_round s';
}.

Lemma commits_inv_nil s : state_wf committee s -> commits_inv s [] s.
Proof.
  constructor; simpl; [done|by intros y ?%elem_of_nil..|by eauto|by intros y ?%elem_of_nil|constructor|done].
Qed.

Lemma commits_inv_step s d s' :
  state_wf committee s -> commit_step s d s' -> commits_inv s [d] s'.
Proof.
  intros Hs Hstep. unfold committed_certificates. constructor; unfold committed_certificates; simpl;
    rewrite ?app_nil_r.
  - by eapply commit_step_wf.
  - intros y Hy. by eapply commit_step_fresh.
  - intros y Hy. rewrite (step_state _ _ _ Hstep). by apply fold_update_covers.
  - intros a r. rewrite (step_state _ _ _ Hstep). apply fold_update_mono.
  - intros y Hy%(step_elem _ _ _ Hstep). apply sub_dag_inv in Hy as (Hy & _); [|by destruct Hstep].
    eapply in_dag_wf; [apply Hs|done].
  - by eapply commit_step_increasing.
  - rewrite (commit_step_round _ _ _ Hstep). pose proof (step_above _ _ _ Hstep). lia.
Qed.

(** Commits compose, also when the DAG grew in between. *)
Lemma commits_inv_trans s ds s1 s1' ds' s2 :
  commits_inv s ds s1 -> ConsensusState.last_committed s1' = ConsensusState.last_committed s1 ->
  ConsensusState.committed_round s1' = ConsensusState.committed_round s1 ->
  commits_inv s1' ds' s2 -> commits_inv s (ds ++ ds') s2.
Proof.
  intros [_ Hf Hr Hm Hw Hi Hc] Hlc Hcr [Hwf2 Hf2 Hr2 Hm2 Hw2 Hi2 Hc2]. rewrite Hlc in *.
  assert (committed_certificates (ds ++ ds') = committed_certificates ds ++ committed_certificates ds') as Happ.
  { unfold committed_certificates. apply bind_app. }
  assert (Hf2' : forall y, y ∈ committed_certificates ds' -> forall r,
    ConsensusState.last_committed s1 !! Certificate.origin y = Some r -> r < Certificate.round y).
  { intros y Hy r Hyr. apply (Hf2 y Hy). by rewrite Hlc. }
  constructor; rewrite ?Happ; [done|..].
  - intros y [Hy|Hy]%elem_of_app; [by apply Hf|]. intros r Hyr.
    destruct (Hm _ _ Hyr) as (r' & Hr' & ?). specialize (Hf2' y Hy r' Hr'). lia.
  - intros y [Hy|Hy]%elem_of_app; [|by apply Hr2].
    destruct (Hr y Hy) as (r & Hr1 & ?). destruct (Hm2 _ _ Hr1) as (r' & ? & ?). exists r'. split; [done|lia].
  - intros a r Ha. destruct (Hm _ _ Ha) as (r1 & Hr1 & ?). destruct (Hm2 _ _ Hr1) as (r' & ? & ?).
    exists r'. split; [done|lia].
  - intros y [Hy|Hy]%elem_of_app; auto.
  - apply StronglySorted_app_2; [done..|]. intros x y Hx Hy Ho.
    destruct (Hr x Hx) as (r & Hr1 & ?). rewrite Ho in Hr1. specialize (Hf2' y Hy r Hr1). lia.
  - lia.
Qed.

Lemma commits_invariant s ds s' :
  state_wf committee s -> commits s ds s' -> commits_inv s ds s'.
Proof.
  intros Hs Hc. revert Hs. induction Hc as [s|s d s1 ds s2 Hstep Hc IH]; intros Hs; [by apply commits_inv_nil|].
  pose proof (commit_step_wf _ _ _ Hstep Hs) as Hs1.
  apply (commits_inv_trans s [d] s1 s1); [by apply commits_inv_step|done..|by apply IH].
Qed.

(** Certificates with growing rounds per author are distinct, and so are their digests. *)
Lemma author_increasing_NoDup `{!CollisionFree} l :
  (forall y, y ∈ l -> cert_wf committee y) -> author_increasing l -> NoDup (Certificate.digest <$> l).
Proof.
  intros Hwf Hinc. induction Hinc as [|x l Hl IH Hx]; simpl; constructor; [|apply IH; set_solver].
  intros (y & Hd & Hy)%list_elem_of_fmap. rewrite Forall_forall in Hx. specialize (Hx y Hy).
  destruct (cert_wf_slot committee x y) as (Hr & Ho); [apply Hwf; set_solver..|done|].
  specialize (Hx Ho). lia.
Qed.
End sub_dags.

(** * Progress of the protocol *)

Section progress.
Context `{NetworkKeys} `{Crypto} `{SeededChoice} `{!CollisionFree}.
Implicit Types (b : Bullshark.t) (s : ConsensusState.t).

Lemma leader_certificate_ok {E} b s r :
  bullshark_wf b -> dag_wf (committee b) (ConsensusState.dag s) -> r mod 2 = 0 ->
  exists a oc, @LeaderSchedule.leader_certificate _ _ E (leader_schedule b) r (ConsensusState.dag s) = Ok (a, oc) /\
    forall c, oc = Some c -> in_dag (ConsensusState.dag s) c /\ Certificate.round c = r /\
      Certificate.origin c = Authority.id a /\ Committee.authority (committee b) (Authority.id a) = Some a.
Proof.
  intros Hb Hdag Hr.
  destruct (@leader_ok _ _ E (committee b) (leader_schedule b) r) as (a & Ha & Hauth);
    [by destruct Hb..|done|].
  unfold LeaderSchedule.leader_certificate. rewrite Ha. simpl. do 2 eexists. split; [done|].
  intros c Hc. destruct (ConsensusState.dag s !! r) as [row|] eqn:Hrow; [|done]. simpl in Hc.
  destruct (row !! Authority.id a) as [[d c']|] eqn:He; simplify_eq/=.
  assert (entry (ConsensusState.dag s) r (Authority.id a) = Some (d, c)) as Hen by (unfold entry; by rewrite Hrow).
  pose proof (Hdag _ _ _ _ Hen) as (? & ? & _ & _). split_and!; [by eapply entry_in_dag|done..].
Qed.

(** Leaders to commit: in the DAG, at growing even rounds above the last commit, each
    with an authority of the committee and linked to the elected leader. *)
Record leaders_wf b s (leader : Certificate.t) (ls : list Certificate.t) : Prop := {
  lw_sorted : StronglySorted (fun x y => Certificate.round x < Certificate.round y) ls;
  lw_elem x : x ∈ ls -> in_dag (ConsensusState.dag s) x /\ Certificate.round x mod 2 = 0 /\
    ConsensusState.committed_round s < Certificate.round x /\
    is_Some (Committee.authority (committee b) (Certificate.origin x)) /\
    rtc (parent_of (ConsensusState.dag s)) leader x;
  lw_last : last ls = Some leader;
}.

Lemma order_leaders_step_ok {E} b dag cur rest r a oc :
  @LeaderSchedule.leader_certificate _ _ E (leader_schedule b) r dag = Ok (a, oc) ->
  @order_leaders_step _ _ _ E b dag (cur, rest) r =
    Ok (match oc with
        | Some prev => if linked cur prev dag then (prev, prev :: rest) else (cur, rest)
        | None => (cur, rest)
        end).
Proof. unfold order_leaders_step. intros ->. simpl. by repeat case_match. Qed.

Lemma order_leaders_loop {E} b s leader rs cur rest :
  bullshark_wf b -> state_wf (committee b) s ->
  StronglySorted (fun x y => y < x) rs ->
  (forall r, r ∈ rs -> r mod 2 = 0 /\ ConsensusState.committed_round s < r < Certificate.round cur) ->
  leaders_wf b s leader (cur :: rest) ->
  exists acc, foldM (@order_leaders_step _ _ _ E b (ConsensusState.dag s)) (cur, cur :: rest) rs = Ok acc /\ leaders_wf b s leader acc.2.
Proof.
  intros Hb Hs Hrs. revert cur rest. induction Hrs as [|r rs Hrs IH Hr]; intros cur rest Hel Hlw.
  { by eexists. }
  rewrite Forall_forall in Hr. cbn [foldM].
  destruct (Hel r) as (Heven & Hlt); [set_solver|].
  destruct (@leader_certificate_ok E b s r) as (a & oc & Hlc & Hoc); [done|apply Hs|done|].
  rewrite (order_leaders_step_ok _ _ _ _ _ _ _ Hlc). cbn [mbind outcome_bind].
  assert (Hskip : exists acc, foldM (@order_leaders_step _ _ _ E b (ConsensusState.dag s)) (cur, cur :: rest) rs = Ok acc /\ leaders_wf b s leader acc.2).
  { apply IH; [|done]. intros r' Hr'. apply Hel. set_solver. }
  destruct oc as [prev|]; [|exact Hskip].
  destruct (linked cur prev (ConsensusState.dag s)) eqn:Hlink; [|exact Hskip].
  destruct (Hoc prev eq_refl) as (Hin & Hrp & Horig & Hauth).
  destruct Hlw as [Hsort Helem Hlast].
  destruct (Helem cur) as (Hcin & _ & _ & _ & Hpath); [set_solver|].
  apply (linked_iff (committee b)) in Hlink; [|apply Hs|done..].
  apply IH.
  - intros r' Hr'. specialize (Hr r' Hr'). destruct (Hel r') as (? & ?); [set_solver|]. split; [done|lia].
  - constructor.
    + constructor; [done|]. constructor; [lia|]. inversion Hsort as [|? ? _ Hall]; subst.
      eapply Forall_impl; [exact Hall|]. simpl. lia.
    + intros x [->|Hx]%elem_of_cons; [|by apply Helem]. split_and!; [done|by rewrite Hrp|lia| |].
      * rewrite Horig. by eexists.
      * by etrans.
    + by rewrite last_cons, Hlast.
Qed.

Lemma order_leaders_spec {E} b s leader a :
  bullshark_wf b -> state_wf (committee b) s -> in_dag (ConsensusState.dag s) leader ->
  Certificate.round leader mod 2 = 0 -> 2 <= Certificate.round leader ->
  ConsensusState.committed_round s < Certificate.round leader ->
  Committee.authority (committee b) (Certificate.origin leader) = Some a ->
  exists ls, @order_leaders _ _ _ E b leader s = Ok ls /\ leaders_wf b s leader ls.
Proof.
  intros Hb Hs Hin Heven Hge Hlt Ha. unfold order_leaders. rewrite Heven.
  cbn [N.eqb assert mbind outcome_bind].
  destruct (@order_leaders_loop E b s leader (rev_range_step2 (ConsensusState.committed_round s + 2)
    (wrapping_sub32 (Certificate.round leader) 2)) leader []) as (acc & Hacc & Hlw); [done|done| | | |].
  - apply rev_range_step2_desc.
  - intros r Hr%elem_of_rev_range_step2. rewrite wrapping_sub32_small in Hr by lia. split; [div_lia|lia].
  - constructor; [repeat constructor| |done].
    intros x ->%list_elem_of_singleton. split_and!; [done..|by eexists|apply rtc_refl].
  - rewrite Hacc. cbn [mbind outcome_bind].
    rewrite (foldM_expect (fun c => Committee.authority (committee b) (Certificate.origin c))).
    + simpl. eauto.
    + intros x Hx. by apply (lw_elem _ _ _ _ Hlw) in Hx as (_ & _ & _ & ? & _).
Qed.

(** The scores of a commit cover the committee, so the assertion on them holds. *)
Lemma resolve_reputation_score_ok {E} b s seq idx :
  bullshark_wf b -> scores_wf (committee b) s ->
  (forall x, x ∈ seq -> Certificate.origin x ∈ Committee.members (committee b)) ->
  exists scores, @resolve_reputation_score _ _ E b s seq idx = Ok scores /\
    dom (ReputationScores.scores_per_authority scores) = Committee.members (committee b).
Proof.
  intros Hb Hsc Hseq. unfold resolve_reputation_score, checked_rem.
  pose proof (bs_period _ Hb). destruct (N.eqb_spec (num_sub_dags_per_schedule b) 0); [lia|].
  cbn [mbind outcome_bind].
  set (score0 := if _ =? 0 then _ else _).
  assert (dom (ReputationScores.scores_per_authority score0) = Committee.members (committee b)) as Hd0.
  { pose proof (OutputFacts.new_scores_dom (committee b) (bs_committee _ Hb)).
    unfold score0. repeat case_match; auto. }
  set (score1 := match _ with Some _ => _ | None => _ end).
  assert (dom (ReputationScores.scores_per_authority score1) = Committee.members (committee b)) as Hd1.
  { unfold score1. case_match; [|done]. clearbody score0. clear score1. revert score0 Hd0.
    induction seq as [|x seq IH]; intros score0 Hd0; [done|]. cbn [foldl]. apply IH; [set_solver|].
    case_bool_decide; [|done]. rewrite OutputFacts.add_score_dom, Hd0.
    specialize (Hseq x ltac:(set_solver)). set_solver. }
  unfold ReputationScores.total_authorities. simpl.
  assert (N.of_nat (size (ReputationScores.scores_per_authority score1)) = Committee.size (committee b)) as ->.
  { rewrite <-size_dom, Hd1, (Committee.wf_size _ (bs_committee _ Hb)). done. }
  rewrite N.eqb_refl. simpl. eexists. split; [done|]. done.
Qed.

Lemma update_leader_schedule_ok {E} b r scores :
  bullshark_wf b -> dom (ReputationScores.scores_per_authority scores) = Committee.members (committee b) ->
  exists b' changed, @update_leader_schedule _ E b r scores = Ok (b', changed) /\
    bullshark_wf b' /\ committee b' = committee b.
Proof.
  intros Hb Hdom. unfold update_leader_schedule.
  destruct (ReputationScores.final_of_schedule scores) eqn:Hf; [|by do 2 eexists].
  destruct (@new_table_ok _ E (committee b) r scores (bad_nodes_stake_threshold b)) as (table & -> & Htab);
    [by destruct Hb..|done|done|by destruct Hb|].
  simpl. do 2 eexists. split; [done|]. split; [|done].
  destruct Hb as [? ? ? [Hsc _] ? ? ?]. by constructor.
Qed.

(** A leader above the last commit is committed in one step. *)
Lemma commit_one {E} b s leader :
  bullshark_wf b -> state_wf (committee b) s -> scores_wf (committee b) s ->
  in_dag (ConsensusState.dag s) leader -> Certificate.round leader mod 2 = 0 ->
  ConsensusState.committed_round s < Certificate.round leader ->
  exists seq scores,
    @order_dag E leader s = Ok seq /\
    @resolve_reputation_score _ _ E b (foldl ConsensusState.update s seq) seq (Certificate.nonce leader) = Ok scores /\
    dom (ReputationScores.scores_per_authority scores) = Committee.members (committee b) /\
    let d := CommittedSubDag.new seq leader (Certificate.nonce leader) scores
      (ConsensusState.last_committed_sub_dag (foldl ConsensusState.update s seq)) in
    commit_step s d (ConsensusState.set_last_committed_sub_dag (foldl ConsensusState.update s seq) d).
Proof.
  intros Hb Hs Hsc Hin Heven Hlt.
  destruct (order_dag_spec (committee b) s Hs leader ltac:(lia) (E := E)) as (seq & Hseq & Hnd & Hel & Hsort).
  destruct (@resolve_reputation_score_ok E b (foldl ConsensusState.update s seq) seq (Certificate.nonce leader))
    as (scores & Hscores & Hdom).
  - done.
  - unfold scores_wf. by rewrite fold_update_sub_dag.
  - intros x Hx%Hel. apply sub_dag_inv in Hx as (Hx & _); [|done].
    apply (in_dag_wf (committee b)) in Hx as [_ ?]; [done|apply Hs].
  - exists seq, scores. split_and!; [done..|]. constructor; simpl; try done.
    by rewrite fold_update_sub_dag.
Qed.

(** [leaders_wf] without the path, as the loop consumes it. *)
Definition leaders_todo s (ls : list Certificate.t) : Prop :=
  StronglySorted (fun x y => Certificate.round x < Certificate.round y) ls /\
  forall x, x ∈ ls -> in_dag (ConsensusState.dag s) x /\ Certificate.round x mod 2 = 0 /\
    ConsensusState.committed_round s < Certificate.round x.

Lemma leaders_todo_step s d s' leader ls :
  commit_step s d s' -> CommittedSubDag.leader d = leader ->
  leaders_todo s (leader :: ls) -> leaders_todo s' ls.
Proof.
  intros Hstep Hl [Hsort Hel]. inversion Hsort as [|? ? Hs Hall]; subst. rewrite Forall_forall in Hall.
  split; [done|]. intros x Hx. destruct (Hel x) as (Hin & Heven & _); [set_solver|]. specialize (Hall x Hx).
  pose proof (commit_step_round _ _ _ Hstep) as Hr. split_and!; [|done|lia].
  rewrite (step_state _ _ _ Hstep) in Hr |- *. apply fold_update_in_dag; [done|].
  unfold ConsensusState.committed_round in *. simpl in *. lia.
Qed.

Lemma todo_last_above s leader ls last_leader :
  leaders_todo s (leader :: ls) -> ls <> [] -> last ls = Some last_leader ->
  Certificate.round leader < Certificate.round last_leader.
Proof.
  intros [Hsort _] _ Hlast. inversion Hsort as [|? ? _ Hall]; subst. rewrite Forall_forall in Hall.
  apply Hall. by apply last_Some_elem_of.
Qed.

(** The result of [commit_leaders] and of the functions around it: everything up to
    [leader_round] was committed, or the schedule changed below it. *)
Definition commit_result (b : Bullshark.t) (s : ConsensusState.t) (leader_round : Round)
    (b' : Bullshark.t) (s' : ConsensusState.t) (o : Outcome) (ds : list CommittedSubDag.t) : Prop :=
  bullshark_wf b' /\ committee b' = committee b /\ scores_wf (committee b) s' /\ commits s ds s' /\
  ds <> [] /\
  (o = Commit /\ ConsensusState.committed_round s' = leader_round \/
   o = ScheduleChanged /\ ConsensusState.committed_round s' < leader_round).

Lemma commit_leaders_spec {E} b s ls acc leader :
  bullshark_wf b -> state_wf (committee b) s -> scores_wf (committee b) s ->
  leaders_todo s ls -> last ls = Some leader ->
  exists b' s' o ds, @commit_leaders _ _ E b s ls acc = Ok (b', s', o, acc ++ ds) /\
    commit_result b s (Certificate.round leader) b' s' o ds.
Proof.
  revert b s acc. induction ls as [|l ls IH]; intros b s acc Hb Hs Hsc Htodo Hlast; [done|].
  destruct Htodo as [Hsort Hel]. pose proof (Hel l ltac:(set_solver)) as (Hin & Heven & Hlt).
  destruct (@commit_one E b s l) as (seq & scores & Hseq & Hscores & Hdom & Hstep); [done..|].
  cbn [commit_leaders]. rewrite Hseq. cbn [mbind outcome_bind]. rewrite Hscores. cbn [mbind outcome_bind].
  destruct (@update_leader_schedule_ok E b (Certificate.round l) scores) as (b1 & ch & Hupd & Hb1 & Hc1); [done..|].
  rewrite Hupd. cbn [mbind outcome_bind fst snd].
  cbv zeta in Hstep. set (d := CommittedSubDag.new _ _ _ _ _) in *. set (s1 := ConsensusState.set_last_committed_sub_dag _ d) in *.
  assert (state_wf (committee b) s1) as Hs1 by (by eapply commit_step_wf).
  assert (scores_wf (committee b) s1) as Hsc1 by (intros d' [= <-]; done).
  pose proof (commit_step_round _ _ _ Hstep) as Hr1. simpl in Hr1.
  destruct (decide (ls = [])) as [->|Hne].
  { rewrite bool_decide_false, andb_false_r by naive_solver. simpl. simplify_eq/=.
    exists b1, s1, Commit, [d]. split; [done|].
    split_and!; [done..|by apply commits_one|done|by left]. }
  assert (last ls = Some leader) as Hlast' by (destruct ls; [done|by rewrite last_cons_cons in Hlast]).
  pose proof (todo_last_above s l ls leader (conj Hsort Hel) Hne Hlast') as Habove.
  destruct ch; simpl.
  - rewrite bool_decide_true by done. exists b1, s1, ScheduleChanged, [d]. split; [done|].
    split_and!; [done..|by apply commits_one|done|right; split; [done|lia]].
  - destruct (IH b1 s1 (acc ++ [d])) as (b' & s' & o & ds & Hres & Hb' & Hc' & Hsc' & Hcom & _ & Ho);
      [done|by rewrite Hc1..|by eapply leaders_todo_step|done|].
    exists b', s', o, (d :: ds). rewrite Hres, <-app_assoc. split; [done|].
    rewrite Hc1 in *. split_and!; [done..|by econstructor|done|done].
Qed.

(** [commit_leader] at a round above the last commit, whose children are in the DAG. *)
Lemma commit_leader_spec {E} b s r :
  bullshark_wf b -> state_wf (committee b) s -> scores_wf (committee b) s ->
  r mod 2 = 0 -> 2 <= r -> ConsensusState.committed_round s < r ->
  is_Some (ConsensusState.dag s !! (r + 1)) ->
  exists b' s' o ds, @commit_leader _ _ _ E b r s = Ok (b', s', o, ds) /\
    ((b' = b /\ s' = s /\ ds = [] /\ (o = LeaderNotFound \/ o = NotEnoughSupportForLeader)) \/
     commit_result b s r b' s' o ds).
Proof.
  intros Hb Hs Hsc Heven Hge Hlt [row Hrow]. unfold commit_leader.
  destruct (@leader_certificate_ok E b s r) as (a & oc & -> & Hoc); [done|apply Hs|done|].
  cbn [mbind outcome_bind snd]. destruct oc as [leader|]; [|exists b, s, LeaderNotFound, []; split; [done|left; auto]].
  destruct (Hoc leader eq_refl) as (Hin & Hr & Ho & Ha). rewrite Hrow. cbn [expect mbind outcome_bind].
  case_match; [exists b, s, NotEnoughSupportForLeader, []; split; [done|left; auto]|].
  destruct (@order_leaders_spec E b s leader a) as (ls & -> & Hlw); [done|done|done|by rewrite Hr|lia|lia|by rewrite Ho|].
  cbn [mbind outcome_bind].
  destruct (@commit_leaders_spec E b s ls [] leader) as (b' & s' & o & ds & -> & Hres); [done..| | |].
  - split; [apply Hlw|]. intros x Hx. by apply (lw_elem _ _ _ _ Hlw) in Hx as (? & ? & ? & _).
  - apply Hlw.
  - exists b', s', o, ds. split; [done|]. right. by rewrite <-Hr.
Qed.

Lemma commits_row s ds s' r :
  commits s ds s' -> ConsensusState.committed_round s' < r ->
  is_Some (ConsensusState.dag s !! r) -> is_Some (ConsensusState.dag s' !! r).
Proof.
  induction 1 as [|s d s1 ds s2 Hstep Hc IH]; intros Hr Hrow; [done|]. apply IH; [done|].
  assert (ConsensusState.committed_round s1 <= ConsensusState.committed_round s2) as Hle.
  { clear -Hc. induction Hc as [|s d s1 ds s2 Hstep _ IH]; [done|].
    pose proof (commit_step_round _ _ _ Hstep). pose proof (step_above _ _ _ Hstep). lia. }
  rewrite (step_state _ _ _ Hstep) in Hle |- *. apply fold_update_row; [done|].
  unfold ConsensusState.committed_round in *. simpl in *. lia.
Qed.

(** The retry loop ends: each schedule change moves the commit round up, below [r]. *)
Lemma commit_loop_spec {E} fuel b s r acc :
  bullshark_wf b -> state_wf (committee b) s -> scores_wf (committee b) s ->
  r mod 2 = 0 -> 2 <= r -> ConsensusState.committed_round s < r ->
  is_Some (ConsensusState.dag s !! (r + 1)) ->
  (N.to_nat (r - ConsensusState.committed_round s) <= fuel)%nat ->
  exists b' s' o ds, @commit_loop _ _ _ E fuel b r s acc = Ok (b', s', o, acc ++ ds) /\
    bullshark_wf b' /\ committee b' = committee b /\ scores_wf (committee b) s' /\ commits s ds s' /\
    o <> ScheduleChanged /\ ConsensusState.committed_round s' <= r.
Proof.
  revert b s acc. induction fuel as [|fuel IH]; intros b s acc Hb Hs Hsc Heven Hge Hlt Hrow Hfuel; [lia|].
  cbn [commit_loop]. destruct (@commit_leader_spec E b s r) as (b1 & s1 & o & ds & -> & Hres); [done..|].
  cbn [mbind outcome_bind].
  destruct Hres as [(-> & -> & -> & Ho)|(Hb1 & Hc1 & Hsc1 & Hcom & Hne & Ho)].
  { rewrite bool_decide_false by (destruct Ho; by subst).
    exists b, s, o, []. split; [done|]. split_and!; [done|done|done|constructor|destruct Ho; by subst|lia]. }
  destruct Ho as [[-> Hr]|[-> Hr]].
  { rewrite bool_decide_false by done. exists b1, s1, Commit, ds. split; [done|]. split_and!; [done..|lia]. }
  rewrite bool_decide_true by done.
  assert (ConsensusState.committed_round s < ConsensusState.committed_round s1) as Hprog.
  { destruct Hcom as [|s d s1 ds s2 Hstep Hcom]; [done|].
    pose proof (commit_step_round _ _ _ Hstep) as Hsr. pose proof (step_above _ _ _ Hstep).
    pose proof (commit_step_wf _ _ _ _ Hstep Hs) as Hs1.
    apply (commits_invariant (committee b)) in Hcom as [_ _ _ _ _ _ ?]; [lia|done]. }
  pose proof (ci_wf _ _ _ _ (commits_invariant _ _ _ _ Hs Hcom)) as Hs1.
  destruct (IH b1 s1 (acc ++ ds)) as (b' & s' & o & ds' & Hl & Hb' & Hc' & Hsc' & Hcom' & Hno & Hle);
    [done|by rewrite Hc1..|done|done|done|apply (commits_row _ _ _ _ Hcom); [lia|done]|lia|].
  exists b', s', o, (ds ++ ds'). rewrite Hl, <-app_assoc. rewrite Hc1 in *. split; [done|].
  split_and!; [done..|by eapply commits_app|done|done].
Qed.

End progress.
