(* ===== verification/Demo.v ===== *)
(** A concrete network of four authorities, used to evaluate the model: instances of
    the external primitives, a committee, and certificates of its first rounds. *)

From S2P Require Import Prelude Committee Certificate Output ConsensusState LeaderSchedule Bullshark.

(** Peer ids are the network keys themselves. *)
Definition demo_keys : NetworkKeys := {| to_peer_id k := k |}.

(** The hash is an injective code of what identifies a header; a signature is the
    digest it signs. *)
Definition demo_hash (h : Header.t) : N :=
  N.pos (encode (Header.author h, Header.round h, Header.epoch h)).

Definition demo_crypto_of (hash : Header.t -> N) : Crypto.
Proof.
  refine {| header_hash := hash;
            bls_default := 0;
            bls_aggregate := head;
            bls_verify_secure sig d pks := sig =? d;
            bls_verify sig d pk := sig =? d;
            bitmap_from_sorted_iter l := Some (list_to_set l) |}.
  done.
Defined.

Definition demo_crypto : Crypto := demo_crypto_of demo_hash.

Lemma demo_collision_free : @CollisionFree demo_crypto.
Proof.
  constructor. intros h h' Heq. simpl in Heq. unfold demo_hash in Heq.
  injection Heq as Heq. apply (inj encode) in Heq. by simplify_eq.
Qed.

(** A hash that also binds the parents. *)
Definition full_hash (h : Header.t) : N :=
  N.pos (encode (Header.author h, Header.round h, Header.epoch h, Header.parents h)).

Definition full_crypto : Crypto := demo_crypto_of full_hash.

Lemma full_collision_free : @CollisionFree full_crypto.
Proof.
  constructor. intros h h' Heq. simpl in Heq. unfold full_hash in Heq.
  injection Heq as Heq. apply (inj encode) in Heq. by simplify_eq.
Qed.

Lemma full_binds_parents : @BindsParents full_crypto.
Proof.
  constructor. intros h h' Heq. simpl in Heq. unfold full_hash in Heq.
  injection Heq as Heq. apply (inj encode) in Heq. by simplify_eq.
Qed.

(** Round-robin choices. *)
Definition pick {A} (seed : N) (l : list A) : option A :=
  l !! (N.to_nat seed mod length l)%nat.

Lemma pick_elem {A} seed (l : list A) a : pick seed l = Some a -> a ∈ l.
Proof. apply list_elem_of_lookup_2. Qed.

Lemma pick_some {A} seed (l : list A) : l <> [] -> is_Some (pick seed l).
Proof.
  intros Hl. apply lookup_lt_is_Some. apply Nat.mod_upper_bound. by destruct l.
Qed.

Definition demo_choice : SeededChoice.
Proof.
  refine {| choose_weighted seed l :=
              fst <$> pick (seed / 2) (filter (fun aw => 0 < aw.2) l);
            choose := pick |}.
  - intros seed l a. destruct (pick _ _) as [[b w]|] eqn:Hp; simpl; [|done]. intros [= ->].
    exists w. by apply pick_elem, list_elem_of_filter in Hp as [_ ?].
  - intros seed l (a & w & Hin & Hw). apply fmap_is_Some, pick_some.
    intros Hnil. assert ((a, w) ∈ filter (fun aw => 0 < aw.2) l) as Hf by (by apply list_elem_of_filter).
    rewrite Hnil in Hf. by apply elem_of_nil in Hf.
  - intros. by eapply pick_elem.
  - intros. by apply pick_some.
Defined.

Definition demo_authority (i : N) : Authority.t :=
  Authority.mk (100 + i) 1 "/ip4/127.0.0.1" i i "node".

Definition demo_authorities : gmap N Authority.t :=
  list_to_map ((fun i => (100 + i, demo_authority i)) <$> [1; 2; 3; 4]).

Definition demo_committee_of (auths : gmap N Authority.t) : Committee.t :=
  match @Committee.new demo_keys unit auths 0 with
  | Ok c => c
  | _ => Committee.mk ∅ ∅ 0 0 0
  end.

Definition demo_committee : Committee.t := demo_committee_of demo_authorities.

(** The smallest committee: two authorities. *)
Definition pair_authorities : gmap N Authority.t :=
  list_to_map ((fun i => (100 + i, demo_authority i)) <$> [1; 2]).

Definition pair_committee : Committee.t := demo_committee_of pair_authorities.

Section certificates.
Context `{Crypto}.

Definition demo_header (author round : N) (parents : list N) : Header.t :=
  HeaderOps.new author round 0 [] (list_to_set parents) (0, 0) round.

Definition demo_cert (author round : N) (parents : list N) : Certificate.t :=
  Certificate.mk (demo_header author round parents)
    (VerifiedDirectly (HeaderOps.digest (demo_header author round parents))) {[0; 1; 2]} 0.

Definition demo_digests : list Certificate.t -> list N := fmap Certificate.digest.

(** Three rounds in which every authority references every certificate below. *)
Definition demo_round1 : list Certificate.t := (fun i => demo_cert i 1 []) <$> [1; 2; 3; 4].
Definition demo_round2 : list Certificate.t :=
  (fun i => demo_cert i 2 (demo_digests demo_round1)) <$> [1; 2; 3; 4].
Definition demo_round3 : list Certificate.t :=
  (fun i => demo_cert i 3 (demo_digests demo_round2)) <$> [1; 2; 3; 4].

End certificates.

Definition demo_schedule : LeaderSchedule.t := LeaderSchedule.mk demo_committee LeaderSwapTable.default.

Definition demo_bullshark : Bullshark.t := Bullshark.new demo_committee 10 demo_schedule 0.

(** ** The demo network is well formed *)

Lemma demo_committee_of_wf auths :
  Committee.stake auths < 2 ^ 63 -> (1 < size auths)%nat ->
  NoDup (@Authority.id demo_keys <$> btree_values auths) ->
  @Committee.wf demo_keys (demo_committee_of auths) /\
  Committee.stake (Committee.authorities (demo_committee_of auths)) < 2 ^ 63.
Proof.
  intros Hst Hsz Hnd.
  destruct (@CommitteeFacts.new_ok demo_keys unit auths 0) as (c & Hc & Ha & He); [done..|].
  assert (demo_committee_of auths = c) as -> by (unfold demo_committee_of; by rewrite Hc).
  split; [|by rewrite Ha]. by eapply CommitteeFacts.new_wf; [|exact Hc].
Qed.

Lemma demo_committee_wf :
  @Committee.wf demo_keys demo_committee /\
  Committee.stake (Committee.authorities demo_committee) < 2 ^ 63.
Proof.
  apply demo_committee_of_wf; [by vm_compute|vm_compute; lia|].
  apply (bool_decide_unpack _). by vm_compute.
Qed.

Lemma pair_committee_wf : @Committee.wf demo_keys pair_committee.
Proof.
  apply demo_committee_of_wf; [by vm_compute|vm_compute; lia|].
  apply (bool_decide_unpack _). by vm_compute.
Qed.
