(* ===== verification/CertStoreSafety.v ===== *)
(** The properties of the certificate store: its indexes stay consistent, writes are read
    back, garbage collection keeps the last rounds, and the queries by round return what
    they promise. *)

From S2P Require Import Prelude Storage Committee Certificate CertStore Output ConsensusState LeaderSchedule.
From S2P Require Import Bullshark Demo.
Import CertificateStore CertStoreFacts.

Section properties.
Context `{Crypto} `{!CollisionFree}.

(** Writing keeps the indexes consistent with the certificates, reads back every
    certificate written that is within the last 64 rounds of those written, invents
    nothing, and leaves no record of an older round in the indexes. *)
Theorem write_all_correct s cs :
  store_wf s -> Forall valid cs ->
  store_wf (write_all s cs) /\
  (NoDup (Certificate.digest <$> cs) -> forall c, c ∈ cs ->
     max_round cs <= Certificate.round c + ROUNDS_TO_KEEP -> read (write_all s cs) (Certificate.digest c) = Some c) /\
  (forall d c, read (write_all s cs) d = Some c -> c ∈ cs \/ read s d = Some c) /\
  (forall o r, r + ROUNDS_TO_KEEP < max_round cs -> read_by_index (write_all s cs) o r = None).
Proof.
  intros Hs Hv. rewrite write_all_save. pose proof (save_all_wf s cs Hs Hv) as Hs1.
  destruct (gc_rounds_spec (save_all s cs) (max_round cs) Hs1) as (_ & Ho & Hc & _).
  split_and!.
  - by apply gc_rounds_wf.
  - intros Hnd c Hin Hr. apply Hc. split; [by apply save_all_nodup|]. intros [_ ?]. lia.
  - intros d c [Hd _]%Hc. rewrite save_all_lookup in Hd.
    destruct (last _) as [c'|] eqn:Hl; [|by right]. simplify_eq. left.
    by apply last_Some_elem_of, list_elem_of_filter in Hl as [_ ?].
  - intros o r Hr. unfold read_by_index, MemTable.get. rewrite Ho. by rewrite decide_True by lia.
Qed.

(** Without equivocation every stored certificate stays reachable through the
    indexes, so it is found by author and round, and garbage collection removes all
    certificates older than 64 rounds. *)
Theorem write_indexed s c :
  store_wf s -> indexed s -> valid c ->
  (forall c', read_by_index s (Certificate.origin c) (Certificate.round c) = Some c' ->
     Certificate.digest c' = Certificate.digest c) ->
  let s' := write s c in
  store_wf s' /\ indexed s' /\
  (forall d c', read s' d = Some c' -> Certificate.round c <= Certificate.round c' + ROUNDS_TO_KEEP /\
     read_by_index s' (Certificate.origin c') (Certificate.round c') = Some c').
Proof.
  intros Hs Hx Hv Hne s'.
  assert (forall d, digest_by_round s !! (Certificate.round c, Certificate.origin c) = Some d -> d = Certificate.digest c) as Hne'.
  { intros d Hd. destruct (sw_index _ Hs _ _ _ Hd) as (c' & Hc' & _). destruct (sw_cert _ Hs _ _ Hc') as [<- _].
    apply Hne. unfold read_by_index, MemTable.get. rewrite <-(sw_agree _ Hs), Hd. done. }
  pose proof (save_cert_wf s c Hs Hv) as Hs1. pose proof (save_cert_indexed s c Hs Hx Hv Hne') as Hx1.
  destruct (gc_rounds_wf _ (Certificate.round c) Hs1) as [Hs2 Hx2]. fold (write s c) in Hs2, Hx2. fold s' in Hs2, Hx2.
  specialize (Hx2 Hx1). split_and!; [done|done|]. intros d c' Hd. pose proof (Hx2 _ _ Hd) as Hi.
  destruct (gc_rounds_spec _ (Certificate.round c) Hs1) as (Hr & _). fold (write s c) in Hr. fold s' in Hr. split.
  - rewrite Hr in Hi. case_decide; [done|]. lia.
  - unfold read_by_index, MemTable.get. rewrite <-(sw_agree _ Hs2), Hi. done.
Qed.

(** [after_round] never reports a broken store: on a consistent one it returns exactly
    the indexed certificates of the given round and above, in order of their rounds. *)
Lemma after_round_correct default_id s round :
  store_wf s -> indexed s ->
  exists certs, after_round default_id s round = Ok certs /\
    (forall c, c ∈ certs <-> read s (Certificate.digest c) = Some c /\ round <= Certificate.round c) /\
    StronglySorted (fun x y => Certificate.round x <= Certificate.round y) certs.
Proof.
  intros Hs Hx. destruct (after_round_spec default_id s round Hs) as (certs & Hok & Hcs). exists certs.
  set (l := filter _ _) in Hcs.
  assert (forall i c, certs !! i = Some c -> exists x, l !! i = Some x /\ certificates s !! x.2 = Some c /\
    Certificate.round c = x.1.1 /\ x.2 = Certificate.digest c /\ round <= x.1.1) as Hi.
  { intros i c Hc. apply (f_equal (fun k => k !! i)) in Hcs. rewrite !list_lookup_fmap, Hc in Hcs.
    destruct (l !! i) as [[[r o] d]|] eqn:Hl; [|done]. simpl in Hcs. injection Hcs as Hd.
    exists ((r, o), d). apply list_elem_of_lookup_2, list_elem_of_filter in Hl as [Hr Hin%elem_of_btree_iter].
    destruct (sw_index _ Hs _ _ _ Hin) as (c' & Hc' & ? & ?). rewrite Hc' in Hd. simplify_eq.
    destruct (sw_cert _ Hs _ _ Hc') as [? _]. by split_and!. }
  split_and!; [done| |].
  - intros c. split.
    + intros (i & Hc)%list_elem_of_lookup. destruct (Hi i c Hc) as (x & _ & Hd & Hr & Hdx & Hle).
      unfold read, MemTable.get. rewrite <-Hdx. split; [done|lia].
    + intros [Hd Hr]. pose proof (Hx _ _ Hd) as Hin. apply elem_of_btree_iter in Hin.
      assert (((Certificate.round c, Certificate.origin c), Certificate.digest c) ∈ l) as Hl by (by apply list_elem_of_filter).
      apply list_elem_of_lookup in Hl as [i Hl]. apply (f_equal (fun k => k !! i)) in Hcs.
      rewrite !list_lookup_fmap, Hl in Hcs. simpl in Hcs. unfold read, MemTable.get in Hd. rewrite Hd in Hcs.
      destruct (certs !! i) as [c'|] eqn:Hc; simplify_eq/=. by eapply list_elem_of_lookup_2.
  - assert (StronglySorted (fun x y : (Round * AuthorityIdentifier) * Digest => x.1.1 <= y.1.1) l) as Hsl.
    { apply StronglySorted_filter. pose proof (btree_iter_sorted (digest_by_round s)) as Hb. clear -Hb.
      induction Hb as [|x k _ IH Hx]; constructor; [done|]. rewrite Forall_forall in *. intros y Hy.
      specialize (Hx y Hy). simpl in Hx. unfold pair_leb in Hx. lia. }
    clear -Hcs Hi Hsl. revert certs Hcs Hi. induction Hsl as [|x l _ IH Hx]; intros [|c certs] Hcs Hi; simplify_eq/=; [constructor|].
    constructor; [apply IH; [done|intros i; apply (Hi (S i))]|]. apply Forall_forall. intros c' (i & Hc')%list_elem_of_lookup.
    destruct (Hi (S i) c' Hc') as (y & Hy & _ & -> & _). destruct (Hi 0%nat c eq_refl) as (x' & [= <-] & _ & -> & _).
    rewrite Forall_forall in Hx. apply Hx. by eapply list_elem_of_lookup_2.
Qed.

(** The queries on rounds: [last_two_rounds_certs] returns the indexed certificates of
    the highest round and the one below, and the highest round bounds every round stored. *)
Theorem last_two_rounds_correct s :
  store_wf s -> indexed s ->
  exists certs, last_two_rounds_certs s = Ok certs /\
    (forall c, c ∈ certs <-> read s (Certificate.digest c) = Some c /\ highest_round_number s - 1 <= Certificate.round c) /\
    (forall d c, read s d = Some c -> Certificate.round c <= highest_round_number s).
Proof.
  intros Hs Hx. destruct (last_two_rounds_spec s Hs) as (certs & Hok & Hcs & Hmax). exists certs.
  split_and!; [done| |].
  - intros c. assert (c ∈ certs <-> Some c ∈ Some <$> certs) as ->.
    { rewrite list_elem_of_fmap. split; [by eauto|]. intros (c' & [= <-] & ?). done. }
    rewrite Hcs, list_elem_of_fmap. split.
    + intros ([[r o] d] & Hc & [Hr Hin]%list_elem_of_filter). symmetry in Hc. simpl in *.
      rewrite list_elem_of_In, <-in_rev, <-list_elem_of_In in Hin. apply elem_of_btree_iter in Hin.
      destruct (sw_index _ Hs _ _ _ Hin) as (c' & Hc' & <- & _). rewrite Hc in Hc'. injection Hc' as <-.
      destruct (sw_cert _ Hs _ _ Hc) as [-> _]. done.
    + intros [Hd Hr]. pose proof (Hx _ _ Hd) as Hin. apply elem_of_btree_iter in Hin.
      exists ((Certificate.round c, Certificate.origin c), Certificate.digest c). split; [done|].
      apply list_elem_of_filter. split; [done|]. by rewrite list_elem_of_In, <-in_rev, <-list_elem_of_In.
  - intros d c Hd. pose proof (Hx _ _ Hd) as Hin%elem_of_btree_iter. by apply Hmax in Hin.
Qed.

Lemma next_round_spec s origin round r :
  round + 1 < u32_modulus ->
  next_round_number s origin round = Some r <->
    is_Some (digest_by_origin s !! (origin, r)) /\ round < r /\
    forall r', is_Some (digest_by_origin s !! (origin, r')) -> round < r' -> r <= r'.
Proof.
  intros Hsm. unfold next_round_number. rewrite N.mod_small by done.
  destruct (head (MemTable.skip_to _ _)) as [[[n0 r0] d0]|] eqn:Hh.
  - apply TableFacts.skip_to_head in Hh as (Hm & Hle & Hmin). simpl in Hle. unfold pair_leb in Hle. simpl in Hle.
    assert (forall r', is_Some (digest_by_origin s !! (origin, r')) -> round < r' -> n0 = origin /\ r0 <= r') as Hl.
    { intros r' Hr' Hlt. specialize (Hmin (origin, r') Hr'). simpl in Hmin.
      assert (pair_leb (n0, r0) (origin, r') = true) as Hle' by (apply Hmin; unfold pair_leb; simpl; lia).
      unfold pair_leb in Hle'. simpl in Hle'. lia. }
    destruct (N.eqb_spec n0 origin) as [->|Hn].
    + split; [intros [= <-]; split_and!; [by eauto|lia|]; intros r' Hr' Hlt; by apply Hl|].
      intros (Hr & Hlt & Hle'). f_equal. destruct (Hl r Hr Hlt). assert (r <= r0) by (apply Hle'; [by eauto|lia]). lia.
    + split; [done|]. intros (Hr & Hlt & _). by destruct (Hl r Hr Hlt).
  - split; [done|]. intros ([d Hd] & Hlt & _). apply TableFacts.skip_to_head_None with (j := (origin, r)) in Hh; [|by eauto].
    simpl in Hh. unfold pair_leb in Hh. simpl in Hh. lia.
Qed.

Lemma next_round_none s origin round r :
  round + 1 < u32_modulus -> next_round_number s origin round = None ->
  is_Some (digest_by_origin s !! (origin, r)) -> r <= round.
Proof.
  intros Hsm. unfold next_round_number. rewrite N.mod_small by done. intros Hn Hr.
  destruct (N.le_gt_cases r round) as [|Hlt]; [done|exfalso].
  destruct (head (MemTable.skip_to _ _)) as [[[n0 r0] d0]|] eqn:Hh.
  - apply TableFacts.skip_to_head in Hh as (Hm & Hle & Hmin). specialize (Hmin (origin, r) Hr). simpl in Hle, Hmin.
    assert (pair_leb (n0, r0) (origin, r) = true) as Hle' by (apply Hmin; unfold pair_leb; simpl; lia).
    unfold pair_leb in Hle, Hle'. simpl in Hle, Hle'. destruct (N.eqb_spec n0 origin); [done|lia].
  - apply TableFacts.skip_to_head_None with (j := (origin, r)) in Hh; [|done].
    simpl in Hh. unfold pair_leb in Hh. simpl in Hh. lia.
Qed.

(** Stepping through the rounds of one author: [next_round_number] returns the least
    later round stored for it and [last_round_number] the greatest one. *)
Theorem author_rounds s origin round r :
  round + 1 < u32_modulus ->
  (next_round_number s origin round = Some r <->
     is_Some (digest_by_origin s !! (origin, r)) /\ round < r /\
     forall r', is_Some (digest_by_origin s !! (origin, r')) -> round < r' -> r <= r') /\
  (last_round_number s origin = Some r <->
     is_Some (digest_by_origin s !! (origin, r)) /\ r < round_max /\
     forall r', is_Some (digest_by_origin s !! (origin, r')) -> r' < round_max -> r' <= r).
Proof.
  intros Hsm. split.
  - by apply next_round_spec.
  - unfold last_round_number.
    assert (forall n0 r0, pair_leb (origin, round_max) (n0, r0) = false <-> n0 < origin \/ n0 = origin /\ r0 < round_max) as Hlb.
    { intros n0 r0. unfold pair_leb. simpl. lia. }
    destruct (MemTable.record_prior_to _ _) as [[[n0 r0] d0]|] eqn:Hp.
    + apply TableFacts.record_prior_to_Some in Hp as (Hm & Hlt & Hmax). apply Hlb in Hlt.
      assert (forall r', is_Some (digest_by_origin s !! (origin, r')) -> r' < round_max -> n0 = origin /\ r' <= r0) as Hl.
      { intros r' Hr' Hr'm. specialize (Hmax (origin, r') Hr'). simpl in Hmax. rewrite Hlb in Hmax.
        assert (pair_leb (origin, r') (n0, r0) = true) as Hle by (apply Hmax; by right).
        unfold pair_leb in Hle. simpl in Hle. lia. }
      destruct (N.eqb_spec n0 origin) as [->|Hn].
      * split; [intros [= <-]; split_and!; [by eauto|lia|]; intros r' Hr' Hr'm; by apply Hl|].
        intros (Hr & Hrm & Hge). f_equal. destruct (Hl r Hr Hrm). assert (r0 <= r) by (apply Hge; [by eauto|lia]). lia.
      * split; [done|]. intros (Hr & Hrm & _). by destruct (Hl r Hr Hrm).
    + split; [done|]. intros ([d Hd] & Hrm & _).
      assert (pair_leb (origin, round_max) (origin, r) = false) as Hk by (apply Hlb; lia).
      by destruct (TableFacts.record_prior_to_None _ _ Hp (origin, r)); [eauto|].
Qed.

End properties.

(** * Witnesses *)

Section witnesses.
#[local] Existing Instances demo_crypto demo_collision_free.

Definition demo_pair : list Certificate.t := demo_round1 ++ demo_round2.
Definition demo_store : t := write_all empty demo_pair.

Lemma demo_pair_valid : Forall valid demo_pair.
Proof. unfold valid. apply (bool_decide_unpack _). by vm_compute. Qed.

Lemma demo_store_wf : store_wf demo_store.
Proof.
  unfold demo_store. rewrite write_all_save. apply gc_rounds_wf, save_all_wf; [apply empty_wf|apply demo_pair_valid].
Qed.

Lemma demo_store_indexed : indexed demo_store.
Proof.
  assert (map_Forall (fun d c => digest_by_round demo_store !! (Certificate.round c, Certificate.origin c) = Some d)
    (certificates demo_store)) as Hf by (apply (bool_decide_unpack _); by vm_compute).
  intros d c Hd. by apply Hf.
Qed.

Lemma write_all_correct_witness :
  store_wf demo_store /\
  (NoDup (Certificate.digest <$> demo_pair) -> forall c, c ∈ demo_pair ->
     max_round demo_pair <= Certificate.round c + ROUNDS_TO_KEEP -> read demo_store (Certificate.digest c) = Some c) /\
  (forall d c, read demo_store d = Some c -> c ∈ demo_pair \/ read empty d = Some c) /\
  (forall o r, r + ROUNDS_TO_KEEP < max_round demo_pair -> read_by_index demo_store o r = None).
Proof. apply (write_all_correct empty demo_pair); [apply empty_wf|apply demo_pair_valid]. Defined.

Lemma write_indexed_witness :
  let s' := write demo_store (demo_cert 1 70 []) in
  store_wf s' /\ indexed s' /\
  (forall d c', read s' d = Some c' -> 70 <= Certificate.round c' + ROUNDS_TO_KEEP /\
     read_by_index s' (Certificate.origin c') (Certificate.round c') = Some c').
Proof.
  apply (write_indexed demo_store (demo_cert 1 70 [])).
  - apply demo_store_wf.
  - apply demo_store_indexed.
  - by vm_compute.
  - intros c' Hc'. vm_compute in Hc'. done.
Defined.

Lemma last_two_rounds_correct_witness :
  exists certs, last_two_rounds_certs demo_store = Ok certs /\
    (forall c, c ∈ certs <-> read demo_store (Certificate.digest c) = Some c /\
       highest_round_number demo_store - 1 <= Certificate.round c) /\
    (forall d c, read demo_store d = Some c -> Certificate.round c <= highest_round_number demo_store).
Proof. apply (last_two_rounds_correct demo_store); [apply demo_store_wf|apply demo_store_indexed]. Defined.

Lemma author_rounds_witness :
  (next_round_number demo_store 3 1 = Some 2 <->
     is_Some (digest_by_origin demo_store !! (3, 2)) /\ 1 < 2 /\
     forall r', is_Some (digest_by_origin demo_store !! (3, r')) -> 1 < r' -> 2 <= r') /\
  (last_round_number demo_store 3 = Some 2 <->
     is_Some (digest_by_origin demo_store !! (3, 2)) /\ 2 < round_max /\
     forall r', is_Some (digest_by_origin demo_store !! (3, r')) -> r' < round_max -> r' <= 2).
Proof. apply (author_rounds demo_store 3 1 2). by vm_compute. Defined.

(** Deleting a certificate leaves its record in the index by author: the store still
    reports the round, and finds no certificate there. *)
Lemma delete_leaves_author_index :
  let s' := delete demo_store (Certificate.digest (demo_cert 1 2 (demo_digests demo_round1))) in
  last_round_number s' 1 = Some 2 /\ last_round s' 1 = None /\ read_by_index s' 1 2 = None /\
  last_round_number demo_store 1 = Some 2 /\ is_Some (last_round demo_store 1).
Proof. vm_compute. split_and!; [done..|by eexists]. Qed.

End witnesses.
