(* ===== verification/CertificateSafety.v ===== *)
(** The properties of committees, headers and certificates: quorum intersection, the
    nonce order, and what creating and verifying a certificate guarantees. *)

From S2P Require Import Prelude Committee Certificate Output ConsensusState LeaderSchedule Bullshark.
From S2P Require Import Demo.
Import Certificate CertificateFacts.

Section properties.
Context `{NetworkKeys} `{Crypto}.

(** Any two sets of authorities that each reach the quorum threshold of a loaded
    committee share authorities holding at least the validity threshold, so more stake
    than can be faulty; and the thresholds are exactly [t - f] and [f + 1] for a total
    stake [t] and [f = (t - 1) / 3]. *)
Theorem quorum_intersection auths epoch committee Q1 Q2 :
  0 < Committee.stake auths < 2 ^ 63 -> @Committee.new _ unit auths epoch = Ok committee ->
  Committee.reached_quorum committee (Committee.weight committee Q1) = true ->
  Committee.reached_quorum committee (Committee.weight committee Q2) = true ->
  Committee.reached_validity committee (Committee.weight committee (Q1 ∩ Q2)) = true /\
  Committee.quorum_threshold committee = Committee.stake auths - Committee.max_faulty committee /\
  Committee.validity_threshold committee = Committee.max_faulty committee + 1.
Proof.
  intros [Hpos Hb] Hnew HQ1 HQ2.
  destruct (CommitteeFacts.new_wf auths epoch committee Hb Hnew) as (Hwf & Ha & _).
  rewrite <-Ha in Hpos |- *.
  destruct (CommitteeFacts.thresholds_exact committee Hwf Hpos) as [Hq Hv]. split; [|done].
  by apply (CommitteeFacts.quorums_intersect committee Hwf).
Qed.

(** The nonce of a header orders headers by epoch and then by round, and is unique
    per epoch and round, for 32-bit epochs and rounds. *)
Theorem nonce_order h h' :
  Header.round h < 2 ^ 32 -> Header.round h' < 2 ^ 32 ->
  (Header.nonce h < Header.nonce h' <->
     Header.epoch h < Header.epoch h' \/
     (Header.epoch h = Header.epoch h' /\ Header.round h < Header.round h')) /\
  (Header.nonce h = Header.nonce h' <->
     Header.epoch h = Header.epoch h' /\ Header.round h = Header.round h').
Proof.
  intros Hr Hr'.
  assert (forall h, Header.round h < 2 ^ 32 -> Header.nonce h = Header.epoch h * 2 ^ 32 + Header.round h) as Hn.
  { intros g Hg. unfold Header.nonce. rewrite N.shiftl_mul_pow2.
    assert (N.land (Header.epoch g * 2 ^ 32) (Header.round g) = 0) as Hdisj;
      [|by rewrite <-N.lxor_lor, N.add_nocarry_lxor].
    apply N.bits_inj. intros i. rewrite N.land_spec, N.bits_0.
    destruct (N.lt_ge_cases i 32) as [Hi|Hi].
    - by rewrite N.mul_pow2_bits_low.
    - rewrite andb_false_iff. right.
      destruct (N.eq_dec (Header.round g) 0) as [->|Hz]; [apply N.bits_0|]. apply N.bits_above_log2.
      apply N.log2_lt_pow2; [lia|]. eapply N.lt_le_trans; [exact Hg|]. by apply N.pow_le_mono_r. }
  rewrite !Hn by done. change (2 ^ 32) with 4294967296 in *. lia.
Qed.

(** A certificate made from votes records exactly the voters: [signed_by] returns
    their total stake and their keys in the order of their identifiers, every voter is a
    member of the committee, and the votes reach the quorum. *)
Theorem new_unverified_signed_by committee header votes now cert :
  Committee.wf committee -> new_unverified committee header votes now = Ok cert ->
  let voted := collect_map votes in
  Certificate.header cert = header /\ dom voted ⊆ Committee.members committee /\
  signed_by cert committee =
    (Committee.weight committee (dom voted),
     Authority.protocol_key <$> voters (Committee.authorities_list committee) voted) /\
  Committee.reached_quorum committee (Committee.weight committee (dom voted)) = true.
Proof.
  intros Hwf Hnew voted. unfold new_unverified in Hnew.
  apply new_internal_inv in Hnew as (Hh & Hdom & Hsig & Hq); [|done].
  split_and!; [done|done| |by apply Hq].
  rewrite signed_by_signers, Hsig. f_equal. by apply voters_weight.
Qed.

(** A certificate that is signed by a quorum. *)
Definition quorum_signed (committee : Committee.t) (c : Certificate.t) (sig : N) : Prop :=
  aggregated_signature c = Some sig /\
  bls_verify_secure sig (digest c) (Authority.protocol_key <$> signers c committee) = true /\
  Committee.reached_quorum committee (Committee.weight committee (signer_ids c committee)) = true.

Lemma verify_cert_iff c committee c' :
  Committee.wf committee ->
  verify_cert c committee = Ok c' <->
  exists sig, quorum_signed committee c sig /\ c' = set_signature_verification_state c (VerifiedDirectly sig).
Proof.
  intros Hwf. unfold verify_cert, validate_received, quorum_signed.
  destruct (aggregated_signature c) as [sig|] eqn:Hsig; simpl;
    [|by split; [|intros (? & [? _] & _)]].
  set (c1 := set_signature_verification_state c (Unverified sig)).
  assert (digest c = digest c1 /\ signers c committee = signers c1 committee /\
          signer_ids c committee = signer_ids c1 committee) as (-> & -> & ->) by done.
  pose proof (signed_by_weight c1 committee Hwf) as Hw. rewrite signed_by_signers in Hw |- *.
  simpl in Hw. rewrite <-Hw. unfold Committee.reached_quorum, verify_signature. simpl.
  destruct (_ <=? _) eqn:Hq; simpl; [|by split; [|intros (? & (? & ? & ?) & _)]].
  destruct (bls_verify_secure _ _ _) eqn:Hb; split; try done.
  - intros [= <-]. by exists sig.
  - by intros (? & ([= <-] & _) & ->).
  - intros (? & ([= <-] & ? & _) & _). congruence.
Qed.

(** [verify_cert] trusts nothing of the received verification state: it succeeds
    exactly when the certificate carries a signature, the authorities marked in the
    bitmap hold a quorum of the committee's stake and the aggregate signature verifies
    over the certificate's digest with exactly their keys; all of them are members. *)
Theorem verify_cert_correct c committee :
  Committee.wf committee ->
  (forall c', verify_cert c committee = Ok c' <->
     exists sig, quorum_signed committee c sig /\
                 c' = set_signature_verification_state c (VerifiedDirectly sig)) /\
  signer_ids c committee ⊆ Committee.members committee.
Proof.
  intros Hwf. split; [intros c'; by apply verify_cert_iff|by apply signer_ids_members].
Qed.

Lemma verify_inv c committee worker_cache c' sig :
  Committee.wf committee -> signature_verification_state c = Unverified sig ->
  verify c committee worker_cache = Ok c' ->
  Certificate.epoch c = Committee.epoch committee /\
  ((c' = c /\ round c = 0 /\ exists g, g ∈ genesis committee /\ eqb c g = true) \/
   (HeaderOps.hash_digest (header c) = digest c /\
    Committee.voting_power_by_id committee (origin c) <> 0 /\
    Committee.reached_quorum committee (Committee.weight committee (signer_ids c committee)) = true /\
    bls_verify_secure sig (digest c) (Authority.protocol_key <$> signers c committee) = true /\
    c' = set_signature_verification_state c (VerifiedDirectly sig))).
Proof.
  intros Hwf Hst Hv. unfold verify in Hv. apply bind_Ok in Hv as (u & He%ensure_Ok & Hv).
  split; [lia|]. destruct ((round c =? 0) && existsb (eqb c) (genesis committee)) eqn:Hg.
  - left. injection Hv as <-. apply andb_true_iff in Hg as [Hr Hg]. split_and!; [done|lia|].
    apply existsb_exists in Hg as (g & Hin & Heq). exists g. by rewrite list_elem_of_In.
  - right. apply bind_Ok in Hv as (u' & Hval & Hv).
    destruct (HeaderOps.validate (header c) committee worker_cache) as [u''| | |] eqn:Hvalid; try done.
    apply validate_Ok in Hvalid as (_ & Hd & Hp).
    pose proof (signed_by_weight c committee Hwf) as Hw. rewrite signed_by_signers in Hw, Hv.
    apply bind_Ok in Hv as (u3 & Hq%ensure_Ok & Hv). unfold verify_signature in Hv. rewrite Hst in Hv.
    destruct (bls_verify_secure _ _ _) eqn:Hb; [|done]. injection Hv as <-.
    split_and!; [done|done| |done|done]. rewrite <-Hw. exact Hq.
Qed.

(** C26: [verify] accepts a certificate received as unverified only if it is a genesis
    certificate of the epoch, or its header is of the epoch, carries the digest of its
    contents, is authored by an authority with stake, a quorum signed it and the
    aggregate signature verifies. *)
Theorem verify_sound c committee worker_cache c' sig :
  Committee.wf committee -> signature_verification_state c = Unverified sig ->
  verify c committee worker_cache = Ok c' ->
  Certificate.epoch c = Committee.epoch committee /\
  ((c' = c /\ round c = 0 /\ exists g, g ∈ genesis committee /\ eqb c g = true) \/
   (HeaderOps.hash_digest (header c) = digest c /\
    Committee.voting_power_by_id committee (origin c) <> 0 /\
    Committee.reached_quorum committee (Committee.weight committee (signer_ids c committee)) = true /\
    bls_verify_secure sig (digest c) (Authority.protocol_key <$> signers c committee) = true /\
    c' = set_signature_verification_state c (VerifiedDirectly sig))).
Proof. apply verify_inv. Qed.

(** ** Verifying a sub-dag received from a peer *)

(** Signed by a quorum, whatever the signature. *)
Definition certified (committee : Committee.t) (c : Certificate.t) : Prop :=
  exists sig, quorum_signed committee c sig.

Lemma verify_cert_certified c committee c' :
  Committee.wf committee -> verify_cert c committee = Ok c' ->
  certified committee c' /\ header c' = header c.
Proof.
  intros Hwf (sig & (Hs & Hb & Hq) & ->)%verify_cert_iff; [|done]. split; [|done]. by exists sig.
Qed.

(** What the loop has established: every certificate kept is signed by a quorum, or its
    digest is a parent of the leader or of one verified directly before it. *)
Definition vouched (committee : Committee.t) (leader : Certificate.t) (l : list Certificate.t) : Prop :=
  forall i c, l !! i = Some c ->
    certified committee c \/ digest c ∈ parents leader \/
    exists j c', (j < i)%nat /\ l !! j = Some c' /\ digest c' = digest c /\ certified committee c'.

Lemma verify_steps committee leader cs acc acc' :
  Committee.wf committee -> vouched committee leader acc.2 ->
  (forall d, d ∈ acc.1 -> d ∈ parents leader \/ exists c, c ∈ acc.2 /\ digest c = d /\ certified committee c) ->
  foldM (CommittedSubDag.verify_step committee) acc cs = Ok acc' ->
  vouched committee leader acc'.2 /\ header <$> acc'.2 = header <$> acc.2 ++ cs.
Proof.
  intros Hwf. revert acc. induction cs as [|c cs IH]; intros [vs l] Hv Hset; simpl.
  { intros [= <-]. by rewrite app_nil_r. }
  intros ([vs1 l1] & Hstep & Hrest)%bind_Ok. simpl in *.
  assert (exists c1, l1 = l ++ [c1] /\ header c1 = header c /\
    ((vs1 = vs /\ digest c1 ∈ vs) \/ (vs1 = {[digest c1]} ∪ vs /\ certified committee c1))) as (c1 & -> & Hh & Hcase).
  { case_bool_decide as Hin.
    - apply bind_Ok in Hstep as (sig & _ & [= <- <-]). eexists. split; [done|]. split; [done|]. by left.
    - apply bind_Ok in Hstep as (c1 & Hc1 & [= <- <-]).
      apply verify_cert_certified in Hc1 as [Hq Hh]; [|done]. exists c1. split_and!; [done|done|by right]. }
  assert (header <$> (l ++ [c1]) ++ cs = header <$> l ++ c :: cs) as Hhdr.
  { rewrite !fmap_app, <-app_assoc. simpl. by rewrite Hh. }
  rewrite <-Hhdr. apply IH in Hrest; simpl; [done| |].
  - intros i x Hx. apply lookup_app_Some in Hx as [Hx|[Hi Hx]].
    + destruct (Hv i x Hx) as [?|[?|(j & c' & ? & Hj & ? & ?)]]; [by left|by right; left|].
      right. right. exists j, c'. split_and!; [done|by apply lookup_app_l_Some|done|done].
    + apply list_lookup_singleton_Some in Hx as [Hi' <-].
      destruct Hcase as [[-> Hd]|[-> Hq]]; [|by left]. right.
      destruct (Hset _ Hd) as [?|(c' & Hc' & Hd' & Hq')]; [by left|right].
      apply list_elem_of_lookup in Hc' as [j Hj]. exists j, c'.
      split_and!; [apply lookup_lt_Some in Hj; lia|by apply lookup_app_l_Some|done|done].
  - intros d Hd. destruct Hcase as [[-> _]|[-> Hq]].
    + destruct (Hset d Hd) as [?|(c' & ? & ? & ?)]; [by left|right]. exists c'. set_solver.
    + apply elem_of_union in Hd as [->%elem_of_singleton|Hd]; [right; exists c1; set_solver|].
      destruct (Hset d Hd) as [?|(c' & ? & ? & ?)]; [by left|right]. exists c'. set_solver.
Qed.

(** A sub-dag that passes [verify_certificates] keeps its headers and order; its
    leader is signed by a quorum, and each of its certificates is signed by a quorum, or
    referenced by the leader, or repeats the digest of an earlier quorum-signed one. *)
Theorem sub_dag_verified s committee s' :
  Committee.wf committee -> CommittedSubDag.verify_certificates s committee = Ok s' ->
  certified committee (CommittedSubDag.leader s') /\
  header (CommittedSubDag.leader s') = header (CommittedSubDag.leader s) /\
  header <$> CommittedSubDag.certificates s' = header <$> CommittedSubDag.certificates s /\
  vouched committee (CommittedSubDag.leader s') (CommittedSubDag.certificates s').
Proof.
  intros Hwf Hv. unfold CommittedSubDag.verify_certificates in Hv.
  apply bind_Ok in Hv as (leader & Hl & Hv). apply bind_Ok in Hv as (acc & Hacc & [= <-]). simpl.
  apply verify_cert_certified in Hl as [Hq Hh]; [|done].
  apply (verify_steps committee leader) in Hacc as [Hvch Hhd]; [done|done| |].
  - intros [|i] c Hc; done.
  - intros d Hd. by left.
Qed.

End properties.

(** * Witnesses *)

Section witnesses.
#[local] Existing Instances demo_keys demo_crypto.

Lemma quorum_intersection_witness :
  Committee.reached_validity demo_committee (Committee.weight demo_committee ({[1; 2; 3]} ∩ {[2; 3; 4]})) = true /\
  Committee.quorum_threshold demo_committee =
    Committee.stake demo_authorities - Committee.max_faulty demo_committee /\
  Committee.validity_threshold demo_committee = Committee.max_faulty demo_committee + 1.
Proof.
  apply (quorum_intersection demo_authorities 0); [by vm_compute|by vm_compute|by vm_compute|by vm_compute].
Defined.

Lemma nonce_order_witness :
  (Header.nonce (demo_header 1 7 []) < Header.nonce (demo_header 2 9 []) <-> 0 < 0 \/ (0 = 0 /\ 7 < 9)) /\
  (Header.nonce (demo_header 1 7 []) = Header.nonce (demo_header 2 9 []) <-> 0 = 0 /\ 7 = 9).
Proof. apply (nonce_order (demo_header 1 7 []) (demo_header 2 9 [])); by vm_compute. Defined.

Definition demo_votes : list (N * N) :=
  (fun i => (i, HeaderOps.digest (demo_header 1 1 []))) <$> [3; 1; 4].

Definition demo_certified : Certificate.t :=
  match new_unverified demo_committee (demo_header 1 1 []) demo_votes 5 with
  | Ok c => c
  | _ => demo_cert 1 1 []
  end.

Lemma new_unverified_signed_by_witness :
  let voted := collect_map demo_votes in
  Certificate.header demo_certified = demo_header 1 1 [] /\ dom voted ⊆ Committee.members demo_committee /\
  signed_by demo_certified demo_committee =
    (Committee.weight demo_committee (dom voted),
     Authority.protocol_key <$> voters (Committee.authorities_list demo_committee) voted) /\
  Committee.reached_quorum demo_committee (Committee.weight demo_committee (dom voted)) = true.
Proof.
  apply (new_unverified_signed_by demo_committee (demo_header 1 1 []) demo_votes 5 demo_certified).
  - apply (proj1 demo_committee_wf).
  - vm_compute. reflexivity.
Defined.

Definition demo_verified : Certificate.t :=
  match verify_cert demo_certified demo_committee with Ok c => c | _ => demo_cert 1 1 [] end.

Lemma verify_cert_correct_witness :
  (forall c', verify_cert demo_certified demo_committee = Ok c' <->
     exists sig, quorum_signed demo_committee demo_certified sig /\
                 c' = set_signature_verification_state demo_certified (VerifiedDirectly sig)) /\
  signer_ids demo_certified demo_committee ⊆ Committee.members demo_committee.
Proof. apply (verify_cert_correct demo_certified demo_committee), (proj1 demo_committee_wf). Defined.

Lemma verify_sound_witness :
  Certificate.epoch demo_certified = Committee.epoch demo_committee /\
  ((demo_verified = demo_certified /\ round demo_certified = 0 /\
      exists g, g ∈ genesis demo_committee /\ eqb demo_certified g = true) \/
   (HeaderOps.hash_digest (header demo_certified) = digest demo_certified /\
    Committee.voting_power_by_id demo_committee (origin demo_certified) <> 0 /\
    Committee.reached_quorum demo_committee (Committee.weight demo_committee (signer_ids demo_certified demo_committee)) = true /\
    bls_verify_secure (digest demo_certified) (digest demo_certified)
      (Authority.protocol_key <$> signers demo_certified demo_committee) = true /\
    demo_verified = set_signature_verification_state demo_certified (VerifiedDirectly (digest demo_certified)))).
Proof.
  apply (verify_sound demo_certified demo_committee (WorkerCache.mk 0 ∅) demo_verified (digest demo_certified)).
  - apply (proj1 demo_committee_wf).
  - vm_compute. reflexivity.
  - vm_compute. reflexivity.
Defined.

Definition demo_sub_dag : CommittedSubDag.t :=
  CommittedSubDag.mk [demo_certified; demo_certified] demo_certified ReputationScores.default 1.

Definition demo_verified_sub_dag : CommittedSubDag.t :=
  match CommittedSubDag.verify_certificates demo_sub_dag demo_committee with Ok s => s | _ => demo_sub_dag end.

Lemma sub_dag_verified_witness :
  certified demo_committee (CommittedSubDag.leader demo_verified_sub_dag) /\
  header (CommittedSubDag.leader demo_verified_sub_dag) = header (CommittedSubDag.leader demo_sub_dag) /\
  header <$> CommittedSubDag.certificates demo_verified_sub_dag = header <$> CommittedSubDag.certificates demo_sub_dag /\
  vouched demo_committee (CommittedSubDag.leader demo_verified_sub_dag) (CommittedSubDag.certificates demo_verified_sub_dag).
Proof.
  apply (sub_dag_verified demo_sub_dag demo_committee demo_verified_sub_dag).
  - apply (proj1 demo_committee_wf).
  - vm_compute. reflexivity.
Defined.

End witnesses.
