(* ===== verification/Aggregators.v ===== *)
(** The aggregation of votes into a certificate and of certificates into the parents of
    the next round.
    Models crates/consensus/primary/src/aggregators/{votes,certificates}.rs. *)

From S2P Require Import Prelude Committee Certificate Output ConsensusState LeaderSchedule Bullshark.
From S2P Require Import Demo CertificateSafety.
Import Certificate CertificateFacts.

Module VotesAggregator.

Record t := mk {
  weight : VotingPower;
  votes : list (AuthorityIdentifier * BlsSignature);
  authorities_seen : gset AuthorityIdentifier;
}.

Definition new : t := mk 0 [] ∅.

Section votes.
Context `{NetworkKeys} `{Crypto}.

(** The closure of [retain], on the votes kept and the weight. *)
Definition retain_step (committee : Committee.t) (digest : Digest)
    (acc : list (AuthorityIdentifier * BlsSignature) * VotingPower) (vote : AuthorityIdentifier * BlsSignature)
    : list (AuthorityIdentifier * BlsSignature) * VotingPower :=
  let '(kept, weight) := acc in
  match Committee.authority committee vote.1 with
  | Some auth =>
      let pk := Authority.protocol_key auth in
      if negb (bls_verify vote.2 digest pk)
      then (kept, wrapping_sub64 weight (Committee.voting_power committee pk))
      else (kept ++ [vote], weight)
  | None => (kept, weight)
  end.

(** The aggregator is returned with the result, as it is when an error is returned. *)
Definition append (a : t) (vote : Vote.t) (committee : Committee.t) (header : Header.t) (now : TimestampSec)
    : t * outcome DagError (option Certificate.t) :=
  let author := Vote.author vote in
  if bool_decide (author ∈ authorities_seen a) then (a, Err (DagAuthorityReuse author)) else
  let a := mk (wrap64 (weight a + Committee.voting_power_by_id committee author))
             (votes a ++ [(author, Vote.signature vote)]) ({[author]} ∪ authorities_seen a) in
  if Committee.quorum_threshold committee <=? weight a then
    match new_unverified committee header (votes a) now with
    | Ok cert =>
        let pks := (signed_by cert committee).2 in
        let certificate_digest := digest cert in
        match aggregated_signature cert with
        | None => (a, Err DagInvalidSignature)
        | Some sig =>
            if negb (bls_verify_secure sig certificate_digest pks) then
              let '(kept, weight') := foldl (retain_step committee certificate_digest) ([], weight a) (votes a) in
              (mk weight' kept (authorities_seen a), Ok None)
            else (a, Ok (Some (set_signature_verification_state cert (VerifiedDirectly sig))))
        end
    | Err e => (a, Err e)
    | Panic => (a, Panic)
    | OutOfFuel => (a, OutOfFuel)
    end
  else (a, Ok None).

End votes.
End VotesAggregator.

Module CertificatesAggregator.

Record t := mk {
  weight : VotingPower;
  certificates : list Certificate.t;
  authorities_seen : gset AuthorityIdentifier;
}.

Definition new : t := mk 0 [] ∅.

Definition append (a : t) (certificate : Certificate.t) (committee : Committee.t)
    : t * option (list Certificate.t) :=
  let origin := Certificate.origin certificate in
  if bool_decide (origin ∈ authorities_seen a) then (a, None) else
  let a := mk (wrap64 (weight a + Committee.voting_power_by_id committee origin))
             (certificates a ++ [certificate]) ({[origin]} ∪ authorities_seen a) in
  if Committee.quorum_threshold committee <=? weight a
  then (mk (weight a) [] (authorities_seen a), Some (certificates a))
  else (a, None).

End CertificatesAggregator.

Module CertificatesAggregatorManager.

(** The aggregators by round, and the channel to the proposer: what was sent, and
    whether its receiver is still there. *)
Record t := mk {
  aggregators : gmap Round CertificatesAggregator.t;
  parents : list (list Certificate.t * Round);
  parents_open : bool;
}.

Definition new : t := mk ∅ [] true.

(** The manager, and whether the send succeeded. *)
Definition append_certificate (m : t) (certificate : Certificate.t) (committee : Committee.t) : t * bool :=
  let round := Certificate.round certificate in
  let '(a, quorum) :=
    CertificatesAggregator.append (default CertificatesAggregator.new (aggregators m !! round)) certificate committee in
  let aggregators' := <[round := a]> (aggregators m) in
  match quorum with
  | Some ps =>
      if parents_open m then (mk aggregators' (parents m ++ [(ps, round)]) true, true)
      else (mk aggregators' (parents m) false, false)
  | None => (mk aggregators' (parents m) (parents_open m), true)
  end.

Definition garbage_collect (m : t) (gc_round : Round) : t :=
  mk (filter (fun ka => gc_round < ka.1) (aggregators m)) (parents m) (parents_open m).

End CertificatesAggregatorManager.

(** * Votes *)

Section votes.
Context `{NetworkKeys} `{Crypto} (committee : Committee.t).
Implicit Types (a : VotesAggregator.t) (l : list (AuthorityIdentifier * BlsSignature)).

(** The stake of a list of voters. *)
Definition votes_power l : N := sumN (Committee.voting_power_by_id committee <$> l.*1).

(** One vote per author, all of them recorded, and the weight is their stake. *)
Record votes_inv a : Prop := {
  votes_nodup : NoDup (VotesAggregator.votes a).*1;
  votes_seen i : i ∈ (VotesAggregator.votes a).*1 -> i ∈ VotesAggregator.authorities_seen a;
  votes_weight : VotesAggregator.weight a = votes_power (VotesAggregator.votes a);
}.

(** Authorities are filed under their own key. *)
Definition keyed : Prop :=
  forall k auth, Committee.authorities committee !! k = Some auth -> Authority.protocol_key auth = k.

(** A vote whose signature its author made. *)
Definition valid_vote (d : Digest) (v : AuthorityIdentifier * BlsSignature) : bool :=
  match Committee.authority committee v.1 with
  | Some auth => bls_verify v.2 d (Authority.protocol_key auth)
  | None => false
  end.

Lemma votes_inv_new : votes_inv VotesAggregator.new.
Proof. constructor; simpl; [constructor|by intros i ?%elem_of_nil|done]. Qed.

Lemma votes_power_weight l : NoDup l.*1 -> votes_power l = Committee.weight committee (list_to_set l.*1).
Proof. intros Hnd. unfold Committee.weight. by rewrite weigh_list_to_set. Qed.

Lemma votes_power_app l k : votes_power (l ++ k) = votes_power l + votes_power k.
Proof. unfold votes_power. by rewrite !fmap_app, sumN_app. Qed.

Context (Hwf : Committee.wf committee).

Section no_overflow.
Context (Hstake : Committee.stake (Committee.authorities committee) < 2 ^ 63).

Lemma votes_power_bound l : NoDup l.*1 -> votes_power l < u64_modulus.
Proof.
  intros Hnd. rewrite votes_power_weight by done.
  pose proof (CommitteeFacts.weight_le_stake committee Hwf (list_to_set l.*1)).
  assert (u64_modulus = 2 * 2 ^ 63) by done. lia.
Qed.

Lemma votes_inv_append a author sig :
  votes_inv a -> author ∉ VotesAggregator.authorities_seen a ->
  votes_inv (VotesAggregator.mk
    (wrap64 (VotesAggregator.weight a + Committee.voting_power_by_id committee author))
    (VotesAggregator.votes a ++ [(author, sig)]) ({[author]} ∪ VotesAggregator.authorities_seen a)).
Proof.
  intros [Hnd Hseen Hw] Hnew.
  assert (NoDup (VotesAggregator.votes a ++ [(author, sig)]).*1) as Hnd'.
  { rewrite fmap_app. simpl. apply NoDup_app. split_and!; [done| |by apply NoDup_singleton].
    intros i Hi%Hseen ->%list_elem_of_singleton. done. }
  constructor; simpl; [done| |].
  - intros i. rewrite fmap_app. simpl. set_solver.
  - rewrite Hw. replace (votes_power (VotesAggregator.votes a) + Committee.voting_power_by_id committee author)
      with (votes_power (VotesAggregator.votes a ++ [(author, sig)])).
    + by apply wrap64_small, votes_power_bound.
    + rewrite votes_power_app. unfold votes_power. simpl. lia.
Qed.

End no_overflow.

Context (Hkeyed : keyed).

Lemma power_by_key i auth :
  Committee.authority committee i = Some auth ->
  Committee.voting_power committee (Authority.protocol_key auth) = Committee.voting_power_by_id committee i.
Proof.
  intros Ha. unfold Committee.voting_power, Committee.voting_power_by_id. unfold Committee.authority in Ha.
  rewrite Ha. apply (Committee.wf_index _ Hwf) in Ha as (_ & k & Hk).
  by rewrite (Hkeyed _ _ Hk), Hk.
Qed.

(** Dropping the invalid votes keeps the weight equal to the stake of those kept. *)
Lemma retain_spec d l kept :
  foldl (VotesAggregator.retain_step committee d) (kept, votes_power (kept ++ l)) l =
    (kept ++ filter (fun v => valid_vote d v = true) l,
     votes_power (kept ++ filter (fun v => valid_vote d v = true) l)).
Proof.
  revert kept. induction l as [|v l IH]; intros kept; [simpl; by rewrite !app_nil_r|]. cbn [foldl].
  unfold VotesAggregator.retain_step at 2.
  assert (votes_power (kept ++ v :: l) = votes_power (kept ++ l) + Committee.voting_power_by_id committee v.1) as Hp.
  { rewrite (cons_middle v kept l), !votes_power_app. unfold votes_power. simpl. lia. }
  destruct (Committee.authority committee v.1) as [auth|] eqn:Ha.
  - rewrite (power_by_key _ _ Ha). destruct (bls_verify v.2 d (Authority.protocol_key auth)) eqn:Hb; simpl.
    + rewrite (cons_middle v kept l), app_assoc, IH, <-app_assoc.
      rewrite (filter_cons_True _ v l) by (unfold valid_vote; by rewrite Ha, Hb). done.
    + rewrite wrapping_sub64_small, Hp by lia. rewrite N.add_sub, IH.
      rewrite (filter_cons_False _ v l) by (unfold valid_vote; by rewrite Ha, Hb). done.
  - rewrite Hp. unfold Committee.voting_power_by_id. unfold Committee.authority in Ha. rewrite Ha. simpl.
    rewrite N.add_0_r, IH. rewrite (filter_cons_False _ v l); [done|].
    unfold valid_vote, Committee.authority. by rewrite Ha.
Qed.

End votes.

(** * Certificates from votes *)

(** The aggregate of valid signatures exists and is valid for their keys. *)
Class AggregateLaws `{Crypto} := {
  aggregate_valid sigs pks d :
    sigs <> [] -> Forall2 (fun s pk => bls_verify s d pk = true) sigs pks ->
    exists agg, bls_aggregate sigs = Some agg /\ bls_verify_secure agg d pks = true;
}.

Section certificates.
Context `{NetworkKeys} `{Crypto} (committee : Committee.t) (Hwf : Committee.wf committee).
Implicit Types (votes : gmap AuthorityIdentifier BlsSignature).

(** The walk over the sorted authorities takes every vote of a member. *)
Lemma take_votes_complete i auths votes :
  StronglySorted N.lt (Authority.id <$> auths) -> dom votes ⊆ list_to_set (Authority.id <$> auths) ->
  exists idx sigs w, take_votes i auths votes = (idx, sigs, w, ∅).
Proof.
  revert i votes. induction auths as [|a auths IH]; intros i votes Hs Hdom; simpl in *.
  { exists [], [], 0. assert (votes = ∅) as ->; [apply dom_empty_inv_L; set_solver|done]. }
  inversion Hs as [|? ? Hs' Ha]; subst. rewrite Forall_forall in Ha.
  destruct (first_key_value votes) as [[k s]|] eqn:Hf.
  - pose proof (first_key_value_Some _ _ _ Hf) as (Hk & _ & Hmin). simpl.
    destruct (N.eqb_spec (Authority.id a) k) as [<-|Hne].
    + rewrite drop_repeats_id by apply lookup_delete_eq.
      destruct (IH (i + 1) (delete (Authority.id a) votes)) as (idx & sigs & w & ->); [done| |by eauto].
      rewrite dom_delete_L. set_solver.
    + apply IH; [done|]. apply elem_of_dom_2, Hdom in Hk. intros j Hj. pose proof (Hmin j Hj) as Hkj.
      apply Hdom in Hj. apply elem_of_union in Hj as [->%elem_of_singleton|Hj]; [|done].
      apply elem_of_union in Hk as [?%elem_of_singleton|Hk]; [done|].
      apply elem_of_list_to_set, Ha in Hk. lia.
  - apply IH; [done|]. unfold first_key_value in Hf.
    destruct (btree_iter votes) eqn:Hi; [|done]. apply btree_iter_nil in Hi. set_solver.
Qed.

(** The votes and the voters come in the same order. *)
Lemma voters_keys votes :
  dom votes ⊆ Committee.members committee ->
  Authority.id <$> voters (Committee.authorities_list committee) votes = btree_keys votes.
Proof.
  intros Hsub. set (l := voters _ _).
  assert (StronglySorted N.lt (Authority.id <$> l)) as Hsl.
  { pose proof (authorities_list_sorted _ Hwf) as Hs. unfold l, voters. clear l.
    induction (Committee.authorities_list committee) as [|a l IH]; [constructor|]. simpl in Hs.
    inversion Hs as [|? ? Hs' Ha]; subst. rewrite Forall_forall in Ha.
    destruct (decide (Authority.id a ∈ dom votes)); [rewrite filter_cons_True by done|by rewrite filter_cons_False; auto].
    simpl. constructor; [auto|]. apply Forall_forall. intros j (b & -> & Hb)%list_elem_of_fmap.
    apply list_elem_of_filter in Hb as [_ Hb]. apply Ha. by apply list_elem_of_fmap_2. }
  apply sorted_unique; [done|apply btree_keys_sorted|].
  intros i. rewrite elem_of_btree_keys, <-elem_of_dom, list_elem_of_fmap. split.
  - intros (a & -> & Ha). by apply list_elem_of_filter in Ha as [? _].
  - intros Hi. pose proof (Hsub i Hi) as [a Ha]%Committee.elem_of_members.
    pose proof Ha as [Hid _]%(Committee.wf_index _ Hwf). exists a. split; [done|].
    apply list_elem_of_filter. split; [by rewrite Hid|].
    apply elem_of_authorities_list; [done|]. unfold Committee.authority. by rewrite Hid.
Qed.

(** Valid votes of members holding a quorum make a certificate that verifies. *)
Lemma new_unverified_complete `{!AggregateLaws} header (votes : list (AuthorityIdentifier * BlsSignature)) d now :
  dom (collect_map votes) ⊆ Committee.members committee ->
  (forall v, v ∈ votes -> valid_vote committee d v = true) ->
  0 < Committee.quorum_threshold committee ->
  Committee.reached_quorum committee (Committee.weight committee (dom (collect_map votes))) = true ->
  exists cert sig, new_unverified committee header votes now = Ok cert /\ aggregated_signature cert = Some sig /\
    bls_verify_secure sig d (signed_by cert committee).2 = true.
Proof.
  intros Hsub Hval Hpos Hq. unfold new_unverified. set (m := collect_map votes) in *.
  destruct (take_votes_complete 0 (Committee.authorities_list committee) m) as (idx & sigs & w & Ht).
  { by apply authorities_list_sorted. }
  { rewrite authorities_list_ids by done. intros i Hi%Hsub. apply elem_of_list_to_set, elem_of_btree_keys.
    by apply Committee.elem_of_members. }
  pose proof (take_votes_spec _ _ _ _ _ _ (authorities_list_sorted _ Hwf) Ht) as (Hs & _ & Hsel & Hw & Hsig).
  assert (sigs.*2 <> []) as Hne.
  { intros Hnil%fmap_nil_inv. subst sigs. apply btree_iter_nil in Hnil. rewrite Hnil, dom_empty_L in Hq.
    unfold Committee.reached_quorum, Committee.weight in Hq. rewrite weigh_empty in Hq. lia. }
  destruct (aggregate_valid sigs.*2 (Authority.protocol_key <$> voters (Committee.authorities_list committee) m) d)
    as (agg & Hagg & Hver); [done| |].
  { subst sigs. apply Forall2_fmap. pose proof (voters_keys m Hsub) as Hk. unfold btree_keys in Hk.
    apply Forall2_same_length_lookup_2.
    - apply (f_equal length) in Hk. by rewrite !length_fmap in Hk.
    - intros j [i s] a Hj Ha. apply (f_equal (fun l => l !! j)) in Hk. rewrite !list_lookup_fmap, Hj, Ha in Hk.
      simpl in Hk. injection Hk as Hid. apply list_elem_of_lookup_2 in Hj, Ha.
      apply list_elem_of_filter in Ha as [_ Ha]. apply elem_of_authorities_list in Ha; [|done].
      apply elem_of_btree_iter, collect_map_elem, Hval in Hj. unfold valid_vote in Hj. simpl in Hj.
      by rewrite <-Hid, Ha in Hj. }
  assert (new_internal committee header m true now = Ok (mk header (Unverified agg) (list_to_set idx) now)) as Hnew.
  { unfold new_internal. rewrite Ht, bitmap_from_sorted_iter_ok by done. simpl.
    rewrite Hw, voters_weight by done. unfold Committee.reached_quorum in Hq. rewrite Hq. simpl.
    destruct (sigs.*2) eqn:E; [done|]. rewrite Hagg. done. }
  exists (mk header (Unverified agg) (list_to_set idx) now), agg. split_and!; [done|done|].
  apply new_internal_inv in Hnew as (_ & _ & Hsg & _); [|done]. rewrite signed_by_signers, Hsg. done.
Qed.

End certificates.

(** * Parents *)

Section parents.
Context `{NetworkKeys} (committee : Committee.t).

(** Feeding a sequence of certificates, collecting what is emitted. *)
Definition append_all (a : CertificatesAggregator.t) (cs : list Certificate.t)
    : CertificatesAggregator.t * list (list Certificate.t) :=
  foldl (fun acc c =>
      let '(a', out) := CertificatesAggregator.append acc.1 c committee in
      (a', match out with Some l => acc.2 ++ [l] | None => acc.2 end)) (a, []) cs.

(** The first certificate of each origin. *)
Definition first_of_origin (cs : list Certificate.t) : list Certificate.t :=
  foldl (fun acc c => if bool_decide (Certificate.origin c ∈ Certificate.origin <$> acc) then acc else acc ++ [c]) [] cs.

Definition origins (cs : list Certificate.t) : gset AuthorityIdentifier := list_to_set (Certificate.origin <$> cs).

Lemma first_of_origin_snoc cs c :
  first_of_origin (cs ++ [c]) =
    if bool_decide (Certificate.origin c ∈ Certificate.origin <$> first_of_origin cs)
    then first_of_origin cs else first_of_origin cs ++ [c].
Proof. unfold first_of_origin. by rewrite foldl_app. Qed.

Lemma first_of_origin_NoDup cs : NoDup (Certificate.origin <$> first_of_origin cs).
Proof.
  induction cs as [|c cs IH] using rev_ind; [constructor|]. rewrite first_of_origin_snoc.
  case_bool_decide; [done|]. rewrite fmap_app. simpl. apply NoDup_app.
  split_and!; [done| |apply NoDup_singleton]. by intros o Ho ->%list_elem_of_singleton.
Qed.

(** What the aggregator holds and has emitted after a sequence of certificates. *)
Record parents_inv (cs : list Certificate.t) (acc : CertificatesAggregator.t * list (list Certificate.t)) : Prop := {
  par_all : concat acc.2 ++ CertificatesAggregator.certificates acc.1 = first_of_origin cs;
  par_seen : CertificatesAggregator.authorities_seen acc.1 = origins (first_of_origin cs);
  par_weight : CertificatesAggregator.weight acc.1 = Committee.weight committee (origins (first_of_origin cs));
  par_out : acc.2 <> [] <-> 
    (cs <> [] /\ Committee.reached_quorum committee (Committee.weight committee (origins (first_of_origin cs))) = true);
  par_flushed : acc.2 <> [] -> CertificatesAggregator.certificates acc.1 = [];
  par_first l ls : acc.2 = l :: ls ->
    Committee.reached_quorum committee (Committee.weight committee (origins l)) = true;
}.

Lemma origins_snoc cs c : origins (cs ++ [c]) = {[Certificate.origin c]} ∪ origins cs.
Proof. unfold origins. rewrite fmap_app, list_to_set_app_L. simpl. set_solver. Qed.

Context (Hwf : Committee.wf committee) (Hstake : Committee.stake (Committee.authorities committee) < 2 ^ 63).

Lemma weight_snoc cs c :
  Certificate.origin c ∉ Certificate.origin <$> cs ->
  Committee.weight committee (origins (cs ++ [c])) =
    Committee.weight committee (origins cs) + Committee.voting_power_by_id committee (Certificate.origin c).
Proof.
  intros Hn. rewrite origins_snoc. unfold Committee.weight. rewrite weigh_insert; [lia|].
  unfold origins. by rewrite elem_of_list_to_set.
Qed.

Lemma weight_no_wrap X : wrap64 (Committee.weight committee X) = Committee.weight committee X.
Proof.
  apply wrap64_small. pose proof (CommitteeFacts.weight_le_stake committee Hwf X).
  assert (u64_modulus = 2 * 2 ^ 63) by done. lia.
Qed.

Lemma parents_inv_step cs acc c :
  0 < Committee.quorum_threshold committee -> parents_inv cs acc ->
  parents_inv (cs ++ [c])
    (let '(a', out) := CertificatesAggregator.append acc.1 c committee in
     (a', match out with Some l => acc.2 ++ [l] | None => acc.2 end)).
Proof.
  intros Hpos [Hall Hseen Hw Hout Hfl Hfirst]. unfold CertificatesAggregator.append.
  assert (Certificate.origin c ∈ CertificatesAggregator.authorities_seen acc.1 <->
          Certificate.origin c ∈ Certificate.origin <$> first_of_origin cs) as Hin.
  { rewrite Hseen. unfold origins. by rewrite elem_of_list_to_set. }
  destruct (decide (Certificate.origin c ∈ Certificate.origin <$> first_of_origin cs)) as [Hold|Hnew].
  - rewrite bool_decide_true by (by apply Hin).
    assert (first_of_origin (cs ++ [c]) = first_of_origin cs) as Hf by (rewrite first_of_origin_snoc; by rewrite bool_decide_true).
    assert (cs <> []) by (intros ->; by apply elem_of_nil in Hold).
    constructor; simpl; rewrite ?Hf; [done|done|done| |done|done].
    rewrite Hout. split; intros [_ ?]; (split; [|done]); by try destruct cs.
  - rewrite bool_decide_false by (by rewrite Hin). simpl. rewrite Hw, <-weight_snoc, weight_no_wrap by done.
    assert (first_of_origin (cs ++ [c]) = first_of_origin cs ++ [c]) as Hf by (rewrite first_of_origin_snoc; by rewrite bool_decide_false).
    assert (cs ++ [c] <> []) by (by destruct cs).
    destruct (Committee.quorum_threshold committee <=? _) eqn:Hq; constructor; simpl; rewrite ?Hf.
    + by rewrite concat_app, app_nil_r, <-Hall, <-!app_assoc; simpl; rewrite app_nil_r.
    + by rewrite origins_snoc, Hseen.
    + done.
    + split; [by intros _|]. intros _. by destruct acc.2.
    + done.
    + intros l ls. destruct acc.2 as [|l0 ls0] eqn:Hacc; [|intros [= <- <-]; by eapply Hfirst].
      simpl in *. intros [= <- <-]. unfold Committee.reached_quorum. by rewrite Hall.
    + by rewrite <-Hall, app_assoc.
    + by rewrite origins_snoc, Hseen.
    + done.
    + assert (acc.2 = []) as Hnil.
      { destruct (decide (acc.2 = [])) as [|Hne]; [done|]. exfalso. apply Hout in Hne as [_ Hr].
        unfold Committee.reached_quorum in Hr. rewrite weight_snoc in Hq by done. lia. }
      rewrite Hnil. split; [done|]. intros [_ Hr]. unfold Committee.reached_quorum in Hr. congruence.
    + intros Hne. exfalso. apply Hout in Hne as [_ Hr].
      unfold Committee.reached_quorum in Hr. rewrite weight_snoc in Hq by done. lia.
    + intros l ls Hl. by eapply Hfirst.
Qed.

Lemma append_all_inv cs :
  0 < Committee.quorum_threshold committee -> parents_inv cs (append_all CertificatesAggregator.new cs).
Proof.
  intros Hpos. unfold append_all. induction cs as [|c cs IH] using rev_ind.
  - constructor; simpl; [done|done|symmetry; apply weigh_empty| |done|done]. split; [done|by intros [? _]].
  - rewrite foldl_app. simpl. by apply parents_inv_step.
Qed.

End parents.

(** * Properties *)

Section properties.
Context `{NetworkKeys} `{Crypto}.

Lemma quorum_positive committee : Committee.wf committee -> 0 < Committee.quorum_threshold committee.
Proof. intros Hwf. rewrite (Committee.wf_quorum _ Hwf). apply N.add_pos_r. lia. Qed.

Lemma new_unverified_no_panic committee header votes now :
  new_unverified committee header votes now <> Panic /\ new_unverified committee header votes now <> OutOfFuel.
Proof.
  unfold new_unverified, new_internal. destruct (take_votes _ _ _) as [[[idx sigs] w] rest].
  destruct (bitmap_from_sorted_iter idx); simpl; [|done].
  destruct (first_key_value rest); simpl; [done|].
  destruct (Committee.quorum_threshold committee <=? w); simpl; [|done].
  destruct (sigs.*2); simpl; [done|]. by destruct (bls_aggregate _).
Qed.

(** Collecting votes is sound: on every branch the aggregator keeps one vote per
    author, and a weight that is exactly the stake of the votes kept (so removing invalid
    votes never wraps); a repeated author is refused without effect; a certificate is
    returned only if it is for the header and signed by a quorum; and when nothing is
    returned, the quorum is not reached, or the invalid votes have been dropped. *)
Lemma append_sound committee a vote header now a' r :
  Committee.wf committee -> keyed committee -> Committee.stake (Committee.authorities committee) < 2 ^ 63 ->
  votes_inv committee a -> VotesAggregator.append a vote committee header now = (a', r) ->
  votes_inv committee a' /\
  match r with
  | Ok (Some cert) =>
      Certificate.header cert = header /\ is_verified cert = true /\ certified committee cert
  | Ok None =>
      Vote.author vote ∉ VotesAggregator.authorities_seen a /\
      (Committee.reached_quorum committee (VotesAggregator.weight a') = false \/
       Forall (fun v => valid_vote committee (HeaderOps.digest header) v = true) (VotesAggregator.votes a'))
  | Err e => a' = a /\ e = DagAuthorityReuse (Vote.author vote) \/ Vote.author vote ∉ VotesAggregator.authorities_seen a
  | _ => False
  end.
Proof.
  intros Hwf Hk Hst Hinv. unfold VotesAggregator.append.
  case_bool_decide as Hseen; [intros [= <- <-]; by split; [|left]|].
  pose proof (votes_inv_append committee Hwf Hst a _ (Vote.signature vote) Hinv Hseen) as Hinv'.
  set (a1 := VotesAggregator.mk _ _ _) in *.
  destruct (Committee.quorum_threshold committee <=? VotesAggregator.weight a1) eqn:Hq.
  2: { intros [= <- <-]. split; [done|]. split; [done|]. by left. }
  destruct (new_unverified committee header (VotesAggregator.votes a1) now) as [cert|e| |] eqn:Hnew.
  2: { intros [= <- <-]. split; [done|]. by right. }
  2-3: by destruct (new_unverified_no_panic committee header (VotesAggregator.votes a1) now).
  destruct (aggregated_signature cert) as [sig|] eqn:Hsig.
  2: { intros [= <- <-]. split; [done|]. by right. }
  unfold new_unverified in Hnew. apply new_internal_inv in Hnew as (Hh & Hdom & Hsg & Hrq); [|done].
  destruct (bls_verify_secure sig (digest cert) _) eqn:Hver; cbn [negb].
  - intros [= <- <-]. split; [done|]. split_and!; [done|done|]. exists sig.
    split_and!; [done|by rewrite signed_by_signers in Hver|].
    unfold signer_ids. change (signers (set_signature_verification_state _ _) committee) with (signers cert committee).
    rewrite Hsg. rewrite <-weight_of_sublist by (done || apply sublist_filter). rewrite voters_weight by done.
    by apply Hrq.
  - assert (digest cert = HeaderOps.digest header) as -> by (unfold digest; by rewrite Hh).
    rewrite (votes_weight _ _ Hinv'), (retain_spec committee Hwf Hk (HeaderOps.digest header) (VotesAggregator.votes a1) []).
    intros [= <- <-]. simpl. split.
    + set (kept := filter _ _). assert (kept.*1 `sublist_of` (VotesAggregator.votes a1).*1) as Hsub.
      { apply fmap_sublist, sublist_filter. }
      constructor; simpl; [eapply sublist_NoDup; [apply (votes_nodup _ _ Hinv')|done]| |done].
      intros i Hi. apply (votes_seen _ _ Hinv'). by eapply elem_of_sublist.
    + split; [done|]. right. apply Forall_forall. intros v Hv. by apply list_elem_of_filter in Hv as [? _].
Qed.

(** Collecting votes is complete: when a new member votes, all collected votes and
    the new one carry valid signatures over the header's digest, and their stake reaches
    the quorum, the certificate is made, provided aggregates of valid signatures are
    valid. *)
Lemma append_complete `{!AggregateLaws} committee a vote header now :
  Committee.wf committee -> Committee.stake (Committee.authorities committee) < 2 ^ 63 ->
  votes_inv committee a -> Vote.author vote ∉ VotesAggregator.authorities_seen a ->
  Forall (fun v => valid_vote committee (HeaderOps.digest header) v = true)
    (VotesAggregator.votes a ++ [(Vote.author vote, Vote.signature vote)]) ->
  Committee.reached_quorum committee (Committee.weight committee
    (list_to_set (VotesAggregator.votes a ++ [(Vote.author vote, Vote.signature vote)]).*1)) = true ->
  exists a' cert, VotesAggregator.append a vote committee header now = (a', Ok (Some cert)) /\
    Certificate.header cert = header.
Proof.
  intros Hwf Hst Hinv Hseen Hval Hq. unfold VotesAggregator.append. rewrite bool_decide_false by done.
  pose proof (votes_inv_append committee Hwf Hst a _ (Vote.signature vote) Hinv Hseen) as Hinv'.
  set (a1 := VotesAggregator.mk _ _ _) in *. rewrite Forall_forall in Hval.
  change (VotesAggregator.votes a ++ _) with (VotesAggregator.votes a1) in Hval, Hq.
  pose proof (votes_weight _ _ Hinv') as Hw. rewrite votes_power_weight in Hw by apply Hinv'. rewrite Hw.
  pose proof Hq as Hq'. unfold Committee.reached_quorum in Hq. rewrite Hq.
  destruct (new_unverified_complete committee Hwf header (VotesAggregator.votes a1) (HeaderOps.digest header) now)
    as (cert & sig & Hnew & Hsig & Hver).
  - rewrite dom_collect_map. intros i. rewrite elem_of_list_to_set, list_elem_of_fmap.
    intros (v & -> & Hv%Hval). unfold valid_vote in Hv. apply Committee.elem_of_members.
    unfold Committee.authority in Hv. by destruct (Committee.authorities_by_id committee !! v.1).
  - done.
  - by apply quorum_positive.
  - by rewrite dom_collect_map.
  - rewrite Hnew, Hsig. unfold new_unverified in Hnew. apply new_internal_inv in Hnew as (Hh & _); [|done].
    assert (digest cert = HeaderOps.digest header) as -> by (unfold digest; by rewrite Hh).
    rewrite Hver. simpl. by eexists _, _.
Qed.

(** The certificates of a round are forwarded to the proposer exactly once per
    author, in order of arrival: nothing before the authors seen hold a quorum, then a
    first batch that is itself a quorum, and from then on every further author at once. *)
Theorem parents_forwarded committee cs :
  Committee.wf committee -> Committee.stake (Committee.authorities committee) < 2 ^ 63 ->
  let '(a, out) := append_all committee CertificatesAggregator.new cs in
  concat out ++ CertificatesAggregator.certificates a = first_of_origin cs /\
  NoDup (Certificate.origin <$> first_of_origin cs) /\
  (out = [] <-> Committee.reached_quorum committee (Committee.weight committee (origins (first_of_origin cs))) = false) /\
  (out <> [] -> CertificatesAggregator.certificates a = []) /\
  (forall l ls, out = l :: ls -> Committee.reached_quorum committee (Committee.weight committee (origins l)) = true).
Proof.
  intros Hwf Hst. pose proof (quorum_positive committee Hwf) as Hpos.
  pose proof (append_all_inv committee Hwf Hst cs Hpos) as [Hall _ _ Hout Hfl Hfirst].
  destruct (append_all committee CertificatesAggregator.new cs) as [a out]. simpl in *.
  split_and!; [done|apply first_of_origin_NoDup| |done|done].
  destruct (Committee.reached_quorum committee _) eqn:Hq; split; [intros ->|done|done|intros _].
  - destruct cs as [|c cs]; [|by exfalso; apply Hout].
    unfold Committee.reached_quorum, Committee.weight in Hq. cbn in Hq. rewrite weigh_empty in Hq. lia.
  - destruct out; [done|]. exfalso. assert (l :: out <> []) as [_ ?]%Hout by done. done.
Qed.

End properties.

(** * Witnesses *)

Section witnesses.
#[local] Existing Instances demo_keys demo_crypto.

Lemma demo_aggregate_laws : @AggregateLaws demo_crypto.
Proof.
  constructor. intros sigs pks d Hne Hall. destruct Hall as [|s pk sigs pks Hs _]; [done|]. by exists s.
Qed.

Lemma demo_keyed : keyed demo_committee.
Proof.
  assert (map_Forall (fun k auth => Authority.protocol_key auth = k) (Committee.authorities demo_committee)) as Hf.
  { apply (bool_decide_unpack _). by vm_compute. }
  intros k auth Hk. by apply Hf.
Qed.

Lemma parents_forwarded_witness :
  let '(a, out) := append_all demo_committee CertificatesAggregator.new (demo_round1 ++ demo_round1) in
  concat out ++ CertificatesAggregator.certificates a = first_of_origin (demo_round1 ++ demo_round1) /\
  NoDup (Certificate.origin <$> first_of_origin (demo_round1 ++ demo_round1)) /\
  (out = [] <-> Committee.reached_quorum demo_committee
     (Committee.weight demo_committee (origins (first_of_origin (demo_round1 ++ demo_round1)))) = false) /\
  (out <> [] -> CertificatesAggregator.certificates a = []) /\
  (forall l ls, out = l :: ls -> Committee.reached_quorum demo_committee (Committee.weight demo_committee (origins l)) = true).
Proof.
  apply (parents_forwarded demo_committee (demo_round1 ++ demo_round1)); apply demo_committee_wf.
Defined.

End witnesses.
