(* ===== verification/CertManager.v ===== *)
(** The certificate manager: accepting verified certificates in causal order.
    Models crates/consensus/primary/src/state_sync/{cert_manager,gc}.rs.  Channels are the
    lists of what was sent through them; an atomic round is a field of the state. *)

From S2P Require Import Prelude Storage Committee Certificate CertStore PendingCerts Output ConsensusState.
From S2P Require Import LeaderSchedule Bullshark Demo CertificateSafety Aggregators.
Import PendingCertificate PendingFacts.

Inductive CertificateFetcherCommand :=
  | Ancestors (certificate : Certificate.t)
  | Kick.

Module CertificateManager.

Record t := mk {
  node_storage : CertificateStore.t;
  pending : PendingCertificateManager.t;
  parents : CertificatesAggregatorManager.t;
  gc_round : Round;
  highest_processed_round : Round;
  certificate_fetcher : list CertificateFetcherCommand;
  certificate_fetcher_open : bool;
  new_certificates : list Certificate.t;
  new_certificates_open : bool;
  storage_open : bool;
}.

(** The channels of the bus start empty, with their receivers alive, and the thread of the
    layered database runs ([storage_open]). *)
Definition new (storage : CertificateStore.t) (gc_round highest_processed_round : Round) : t :=
  mk storage PendingCertificateManager.new CertificatesAggregatorManager.new gc_round highest_processed_round
    [] true [] true true.

Definition set_pending (m : t) (p : PendingCertificateManager.t) : t :=
  mk (node_storage m) p (parents m) (gc_round m) (highest_processed_round m) (certificate_fetcher m)
    (certificate_fetcher_open m) (new_certificates m) (new_certificates_open m) (storage_open m).

Definition set_storage (m : t) (s : CertificateStore.t) : t :=
  mk s (pending m) (parents m) (gc_round m) (highest_processed_round m) (certificate_fetcher m)
    (certificate_fetcher_open m) (new_certificates m) (new_certificates_open m) (storage_open m).

Definition set_parents (m : t) (p : CertificatesAggregatorManager.t) : t :=
  mk (node_storage m) (pending m) p (gc_round m) (highest_processed_round m) (certificate_fetcher m)
    (certificate_fetcher_open m) (new_certificates m) (new_certificates_open m) (storage_open m).

Definition set_highest (m : t) (r : Round) : t :=
  mk (node_storage m) (pending m) (parents m) (gc_round m) r (certificate_fetcher m)
    (certificate_fetcher_open m) (new_certificates m) (new_certificates_open m) (storage_open m).

Definition send_fetcher (m : t) (c : CertificateFetcherCommand) : t :=
  mk (node_storage m) (pending m) (parents m) (gc_round m) (highest_processed_round m) (certificate_fetcher m ++ [c])
    (certificate_fetcher_open m) (new_certificates m) (new_certificates_open m) (storage_open m).

Definition forward (m : t) (c : Certificate.t) : t :=
  mk (node_storage m) (pending m) (parents m) (gc_round m) (highest_processed_round m) (certificate_fetcher m)
    (certificate_fetcher_open m) (new_certificates m ++ [c]) (new_certificates_open m) (storage_open m).

(** [GarbageCollector::process_next_round] *)
Definition process_next_round (m : t) (new_round : Round) : t :=
  mk (node_storage m) (pending m) (parents m) new_round (highest_processed_round m) (certificate_fetcher m)
    (certificate_fetcher_open m) (new_certificates m) (new_certificates_open m) (storage_open m).

(** The parties the task talks to: the receivers of its channels and the database thread. *)
Inductive peer := ParentsReceiver | CertificatesReceiver | FetcherReceiver | DatabaseThread.

Definition is_open (m : t) (p : peer) : bool :=
  match p with
  | ParentsReceiver => CertificatesAggregatorManager.parents_open (parents m)
  | CertificatesReceiver => new_certificates_open m
  | FetcherReceiver => certificate_fetcher_open m
  | DatabaseThread => storage_open m
  end.

(** A party goes away. *)
Definition close (m : t) (p : peer) : t :=
  let keep q b := match p, q with
    | ParentsReceiver, ParentsReceiver | CertificatesReceiver, CertificatesReceiver
    | FetcherReceiver, FetcherReceiver | DatabaseThread, DatabaseThread => false
    | _, _ => b
    end in
  mk (node_storage m) (pending m)
    (CertificatesAggregatorManager.mk (CertificatesAggregatorManager.aggregators (parents m))
      (CertificatesAggregatorManager.parents (parents m)) (keep ParentsReceiver (is_open m ParentsReceiver)))
    (gc_round m) (highest_processed_round m) (certificate_fetcher m) (keep FetcherReceiver (is_open m FetcherReceiver))
    (new_certificates m) (keep CertificatesReceiver (is_open m CertificatesReceiver))
    (keep DatabaseThread (is_open m DatabaseThread)).

Section manager.
Context `{NetworkKeys} `{Crypto} (committee : Committee.t) (genesis : gset Digest).

(** [multi_contains] reads the memory of the layered database, which does not fail. *)
Definition get_missing_parents (m : t) (certificate : Certificate.t)
    : t * outcome CertManagerError (gset Digest) :=
  if Certificate.round certificate =? 1 then
    match foldM (fun _ digest =>
            ensure (bool_decide (digest ∈ genesis))
              (CertManagerCertificate (CertHeader (InvalidGenesisParent digest))))
            () (bset_iter (Certificate.parents certificate)) with
    | Ok _ => (m, Ok ∅)
    | Err e => (m, Err e)
    | Panic => (m, Panic)
    | OutOfFuel => (m, OutOfFuel)
    end
  else
    let parents := bset_iter (Certificate.parents certificate) in
    let existence := CertificateStore.multi_contains (node_storage m) parents in
    let missing_parents : gset Digest :=
      list_to_set (filter (fun de => de.2 = false) (zip parents existence)).*1 in
    if bool_decide (missing_parents = ∅) then (m, Ok missing_parents)
    else if certificate_fetcher_open m then (send_fetcher m (Ancestors certificate), Ok missing_parents)
    else (m, Err CertManagerTNSend).

(** The loop of [accept_verified_certificates] after the write. *)
Fixpoint accept_loop (m : t) (certificates : list Certificate.t) : t * outcome CertManagerError unit :=
  match certificates with
  | [] => (m, Ok ())
  | cert :: rest =>
      let m := set_highest m (N.max (highest_processed_round m) (Certificate.round cert)) in
      let '(ps, sent) := CertificatesAggregatorManager.append_certificate (parents m) cert committee in
      let m := set_parents m ps in
      if negb sent then (m, Err FatalAppendParent)
      else if negb (new_certificates_open m) then (m, Err FatalForwardAcceptedCertificate)
      else accept_loop (forward m cert) rest
  end.

(** [write_all] fails when the thread of the database is gone: opening the transaction is
    its first message to it, so nothing is written. *)
Definition accept_verified_certificates (m : t) (certificates : list Certificate.t)
    : t * outcome CertManagerError unit :=
  if storage_open m
  then accept_loop (set_storage m (CertificateStore.write_all (node_storage m) certificates)) certificates
  else (m, Err CertManagerStorage).

(** No missing parents: update the pending certificates and accept what is unlocked. *)
Definition accept_with_unlocked (m : t) (cert : Certificate.t) : t * outcome CertManagerError unit :=
  let '(p, r) := PendingCertificateManager.update_pending (pending m) (Certificate.round cert) (Certificate.digest cert) in
  let m := set_pending m p in
  match r with
  | Ok unlocked => accept_verified_certificates m (cert :: unlocked)
  | Err e => (m, Err e)
  | Panic => (m, Panic)
  | OutOfFuel => (m, OutOfFuel)
  end.

(** The loop of [process_verified_certificates] with its pending [result]. *)
Fixpoint process_loop (m : t) (certs : list Certificate.t) (result : outcome CertManagerError unit)
    : t * outcome CertManagerError unit :=
  match certs with
  | [] => (m, result)
  | cert :: rest =>
      let digest := Certificate.digest cert in
      if negb (Certificate.is_verified cert) then (m, Err (UnverifiedSignature digest))
      else if PendingCertificateManager.is_pending (pending m) digest
      then process_loop m rest (Err (Pending digest))
      else
        let accept m :=
          match accept_with_unlocked m cert with
          | (m, Ok _) => process_loop m rest result
          | (m, Err e) => (m, Err e)
          | (m, Panic) => (m, Panic)
          | (m, OutOfFuel) => (m, OutOfFuel)
          end in
        if gc_round m + 1 <? Certificate.round cert then
          match get_missing_parents m cert with
          | (m, Ok missing_parents) =>
              if bool_decide (missing_parents = ∅) then accept m else
              match PendingCertificateManager.insert_pending (pending m) cert missing_parents with
              | (p, Ok _) => process_loop (set_pending m p) rest (Err (Pending digest))
              | (p, Err e) => (set_pending m p, Err e)
              | (p, Panic) => (set_pending m p, Panic)
              | (p, OutOfFuel) => (set_pending m p, OutOfFuel)
              end
          | (m, Err e) => (m, Err e)
          | (m, Panic) => (m, Panic)
          | (m, OutOfFuel) => (m, OutOfFuel)
          end
        else accept m
  end.

Definition process_verified_certificates (m : t) (certs : list Certificate.t)
    : t * outcome CertManagerError unit := process_loop m certs (Ok ()).

(** [while let Some(..) = self.pending.next_for_gc_round(gc_round)] *)
Fixpoint gc_loop (fuel : nat) (m : t) : t * outcome CertManagerError unit :=
  match PendingCertificateManager.next_for_gc_round (pending m) (gc_round m) with
  | (p, None) => (set_pending m p, Ok ())
  | (p, Some (round, digest)) =>
      match fuel with
      | O => (set_pending m p, OutOfFuel)
      | S fuel' =>
          let '(p, r) := PendingCertificateManager.update_pending p round digest in
          let m := set_pending m p in
          match r with
          | Ok unlocked =>
              match accept_verified_certificates m unlocked with
              | (m, Ok _) => gc_loop fuel' m
              | (m, Err e) => (m, Err e)
              | (m, Panic) => (m, Panic)
              | (m, OutOfFuel) => (m, OutOfFuel)
              end
          | Err e => (m, Err e)
          | Panic => (m, Panic)
          | OutOfFuel => (m, OutOfFuel)
          end
      end
  end.

(** Each iteration removes a key of the missing certificates. *)
Definition process_gc_round (m : t) : t * outcome CertManagerError unit :=
  gc_loop (size (PendingCertificateManager.missing_for_pending (pending m))) m.

(** A store that cannot be read makes the recovery panic. *)
Definition recover_state (m : t) : t * outcome CertManagerError unit :=
  match CertificateStore.last_two_rounds_certs (node_storage m) with
  | Ok last_round_certificates =>
      foldl (fun acc cert =>
          match acc with
          | (m, Ok _) =>
              let '(ps, sent) := CertificatesAggregatorManager.append_certificate (parents m) cert committee in
              (set_parents m ps, if sent then Ok () else Err CertManagerTNSend)
          | _ => acc
          end) (m, Ok ()) last_round_certificates
  | _ => (m, Panic)
  end.

(** What wakes the task up: a command of the validators, a new GC round, or the timer of
    the garbage collector.  [Gone] is not a wake-up: a party goes away between two of them. *)
Inductive event :=
  | ProcessVerifiedCertificates (certificates : list Certificate.t)
  | FilterUnkownDigests (unknown : list Digest)
  | GcRoundUpdate (round : Round)
  | MaxRoundTimeout
  | Gone (p : peer).

(** What the task answers through the oneshot of a command. *)
Inductive reply :=
  | ProcessReply (result : outcome CertManagerError unit)
  | FilterReply (unknown : list Digest)
  | NoReply.

(** [GarbageCollector::process_max_round_timeout] *)
Definition process_max_round_timeout (m : t) : t * outcome GarbageCollectorError unit :=
  if certificate_fetcher_open m then (send_fetcher m Kick, Ok ()) else (m, Err GcTNSend).

(** [GarbageCollector::ready] on the branch that was selected. *)
Definition ready (m : t) (update : option Round) : t * outcome GarbageCollectorError unit :=
  match update with
  | None =>
      match process_max_round_timeout m with
      | (m, Ok _) => (m, Err GcTimeout)
      | (m, r) => (m, r)
      end
  | Some new_round => (process_next_round m new_round, Ok ())
  end.

(** One iteration of [run]: [None] to go on, or the result the task ends with.  The
    reply is dropped when the task ends on a fatal error. *)
Definition run_step (m : t) (e : event) : t * reply * option (outcome CertManagerError unit) :=
  let gc '(m, r) :=
    match r with
    | Ok _ =>
        match process_gc_round m with
        | (m, Ok _) => (m, NoReply, None)
        | (m, r) => (m, NoReply, Some r)
        end
    | Err GcTimeout => (m, NoReply, None)
    | Err e => (m, NoReply, Some (Err (GC e)))
    | Panic => (m, NoReply, Some Panic)
    | OutOfFuel => (m, NoReply, Some OutOfFuel)
    end in
  match e with
  | ProcessVerifiedCertificates certificates =>
      match process_verified_certificates m certificates with
      | (m, Err FatalAppendParent) => (m, NoReply, Some (Err FatalAppendParent))
      | (m, Err FatalForwardAcceptedCertificate) => (m, NoReply, Some (Err FatalForwardAcceptedCertificate))
      | (m, result) => (m, ProcessReply result, None)
      end
  | FilterUnkownDigests unknown =>
      (m, FilterReply (PendingCertificateManager.filter_unknown_digests (pending m) unknown), None)
  | GcRoundUpdate round => gc (ready m (Some round))
  | MaxRoundTimeout => gc (ready m None)
  | Gone p => (close m p, NoReply, None)
  end.

(** The loop of [run] over the events that arrive before the shutdown. *)
Fixpoint run_loop (m : t) (es : list event) : t * list reply * outcome CertManagerError unit :=
  match es with
  | [] => (m, [], Ok ())
  | e :: es =>
      match run_step m e with
      | (m, r, None) => let '(m, rs, o) := run_loop m es in (m, r :: rs, o)
      | (m, r, Some o) => (m, [r], o)
      end
  end.

Definition run (m : t) (es : list event) : t * list reply * outcome CertManagerError unit :=
  match recover_state m with
  | (m, Ok _) => run_loop m es
  | (m, r) => (m, [], r)
  end.

End manager.
End CertificateManager.

(** * Facts *)

Module CertManagerFacts.
Import CertificateManager.
Section facts.
Context `{NetworkKeys} `{Crypto} (committee : Committee.t) (genesis : gset Digest).
Implicit Types (m : t) (l : list Certificate.t).

(** The certificates the manager may meet, those stored before it started, and the
    digests known to the consensus after it forwarded [l]. *)
Context (U : Certificate.t -> Prop) (stored : gset Digest).

Definition known l (q : Digest) : Prop := q ∈ stored \/ q ∈ Certificate.digest <$> l.

(** Every certificate forwarded follows its parents, unless they are at or below the
    garbage collection round. *)
Definition causally_forwarded (gc : Round) l : Prop :=
  forall i x q, l !! i = Some x -> q ∈ Certificate.parents x ->
    known (take i l) q \/ Certificate.round x <= gc + 1.

Record manager_inv m : Prop := {
  mi_pending : pending_wf (pending m);
  mi_store d : is_Some (CertificateStore.certificates (node_storage m) !! d) -> known (new_certificates m) d;
  mi_waiting c p q : storage_open m = true -> PendingCertificateManager.pending (pending m) !! c = Some p ->
    q ∈ Certificate.parents (certificate p) ->
    known (new_certificates m) q \/ q ∈ missing_parent_digests p \/ pround p <= gc_round m + 1;
  mi_pending_ok c p : PendingCertificateManager.pending (pending m) !! c = Some p ->
    U (certificate p) /\ Certificate.is_verified (certificate p) = true;
  mi_verified x : x ∈ new_certificates m -> U x /\ Certificate.is_verified x = true;
  mi_order : causally_forwarded (gc_round m) (new_certificates m);
}.

(** Whether the receivers of the parents, of the accepted certificates and of the fetch
    commands are alive, and the thread of the database. *)
Definition channels m : bool * bool * bool * bool :=
  (is_open m ParentsReceiver, is_open m CertificatesReceiver, is_open m FetcherReceiver, is_open m DatabaseThread).

Lemma channels_open m m' p : channels m' = channels m -> is_open m' p = is_open m p.
Proof. unfold channels. intros [= ? ? ? ?]. by destruct p. Qed.

(** The fatal errors: a receiver is gone. *)
Definition fatal m (r : outcome CertManagerError unit) : Prop :=
  (r = Err FatalAppendParent /\ (channels m).1.1.1 = false) \/
  (r = Err FatalForwardAcceptedCertificate /\ (channels m).1.1.2 = false).

(** The certificates could not be written. *)
Definition unstored m (r : outcome CertManagerError unit) : Prop :=
  r = Err CertManagerStorage /\ (channels m).2 = false.

Lemma append_channel a c a' sent :
  CertificatesAggregatorManager.append_certificate a c committee = (a', sent) ->
  CertificatesAggregatorManager.parents_open a' = CertificatesAggregatorManager.parents_open a /\
  (sent = false -> CertificatesAggregatorManager.parents_open a = false).
Proof.
  unfold CertificatesAggregatorManager.append_certificate. destruct (CertificatesAggregator.append _ _ _) as [b [ps|]].
  - destruct (CertificatesAggregatorManager.parents_open a) eqn:Ho; intros [= <- <-]; simpl; done.
  - intros [= <- <-]; done.
Qed.

(** A new manager knows what the store holds. *)
Lemma new_manager_inv s gc hp :
  dom (CertificateStore.certificates s) = stored -> manager_inv (new s gc hp).
Proof.
  intros Hs. constructor; simpl; [apply pending_new_wf|..].
  - intros d Hd. left. rewrite <-Hs. by apply elem_of_dom.
  - intros c p q _ Hc. by rewrite lookup_empty in Hc.
  - intros c p Hc. by rewrite lookup_empty in Hc.
  - by intros x ?%elem_of_nil.
  - by intros i x q Hi.
Qed.

Lemma known_app l k q : known l q -> known (l ++ k) q.
Proof. intros [?|?]; [by left|right]. rewrite fmap_app. set_solver. Qed.

(** Accepting a list forwards it in order and touches nothing else. *)
Lemma accept_loop_spec m l m' r :
  accept_loop committee m l = (m', r) ->
  fatal m r \/
  (r = Ok () /\ new_certificates m' = new_certificates m ++ l /\ pending m' = pending m /\
   gc_round m' = gc_round m /\ node_storage m' = node_storage m /\ channels m' = channels m).
Proof.
  revert m. induction l as [|c l IH]; intros m; simpl.
  { intros [= <- <-]. right. by rewrite app_nil_r. }
  destruct (CertificatesAggregatorManager.append_certificate _ _ _) as [ps sent] eqn:Ha.
  apply append_channel in Ha as [Hps Hsent].
  destruct sent; simpl; [|intros [= <- <-]; left; left; split; [done|by apply Hsent]].
  destruct (new_certificates_open m) eqn:Ho; simpl; [|intros [= <- <-]; left; right; by split].
  assert (channels (forward (set_parents (set_highest m (N.max (highest_processed_round m) (Certificate.round c))) ps) c) = channels m) as Hc.
  { unfold channels. simpl. by rewrite Hps. }
  intros [Hf|(-> & -> & -> & -> & -> & ->)]%IH; [left; unfold fatal in *; by rewrite <-Hc|right].
  rewrite Hc. simpl. by rewrite <-app_assoc.
Qed.

Lemma write_all_subset s l d c :
  CertificateStore.certificates (CertificateStore.write_all s l) !! d = Some c ->
  (c ∈ l /\ Certificate.digest c = d) \/ CertificateStore.certificates s !! d = Some c.
Proof.
  rewrite CertStoreFacts.write_all_save. unfold CertificateStore.gc_rounds.
  assert (forall k s0, CertificateStore.certificates (foldl CertificateStore.gc_remove s0 k) !! d = Some c ->
    CertificateStore.certificates s0 !! d = Some c) as Hgc.
  { induction k as [|x k IH]; intros s0; [done|]. cbn [foldl]. intros Hx%IH. simpl in Hx.
    unfold MemTable.remove in Hx. by apply lookup_delete_Some in Hx as [_ ?]. }
  intros Hd. assert (CertificateStore.certificates (CertStoreFacts.save_all s l) !! d = Some c) as Hd'.
  { destruct (_ <=? _); [done|by eapply Hgc]. }
  rewrite CertStoreFacts.save_all_lookup in Hd'. destruct (last _) as [c'|] eqn:Hl; [|by right].
  simplify_eq. left. apply last_Some_elem_of, list_elem_of_filter in Hl as [? ?]. done.
Qed.

Lemma accept_spec m l m' r :
  accept_verified_certificates committee m l = (m', r) ->
  fatal m r \/ (unstored m r /\ m' = m) \/
  (r = Ok () /\ storage_open m = true /\ new_certificates m' = new_certificates m ++ l /\ pending m' = pending m /\
   gc_round m' = gc_round m /\ channels m' = channels m /\
   forall d, is_Some (CertificateStore.certificates (node_storage m') !! d) ->
     d ∈ Certificate.digest <$> l \/ is_Some (CertificateStore.certificates (node_storage m) !! d)).
Proof.
  unfold accept_verified_certificates. destruct (storage_open m) eqn:Hopen.
  2: { intros [= <- <-]. right; left. split; [|done]. split; [done|exact Hopen]. }
  intros [?|(-> & -> & -> & -> & Hs & ->)]%accept_loop_spec; [by left|right; right].
  simpl in *. split_and!; [done..|]. rewrite Hs. intros d [c Hc]. apply write_all_subset in Hc as [[Hin <-]|Hc].
  - left. by apply list_elem_of_fmap_2.
  - right. by eexists.
Qed.

(** Certificates that were unlocked and could not be written: nothing more is forwarded. *)
Lemma unlocked_lost m gone :
  manager_inv m -> (channels m).2 = false -> manager_inv (set_pending m (state_after gone (pending m))).
Proof.
  intros Hm Hs. constructor; simpl; [apply state_after_wf, Hm|apply Hm| | |apply Hm|apply Hm].
  - intros c p q Ho. change (storage_open m = false) in Hs. congruence.
  - intros c p' (p & Hpc & _ & ->)%pending_after_Some. exact (mi_pending_ok _ Hm c p Hpc).
Qed.

(** Forwarding what an update of the pending certificates unlocked: the entry [k] that
    was taken from them is [head], accepted with them, or below the GC round. *)
Lemma forward_unlocked m k head ready m' r :
  manager_inv m ->
  cascade (pending m) k (k :: (item <$> ready)) [] ready ->
  (forall x, x ∈ head -> U x /\ Certificate.is_verified x = true) ->
  causally_forwarded (gc_round m) (new_certificates m ++ head) ->
  (k.2 ∈ Certificate.digest <$> head \/ k.1 <= gc_round m) ->
  accept_verified_certificates committee (set_pending m (state_after (k :: (item <$> ready)) (pending m)))
    (head ++ ready) = (m', r) ->
  fatal m r \/ ((r = Ok () \/ unstored m r) /\ manager_inv m' /\ gc_round m' = gc_round m /\ channels m' = channels m /\
    pending m' = state_after (k :: (item <$> ready)) (pending m)).
Proof.
  intros Hm Hcas Hver Hhead Hk Hacc.
  apply accept_spec in Hacc as [?|[[Hun ->]|(-> & Hopen & Hnew & Hp & Hg & Hch & Hst)]]; [by left|right|right].
  { split_and!; [by right|apply unlocked_lost; [done|apply Hun]|done..]. }
  simpl in *. split_and!; [by left| |done|done|done].
  assert (Hgone : forall p q g, (pround p - 1, q) ∈ k :: (item <$> g) ->
    known ((new_certificates m ++ head) ++ g) q \/ pround p <= gc_round m + 1).
  { intros p q g [Heq|(y & Hy & Hin)%list_elem_of_fmap]%elem_of_cons.
    - rewrite <-Heq in Hk. simpl in Hk. destruct Hk as [Hk|Hk]; [left|right; lia].
      right. rewrite !fmap_app. set_solver.
    - left. right. rewrite fmap_app. injection Hy as _ ->. apply elem_of_app. right. by apply list_elem_of_fmap_2. }
  rewrite app_assoc in Hnew. constructor; rewrite ?Hnew, ?Hp, ?Hg.
  - apply state_after_wf, Hm.
  - intros d Hd. apply Hst in Hd as [Hd|Hd].
    + right. rewrite <-app_assoc, fmap_app. set_solver.
    + apply (mi_store _ Hm) in Hd. by do 2 apply known_app.
  - intros c p' q _ (p & Hpc & _ & ->)%pending_after_Some Hq. simpl in Hq. cbn [certificate missing_parent_digests pround] in *.
    destruct (mi_waiting _ Hm c p q Hopen Hpc Hq) as [Hkn|[Hms|Hr]]; [left; by do 2 apply known_app| |by right; right].
    destruct (decide ((pround p - 1, q) ∈ k :: (item <$> ready))) as [Hin|Hn].
    + destruct (Hgone p q ready Hin); [by left|by right; right].
    + right; left. apply elem_of_filter. done.
  - intros c p' (p & Hpc & _ & ->)%pending_after_Some. exact (mi_pending_ok _ Hm c p Hpc).
  - intros x [[Hx|Hx]%elem_of_app|Hx]%elem_of_app; [by apply (mi_verified _ Hm)|by apply Hver|].
    apply (cas_ready _ _ _ _ _ Hcas) in Hx as (c & p & Hpc & <- & _). apply (mi_pending_ok _ Hm c p Hpc).
  - intros i x q Hi Hq. apply lookup_app_Some in Hi as [Hi|[Hge Hi]].
    + destruct (Hhead i x q Hi Hq) as [?|?]; [left|by right]. rewrite take_app_le; [done|]. apply lookup_lt_Some in Hi. lia.
    + set (n := length (new_certificates m ++ head)) in *.
      destruct (cas_order _ _ _ _ _ Hcas _ x Hi) as (c & p & Hpc & <- & Hrem). rewrite take_app_ge by done. fold n.
      destruct (mi_waiting _ Hm c p q Hopen Hpc Hq) as [Hkn|[Hms|Hr]]; [left; by do 2 apply known_app| |by right].
      apply (Hgone p q (take (i - n) ready)).
      destruct (decide ((pround p - 1, q) ∈ k :: (item <$> take (i - n) ready))) as [|Hn]; [done|].
      assert (q ∈ remaining (k :: (item <$> take (i - n) ready)) p) as Hin by (by apply elem_of_filter). by rewrite Hrem in Hin.
Qed.

(** ** Processing verified certificates *)

(** The results that are not fatal: accepted, pending, refused, or the fetcher or the
    thread of the database is gone. *)
Definition expected m (r : outcome CertManagerError unit) : Prop :=
  r = Ok () \/ (exists d, r = Err (Pending d)) \/ (exists d, r = Err (UnverifiedSignature d)) \/
  (r = Err CertManagerTNSend /\ (channels m).1.2 = false) \/ unstored m r.

Lemma missing_parents_spec m c m' r :
  gc_round m + 1 < Certificate.round c -> get_missing_parents genesis m c = (m', r) ->
  (r = Err CertManagerTNSend /\ (channels m).1.2 = false /\ m' = m) \/
  exists missing, r = Ok missing /\ (m' = m \/ m' = send_fetcher m (Ancestors c)) /\
    forall q, q ∈ missing <-> q ∈ Certificate.parents c /\ CertificateStore.contains (node_storage m) q = false.
Proof.
  intros Hgc. unfold get_missing_parents. destruct (N.eqb_spec (Certificate.round c) 1); [lia|].
  set (ps := bset_iter (Certificate.parents c)). set (missing := list_to_set _).
  assert (forall q, q ∈ missing <-> q ∈ Certificate.parents c /\ CertificateStore.contains (node_storage m) q = false) as Hq.
  { intros q. unfold missing, CertificateStore.multi_contains. rewrite <-(elem_of_bset_iter (Certificate.parents c)). fold ps.
    rewrite elem_of_list_to_set, list_elem_of_fmap. split.
    - intros ([d e] & -> & [He Hin]%list_elem_of_filter). apply list_elem_of_lookup in Hin as [i Hi].
      apply lookup_zip_Some in Hi as [Hd He']. rewrite list_lookup_fmap, Hd in He'. simplify_eq/=.
      split; [by eapply list_elem_of_lookup_2|done].
    - intros [Hin He]. exists (q, false). split; [done|]. apply list_elem_of_filter. split; [done|].
      apply list_elem_of_lookup in Hin as [i Hi]. apply (list_elem_of_lookup_2 _ i). apply lookup_zip_Some.
      split; [done|]. by rewrite list_lookup_fmap, Hi, <-He. }
  case_bool_decide; [intros [= <- <-]; right; eauto|].
  destruct (certificate_fetcher_open m) eqn:Ho; intros [= <- <-]; [right; eauto|by left].
Qed.

Lemma not_contained m q :
  manager_inv m -> CertificateStore.contains (node_storage m) q = true -> known (new_certificates m) q.
Proof. intros Hm Hc%bool_decide_eq_true_1. by apply (mi_store _ Hm). Qed.

Lemma fetch_inv m c : manager_inv m -> manager_inv (send_fetcher m c).
Proof. by intros []. Qed.

(** Accepting a certificate whose parents are known or garbage collected. *)
Lemma accept_with_unlocked_inv m c m' r :
  manager_inv m -> U c -> Certificate.is_verified c = true ->
  (forall q, q ∈ Certificate.parents c -> known (new_certificates m) q \/ Certificate.round c <= gc_round m + 1) ->
  accept_with_unlocked committee m c = (m', r) ->
  fatal m r \/ ((r = Ok () \/ unstored m r) /\ manager_inv m' /\ gc_round m' = gc_round m /\ channels m' = channels m).
Proof.
  intros Hm HU Hv Hpar. unfold accept_with_unlocked.
  destruct (update_pending_spec (pending m) (Certificate.round c) (Certificate.digest c)) as (ready & -> & Hcas); [apply Hm|].
  intros Hacc. apply (forward_unlocked m (item c) [c] ready) in Hacc as [?|(? & ? & ? & ? & _)]; [by left|by right|done|done|..].
  - by intros x ->%list_elem_of_singleton.
  - intros i x q Hi Hq. apply lookup_app_Some in Hi as [Hi|[Hge Hi]].
    + rewrite take_app_le by (apply lookup_lt_Some in Hi; lia). by apply (mi_order _ Hm).
    + apply list_lookup_singleton_Some in Hi as [Hi <-]. rewrite take_app_ge by done.
      destruct (Hpar q Hq) as [?|?]; [left; by apply known_app|by right].
  - left. simpl. set_solver.
Qed.

Lemma insert_pending_inv m c missing :
  manager_inv m -> U c -> Certificate.is_verified c = true -> gc_round m + 1 < Certificate.round c ->
  PendingCertificateManager.is_pending (pending m) (Certificate.digest c) = false ->
  (forall q, q ∈ missing <-> q ∈ Certificate.parents c /\ CertificateStore.contains (node_storage m) q = false) ->
  missing <> ∅ ->
  exists p, PendingCertificateManager.insert_pending (pending m) c missing = (p, Ok ()) /\ manager_inv (set_pending m p).
Proof.
  intros Hm HU Hv Hgc Hnp Hq Hne.
  assert (PendingCertificateManager.pending (pending m) !! Certificate.digest c = None) as Hnone.
  { unfold PendingCertificateManager.is_pending in Hnp. apply bool_decide_eq_false in Hnp.
    destruct (_ !! _); [|done]. destruct Hnp. by eauto. }
  destruct (insert_pending_wf (pending m) c missing) as (p & Hins & Hwf & Hpd); [apply Hm|done|done|lia| |].
  { intros q Hin. by apply Hq in Hin as [? _]. }
  exists p. split; [done|]. destruct Hm as [Hmp Hst Hw Hok Hver Hord].
  constructor; simpl; [done|done| | |done|done].
  - intros d p' q Ho. rewrite Hpd. intros [[<- <-]|[_ Hd]]%lookup_insert_Some Hin; [|by eapply Hw].
    simpl in *. destruct (CertificateStore.contains (node_storage m) q) eqn:Hc.
    + left. apply Hst. by apply bool_decide_eq_true_1 in Hc.
    + right; left. apply Hq. done.
  - intros d p'. rewrite Hpd. intros [[<- <-]|[_ Hd]]%lookup_insert_Some; [done|by eapply Hok].
Qed.

Lemma expected_channels m m' r : channels m' = channels m -> expected m r -> expected m' r.
Proof. unfold expected, unstored. by intros ->. Qed.

Lemma results_channels m m' r (P : Prop) : channels m = channels m' ->
  fatal m r \/ (expected m r /\ P) -> fatal m' r \/ (expected m' r /\ P).
Proof. unfold fatal, expected, unstored. by intros ->. Qed.

Lemma process_loop_inv m l res m' r :
  manager_inv m -> Forall U l -> expected m res -> process_loop committee genesis m l res = (m', r) ->
  fatal m r \/ (expected m r /\ manager_inv m' /\ gc_round m' = gc_round m /\ channels m' = channels m).
Proof.
  revert m res. induction l as [|c l IH]; intros m res Hm HU Hres; cbn [process_loop].
  { intros [= <- <-]. by right. }
  apply Forall_cons in HU as [HUc HU].
  destruct (Certificate.is_verified c) eqn:Hv; simpl; [|intros [= <- <-]; right; split_and!; [unfold expected; eauto|done|done|done]].
  destruct (PendingCertificateManager.is_pending _ _) eqn:Hpd.
  { apply IH; [done|done|unfold expected; eauto]. }
  assert (Hacc : forall m1, manager_inv m1 -> gc_round m1 = gc_round m -> channels m1 = channels m ->
    (forall q, q ∈ Certificate.parents c -> known (new_certificates m1) q \/ Certificate.round c <= gc_round m1 + 1) ->
    match accept_with_unlocked committee m1 c with
    | (m, Ok _) => process_loop committee genesis m l res
    | (m, Err e) => (m, Err e) | (m, Panic) => (m, Panic) | (m, OutOfFuel) => (m, OutOfFuel)
    end = (m', r) -> fatal m r \/ (expected m r /\ manager_inv m' /\ gc_round m' = gc_round m /\ channels m' = channels m)).
  { intros m1 Hm1 Hg1 Hc1 Hpar. destruct (accept_with_unlocked committee m1 c) as [m2 r2] eqn:Ha.
    apply accept_with_unlocked_inv in Ha as [Hf|([->|[-> Hu]] & Hm2 & Hg2 & Hc2)]; [| | |done..].
    - unfold fatal in *. rewrite Hc1 in Hf. destruct Hf as [[-> ?]|[-> ?]]; intros [= <- <-]; left; [by left|by right].
    - rewrite <-Hc2 in Hc1. apply (expected_channels _ _ _ Hc1) in Hres.
      intros Hl%IH; [|done..]. rewrite Hg2, Hg1, Hc1 in Hl. by apply (results_channels _ m) in Hl.
    - rewrite Hc1 in Hu. intros [= <- <-]. right. split_and!; [|done|congruence..]. do 4 right. by split. }
  destruct (N.ltb_spec (gc_round m + 1) (Certificate.round c)) as [Hgc|Hgc]; [|apply Hacc; [done|done|done|by right]].
  destruct (get_missing_parents genesis m c) as [m1 r1] eqn:Hg.
  apply missing_parents_spec in Hg as [(-> & Hf & ->)|(missing & -> & Hm1 & Hq)]; [| |done].
  { intros [= <- <-]. right. split_and!; [by do 3 right; left|done|done|done]. }
  assert (manager_inv m1 /\ gc_round m1 = gc_round m /\ pending m1 = pending m /\ node_storage m1 = node_storage m /\
    new_certificates m1 = new_certificates m /\ channels m1 = channels m) as (Hi1 & Hg1 & Hp1 & Hs1 & Hn1 & Hc1) by (destruct Hm1 as [->| ->]; [done|by split; [apply fetch_inv|]]).
  case_bool_decide as He.
  - apply Hacc; [done|done|done|]. intros q Hin. left. rewrite Hn1. apply not_contained; [done|].
    destruct (CertificateStore.contains (node_storage m) q) eqn:Hc; [done|]. exfalso.
    assert (q ∈ missing) as Hx by (by apply Hq). by rewrite He in Hx.
  - destruct (insert_pending_inv m1 c missing) as (p & -> & Hi2); [done|done|done|lia|by rewrite Hp1|by rewrite Hs1|done|].
    intros Hl%IH; [|done|done|unfold expected; eauto]. simpl in Hl. rewrite Hg1 in Hl.
    apply (results_channels m1); [done|]. rewrite <-Hc1. exact Hl.
Qed.

(** ** Garbage collection *)

Lemma process_next_round_inv m g : manager_inv m -> gc_round m <= g -> manager_inv (process_next_round m g).
Proof.
  intros [Hp Hs Hw Hok Hv Ho] Hg. constructor; simpl; [done|done| |done|done|].
  - intros c p q Ho' Hc Hq. destruct (Hw c p q Ho' Hc Hq) as [?|[?|?]]; [by left|by right; left|right; right; lia].
  - intros i x q Hi Hq. destruct (Ho i x q Hi Hq); [by left|right; lia].
Qed.

Context (U_rounds : CertificateFacts.parent_rounds U).

(** The first missing certificate is not itself pending: the manager is left as it is. *)
Lemma next_for_gc_spec m p k :
  manager_inv m -> PendingCertificateManager.next_for_gc_round (pending m) (gc_round m) = (p, k) ->
  p = pending m /\
  match k with
  | Some (r, d) => is_Some (PendingCertificateManager.missing_for_pending (pending m) !! (r, d)) /\ r <= gc_round m
  | None => forall r d, is_Some (PendingCertificateManager.missing_for_pending (pending m) !! (r, d)) -> gc_round m < r
  end.
Proof.
  intros Hm. pose proof (mi_pending _ Hm) as Hwf. unfold PendingCertificateManager.next_for_gc_round, first_key_value.
  pose proof (btree_iter_sorted (PendingCertificateManager.missing_for_pending (pending m))) as Hsort.
  destruct (btree_iter _) as [|[[r d] S] l] eqn:Hit; simpl.
  { intros [= <- <-]. split; [done|]. intros r d [S HS%elem_of_btree_iter]. rewrite Hit in HS. by apply elem_of_nil in HS. }
  assert (PendingCertificateManager.missing_for_pending (pending m) !! (r, d) = Some S) as HS.
  { apply elem_of_btree_iter. rewrite Hit. set_solver. }
  assert (Hmin : forall r' d', is_Some (PendingCertificateManager.missing_for_pending (pending m) !! (r', d')) -> r <= r').
  { intros r' d' [S' HS'%elem_of_btree_iter]. rewrite Hit in HS'. inversion Hsort as [|? ? _ Hx]; subst.
    rewrite Forall_forall in Hx. apply elem_of_cons in HS' as [[= -> ->]|HS']; [done|]. specialize (Hx _ HS'). simpl in Hx.
    unfold pair_leb in Hx. simpl in Hx. lia. }
  destruct (N.ltb_spec (gc_round m) r).
  { intros [= <- <-]. split; [done|]. intros r' d' Hr'. specialize (Hmin r' d' Hr'). lia. }
  destruct (PendingCertificateManager.pending (pending m) !! d) as [pd|] eqn:Hpd.
  - exfalso. apply (pw_nonempty _ Hwf) in HS as HSne. apply set_choose_L in HSne as [c Hc].
    destruct (pw_children _ Hwf r d S c HS Hc) as (pc & Hpc & Hd & Hr).
    assert (pround pd + 1 = pround pc) as Hround.
    { apply U_rounds; [apply (mi_pending_ok _ Hm c pc Hpc)|apply (mi_pending_ok _ Hm d pd Hpd)|].
      rewrite (pw_digest _ Hwf d pd Hpd). by apply (pw_parents _ Hwf c pc). }
    pose proof (pw_missing _ Hwf d pd Hpd) as Hne. apply set_choose_L in Hne as [q Hq].
    destruct (pw_registered _ Hwf d pd q Hpd Hq) as (S' & HS' & _).
    pose proof (Hmin _ _ ltac:(by exists S')). pose proof (pw_round _ Hwf d pd Hpd). lia.
  - intros [= <- <-]. split; [by destruct (pending m)|]. split; [by eauto|done].
Qed.

Lemma missing_shrinks (mfp : gmap (Round * Digest) (gset Digest)) k S gone :
  mfp !! k = Some S -> (size (filter (fun kv : (Round * Digest) * gset Digest => kv.1 ∉ k :: gone) mfp) < size mfp)%nat.
Proof.
  intros HS. apply map_subset_size, map_subset_alt. split; [apply map_filter_subseteq|].
  exists k. split; [|by eexists]. apply map_lookup_filter_None. right. intros v _ Hn. apply Hn. simpl. set_solver.
Qed.

Lemma gc_loop_inv fuel m m' r :
  manager_inv m -> (size (PendingCertificateManager.missing_for_pending (pending m)) <= fuel)%nat ->
  gc_loop committee fuel m = (m', r) ->
  fatal m r \/ unstored m r \/ (r = Ok () /\ manager_inv m' /\ gc_round m' = gc_round m /\ channels m' = channels m /\
    forall k d, is_Some (PendingCertificateManager.missing_for_pending (pending m') !! (k, d)) -> gc_round m < k).
Proof.
  revert m. induction fuel as [|fuel IH]; intros m Hm Hf; cbn [gc_loop];
    destruct (PendingCertificateManager.next_for_gc_round _ _) as [p k] eqn:Hn;
    apply next_for_gc_spec in Hn as [-> Hk]; try done; destruct k as [[r0 d0]|].
  1: { destruct Hk as [[S HS] _]. apply Nat.le_0_r, map_size_empty_iff in Hf. by rewrite Hf, lookup_empty in HS. }
  1,3: intros [= <- <-]; right; right; (split_and!; [done| |done|done|done]); by destruct Hm.
  destruct Hk as [[S HS] Hr0].
  destruct (update_pending_spec (pending m) r0 d0) as (ready & -> & Hcas); [apply Hm|].
  destruct (accept_verified_certificates committee _ ready) as [m1 r1] eqn:Ha.
  apply (forward_unlocked m (r0, d0) [] ready) in Ha as [Hfat|([->|Hun] & Hm1 & Hg1 & Hc1 & Hp1)]; [| | |done|done|..].
  - destruct Hfat as [[-> ?]|[-> ?]]; intros [= <- <-]; left; [by left|by right].
  - rewrite <-Hg1. unfold fatal, unstored. rewrite <-Hc1. apply IH; [done|]. rewrite Hp1. simpl. pose proof (missing_shrinks _ _ _ (item <$> ready) HS). lia.
  - pose proof Hun as [-> _]. intros [= <- <-]. by right; left.
  - by intros x ?%elem_of_nil.
  - rewrite app_nil_r. apply Hm.
  - by right.
Qed.

(** ** The task *)

(** The certificates come from [U] and the GC round does not go back. *)
Fixpoint events_ok (g : Round) (es : list event) : Prop :=
  match es with
  | [] => True
  | ProcessVerifiedCertificates certs :: es => Forall U certs /\ events_ok g es
  | GcRoundUpdate r :: es => g <= r /\ events_ok r es
  | _ :: es => events_ok g es
  end.

(** The errors the task ends with by itself, and the party whose absence each one reports. *)
Definition ends_with (p : peer) (o : outcome CertManagerError unit) : Prop :=
  match p with
  | ParentsReceiver => o = Err FatalAppendParent \/ o = Err CertManagerTNSend
  | CertificatesReceiver => o = Err FatalForwardAcceptedCertificate
  | FetcherReceiver => o = Err (GC GcTNSend)
  | DatabaseThread => o = Err CertManagerStorage
  end.

(** A party that was gone when the task started, or that went away during the events. *)
Definition is_gone m (es : list event) (p : peer) : Prop := is_open m p = false \/ Gone p ∈ es.

(** The task ends by itself only when a party it talks to is gone. *)
Definition stopped m (es : list event) (o : outcome CertManagerError unit) : Prop :=
  exists p, ends_with p o /\ is_gone m es p.

(** What a command is answered with: a send error only when the fetcher is gone, a storage
    error only when the thread of the database is. *)
Definition reply_ok m (es : list event) (r : reply) : Prop :=
  match r with
  | ProcessReply o =>
      o = Ok () \/ (exists d, o = Err (Pending d)) \/ (exists d, o = Err (UnverifiedSignature d)) \/
      (o = Err CertManagerTNSend /\ is_gone m es FetcherReceiver) \/
      (o = Err CertManagerStorage /\ is_gone m es DatabaseThread)
  | _ => True
  end.

Lemma expected_reply m es o : expected m o -> reply_ok m es (ProcessReply o).
Proof.
  intros [?|[?|[?|[[? Hc]|[? Hc]]]]]; simpl; [by left|by right; left|by do 2 right; left|do 3 right; left|do 4 right];
    (split; [done|by left]).
Qed.

Lemma fatal_stopped m es o : fatal m o \/ unstored m o -> stopped m es o.
Proof.
  intros [[[-> Hc]|[-> Hc]]|[-> Hc]]; [exists ParentsReceiver|exists CertificatesReceiver|exists DatabaseThread];
    (split; [by try left|by left]).
Qed.

(** A party that is gone after a step was gone before it or went away in it. *)
Definition opens m m' (e : event) : Prop :=
  forall p, is_open m' p = false -> is_open m p = false \/ e = Gone p.

Lemma opens_same m m' e : channels m' = channels m -> opens m m' e.
Proof. intros Hc p Hp. left. by rewrite <-(channels_open _ _ p Hc). Qed.

Lemma opens_gone m m' e es p : opens m m' e -> is_gone m' es p -> is_gone m (e :: es) p.
Proof. intros Ho [[?| ->]%Ho|?]; [by left|right; left|right; by right]. Qed.

Lemma opens_reply m m' e es r : opens m m' e -> reply_ok m' es r -> reply_ok m (e :: es) r.
Proof.
  intros Ho. destruct r; simpl; [|done..]. intros [?|[?|[?|[[? ?]|[? ?]]]]]; eauto 10 using opens_gone.
Qed.

Lemma close_inv m p : manager_inv m -> manager_inv (close m p) /\ opens m (close m p) (Gone p).
Proof.
  intros Hm. split.
  - constructor; simpl; [apply Hm|apply Hm| |apply Hm|apply Hm|apply Hm].
    intros c pd q Ho. apply (mi_waiting _ Hm). by destruct p.
  - intros q. destruct p, q; simpl; auto.
Qed.

Lemma process_gc_inv m g m' r :
  manager_inv m -> gc_round m <= g -> process_gc_round committee (process_next_round m g) = (m', r) ->
  fatal m r \/ unstored m r \/ (r = Ok () /\ manager_inv m' /\ gc_round m' = g /\ channels m' = channels m /\
    forall k d, is_Some (PendingCertificateManager.missing_for_pending (pending m') !! (k, d)) -> g < k).
Proof.
  intros Hm Hg. unfold process_gc_round. apply (gc_loop_inv _ (process_next_round m g)); [|done].
  by apply process_next_round_inv.
Qed.

(** What one event leaves for the events [es] after it. *)
Definition stepped m (e : event) (es : list event) m' (rp : reply) (o : option (outcome CertManagerError unit)) : Prop :=
  match o with
  | Some o => stopped m (e :: es) o /\ rp = NoReply
  | None => manager_inv m' /\ opens m m' e /\ reply_ok m (e :: es) rp /\ events_ok (gc_round m') es
  end.

Lemma process_stepped m certs es m1 r1 m' rp o :
  manager_inv m -> Forall U certs -> events_ok (gc_round m) es ->
  process_verified_certificates committee genesis m certs = (m1, r1) ->
  match m1, r1 with
  | m, Err FatalAppendParent => (m, NoReply, Some (Err FatalAppendParent))
  | m, Err FatalForwardAcceptedCertificate => (m, NoReply, Some (Err FatalForwardAcceptedCertificate))
  | m, result => (m, ProcessReply result, None)
  end = (m', rp, o) -> stepped m (ProcessVerifiedCertificates certs) es m' rp o.
Proof.
  intros Hm HU He Hp. apply process_loop_inv in Hp as [Hf|(Hr & Hm1 & Hg & Hc)]; [| |done|done|by left].
  - pose proof (fatal_stopped m (ProcessVerifiedCertificates certs :: es) _ (or_introl Hf)) as Hst.
    destruct Hf as [[-> _]|[-> _]]; by intros [= <- <- <-].
  - assert (forall x, r1 = x -> (m1, ProcessReply x, @None (outcome CertManagerError unit)) = (m', rp, o) ->
      stepped m (ProcessVerifiedCertificates certs) es m' rp o) as Hok.
    { intros x <- [= <- <- <-]. split_and!; [done|by apply opens_same|by apply expected_reply|by rewrite Hg]. }
    destruct Hr as [-> |[[d ->]|[[d ->]|[[-> _]|[-> _]]]]]; by apply Hok.
Qed.

Lemma task_step_inv m e m' rp o es :
  manager_inv m -> events_ok (gc_round m) (e :: es) -> run_step committee genesis m e = (m', rp, o) ->
  stepped m e es m' rp o.
Proof.
  intros Hm He. destruct e as [certs|unknown|g| |p]; cbn [run_step].
  - destruct He as [HU He]. destruct (process_verified_certificates committee genesis m certs) as [m1 r1] eqn:Hp.
    intros Hx. apply (process_stepped m certs es m1 r1); [done..|]. by destruct r1 as [?|[]| |].
  - intros [= <- <- <-]. split_and!; [done|by apply opens_same|done|done].
  - destruct He as [Hg He]. cbn [ready].
    destruct (process_gc_round committee (process_next_round m g)) as [m1 r1] eqn:Hp.
    apply process_gc_inv in Hp as [Hf|[Hf|(-> & Hm1 & Hg1 & Hc & _)]]; [| | |done|done].
    + assert (exists e, r1 = Err e) as [e ->] by (destruct Hf as [[-> _]|[-> _]]; eauto).
      intros [= <- <- <-]. split; [|done]. apply fatal_stopped. by left.
    + pose proof Hf as [-> _]. intros [= <- <- <-]. split; [|done]. apply fatal_stopped. by right.
    + intros [= <- <- <-]. split_and!; [done|by apply opens_same|done|by rewrite Hg1].
  - cbn [ready]. unfold process_max_round_timeout. destruct (certificate_fetcher_open m) eqn:Ho; intros [= <- <- <-].
    + split_and!; [by apply fetch_inv|by apply opens_same|done|done].
    + split; [|done]. exists FetcherReceiver. split; [done|by left].
  - intros [= <- <- <-]. destruct (close_inv m p Hm) as [? ?]. split_and!; done.
Qed.

Lemma run_loop_inv m es m' rs o :
  manager_inv m -> events_ok (gc_round m) es -> run_loop committee genesis m es = (m', rs, o) ->
  Forall (reply_ok m es) rs /\ (stopped m es o \/ (o = Ok () /\ manager_inv m' /\ length rs = length es)).
Proof.
  revert m rs. induction es as [|e es IH]; intros m rs Hm He; cbn [run_loop].
  { intros [= <- <- <-]. split; [constructor|by right]. }
  destruct (run_step committee genesis m e) as [[m1 r1] [o1|]] eqn:Hstep;
    pose proof (task_step_inv _ _ _ _ _ es Hm He Hstep) as Hs.
  - intros [= <- <- <-]. destruct Hs as [Hst ->]. split; [by repeat constructor|by left].
  - destruct Hs as (Hm1 & Ho & Hr & He1).
    destruct (run_loop committee genesis m1 es) as [[m2 rs2] o2] eqn:Hl. intros [= <- <- <-].
    destruct (IH m1 rs2 Hm1 He1 Hl) as [Hrs Hend]. split.
    + constructor; [done|]. eapply Forall_impl; [exact Hrs|]. intros r. by apply opens_reply.
    + destruct Hend as [(p & Hp & Hg)|(-> & ? & ?)]; [left; exists p|right; split_and!; [done|done|simpl; lia]].
      split; [done|by eapply opens_gone].
Qed.

Lemma gone_channels m m' es p : channels m' = channels m -> is_gone m' es p -> is_gone m es p.
Proof. intros Hc [?|?]; [left|by right]. by rewrite <-(channels_open _ _ p Hc). Qed.

Lemma stopped_channels m m' es o : channels m = channels m' -> stopped m es o -> stopped m' es o.
Proof. intros Hc (p & ? & ?). exists p. split; [done|by apply (gone_channels _ m)]. Qed.

Lemma replies_channels m m' es rs : channels m = channels m' -> Forall (reply_ok m es) rs -> Forall (reply_ok m' es) rs.
Proof.
  intros Hc Hrs. eapply Forall_impl; [exact Hrs|]. intros [r| |]; simpl; [|done..].
  intros [?|[?|[?|[[? ?]|[? ?]]]]]; eauto 10 using gone_channels.
Qed.

(** The recovery only fills the aggregators of the parents; over a store whose indexes
    lead to its certificates it fails only when the receiver of the parents is gone. *)
Lemma recover_state_inv m m' o :
  manager_inv m -> CertStoreFacts.store_wf (node_storage m) -> recover_state committee m = (m', o) ->
  manager_inv m' /\ gc_round m' = gc_round m /\ channels m' = channels m /\
  (o = Ok () \/ (o = Err CertManagerTNSend /\ is_open m ParentsReceiver = false)).
Proof.
  intros Hm Hwf. unfold recover_state. destruct (CertStoreFacts.last_two_rounds_spec _ Hwf) as (certs & -> & _).
  set (P := fun acc : t * outcome CertManagerError unit =>
    manager_inv acc.1 /\ gc_round acc.1 = gc_round m /\ channels acc.1 = channels m /\
    (acc.2 = Ok () \/ (acc.2 = Err CertManagerTNSend /\ is_open m ParentsReceiver = false))).
  match goal with |- foldl ?f _ _ = _ -> _ => enough (forall l acc, P acc -> P (foldl f acc l)) as Hgen end.
  { intros Hf. specialize (Hgen certs (m, Ok ())). rewrite Hf in Hgen. apply Hgen. by split_and!; [..|left]. }
  induction l as [|c l IH]; intros [m1 r] Hacc; [done|]. cbn [foldl]. apply IH. destruct r as [u| | |]; try done.
  destruct (CertificatesAggregatorManager.append_certificate _ _ _) as [ps sent] eqn:Ha.
  apply append_channel in Ha as [Ho Hs]. destruct Hacc as (Hm1 & Hg1 & Hc1 & _). cbn [fst snd] in *.
  split_and!; [by destruct Hm1|done| |].
  - rewrite <-Hc1. unfold channels. simpl. by rewrite Ho.
  - destruct sent; [by left|right]. split; [done|]. rewrite <-(channels_open _ _ ParentsReceiver Hc1). by apply Hs.
Qed.

End facts.
End CertManagerFacts.
