(* ===== verification/BullsharkSafety.v ===== *)
(** The properties of the Bullshark core: it never panics and always returns, a
    certificate is committed at most once, commits need support, and a supported
    leader is linked from every later certificate of every consistent DAG. *)

From S2P Require Import Prelude Committee Certificate Output ConsensusState OrderDag LeaderSchedule Bullshark.
From S2P Require Import BullsharkFacts Demo.
Import DagFacts ScheduleFacts Bullshark.

(** * Definitions *)

Section definitions.
Context `{NetworkKeys} `{Crypto} `{SeededChoice}.

(** The invariant of the protocol and its state. *)
Definition protocol_inv (b : Bullshark.t) (s : ConsensusState.t) : Prop :=
  bullshark_wf b /\ state_wf (committee b) s /\ scores_wf (committee b) s.

(** Feeding a sequence of certificates to the protocol, collecting the commits. *)
Definition run_step (acc : Bullshark.t * ConsensusState.t * list CommittedSubDag.t) (c : Certificate.t)
    : outcome ConsensusError (Bullshark.t * ConsensusState.t * list CommittedSubDag.t) :=
  let '(b, s, ds) := acc in
  match process_certificate b s c with
  | (b', s', Ok (_, ds')) => Ok (b', s', ds ++ ds')
  | (_, _, Err e) => Err e
  | (_, _, Panic) => Panic
  | (_, _, OutOfFuel) => OutOfFuel
  end.

Definition run (b : Bullshark.t) (s : ConsensusState.t) (cs : list Certificate.t)
    : outcome ConsensusError (Bullshark.t * ConsensusState.t * list CommittedSubDag.t) :=
  foldM run_step (b, s, []) cs.

(** Inserting a sequence of certificates without committing. *)
Definition insert_all (s : ConsensusState.t) (cs : list Certificate.t) : outcome ConsensusError ConsensusState.t :=
  foldM (fun s c => let '(s', r) := ConsensusState.try_insert s c in _ ← r; Ok s') s cs.

(** The authors of a round whose certificates satisfy a test. *)
Definition authors_of (row : gmap AuthorityIdentifier (Digest * Certificate.t))
    (P : Digest * Certificate.t -> Prop) `{!forall dc, Decision (P dc)} : gset AuthorityIdentifier :=
  dom (filter (fun kv => P kv.2) row).

(** The authors of round [r + 1] that reference the leader. *)
Definition supporters (dag : Dag) (leader : Certificate.t) : gset AuthorityIdentifier :=
  authors_of (default ∅ (dag !! (Certificate.round leader + 1)))
    (fun dc => Certificate.digest leader ∈ Certificate.parents dc.2).

(** The authors of the parents of a certificate. *)
Definition parent_authors (dag : Dag) (x : Certificate.t) : gset AuthorityIdentifier :=
  authors_of (default ∅ (dag !! (Certificate.round x - 1)))
    (fun dc => dc.1 ∈ Certificate.parents x).

(** Certificates above the GC border reference a quorum of the round below. *)
Definition quorate (committee : Committee.t) (dag : Dag) (gc_round : Round) : Prop :=
  forall x, in_dag dag x -> gc_round + 1 < Certificate.round x ->
    Committee.reached_quorum committee (Committee.weight committee (parent_authors dag x)) = true.

(** No author has two different certificates for one round, across two DAGs. *)
Definition consistent (dag1 dag2 : Dag) : Prop :=
  forall x y, in_dag dag1 x -> in_dag dag2 y -> Certificate.round x = Certificate.round y ->
    Certificate.origin x = Certificate.origin y -> Certificate.digest x = Certificate.digest y.

End definitions.

(** * Supporting lemmas *)

Section lemmas.
Context `{NetworkKeys} `{Crypto} `{SeededChoice}.

Lemma try_insert_no_panic s c s' :
  ConsensusState.try_insert s c <> (s', Panic) /\ ConsensusState.try_insert s c <> (s', OutOfFuel).
Proof.
  unfold ConsensusState.try_insert, ConsensusState.try_insert_in_dag, ConsensusState.check_parents.
  assert (forall (X : gset Digest) l, foldM (fun (_ : unit) d => ensure (bool_decide (d ∈ X)) (MissingParent d c)) () l <> Panic /\
    foldM (fun (_ : unit) d => ensure (bool_decide (d ∈ X)) (MissingParent d c)) () l <> OutOfFuel) as Hf.
  { intros X l. induction l as [|d l IH]; simpl; [done|]. case_bool_decide; simpl; [done|done]. }
  repeat case_match; simplify_eq/=; try done.
  all: match goal with H : foldM _ _ _ = _ |- _ => exfalso; revert H; apply Hf end.
Qed.

Lemma try_insert_fields s c s' r :
  ConsensusState.try_insert s c = (s', r) ->
  ConsensusState.last_round s' = ConsensusState.last_round s /\
  ConsensusState.last_committed s' = ConsensusState.last_committed s /\
  ConsensusState.last_committed_sub_dag s' = ConsensusState.last_committed_sub_dag s.
Proof.
  unfold ConsensusState.try_insert. destruct (ConsensusState.try_insert_in_dag _ _ _ _ _).
  by intros [= <- <-].
Qed.

Lemma try_insert_row s c s' :
  ConsensusState.try_insert s c = (s', Ok true) ->
  is_Some (ConsensusState.dag s' !! Certificate.round c) /\
  ConsensusState.gc_round s < Certificate.round c.
Proof.
  unfold ConsensusState.try_insert.
  destruct (ConsensusState.try_insert_in_dag _ _ _ _ _) as [dag' r] eqn:Hi. intros [= <- ->].
  apply try_insert_in_dag_Ok in Hi as [(_ & _ & ?)|(Hgc & _ & _ & _ & ->)]; [done|].
  simpl. rewrite lookup_insert_eq. by eauto.
Qed.

Lemma report_ok {E} b r :
  bullshark_wf b -> exists b', @report_leader_on_time_metrics _ _ E b r = Ok b' /\
    bullshark_wf b' /\ committee b' = committee b.
Proof.
  intros Hb. unfold report_leader_on_time_metrics.
  set (b' := mk _ _ _ _ _). assert (bullshark_wf b') as Hb' by (by destruct Hb).
  case_match eqn:Hc; [|by eexists].
  destruct (@leader_ok _ _ E (committee b) (leader_schedule b) (r - 2)) as (a & -> & _); [by destruct Hb..| |].
  - apply andb_true_iff in Hc as [Hc Hc2]. apply andb_true_iff in Hc as [_ Hc]. div_lia.
  - by eexists.
Qed.

(** What processing a certificate does, on every outcome. *)
Lemma process_certificate_spec `{!CollisionFree} b s c b' s' r :
  protocol_inv b s -> cert_wf (committee b) c -> process_certificate b s c = (b', s', r) ->
  match r with
  | Ok (o, ds) =>
      protocol_inv b' s' /\ committee b' = committee b /\
      exists s1 ins, ConsensusState.try_insert s c = (s1, Ok ins) /\ commits s1 ds s' /\
        state_wf (committee b) s1
  | Err e => exists s1, ConsensusState.try_insert s c = (s1, Err e) /\ s' = s1 /\ b' = b
  | _ => False
  end.
Proof.
  intros (Hb & Hs & Hsc) Hc. unfold process_certificate.
  destruct (ConsensusState.try_insert s c) as [s1 ins] eqn:Hins.
  destruct ins as [ins|e| |]; [|intros [= <- <- <-]; by eauto|by destruct (try_insert_no_panic s c s1)..].
  pose proof (try_insert_wf _ _ _ _ _ Hs Hc Hins) as Hs1.
  pose proof (try_insert_fields _ _ _ _ Hins) as (_ & _ & Hsd).
  assert (scores_wf (committee b) s1) as Hsc1 by (unfold scores_wf; by rewrite Hsd).
  assert (Hstay : forall b1, bullshark_wf b1 -> committee b1 = committee b ->
    protocol_inv b1 s1 /\ committee b1 = committee b /\
    exists s2 ins', (s1, @Ok ConsensusError _ ins) = (s2, Ok ins') /\ commits s2 [] s1 /\ state_wf (committee b) s2).
  { intros b1 Hb1 Hcb. split_and!; [split_and!; [done|by rewrite Hcb..]|done|].
    exists s1, ins. split_and!; [done|constructor|done]. }
  destruct ins; [|intros [= <- <- <-]; by apply Hstay].
  destruct (@report_ok ConsensusError b (Certificate.round c) Hb) as (b1 & -> & Hb1 & Hcb).
  apply try_insert_row in Hins as [Hrow Hgc]. rewrite wrapping_sub32_small by lia.
  destruct (negb _ || _) eqn:Hodd; [intros [= <- <- <-]; by apply Hstay|].
  apply orb_false_iff in Hodd as [Heven Hge].
  case_match eqn:Hbelow; [intros [= <- <- <-]; by apply Hstay|].
  destruct (@commit_loop_spec _ _ _ _ ConsensusError (N.to_nat (Certificate.round c - 1)) b1 s1 (Certificate.round c - 1) [])
    as (b2 & s2 & o & ds & -> & Hb2 & Hc2 & Hsc2 & Hcom & _); rewrite ?Hcb; [done..|lia|lia|lia| |lia|].
  { by replace (Certificate.round c - 1 + 1) with (Certificate.round c) by lia. }
  rewrite Hcb in *. pose proof (ci_wf _ _ _ _ (commits_invariant _ _ _ _ Hs1 Hcom)) as Hs2.
  destruct ds as [|d ds]; intros [= <- <- <-]; (split_and!; [split_and!; [done|by rewrite Hc2..]|done|]);
    exists s1, true; by split_and!.
Qed.

Lemma run_step_inv `{!CollisionFree} s0 b s ds c acc committee0 :
  protocol_inv b s -> committee b = committee0 -> commits_inv committee0 s0 ds s -> cert_wf committee0 c ->
  run_step (b, s, ds) c = Ok acc ->
  protocol_inv acc.1.1 acc.1.2 /\ committee acc.1.1 = committee0 /\ commits_inv committee0 s0 acc.2 acc.1.2.
Proof.
  intros Hinv Hcb Hci Hc. unfold run_step.
  destruct (process_certificate b s c) as [[b' s'] r] eqn:Hp.
  apply process_certificate_spec in Hp; [|done|by rewrite Hcb].
  destruct r as [[o ds']|e| |]; try done. intros [= <-]. simpl.
  destruct Hp as (Hinv' & Hcb' & s1 & ins & Hins & Hcom & Hs1). split_and!; [done|congruence|].
  pose proof (try_insert_fields _ _ _ _ Hins) as (Hlr & Hlc & _).
  apply (commits_inv_trans committee0 s0 ds s s1); [done|done| |].
  - unfold ConsensusState.committed_round. by rewrite Hlr.
  - rewrite <-Hcb. by apply commits_invariant; rewrite ?Hcb in *.
Qed.

Lemma run_inv `{!CollisionFree} b s cs acc :
  protocol_inv b s -> Forall (cert_wf (committee b)) cs -> run b s cs = Ok acc ->
  protocol_inv acc.1.1 acc.1.2 /\ committee acc.1.1 = committee b /\
  commits_inv (committee b) s acc.2 acc.1.2.
Proof.
  intros Hinv Hcs Hrun. rewrite Forall_forall in Hcs.
  apply (foldM_invariant run_step (fun acc => protocol_inv acc.1.1 acc.1.2 /\ committee acc.1.1 = committee b /\
    commits_inv (committee b) s acc.2 acc.1.2)) in Hrun; [done| |].
  - split_and!; [done|done|]. apply commits_inv_nil. apply Hinv.
  - intros [[b1 s1] ds1] c acc' (Hi & Hcb & Hci) Hc Hstep.
    by eapply run_step_inv; [..|apply Hcs|done].
Qed.

Lemma insert_all_wf committee s cs s' :
  state_wf committee s -> Forall (cert_wf committee) cs -> insert_all s cs = Ok s' ->
  state_wf committee s' /\
  ConsensusState.last_committed_sub_dag s' = ConsensusState.last_committed_sub_dag s.
Proof.
  intros Hs Hcs Hins. rewrite Forall_forall in Hcs.
  apply (foldM_invariant _ (fun s' => state_wf committee s' /\
    ConsensusState.last_committed_sub_dag s' = ConsensusState.last_committed_sub_dag s)) in Hins; [done|done|].
  intros s1 c s2 [Hs1 Hd1] Hc. destruct (ConsensusState.try_insert s1 c) as [s3 r] eqn:Ht.
  intros (b & -> & [= <-])%bind_Ok. split; [by eapply try_insert_wf; [..|apply Hcs|]|].
  apply try_insert_fields in Ht as (_ & _ & ->). done.
Qed.

(** The state after a sequence of insertions, or the first state if one is refused. *)
Definition inserted (s : ConsensusState.t) (cs : list Certificate.t) : ConsensusState.t :=
  match insert_all s cs with Ok s' => s' | _ => s end.

Lemma inserted_wf committee s cs :
  state_wf committee s -> Forall (cert_wf committee) cs ->
  state_wf committee (inserted s cs) /\
  ConsensusState.last_committed_sub_dag (inserted s cs) = ConsensusState.last_committed_sub_dag s.
Proof.
  intros Hs Hcs. unfold inserted.
  destruct (insert_all s cs) eqn:Hi; [by eapply insert_all_wf|by split..].
Qed.

(** ** Stake of the authors of a round *)

Lemma elem_of_authors_of row (P : Digest * Certificate.t -> Prop) `{!forall dc, Decision (P dc)} a :
  a ∈ authors_of row P <-> exists dc, row !! a = Some dc /\ P dc.
Proof.
  unfold authors_of. rewrite elem_of_dom. split.
  - intros [dc Hdc]. apply map_lookup_filter_Some in Hdc as [? ?]. by exists dc.
  - intros (dc & Hdc & HP). exists dc. by apply map_lookup_filter_Some.
Qed.

(** [support] sums, over the hash map, the stake of the set of supporters. *)
Lemma support_weight b s leader row :
  bullshark_wf b -> dag_wf (committee b) (ConsensusState.dag s) ->
  ConsensusState.dag s !! (Certificate.round leader + 1) = Some row ->
  support b row leader = Committee.weight (committee b) (supporters (ConsensusState.dag s) leader).
Proof.
  intros Hb Hdag Hrow. unfold support, supporters. rewrite Hrow. simpl.
  set (P := fun dc : Digest * Certificate.t => Certificate.digest leader ∈ Certificate.parents dc.2).
  assert (sumN ((fun dc => Committee.voting_power_by_id (committee b) (Certificate.origin dc.2)) <$>
    filter P (map_to_list row).*2) = Committee.weight (committee b) (authors_of row P)) as ->.
  { unfold Committee.weight, weigh, authors_of. apply sumN_perm.
    assert (elements (dom (filter (fun kv => P kv.2) row)) ≡ₚ (filter (fun kv => P kv.2) (map_to_list row)).*1) as ->.
    { apply NoDup_Permutation; [apply NoDup_elements| |].
      - eapply sublist_NoDup; [apply (NoDup_fst_map_to_list row)|]. apply fmap_sublist, sublist_filter.
      - intros a. rewrite elem_of_elements, elem_of_dom, list_elem_of_fmap. split.
        + intros [dc [Hdc HP]%map_lookup_filter_Some]. exists (a, dc).
          by rewrite list_elem_of_filter, elem_of_map_to_list.
        + intros ([a' dc] & -> & [HP Hdc%elem_of_map_to_list]%list_elem_of_filter).
          exists dc. by apply map_lookup_filter_Some. }
    assert (forall l : list (AuthorityIdentifier * (Digest * Certificate.t)),
      (forall a dc, (a, dc) ∈ l -> Certificate.origin dc.2 = a) ->
      (fun dc => Committee.voting_power_by_id (committee b) (Certificate.origin dc.2)) <$> filter P l.*2 =
      Committee.voting_power_by_id (committee b) <$> (filter (fun kv => P kv.2) l).*1) as Hl.
    { induction l as [|[a dc] l IH]; intros Hor; [done|]. simpl. rewrite !filter_cons. simpl.
      assert (forall a dc, (a, dc) ∈ l -> Certificate.origin dc.2 = a) as Hor' by (intros; apply Hor; set_solver).
      specialize (IH Hor'). case_decide; [|done]. cbn [fmap list_fmap]. f_equal; [|done].
      by rewrite (Hor a dc) by set_solver. }
    rewrite Hl; [done|]. intros a [d c] Hin%elem_of_map_to_list.
    apply (Hdag (Certificate.round leader + 1) a d c). unfold entry. by rewrite Hrow. }
  apply wrap64_small. pose proof (CommitteeFacts.weight_le_stake _ (bs_committee _ Hb) (authors_of row P)).
  pose proof (bs_stake _ Hb). assert (u64_modulus = 2 * 2 ^ 63) by done. lia.
Qed.
End lemmas.

(** ** The demo network satisfies the invariant *)

Section demo.
#[local] Existing Instances demo_keys demo_crypto demo_choice demo_collision_free.

Definition demo_state : ConsensusState.t := ConsensusState.new 50.

Definition demo_certs : list Certificate.t := demo_round1 ++ demo_round2 ++ demo_round3.

Lemma demo_protocol_inv : protocol_inv demo_bullshark demo_state.
Proof.
  destruct demo_committee_wf as [Hwf Hst].
  assert (set_Forall (fun i => 0 < Committee.voting_power_by_id demo_committee i)
    (Committee.members demo_committee)) as Hpos.
  { apply (bool_decide_unpack _). by vm_compute. }
  split_and!; [|apply new_state_wf|done]. constructor; [done|done| | |done|done|].
  - exists (demo_authority 1). split; [|done]. apply (bool_decide_unpack _). by vm_compute.
  - split; [done|]. split; [constructor|done].
  - by apply safe_threshold_0.
Qed.

Lemma demo_certs_wf : Forall (cert_wf demo_committee) demo_certs.
Proof.
  unfold cert_wf. apply (bool_decide_unpack _). by vm_compute.
Qed.

End demo.

(** * Properties *)

Section properties.
Context `{NetworkKeys} `{Crypto} `{SeededChoice} `{!CollisionFree}.

(** C10: processing a validated certificate in a state satisfying the invariant always
    returns: no assertion, [expect] or [unwrap] of the protocol fails, the retry loop
    terminates, and unless the certificate is refused by the insertion the invariant
    holds again afterwards. *)
Theorem process_certificate_safe b s c :
  protocol_inv b s -> cert_wf (committee b) c ->
  exists b' s' r, process_certificate b s c = (b', s', r) /\
    ((exists o ds, r = Ok (o, ds) /\ protocol_inv b' s' /\ committee b' = committee b) \/
     (exists e, r = Err e /\ (ConsensusState.try_insert s c).2 = Err e)).
Proof.
  intros Hinv Hc. destruct (process_certificate b s c) as [[b' s'] r] eqn:Hp.
  exists b', s', r. split; [done|]. apply process_certificate_spec in Hp; [|done..].
  destruct r as [[o ds]|e| |]; [left|right|done|done].
  - destruct Hp as (Hi & Hcb & _). by exists o, ds.
  - destruct Hp as (s1 & Hins & _). exists e. by rewrite Hins.
Qed.

(** C5: along any run of the protocol, from any state satisfying the invariant, no
    certificate is committed twice: the digests of all committed certificates are
    distinct, the rounds committed for one author strictly increase, and none was
    already covered by the commits recorded in the initial state. *)
Theorem commit_at_most_once b s cs b' s' ds :
  protocol_inv b s -> Forall (cert_wf (committee b)) cs -> run b s cs = Ok (b', s', ds) ->
  NoDup (Certificate.digest <$> committed_certificates ds) /\
  author_increasing (committed_certificates ds) /\
  (forall y, y ∈ committed_certificates ds -> fresh s y).
Proof.
  intros Hinv Hcs Hrun. apply run_inv in Hrun as (_ & _ & Hci); [|done..]. simpl in Hci.
  split_and!; [|by destruct Hci..].
  apply (author_increasing_NoDup (committee b)); by destruct Hci.
Qed.

(** A certificate of the authority that the schedule elects for its round. *)
Definition elected b (c : Certificate.t) : Prop :=
  exists a, LeaderSchedule.leader (E := ConsensusError) (leader_schedule b) (Certificate.round c) = Ok a /\ Certificate.origin c = Authority.id a.

Lemma leader_certificate_elected b s r a c :
  bullshark_wf b -> dag_wf (committee b) (ConsensusState.dag s) ->
  LeaderSchedule.leader_certificate (E := ConsensusError) (leader_schedule b) r (ConsensusState.dag s) = Ok (a, Some c) -> elected b c.
Proof.
  intros Hb Hdag Hlc. pose proof Hlc as (a' & Ha & [= -> _])%bind_Ok.
  assert (r mod 2 = 0) as Hr by (apply bind_Ok in Ha as (u & Hu%assert_Ok & _); by apply N.eqb_eq).
  destruct (leader_certificate_ok (E := ConsensusError) b s r) as (a' & oc & Hlc' & Hoc); [done..|]. rewrite Hlc in Hlc'. injection Hlc' as <- <-.
  destruct (Hoc c eq_refl) as (_ & Hrc & Ho & _). exists a. by rewrite Hrc.
Qed.

Lemma order_leaders_elected b s leader ls :
  bullshark_wf b -> dag_wf (committee b) (ConsensusState.dag s) -> elected b leader ->
  order_leaders (E := ConsensusError) b leader s = Ok ls -> Forall (elected b) ls.
Proof.
  intros Hb Hdag Hl. unfold order_leaders. intros (u & _ & (acc & Hacc & (u' & _ & [= <-])%bind_Ok)%bind_Ok)%bind_Ok.
  apply (foldM_invariant _ (fun acc => Forall (elected b) acc.2)) in Hacc; [done|by constructor|].
  intros [cur rest] r acc' Hinv _. unfold order_leaders_step. intros ([a oc] & Hlc & Hr)%bind_Ok. cbn [snd] in *.
  destruct oc as [prev|]; [|by injection Hr as <-]. destruct (linked _ _ _); injection Hr as <-; [|done].
  constructor; [by eapply leader_certificate_elected|done].
Qed.

(** The leaders of the sub-dags that are committed are the first of the ones to commit; all of
    them unless the schedule changes. *)
Lemma commit_leaders_leaders b s ls acc b' s' o ds : commit_leaders (E := ConsensusError) b s ls acc = Ok (b', s', o, ds) ->
  exists ls1 ls2, ls = ls1 ++ ls2 /\ CommittedSubDag.leader <$> ds = (CommittedSubDag.leader <$> acc) ++ ls1 /\ (o = Commit -> ls2 = []).
Proof.
  revert b s acc. induction ls as [|l ls IH]; intros b s acc; cbn [commit_leaders].
  { intros [= <- <- <- <-]. exists [], []. split_and!; [done|by rewrite app_nil_r|done]. }
  intros (seq & _ & (scores & _ & ([b1 ch] & _ & Hr)%bind_Ok)%bind_Ok)%bind_Ok. cbn [fst snd] in Hr. destruct (ch && _).
  - injection Hr as <- <- <- <-. exists [l], ls. split_and!; [done|by rewrite fmap_app|done].
  - apply IH in Hr as (ls1 & ls2 & -> & Hds & Hc). exists (l :: ls1), ls2. split_and!; [done| |done]. by rewrite Hds, fmap_app, <-app_assoc.
Qed.

(** C11: a leader is committed only with support: when [commit_leader], above the last
    committed round, commits anything, the certificate of the authority that the
    schedule elects for the round is in the DAG and the authorities whose next-round certificates
    reference it hold at least the validity threshold.  Every sub-dag that is committed has as its
    leader the certificate of the elected authority of its round, which this one
    reaches through parents; unless the schedule changes on the way, the last one has this
    one as its leader. *)
Theorem commit_needs_support b s r b' s' o ds :
  protocol_inv b s -> r mod 2 = 0 -> ConsensusState.committed_round s < r ->
  @commit_leader _ _ _ ConsensusError b r s = Ok (b', s', o, ds) -> ds <> [] ->
  exists leader, in_dag (ConsensusState.dag s) leader /\ Certificate.round leader = r /\ elected b leader /\
    Committee.reached_validity (committee b)
      (Committee.weight (committee b) (supporters (ConsensusState.dag s) leader)) = true /\
    Forall (fun d => elected b (CommittedSubDag.leader d) /\ rtc (parent_of (ConsensusState.dag s)) leader (CommittedSubDag.leader d)) ds /\
    (o = Commit -> CommittedSubDag.leader <$> last ds = Some leader).
Proof.
  intros (Hb & Hs & _) Hr Hlt Hcl Hne. unfold commit_leader in Hcl.
  destruct (@leader_certificate_ok _ _ _ ConsensusError b s r) as (a & oc & Hlc & Hoc); [done|apply Hs|done|].
  rewrite Hlc in Hcl. cbn [mbind outcome_bind snd] in Hcl. destruct oc as [leader|]; [|by simplify_eq].
  destruct (Hoc leader eq_refl) as (Hin & Hrl & Ho & Ha).
  apply bind_Ok in Hcl as (row & Hrow%expect_Ok & Hcl). rewrite <-Hrl in Hrow.
  rewrite (support_weight b s leader row Hb (state_dag _ _ Hs) Hrow) in Hcl.
  case_match eqn:Hsup; [by simplify_eq|]. apply bind_Ok in Hcl as (ls & Hls & Hcl).
  assert (elected b leader) as Hel by (eapply leader_certificate_elected; [done|apply Hs|exact Hlc]).
  pose proof (order_leaders_elected b s leader ls Hb (state_dag _ _ Hs) Hel Hls) as Hall.
  destruct (order_leaders_spec (E := ConsensusError) b s leader a) as (ls' & Hls' & [_ Helem Hlast]); [done|done|done|by rewrite Hrl|rewrite Hrl; div_lia|by rewrite Hrl|by rewrite Ho|].
  rewrite Hls in Hls'. injection Hls' as <-.
  destruct (commit_leaders_leaders b s ls [] b' s' o ds Hcl) as (ls1 & ls2 & Heq & Hds & Hcommit). cbn in Hds.
  exists leader. split_and!; [done|done|done|unfold Committee.reached_validity; lia| |].
  - apply Forall_forall. intros d Hd. assert (CommittedSubDag.leader d ∈ ls) as Hd'.
    { rewrite Heq, <-Hds. apply elem_of_app. left. by apply list_elem_of_fmap_2. }
    rewrite Forall_forall in Hall. split; [by apply Hall|]. apply (Helem _ Hd').
  - intros ->. rewrite Hcommit, app_nil_r in Heq by done. subst ls1. by rewrite <-fmap_last, Hds.
Qed.

(** C12: [order_dag] returns, for a leader above round 0, exactly the certificates of
    its sub-dag that were not committed yet, each once, in order of their rounds; the
    search ends although the stack is only bounded by the digests of the DAG. *)
Theorem order_dag_correct committee s leader :
  state_wf committee s -> 0 < Certificate.round leader ->
  exists l, @order_dag ConsensusError leader s = Ok l /\ NoDup l /\
    (forall y, y ∈ l <-> sub_dag s leader y) /\
    StronglySorted (fun x y => Certificate.round x <= Certificate.round y) l.
Proof. intros Hs Hr. by apply (order_dag_spec committee). Qed.

(** [linked] decides whether a path of parent references leads from a leader to
    an earlier one, whatever the iteration order of the hash maps. *)
Theorem linked_is_reachability committee dag leader prev :
  dag_wf committee dag -> in_dag dag leader -> in_dag dag prev ->
  linked leader prev dag = true <-> rtc (parent_of dag) leader prev.
Proof. intros Hd Hl Hp. by apply (linked_iff committee). Qed.

(** The consensus state invariant (entries filed under their round, author and
    digest; nothing at or below the GC round; parents present above it; recorded
    commits at most the committed round) is preserved by a successful insertion. *)
Theorem try_insert_preserves committee s c s' b :
  state_wf committee s -> cert_wf committee c ->
  ConsensusState.try_insert s c = (s', Ok b) -> state_wf committee s'.
Proof. apply try_insert_wf. Qed.

End properties.

(** * Agreement *)

Section agreement.
Context `{NetworkKeys} `{Crypto} `{!CollisionFree} `{!BindsParents}.
Context (committee : Committee.t) (Hcom : Committee.wf committee).

(** The parent of a quorate certificate through a given set of supporters. *)
Lemma quorum_parent dag1 dag2 leader x :
  dag_wf committee dag1 -> dag_wf committee dag2 -> consistent dag1 dag2 ->
  Committee.reached_validity committee (Committee.weight committee (supporters dag1 leader)) = true ->
  Committee.reached_quorum committee (Committee.weight committee (parent_authors dag2 x)) = true ->
  Certificate.round x = Certificate.round leader + 2 ->
  exists y, parent_of dag2 x y /\ Certificate.digest leader ∈ Certificate.parents y.
Proof.
  intros Hd1 Hd2 Hcons Hsup Hq Hr.
  destruct (CommitteeFacts.quorum_meets_validity committee Hcom _ _ Hq Hsup) as [i Hi].
  assert (i ∈ parent_authors dag2 x) as Hi2 by set_solver.
  assert (i ∈ supporters dag1 leader) as Hi1 by set_solver. clear Hi.
  apply elem_of_authors_of in Hi1 as ([d1 y1] & Hy1 & Hp1), Hi2 as ([d2 y2] & Hy2 & Hp2). simpl in *.
  assert (entry dag1 (Certificate.round leader + 1) i = Some (d1, y1)) as He1.
  { unfold entry. by destruct (dag1 !! (Certificate.round leader + 1)). }
  assert (entry dag2 (Certificate.round x - 1) i = Some (d2, y2)) as He2.
  { unfold entry. by destruct (dag2 !! (Certificate.round x - 1)). }
  pose proof (entry_in_dag _ _ _ _ _ _ Hd1 He1) as Hin1. pose proof (entry_in_dag _ _ _ _ _ _ Hd2 He2) as Hin2.
  apply Hd1 in He1 as (Hr1 & Ho1 & _ & Hw1). apply Hd2 in He2 as (Hr2 & Ho2 & Hdy2 & Hw2).
  assert (Certificate.digest y1 = Certificate.digest y2) as Hd by (apply Hcons; [done..|lia|congruence]).
  exists y2. split; [split_and!; [done|lia|by rewrite Hdy2]|].
  by rewrite <-(cert_wf_parents committee y1 y2).
Qed.

Lemma supported_leader_reached dag1 dag2 gc leader x n :
  dag_wf committee dag1 -> dag_wf committee dag2 -> consistent dag1 dag2 ->
  parents_closed dag2 gc -> quorate committee dag2 gc ->
  Committee.reached_validity committee (Committee.weight committee (supporters dag1 leader)) = true ->
  gc < Certificate.round leader -> in_dag dag2 x ->
  Certificate.round x = Certificate.round leader + 2 + N.of_nat n ->
  exists z, in_dag dag2 z /\ Certificate.digest z = Certificate.digest leader /\ rtc (parent_of dag2) x z.
Proof.
  intros Hd1 Hd2 Hcons Hclosed Hquor Hsup Hgc. revert x. induction n as [|n IH]; intros x Hx Hr.
  - destruct (quorum_parent dag1 dag2 leader x) as (y & Hy & Hl); [done..|apply Hquor; [done|lia]|lia|].
    pose proof Hy as (Hyin & Hry & _).
    destruct (Hclosed y Hyin ltac:(lia) _ Hl) as (z & Hz & Hdz). exists z. split_and!; [apply Hz|done|].
    eapply rtc_l; [exact Hy|]. by apply rtc_once.
  - assert (parent_authors dag2 x <> ∅) as [i Hi]%set_choose_L.
    { intros He. specialize (Hquor x Hx ltac:(lia)). rewrite He in Hquor.
      unfold Committee.weight in Hquor. rewrite weigh_empty in Hquor. unfold Committee.reached_quorum in Hquor.
      rewrite (Committee.wf_quorum _ Hcom), N.add_1_r in Hquor. apply N.leb_le, N.nlt_ge in Hquor.
      apply Hquor. apply N.lt_0_succ. }
    apply elem_of_authors_of in Hi as ([d y] & Hy & Hp). simpl in *.
    assert (entry dag2 (Certificate.round x - 1) i = Some (d, y)) as He.
    { unfold entry. by destruct (dag2 !! (Certificate.round x - 1)). }
    pose proof (entry_in_dag _ _ _ _ _ _ Hd2 He) as Hin. apply Hd2 in He as (Hry & _ & Hdy & _).
    destruct (IH y Hin ltac:(lia)) as (z & Hz & Hdz & Hpath). exists z. split_and!; [done|done|].
    eapply rtc_l; [|exact Hpath]. split_and!; [done|lia|by rewrite Hdy].
Qed.

(** Agreement on leaders. If a leader has support of at least the validity
    threshold in one node's DAG, then in the DAG of any node that is consistent with it
    (no author has two certificates for a round), quorate and parent-closed above its
    GC round, [linked] finds that leader from every certificate two or more rounds
    later: no later leader can be ordered without it. *)
Theorem supported_leader_linked dag1 dag2 gc leader x :
  dag_wf committee dag1 -> dag_wf committee dag2 -> consistent dag1 dag2 ->
  parents_closed dag2 gc -> quorate committee dag2 gc ->
  Committee.reached_validity committee (Committee.weight committee (supporters dag1 leader)) = true ->
  gc < Certificate.round leader -> in_dag dag2 x ->
  Certificate.round leader + 2 <= Certificate.round x ->
  exists z, in_dag dag2 z /\ Certificate.digest z = Certificate.digest leader /\ linked x z dag2 = true.
Proof.
  intros Hd1 Hd2 Hcons Hclosed Hquor Hsup Hgc Hx Hr.
  destruct (supported_leader_reached dag1 dag2 gc leader x
    (N.to_nat (Certificate.round x - Certificate.round leader - 2))) as (z & Hz & Hdz & Hpath); [done..|lia|].
  exists z. split_and!; [done|done|]. by apply (linked_iff committee).
Qed.
End agreement.

(** * Witnesses *)

Section witnesses.
#[local] Existing Instances demo_keys demo_crypto demo_choice demo_collision_free.

Lemma process_certificate_safe_witness :
  exists b' s' r, process_certificate demo_bullshark demo_state (demo_cert 1 1 []) = (b', s', r) /\
    ((exists o ds, r = Ok (o, ds) /\ protocol_inv b' s' /\ committee b' = demo_committee) \/
     (exists e, r = Err e /\ (ConsensusState.try_insert demo_state (demo_cert 1 1 [])).2 = Err e)).
Proof.
  apply (process_certificate_safe demo_bullshark demo_state (demo_cert 1 1 [])).
  - apply demo_protocol_inv.
  - pose proof demo_certs_wf as Hwf. rewrite Forall_forall in Hwf. apply Hwf.
    apply (bool_decide_unpack _). by vm_compute.
Defined.

(** A run over three full rounds, which commits five certificates. *)
Definition demo_run_result : Bullshark.t * ConsensusState.t * list CommittedSubDag.t :=
  match run demo_bullshark demo_state demo_certs with
  | Ok acc => acc
  | _ => (demo_bullshark, demo_state, [])
  end.

Lemma commit_at_most_once_witness :
  length (committed_certificates demo_run_result.2) = 5%nat /\
  NoDup (Certificate.digest <$> committed_certificates demo_run_result.2) /\
  author_increasing (committed_certificates demo_run_result.2) /\
  (forall y, y ∈ committed_certificates demo_run_result.2 -> fresh demo_state y).
Proof.
  split; [by vm_compute|].
  apply (commit_at_most_once demo_bullshark demo_state demo_certs demo_run_result.1.1 demo_run_result.1.2).
  - apply demo_protocol_inv.
  - apply demo_certs_wf.
  - vm_compute. reflexivity.
Defined.

(** The state when the leader of round 2 gets its support. *)
Definition demo_supported : ConsensusState.t :=
  inserted demo_state (demo_round1 ++ demo_round2 ++ take 2 demo_round3).

Lemma demo_supported_inv : protocol_inv demo_bullshark demo_supported.
Proof.
  pose proof demo_protocol_inv as (Hb & Hs & Hsc). split; [done|].
  destruct (inserted_wf demo_committee demo_state (demo_round1 ++ demo_round2 ++ take 2 demo_round3)) as [Hs' Hd].
  - done.
  - unfold cert_wf. apply (bool_decide_unpack _). by vm_compute.
  - split; [done|]. intros d. unfold demo_supported. rewrite Hd. apply Hsc.
Qed.

Definition demo_commit : Bullshark.t * ConsensusState.t * Outcome * list CommittedSubDag.t :=
  match @commit_leader _ _ _ ConsensusError demo_bullshark 2 demo_supported with
  | Ok r => r
  | _ => (demo_bullshark, demo_state, LeaderNotFound, [])
  end.

Lemma commit_needs_support_witness :
  length demo_commit.2 = 1%nat /\
  exists leader, in_dag (ConsensusState.dag demo_supported) leader /\ Certificate.round leader = 2 /\ elected demo_bullshark leader /\
    Committee.reached_validity demo_committee
      (Committee.weight demo_committee (supporters (ConsensusState.dag demo_supported) leader)) = true /\
    Forall (fun d => elected demo_bullshark (CommittedSubDag.leader d) /\
      rtc (parent_of (ConsensusState.dag demo_supported)) leader (CommittedSubDag.leader d)) demo_commit.2 /\
    (demo_commit.1.2 = Commit -> CommittedSubDag.leader <$> last demo_commit.2 = Some leader).
Proof.
  split; [by vm_compute|].
  apply (commit_needs_support demo_bullshark demo_supported 2 demo_commit.1.1.1 demo_commit.1.1.2
    demo_commit.1.2 demo_commit.2).
  - apply demo_supported_inv.
  - done.
  - by vm_compute.
  - vm_compute. reflexivity.
  - by vm_compute.
Defined.

Lemma order_dag_correct_witness :
  exists l, @order_dag ConsensusError (demo_cert 1 2 (demo_digests demo_round1)) demo_supported = Ok l /\ NoDup l /\
    (forall y, y ∈ l <-> sub_dag demo_supported (demo_cert 1 2 (demo_digests demo_round1)) y) /\
    StronglySorted (fun x y => Certificate.round x <= Certificate.round y) l.
Proof. apply (order_dag_correct demo_committee); [apply demo_supported_inv|by vm_compute]. Defined.

Lemma linked_is_reachability_witness :
  linked (demo_cert 1 3 (demo_digests demo_round2)) (demo_cert 4 1 []) (ConsensusState.dag demo_supported) = true <->
  rtc (parent_of (ConsensusState.dag demo_supported)) (demo_cert 1 3 (demo_digests demo_round2)) (demo_cert 4 1 []).
Proof.
  apply (linked_is_reachability demo_committee).
  - apply (state_dag _ _ (proj1 (proj2 demo_supported_inv))).
  - unfold in_dag. vm_compute. reflexivity.
  - unfold in_dag. vm_compute. reflexivity.
Defined.

Lemma try_insert_preserves_witness :
  state_wf demo_committee (ConsensusState.try_insert demo_state (demo_cert 1 1 [])).1.
Proof.
  apply (try_insert_preserves demo_committee demo_state (demo_cert 1 1 [])
    (ConsensusState.try_insert demo_state (demo_cert 1 1 [])).1 true).
  - apply demo_protocol_inv.
  - split; [by vm_compute|]. apply (bool_decide_unpack _). by vm_compute.
  - vm_compute. reflexivity.
Defined.
End witnesses.

Section agreement_witness.
#[local] Existing Instances demo_keys full_crypto demo_choice full_collision_free full_binds_parents.

(** A DAG of two authorities and three rounds under a hash that binds the parents. *)
Definition pair_round1 : list Certificate.t := [demo_cert 1 1 []; demo_cert 2 1 []].
Definition pair_round2 : list Certificate.t :=
  (fun i => demo_cert i 2 (demo_digests pair_round1)) <$> [1; 2].
Definition pair_tip : Certificate.t := demo_cert 1 3 (demo_digests pair_round2).

Definition full_state : ConsensusState.t :=
  inserted demo_state (pair_round1 ++ pair_round2 ++ [pair_tip]).

Lemma full_state_wf : state_wf pair_committee full_state.
Proof.
  apply inserted_wf; [apply new_state_wf|]. unfold cert_wf. apply (bool_decide_unpack _). by vm_compute.
Qed.

Lemma full_state_quorate : quorate pair_committee (ConsensusState.dag full_state) 0.
Proof.
  intros x Hx Hr.
  assert (map_Forall (fun r row => map_Forall (fun a (dc : Digest * Certificate.t) =>
    1 < Certificate.round dc.2 ->
    Committee.reached_quorum pair_committee (Committee.weight pair_committee
      (parent_authors (ConsensusState.dag full_state) dc.2)) = true) row) (ConsensusState.dag full_state)) as Hall.
  { apply (bool_decide_unpack _). by vm_compute. }
  unfold in_dag, entry in Hx. destruct (ConsensusState.dag full_state !! Certificate.round x) as [row|] eqn:Hrow; [|done].
  simpl in Hx. apply (Hall _ _ Hrow _ _ Hx). simpl. lia.
Qed.

Lemma supported_leader_linked_witness :
  exists z, in_dag (ConsensusState.dag full_state) z /\
    Certificate.digest z = Certificate.digest (demo_cert 2 1 []) /\
    linked pair_tip z (ConsensusState.dag full_state) = true.
Proof.
  pose proof full_state_wf as Hwf.
  apply (supported_leader_linked pair_committee pair_committee_wf
    (ConsensusState.dag full_state) (ConsensusState.dag full_state) 0).
  - apply Hwf.
  - apply Hwf.
  - intros x y Hx Hy Hr Ho. by rewrite (in_dag_unique _ x y Hx Hy Hr Ho).
  - apply (state_closed _ _ Hwf).
  - apply full_state_quorate.
  - vm_compute. reflexivity.
  - vm_compute. reflexivity.
  - unfold in_dag. vm_compute. reflexivity.
  - vm_compute. discriminate.
Defined.
End agreement_witness.
