(* ===== verification/CertValidator.v ===== *)
(** Validating certificates before the certificate manager sees them.
    Models crates/consensus/primary/src/state_sync/cert_validator.rs, the processing of a
    response in crates/consensus/primary/src/certificate_fetcher.rs and the parameters of
    crates/config/src/network.rs.  The validator talks to the manager task through its
    channel; the exchange is one step of the task here.  Verification tasks only read
    shared state, so their results are taken in the order in which they are awaited. *)

From S2P Require Import Prelude Storage Committee Certificate CertStore PendingCerts Output ConsensusState.
From S2P Require Import LeaderSchedule Bullshark Demo CertificateSafety Aggregators CertManager.

Module SyncConfig.

(** Durations are in milliseconds. *)
Record t := mk {
  max_skip_rounds_for_missing_certs : N;
  max_db_read_time_for_fetching_certificates : N;
  max_diff_between_external_cert_round_and_highest_local_round : N;
  max_consenus_round_timeout : N;
  max_proposed_header_age_limit : Round;
  max_header_time_drift_tolerance : N;
  max_num_missing_certs_within_gc_round : N;
  certificate_verification_round_interval : Round;
  certificate_verification_chunk_size : N;
}.

Definition default_config : t := mk 1000 10000 1000 30000 3 1 50 50 50.

End SyncConfig.

(** The node's configuration, as far as the validators read it. *)
Module ConsensusConfig.
Record t := mk {
  committee : Committee.t;
  worker_cache : WorkerCache.t;
  genesis : gmap Digest Certificate.t;
  authority_id : AuthorityIdentifier;
  gc_depth : Round;
  sync_config : SyncConfig.t;
}.
End ConsensusConfig.
Import ConsensusConfig SyncConfig.

(** [slice.chunks(n)], which panics for [n = 0]. *)
Fixpoint chunks_loop {A} (fuel : nat) (n : nat) (l : list A) : list (list A) :=
  match fuel, l with
  | S fuel, _ :: _ => take n l :: chunks_loop fuel n (drop n l)
  | _, _ => []
  end.

Definition chunks {E A} (n : N) (l : list A) : outcome E (list (list A)) :=
  if n =? 0 then Panic else Ok (chunks_loop (length l) (N.to_nat n) l).

Module CertificateValidator.

(** The validator with the manager task behind its channel, and the batch
    synchronisations it has spawned. *)
Record t := mk {
  manager : CertificateManager.t;
  manager_running : bool;
  highest_received_round : Round;
  batch_syncs : list (Header.t * bool * Round);
}.

Definition set_manager (v : t) (m : CertificateManager.t) (running : bool) : t :=
  mk m running (highest_received_round v) (batch_syncs v).

Definition set_received (v : t) (r : Round) : t := mk (manager v) (manager_running v) r (batch_syncs v).

Definition spawn_sync (v : t) (header : Header.t) (is_certified : bool) (max_age : Round) : t :=
  mk (manager v) (manager_running v) (highest_received_round v) (batch_syncs v ++ [(header, is_certified, max_age)]).

(** [self.consensus_bus.parents().send(..)] *)
Definition send_parents (m : CertificateManager.t) (certs : list Certificate.t) (r : Round) : option CertificateManager.t :=
  let ps := CertificateManager.parents m in
  if CertificatesAggregatorManager.parents_open ps then
    Some (CertificateManager.set_parents m (CertificatesAggregatorManager.mk
      (CertificatesAggregatorManager.aggregators ps) (CertificatesAggregatorManager.parents ps ++ [(certs, r)]) true))
  else None.

Section validator.
Context `{NetworkKeys} `{Crypto} (config : ConsensusConfig.t).

Definition genesis_digests : gset Digest := dom (genesis config).

Definition validate_and_verify (gc_round : Round) (certificate : Certificate.t) : outcome CertManagerError Certificate.t :=
  if Certificate.round certificate <? gc_round then
    Err (CertManagerCertificate (TooOld (Certificate.digest certificate) (Certificate.round certificate) gc_round))
  else map_err CertManagerCertificate (Certificate.verify certificate (committee config) (worker_cache config)).

(** The loop of [forward_verified_certs]: a task per certificate to synchronise its
    batches, and an error for the first one that is too far ahead. *)
Fixpoint forward_loop (v : t) (highest_processed_round : Round) (certificates : list Certificate.t)
    : t * outcome CertManagerError unit :=
  match certificates with
  | [] => (v, Ok ())
  | cert :: rest =>
      let v := spawn_sync v (Certificate.header cert) true (gc_depth config - 1) in
      if highest_processed_round + max_diff_between_external_cert_round_and_highest_local_round (sync_config config)
         <? Certificate.round cert then
        if CertificateManager.certificate_fetcher_open (manager v) then
          (set_manager v (CertificateManager.send_fetcher (manager v) (Ancestors cert)) (manager_running v),
           Err (CertManagerCertificate (TooNew (Certificate.digest cert) (Certificate.round cert) highest_processed_round)))
        else (v, Err CertManagerTNSend)
      else forward_loop v highest_processed_round rest
  end.

(** The command to the manager task and its reply: the oneshot is dropped when the task
    ends, and the channel is closed from then on. *)
Definition send_to_manager (v : t) (certificates : list Certificate.t) : t * outcome CertManagerError unit :=
  if negb (manager_running v) then (v, Err CertManagerTNSend)
  else match CertificateManager.run_step (committee config) genesis_digests (manager v)
               (CertificateManager.ProcessVerifiedCertificates certificates) with
       | (m, CertificateManager.ProcessReply r, None) => (set_manager v m true, r)
       | (m, _, _) => (set_manager v m false, Err CertificateManagerOneshot)
       end.

Definition forward_verified_certs (v : t) (highest_round : Round) (certificates : list Certificate.t)
    : t * outcome CertManagerError unit :=
  let highest_received_round := N.max (highest_received_round v) highest_round in
  let v := set_received v highest_received_round in
  let minimal_round_for_parents := highest_received_round - 1 in
  match send_parents (manager v) [] minimal_round_for_parents with
  | None => (v, Err CertManagerTNSend)
  | Some m =>
      let v := set_manager v m (manager_running v) in
      match forward_loop v (CertificateManager.highest_processed_round (manager v)) certificates with
      | (v, Ok _) => send_to_manager v certificates
      | (v, r) => (v, r)
      end
  end.

Definition process_certificate (v : t) (certificate : Certificate.t) (external : bool) : t * outcome CertManagerError unit :=
  if CertificateStore.contains (CertificateManager.node_storage (manager v)) (Certificate.digest certificate) then (v, Ok ())
  else match (if external then validate_and_verify (CertificateManager.gc_round (manager v)) certificate else Ok certificate) with
       | Ok certificate => forward_verified_certs v (Certificate.round certificate) [certificate]
       | Err e => (v, Err e)
       | Panic => (v, Panic)
       | OutOfFuel => (v, OutOfFuel)
       end.

Definition process_own_certificate (v : t) (certificate : Certificate.t) := process_certificate v certificate false.
Definition process_peer_certificate (v : t) (certificate : Certificate.t) := process_certificate v certificate true.

(** ** Bulk verification *)

Definition requires_direct_verification (cert : Certificate.t) (all_parents : gset Digest) : outcome CertManagerError bool :=
  if negb (bool_decide (Certificate.digest cert ∈ all_parents)) then Ok true
  else if certificate_verification_round_interval (sync_config config) =? 0 then Panic
  else Ok (Certificate.round cert mod certificate_verification_round_interval (sync_config config) =? 0).

Definition mark_verified_indirectly (cert : Certificate.t) : outcome CertManagerError Certificate.t :=
  sig ← ok_or (Certificate.aggregated_signature cert) (CertManagerCertificate RecoverBlsAggregateSignatureBytes);
  Ok (Certificate.set_signature_verification_state cert (VerifiedIndirectly sig)).

(** The second loop of [classify_certificates_for_verification]: the updated slice, and
    the certificates for direct verification with their indices from [idx] on. *)
Fixpoint classify_loop (all_parents : gset Digest) (idx : nat) (certificates : list Certificate.t)
    : outcome CertManagerError (list Certificate.t * list (nat * Certificate.t)) :=
  match certificates with
  | [] => Ok ([], [])
  | cert :: rest =>
      direct ← requires_direct_verification cert all_parents;
      if direct : bool then
        res ← classify_loop all_parents (S idx) rest;
        Ok (cert :: res.1, (idx, cert) :: res.2)
      else
        cert ← mark_verified_indirectly cert;
        res ← classify_loop all_parents (S idx) rest;
        Ok (cert :: res.1, res.2)
  end.

Definition classify_certificates_for_verification (certificates : list Certificate.t)
    : outcome CertManagerError (list Certificate.t * list (nat * Certificate.t)) :=
  let all_parents := union_list (Certificate.parents <$> certificates) in
  classify_loop all_parents 0 certificates.

(** [spawn_verification_task] *)
Definition verification_task (gc_round : Round) (certs : list (nat * Certificate.t))
    : outcome CertManagerError (list (nat * Certificate.t)) :=
  foldM (fun acc ic => c ← validate_and_verify gc_round ic.2; Ok (acc ++ [(ic.1, c)])) [] certs.

Definition verify_certificate_chunk (gc_round : Round) (certs : list (nat * Certificate.t))
    : outcome CertManagerError (list (nat * Certificate.t)) :=
  tasks ← chunks (certificate_verification_chunk_size (sync_config config)) certs;
  foldM (fun acc chunk => group ← verification_task gc_round chunk; Ok (acc ++ group)) [] tasks.

Definition verify_collection (gc_round : Round) (certificates : list Certificate.t)
    : outcome CertManagerError (list Certificate.t) :=
  match certificates with
  | [] => Ok []
  | _ =>
      res ← classify_certificates_for_verification certificates;
      verified_certs ← verify_certificate_chunk gc_round res.2;
      Ok (foldl (fun certs ic => <[ic.1 := ic.2]> certs) res.1 verified_certs)
  end.

Definition process_fetched_certificates_in_parallel (v : t) (certificates : list Certificate.t)
    : t * outcome CertManagerError unit :=
  match verify_collection (CertificateManager.gc_round (manager v)) certificates with
  | Ok certificates =>
      let highest_round := foldr N.max 0 (Certificate.round <$> certificates) in
      forward_verified_certs v highest_round certificates
  | Err e => (v, Err e)
  | Panic => (v, Panic)
  | OutOfFuel => (v, OutOfFuel)
  end.

(** [process_certificates_helper] of the certificate fetcher. *)
Definition MAX_CERTIFICATES_TO_FETCH : N := 2000.

Definition validate_received_certificate (cert : Certificate.t) : outcome CertificateError Certificate.t :=
  sig ← ok_or (Certificate.aggregated_signature cert) RecoverBlsAggregateSignatureBytes;
  Ok (Certificate.set_signature_verification_state cert (Unverified sig)).

Definition process_certificates_helper (v : t) (response : list Certificate.t) : t * outcome CertManagerError unit :=
  let n := N.of_nat (length response) in
  if MAX_CERTIFICATES_TO_FETCH <? n then (v, Err (TooManyFetchedCertificatesReturned n MAX_CERTIFICATES_TO_FETCH))
  else match foldM (fun acc cert =>
                 c ← map_err CertManagerCertificate (validate_received_certificate cert); Ok (acc ++ [c])) [] response with
       | Ok certificates => process_fetched_certificates_in_parallel v certificates
       | Err e => (v, Err e)
       | Panic => (v, Panic)
       | OutOfFuel => (v, OutOfFuel)
       end.

End validator.
End CertificateValidator.

(** * Facts *)

Module ValidatorFacts.
Import CertificateValidator CertManagerFacts.

(** ** Lists *)

Lemma chunks_loop_concat {A} fuel n (l : list A) :
  (0 < n)%nat -> (length l <= fuel)%nat -> concat (chunks_loop fuel n l) = l.
Proof.
  intros Hn. revert l. induction fuel as [|fuel IH]; intros [|x l] Hf; simpl in *; [done|lia|done|].
  destruct n as [|n]; [lia|]. simpl. f_equal. rewrite IH by (rewrite length_drop; lia). apply take_drop.
Qed.

(** Writing results back by index. *)
Lemma foldl_insert_lookup {A} (ups : list (nat * A)) (l : list A) i x :
  NoDup ups.*1 -> (i < length l)%nat -> (i, x) ∈ ups ->
  foldl (fun l ic => <[ic.1 := ic.2]> l) l ups !! i = Some x.
Proof.
  revert l. induction ups as [|[j y] ups IH]; intros l Hnd Hi; [by intros ?%elem_of_nil|].
  cbn [foldl fmap list_fmap fst snd] in *. apply NoDup_cons in Hnd as [Hj Hnd].
  intros [[= -> ->]|Hin]%elem_of_cons; [|apply IH; [done|by rewrite length_insert|done]].
  assert (forall k : list A, k !! j = Some y -> foldl (fun l ic => <[ic.1 := ic.2]> l) k ups !! j = Some y) as Hkeep.
  { clear IH Hnd. induction ups as [|[j' y'] ups IH]; intros k Hk; [done|]. cbn [foldl fst snd fmap list_fmap] in *.
    apply IH; [set_solver|]. rewrite list_lookup_insert_ne; [done|]. intros ->. set_solver. }
  apply Hkeep. by apply list_lookup_insert_eq.
Qed.

Lemma foldl_insert_other {A} (ups : list (nat * A)) (l : list A) i :
  i ∉ ups.*1 -> foldl (fun l ic => <[ic.1 := ic.2]> l) l ups !! i = l !! i.
Proof.
  revert l. induction ups as [|[j y] ups IH]; intros l Hi; [done|]. cbn [foldl fmap list_fmap fst snd] in *.
  rewrite IH by set_solver. apply list_lookup_insert_ne. set_solver.
Qed.

Lemma foldl_insert_length {A} (ups : list (nat * A)) (l : list A) :
  length (foldl (fun l ic => <[ic.1 := ic.2]> l) l ups) = length l.
Proof. revert l. induction ups as [|[j y] ups IH]; intros l; [done|]. cbn [foldl]. by rewrite IH, length_insert. Qed.

Section facts.
Context `{NetworkKeys} `{Crypto} (config : ConsensusConfig.t).
Implicit Types (c x y : Certificate.t) (v : t).

(** ** What bulk verification does to each certificate *)

Definition verified_as gc (ic iv : nat * Certificate.t) : Prop :=
  iv.1 = ic.1 /\ validate_and_verify config gc ic.2 = Ok iv.2.

Lemma verification_task_spec gc (l acc vs : list (nat * Certificate.t)) :
  foldM (fun acc ic => c ← validate_and_verify config gc ic.2; Ok (acc ++ [(ic.1, c)])) acc l = Ok vs ->
  exists ws, vs = acc ++ ws /\ Forall2 (verified_as gc) l ws.
Proof.
  revert acc. induction l as [|[i c] l IH]; intros acc; cbn [foldM].
  { intros [= <-]. exists []. by rewrite app_nil_r. }
  intros (acc' & (c' & Hv & [= <-])%bind_Ok & Hf)%bind_Ok. apply IH in Hf as (ws & -> & Hws).
  exists ((i, c') :: ws). rewrite <-app_assoc. split; [done|]. by constructor.
Qed.

Lemma verify_chunks_spec gc tasks acc vs :
  foldM (fun acc chunk => group ← verification_task config gc chunk; Ok (acc ++ group)) acc tasks = Ok vs ->
  exists ws, vs = acc ++ ws /\
    Forall2 (verified_as gc) (concat tasks) ws.
Proof.
  revert acc. induction tasks as [|l tasks IH]; intros acc; cbn [foldM concat].
  { intros [= <-]. exists []. by rewrite app_nil_r. }
  intros (acc' & (g & Hv & [= <-])%bind_Ok & Hf)%bind_Ok. apply IH in Hf as (ws & -> & Hws).
  apply verification_task_spec in Hv as (gs & -> & Hgs). exists (gs ++ ws).
  split; [by rewrite <-app_assoc|by apply Forall2_app].
Qed.

Lemma verify_certificate_chunk_spec gc l vs :
  verify_certificate_chunk config gc l = Ok vs ->
  Forall2 (verified_as gc) l vs.
Proof.
  unfold verify_certificate_chunk, chunks. destruct (N.eqb_spec (SyncConfig.certificate_verification_chunk_size
    (ConsensusConfig.sync_config config)) 0); [done|]. cbn -[verification_task chunks_loop].
  intros (ws & -> & Hws)%verify_chunks_spec. rewrite chunks_loop_concat in Hws by lia. done.
Qed.

(** The class of each certificate, with its index. *)
Lemma classify_loop_spec parents idx l cs ds :
  classify_loop config parents idx l = Ok (cs, ds) ->
  length cs = length l /\ NoDup ds.*1 /\ (forall i, i ∈ ds.*1 -> (idx <= i)%nat) /\
  (forall i c, (i, c) ∈ ds -> exists j, i = (idx + j)%nat /\ l !! j = Some c) /\
  forall j c, l !! j = Some c ->
    (requires_direct_verification config c parents = Ok true /\ cs !! j = Some c /\ ((idx + j)%nat, c) ∈ ds) \/
    (requires_direct_verification config c parents = Ok false /\ (idx + j)%nat ∉ ds.*1 /\
     exists c', cs !! j = Some c' /\ mark_verified_indirectly c = Ok c').
Proof.
  revert idx cs ds. induction l as [|x l IH]; intros idx cs ds; cbn [classify_loop].
  { intros [= <- <-]. split_and!; [done|constructor|by intros i ?%elem_of_nil|by intros i c ?%elem_of_nil|done]. }
  intros ([|] & Hd & Hrest)%bind_Ok.
  - apply bind_Ok in Hrest as ([cs1 ds1] & Hl & [= <- <-]). cbn [fst snd] in *.
    destruct (IH _ _ _ Hl) as (Hlen & Hnd & Hge & Hds & Hall). split_and!.
    + simpl. by rewrite Hlen.
    + cbn [fmap list_fmap fst]. apply NoDup_cons. split; [|done]. intros Hin%Hge. lia.
    + cbn [fmap list_fmap fst]. intros i [->|Hin%Hge]%elem_of_cons; lia.
    + intros i c [[= -> ->]|Hin]%elem_of_cons; [exists 0%nat; split; [lia|done]|].
      destruct (Hds i c Hin) as (j & -> & Hj). exists (S j). split; [lia|done].
    + intros [|j] c Hj; simpl in Hj.
      * injection Hj as ->. left. split_and!; [done|done|]. rewrite Nat.add_0_r. apply elem_of_cons. by left.
      * replace (idx + S j)%nat with (S idx + j)%nat by lia. cbn [fmap list_fmap fst].
        destruct (Hall j c Hj) as [(? & ? & ?)|(? & ? & ?)]; [left|right].
        -- split_and!; [done|done|]. apply elem_of_cons. by right.
        -- split_and!; [done| |done]. intros [?|?]%elem_of_cons; [lia|done].
  - apply bind_Ok in Hrest as (x' & Hm & Hrest). apply bind_Ok in Hrest as ([cs1 ds1] & Hl & [= <- <-]). cbn [fst snd] in *.
    destruct (IH _ _ _ Hl) as (Hlen & Hnd & Hge & Hds & Hall). split_and!.
    + simpl. by rewrite Hlen.
    + done.
    + intros i Hin%Hge. lia.
    + intros i c Hin. destruct (Hds i c Hin) as (j & -> & Hj). exists (S j). split; [lia|done].
    + intros [|j] c Hj; simpl in Hj.
      * injection Hj as ->. right. split_and!; [done| |by exists x']. rewrite Nat.add_0_r. intros Hin%Hge. lia.
      * replace (idx + S j)%nat with (S idx + j)%nat by lia. by apply Hall.
Qed.

(** A certificate of the result is the one at its index, verified directly or marked. *)
Lemma verify_collection_spec gc l out i c :
  verify_collection config gc l = Ok out -> l !! i = Some c ->
  exists c', out !! i = Some c' /\
    ((requires_direct_verification config c (union_list (Certificate.parents <$> l)) = Ok true /\
      validate_and_verify config gc c = Ok c') \/
     (requires_direct_verification config c (union_list (Certificate.parents <$> l)) = Ok false /\
      mark_verified_indirectly c = Ok c')).
Proof.
  unfold verify_collection. destruct l as [|x l]; [done|]. set (k := x :: l).
  intros ([cs ds] & Hcl & (vs & Hvs & [= <-])%bind_Ok)%bind_Ok Hi. cbn [fst snd] in *.
  apply classify_loop_spec in Hcl as (Hlen & Hnd & _ & Hds & Hall). apply verify_certificate_chunk_spec in Hvs.
  assert (vs.*1 = ds.*1) as Hfst.
  { clear -Hvs. induction Hvs as [|ic iv ? ? [Heq _] _ IH]; [done|]. rewrite !fmap_cons. by f_equal. }
  assert (i < length cs)%nat by (rewrite Hlen; by eapply lookup_lt_Some).
  destruct (Hall i c Hi) as [(Hd & Hcs & Hin)|(Hd & Hn & c' & Hcs & Hm)]; rewrite Nat.add_0_l in *.
  - apply list_elem_of_lookup in Hin as [n Hn]. destruct (Forall2_lookup_l _ _ _ _ _ Hvs Hn) as ([i' c'] & Hn' & Heq & Hv).
    simpl in Heq, Hv. subst i'. exists c'. split; [|by left]. apply foldl_insert_lookup; [by rewrite Hfst|done|].
    by eapply list_elem_of_lookup_2.
  - exists c'. split; [|by right]. rewrite foldl_insert_other by (by rewrite Hfst). done.
Qed.

Lemma verify_collection_length gc l out : verify_collection config gc l = Ok out -> length out = length l.
Proof.
  unfold verify_collection. destruct l as [|x l]; [by intros [= <-]|].
  intros ([cs ds] & Hcl & (vs & Hvs & [= <-])%bind_Ok)%bind_Ok. rewrite foldl_insert_length.
  by apply classify_loop_spec in Hcl as [? _].
Qed.

(** ** Trust *)

(** Signed by a quorum, or a parent of one that is trusted. *)
Inductive trusted (committee : Committee.t) : Certificate.t -> Prop :=
  | trusted_certified c : certified committee c -> trusted committee c
  | trusted_parent c d : trusted committee d -> Certificate.digest c ∈ Certificate.parents d -> trusted committee c.

Definition trusted_if_verified (committee : Committee.t) c : Prop :=
  Certificate.is_verified c = true -> trusted committee c.

Definition unverified c : Prop := exists sig, Certificate.signature_verification_state c = Unverified sig.

Lemma validate_and_verify_trusted gc c c' :
  Committee.wf (ConsensusConfig.committee config) -> unverified c -> validate_and_verify config gc c = Ok c' ->
  Certificate.header c' = Certificate.header c /\
  (certified (ConsensusConfig.committee config) c' \/
   (c' = c /\ exists g, g ∈ Certificate.genesis (ConsensusConfig.committee config) /\ Certificate.eqb c g = true)).
Proof.
  intros Hwf [sig Hst]. unfold validate_and_verify. destruct (_ <? _); [done|].
  destruct (Certificate.verify _ _ _) as [c1| | |] eqn:Hv; try done. intros [= ->].
  apply (verify_inv c _ _ _ sig) in Hv as [_ [(-> & _ & Hg)|(_ & _ & Hq & Hb & ->)]]; [split; [done|by right]| |done|done].
  split; [done|]. left. exists sig. done.
Qed.

(** A header decoded from the wire: its digest cell is empty or right. *)
Definition decoded c : Prop := HeaderOps.hash_digest (Certificate.header c) = Certificate.digest c.

Lemma genesis_no_parents `{!BindsParents} committee c g d :
  decoded c -> g ∈ Certificate.genesis committee -> Certificate.eqb c g = true -> d ∉ Certificate.parents c.
Proof.
  intros Hd (a & -> & _)%list_elem_of_fmap He. unfold Certificate.eqb in He. rewrite !andb_true_iff in He.
  destruct He as [[[He _] _] _]. apply N.eqb_eq in He. unfold decoded, Certificate.digest in Hd. rewrite <-Hd in He.
  apply header_hash_parents in He. unfold Certificate.parents. simpl in He. set_solver.
Qed.

Lemma requires_direct_false c l :
  requires_direct_verification config c (union_list (Certificate.parents <$> l)) = Ok false ->
  exists x, x ∈ l /\ Certificate.digest c ∈ Certificate.parents x.
Proof.
  unfold requires_direct_verification. case_bool_decide as Hin; [|done]. intros _.
  apply elem_of_union_list in Hin as (X & (x & -> & Hx)%list_elem_of_fmap & Hd). by exists x.
Qed.

Lemma mark_header c c' : mark_verified_indirectly c = Ok c' -> Certificate.header c' = Certificate.header c.
Proof. unfold mark_verified_indirectly. by intros (sig & _ & [= <-])%bind_Ok. Qed.

(** A certificate of the result is signed by a quorum, is referenced in the batch, or is a
    genesis certificate, which is left unverified and references nothing. *)
Lemma verify_collection_case `{!BindsParents} gc l out i c c' :
  Committee.wf (ConsensusConfig.committee config) -> Forall unverified l -> Forall decoded l ->
  verify_collection config gc l = Ok out -> l !! i = Some c -> out !! i = Some c' ->
  Certificate.header c' = Certificate.header c /\
  (certified (ConsensusConfig.committee config) c' \/
   (Certificate.is_verified c' = false /\ Certificate.parents c = ∅) \/
   exists x, x ∈ l /\ Certificate.digest c ∈ Certificate.parents x).
Proof.
  intros Hwf Hun Hdec Hv Hi Hout. rewrite Forall_forall in Hun, Hdec.
  assert (c ∈ l) as Hc by (by eapply list_elem_of_lookup_2).
  destruct (verify_collection_spec gc l out i c Hv Hi) as (c1 & Hc1 & Hcase). rewrite Hout in Hc1. injection Hc1 as <-.
  destruct Hcase as [[_ Hd]|[Hp Hm]].
  - destruct (validate_and_verify_trusted gc c c' Hwf (Hun c Hc) Hd) as [Hh [Hcert|(-> & g & Hg & He)]]; (split; [done|]); [by left|].
    right; left. destruct (Hun c Hc) as [sig Hs]. unfold Certificate.is_verified. rewrite Hs. split; [done|].
    apply set_eq. intros d. pose proof (genesis_no_parents _ c g d (Hdec c Hc) Hg He). set_solver.
  - split; [by apply mark_header|]. right; right. by apply requires_direct_false.
Qed.

(** Every certificate of a verified batch that counts as verified is trusted; [rank]
    witnesses that the references of the batch have no cycle. *)
Lemma verify_collection_trusted `{!BindsParents} gc l out (rank : Digest -> nat) :
  Committee.wf (ConsensusConfig.committee config) -> Forall unverified l -> Forall decoded l ->
  (forall x y, x ∈ l -> y ∈ l -> Certificate.digest y ∈ Certificate.parents x ->
     (rank (Certificate.digest y) < rank (Certificate.digest x))%nat) ->
  verify_collection config gc l = Ok out -> Forall (trusted_if_verified (ConsensusConfig.committee config)) out.
Proof.
  intros Hwf Hun Hdec Hrank Hv. set (top := max_list (rank <$> (Certificate.digest <$> l))).
  assert (forall c, c ∈ l -> rank (Certificate.digest c) <= top)%nat as Htop.
  { intros c Hc. apply max_list_elem_of_le. by do 2 apply list_elem_of_fmap_2. }
  assert (Hlook : forall i, is_Some (l !! i) <-> is_Some (out !! i)).
  { intros i. by rewrite !lookup_lt_is_Some, (verify_collection_length gc l out Hv). }
  assert (forall n i c c', (top - rank (Certificate.digest c) <= n)%nat -> l !! i = Some c -> out !! i = Some c' ->
    Certificate.is_verified c' = true \/ Certificate.parents c <> ∅ ->
    trusted (ConsensusConfig.committee config) c') as Hind.
  { induction n as [|n IH]; intros i c c' Hn Hi Hout Hver;
      destruct (verify_collection_case gc l out i c c' Hwf Hun Hdec Hv Hi Hout) as [Hh [Hcert|[[Hf He]|(x & Hx & Hpar)]]];
      [by constructor|naive_solver congruence| |by constructor|naive_solver congruence|];
      assert (c ∈ l) as Hc by (by eapply list_elem_of_lookup_2);
      pose proof (Hrank x c Hx Hc Hpar) as Hlt; pose proof (Htop x Hx) as Hle; [lia|].
    apply list_elem_of_lookup in Hx as [j Hj]. destruct (proj1 (Hlook j)) as [x' Hx']; [by eauto|].
    destruct (verify_collection_case gc l out j x x' Hwf Hun Hdec Hv Hj Hx') as [Hhx _].
    apply (trusted_parent _ c' x').
    - apply (IH j x x'); [lia|done|done|right; set_solver].
    - unfold Certificate.digest, Certificate.parents. by rewrite Hh, Hhx. }
  apply Forall_forall. intros c' Hin Hver. apply list_elem_of_lookup in Hin as [i Hi].
  destruct (proj2 (Hlook i)) as [c Hc]; [by eauto|]. apply (Hind _ i c c' (le_n _) Hc Hi). by left.
Qed.

(** ** Totality *)

Lemma validate_returns h committee worker_cache : returns (HeaderOps.validate h committee worker_cache).
Proof.
  unfold HeaderOps.validate, WorkerCache.worker. repeat (apply returns_bind; [auto with returns|intros ? _]).
  apply returns_foldM. intros. auto 8 with returns.
Qed.

Lemma verify_returns c committee worker_cache : returns (Certificate.verify c committee worker_cache).
Proof.
  unfold Certificate.verify. apply returns_bind; [auto with returns|intros ? _]. destruct (_ && _); [auto with returns|].
  apply returns_bind; [apply returns_map_err, validate_returns|intros ? _].
  destruct (Certificate.signed_by c committee) as [w pks]. apply returns_bind; [auto with returns|intros ? _].
  unfold Certificate.verify_signature. destruct (Certificate.signature_verification_state c); auto with returns.
  destruct (bls_verify_secure _ _ _); auto with returns.
Qed.

Lemma validate_and_verify_returns gc c : returns (validate_and_verify config gc c).
Proof. unfold validate_and_verify. destruct (_ <? _); auto using verify_returns with returns. Qed.

(** ** Received certificates *)

Definition received c c' : Prop := validate_received_certificate c = Ok c'.

Lemma validate_all_spec l acc :
  (exists l', Forall2 received l l' /\
    foldM (fun acc cert => c ← map_err CertManagerCertificate (validate_received_certificate cert); Ok (acc ++ [c])) acc l =
      Ok (acc ++ l')) \/
  exists e, foldM (fun acc cert => c ← map_err CertManagerCertificate (validate_received_certificate cert); Ok (acc ++ [c])) acc l =
    Err e.
Proof.
  revert acc. induction l as [|c l IH]; intros acc; cbn [foldM].
  { left. exists []. by rewrite app_nil_r. }
  unfold validate_received_certificate at 2 4. destruct (Certificate.aggregated_signature c) as [sig|] eqn:Hs; [|right; by eexists].
  cbn -[foldM]. set (c' := Certificate.set_signature_verification_state c (Unverified sig)).
  destruct (IH (acc ++ [c'])) as [(l' & Hl & Heq)|(e & Heq)]; rewrite Heq; [left|right; by eexists].
  exists (c' :: l'). split; [|by rewrite <-app_assoc]. constructor; [|done].
  unfold received, validate_received_certificate. by rewrite Hs.
Qed.

Lemma received_header c c' : received c c' -> Certificate.header c' = Certificate.header c /\ unverified c'.
Proof.
  unfold received, validate_received_certificate. intros (sig & _ & [= <-])%bind_Ok. split; [done|by exists sig].
Qed.

Lemma received_elem l l' c' : Forall2 received l l' -> c' ∈ l' -> exists c, c ∈ l /\ received c c'.
Proof.
  intros Hl (i & Hi)%list_elem_of_lookup. destruct (Forall2_lookup_r _ _ _ _ _ Hl Hi) as (c & Hc & Hr).
  exists c. split; [by eapply list_elem_of_lookup_2|done].
Qed.

Lemma received_unverified l l' : Forall2 received l l' -> Forall unverified l'.
Proof. intros Hl. apply Forall_forall. intros c' Hc'. destruct (received_elem l l' c' Hl Hc') as (c & _ & Hr). by apply received_header in Hr as [_ ?]. Qed.

Lemma received_decoded l l' : Forall2 received l l' -> Forall decoded l -> Forall decoded l'.
Proof.
  intros Hl Hd. rewrite Forall_forall in Hd. apply Forall_forall. intros c' Hc'.
  destruct (received_elem l l' c' Hl Hc') as (c & Hc & [Hh _]%received_header).
  specialize (Hd c Hc). unfold decoded, Certificate.digest in *. by rewrite Hh.
Qed.

Lemma received_rank l l' (rank : Digest -> nat) :
  Forall2 received l l' ->
  (forall x y, x ∈ l -> y ∈ l -> Certificate.digest y ∈ Certificate.parents x ->
     (rank (Certificate.digest y) < rank (Certificate.digest x))%nat) ->
  forall x y, x ∈ l' -> y ∈ l' -> Certificate.digest y ∈ Certificate.parents x ->
     (rank (Certificate.digest y) < rank (Certificate.digest x))%nat.
Proof.
  intros Hl Hrank x' y' Hx' Hy'. destruct (received_elem l l' x' Hl Hx') as (x & Hx & [Hhx _]%received_header).
  destruct (received_elem l l' y' Hl Hy') as (y & Hy & [Hhy _]%received_header).
  specialize (Hrank x y Hx Hy). unfold Certificate.digest, Certificate.parents in *. by rewrite Hhx, Hhy.
Qed.

Section returns.
Context (Hint : SyncConfig.certificate_verification_round_interval (ConsensusConfig.sync_config config) <> 0).
Context (Hch : SyncConfig.certificate_verification_chunk_size (ConsensusConfig.sync_config config) <> 0).

Lemma classify_returns parents idx l : returns (classify_loop config parents idx l).
Proof.
  revert idx. induction l as [|c l IH]; intros idx; cbn [classify_loop]; [auto with returns|].
  apply returns_bind.
  - unfold requires_direct_verification. case_bool_decide; simpl; [|auto with returns].
    destruct (N.eqb_spec (SyncConfig.certificate_verification_round_interval (ConsensusConfig.sync_config config)) 0); [done|auto with returns].
  - intros [|] _; [auto with returns|]. apply returns_bind; [unfold mark_verified_indirectly|]; auto with returns.
Qed.

Lemma verify_collection_returns gc l : returns (verify_collection config gc l).
Proof.
  unfold verify_collection. destruct l as [|x l]; [auto with returns|].
  apply returns_bind; [apply classify_returns|]. intros res _. apply returns_bind; [|auto with returns].
  unfold verify_certificate_chunk, chunks.
  destruct (N.eqb_spec (SyncConfig.certificate_verification_chunk_size (ConsensusConfig.sync_config config)) 0); [done|].
  apply returns_bind; [auto with returns|]. intros tasks _. apply returns_foldM. intros acc k _.
  apply returns_bind; [|auto with returns]. apply returns_foldM. intros acc' ic _.
  apply returns_bind; [apply validate_and_verify_returns|auto with returns].
Qed.

End returns.

(** ** Forwarding to the manager *)

Context (U : Certificate.t -> Prop) (stored : gset Digest).

(** While the manager task runs its invariant holds and its receivers are alive; the
    thread of the database may be gone. *)
Definition alive v : Prop :=
  manager_running v = true -> manager_inv U stored (manager v) /\ (channels (manager v)).1 = (true, true, true).

(** The call kept the task alive and returned. *)
Definition kept v v' (r : outcome CertManagerError unit) : Prop :=
  alive v' /\ manager_running v' = manager_running v /\ returns r.

Lemma forward_loop_kept v hp l v' r : alive v -> forward_loop config v hp l = (v', r) -> kept v v' r.
Proof.
  revert v. induction l as [|c l IH]; intros v Ha; cbn [forward_loop]; [by intros [= <- <-]; split_and!; [..|split]|].
  destruct (_ <? _).
  - destruct (CertificateManager.certificate_fetcher_open _) eqn:Ho; intros [= <- <-]; (split_and!; [|done|by split]); [|done].
    intros Hr. destruct (Ha Hr) as [Hm Hc]. split; [|done]. by apply fetch_inv.
  - intros Hf. apply IH in Hf; [|done]. done.
Qed.

Lemma send_to_manager_kept v l v' r :
  alive v -> Forall U l -> send_to_manager config v l = (v', r) -> kept v v' r.
Proof.
  intros Ha HU. unfold send_to_manager. destruct (manager_running v) eqn:Hrun; cbn [negb].
  2: { intros [= <- <-]. split_and!; [done|congruence|by split]. }
  destruct (Ha Hrun) as [Hm Hc]. cbn [CertificateManager.run_step].
  destruct (CertificateManager.process_verified_certificates _ _ _ _) as [m1 r1] eqn:Hp.
  apply (process_loop_inv _ _ U stored) in Hp as [[[-> Hx]|[-> Hx]]|(Hr & Hm1 & _ & Hc1)];
    [by rewrite Hc in Hx|by rewrite Hc in Hx| |done|done|by left].
  assert (forall o, r1 = o -> returns o -> kept v (set_manager v m1 true) o) as Hk.
  { intros o <- ?. split_and!; [|by rewrite Hrun|done]. intros _. split; [done|]. cbn [manager set_manager]. by rewrite Hc1. }
  destruct Hr as [-> |[[d ->]|[[d ->]|[[-> _]|[-> _]]]]]; intros [= <- <-]; apply Hk; by try split.
Qed.

Lemma forward_verified_kept v h l v' r :
  alive v -> Forall U l -> forward_verified_certs config v h l = (v', r) -> kept v v' r.
Proof.
  intros Ha HU. unfold forward_verified_certs, send_parents. cbn [manager set_received].
  destruct (CertificatesAggregatorManager.parents_open _) eqn:Ho; [|by intros [= <- <-]; split_and!; [..|split]].
  match goal with |- context [forward_loop config ?w] => set (v1 := w) end.
  assert (alive v1) as Ha1.
  { intros Hr. destruct (Ha Hr) as [Hm Hc]. split; [by destruct Hm|].
    unfold channels in Hc |- *. simpl in Hc |- *. injection Hc as _ -> ->. done. }
  destruct (forward_loop config v1 _ l) as [v2 r2] eqn:Hf. apply forward_loop_kept in Hf as (Ha2 & Hr2 & [Hp2 Ho2]); [|done].
  destruct r2 as [u|e| |]; [|by intros [= <- <-]|done..].
  intros Hs. apply send_to_manager_kept in Hs as (Ha' & Hr' & ?); [|done|done]. split_and!; [done|by rewrite Hr', Hr2|done].
Qed.

End facts.
End ValidatorFacts.

(** * Properties *)

Section properties.
Import CertificateValidator CertManagerFacts ValidatorFacts.
Context `{NetworkKeys} `{Crypto} (config : ConsensusConfig.t).

(** A certificate received from a peer is forwarded only with the signatures of a
    quorum: whatever the call returns, it returns, the manager task keeps running, and
    every certificate it forwards to the consensus is trusted and in causal order. *)
Theorem peer_certificates_certified stored v c sig v' r :
  Committee.wf (ConsensusConfig.committee config) ->
  Certificate.signature_verification_state c = Unverified sig ->
  alive (trusted_if_verified (ConsensusConfig.committee config)) stored v ->
  process_peer_certificate config v c = (v', r) ->
  kept (trusted_if_verified (ConsensusConfig.committee config)) stored v v' r /\
  (manager_running v = true -> forall x, x ∈ CertificateManager.new_certificates (manager v') ->
     trusted (ConsensusConfig.committee config) x).
Proof.
  intros Hwf Hs Ha Hp. set (U := trusted_if_verified (ConsensusConfig.committee config)) in *.
  enough (kept U stored v v' r) as Hk.
  { split; [done|]. intros Hrun x Hx. destruct Hk as (Ha' & Hr' & _). rewrite Hrun in Hr'. destruct (Ha' Hr') as [Hm _].
    destruct (mi_verified _ _ _ Hm x Hx) as [HU Hv]. by apply HU. }
  unfold process_peer_certificate, process_certificate in Hp. destruct (CertificateStore.contains _ _); [by injection Hp as <- <-; split_and!; [..|split]|].
  destruct (validate_and_verify _ _ _) as [c'| | |] eqn:Hv; [|by injection Hp as <- <-; split_and!; [..|split]| |].
  - apply (forward_verified_kept config U stored) in Hp; [done|done|]. constructor; [|constructor]. intros Hver.
    destruct (validate_and_verify_trusted config _ c c' Hwf (ex_intro _ sig Hs) Hv) as [_ [?|(-> & _)]]; [by constructor|].
    unfold Certificate.is_verified in Hver. by rewrite Hs in Hver.
  - by destruct (validate_and_verify_returns config (CertificateManager.gc_round (manager v)) c) as [? ?].
  - by destruct (validate_and_verify_returns config (CertificateManager.gc_round (manager v)) c) as [? ?].
Qed.

(** C25: bulk verification of fetched certificates is sound: of a batch whose references
    have no cycle, only certificates that a quorum signed, or that are reached from one by
    references, are forwarded to the consensus, although only the leaves and the periodic
    rounds have their signatures checked; the call returns and the manager keeps running. *)
Theorem fetched_certificates_trusted `{!BindsParents} stored v response v' r (rank : Digest -> nat) :
  Committee.wf (ConsensusConfig.committee config) ->
  SyncConfig.certificate_verification_round_interval (ConsensusConfig.sync_config config) <> 0 ->
  SyncConfig.certificate_verification_chunk_size (ConsensusConfig.sync_config config) <> 0 ->
  Forall decoded response ->
  (forall x y, x ∈ response -> y ∈ response -> Certificate.digest y ∈ Certificate.parents x ->
     (rank (Certificate.digest y) < rank (Certificate.digest x))%nat) ->
  alive (trusted_if_verified (ConsensusConfig.committee config)) stored v ->
  process_certificates_helper config v response = (v', r) ->
  kept (trusted_if_verified (ConsensusConfig.committee config)) stored v v' r /\
  (manager_running v = true -> forall x, x ∈ CertificateManager.new_certificates (manager v') ->
     trusted (ConsensusConfig.committee config) x).
Proof.
  intros Hwf Hint Hch Hdec Hrank Ha Hp. set (U := trusted_if_verified (ConsensusConfig.committee config)) in *.
  enough (kept U stored v v' r) as Hk.
  { split; [done|]. intros Hrun x Hx. destruct Hk as (Ha' & Hr' & _). rewrite Hrun in Hr'. destruct (Ha' Hr') as [Hm _].
    destruct (mi_verified _ _ _ Hm x Hx) as [HU Hv]. by apply HU. }
  unfold process_certificates_helper in Hp. destruct (_ <? _); [by injection Hp as <- <-; split_and!; [..|split]|].
  destruct (validate_all_spec response []) as [(l & Hl & Heq)|(e & Heq)]; rewrite Heq in Hp; [|by injection Hp as <- <-; split_and!; [..|split]].
  unfold process_fetched_certificates_in_parallel in Hp.
  destruct (verify_collection config _ _) as [out| | |] eqn:Hv; [|by injection Hp as <- <-; split_and!; [..|split]| |].
  - apply (forward_verified_kept config U stored) in Hp; [done|done|].
    apply (verify_collection_trusted config (CertificateManager.gc_round (manager v)) l out rank Hwf (received_unverified _ _ Hl) (received_decoded _ _ Hl Hdec)); [|done].
    by apply (received_rank _ _ rank Hl).
  - by destruct (verify_collection_returns config Hint Hch (CertificateManager.gc_round (manager v)) l) as [? ?].
  - by destruct (verify_collection_returns config Hint Hch (CertificateManager.gc_round (manager v)) l) as [? ?].
Qed.

End properties.

(** * Witnesses *)

Section witnesses.
Import CertificateValidator CertManagerFacts ValidatorFacts.
#[local] Existing Instances demo_keys full_crypto full_binds_parents.

Definition demo_config : ConsensusConfig.t :=
  ConsensusConfig.mk demo_committee (WorkerCache.mk 0 ∅) ∅ 1 50 SyncConfig.default_config.

Definition demo_validator : t := mk (CertificateManager.new CertificateStore.empty 0 0) true 0 [].

Lemma demo_validator_alive : alive (trusted_if_verified demo_committee) ∅ demo_validator.
Proof. intros _. split; [by apply new_manager_inv|done]. Qed.

Definition demo_gossip : Certificate.t :=
  Certificate.set_signature_verification_state (demo_cert 1 1 []) (Unverified (Certificate.digest (demo_cert 1 1 []))).

Definition demo_peer : t * outcome CertManagerError unit := process_peer_certificate demo_config demo_validator demo_gossip.

Lemma peer_certificates_certified_witness :
  demo_peer.2 = Ok () /\ length (CertificateManager.new_certificates (manager demo_peer.1)) = 1%nat /\
  kept (trusted_if_verified demo_committee) ∅ demo_validator demo_peer.1 demo_peer.2 /\
  (manager_running demo_validator = true -> forall x, x ∈ CertificateManager.new_certificates (manager demo_peer.1) ->
     trusted demo_committee x).
Proof.
  split; [by vm_compute|]. split; [by vm_compute|].
  apply (peer_certificates_certified demo_config ∅ demo_validator demo_gossip (Certificate.digest (demo_cert 1 1 []))
    demo_peer.1 demo_peer.2).
  - apply demo_committee_wf.
  - done.
  - apply demo_validator_alive.
  - apply surjective_pairing.
Defined.

(** The leaves are the second round; the first one is trusted through it. *)
Definition demo_response : list Certificate.t := demo_round1 ++ demo_round2.

Definition demo_fetched : t * outcome CertManagerError unit := process_certificates_helper demo_config demo_validator demo_response.

Definition demo_rank (d : Digest) : nat :=
  if bool_decide (d ∈ demo_digests demo_round1) then 0%nat else 1%nat.

Lemma fetched_certificates_trusted_witness :
  demo_fetched.2 = Ok () /\ length (CertificateManager.new_certificates (manager demo_fetched.1)) = 8%nat /\
  kept (trusted_if_verified demo_committee) ∅ demo_validator demo_fetched.1 demo_fetched.2 /\
  (manager_running demo_validator = true -> forall x, x ∈ CertificateManager.new_certificates (manager demo_fetched.1) ->
     trusted demo_committee x).
Proof.
  split; [by vm_compute|]. split; [by vm_compute|].
  apply (fetched_certificates_trusted demo_config ∅ demo_validator demo_response demo_fetched.1 demo_fetched.2 demo_rank).
  - apply demo_committee_wf.
  - done.
  - done.
  - unfold decoded. apply (bool_decide_unpack _). by vm_compute.
  - assert (Forall (fun x => Forall (fun y => Certificate.digest y ∈ Certificate.parents x ->
      (demo_rank (Certificate.digest y) < demo_rank (Certificate.digest x))%nat) demo_response) demo_response) as Hf.
    { apply (bool_decide_unpack _). by vm_compute. }
    intros x y Hx Hy. rewrite Forall_forall in Hf. specialize (Hf x Hx). rewrite Forall_forall in Hf. by apply Hf.
  - apply demo_validator_alive.
  - apply surjective_pairing.
Defined.

End witnesses.
