(* ===== verification/CommitOrder.v ===== *)
(** The order of the committed sequence: leaders and timestamps advance from commit to
    commit, a sub-dag ends with its leader, and a certificate never precedes one it
    references, over whole runs of the protocol. *)

From S2P Require Import Prelude Committee Certificate Output ConsensusState OrderDag LeaderSchedule Bullshark.
From S2P Require Import BullsharkFacts Demo BullsharkSafety.
Import DagFacts ScheduleFacts Bullshark CertificateFacts.

(** * Definitions *)

Section definitions.
Context `{NetworkKeys} `{Crypto}.

(** The timestamp of the last commit. *)
Definition last_timestamp (s : ConsensusState.t) : TimestampSec :=
  from_option CommittedSubDag.commit_timestamp_field 0 (ConsensusState.last_committed_sub_dag s).

(** The leaders and timestamps of a list of sub-dags advance from [s] to [s']. *)
Record advances (s : ConsensusState.t) (ds : list CommittedSubDag.t) (s' : ConsensusState.t) : Prop := {
  adv_round : ConsensusState.committed_round s <= ConsensusState.committed_round s';
  adv_time : last_timestamp s <= last_timestamp s';
  adv_between d : d ∈ ds ->
    ConsensusState.committed_round s < CommittedSubDag.leader_round d <= ConsensusState.committed_round s' /\
    last_timestamp s <= CommittedSubDag.commit_timestamp_field d <= last_timestamp s';
  adv_sorted : StronglySorted (fun d d' =>
    CommittedSubDag.leader_round d < CommittedSubDag.leader_round d' /\
    CommittedSubDag.commit_timestamp_field d <= CommittedSubDag.commit_timestamp_field d') ds;
  adv_leader d : d ∈ ds -> CommittedSubDag.leader_round d mod 2 = 0 /\
    last (CommittedSubDag.certificates d) = Some (CommittedSubDag.leader d) /\
    Header.created_at (Certificate.header (CommittedSubDag.leader d)) <= CommittedSubDag.commit_timestamp_field d;
}.

(** No certificate of the sequence precedes one it references. *)
Definition causal (l : list Certificate.t) : Prop :=
  forall i j y p, l !! i = Some y -> l !! j = Some p -> Certificate.digest p ∈ Certificate.parents y -> (j < i)%nat.

(** A certificate that can no longer be committed. *)
Definition settled (s : ConsensusState.t) (p : Certificate.t) : Prop :=
  ~ fresh s p \/ Certificate.round p <= ConsensusState.gc_round s.

End definitions.

(** * Advancing leaders *)

Section advancing.
Context `{NetworkKeys} `{Crypto}.
Implicit Types (s : ConsensusState.t).

Lemma advances_nil s : advances s [] s.
Proof. constructor; [done|done|by intros d ?%elem_of_nil|constructor|by intros d ?%elem_of_nil]. Qed.

Lemma advances_trans s ds s1 s1' ds' s2 :
  advances s ds s1 -> ConsensusState.committed_round s1' = ConsensusState.committed_round s1 ->
  last_timestamp s1' = last_timestamp s1 -> advances s1' ds' s2 -> advances s (ds ++ ds') s2.
Proof.
  intros [Hr Ht Hb Hs Hl] Hcr Hct [Hr2 Ht2 Hb2 Hs2 Hl2]. rewrite Hcr, Hct in *.
  constructor; [lia|lia| | |].
  - intros d [Hd%Hb|Hd%Hb2]%elem_of_app; lia.
  - apply StronglySorted_app_2; [done..|]. intros d d' Hd%Hb Hd'%Hb2. lia.
  - intros d [Hd|Hd]%elem_of_app; auto.
Qed.

(** The last certificate of a sorted list is its only greatest one. *)
Lemma last_greatest (l : list Certificate.t) x :
  StronglySorted (fun x y => Certificate.round x <= Certificate.round y) l -> x ∈ l ->
  (forall y, y ∈ l -> y = x \/ Certificate.round y < Certificate.round x) -> last l = Some x.
Proof.
  intros Hs Hx Hg. destruct (last l) as [y|] eqn:Hl; [|by apply last_None in Hl; subst; apply elem_of_nil in Hx].
  apply last_Some in Hl as [k ->]. destruct (Hg y) as [->|Hlt]; [set_solver|done|].
  apply elem_of_app in Hx as [Hx|Hx%list_elem_of_singleton]; [|by subst].
  apply (StronglySorted_app_elem _ _ _ x y) in Hs; [cbv beta in Hs; lia|done|set_solver].
Qed.

Lemma commit_step_advances s d s' : commit_step s d s' -> advances s [d] s'.
Proof.
  intros Hstep. pose proof (commit_step_round _ _ _ Hstep) as Hr.
  assert (last_timestamp s' = CommittedSubDag.commit_timestamp_field d) as Ht.
  { by rewrite (step_state _ _ _ Hstep). }
  pose proof (step_time _ _ _ Hstep) as Htd. fold (last_timestamp s) in Htd.
  pose proof (step_above _ _ _ Hstep). unfold CommittedSubDag.leader_round.
  constructor; [lia|lia| | |].
  - intros d' ->%list_elem_of_singleton. unfold CommittedSubDag.leader_round. lia.
  - by repeat constructor.
  - intros d' ->%list_elem_of_singleton. split_and!; [apply Hstep| |lia].
    apply last_greatest; [apply Hstep|apply (step_elem _ _ _ Hstep), rtc_refl|].
    intros y Hy%(step_elem _ _ _ Hstep). apply sub_dag_inv in Hy as (_ & _ & [->|[_ ?]]); [by left|by right|apply Hstep].
Qed.

Lemma commits_advances s ds s' : commits s ds s' -> advances s ds s'.
Proof.
  induction 1 as [s|s d s1 ds s2 Hstep _ IH]; [apply advances_nil|].
  by apply (advances_trans s [d] s1 s1); [apply commit_step_advances|..].
Qed.

(** The commit round is the highest round of what was committed. *)
Lemma commits_max_round s ds s' :
  commits s ds s' -> ds <> [] ->
  foldr N.max 0 (Certificate.round <$> committed_certificates ds) = ConsensusState.committed_round s'.
Proof.
  unfold committed_certificates.
  induction 1 as [s|s d s1 ds s2 Hstep Hcom IH]; [done|intros _].
  cbn [mbind list_bind]. rewrite fmap_app, foldr_app.
  assert (forall n, n <= Certificate.round (CommittedSubDag.leader d) ->
    foldr N.max n (Certificate.round <$> CommittedSubDag.certificates d) =
    Certificate.round (CommittedSubDag.leader d)) as Hd.
  { intros n Hn. apply N.le_antisymm.
    - apply foldr_max_le; [done|]. intros r (y & -> & Hy%(step_elem _ _ _ Hstep))%list_elem_of_fmap.
      apply sub_dag_inv in Hy as (_ & ? & _); [done|apply Hstep].
    - apply foldr_max_ge, list_elem_of_fmap_2, (step_elem _ _ _ Hstep), rtc_refl. }
  pose proof (commit_step_round _ _ _ Hstep) as Hr.
  destruct (decide (ds = [])) as [->|Hne]; [inversion Hcom; subst; rewrite Hd; simpl; [done|lia]|].
  rewrite IH by done. apply commits_advances in Hcom as [Hle _ _ _ _].
  assert (forall n, Certificate.round (CommittedSubDag.leader d) <= n ->
    foldr N.max n (Certificate.round <$> CommittedSubDag.certificates d) = n) as Hd'.
  { intros n Hn. apply N.le_antisymm.
    - apply foldr_max_le; [done|]. intros r (y & -> & Hy%(step_elem _ _ _ Hstep))%list_elem_of_fmap.
      apply sub_dag_inv in Hy as (_ & ? & _); [lia|apply Hstep].
    - generalize (Certificate.round <$> CommittedSubDag.certificates d) as k.
      induction k; simpl; lia. }
  apply Hd'. lia.
Qed.

End advancing.

(** * Causal order *)

Section causality.
Context `{NetworkKeys} `{Crypto} `{!CollisionFree} (committee : Committee.t) (U : Certificate.t -> Prop).
Implicit Types (s : ConsensusState.t).

(** What a run keeps: the DAG and the commits come from [U], the commits are in causal
    order, and what they reference is committed or out of reach. *)
Record causal_inv s (ds : list CommittedSubDag.t) : Prop := {
  cau_dag x : in_dag (ConsensusState.dag s) x -> U x;
  cau_certs x : x ∈ committed_certificates ds -> U x;
  cau_settled y p : y ∈ committed_certificates ds -> U p -> Certificate.digest p ∈ Certificate.parents y -> settled s p;
  cau_order : causal (committed_certificates ds);
}.

Lemma fresh_same s p q :
  Certificate.round p = Certificate.round q -> Certificate.origin p = Certificate.origin q -> fresh s p -> fresh s q.
Proof. unfold fresh. by intros -> ->. Qed.

Lemma fold_update_gc_depth s l : ConsensusState.gc_depth (foldl ConsensusState.update s l) = ConsensusState.gc_depth s.
Proof. revert s. induction l as [|x l IH]; intros s; [done|]. cbn [foldl]. by rewrite IH. Qed.

Lemma fold_update_in_dag_inv s l x :
  in_dag (ConsensusState.dag (foldl ConsensusState.update s l)) x -> in_dag (ConsensusState.dag s) x.
Proof.
  revert s. induction l as [|y l IH]; intros s; [done|]. cbn [foldl].
  intros Hx%IH. simpl in Hx. by apply in_dag_filter in Hx as [? _].
Qed.

Lemma commit_step_gc s d s' :
  state_wf committee s -> commit_step s d s' ->
  ConsensusState.gc_round s' = Certificate.round (CommittedSubDag.leader d) - ConsensusState.gc_depth s /\
  ConsensusState.gc_round s <= ConsensusState.gc_round s'.
Proof.
  intros Hs Hstep. pose proof (commit_step_wf _ _ _ _ Hstep Hs) as Hs'.
  pose proof (step_above _ _ _ Hstep).
  rewrite (state_gc _ _ Hs), (state_gc _ _ Hs'), (commit_step_round _ _ _ Hstep).
  assert (ConsensusState.gc_depth s' = ConsensusState.gc_depth s) as ->.
  { rewrite (step_state _ _ _ Hstep). apply fold_update_gc_depth. }
  unfold gc_round_of. lia.
Qed.

(** A commit does not unsettle a certificate ... *)
Lemma settled_step s d s' p :
  state_wf committee s -> commit_step s d s' -> settled s p -> settled s' p.
Proof.
  intros Hs Hstep [Hf|Hr]; [left|right].
  - intros Hf'. apply Hf. intros r Hr.
    destruct (fold_update_mono s (CommittedSubDag.certificates d) _ _ Hr) as (r' & Hr' & Hle).
    specialize (Hf' r'). rewrite (step_state _ _ _ Hstep) in Hf'. specialize (Hf' Hr'). lia.
  - destruct (commit_step_gc _ _ _ Hs Hstep). lia.
Qed.

Context (U_wf : forall x, U x -> cert_wf committee x) (U_rounds : parent_rounds U).

(** ... and settles what the committed certificates reference. *)
Lemma commit_step_settles s d s' y p :
  state_wf committee s -> commit_step s d s' -> (forall x, in_dag (ConsensusState.dag s) x -> U x) ->
  y ∈ CommittedSubDag.certificates d -> U p -> Certificate.digest p ∈ Certificate.parents y -> settled s' p.
Proof.
  intros Hs Hstep HU Hy Hp Hd. destruct (commit_step_gc _ _ _ Hs Hstep) as [Hgc Hgc'].
  apply (step_elem _ _ _ Hstep) in Hy as Hsub.
  destruct (sub_dag_inv s (CommittedSubDag.leader d) y) as (Hin & _); [apply Hstep|done|].
  pose proof (U_rounds y p (HU y Hin) Hp Hd) as Hround.
  destruct (decide (Certificate.round y <= ConsensusState.gc_round s' + 1)) as [Hlow|Hhigh]; [right; lia|].
  destruct (state_closed _ _ Hs y Hin) with (d := Certificate.digest p) as (p' & Hpar & Hdp); [lia|done|].
  destruct (cert_wf_slot committee p' p) as [Hr Ho]; [by apply U_wf, HU; destruct Hpar|by apply U_wf|done|].
  destruct (already_committed s p') eqn:Hac.
  - apply (settled_step s d); [done..|]. left. intros Hf.
    apply (fresh_same _ _ p'), already_committed_fresh in Hf; [congruence|done|done].
  - left. intros Hf. apply already_committed_fresh in Hac.
    assert (p' ∈ CommittedSubDag.certificates d) as Hp'.
    { apply (step_elem _ _ _ Hstep). eapply rtc_r; [exact Hsub|]. split_and!; [lia|done|done]. }
    apply (fold_update_covers s) in Hp' as (r & Hlc & Hle).
    apply (fresh_same _ _ p') in Hf; [|done..]. rewrite (step_state _ _ _ Hstep) in Hf.
    specialize (Hf r Hlc). lia.
Qed.

(** Appending the certificates of a commit keeps the order. *)
Lemma causal_step s d s' ds :
  state_wf committee s -> commit_step s d s' -> causal_inv s ds ->
  causal (committed_certificates ds ++ CommittedSubDag.certificates d).
Proof.
  intros Hs Hstep [HU HUc Hset Hord] i j y p Hi Hj Hd.
  assert (Hnew : forall x, x ∈ CommittedSubDag.certificates d ->
    in_dag (ConsensusState.dag s) x /\ fresh s x /\ ConsensusState.gc_round s < Certificate.round x).
  { intros x Hx. apply (step_elem _ _ _ Hstep) in Hx as Hsub.
    destruct (sub_dag_inv s (CommittedSubDag.leader d) x) as (Hin & _); [apply Hstep|done|].
    split_and!; [done|by eapply commit_step_fresh|]. apply (state_above _ _ Hs).
    unfold in_dag, entry in Hin. destruct (ConsensusState.dag s !! Certificate.round x); [by eauto|done]. }
  apply lookup_app_Some in Hj as [Hj|[Hjge Hj]]; apply lookup_app_Some in Hi as [Hi|[Hige Hi]].
  - by eapply Hord.
  - apply lookup_lt_Some in Hj. lia.
  - apply list_elem_of_lookup_2 in Hi, Hj. destruct (Hnew p Hj) as (Hin & Hf & Hg).
    destruct (Hset y p Hi (HU p Hin) Hd) as [?|?]; [done|lia].
  - pose proof (list_elem_of_lookup_2 _ _ _ Hi) as Hyin. pose proof (list_elem_of_lookup_2 _ _ _ Hj) as Hpin.
    assert (Certificate.round p + 1 = Certificate.round y) as Hr.
    { apply U_rounds; [by apply HU, Hnew..|done]. }
    destruct (decide (j < i)%nat) as [|Hge]; [done|exfalso].
    set (n := length (committed_certificates ds)) in *.
    assert (y = p \/ Certificate.round y <= Certificate.round p) as [->|?]; [|lia|lia].
    destruct (decide (i = j)) as [->|Hne]; [left; congruence|right].
    pose proof (step_sorted _ _ _ Hstep) as Hsort.
    rewrite <-(take_drop (S (i - n)) (CommittedSubDag.certificates d)) in Hsort.
    apply (StronglySorted_app_elem _ _ _ y p) in Hsort; [done| |].
    + eapply (list_elem_of_lookup_2 _ (i - n)%nat). rewrite lookup_take_lt by lia. exact Hi.
    + eapply (list_elem_of_lookup_2 _ (j - n - S (i - n))%nat). rewrite lookup_drop. rewrite <-Hj. f_equal. lia.
Qed.

Lemma causal_inv_step s d s' ds :
  state_wf committee s -> commit_step s d s' -> causal_inv s ds -> causal_inv s' (ds ++ [d]).
Proof.
  intros Hs Hstep Hinv. pose proof (causal_step _ _ _ _ Hs Hstep Hinv) as Hc.
  destruct Hinv as [HU HUc Hset Hord].
  assert (committed_certificates (ds ++ [d]) = committed_certificates ds ++ CommittedSubDag.certificates d) as Happ.
  { unfold committed_certificates. rewrite bind_app. cbn [mbind list_bind]. by rewrite app_nil_r. }
  constructor; rewrite ?Happ; [| | |done].
  - intros x Hx. apply HU. rewrite (step_state _ _ _ Hstep) in Hx.
    exact (fold_update_in_dag_inv s (CommittedSubDag.certificates d) x Hx).
  - intros x [Hx|Hx]%elem_of_app; [by apply HUc|]. apply HU.
    apply (step_elem _ _ _ Hstep) in Hx. apply sub_dag_inv in Hx as (? & _); [done|apply Hstep].
  - intros y p [Hy|Hy]%elem_of_app Hp Hd; [|by eapply commit_step_settles].
    apply (settled_step s d); [done..|]. by eapply Hset.
Qed.

Lemma causal_inv_commits s ds' s' ds :
  state_wf committee s -> commits s ds' s' -> causal_inv s ds -> causal_inv s' (ds ++ ds').
Proof.
  intros Hs Hcom. revert ds Hs. induction Hcom as [s|s d s1 ds' s2 Hstep _ IH]; intros ds Hs Hinv.
  { by rewrite app_nil_r. }
  rewrite (cons_middle d ds ds'), app_assoc. apply IH; [by eapply commit_step_wf|by eapply causal_inv_step].
Qed.

Lemma causal_inv_insert s c s1 ins ds :
  ConsensusState.try_insert s c = (s1, Ok ins) -> U c -> causal_inv s ds -> causal_inv s1 ds.
Proof.
  intros Hins Hc [HU HUc Hset Hord]. pose proof (try_insert_fields _ _ _ _ Hins) as (Hlr & Hlc & _).
  constructor; [|done| |done].
  - intros x Hx. unfold ConsensusState.try_insert in Hins.
    destruct (ConsensusState.try_insert_in_dag _ _ _ _ _) as [dag' r] eqn:Hi. injection Hins as <- ->.
    apply try_insert_in_dag_Ok in Hi as [(_ & -> & _)|(_ & _ & _ & _ & ->)]; [by apply HU|].
    apply in_dag_insert in Hx as [->|[Hx _]]; [done|by apply HU].
  - intros y p Hy Hp Hd. destruct (Hset y p Hy Hp Hd) as [Hf|Hr]; [left|right].
    + unfold fresh in *. by rewrite Hlc.
    + unfold ConsensusState.gc_round in *. by rewrite Hlr.
Qed.

End causality.

(** * Properties *)

Section properties.
Context `{NetworkKeys} `{Crypto} `{SeededChoice} `{!CollisionFree}.

(** How the state of consensus evolves over a run, with the sub-dags it commits. *)
Inductive evolves (s0 : ConsensusState.t) : list CommittedSubDag.t -> ConsensusState.t -> Prop :=
  | evolves_refl : evolves s0 [] s0
  | evolves_insert ds s c s1 ins : evolves s0 ds s -> ConsensusState.try_insert s c = (s1, Ok ins) -> evolves s0 ds s1
  | evolves_commit ds s d s1 : evolves s0 ds s -> commit_step s d s1 -> evolves s0 (ds ++ [d]) s1.

Lemma evolves_commits s0 ds s ds' s' : evolves s0 ds s -> commits s ds' s' -> evolves s0 (ds ++ ds') s'.
Proof.
  intros Hev Hcom. revert ds Hev. induction Hcom as [s|s d s1 ds' s2 Hstep _ IH]; intros ds Hev; [by rewrite app_nil_r|].
  rewrite (cons_middle d ds ds'), app_assoc. apply IH. by eapply evolves_commit.
Qed.

Lemma run_evolves b s cs b' s' ds :
  protocol_inv b s -> Forall (cert_wf (committee b)) cs -> run b s cs = Ok (b', s', ds) ->
  evolves s ds s' /\ state_wf (committee b) s'.
Proof.
  intros Hinv Hcs Hrun. rewrite Forall_forall in Hcs.
  apply (foldM_invariant run_step (fun acc => protocol_inv acc.1.1 acc.1.2 /\
    committee acc.1.1 = committee b /\ evolves s acc.2 acc.1.2)) in Hrun.
  - destruct Hrun as (Hp & Hc & ?). cbn [fst snd] in *. split; [done|]. rewrite <-Hc. apply Hp.
  - split_and!; [done|done|constructor].
  - intros [[b1 s1] ds1] c acc' (Hi & Hcb & Hev) Hc. unfold run_step.
    destruct (process_certificate b1 s1 c) as [[b2 s2] r] eqn:Hp. simpl in *.
    apply process_certificate_spec in Hp; [|done|rewrite Hcb; by apply Hcs].
    destruct r as [[o ds2]|e| |]; try done. intros [= <-]. simpl.
    destruct Hp as (Hinv' & Hcb' & s1' & ins & Hins & Hcom & _). split_and!; [done|congruence|].
    eapply evolves_commits; [|done]. by eapply evolves_insert.
Qed.

Lemma evolves_advances s ds s' : evolves s ds s' -> advances s ds s'.
Proof.
  induction 1 as [|ds s1 c s2 ins _ IH Hins|ds s1 d s2 _ IH Hstep]; [apply advances_nil| |].
  - pose proof (try_insert_fields _ _ _ _ Hins) as (Hlr & _ & Hlast). rewrite <-(app_nil_r ds).
    apply (advances_trans s ds s1 s2); [done| | |apply advances_nil].
    + unfold ConsensusState.committed_round. by rewrite Hlr.
    + unfold last_timestamp. by rewrite Hlast.
  - by apply (advances_trans s ds s1 s1); [done|done|done|apply commit_step_advances].
Qed.

(** The committed sequence advances: over any run of the protocol the leader rounds
    of the sub-dags are even and strictly increase from above the initial commit round,
    their timestamps never decrease, and each sub-dag ends with its leader. *)
Theorem commit_sequence_advances b s cs b' s' ds :
  protocol_inv b s -> Forall (cert_wf (committee b)) cs -> run b s cs = Ok (b', s', ds) ->
  advances s ds s'.
Proof. intros Hinv Hcs Hrun. apply evolves_advances. by destruct (run_evolves b s cs b' s' ds). Qed.

(** C6: the committed sequence is causally ordered: over any run of the protocol on
    certificates whose references point one round down, no certificate is output before
    one it references. *)
Theorem commit_sequence_causal b s cs b' s' ds :
  protocol_inv b s -> Forall (cert_wf (committee b)) cs ->
  parent_rounds (fun x => x ∈ cs \/ in_dag (ConsensusState.dag s) x) ->
  run b s cs = Ok (b', s', ds) -> causal (committed_certificates ds).
Proof.
  intros Hinv Hcs HU Hrun. rewrite Forall_forall in Hcs.
  set (U := fun x => x ∈ cs \/ in_dag (ConsensusState.dag s) x) in *.
  assert (forall x, U x -> cert_wf (committee b) x) as Hwf.
  { intros x [Hx|Hx]; [by apply Hcs|]. eapply in_dag_wf; [apply Hinv|done]. }
  apply (foldM_invariant run_step (fun acc => protocol_inv acc.1.1 acc.1.2 /\
    committee acc.1.1 = committee b /\ causal_inv U acc.1.2 acc.2)) in Hrun; [by destruct Hrun as (_ & _ & [])| |].
  - split_and!; [done|done|]. constructor; [by right|by intros x ?%elem_of_nil|by intros y p ?%elem_of_nil|].
    by intros [|i] j y p Hi.
  - intros [[b1 s1] ds1] c acc' (Hi & Hcb & Hcau) Hc. unfold run_step.
    destruct (process_certificate b1 s1 c) as [[b2 s2] r] eqn:Hp. simpl in *.
    apply process_certificate_spec in Hp; [|done|rewrite Hcb; by apply Hcs].
    destruct r as [[o ds2]|e| |]; try done. intros [= <-]. simpl.
    destruct Hp as (Hinv' & Hcb' & s1' & ins & Hins & Hcom & Hs1). rewrite Hcb in *. split_and!; [done|done|].
    apply (causal_inv_commits (committee b) U Hwf HU s1'); [done..|].
    by apply (causal_inv_insert U s1 c s1' ins); [|left|].
Qed.

End properties.

(** * Witnesses *)

Section witnesses.
#[local] Existing Instances demo_keys demo_crypto demo_choice demo_collision_free.

Lemma commit_sequence_advances_witness :
  length demo_run_result.2 = 1%nat /\ advances demo_state demo_run_result.2 demo_run_result.1.2.
Proof.
  split; [by vm_compute|].
  apply (commit_sequence_advances demo_bullshark demo_state demo_certs demo_run_result.1.1 demo_run_result.1.2).
  - apply demo_protocol_inv.
  - apply demo_certs_wf.
  - vm_compute. reflexivity.
Defined.

Lemma demo_certs_rounds :
  Forall (fun x => Forall (fun p => Certificate.digest p ∈ Certificate.parents x ->
    Certificate.round p + 1 = Certificate.round x) demo_certs) demo_certs.
Proof. apply (bool_decide_unpack _). by vm_compute. Qed.

Lemma commit_sequence_causal_witness :
  length (committed_certificates demo_run_result.2) = 5%nat /\ causal (committed_certificates demo_run_result.2).
Proof.
  split; [by vm_compute|].
  apply (commit_sequence_causal demo_bullshark demo_state demo_certs demo_run_result.1.1 demo_run_result.1.2).
  - apply demo_protocol_inv.
  - apply demo_certs_wf.
  - pose proof demo_certs_rounds as Hr. rewrite Forall_forall in Hr.
    assert (forall x, ~ in_dag (ConsensusState.dag demo_state) x) as Hno.
    { intros x Hx. unfold in_dag, entry in Hx. simpl in Hx. by rewrite lookup_empty in Hx. }
    intros x p [Hx|Hx] [Hp|Hp]; [|by destruct (Hno p)|by destruct (Hno x)..].
    specialize (Hr x Hx). rewrite Forall_forall in Hr. by apply Hr.
  - vm_compute. reflexivity.
Defined.

End witnesses.
