(* ===== verification/Agreement.v ===== *)
(** Agreement between nodes: two nodes that process certificates of one protocol run, each
    in its own order and each with its own part of the DAG, commit the same sub-dags in the
    same order.  Composes the election of leaders, the walk over past leaders, the
    flattening of sub-dags, the scores and the leader schedule of Bullshark. *)

From S2P Require Import Prelude Committee Certificate Output ConsensusState OrderDag LeaderSchedule Bullshark.
From S2P Require Import BullsharkFacts Demo BullsharkSafety CommitOrder.
Import DagFacts ScheduleFacts Bullshark CertificateFacts.

(** Collision resistance over the whole encoded header. *)
Class BindsHeader `{Crypto} := {
  header_hash_inj h h' : header_hash h = header_hash h' -> Header.serialized h = Header.serialized h';
}.

#[global] Instance binds_collision_free `{BindsHeader} : CollisionFree.
Proof. constructor. intros h h' Heq%header_hash_inj. by injection Heq as -> -> -> _ _ _ _. Qed.

#[global] Instance binds_parents `{BindsHeader} : BindsParents.
Proof. constructor. intros h h' Heq%header_hash_inj. by injection Heq as _ _ _ _ _ -> _. Qed.

(** * Same certificates *)

Section same.
Context `{NetworkKeys} `{Crypto}.
Implicit Types (x y : Certificate.t) (d : CommittedSubDag.t).

(** Two nodes may hold different signatures of a certificate: the same certificate is one
    with the same header. *)
Definition same x y : Prop :=
  Certificate.digest x = Certificate.digest y /\
  Header.serialized (Certificate.header x) = Header.serialized (Certificate.header y).

Record same_sub_dag d d' : Prop := {
  sd_certificates : Forall2 same (CommittedSubDag.certificates d) (CommittedSubDag.certificates d');
  sd_leader : same (CommittedSubDag.leader d) (CommittedSubDag.leader d');
  sd_scores : CommittedSubDag.reputation_score d = CommittedSubDag.reputation_score d';
  sd_time : CommittedSubDag.commit_timestamp_field d = CommittedSubDag.commit_timestamp_field d';
}.

#[global] Instance same_equivalence : Equivalence same.
Proof.
  split; [by intros x|by intros x y [? ?]|]. intros x y z [H1 H2] [H3 H4]. split; congruence.
Qed.

Lemma same_fields x y :
  same x y ->
  Certificate.round x = Certificate.round y /\ Certificate.origin x = Certificate.origin y /\
  Certificate.parents x = Certificate.parents y /\ Certificate.nonce x = Certificate.nonce y /\
  Header.created_at (Certificate.header x) = Header.created_at (Certificate.header y).
Proof.
  intros [_ Hs]. injection Hs as Ha Hr He Hc Hp Hpa Hl.
  unfold Certificate.round, Certificate.origin, Certificate.parents, Certificate.nonce, Header.nonce. rewrite Ha, Hr, He, Hc, Hpa. done.
Qed.

Lemma same_of_digest `{!BindsHeader} committee x y :
  cert_wf committee x -> cert_wf committee y -> Certificate.digest x = Certificate.digest y -> same x y.
Proof.
  intros [Hx _] [Hy _] Hd. split; [done|]. rewrite <-Hx, <-Hy in Hd. by apply header_hash_inj in Hd.
Qed.

End same.

(** * Two DAGs *)

(** The DAGs of two nodes, complete above a common GC round. *)
Section dags.
Context `{NetworkKeys} `{Crypto} `{!BindsHeader} (committee : Committee.t).
Context (dag1 dag2 : Dag) (gc : Round).
Context (Hd1 : dag_wf committee dag1) (Hd2 : dag_wf committee dag2).
Context (Hc1 : parents_closed dag1 gc) (Hc2 : parents_closed dag2 gc).

(** Going to a parent in one DAG can be followed in the other. *)
Lemma follow_parent x x' y :
  in_dag dag1 x -> in_dag dag2 x' -> same x x' -> parent_of dag1 x y -> gc < Certificate.round y ->
  exists y', parent_of dag2 x' y' /\ same y y'.
Proof.
  intros Hx Hx' Hs (Hy & Hr & Hp) Hgc. pose proof (same_fields _ _ Hs) as (Hrx & _ & Hpx & _).
  destruct (Hc2 x' Hx') with (d := Certificate.digest y) as (y' & Hy' & Hdy); [lia|by rewrite <-Hpx|].
  exists y'. split; [done|]. apply (same_of_digest committee); [eapply in_dag_wf; [exact Hd1|done]|eapply in_dag_wf; [exact Hd2|apply Hy']|done].
Qed.

Lemma follow_path x x' y :
  in_dag dag1 x -> in_dag dag2 x' -> same x x' -> rtc (parent_of dag1) x y -> gc < Certificate.round y ->
  exists y', in_dag dag2 y' /\ rtc (parent_of dag2) x' y' /\ same y y'.
Proof.
  intros Hx Hx' Hs Hpath Hgc. revert x' Hx Hx' Hs. induction Hpath as [x|x z y Hxz Hpath IH]; intros x' Hx Hx' Hs.
  { exists x'. by split_and!; [|apply rtc_refl|]. }
  assert (Certificate.round y <= Certificate.round z) as Hle.
  { clear -Hpath. induction Hpath as [|x z y (_ & Hr & _) _ IH]; [done|lia]. }
  destruct (follow_parent x x' z) as (z' & Hz' & Hsz); [done..|lia|].
  destruct (IH Hgc z') as (y' & Hy' & Hp' & Hsy); [apply Hxz|apply Hz'|done|].
  exists y'. split_and!; [done| |done]. by eapply rtc_l.
Qed.

End dags.

(** * The walk over past leaders *)

Section walk.
Context `{NetworkKeys} `{Crypto} `{SeededChoice} `{!BindsHeader} (committee : Committee.t) (sched : LeaderSchedule.t).
Implicit Types (dag : Dag) (x p cur : Certificate.t) (r : Round).

(** A DAG that is complete above a GC round. *)
Definition complete dag (gc : Round) : Prop := dag_wf committee dag /\ parents_closed dag gc.

(** The certificate of the leader of a round. *)
Definition lead dag r : option Certificate.t :=
  match LeaderSchedule.leader_certificate (E := ConsensusError) sched r dag with Ok (_, oc) => oc | _ => None end.

(** One round of the walk of [order_leaders], and the walk. *)
Definition walk_step dag (acc : Certificate.t * list Certificate.t) r : Certificate.t * list Certificate.t :=
  match lead dag r with
  | Some p => if linked acc.1 p dag then (p, p :: acc.2) else acc
  | None => acc
  end.

Definition walk dag leader (rs : list Round) : Certificate.t * list Certificate.t := foldl (walk_step dag) (leader, [leader]) rs.

Lemma lead_Some dag r p :
  dag_wf committee dag ->
  lead dag r = Some p <->
  exists a, LeaderSchedule.leader (E := ConsensusError) sched r = Ok a /\ in_dag dag p /\ Certificate.round p = r /\ Certificate.origin p = Authority.id a.
Proof.
  intros Hd. unfold lead, LeaderSchedule.leader_certificate. destruct (LeaderSchedule.leader sched r) as [a| | |] eqn:Ha; cbn [mbind outcome_bind];
    [|split; [done|by intros (? & ? & _)]..].
  split.
  - intros Hp. exists a. split; [done|]. destruct (dag !! r) as [row|] eqn:Hrow; [|done]. cbn in Hp.
    destruct (row !! Authority.id a) as [[d p']|] eqn:He; simplify_eq/=.
    assert (entry dag r (Authority.id a) = Some (d, p)) as Hen by (unfold entry; by rewrite Hrow).
    pose proof (Hd _ _ _ _ Hen) as (? & ? & _). split_and!; [by eapply entry_in_dag|done..].
  - intros (a' & [= <-] & Hin & <- & Ho). unfold in_dag, entry in Hin. rewrite Ho in Hin.
    destruct (dag !! Certificate.round p) as [row|]; [|done]. cbn in *. by rewrite Hin.
Qed.

(** A link found in one DAG is found in every other that is complete. *)
Lemma link_follows dag1 dag2 gc cur cur' r p :
  complete dag1 gc -> complete dag2 gc -> in_dag dag1 cur -> in_dag dag2 cur' -> same cur cur' -> gc < r ->
  lead dag1 r = Some p -> linked cur p dag1 = true ->
  exists p', lead dag2 r = Some p' /\ linked cur' p' dag2 = true /\ same p p'.
Proof.
  intros [Hd1 Hc1] [Hd2 Hc2] Hin Hin' Hs Hgc (a & Ha & Hp & Hr & Ho)%lead_Some Hl; [|done].
  apply (linked_iff committee dag1 Hd1) in Hl; [|done..].
  destruct (follow_path committee dag1 dag2 gc Hd1 Hd2 Hc2 cur cur' p) as (p' & Hp' & Hpath & Hsp); [done..|lia|].
  pose proof (same_fields _ _ Hsp) as (Hrp & Hop & _). exists p'. split_and!; [|by apply (linked_iff committee dag2 Hd2)|done].
  apply lead_Some; [done|]. exists a. split_and!; [done..|congruence|congruence].
Qed.

Lemma walk_agree dag1 dag2 gc rs acc acc' :
  complete dag1 gc -> complete dag2 gc -> in_dag dag1 acc.1 -> in_dag dag2 acc'.1 -> same acc.1 acc'.1 ->
  (forall r, r ∈ rs -> gc < r) ->
  same (foldl (walk_step dag1) acc rs).1 (foldl (walk_step dag2) acc' rs).1 /\
  (Forall2 same acc.2 acc'.2 -> Forall2 same (foldl (walk_step dag1) acc rs).2 (foldl (walk_step dag2) acc' rs).2).
Proof.
  intros Hw1 Hw2. revert acc acc'. induction rs as [|r rs IH]; intros acc acc' Hin Hin' Hs Hgc; [done|]. cbn [foldl].
  assert (gc < r) as Hr by (apply Hgc; set_solver).
  assert (forall q, q ∈ rs -> gc < q) as Hgc' by (intros q Hq; apply Hgc; set_solver).
  destruct (lead dag1 r) as [p|] eqn:Hp; [destruct (linked acc.1 p dag1) eqn:Hl|].
  { destruct (link_follows dag1 dag2 gc acc.1 acc'.1 r p) as (p' & Hp' & Hl' & Hsp); [done..|].
    assert (walk_step dag1 acc r = (p, p :: acc.2)) as -> by (unfold walk_step; by rewrite Hp, Hl).
    assert (walk_step dag2 acc' r = (p', p' :: acc'.2)) as -> by (unfold walk_step; by rewrite Hp', Hl').
    destruct (IH (p, p :: acc.2) (p', p' :: acc'.2)) as [Hf Hls]; [| |done|done|].
    - by apply lead_Some in Hp as (a & _ & ? & _); [|apply Hw1].
    - by apply lead_Some in Hp' as (a & _ & ? & _); [|apply Hw2].
    - split; [done|]. intros ?. apply Hls. by constructor. }
  all: assert (walk_step dag1 acc r = acc) as -> by (unfold walk_step; by rewrite Hp, ?Hl).
  all: assert (walk_step dag2 acc' r = acc') as ->; [|by apply IH].
  all: unfold walk_step; destruct (lead dag2 r) as [p'|] eqn:Hp'; [|done]; destruct (linked acc'.1 p' dag2) eqn:Hl'; [|done]; exfalso.
  all: destruct (link_follows dag2 dag1 gc acc'.1 acc.1 r p') as (q & Hq & Hlq & _); try done; congruence.
Qed.

(** Where a walk stands: in the DAG, at one of the rounds it has seen. *)
Lemma walk_at dag rs acc :
  dag_wf committee dag -> in_dag dag acc.1 ->
  in_dag dag (foldl (walk_step dag) acc rs).1 /\
  ((foldl (walk_step dag) acc rs).1 = acc.1 \/ Certificate.round (foldl (walk_step dag) acc rs).1 ∈ rs).
Proof.
  intros Hd. revert acc. induction rs as [|r rs IH]; intros acc Hin; [by split; [|left]|]. cbn [foldl].
  assert (in_dag dag (walk_step dag acc r).1 /\ ((walk_step dag acc r).1 = acc.1 \/ Certificate.round (walk_step dag acc r).1 = r)) as [Hin' Hr].
  { unfold walk_step. destruct (lead dag r) as [p|] eqn:Hp; [|by auto]. destruct (linked acc.1 p dag); [|by auto].
    apply lead_Some in Hp as (a & _ & ? & ? & _); [by auto|done]. }
  destruct (IH _ Hin') as [? [Heq|?]]; (split; [done|]); [|right; set_solver].
  rewrite Heq. destruct Hr as [->|Hr]; [by left|right; set_solver].
Qed.

End walk.

(** ** The rounds of the walk *)

Lemma desc_unique (l k : list N) :
  StronglySorted (fun a b => b < a) l -> StronglySorted (fun a b => b < a) k -> (forall r, r ∈ l <-> r ∈ k) -> l = k.
Proof.
  intros Hl%StronglySorted_rev Hk%StronglySorted_rev Heq. rewrite <-(rev_involutive l), <-(rev_involutive k). f_equal.
  apply sorted_unique; [done..|]. intros x. rewrite !list_elem_of_In, <-!in_rev, <-!list_elem_of_In. apply Heq.
Qed.

Lemma rev_range_step2_elem lo hi r : r ∈ rev_range_step2 lo hi <-> lo <= r <= hi /\ r mod 2 = hi mod 2.
Proof.
  split; [apply elem_of_rev_range_step2|]. intros [Hr Hm]. unfold rev_range_step2. destruct (N.ltb_spec hi lo); [lia|].
  apply list_elem_of_fmap. exists (N.to_nat ((hi - r) / 2)). rewrite elem_of_seq. split; div_lia.
Qed.

(** Cutting the rounds at one of them. *)
Lemma rev_range_step2_cut lo mid hi :
  lo <= mid <= hi -> mid mod 2 = hi mod 2 ->
  rev_range_step2 lo hi = rev_range_step2 (mid + 2) hi ++ rev_range_step2 lo mid.
Proof.
  intros Hm Hp. apply desc_unique; [apply rev_range_step2_desc| |].
  - apply StronglySorted_app_2; [apply rev_range_step2_desc..|]. intros a b Ha%rev_range_step2_elem Hb%rev_range_step2_elem. lia.
  - intros r. rewrite elem_of_app, !rev_range_step2_elem. div_lia.
Qed.

Lemma rev_range_step2_cons lo hi : lo <= hi -> 2 <= hi -> rev_range_step2 lo hi = hi :: rev_range_step2 lo (hi - 2).
Proof.
  intros Hle H2. apply desc_unique; [apply rev_range_step2_desc| |].
  - constructor; [apply rev_range_step2_desc|]. apply Forall_forall. intros r Hr%rev_range_step2_elem. lia.
  - intros r. rewrite elem_of_cons, !rev_range_step2_elem. div_lia.
Qed.

(** * The next leader *)

Section decision.
Context `{NetworkKeys} `{Crypto} `{SeededChoice} `{!BindsHeader} (committee : Committee.t) (Hcom : Committee.wf committee).
Implicit Types (s : ConsensusState.t) (leader l : Certificate.t).

Definition walk_rounds s leader : list Round :=
  rev_range_step2 (ConsensusState.committed_round s + 2) (Certificate.round leader - 2).

(** [l] is the next leader to commit: the last one on the walk from an elected leader with
    enough support. *)
Record elects (sched : LeaderSchedule.t) s leader l : Prop := {
  el_even : Certificate.round leader mod 2 = 0;
  el_above : ConsensusState.committed_round s < Certificate.round leader;
  el_lead : lead sched (ConsensusState.dag s) (Certificate.round leader) = Some leader;
  el_support : Committee.reached_validity committee (Committee.weight committee (supporters (ConsensusState.dag s) leader)) = true;
  el_walk : (walk sched (ConsensusState.dag s) leader (walk_rounds s leader)).1 = l;
}.

(** What two nodes that agree so far have in common. *)
Record peers s1 s2 : Prop := {
  pe_wf1 : state_wf committee s1;
  pe_wf2 : state_wf committee s2;
  pe_quorate1 : quorate committee (ConsensusState.dag s1) (ConsensusState.gc_round s1);
  pe_quorate2 : quorate committee (ConsensusState.dag s2) (ConsensusState.gc_round s2);
  pe_consistent : consistent (ConsensusState.dag s1) (ConsensusState.dag s2);
  pe_round : ConsensusState.last_round s1 = ConsensusState.last_round s2;
  pe_even : ConsensusState.committed_round s1 mod 2 = 0;
}.

Lemma peers_sym s1 s2 : peers s1 s2 -> peers s2 s1.
Proof.
  intros [? ? ? ? Hc Hr He]. split; try done; [|by unfold ConsensusState.committed_round in *; rewrite <-Hr].
  intros x y Hx Hy Hrd Ho. symmetry. by apply Hc.
Qed.

Lemma state_complete s : state_wf committee s -> complete committee (ConsensusState.dag s) (ConsensusState.gc_round s).
Proof. intros Hs. split; [apply (state_dag _ _ Hs)|apply (state_closed _ _ Hs)]. Qed.

Lemma gc_below_committed s : state_wf committee s -> ConsensusState.gc_round s <= ConsensusState.committed_round s.
Proof. intros Hs. rewrite (state_gc _ _ Hs). unfold gc_round_of. lia. Qed.

(** The walk of a later leader passes through an earlier leader that has support. *)
Lemma walk_meets sched s1 s2 leader leader' l l' :
  peers s1 s2 -> elects sched s1 leader l -> elects sched s2 leader' l' -> Certificate.round leader < Certificate.round leader' ->
  exists z rest, in_dag (ConsensusState.dag s2) z /\ same leader z /\
    walk sched (ConsensusState.dag s2) leader' (walk_rounds s2 leader') =
      foldl (walk_step sched (ConsensusState.dag s2)) (z, rest) (walk_rounds s1 leader).
Proof.
  intros [Hs1 Hs2 Hq1 Hq2 Hcons Hround Hev] [He Ha Hl Hsup _] [He' Ha' Hl' _ _] Hlt.
  assert (ConsensusState.committed_round s1 = ConsensusState.committed_round s2) as Hc by (unfold ConsensusState.committed_round; by rewrite Hround).
  assert (ConsensusState.gc_round s1 = ConsensusState.gc_round s2) as Hg by (unfold ConsensusState.gc_round; by rewrite Hround).
  pose proof (gc_below_committed _ Hs1) as Hgc. pose proof (state_dag _ _ Hs1) as Hd1. pose proof (state_dag _ _ Hs2) as Hd2.
  apply (lead_Some committee) in Hl as (a & Hla & Hin & _ & Ho); [|done].
  apply (lead_Some committee) in Hl' as (a' & _ & Hin' & _); [|done].
  unfold walk, walk_rounds. rewrite Hc.
  rewrite (rev_range_step2_cut _ (Certificate.round leader) (Certificate.round leader' - 2)) by div_lia.
  rewrite (rev_range_step2_cons _ (Certificate.round leader)) by div_lia. rewrite foldl_app. cbn [foldl].
  set (acc := foldl _ _ (rev_range_step2 _ (Certificate.round leader' - 2))).
  destruct (walk_at committee sched (ConsensusState.dag s2) (rev_range_step2 (Certificate.round leader + 2) (Certificate.round leader' - 2))
    (leader', [leader']) Hd2 Hin') as [Hacc Hr]. fold acc in Hacc, Hr.
  assert (Certificate.round leader + 2 <= Certificate.round acc.1) as Hge.
  { destruct Hr as [->|Hr%rev_range_step2_elem]; cbn [fst]; [div_lia|lia]. }
  destruct (supported_leader_reached committee Hcom (ConsensusState.dag s1) (ConsensusState.dag s2) (ConsensusState.gc_round s2) leader acc.1
    (N.to_nat (Certificate.round acc.1 - Certificate.round leader - 2))) as (z & Hz & Hdz & Hpath);
    [done..|by apply (state_closed _ _ Hs2)|done|done|lia|done|lia|].
  assert (same leader z) as Hsz.
  { apply (same_of_digest committee); [exact (in_dag_wf _ _ _ Hd1 Hin)|exact (in_dag_wf _ _ _ Hd2 Hz)|done]. }
  pose proof (same_fields _ _ Hsz) as (Hrz & Hoz & _).
  exists z, (z :: acc.2). split_and!; [done|done|]. f_equal. unfold walk_step at 1.
  assert (lead sched (ConsensusState.dag s2) (Certificate.round leader) = Some z) as ->.
  { apply (lead_Some committee); [done|]. exists a. split_and!; [done|done|congruence|congruence]. }
  assert (linked acc.1 z (ConsensusState.dag s2) = true) as -> by by apply (linked_iff committee _ Hd2). done.
Qed.

Lemma elects_agree_le sched s1 s2 leader leader' l l' :
  peers s1 s2 -> elects sched s1 leader l -> elects sched s2 leader' l' -> Certificate.round leader <= Certificate.round leader' -> same l l'.
Proof.
  intros Hp He He' Hle. pose proof Hp as [Hs1 Hs2 _ _ Hcons Hround _].
  assert (ConsensusState.gc_round s1 = ConsensusState.gc_round s2) as Hg by (unfold ConsensusState.gc_round; by rewrite Hround).
  pose proof (gc_below_committed _ Hs1) as Hgc.
  pose proof (el_lead _ _ _ _ He) as Hl. apply (lead_Some committee) in Hl as (a & Ha & Hin & _ & Ho); [|apply (state_dag _ _ Hs1)].
  assert (exists z rest, in_dag (ConsensusState.dag s2) z /\ same leader z /\
    walk sched (ConsensusState.dag s2) leader' (walk_rounds s2 leader') =
      foldl (walk_step sched (ConsensusState.dag s2)) (z, rest) (walk_rounds s1 leader)) as (z & rest & Hz & Hsz & Hw).
  { destruct (decide (Certificate.round leader < Certificate.round leader')) as [Hlt|Hge]; [by eapply walk_meets|].
    assert (Certificate.round leader = Certificate.round leader') as Hr by lia.
    pose proof (el_lead _ _ _ _ He') as Hl'. apply (lead_Some committee) in Hl' as (a' & Ha' & Hin' & _ & Ho'); [|apply (state_dag _ _ Hs2)].
    rewrite <-Hr, Ha in Ha'. injection Ha' as <-. exists leader', [leader']. split_and!; [done| |].
    - apply (same_of_digest committee); [eapply in_dag_wf; [apply (state_dag _ _ Hs1)|done]|eapply in_dag_wf; [apply (state_dag _ _ Hs2)|done]|].
      apply Hcons; [done..|congruence].
    - unfold walk, walk_rounds, ConsensusState.committed_round. by rewrite Hround, Hr. }
  rewrite <-(el_walk _ _ _ _ He), <-(el_walk _ _ _ _ He'), Hw. unfold walk.
  apply (walk_agree committee sched _ _ (ConsensusState.gc_round s1)); cbn [fst]; [by apply state_complete| |done..|].
  - rewrite Hg. by apply state_complete.
  - intros r Hr%rev_range_step2_elem. lia.
Qed.

Lemma elects_agree sched s1 s2 leader leader' l l' :
  peers s1 s2 -> elects sched s1 leader l -> elects sched s2 leader' l' -> same l l'.
Proof.
  intros Hp He He'. destruct (N.le_ge_cases (Certificate.round leader) (Certificate.round leader')).
  - by eapply elects_agree_le.
  - symmetry. by eapply elects_agree_le; [apply peers_sym|..].
Qed.

End decision.

(** * The sub-dag of a leader *)

Section sub_dags.
Context `{NetworkKeys} `{Crypto} `{!BindsHeader} (committee : Committee.t) (s1 s2 : ConsensusState.t).
Context (Hs1 : state_wf committee s1) (Hs2 : state_wf committee s2).
Context (Hround : ConsensusState.last_round s1 = ConsensusState.last_round s2).
Context (Hlast : ConsensusState.last_committed s1 = ConsensusState.last_committed s2).
Context (Hdepth : ConsensusState.gc_depth s1 = ConsensusState.gc_depth s2).

(** A certificate both DAGs hold. *)
Definition shared (x x' : Certificate.t) : Prop :=
  same x x' /\ in_dag (ConsensusState.dag s1) x /\ in_dag (ConsensusState.dag s2) x'.

Lemma find_parent_agree x x' d :
  shared x x' -> d ∈ Certificate.parents x -> 0 < Certificate.round x ->
  option_Forall2 (fun p p' => p.1 = p'.1 /\ shared p.2 p'.2)
    (find_parent (ConsensusState.dag s1) (Certificate.round x - 1) d) (find_parent (ConsensusState.dag s2) (Certificate.round x' - 1) d).
Proof.
  intros (Hs & Hx & Hx') Hd Hpos. pose proof (same_fields _ _ Hs) as (Hr & _ & Hp & _). rewrite <-Hr.
  assert (ConsensusState.gc_round s1 = ConsensusState.gc_round s2) as Hg by (unfold ConsensusState.gc_round; by rewrite Hround).
  pose proof (state_dag _ _ Hs1) as Hd1. pose proof (state_dag _ _ Hs2) as Hd2.
  destruct (decide (ConsensusState.gc_round s1 + 1 < Certificate.round x)) as [Hgc|Hgc].
  - destruct (state_closed _ _ Hs1 x Hx Hgc d Hd) as (y & (Hy & Hry & _) & Hdy).
    destruct (state_closed _ _ Hs2 x' Hx') with (d := d) as (y' & (Hy' & Hry' & _) & Hdy'); [lia|by rewrite <-Hp|].
    assert (same y y') as Hsy.
    { apply (same_of_digest committee); [exact (in_dag_wf _ _ _ Hd1 Hy)|exact (in_dag_wf _ _ _ Hd2 Hy')|congruence]. }
    replace (Certificate.round x - 1) with (Certificate.round y) at 1 by lia. rewrite <-Hdy at 1.
    rewrite (find_parent_in_dag committee _ y Hd1 Hy).
    replace (Certificate.round x - 1) with (Certificate.round y') by lia. rewrite <-Hdy'.
    rewrite (find_parent_in_dag committee _ y' Hd2 Hy'). constructor. split; [|done]. by destruct Hsy.
  - assert (forall s, state_wf committee s -> ConsensusState.gc_round s = ConsensusState.gc_round s1 ->
      find_parent (ConsensusState.dag s) (Certificate.round x - 1) d = None) as Hnone.
    { intros s Hs' Hgs. unfold find_parent. destruct (ConsensusState.dag s !! (Certificate.round x - 1)) eqn:He; [|done].
      assert (ConsensusState.gc_round s < Certificate.round x - 1) by (apply (state_above _ _ Hs'); by eexists). lia. }
    rewrite !Hnone by done. constructor.
Qed.

Lemma already_committed_agree x x' : same x x' -> already_committed s1 x = already_committed s2 x'.
Proof. intros (Hr & Ho & _)%same_fields. unfold already_committed. by rewrite Hlast, Hr, Ho. Qed.

Lemma visit_parent_agree x x' buffer buffer' already d :
  shared x x' -> d ∈ Certificate.parents x -> 0 < Certificate.round x -> Forall2 shared buffer buffer' ->
  Forall2 shared (visit_parent s1 x (buffer, already) d).1 (visit_parent s2 x' (buffer', already) d).1 /\
  (visit_parent s1 x (buffer, already) d).2 = (visit_parent s2 x' (buffer', already) d).2.
Proof.
  intros Hx Hd Hpos Hbuf. pose proof (find_parent_agree x x' d Hx Hd Hpos) as Hf.
  destruct Hx as (Hs & _). pose proof (same_fields _ _ Hs) as (Hr & _). unfold visit_parent.
  rewrite !wrapping_sub32_small by lia. destruct Hf as [[e c] [e' c'] [He Hc]|]; [|done]. cbn [fst snd] in *. subst e'.
  rewrite (already_committed_agree c c') by apply Hc. destruct (_ || _); [done|]. cbn [fst snd]. split; [by constructor|done].
Qed.

Lemma shared_round x x' : shared x x' -> 0 < Certificate.round x.
Proof.
  intros (_ & Hx & _). assert (ConsensusState.gc_round s1 < Certificate.round x); [|lia]. apply (state_above _ _ Hs1).
  unfold in_dag, entry in Hx. destruct (ConsensusState.dag s1 !! Certificate.round x); [by eexists|done].
Qed.

Lemma visit_parents_agree x x' ds buffer buffer' already :
  shared x x' -> (forall d, d ∈ ds -> d ∈ Certificate.parents x) -> Forall2 shared buffer buffer' ->
  Forall2 shared (foldl (visit_parent s1 x) (buffer, already) ds).1 (foldl (visit_parent s2 x') (buffer', already) ds).1 /\
  (foldl (visit_parent s1 x) (buffer, already) ds).2 = (foldl (visit_parent s2 x') (buffer', already) ds).2.
Proof.
  intros Hx. revert buffer buffer' already. induction ds as [|d ds IH]; intros buffer buffer' already Hds Hbuf; [done|]. cbn [foldl].
  destruct (visit_parent_agree x x' buffer buffer' already d) as [Hb Ha]; [done|apply Hds; set_solver|by eapply shared_round|done|].
  destruct (visit_parent s1 x _ d) as [b1 a1], (visit_parent s2 x' _ d) as [b2 a2]. cbn [fst snd] in *. subst a2.
  apply IH; [|done]. intros e He. apply Hds. set_solver.
Qed.

Lemma order_loop_agree {E} fuel fuel' gc ordered ordered' buffer buffer' already l l' :
  Forall2 shared ordered ordered' -> Forall2 shared buffer buffer' ->
  order_loop (E := E) fuel s1 gc ordered buffer already = Ok l -> order_loop (E := E) fuel' s2 gc ordered' buffer' already = Ok l' ->
  Forall2 shared l l'.
Proof.
  revert fuel' ordered ordered' buffer buffer' already.
  induction fuel as [|fuel IH]; intros fuel' ordered ordered' buffer buffer' already Hord Hbuf Hl Hl'.
  { destruct Hbuf; [|done]. cbn in Hl. injection Hl as <-. destruct fuel'; cbn in Hl'; by injection Hl' as <-. }
  destruct Hbuf as [|x x' buffer buffer' Hx Hbuf].
  { cbn in Hl. injection Hl as <-. destruct fuel'; cbn in Hl'; by injection Hl' as <-. }
  destruct fuel' as [|fuel']; [done|]. cbn [order_loop] in Hl, Hl'.
  assert (Forall2 shared (ordered ++ [x]) (ordered' ++ [x'])) as Hord' by (apply Forall2_app; [done|by constructor]).
  pose proof Hx as (Hs & _). pose proof (same_fields _ _ Hs) as (Hr & _ & Hp & _). rewrite <-Hr, <-Hp in Hl'.
  destruct (Certificate.round x =? gc + 1); [exact (IH _ _ _ _ _ _ Hord' Hbuf Hl Hl')|].
  destruct (visit_parents_agree x x' (bset_iter (Certificate.parents x)) buffer buffer' already) as [Hb Ha];
    [done|intros d; by rewrite elem_of_bset_iter|done|].
  destruct (foldl (visit_parent s1 x) _ _) as [b1 a1], (foldl (visit_parent s2 x') _ _) as [b2 a2]. cbn [fst snd] in *. subst a2.
  exact (IH _ _ _ _ _ _ Hord' Hb Hl Hl').
Qed.

Lemma order_dag_agree {E} leader leader' l l' :
  shared leader leader' -> order_dag (E := E) leader s1 = Ok l -> order_dag (E := E) leader' s2 = Ok l' -> Forall2 shared l l'.
Proof.
  intros Hs (_ & _ & (o & Ho & [= <-])%bind_Ok)%bind_Ok (_ & _ & (o' & Ho' & [= <-])%bind_Ok)%bind_Ok.
  pose proof Hs as (Hsame & _). pose proof (same_fields _ _ Hsame) as (Hr & _). rewrite <-Hr, <-Hdepth in Ho'.
  apply Forall2_sort_by_key; [intros x x' [(Hrx & _)%same_fields _]; done|].
  refine (order_loop_agree _ _ _ _ _ _ _ _ _ _ _ _ Ho Ho'); [constructor|by constructor].
Qed.

End sub_dags.

(** * Committing a leader *)

Section committing.
Context `{NetworkKeys} `{Crypto} `{SeededChoice} `{!BindsHeader}.
Implicit Types (b : Bullshark.t) (s : ConsensusState.t) (l : Certificate.t) (d : CommittedSubDag.t).

(** One turn of [commit_leaders]. *)
Definition commit_of b s l d b1 s1 : Prop :=
  exists seq scores changed,
    order_dag (E := ConsensusError) l s = Ok seq /\
    resolve_reputation_score (E := ConsensusError) b (foldl ConsensusState.update s seq) seq (Certificate.nonce l) = Ok scores /\
    d = CommittedSubDag.new seq l (Certificate.nonce l) scores (ConsensusState.last_committed_sub_dag (foldl ConsensusState.update s seq)) /\
    s1 = ConsensusState.set_last_committed_sub_dag (foldl ConsensusState.update s seq) d /\
    update_leader_schedule (E := ConsensusError) b (Certificate.round l) scores = Ok (b1, changed).

(** The part of the protocol and of its state that decides what is committed next, other
    than the DAG. *)
Record core b s b' s' : Prop := {
  co_committee : committee b = committee b';
  co_period : num_sub_dags_per_schedule b = num_sub_dags_per_schedule b';
  co_schedule : leader_schedule b = leader_schedule b';
  co_threshold : bad_nodes_stake_threshold b = bad_nodes_stake_threshold b';
  co_round : ConsensusState.last_round s = ConsensusState.last_round s';
  co_depth : ConsensusState.gc_depth s = ConsensusState.gc_depth s';
  co_committed : ConsensusState.last_committed s = ConsensusState.last_committed s';
  co_last : option_Forall2 same_sub_dag (ConsensusState.last_committed_sub_dag s) (ConsensusState.last_committed_sub_dag s');
}.

Lemma same_sub_dag_refl d : same_sub_dag d d.
Proof. by split. Qed.

Lemma core_refl b s : core b s b s.
Proof. split; try done. destruct (ConsensusState.last_committed_sub_dag s); constructor. apply same_sub_dag_refl. Qed.

Lemma same_sub_dag_sym d d' : same_sub_dag d d' -> same_sub_dag d' d.
Proof. intros [Hc ? ? ?]. split; [|by symmetry..]. by induction Hc; constructor; [symmetry|]. Qed.

Lemma core_sym b s b' s' : core b s b' s' -> core b' s' b s.
Proof. intros [? ? ? ? ? ? ? Hl]. split; try done. destruct Hl; constructor. by apply same_sub_dag_sym. Qed.

Lemma update_agree b s b' s' seq seq' :
  core b s b' s' -> Forall2 same seq seq' -> core b (foldl ConsensusState.update s seq) b' (foldl ConsensusState.update s' seq').
Proof.
  intros Hc Hs. revert s s' Hc. induction Hs as [|x x' seq seq' Hx _ IH]; intros s s' Hc; [done|]. cbn [foldl]. apply IH.
  pose proof (same_fields _ _ Hx) as (Hr & Ho & _). destruct Hc as [? ? ? ? Hround Hdepth Hcom ?].
  unfold ConsensusState.update. rewrite Hr, Ho, Hround, Hdepth, Hcom. by split.
Qed.

Lemma scores_agree (leader leader' : Certificate.t) seq seq' score :
  Certificate.digest leader = Certificate.digest leader' -> Forall2 same seq seq' ->
  foldl (fun score certificate =>
      if bool_decide (Certificate.digest leader ∈ Certificate.parents certificate)
      then ReputationScores.add_score score (Certificate.origin certificate) 1 else score) score seq =
  foldl (fun score certificate =>
      if bool_decide (Certificate.digest leader' ∈ Certificate.parents certificate)
      then ReputationScores.add_score score (Certificate.origin certificate) 1 else score) score seq'.
Proof.
  intros Hl Hs. revert score. induction Hs as [|x x' seq seq' Hx _ IH]; intros score; [done|]. cbn [foldl].
  pose proof (same_fields _ _ Hx) as (_ & Ho & Hp & _). rewrite Hl, Hp, Ho. rewrite <-IH. by rewrite Hl.
Qed.

Lemma resolve_agree {E} b s b' s' seq seq' n :
  core b s b' s' -> Forall2 same seq seq' ->
  resolve_reputation_score (E := E) b s seq n = resolve_reputation_score (E := E) b' s' seq' n.
Proof.
  intros [Hc Hp _ _ _ _ _ Hlast] Hs. unfold resolve_reputation_score. rewrite Hc, Hp.
  destruct Hlast as [d d' [_ [Hl _] Hsc _]|]; [|done]. rewrite Hsc.
  destruct (checked_rem (n / 2) (num_sub_dags_per_schedule b')) as [rem| | |]; [|done..]. cbn [mbind outcome_bind].
  by rewrite (scores_agree (CommittedSubDag.leader d) (CommittedSubDag.leader d') seq seq') by done.
Qed.

Lemma schedule_agree {E} b s b' s' r scores b1 b1' c c' :
  core b s b' s' -> update_leader_schedule (E := E) b r scores = Ok (b1, c) -> update_leader_schedule (E := E) b' r scores = Ok (b1', c') ->
  core b1 s b1' s'.
Proof.
  intros [Hc Hp Hsch Hth ? ? ? ?]. unfold update_leader_schedule. rewrite Hc, Hth, Hsch. destruct (ReputationScores.final_of_schedule scores).
  - intros (table & Ht & [= <- <-])%bind_Ok (table' & Ht' & [= <- <-])%bind_Ok. rewrite Ht in Ht'. injection Ht' as <-. by split.
  - intros [= <- <-] [= <- <-]. by split.
Qed.

Lemma commit_agree committee0 b s b' s' l l' d d' b1 s1 b1' s1' :
  core b s b' s' -> state_wf committee0 s -> state_wf committee0 s' ->
  in_dag (ConsensusState.dag s) l -> in_dag (ConsensusState.dag s') l' -> same l l' ->
  commit_of b s l d b1 s1 -> commit_of b' s' l' d' b1' s1' -> same_sub_dag d d' /\ core b1 s1 b1' s1'.
Proof.
  intros Hc Hs Hs' Hl Hl' Hsame (seq & scores & ch & Hseq & Hsc & Hd & Hst & Hup) (seq' & scores' & ch' & Hseq' & Hsc' & Hd' & Hst' & Hup').
  pose proof (same_fields _ _ Hsame) as (Hr & _ & _ & Hn & Ht).
  assert (Forall2 same seq seq') as Hss.
  { apply (Forall2_impl (shared s s') same); [|by intros ? ? [? _]].
    by refine (order_dag_agree committee0 s s' Hs Hs' (co_round _ _ _ _ Hc) (co_committed _ _ _ _ Hc) (co_depth _ _ _ _ Hc) l l' _ _ _ Hseq Hseq'). }
  pose proof (update_agree _ _ _ _ _ _ Hc Hss) as Hcu. rewrite <-Hn, <-(resolve_agree _ _ _ _ _ _ _ Hcu Hss), Hsc in Hsc'. injection Hsc' as <-.
  assert (same_sub_dag d d') as Hdd.
  { rewrite Hd, Hd'. split; [done..|]. unfold CommittedSubDag.new. cbn [CommittedSubDag.commit_timestamp_field]. rewrite <-Ht. f_equal.
    destruct (co_last _ _ _ _ Hcu) as [? ? [_ _ _ Htime]|]; [exact Htime|done]. }
  split; [done|]. rewrite <-Hr in Hup'.
  destruct (schedule_agree _ _ _ _ _ _ _ _ _ _ Hcu Hup Hup'). subst s1 s1'. split; try done. by constructor.
Qed.

End committing.

(** * Histories *)

Section walks.
Context `{NetworkKeys} `{Crypto} `{SeededChoice} `{!BindsHeader}.
Implicit Types (b : Bullshark.t) (s : ConsensusState.t) (l leader : Certificate.t) (dag : Dag).

(** [order_leaders] is the walk. *)
Lemma order_leaders_walk b s leader ls :
  bullshark_wf b -> state_wf (committee b) s -> in_dag (ConsensusState.dag s) leader -> 2 <= Certificate.round leader ->
  order_leaders (E := ConsensusError) b leader s = Ok ls ->
  ls = (walk (leader_schedule b) (ConsensusState.dag s) leader (walk_rounds s leader)).2.
Proof.
  intros Hb Hs Hin Hr (_ & He%assert_Ok & (acc & Hacc & (_ & _ & [= <-])%bind_Ok)%bind_Ok)%bind_Ok.
  rewrite wrapping_sub32_small in Hacc by lia. unfold walk, walk_rounds.
  assert (forall r, r ∈ rev_range_step2 (ConsensusState.committed_round s + 2) (Certificate.round leader - 2) -> r mod 2 = 0) as Heven.
  { intros r Hr'%rev_range_step2_elem. apply N.eqb_eq in He. div_lia. }
  revert Hacc Heven. generalize (leader, [leader]) as acc0.
  induction (rev_range_step2 _ _) as [|r rs IH]; intros acc0; cbn [foldM foldl]; [by intros [= <-]|].
  intros (acc1 & Hstep & Hacc)%bind_Ok Heven.
  destruct (@leader_certificate_ok _ _ _ ConsensusError b s r) as (a & oc & Hlc & _); [done|apply (state_dag _ _ Hs)|apply Heven; set_solver|].
  destruct acc0 as [cur rest]. rewrite (order_leaders_step_ok _ _ _ _ _ _ _ Hlc) in Hstep. injection Hstep as <-.
  assert (walk_step (leader_schedule b) (ConsensusState.dag s) (cur, rest) r =
    match oc with
    | Some prev => if linked cur prev (ConsensusState.dag s) then (prev, prev :: rest) else (cur, rest)
    | None => (cur, rest)
    end) as -> by (unfold walk_step, lead; by rewrite Hlc).
  apply IH; [done|]. intros r' Hr'. apply Heven. set_solver.
Qed.

Lemma walk_head sched dag rs cur rest :
  head (foldl (walk_step sched dag) (cur, cur :: rest) rs).2 = Some (foldl (walk_step sched dag) (cur, cur :: rest) rs).1.
Proof.
  revert cur rest. induction rs as [|r rs IH]; intros cur rest; [done|]. cbn [foldl]. unfold walk_step at 2 4.
  destruct (lead sched dag r) as [p|]; [|apply IH]. cbn [fst snd]. destruct (linked cur p dag); apply IH.
Qed.

Lemma walk_grows committee0 sched dag rs acc :
  dag_wf committee0 dag ->
  exists k, (foldl (walk_step sched dag) acc rs).2 = k ++ acc.2 /\ forall x, x ∈ k -> in_dag dag x /\ Certificate.round x ∈ rs.
Proof.
  intros Hd. revert acc. induction rs as [|r rs IH]; intros acc; [exists []; split; [done|set_solver]|]. cbn [foldl].
  destruct (IH (walk_step sched dag acc r)) as (k & Hk & Hin).
  assert (exists k', (walk_step sched dag acc r).2 = k' ++ acc.2 /\ forall x, x ∈ k' -> in_dag dag x /\ Certificate.round x = r) as (k' & Hk' & Hin').
  { unfold walk_step. destruct (lead sched dag r) as [p|] eqn:Hp; [|exists []; split; [done|set_solver]].
    destruct (linked acc.1 p dag); [|exists []; split; [done|set_solver]]. exists [p]. split; [done|].
    intros x ->%list_elem_of_singleton. by apply (lead_Some committee0) in Hp as (_ & _ & ? & ? & _). }
  exists (k ++ k'). rewrite Hk, Hk', <-app_assoc. split; [done|].
  intros x [Hx|Hx]%elem_of_app; [destruct (Hin x Hx)|destruct (Hin' x Hx)]; set_solver.
Qed.

Lemma same_in_dag committee0 dag (l k : list Certificate.t) :
  dag_wf committee0 dag -> Forall2 same l k -> (forall x, x ∈ l -> in_dag dag x) -> (forall x, x ∈ k -> in_dag dag x) -> l = k.
Proof.
  intros Hd. induction 1 as [|x y l k [Hxy _] _ IH]; intros Hl Hk; [done|]. f_equal; [|apply IH; set_solver].
  apply (in_dag_digest committee0 dag); [done|apply Hl; set_solver|apply Hk; set_solver|done].
Qed.

(** Updating the state keeps the rows above the commit round. *)
Lemma fold_update_lookup s seq r :
  ConsensusState.committed_round (foldl ConsensusState.update s seq) < r ->
  ConsensusState.dag (foldl ConsensusState.update s seq) !! r = ConsensusState.dag s !! r.
Proof.
  revert s. induction seq as [|x seq IH]; intros s Hr; [done|]. cbn [foldl] in *. rewrite IH by done. cbn [ConsensusState.update ConsensusState.dag].
  rewrite fold_update_committed_round in Hr.
  assert (ConsensusState.committed_round (ConsensusState.update s x) <=
    foldr N.max (ConsensusState.committed_round (ConsensusState.update s x)) (Certificate.round <$> seq)) as Hle.
  { generalize (Certificate.round <$> seq) as k. induction k; simpl; lia. }
  rewrite map_lookup_filter. destruct (ConsensusState.dag s !! r); [|done]. cbn. rewrite option_guard_True; [done|].
  rewrite update_committed_round in *. unfold gc_round_of. unfold ConsensusState.committed_round in *. lia.
Qed.

End walks.

Section histories.
Context `{NetworkKeys} `{Crypto} `{SeededChoice} `{!BindsHeader} (b0 : Bullshark.t) (s0 : ConsensusState.t).
Implicit Types (b : Bullshark.t) (s : ConsensusState.t) (l leader : Certificate.t) (ds : list CommittedSubDag.t).

(** What a node did so far: certificates were inserted, and leaders were committed one by
    one.  [U] are the certificates the node received. *)
Inductive history (U : Certificate.t -> Prop) : list CommittedSubDag.t -> Bullshark.t -> ConsensusState.t -> Prop :=
  | history_start : history U [] b0 s0
  | history_insert ds b s c s1 ins b1 :
      history U ds b s -> U c -> ConsensusState.try_insert s c = (s1, Ok ins) -> core b s b1 s -> history U ds b1 s1
  | history_commit ds b s leader l d b1 s1 :
      history U ds b s -> elects (committee b) (leader_schedule b) s leader l -> commit_of b s l d b1 s1 -> history U (ds ++ [d]) b1 s1.

Lemma history_prefix U ds b s n : history U ds b s -> exists b' s', history U (take n ds) b' s'.
Proof.
  intros Hh. induction Hh as [|ds b s c s1 ins b1 _ IH|ds b s leader l d b1 s1 Hh IH Hel Hc]; [exists b0, s0; rewrite take_nil; constructor|done|].
  destruct (decide (n <= length ds)%nat) as [Hle|Hgt]; [by rewrite take_app_le|].
  exists b1, s1. rewrite take_ge by (rewrite length_app; cbn; lia). by eapply history_commit.
Qed.

(** The leader of an election is above the last commit and in the DAG. *)
Lemma elects_leader b s leader l :
  state_wf (committee b) s -> ConsensusState.committed_round s mod 2 = 0 -> elects (committee b) (leader_schedule b) s leader l ->
  in_dag (ConsensusState.dag s) leader /\ in_dag (ConsensusState.dag s) l /\ Certificate.round l mod 2 = 0 /\
  ConsensusState.committed_round s < Certificate.round l.
Proof.
  intros Hs Hev [He Ha Hl _ Hw]. pose proof (state_dag _ _ Hs) as Hd.
  apply (lead_Some (committee b)) in Hl as (a & _ & Hin & _); [|done].
  destruct (walk_at (committee b) (leader_schedule b) (ConsensusState.dag s) (walk_rounds s leader) (leader, [leader]) Hd Hin) as [Hlin Hr].
  fold (walk (leader_schedule b) (ConsensusState.dag s) leader (walk_rounds s leader)) in Hlin, Hr. rewrite Hw in Hlin, Hr.
  split_and!; [done|done| |]; (destruct Hr as [->|Hr%rev_range_step2_elem]; cbn [fst]; [done|]); [div_lia|lia].
Qed.

(** A commit is a step of the state that keeps the invariant. *)
Lemma commit_of_step b s l d b1 s1 :
  protocol_inv b s -> in_dag (ConsensusState.dag s) l -> Certificate.round l mod 2 = 0 ->
  ConsensusState.committed_round s < Certificate.round l -> commit_of b s l d b1 s1 ->
  commit_step s d s1 /\ CommittedSubDag.leader d = l /\ protocol_inv b1 s1 /\ committee b1 = committee b.
Proof.
  intros (Hb & Hs & Hsc) Hin He Ha (seq & scores & ch & Hseq & Hres & Hd & Hs1 & Hup).
  destruct (commit_one (E := ConsensusError) b s l Hb Hs Hsc Hin He Ha) as (seq' & scores' & Hseq' & Hres' & Hdom & Hstep).
  rewrite Hseq in Hseq'. injection Hseq' as <-. rewrite Hres in Hres'. injection Hres' as <-. cbv zeta in Hstep. rewrite <-Hd, <-Hs1 in Hstep.
  destruct (update_leader_schedule_ok (E := ConsensusError) b (Certificate.round l) scores Hb Hdom) as (b' & ch' & Hup' & Hb' & Hcb).
  rewrite Hup in Hup'. injection Hup' as <- <-. split_and!; [done|by subst d| |done]. split_and!; [done|rewrite Hcb..].
  - by eapply commit_step_wf.
  - subst s1. intros d' [= <-]. by subst d.
Qed.

Record history_inv (U : Certificate.t -> Prop) b s : Prop := {
  hi_protocol : protocol_inv b s;
  hi_committee : committee b = committee b0;
  hi_even : ConsensusState.committed_round s mod 2 = 0;
  hi_dag x : in_dag (ConsensusState.dag s) x -> U x;
}.

Lemma core_wf b s b1 : core b s b1 s -> bullshark_wf b -> bullshark_wf b1.
Proof. intros [Hc Hp Hs Ht _ _ _ _] [? ? ? ? ? ? ?]. rewrite Hc, ?Hp, ?Hs, ?Ht in *. by split. Qed.

Lemma history_invariant U ds b s :
  history_inv U b0 s0 -> (forall x, U x -> cert_wf (committee b0) x) -> history U ds b s -> history_inv U b s.
Proof.
  intros Hi0 HU Hh. induction Hh as [|ds b s c s1 ins b1 _ [(Hb & Hs & Hsc) Hcb Hev Hdag] Hc Hins Hco|ds b s leader l d b1 s1 _ [Hp Hcb Hev Hdag] Hel Hc];
    [done| |].
  - pose proof (try_insert_fields _ _ _ _ Hins) as (Hlr & Hlc & Hlast). pose proof (co_committee _ _ _ _ Hco) as Hcc.
    split; [|congruence| |].
    + split_and!; [by eapply core_wf|rewrite <-Hcc|rewrite <-Hcc; unfold scores_wf; by rewrite Hlast].
      eapply try_insert_wf; [done| |done]. rewrite Hcb. by apply HU.
    + unfold ConsensusState.committed_round. by rewrite Hlr.
    + intros x Hx. unfold ConsensusState.try_insert in Hins.
      destruct (ConsensusState.try_insert_in_dag _ _ _ _ _) as [dag' r] eqn:Hi. injection Hins as <- ->.
      apply try_insert_in_dag_Ok in Hi as [(_ & -> & _)|(_ & _ & _ & _ & ->)]; [by apply Hdag|].
      apply in_dag_insert in Hx as [->|[Hx _]]; [done|by apply Hdag].
  - pose proof Hp as (Hb & Hs & Hsc). destruct (elects_leader b s leader l Hs Hev Hel) as (_ & Hin & He & Ha).
    destruct (commit_of_step b s l d b1 s1 Hp Hin He Ha Hc) as (Hstep & Hld & Hp1 & Hc1).
    split; [done|congruence| |].
    + by rewrite (commit_step_round _ _ _ Hstep), Hld.
    + intros x Hx. apply Hdag. rewrite (step_state _ _ _ Hstep) in Hx. by apply fold_update_in_dag_inv in Hx.
Qed.

(** Inserting changes nothing of what decides the next commit but the DAG. *)
Lemma insert_core b s c s1 ins b1 b' s' :
  ConsensusState.try_insert s c = (s1, Ok ins) -> core b s b1 s -> core b s b' s' -> core b1 s1 b' s'.
Proof.
  intros Hins [? ? ? ? _ _ _ _] [? ? ? ? Hr Hd Hc Hl]. pose proof (try_insert_fields _ _ _ _ Hins) as (Hlr & Hlc & Hlast).
  assert (ConsensusState.gc_depth s1 = ConsensusState.gc_depth s) as Hgd.
  { unfold ConsensusState.try_insert in Hins. destruct (ConsensusState.try_insert_in_dag _ _ _ _ _). by injection Hins as <- _. }
  split; congruence || by rewrite Hlast.
Qed.

End histories.

(** * Two nodes *)

Section nodes.
Context `{NetworkKeys} `{Crypto} `{SeededChoice} `{!BindsHeader}.
Implicit Types (b : Bullshark.t) (s : ConsensusState.t) (cs : list Certificate.t) (ds : list CommittedSubDag.t).

(** The authors of the certificates a certificate references. *)
Definition referenced cs (x : Certificate.t) : gset AuthorityIdentifier :=
  list_to_set (Certificate.origin <$>
    filter (fun y => Certificate.round y + 1 = Certificate.round x /\ Certificate.digest y ∈ Certificate.parents x) cs).

(** Every certificate above the first round references a quorum. *)
Definition quorum_parents (committee0 : Committee.t) cs : Prop :=
  forall x, x ∈ cs -> 1 < Certificate.round x ->
    Committee.reached_quorum committee0 (Committee.weight committee0 (referenced cs x)) = true.

(** No author has two certificates for one round. *)
Definition no_equivocation cs cs' : Prop :=
  forall x y, x ∈ cs -> y ∈ cs' -> Certificate.round x = Certificate.round y ->
    Certificate.origin x = Certificate.origin y -> Certificate.digest x = Certificate.digest y.

Lemma quorate_of_certificates committee0 s cs :
  state_wf committee0 s -> (forall x, x ∈ cs -> cert_wf committee0 x) -> quorum_parents committee0 cs ->
  (forall x, in_dag (ConsensusState.dag s) x -> x ∈ cs) ->
  quorate committee0 (ConsensusState.dag s) (ConsensusState.gc_round s).
Proof.
  intros Hs Hwf Hq Hdag x Hx Hr. specialize (Hq x (Hdag x Hx) ltac:(lia)). unfold Committee.reached_quorum in *.
  assert (Committee.weight committee0 (referenced cs x) <= Committee.weight committee0 (parent_authors (ConsensusState.dag s) x)); [|lia].
  unfold Committee.weight. apply weigh_mono. intros a Ha.
  apply elem_of_list_to_set, list_elem_of_fmap in Ha as (y & -> & [[Hry Hdy] Hy]%list_elem_of_filter).
  destruct (state_closed _ _ Hs x Hx Hr _ Hdy) as (y' & (Hin & Hry' & Hp) & Hd).
  destruct (cert_wf_slot committee0 y' y) as [_ Ho]; [by apply Hwf, Hdag|by apply Hwf|done|].
  apply elem_of_authors_of. exists (Certificate.digest y', y'). split; [|done].
  unfold in_dag, entry in Hin. replace (Certificate.round x - 1) with (Certificate.round y') by lia. rewrite <-Ho.
  by destruct (ConsensusState.dag s !! Certificate.round y').
Qed.

Context (b0 : Bullshark.t) (s0 : ConsensusState.t) (cs cs' : list Certificate.t).
Context (Hi : history_inv b0 (fun x => x ∈ cs) b0 s0) (Hi' : history_inv b0 (fun x => x ∈ cs') b0 s0).
Context (Hwf : forall x, x ∈ cs -> cert_wf (committee b0) x) (Hwf' : forall x, x ∈ cs' -> cert_wf (committee b0) x).
Context (Hq : quorum_parents (committee b0) cs) (Hq' : quorum_parents (committee b0) cs').
Context (Hne : no_equivocation cs cs').

Lemma history_peers b s b' s' :
  history_inv b0 (fun x => x ∈ cs) b s -> history_inv b0 (fun x => x ∈ cs') b' s' -> core b s b' s' -> peers (committee b0) s s'.
Proof.
  intros [(Hb & Hs & _) Hcb Hev Hdag] [(Hb' & Hs' & _) Hcb' _ Hdag'] Hc. rewrite Hcb in Hs. rewrite Hcb' in Hs'. split; [done|done| | | |apply Hc|done].
  - by apply (quorate_of_certificates _ _ cs).
  - by apply (quorate_of_certificates _ _ cs').
  - intros x y Hx Hy. apply Hne; [by apply Hdag|by apply Hdag'].
Qed.

(** Histories with as many commits have the same commits. *)
Lemma histories_agree ds b s ds' b' s' :
  history b0 s0 (fun x => x ∈ cs) ds b s -> history b0 s0 (fun x => x ∈ cs') ds' b' s' -> length ds = length ds' ->
  Forall2 same_sub_dag ds ds' /\ core b s b' s'.
Proof.
  intros Hh. revert ds' b' s'.
  induction Hh as [|ds b s c s1 ins b1 _ IH _ Hins Hco|ds b s leader l d b1 s1 Hh IH Hel Hc]; intros ds' b' s' Hh' Hlen.
  - induction Hh' as [|ds' b' s' c s1 ins b1 _ IH _ Hins Hco|ds' b' s' leader l d b1 s1 _ _ _ _]; [by split; [|apply core_refl]| |].
    + destruct (IH Hlen) as [? Hc']. split; [done|]. apply core_sym. eapply insert_core; [done..|by apply core_sym].
    + rewrite length_app in Hlen. cbn in Hlen. lia.
  - destruct (IH _ _ _ Hh' Hlen) as [? Hc']. split; [done|]. by eapply insert_core.
  - induction Hh' as [|ds' b' s' c s1' ins b1' _ IH' _ Hins Hco|ds' b' s' leader' l' d' b1' s1' Hh' _ Hel' Hc'].
    + rewrite length_app in Hlen. cbn in Hlen. lia.
    + destruct (IH' Hlen) as [? Hc']. split; [done|]. apply core_sym. eapply insert_core; [done..|by apply core_sym].
    + rewrite !length_app in Hlen. cbn in Hlen. destruct (IH ds' b' s' Hh' ltac:(lia)) as [Hds Hco].
      pose proof (history_invariant _ _ _ _ _ _ Hi Hwf Hh) as Hinv. pose proof (history_invariant _ _ _ _ _ _ Hi' Hwf' Hh') as Hinv'.
      pose proof (history_peers _ _ _ _ Hinv Hinv' Hco) as Hpe. pose proof Hinv as [(Hb & Hs & _) Hcb Hev _]. pose proof Hinv' as [(Hb' & Hs' & _) Hcb' Hev' _].
      destruct (elects_leader b s leader l Hs Hev Hel) as (_ & Hin & _). destruct (elects_leader b' s' leader' l' Hs' Hev' Hel') as (_ & Hin' & _).
      rewrite Hcb in Hel, Hs. rewrite Hcb', <-(co_schedule _ _ _ _ Hco) in Hel'. rewrite Hcb' in Hs'.
      assert (same l l') as Hsame by (eapply (elects_agree (committee b0)); [rewrite <-Hcb; apply Hb|done..]).
      destruct (commit_agree (committee b0) b s b' s' l l' d d' b1 s1 b1' s1') as [Hd Hc1]; [done..|].
      split; [|done]. apply Forall2_app; [done|by constructor].
Qed.

End nodes.

(** * Runs are histories *)

Section runs.
Context `{NetworkKeys} `{Crypto} `{SeededChoice} `{!BindsHeader} (b0 : Bullshark.t) (s0 : ConsensusState.t) (U : Certificate.t -> Prop).
Implicit Types (b : Bullshark.t) (s : ConsensusState.t) (l leader : Certificate.t) (ds : list CommittedSubDag.t).

(** A leader that is elected, whatever the walk from it gives. *)
Definition elected b s leader : Prop :=
  elects (committee b) (leader_schedule b) s leader (walk (leader_schedule b) (ConsensusState.dag s) leader (walk_rounds s leader)).1.

(** Stopping the walk above its last leader gives the leaders before that one. *)
Lemma walk_stops committee0 sched dag leader l ls lo :
  dag_wf committee0 dag -> Certificate.round leader mod 2 = 0 -> Certificate.round l mod 2 = 0 ->
  lo <= Certificate.round l < Certificate.round leader ->
  (walk sched dag leader (rev_range_step2 lo (Certificate.round leader - 2))).2 = l :: ls ->
  (forall x, x ∈ ls -> Certificate.round l < Certificate.round x) ->
  (walk sched dag leader (rev_range_step2 (Certificate.round l + 2) (Certificate.round leader - 2))).2 = ls.
Proof.
  intros Hd He Hel Hlo Hw Hls. unfold walk in *. rewrite (rev_range_step2_cut _ (Certificate.round l)), foldl_app in Hw by div_lia.
  set (acc := foldl _ _ (rev_range_step2 (Certificate.round l + 2) _)) in *.
  destruct (walk_grows committee0 sched dag (rev_range_step2 lo (Certificate.round l)) acc Hd) as (k & Hk & Hkin). rewrite Hw in Hk.
  destruct (walk_grows committee0 sched dag (rev_range_step2 (Certificate.round l + 2) (Certificate.round leader - 2)) (leader, [leader]) Hd)
    as (k' & Hk' & Hkin'). fold acc in Hk'. cbn [snd] in Hk'.
  destruct k as [|x [|y k]]; cbn [app] in Hk; simplify_eq; [|done|].
  - exfalso. assert (l ∈ acc.2) as Hin by (rewrite <-Hk; set_solver). rewrite Hk' in Hin.
    apply elem_of_app in Hin as [Hin|Heq%list_elem_of_singleton]; [|rewrite Heq in *; lia]. destruct (Hkin' l Hin) as [_ Hr%rev_range_step2_elem]. lia.
  - exfalso. destruct (Hkin y) as [_ Hr%rev_range_step2_elem]; [set_solver|]. specialize (Hls y ltac:(set_solver)). lia.
Qed.

(** What a commit leaves of the DAG. *)
Lemma commit_step_dag s d s1 :
  commit_step s d s1 ->
  (forall r, Certificate.round (CommittedSubDag.leader d) < r -> ConsensusState.dag s1 !! r = ConsensusState.dag s !! r) /\
  (forall x, in_dag (ConsensusState.dag s1) x -> in_dag (ConsensusState.dag s) x).
Proof.
  intros Hstep. pose proof (commit_step_round _ _ _ Hstep) as Hr. rewrite (step_state _ _ _ Hstep) in *.
  change (ConsensusState.committed_round (foldl ConsensusState.update s (CommittedSubDag.certificates d)) =
    Certificate.round (CommittedSubDag.leader d)) in Hr. split; [|by intros x Hx%fold_update_in_dag_inv].
  intros r Hlt. apply fold_update_lookup. by rewrite Hr.
Qed.

Lemma elected_after_commit b s leader d s1 :
  elected b s leader -> commit_step s d s1 -> Certificate.round (CommittedSubDag.leader d) < Certificate.round leader -> elected b s1 leader.
Proof.
  intros [He Ha Hl Hsup _] Hstep Hlt. destruct (commit_step_dag _ _ _ Hstep) as [Hrow _]. split; [done| | | |done].
  - by rewrite (commit_step_round _ _ _ Hstep).
  - unfold lead, LeaderSchedule.leader_certificate in *. by rewrite Hrow.
  - unfold supporters in *. by rewrite Hrow by lia.
Qed.

(** After the first leader of a walk is committed, the walk gives the others. *)
Lemma walk_after_commit b s leader l ls d s1 :
  state_wf (committee b) s -> elected b s leader -> ConsensusState.committed_round s mod 2 = 0 ->
  (walk (leader_schedule b) (ConsensusState.dag s) leader (walk_rounds s leader)).2 = l :: ls ->
  (forall x, x ∈ ls -> Certificate.round l < Certificate.round x) -> Certificate.round l < Certificate.round leader ->
  commit_step s d s1 -> CommittedSubDag.leader d = l ->
  (walk (leader_schedule b) (ConsensusState.dag s1) leader (walk_rounds s1 leader)).2 = ls.
Proof.
  intros Hs Hel Hev Hw Hls Hlt Hstep Hld. pose proof (state_dag _ _ Hs) as Hd. pose proof (commit_step_wf _ _ _ _ Hstep Hs) as Hs1.
  pose proof (commit_step_round _ _ _ Hstep) as Hr1. pose proof (step_above _ _ _ Hstep) as Ha. pose proof (step_even _ _ _ Hstep) as Hle. rewrite Hld in *.
  apply (walk_stops (committee b)) in Hw; [|done|apply Hel|done|div_lia|done].
  destruct (commit_step_dag _ _ _ Hstep) as [_ Hsub]. destruct (commit_step_gc (committee b) _ _ _ Hs Hstep) as [_ Hgc].
  pose proof (elected_after_commit b s leader d s1 Hel Hstep ltac:(by rewrite Hld)) as Hel1.
  pose proof (el_lead _ _ _ _ _ Hel) as (a & _ & Hin & _)%(lead_Some (committee b)); [|done].
  pose proof (el_lead _ _ _ _ _ Hel1) as (a1 & _ & Hin1 & _)%(lead_Some (committee b)); [|apply (state_dag _ _ Hs1)].
  unfold walk, walk_rounds in *. rewrite Hr1. rewrite <-Hw.
  set (rs := rev_range_step2 _ _) in *.
  assert (forall dag x, dag_wf (committee b) dag -> in_dag dag leader ->
    x ∈ (foldl (walk_step (leader_schedule b) dag) (leader, [leader]) rs).2 -> in_dag dag x) as Hall.
  { intros dag x Hdw Hdl Hx. destruct (walk_grows (committee b) (leader_schedule b) dag rs (leader, [leader]) Hdw) as (k & Hk & Hkin).
    rewrite Hk in Hx. apply elem_of_app in Hx as [Hx| ->%list_elem_of_singleton]; [by apply Hkin|done]. }
  apply (same_in_dag (committee b) (ConsensusState.dag s)); [done| |intros x Hx; by apply Hsub, Hall; [apply (state_dag _ _ Hs1)|..]|by intros x Hx; apply Hall].
  apply (walk_agree (committee b) (leader_schedule b) _ _ (ConsensusState.gc_round s1)); cbn [fst snd]; [by apply state_complete| |done|done|done| |by constructor].
  - split; [done|]. intros x Hx Hxr. apply (state_closed _ _ Hs); [done|lia].
  - intros r Hr%rev_range_step2_elem. pose proof (gc_below_committed _ _ Hs1). lia.
Qed.

Context (Hi0 : history_inv b0 U b0 s0) (HU : forall x, U x -> cert_wf (committee b0) x).

Lemma schedule_unchanged {E} b r scores b1 : update_leader_schedule (E := E) b r scores = Ok (b1, false) -> b1 = b.
Proof. unfold update_leader_schedule. destruct (ReputationScores.final_of_schedule scores); [by intros (? & _ & ?)%bind_Ok|by intros [= <-]]. Qed.

Lemma commit_leaders_history b s leader ls acc ds0 b' s' o ds :
  history b0 s0 U ds0 b s -> elected b s leader -> (walk (leader_schedule b) (ConsensusState.dag s) leader (walk_rounds s leader)).2 = ls ->
  StronglySorted (fun x y => Certificate.round x < Certificate.round y) ls -> last ls = Some leader ->
  commit_leaders (E := ConsensusError) b s ls acc = Ok (b', s', o, ds) ->
  exists ds1, ds = acc ++ ds1 /\ history b0 s0 U (ds0 ++ ds1) b' s' /\ (o = ScheduleChanged -> ConsensusState.committed_round s' < Certificate.round leader).
Proof.
  revert b s acc ds0. induction ls as [|l ls IH]; intros b s acc ds0 Hh Hel Hw Hsort Hlast Hres; [done|]. cbn [commit_leaders] in Hres.
  apply bind_Ok in Hres as (seq & Hseq & (scores & Hsc & Hres)%bind_Ok). apply bind_Ok in Hres as ([b1 ch] & Hup & Hres). cbn [fst snd] in Hres.
  set (d := CommittedSubDag.new _ _ _ _ _) in Hres. set (s1 := ConsensusState.set_last_committed_sub_dag _ d) in Hres.
  assert (commit_of b s l d b1 s1) as Hco by by exists seq, scores, ch.
  pose proof (history_invariant _ _ _ _ _ _ Hi0 HU Hh) as [Hp _ Hev _]. pose proof Hp as (_ & Hs & _).
  assert ((walk (leader_schedule b) (ConsensusState.dag s) leader (walk_rounds s leader)).1 = l) as Hhead.
  { pose proof (walk_head (leader_schedule b) (ConsensusState.dag s) (walk_rounds s leader) leader []) as Hhd. unfold walk in *. rewrite Hw in Hhd. by injection Hhd as <-. }
  assert (elects (committee b) (leader_schedule b) s leader l) as Hell by (rewrite <-Hhead; exact Hel).
  assert (history b0 s0 U (ds0 ++ [d]) b1 s1) as Hh1 by (by eapply history_commit).
  destruct (elects_leader b s leader l Hs Hev Hell) as (_ & Hin & He & Ha).
  destruct (commit_of_step b s l d b1 s1 Hp Hin He Ha Hco) as (Hstep & Hld & _ & _).
  apply StronglySorted_inv in Hsort as [Hsort Hall]. rewrite Forall_forall in Hall.
  destruct ls as [|l2 ls]; [rewrite bool_decide_false, andb_false_r in Hres by naive_solver; cbn in Hres; injection Hres as <- <- <- <-; by exists [d]|].
  rewrite last_cons_cons in Hlast.
  assert (Certificate.round l < Certificate.round leader) as Hlt by (by apply Hall, last_Some_elem_of).
  rewrite bool_decide_true, andb_true_r in Hres by done. destruct ch.
  { injection Hres as <- <- <- <-. exists [d]. split_and!; [done..|]. intros _. by rewrite (commit_step_round _ _ _ Hstep), Hld. }
  apply schedule_unchanged in Hup. subst b1.
  destruct (IH b s1 (acc ++ [d]) (ds0 ++ [d])) as (ds1 & -> & Hh2 & Ho); [done| | |done|done|done|].
  - eapply elected_after_commit; [done..|by rewrite Hld].
  - by eapply walk_after_commit.
  - exists (d :: ds1). rewrite <-!app_assoc in *. done.
Qed.

Lemma commit_leader_history b s r ds0 b' s' o ds :
  history b0 s0 U ds0 b s -> r mod 2 = 0 -> 2 <= r -> ConsensusState.committed_round s < r ->
  commit_leader (E := ConsensusError) b r s = Ok (b', s', o, ds) ->
  history b0 s0 U (ds0 ++ ds) b' s' /\ (o = ScheduleChanged -> ConsensusState.committed_round s' < r).
Proof.
  intros Hh He Hge Hlt Hcl. pose proof (history_invariant _ _ _ _ _ _ Hi0 HU Hh) as [(Hb & Hs & _) _ _ _]. unfold commit_leader in Hcl.
  destruct (leader_certificate_ok (E := ConsensusError) b s r) as (a & oc & Hlc & Hoc); [done|apply (state_dag _ _ Hs)|done|].
  rewrite Hlc in Hcl. cbn [mbind outcome_bind snd] in Hcl. destruct oc as [leader|]; [|injection Hcl as <- <- <- <-; by rewrite app_nil_r].
  destruct (Hoc leader eq_refl) as (Hin & Hr & Ho & Ha). subst r.
  apply bind_Ok in Hcl as (row & Hrow%expect_Ok & Hcl). rewrite (support_weight b s leader row Hb (state_dag _ _ Hs) Hrow) in Hcl.
  destruct (N.ltb_spec (Committee.weight (committee b) (supporters (ConsensusState.dag s) leader)) (Committee.validity_threshold (committee b)));
    [injection Hcl as <- <- <- <-; by rewrite app_nil_r|].
  apply bind_Ok in Hcl as (ls & Hls & Hcl).
  destruct (order_leaders_spec (E := ConsensusError) b s leader a) as (ls' & Hls' & [Hsort _ Hlast]); [done..|by rewrite Ho|].
  rewrite Hls in Hls'. injection Hls' as <-.
  destruct (commit_leaders_history b s leader ls [] ds0 b' s' o ds) as (ds1 & -> & ? & ?); [done| | |done..].
  - split; [done..| | |done].
    + unfold lead. by rewrite Hlc.
    + by apply N.leb_le.
  - symmetry. by apply order_leaders_walk.
Qed.

Lemma commit_loop_history fuel b s r acc ds0 b' s' o ds :
  history b0 s0 U ds0 b s -> r mod 2 = 0 -> 2 <= r -> ConsensusState.committed_round s < r ->
  commit_loop (E := ConsensusError) fuel b r s acc = Ok (b', s', o, ds) -> exists ds1, ds = acc ++ ds1 /\ history b0 s0 U (ds0 ++ ds1) b' s'.
Proof.
  intros Hh He Hge. revert b s acc ds0 Hh. induction fuel as [|fuel IH]; intros b s acc ds0 Hh Hlt Hres; [done|]. cbn [commit_loop] in Hres.
  apply bind_Ok in Hres as ([[[b1 s1] o1] ds1] & Hcl & Hres). destruct (commit_leader_history b s r ds0 b1 s1 o1 ds1) as [Hh1 Ho]; [done..|].
  case_bool_decide as Hch.
  - destruct (IH b1 s1 (acc ++ ds1) (ds0 ++ ds1)) as (ds2 & -> & Hh2); [done|by apply Ho|done|]. exists (ds1 ++ ds2). by rewrite <-!app_assoc in *.
  - injection Hres as <- <- <- <-. by exists ds1.
Qed.

Lemma report_core b r b1 s : report_leader_on_time_metrics (E := ConsensusError) b r = Ok b1 -> core b s b1 s.
Proof.
  intros (_ & _ & [= <-])%bind_Ok. split; try done. destruct (ConsensusState.last_committed_sub_dag s); constructor. apply same_sub_dag_refl.
Qed.

Lemma process_certificate_history ds b s c b' s' o ds1 :
  history b0 s0 U ds b s -> U c -> process_certificate b s c = (b', s', Ok (o, ds1)) -> history b0 s0 U (ds ++ ds1) b' s'.
Proof.
  intros Hh Hc. unfold process_certificate. destruct (ConsensusState.try_insert s c) as [s1 [ins|e| |]] eqn:Hins; [|done..].
  destruct ins; [|intros [= <- <- <- <-]; rewrite app_nil_r; eapply history_insert; [done..|apply core_refl]].
  destruct (report_leader_on_time_metrics b (Certificate.round c)) as [b1| | |] eqn:Hrep; [|done..].
  assert (history b0 s0 U ds b1 s1) as Hh1 by (eapply history_insert; [done..|by eapply report_core]).
  pose proof Hins as [_ Hgc]%try_insert_row. rewrite wrapping_sub32_small by lia.
  destruct (negb _ || _) eqn:Hodd; [intros [= <- <- <- <-]; by rewrite app_nil_r|]. apply orb_false_iff in Hodd as [Heven%negb_false_iff%N.eqb_eq Hge%N.ltb_ge].
  destruct (N.leb_spec (Certificate.round c - 1) (ConsensusState.committed_round s1)); [intros [= <- <- <- <-]; by rewrite app_nil_r|].
  destruct (commit_loop _ b1 _ s1 []) as [[[[b2 s2] o2] ds2]| | |] eqn:Hloop; [|done..].
  destruct (commit_loop_history (N.to_nat (Certificate.round c - 1)) b1 s1 (Certificate.round c - 1) [] ds b2 s2 o2 ds2) as (ds3 & -> & Hh2); [done..|].
  destruct ds3; intros [= <- <- <- <-]; done.
Qed.

Lemma run_history cs b' s' ds :
  (forall x, x ∈ cs -> U x) -> run b0 s0 cs = Ok (b', s', ds) -> history b0 s0 U ds b' s'.
Proof.
  intros Hcs Hrun. apply (foldM_invariant run_step (fun acc => history b0 s0 U acc.2 acc.1.1 acc.1.2)) in Hrun; [done|constructor|].
  intros [[b s] ds1] c acc' Hh Hc. unfold run_step. destruct (process_certificate b s c) as [[b1 s1] r] eqn:Hp.
  destruct r as [[o ds2]| | |]; try done. intros [= <-]. cbn [fst snd] in *. by eapply process_certificate_history; [|apply Hcs|].
Qed.

End runs.

(** * Runs *)

Section agreement.
Context `{NetworkKeys} `{Crypto} `{SeededChoice} `{!BindsHeader}.

Lemma start_inv b gc_depth U : protocol_inv b (ConsensusState.new gc_depth) -> history_inv b U b (ConsensusState.new gc_depth).
Proof.
  intros Hp. split; [done..|]. intros x Hx. unfold in_dag, entry in Hx. cbn in Hx. by rewrite lookup_empty in Hx.
Qed.

(** The leaders of committed sub-dags are members of the committee. *)
Lemma run_leaders b gc_depth cs b1 s1 ds d :
  protocol_inv b (ConsensusState.new gc_depth) -> (forall x, x ∈ cs -> cert_wf (committee b) x) ->
  run b (ConsensusState.new gc_depth) cs = Ok (b1, s1, ds) -> d ∈ ds -> cert_wf (committee b) (CommittedSubDag.leader d).
Proof.
  intros Hp Hwf Hrun Hd. pose proof (start_inv b gc_depth (fun x => x ∈ cs) Hp) as Hi.
  apply (run_history b (ConsensusState.new gc_depth) (fun x => x ∈ cs)) in Hrun; [|done..].
  induction Hrun as [|ds b' s' c s2 ins b2 _ IH|ds b' s' leader l d' b2 s2 Hh IH Hel Hc]; [by apply elem_of_nil in Hd|by apply IH|].
  apply elem_of_app in Hd as [Hd|Hd%list_elem_of_singleton]; [by apply IH|subst d'].
  pose proof (history_invariant b (ConsensusState.new gc_depth) _ _ _ _ Hi Hwf Hh) as [Hp' Hcb Hev Hdag]. pose proof Hp' as (_ & Hs & _).
  destruct (elects_leader b' s' leader l Hs Hev Hel) as (_ & Hin & He & Ha).
  destruct (commit_of_step b' s' l d b2 s2 Hp' Hin He Ha Hc) as (_ & -> & _). by apply Hwf, Hdag.
Qed.

(** From one starting point, the shorter of two sequences of commits is a prefix of the
    longer one. *)
Lemma runs_agree b gc_depth cs cs' b1 s1 ds b1' s1' ds' :
  protocol_inv b (ConsensusState.new gc_depth) ->
  (forall x, x ∈ cs -> cert_wf (committee b) x) -> (forall x, x ∈ cs' -> cert_wf (committee b) x) ->
  quorum_parents (committee b) cs -> quorum_parents (committee b) cs' -> no_equivocation cs cs' ->
  run b (ConsensusState.new gc_depth) cs = Ok (b1, s1, ds) -> run b (ConsensusState.new gc_depth) cs' = Ok (b1', s1', ds') ->
  let n := (length ds `min` length ds')%nat in Forall2 same_sub_dag (take n ds) (take n ds').
Proof.
  intros Hp Hwf Hwf' Hq Hq' Hne Hrun Hrun' n. pose proof (start_inv b gc_depth (fun x => x ∈ cs) Hp) as Hi. pose proof (start_inv b gc_depth (fun x => x ∈ cs') Hp) as Hi'.
  apply (run_history b (ConsensusState.new gc_depth) (fun x => x ∈ cs)) in Hrun; [|done..].
  apply (run_history b (ConsensusState.new gc_depth) (fun x => x ∈ cs')) in Hrun'; [|done..].
  destruct (history_prefix b (ConsensusState.new gc_depth) _ ds _ _ n Hrun) as (b2 & s2 & Hh).
  destruct (history_prefix b (ConsensusState.new gc_depth) _ ds' _ _ n Hrun') as (b2' & s2' & Hh').
  eapply (histories_agree b (ConsensusState.new gc_depth) cs cs'); [done..|]. rewrite !length_take. lia.
Qed.

(** C4: Agreement.  Two nodes start Bullshark in the same state and process certificates of
    the same protocol run, each its own set, in its own order: certificates have validated
    headers, reference a quorum of the round below and no author has two different ones for
    a round.  Then the nodes commit the same sub-dags in the same order, with the same
    leaders, certificates, reputation scores and timestamps, as far as both have committed. *)
Theorem commit_agreement b gc_depth cs cs' b1 s1 ds b1' s1' ds' :
  protocol_inv b (ConsensusState.new gc_depth) ->
  Forall (cert_wf (committee b)) cs -> Forall (cert_wf (committee b)) cs' ->
  quorum_parents (committee b) cs -> quorum_parents (committee b) cs' -> no_equivocation cs cs' ->
  run b (ConsensusState.new gc_depth) cs = Ok (b1, s1, ds) -> run b (ConsensusState.new gc_depth) cs' = Ok (b1', s1', ds') ->
  let n := (length ds `min` length ds')%nat in Forall2 same_sub_dag (take n ds) (take n ds').
Proof. rewrite !Forall_forall. apply runs_agree. Qed.

End agreement.

(** * Evaluation *)

(** A hash that binds the whole header: the code of the list of its fields. *)
Definition whole_hash (h : Header.t) : N :=
  N.pos (encode ([Header.author h; Header.round h; Header.epoch h; Header.created_at h; (Header.latest_execution_block h).1;
    (Header.latest_execution_block h).2; N.pos (encode (Header.payload h))] ++ elements (Header.parents h))).

Definition whole_crypto : Crypto := demo_crypto_of whole_hash.

Lemma whole_binds_header : @BindsHeader whole_crypto.
Proof.
  constructor. intros [a r e c p ps [n hh] cell] [a' r' e' c' p' ps' [n' hh'] cell'] [= Heq]. apply (inj encode) in Heq. cbn in Heq.
  injection Heq as -> -> -> -> -> -> ->%(inj encode) Hps. unfold Header.serialized. cbn. f_equal. apply set_eq. intros x. by rewrite <-!elem_of_elements, Hps.
Qed.

Section witnesses.
#[local] Existing Instances demo_keys whole_crypto demo_choice whole_binds_header.

(** The first node receives three full rounds; the second receives them in another order,
    without one certificate of the last round. *)
Definition full_view : list Certificate.t := demo_round1 ++ demo_round2 ++ demo_round3.
Definition partial_view : list Certificate.t := reverse demo_round1 ++ reverse demo_round2 ++ drop 1 (reverse demo_round3).

Definition view_result (cs : list Certificate.t) : Bullshark.t * ConsensusState.t * list CommittedSubDag.t :=
  match run demo_bullshark (ConsensusState.new 50) cs with Ok r => r | _ => (demo_bullshark, ConsensusState.new 50, []) end.

Lemma quorum_parents_all committee0 cs :
  Forall (fun x => 1 < Certificate.round x -> Committee.reached_quorum committee0 (Committee.weight committee0 (referenced cs x)) = true) cs ->
  quorum_parents committee0 cs.
Proof. by rewrite Forall_forall. Qed.

Lemma no_equivocation_all cs cs' :
  Forall (fun x => Forall (fun y => Certificate.round x = Certificate.round y ->
    Certificate.origin x = Certificate.origin y -> Certificate.digest x = Certificate.digest y) cs') cs -> no_equivocation cs cs'.
Proof. intros Hall x y Hx Hy. rewrite Forall_forall in Hall. specialize (Hall x Hx). rewrite Forall_forall in Hall. by apply Hall. Qed.

Lemma whole_protocol_inv : protocol_inv demo_bullshark (ConsensusState.new 50).
Proof.
  destruct demo_protocol_inv as (Hb & _ & _). split; [|split; [apply new_state_wf|done]]. destruct Hb. by split.
Qed.

Lemma commit_agreement_witness :
  let n := (length (view_result full_view).2 `min` length (view_result partial_view).2)%nat in
  n = 1%nat /\ Forall2 same_sub_dag (take n (view_result full_view).2) (take n (view_result partial_view).2).
Proof.
  split; [by vm_compute|].
  apply (commit_agreement demo_bullshark 50 full_view partial_view (view_result full_view).1.1 (view_result full_view).1.2 (view_result full_view).2
    (view_result partial_view).1.1 (view_result partial_view).1.2 (view_result partial_view).2).
  - apply whole_protocol_inv.
  - unfold cert_wf. apply (bool_decide_unpack _). by vm_compute.
  - unfold cert_wf. apply (bool_decide_unpack _). by vm_compute.
  - apply quorum_parents_all, (bool_decide_unpack _). by vm_compute.
  - apply quorum_parents_all, (bool_decide_unpack _). by vm_compute.
  - apply no_equivocation_all, (bool_decide_unpack _). by vm_compute.
  - vm_compute. reflexivity.
  - vm_compute. reflexivity.
Defined.

End witnesses.
