(* ===== verification/CertManagerSafety.v ===== *)
(** The properties of the certificate manager: what unlocking a certificate releases, the
    causal order of what is forwarded to the consensus, the garbage collection of pending
    certificates, and that the consensus accepts everything the manager forwards. *)

From S2P Require Import Prelude Storage Committee Certificate CertStore PendingCerts Output ConsensusState.
From S2P Require Import OrderDag LeaderSchedule Bullshark BullsharkFacts Demo CertificateSafety Aggregators.
From S2P Require Import CertManager BullsharkSafety CommitOrder.
Import PendingCertificate PendingFacts CertManagerFacts DagFacts.

(** * Delivery to the consensus *)

Section delivery.
Context `{NetworkKeys} `{Crypto} `{!CollisionFree} (committee : Committee.t).
Implicit Types (s : ConsensusState.t) (q : Digest) (r : Round).

(** The consensus holds the certificate with digest [q] of round [r], or it has collected
    that round. *)
Definition held s q r : Prop :=
  (exists y, in_dag (ConsensusState.dag s) y /\ Certificate.digest y = q /\ Certificate.round y = r) \/
  r <= ConsensusState.gc_round s.

(** No author has two certificates for one round, and certificates above the first round
    have parents. *)
Record honest (U : Certificate.t -> Prop) : Prop := {
  honest_wf x : U x -> cert_wf committee x;
  honest_rounds : CertificateFacts.parent_rounds U;
  honest_slot x y : U x -> U y -> Certificate.round x = Certificate.round y ->
    Certificate.origin x = Certificate.origin y -> Certificate.digest x = Certificate.digest y;
  honest_parents x : U x -> 1 < Certificate.round x -> Certificate.parents x <> ∅;
}.

Lemma held_above s q r : held s q r -> ConsensusState.gc_round s < r ->
  exists y, in_dag (ConsensusState.dag s) y /\ Certificate.digest y = q /\ Certificate.round y = r.
Proof. intros [?|?] Hr; [done|lia]. Qed.

Lemma check_parents_held s c :
  (forall q, q ∈ Certificate.parents c -> held s q (Certificate.round c - 1)) ->
  (1 < Certificate.round c -> Certificate.parents c <> ∅) ->
  ConsensusState.check_parents c (ConsensusState.dag s) (ConsensusState.gc_round s) = Ok ().
Proof.
  intros Hheld Hne. unfold ConsensusState.check_parents.
  destruct (N.leb_spec (Certificate.round c) (ConsensusState.gc_round s + 1)) as [|Hr]; [done|].
  assert (Hin : forall q, q ∈ Certificate.parents c ->
    exists y, entry (ConsensusState.dag s) (Certificate.round c - 1) (Certificate.origin y) = Some (q, y)).
  { intros q Hq. destruct (held_above s q (Certificate.round c - 1)) as (y & Hy & <- & <-); [by apply Hheld|lia|by exists y]. }
  destruct (set_choose_L (Certificate.parents c)) as [q0 Hq0]; [apply Hne; lia|]. unfold entry in Hin.
  destruct (ConsensusState.dag s !! _) as [row|] eqn:Hrow; [|by destruct (Hin q0 Hq0)]. simpl in Hin.
  assert (forall q, q ∈ bset_iter (Certificate.parents c) -> q ∈@{gset Digest} list_to_set ((map_to_list row).*2).*1) as Hall.
  { intros q Hq%elem_of_bset_iter. destruct (Hin q Hq) as (y & Hy). apply elem_of_list_to_set, list_elem_of_fmap.
    exists (q, y). split; [done|]. apply list_elem_of_fmap. exists (Certificate.origin y, (q, y)).
    split; [done|by apply elem_of_map_to_list]. }
  induction (bset_iter (Certificate.parents c)) as [|q l IH]; [done|]. cbn [foldM].
  rewrite bool_decide_eq_true_2 by set_solver. simpl. apply IH. set_solver.
Qed.

Lemma fold_update_gc_mono s l :
  state_wf committee s -> ConsensusState.gc_round s <= ConsensusState.gc_round (foldl ConsensusState.update s l).
Proof.
  intros Hs. pose proof (fold_update_wf _ _ l Hs) as Hs'.
  rewrite (state_gc _ _ Hs), (state_gc _ _ Hs'), fold_update_gc_depth, fold_update_committed_round.
  unfold gc_round_of. assert (forall k a, a <= foldr N.max a k) as Hk by (induction k; simpl; intros; [lia|etransitivity; [eauto|lia]]).
  specialize (Hk (Certificate.round <$> l) (ConsensusState.committed_round s)). lia.
Qed.

Lemma fold_update_in_dag_gc s l c :
  state_wf committee s -> in_dag (ConsensusState.dag s) c ->
  ConsensusState.gc_round (foldl ConsensusState.update s l) < Certificate.round c ->
  in_dag (ConsensusState.dag (foldl ConsensusState.update s l)) c.
Proof.
  revert s. induction l as [|x l IH]; intros s Hs Hin Hr; [done|]. cbn [foldl] in *.
  pose proof (update_wf _ _ x Hs) as Hs'. apply IH; [done| |done]. simpl. apply in_dag_filter. split; [done|].
  pose proof (fold_update_gc_mono (ConsensusState.update s x) l Hs'). unfold ConsensusState.gc_round in *. simpl in *. lia.
Qed.

(** A certificate whose parents are held is accepted, and held from then on. *)
Lemma try_insert_held s c :
  state_wf committee s ->
  (forall q, q ∈ Certificate.parents c -> held s q (Certificate.round c - 1)) ->
  (1 < Certificate.round c -> Certificate.parents c <> ∅) ->
  (forall y, in_dag (ConsensusState.dag s) y -> Certificate.round y = Certificate.round c ->
     Certificate.origin y = Certificate.origin c -> Certificate.digest y = Certificate.digest c) ->
  exists s' ins, ConsensusState.try_insert s c = (s', Ok ins) /\
    (forall q r, held s q r \/ (q = Certificate.digest c /\ r = Certificate.round c) -> held s' q r).
Proof.
  intros Hs Hheld Hne Hslot. unfold ConsensusState.try_insert, ConsensusState.try_insert_in_dag.
  destruct (N.leb_spec (Certificate.round c) (ConsensusState.gc_round s)) as [Hr|Hr].
  { eexists _, false. split; [done|]. intros q r [[Hy|?]|[-> ->]]; [by left|by right|by right]. }
  rewrite check_parents_held by done.
  assert (Hheld' : forall q r, held s q r \/ (q = Certificate.digest c /\ r = Certificate.round c) ->
    held (ConsensusState.set_dag s (<[Certificate.round c := <[Certificate.origin c := (Certificate.digest c, c)]>
        (default ∅ (ConsensusState.dag s !! Certificate.round c))]> (ConsensusState.dag s))) q r).
  { intros q r [[(y & Hy & <- & <-)|?]|[-> ->]]; [|by right|left; exists c; split; [apply in_dag_insert; by left|done]].
    left. destruct (decide (Certificate.round y = Certificate.round c /\ Certificate.origin y = Certificate.origin c)) as [[Hry Hoy]|Hn].
    - exists c. split_and!; [apply in_dag_insert; by left|symmetry; by apply Hslot|done].
    - exists y. split; [apply in_dag_insert; by right|done]. }
  destruct (default ∅ _ !! _) as [[d e]|] eqn:He; [|by eexists _, _].
  assert (entry (ConsensusState.dag s) (Certificate.round c) (Certificate.origin c) = Some (d, e)) as Hent.
  { unfold entry. by destruct (ConsensusState.dag s !! Certificate.round c). }
  destruct (state_dag _ _ Hs _ _ _ _ Hent) as (Hre & Hoe & _). rewrite Hslot; [|by eapply entry_in_dag; [apply Hs|]|done|done].
  rewrite N.eqb_refl. by eexists _, _.
Qed.

Lemma commit_step_held s d s' q r :
  state_wf committee s -> commit_step s d s' -> held s q r -> held s' q r.
Proof.
  intros Hs Hstep Hh. destruct (commit_step_gc committee _ _ _ Hs Hstep) as [_ Hgc].
  destruct (decide (r <= ConsensusState.gc_round s')) as [|Hr]; [by right|].
  destruct Hh as [(y & Hy & <- & <-)|?]; [|lia]. left. exists y. split; [|done].
  rewrite (step_state _ _ _ Hstep) in Hr |- *. apply fold_update_in_dag_gc; [done|done|]. simpl in Hr.
  unfold ConsensusState.gc_round in *. simpl in *. lia.
Qed.

Lemma commits_held s ds s' q r :
  state_wf committee s -> commits s ds s' -> held s q r -> held s' q r.
Proof.
  intros Hs Hcom. induction Hcom as [s|s d s1 ds s2 Hstep _ IH]; [done|].
  intros Hh. apply IH; [by eapply commit_step_wf|by eapply commit_step_held].
Qed.

Lemma commits_gc_mono s ds s' :
  state_wf committee s -> commits s ds s' -> ConsensusState.gc_round s <= ConsensusState.gc_round s'.
Proof.
  intros Hs Hcom. induction Hcom as [s|s d s1 ds s2 Hstep _ IH]; [done|].
  destruct (commit_step_gc committee _ _ _ Hs Hstep) as [_ Hgc]. etransitivity; [exact Hgc|]. apply IH. by eapply commit_step_wf.
Qed.

Context `{SeededChoice} (U : Certificate.t -> Prop) (stored : gset Digest) (gc : Round).

(** What the consensus keeps after the certificates [l]. *)
Record delivered (s0 : ConsensusState.t) (l : list Certificate.t) (b : Bullshark.t) s : Prop := {
  dl_inv : protocol_inv b s;
  dl_committee : Bullshark.committee b = committee;
  dl_dag x : in_dag (ConsensusState.dag s) x -> U x;
  dl_gc : gc <= ConsensusState.gc_round s;
  dl_held q r : held s0 q r -> held s q r;
  dl_new x : x ∈ l -> held s (Certificate.digest x) (Certificate.round x);
}.

Lemma run_step_delivered s0 l b s ds c :
  honest U -> delivered s0 l b s -> U c ->
  (forall q, q ∈ Certificate.parents c -> q ∈ stored -> held s0 q (Certificate.round c - 1)) ->
  (forall x, x ∈ l -> U x) ->
  (forall q, q ∈ Certificate.parents c -> known stored l q \/ Certificate.round c <= gc + 1) ->
  exists b' s' ds', run_step (b, s, ds) c = Ok (b', s', ds') /\ delivered s0 (l ++ [c]) b' s'.
Proof.
  intros HU [Hinv Hcb Hdag Hgc Hheld Hnew] Hc Hst Hl Hpar.
  pose proof Hinv as (_ & Hs & _). rewrite Hcb in Hs.
  destruct (try_insert_held s c) as (s1 & ins & Hins & Hh1); [done| |by apply (honest_parents _ HU)| |].
  { intros q Hq. destruct (Hpar q Hq) as [[Hk|(y & -> & Hy)%list_elem_of_fmap]|Hr]; [by apply Hheld, Hst| |right; lia].
    pose proof (honest_rounds _ HU c y Hc (Hl y Hy) Hq) as Hr. replace (Certificate.round c - 1) with (Certificate.round y) by lia.
    by apply Hnew. }
  { intros y Hy Hr Ho. apply (honest_slot _ HU); [by apply Hdag|done..]. }
  unfold run_step. destruct (Bullshark.process_certificate b s c) as [[b' s'] r] eqn:Hp.
  apply process_certificate_spec in Hp; [|done|rewrite Hcb; by apply (honest_wf _ HU)].
  destruct r as [[o ds']|e| |]; [|destruct Hp as (? & Hx & _); congruence|done..].
  destruct Hp as (Hinv' & Hcb' & s1' & ins' & Hins' & Hcom & Hs1). rewrite Hins in Hins'. injection Hins' as <- <-.
  eexists _, _, _. split; [done|]. rewrite Hcb in *.
  assert (causal_inv U s' ([] ++ ds')) as Hcau.
  { apply (causal_inv_commits committee U (honest_wf _ HU) (honest_rounds _ HU) s1); [done..|].
    apply (causal_inv_insert U s c s1 ins); [done|done|]. constructor; [done|by intros x ?%elem_of_nil|by intros x p ?%elem_of_nil|].
    by intros [|i] j y p Hi. }
  assert (Hk : forall q r, held s q r \/ (q = Certificate.digest c /\ r = Certificate.round c) -> held s' q r).
  { intros q r Hq. by apply (commits_held s1 ds'), Hh1. }
  constructor; [done|done|apply Hcau| |intros q r Hq; apply Hk; left; by apply Hheld|].
  - apply try_insert_fields in Hins as (Hlr & _). etransitivity; [exact Hgc|]. transitivity (ConsensusState.gc_round s1).
    + unfold ConsensusState.gc_round. by rewrite Hlr.
    + by apply (commits_gc_mono s1 ds').
  - intros x [Hx| ->%list_elem_of_singleton]%elem_of_app; [apply Hk; left; by apply Hnew|apply Hk; by right].
Qed.

Lemma run_delivered b s l :
  honest U -> protocol_inv b s -> Bullshark.committee b = committee ->
  (forall x, in_dag (ConsensusState.dag s) x -> U x) -> gc <= ConsensusState.gc_round s ->
  (forall x, x ∈ l -> U x) ->
  (forall x q, x ∈ l -> q ∈ Certificate.parents x -> q ∈ stored -> held s q (Certificate.round x - 1)) ->
  causally_forwarded stored gc l ->
  exists b' s' ds, run b s l = Ok (b', s', ds) /\ delivered s l b' s'.
Proof.
  intros HU Hinv Hcb Hdag Hgc. induction l as [|c l IH] using rev_ind; intros Hl Hst Hcau.
  - eexists _, _, _. split; [done|]. constructor; try done. by intros x ?%elem_of_nil.
  - destruct IH as (b1 & s1 & ds1 & Hrun & Hd).
    + intros x Hx. apply Hl. set_solver.
    + intros x q Hx. apply Hst. set_solver.
    + intros i x q Hi Hq. assert (i < length l)%nat by (by apply lookup_lt_Some in Hi).
      destruct (Hcau i x q) as [Hk|Hk]; [by rewrite lookup_app_l|done| |by right].
      left. rewrite take_app_le in Hk by lia. done.
    + destruct (run_step_delivered s l b1 s1 ds1 c) as (b2 & s2 & ds2 & Hstep & Hd2); [done|done|apply Hl; set_solver| | | |].
      * intros q. apply Hst. set_solver.
      * intros x Hx. apply Hl. set_solver.
      * intros q Hq. destruct (Hcau (length l) c q) as [Hk|Hk]; [by rewrite lookup_app_r, Nat.sub_diag|done| |by right].
        left. by rewrite take_app_length in Hk.
      * exists b2, s2, ds2. split; [|done]. unfold run in *. rewrite foldM_app, Hrun. cbn -[run_step]. by rewrite Hstep.
Qed.

End delivery.

(** * Properties *)

Section properties.
Context `{NetworkKeys} `{Crypto}.

(** Taking a certificate from the pending ones is exact: the loop ends, every pending
    certificate is either returned or kept; a returned certificate waited only for the
    given one and for certificates returned before it, none is returned twice, and a kept
    one still waits for exactly the parents that were not released. *)
Theorem update_pending_correct m r d :
  pending_wf m ->
  exists m' ready, PendingCertificateManager.update_pending m r d = (m', Ok ready) /\ pending_wf m' /\
    NoDup (Certificate.digest <$> ready) /\
    (forall c, is_Some (PendingCertificateManager.pending m !! c) ->
       (c ∈ Certificate.digest <$> ready <-> PendingCertificateManager.pending m' !! c = None)) /\
    (forall i x, ready !! i = Some x -> exists p,
       PendingCertificateManager.pending m !! Certificate.digest x = Some p /\ certificate p = x /\
       forall q, q ∈ missing_parent_digests p -> (Certificate.round x - 1, q) ∈ (r, d) :: (item <$> take i ready)) /\
    (forall c p', PendingCertificateManager.pending m' !! c = Some p' -> exists p,
       PendingCertificateManager.pending m !! c = Some p /\ certificate p = certificate p' /\
       forall q, q ∈ missing_parent_digests p' <->
         q ∈ missing_parent_digests p /\ (pround p - 1, q) ∉ (r, d) :: (item <$> ready)).
Proof.
  intros Hwf. destruct (update_pending_spec m r d Hwf) as (ready & Hu & Hcas).
  eexists _, ready. split; [exact Hu|]. split_and!; [by apply state_after_wf|apply Hcas| | |].
  - intros c [p Hp]. cbn [state_after PendingCertificateManager.pending]. rewrite (pending_after_None _ _ _ _ Hp). rewrite list_elem_of_fmap. split.
    + intros (x & -> & Hx). apply (cas_ready _ _ _ _ _ Hcas) in Hx as (c' & p' & Hp' & <- & Hrem).
      rewrite (pw_digest _ Hwf _ _ Hp') in Hp. congruence.
    + intros Hrem. exists (certificate p). split; [symmetry; by apply (pw_digest _ Hwf)|].
      apply (cas_ready _ _ _ _ _ Hcas). by eauto.
  - intros i x Hi. destruct (cas_order _ _ _ _ _ Hcas i x Hi) as (c & p & Hp & <- & Hrem). exists p.
    rewrite (pw_digest _ Hwf _ _ Hp). split_and!; [done|done|]. intros q Hq.
    destruct (decide ((pround p - 1, q) ∈ (r, d) :: (item <$> take i ready))) as [|Hn]; [done|].
    assert (q ∈ remaining ((r, d) :: (item <$> take i ready)) p) as Hin by (by apply elem_of_filter). by rewrite Hrem in Hin.
  - intros c p' (p & Hp & _ & ->)%pending_after_Some. exists p. split_and!; [done|done|]. intros q. simpl.
    unfold remaining. rewrite elem_of_filter. tauto.
Qed.

(** The manager forwards certificates in causal order: processing any batch of
    certificates ends, only with an expected result unless a receiver is gone, and keeps
    the invariant that each forwarded certificate is verified and follows its parents
    (stored before, or forwarded earlier) unless they are garbage collected, and that the
    others wait for a parent. *)
Theorem process_verified_causal committee genesis U stored m certs m' r :
  manager_inv U stored m -> Forall U certs ->
  CertificateManager.process_verified_certificates committee genesis m certs = (m', r) ->
  fatal m r \/
  (expected m r /\ manager_inv U stored m' /\
   causally_forwarded stored (CertificateManager.gc_round m) (CertificateManager.new_certificates m')).
Proof.
  intros Hm HU Hp. apply (process_loop_inv committee genesis U stored) in Hp as [?|(He & Hm' & Hg & _)];
    [by left| |done|done|by left].
  right. rewrite <-Hg. split_and!; [done|done|apply Hm'].
Qed.

(** Garbage collection of pending certificates: when the collected round advances the
    loop ends, the invariant is kept, and no pending certificate is left that waits for a
    collected round. *)
Theorem gc_round_unblocks committee U stored m g m' r :
  CertificateFacts.parent_rounds U -> manager_inv U stored m -> CertificateManager.gc_round m <= g ->
  CertificateManager.process_gc_round committee (CertificateManager.process_next_round m g) = (m', r) ->
  fatal m r \/ unstored m r \/
  (r = Ok () /\ manager_inv U stored m' /\ CertificateManager.gc_round m' = g /\
   forall c p, PendingCertificateManager.pending (CertificateManager.pending m') !! c = Some p -> g + 1 < pround p).
Proof.
  intros HU Hm Hg Hp. apply (gc_loop_inv committee U stored HU) in Hp as [?|[?|(-> & Hm' & Hg' & _ & Hk)]];
    [by left|by right; left| |by apply process_next_round_inv|done].
  right; right. split_and!; [done|done|done|]. intros c p Hc. pose proof (mi_pending _ _ _ Hm') as Hwf.
  destruct (set_choose_L (missing_parent_digests p)) as [q Hq]; [by eapply pw_missing|].
  destruct (pw_registered _ Hwf c p q Hc Hq) as (S & HS & _). specialize (Hk _ _ (mk_is_Some _ _ HS)). simpl in Hk. lia.
Qed.

(** C14: the certificate manager task, over any sequence of commands, GC rounds and
    timeouts, and whichever of the receivers of its channels and the thread of the database
    go away meanwhile, ends by itself only when one of those is gone, with the error that
    names it; otherwise it answers every command, with an acceptance, a pending or an
    unverified certificate, or the error of the fetcher or the database that is gone, and
    what it has forwarded to the consensus is in causal order.  It is assumed that the task
    starts over a store whose indexes lead to its certificates and in a state with the
    invariant (which a new manager has), that the rounds the garbage collector announces do
    not decrease, and that the certificates it is given are in the round after their
    parents. *)
Theorem manager_run_causal committee genesis U stored m es m' rs o :
  CertificateFacts.parent_rounds U -> manager_inv U stored m ->
  CertStoreFacts.store_wf (CertificateManager.node_storage m) -> events_ok U (CertificateManager.gc_round m) es ->
  CertificateManager.run committee genesis m es = (m', rs, o) ->
  Forall (reply_ok m es) rs /\
  (stopped m es o \/
   (o = Ok () /\ manager_inv U stored m' /\ length rs = length es /\
    causally_forwarded stored (CertificateManager.gc_round m') (CertificateManager.new_certificates m'))).
Proof.
  intros HU Hm Hwf He. unfold CertificateManager.run.
  destruct (CertificateManager.recover_state committee m) as [m0 r0] eqn:Hrec.
  apply (recover_state_inv _ U stored) in Hrec as (Hm0 & Hg0 & Hc0 & Hr0); [|done..].
  destruct Hr0 as [->|[-> Hp]].
  - rewrite <-Hg0 in He. intros Hl. destruct (run_loop_inv _ _ U stored HU _ _ _ _ _ Hm0 He Hl) as [Hrs Hend].
    split; [by apply (replies_channels m0)|].
    destruct Hend as [Hs|(-> & Hm' & Hlen)]; [left; by apply (stopped_channels m0)|right; split_and!; [done..|apply Hm']].
  - intros [= <- <- <-]. split; [constructor|]. left. exists CertificateManager.ParentsReceiver. split; [by right|by left].
Qed.

(** The consensus accepts everything the manager forwards: when no author equivocates
    and the manager collects no more than the consensus, feeding the forwarded
    certificates to the protocol in order never fails with a missing parent, a missing
    round or an equivocation. *)
Theorem forwarded_accepted `{!CollisionFree} `{SeededChoice} b s U stored m :
  protocol_inv b s -> honest (Bullshark.committee b) U ->
  (forall x, in_dag (ConsensusState.dag s) x -> U x) ->
  manager_inv U stored m -> CertificateManager.gc_round m <= ConsensusState.gc_round s ->
  (forall x q, U x -> q ∈ Certificate.parents x -> q ∈ stored -> held s q (Certificate.round x - 1)) ->
  exists b' s' ds, run b s (CertificateManager.new_certificates m) = Ok (b', s', ds) /\
    forall x, x ∈ CertificateManager.new_certificates m -> held s' (Certificate.digest x) (Certificate.round x).
Proof.
  intros Hinv HU Hdag Hm Hgc Hst. pose proof (mi_verified _ _ _ Hm) as Hv.
  destruct (run_delivered (Bullshark.committee b) U stored (CertificateManager.gc_round m) b s
    (CertificateManager.new_certificates m)) as (b' & s' & ds & Hrun & Hd); [done..| | |apply Hm|].
  - intros x Hx. by apply Hv.
  - intros x q Hx. by apply Hst, Hv.
  - exists b', s', ds. split; [done|]. intros x. apply Hd.
Qed.

End properties.

(** * Witnesses *)

Section witnesses.
#[local] Existing Instances demo_keys demo_crypto demo_choice demo_collision_free.

Definition demo_manager : CertificateManager.t := CertificateManager.new CertificateStore.empty 0 0.

Definition demo_known (x : Certificate.t) : Prop := x ∈ demo_certs.

Lemma demo_manager_inv : manager_inv demo_known ∅ demo_manager.
Proof. by apply new_manager_inv. Qed.

(** The second round arrives before the first one. *)
Definition demo_waiting : CertificateManager.t :=
  (CertificateManager.process_verified_certificates demo_committee ∅ demo_manager demo_round2).1.

Definition demo_forwarded : CertificateManager.t :=
  (CertificateManager.process_verified_certificates demo_committee ∅ demo_waiting demo_round1).1.

Lemma demo_rounds_known : Forall demo_known demo_round1 /\ Forall demo_known demo_round2.
Proof. unfold demo_known, demo_certs. split; apply Forall_forall; set_solver. Qed.

Lemma demo_step m certs m' r :
  manager_inv demo_known ∅ m -> Forall demo_known certs ->
  CertificateManager.process_verified_certificates demo_committee ∅ m certs = (m', r) -> channels m = (true, true, true, true) ->
  manager_inv demo_known ∅ m'.
Proof.
  intros Hm Hc Hp Ho. apply (process_loop_inv demo_committee ∅ demo_known ∅) in Hp as [Hf|(_ & Hm' & _)];
    [|done|done|done|by left].
  exfalso. unfold fatal in Hf. rewrite Ho in Hf. simpl in Hf. naive_solver.
Qed.

Lemma demo_waiting_inv : manager_inv demo_known ∅ demo_waiting.
Proof.
  apply (demo_step demo_manager demo_round2 _ _ demo_manager_inv (proj2 demo_rounds_known) (surjective_pairing _)).
  by vm_compute.
Qed.

Lemma demo_forwarded_inv : manager_inv demo_known ∅ demo_forwarded.
Proof.
  apply (demo_step demo_waiting demo_round1 _ _ demo_waiting_inv (proj1 demo_rounds_known) (surjective_pairing _)).
  by vm_compute.
Qed.

Lemma update_pending_correct_witness :
  exists m' ready,
    PendingCertificateManager.update_pending (CertificateManager.pending demo_waiting) 1 (Certificate.digest (demo_cert 1 1 [])) =
      (m', Ok ready) /\ pending_wf m'.
Proof.
  destruct (update_pending_correct (CertificateManager.pending demo_waiting) 1 (Certificate.digest (demo_cert 1 1 [])))
    as (m' & ready & Hu & Hwf & _); [apply demo_waiting_inv|].
  by exists m', ready.
Defined.

Lemma process_verified_causal_witness :
  fatal demo_waiting (Ok ()) \/
  (expected demo_waiting (Ok ()) /\ manager_inv demo_known ∅ demo_forwarded /\
   causally_forwarded ∅ 0 (CertificateManager.new_certificates demo_forwarded)).
Proof.
  apply (process_verified_causal demo_committee ∅ demo_known ∅ demo_waiting demo_round1).
  - apply demo_waiting_inv.
  - apply demo_rounds_known.
  - vm_compute. reflexivity.
Defined.

Lemma demo_known_rounds : CertificateFacts.parent_rounds demo_known.
Proof.
  pose proof demo_certs_rounds as Hr. rewrite Forall_forall in Hr. intros x p Hx Hp.
  specialize (Hr x Hx). rewrite Forall_forall in Hr. by apply Hr.
Qed.

(** Collecting the first round accepts the second one. *)
Definition demo_collected : CertificateManager.t * outcome CertManagerError unit :=
  CertificateManager.process_gc_round demo_committee (CertificateManager.process_next_round demo_waiting 1).

Lemma gc_round_unblocks_witness :
  length (CertificateManager.new_certificates demo_collected.1) = 4%nat /\
  (fatal demo_waiting demo_collected.2 \/ unstored demo_waiting demo_collected.2 \/
   (demo_collected.2 = Ok () /\ manager_inv demo_known ∅ demo_collected.1 /\ CertificateManager.gc_round demo_collected.1 = 1 /\
    forall c p, PendingCertificateManager.pending (CertificateManager.pending demo_collected.1) !! c = Some p -> 1 + 1 < pround p)).
Proof.
  split; [by vm_compute|].
  apply (gc_round_unblocks demo_committee demo_known ∅ demo_waiting 1 demo_collected.1 demo_collected.2).
  - apply demo_known_rounds.
  - apply demo_waiting_inv.
  - by vm_compute.
  - apply surjective_pairing.
Defined.

(** The second round first, then the first one; then the thread of the database ends, and
    the certificates of the second round are sent again. *)
Definition demo_events : list CertificateManager.event :=
  [CertificateManager.ProcessVerifiedCertificates demo_round2; CertificateManager.MaxRoundTimeout;
   CertificateManager.ProcessVerifiedCertificates demo_round1; CertificateManager.GcRoundUpdate 1;
   CertificateManager.Gone CertificateManager.DatabaseThread; CertificateManager.ProcessVerifiedCertificates demo_round2].

Definition demo_task : CertificateManager.t * list CertificateManager.reply * outcome CertManagerError unit :=
  CertificateManager.run demo_committee ∅ demo_manager demo_events.

Lemma manager_run_causal_witness :
  demo_task.2 = Ok () /\ length (CertificateManager.new_certificates demo_task.1.1) = 8%nat /\
  last demo_task.1.2 = Some (CertificateManager.ProcessReply (Err CertManagerStorage)) /\
  Forall (reply_ok demo_manager demo_events) demo_task.1.2 /\
  (stopped demo_manager demo_events demo_task.2 \/
   (demo_task.2 = Ok () /\ manager_inv demo_known ∅ demo_task.1.1 /\ length demo_task.1.2 = length demo_events /\
    causally_forwarded ∅ (CertificateManager.gc_round demo_task.1.1) (CertificateManager.new_certificates demo_task.1.1))).
Proof.
  split; [by vm_compute|]. split; [by vm_compute|]. split; [by vm_compute|].
  apply (manager_run_causal demo_committee ∅ demo_known ∅ demo_manager demo_events
    demo_task.1.1 demo_task.1.2 demo_task.2).
  - apply demo_known_rounds.
  - apply demo_manager_inv.
  - exact (proj1 CertStoreFacts.empty_wf).
  - destruct demo_rounds_known as [H1 H2]. exact (conj H2 (conj H1 (conj (N.le_0_l 1) (conj H2 I)))).
  - exact (triple_eta demo_task).
Defined.

Lemma demo_honest : honest demo_committee demo_known.
Proof.
  constructor.
  - intros x Hx. pose proof demo_certs_wf as Hwf. rewrite Forall_forall in Hwf. by apply Hwf.
  - apply demo_known_rounds.
  - intros x y Hx Hy.
    assert (Forall (fun x => Forall (fun y => Certificate.round x = Certificate.round y ->
      Certificate.origin x = Certificate.origin y -> Certificate.digest x = Certificate.digest y) demo_certs) demo_certs) as Hf.
    { apply (bool_decide_unpack _). by vm_compute. }
    rewrite Forall_forall in Hf. specialize (Hf x Hx). rewrite Forall_forall in Hf. by apply Hf.
  - intros x Hx.
    assert (Forall (fun x => 1 < Certificate.round x -> Certificate.parents x <> ∅) demo_certs) as Hf.
    { apply (bool_decide_unpack _). by vm_compute. }
    rewrite Forall_forall in Hf. by apply Hf.
Qed.

Lemma forwarded_accepted_witness :
  length (CertificateManager.new_certificates demo_forwarded) = 8%nat /\
  exists b' s' ds, run demo_bullshark demo_state (CertificateManager.new_certificates demo_forwarded) = Ok (b', s', ds) /\
    forall x, x ∈ CertificateManager.new_certificates demo_forwarded -> held s' (Certificate.digest x) (Certificate.round x).
Proof.
  split; [by vm_compute|].
  apply (forwarded_accepted demo_bullshark demo_state demo_known ∅ demo_forwarded).
  - apply demo_protocol_inv.
  - apply demo_honest.
  - intros x Hx. unfold in_dag, entry in Hx. simpl in Hx. by rewrite lookup_empty in Hx.
  - apply demo_forwarded_inv.
  - by vm_compute.
  - intros x q _ _ Hq. set_solver.
Defined.

End witnesses.
