(* ===== verification/Consensus.v ===== *)
(** The consensus task: from an accepted certificate to the committed sequence.
    Models [Consensus] of crates/consensus/primary/src/consensus/state.rs, the parts of
    consensus_bus.rs it writes to, recent_blocks.rs and state_handler.rs. *)

From S2P Require Import Prelude Committee Certificate Output ConsensusState OrderDag LeaderSchedule Bullshark.
From S2P Require Import BullsharkFacts Demo BullsharkSafety CommitOrder.
Import DagFacts ScheduleFacts Bullshark.

(** * Recently executed blocks *)

Module SealedHeader.
Record t := mk {
  number : N;
  hash : N;
}.
End SealedHeader.

Module RecentBlocks.

Record t := mk {
  num_blocks : nat;
  blocks : list SealedHeader.t;
}.

Definition new (num_blocks : nat) : t := mk num_blocks [].

Definition block_capacity (r : t) : N := N.of_nat (num_blocks r).

Definition push_latest (r : t) (latest : SealedHeader.t) : t :=
  let blocks' := if bool_decide (num_blocks r <= length (blocks r))%nat then tail (blocks r) else blocks r in
  mk (num_blocks r) (blocks' ++ [latest]).

(** [default_header] is [SealedHeader::default()], the execution layer's empty header. *)
Definition latest_block (default_header : SealedHeader.t) (r : t) : SealedHeader.t :=
  default default_header (last (blocks r)).

Definition latest_block_num_hash (default_header : SealedHeader.t) (r : t) : N * N :=
  let h := latest_block default_header r in (SealedHeader.number h, SealedHeader.hash h).

Definition contains_hash (r : t) (hash : N) : bool :=
  existsb (fun block => SealedHeader.hash block =? hash) (blocks r).

End RecentBlocks.

(** * The bus *)

Inductive NodeMode := CvvActive | CvvInactive | Observer.

#[global] Instance NodeMode_eq_dec : EqDecision NodeMode.
Proof. solve_decision. Defined.

Definition is_active_cvv (m : NodeMode) : bool := bool_decide (m = CvvActive).

Module ConsensusBus.

(** The channels the task uses.  [execution] lists the values the executor will still
    publish on the watch of recent blocks.  What was sent is kept in order; a send to a
    channel fails once its receiver is gone, a send to a watch never does, since the bus
    holds a receiver of each. *)
Record t := mk {
  node_mode : NodeMode;
  recent_blocks : RecentBlocks.t;
  execution : list RecentBlocks.t;
  sequence : list CommittedSubDag.t;
  sequence_open : bool;
  committed_certificates : list (Round * list Certificate.t);
  committed_certificates_open : bool;
  gc_round_updates : Round;
  committed_round_updates : Round;
}.

Definition set_node_mode (b : t) (m : NodeMode) : t :=
  mk m (recent_blocks b) (execution b) (sequence b) (sequence_open b) (committed_certificates b)
    (committed_certificates_open b) (gc_round_updates b) (committed_round_updates b).

Definition set_execution (b : t) (r : RecentBlocks.t) (later : list RecentBlocks.t) : t :=
  mk (node_mode b) r later (sequence b) (sequence_open b) (committed_certificates b)
    (committed_certificates_open b) (gc_round_updates b) (committed_round_updates b).

Definition send_sequence (b : t) (d : CommittedSubDag.t) : outcome ConsensusError t :=
  if sequence_open b then
    Ok (mk (node_mode b) (recent_blocks b) (execution b) (sequence b ++ [d]) (sequence_open b)
          (committed_certificates b) (committed_certificates_open b) (gc_round_updates b)
          (committed_round_updates b))
  else Err ShuttingDown.

Definition send_committed (b : t) (m : Round * list Certificate.t) : outcome ConsensusError t :=
  if committed_certificates_open b then
    Ok (mk (node_mode b) (recent_blocks b) (execution b) (sequence b) (sequence_open b)
          (committed_certificates b ++ [m]) (committed_certificates_open b) (gc_round_updates b)
          (committed_round_updates b))
  else Err ShuttingDown.

Definition update_consensus_rounds (b : t) (update : ConsensusRound.t) : t :=
  mk (node_mode b) (recent_blocks b) (execution b) (sequence b) (sequence_open b)
    (committed_certificates b) (committed_certificates_open b)
    (ConsensusRound.gc_round update) (ConsensusRound.committed_round update).

(** The loop of [wait_for_execution] over the values still to come.  The bus keeps the
    sender of the watch, so without a further value the loop waits: [None]. *)
Fixpoint wait_loop (default_header : SealedHeader.t) (target_number : N) (current : RecentBlocks.t)
    (later : list RecentBlocks.t) : option (RecentBlocks.t * list RecentBlocks.t) :=
  if (RecentBlocks.latest_block_num_hash default_header current).1 <? target_number then
    match later with
    | [] => None
    | next :: later' => wait_loop default_header target_number next later'
    end
  else Some (current, later).

(** The bus after waiting and whether the block was executed. *)
Definition wait_for_execution (default_header : SealedHeader.t) (b : t) (block : N * N) : option (t * bool) :=
  '(current, later) ← wait_loop default_header block.1 (recent_blocks b) (execution b);
  Some (set_execution b current later, RecentBlocks.contains_hash current block.2).

End ConsensusBus.

(** * The task *)

Module Consensus.

Record t := mk {
  committee : Committee.t;
  protocol : Bullshark.t;
  state : ConsensusState.t;
  active : bool;
}.

Section consensus.
Context `{NetworkKeys} `{Crypto} `{SeededChoice} (default_header : SealedHeader.t).

(** The [for] loop of [new_certificate]: the bus afterwards and the certificates of the
    sub-dags that were sent, unless a channel was closed.  [OutOfFuel] is the task still
    waiting for execution. *)
Fixpoint output_sub_dags (bus : ConsensusBus.t) (ds : list CommittedSubDag.t)
    (committed_certificates : list Certificate.t) : ConsensusBus.t * outcome ConsensusError (list Certificate.t) :=
  match ds with
  | [] => (bus, Ok committed_certificates)
  | committed_sub_dag :: ds' =>
      let base_execution_block :=
        Header.latest_execution_block (Certificate.header (CommittedSubDag.leader committed_sub_dag)) in
      match ConsensusBus.wait_for_execution default_header bus base_execution_block with
      | None => (bus, OutOfFuel)
      | Some (bus, false) => (ConsensusBus.set_node_mode bus CvvInactive, Ok committed_certificates)
      | Some (bus, true) =>
          let committed_certificates := committed_certificates ++ CommittedSubDag.certificates committed_sub_dag in
          match ConsensusBus.send_sequence bus committed_sub_dag with
          | Ok bus => output_sub_dags bus ds' committed_certificates
          | Err e => (bus, Err e)
          | Panic => (bus, Panic)
          | OutOfFuel => (bus, OutOfFuel)
          end
      end
  end.

(** What follows the loop: report the commit round and the certificates. *)
Definition report_commit (s : ConsensusState.t) (bus : ConsensusBus.t)
    (committed_certificates : list Certificate.t) : ConsensusBus.t * outcome ConsensusError unit :=
  match committed_certificates with
  | [] => (bus, Ok ())
  | _ =>
      let leader_commit_round := foldr N.max 0 (Certificate.round <$> committed_certificates) in
      match ConsensusBus.send_committed bus (leader_commit_round, committed_certificates) with
      | Ok bus =>
          if ConsensusState.committed_round s =? leader_commit_round
          then (ConsensusBus.update_consensus_rounds bus (ConsensusState.last_round s), Ok ())
          else (bus, Panic)
      | Err e => (bus, Err e)
      | Panic => (bus, Panic)
      | OutOfFuel => (bus, OutOfFuel)
      end
  end.

Definition new_certificate (c : t) (bus : ConsensusBus.t) (certificate : Certificate.t)
    : t * ConsensusBus.t * outcome ConsensusError unit :=
  if negb (Certificate.epoch certificate =? Committee.epoch (committee c)) then (c, bus, Ok ()) else
  let '(protocol', state', r) := process_certificate (protocol c) (state c) certificate in
  let c := mk (committee c) protocol' state' (active c) in
  match r with
  | Err e => (c, bus, Err e)
  | Panic => (c, bus, Panic)
  | OutOfFuel => (c, bus, OutOfFuel)
  | Ok (_, committed_sub_dags) =>
      if active c then
        let '(bus, sent) := output_sub_dags bus committed_sub_dags [] in
        match sent with
        | Ok committed_certificates =>
            let '(bus, reported) := report_commit state' bus committed_certificates in
            (c, bus, reported)
        | Err e => (c, bus, Err e)
        | Panic => (c, bus, Panic)
        | OutOfFuel => (c, bus, OutOfFuel)
        end
      else (c, bus, Ok ())
  end.

End consensus.
End Consensus.

(** * The state handler *)

Module StateHandler.
(** The rounds of its own headers that the node reports as committed. *)
Definition handle_sequenced (authority_id : AuthorityIdentifier) (commit_round : Round)
    (certificates : list Certificate.t) : Round * list Round :=
  (commit_round,
   omap (fun cert => if Header.author (Certificate.header cert) =? authority_id
                     then Some (Header.round (Certificate.header cert)) else None) certificates).
End StateHandler.

(** * Facts about waiting for execution *)

Section recent_blocks.
Implicit Types (r : RecentBlocks.t).

(** The blocks held are the latest ones, as many as fit. *)
Lemma push_latest_window r bs h (m := Nat.max 1 (RecentBlocks.num_blocks r)) :
  RecentBlocks.blocks r = drop (length bs - m) bs ->
  RecentBlocks.blocks (RecentBlocks.push_latest r h) = drop (length (bs ++ [h]) - m) (bs ++ [h]).
Proof.
  intros Hb. unfold RecentBlocks.push_latest. simpl. rewrite Hb, length_drop, length_app. simpl.
  rewrite drop_app_le by lia. f_equal. case_bool_decide as Hc.
  - destruct (decide (bs = [])) as [->|Hne]; [by rewrite !drop_nil|].
    assert (0 < length bs)%nat by (destruct bs; simpl; [done|lia]).
    assert (forall k (l : list SealedHeader.t), tail (drop k l) = drop (S k) l) as ->.
    { intros k. induction k as [|k IH]; intros [|x l]; simpl; [done|by rewrite drop_0|done|]. by rewrite IH. }
    f_equal. lia.
  - f_equal. lia.
Qed.

Lemma push_all_window r bs hs (m := Nat.max 1 (RecentBlocks.num_blocks r)) :
  RecentBlocks.blocks r = drop (length bs - m) bs ->
  RecentBlocks.blocks (foldl RecentBlocks.push_latest r hs) = drop (length (bs ++ hs) - m) (bs ++ hs).
Proof.
  revert r bs m. induction hs as [|h hs IH]; intros r bs m Hb; simpl; [by rewrite app_nil_r|].
  rewrite (cons_middle h bs hs), app_assoc.
  exact (IH (RecentBlocks.push_latest r h) _ (push_latest_window r bs h Hb)).
Qed.

Lemma contains_hash_iff r h :
  RecentBlocks.contains_hash r h = true <-> exists b, b ∈ RecentBlocks.blocks r /\ SealedHeader.hash b = h.
Proof.
  unfold RecentBlocks.contains_hash. rewrite existsb_exists.
  split; intros (b & Hb & Hh); exists b; rewrite ?list_elem_of_In in *; (split; [done|lia]).
Qed.

End recent_blocks.

(** * Properties *)

Section properties.
Context `{NetworkKeys} `{Crypto} `{SeededChoice} `{!CollisionFree} (default_header : SealedHeader.t).

(** After any sequence of blocks the window holds exactly the latest of them, as many
    as its capacity and at least one, and recognises exactly their hashes. *)
Theorem recent_blocks_window n hs hash :
  let r := foldl RecentBlocks.push_latest (RecentBlocks.new n) hs in
  RecentBlocks.blocks r = drop (length hs - Nat.max 1 n) hs /\
  (RecentBlocks.contains_hash r hash = true <->
     exists b, b ∈ drop (length hs - Nat.max 1 n) hs /\ SealedHeader.hash b = hash) /\
  RecentBlocks.latest_block default_header r = default default_header (last hs).
Proof.
  intros r. assert (RecentBlocks.blocks r = drop (length hs - Nat.max 1 n) hs) as Hb.
  { by apply (push_all_window (RecentBlocks.new n) []). }
  rewrite contains_hash_iff, Hb. split_and!; [done|done|].
  unfold RecentBlocks.latest_block. rewrite Hb. f_equal.
  destruct hs as [|h hs]; [done|]. rewrite !last_lookup, lookup_drop, length_drop. f_equal. simpl. lia.
Qed.

(** The waits for a list of sub-dags: how many of them pass, and the bus after them. *)
Lemma output_sub_dags_spec bus ds acc bus' r :
  Consensus.output_sub_dags default_header bus ds acc = (bus', r) ->
  exists ds1 ds2, ds = ds1 ++ ds2 /\
    ConsensusBus.sequence bus' = ConsensusBus.sequence bus ++ ds1 /\
    ConsensusBus.committed_certificates bus' = ConsensusBus.committed_certificates bus /\
    ConsensusBus.committed_certificates_open bus' = ConsensusBus.committed_certificates_open bus /\
    ((r = Ok (acc ++ committed_certificates ds1) /\ ds2 = [] /\ ConsensusBus.node_mode bus' = ConsensusBus.node_mode bus) \/
     (r = Ok (acc ++ committed_certificates ds1) /\ ds2 <> [] /\ ConsensusBus.node_mode bus' = CvvInactive) \/
     (r = Err ShuttingDown /\ ds2 <> [] /\ ConsensusBus.sequence_open bus = false) \/
     (r = OutOfFuel /\ ds2 <> [])).
Proof.
  revert bus acc. induction ds as [|d ds IH]; intros bus acc; simpl.
  { intros [= <- <-]. exists [], []. rewrite !app_nil_r. split_and!; try done. by left. }
  destruct (ConsensusBus.wait_for_execution _ _ _) as [[bus1 ok]|] eqn:Hw.
  2: { intros [= <- <-]. exists [], (d :: ds). rewrite app_nil_r. split_and!; try done. right; right; right. done. }
  assert (exists cur later, bus1 = ConsensusBus.set_execution bus cur later) as (cur & later & ->).
  { unfold ConsensusBus.wait_for_execution in Hw. apply bind_Some in Hw as ([cur later] & _ & [= <- _]). by eauto. }
  destruct ok.
  2: { intros [= <- <-]. exists [], (d :: ds). simpl. rewrite !app_nil_r. split_and!; try done. right; left. done. }
  unfold ConsensusBus.send_sequence at 1. simpl. destruct (ConsensusBus.sequence_open bus) eqn:Hopen.
  2: { intros [= <- <-]. exists [], (d :: ds). simpl. rewrite app_nil_r. split_and!; try done. right; right; left. done. }
  intros (ds1 & ds2 & -> & Hseq & Hcc & Hco & Hr)%IH. exists (d :: ds1), ds2. simpl in *.
  rewrite Hseq, <-app_assoc. split_and!; try done. unfold committed_certificates in *. simpl.
  rewrite app_assoc. naive_solver.
Qed.

Lemma commits_split s ds1 ds2 s' :
  commits s (ds1 ++ ds2) s' -> exists s1, commits s ds1 s1 /\ commits s1 ds2 s'.
Proof.
  revert s. induction ds1 as [|d ds1 IH]; intros s Hc; simpl in Hc; [exists s; by split; [constructor|]|].
  inversion Hc as [|? ? s1 ? ? Hstep Hc']; subst. destruct (IH _ Hc') as (s2 & ? & ?).
  exists s2. split; [by econstructor|done].
Qed.

Lemma commits_nonempty s ds s' :
  commits s ds s' -> ds <> [] ->
  committed_certificates ds <> [] /\ ConsensusState.committed_round s < ConsensusState.committed_round s'.
Proof.
  intros Hc Hne. pose proof (commits_advances _ _ _ Hc) as Hadv.
  destruct ds as [|d ds]; [done|]. split.
  - unfold committed_certificates. destruct (adv_leader _ _ _ Hadv d) as (_ & Hl & _); [set_solver|].
    simpl. by destruct (CommittedSubDag.certificates d).
  - destruct (adv_between _ _ _ Hadv d) as [? _]; [set_solver|lia].
Qed.

(** What a report after the commits does: the highest round of the certificates sent is
    the commit round exactly when all of the sub-dags were sent. *)
Lemma report_commit_spec s s' ds1 ds2 bus bus' r :
  commits s (ds1 ++ ds2) s' -> ConsensusBus.committed_certificates_open bus = true ->
  Consensus.report_commit s' bus (committed_certificates ds1) = (bus', r) ->
  ConsensusBus.sequence bus' = ConsensusBus.sequence bus /\
  ConsensusBus.node_mode bus' = ConsensusBus.node_mode bus /\
  ((ds1 = [] /\ r = Ok () /\ bus' = bus) \/
   (ds1 <> [] /\ ds2 <> [] /\ r = Panic) \/
   (ds1 <> [] /\ ds2 = [] /\ r = Ok () /\
    ConsensusBus.committed_certificates bus' = ConsensusBus.committed_certificates bus ++
      [(ConsensusState.committed_round s', committed_certificates ds1)] /\
    ConsensusBus.gc_round_updates bus' = ConsensusState.gc_round s' /\
    ConsensusBus.committed_round_updates bus' = ConsensusState.committed_round s')).
Proof.
  intros Hc Hopen. destruct (commits_split _ _ _ _ Hc) as (s1 & Hc1 & Hc2).
  destruct (decide (ds1 = [])) as [->|Hne1]; [intros [= <- <-]; by split_and!; [..|left]|].
  destruct (commits_nonempty _ _ _ Hc1 Hne1) as [Hcne _].
  pose proof (commits_max_round _ _ _ Hc1 Hne1) as Hmax. unfold Consensus.report_commit.
  destruct (committed_certificates ds1) as [|c0 cs0] eqn:Hcs; [done|]. rewrite Hmax.
  unfold ConsensusBus.send_committed. rewrite Hopen.
  destruct (decide (ds2 = [])) as [->|Hne2].
  - inversion Hc2; subst. rewrite N.eqb_refl. intros [= <- <-]. simpl. split_and!; [done|done|].
    right; right. by split_and!.
  - destruct (commits_nonempty _ _ _ Hc2 Hne2) as [_ Hlt].
    destruct (N.eqb_spec (ConsensusState.committed_round s') (ConsensusState.committed_round s1)); [lia|].
    intros [= <- <-]. simpl. split_and!; [done|done|]. right; left. done.
Qed.

(** What [new_certificate] outputs.  With the channels open, an active node sends a
    prefix of the committed sub-dags, in order.  When it returns normally it either sent
    all of them and reported exactly their certificates with the commit and GC rounds of
    the state, or sent none because the first one's execution block is not the node's own,
    and turned inactive.  It panics only when such a block follows a sub-dag already sent,
    and waits only for a block not yet executed. *)
Theorem new_certificate_outputs c bus certificate p' s' o ds c' bus' r :
  protocol_inv (Consensus.protocol c) (Consensus.state c) -> Consensus.active c = true ->
  cert_wf (committee (Consensus.protocol c)) certificate ->
  Certificate.epoch certificate = Committee.epoch (Consensus.committee c) ->
  ConsensusBus.sequence_open bus = true -> ConsensusBus.committed_certificates_open bus = true ->
  process_certificate (Consensus.protocol c) (Consensus.state c) certificate = (p', s', Ok (o, ds)) ->
  Consensus.new_certificate default_header c bus certificate = (c', bus', r) ->
  Consensus.state c' = s' /\ protocol_inv (Consensus.protocol c') s' /\
  exists ds1 ds2, ds = ds1 ++ ds2 /\ ConsensusBus.sequence bus' = ConsensusBus.sequence bus ++ ds1 /\
    ((r = Ok () /\ ds = [] /\ ConsensusBus.committed_certificates bus' = ConsensusBus.committed_certificates bus) \/
     (r = Ok () /\ ds1 = ds /\ ds <> [] /\
      ConsensusBus.committed_certificates bus' = ConsensusBus.committed_certificates bus ++
        [(ConsensusState.committed_round s', committed_certificates ds)] /\
      ConsensusBus.gc_round_updates bus' = ConsensusState.gc_round s' /\
      ConsensusBus.committed_round_updates bus' = ConsensusState.committed_round s') \/
     (r = Ok () /\ ds1 = [] /\ ds <> [] /\ ConsensusBus.node_mode bus' = CvvInactive /\
      ConsensusBus.committed_certificates bus' = ConsensusBus.committed_certificates bus) \/
     (r = Panic /\ ds1 <> [] /\ ds2 <> [] /\ ConsensusBus.node_mode bus' = CvvInactive) \/
     (r = OutOfFuel /\ ds2 <> [])).
Proof.
  intros Hinv Hact Hc Hep Hso Hco Hp. pose proof Hp as Hspec.
  apply process_certificate_spec in Hspec as (Hinv' & _ & s1 & ins & _ & Hcom & _); [|done..].
  unfold Consensus.new_certificate. rewrite Hep, N.eqb_refl, Hp. simpl. rewrite Hact.
  destruct (Consensus.output_sub_dags default_header bus ds []) as [bus1 sent] eqn:Hout.
  apply output_sub_dags_spec in Hout as (ds1 & ds2 & -> & Hseq & Hcc & Hop & Hcases). rewrite Hco in Hop.
  destruct Hcases as [(-> & -> & Hm)|[(-> & Hne & Hm)|[(_ & _ & Hf)|(-> & Hne)]]]; [| |congruence|].
  - simpl. destruct (Consensus.report_commit s' bus1 _) as [bus2 rep] eqn:Hrep. intros [= <- <- <-].
    apply (report_commit_spec s1 s' ds1 []) in Hrep as (Hs2 & _ & Hcs); [|done..].
    split_and!; [done|done|]. exists ds1, []. split_and!; [done|congruence|]. rewrite app_nil_r.
    destruct Hcs as [(-> & -> & ->)|[(_ & ? & _)|(Hne & _ & -> & -> & -> & ->)]]; [by left|done|].
    right; left. rewrite Hcc. by split_and!.
  - simpl. destruct (Consensus.report_commit s' bus1 _) as [bus2 rep] eqn:Hrep. intros [= <- <- <-].
    apply (report_commit_spec s1 s' ds1 ds2) in Hrep as (Hs2 & Hm2 & Hcs); [|done..].
    split_and!; [done|done|]. exists ds1, ds2. split_and!; [done|congruence|]. right; right.
    destruct Hcs as [(-> & -> & ->)|[(Hne1 & _ & ->)|(_ & ? & _)]]; [left|right; left|done].
    + by split_and!.
    + split_and!; [done..|congruence].
  - intros [= <- <- <-]. split_and!; [done|done|]. exists ds1, ds2. split_and!; [done|done|].
    by right; right; right; right.
Qed.

End properties.

(** * Witnesses *)

Section witnesses.
#[local] Existing Instances demo_keys demo_crypto demo_choice demo_collision_free.

Definition demo_bus : ConsensusBus.t :=
  ConsensusBus.mk CvvActive (RecentBlocks.mk 10 [SealedHeader.mk 0 0; SealedHeader.mk 9 9]) []
    [] true [] true 0 0.

Definition demo_consensus (cs : list Certificate.t) : Consensus.t :=
  Consensus.mk demo_committee demo_bullshark (inserted demo_state cs) true.

Lemma demo_consensus_inv cs :
  Forall (cert_wf demo_committee) cs ->
  protocol_inv (Consensus.protocol (demo_consensus cs)) (Consensus.state (demo_consensus cs)).
Proof.
  intros Hcs. pose proof demo_protocol_inv as (Hb & Hs & Hsc). split; [done|].
  destruct (inserted_wf demo_committee demo_state cs) as [Hs' Hd]; [done..|].
  split; [done|]. intros d. simpl. rewrite Hd. apply Hsc.
Qed.

(** One round-3 certificate supports the leader of round 2; the next one commits it. *)
Definition demo_before : list Certificate.t := demo_round1 ++ demo_round2 ++ take 1 demo_round3.
Definition demo_next : Certificate.t := demo_cert 2 3 (demo_digests demo_round2).
Definition demo_processed : Bullshark.t * ConsensusState.t * outcome ConsensusError (Outcome * list CommittedSubDag.t) :=
  process_certificate demo_bullshark (inserted demo_state demo_before) demo_next.
Definition demo_committed : list CommittedSubDag.t :=
  match demo_processed.2 with Ok (_, ds) => ds | _ => [] end.
Definition demo_output : Consensus.t * ConsensusBus.t * outcome ConsensusError unit :=
  Consensus.new_certificate (SealedHeader.mk 0 0) (demo_consensus demo_before) demo_bus demo_next.

Lemma new_certificate_outputs_witness :
  length demo_committed = 1%nat /\
  Consensus.state demo_output.1.1 = demo_processed.1.2 /\
  protocol_inv (Consensus.protocol demo_output.1.1) demo_processed.1.2 /\
  exists ds1 ds2, demo_committed = ds1 ++ ds2 /\ ConsensusBus.sequence demo_output.1.2 = [] ++ ds1 /\
    ((demo_output.2 = Ok () /\ demo_committed = [] /\ ConsensusBus.committed_certificates demo_output.1.2 = []) \/
     (demo_output.2 = Ok () /\ ds1 = demo_committed /\ demo_committed <> [] /\
      ConsensusBus.committed_certificates demo_output.1.2 =
        [] ++ [(ConsensusState.committed_round demo_processed.1.2, committed_certificates demo_committed)] /\
      ConsensusBus.gc_round_updates demo_output.1.2 = ConsensusState.gc_round demo_processed.1.2 /\
      ConsensusBus.committed_round_updates demo_output.1.2 = ConsensusState.committed_round demo_processed.1.2) \/
     (demo_output.2 = Ok () /\ ds1 = [] /\ demo_committed <> [] /\ ConsensusBus.node_mode demo_output.1.2 = CvvInactive /\
      ConsensusBus.committed_certificates demo_output.1.2 = []) \/
     (demo_output.2 = Panic /\ ds1 <> [] /\ ds2 <> [] /\ ConsensusBus.node_mode demo_output.1.2 = CvvInactive) \/
     (demo_output.2 = OutOfFuel /\ ds2 <> [])).
Proof.
  split; [by vm_compute|].
  apply (new_certificate_outputs (SealedHeader.mk 0 0) (demo_consensus demo_before) demo_bus demo_next
    demo_processed.1.1 demo_processed.1.2 Commit demo_committed demo_output.1.1 demo_output.1.2 demo_output.2).
  - apply demo_consensus_inv. unfold cert_wf. apply (bool_decide_unpack _). by vm_compute.
  - reflexivity.
  - unfold cert_wf. apply (bool_decide_unpack _). by vm_compute.
  - reflexivity.
  - reflexivity.
  - reflexivity.
  - vm_compute. reflexivity.
  - vm_compute. reflexivity.
Defined.

(** Five rounds in which the leader of round 2 gets its support only through the leader
    of round 4, whose header names an execution block the node does not have. *)
Definition fork_round3 : list Certificate.t :=
  demo_cert 1 3 (demo_digests demo_round2) ::
  ((fun i => demo_cert i 3 (demo_digests (filter (fun c => Certificate.origin c <> 2) demo_round2))) <$> [2; 3; 4]).
Definition fork_leader : Certificate.t :=
  let header := HeaderOps.new 3 4 0 [] (list_to_set (demo_digests fork_round3)) (7, 7) 4 in
  Certificate.mk header (VerifiedDirectly (HeaderOps.digest header)) {[0; 1; 2]} 0.
Definition fork_round4 : list Certificate.t :=
  fork_leader :: ((fun i => demo_cert i 4 (demo_digests fork_round3)) <$> [1; 2; 4]).
Definition fork_round5 : list Certificate.t :=
  (fun i => demo_cert i 5 (demo_digests fork_round4)) <$> [1; 2].
Definition fork_before : list Certificate.t :=
  demo_round1 ++ demo_round2 ++ fork_round3 ++ fork_round4 ++ take 1 fork_round5.
Definition fork_next : Certificate.t := demo_cert 2 5 (demo_digests fork_round4).

(** Two sub-dags are committed at once; the first is sent, the block of the second is
    missing, and the assertion on the commit round fails after the node has been marked
    inactive. *)
Lemma new_certificate_may_panic :
  protocol_inv (Consensus.protocol (demo_consensus fork_before)) (Consensus.state (demo_consensus fork_before)) /\
  cert_wf demo_committee fork_next /\
  let '(_, bus, r) := Consensus.new_certificate (SealedHeader.mk 0 0) (demo_consensus fork_before) demo_bus fork_next in
  r = Panic /\ ConsensusBus.node_mode bus = CvvInactive /\ length (ConsensusBus.sequence bus) = 1%nat.
Proof.
  split_and!.
  - apply demo_consensus_inv. unfold cert_wf. apply (bool_decide_unpack _). by vm_compute.
  - unfold cert_wf. apply (bool_decide_unpack _). by vm_compute.
  - vm_compute. done.
Qed.

End witnesses.
