(* ===== verification/Proposer.v ===== *)
(** Proposing headers.
    Models crates/consensus/primary/src/proposer.rs with error/proposer.rs: the state of the
    proposer, the task it spawns for each header, and its event loop, where the shared store
    of the last proposal, the watch of the primary's round and the channel to the certifier
    are part of the state. *)

From S2P Require Import Prelude Storage Committee Certificate CertStore PendingCerts Output ConsensusState.
From S2P Require Import OrderDag LeaderSchedule Bullshark BullsharkFacts Demo.

Inductive ProposerError :=
  | WatchChannelClosed
  | OneshotChannelClosed
  | CertifierSender
  | StoreError.

Module ProposerDigest.
Record t := mk {
  digest : N;
  worker_id : WorkerId;
  timestamp : TimestampSec;
}.
End ProposerDigest.

Module Proposer.

(** The parameters the proposer is built with. *)
Record parameters := mk_parameters {
  authority_id : AuthorityIdentifier;
  committee : Committee.t;
  header_num_of_batches_threshold : nat;
  max_header_num_of_batches : nat;
  min_header_delay : N;
  max_header_delay : N;
}.

(** The arguments of the task that is spawned for a header. *)
Inductive job :=
  | repropose_header (header : Header.t)
  | propose_header (current_round : Round) (current_epoch : Epoch) (parents : list Certificate.t)
      (digests : list ProposerDigest.t).

Inductive pending_task :=
  | Spawned (j : job)
  | Finished (r : outcome ProposerError Header.t).

(** The fields of the proposer that change, the variables of its loop, and what it shares:
    the store, the watch of the round, and the headers sent to the certifier, with whether
    the certifier receives and whether the store can be written and read.  An interval is
    the time until its next tick. *)
Record t := mk {
  round : Round;
  last_parents : list Certificate.t;
  last_leader : option Certificate.t;
  digests : list ProposerDigest.t;
  proposed_headers : gmap Round Header.t;
  leader_schedule : LeaderSchedule.t;
  advance_round : bool;
  opt_latest_header : option Header.t;
  min_delay_interval : N;
  max_delay_interval : N;
  pending_header : option pending_task;
  max_delay_timed_out : bool;
  min_delay_timed_out : bool;
  proposer_store : gmap N Header.t;
  primary_round_updates : Round;
  headers : list Header.t;
  headers_open : bool;
  store_writes : bool;
  store_reads : bool;
}.

(** What each operation writes. *)
Definition set_round (p : t) (r : Round) : t :=
  mk r (last_parents p) (last_leader p) (digests p) (proposed_headers p) (leader_schedule p) (advance_round p)
    (opt_latest_header p) (min_delay_interval p) (max_delay_interval p) (pending_header p) (max_delay_timed_out p)
    (min_delay_timed_out p) (proposer_store p) r (headers p) (headers_open p) (store_writes p) (store_reads p).

Definition set_parents (p : t) (parents : list Certificate.t) : t :=
  mk (round p) parents (last_leader p) (digests p) (proposed_headers p) (leader_schedule p) (advance_round p)
    (opt_latest_header p) (min_delay_interval p) (max_delay_interval p) (pending_header p) (max_delay_timed_out p)
    (min_delay_timed_out p) (proposer_store p) (primary_round_updates p) (headers p) (headers_open p) (store_writes p) (store_reads p).

Definition set_ready (p : t) (leader : option Certificate.t) (ready : bool) : t :=
  mk (round p) (last_parents p) leader (digests p) (proposed_headers p) (leader_schedule p) ready
    (opt_latest_header p) (min_delay_interval p) (max_delay_interval p) (pending_header p) (max_delay_timed_out p)
    (min_delay_timed_out p) (proposer_store p) (primary_round_updates p) (headers p) (headers_open p) (store_writes p) (store_reads p).

Definition set_batches (p : t) (ds : list ProposerDigest.t) (proposed : gmap Round Header.t) : t :=
  mk (round p) (last_parents p) (last_leader p) ds proposed (leader_schedule p) (advance_round p)
    (opt_latest_header p) (min_delay_interval p) (max_delay_interval p) (pending_header p) (max_delay_timed_out p)
    (min_delay_timed_out p) (proposer_store p) (primary_round_updates p) (headers p) (headers_open p) (store_writes p) (store_reads p).

Definition set_intervals (p : t) (min max : N) : t :=
  mk (round p) (last_parents p) (last_leader p) (digests p) (proposed_headers p) (leader_schedule p) (advance_round p)
    (opt_latest_header p) min max (pending_header p) (max_delay_timed_out p)
    (min_delay_timed_out p) (proposer_store p) (primary_round_updates p) (headers p) (headers_open p) (store_writes p) (store_reads p).

Definition set_latest (p : t) (header : Header.t) : t :=
  mk (round p) (last_parents p) (last_leader p) (digests p) (proposed_headers p) (leader_schedule p) false
    (Some header) (min_delay_interval p) (max_delay_interval p) (pending_header p) (max_delay_timed_out p)
    (min_delay_timed_out p) (proposer_store p) (primary_round_updates p) (headers p) (headers_open p) (store_writes p) (store_reads p).

Definition set_pending (p : t) (pending : option pending_task) : t :=
  mk (round p) (last_parents p) (last_leader p) (digests p) (proposed_headers p) (leader_schedule p) (advance_round p)
    (opt_latest_header p) (min_delay_interval p) (max_delay_interval p) pending (max_delay_timed_out p)
    (min_delay_timed_out p) (proposer_store p) (primary_round_updates p) (headers p) (headers_open p) (store_writes p) (store_reads p).

Definition set_timeouts (p : t) (max min : bool) : t :=
  mk (round p) (last_parents p) (last_leader p) (digests p) (proposed_headers p) (leader_schedule p) (advance_round p)
    (opt_latest_header p) (min_delay_interval p) (max_delay_interval p) (pending_header p) max min
    (proposer_store p) (primary_round_updates p) (headers p) (headers_open p) (store_writes p) (store_reads p).

Definition set_sent (p : t) (store : gmap N Header.t) (sent : list Header.t) : t :=
  mk (round p) (last_parents p) (last_leader p) (digests p) (proposed_headers p) (leader_schedule p) (advance_round p)
    (opt_latest_header p) (min_delay_interval p) (max_delay_interval p) (pending_header p) (max_delay_timed_out p)
    (min_delay_timed_out p) store (primary_round_updates p) sent (headers_open p) (store_writes p) (store_reads p).

(** What the proposer depends on: the receiver of its headers and the store. *)
Inductive party := CertifierReceiver | StoreWrites | StoreReads.

Definition set_gone (p : t) (g : party) : t :=
  let keep x b := match g, x with
    | CertifierReceiver, CertifierReceiver | StoreWrites, StoreWrites | StoreReads, StoreReads => false
    | _, _ => b
    end in
  mk (round p) (last_parents p) (last_leader p) (digests p) (proposed_headers p) (leader_schedule p) (advance_round p)
    (opt_latest_header p) (min_delay_interval p) (max_delay_interval p) (pending_header p) (max_delay_timed_out p)
    (min_delay_timed_out p) (proposer_store p) (primary_round_updates p) (headers p) (keep CertifierReceiver (headers_open p))
    (keep StoreWrites (store_writes p)) (keep StoreReads (store_reads p)).

Definition set_schedule (p : t) (schedule : LeaderSchedule.t) : t :=
  mk (round p) (last_parents p) (last_leader p) (digests p) (proposed_headers p) schedule (advance_round p)
    (opt_latest_header p) (min_delay_interval p) (max_delay_interval p) (pending_header p) (max_delay_timed_out p)
    (min_delay_timed_out p) (proposer_store p) (primary_round_updates p) (headers p) (headers_open p) (store_writes p) (store_reads p).

(** [collect] into an index map: a digest keeps its first position and its last value. *)
Fixpoint index_insert (payload : list (N * (WorkerId * TimestampSec))) (k : N) (v : WorkerId * TimestampSec)
    : list (N * (WorkerId * TimestampSec)) :=
  match payload with
  | [] => [(k, v)]
  | (k', v') :: payload => if k' =? k then (k, v) :: payload else (k', v') :: index_insert payload k v
  end.

Definition to_payload (ds : list ProposerDigest.t) : list (N * (WorkerId * TimestampSec)) :=
  foldl (fun payload m => index_insert payload (ProposerDigest.digest m) (ProposerDigest.worker_id m, ProposerDigest.timestamp m)) [] ds.

Definition from_payload (payload : list (N * (WorkerId * TimestampSec))) : list ProposerDigest.t :=
  (fun '(k, (w, ts)) => ProposerDigest.mk k w ts) <$> payload.

(** The events of the loop, and what happens between them: the run of the task that was
    spawned, or its end without a result (it panicked), a new leader schedule, and a party
    that is gone. *)
Inductive event :=
  | OurDigest (d : ProposerDigest.t)
  | NewParents (certs : list Certificate.t) (round : Round)
  | CommittedOwnHeaders (commit_round : Round) (committed : list Round)
  | PendingHeader
  | MaxDelayTick
  | MinDelayTick
  | HeaderTask (now : TimestampSec) (latest_block : N * N)
  | HeaderTaskDropped
  | NewSchedule (schedule : LeaderSchedule.t)
  | Gone (g : party).

Section proposer.
Context `{NetworkKeys} `{Crypto} `{SeededChoice} (cfg : parameters).

Notation proposing := (action t ProposerError).

(** [store], [primary_round] and the channel outlive a restart of the proposer.  The first
    tick of an interval is immediate. *)
Definition new (schedule : LeaderSchedule.t) (store : gmap N Header.t) (primary_round : Round) (sent : list Header.t) : t :=
  mk 0 (Certificate.genesis (committee cfg)) None [] ∅ schedule true None 0 0 None false false
    store primary_round sent true true true.

(** The header of a task; it sleeps until the time of the latest parent. *)
Definition build_header (j : job) (now : TimestampSec) (latest_block : N * N) : Header.t :=
  match j with
  | repropose_header header => header
  | propose_header current_round current_epoch parents ds =>
      let latest_parent := foldr N.max 0 ((fun c => Header.created_at (Certificate.header c)) <$> parents) in
      HeaderOps.new (authority_id cfg) current_round current_epoch (to_payload ds)
        (list_to_set (Certificate.digest <$> parents)) latest_block (N.max now latest_parent)
  end.

(** The layered database writes to its memory before it fails to reach its thread. *)
Definition store_and_send_header (p : t) (header : Header.t) : t * outcome ProposerError unit :=
  let store := ProposerStore.write_last_proposed (proposer_store p) header in
  if negb (store_writes p) then (set_sent p store (headers p), Err StoreError)
  else if headers_open p then (set_sent p store (headers p ++ [header]), Ok ())
  else (set_sent p store (headers p), Err CertifierSender).

Definition run_task (now : TimestampSec) (latest_block : N * N) (p : t) : t :=
  match pending_header p with
  | Some (Spawned j) =>
      let header := build_header j now latest_block in
      let '(p, r) := store_and_send_header p header in
      set_pending p (Some (Finished (_ ← r; Ok header)))
  | _ => p
  end.

(** The sender of the result is dropped with the task. *)
Definition drop_task (p : t) : t :=
  match pending_header p with
  | Some (Spawned _) => set_pending p (Some (Finished (Err OneshotChannelClosed)))
  | _ => p
  end.

Definition next_round (p : t) : Round := (round p + 1) mod u32_modulus.

Definition calc_max_delay (p : t) : outcome ProposerError N :=
  if next_round p mod 2 =? 0 then
    leader ← LeaderSchedule.leader (leader_schedule p) (next_round p);
    Ok (if Authority.id leader =? authority_id cfg then max_header_delay cfg / 2 else max_header_delay cfg)
  else Ok (max_header_delay cfg).

Definition calc_min_delay (p : t) : outcome ProposerError N :=
  leader ← (if next_round p mod 2 =? 0 then LeaderSchedule.leader (leader_schedule p) (next_round p)
            else Committee.leader (committee cfg) (next_round p));
  Ok (if Authority.id leader =? authority_id cfg then 0 else min_header_delay cfg).

Definition find_leader (p : t) (leader : Authority.t) : option Certificate.t :=
  snd <$> list_find (fun cert => Certificate.origin cert = Authority.id leader) (last_parents p).

(** The stake of the parents that do, and do not, reference a certificate. *)
Definition count_votes (p : t) (leader : Digest) : N * N :=
  foldl (fun '(votes_for_leader, no_votes) certificate =>
      let stake := Committee.voting_power_by_id (committee cfg) (Certificate.origin certificate) in
      if bool_decide (leader ∈ Certificate.parents certificate) then (wrap64 (votes_for_leader + stake), no_votes)
      else (votes_for_leader, wrap64 (no_votes + stake))) (0, 0) (last_parents p).

Definition enough_votes (p : t) : outcome ProposerError bool :=
  next_leader ← LeaderSchedule.leader (leader_schedule p) (next_round p);
  if Authority.id next_leader =? authority_id cfg then Ok true else
  match last_leader p with
  | None => Ok true
  | Some x =>
      let '(votes_for_leader, no_votes) := count_votes p (Certificate.digest x) in
      Ok ((Committee.validity_threshold (committee cfg) <=? votes_for_leader)
          || (Committee.quorum_threshold (committee cfg) <=? no_votes))
  end.

(** The last leader and the flag to advance. *)
Definition ready (p : t) : outcome ProposerError (option Certificate.t * bool) :=
  if round p mod 2 =? 0 then
    leader ← LeaderSchedule.leader (leader_schedule p) (round p);
    let last_leader := find_leader p leader in
    Ok (last_leader, bool_decide (is_Some last_leader))
  else
    b ← enough_votes p;
    Ok (last_leader p, b).

(** The comparison of the round of the parents with the round [old] of the proposer. *)
Definition accept_parents (parents : list Certificate.t) (r old : Round) : proposing unit :=
  match r ?= old with
  | Gt =>
      _ ← modify (fun p => set_ready (set_parents (set_round p r) parents) (last_leader p) false);
      with_state (fun p => max ← lift (calc_max_delay p); modify (fun p => set_intervals p 0 max))
  | Lt => lift (Ok ())
  | Eq =>
      _ ← modify (fun p => set_parents p (last_parents p ++ parents));
      with_state (fun p => min ← lift (calc_min_delay p);
        if min =? 0 then modify (fun p => set_intervals p 0 (max_delay_interval p)) else lift (Ok ()))
  end.

Definition process_parents (parents : list Certificate.t) (r : Round) : proposing unit :=
  old ← gets round;
  _ ← accept_parents parents r old;
  with_state (fun p => x ← lift (ready p); modify (fun p => set_ready p x.1 x.2)).

(** The proposed headers up to a round, oldest first: the loop stops at the first other. *)
Fixpoint expired (max_committed_round : Round) (l : list (Round * Header.t)) : list (Round * Header.t) :=
  match l with
  | [] => []
  | x :: l => if max_committed_round <? x.1 then [] else x :: expired max_committed_round l
  end.

Definition process_committed_headers (committed : list Round) (p : t) : t :=
  let max_committed_round := foldl N.max 0 committed in
  let proposed := foldl (fun m r => delete r m) (proposed_headers p) committed in
  let retransmit := expired max_committed_round (btree_iter proposed) in
  match retransmit with
  | [] => set_batches p (digests p) proposed
  | _ =>
      let digests_to_resend := mjoin ((fun x => from_payload (Header.payload x.2)) <$> retransmit) in
      set_batches p (digests_to_resend ++ digests p) (foldl (fun m x => delete x.1 m) proposed retransmit)
  end.

(** The last header of the store, if it is of this round and epoch. *)
Definition possible_header_to_repropose (p : t) : option Header.t :=
  h ← ProposerStore.get_last_proposed (proposer_store p);
  if (Header.round h =? round p) && (Header.epoch h =? Committee.epoch (committee cfg)) then Some h else None.

(** The round of the next header: the round is advanced, to the watch of the primary's
    round if that is ahead. *)
Definition proposal_round (p : t) : Round :=
  let r := next_round p in
  let updated_round := (primary_round_updates p + 1) mod u32_modulus in
  if r <? updated_round then updated_round else r.

(** The task for a header of the current round: the stored header again, or a new one. *)
Definition spawn_header : proposing unit :=
  with_state (fun p =>
    _ ← lift (ensure (store_reads p) StoreError);
    match possible_header_to_repropose p with
    | Some header => modify (fun p => set_pending (set_parents p []) (Some (Spawned (repropose_header header))))
    | None =>
        let num_of_digests := Nat.min (length (digests p)) (max_header_num_of_batches cfg) in
        _ ← lift (LeaderSchedule.leader (leader_schedule p) (if round p mod 2 =? 0 then round p else round p - 1));
        modify (fun p =>
          set_pending (set_parents (set_batches p (drop num_of_digests (digests p)) (proposed_headers p)) [])
            (Some (Spawned (propose_header (round p) (Committee.epoch (committee cfg)) (last_parents p)
              (take num_of_digests (digests p))))))
    end).

Definition propose_next_header : proposing unit :=
  _ ← modify (fun p => set_round p (proposal_round p));
  spawn_header.

Definition handle_proposal_result (result : outcome ProposerError Header.t) : proposing unit :=
  header ← lift result;
  _ ← modify (fun p => set_latest p header);
  with_state (fun p =>
    min ← lift (calc_min_delay p);
    max ← lift (calc_max_delay p);
    modify (fun p => set_batches (set_intervals p min max) (digests p) (<[Header.round header := header]> (proposed_headers p)))).

(** One branch of the loop. *)
Definition select (e : event) : proposing unit :=
  match e with
  | OurDigest d => modify (fun p => set_batches p (digests p ++ [d]) (proposed_headers p))
  | NewParents certs r => process_parents certs r
  | CommittedOwnHeaders _ committed => modify (process_committed_headers committed)
  | PendingHeader =>
      with_state (fun p =>
        match pending_header p with
        | Some (Finished r) => _ ← modify (fun p => set_pending p None); handle_proposal_result r
        | _ => lift (Ok ())
        end)
  | MaxDelayTick => modify (fun p => set_timeouts p true (min_delay_timed_out p))
  | MinDelayTick => modify (fun p => set_timeouts p (max_delay_timed_out p) true)
  | HeaderTask now latest_block => modify (run_task now latest_block)
  | HeaderTaskDropped => modify drop_task
  | NewSchedule schedule => modify (fun p => set_schedule p schedule)
  | Gone g => modify (fun p => set_gone p g)
  end.

(** Whether an event wakes the loop up. *)
Definition wakes (e : event) : bool :=
  match e with HeaderTask _ _ | HeaderTaskDropped | NewSchedule _ | Gone _ => false | _ => true end.

Definition should_create_header (p : t) : bool :=
  let enough_parents := negb (bool_decide (last_parents p = [])) in
  let enough_digests := bool_decide (header_num_of_batches_threshold cfg <= length (digests p))%nat in
  enough_parents && (max_delay_timed_out p || (advance_round p && (enough_digests || min_delay_timed_out p))).

(** One iteration: an event, and a new header if none is pending and it is time. *)
Definition run_step (e : event) : proposing unit :=
  _ ← select e;
  with_state (fun p =>
    if negb (wakes e) || bool_decide (is_Some (pending_header p)) then lift (Ok ())
    else if should_create_header p then
      _ ← propose_next_header;
      modify (fun p => set_timeouts p false false)
    else lift (Ok ())).

Fixpoint run (es : list event) : proposing unit :=
  match es with
  | [] => lift (Ok ())
  | e :: es => _ ← run_step e; run es
  end.

End proposer.
End Proposer.

(** * One header per round *)

Module ProposerFacts.
Import Proposer.
Section facts.
Context `{NetworkKeys} `{Crypto} `{SeededChoice} (cfg : parameters).
Implicit Types p : t.

Notation E := (Committee.epoch (committee cfg)).

(** The last header of the store, when it is of the current epoch. *)
Definition last_of_epoch p (l : Header.t) : Prop :=
  ProposerStore.get_last_proposed (proposer_store p) = Some l /\ Header.epoch l = E.

Definition job_fresh p (j : job) : Prop :=
  match j with
  | repropose_header h => last_of_epoch p h /\ Header.round h <= round p
  | propose_header r e _ _ => e = E /\ r <= round p /\ forall l, last_of_epoch p l -> Header.round l < r
  end.

(** Nothing was sent after the header of the store, and nothing else for its round; the
    next round is not below it, and a task that is running is for a later round or sends it
    again. *)
Record unique_inv p : Prop := {
  ui_sent h : h ∈ headers p -> exists l, last_of_epoch p l /\ (h = l \/ Header.round h < Header.round l);
  ui_unique h h' : h ∈ headers p -> h' ∈ headers p -> Header.round h = Header.round h' -> h = h';
  ui_round l : last_of_epoch p l -> Header.round l <= round p + 1;
  ui_pending j : pending_header p = Some (Spawned j) -> job_fresh p j;
}.

(** Another state with the same shared parts, at the same round or later. *)
Lemma unique_mono p p' :
  unique_inv p -> proposer_store p' = proposer_store p -> headers p' = headers p -> round p <= round p' ->
  (pending_header p' = pending_header p \/ forall j, pending_header p' <> Some (Spawned j)) -> unique_inv p'.
Proof.
  intros [I1 I2 I3 I4] Hs Hh Hr Hp. unfold last_of_epoch in *. constructor; unfold last_of_epoch in *; rewrite ?Hs, ?Hh in *; auto.
  - intros l Hl. specialize (I3 l Hl). lia.
  - intros j Hj. destruct Hp as [Hp|Hp]; [|by apply Hp in Hj]. rewrite Hp in Hj. specialize (I4 j Hj).
    destruct j; unfold job_fresh, last_of_epoch in *; rewrite ?Hs; [destruct I4; split; [done|lia]|].
    destruct I4 as (? & ? & ?). split_and!; [done|lia|done].
Qed.

(** What receiving parents and batches leaves alone. *)
Definition after p p' : Prop :=
  proposer_store p' = proposer_store p /\ headers p' = headers p /\ pending_header p' = pending_header p /\ round p <= round p'.

Lemma unique_after p p' : unique_inv p -> after p p' -> unique_inv p'.
Proof. intros Hp (? & ? & ? & ?). apply (unique_mono p); auto. Qed.

Lemma accept_parents_after p certs r : preserves (after p) (accept_parents cfg certs r (round p)).
Proof.
  unfold accept_parents. destruct (N.compare_spec r (round p)) as [Heq|Hlt|Hgt]; [| |].
  - apply preserves_bind; [by apply preserves_modify|intros []]. apply preserves_with_state. intros ?.
    apply preserves_bind; [auto with preserves|intros ?]. apply preserves_if; [by apply preserves_modify|auto with preserves].
  - auto with preserves.
  - apply preserves_bind.
    + apply preserves_modify. intros p' (? & ? & ? & ?). split_and!; try done. simpl. lia.
    + intros []. apply preserves_with_state. intros ?. apply preserves_bind; [auto with preserves|intros ?]. by apply preserves_modify.
Qed.

Lemma process_parents_after p certs r : after p (process_parents cfg certs r p).1.
Proof.
  unfold process_parents, gets, mbind at 1, action_bind at 1.
  apply (preserves_bind (after p)); [apply accept_parents_after| |by split_and!]. intros [].
  apply preserves_with_state. intros ?. apply preserves_bind; [auto with preserves|intros ?]. by apply preserves_modify.
Qed.

Lemma committed_after p committed : after p (process_committed_headers committed p).
Proof. unfold process_committed_headers. by destruct (expired _ _). Qed.

Lemma handle_result_after p r : after p (handle_proposal_result cfg r p).1.
Proof.
  unfold handle_proposal_result. apply (preserves_bind (after p)); [auto with preserves| |by split_and!]. intros header.
  apply preserves_bind; [by apply preserves_modify|intros []]. apply preserves_with_state. intros ?.
  do 2 (apply preserves_bind; [auto with preserves|intros ?]). by apply preserves_modify.
Qed.

(** The task stores its header and sends it. *)
Lemma run_task_unique now block p : unique_inv p -> unique_inv (run_task cfg now block p).
Proof.
  intros Hp. unfold run_task. destruct (pending_header p) as [[j|r]|] eqn:Hpend; [|done..].
  pose proof (ui_pending _ Hp j Hpend) as Hj. set (h := build_header cfg j now block).
  assert (Header.epoch h = E /\ Header.round h <= round p /\
    forall l, last_of_epoch p l -> l = h \/ Header.round l < Header.round h) as (He & Hr & Hl).
  { destruct j as [h'|r e ps ds]; simpl in *.
    - destruct Hj as [Hh' ?]. pose proof Hh' as [Hst ?]. split_and!; [done..|]. intros l [Hl _]. left. unfold h. simpl. congruence.
    - destruct Hj as (? & ? & Hf). split_and!; [done..|]. intros l ?. right. by apply Hf. }
  destruct (store_and_send_header p h) as [p1 r] eqn:Hs.
  assert (forall sent, sent = headers p \/ sent = headers p ++ [h] ->
    unique_inv (set_pending (set_sent p (ProposerStore.write_last_proposed (proposer_store p) h) sent) (Some (Finished (_ ← r; Ok h))))) as Hgen.
  { intros sent Hsent.
    assert (forall x, x ∈ sent -> x = h \/ Header.round x < Header.round h) as Hold.
    { intros x Hx. assert (x ∈ headers p \/ x = h) as [Hin| ->] by (destruct Hsent as [-> | ->]; set_solver); [|by left].
      destruct (ui_sent _ Hp x Hin) as (l & Hle & Hxl). specialize (Hl l Hle).
      destruct Hxl as [->|Hlt]; [done|]. right. destruct Hl as [->|]; lia. }
    assert (last_of_epoch (set_pending (set_sent p (ProposerStore.write_last_proposed (proposer_store p) h) sent)
      (Some (Finished (_ ← r; Ok h)))) h) as Hlast by (split; [apply lookup_insert_eq|done]).
    constructor; simpl.
    - intros x Hx%Hold. by exists h.
    - intros x y Hx Hy Hxy. assert (x ∈ headers p \/ x = h) as Hx' by (destruct Hsent as [-> | ->]; set_solver).
      assert (y ∈ headers p \/ y = h) as Hy' by (destruct Hsent as [-> | ->]; set_solver).
      apply Hold in Hx, Hy. destruct Hx' as [Hx'| ->], Hy' as [Hy'| ->]; [by apply (ui_unique _ Hp)|destruct Hx; [done|lia]|destruct Hy; [done|lia]|done].
    - intros l [Hg _]. destruct Hlast as [Hg' _]. assert (l = h) as -> by congruence. lia.
    - done. }
  unfold store_and_send_header in Hs. destruct (store_writes p), (headers_open p); injection Hs as <- <-; apply Hgen; auto.
Qed.

Lemma unique_spawn p j : unique_inv p -> job_fresh p j -> unique_inv (set_pending p (Some (Spawned j))).
Proof.
  intros Hp Hj. destruct Hp as [I1 I2 I3 I4]. constructor; [exact I1|exact I2|exact I3|]. intros j' [= <-]. destruct j; exact Hj.
Qed.

Definition in_range p : Prop := round p < round_max /\ primary_round_updates p < round_max.

Lemma next_round_range r : r < round_max -> (r + 1) mod u32_modulus = r + 1.
Proof. intros Hr. apply N.mod_small. unfold round_max, u32_modulus in *. lia. Qed.

Lemma proposal_round_ge p : in_range p -> round p < proposal_round p.
Proof.
  intros [Hr1 Hr2]. unfold proposal_round, next_round. rewrite !next_round_range by done.
  destruct (N.ltb_spec (round p + 1) (primary_round_updates p + 1)); lia.
Qed.

Lemma spawn_unique p :
  unique_inv p -> (forall l, last_of_epoch p l -> Header.round l <= round p) -> unique_inv (spawn_header cfg p).1.
Proof.
  intros Hp Hl. unfold spawn_header, with_state, lift at 1, mbind at 1, action_bind at 1. destruct (store_reads p); [|done]. cbn [ensure].
  destruct (possible_header_to_repropose cfg p) as [h|] eqn:Hpos; unfold possible_header_to_repropose in Hpos.
  - apply bind_Some in Hpos as (h' & Hh' & Hb). destruct (_ && _) eqn:Hb'; [|done]. injection Hb as ->.
    apply andb_true_iff in Hb' as [Hrd%N.eqb_eq He%N.eqb_eq].
    apply unique_spawn; [apply (unique_after p); [done|by split_and!]|]. split; [done|]. simpl in *. lia.
  - unfold lift, mbind, action_bind. destruct (LeaderSchedule.leader _ _) as [a|e| |]; try done.
    apply unique_spawn; [apply (unique_after p); [done|by split_and!]|]. split_and!; [done|simpl; lia|].
    intros l [Hst Hep]. specialize (Hl l (conj Hst Hep)). change (ProposerStore.get_last_proposed (proposer_store p) = Some l) in Hst.
    rewrite Hst in Hpos. simpl in Hpos. destruct (_ && _) eqn:Hb; [done|]. simpl. lia.
Qed.

Lemma propose_unique p : unique_inv p -> in_range p -> unique_inv (propose_next_header cfg p).1.
Proof.
  intros Hp Hr%proposal_round_ge. unfold propose_next_header, modify, mbind, action_bind. apply spawn_unique.
  - apply (unique_mono p); [done..|simpl; lia|by left].
  - intros l Hl. pose proof (ui_round _ Hp l Hl). simpl. lia.
Qed.

Lemma select_unique e : preserves unique_inv (select cfg e).
Proof.
  intros p Hp. destruct e as [d|certs r|cr committed| | | |now block| |schedule|g]; simpl.
  - apply (unique_after p); [done|by split_and!].
  - apply (unique_after p); [done|apply process_parents_after].
  - apply (unique_after p); [done|apply committed_after].
  - unfold with_state. destruct (pending_header p) as [[j|r]|]; [done| |done]. unfold modify, mbind, action_bind.
    apply (unique_after (set_pending p None)); [apply (unique_mono p); [done..|by right]|apply handle_result_after].
  - apply (unique_after p); [done|by split_and!].
  - apply (unique_after p); [done|by split_and!].
  - by apply run_task_unique.
  - unfold drop_task. destruct (pending_header p) as [[j|r]|]; [|done..]. by apply (unique_mono p); [..|right].
  - apply (unique_after p); [done|by split_and!].
  - apply (unique_after p); [done|by split_and!].
Qed.

Lemma run_step_unique p e : unique_inv p -> in_range (select cfg e p).1 -> unique_inv (run_step cfg e p).1.
Proof.
  intros Hp Hr. pose proof (select_unique e p Hp) as Hs. unfold run_step, mbind, action_bind.
  destruct (select cfg e p) as [p1 [[]|err| |]]; try done. cbn [fst] in *.
  unfold with_state. destruct (negb (wakes e) || _); [done|]. destruct (should_create_header cfg p1); [|done].
  pose proof (propose_unique p1 Hs Hr) as Hp2. unfold mbind, action_bind.
  destruct (propose_next_header cfg p1) as [p2 [[]|err| |]]; try done. apply (unique_after p2); [done|by split_and!].
Qed.

(** A store that remembers the last header that was sent. *)
Definition remembers (store : gmap N Header.t) (sent : list Header.t) : Prop :=
  forall h, h ∈ sent -> exists l, ProposerStore.get_last_proposed store = Some l /\ Header.epoch l = E /\
    (h = l \/ Header.round h < Header.round l).

(** The life of a proposer in one epoch: it starts with a store that holds no header of the
    epoch and handles events.  It restarts with a store that remembers the last header it
    sent, and the first thing it handles then are the parents that were recovered, of a
    round not below the parents of its last header. *)
Inductive history : t -> Prop :=
  | history_start schedule store primary :
      (forall l, ProposerStore.get_last_proposed store = Some l -> Header.epoch l <> E) ->
      history (new cfg schedule store primary [])
  | history_step p e : history p -> in_range (select cfg e p).1 -> history (run_step cfg e p).1
  | history_restart p schedule store primary certs r :
      history p -> remembers store (headers p) -> 0 < r ->
      (forall l, ProposerStore.get_last_proposed store = Some l -> Header.epoch l = E -> Header.round l <= r + 1) ->
      history (process_parents cfg certs r (new cfg schedule store primary (headers p))).1.

Lemma process_parents_round p certs r : round p < r -> round (process_parents cfg certs r p).1 = r.
Proof.
  intros Hr. unfold process_parents, gets, mbind at 1, action_bind at 1. unfold mbind at 1, action_bind at 1.
  assert (round (accept_parents cfg certs r (round p) p).1 = r) as Ha.
  { unfold accept_parents. destruct (N.compare_spec r (round p)); [lia|lia|].
    unfold modify at 1, mbind at 1, action_bind at 1, with_state, lift, mbind, action_bind, modify.
    by destruct (calc_max_delay _ _). }
  destruct (accept_parents cfg certs r (round p) p) as [p1 [[]|err| |]]; try done. cbn [fst] in *.
  unfold with_state, lift, mbind, action_bind, modify. by destruct (ready cfg p1).
Qed.

Lemma history_unique p : history p -> unique_inv p.
Proof.
  induction 1 as [schedule store primary Hst|p e _ IH Hr|p schedule store primary certs r _ IH Hrem Hr Hl].
  - constructor; simpl; [by intros h ?%elem_of_nil|by intros h h' ?%elem_of_nil| |done].
    intros l [Hg He]. by apply Hst in Hg.
  - by apply run_step_unique.
  - set (p0 := new cfg schedule store primary (headers p)).
    destruct (process_parents_after p0 certs r) as (Hs & Hh & Hp & _).
    pose proof (process_parents_round p0 certs r Hr) as Hrd. destruct IH as [I1 I2 I3 I4].
    constructor; unfold last_of_epoch in *; rewrite ?Hs, ?Hh, ?Hp, ?Hrd; simpl; [|exact I2| |done].
    + intros h (l & ? & ? & ?)%Hrem. by exists l.
    + intros l [? ?]. by apply Hl.
Qed.

End facts.
End ProposerFacts.
