(* ===== verification/ProposerSafety.v ===== *)
(** The properties of the proposer: one header per round, also across restarts; every batch
    is kept until a header that carries it is committed; and the loop does not panic. *)

From S2P Require Import Prelude Storage Committee Certificate CertStore PendingCerts Output ConsensusState.
From S2P Require Import OrderDag LeaderSchedule Bullshark BullsharkFacts Demo Proposer.
Import Proposer ProposerFacts.

Section safety.
Context `{NetworkKeys} `{Crypto} `{SeededChoice} (cfg : parameters).

(** C20: over its life in an epoch, restarts included, a proposer sends one header per
    round to the certifier.  Rounds stay below the maximum of 32 bits.  Of a restart it is
    assumed that the store still holds the last header that was sent (the database writes it
    in the background), that the parents that are recovered are not below those of that
    header, and that they are handled before anything else: a tick that comes first makes
    the proposer send a second header for an old round ([restart_equivocates]). *)
Theorem proposals_unique p h h' :
  history cfg p -> h ∈ headers p -> h' ∈ headers p -> Header.round h = Header.round h' -> h = h'.
Proof. intros Hp%history_unique. apply (ui_unique _ _ Hp). Qed.

End safety.

(** * Batches *)

Section batches.
Context `{NetworkKeys} `{Crypto} `{SeededChoice} (cfg : parameters).
Implicit Types p : t.

Definition header_digests (h : Header.t) : list N := (Header.payload h).*1.

Definition job_round (j : job) : Round :=
  match j with
  | repropose_header h => Header.round h
  | propose_header r _ _ _ => r
  end.

Definition job_digests (j : job) : list N :=
  match j with
  | repropose_header h => header_digests h
  | propose_header _ _ _ ds => ProposerDigest.digest <$> ds
  end.

Definition pending_digests p : list N :=
  match pending_header p with
  | Some (Spawned j) => job_digests j
  | Some (Finished (Ok h)) => header_digests h
  | _ => []
  end.

(** The batches the proposer still has to see committed: waiting, in a header that is
    being proposed, or in a header that was proposed. *)
Definition known p (d : N) : Prop :=
  d ∈ ProposerDigest.digest <$> digests p \/ d ∈ pending_digests p \/
  exists r h, proposed_headers p !! r = Some h /\ d ∈ header_digests h.

Definition pending_ok p : Prop :=
  match pending_header p with
  | None => True
  | Some (Spawned j) => job_round j <= round p /\ forall r, is_Some (proposed_headers p !! r) -> r < job_round j
  | Some (Finished (Ok h)) => Header.round h <= round p /\ h ∈ headers p /\
      forall r, is_Some (proposed_headers p !! r) -> r < Header.round h
  | Some (Finished _) => False
  end.

Record batch_inv p : Prop := {
  bi_proposed r h : proposed_headers p !! r = Some h -> Header.round h = r /\ r <= round p /\ h ∈ headers p;
  bi_pending : pending_ok p;
}.

(** Steps that do not touch the batches. *)
Definition same p p' : Prop :=
  digests p' = digests p /\ proposed_headers p' = proposed_headers p /\ pending_header p' = pending_header p /\
  headers p' = headers p /\ round p <= round p'.

(** The task ended with an error, which ends the loop when it takes the result. *)
Definition failed p : Prop := exists e, pending_header p = Some (Finished (Err e)).

Lemma same_inv p p' : batch_inv p -> same p p' -> batch_inv p'.
Proof.
  intros [I2 I3] (Hd & Hp & Hpe & Hh & Hr). constructor.
  - intros r h. rewrite Hp, Hh. intros (? & ? & ?)%I2. split_and!; [done|lia|done].
  - unfold pending_ok in *. rewrite Hpe, Hp, Hh. destruct (pending_header p) as [[j|[h|e| |]]|]; try done; naive_solver lia.
Qed.

Lemma same_known p p' d : same p p' -> known p d <-> known p' d.
Proof.
  intros (Hd & Hp & Hpe & _). unfold known, pending_digests. by rewrite Hd, Hp, Hpe.
Qed.

Lemma process_parents_same p certs r : same p (process_parents cfg certs r p).1.
Proof.
  unfold process_parents, gets, mbind at 1, action_bind at 1.
  apply (preserves_bind (same p)); [|intros []|by split_and!].
  2: { apply preserves_with_state. intros ?. apply preserves_bind; [auto with preserves|intros ?]. by apply preserves_modify. }
  unfold accept_parents. destruct (N.compare_spec r (round p)) as [Heq|Hlt|Hgt].
  - apply preserves_bind; [by apply preserves_modify|intros []]. apply preserves_with_state. intros ?.
    apply preserves_bind; [auto with preserves|intros ?]. apply preserves_if; [by apply preserves_modify|auto with preserves].
  - auto with preserves.
  - apply preserves_bind.
    + apply preserves_modify. intros p' (? & ? & ? & ? & ?). split_and!; try done. simpl. lia.
    + intros []. apply preserves_with_state. intros ?. apply preserves_bind; [auto with preserves|intros ?]. by apply preserves_modify.
Qed.

Lemma to_payload_digests ds d : d ∈ (to_payload ds).*1 <-> d ∈ ProposerDigest.digest <$> ds.
Proof.
  assert (forall payload k v, d ∈ (index_insert payload k v).*1 <-> d ∈ payload.*1 \/ d = k) as Hi.
  { induction payload as [|[k' v'] payload IH]; intros k v; cbn [index_insert]; [set_solver|].
    destruct (N.eqb_spec k' k) as [->|]; rewrite !fmap_cons, !elem_of_cons; [|rewrite IH]; simpl; tauto. }
  unfold to_payload. assert (forall acc, d ∈ (foldl (fun payload m => index_insert payload (ProposerDigest.digest m)
    (ProposerDigest.worker_id m, ProposerDigest.timestamp m)) acc ds).*1 <-> d ∈ acc.*1 \/ d ∈ ProposerDigest.digest <$> ds) as Hl.
  { induction ds as [|m ds IH]; intros acc; cbn [foldl]; [set_solver|]. rewrite IH, Hi, fmap_cons, elem_of_cons. tauto. }
  rewrite Hl. set_solver.
Qed.

Lemma from_payload_digests payload d : d ∈ ProposerDigest.digest <$> from_payload payload <-> d ∈ payload.*1.
Proof.
  unfold from_payload. induction payload as [|[k [w ts]] payload IH]; [done|]. rewrite !fmap_cons, !elem_of_cons, IH. done.
Qed.

Lemma build_header_digests j now block d : d ∈ header_digests (build_header cfg j now block) <-> d ∈ job_digests j.
Proof. destruct j; [done|]. apply to_payload_digests. Qed.

Lemma build_header_round j now block : Header.round (build_header cfg j now block) = job_round j.
Proof. by destruct j. Qed.

Lemma run_task_batches now block p :
  batch_inv p -> failed (run_task cfg now block p) \/
    (batch_inv (run_task cfg now block p) /\ forall d, known p d -> known (run_task cfg now block p) d).
Proof.
  intros Hp. unfold run_task. destruct (pending_header p) as [[j|r]|] eqn:Hpend; [|by right..].
  unfold store_and_send_header. pose proof (bi_pending _ Hp) as Hb. unfold pending_ok in Hb. rewrite Hpend in Hb.
  destruct (store_writes p), (headers_open p); cbn [negb]; [right|left; by eexists..].
  split.
  - constructor.
    + intros r h (? & ? & ?)%(bi_proposed _ Hp). split_and!; [done|done|]. simpl. set_solver.
    + unfold pending_ok. simpl. rewrite build_header_round. destruct Hb as [? ?]. split_and!; [done|set_solver|done].
  - intros d [Hd|[Hd|Hd]]; [by left| |by right; right]. right. left. unfold pending_digests in *. rewrite Hpend in Hd.
    simpl. by apply build_header_digests.
Qed.

Lemma handle_batches p h p' :
  batch_inv p -> pending_header p = Some (Finished (Ok h)) ->
  handle_proposal_result cfg (Ok h) (set_pending p None) = (p', Ok ()) ->
  batch_inv p' /\ forall d, known p d -> known p' d.
Proof.
  intros Hp Hpend. unfold handle_proposal_result.
  intros (p1 & h1 & [= <- <-] & (p2 & u2 & [= <- <-] & (p3 & min & [= <- _] & (p4 & max & [= <- _] & [= <-])%action_bind_Ok)%action_bind_Ok)%action_bind_Ok)%action_bind_Ok.
  pose proof (bi_pending _ Hp) as Hb. unfold pending_ok in Hb. rewrite Hpend in Hb. destruct Hb as (Hr & Hin & Hlt). split.
  - constructor; [|done]. simpl. intros r h' [[<- <-]|[Hne Hr']]%lookup_insert_Some; [done|by apply (bi_proposed _ Hp)].
  - intros d [Hd|[Hd|(r & h' & Hr' & Hd)]]; [by left| |].
    + right. right. unfold pending_digests in Hd. rewrite Hpend in Hd. exists (Header.round h), h. simpl. by rewrite lookup_insert_eq.
    + right. right. exists r, h'. split; [|done]. simpl. rewrite lookup_insert_ne; [done|].
      intros <-. assert (Header.round h < Header.round h); [|lia]. apply Hlt. by exists h'.
Qed.

Lemma delete_all_lookup {A B} (f : B -> Round) (m : gmap Round A) (l : list B) r h :
  foldl (fun m x => delete (f x) m) m l !! r = Some h <-> m !! r = Some h /\ r ∉ f <$> l.
Proof.
  revert m. induction l as [|x l IH]; intros m; cbn [foldl]; [set_solver|]. rewrite IH, lookup_delete_Some, fmap_cons, not_elem_of_cons. naive_solver.
Qed.

Lemma elem_of_expired m l x : x ∈ expired m l -> x ∈ l.
Proof. induction l as [|y l IH]; cbn [expired]; [done|]. destruct (_ <? _); set_solver. Qed.

Lemma committed_batches committed p :
  batch_inv p -> batch_inv (process_committed_headers committed p) /\
  forall d, known p d -> known (process_committed_headers committed p) d \/
    exists h, h ∈ headers p /\ d ∈ header_digests h /\ Header.round h ∈ committed.
Proof.
  intros Hp. unfold process_committed_headers.
  set (proposed := foldl (fun m r => delete r m) (proposed_headers p) committed).
  assert (forall r h, proposed !! r = Some h <-> proposed_headers p !! r = Some h /\ r ∉ committed) as Hprop.
  { intros r h. unfold proposed. rewrite (delete_all_lookup (fun r => r)), list_fmap_id. done. }
  assert (forall m', (forall r h, m' !! r = Some h -> proposed !! r = Some h) -> forall ds, batch_inv (set_batches p ds m')) as Hinv.
  { intros m' Hm' ds. constructor.
    - intros r h [Hr _]%Hm'%Hprop. by apply (bi_proposed _ Hp).
    - pose proof (bi_pending _ Hp) as Hb. unfold pending_ok in *. simpl.
      assert (forall r, is_Some (m' !! r) -> is_Some (proposed_headers p !! r)) as Hsub by (intros r [h [Hr _]%Hm'%Hprop]; by eauto).
      destruct (pending_header p) as [[j|[h|e| |]]|]; naive_solver. }
  assert (forall r h d, proposed_headers p !! r = Some h -> d ∈ header_digests h -> proposed !! r = Some h \/
    exists h, h ∈ headers p /\ d ∈ header_digests h /\ Header.round h ∈ committed) as Hcase.
  { intros r h d Hr Hd. destruct (decide (r ∈ committed)); [right|left; by apply Hprop].
    destruct (bi_proposed _ Hp _ _ Hr) as (<- & _ & ?). by exists h. }
  pose proof (elem_of_expired (foldl N.max 0 committed) (btree_iter proposed)) as Hexp.
  destruct (expired _ _) as [|x0 l] eqn:Hl.
  - split; [by apply Hinv|]. intros d [Hd|[Hd|(r & h & Hr & Hd)]]; [left; by left|left; right; by left|].
    destruct (Hcase r h d Hr Hd); [left; right; right; by eauto|by right].
  - rewrite <-Hl in Hexp |- *. split; [apply Hinv; intros r h [? _]%(delete_all_lookup fst); done|].
    intros d [Hd|[Hd|(r & h & Hr & Hd)]]; [left; left|left; right; by left|].
    + simpl. rewrite fmap_app. set_solver.
    + destruct (Hcase r h d Hr Hd) as [Hr'|]; [left|by right].
      destruct (decide (r ∈ (expired (foldl N.max 0 committed) (btree_iter proposed)).*1)) as [Hin|Hni].
      * left. simpl. rewrite fmap_app, elem_of_app. left. apply list_elem_of_fmap in Hin as ([r' h'] & -> & Hin).
        pose proof (Hexp _ Hin) as Hin'%elem_of_btree_iter. simpl in Hr'. assert (h' = h) as -> by congruence.
        apply from_payload_digests, list_elem_of_fmap in Hd as (m & -> & Hm). apply list_elem_of_fmap_2, list_elem_of_join.
        exists (from_payload (Header.payload h)). split; [done|]. apply list_elem_of_fmap. by exists (r', h).
      * right. right. exists r, h. split; [|done]. simpl. by apply (delete_all_lookup fst).
Qed.

(** The headers that are left are above every round that was committed. *)
Lemma committed_above committed p r h :
  proposed_headers (process_committed_headers committed p) !! r = Some h -> foldl N.max 0 committed < r.
Proof.
  unfold process_committed_headers. set (proposed := foldl (fun m r => delete r m) (proposed_headers p) committed).
  assert (forall m l x, StronglySorted (fun x y : Round * Header.t => x.1 <= y.1) l -> x ∈ l -> x.1 <= m -> x ∈ expired m l) as Hexp.
  { induction l as [|y l IH]; intros x Hs Hx Hm; [by apply elem_of_nil in Hx|]. inversion Hs as [|? ? Hs' Hy]; subst. rewrite Forall_forall in Hy.
    cbn [expired]. apply elem_of_cons in Hx as [<-|Hx]; (destruct (N.ltb_spec m y.1) || destruct (N.ltb_spec m x.1)); [lia|by left| |right; by apply IH].
    specialize (Hy x Hx). lia. }
  assert (StronglySorted (fun x y : Round * Header.t => x.1 <= y.1) (btree_iter proposed)) as Hsort.
  { pose proof (btree_iter_sorted proposed) as Hs. induction Hs as [|x l _ IH Hx]; constructor; [done|]. eapply Forall_impl; [exact Hx|]. intros y Hy. cbn in Hy. lia. }
  intros Hr. apply N.nle_gt. intros Hle.
  assert (proposed !! r = Some h -> (r, h) ∈ expired (foldl N.max 0 committed) (btree_iter proposed)) as Hin
    by (intros Hp; apply Hexp; [done|by apply elem_of_btree_iter|done]).
  destruct (expired _ _) as [|x l] eqn:Hl; cbn [set_batches proposed_headers] in Hr; [by apply Hin, elem_of_nil in Hr|].
  apply (delete_all_lookup fst) in Hr as [Hr Hn]. apply Hn. apply Hin in Hr. apply list_elem_of_fmap. by exists (r, h).
Qed.

Lemma spawn_batches p p' :
  batch_inv p -> pending_header p = None -> (forall r, is_Some (proposed_headers p !! r) -> r < round p) ->
  spawn_header cfg p = (p', Ok ()) -> batch_inv p' /\ forall d, known p d -> known p' d.
Proof.
  intros Hp Hpend Hlt. unfold spawn_header, with_state. intros (p0 & [] & [= <- _] & Hs)%action_bind_Ok. revert Hs.
  destruct (possible_header_to_repropose cfg p) as [h|] eqn:Hpos; unfold possible_header_to_repropose in Hpos.
  - intros [= <-]. apply bind_Some in Hpos as (h' & _ & Hb). destruct (_ && _) eqn:Hb'; [|done]. injection Hb as ->.
    apply andb_true_iff in Hb' as [Hrd%N.eqb_eq _]. split.
    + constructor; [apply (bi_proposed _ Hp)|]. unfold pending_ok. simpl. rewrite Hrd. split; [lia|exact Hlt].
    + intros d [Hd|[Hd|Hd]]; [by left| |by right; right]. unfold pending_digests in Hd. rewrite Hpend in Hd. by apply elem_of_nil in Hd.
  - intros (p1 & a & [= <- _] & [= <-])%action_bind_Ok. split.
    + constructor; [apply (bi_proposed _ Hp)|]. unfold pending_ok. simpl. split; [lia|exact Hlt].
    + intros d [Hd|[Hd|Hd]]; [| |by right; right].
      * rewrite <-(take_drop (Nat.min (length (digests p)) (max_header_num_of_batches cfg)) (digests p)), fmap_app, elem_of_app in Hd.
        destruct Hd; [right; by left|by left].
      * unfold pending_digests in Hd. rewrite Hpend in Hd. by apply elem_of_nil in Hd.
Qed.

Lemma propose_batches p p' :
  batch_inv p -> pending_header p = None -> in_range p -> propose_next_header cfg p = (p', Ok ()) ->
  batch_inv p' /\ forall d, known p d -> known p' d.
Proof.
  intros Hp Hpend Hr%proposal_round_ge. unfold propose_next_header, modify, mbind, action_bind. intros Hs.
  assert (same p (set_round p (proposal_round p))) as Hsame by (split_and!; simpl; try done; lia).
  apply spawn_batches in Hs as [? Hk]; [|by eapply same_inv|done|].
  - split; [done|]. intros d Hd. by apply Hk, (same_known p).
  - intros r [h Hh]. apply (bi_proposed _ Hp) in Hh as (_ & ? & _). simpl. lia.
Qed.

(** The batches received, and the rounds reported as committed, in a list of events. *)
Definition received_batches (es : list event) : list N :=
  omap (fun e => match e with OurDigest d => Some (ProposerDigest.digest d) | _ => None end) es.

Definition committed_rounds (es : list event) : list Round :=
  mjoin ((fun e => match e with CommittedOwnHeaders _ committed => committed | _ => [] end) <$> es).

(** A run of the loop from a start, without an error. *)
Inductive running (p0 : t) : list event -> t -> Prop :=
  | running_start : running p0 [] p0
  | running_step es e p p' :
      running p0 es p -> in_range (select cfg e p).1 -> run_step cfg e p = (p', Ok ()) -> running p0 (es ++ [e]) p'.

(** Every batch is still known, or was in a header that is committed. *)
Definition accounted p (d : N) (committed : list Round) : Prop :=
  known p d \/ exists h, h ∈ headers p /\ d ∈ header_digests h /\ Header.round h ∈ committed.

Lemma accounted_known p d committed : known p d -> accounted p d committed.
Proof. by left. Qed.

(** What an event does to the batches when the task of the header has not failed. *)
Definition kept_batches p e p' : Prop :=
  batch_inv p' /\ headers p ⊆ headers p' /\ (forall d, e = OurDigest d -> known p' (ProposerDigest.digest d)) /\
  forall d, known p d -> accounted p' d (committed_rounds [e]).

Lemma same_kept p e p' : batch_inv p -> same p p' -> (forall d, e <> OurDigest d) -> kept_batches p e p'.
Proof.
  intros Hp Hs He. split_and!; [by eapply same_inv|by destruct Hs as (_ & _ & _ & -> & _)|by intros d Hd; apply He in Hd|].
  intros d Hd. apply accounted_known. by apply (same_known p).
Qed.

Lemma select_batches p e p' :
  batch_inv p -> select cfg e p = (p', Ok ()) -> failed p' \/ kept_batches p e p'.
Proof.
  intros Hp Hs. destruct e as [d|certs r|cr committed| | | |now block| |schedule|g].
  - right. injection Hs as <-. split_and!; [by destruct Hp; constructor|done| |].
    + intros ? [= <-]. left. simpl. set_solver.
    + intros d' [Hd|[Hd|Hd]]; left; [left; simpl; set_solver|right; by left|right; by right].
  - right. pose proof (process_parents_same p certs r) as Hsame. simpl in Hs. rewrite Hs in Hsame. by apply same_kept.
  - right. injection Hs as <-. destruct (committed_batches committed p Hp) as [Hinv Hk].
    assert (headers (process_committed_headers committed p) = headers p) as Hh.
    { unfold process_committed_headers. by destruct (expired _ _). }
    unfold kept_batches, accounted, committed_rounds. simpl. rewrite Hh, app_nil_r. split_and!; [done..|by apply Hk].
  - right. simpl in Hs. unfold with_state in Hs. destruct (pending_header p) as [[j|[h|err| |]]|] eqn:Hpend;
      try (injection Hs as <-; by apply same_kept).
    apply action_bind_Ok in Hs as (p1 & u & [= <- _] & Hs).
    assert (headers p' = headers p) as Hh.
    { pose proof (handle_result_after cfg (set_pending p None) (Ok h)) as (_ & Hh & _). by rewrite Hs in Hh. }
    apply (handle_batches p h) in Hs as [Hinv Hk]; [|done..]. unfold kept_batches. rewrite Hh. split_and!; [done..|]. intros d Hd. by apply accounted_known, Hk.
  - right. injection Hs as <-. by apply same_kept.
  - right. injection Hs as <-. by apply same_kept.
  - injection Hs as <-. destruct (run_task_batches now block p Hp) as [?|[Hinv Hk]]; [by left|right].
    split_and!; [done| |done|intros d Hd; by apply accounted_known, Hk].
    unfold run_task. destruct (pending_header p) as [[j|r]|]; [|done..]. unfold store_and_send_header.
    destruct (store_writes p), (headers_open p); simpl; set_solver.
  - injection Hs as <-. unfold drop_task. destruct (pending_header p) as [[j|r]|]; [left; by eexists|right; by apply same_kept..].
  - right. injection Hs as <-. by apply same_kept.
  - right. injection Hs as <-. by apply same_kept.
Qed.

(** What follows the event: nothing, or the task for a new header. *)
Lemma proposer_step_inv e p p' : run_step cfg e p = (p', Ok ()) ->
  exists p1, select cfg e p = (p1, Ok ()) /\
    ((p' = p1 /\ (wakes e = false \/ is_Some (pending_header p1) \/ should_create_header cfg p1 = false)) \/
     (pending_header p1 = None /\ exists p2, propose_next_header cfg p1 = (p2, Ok ()) /\ p' = set_timeouts p2 false false)).
Proof.
  intros (p1 & [] & Hs & Hpost)%action_bind_Ok. exists p1. split; [done|]. unfold with_state in Hpost.
  destruct (wakes e); cbn [negb orb] in Hpost; [|injection Hpost as ->; left; auto].
  case_bool_decide as Hpe; [injection Hpost as ->; left; auto|].
  destruct (should_create_header cfg p1) eqn:Hsc; [right|injection Hpost as ->; left; auto].
  split; [by apply eq_None_not_Some|]. apply action_bind_Ok in Hpost as (p2 & [] & Hprop & [= <-]). by exists p2.
Qed.

Lemma propose_keeps p p' : propose_next_header cfg p = (p', Ok ()) ->
  headers p' = headers p /\ proposed_headers p' = proposed_headers p /\ is_Some (pending_header p').
Proof.
  unfold propose_next_header, modify, mbind at 1, action_bind at 1, spawn_header, with_state.
  intros (p0 & [] & [= <- _] & Hs)%action_bind_Ok. revert Hs. destruct (possible_header_to_repropose _ _); [intros [= <-]; by split_and!; [..|eexists]|].
  intros (p3 & a & [= <- _] & [= <-])%action_bind_Ok. by split_and!; [..|eexists].
Qed.

Lemma run_step_batches p e p' :
  batch_inv p -> in_range (select cfg e p).1 -> run_step cfg e p = (p', Ok ()) -> failed p' \/ kept_batches p e p'.
Proof.
  intros Hp Hr (p1 & Hs & Hpost)%proposer_step_inv. rewrite Hs in Hr. cbn [fst] in Hr.
  destruct (select_batches p e p1 Hp Hs) as [[err Hf]|Hk].
  - left. destruct Hpost as [[-> _]|(Hpend & _)]; [by exists err|congruence].
  - right. destruct Hpost as [[-> _]|(Hpend & p2 & Hprop & ->)]; [done|]. destruct Hk as (Hp1 & Hh & Hd & Hk).
    destruct (propose_keeps p1 p2 Hprop) as (Hh2 & _ & _). apply propose_batches in Hprop as [Hp2 Hk2]; [|done..].
    assert (forall d, known p1 d -> known (set_timeouts p2 false false) d) as Hk' by (intros d Hd'%Hk2; by apply (same_known p2)).
    unfold kept_batches, accounted. cbn [headers set_timeouts]. rewrite Hh2.
    split_and!; [apply (same_inv p2); [done|by split_and!]|done|by auto|]. intros d [?|?]%Hk; [left; by auto|by right].
Qed.

(** A failed task stays failed until the loop takes its result. *)
Lemma failed_step p e p' : failed p -> run_step cfg e p = (p', Ok ()) -> failed p'.
Proof.
  intros [err Hf] (p1 & Hs & Hpost)%proposer_step_inv. assert (pending_header p1 = pending_header p) as Hp.
  { destruct e as [d|certs r|cr committed| | | |now block| |schedule|g]; simpl in Hs; try by injection Hs as <-.
    - pose proof (process_parents_same p certs r) as (_ & _ & Hp & _). by rewrite Hs in Hp.
    - injection Hs as <-. unfold process_committed_headers. by destruct (expired _ _).
    - unfold with_state in Hs. by rewrite Hf in Hs.
    - injection Hs as <-. unfold run_task. by rewrite Hf.
    - injection Hs as <-. unfold drop_task. by rewrite Hf. }
  rewrite Hf in Hp. destruct Hpost as [[-> _]|(Hn & _)]; [by exists err|congruence].
Qed.

Lemma committed_rounds_app es e : committed_rounds (es ++ [e]) = committed_rounds es ++ committed_rounds [e].
Proof. unfold committed_rounds. rewrite fmap_app, join_app. done. Qed.

Lemma running_batches p0 es p :
  batch_inv p0 -> running p0 es p ->
  failed p \/ (batch_inv p /\ forall d, d ∈ received_batches es \/ known p0 d -> accounted p d (committed_rounds es)).
Proof.
  intros Hp0. induction 1 as [|es e p p' _ IHr Hr Hs].
  { right. split; [done|]. intros d [Hd|Hd]; [by apply elem_of_nil in Hd|by left]. }
  destruct IHr as [Hf|[Hp IH]]; [left; by eapply failed_step|].
  destruct (run_step_batches p e p' Hp Hr Hs) as [?|(Hp' & Hh & Hd & Hk)]; [by left|right]. split; [done|]. intros d Hin.
  unfold received_batches in Hin. rewrite omap_app, elem_of_app in Hin. rewrite committed_rounds_app. unfold accounted.
  assert (d ∈ received_batches es \/ known p0 d \/ exists w ts, e = OurDigest (ProposerDigest.mk d w ts)) as Hcase.
  { destruct Hin as [[?|Hin]|?]; [by left| |by right; left]. right. right. destruct e as [[d' w ts]| | | | | | | | |]; simpl in Hin; set_solver. }
  setoid_rewrite elem_of_app. destruct Hcase as [Hc|[Hc|(w & ts & ->)]].
  1,2: destruct (IH d ltac:(by auto)) as [Hkn|(h & ? & ? & ?)]; [destruct (Hk d Hkn) as [?|(h & ? & ? & ?)]; [by left|right; exists h; by auto]|
    right; exists h; split_and!; [set_solver|done|by left]].
  left. by apply (Hd _ eq_refl).
Qed.

(** C21: no batch is lost while the proposer runs: every batch reported to it is waiting,
    in the header being proposed, or in a header that was proposed and is tracked, unless a
    header that carries it was sent and reported as committed.  When a commit is reported, no
    header at or below the committed rounds stays tracked, so that a header that the commit
    passes over gives its batches back: they are waiting again or in the header being
    proposed.  Rounds stay below the maximum of 32 bits, and the batches of a task that
    failed are dropped with the proposer, which ends when it takes the error. *)
Theorem batches_kept schedule store primary sent es p d :
  running (new cfg schedule store primary sent) es p -> d ∈ received_batches es ->
  (failed p \/ accounted p d (committed_rounds es)) /\
  (forall es' commit_round committed, es = es' ++ [CommittedOwnHeaders commit_round committed] ->
     forall r h, proposed_headers p !! r = Some h -> foldl N.max 0 committed < r).
Proof.
  intros Hr Hd. split.
  - destruct (running_batches (new cfg schedule store primary sent) es p) as [?|[_ Ha]]; [|done|by left|right; apply Ha; by left].
    constructor; [|done]. simpl. intros r h Hrh. by rewrite lookup_empty in Hrh.
  - intros es' cr committed He r h. inversion Hr as [Hnil|es0 e p1 p' _ _ Hs Hes]; subst; [by destruct es'|].
    apply app_inj_tail in Hes as [_ ->]. apply proposer_step_inv in Hs as (p2 & [= <-] & [[-> _]|(_ & p3 & Hprop & ->)]).
    + apply committed_above.
    + apply propose_keeps in Hprop as (_ & Hp & _). cbn [proposed_headers set_timeouts]. rewrite Hp. apply committed_above.
Qed.

(** ** Progress *)

Section progress.
Context (Hwf : Committee.wf (committee cfg)) (Hst : ScheduleFacts.has_stake (committee cfg)).

Definition good_schedule p : Prop := ScheduleFacts.schedule_wf (committee cfg) (leader_schedule p).

Lemma next_round_parity p : next_round p mod 2 = (round p + 1) mod 2.
Proof.
  unfold next_round. change u32_modulus with (2 * 2 ^ 31). set (n := round p + 1).
  rewrite N.Div0.mod_mul_r, (N.mul_comm 2), N.Div0.mod_add. apply N.Div0.mod_mod.
Qed.

Lemma leader_returns p r : good_schedule p -> r mod 2 = 0 -> exists a, @LeaderSchedule.leader _ _ ProposerError (leader_schedule p) r = Ok a.
Proof. intros Hg Hr. destruct (ScheduleFacts.leader_ok (E := ProposerError) _ _ r Hwf Hst Hg Hr) as (a & Ha & _). by exists a. Qed.

Lemma committee_leader_returns r : exists a, @Committee.leader _ ProposerError (committee cfg) r = Ok a.
Proof.
  destruct Hst as (a & Ha & Hpos). unfold Committee.leader.
  destruct (choose_weighted_some r ((fun a => (a, Authority.voting_power a)) <$> btree_values (Committee.authorities (committee cfg)))) as [b Hb].
  - exists a, (Authority.voting_power a). split; [|done]. apply list_elem_of_fmap. by exists a.
  - exists b. by rewrite Hb.
Qed.

Lemma calc_max_returns p : good_schedule p -> exists n, calc_max_delay cfg p = Ok n.
Proof.
  intros Hg. unfold calc_max_delay. destruct (N.eqb_spec (next_round p mod 2) 0) as [He|]; [|by eexists].
  destruct (leader_returns p _ Hg He) as [a ->]. by eexists.
Qed.

Lemma calc_min_returns p : good_schedule p -> exists n, calc_min_delay cfg p = Ok n.
Proof.
  intros Hg. unfold calc_min_delay. destruct (N.eqb_spec (next_round p mod 2) 0) as [He|].
  - destruct (leader_returns p _ Hg He) as [a ->]. by eexists.
  - destruct (committee_leader_returns (next_round p)) as [a ->]. by eexists.
Qed.

Lemma ready_returns p : good_schedule p -> exists x, ready cfg p = Ok x.
Proof.
  intros Hg. unfold ready, enough_votes. destruct (N.eqb_spec (round p mod 2) 0) as [He|He].
  - destruct (leader_returns p _ Hg He) as [a ->]. by eexists.
  - destruct (leader_returns p (next_round p) Hg) as [a ->]; [rewrite next_round_parity; div_lia|]. simpl.
    destruct (_ =? _); [by eexists|]. destruct (last_leader p) as [c|]; [|by eexists]. destruct (count_votes _ _ _). by eexists.
Qed.

(** What an action does not touch: the schedule, the parties and the task. *)
Definition outside p : LeaderSchedule.t * bool * bool * bool * option pending_task :=
  (leader_schedule p, headers_open p, store_writes p, store_reads p, pending_header p).

(** An action that succeeds and keeps what is outside. *)
Definition total (m : action t ProposerError unit) : Prop :=
  forall p, good_schedule p -> exists p', m p = (p', Ok ()) /\ outside p' = outside p.

Lemma outside_schedule p p' : outside p' = outside p -> good_schedule p -> good_schedule p'.
Proof. unfold good_schedule. by intros [= -> _ _ _ _]. Qed.

Lemma total_modify f : (forall p, outside (f p) = outside p) -> total (modify f).
Proof. intros Hf p _. exists (f p). by rewrite Hf. Qed.

Lemma total_lift : total (lift (Ok ())).
Proof. intros p _. by exists p. Qed.

Lemma total_bind m k : total m -> total k -> total (_ ← m; k).
Proof.
  intros Hm Hk p Hg. destruct (Hm p Hg) as (p1 & Hp1 & Hl1). destruct (Hk p1) as (p2 & Hp2 & Hl2); [by eapply outside_schedule|].
  exists p2. rewrite <-Hl1. split; [|done]. apply action_bind_Ok. by exists p1, ().
Qed.

Lemma total_calc {A} (c : t -> outcome ProposerError A) (k : A -> action t ProposerError unit) :
  (forall p, good_schedule p -> exists a, c p = Ok a) -> (forall a, total (k a)) ->
  total (with_state (fun p => a ← lift (c p); k a)).
Proof.
  intros Hc Hk p Hg. destruct (Hc p Hg) as [a Ha]. destruct (Hk a p Hg) as (p' & Hp' & Hl). exists p'. split; [|done].
  unfold with_state. apply action_bind_Ok. exists p, a. unfold lift. by rewrite Ha.
Qed.

Lemma process_parents_total certs r : total (process_parents cfg certs r).
Proof.
  intros p Hg. unfold process_parents, gets, mbind at 1, action_bind at 1.
  revert p Hg. intros p Hg. apply total_bind; [|apply total_calc; [apply ready_returns|intros x; by apply total_modify]|done].
  unfold accept_parents. destruct (r ?= round p).
  - apply total_bind; [by apply total_modify|]. apply total_calc; [apply calc_min_returns|]. intros n.
    destruct (n =? 0); [by apply total_modify|apply total_lift].
  - apply total_lift.
  - apply total_bind; [by apply total_modify|]. apply total_calc; [apply calc_max_returns|]. intros n. by apply total_modify.
Qed.

Lemma handle_total h : total (handle_proposal_result cfg (Ok h)).
Proof.
  intros p Hg. destruct (calc_min_returns (set_latest p h) Hg) as [mn Hmn]. destruct (calc_max_returns (set_latest p h) Hg) as [mx Hmx].
  unfold handle_proposal_result, lift, with_state, modify, mbind, action_bind. rewrite Hmn, Hmx. by eexists.
Qed.

(** Who is to blame for an error, among the events. *)
Definition blame (es : list event) (e : ProposerError) : Prop :=
  match e with
  | WatchChannelClosed => False
  | OneshotChannelClosed => HeaderTaskDropped ∈ es
  | CertifierSender => Gone CertifierReceiver ∈ es
  | StoreError => Gone StoreWrites ∈ es \/ Gone StoreReads ∈ es
  end.

Record progress_inv (es : list event) p : Prop := {
  pi_schedule : good_schedule p;
  pi_certifier : headers_open p = false -> Gone CertifierReceiver ∈ es;
  pi_writes : store_writes p = false -> Gone StoreWrites ∈ es;
  pi_reads : store_reads p = false -> Gone StoreReads ∈ es;
  pi_pending r : pending_header p = Some (Finished r) -> (exists h, r = Ok h) \/ exists e, r = Err e /\ blame es e;
}.

Lemma blame_app es k e : blame es e -> blame (es ++ k) e.
Proof. destruct e; simpl; rewrite ?elem_of_app; tauto. Qed.

Lemma progress_outside es k p p' : outside p' = outside p -> progress_inv es p -> progress_inv (es ++ k) p'.
Proof.
  intros Ho [I1 I2 I3 I4 I5]. pose proof (outside_schedule _ _ Ho I1). injection Ho as _ Hh Hw Hr Hp.
  split; rewrite ?Hh, ?Hw, ?Hr, ?Hp, ?elem_of_app; auto. intros r [?|(e & -> & Hb)]%I5; [by left|right]. exists e. split; [done|by apply blame_app].
Qed.

(** The same, with another task. *)
Lemma progress_task es k p p' pending :
  outside p' = outside (set_pending p pending) -> (forall r, pending = Some (Finished r) -> (exists h, r = Ok h) \/ exists e, r = Err e /\ blame (es ++ k) e) ->
  progress_inv es p -> progress_inv (es ++ k) p'.
Proof.
  intros Ho Hr [I1 I2 I3 I4 I5]. apply (progress_outside (es ++ k) [] (set_pending p pending)) in Ho as Hi; [by rewrite app_nil_r in Hi|].
  split; simpl; rewrite ?elem_of_app; auto.
Qed.

Lemma run_task_progress es now block p : progress_inv es p -> progress_inv (es ++ [HeaderTask now block]) (run_task cfg now block p).
Proof.
  intros Hp. unfold run_task. destruct (pending_header p) as [[j|r]|] eqn:Hpend; [|by apply (progress_outside _ _ p)..].
  unfold store_and_send_header. destruct (store_writes p) eqn:Hw; cbn [negb].
  - destruct (headers_open p) eqn:Ho; (eapply (progress_task _ _ p); [reflexivity| |done]); intros r [= <-]; [left; by eexists|right].
    eexists. split; [done|]. apply blame_app. by apply Hp.
  - eapply (progress_task _ _ p); [reflexivity| |done]. intros r [= <-]. right. eexists. split; [done|]. apply blame_app. left. by apply Hp.
Qed.

Lemma gone_progress es p g : progress_inv es p -> progress_inv (es ++ [Gone g]) (set_gone p g).
Proof.
  intros [I1 I2 I3 I4 I5]. split; [exact I1|..]; simpl; rewrite ?elem_of_app.
  - destruct g; [intros _; right; set_solver|auto..].
  - destruct g; [auto|intros _; right; set_solver|auto].
  - destruct g; [auto|auto|intros _; right; set_solver].
  - intros r [?|(e & -> & Hb)]%I5; [by left|right]. exists e. split; [done|by apply blame_app].
Qed.

(** The outcome of an action after the events [es]: it succeeds, or somebody is to blame. *)
Definition progresses (es : list event) (x : t * outcome ProposerError unit) : Prop :=
  (x.2 = Ok () /\ progress_inv es x.1) \/ exists e, x.2 = Err e /\ blame es e.

Lemma total_progresses es e m p : total m -> progress_inv es p -> progresses (es ++ [e]) (m p).
Proof.
  intros Hm Hp. destruct (Hm p (pi_schedule _ _ Hp)) as (p' & -> & Ho). left. split; [done|]. by apply (progress_outside _ _ p).
Qed.

Lemma select_progress es e p :
  (forall sch, e = NewSchedule sch -> ScheduleFacts.schedule_wf (committee cfg) sch) -> progress_inv es p -> progresses (es ++ [e]) (select cfg e p).
Proof.
  intros Hsch Hp. destruct e as [d|certs r|cr committed| | | |now block| |schedule|g]; cbn [select].
  - by apply total_progresses; [apply total_modify|].
  - by apply total_progresses; [apply process_parents_total|].
  - apply total_progresses; [apply total_modify|done]. intros q. unfold process_committed_headers. by destruct (expired _ _).
  - unfold with_state. destruct (pending_header p) as [[j|r]|] eqn:Hpend; [by apply total_progresses; [apply total_lift|]| |by apply total_progresses; [apply total_lift|]].
    assert (progress_inv es (set_pending p None)) as Hp'.
    { rewrite <-(app_nil_r es). apply (progress_task es [] p _ None); [done|done|done]. }
    destruct (pi_pending _ _ Hp r Hpend) as [[h ->]|(e & -> & Hb)].
    + apply (total_progresses es PendingHeader (handle_proposal_result cfg (Ok h)) (set_pending p None)); [apply handle_total|done].
    + right. exists e. split; [done|by apply blame_app].
  - by apply total_progresses; [apply total_modify|].
  - by apply total_progresses; [apply total_modify|].
  - left. split; [done|]. by apply run_task_progress.
  - left. split; [done|]. cbn [fst modify]. unfold drop_task. destruct (pending_header p) as [[j|r]|]; [|by apply (progress_outside _ _ p)..].
    eapply (progress_task _ _ p); [reflexivity| |done]. intros r [= <-]. right. eexists. split; [done|]. simpl. set_solver.
  - left. split; [done|]. destruct Hp as [I1 I2 I3 I4 I5]. split; [by apply Hsch|simpl; rewrite ?elem_of_app; auto..].
    intros r [?|(e & -> & Hb)]%I5; [by left|right]. exists e. split; [done|by apply blame_app].
  - left. split; [done|]. by apply gone_progress.
Qed.

Lemma propose_progress es p : progress_inv es p -> progresses es (propose_next_header cfg p).
Proof.
  intros Hp. unfold propose_next_header, modify, mbind at 1, action_bind at 1. cbn [fst].
  set (p1 := set_round p (proposal_round p)). unfold spawn_header, with_state, lift at 1, mbind at 1, action_bind at 1.
  change (store_reads p1) with (store_reads p). destruct (store_reads p) eqn:Hr; cbn [ensure].
  2: { right. exists StoreError. split; [done|]. right. by apply Hp. }
  assert (forall p2 j, outside p2 = outside (set_pending p (Some (Spawned j))) -> progress_inv es p2) as Hspawn.
  { intros p2 j Ho. rewrite <-(app_nil_r es). by eapply (progress_task es [] p). }
  destruct (possible_header_to_repropose cfg p1); [left; split; [done|]; by eapply Hspawn|].
  destruct (leader_returns p1 (if round p1 mod 2 =? 0 then round p1 else round p1 - 1) (pi_schedule _ _ Hp)) as [a Ha].
  { destruct (N.eqb_spec (round p1 mod 2) 0) as [|Hne]; [done|]. div_lia. }
  unfold lift, mbind, action_bind. rewrite Ha. left. split; [done|]. by eapply Hspawn.
Qed.

Lemma run_step_progress es e p :
  (forall sch, e = NewSchedule sch -> ScheduleFacts.schedule_wf (committee cfg) sch) -> progress_inv es p ->
  progresses (es ++ [e]) (run_step cfg e p).
Proof.
  intros Hsch Hp. pose proof (select_progress es e p Hsch Hp) as Hs. unfold run_step, mbind at 1, action_bind at 1.
  destruct (select cfg e p) as [p1 r]. destruct Hs as [[Hr Hp1]|(err & Hr & Hb)]; cbn [fst snd] in *; subst r; [|right; by exists err].
  unfold with_state. destruct (negb (wakes e) || _); [by left|]. destruct (should_create_header cfg p1); [|by left].
  pose proof (propose_progress _ _ Hp1) as Hs. unfold mbind, action_bind.
  destruct (propose_next_header cfg p1) as [p2 r]. destruct Hs as [[Hr Hp2]|(err & Hr & Hb)]; cbn [fst snd] in *; subst r; [|right; by exists err].
  left. split; [done|]. rewrite <-(app_nil_r (es ++ [e])). by apply (progress_outside _ [] p2).
Qed.

Lemma run_progress es es' p :
  (forall sch, NewSchedule sch ∈ es' -> ScheduleFacts.schedule_wf (committee cfg) sch) -> progress_inv es p ->
  progresses (es ++ es') (run cfg es' p).
Proof.
  revert es p. induction es' as [|e es' IH]; intros es p Hsch Hp; cbn [run]; [rewrite app_nil_r; by left|].
  pose proof (run_step_progress es e p) as Hs. unfold mbind, action_bind. rewrite cons_middle, app_assoc.
  destruct (run_step cfg e p) as [p1 r]. destruct Hs as [[Hr Hp1]|(err & Hr & Hb)]; cbn [fst snd] in *; [|done|subst r..].
  - intros sch ->. apply Hsch. set_solver.
  - apply IH; [|done]. intros sch Hin. apply Hsch. set_solver.
  - right. exists err. split; [done|by apply blame_app].
Qed.

End progress.

Lemma run_snoc es e p p' : run cfg (es ++ [e]) p = (p', Ok ()) -> exists p1, run_step cfg e p1 = (p', Ok ()).
Proof.
  revert p. induction es as [|e0 es IH]; intros p; cbn [run app].
  - intros (p1 & [] & Hs & [= <-])%action_bind_Ok. by exists p.
  - intros (p1 & [] & _ & Hr)%action_bind_Ok. by eapply IH.
Qed.

(** C22: the proposer does not panic, and it stops on an error only when something it depends
    on is gone, with the error that names it: the receiver of its headers, the store for
    writing or reading, or the task of a header, which ended without a result.  From its
    start, over a well-formed committee with voting power and with schedules over it, it
    handles every other event; and after an event that wakes it up, when no header is being
    proposed, it is not time to propose one. *)
Theorem proposer_progress schedule store primary sent es :
  Committee.wf (committee cfg) -> ScheduleFacts.has_stake (committee cfg) ->
  (forall sch, sch = schedule \/ NewSchedule sch ∈ es -> ScheduleFacts.schedule_wf (committee cfg) sch) ->
  exists p o, run cfg es (new cfg schedule store primary sent) = (p, o) /\
    (o = Ok () \/ exists e, o = Err e /\ blame es e) /\
    (o = Ok () -> forall es' e, es = es' ++ [e] -> wakes e = true -> pending_header p = None -> should_create_header cfg p = false).
Proof.
  intros Hwf Hst Hsch. pose proof (run_progress Hwf Hst [] es (new cfg schedule store primary sent)) as Hp.
  destruct (run cfg es (new cfg schedule store primary sent)) as [p o] eqn:Hrun. exists p, o. split; [done|]. split.
  - destruct Hp as [[? _]|?]; [by auto| |by left|by right]. split; try done. by apply Hsch; left.
  - intros -> es' e -> He Hpend. apply run_snoc in Hrun as [p0 Hs]. apply proposer_step_inv in Hs as (p1 & _ & [[-> Hc]|(_ & p2 & Hprop & ->)]).
    + destruct Hc as [?|[[? ?]|?]]; [congruence|congruence|done].
    + apply propose_keeps in Hprop as (_ & _ & [x Hx]). cbn [pending_header set_timeouts] in Hpend. congruence.
Qed.

End batches.

(** * Evaluation *)

Section witnesses.
#[local] Existing Instances demo_keys demo_choice.

(** A hash that also binds the time of a header. *)
Definition timed_crypto : Crypto :=
  demo_crypto_of (fun h => N.pos (encode (Header.author h, Header.round h, Header.epoch h, Header.created_at h))).

#[local] Existing Instance timed_crypto.

Definition demo_parameters : parameters := mk_parameters 1 demo_committee 1 10 1 2.
Definition demo_started (store : gmap N Header.t) (primary : Round) (sent : list Header.t) : t :=
  new demo_parameters demo_schedule store primary sent.

Definition demo_batch (d : N) : event := OurDigest (ProposerDigest.mk d 0 0).

(** The first header, with one batch, and the parents of the second. *)
Definition demo_events : list event :=
  [demo_batch 7; HeaderTask 3 (0, 0); PendingHeader; demo_batch 8; NewParents demo_round1 1; MaxDelayTick; HeaderTask 4 (0, 0); PendingHeader].

Definition demo_run (es : list event) (p : t) : t := (run demo_parameters es p).1.

(** The steps of a run are in range and succeed. *)
Fixpoint all_ok (es : list event) (p : t) : bool :=
  match es with
  | [] => true
  | e :: es =>
      let p1 := (select demo_parameters e p).1 in
      let r := run_step demo_parameters e p in
      (round p1 <? round_max) && (primary_round_updates p1 <? round_max) && is_ok r.2 && all_ok es r.1
  end.

Lemma all_ok_step e es p : all_ok (e :: es) p = true ->
  in_range (select demo_parameters e p).1 /\ run_step demo_parameters e p = ((run_step demo_parameters e p).1, Ok ()) /\
  all_ok es (run_step demo_parameters e p).1 = true.
Proof.
  cbn [all_ok]. rewrite !andb_true_iff. intros [[[Hr1 Hr2] Hok] Hrest]. split; [split; by apply N.ltb_lt|]. split; [|done].
  destruct (run_step demo_parameters e p) as [p' [[]|err| |]]; done.
Qed.

Lemma demo_run_cons e es p : all_ok (e :: es) p = true -> demo_run (e :: es) p = demo_run es (run_step demo_parameters e p).1.
Proof.
  intros (_ & Hs & _)%all_ok_step. unfold demo_run. cbn [run]. unfold mbind, action_bind. rewrite Hs. done.
Qed.

Lemma demo_running es p0 dn p : running demo_parameters p0 dn p -> all_ok es p = true -> running demo_parameters p0 (dn ++ es) (demo_run es p).
Proof.
  revert dn p. induction es as [|e es IH]; intros dn p Hr Hok; [by rewrite app_nil_r|]. rewrite (demo_run_cons _ _ _ Hok).
  apply all_ok_step in Hok as (Hrange & Hs & Hok). rewrite cons_middle, app_assoc. apply IH; [|done]. by econstructor.
Qed.

Lemma demo_history es p : history demo_parameters p -> all_ok es p = true -> history demo_parameters (demo_run es p).
Proof.
  revert p. induction es as [|e es IH]; intros p Hp Hok; [done|]. rewrite (demo_run_cons _ _ _ Hok).
  apply all_ok_step in Hok as (Hrange & _ & Hok). apply IH; [|done]. by constructor.
Qed.

Definition demo_life : t := demo_run demo_events (demo_started ∅ 0 []).

Lemma demo_life_history : history demo_parameters demo_life.
Proof. apply demo_history; [apply history_start; by intros l ?|by vm_compute]. Qed.

(** After a restart that recovers the parents of the second header, it is sent again. *)
Definition demo_restarted : t :=
  demo_run [MaxDelayTick; HeaderTask 9 (0, 0)] (process_parents demo_parameters demo_round1 1 (demo_started (proposer_store demo_life) 0 (headers demo_life))).1.

Lemma demo_restarted_history : history demo_parameters demo_restarted.
Proof.
  apply demo_history; [|by vm_compute]. apply history_restart; [apply demo_life_history| |done|].
  { intros h Hh. destruct (ui_sent _ _ (history_unique _ _ demo_life_history) h Hh) as (l & [? ?] & ?). by exists l. }
  intros l Hl _. assert (exists h, ProposerStore.get_last_proposed (proposer_store demo_life) = Some h /\ Header.round h = 2) as (h & Hh & Hr).
  { eexists. split; [vm_compute; reflexivity|done]. }
  rewrite Hh in Hl. injection Hl as <-. by rewrite Hr.
Qed.

Lemma proposals_unique_witness :
  Header.round <$> headers demo_restarted = [1; 2; 2] /\
  forall h h', headers demo_restarted !! 1%nat = Some h -> headers demo_restarted !! 2%nat = Some h' -> h = h'.
Proof.
  split; [vm_compute; reflexivity|]. intros h h' Hh Hh'.
  apply (proposals_unique demo_parameters demo_restarted h h').
  - apply demo_restarted_history.
  - by eapply list_elem_of_lookup_2.
  - by eapply list_elem_of_lookup_2.
  - assert (Header.round <$> headers demo_restarted = [1; 2; 2]) as Hr by (vm_compute; reflexivity).
    pose proof (f_equal (lookup 1%nat) Hr) as Hr1. pose proof (f_equal (lookup 2%nat) Hr) as Hr2.
    rewrite list_lookup_fmap in Hr1, Hr2. rewrite Hh in Hr1. rewrite Hh' in Hr2. by injection Hr1 as ->; injection Hr2 as ->.
Defined.

(** The proposer starts at round 0 with the genesis as parents and with intervals whose
    first tick is immediate.  When a tick comes before the recovered parents, it proposes
    the first round again, although it has already proposed two rounds: the store only
    remembers the last header. *)
Definition demo_forgetful : t :=
  demo_run [MaxDelayTick; HeaderTask 9 (0, 0)] (demo_started (proposer_store demo_life) 0 (headers demo_life)).

Lemma restart_equivocates :
  exists h h', headers demo_forgetful !! 0%nat = Some h /\ headers demo_forgetful !! 2%nat = Some h' /\
    Header.author h = Header.author h' /\ Header.round h = Header.round h' /\ Header.epoch h = Header.epoch h' /\
    HeaderOps.digest h <> HeaderOps.digest h'.
Proof. do 2 eexists. split; [vm_compute; reflexivity|]. split; [vm_compute; reflexivity|]. vm_compute. by split_and!. Qed.

Lemma demo_life_running : running demo_parameters (demo_started ∅ 0 []) demo_events demo_life.
Proof. apply (demo_running demo_events _ []); [constructor|by vm_compute]. Qed.

(** The commit of the second header passes over the first one, whose batch is proposed again. *)
Definition demo_passed : t := demo_run [CommittedOwnHeaders 3 [2]] demo_life.

Lemma batches_kept_witness :
  size (proposed_headers demo_life) = 2%nat /\
  ProposerDigest.digest <$> digests demo_passed = [7] /\
  (failed demo_passed \/ accounted demo_passed 7 (committed_rounds (demo_events ++ [CommittedOwnHeaders 3 [2]]))) /\
  forall r h, proposed_headers demo_passed !! r = Some h -> 2 < r.
Proof.
  split; [by vm_compute|]. split; [by vm_compute|].
  destruct (batches_kept demo_parameters demo_schedule ∅ 0 [] (demo_events ++ [CommittedOwnHeaders 3 [2]]) demo_passed 7) as [Ha Hb].
  - apply (demo_running [CommittedOwnHeaders 3 [2]] _ demo_events); [apply demo_life_running|by vm_compute].
  - apply (bool_decide_unpack _). by vm_compute.
  - split; [exact Ha|]. exact (Hb demo_events 3 [2] eq_refl).
Defined.

(** The certifier goes away before the second header is sent. *)
Definition demo_abandoned : list event :=
  [demo_batch 7; HeaderTask 3 (0, 0); PendingHeader; demo_batch 8; NewParents demo_round1 1; MaxDelayTick; Gone CertifierReceiver; HeaderTask 4 (0, 0); PendingHeader].

Lemma proposer_progress_witness :
  (run demo_parameters demo_abandoned (demo_started ∅ 0 [])).2 = Err CertifierSender /\
  exists p o, run demo_parameters demo_abandoned (demo_started ∅ 0 []) = (p, o) /\
    (o = Ok () \/ exists e, o = Err e /\ blame demo_abandoned e) /\
    (o = Ok () -> forall es' e, demo_abandoned = es' ++ [e] -> wakes e = true -> pending_header p = None -> should_create_header demo_parameters p = false).
Proof.
  split; [by vm_compute|]. apply (proposer_progress demo_parameters demo_schedule ∅ 0 [] demo_abandoned).
  - apply demo_committee_wf.
  - exists (demo_authority 1). split; [|done]. apply (bool_decide_unpack _). by vm_compute.
  - intros sch [->|Hin]; [split; [done|]; split; [constructor|done]|]. unfold demo_abandoned in Hin. rewrite !elem_of_cons, elem_of_nil in Hin. naive_solver.
Defined.

End witnesses.
