(* ===== verification/VoteHandler.v ===== *)
(** Voting for the headers of other primaries.
    Models crates/consensus/primary/src/state_sync/header_validator.rs and the vote, gossip
    and consensus header requests of crates/consensus/primary/src/network/handler.rs, with
    the messages of network/message.rs and the errors of error/network.rs.  A request runs
    in a task of its own; what it waits for is part of its environment, and [OutOfFuel] is
    a request that is still waiting. *)

From S2P Require Import Prelude Storage Committee Certificate CertStore PendingCerts Output ConsensusState.
From S2P Require Import OrderDag LeaderSchedule Bullshark BullsharkFacts Demo CertificateSafety Aggregators CertManager.
From S2P Require Import CertValidator Consensus.
Import ConsensusConfig SyncConfig.

(** * Messages *)

Inductive PrimaryNetworkError :=
  | InvalidHeader (e : HeaderError)
  | Decode
  | NetworkCertificate (e : CertManagerError)
  | StdIo
  | NetworkStorage
  | InvalidRequest
  | Internal
  | UnknowConsensusHeaderNumber (number : N)
  | UnknowConsensusHeaderDigest (digest : N).

Inductive PrimaryGossip :=
  | GossipCertificate (cert : Certificate.t)
  | GossipConsensus (number hash : N).

Inductive PrimaryResponse :=
  | VoteResponse (vote : Vote.t)
  | RequestedCertificates (certificates : list Certificate.t)
  | MissingParents (parents : list Digest)
  | ConsensusHeaderResponse (header : ConsensusHeader.t)
  | ErrorResponse (e : PrimaryNetworkError).

(** [IntoRpcError::into_error], as used by [into_response]. *)
Definition into_response (r : outcome PrimaryNetworkError PrimaryResponse) : option PrimaryResponse :=
  match r with
  | Ok r => Some r
  | Err e => Some (ErrorResponse e)
  | _ => None
  end.

(** * Validating headers *)

Module HeaderValidator.

(** What happens while a header waits for its batches: a worker answers, or the consensus
    commits a round. *)
Inductive sync_event :=
  | WorkerDone (worker_id : WorkerId) (ok : bool)
  | CommittedRound (round : Round).

Section validator.
Context `{NetworkKeys} `{Crypto} (config : ConsensusConfig.t).

(** The certificates are awaited in the order of their digests; one that is not stored
    yet leaves the request waiting. *)
Definition notify_read_parent_certificates (store : CertificateStore.t) (header : Header.t)
    : outcome HeaderError (list Certificate.t) :=
  if Header.round header =? 1 then
    foldM (fun parents digest =>
        certificate ← ok_or (genesis config !! digest) (InvalidGenesisParent digest);
        Ok (parents ++ [certificate])) [] (bset_iter (Header.parents header))
  else
    foldM (fun parents digest =>
        match CertificateStore.read store digest with
        | Some certificate => Ok (parents ++ [certificate])
        | None => OutOfFuel
        end) [] (bset_iter (Header.parents header)).

(** The batches of the payload that are not stored, by worker. *)
Definition missing_batches (payload : PayloadStore.t) (header : Header.t) : gmap WorkerId (list N) :=
  foldl (fun missing '(digest, (worker_id, _)) =>
      if PayloadStore.contains_payload payload digest worker_id then missing
      else <[worker_id := default [] (missing !! worker_id) ++ [digest]]> missing)
    ∅ (Header.payload header).

(** The loop that waits for the workers still to answer, [waiting].  A worker that
    answered has its digests recorded; the first failure ends the wait. *)
Fixpoint sync_loop (header : Header.t) (max_age : Round) (payload : PayloadStore.t)
    (waiting : gmap WorkerId (list N)) (events : list sync_event) : PayloadStore.t * outcome HeaderError unit :=
  if bool_decide (waiting = ∅) then (payload, Ok ()) else
  match events with
  | [] => (payload, OutOfFuel)
  | WorkerDone worker_id ok :: events =>
      match waiting !! worker_id with
      | None => sync_loop header max_age payload waiting events
      | Some digests =>
          if ok then
            sync_loop header max_age (foldl (fun p digest => PayloadStore.write_payload p digest worker_id) payload digests)
              (delete worker_id waiting) events
          else (payload, Err SyncBatches)
      end
  | CommittedRound committed_round :: events =>
      if Header.round header <? committed_round - max_age
      then (payload, Err (HeaderTooOld (HeaderOps.digest header) (Header.round header) committed_round))
      else sync_loop header max_age payload waiting events
  end.

Definition sync_header_batches (committed_round : Round) (header : Header.t) (max_age : Round)
    (payload : PayloadStore.t) (events : list sync_event) : PayloadStore.t * outcome HeaderError unit :=
  if Header.author header =? authority_id config then (payload, Ok ()) else
  let max_round := committed_round - max_age in
  if Header.round header <? max_round
  then (payload, Err (HeaderTooOld (HeaderOps.digest header) (Header.round header) max_round))
  else sync_loop header max_age payload (missing_batches payload header) events.

(** The command to the certificate manager fails once its task has ended. *)
Definition identify_unkown_parents (v : CertificateValidator.t) (header : Header.t) : outcome HeaderError (list Digest) :=
  if Header.round header =? 1 then
    _ ← foldM (fun _ digest => ensure (bool_decide (is_Some (genesis config !! digest))) (InvalidGenesisParent digest))
          () (bset_iter (Header.parents header));
    Ok []
  else
    let parents := bset_iter (Header.parents header) in
    let existence := CertificateStore.multi_contains
                       (CertificateManager.node_storage (CertificateValidator.manager v)) parents in
    let unknown := (filter (fun de => de.2 = false) (zip parents existence)).*1 in
    if CertificateValidator.manager_running v then
      match CertificateManager.run_step (committee config) (CertificateValidator.genesis_digests config)
              (CertificateValidator.manager v) (CertificateManager.FilterUnkownDigests unknown) with
      | (_, CertificateManager.FilterReply unknown, _) => Ok unknown
      | _ => Err PendingCertificateOneshot
      end
    else Err TNSend.

End validator.
End HeaderValidator.

(** * Requests *)

Module RequestHandler.
Import HeaderValidator.

(** The state the requests share. *)
Record t := mk {
  validator : CertificateValidator.t;
  bus : ConsensusBus.t;
  primary_round : Round;
  last_published : N * N;
  requested_parents : gmap (Round * Digest) AuthorityIdentifier;
  vote_digests : gmap AuthorityIdentifier VoteInfo.t;
  payload : gmap (N * WorkerId) N;
  consensus_blocks : gmap N ConsensusHeader.t;
  consensus_numbers : gmap N N;
}.

Definition store (h : t) : CertificateStore.t := CertificateManager.node_storage (CertificateValidator.manager (validator h)).

Definition set_validator (h : t) (v : CertificateValidator.t) : t :=
  mk v (bus h) (primary_round h) (last_published h) (requested_parents h) (vote_digests h) (payload h)
    (consensus_blocks h) (consensus_numbers h).
Definition set_bus (h : t) (b : ConsensusBus.t) : t :=
  mk (validator h) b (primary_round h) (last_published h) (requested_parents h) (vote_digests h) (payload h)
    (consensus_blocks h) (consensus_numbers h).
Definition set_published (h : t) (p : N * N) : t :=
  mk (validator h) (bus h) (primary_round h) p (requested_parents h) (vote_digests h) (payload h)
    (consensus_blocks h) (consensus_numbers h).
Definition set_requested (h : t) (r : gmap (Round * Digest) AuthorityIdentifier) : t :=
  mk (validator h) (bus h) (primary_round h) (last_published h) r (vote_digests h) (payload h)
    (consensus_blocks h) (consensus_numbers h).
Definition set_votes (h : t) (v : gmap AuthorityIdentifier VoteInfo.t) : t :=
  mk (validator h) (bus h) (primary_round h) (last_published h) (requested_parents h) v (payload h)
    (consensus_blocks h) (consensus_numbers h).
Definition set_payload (h : t) (p : gmap (N * WorkerId) N) : t :=
  mk (validator h) (bus h) (primary_round h) (last_published h) (requested_parents h) (vote_digests h) p
    (consensus_blocks h) (consensus_numbers h).

(** What a request meets: the answers of the workers and the clock. *)
Record env := mk_env {
  sync_events : list sync_event;
  now : TimestampSec;
}.

Section handler.
Context `{NetworkKeys} `{Crypto} (config : ConsensusConfig.t) (default_header : SealedHeader.t)
  (sign : Digest -> BlsSignature).

Notation request := (action t PrimaryNetworkError).

Definition check {A} (o : outcome HeaderError A) : request A := lift (map_err InvalidHeader o).

Definition process_peer_certificate (cert : Certificate.t) : request unit := fun h =>
  let '(v, r) := CertificateValidator.process_peer_certificate config (validator h) cert in
  (set_validator h v, map_err NetworkCertificate r).

(** [gossip] is the decoded message, if it could be decoded. *)
Definition process_gossip (gossip : option PrimaryGossip) : request unit :=
  match gossip with
  | None => lift (Err Decode)
  | Some (GossipCertificate cert) =>
      unverified_cert ← lift (map_err (fun e => NetworkCertificate (CertManagerCertificate e)) (Certificate.validate_received cert));
      process_peer_certificate unverified_cert
  | Some (GossipConsensus number hash) => modify (fun h => set_published h (number, hash))
  end.

Definition wait_for_execution (header : Header.t) : request unit := fun h =>
  match ConsensusBus.wait_for_execution default_header (bus h) (Header.latest_execution_block header) with
  | None => (h, OutOfFuel)
  | Some (b, true) => (set_bus h b, Ok ())
  | Some (b, false) => (set_bus h b, Err (InvalidHeader (UnknownExecutionResult (Header.latest_execution_block header))))
  end.

(** [pop_first] while the first entry of the map is below the limit. *)
Fixpoint pop_below (limit : Round) (entries : list ((Round * Digest) * AuthorityIdentifier))
    (requests : gmap (Round * Digest) AuthorityIdentifier) : gmap (Round * Digest) AuthorityIdentifier :=
  match entries with
  | (key, _) :: entries => if key.1 <? limit - 1 then pop_below limit entries (delete key requests) else requests
  | [] => requests
  end.

Definition prune_requests (limit : Round) (requests : gmap (Round * Digest) AuthorityIdentifier)
    : gmap (Round * Digest) AuthorityIdentifier := pop_below limit (btree_iter requests) requests.

(** [retain] over the unknown digests: those not requested yet are recorded and kept.
    [header.round() - 1] wraps for a header of round 0. *)
Definition claim_requests (header : Header.t) (requests : gmap (Round * Digest) AuthorityIdentifier) (unknown : list Digest)
    : gmap (Round * Digest) AuthorityIdentifier * list Digest :=
  foldl (fun '(requests, kept) digest =>
      let key := (wrapping_sub32 (Header.round header) 1, digest) in
      match requests !! key with
      | None => (<[key := Header.author header]> requests, kept ++ [digest])
      | Some _ => (requests, kept)
      end) (requests, []) unknown.

Definition check_for_missing_parents (header : Header.t) : request (list Digest) :=
  unknown_certs ← with_state (fun h => check (identify_unkown_parents config (validator h) header));
  limit ← gets (fun h => primary_round h - max_proposed_header_age_limit (sync_config config));
  _ ← check (ensure (limit <=? Header.round header)
         (HeaderTooOld (HeaderOps.digest header) (Header.round header) limit));
  with_state (fun h =>
    let '(requests, kept) := claim_requests header (prune_requests limit (requested_parents h)) unknown_certs in
    _ ← modify (fun h => set_requested h requests);
    lift (Ok kept)).

(** Only parents requested from this author are processed. *)
Definition try_accept_unknown_certs (header : Header.t) (parents : list Certificate.t) : request unit := fun h =>
  let requested := filter (fun cert =>
      requested_parents h !! (Certificate.round cert, Certificate.digest cert) = Some (Header.author header)) parents in
  foldl (fun acc cert => match acc with (h, Ok _) => process_peer_certificate cert h | _ => acc end) (h, Ok ()) requested.

(** The parents with their state reset to unverified. *)
Definition reset_parents (parents : list Certificate.t) : outcome HeaderError (list Certificate.t) :=
  foldM (fun acc cert =>
      sig ← ok_or (Certificate.aggregated_signature cert) ParentMissingSignature;
      Ok (acc ++ [Certificate.set_signature_verification_state cert (Unverified sig)])) [] parents.

(** The loop over the parents of a header: their authors and their stake. *)
Definition check_parent (header : Header.t) (acc : gset AuthorityIdentifier * N) (parent : Certificate.t)
    : outcome HeaderError (gset AuthorityIdentifier * N) :=
  let '(parent_authorities, stake) := acc in
  _ ← ensure (Certificate.round parent + 1 =? Header.round header) InvalidParentRound;
  _ ← ensure (Header.created_at (Certificate.header parent) <=? Header.created_at header)
        (InvalidParentTimestamp (Header.created_at header) (Certificate.created_at parent));
  _ ← ensure (negb (bool_decide (Header.author (Certificate.header parent) ∈ parent_authorities))) DuplicateParents;
  Ok ({[Header.author (Certificate.header parent)]} ∪ parent_authorities,
      wrap64 (stake + Committee.voting_power_by_id (committee config) (Certificate.origin parent))).

Definition check_parents (header : Header.t) (parents : list Certificate.t) : outcome PrimaryNetworkError unit :=
  acc ← map_err InvalidHeader (foldM (check_parent header) (∅, 0) parents);
  let threshold := Committee.quorum_threshold (committee config) in
  ensure (threshold <=? acc.2) (NetworkCertificate (CertManagerCertificate (Inquorate acc.2 threshold))).

(** A header that is ahead of the clock is slept for within the tolerance. *)
Definition check_timestamp (now : TimestampSec) (header : Header.t) : outcome HeaderError unit :=
  if now <? Header.created_at header then
    ensure (Header.created_at header - now <=? max_header_time_drift_tolerance (sync_config config))
      (InvalidTimestamp (Header.created_at header) now)
  else Ok ().

Definition new_vote (header : Header.t) : Vote.t := Vote.new_sync header (authority_id config) sign.

(** What the previous vote for the author allows: the old vote again, or a new one. *)
Definition decide_vote (previous_vote : option VoteInfo.t) (header : Header.t) : outcome HeaderError (Vote.t * bool) :=
  match previous_vote with
  | Some vote_info =>
      _ ← ensure (Header.epoch header =? VoteInfo.epoch vote_info)
            (InvalidEpoch (Header.epoch header) (VoteInfo.epoch vote_info));
      _ ← ensure (VoteInfo.round vote_info <=? Header.round header)
            (AlreadyVotedForLaterRound (Header.round header) (VoteInfo.round vote_info));
      if Header.round header =? VoteInfo.round vote_info then
        let vote := new_vote header in
        if negb (Vote.digest vote =? VoteInfo.vote_digest vote_info)
        then Err (AlreadyVoted (HeaderOps.digest header) (Header.round header))
        else Ok (vote, false)
      else Ok (new_vote header, true)
  | None => Ok (new_vote header, true)
  end.

Definition sync_batches (e : env) (header : Header.t) : request unit := fun h =>
  let '(p, r) := sync_header_batches config (ConsensusBus.committed_round_updates (bus h)) header 0 (payload h) (sync_events e) in
  (set_payload h p, map_err InvalidHeader r).

(** What a request has decided once it has read the table of votes: to answer, or to
    record a new vote first. *)
Inductive decision :=
  | Answer (r : PrimaryResponse)
  | Record_vote (vote : Vote.t).

(** Everything up to the read of the previous vote. *)
Definition vote_decision (e : env) (peer : N) (header : Header.t) (parents : list Certificate.t) : request decision :=
  _ ← check (HeaderOps.validate header (committee config) (worker_cache config));
  let num_parents := N.of_nat (length parents) in
  _ ← check (ensure (num_parents <=? Committee.size (committee config)) (TooManyParents num_parents (Committee.size (committee config))));
  _ ← check (ensure (Committee.is_authority (committee config) peer) (UnknownNetworkKey peer));
  _ ← check (ensure (Header.author header =? peer) PeerNotAuthor);
  _ ← wait_for_execution header;
  missing_parents ← match parents with
                    | [] => check_for_missing_parents header
                    | _ =>
                        verified ← check (reset_parents parents);
                        _ ← try_accept_unknown_certs header verified;
                        lift (Ok [])
                    end;
  match missing_parents with
  | _ :: _ => lift (Ok (Answer (MissingParents missing_parents)))
  | [] =>
      parents ← with_state (fun h => check (notify_read_parent_certificates config (store h) header));
      _ ← lift (check_parents header parents);
      _ ← sync_batches e header;
      _ ← check (check_timestamp (now e) header);
      previous_vote ← gets (fun h => VoteDigestStore.read_vote_info (vote_digests h) (Header.author header));
      d ← check (decide_vote previous_vote header);
      lift (Ok (if d.2 : bool then Record_vote d.1 else Answer (VoteResponse d.1)))
  end.

(** The write of a new vote, after the read above. *)
Definition vote_record (d : decision) : request PrimaryResponse :=
  match d with
  | Answer r => lift (Ok r)
  | Record_vote v =>
      _ ← modify (fun h => set_votes h (VoteDigestStore.write_vote (vote_digests h) v));
      lift (Ok (VoteResponse v))
  end.

Definition vote (e : env) (peer : N) (header : Header.t) (parents : list Certificate.t) : request PrimaryResponse :=
  d ← vote_decision e peer header parents; vote_record d.

(** ** Consensus headers *)

Definition get_header_by_number (number : N) : request ConsensusHeader.t := fun h =>
  (h, ok_or (consensus_blocks h !! number) InvalidRequest).

Definition get_header_by_hash (hash : N) : request ConsensusHeader.t := fun h =>
  match consensus_numbers h !! hash with
  | Some number => get_header_by_number number h
  | None => (h, Err (UnknowConsensusHeaderDigest hash))
  end.

Definition get_latest_output : request ConsensusHeader.t := fun h =>
  (h, ok_or (snd <$> MemTable.last_record (consensus_blocks h)) InvalidRequest).

Definition retrieve_consensus_header (number hash : option N) : request PrimaryResponse :=
  header ← match number, hash with
           | _, Some hash => get_header_by_hash hash
           | Some number, _ => get_header_by_number number
           | None, None => get_latest_output
           end;
  lift (Ok (ConsensusHeaderResponse header)).

End handler.
End RequestHandler.
