(* ===== verification/VoteSafety.v ===== *)
(** The properties of voting: a vote is given only to a header whose author, parents,
    batches and timestamp were checked, and requests that run one after the other never
    vote for two headers of one author and round, so that no two certificates of a round
    and author are signed by quorums. *)

From S2P Require Import Prelude Storage Committee Certificate CertStore PendingCerts Output ConsensusState.
From S2P Require Import OrderDag LeaderSchedule Bullshark BullsharkFacts Demo CertificateSafety Aggregators CertManager.
From S2P Require Import CertValidator Consensus Proposer VoteHandler.
Import ConsensusConfig SyncConfig HeaderValidator RequestHandler ProposerFacts.

(** * Batches *)

Section batches.
Context `{NetworkKeys} `{Crypto} (config : ConsensusConfig.t).
Implicit Types (p : gmap (N * WorkerId) N) (header : Header.t) (waiting : gmap WorkerId (list N)).

(** Every batch of the header is stored or waited for. *)
Definition covered p waiting (batches : list (N * (WorkerId * TimestampSec))) : Prop :=
  forall digest worker_id t, (digest, (worker_id, t)) ∈ batches ->
    PayloadStore.contains_payload p digest worker_id = true \/
    exists ds, waiting !! worker_id = Some ds /\ digest ∈ ds.

Lemma contains_payload_spec p digest worker_id :
  PayloadStore.contains_payload p digest worker_id = true <-> is_Some (p !! (digest, worker_id)).
Proof. unfold PayloadStore.contains_payload, MemTable.contains_key. apply bool_decide_eq_true. Qed.

Lemma missing_batches_covered p header : covered p (missing_batches p header) (Header.payload header).
Proof.
  unfold missing_batches.
  enough (forall l done waiting, covered p waiting done -> covered p
    (foldl (fun missing '(digest, (worker_id, _)) =>
      if PayloadStore.contains_payload p digest worker_id then missing
      else <[worker_id := default [] (missing !! worker_id) ++ [digest]]> missing) waiting l) (done ++ l)) as Hgen.
  { apply (Hgen (Header.payload header) []). by intros d w t ?%elem_of_nil. }
  induction l as [|[d [w t]] l IH]; intros dn waiting Hc; [by rewrite app_nil_r|]. cbn [foldl].
  rewrite (cons_middle (d, (w, t)) dn l), app_assoc. apply IH.
  intros d' w' t' [Hin|Hin%list_elem_of_singleton]%elem_of_app.
  - destruct (Hc d' w' t' Hin) as [?|(ds & Hds & Hd)]; [by left|].
    destruct (PayloadStore.contains_payload p d w) eqn:He; [right; by exists ds|right].
    destruct (decide (w' = w)) as [->|].
    + exists (default [] (waiting !! w) ++ [d]). rewrite lookup_insert_eq, Hds. split; [done|set_solver].
    + exists ds. by rewrite lookup_insert_ne.
  - injection Hin as -> -> ->. destruct (PayloadStore.contains_payload p d w) eqn:He; [by left|right].
    eexists. rewrite lookup_insert_eq. split; [done|set_solver].
Qed.

Lemma write_payloads_spec p w ds k :
  is_Some (foldl (fun p d => PayloadStore.write_payload p d w) p ds !! k) <-> is_Some (p !! k) \/ (k.2 = w /\ k.1 ∈ ds).
Proof.
  revert p. induction ds as [|d ds IH]; intros p; cbn [foldl]; [set_solver|]. rewrite IH.
  unfold PayloadStore.write_payload, MemTable.insert. destruct k as [kd kw]. cbn [fst snd].
  destruct (decide ((d, w) = (kd, kw))) as [[= -> ->]|Hne].
  - rewrite lookup_insert_eq. split; [intros _; right; set_solver|intros _; left; by eexists].
  - rewrite lookup_insert_ne by done. rewrite elem_of_cons. split; [naive_solver|].
    intros [?|[-> [->|?]]]; [by left|done|by right].
Qed.

Lemma sync_loop_covered header max_age p waiting events p' batches :
  covered p waiting batches -> sync_loop header max_age p waiting events = (p', Ok ()) -> covered p' ∅ batches.
Proof.
  revert p waiting. induction events as [|e events IH]; intros p waiting Hc; cbn [sync_loop];
    (case_bool_decide as Hw; [intros [= <-]; by rewrite <-Hw|]); [done|].
  destruct e as [w ok|r].
  - destruct (waiting !! w) as [ds|] eqn:Hds; [|by apply IH]. destruct ok; [|done]. apply IH.
    intros d' w' t' Hin. destruct (Hc d' w' t' Hin) as [Hst|(ds' & Hds' & Hd)].
    + left. apply contains_payload_spec, write_payloads_spec. left. by apply contains_payload_spec.
    + destruct (decide (w' = w)) as [->|].
      * left. apply contains_payload_spec, write_payloads_spec. right. by simplify_eq.
      * right. exists ds'. by rewrite lookup_delete_ne.
  - destruct (_ <? _); [done|by apply IH].
Qed.

Lemma sync_header_batches_stored committed header max_age p events p' :
  sync_header_batches config committed header max_age p events = (p', Ok ()) ->
  Header.author header = authority_id config \/
  forall digest worker_id t, (digest, (worker_id, t)) ∈ Header.payload header ->
    PayloadStore.contains_payload p' digest worker_id = true.
Proof.
  unfold sync_header_batches. destruct (N.eqb_spec (Header.author header) (authority_id config)) as [|Hne]; [by left|].
  destruct (_ <? _); [done|]. intros Hs. right. intros d w t Hin.
  destruct (sync_loop_covered _ _ _ _ _ _ _ (missing_batches_covered p header) Hs d w t Hin) as [?|(ds & Hds & _)]; [done|].
  by rewrite lookup_empty in Hds.
Qed.

End batches.

(** * What a vote has checked *)

Section checks.
Context `{NetworkKeys} `{Crypto} (config : ConsensusConfig.t) (default_header : SealedHeader.t) (sign : Digest -> BlsSignature).
Implicit Types (h : t) (header : Header.t) (parents : list Certificate.t).

(** The parents as the vote counts them. *)
Record parents_checked header parents : Prop := {
  pc_round p : p ∈ parents -> Certificate.round p + 1 = Header.round header;
  pc_time p : p ∈ parents -> Header.created_at (Certificate.header p) <= Header.created_at header;
  pc_authors : NoDup (Certificate.origin <$> parents);
  pc_quorum : Committee.reached_quorum (committee config)
    (Committee.weight (committee config) (list_to_set (Certificate.origin <$> parents))) = true;
}.

Context (Hwf : Committee.wf (committee config)).
Context (Hstake : Committee.stake (Committee.authorities (committee config)) < 2 ^ 63).

Lemma weight_bound X : Committee.weight (committee config) X < u64_modulus.
Proof.
  pose proof (CommitteeFacts.weight_le_stake (committee config) Hwf X).
  assert (u64_modulus = 2 * 2 ^ 63) by done. lia.
Qed.

Lemma check_parent_Ok header acc p acc' :
  acc.2 = Committee.weight (committee config) acc.1 -> check_parent config header acc p = Ok acc' ->
  Certificate.round p + 1 = Header.round header /\
  Header.created_at (Certificate.header p) <= Header.created_at header /\
  Certificate.origin p ∉ acc.1 /\ acc'.1 = {[Certificate.origin p]} ∪ acc.1 /\
  acc'.2 = Committee.weight (committee config) acc'.1.
Proof.
  destruct acc as [X w]. simpl. intros Hw.
  intros (u1 & Hr%ensure_Ok & (u2 & Ht%ensure_Ok & (u3 & Hd%ensure_Ok & [= <-])%bind_Ok)%bind_Ok)%bind_Ok.
  apply negb_true_iff, bool_decide_eq_false in Hd. simpl. split_and!; [lia|lia|done|done|].
  change (Header.author (Certificate.header p)) with (Certificate.origin p) in *.
  assert (Committee.weight (committee config) ({[Certificate.origin p]} ∪ X) =
    w + Committee.voting_power_by_id (committee config) (Certificate.origin p)) as Heq.
  { rewrite Hw. unfold Committee.weight. rewrite weigh_insert by done. lia. }
  rewrite <-Heq. apply wrap64_small, weight_bound.
Qed.

Lemma check_parents_fold header l acc acc' :
  acc.2 = Committee.weight (committee config) acc.1 -> foldM (check_parent config header) acc l = Ok acc' ->
  (forall p, p ∈ l -> Certificate.round p + 1 = Header.round header /\
     Header.created_at (Certificate.header p) <= Header.created_at header) /\
  NoDup (Certificate.origin <$> l) /\ (forall a, a ∈ Certificate.origin <$> l -> a ∉ acc.1) /\
  acc'.1 = list_to_set (Certificate.origin <$> l) ∪ acc.1 /\ acc'.2 = Committee.weight (committee config) acc'.1.
Proof.
  revert acc. induction l as [|p l IH]; intros acc Hw; cbn [foldM].
  { intros [= <-]. split_and!; [by intros p ?%elem_of_nil|constructor|by intros a ?%elem_of_nil|simpl; set_solver|done]. }
  intros (acc1 & Hp & Hl)%bind_Ok. apply check_parent_Ok in Hp as (Hr & Ht & Hn & H1 & H2); [|done].
  destruct (IH acc1 H2 Hl) as (Hall & Hnd & Hfr & He & Hw'). rewrite fmap_cons. split_and!; [| | | |done].
  - intros q [->|Hq]%elem_of_cons; [done|by apply Hall].
  - apply NoDup_cons. split; [|done]. intros Hin%Hfr. set_solver.
  - intros a [->|Hin]%elem_of_cons; [done|]. apply Hfr in Hin. set_solver.
  - rewrite He, H1. simpl. set_solver.
Qed.

Lemma check_parents_checked header parents u :
  check_parents config header parents = Ok u -> parents_checked header parents.
Proof.
  unfold check_parents. destruct (foldM _ _ _) as [acc| | |] eqn:Hf; try done. cbn. intros Hq%ensure_Ok.
  apply check_parents_fold in Hf as (Hall & Hnd & _ & He & Hw); [|done]. cbn [fst] in *.
  constructor; [intros p Hp; by apply Hall|intros p Hp; by apply Hall|done|].
  unfold Committee.reached_quorum. rewrite Hw, He in Hq. by rewrite union_empty_r_L in Hq.
Qed.

End checks.

(** * What a request leaves alone, and what its answer says *)

Section requests.
Context `{NetworkKeys} `{Crypto} (config : ConsensusConfig.t) (default_header : SealedHeader.t) (sign : Digest -> BlsSignature).
Implicit Types (h : t) (header : Header.t) (parents : list Certificate.t).

(** The parents are read from the store, or from the genesis for the first round. *)
Definition parent_known h header (digest : Digest) (p : Certificate.t) : Prop :=
  if Header.round header =? 1 then genesis config !! digest = Some p
  else CertificateStore.read (store h) digest = Some p.

Lemma notify_read_known h header parents :
  notify_read_parent_certificates config (store h) header = Ok parents ->
  Forall2 (parent_known h header) (bset_iter (Header.parents header)) parents.
Proof.
  unfold notify_read_parent_certificates, parent_known.
  enough (forall (f : list Certificate.t -> Digest -> outcome HeaderError (list Certificate.t)) (R : Digest -> Certificate.t -> Prop) l acc ps,
    (forall acc d ps, f acc d = Ok ps -> exists p, ps = acc ++ [p] /\ R d p) ->
    foldM f acc l = Ok ps -> exists ps', ps = acc ++ ps' /\ Forall2 R l ps') as Hgen.
  { destruct (Header.round header =? 1); intros Hf.
    - apply (Hgen _ (fun d p => genesis config !! d = Some p)) in Hf as (ps & -> & Hps); [exact Hps|]. intros acc d ps'.
      intros (p & Hp & [= <-])%bind_Ok. exists p. split; [done|].
      destruct (genesis config !! d) as [x|] eqn:Hx; [|done]. by injection Hp as ->.
    - apply (Hgen _ (fun d p => CertificateStore.read (store h) d = Some p)) in Hf as (ps & -> & Hps); [exact Hps|]. intros acc d ps'.
      destruct (CertificateStore.read (store h) d) as [x|] eqn:Hx; [|done]. intros [= <-]. by exists x. }
  intros f R l. induction l as [|d l IH]; intros acc ps Hf; cbn [foldM].
  { intros [= <-]. exists []. by rewrite app_nil_r. }
  intros (acc1 & (p & -> & Hp)%Hf & (ps' & -> & Hps')%IH)%bind_Ok; [|done]. exists (p :: ps').
  rewrite <-app_assoc. split; [done|by constructor].
Qed.

Lemma process_peer_keeps {B} (f : t -> B) cert :
  (forall h v, f (set_validator h v) = f h) -> keeps f (process_peer_certificate config cert).
Proof.
  intros Hf h. unfold process_peer_certificate.
  destruct (CertificateValidator.process_peer_certificate _ _ _). apply Hf.
Qed.

Lemma try_accept_keeps {B} (f : t -> B) header parents :
  (forall h v, f (set_validator h v) = f h) -> keeps f (try_accept_unknown_certs config header parents).
Proof.
  intros Hf h. unfold try_accept_unknown_certs. generalize (filter (fun cert => requested_parents h !!
    (Certificate.round cert, Certificate.digest cert) = Some (Header.author header)) parents) as l. intros l.
  assert (forall acc, f (foldl (fun acc cert => match acc with (h, Ok _) => process_peer_certificate config cert h | _ => acc end) acc l).1 =
    f acc.1) as Hl; [|by rewrite Hl]. induction l as [|c l IH]; intros acc; [done|]. cbn [foldl]. rewrite IH.
  destruct acc as [h1 [u|e| |]]; try done. by apply (process_peer_keeps f c).
Qed.

Lemma wait_keeps {B} (f : t -> B) header :
  (forall h b, f (set_bus h b) = f h) -> keeps f (wait_for_execution default_header header).
Proof. intros Hf h. unfold wait_for_execution. by destruct (ConsensusBus.wait_for_execution _ _ _) as [[b [|]]|]; simpl. Qed.

Lemma missing_keeps {B} (f : t -> B) header :
  (forall h r, f (set_requested h r) = f h) -> keeps f (check_for_missing_parents config header).
Proof.
  intros Hf. unfold check_for_missing_parents, check. do 3 (apply keeps_bind; [auto with keeps|intros ?]).
  apply keeps_with_state. intros s. destruct (claim_requests _ _ _) as [rs kept].
  apply keeps_bind; [intros h; apply Hf|auto with keeps].
Qed.

Lemma sync_keeps {B} (f : t -> B) e header :
  (forall h p, f (set_payload h p) = f h) -> keeps f (sync_batches config e header).
Proof. intros Hf h. unfold sync_batches. destruct (sync_header_batches _ _ _ _ _ _). apply Hf. Qed.

Lemma vote_decision_keeps e peer header parents :
  keeps vote_digests (vote_decision config default_header sign e peer header parents).
Proof.
  unfold vote_decision, check. do 4 (apply keeps_bind; [auto with keeps|intros ?]).
  apply keeps_bind; [by apply wait_keeps|intros ?]. apply keeps_bind.
  - destruct parents; [by apply missing_keeps|]. apply keeps_bind; [auto with keeps|intros ?].
    apply keeps_bind; [by apply try_accept_keeps|auto with keeps].
  - intros [|]; [|auto with keeps]. do 2 (apply keeps_bind; [auto with keeps|intros ?]).
    apply keeps_bind; [by apply sync_keeps|auto 8 with keeps].
Qed.

(** What a request that ends in a vote has checked, in the state [h] it leaves; [counted]
    is what is known of the parents. *)
Record vote_checked (counted : list Certificate.t -> Prop) (e : env) (peer : N) header h : Prop := {
  vc_valid : HeaderOps.validate header (committee config) (worker_cache config) = Ok ();
  vc_author : Header.author header = peer;
  vc_member : Committee.is_authority (committee config) peer = true;
  vc_execution : RecentBlocks.contains_hash (ConsensusBus.recent_blocks (bus h)) (Header.latest_execution_block header).2 = true;
  vc_parents : exists ps, Forall2 (parent_known h header) (bset_iter (Header.parents header)) ps /\ counted ps;
  vc_batches : Header.author header = authority_id config \/
    forall digest worker_id t, (digest, (worker_id, t)) ∈ Header.payload header ->
      PayloadStore.contains_payload (payload h) digest worker_id = true;
  vc_created : Header.created_at header <= now e + max_header_time_drift_tolerance (sync_config config);
}.

Lemma vote_checked_mono (P Q : list Certificate.t -> Prop) e peer header h :
  (forall ps, P ps -> Q ps) -> vote_checked P e peer header h -> vote_checked Q e peer header h.
Proof. intros HPQ [? ? ? ? (ps & Hps & HP%HPQ) ? ?]. constructor; try done. by exists ps. Qed.

(** The vote a decision leads to. *)
Definition decided (d : decision) : option Vote.t :=
  match d with
  | Answer (VoteResponse v) | Record_vote v => Some v
  | _ => None
  end.

Lemma check_Ok {A} (o : outcome HeaderError A) h h' a : check o h = (h', Ok a) <-> h' = h /\ o = Ok a.
Proof. unfold check, lift. destruct o; simpl; split; try naive_solver. Qed.

Lemma wait_Ok header h h' u :
  wait_for_execution default_header header h = (h', Ok u) ->
  RecentBlocks.contains_hash (ConsensusBus.recent_blocks (bus h')) (Header.latest_execution_block header).2 = true.
Proof.
  unfold wait_for_execution. destruct (ConsensusBus.wait_for_execution _ _ _) as [[b ok]|] eqn:Hw; [|done].
  destruct ok; [|done]. intros [= <-]. unfold ConsensusBus.wait_for_execution in Hw.
  apply bind_Some in Hw as ([cur later] & _ & [= <- Hc]). exact Hc.
Qed.

Lemma sync_Ok e header h h' u :
  sync_batches config e header h = (h', Ok u) ->
  h' = set_payload h (payload h') /\
  (Header.author header = authority_id config \/
   forall digest worker_id t, (digest, (worker_id, t)) ∈ Header.payload header ->
      PayloadStore.contains_payload (payload h') digest worker_id = true).
Proof.
  unfold sync_batches. destruct (sync_header_batches _ _ _ _ _ _) as [p r] eqn:Hs. destruct r as [[]| | |]; try done.
  intros [= <-]. split; [done|]. by eapply sync_header_batches_stored.
Qed.

Lemma timestamp_Ok now header u :
  check_timestamp config now header = Ok u ->
  Header.created_at header <= now + max_header_time_drift_tolerance (sync_config config).
Proof.
  unfold check_timestamp. destruct (now <? Header.created_at header) eqn:Hn; [intros Hd%ensure_Ok; lia|lia].
Qed.

Lemma decide_vote_Ok previous header v recorded :
  decide_vote config sign previous header = Ok (v, recorded) ->
  v = new_vote config sign header /\
  match previous with
  | Some i => VoteInfo.epoch i = Header.epoch header /\
      (if recorded then VoteInfo.round i < Header.round header
       else VoteInfo.round i = Header.round header /\ VoteInfo.vote_digest i = HeaderOps.digest header)
  | None => recorded = true
  end.
Proof.
  unfold decide_vote. destruct previous as [i|]; [|naive_solver].
  intros (? & He%ensure_Ok & (? & Hr%ensure_Ok & Hd)%bind_Ok)%bind_Ok.
  destruct (N.eqb_spec (Header.round header) (VoteInfo.round i)) as [Heq|Hne].
  - destruct (negb _) eqn:Hn; [done|]. apply negb_false_iff, N.eqb_eq in Hn. injection Hd as <- <-.
    split_and!; [done|lia|done|]. by rewrite <-Hn.
  - injection Hd as <- <-. split_and!; [done|lia|lia].
Qed.

Lemma missing_parents_keep_bus header parents :
  keeps bus (match parents with
             | [] => check_for_missing_parents config header
             | _ => verified ← check (reset_parents parents);
                    _ ← try_accept_unknown_certs config header verified; lift (Ok [])
             end).
Proof.
  destruct parents; [by apply missing_keeps|]. unfold check.
  apply keeps_bind; [auto with keeps|intros ?]. apply keeps_bind; [by apply try_accept_keeps|auto with keeps].
Qed.

Lemma vote_decision_inv e peer header parents h h' d v :
  vote_decision config default_header sign e peer header parents h = (h', Ok d) -> decided d = Some v ->
  vote_checked (fun ps => check_parents config header ps = Ok ()) e peer header h' /\
  exists recorded, d = (if recorded : bool then Record_vote v else Answer (VoteResponse v)) /\
    decide_vote config sign (vote_digests h' !! Header.author header) header = Ok (v, recorded).
Proof.
  unfold vote_decision. intros (h1 & u1 & (-> & Hval)%check_Ok & Hd)%action_bind_Ok. revert Hd.
  intros (h2 & u2 & (-> & _)%check_Ok & (h3 & u3 & (-> & Hm%ensure_Ok)%check_Ok & Hd)%action_bind_Ok)%action_bind_Ok. revert Hd.
  intros (h4 & u4 & (-> & Ha%ensure_Ok)%check_Ok & (h5 & u5 & Hex%wait_Ok & Hd)%action_bind_Ok)%action_bind_Ok. revert Hd.
  intros (h6 & missing & Hmiss & Hd)%action_bind_Ok. pose proof (missing_parents_keep_bus header parents h5) as Hbus.
  rewrite Hmiss in Hbus. cbn [fst] in Hbus. destruct missing as [|m missing].
  2: { injection Hd as <- <-. done. }
  apply action_bind_Ok in Hd as (h7 & ps & (-> & Hps%notify_read_known)%check_Ok & Hd).
  apply action_bind_Ok in Hd as (h8 & u8 & [= <- Hpc] & Hd).
  apply action_bind_Ok in Hd as (h9 & u9 & (Hh9 & Hb)%sync_Ok & Hd).
  apply action_bind_Ok in Hd as (h10 & u10 & (-> & Ht%timestamp_Ok)%check_Ok & Hd).
  apply action_bind_Ok in Hd as (h11 & prev & [= <- <-] & Hd).
  apply action_bind_Ok in Hd as (h12 & [v' r] & (-> & Hdv)%check_Ok & [= <- <-]).
  intros Hdec. assert (v' = v) as -> by (by destruct r; injection Hdec). split; [|exists r; by destruct r].
  apply N.eqb_eq in Ha. destruct u1, u8. rewrite Hh9. constructor; try done.
  - change (bus (set_payload h6 (payload h9))) with (bus h6). by rewrite Hbus.
  - by exists ps.
Qed.

Lemma vote_inv e peer header parents h h' v :
  vote config default_header sign e peer header parents h = (h', Ok (VoteResponse v)) ->
  exists h1 recorded, vote_checked (fun ps => check_parents config header ps = Ok ()) e peer header h1 /\ vote_digests h1 = vote_digests h /\
    h' = (if recorded : bool then set_votes h1 (VoteDigestStore.write_vote (vote_digests h1) v) else h1) /\
    decide_vote config sign (vote_digests h !! Header.author header) header = Ok (v, recorded).
Proof.
  unfold vote. intros (h1 & d & Hd & Hr)%action_bind_Ok.
  pose proof (vote_decision_keeps e peer header parents h) as Hk. rewrite Hd in Hk. cbn [fst] in Hk.
  assert (decided d = Some v) as Hdec by (destruct d; by injection Hr as <- ->).
  destruct (vote_decision_inv _ _ _ _ _ _ _ _ Hd Hdec) as (Hc & r & -> & Hv). exists h1, r. rewrite <-Hk.
  split_and!; [done|done| |done]. destruct r; by injection Hr as <-.
Qed.

(** A vote answers a request only for a header that was fully checked: valid for this
    committee and its workers, sent by its author, a member of the committee; whose last
    execution block this node executed; whose parents are all stored here (or are the
    genesis), are of the previous round, not younger than the header, by distinct authors
    that hold a quorum of the stake; whose batches are all stored, unless it is this node's
    own header; and which is not further in the future than the tolerance.  The vote is
    this node's signature of that header, and the table of votes holds it afterwards. *)
Theorem vote_sound e peer header parents h h' v :
  Committee.wf (committee config) -> Committee.stake (Committee.authorities (committee config)) < 2 ^ 63 ->
  vote config default_header sign e peer header parents h = (h', Ok (VoteResponse v)) ->
  vote_checked (parents_checked config header) e peer header h' /\ v = new_vote config sign header /\
  VoteDigestStore.read_vote_info (vote_digests h') (Header.author header) = Some (VoteInfo.from_vote v).
Proof.
  intros Hwf Hst (h1 & r & Hc & Hk & -> & Hv)%vote_inv. apply decide_vote_Ok in Hv as [-> Hprev].
  split_and!; [|done|].
  { apply (vote_checked_mono _ (parents_checked config header)) in Hc; [|intros ps; by apply check_parents_checked].
    destruct r; [by destruct Hc; constructor|done]. }
  unfold VoteDigestStore.read_vote_info, VoteDigestStore.write_vote, MemTable.get, MemTable.insert.
  destruct r; [cbn [vote_digests]; apply lookup_insert_eq|]. rewrite Hk.
  destruct (vote_digests h !! Header.author header) as [[ep ro di]|]; [|done]. simpl in *.
  destruct Hprev as (-> & -> & ->). done.
Qed.

End requests.

(** * Votes over the life of a node *)

Section history.
Context `{NetworkKeys} `{Crypto} (config : ConsensusConfig.t) (default_header : SealedHeader.t) (sign : Digest -> BlsSignature).
Implicit Types (h : t) (vs : list Vote.t) (v : Vote.t).

(** The vote an answer carries. *)
Definition answered (r : outcome PrimaryNetworkError PrimaryResponse) : list Vote.t :=
  match r with
  | Ok (VoteResponse v) => [v]
  | _ => []
  end.

(** The table remembers every vote given, or one for a later round. *)
Definition remembered (votes : gmap AuthorityIdentifier VoteInfo.t) v : Prop :=
  exists i, votes !! Vote.origin v = Some i /\
    (Vote.round v < VoteInfo.round i \/ (Vote.round v = VoteInfo.round i /\ Vote.digest v = VoteInfo.vote_digest i)).

(** The state of a node and the votes it has given.  Requests are served one after the
    other; whatever else the node does leaves the table of votes alone.  The table is written
    in memory at once and persisted in the background: a node that restarts loads the
    table that was persisted, here one that remembers the votes that were given. *)
Inductive serves : t * list Vote.t -> t * list Vote.t -> Prop :=
  | serves_vote e peer header parents h vs :
      serves (h, vs)
        ((vote config default_header sign e peer header parents h).1,
         vs ++ answered (vote config default_header sign e peer header parents h).2)
  | serves_other h h' vs : vote_digests h' = vote_digests h -> serves (h, vs) (h', vs)
  | serves_restart h h' vs : (forall v, v ∈ vs -> remembered (vote_digests h') v) -> serves (h, vs) (h', vs).

Definition consistent h vs : Prop :=
  (forall v, v ∈ vs -> remembered (vote_digests h) v) /\
  (forall v w, v ∈ vs -> w ∈ vs -> Vote.origin v = Vote.origin w -> Vote.round v = Vote.round w -> Vote.digest v = Vote.digest w).

Lemma vote_keeps_digests e peer header parents h :
  answered (vote config default_header sign e peer header parents h).2 = [] ->
  vote_digests (vote config default_header sign e peer header parents h).1 = vote_digests h.
Proof.
  unfold vote. pose proof (vote_decision_keeps config default_header sign e peer header parents h) as Hk.
  unfold mbind, action_bind. destruct (vote_decision _ _ _ _ _ _ _ h) as [h1 [d| | |]]; try done.
  destruct d as [r|v]; [done|by simpl].
Qed.

Lemma remembered_recorded votes v w :
  match votes !! Vote.origin w with Some i => VoteInfo.round i < Vote.round w | None => True end ->
  remembered votes v -> remembered (VoteDigestStore.write_vote votes w) v.
Proof.
  intros Hnew (i & Hi & Hv). unfold remembered, VoteDigestStore.write_vote, MemTable.insert.
  destruct (decide (Vote.origin w = Vote.origin v)) as [He|He].
  - rewrite He in Hnew |- *. rewrite lookup_insert_eq. rewrite Hi in Hnew. eexists. split; [done|]. left. simpl. lia.
  - rewrite lookup_insert_ne by done. by exists i.
Qed.

(** A vote decided on the present table keeps the history consistent. *)
Lemma consistent_vote h vs header v recorded :
  consistent h vs -> decide_vote config sign (vote_digests h !! Header.author header) header = Ok (v, recorded) ->
  consistent (if recorded : bool then set_votes h (VoteDigestStore.write_vote (vote_digests h) v) else h) (vs ++ [v]).
Proof.
  intros [Hr Hc] [-> Hp]%decide_vote_Ok. split.
  - intros w [Hw%Hr| ->%list_elem_of_singleton]%elem_of_app; destruct recorded.
    + apply remembered_recorded; [|done]. simpl. by destruct (vote_digests h !! _) as [i|]; [destruct Hp|].
    + done.
    + eexists. split; [apply lookup_insert_eq|by right].
    + destruct (vote_digests h !! Header.author header) as [i|] eqn:Hi; [|done]. destruct Hp as (_ & Hri & Hdi).
      exists i. split; [done|right]. by rewrite Hri, Hdi.
  - assert (forall w, w ∈ vs -> Vote.origin w = Header.author header -> Vote.round w = Header.round header ->
      Vote.digest w = HeaderOps.digest header) as Hold.
    { intros w (i & Hi & Hw)%Hr Ho Hrd. rewrite Ho in Hi. rewrite Hi in Hp. destruct Hp as (_ & Hp).
      destruct recorded; [lia|]. destruct Hp as [Hri <-]. destruct Hw as [|[_ Hw]]; [lia|done]. }
    intros w1 w2 [Hw1| ->%list_elem_of_singleton]%elem_of_app [Hw2| ->%list_elem_of_singleton]%elem_of_app Ho Hrd.
    + by apply Hc.
    + by apply Hold.
    + symmetry. by apply Hold.
    + done.
Qed.

Lemma serves_consistent x y : serves x y -> consistent x.1 x.2 -> consistent y.1 y.2.
Proof.
  intros [e peer header parents h vs|h h' vs Hd|h h' vs Hd] [Hr Hc]; cbn [fst snd] in *.
  2: { split; [|done]. by rewrite Hd. }
  2: { by split. }
  destruct (vote config default_header sign e peer header parents h) as [h' r] eqn:Hv. cbn [fst snd].
  pose proof (vote_keeps_digests e peer header parents h) as Hk. rewrite Hv in Hk. cbn [fst snd] in Hk.
  destruct r as [[v| | | |]| | |]; try (rewrite app_nil_r; split; [by rewrite Hk|done]). clear Hk. cbn [answered].
  apply vote_inv in Hv as (h1 & rec & _ & Hk & -> & Hp). rewrite <-Hk in Hp. apply (consistent_vote h1 vs header); [|done].
  split; [by rewrite Hk|done].
Qed.

Lemma history_consistent h h' vs : rtc serves (h, []) (h', vs) -> consistent h' vs.
Proof.
  intros Hs. enough (forall x y, rtc serves x y -> consistent x.1 x.2 -> consistent y.1 y.2) as Hgen.
  { apply (Hgen _ _ Hs). split; [by intros v ?%elem_of_nil|by intros v w ?%elem_of_nil]. }
  induction 1; eauto using serves_consistent.
Qed.

(** C7: a node that serves its vote requests one after the other never votes for two
    different headers of one author and round, whatever the requests are and whatever else
    it does in between.  It may restart any number of times, as long as the table of votes it then
    loads still has every vote it gave: the table is persisted in the background, and a
    node that stops before a vote is persisted can vote for another header
    ([restart_forgets_vote]). *)
Theorem votes_never_conflict h h' vs v w :
  rtc serves (h, []) (h', vs) -> v ∈ vs -> w ∈ vs ->
  Vote.origin v = Vote.origin w -> Vote.round v = Vote.round w -> Vote.digest v = Vote.digest w.
Proof. intros [_ Hc]%history_consistent. apply Hc. Qed.

End history.

(** * Certificates cannot conflict *)

Section agreement.
Context `{NetworkKeys} `{Crypto} `{SeededChoice}.
Implicit Types (c : Certificate.t) (a : AuthorityIdentifier).

(** What an honest node has signed over its life: the votes it gave, and the headers its
    proposer sent to its certifier. *)
Record honest (votes : list Vote.t) (proposals : list Header.t) : Prop := {
  ho_votes : exists config default_header sign h h', rtc (serves config default_header sign) (h, []) (h', votes);
  ho_proposals : exists cfg p, ProposerFacts.history cfg p /\ proposals = Proposer.headers p;
}.

(** The signature of [a] on a certificate is one that [a] made. *)
Definition endorsed (votes : list Vote.t) (proposals : list Header.t) a c : Prop :=
  if decide (a = Certificate.origin c) then
    exists p, p ∈ proposals /\ Header.round p = Certificate.round c /\ HeaderOps.digest p = Certificate.digest c
  else exists v, v ∈ votes /\ Vote.origin v = Certificate.origin c /\ Vote.round v = Certificate.round c /\
    Vote.digest v = Certificate.digest c.

Lemma endorsed_agree votes proposals a c1 c2 :
  honest votes proposals -> endorsed votes proposals a c1 -> endorsed votes proposals a c2 ->
  Certificate.origin c1 = Certificate.origin c2 -> Certificate.round c1 = Certificate.round c2 ->
  Certificate.digest c1 = Certificate.digest c2.
Proof.
  intros [(config & dh & sign & h & h' & [_ Hc]%history_consistent) (cfg & s & Hs%ProposerFacts.history_unique & ->)] He1 He2 Ho Hr.
  unfold endorsed in He1, He2. rewrite <-Ho in He2. destruct (decide _).
  - destruct He1 as (p & Hp & Hr1 & <-), He2 as (q & Hq & Hr2 & <-). f_equal. apply (ProposerFacts.ui_unique _ _ Hs); congruence.
  - destruct He1 as (v & Hv & Ho1 & Hr1 & <-), He2 as (w & Hw & Ho2 & Hr2 & <-). apply Hc; congruence.
Qed.

(** C8: when the faulty authorities hold less than the validity threshold, and an honest
    signer of a certificate has really voted for it or proposed it, two certificates of one
    author and round that both pass verification are certificates of the same header. *)
Theorem no_conflicting_certificates committee faulty votes proposals c1 c2 c1' c2' :
  Committee.wf committee -> 0 < Committee.stake (Committee.authorities committee) ->
  Committee.reached_validity committee (Committee.weight committee faulty) = false ->
  (forall a, a ∉ faulty -> honest (votes a) (proposals a)) ->
  (forall a c, a ∉ faulty -> c = c1 \/ c = c2 -> a ∈ CertificateFacts.signer_ids c committee -> endorsed (votes a) (proposals a) a c) ->
  Certificate.verify_cert c1 committee = Ok c1' -> Certificate.verify_cert c2 committee = Ok c2' ->
  Certificate.origin c1 = Certificate.origin c2 -> Certificate.round c1 = Certificate.round c2 ->
  Certificate.digest c1 = Certificate.digest c2.
Proof.
  intros Hwf Hpos Hf Hh Hend (s1 & (_ & _ & Hq1) & _)%verify_cert_iff (s2 & (_ & _ & Hq2) & _)%verify_cert_iff Ho Hr; try done.
  destruct (CommitteeFacts.quorums_honest committee Hwf _ _ faulty Hpos Hq1 Hq2 Hf) as (a & Ha & Hnf).
  apply elem_of_intersection in Ha as [Ha1 Ha2].
  apply (endorsed_agree (votes a) (proposals a) a); auto.
Qed.

End agreement.

(** * Evaluation *)

Section witnesses.
#[local] Existing Instances demo_keys full_crypto demo_choice.

Definition voter_config (id : AuthorityIdentifier) : ConsensusConfig.t :=
  ConsensusConfig.mk demo_committee (WorkerCache.mk 0 ∅)
    (list_to_map ((fun c => (Certificate.digest c, c)) <$> Certificate.genesis demo_committee)) id 50 SyncConfig.default_config.

Definition demo_handler : t := mk demo_validator demo_bus 1 (0, 0) ∅ ∅ ∅ ∅ ∅.
Definition demo_env : env := mk_env [] 5.
Definition demo_sealed : SealedHeader.t := SealedHeader.mk 0 0.

Definition genesis_digests : list Digest := Certificate.digest <$> Certificate.genesis demo_committee.

(** Two headers of authority 2 for round 1, with all and with three of the parents. *)
Definition demo_proposal : Header.t := demo_header 2 1 genesis_digests.
Definition other_proposal : Header.t := demo_header 2 1 (take 3 genesis_digests).

Definition demo_vote (id : AuthorityIdentifier) : Vote.t := new_vote (voter_config id) (fun d => d) demo_proposal.

Definition demo_answer (id : AuthorityIdentifier) : t * outcome PrimaryNetworkError PrimaryResponse :=
  vote (voter_config id) demo_sealed (fun d => d) demo_env 2 demo_proposal [] demo_handler.

Lemma vote_sound_witness :
  vote_checked (voter_config 1) (parents_checked (voter_config 1) demo_proposal) demo_env 2 demo_proposal (demo_answer 1).1 /\
  demo_vote 1 = new_vote (voter_config 1) (fun d => d) demo_proposal /\
  VoteDigestStore.read_vote_info (vote_digests (demo_answer 1).1) 2 = Some (VoteInfo.from_vote (demo_vote 1)).
Proof.
  apply (vote_sound (voter_config 1) demo_sealed (fun d => d) demo_env 2 demo_proposal [] demo_handler (demo_answer 1).1 (demo_vote 1)).
  - apply demo_committee_wf.
  - apply demo_committee_wf.
  - vm_compute. reflexivity.
Defined.

Lemma demo_served id :
  (demo_answer id).2 = Ok (VoteResponse (demo_vote id)) ->
  rtc (serves (voter_config id) demo_sealed (fun d => d)) (demo_handler, []) ((demo_answer id).1, [demo_vote id]).
Proof.
  intros Ha. apply rtc_once. pose proof (serves_vote (voter_config id) demo_sealed (fun d => d) demo_env 2 demo_proposal [] demo_handler []) as Hs.
  fold (demo_answer id) in Hs. by rewrite Ha in Hs.
Qed.

(** A second header of the author and round is refused. *)
Lemma votes_never_conflict_witness :
  (vote (voter_config 1) demo_sealed (fun d => d) demo_env 2 other_proposal [] (demo_answer 1).1).2 =
    Err (InvalidHeader (AlreadyVoted (HeaderOps.digest other_proposal) 1)) /\
  Vote.digest (demo_vote 1) = Vote.digest (demo_vote 1).
Proof.
  split; [vm_compute; reflexivity|].
  apply (votes_never_conflict (voter_config 1) demo_sealed (fun d => d) demo_handler (demo_answer 1).1 [demo_vote 1]); try done.
  - apply demo_served. vm_compute. reflexivity.
  - by apply list_elem_of_singleton.
  - by apply list_elem_of_singleton.
Defined.

(** The table of votes is read and then written without a lock, and every request is
    served by a task of its own: when both requests read before either writes, this node
    votes for two different headers of one author and round. *)
Definition racing : t * outcome PrimaryNetworkError (Vote.t * Vote.t) :=
  let decide := vote_decision (voter_config 1) demo_sealed (fun d => d) demo_env 2 in
  (d1 ← decide demo_proposal []; d2 ← decide other_proposal [];
   r1 ← vote_record d1; r2 ← vote_record d2;
   lift (match r1, r2 with VoteResponse v, VoteResponse w => Ok (v, w) | _, _ => Panic end)) demo_handler.

Lemma concurrent_votes_conflict :
  exists v w, racing.2 = Ok (v, w) /\ Vote.origin v = Vote.origin w /\ Vote.round v = Vote.round w /\
    Vote.digest v <> Vote.digest w.
Proof.
  exists (new_vote (voter_config 1) (fun d => d) demo_proposal), (new_vote (voter_config 1) (fun d => d) other_proposal).
  split; [vm_compute; reflexivity|]. split_and!; [done|done|]. by vm_compute.
Qed.

(** A node that restarts with a table that does not have its vote yet votes for the other
    header. *)
Lemma restart_forgets_vote :
  let h := (demo_answer 1).1 in
  let restarted := set_votes h ∅ in
  exists v w, (demo_answer 1).2 = Ok (VoteResponse v) /\
    (vote (voter_config 1) demo_sealed (fun d => d) demo_env 2 other_proposal [] restarted).2 = Ok (VoteResponse w) /\
    Vote.origin v = Vote.origin w /\ Vote.round v = Vote.round w /\ Vote.digest v <> Vote.digest w.
Proof.
  exists (new_vote (voter_config 1) (fun d => d) demo_proposal), (new_vote (voter_config 1) (fun d => d) other_proposal).
  split_and!; [vm_compute; reflexivity|vm_compute; reflexivity|done|done|by vm_compute].
Qed.

(** Authority 4 is faulty; 1 and 3 vote for the header of 2. *)
Definition demo_votes_of (a : AuthorityIdentifier) : list Vote.t := if bool_decide (a = 1 \/ a = 3) then [demo_vote a] else [].
Definition demo_proposals_of (a : AuthorityIdentifier) : list Header.t := if bool_decide (a = 2) then [demo_proposal] else [].
Definition demo_first : Certificate.t :=
  Certificate.mk demo_proposal (VerifiedDirectly (HeaderOps.digest demo_proposal)) {[0; 1; 2]} 0.
Definition demo_second : Certificate.t :=
  Certificate.mk demo_proposal (VerifiedDirectly (HeaderOps.digest demo_proposal)) {[0; 1; 2]} 7.

Definition demo_parameters (a : AuthorityIdentifier) : Proposer.parameters :=
  Proposer.mk_parameters a demo_committee 1 10 1 2.
Definition demo_proposer1 (a : AuthorityIdentifier) : Proposer.t :=
  Proposer.new (demo_parameters a) (LeaderSchedule.mk demo_committee LeaderSwapTable.default) ∅ 0 [].
Definition demo_proposer2 : Proposer.t :=
  (Proposer.run_step (demo_parameters 2) (Proposer.HeaderTask 1 (0, 0))
     (Proposer.run_step (demo_parameters 2) Proposer.MaxDelayTick (demo_proposer1 2)).1).1.

Lemma demo_start a : history (demo_parameters a) (demo_proposer1 a).
Proof. apply history_start. by intros l ?. Qed.

Lemma demo_votes_honest a : honest (demo_votes_of a) (demo_proposals_of a).
Proof.
  split.
  - exists (voter_config a), demo_sealed, (fun d => d), demo_handler. unfold demo_votes_of. case_bool_decide as Ha; [|by eexists].
    exists (demo_answer a).1. apply demo_served. destruct Ha as [-> | ->]; vm_compute; reflexivity.
  - exists (demo_parameters a), (if bool_decide (a = 2) then demo_proposer2 else demo_proposer1 a). unfold demo_proposals_of.
    case_bool_decide as Ha; [subst a|by split; [apply demo_start|]]. split; [|vm_compute; reflexivity].
    apply history_step; [apply history_step; [apply demo_start|by vm_compute]|by vm_compute].
Qed.

Lemma demo_endorsed c a :
  c = demo_first \/ c = demo_second -> a ∈ CertificateFacts.signer_ids c demo_committee ->
  endorsed (demo_votes_of a) (demo_proposals_of a) a c.
Proof.
  intros Hc Ha. assert (a = 1 \/ a = 2 \/ a = 3) as Hcase.
  { assert (CertificateFacts.signer_ids c demo_committee = {[1; 2; 3]}) as Heq by (destruct Hc as [-> | ->]; vm_compute; reflexivity).
    rewrite Heq in Ha. set_solver. }
  unfold endorsed. destruct Hc as [-> | ->], Hcase as [->|[->| ->]];
    match goal with |- context [decide ?P] => destruct (decide P) as [He|He]; [vm_compute in He|vm_compute in He] end; try done;
    eexists; (split; [by apply list_elem_of_singleton|]); vm_compute; done.
Qed.

Lemma no_conflicting_certificates_witness : Certificate.digest demo_first = Certificate.digest demo_second.
Proof.
  apply (no_conflicting_certificates demo_committee {[4]} demo_votes_of demo_proposals_of demo_first demo_second demo_first demo_second).
  - apply demo_committee_wf.
  - by vm_compute.
  - by vm_compute.
  - intros a _. apply demo_votes_honest.
  - intros a c _. apply demo_endorsed.
  - vm_compute. reflexivity.
  - vm_compute. reflexivity.
  - done.
  - done.
Defined.

End witnesses.
