(* ===== verification/Certifier.v ===== *)
(** Certifying the headers of this node.
    Models crates/consensus/primary/src/certifier.rs with the vote requests of
    network/mod.rs: asking a peer for its vote, collecting the votes for a header, and the
    task that certifies the headers of the proposer.  Proves that a certificate is for its
    header and signed by a quorum, and that a header for which a quorum votes is certified
    and verifies at every other node. *)

From S2P Require Import Prelude Storage Committee Certificate CertStore PendingCerts Output ConsensusState.
From S2P Require Import OrderDag LeaderSchedule Bullshark BullsharkFacts Demo CertificateSafety Aggregators CertManager.
From S2P Require Import CertValidator Consensus Proposer VoteHandler VoteSafety.
Import ConsensusConfig.

Module Certifier.

Inductive RequestVoteResult :=
  | ResultVote (vote : Vote.t)
  | ResultMissingParents (parents : list Digest).

(** [PrimaryNetworkHandle::request_vote]: any other response is an RPC error, [None]. *)
Definition vote_result (r : PrimaryResponse) : option RequestVoteResult :=
  match r with
  | VoteResponse vote => Some (ResultVote vote)
  | MissingParents parents => Some (ResultMissingParents parents)
  | _ => None
  end.

(** How a request ends: with a response, or without one. *)
Inductive answer :=
  | Response (r : PrimaryResponse)
  | NetworkFailure.

(** What the loop over the requests for one header meets: a vote request ends, or the
    proposer sends another header. *)
Inductive event :=
  | RequestDone (r : outcome DagError Vote.t)
  | HeaderReceived.

(** The certificates processed, the headers waiting in the channel and the certificates
    that were broadcast. *)
Record t := mk {
  validator : CertificateValidator.t;
  headers : list Header.t;
  broadcast : list Certificate.t;
  broadcast_open : bool;
}.

Section certifier.
Context `{NetworkKeys} `{Crypto} (config : ConsensusConfig.t) (sign : Digest -> BlsSignature).

(** The parents a peer asked for, all of which must be parents of the header. *)
Definition read_missing (store : CertificateStore.t) (header : Header.t) (missing_parents : list Digest)
    : outcome DagError (list Certificate.t) :=
  let asked := filter (fun parent => parent ∈ Header.parents header) missing_parents in
  let parents := omap id (CertificateStore.read_all store asked) in
  if (length parents =? length missing_parents)%nat then Ok parents else Err DagProposedHeaderMissingCertificates.

(** The requests to one peer: the parents sent with each, and the vote. *)
Fixpoint request_loop (store : CertificateStore.t) (header : Header.t) (missing_parents : list Digest) (answers : list answer)
    : list (list Certificate.t) * outcome DagError Vote.t :=
  match (match missing_parents with [] => Ok [] | _ => read_missing store header missing_parents end) with
  | Ok parents =>
      match answers with
      | [] => ([parents], OutOfFuel)
      | Response r :: answers =>
          match vote_result r with
          | Some (ResultVote vote) => ([parents], Ok vote)
          | Some (ResultMissingParents missing) =>
              let '(sent, v) := request_loop store header missing answers in (parents :: sent, v)
          | None => ([parents], Err DagNetworkError)
          end
      | NetworkFailure :: answers =>
          let '(sent, v) := request_loop store header [] answers in (parents :: sent, v)
      end
  | Err e => ([], Err e)
  | Panic => ([], Panic)
  | OutOfFuel => ([], OutOfFuel)
  end.

Definition check_vote (authority : AuthorityIdentifier) (header : Header.t) (vote : Vote.t) : outcome DagError Vote.t :=
  let epoch := Committee.epoch (committee config) in
  _ ← ensure ((Vote.header_digest vote =? HeaderOps.digest header) && (Vote.origin vote =? Header.author header)
              && (Vote.author vote =? authority)) (DagUnexpectedVote (Vote.header_digest vote));
  _ ← ensure (Header.epoch header =? Vote.epoch vote) (DagInvalidEpoch (Header.epoch header) (Vote.epoch vote));
  _ ← ensure (Header.round header =? Vote.round vote) (DagInvalidRound (Header.round header) (Vote.round vote));
  _ ← ensure (Vote.epoch vote =? epoch) (DagInvalidEpoch epoch (Vote.epoch vote));
  _ ← ensure (0 <? Committee.voting_power_by_id (committee config) (Vote.author vote)) (DagUnknownAuthority (Vote.author vote));
  Ok vote.

Definition request_vote (store : CertificateStore.t) (authority : AuthorityIdentifier) (header : Header.t) (answers : list answer)
    : outcome DagError Vote.t :=
  vote ← (request_loop store header [] answers).2;
  check_vote authority header vote.

(** The loop over the requests: the votes collected, the headers waiting and the
    certificate.  A header that arrives ends it: the header being certified is put back in
    the channel and the one that arrived is dropped. *)
Fixpoint collect_votes (header : Header.t) (now : TimestampSec) (requests : nat) (votes : VotesAggregator.t)
    (queue : list Header.t) (events : list event) : list Header.t * outcome DagError (option Certificate.t) :=
  match events with
  | [] => (queue, match requests with O => Ok None | _ => OutOfFuel end)
  | RequestDone r :: events =>
      match requests with
      | O => (queue, Ok None)
      | S requests =>
          match r with
          | Ok vote =>
              match VotesAggregator.append votes vote (committee config) header now with
              | (votes, Ok (Some certificate)) => (queue, Ok (Some certificate))
              | (votes, Ok None) => collect_votes header now requests votes queue events
              | (_, Err e) => (queue, Err e)
              | (_, Panic) => (queue, Panic)
              | (_, OutOfFuel) => (queue, OutOfFuel)
              end
          | _ => collect_votes header now requests votes queue events
          end
      end
  | HeaderReceived :: events =>
      match queue with
      | [] => collect_votes header now requests votes queue events
      | _ :: queue => (queue ++ [header], Err DagCanceled)
      end
  end.

Definition propose_header (header : Header.t) (now : TimestampSec) (queue : list Header.t) (events : list event)
    : list Header.t * outcome DagError Certificate.t :=
  let epoch := Committee.epoch (committee config) in
  if negb (Header.epoch header =? epoch) then (queue, Err (DagInvalidEpoch epoch (Header.epoch header))) else
  let vote := Vote.new_sync header (authority_id config) sign in
  let peers := Committee.others_primaries_by_id (committee config) (authority_id config) in
  let '(queue, certificate) :=
    match VotesAggregator.append VotesAggregator.new vote (committee config) header now with
    | (votes, Ok None) => collect_votes header now (length peers) votes queue events
    | (_, r) => (queue, r)
    end in
  (queue, certificate ← certificate; ok_or certificate (DagCouldNotFormCertificate (HeaderOps.digest header))).

(** One iteration of the task.  The result says whether it goes on. *)
Definition run_step (c : t) (now : TimestampSec) (events : list event) : t * bool :=
  match headers c with
  | [] => (c, true)
  | header :: queue =>
      let '(queue, r) := propose_header header now queue events in
      let c := mk (validator c) queue (broadcast c) (broadcast_open c) in
      match r with
      | Ok certificate =>
          let '(v, accepted) := CertificateValidator.process_own_certificate config (validator c) certificate in
          let c := mk v queue (broadcast c) (broadcast_open c) in
          if negb (is_ok accepted) then (c, false)
          else if broadcast_open c then (mk v queue (broadcast c ++ [certificate]) true, true)
          else (c, false)
      | _ => (c, true)
      end
  end.

End certifier.
End Certifier.

(** * Properties *)

Section properties.
Context `{NetworkKeys} `{Crypto} (config : ConsensusConfig.t) (sign : Digest -> BlsSignature).
Import Certifier.
Notation cmt := (committee config).

Context (Hwf : Committee.wf cmt) (Hst : Committee.stake (Committee.authorities cmt) < 2 ^ 63).

Lemma certified_verifies cert :
  certified cmt cert -> exists sig, Certificate.verify_cert cert cmt = Ok (Certificate.set_signature_verification_state cert (VerifiedDirectly sig)).
Proof. intros (sig & Hs). exists sig. apply verify_cert_iff; [done|]. by exists sig. Qed.

Section sound.
Context (Hkeyed : keyed cmt).

Lemma collect_votes_sound header now requests votes queue events queue' cert :
  votes_inv cmt votes -> collect_votes config header now requests votes queue events = (queue', Ok (Some cert)) ->
  Certificate.header cert = header /\ Certificate.is_verified cert = true /\ certified cmt cert.
Proof.
  revert requests votes. induction events as [|[r|] events IH]; intros requests votes Hinv; cbn [collect_votes].
  - by destruct requests.
  - destruct requests as [|requests]; [done|]. destruct r as [vote|e| |]; try (by apply IH).
    destruct (VotesAggregator.append votes vote cmt header now) as [votes' r] eqn:Ha.
    apply append_sound in Ha as [Hinv' Hr]; [|done..]. destruct r as [[c|]|e| |]; try done; [|by apply IH].
    intros [= _ ->]. done.
  - destruct queue as [|h queue]; [by apply IH|done].
Qed.

Lemma propose_header_sound header now queue events queue' cert :
  propose_header config sign header now queue events = (queue', Ok cert) ->
  Header.epoch header = Committee.epoch cmt /\
  Certificate.header cert = header /\ Certificate.is_verified cert = true /\ certified cmt cert.
Proof.
  unfold propose_header. destruct (N.eqb_spec (Header.epoch header) (Committee.epoch cmt)) as [He|]; [|done]. cbn [negb].
  destruct (VotesAggregator.append _ _ _ _ _) as [votes r] eqn:Ha.
  apply append_sound in Ha as [Hinv Hr]; [|done..|apply votes_inv_new]. destruct r as [[c|]|e| |]; try done.
  - intros [= _ ->]. done.
  - destruct (collect_votes _ _ _ _ _ _ _) as [q o] eqn:Hc. intros [= _ Ho].
    destruct o as [[c|]|e| |]; try done. injection Ho as ->. split; [done|]. by eapply collect_votes_sound.
Qed.

End sound.

(** ** A quorum of votes gives a certificate *)

Section complete.
Context `{!AggregateLaws}.

(** An aggregator that holds exactly these votes. *)
Definition gathered (l : list (AuthorityIdentifier * BlsSignature)) (a : VotesAggregator.t) : Prop :=
  VotesAggregator.votes a = l /\ VotesAggregator.authorities_seen a = list_to_set l.*1 /\ votes_inv cmt a.

Definition as_vote (v : Vote.t) : AuthorityIdentifier * BlsSignature := (Vote.author v, Vote.signature v).

Definition quorum_of (l : list (AuthorityIdentifier * BlsSignature)) : bool :=
  Committee.reached_quorum cmt (Committee.weight cmt (list_to_set l.*1)).

Lemma append_step header now l a v :
  gathered l a -> Vote.author v ∉ l.*1 ->
  Forall (fun x => valid_vote cmt (HeaderOps.digest header) x = true) (l ++ [as_vote v]) ->
  if quorum_of (l ++ [as_vote v]) then
    exists a' cert, VotesAggregator.append a v cmt header now = (a', Ok (Some cert)) /\ Certificate.header cert = header
  else exists a', VotesAggregator.append a v cmt header now = (a', Ok None) /\ gathered (l ++ [as_vote v]) a'.
Proof.
  intros (<- & Hseen & Hinv) Hnew Hval.
  assert (Vote.author v ∉ VotesAggregator.authorities_seen a) as Hns by (rewrite Hseen; by rewrite elem_of_list_to_set).
  destruct (quorum_of _) eqn:Hq; [by apply append_complete|].
  pose proof (votes_inv_append cmt Hwf Hst a _ (Vote.signature v) Hinv Hns) as Hinv'.
  unfold VotesAggregator.append. rewrite bool_decide_false by done. set (a1 := VotesAggregator.mk _ _ _) in *.
  assert ((Committee.quorum_threshold cmt <=? VotesAggregator.weight a1) = false) as Hw.
  { rewrite (votes_weight _ _ Hinv'), votes_power_weight by apply Hinv'. exact Hq. }
  rewrite Hw. exists a1. split; [done|]. split_and!; [done| |done]. simpl. rewrite fmap_app, list_to_set_app_L, Hseen. set_solver.
Qed.

(** The votes among the requests that ended. *)
Definition votes_in (events : list event) : list Vote.t :=
  omap (fun e => match e with RequestDone (Ok v) => Some v | _ => None end) events.

Lemma collect_complete header now queue events l a requests :
  gathered l a -> HeaderReceived ∉ events -> NoDup (l ++ (as_vote <$> votes_in events)).*1 ->
  Forall (fun x => valid_vote cmt (HeaderOps.digest header) x = true) (l ++ (as_vote <$> votes_in events)) ->
  quorum_of l = false -> quorum_of (l ++ (as_vote <$> votes_in events)) = true -> (length events <= requests)%nat ->
  exists cert, collect_votes config header now requests a queue events = (queue, Ok (Some cert)) /\
    Certificate.header cert = header.
Proof.
  revert l a requests. induction events as [|e events IH]; intros l a requests Hg Hh Hnd Hval Hno Hq Hlen.
  { rewrite app_nil_r in Hq. congruence. }
  destruct requests as [|requests]; [simpl in Hlen; lia|]. apply not_elem_of_cons in Hh as [He Hh]. simpl in Hlen.
  destruct e as [[v|err| |]|]; [|by apply (IH l); [..|lia]| | |done]; cbn [collect_votes]; [|by apply (IH l); [..|lia]..].
  change (votes_in (RequestDone (Ok v) :: events)) with (v :: votes_in events) in *. rewrite fmap_cons, cons_middle, app_assoc in Hnd, Hval, Hq.
  assert (Vote.author v ∉ l.*1) as Hnew.
  { rewrite !fmap_app in Hnd. apply NoDup_app in Hnd as (Hnd & _ & _). apply NoDup_app in Hnd as (_ & Hd & _).
    intros Hin%Hd. simpl in Hin. set_solver. }
  assert (Forall (fun x => valid_vote cmt (HeaderOps.digest header) x = true) (l ++ [as_vote v])) as Hv by (by apply Forall_app in Hval as [? _]).
  pose proof (append_step header now l a v Hg Hnew Hv) as Hstep. destruct (quorum_of (l ++ [as_vote v])) eqn:Hq1.
  - destruct Hstep as (a' & cert & -> & Hc). by exists cert.
  - destruct Hstep as (a' & -> & Hg'). apply (IH (l ++ [as_vote v])); try done. lia.
Qed.

Lemma propose_header_complete header now queue events :
  Header.epoch header = Committee.epoch cmt -> HeaderReceived ∉ events ->
  (length events <= length (Committee.others_primaries_by_id cmt (authority_id config)))%nat ->
  NoDup (authority_id config :: (Vote.author <$> votes_in events)) ->
  Forall (fun x => valid_vote cmt (HeaderOps.digest header) x = true)
    (as_vote (Vote.new_sync header (authority_id config) sign) :: (as_vote <$> votes_in events)) ->
  Committee.reached_quorum cmt (Committee.weight cmt (list_to_set (authority_id config :: (Vote.author <$> votes_in events)))) = true ->
  exists cert, propose_header config sign header now queue events = (queue, Ok cert) /\
    Certificate.header cert = header.
Proof.
  intros He Hh Hlen Hnd Hval Hq. unfold propose_header. rewrite He, N.eqb_refl. cbn [negb]. set (own := Vote.new_sync _ _ _) in *.
  assert ((as_vote <$> votes_in events).*1 = Vote.author <$> votes_in events) as Hids by (rewrite <-list_fmap_compose; by apply list_fmap_ext).
  assert (gathered [] VotesAggregator.new) as Hg by (split_and!; [done|done|apply votes_inv_new]).
  pose proof (append_step header now [] VotesAggregator.new own Hg) as Hstep.
  specialize (Hstep ltac:(by intros ?%elem_of_nil) ltac:(by apply Forall_cons in Hval as [? _]; constructor)).
  destruct (quorum_of ([] ++ [as_vote own])) eqn:Hq1.
  - destruct Hstep as (a & cert & -> & Hc). by exists cert.
  - destruct Hstep as (a & -> & Hg').
    destruct (collect_complete header now queue events [as_vote own] a (length (Committee.others_primaries_by_id cmt (authority_id config))))
      as (cert & -> & Hc); try done.
    + rewrite fmap_app, Hids. exact Hnd.
    + unfold quorum_of. rewrite fmap_app, Hids. exact Hq.
    + by exists cert.
Qed.

End complete.
End properties.

(** * The certifier and the voters *)

Section end_to_end.
Context `{NetworkKeys} `{Crypto}.
Import Certifier.

(** C24: a certificate of the certifier is for the header it was given, of the current epoch,
    and signed by a quorum, whatever the peers answer and in whatever order; so every node
    of the committee accepts its signature. *)
Theorem certificate_sound config sign header now queue events queue' cert :
  Committee.wf (committee config) -> Committee.stake (Committee.authorities (committee config)) < 2 ^ 63 -> keyed (committee config) ->
  propose_header config sign header now queue events = (queue', Ok cert) ->
  Header.epoch header = Committee.epoch (committee config) /\ Certificate.header cert = header /\
  certified (committee config) cert /\ is_ok (Certificate.verify_cert cert (committee config)) = true.
Proof.
  intros Hwf Hst Hk Hp. destruct (propose_header_sound config sign Hwf Hst Hk _ _ _ _ _ _ Hp) as (He & Hh & _ & Hc).
  destruct (certified_verifies config Hwf cert Hc) as [sig Hv]. by rewrite Hv.
Qed.

(** What a node makes of a certificate it receives. *)
Definition accepts (cm : Committee.t) (wc : WorkerCache.t) (cert : Certificate.t) : Prop :=
  exists c', Certificate.validate_received cert = Ok c' /\ is_ok (Certificate.verify c' cm wc) = true.

Lemma certified_accepted cm wc cert :
  Committee.wf cm -> HeaderOps.validate (Certificate.header cert) cm wc = Ok () -> certified cm cert -> accepts cm wc cert.
Proof.
  intros Hwf Hval (sig & Hs & Hb & Hq). unfold accepts, Certificate.validate_received. rewrite Hs. eexists. split; [done|].
  unfold Certificate.verify. set (c1 := Certificate.set_signature_verification_state cert (Unverified sig)).
  assert (Header.epoch (Certificate.header cert) = Committee.epoch cm) as He.
  { unfold HeaderOps.validate in Hval. by apply bind_Ok in Hval as (u & He%ensure_Ok%N.eqb_eq & _). }
  change (Certificate.epoch c1) with (Header.epoch (Certificate.header cert)). rewrite He, N.eqb_refl. cbn [ensure mbind outcome_bind].
  destruct (_ && _); [done|]. change (Certificate.header c1) with (Certificate.header cert). rewrite Hval. cbn [map_err mbind outcome_bind].
  pose proof (CertificateFacts.signed_by_weight c1 cm Hwf) as Hw. rewrite CertificateFacts.signed_by_signers in Hw |- *. cbn [fst] in Hw.
  change (CertificateFacts.signer_ids c1 cm) with (CertificateFacts.signer_ids cert cm) in Hw. unfold Committee.reached_quorum in Hq. rewrite <-Hw in Hq. rewrite Hq.
  cbn [ensure mbind outcome_bind]. unfold Certificate.verify_signature. cbn [c1 Certificate.signature_verification_state Certificate.set_signature_verification_state].
  change (CertificateFacts.signers c1 cm) with (CertificateFacts.signers cert cm). change (Certificate.digest c1) with (Certificate.digest cert). by rewrite Hb.
Qed.

(** A peer that answered a request, with the parents that came with it, with a vote. *)
Record ballot := mk_ballot {
  b_config : ConsensusConfig.t;
  b_sealed : SealedHeader.t;
  b_sign : Digest -> BlsSignature;
  b_env : RequestHandler.env;
  b_handler : RequestHandler.t;
  b_parents : list Certificate.t;
  b_vote : Vote.t;
}.

Definition voter (b : ballot) : AuthorityIdentifier := authority_id (b_config b).

Definition cast (peer : AuthorityIdentifier) (header : Header.t) (b : ballot) : Prop :=
  (RequestHandler.vote (b_config b) (b_sealed b) (b_sign b) (b_env b) peer header (b_parents b) (b_handler b)).2 = Ok (VoteResponse (b_vote b)).

(** The answers to the requests for a vote: it comes after network failures and after
    requests for missing parents that the store has. *)
Inductive eventually (store : CertificateStore.t) (header : Header.t) (v : Vote.t) : list answer -> Prop :=
  | eventually_vote answers : eventually store header v (Response (VoteResponse v) :: answers)
  | eventually_failure answers : eventually store header v answers -> eventually store header v (NetworkFailure :: answers)
  | eventually_missing missing answers :
      (missing = [] \/ is_ok (read_missing store header missing) = true) ->
      eventually store header v answers -> eventually store header v (Response (MissingParents missing) :: answers).

Lemma readable store header missing :
  missing = [] \/ is_ok (read_missing store header missing) = true ->
  exists ps, match missing with [] => Ok [] | _ => read_missing store header missing end = Ok ps.
Proof.
  intros [->|Hm]; [by exists []|]. destruct missing; [by exists []|]. destruct (read_missing _ _ _) as [ps| | |]; [by exists ps|done..].
Qed.

Lemma eventually_Ok store header v answers missing :
  eventually store header v answers -> missing = [] \/ is_ok (read_missing store header missing) = true ->
  (request_loop store header missing answers).2 = Ok v.
Proof.
  intros He. revert missing. induction He as [answers|answers _ IH|ms answers Hms _ IH]; intros missing Hm; cbn [request_loop vote_result].
  all: destruct (readable store header missing Hm) as [ps ->].
  - done.
  - specialize (IH [] ltac:(by left)). by destruct (request_loop _ _ _ _).
  - specialize (IH ms Hms). by destruct (request_loop _ _ _ _).
Qed.

Lemma cast_vote peer header b : cast peer header b ->
  b_vote b = Vote.new_sync header (voter b) (b_sign b) /\
  HeaderOps.validate header (committee (b_config b)) (worker_cache (b_config b)) = Ok ().
Proof.
  unfold cast. destruct (RequestHandler.vote _ _ _ _ _ _ _ _) as [h' r] eqn:Hv. cbn [snd]. intros ->.
  apply vote_inv in Hv as (h1 & rec & Hc & _ & _ & [Hvote _]%decide_vote_Ok). split; [done|]. exact (vc_valid _ _ _ _ _ _ Hc).
Qed.

(** The requests to the peers, each with its answers, as the loop of the certifier sees them. *)
Definition requested config (store : CertificateStore.t) (header : Header.t) (r : AuthorityIdentifier * list answer) : event :=
  RequestDone (request_vote config store r.1 header r.2).

Lemma request_vote_author config store id header answers v : request_vote config store id header answers = Ok v -> Vote.author v = id.
Proof.
  unfold request_vote, check_vote. intros (v' & _ & (u & Hc%ensure_Ok & Hr)%bind_Ok)%bind_Ok.
  apply andb_true_iff in Hc as [_ Hc%N.eqb_eq]. repeat (apply bind_Ok in Hr as (? & _ & Hr)). by injection Hr as <-.
Qed.

Lemma request_vote_counted config store header b answers :
  b_vote b = Vote.new_sync header (voter b) (b_sign b) -> Header.epoch header = Committee.epoch (committee config) ->
  0 < Committee.voting_power_by_id (committee config) (voter b) -> eventually store header (b_vote b) answers ->
  request_vote config store (voter b) header answers = Ok (b_vote b).
Proof.
  intros Hv He Hpos Hev. unfold request_vote, check_vote. rewrite (eventually_Ok _ _ _ _ [] Hev) by by left. cbn [mbind outcome_bind]. rewrite Hv.
  cbn [Vote.new_sync Vote.header_digest Vote.origin Vote.author Vote.epoch Vote.round]. rewrite !N.eqb_refl, He, N.eqb_refl. simpl.
  by destruct (N.ltb_spec 0 (Committee.voting_power_by_id (committee config) (voter b))); [|lia].
Qed.

Lemma requested_votes config store header requests v :
  v ∈ votes_in (requested config store header <$> requests) <-> exists r, r ∈ requests /\ request_vote config store r.1 header r.2 = Ok v.
Proof.
  unfold votes_in. rewrite list_elem_of_omap. split.
  - intros (e & (r & -> & Hr)%list_elem_of_fmap & Hv). exists r. split; [done|]. unfold requested in Hv.
    destruct (request_vote _ _ _ _ _); [by injection Hv as <-|done..].
  - intros (r & Hr & Hv). exists (requested config store header r). split; [by apply list_elem_of_fmap_2|]. unfold requested. by rewrite Hv.
Qed.

Lemma requested_authors config store header requests :
  Vote.author <$> votes_in (requested config store header <$> requests) `sublist_of` requests.*1.
Proof.
  induction requests as [|r requests IH]; [done|]. rewrite !fmap_cons. unfold votes_in. cbn [omap list_omap requested].
  destruct (request_vote config store r.1 header r.2) as [v| | |] eqn:Hv; [|by constructor..].
  rewrite fmap_cons, (request_vote_author _ _ _ _ _ _ Hv). by constructor.
Qed.

(** C23: a header is certified when a quorum of the committee, its author included, votes for
    it.  Each of those peers runs its checks on a request and answers with its vote, which
    may come after network failures and after requests for missing parents that this node
    has; the requests to the peers end in any order, and those to other peers may fail.  The
    certifier then forms a certificate of the header, and every node of the committee for
    whose workers the header is valid accepts it, as every voter does.  It is assumed that
    the proposer sends no other header meanwhile, which would cancel this one, that the
    signatures of the votes the certifier accepts are valid (it aggregates them before it
    checks them), and that aggregates of valid signatures verify. *)
Theorem header_certified `{!AggregateLaws} config sign header now queue store ballots requests :
  Committee.wf (committee config) -> Committee.stake (Committee.authorities (committee config)) < 2 ^ 63 -> keyed (committee config) ->
  Header.epoch header = Committee.epoch (committee config) ->
  requests.*1 ⊆ (fun x => x.1.1) <$> Committee.others_primaries_by_id (committee config) (authority_id config) -> NoDup requests.*1 ->
  Forall (fun b => committee (b_config b) = committee config /\ cast (authority_id config) header b /\
    0 < Committee.voting_power_by_id (committee config) (voter b) /\
    exists answers, (voter b, answers) ∈ requests /\ eventually store header (b_vote b) answers) ballots ->
  Forall (fun x => valid_vote (committee config) (HeaderOps.digest header) x = true)
    ((authority_id config, sign (HeaderOps.digest header)) :: (as_vote <$> votes_in (requested config store header <$> requests))) ->
  Committee.reached_quorum (committee config)
    (Committee.weight (committee config) (list_to_set (authority_id config :: (voter <$> ballots)))) = true ->
  exists cert, propose_header config sign header now queue (requested config store header <$> requests) = (queue, Ok cert) /\
    Certificate.header cert = header /\
    (forall wc, HeaderOps.validate header (committee config) wc = Ok () -> accepts (committee config) wc cert) /\
    Forall (fun b => accepts (committee (b_config b)) (worker_cache (b_config b)) cert) ballots.
Proof.
  intros Hwf Hst Hk He Hsub Hnd Hb Hval Hq. rewrite Forall_forall in Hb.
  set (vs := votes_in (requested config store header <$> requests)) in *.
  assert (forall b, b ∈ ballots -> voter b ∈ Vote.author <$> vs) as Hin.
  { intros b Hbin. destruct (Hb b Hbin) as (_ & [Hv _]%cast_vote & Hpos & answers & Hr & Hev).
    assert (b_vote b ∈ vs) as Hbv by (apply requested_votes; exists (voter b, answers); split; [done|by apply request_vote_counted]).
    apply list_elem_of_fmap. exists (b_vote b). split; [by rewrite Hv|done]. }
  assert (authority_id config ∉ requests.*1) as Hown.
  { intros (x & Hx & Hin')%Hsub%list_elem_of_fmap. apply list_elem_of_fmap in Hin' as (a & -> & Ha). apply list_elem_of_filter in Ha as [Hne _]. by destruct Hne. }
  destruct (propose_header_complete config sign Hwf Hst header now queue (requested config store header <$> requests)) as (cert & Hp & Hh); [done|..].
  - rewrite list_elem_of_fmap. by intros (r & ? & _).
  - rewrite length_fmap, <-(length_fmap fst requests), <-(length_fmap (fun x => x.1.1) (Committee.others_primaries_by_id _ _)).
    by apply submseteq_length, NoDup_submseteq.
  - pose proof (requested_authors config store header requests) as Hsl. apply NoDup_cons. split; [|by eapply sublist_NoDup].
    intros Ha. apply Hown. by eapply elem_of_sublist.
  - exact Hval.
  - unfold Committee.reached_quorum in *. apply N.leb_le in Hq. apply N.leb_le. etrans; [exact Hq|]. apply weigh_mono.
    intros i. rewrite !elem_of_list_to_set, !elem_of_cons. intros [->|(b & -> & Hbin)%list_elem_of_fmap]; [by left|right; by apply Hin].
  - exists cert. split; [done|]. split; [done|]. destruct (propose_header_sound config sign Hwf Hst Hk _ _ _ _ _ _ Hp) as (_ & _ & _ & Hc).
    assert (forall wc, HeaderOps.validate header (committee config) wc = Ok () -> accepts (committee config) wc cert) as Hacc
      by (intros wc Hwc; apply certified_accepted; [done|by rewrite Hh|done]).
    split; [exact Hacc|]. apply Forall_forall. intros b Hbin. destruct (Hb b Hbin) as (Hcm & [_ Hvalid]%cast_vote & _).
    rewrite Hcm in *. by apply Hacc.
Qed.

End end_to_end.

(** * Evaluation *)

Section witnesses.
#[local] Existing Instances demo_keys full_crypto demo_choice.
Import Certifier.

Lemma full_aggregate_laws : @AggregateLaws full_crypto.
Proof. constructor. intros sigs pks d Hne Hall. destruct Hall as [|s pk sigs pks Hs _]; [done|]. by exists s. Qed.

#[local] Existing Instance full_aggregate_laws.

Definition demo_ballot (id : AuthorityIdentifier) : ballot :=
  mk_ballot (voter_config id) demo_sealed (fun d => d) demo_env demo_handler [] (demo_vote id).

Definition demo_ballots : list ballot := demo_ballot <$> [1; 3].

(** The first peer answers at the second attempt, and the last one refuses. *)
Definition demo_requests : list (AuthorityIdentifier * list answer) :=
  [(4, [Response (ErrorResponse InvalidRequest)]); (3, [Response (VoteResponse (demo_vote 3))]);
   (1, [NetworkFailure; Response (MissingParents []); Response (VoteResponse (demo_vote 1))])].

Definition demo_requested : list event := requested (voter_config 2) CertificateStore.empty demo_proposal <$> demo_requests.

Lemma header_certified_witness :
  exists cert, propose_header (voter_config 2) (fun d => d) demo_proposal 5 [] demo_requested = ([], Ok cert) /\
    Certificate.header cert = demo_proposal /\
    (forall wc, HeaderOps.validate demo_proposal demo_committee wc = Ok () -> accepts demo_committee wc cert) /\
    Forall (fun b => accepts (committee (b_config b)) (worker_cache (b_config b)) cert) demo_ballots.
Proof.
  apply (header_certified (voter_config 2) (fun d => d) demo_proposal 5 [] CertificateStore.empty demo_ballots demo_requests).
  - apply demo_committee_wf.
  - apply demo_committee_wf.
  - apply demo_keyed.
  - done.
  - apply (bool_decide_unpack _). by vm_compute.
  - apply (bool_decide_unpack _). by vm_compute.
  - constructor; [|constructor; [|constructor]].
    + split; [done|]. split; [vm_compute; reflexivity|]. split; [done|]. eexists. split; [by do 2 right; left|]. repeat constructor.
    + split; [done|]. split; [vm_compute; reflexivity|]. split; [done|]. eexists. split; [by right; left|]. repeat constructor.
  - apply (bool_decide_unpack _). by vm_compute.
  - by vm_compute.
Defined.

Definition demo_certify (queue : list Header.t) (events : list event) : list Header.t * outcome DagError Certificate.t :=
  propose_header (voter_config 2) (fun d => d) demo_proposal 5 queue events.
Definition demo_made : Certificate.t :=
  match (demo_certify [] demo_requested).2 with
  | Ok c => c
  | _ => demo_first
  end.

Lemma certificate_sound_witness :
  Header.epoch demo_proposal = Committee.epoch demo_committee /\ Certificate.header demo_made = demo_proposal /\
  certified demo_committee demo_made /\ is_ok (Certificate.verify_cert demo_made demo_committee) = true.
Proof.
  apply (certificate_sound (voter_config 2) (fun d => d) demo_proposal 5 []
    demo_requested []).
  - apply demo_committee_wf.
  - apply demo_committee_wf.
  - apply demo_keyed.
  - vm_compute. reflexivity.
Defined.

(** A header that arrives while another one is being certified cancels it; what is put back
    in the channel is the header that was canceled, and the new one is lost. *)
Lemma cancel_drops_new_header :
  (demo_certify [other_proposal] [HeaderReceived]).1 = [demo_proposal] /\
  (demo_certify [other_proposal] [HeaderReceived]).2 = Err DagCanceled /\ demo_proposal <> other_proposal.
Proof. split_and!; [vm_compute; reflexivity..|]. intros Heq%(f_equal HeaderOps.digest). by vm_compute in Heq. Qed.

End witnesses.
