(* ===== verification/CertFetcher.v ===== *)
(** Catching up on certificates.
    Models the requests for missing certificates (crates/network-types/src/request.rs and
    crates/consensus/primary/src/network/message.rs), the collector that answers them
    (state_sync/cert_collector.rs, network/handler.rs), and the fetcher that sends them
    (certificate_fetcher.rs), with the properties that a request carries the rounds it was
    given, that a collector returns the missing certificates in order, and that fetching
    asks a peer for what the store lacks. *)

From S2P Require Import Prelude Storage Committee Certificate CertStore PendingCerts Output ConsensusState.
From S2P Require Import OrderDag LeaderSchedule Bullshark BullsharkFacts Demo CertStoreSafety CertificateSafety Aggregators.
From S2P Require Import CertManager CertValidator Consensus VoteHandler.
Import ConsensusConfig SyncConfig.

(** * Requests *)

(** The roaring crate's compressed set of 32-bit integers; [bytes] stands for the buffer it
    is serialized into. *)
Class RoaringBitmap := {
  bytes : Type;
  serialize_into : gset N -> bytes;
  deserialize_from : bytes -> option (gset N);
  deserialize_serialize X : (forall x, x ∈ X -> x < u32_modulus) -> deserialize_from (serialize_into X) = Some X;
}.

Module FetchCertificatesRequest.
Section request.
Context `{RoaringBitmap}.

Record t := mk {
  exclusive_lower_bound : Round;
  skip_rounds : list (AuthorityIdentifier * bytes);
  max_items : N;
}.

Definition new : t := mk 0 [] 0.

(** The offsets of a set of rounds from the lower bound, and back; both wrap. *)
Definition offsets (gc_round : Round) (rounds : gset Round) : gset N :=
  list_to_set ((fun v => wrapping_sub32 v gc_round) <$> bset_iter rounds).

Definition rounds_at (lower : Round) (bitmap : gset N) : gset Round :=
  list_to_set ((fun r => (lower + r) mod u32_modulus) <$> bset_iter bitmap).

Definition set_bounds (r : t) (gc_round : Round) (skip_rounds : gmap AuthorityIdentifier (gset Round)) : t :=
  mk gc_round ((fun '(k, rounds) => (k, serialize_into (offsets gc_round rounds))) <$> btree_iter skip_rounds) (max_items r).

(** A bitmap that cannot be read is left out. *)
Definition get_bounds (r : t) : Round * gmap AuthorityIdentifier (gset Round) :=
  (exclusive_lower_bound r,
   collect_map (omap (fun '(k, serialized) =>
     bitmap ← deserialize_from serialized; Some (k, rounds_at (exclusive_lower_bound r) bitmap)) (skip_rounds r))).

Definition set_max_items (r : t) (n : N) : t := mk (exclusive_lower_bound r) (skip_rounds r) n.

End request.
End FetchCertificatesRequest.

Module MissingCertificatesRequest.
Section request.
Context `{RoaringBitmap}.
Import FetchCertificatesRequest.

(** [PrimaryNetworkHandle::fetch_certificates] copies the fields of the request over. *)
Record t := mk {
  exclusive_lower_bound : Round;
  skip_rounds : list (AuthorityIdentifier * bytes);
  max_items : N;
}.

Definition from_fetch (r : FetchCertificatesRequest.t) : t :=
  mk (FetchCertificatesRequest.exclusive_lower_bound r) (FetchCertificatesRequest.skip_rounds r)
    (FetchCertificatesRequest.max_items r).

(** A bitmap that cannot be read is an error. *)
Definition get_bounds (r : t) : outcome PrimaryNetworkError (Round * gmap AuthorityIdentifier (gset Round)) :=
  skip ← foldM (fun acc '(k, serialized) =>
           bitmap ← ok_or (deserialize_from serialized) StdIo;
           Ok (<[k := rounds_at (exclusive_lower_bound r) bitmap]> acc)) ∅ (skip_rounds r);
  Ok (exclusive_lower_bound r, skip).

Definition set_bounds (r : t) (gc_round : Round) (skip_rounds : gmap AuthorityIdentifier (gset Round))
    : outcome PrimaryNetworkError t :=
  Ok (mk gc_round ((fun '(k, rounds) => (k, serialize_into (offsets gc_round rounds))) <$> btree_iter skip_rounds) (max_items r)).

Definition set_max_items (r : t) (n : N) : t := mk (exclusive_lower_bound r) (skip_rounds r) n.

End request.
End MissingCertificatesRequest.

(** * The collector *)

Module CertificateCollector.

(** The heap of reversed pairs is kept as a list and popped at its least pair. *)
Record t := mk {
  fetch_queue : list (Round * AuthorityIdentifier);
  skip_rounds : gmap AuthorityIdentifier (gset Round);
  max_items : N;
  items_returned : N;
}.

Section collector.
Context `{RoaringBitmap} (config : ConsensusConfig.t) (store : CertificateStore.t).

Definition pop (queue : list (Round * AuthorityIdentifier))
    : option ((Round * AuthorityIdentifier) * list (Round * AuthorityIdentifier)) :=
  match sort_by key_leb queue with
  | [] => None
  | x :: queue' => Some (x, queue')
  end.

(** The loop over the rounds of an authority that are stored. *)
Fixpoint find_next_loop (fuel : nat) (origin : AuthorityIdentifier) (current_round : Round) (skip : gset Round)
    : outcome PrimaryNetworkError (option Round) :=
  match fuel with
  | O => OutOfFuel
  | S fuel =>
      match CertificateStore.next_round_number store origin current_round with
      | Some round => if negb (bool_decide (round ∈ skip)) then Ok (Some round) else find_next_loop fuel origin round skip
      | None => Ok None
      end
  end.

(** Each iteration moves to a later record of the index. *)
Definition find_next_round (origin : AuthorityIdentifier) (current_round : Round) (skip : gset Round)
    : outcome PrimaryNetworkError (option Round) :=
  find_next_loop (S (size (CertificateStore.digest_by_origin store))) origin current_round skip.

Definition push (queue : list (Round * AuthorityIdentifier)) (next_round : option Round) (origin : AuthorityIdentifier)
    : list (Round * AuthorityIdentifier) :=
  match next_round with
  | Some next_round => (next_round, origin) :: queue
  | None => queue
  end.

Definition new (request : MissingCertificatesRequest.t) : outcome PrimaryNetworkError t :=
  let max_items := MissingCertificatesRequest.max_items request in
  '(lower_bound, skip_rounds) ← MissingCertificatesRequest.get_bounds request;
  fetch_queue ← foldM (fun queue '(origin, rounds) =>
      if max_skip_rounds_for_missing_certs (sync_config config) <? N.of_nat (size (rounds : gset Round)) then Err InvalidRequest
      else
        next_round ← find_next_round origin lower_bound rounds;
        Ok (push queue next_round origin)) [] (btree_iter skip_rounds);
  Ok (mk fetch_queue skip_rounds max_items 0).

(** A record of the index without its certificate ends the walk through its authority. *)
Fixpoint next_loop (fuel : nat) (c : t) : t * outcome PrimaryNetworkError (option Certificate.t) :=
  match fuel with
  | O => (c, OutOfFuel)
  | S fuel =>
      match pop (fetch_queue c) with
      | None => (c, Ok None)
      | Some ((round, origin), queue) =>
          let c := mk queue (skip_rounds c) (max_items c) (items_returned c) in
          match CertificateStore.read_by_index store origin round with
          | Some cert =>
              match (skip ← ok_or (skip_rounds c !! origin) Internal; find_next_round origin round skip) with
              | Ok next_round => (mk (push queue next_round origin) (skip_rounds c) (max_items c) (items_returned c), Ok (Some cert))
              | Err e => (c, Err e)
              | Panic => (c, Panic)
              | OutOfFuel => (c, OutOfFuel)
              end
          | None => next_loop fuel c
          end
      end
  end.

Definition next_certificate (c : t) : t * outcome PrimaryNetworkError (option Certificate.t) :=
  next_loop (S (length (fetch_queue c))) c.

Definition max_limits_reached (c : t) (time_is_up : bool) : bool :=
  (max_items c <=? items_returned c) || time_is_up.

Definition next (c : t) (time_is_up : bool) : t * option (outcome PrimaryNetworkError Certificate.t) :=
  if max_limits_reached c time_is_up then (c, None) else
  match next_certificate c with
  | (c, Ok (Some cert)) => (mk (fetch_queue c) (skip_rounds c) (max_items c) (items_returned c + 1), Some (Ok cert))
  | (c, Ok None) => (c, None)
  | (c, Err e) => (c, Some (Err e))
  | (c, Panic) => (c, Some Panic)
  | (c, OutOfFuel) => (c, Some OutOfFuel)
  end.

(** The loop of [retrieve_missing_certs] over the iterator: [time] is the number of calls
    that are made before the time limit. *)
Fixpoint collect (time : nat) (c : t) (missing : list Certificate.t) : outcome PrimaryNetworkError (list Certificate.t) :=
  match next c (bool_decide (time = O)) with
  | (_, None) => Ok missing
  | (c, Some r) =>
      cert ← r;
      match time with
      | O => Ok missing
      | S time => collect time c (missing ++ [cert])
      end
  end.

Definition retrieve_missing_certs (time : nat) (request : MissingCertificatesRequest.t) : outcome PrimaryNetworkError PrimaryResponse :=
  collector ← new request;
  missing ← collect time collector [];
  Ok (RequestedCertificates missing).

End collector.
End CertificateCollector.

(** * The fetcher *)

Module CertificateFetcher.
Section fetcher.
Context `{NetworkKeys} `{Crypto} `{RoaringBitmap} (committee : Committee.t) (default_id : AuthorityIdentifier).

(** The targets, and whether a fetch task is running. *)
Record t := mk {
  targets : gmap AuthorityIdentifier Round;
  fetch_certificates_task : bool;
}.

Definition written_rounds (store : CertificateStore.t) (gc_round : Round) : gmap AuthorityIdentifier (gset Round) :=
  let empty := foldl (fun m a => <[Authority.id a := ∅]> m) ∅ (btree_values (Committee.authorities committee)) in
  foldl (fun m '(round, origins) =>
      foldl (fun m origin => <[origin := {[round]} ∪ default ∅ (m !! origin)]> m) m origins)
    empty (btree_iter (CertificateStore.origins_after_round default_id store ((gc_round + 1) mod u32_modulus))).

Definition last_written_round (written : gmap AuthorityIdentifier (gset Round)) (gc_round : Round) (origin : AuthorityIdentifier) : Round :=
  match written !! origin with
  | Some rounds => default gc_round (last (bset_iter rounds))
  | None => gc_round
  end.

(** The request of the task that is spawned, if one is. *)
Definition kickstart (store : CertificateStore.t) (gc_round : Round) (f : t) : t * option FetchCertificatesRequest.t :=
  let written := written_rounds store gc_round in
  let kept := filter (fun x => last_written_round written gc_round x.1 < x.2) (targets f) in
  if bool_decide (kept = ∅) then (mk kept (fetch_certificates_task f), None) else
  (mk kept true,
   Some (FetchCertificatesRequest.set_max_items
           (FetchCertificatesRequest.set_bounds FetchCertificatesRequest.new gc_round written)
           CertificateValidator.MAX_CERTIFICATES_TO_FETCH)).

Definition kickstart_if_idle (store : CertificateStore.t) (gc_round : Round) (f : t) : t * option FetchCertificatesRequest.t :=
  if fetch_certificates_task f then (f, None) else kickstart store gc_round f.

Definition process_command (store : CertificateStore.t) (gc_round : Round) (f : t) (command : CertificateFetcherCommand)
    : t * option FetchCertificatesRequest.t :=
  match command with
  | Kick => kickstart_if_idle store gc_round f
  | Ancestors certificate =>
      let header := Certificate.header certificate in
      if negb (Header.epoch header =? Committee.epoch committee) then (f, None) else
      if match targets f !! Header.author header with Some r => Header.round header <=? r | None => false end then (f, None) else
      if Header.round header <=? default 0 (CertificateStore.last_round_number store (Header.author header)) then (f, None) else
      kickstart_if_idle store gc_round (mk (<[Header.author header := Header.round header]> (targets f)) (fetch_certificates_task f))
  end.

(** The task ended, cancelled or not; a panic in it is propagated. *)
Definition process_task_end (store : CertificateStore.t) (gc_round : Round) (f : t) : t * option FetchCertificatesRequest.t :=
  kickstart store gc_round (mk (targets f) false).

(** What the loop over the peers waits for: the answer of one of the requests in flight,
    or the interval. *)
Inductive fetch_event :=
  | Answered (i : nat) (r : option (list Certificate.t))
  | Interval.

(** [peers] is the shuffled list, popped at its end; the time limit ends the list of
    events. *)
Fixpoint fetch_loop (peers in_flight : list N) (events : list fetch_event) : option (list Certificate.t) :=
  match events with
  | [] => None
  | e :: events =>
      let '(peers, in_flight) :=
        match last peers with
        | Some peer => (removelast peers, in_flight ++ [peer])
        | None => (peers, in_flight)
        end in
      match in_flight with
      | [] => None
      | _ =>
          match e with
          | Answered i (Some (x :: certificates)) => Some (x :: certificates)
          | Answered i _ => fetch_loop peers (delete i in_flight) events
          | Interval => fetch_loop peers in_flight events
          end
      end
  end.

Definition fetch_certificates_helper (shuffle : list N -> list N) (name : AuthorityIdentifier) (events : list fetch_event)
    : option (list Certificate.t) :=
  let peers := (fun x => x.1.1) <$> Committee.others_primaries_by_id committee name in
  fetch_loop (shuffle peers) [] events.

(** The task: the certificates of the first useful answer are processed. *)
Definition run_fetch_task (config : ConsensusConfig.t) (shuffle : list N -> list N) (v : CertificateValidator.t)
    (events : list fetch_event) : CertificateValidator.t * outcome CertManagerError unit :=
  match fetch_certificates_helper shuffle (authority_id config) events with
  | Some certificates => CertificateValidator.process_certificates_helper config v certificates
  | None => (v, Err NoCertificateFetched)
  end.

End fetcher.
End CertificateFetcher.

(** * Requests carry their bounds *)

Section roundtrip.
Context `{RoaringBitmap}.
Import FetchCertificatesRequest.

Lemma rounds_at_offsets gc rounds :
  (forall r, r ∈ rounds -> gc <= r < u32_modulus) -> rounds_at gc (offsets gc rounds) = rounds.
Proof.
  intros Hr. apply set_eq. intros x. unfold rounds_at, offsets. rewrite elem_of_list_to_set, list_elem_of_fmap.
  assert (forall r, r ∈ rounds -> wrapping_sub32 r gc = r - gc) as Hsub.
  { intros r ?%Hr. unfold wrapping_sub32. case_match; lia. }
  assert (forall r, r ∈ rounds -> (gc + wrapping_sub32 r gc) mod u32_modulus = r) as Hback.
  { intros r Hin. rewrite (Hsub r Hin). apply Hr in Hin. replace (gc + (r - gc)) with r by lia. apply N.mod_small. lia. }
  split.
  - intros (o & -> & Ho). rewrite elem_of_bset_iter, elem_of_list_to_set, list_elem_of_fmap in Ho.
    destruct Ho as (r & -> & Hin%elem_of_bset_iter). by rewrite Hback.
  - intros Hx. exists (wrapping_sub32 x gc). rewrite Hback by done. split; [done|].
    rewrite elem_of_bset_iter, elem_of_list_to_set, list_elem_of_fmap. exists x. by rewrite elem_of_bset_iter.
Qed.

Lemma offsets_bound gc rounds x :
  (forall r, r ∈ rounds -> gc <= r < u32_modulus) -> x ∈ offsets gc rounds -> x < u32_modulus.
Proof.
  intros Hr. unfold offsets. rewrite elem_of_list_to_set, list_elem_of_fmap. intros (r & -> & Hin%elem_of_bset_iter%Hr).
  unfold wrapping_sub32. case_match; lia.
Qed.

(** The rounds a request can express: those from its lower bound on. *)
Definition expressible (gc : Round) (skip : gmap AuthorityIdentifier (gset Round)) : Prop :=
  forall o rounds r, skip !! o = Some rounds -> r ∈ rounds -> gc <= r < u32_modulus.

Lemma decode_entry gc skip k rounds :
  expressible gc skip -> (k, rounds) ∈ btree_iter skip ->
  (bitmap ← deserialize_from (serialize_into (offsets gc rounds)); Some (rounds_at gc bitmap)) = Some rounds.
Proof.
  intros He Hk%elem_of_btree_iter. assert (forall r, r ∈ rounds -> gc <= r < u32_modulus) as Hr by (intros r Hr; by eapply He).
  rewrite deserialize_serialize by (intros x; by apply offsets_bound). simpl. f_equal. by apply rounds_at_offsets.
Qed.

Lemma missing_get_bounds gc skip n :
  expressible gc skip ->
  MissingCertificatesRequest.get_bounds (MissingCertificatesRequest.from_fetch (set_max_items (set_bounds new gc skip) n)) = Ok (gc, skip).
Proof.
  intros He. unfold MissingCertificatesRequest.get_bounds. simpl.
  assert (forall l (acc : gmap AuthorityIdentifier (gset Round)), (forall k rounds, (k, rounds) ∈ l -> (k, rounds) ∈ btree_iter skip) ->
    foldM (fun acc '(k, serialized) => bitmap ← ok_or (deserialize_from serialized) StdIo; Ok (<[k := rounds_at gc bitmap]> acc)) acc
      ((fun '(k, rounds) => (k, serialize_into (offsets gc rounds))) <$> l) = Ok (foldl (fun m kv => <[kv.1 := kv.2]> m) acc l)) as Hl.
  { induction l as [|[k rounds] l IH]; intros acc Hin; [done|]. cbn [foldM fmap list_fmap foldl].
    pose proof (decode_entry gc skip k rounds He (Hin k rounds (list_elem_of_here _ _))) as Hd.
    destruct (deserialize_from _) as [b|]; [|done]. simpl in *. injection Hd as ->. apply IH. intros. apply Hin. by right. }
  rewrite Hl by done. simpl. do 2 f_equal. apply collect_map_btree.
Qed.

(** A request for missing certificates carries exactly the lower bound and the rounds
    to skip that it was given, for any set of rounds at or above the bound: the peer that
    decodes it, as a request of its own kind or as the primary's message, reads them back. *)
Theorem bounds_roundtrip gc skip n :
  expressible gc skip ->
  let r := set_max_items (set_bounds new gc skip) n in
  get_bounds r = (gc, skip) /\
  MissingCertificatesRequest.get_bounds (MissingCertificatesRequest.from_fetch r) = Ok (gc, skip) /\
  MissingCertificatesRequest.max_items (MissingCertificatesRequest.from_fetch r) = n.
Proof.
  intros He r. split_and!; [|by apply missing_get_bounds|done]. unfold get_bounds. simpl. f_equal.
  rewrite <-(collect_map_btree skip) at 2. f_equal.
  assert (forall l : list (AuthorityIdentifier * gset Round), (forall k rounds, (k, rounds) ∈ l -> (k, rounds) ∈ btree_iter skip) ->
    omap (M := list) (fun '(k, serialized) => bitmap ← deserialize_from serialized; Some (k, rounds_at gc bitmap))
      ((fun '(k, rounds) => (k, serialize_into (offsets gc rounds))) <$> l) = l) as Hl; [|by apply Hl].
  induction l as [|[k rounds] l IH]; intros Hin; [done|]. cbn [omap list_omap fmap list_fmap].
  pose proof (decode_entry gc skip k rounds He (Hin k rounds (list_elem_of_here _ _))) as Hd.
  destruct (deserialize_from _) as [b|]; [|done]. simpl in *. injection Hd as ->. f_equal. apply IH. intros. apply Hin. by right.
Qed.

End roundtrip.

(** * The collector returns what is missing *)

Section collecting.
Context `{Crypto} `{RoaringBitmap} (config : ConsensusConfig.t) (store : CertificateStore.t).
Import CertificateCollector.
Notation stored o r := (is_Some (CertificateStore.digest_by_origin store !! (o, r))).
Implicit Types (lower : Round) (skips : gmap AuthorityIdentifier (gset Round)) (q : list (Round * AuthorityIdentifier)).

(** Whether a request asks for a record of the index. *)
Definition wants skips (k : AuthorityIdentifier * Round) : bool :=
  match skips !! k.1 with
  | Some rounds => negb (bool_decide (k.2 ∈ rounds))
  | None => false
  end.

(** The records a request asks for, by round and then by author. *)
Definition wanted (lower : Round) skips : gset (Round * AuthorityIdentifier) :=
  set_map (fun k : AuthorityIdentifier * Round => (k.2, k.1))
    (filter (fun k => lower < k.2 /\ wants skips k = true) (dom (CertificateStore.digest_by_origin store))).

(** What the answer should hold. *)
Definition missing_certificates (lower : Round) skips : list Certificate.t :=
  omap (fun '(round, origin) => CertificateStore.read_by_index store origin round) (bset_iter (wanted lower skips)).

Lemma elem_of_wanted lower skips r o :
  (r, o) ∈ wanted lower skips <-> stored o r /\ lower < r /\ wants skips (o, r) = true.
Proof.
  unfold wanted. rewrite elem_of_map. split.
  - intros ([o' r'] & [= -> ->] & [[? ?] ?%elem_of_dom]%elem_of_filter). done.
  - intros (? & ? & ?). exists (o, r). split; [done|]. apply elem_of_filter. by rewrite elem_of_dom.
Qed.

Context (Hwf : CertStoreFacts.store_wf store) (Hmax : forall o r, stored o r -> r < round_max).

(** The least round after [cur] that is stored and not skipped. *)
Definition least_round (o : AuthorityIdentifier) (cur : Round) (skip : gset Round) (n : option Round) : Prop :=
  match n with
  | Some r => stored o r /\ cur < r /\ r ∉ skip /\ forall r', stored o r' -> cur < r' -> r' ∉ skip -> r <= r'
  | None => forall r', stored o r' -> cur < r' -> r' ∈ skip
  end.

Definition later (o : AuthorityIdentifier) (cur : Round) : gset (AuthorityIdentifier * Round) :=
  filter (fun k => k.1 = o /\ cur < k.2) (dom (CertificateStore.digest_by_origin store)).

Lemma find_next_loop_spec fuel o cur skip :
  cur < round_max -> (size (later o cur) < fuel)%nat -> exists n, find_next_loop store fuel o cur skip = Ok n /\ least_round o cur skip n.
Proof.
  revert cur. induction fuel as [|fuel IH]; intros cur Hcur Hf; [lia|]. cbn [find_next_loop].
  assert (cur + 1 < u32_modulus) as Hb by (unfold round_max, u32_modulus in *; lia).
  destruct (CertificateStore.next_round_number store o cur) as [r|] eqn:Hn.
  - apply (next_round_spec _ _ _ _ Hb) in Hn as (Hr & Hlt & Hmin). case_bool_decide as Hin; cbn [negb].
    2: { exists (Some r). split; [done|]. split_and!; auto. }
    assert (later o r ⊂ later o cur) as Hsub.
    { split.
      - intros k. unfold later. rewrite !elem_of_filter. intros [[? ?] ?]. split; [split; [done|lia]|done].
      - intros Hs. assert ((o, r) ∈ later o r) as [[_ ?] _]%elem_of_filter; [|simpl in *; lia].
        apply Hs, elem_of_filter. rewrite elem_of_dom. split; [split; [done|exact Hlt]|done]. }
    apply subset_size in Hsub. destruct (IH r) as (n & Hok & Hl); [by eapply Hmax|lia|]. exists n. split; [done|].
    destruct n as [r2|]; simpl in *.
    + destruct Hl as (? & ? & ? & Hl). split_and!; [done|lia|done|]. intros r' Hr' Hc Hns.
      assert (r' <> r) by (by intros ->). specialize (Hmin r' Hr' Hc). apply Hl; [done|lia|done].
    + intros r' Hr' Hc. destruct (decide (r' = r)) as [->|]; [done|]. specialize (Hmin r' Hr' Hc). apply Hl; [done|lia].
  - exists None. split; [done|]. intros r' Hr' Hc. apply (next_round_none _ _ _ r' Hb) in Hn; [lia|done].
Qed.

Lemma find_next_round_spec o cur skip :
  cur < round_max -> exists n, find_next_round store o cur skip = Ok n /\ least_round o cur skip n.
Proof.
  intros Hc. apply find_next_loop_spec; [done|]. unfold later. apply Nat.lt_succ_r. rewrite <-size_dom.
  apply subseteq_size. set_solver.
Qed.

(** The records that are still to come, for a queue with one entry per authority. *)
Definition remaining lower skips q : gset (Round * AuthorityIdentifier) :=
  filter (fun k => existsb (fun x => (x.2 =? k.2) && (x.1 <=? k.1)) q = true) (wanted lower skips).

Record queue_ok lower skips q : Prop := {
  qo_authors : NoDup q.*2;
  qo_wanted x : x ∈ q -> x ∈ wanted lower skips;
}.

Lemma elem_of_remaining lower skips q r o :
  (r, o) ∈ remaining lower skips q <-> (r, o) ∈ wanted lower skips /\ exists r', (r', o) ∈ q /\ r' <= r.
Proof.
  unfold remaining. rewrite elem_of_filter. split; intros [H1 H2]; split; auto.
  - apply existsb_exists in H1 as ([r' o'] & Hin & Hb). apply list_elem_of_In in Hin. simpl in Hb.
    assert (o' = o) as -> by lia. exists r'. split; [done|lia].
  - destruct H2 as (r' & Hin & Hle). apply existsb_exists. exists (r', o). split; [by apply list_elem_of_In|simpl; lia].
Qed.

Lemma wanted_author lower skips r o : (r, o) ∈ wanted lower skips -> exists rounds, skips !! o = Some rounds /\ r ∉ rounds.
Proof.
  intros (_ & _ & Hw)%elem_of_wanted. unfold wants in Hw. simpl in Hw. destruct (skips !! o) as [rounds|]; [|done].
  exists rounds. split; [done|]. by apply negb_true_iff, bool_decide_eq_false in Hw.
Qed.

Lemma wanted_read lower skips r o : (r, o) ∈ wanted lower skips -> is_Some (CertificateStore.read_by_index store o r).
Proof.
  intros ([d Hd] & _)%elem_of_wanted. unfold CertificateStore.read_by_index, MemTable.get. rewrite Hd.
  rewrite <-(CertStoreFacts.sw_agree _ Hwf) in Hd. destruct (CertStoreFacts.sw_index _ Hwf _ _ _ Hd) as (c & Hc & _). by exists c.
Qed.

(** Popping an entry and queueing the next round of its authority. *)
Lemma advance lower skips q q' r o rounds n :
  queue_ok lower skips q -> q ≡ₚ (r, o) :: q' -> skips !! o = Some rounds -> least_round o r rounds n -> lower < r ->
  queue_ok lower skips (push q' n o) /\ remaining lower skips (push q' n o) = remaining lower skips q ∖ {[(r, o)]}.
Proof.
  intros [Hnd Hw] Hp Hsk Hl Hlr. rewrite Hp in Hnd. apply NoDup_cons in Hnd as [Hno Hnd]. simpl in Hno.
  assert (forall x, x ∈ q' -> x ∈ wanted lower skips) as Hw' by (intros x Hx; apply Hw; rewrite Hp; set_solver).
  assert (forall r', (r', o) ∉ q') as Hfree by (intros r' Hin; by apply (list_elem_of_fmap_2 snd) in Hin).
  split.
  - destruct n as [n|]; simpl; [|done]. destruct Hl as (Hst & Hlt & Hns & _). split; [by apply NoDup_cons|].
    intros x [->|Hx]%elem_of_cons; [|by apply Hw']. apply elem_of_wanted. split_and!; [done|lia|].
    unfold wants. simpl. rewrite Hsk. by apply negb_true_iff, bool_decide_eq_false.
  - apply set_eq. intros [r1 o1]. rewrite elem_of_difference, elem_of_singleton, !elem_of_remaining.
    setoid_rewrite Hp. destruct (decide (o1 = o)) as [->|Ho].
    + split.
      * intros [Hin (r' & Hr' & Hle)]. destruct n as [n|]; [|by apply Hfree in Hr'].
        apply elem_of_cons in Hr' as [[= ->]|Hr']; [|by apply Hfree in Hr']. destruct Hl as (_ & Hlt & _).
        split; [split; [done|]; exists r; split; [set_solver|lia]|]. intros [= ->]. lia.
      * intros [[Hin (r' & [[= ->]|Hr']%elem_of_cons & Hle)] Hne]; [|by apply Hfree in Hr']. split; [done|].
        assert (r < r1) by (assert (r <> r1) by congruence; lia). destruct (wanted_author _ _ _ _ Hin) as (rs & Hrs & Hnin).
        assert (rs = rounds) as -> by congruence. apply elem_of_wanted in Hin as (Hst & _).
        destruct n as [n|]; simpl in *; [|by destruct Hnin; apply Hl].
        exists n. split; [set_solver|]. destruct Hl as (_ & _ & _ & Hl). by apply Hl.
    + assert ((r1, o1) <> (r, o)) by congruence.
      assert (forall r', (r', o1) ∈ push q' n o <-> (r', o1) ∈ (r, o) :: q') as Hq by (intros r'; destruct n; set_solver).
      setoid_rewrite Hq. naive_solver.
Qed.

Lemma pop_spec q :
  match pop q with
  | None => q = []
  | Some (x, q') => q ≡ₚ x :: q' /\ forall y, y ∈ q -> key_leb x y = true
  end.
Proof.
  unfold pop. pose proof (sort_by_perm key_leb q) as Hp.
  pose proof (sort_by_sorted key_leb key_leb_total key_leb_trans q) as Hs.
  destruct (sort_by key_leb q) as [|x q']; [by apply Permutation_nil_l in Hp|]. split; [done|].
  inversion Hs as [|? ? _ Hx]; subst. rewrite Forall_forall in Hx. intros y Hy. rewrite <-Hp in Hy.
  apply elem_of_cons in Hy as [->|Hy]; [|by apply Hx]. destruct (key_leb_total x x); done.
Qed.

Lemma next_certificate_spec lower c :
  queue_ok lower (skip_rounds c) (fetch_queue c) ->
  (remaining lower (skip_rounds c) (fetch_queue c) = ∅ /\ next_certificate store c = (c, Ok None)) \/
  (exists r o cert q', next_certificate store c = (mk q' (skip_rounds c) (max_items c) (items_returned c), Ok (Some cert)) /\
     CertificateStore.read_by_index store o r = Some cert /\ queue_ok lower (skip_rounds c) q' /\
     bset_iter (remaining lower (skip_rounds c) (fetch_queue c)) = (r, o) :: bset_iter (remaining lower (skip_rounds c) q')).
Proof.
  intros Hok. unfold next_certificate. cbn [next_loop]. pose proof (pop_spec (fetch_queue c)) as Hpop.
  destruct (pop (fetch_queue c)) as [[[r o] q']|].
  2: { left. rewrite Hpop. split; [|done]. apply set_eq. intros [r o]. rewrite elem_of_remaining. set_solver. }
  right. destruct Hpop as [Hp Hmin]. assert ((r, o) ∈ wanted lower (skip_rounds c)) as Hw.
  { apply (qo_wanted _ _ _ Hok). rewrite Hp. set_solver. }
  destruct (wanted_read _ _ _ _ Hw) as [cert Hc]. rewrite Hc. destruct (wanted_author _ _ _ _ Hw) as (rounds & Hr & _).
  cbn [skip_rounds]. rewrite Hr. pose proof Hw as (Hst & Hlr & _)%elem_of_wanted.
  destruct (find_next_round_spec o r rounds (Hmax _ _ Hst)) as (n & Hn & Hl). cbn [ok_or]. unfold mbind, outcome_bind. rewrite Hn.
  destruct (advance lower (skip_rounds c) (fetch_queue c) q' r o rounds n) as [Hok' Hrem]; try done.
  exists r, o, cert, (push q' n o). split_and!; [done..|]. rewrite Hrem. apply bset_iter_cons.
  - apply elem_of_remaining. split; [done|]. exists r. rewrite Hp. split; [set_solver|lia].
  - intros [r1 o1] (_ & r' & Hin & Hle)%elem_of_remaining. apply Hmin in Hin. simpl in *. unfold pair_leb in *. simpl in *. lia.
Qed.

Lemma collect_spec lower time c missing :
  queue_ok lower (skip_rounds c) (fetch_queue c) ->
  collect store time c missing = Ok (missing ++ take (Nat.min (N.to_nat (max_items c - items_returned c)) time)
    (omap (fun '(round, origin) => CertificateStore.read_by_index store origin round)
       (bset_iter (remaining lower (skip_rounds c) (fetch_queue c))))).
Proof.
  revert c missing. induction time as [|time IH]; intros c missing Hok; cbn [collect]; unfold next, max_limits_reached.
  { rewrite bool_decide_true, orb_true_r, Nat.min_0_r by done. by rewrite app_nil_r. }
  rewrite bool_decide_false, orb_false_r by done. destruct (N.leb_spec (max_items c) (items_returned c)) as [Hle|Hlt].
  { replace (N.to_nat (max_items c - items_returned c)) with 0%nat by lia. by rewrite app_nil_r. }
  destruct (next_certificate_spec lower c Hok) as [[He Hn]|(r & o & cert & q' & Hn & Hc & Hok' & Hrem)]; rewrite Hn.
  - rewrite He, bset_iter_empty. simpl. by rewrite take_nil, app_nil_r.
  - rewrite Hrem. cbn [omap list_omap]. rewrite Hc. unfold mbind at 1, outcome_bind at 1. rewrite (IH (mk _ _ _ _)) by done.
    cbn [max_items items_returned skip_rounds fetch_queue]. rewrite <-app_assoc. do 2 f_equal.
    replace (N.to_nat (max_items c - items_returned c)) with (S (N.to_nat (max_items c - (items_returned c + 1)))) by lia.
    rewrite <-Nat.succ_min_distr. done.
Qed.

(** The queue a collector starts with, after some of the authorities of the request. *)
Definition started lower (l : list (AuthorityIdentifier * gset Round)) q : Prop :=
  NoDup q.*2 /\ forall r o, (r, o) ∈ q <-> exists rounds, (o, rounds) ∈ l /\ least_round o lower rounds (Some r).

Lemma least_round_unique o cur skip r r' : least_round o cur skip (Some r) -> least_round o cur skip (Some r') -> r = r'.
Proof.
  intros (H1 & H2 & H3 & H4) (H1' & H2' & H3' & H4'). pose proof (H4 r' H1' H2' H3'). pose proof (H4' r H1 H2 H3). lia.
Qed.

Lemma start_step lower l q o rounds n :
  NoDup ((o, rounds) :: l).*1 -> started lower l q -> least_round o lower rounds n ->
  started lower ((o, rounds) :: l) (push q n o).
Proof.
  intros Hnd [Hq Hin] Hl. apply NoDup_cons in Hnd as [Hno _]. simpl in Hno.
  assert (forall r, (r, o) ∉ q) as Hfree.
  { intros r (rs & Hrs & _)%Hin. by apply (list_elem_of_fmap_2 fst) in Hrs. }
  destruct n as [n|]; simpl.
  - split.
    { apply NoDup_cons. split; [|done]. intros ([r o'] & Ho & Hr)%list_elem_of_fmap. simpl in Ho. subst o'. by apply Hfree in Hr. }
    intros r o'. rewrite elem_of_cons, Hin. split.
    + intros [[= -> ->]|(rs & Hrs & Hlr)]; [exists rounds; split; [set_solver|done]|exists rs; split; [set_solver|done]].
    + intros (rs & [[= -> ->]|Hrs]%elem_of_cons & Hlr); [left; by rewrite (least_round_unique _ _ _ _ _ Hlr Hl)|right; by exists rs].
  - split; [done|]. intros r o'. rewrite Hin. split.
    + intros (rs & Hrs & Hlr). exists rs. split; [set_solver|done].
    + intros (rs & [[= -> ->]|Hrs]%elem_of_cons & Hlr); [|by exists rs]. destruct Hlr as (? & ? & Hns & _). by destruct Hns; apply Hl.
Qed.

Definition fill (lower : Round) (queue : list (Round * AuthorityIdentifier)) (x : AuthorityIdentifier * gset Round)
    : outcome PrimaryNetworkError (list (Round * AuthorityIdentifier)) :=
  if max_skip_rounds_for_missing_certs (sync_config config) <? N.of_nat (size x.2) then Err InvalidRequest
  else next_round ← find_next_round store x.1 lower x.2; Ok (push queue next_round x.1).

Lemma fill_started lower l dn q :
  lower < round_max -> NoDup (l ++ dn).*1 -> started lower dn q ->
  Forall (fun x => N.of_nat (size x.2) <= max_skip_rounds_for_missing_certs (sync_config config)) l ->
  exists q', foldM (fill lower) q l = Ok q' /\ started lower (reverse l ++ dn) q'.
Proof.
  intros Hlow. revert dn q. induction l as [|[o rounds] l IH]; intros dn q Hnd Hst Hsz; [by exists q|].
  apply Forall_cons in Hsz as [Ho Hsz]. cbn [foldM]. unfold fill at 2. simpl in Ho |- *.
  destruct (N.ltb_spec (max_skip_rounds_for_missing_certs (sync_config config)) (N.of_nat (size rounds))); [lia|].
  destruct (find_next_round_spec o lower rounds Hlow) as (n & -> & Hl). simpl.
  rewrite reverse_cons, <-(assoc_L (++)). simpl in Hnd. apply (IH ((o, rounds) :: dn)).
  - rewrite fmap_app. simpl. by rewrite <-Permutation_middle, <-fmap_app.
  - apply start_step; [|done|done]. apply NoDup_cons in Hnd as [Hno Hnd]. rewrite fmap_app in Hno, Hnd. simpl.
    apply NoDup_app in Hnd as (_ & _ & Hnd). apply NoDup_cons. split; [set_solver|done].
  - done.
Qed.

Lemma fill_refused lower l q :
  lower < round_max -> Exists (fun x => max_skip_rounds_for_missing_certs (sync_config config) < N.of_nat (size x.2)) l ->
  foldM (fill lower) q l = Err InvalidRequest.
Proof.
  intros Hlow Hex. revert q. induction l as [|[o rounds] l IH]; intros q; [by inversion Hex|]. cbn [foldM]. unfold fill at 2. simpl.
  destruct (N.ltb_spec (max_skip_rounds_for_missing_certs (sync_config config)) (N.of_nat (size rounds))) as [|Hle]; [done|].
  destruct (find_next_round_spec o lower rounds Hlow) as (n & -> & _). simpl. apply IH.
  apply Exists_cons in Hex as [?|?]; [simpl in *; lia|done].
Qed.

Lemma started_queue lower skips q :
  started lower (reverse (btree_iter skips)) q -> queue_ok lower skips q /\ remaining lower skips q = wanted lower skips.
Proof.
  intros [Hnd Hin].
  assert (forall r o, (r, o) ∈ q <-> exists rounds, skips !! o = Some rounds /\ least_round o lower rounds (Some r)) as Hq.
  { intros r o. rewrite Hin. setoid_rewrite elem_of_reverse. by setoid_rewrite elem_of_btree_iter. }
  split.
  - split; [done|]. intros [r o] (rounds & Hr & Hst & Hlt & Hns & _)%Hq. apply elem_of_wanted. split_and!; [done..|].
    unfold wants. simpl. rewrite Hr. by apply negb_true_iff, bool_decide_eq_false.
  - apply set_eq. intros [r o]. rewrite elem_of_remaining. split; [by intros [? _]|]. intros Hw. split; [done|].
    destruct (wanted_author _ _ _ _ Hw) as (rounds & Hr & Hns). apply elem_of_wanted in Hw as (Hst & Hlt & _).
    assert (lower < round_max) as Hlow by (apply Hmax in Hst; lia).
    destruct (find_next_round_spec o lower rounds Hlow) as ([n|] & _ & Hl).
    + exists n. split; [apply Hq; by exists rounds|]. destruct Hl as (_ & _ & _ & Hl). by apply Hl.
    + simpl in Hl. by destruct Hns; apply Hl.
Qed.

Lemma retrieve_unfold time request lower skips :
  MissingCertificatesRequest.get_bounds request = Ok (lower, skips) ->
  retrieve_missing_certs config store time request =
  (fetch_queue ← foldM (fill lower) [] (btree_iter skips);
   missing ← collect store time (mk fetch_queue skips (MissingCertificatesRequest.max_items request) 0) [];
   Ok (RequestedCertificates missing)).
Proof.
  intros Hb. unfold retrieve_missing_certs, new. rewrite Hb. cbn -[foldM collect].
  rewrite (foldM_ext _ (fill lower)) by (by intros q [o rounds]). by destruct (foldM _ _ _).
Qed.

Lemma retrieve_spec time request lower skips :
  MissingCertificatesRequest.get_bounds request = Ok (lower, skips) -> lower < round_max ->
  map_Forall (fun _ rounds => N.of_nat (size rounds) <= max_skip_rounds_for_missing_certs (sync_config config)) skips ->
  retrieve_missing_certs config store time request =
    Ok (RequestedCertificates (take (Nat.min (N.to_nat (MissingCertificatesRequest.max_items request)) time)
      (missing_certificates lower skips))).
Proof.
  intros Hb Hlow Hsz. rewrite (retrieve_unfold _ _ _ _ Hb).
  destruct (fill_started lower (btree_iter skips) [] [] Hlow) as (q & -> & Hq).
  - rewrite app_nil_r. apply btree_keys_NoDup.
  - split; [constructor|]. intros r o. set_solver.
  - apply Forall_forall. intros [o rounds] Hin%elem_of_btree_iter. by apply (Hsz o).
  - rewrite app_nil_r in Hq. apply started_queue in Hq as [Hok Hrem]. simpl.
    rewrite (collect_spec lower) by done. simpl. rewrite Hrem, N.sub_0_r. done.
Qed.

End collecting.

Section collector_property.
Context `{Crypto} `{RoaringBitmap} (config : ConsensusConfig.t) (store : CertificateStore.t).

(** C35: The answer to a request for missing certificates is exactly the certificates
    stored for the authorities it names, above its lower bound and not among the rounds to
    skip, each once, by round and then by author, cut off at the number of items asked for
    and at the time limit; a request that names too many rounds for an authority is
    refused.  The walk always ends.  This is over a store whose indexes lead to its
    certificates, whose rounds are below the last one of 32 bits, as the lower bound is,
    and for a request whose bitmaps decode. *)
Theorem collector_correct time request lower skips :
  CertStoreFacts.store_wf store ->
  (forall o r, is_Some (CertificateStore.digest_by_origin store !! (o, r)) -> r < round_max) ->
  MissingCertificatesRequest.get_bounds request = Ok (lower, skips) -> lower < round_max ->
  CertificateCollector.retrieve_missing_certs config store time request =
    if decide (map_Forall (fun _ rounds => N.of_nat (size rounds) <= max_skip_rounds_for_missing_certs (sync_config config)) skips) then
      Ok (RequestedCertificates (take (Nat.min (N.to_nat (MissingCertificatesRequest.max_items request)) time)
        (missing_certificates store lower skips)))
    else Err InvalidRequest.
Proof.
  intros Hwf Hmax Hb Hlow. case_decide as Hsz; [by apply retrieve_spec|]. rewrite (retrieve_unfold _ _ _ _ _ _ Hb).
  apply map_not_Forall in Hsz as (o & rounds & Ho & Hsz); [|intros ? ?; apply _].
  rewrite (fill_refused config store Hwf Hmax); [done|done|]. apply Exists_exists. exists (o, rounds). rewrite elem_of_btree_iter.
  split; [done|simpl; lia].
Qed.

End collector_property.

(** * Fetching asks for what the store lacks *)

Section fetching.
Context `{NetworkKeys} `{Crypto} `{RoaringBitmap} (committee : Committee.t) (default_id : AuthorityIdentifier).
Import CertificateFetcher.
Implicit Types (store : CertificateStore.t) (m written : gmap AuthorityIdentifier (gset Round)).

Lemma origins_after_round_spec store round r o :
  (exists os, CertificateStore.origins_after_round default_id store round !! r = Some os /\ o ∈ os) <->
  is_Some (CertificateStore.digest_by_round store !! (r, o)) /\ round <= r.
Proof.
  assert (forall l (m : gmap Round (list AuthorityIdentifier)),
    (exists os, foldl (fun result (x : (Round * AuthorityIdentifier) * Digest) => if x.1.1 <? round then result
       else <[x.1.1 := default [] (result !! x.1.1) ++ [x.1.2]]> result) m l !! r = Some os /\ o ∈ os) <->
    (exists os, m !! r = Some os /\ o ∈ os) \/ exists d, ((r, o), d) ∈ filter (fun x => round <= x.1.1) l) as Hl.
  { induction l as [|[[r1 o1] d1] l IH]; intros m; cbn [foldl]; [set_solver|]. rewrite IH. cbn [fst snd].
    destruct (N.ltb_spec r1 round) as [Hlt|Hge]; [rewrite filter_cons_False by (simpl; lia); done|].
    rewrite filter_cons_True by (simpl; lia). setoid_rewrite elem_of_cons. destruct (decide (r1 = r)) as [->|Hne].
    - rewrite lookup_insert_eq. split.
      + intros [(os & [= <-] & [Ho| ->%list_elem_of_singleton]%elem_of_app)|(d & ?)]; [|right; eauto..].
        destruct (m !! r) as [os|]; [left; by eauto|by apply elem_of_nil in Ho].
      + intros [(os & Hos & Ho)|(d & [[= -> ->]|?])]; [left|left|right; by eauto].
        * rewrite Hos. eexists. split; [done|set_solver].
        * eexists. split; [done|set_solver].
    - rewrite lookup_insert_ne by done. naive_solver. }
  unfold CertificateStore.origins_after_round. rewrite Hl, CertStoreFacts.rows_from_filter. split.
  - intros [(os & Hos & _)|(d & [Hr Hd%elem_of_btree_iter]%list_elem_of_filter)]; [by rewrite lookup_empty in Hos|]. by eauto.
  - intros [[d Hd] Hr]. right. exists d. apply list_elem_of_filter. by rewrite elem_of_btree_iter.
Qed.

(** A round recorded for an authority. *)
Definition recorded m (o : AuthorityIdentifier) (r : Round) : Prop := exists rounds, m !! o = Some rounds /\ r ∈ rounds.

Lemma record_origins m round origins o r :
  recorded (foldl (fun m origin => <[origin := {[round]} ∪ default ∅ (m !! origin)]> m) m origins) o r <->
  recorded m o r \/ (r = round /\ o ∈ origins).
Proof.
  revert m. induction origins as [|o1 origins IH]; intros m; cbn [foldl]; [set_solver|]. rewrite IH, elem_of_cons. unfold recorded.
  destruct (decide (o1 = o)) as [->|]; [rewrite lookup_insert_eq|rewrite lookup_insert_ne by done; naive_solver].
  split.
  - intros [(rs & [= <-] & [?%elem_of_singleton|Hr]%elem_of_union)|?]; [naive_solver| |naive_solver].
    left. destruct (m !! o); [by eauto|set_solver].
  - intros [(rs & Hrs & Hr)|[-> [_|?]]]; [left|left|naive_solver].
    + rewrite Hrs. eexists. split; [done|set_solver].
    + eexists. split; [done|set_solver].
Qed.

Lemma record_dom m round origins :
  dom m ⊆ dom (foldl (fun m origin => <[origin := {[round]} ∪ default ∅ (m !! origin)]> m) m origins).
Proof.
  revert m. induction origins as [|o1 origins IH]; intros m; cbn [foldl]; [done|]. etrans; [|apply IH].
  rewrite dom_insert_L. set_solver.
Qed.

Lemma initial_rounds (l : list Authority.t) m o :
  foldl (fun m a => <[Authority.id a := ∅]> m) m l !! o = if decide (o ∈ Authority.id <$> l) then Some ∅ else m !! o.
Proof.
  revert m. induction l as [|a l IH]; intros m; cbn [foldl]; [done|]. rewrite IH, fmap_cons.
  destruct (decide (o ∈ Authority.id <$> l)) as [Hin|Hni]; [by rewrite decide_True by (by right)|].
  destruct (decide (o = Authority.id a)) as [->|Hne].
  - rewrite lookup_insert_eq, decide_True by left. done.
  - rewrite lookup_insert_ne, decide_False by set_solver. done.
Qed.

Lemma written_rounds_spec store gc :
  CertStoreFacts.store_wf store -> gc + 1 < u32_modulus ->
  (forall o r, recorded (written_rounds committee default_id store gc) o r <->
     is_Some (CertificateStore.digest_by_origin store !! (o, r)) /\ gc < r) /\
  (forall a, a ∈ btree_values (Committee.authorities committee) -> is_Some (written_rounds committee default_id store gc !! Authority.id a)).
Proof.
  intros Hwf Hgc. unfold written_rounds. rewrite N.mod_small by done. set (init := foldl _ ∅ (btree_values _)).
  assert (forall l m, (forall o r, recorded (foldl (fun m '(round, origins) =>
      foldl (fun m origin => <[origin := {[round]} ∪ default ∅ (m !! origin)]> m) m origins) m l) o r <->
      recorded m o r \/ exists os, (r, os) ∈ l /\ o ∈ os) /\ dom m ⊆ dom (foldl (fun m '(round, origins) =>
      foldl (fun m origin => <[origin := {[round]} ∪ default ∅ (m !! origin)]> m) m origins) m l)) as Hl.
  { induction l as [|[r1 os1] l IH]; intros m; cbn [foldl]; [set_solver|].
    destruct (IH (foldl (fun m origin => <[origin := {[r1]} ∪ default ∅ (m !! origin)]> m) m os1)) as [Hr Hd]. split.
    - intros o r. rewrite Hr, record_origins. setoid_rewrite elem_of_cons. naive_solver.
    - etrans; [apply record_dom|exact Hd]. }
  destruct (Hl (btree_iter (CertificateStore.origins_after_round default_id store (gc + 1))) init) as [Hr Hd]. split.
  - intros o r. rewrite Hr, <-(CertStoreFacts.sw_agree _ Hwf). setoid_rewrite elem_of_btree_iter.
    rewrite origins_after_round_spec. split; [|intros [? ?]; right; split; [done|lia]].
    intros [(rs & Hrs & Hin)|[? ?]]; [|split; [done|lia]]. unfold init in Hrs. rewrite initial_rounds in Hrs.
    case_decide; [set_solver|]. by rewrite lookup_empty in Hrs.
  - intros a Ha. apply elem_of_dom, Hd, elem_of_dom. unfold init. rewrite initial_rounds.
    rewrite decide_True by (by apply list_elem_of_fmap_2). done.
Qed.

Lemma last_written_round_lt store gc o t :
  CertStoreFacts.store_wf store -> gc + 1 < u32_modulus ->
  last_written_round (written_rounds committee default_id store gc) gc o < t <->
  gc < t /\ forall r, is_Some (CertificateStore.digest_by_origin store !! (o, r)) -> r < t.
Proof.
  intros Hwf Hgc. destruct (written_rounds_spec store gc Hwf Hgc) as [Hw _]. specialize (Hw o).
  unfold last_written_round, recorded in *. destruct (written_rounds committee default_id store gc !! o) as [rounds|].
  2: { split; [|naive_solver]. intros Hlt. split; [done|]. intros r Hr. destruct (N.le_gt_cases r gc); [lia|].
       destruct (proj2 (Hw r)) as (? & ? & ?); done. }
  assert (forall r, r ∈ rounds <-> is_Some (CertificateStore.digest_by_origin store !! (o, r)) /\ gc < r) as Hr.
  { intros r. rewrite <-Hw. naive_solver. }
  pose proof (bset_iter_sorted rounds) as Hs. destruct (last (bset_iter rounds)) as [x|] eqn:Hl; simpl.
  - pose proof (StronglySorted_lt_last _ _ Hs Hl) as Hmax. apply last_Some_elem_of, elem_of_bset_iter, Hr in Hl as [Hst Hgt].
    split; [|intros [_ Hall]; by apply Hall]. intros Hlt. split; [lia|]. intros r Hst'.
    destruct (N.le_gt_cases r gc); [lia|]. assert (r <= x); [|lia]. apply Hmax, elem_of_bset_iter, Hr. done.
  - apply last_None in Hl. split; [|naive_solver]. intros Hlt. split; [done|]. intros r Hst.
    destruct (N.le_gt_cases r gc); [lia|]. assert (r ∈ bset_iter rounds) as Hin by (by apply elem_of_bset_iter, Hr).
    rewrite Hl in Hin. by apply elem_of_nil in Hin.
Qed.

Lemma kickstart_targets store gc f o t :
  CertStoreFacts.store_wf store -> gc + 1 < u32_modulus ->
  targets (kickstart committee default_id store gc f).1 !! o = Some t <->
  targets f !! o = Some t /\ gc < t /\ forall r, is_Some (CertificateStore.digest_by_origin store !! (o, r)) -> r < t.
Proof.
  intros Hwf Hgc. rewrite <-(last_written_round_lt store gc o t Hwf Hgc). unfold kickstart.
  case_bool_decide; simpl; rewrite map_lookup_filter_Some; done.
Qed.

Lemma elem_of_missing store lower skips c :
  c ∈ missing_certificates store lower skips <->
  exists r o, (r, o) ∈ wanted store lower skips /\ CertificateStore.read_by_index store o r = Some c.
Proof.
  unfold missing_certificates. rewrite list_elem_of_omap. split.
  - intros ([r o] & Hin%elem_of_bset_iter & Hc). by eauto.
  - intros (r & o & Hin & Hc). exists (r, o). by rewrite elem_of_bset_iter.
Qed.

Lemma read_by_index_stored store o r c :
  CertificateStore.read_by_index store o r = Some c -> is_Some (CertificateStore.digest_by_origin store !! (o, r)).
Proof. unfold CertificateStore.read_by_index, MemTable.get. by destruct (CertificateStore.digest_by_origin store !! (o, r)). Qed.

(** When the fetcher starts a fetch, some target is above everything stored for its
    author and above the garbage collection round, and only such targets are kept; and
    the peer that receives the request answers with certificates the fetcher does not have
    for their author and round, all above its garbage collection round, and with every
    such certificate of the committee that the peer has, up to the 2000 asked for and the
    peer's time limit. *)
Theorem fetch_answers_missing config store peer_store time gc f f' request :
  CertStoreFacts.store_wf store -> CertStoreFacts.store_wf peer_store -> gc < round_max ->
  (forall o r, is_Some (CertificateStore.digest_by_origin store !! (o, r)) -> r < u32_modulus) ->
  (forall o r, is_Some (CertificateStore.digest_by_origin peer_store !! (o, r)) -> r < round_max) ->
  map_Forall (fun _ rounds => N.of_nat (size rounds) <= max_skip_rounds_for_missing_certs (sync_config config))
    (written_rounds committee default_id store gc) ->
  kickstart committee default_id store gc f = (f', Some request) ->
  targets f' <> ∅ /\ fetch_certificates_task f' = true /\
  (forall o t, targets f' !! o = Some t <->
     targets f !! o = Some t /\ gc < t /\ forall r, is_Some (CertificateStore.digest_by_origin store !! (o, r)) -> r < t) /\
  exists certs,
    CertificateCollector.retrieve_missing_certs config peer_store time (MissingCertificatesRequest.from_fetch request) =
      Ok (RequestedCertificates (take (Nat.min 2000 time) certs)) /\
    (forall c, c ∈ certs -> exists o r, CertificateStore.read_by_index peer_store o r = Some c /\ gc < r /\
       CertificateStore.digest_by_origin store !! (o, r) = None) /\
    (forall a r c, a ∈ btree_values (Committee.authorities committee) ->
       CertificateStore.read_by_index peer_store (Authority.id a) r = Some c -> gc < r ->
       CertificateStore.digest_by_origin store !! (Authority.id a, r) = None -> c ∈ certs).
Proof.
  intros Hwf Hwf2 Hgc Hb1 Hb2 Hsz Hk. assert (gc + 1 < u32_modulus) as Hgc' by (unfold round_max, u32_modulus in *; lia).
  pose proof (fun o t => kickstart_targets store gc f o t Hwf Hgc') as Ht. rewrite Hk in Ht. cbn [fst] in Ht.
  destruct (written_rounds_spec store gc Hwf Hgc') as [Hw Hauth].
  unfold kickstart in Hk. case_bool_decide as He; [done|]. injection Hk as <- <-. split_and!; [done|done|exact Ht|].
  assert (expressible gc (written_rounds committee default_id store gc)) as Hex.
  { intros o rounds r Ho Hr. destruct (proj1 (Hw o r)) as [Hs ?]; [by exists rounds|]. apply Hb1 in Hs. lia. }
  exists (missing_certificates peer_store gc (written_rounds committee default_id store gc)). split_and!.
  - rewrite (retrieve_spec config peer_store Hwf2 Hb2 time _ gc (written_rounds committee default_id store gc)); try done.
    by apply missing_get_bounds.
  - intros c (r & o & Hin & Hc)%elem_of_missing. exists o, r. pose proof Hin as (_ & Hlt & _)%elem_of_wanted. split_and!; [done..|].
    apply wanted_author in Hin as (rounds & Ho & Hnin). apply eq_None_not_Some. intros Hs.
    destruct (proj2 (Hw o r)) as (rs & Hrs & Hin); [done|]. congruence.
  - intros a r c Ha Hc Hlt Hno. apply elem_of_missing. exists r, (Authority.id a). split; [|done]. apply elem_of_wanted.
    split_and!; [by eapply read_by_index_stored|done|]. unfold wants. simpl. destruct (Hauth a Ha) as [rounds Hr]. rewrite Hr.
    apply negb_true_iff, bool_decide_eq_false. intros Hin. destruct (proj1 (Hw (Authority.id a) r)) as [[d Hd] _]; [by exists rounds|].
    congruence.
Qed.

End fetching.

(** * Evaluation *)

Section witnesses.
#[local] Existing Instances demo_keys demo_crypto demo_collision_free.

(** A bitmap serialized as itself. *)
Definition demo_bitmap : RoaringBitmap.
Proof. refine {| bytes := gset N; serialize_into X := X; deserialize_from X := Some X |}. done. Defined.

#[local] Existing Instance demo_bitmap.

Definition demo_skips : gmap AuthorityIdentifier (gset Round) := {[1 := {[7; 9]}; 4 := ∅]}.

Lemma bounds_roundtrip_witness :
  let r := FetchCertificatesRequest.set_max_items (FetchCertificatesRequest.set_bounds FetchCertificatesRequest.new 5 demo_skips) 10 in
  FetchCertificatesRequest.get_bounds r = (5, demo_skips) /\
  MissingCertificatesRequest.get_bounds (MissingCertificatesRequest.from_fetch r) = Ok (5, demo_skips) /\
  MissingCertificatesRequest.max_items (MissingCertificatesRequest.from_fetch r) = 10.
Proof.
  apply (bounds_roundtrip 5 demo_skips 10). intros o rounds r Ho Hr. unfold demo_skips in Ho.
  apply lookup_insert_Some in Ho as [[_ <-]|[_ [_ <-]%lookup_singleton_Some]]; [|set_solver].
  unfold u32_modulus. assert (r = 7 \/ r = 9) by set_solver. lia.
Defined.

(** A peer with two rounds answers a request of a node that has the first. *)
Definition behind : CertificateStore.t := CertificateStore.write_all CertificateStore.empty demo_round1.
Definition ahead : CertificateStore.t := CertificateStore.write_all CertificateStore.empty (demo_round1 ++ demo_round2).

Definition demo_request : MissingCertificatesRequest.t :=
  MissingCertificatesRequest.mk 0 [(1, {[1]}); (2, {[1]}); (3, ∅)] 3.

Lemma store_rounds (s : CertificateStore.t) (b : N) :
  Forall (fun x : (AuthorityIdentifier * Round) * Digest => x.1.2 < b) (map_to_list (CertificateStore.digest_by_origin s)) ->
  forall o r, is_Some (CertificateStore.digest_by_origin s !! (o, r)) -> r < b.
Proof. intros Hf o r [d Hd]. rewrite Forall_forall in Hf. apply (Hf ((o, r), d)). by apply elem_of_map_to_list. Qed.

Lemma written_wf cs : Forall CertStoreFacts.valid cs -> CertStoreFacts.store_wf (CertificateStore.write_all CertificateStore.empty cs).
Proof.
  intros Hv. rewrite CertStoreFacts.write_all_save.
  apply CertStoreFacts.gc_rounds_wf, CertStoreFacts.save_all_wf; [apply CertStoreFacts.empty_wf|done].
Qed.

Lemma behind_wf : CertStoreFacts.store_wf behind.
Proof. apply written_wf. repeat constructor. Qed.

Lemma ahead_wf : CertStoreFacts.store_wf ahead.
Proof. apply written_wf. repeat constructor. Qed.

Lemma ahead_rounds o r : is_Some (CertificateStore.digest_by_origin ahead !! (o, r)) -> r < round_max.
Proof. apply store_rounds. apply (bool_decide_unpack _). by vm_compute. Qed.

Lemma collector_correct_witness :
  CertificateCollector.retrieve_missing_certs demo_config ahead 10 demo_request =
    Ok (RequestedCertificates [demo_cert 3 1 []; demo_cert 1 2 (demo_digests demo_round1); demo_cert 2 2 (demo_digests demo_round1)]).
Proof.
  rewrite (collector_correct demo_config ahead 10 demo_request 0 {[1 := {[1]}; 2 := {[1]}; 3 := ∅]} ahead_wf ahead_rounds).
  - vm_compute. reflexivity.
  - vm_compute. reflexivity.
  - done.
Defined.

Definition demo_fetcher : CertificateFetcher.t := CertificateFetcher.mk {[1 := 2]} false.
Definition demo_kick : CertificateFetcher.t * option FetchCertificatesRequest.t :=
  CertificateFetcher.kickstart demo_committee 0 behind 0 demo_fetcher.
Definition demo_kicked : FetchCertificatesRequest.t := default FetchCertificatesRequest.new demo_kick.2.

Lemma fetch_answers_missing_witness :
  CertificateFetcher.targets demo_kick.1 <> ∅ /\ CertificateFetcher.fetch_certificates_task demo_kick.1 = true /\
  exists certs,
    CertificateCollector.retrieve_missing_certs demo_config ahead 10 (MissingCertificatesRequest.from_fetch demo_kicked) =
      Ok (RequestedCertificates (take (Nat.min 2000 10) certs)).
Proof.
  destruct (fetch_answers_missing demo_committee 0 demo_config behind ahead 10 0 demo_fetcher demo_kick.1 demo_kicked)
    as (H1 & H2 & _ & certs & Hr & _).
  - apply behind_wf.
  - apply ahead_wf.
  - done.
  - apply store_rounds. apply (bool_decide_unpack _). by vm_compute.
  - apply ahead_rounds.
  - apply (bool_decide_unpack _). by vm_compute.
  - vm_compute. reflexivity.
  - split_and!; [exact H1|exact H2|]. exists certs. exact Hr.
Defined.

End witnesses.
