(* ===== verification/Worker.v ===== *)
(** Workers and their batches.
    Models crates/types/src/worker/sealed_batch.rs, crates/execution/batch-validator, and of
    crates/consensus/worker: quorum_waiter.rs, worker.rs, batch_fetcher.rs and network/
    (the requests to peers, the request handler, and the receiver of the primary's
    messages), with the reports to the primary of primary/src/network/mod.rs.  The execution
    layer's chain and its decoding of transactions are parameters. *)

From S2P Require Import Prelude Storage Committee Certificate CertStore Demo.

(** * Batches *)

Module Batch.

Record t := mk {
  transactions : list (list N);
  parent_hash : N;
  beneficiary : N;
  timestamp : N;
  base_fee_per_gas : option N;
  received_at : option TimestampSec;
}.

#[global] Instance t_eq_dec : EqDecision t.
Proof. solve_decision. Defined.

Definition set_received_at (b : t) (time : TimestampSec) : t :=
  mk (transactions b) (parent_hash b) (beneficiary b) (timestamp b) (base_fee_per_gas b) (Some time).

Definition created_at (b : t) : TimestampSec := timestamp b.

(** What decoding gives back once the batch has been encoded, on the wire or in a table:
    [received_at] is skipped. *)
Definition decoded (b : t) : t :=
  mk (transactions b) (parent_hash b) (beneficiary b) (timestamp b) (base_fee_per_gas b) None.

End Batch.

(** The hash of an encoded batch, in which [received_at] is skipped, and the size of the
    struct in memory. *)
Class BatchHash := {
  hash_batch : list (list N) * N * N * N * option N -> N;
  size_of_batch : N;
}.

Module SealedBatch.
Record t := mk {
  batch : Batch.t;
  digest : N;
}.
Definition split (s : t) : Batch.t * N := (batch s, digest s).
End SealedBatch.

Module BatchOps.
Section batch.
Context `{BatchHash}.

Definition digest (b : Batch.t) : N :=
  hash_batch (Batch.transactions b, Batch.parent_hash b, Batch.beneficiary b, Batch.timestamp b, Batch.base_fee_per_gas b).

Definition seal (b : Batch.t) (d : N) : SealedBatch.t := SealedBatch.mk b d.
Definition seal_slow (b : Batch.t) : SealedBatch.t := seal b (digest b).

(** [size_of::<Self>()] *)
Definition size (b : Batch.t) : N := size_of_batch.

End batch.
End BatchOps.

Definition max_batch_gas (timestamp : N) : N := 30000000.
Definition max_batch_size (timestamp : N) : N := 1000000.

(** * Validation *)

Inductive BatchValidationError :=
  | InvalidDigest
  | TimestampIsInPast (parent_timestamp timestamp : N)
  | CanonicalChain (block_hash : N)
  | EmptyBatch
  | HeaderMaxGasExceedsGasLimit (total_possible_gas gas_limit : N)
  | CalculateMaxPossibleGas
  | HeaderTransactionBytesExceedsMax (total : N)
  | RecoverTransaction (digest : N).

(** The execution layer: its headers by hash, with their timestamps, its finalized block,
    and the recovery of a transaction from its bytes, with its gas limit. *)
Class ExecutionLayer := {
  chain_header : N -> option N;
  finalized_block : option N;
  recover_raw_transaction : list N -> option N;
}.

Module BatchValidator.
Section validator.
Context `{BatchHash} `{ExecutionLayer}.

(** The timestamp of the parent, of the finalized block if the parent is not executed yet,
    or of the default header. *)
Definition parent_timestamp (b : Batch.t) : N :=
  match chain_header (Batch.parent_hash b) with
  | Some ts => ts
  | None => match finalized_block with Some h => default 0 (chain_header h) | None => 0 end
  end.

Definition validate_against_parent_timestamp (timestamp parent : N) : outcome BatchValidationError unit :=
  if timestamp <=? parent then Err (TimestampIsInPast parent timestamp) else Ok ().

(** [iter.reduce(|total, size| total + size)], which wraps. *)
Definition reduce_sum (l : list N) : option N :=
  match l with
  | [] => None
  | x :: l => Some (foldl (fun total size => wrap64 (total + size)) x l)
  end.

Definition validate_batch_size_bytes (transactions : list (list N)) (timestamp : N) : outcome BatchValidationError unit :=
  total_bytes ← ok_or (reduce_sum ((fun tx => N.of_nat (length tx)) <$> transactions)) EmptyBatch;
  if max_batch_size timestamp <? total_bytes then Err (HeaderTransactionBytesExceedsMax total_bytes) else Ok ().

(** The gas limits of the transactions, recovered in parallel or not. *)
Definition decode_transactions (transactions : list (list N)) (digest : N) : outcome BatchValidationError (list N) :=
  foldM (fun acc tx => gas ← ok_or (recover_raw_transaction tx) (RecoverTransaction digest); Ok (acc ++ [gas])) [] transactions.

Definition validate_batch_gas (gas_limits : list N) (timestamp : N) : outcome BatchValidationError unit :=
  total_possible_gas ← ok_or (reduce_sum gas_limits) EmptyBatch;
  let max_tx_gas := max_batch_gas timestamp in
  if max_tx_gas <? total_possible_gas then Err (HeaderMaxGasExceedsGasLimit total_possible_gas max_tx_gas) else Ok ().

Definition validate_batch (sealed_batch : SealedBatch.t) : outcome BatchValidationError unit :=
  let '(batch, digest) := SealedBatch.split sealed_batch in
  let verified_hash := SealedBatch.digest (BatchOps.seal_slow batch) in
  if negb (digest =? verified_hash) then Err InvalidDigest else
  _ ← validate_against_parent_timestamp (Batch.timestamp batch) (parent_timestamp batch);
  _ ← validate_batch_size_bytes (Batch.transactions batch) (Batch.timestamp batch);
  decoded_txs ← decode_transactions (Batch.transactions batch) digest;
  validate_batch_gas decoded_txs (Batch.timestamp batch).

End validator.
End BatchValidator.

(** * Waiting for a quorum *)

Inductive QuorumWaiterError := QuorumRejected | AntiQuorum | QuorumTimeout | QuorumNetwork | QuorumRpc.

(** How the report to a peer ends: accepted, rejected, or without an answer. *)
Inductive reply := Ack | Rejected | Network.

Module QuorumWaiter.

(** The counters of the loop, all 64 bits wide. *)
Record t := mk {
  total_stake : N;
  available_stake : N;
  rejected_stake : N;
}.

(** The loop over the replies, with their stake, in the order they arrive; [waiting] is the
    number of peers still to reply.  When the list ends first, the time is up. *)
Fixpoint wait_loop (threshold max_rejected_stake : N) (waiting : nat) (s : t) (replies : list (reply * N))
    : outcome QuorumWaiterError unit :=
  match waiting, replies with
  | O, _ => Err AntiQuorum
  | S _, [] => Err QuorumTimeout
  | S waiting, (r, stake) :: replies =>
      let check s :=
        if max_rejected_stake <? rejected_stake s then Err QuorumRejected
        else if wrap64 (total_stake s + available_stake s) <? threshold then Err AntiQuorum
        else wait_loop threshold max_rejected_stake waiting s replies in
      match r with
      | Ack =>
          let s := mk (wrap64 (total_stake s + stake)) (available_stake s) (rejected_stake s) in
          if threshold <=? total_stake s then Ok () else check s
      | Rejected => check (mk (total_stake s) (wrapping_sub64 (available_stake s) stake) (wrapping_sub64 (rejected_stake s) stake))
      | Network => check (mk (total_stake s) (wrapping_sub64 (available_stake s) stake) (rejected_stake s))
      end
  end.

(** The peers are the workers with this id of the other authorities; [replies] gives the
    position of the peer and its reply. *)
Definition verify_batch (committee : Committee.t) (worker_cache : WorkerCache.t) (authority : Authority.t) (id : WorkerId)
    (replies : list (nat * reply)) : outcome QuorumWaiterError unit :=
  let peers := WorkerCache.others_workers_by_id worker_cache (Authority.protocol_key authority) id in
  let stakes := (fun x => Committee.voting_power committee x.1) <$> peers in
  let available_stake := foldl (fun a s => wrap64 (a + s)) 0 stakes in
  let threshold := Committee.quorum_threshold committee in
  let max_rejected_stake := wrapping_sub64 available_stake threshold in
  wait_loop threshold max_rejected_stake (length peers) (mk (Authority.voting_power authority) available_stake 0)
    ((fun x => (x.2, default 0 (stakes !! x.1))) <$> replies).

End QuorumWaiter.

(** * The worker *)

Inductive BlockSealError := SealQuorumRejected | SealAntiQuorum | SealTimeout | SealFailedQuorum | SealFatalDBFailure.

Inductive WorkerNetworkError :=
  | WorkerDecode
  | BatchValidationFailed (e : BatchValidationError)
  | WorkerInternal
  | WorkerTimeout
  | WorkerNetworkFailure.

Inductive WorkerGossip := GossipBatch (digest : N).

Inductive WorkerResponse :=
  | ReportBatchResponse
  | RequestBatchesResponse (batches : list Batch.t)
  | WorkerErrorResponse.

Module Worker.

(** The batches stored, the digests published, the batches of peers recorded with the
    primary and the own batches reported to it. *)
Record t := mk {
  batches : gmap N Batch.t;
  published : list N;
  payload : gmap (N * WorkerId) N;
  own_batches : list (N * WorkerId * TimestampSec);
}.

Section worker.
Context `{BatchHash} `{ExecutionLayer} (id : WorkerId).

Definition store_batch (bs : gmap N Batch.t) (digest : N) (b : Batch.t) : gmap N Batch.t :=
  MemTable.insert bs digest (Batch.decoded b).

Definition set_batches (w : t) (bs : gmap N Batch.t) : t := mk bs (published w) (payload w) (own_batches w).

(** [verified] is the outcome of the quorum waiter.  The batch is stored and reported once
    a quorum has it. *)
Definition seal (w : t) (sealed_batch : SealedBatch.t) (verified : outcome QuorumWaiterError unit)
    : t * outcome BlockSealError unit :=
  match verified with
  | Ok () =>
      let '(batch, digest) := SealedBatch.split sealed_batch in
      (mk (store_batch (batches w) digest batch) (published w ++ [digest]) (payload w)
          (own_batches w ++ [(digest, id, Batch.created_at batch)]), Ok ())
  | Err QuorumRejected => (w, Err SealQuorumRejected)
  | Err AntiQuorum => (w, Err SealAntiQuorum)
  | Err QuorumTimeout => (w, Err SealTimeout)
  | Err _ => (w, Err SealFailedQuorum)
  | _ => (w, Err SealFailedQuorum)
  end.

(** ** Requests of peers *)

Definition process_report_batch (w : t) (sealed_batch : SealedBatch.t) (now : TimestampSec) : t * outcome WorkerNetworkError unit :=
  match BatchValidator.validate_batch sealed_batch with
  | Ok _ =>
      let '(batch, digest) := SealedBatch.split sealed_batch in
      (mk (store_batch (batches w) digest (Batch.set_received_at batch now)) (published w)
          (PayloadStore.write_payload (payload w) digest id) (own_batches w), Ok ())
  | Err e => (w, Err (BatchValidationFailed e))
  | Panic => (w, Panic)
  | OutOfFuel => (w, OutOfFuel)
  end.

Definition MAX_REQUEST_BATCHES_RESPONSE_SIZE : N := 6000000.
Definition BATCH_DIGESTS_READ_CHUNK_SIZE : nat := 200.

Fixpoint chunks_loop (fuel : nat) (l : list N) : list (list N) :=
  match fuel, l with
  | O, _ | _, [] => []
  | S fuel, _ => take BATCH_DIGESTS_READ_CHUNK_SIZE l :: chunks_loop fuel (drop BATCH_DIGESTS_READ_CHUNK_SIZE l)
  end.

(** The batches of a chunk until the size is reached; only this loop is left then. *)
Fixpoint take_batches (stored : list Batch.t) (acc : list Batch.t * N) : list Batch.t * N :=
  match stored with
  | [] => acc
  | b :: stored =>
      let batch_size := BatchOps.size b in
      if acc.2 + batch_size <=? MAX_REQUEST_BATCHES_RESPONSE_SIZE then take_batches stored (acc.1 ++ [b], acc.2 + batch_size)
      else acc
  end.

Definition process_request_batches (w : t) (batch_digests : list N) : list Batch.t :=
  (foldl (fun acc chunk => take_batches (omap (fun d => MemTable.get (batches w) d) chunk) acc) ([], 0)
     (chunks_loop (length batch_digests) batch_digests)).1.

(** [answer] is what asking the peers for the batch gives. *)
Definition process_gossip (w : t) (gossip : option WorkerGossip) (answer : N -> option (list Batch.t)) : t * outcome WorkerNetworkError unit :=
  match gossip with
  | None => (w, Err WorkerDecode)
  | Some (GossipBatch batch_hash) =>
      match MemTable.get (batches w) batch_hash with
      | Some _ => (w, Ok ())
      | None =>
          match answer batch_hash with
          | Some (b :: _) => (set_batches w (store_batch (batches w) (BatchOps.digest b) b), Ok ())
          | _ => (w, Ok ())
          end
      end
  end.

(** ** Requests to peers *)

(** A response with a batch that was not asked for is a protocol error. *)
Definition request_batches_from_peer (batch_digests : list N) (response : option WorkerResponse) : option (list Batch.t) :=
  match response with
  | Some (RequestBatchesResponse bs) =>
      if forallb (fun b => bool_decide (BatchOps.digest b ∈ batch_digests)) bs then Some bs else None
  | _ => None
  end.

(** The digest number [i] is asked of the peer number [i mod n]. *)
Definition distribute (n : nat) (digests : list N) : list (list N) :=
  (fun k => omap (fun x => if (x.1 mod n =? k)%nat then Some x.2 else None) (zip (seq 0 (length digests)) digests)) <$> seq 0 n.

Definition rotate_left {A} (l : list A) : list A :=
  match l with [] => [] | x :: l => l ++ [x] end.

Definition accept_batch (requested : list N) (acc : list N * list Batch.t) (b : Batch.t) : list N * list Batch.t :=
  let d := BatchOps.digest b in
  if bool_decide (d ∈ requested) && negb (bool_decide (b ∈ acc.2))
  then (filter (fun d' => d' <> d) acc.1, acc.2 ++ [b]) else acc.

(** The answers of one round, in the order they arrive; the loop ends when nothing remains. *)
Fixpoint accept_answers (requested : list N) (answers : list (option (list Batch.t))) (acc : list N * list Batch.t)
    : (list N * list Batch.t) * bool :=
  match answers with
  | [] => (acc, false)
  | Some bs :: answers =>
      let acc := foldl (accept_batch requested) acc bs in
      match acc.1 with [] => (acc, true) | _ => accept_answers requested answers acc end
  | None :: answers => accept_answers requested answers acc
  end.

(** [ask] is what a peer answers to a request of a round, and [arrive] the order in which
    the answers of a round arrive. *)
Fixpoint request_rounds (ask : nat -> N -> list N -> option WorkerResponse)
    (arrive : list (option (list Batch.t)) -> list (option (list Batch.t))) (requested : list N) (num_peers rounds : nat)
    (peers : list N) (acc : list N * list Batch.t) : list N * list Batch.t :=
  match rounds with
  | O => acc
  | S rounds =>
      let peers := rotate_left peers in
      let asked := filter (fun x => x.2 <> []) (zip peers (distribute num_peers acc.1)) in
      let answers := arrive ((fun x => request_batches_from_peer x.2 (ask rounds x.1 x.2)) <$> asked) in
      let '(acc, fin) := accept_answers requested answers acc in
      if fin : bool then acc else request_rounds ask arrive requested num_peers rounds peers acc
  end.

(** [None] is an error: no peer could be asked, or none had a batch. *)
Definition request_batches (ask : nat -> N -> list N -> option WorkerResponse)
    (arrive : list (option (list Batch.t)) -> list (option (list Batch.t))) (connected_peers : option (list N))
    (requested_digests : list N) : option (list Batch.t) :=
  match connected_peers with
  | None => None
  | Some peers =>
      match requested_digests, peers with
      | [], _ | _, [] => Some []
      | _, _ =>
          let num_peers := length peers in
          match (request_rounds ask arrive requested_digests num_peers num_peers peers (requested_digests, [])).2 with
          | [] => None
          | all_batches => Some all_batches
          end
      end
  end.

(** ** Fetching batches *)

Definition fetch_local (bs : gmap N Batch.t) (digests : gset N) : gmap N Batch.t :=
  collect_map (omap (fun d => b ← bs !! d; Some (d, b)) (elements digests)).

Definition safe_request_batches (response : list Batch.t) : gmap N Batch.t :=
  collect_map ((fun b => (BatchOps.digest b, b)) <$> response).

(** The loop of [fetch]: the batches stored, those still missing and those fetched;
    [responses] are the answers of the peers, [None] for an error. *)
Fixpoint fetch_loop (now : TimestampSec) (bs : gmap N Batch.t) (remaining : gset N) (fetched : gmap N Batch.t)
    (responses : list (option (list Batch.t))) : gmap N Batch.t * outcome unit (gmap N Batch.t) :=
  if bool_decide (remaining = ∅) then (bs, Ok fetched) else
  let fetched := fetch_local bs remaining ∪ fetched in
  let remaining := filter (fun d => fetched !! d = None) remaining in
  if bool_decide (remaining = ∅) then (bs, Ok fetched) else
  match responses with
  | [] => (bs, OutOfFuel)
  | None :: responses => fetch_loop now bs remaining fetched responses
  | Some response :: responses =>
      let new_batches := filter (fun x => x.1 ∈ remaining) (safe_request_batches response) in
      let updated := (fun b => Batch.set_received_at b now) <$> new_batches in
      fetch_loop now ((Batch.decoded <$> updated) ∪ bs) (remaining ∖ dom updated) (updated ∪ fetched) responses
  end.

Definition fetch (now : TimestampSec) (bs : gmap N Batch.t) (digests : gset N) (responses : list (option (list Batch.t)))
    : gmap N Batch.t * outcome unit (gmap N Batch.t) := fetch_loop now bs digests ∅ responses.

(** ** Messages of the primary *)

Fixpoint store_synced (is_certified : bool) (now : TimestampSec) (bs : gmap N Batch.t) (missing : gset N) (response : list SealedBatch.t)
    : gmap N Batch.t * outcome unit (gset N) :=
  match response with
  | [] => (bs, Ok missing)
  | sealed_batch :: response =>
      if negb is_certified && negb (is_ok (BatchValidator.validate_batch sealed_batch)) then (bs, Err ()) else
      let '(batch, digest) := SealedBatch.split sealed_batch in
      if bool_decide (digest ∈ missing) then
        store_synced is_certified now (store_batch bs digest (Batch.set_received_at batch now)) (missing ∖ {[digest]}) response
      else (bs, Err ())
  end.

(** [answer] is what asking the peers gives, [None] on an error or a timeout. *)
Definition synchronize (w : t) (digests : list N) (is_certified : bool) (now : TimestampSec) (answer : gset N -> option (list Batch.t))
    : t * outcome unit unit :=
  let missing : gset N := list_to_set (filter (fun d => MemTable.get (batches w) d = None) digests) in
  if bool_decide (missing = ∅) then (w, Ok ()) else
  match answer missing with
  | None => (w, Err ())
  | Some response =>
      match store_synced is_certified now (batches w) missing (BatchOps.seal_slow <$> response) with
      | (bs, Ok missing) => (set_batches w bs, if bool_decide (missing = ∅) then Ok () else Err ())
      | (bs, r) => (set_batches w bs, Err ())
      end
  end.

End worker.
End Worker.

(** * Waiting for a quorum: properties *)

Section quorum.
Import QuorumWaiter.

Definition is_ack (r : reply) : bool := match r with Ack => true | _ => false end.

(** The stake of the replies that accept. *)
Definition acked (rs : list (reply * N)) : N := sumN (snd <$> filter (fun x => is_ack x.1 = true) rs).
Definition replied (rs : list (reply * N)) : N := sumN rs.*2.

Lemma acked_cons r stake rs : acked ((r, stake) :: rs) = (if is_ack r then stake else 0) + acked rs.
Proof. unfold acked. by destruct r. Qed.

Lemma replied_cons r stake rs : replied ((r, stake) :: rs) = stake + replied rs.
Proof. done. Qed.

Lemma acked_le rs : acked rs <= replied rs.
Proof. induction rs as [|[r stake] rs IH]; [done|]. rewrite acked_cons, replied_cons. destruct (is_ack r); lia. Qed.

Lemma wait_loop_sound threshold mx n s rs :
  total_stake s + replied rs < u64_modulus -> wait_loop threshold mx n s rs = Ok () -> threshold <= total_stake s + acked rs.
Proof.
  revert n s. induction rs as [|[r stake] rs IH]; intros [|n] s Hb; cbn [wait_loop]; try done.
  rewrite acked_cons. rewrite replied_cons in Hb. pose proof (acked_le rs).
  destruct r; cbn [is_ack total_stake rejected_stake available_stake].
  - rewrite wrap64_small by lia. destruct (N.leb_spec threshold (total_stake s + stake)) as [|Hlt]; [lia|].
    destruct (_ <? _); [done|]. destruct (_ <? _); [done|]. intros Hw%IH; cbn [total_stake] in *; lia.
  - destruct (_ <? _); [done|]. destruct (_ <? _); [done|]. intros Hw%IH; cbn [total_stake] in *; lia.
  - destruct (_ <? _); [done|]. destruct (_ <? _); [done|]. intros Hw%IH; cbn [total_stake] in *; lia.
Qed.

Lemma wait_loop_complete threshold mx n s rs :
  Forall (fun x => x.1 <> Rejected) rs -> (length rs <= n)%nat -> rejected_stake s = 0 -> replied rs <= available_stake s ->
  total_stake s + available_stake s + replied rs < u64_modulus -> total_stake s < threshold ->
  threshold <= total_stake s + acked rs -> wait_loop threshold mx n s rs = Ok ().
Proof.
  revert n s. induction rs as [|[r stake] rs IH]; intros [|n] s Hr Hn Hz Ha Hb Hlt Hq; simpl in Hn; try lia.
  { unfold acked in Hq. simpl in Hq. lia. }
  { unfold acked in Hq. simpl in Hq. lia. }
  apply Forall_cons in Hr as [Hrej Hr]. rewrite acked_cons in Hq. rewrite replied_cons in Ha, Hb.
  pose proof (acked_le rs) as Hle. cbn [wait_loop]. destruct r; [|done|]; cbn [is_ack] in Hq; cbn [total_stake rejected_stake available_stake].
  - rewrite wrap64_small by lia. destruct (N.leb_spec threshold (total_stake s + stake)); [done|].
    rewrite Hz. destruct (N.ltb_spec mx 0); [lia|]. rewrite wrap64_small by lia.
    destruct (N.ltb_spec (total_stake s + stake + available_stake s) threshold); [lia|].
    apply IH; cbn [total_stake rejected_stake available_stake]; try done; lia.
  - rewrite Hz. destruct (N.ltb_spec mx 0); [lia|].
    assert (wrapping_sub64 (available_stake s) stake = available_stake s - stake) as -> by (unfold wrapping_sub64; case_match; lia).
    rewrite wrap64_small by lia. destruct (N.ltb_spec (total_stake s + (available_stake s - stake)) threshold); [lia|].
    apply IH; cbn [total_stake rejected_stake available_stake]; try done; lia.
Qed.

(** The stake of a peer's reply, and of those that accepted. *)
Definition peer_stakes (committee : Committee.t) (wc : WorkerCache.t) (authority : Authority.t) (id : WorkerId) : list N :=
  (fun x => Committee.voting_power committee x.1) <$> WorkerCache.others_workers_by_id wc (Authority.protocol_key authority) id.

Definition accepted_stake (stakes : list N) (replies : list (nat * reply)) : N :=
  sumN ((fun x => default 0 (stakes !! x.1)) <$> filter (fun x => is_ack x.2 = true) replies).

Lemma acked_accepted stakes replies :
  acked ((fun x => (x.2, default 0 (stakes !! x.1))) <$> replies) = accepted_stake stakes replies.
Proof.
  unfold accepted_stake. induction replies as [|[i r] replies IH]; [done|]. rewrite fmap_cons, acked_cons, IH. cbn [fst snd].
  destruct r; [rewrite filter_cons_True by done; done|rewrite filter_cons_False by done; done|rewrite filter_cons_False by done; done].
Qed.

Lemma sum_by_index stakes (idx : list nat) :
  NoDup idx -> Forall (fun i => (i < length stakes)%nat) idx ->
  sumN ((fun i => default 0 (stakes !! i)) <$> idx) <= sumN stakes.
Proof.
  intros Hnd Hlt. rewrite <-(weigh_list_to_set (fun i => default 0 (stakes !! i))) by done.
  replace (sumN stakes) with (sumN ((fun i => default 0 (stakes !! i)) <$> seq 0 (length stakes))).
  - rewrite <-weigh_list_to_set by apply NoDup_seq. apply weigh_mono. intros i. rewrite !elem_of_list_to_set, elem_of_seq.
    rewrite Forall_forall in Hlt. intros ?%Hlt. lia.
  - f_equal. apply list_eq. intros i. rewrite list_lookup_fmap. destruct (decide (i < length stakes)%nat) as [Hi|Hi].
    + rewrite lookup_seq_lt by done. simpl. by destruct (lookup_lt_is_Some_2 stakes i Hi) as [x ->].
    + rewrite lookup_seq_ge by lia. simpl. symmetry. apply lookup_ge_None. lia.
Qed.

Lemma fold_sum stakes a : a + sumN stakes < u64_modulus -> foldl (fun a s => wrap64 (a + s)) a stakes = a + sumN stakes.
Proof.
  revert a. induction stakes as [|s stakes IH]; intros a Hb; cbn [foldl]; simpl in *; [lia|].
  rewrite wrap64_small by lia. rewrite IH; lia.
Qed.

Lemma verify_batch_bounds committee wc authority id replies :
  let stakes := peer_stakes committee wc authority id in
  Authority.voting_power authority + sumN stakes < 2 ^ 62 ->
  NoDup replies.*1 -> Forall (fun x => (x.1 < length stakes)%nat) replies ->
  foldl (fun a s => wrap64 (a + s)) 0 stakes = sumN stakes /\
  replied ((fun x => (x.2, default 0 (stakes !! x.1))) <$> replies) <= sumN stakes /\ (length replies <= length stakes)%nat.
Proof.
  intros stakes Hb Hnd Hlt. assert (u64_modulus = 4 * 2 ^ 62) by done. split_and!.
  - rewrite fold_sum by lia. lia.
  - unfold replied. rewrite <-list_fmap_compose. unfold compose. cbn [snd].
    replace ((fun x : nat * reply => default 0 (stakes !! x.1)) <$> replies) with ((fun i => default 0 (stakes !! i)) <$> replies.*1)
      by (by rewrite <-list_fmap_compose).
    apply sum_by_index; [done|]. by rewrite Forall_fmap.
  - rewrite <-(length_fmap fst replies), <-(length_seq (length stakes) 0). apply submseteq_length, NoDup_submseteq; [done|].
    intros i (x & -> & Hx)%list_elem_of_fmap. rewrite Forall_forall in Hlt. apply elem_of_seq. specialize (Hlt x Hx). lia.
Qed.

Lemma verify_batch_sound committee wc authority id replies :
  let stakes := peer_stakes committee wc authority id in
  Authority.voting_power authority + sumN stakes < 2 ^ 62 ->
  NoDup replies.*1 -> Forall (fun x => (x.1 < length stakes)%nat) replies ->
  verify_batch committee wc authority id replies = Ok () ->
  Committee.reached_quorum committee (Authority.voting_power authority + accepted_stake stakes replies) = true.
Proof.
  intros stakes Hb Hnd Hlt. destruct (verify_batch_bounds committee wc authority id replies Hb Hnd Hlt) as (Hsum & Hrep & Hlen).
  fold stakes in Hsum, Hrep, Hlen. assert (u64_modulus = 4 * 2 ^ 62) by done.
  unfold Committee.reached_quorum. rewrite <-acked_accepted, N.leb_le. unfold verify_batch. fold (peer_stakes committee wc authority id). fold stakes.
  rewrite Hsum. intros Hw. apply wait_loop_sound in Hw; cbn [total_stake] in *; lia.
Qed.

(** A worker's batch is taken to have reached a quorum only when the stake of this
    authority and of the peers that accepted it reaches the quorum threshold; and it always
    is when that stake is reached and no peer rejects the batch, whatever peers fail to
    answer, in any order of the replies. *)
Theorem quorum_waiter_correct committee wc authority id replies :
  let stakes := peer_stakes committee wc authority id in
  let stake := Authority.voting_power authority + accepted_stake stakes replies in
  Authority.voting_power authority + sumN stakes < 2 ^ 62 ->
  Authority.voting_power authority < Committee.quorum_threshold committee ->
  NoDup replies.*1 -> Forall (fun x => (x.1 < length stakes)%nat) replies ->
  (verify_batch committee wc authority id replies = Ok () -> Committee.reached_quorum committee stake = true) /\
  (Forall (fun x => x.2 <> Rejected) replies -> Committee.reached_quorum committee stake = true ->
   verify_batch committee wc authority id replies = Ok ()).
Proof.
  intros stakes stake Hb Hown Hnd Hlt. split; [by apply verify_batch_sound|].
  destruct (verify_batch_bounds committee wc authority id replies Hb Hnd Hlt) as (Hsum & Hrep & Hlen).
  fold stakes in Hsum, Hrep, Hlen. assert (u64_modulus = 4 * 2 ^ 62) by done.
  unfold stake, Committee.reached_quorum. rewrite <-acked_accepted, N.leb_le. unfold verify_batch. fold (peer_stakes committee wc authority id). fold stakes.
  rewrite Hsum. intros Hr Hq. apply wait_loop_complete; cbn [total_stake available_stake rejected_stake]; try done; try lia.
  - by rewrite Forall_fmap.
  - rewrite length_fmap. unfold stakes, peer_stakes in Hlen. by rewrite length_fmap in Hlen.
Qed.

(** The stake of a rejection is subtracted from a counter that starts at zero: the counter
    wraps around, so a single rejection ends the wait, however much stake accepts. *)
Lemma one_rejection_is_final committee wc authority id i replies :
  let stakes := peer_stakes committee wc authority id in
  Authority.voting_power authority + sumN stakes < 2 ^ 62 ->
  Committee.quorum_threshold committee <= sumN stakes ->
  0 < default 0 (stakes !! i) ->
  verify_batch committee wc authority id ((i, Rejected) :: replies) = Err QuorumRejected.
Proof.
  intros stakes Hb Hthr Hpos. assert (u64_modulus = 4 * 2 ^ 62) by done. unfold verify_batch.
  fold (peer_stakes committee wc authority id). fold stakes. rewrite fold_sum by lia. rewrite fmap_cons. cbn [fst snd].
  assert (i < length stakes)%nat as Hi.
  { destruct (decide (i < length stakes)%nat); [done|]. rewrite lookup_ge_None_2 in Hpos by lia. simpl in Hpos. lia. }
  assert (default 0 (stakes !! i) <= sumN stakes) as Hle.
  { pose proof (sum_by_index stakes [i] ltac:(apply NoDup_singleton) ltac:(by constructor)) as Hs. simpl in Hs. lia. }
  destruct (length (WorkerCache.others_workers_by_id wc (Authority.protocol_key authority) id)) as [|n] eqn:Hn.
  { unfold stakes, peer_stakes in Hi. rewrite length_fmap, Hn in Hi. lia. }
  cbn [wait_loop total_stake available_stake rejected_stake]. unfold wrapping_sub64.
  destruct (N.leb_spec (Committee.quorum_threshold committee) (0 + sumN stakes)); [|lia].
  destruct (N.leb_spec (default 0 (stakes !! i)) 0); [lia|].
  destruct (N.ltb_spec (0 + sumN stakes - Committee.quorum_threshold committee) (0 + u64_modulus - default 0 (stakes !! i))); [done|lia].
Qed.

End quorum.

(** ** The properties on the network of four authorities *)

Definition worker_info (i : N) : WorkerInfo.t := WorkerInfo.mk i "tx" "addr".

Definition demo_worker_cache : WorkerCache.t :=
  WorkerCache.mk 0 (list_to_map ((fun i => (100 + i, {[0 := worker_info i]})) <$> [1; 2; 3; 4])).

(** A peer does not answer, and two accept. *)
Definition demo_replies : list (nat * reply) := [(1%nat, Network); (0%nat, Ack); (2%nat, Ack)].

Lemma quorum_waiter_correct_witness :
  QuorumWaiter.verify_batch demo_committee demo_worker_cache (demo_authority 1) 0 demo_replies = Ok ().
Proof.
  pose proof (quorum_waiter_correct demo_committee demo_worker_cache (demo_authority 1) 0 demo_replies) as Hq. cbv zeta in Hq.
  apply Hq; try (apply (bool_decide_unpack _); by vm_compute); try done.
  repeat constructor; done.
Defined.
