(* ===== verification/WorkerSafety.v ===== *)
(** What the workers guarantee: which batches are valid, that every table of batches is
    addressed by content, and that the batches a header names become available. *)

From S2P Require Import Prelude Storage Committee Certificate CertStore Demo Worker.

(** * Validation *)

Section validation.
Context `{BatchHash} `{ExecutionLayer}.
Import BatchValidator.

(** The gas limits that decoding a batch gives. *)
Definition decodes (b : Batch.t) (gas : list N) : Prop :=
  Forall2 (fun tx g => recover_raw_transaction tx = Some g) (Batch.transactions b) gas.

Definition transaction_bytes (b : Batch.t) : N := sumN ((fun tx => N.of_nat (length tx)) <$> Batch.transactions b).

(** What a peer's batch must satisfy. *)
Record valid_batch (s : SealedBatch.t) : Prop := {
  valid_digest : SealedBatch.digest s = BatchOps.digest (SealedBatch.batch s);
  valid_timestamp : parent_timestamp (SealedBatch.batch s) < Batch.timestamp (SealedBatch.batch s);
  valid_nonempty : Batch.transactions (SealedBatch.batch s) <> [];
  valid_bytes : transaction_bytes (SealedBatch.batch s) <= max_batch_size (Batch.timestamp (SealedBatch.batch s));
  valid_gas : exists gas, decodes (SealedBatch.batch s) gas /\ sumN gas <= max_batch_gas (Batch.timestamp (SealedBatch.batch s));
}.

Lemma reduce_sum_spec l : sumN l < u64_modulus -> reduce_sum l = match l with [] => None | _ => Some (sumN l) end.
Proof. destruct l as [|x l]; [done|]. intros Hb. cbn [reduce_sum]. f_equal. rewrite fold_sum by done. done. Qed.

Lemma decode_transactions_spec txs digest acc gas :
  foldM (fun acc tx => g ← ok_or (recover_raw_transaction tx) (RecoverTransaction digest); Ok (acc ++ [g])) acc txs = Ok gas <->
  exists gs, gas = acc ++ gs /\ Forall2 (fun tx g => recover_raw_transaction tx = Some g) txs gs.
Proof.
  revert acc. induction txs as [|tx txs IH]; intros acc; cbn [foldM].
  - split; [intros [= ->]; exists []; by rewrite app_nil_r|]. intros (gs & -> & ->%Forall2_nil_inv_l). by rewrite app_nil_r.
  - destruct (recover_raw_transaction tx) as [g|] eqn:Hg; simpl.
    + rewrite IH. split.
      * intros (gs & -> & Hgs). exists (g :: gs). rewrite <-app_assoc. split; [done|]. by constructor.
      * intros (gs & -> & (g' & gs' & Hg' & Hgs & ->)%Forall2_cons_inv_l). exists gs'. rewrite <-app_assoc. split; [|done].
        by simplify_eq.
    + split; [done|]. intros (gs & -> & (g' & gs' & Hg' & _)%Forall2_cons_inv_l). congruence.
Qed.

Lemma decodes_unique b gas gas' : decodes b gas -> decodes b gas' -> gas = gas'.
Proof.
  unfold decodes. intros Hg. revert gas'. induction Hg as [|tx g txs gas Hg Hgs IH]; intros gas'.
  - by intros ->%Forall2_nil_inv_l.
  - intros (g' & gs' & Hg' & Hgs' & ->)%Forall2_cons_inv_l. rewrite (IH _ Hgs'). congruence.
Qed.

Lemma size_bytes_spec txs ts :
  sumN ((fun tx : list N => N.of_nat (length tx)) <$> txs) < u64_modulus ->
  validate_batch_size_bytes txs ts = Ok () <->
  txs <> [] /\ sumN ((fun tx : list N => N.of_nat (length tx)) <$> txs) <= max_batch_size ts.
Proof.
  intros Hb. unfold validate_batch_size_bytes. rewrite reduce_sum_spec by done. destruct txs as [|tx txs]; [split; [done|by intros [? _]]|].
  set (l := fmap _ (tx :: txs)). replace (match l with [] => None | _ => Some (sumN l) end) with (Some (sumN l)) by done.
  cbn [ok_or mbind outcome_bind]. destruct (N.ltb_spec (max_batch_size ts) (sumN l)).
  - split; [done|]. intros [_ ?]. lia.
  - split; [|done]. intros _. by split.
Qed.

Lemma batch_gas_spec gas ts :
  sumN gas < u64_modulus -> gas <> [] -> validate_batch_gas gas ts = Ok () <-> sumN gas <= max_batch_gas ts.
Proof.
  intros Hb Hne. unfold validate_batch_gas. rewrite reduce_sum_spec by done. destruct gas as [|g gas]; [done|].
  cbn [ok_or mbind outcome_bind]. destruct (N.ltb_spec (max_batch_gas ts) (sumN (g :: gas))); [split; [done|lia]|done].
Qed.

Lemma parent_timestamp_spec ts parent : validate_against_parent_timestamp ts parent = Ok () <-> parent < ts.
Proof. unfold validate_against_parent_timestamp. destruct (N.leb_spec ts parent); [split; [done|lia]|done]. Qed.

(** Validation accepts exactly the batches whose digest is that of their content, that
    are later than their parent, that are not empty, whose transactions all decode and that
    respect the limits on bytes and on gas, as long as the sums of the sizes and of the gas
    limits fit in 64 bits. *)
Theorem validate_batch_correct s :
  transaction_bytes (SealedBatch.batch s) < u64_modulus ->
  (forall gas, decodes (SealedBatch.batch s) gas -> sumN gas < u64_modulus) ->
  validate_batch s = Ok () <-> valid_batch s.
Proof.
  destruct s as [b d]. intros Hbytes Hgas. cbn [SealedBatch.batch] in *. unfold validate_batch.
  cbn [SealedBatch.split SealedBatch.batch SealedBatch.digest BatchOps.seal_slow BatchOps.seal]. split.
  - destruct (N.eqb_spec d (BatchOps.digest b)) as [Hd|]; [|done]. cbn [negb].
    intros ([] & Ht%parent_timestamp_spec & ([] & [Hne Hs]%size_bytes_spec & (gas & Hdec & Hg)%bind_Ok)%bind_Ok)%bind_Ok; [|done].
    apply decode_transactions_spec in Hdec as (gs & -> & Hdec). simpl in Hg. split; try done. exists gs. split; [done|].
    apply batch_gas_spec in Hg; [done|by apply Hgas|]. intros ->. by apply Forall2_nil_inv_r in Hdec.
  - intros [Hd Ht Hne Hs (gas & Hdec & Hg)]. cbn [SealedBatch.batch SealedBatch.digest] in *. subst d. rewrite N.eqb_refl. cbn [negb].
    apply bind_Ok. exists (). split; [by apply parent_timestamp_spec|]. apply bind_Ok. exists (). split; [by apply size_bytes_spec|].
    apply bind_Ok. exists gas. split; [apply decode_transactions_spec; by exists gas|]. apply batch_gas_spec; [by apply Hgas| |done].
    intros ->. by apply Forall2_nil_inv_r in Hdec.
Qed.

End validation.

(** * Tables addressed by content *)

Section content.
Context `{BatchHash} `{ExecutionLayer}.
Import Worker.

(** Each batch is found under the digest of its content, without the time it was received. *)
Definition content (bs : gmap N Batch.t) : Prop :=
  map_Forall (fun d b => BatchOps.digest b = d /\ Batch.received_at b = None) bs.

Lemma digest_decoded b : BatchOps.digest (Batch.decoded b) = BatchOps.digest b.
Proof. done. Qed.

Lemma digest_received b now : BatchOps.digest (Batch.set_received_at b now) = BatchOps.digest b.
Proof. done. Qed.

Lemma content_store bs d b : content bs -> BatchOps.digest b = d -> content (store_batch bs d b).
Proof. intros Hc Hd. apply map_Forall_insert_2; [by split|done]. Qed.

Lemma content_union bs bs' : content bs -> content bs' -> content (bs ∪ bs').
Proof. apply map_Forall_union_2. Qed.

(** ** Fetching *)

Lemma fetch_local_spec bs (ds : gset N) d : fetch_local bs ds !! d = (if bool_decide (d ∈ ds) then bs !! d else None).
Proof.
  apply option_eq. intros b. unfold fetch_local. rewrite collect_map_lookup.
  - rewrite list_elem_of_omap. split.
    + intros (d' & Hd' & Hb). destruct (bs !! d') as [b'|] eqn:Hl; simpl in Hb; simplify_eq. rewrite elem_of_elements in Hd'. by rewrite bool_decide_true.
    + case_bool_decide as Hd; [|done]. intros Hl. exists d. rewrite elem_of_elements. by rewrite Hl.
  - assert ((omap (M := list) (fun d => b ← bs !! d; Some (d, b)) (elements ds)).*1 = filter (fun d => is_Some (bs !! d)) (elements ds)) as ->.
    { induction (elements ds) as [|x l IH]; [done|]. cbn [omap list_omap]. rewrite filter_cons. destruct (bs !! x) as [b'|] eqn:Hx; simpl; [by f_equal|done]. }
    apply NoDup_filter, NoDup_elements.
Qed.

Lemma safe_request_content response d b : safe_request_batches response !! d = Some b -> BatchOps.digest b = d /\ b ∈ response.
Proof.
  unfold safe_request_batches. intros Hin%collect_map_elem. apply list_elem_of_fmap in Hin as (b' & [= -> ->] & Hin). done.
Qed.

Lemma safe_request_dom response : dom (safe_request_batches response) = list_to_set (C := gset N) (BatchOps.digest <$> response).
Proof. unfold safe_request_batches. rewrite dom_collect_map, <-list_fmap_compose. done. Qed.

(** What is known of the batches fetched so far: they are stored, up to the time received. *)
Definition fetch_inv (bs : gmap N Batch.t) (digests remaining : gset N) (fetched : gmap N Batch.t) : Prop :=
  content bs /\ map_Forall (fun d b => BatchOps.digest b = d /\ bs !! d = Some (Batch.decoded b)) fetched /\
  remaining ∪ dom fetched = digests.

Lemma decoded_content bs d b : content bs -> bs !! d = Some b -> Batch.decoded b = b.
Proof. intros Hc [_ Hr]%Hc. destruct b. unfold Batch.decoded. simpl in *. by subst. Qed.

Lemma fetch_inv_local bs digests remaining fetched :
  fetch_inv bs digests remaining fetched ->
  let fetched' := fetch_local bs remaining ∪ fetched in
  fetch_inv bs digests (filter (fun d => fetched' !! d = None) remaining) fetched'.
Proof.
  intros (Hc & Hf & Hd) fetched'. unfold fetch_inv. split_and!; [done| |].
  - apply map_Forall_union_2; [|done]. intros d b. rewrite fetch_local_spec. case_bool_decide; [|done]. intros Hb.
    split; [by apply (Hc d b Hb)|]. by rewrite (decoded_content bs d b).
  - rewrite <-Hd. unfold fetched'. rewrite dom_union_L. apply set_eq. intros d. rewrite !elem_of_union, elem_of_filter, !elem_of_dom.
    rewrite lookup_union_None, fetch_local_spec. destruct (decide (d ∈ remaining)) as [Hr|Hr].
    + rewrite bool_decide_true by done. destruct (bs !! d) as [b|], (fetched !! d) as [b'|]; naive_solver.
    + rewrite bool_decide_false by done. split; [naive_solver|]. intros [?|?]; [done|by right; right].
Qed.

Lemma fetch_inv_remote now bs digests remaining fetched response :
  fetch_inv bs digests remaining fetched ->
  let updated := (fun b => Batch.set_received_at b now) <$> filter (fun x => x.1 ∈ remaining) (safe_request_batches response) in
  fetch_inv ((Batch.decoded <$> updated) ∪ bs) digests (remaining ∖ dom updated) (updated ∪ fetched).
Proof.
  intros (Hc & Hf & Hd) updated.
  assert (forall d b, updated !! d = Some b -> BatchOps.digest b = d /\ d ∈ remaining) as Hu.
  { intros d b. unfold updated. rewrite lookup_fmap_Some. intros (b0 & <- & [Hb Hr]%map_lookup_filter_Some). split; [|done].
    by destruct (safe_request_content _ _ _ Hb). }
  unfold fetch_inv. split_and!.
  - apply content_union; [|done]. intros d b. rewrite lookup_fmap_Some. intros (b0 & <- & [Hb _]%Hu). by rewrite digest_decoded.
  - intros d b. rewrite lookup_union_Some_raw. intros [Hb|[Hn Hb]].
    + split; [by apply (Hu d b)|]. apply lookup_union_Some_l. by rewrite lookup_fmap, Hb.
    + destruct (Hf d b Hb) as [Hdig Hbs]. split; [done|]. rewrite lookup_union_r; [done|]. by rewrite lookup_fmap, Hn.
  - rewrite <-Hd, dom_union_L. apply set_eq. intros d. rewrite !elem_of_union, elem_of_difference.
    destruct (decide (d ∈ dom updated)) as [Hin|]; [|tauto]. split; [|tauto]. intros _. left.
    apply elem_of_dom in Hin as [b Hb]. by apply (Hu d b).
Qed.

Lemma fetch_loop_correct now bs digests remaining fetched responses :
  fetch_inv bs digests remaining fetched ->
  let '(bs', r) := fetch_loop now bs remaining fetched responses in
  content bs' /\ (forall m, r = Ok m -> fetch_inv bs' digests ∅ m) /\ (is_ok r = true \/ r = OutOfFuel) /\ bs ⊆ bs'.
Proof.
  revert bs remaining fetched. induction responses as [|response responses IH]; intros bs remaining fetched Hinv; cbn [fetch_loop].
  all: case_bool_decide as Hr; [subst; split_and!; [apply Hinv|by intros m [= <-]|by left|done]|].
  all: pose proof (fetch_inv_local bs digests remaining fetched Hinv) as Hloc; cbv zeta in Hloc.
  all: case_bool_decide as Hr'; [rewrite Hr' in Hloc; split_and!; [apply Hinv|by intros m [= <-]|by left|done]|].
  - split_and!; [apply Hinv|done|by right|done].
  - destruct response as [response|]; [|by apply IH].
    pose proof (fetch_inv_remote now _ _ _ _ response Hloc) as Hrem. cbv zeta in Hrem.
    specialize (IH _ _ _ Hrem). destruct (fetch_loop _ _ _ _ responses) as [bs' r]. destruct IH as (? & ? & ? & Hsub). split_and!; try done.
    etransitivity; [|exact Hsub]. apply map_union_subseteq_r. apply map_disjoint_spec. intros d b b' Hb Hb'.
    rewrite lookup_fmap_Some in Hb. destruct Hb as (b1 & _ & Hb). rewrite lookup_fmap_Some in Hb. destruct Hb as (b2 & _ & [_ Hin]%map_lookup_filter_Some).
    cbn [fst] in Hin. apply elem_of_filter in Hin as [Hn Hin]. apply lookup_union_None in Hn as [Hn _]. rewrite fetch_local_spec, bool_decide_true in Hn by done. congruence.
Qed.

(** Fetching ends once every digest is stored or in a response. *)
Lemma fetch_loop_ends now bs remaining fetched responses :
  remaining ⊆ dom bs ∪ list_to_set (BatchOps.digest <$> concat (omap id responses)) ->
  is_ok (fetch_loop now bs remaining fetched responses).2 = true.
Proof.
  revert bs remaining fetched. induction responses as [|response responses IH]; intros bs remaining fetched Hcov; cbn [fetch_loop].
  all: case_bool_decide as Hr; [done|]; case_bool_decide as Hr'; [done|].
  - exfalso. apply Hr'. apply set_eq. intros d. rewrite elem_of_filter, lookup_union_None, fetch_local_spec. split; [|set_solver].
    intros [[Hn _] Hd]. rewrite bool_decide_true in Hn by done. apply not_elem_of_dom in Hn. set_solver.
  - destruct response as [response|]; apply IH; cbn [omap list_omap id] in Hcov; intros d.
    + intros [Hf Hnu]%elem_of_difference. pose proof Hf as [_ Hd]%elem_of_filter. rewrite dom_union_L, dom_fmap_L.
      assert (d ∉ list_to_set (C := gset N) (BatchOps.digest <$> response)) as Hnr.
      { rewrite <-safe_request_dom. intros [b Hb]%elem_of_dom. apply Hnu. apply elem_of_dom. exists (Batch.set_received_at b now).
        rewrite lookup_fmap_Some. exists b. split; [done|]. apply map_lookup_filter_Some. done. }
      specialize (Hcov d Hd). cbn [concat] in Hcov. rewrite fmap_app, list_to_set_app_L in Hcov. set_solver.
    + intros [_ Hd]%elem_of_filter. by apply Hcov.
Qed.

(** Fetching batches returns exactly the requested digests, each with a batch of that
    digest that is now stored, never removes or changes a stored batch and keeps the table
    addressed by content, whatever the peers answer; and it returns as soon as every digest
    has been stored or sent by some peer. *)
Theorem fetch_correct now bs digests responses :
  content bs ->
  let '(bs', r) := fetch now bs digests responses in
  content bs' /\ bs ⊆ bs' /\
  (forall m, r = Ok m -> dom m = digests /\ map_Forall (fun d b => BatchOps.digest b = d /\ bs' !! d = Some (Batch.decoded b)) m) /\
  (digests ⊆ dom bs ∪ list_to_set (BatchOps.digest <$> concat (omap id responses)) -> is_ok r = true).
Proof.
  intros Hc. assert (fetch_inv bs digests digests ∅) as Hinv.
  { split_and!; [done|apply map_Forall_empty|]. rewrite dom_empty_L. set_solver. }
  pose proof (fetch_loop_correct now bs digests digests ∅ responses Hinv) as Hl.
  pose proof (fetch_loop_ends now bs digests ∅ responses) as He.
  unfold fetch. destruct (fetch_loop now bs digests ∅ responses) as [bs' r]. destruct Hl as (Hc' & Hm & _ & Hsub). split_and!; try done.
  intros m Hr. destruct (Hm m Hr) as (_ & Hf & Hd). split; [|done]. rewrite <-Hd. set_solver.
Qed.

(** ** Synchronizing *)

Lemma store_synced_spec is_certified now bs missing response :
  content bs -> Forall (fun s => SealedBatch.digest s = BatchOps.digest (SealedBatch.batch s)) response ->
  (forall d, d ∈ missing -> bs !! d = None) ->
  let '(bs', r) := store_synced is_certified now bs missing response in
  content bs' /\ bs ⊆ bs' /\ (forall m, r = Ok m -> missing ∖ dom bs' ⊆ m) /\
  (forall d b, bs' !! d = Some b -> bs !! d = None -> d ∈ missing /\
     exists s, s ∈ response /\ SealedBatch.digest s = d /\ b = Batch.decoded (SealedBatch.batch s) /\
       (is_certified = false -> is_ok (BatchValidator.validate_batch s) = true)).
Proof.
  revert bs missing. induction response as [|[b d] response IH]; intros bs missing Hc Hd Hn; cbn [store_synced].
  { split_and!; [done|done|set_solver|]. congruence. }
  apply Forall_cons in Hd as [Hb Hd]. cbn [SealedBatch.split SealedBatch.batch SealedBatch.digest] in *.
  destruct (negb is_certified && _) eqn:Hv; [split_and!; [done|done|done|congruence]|].
  case_bool_decide as Hm; [|split_and!; [done|done|done|congruence]].
  specialize (IH (store_batch bs d (Batch.set_received_at b now)) (missing ∖ {[d]})).
  destruct (store_synced _ _ _ _ response) as [bs' r]. destruct IH as (Hc' & Hsub & Hok & Hnew).
  { by apply content_store. } { done. }
  { intros d' [Hm' Hd']%elem_of_difference. unfold store_batch, MemTable.insert. rewrite lookup_insert_ne by set_solver. by apply Hn. }
  assert (bs' !! d = Some (Batch.decoded b)) as Hbd.
  { eapply lookup_weaken; [|exact Hsub]. apply lookup_insert_eq. }
  split_and!; [done| | |].
  - etransitivity; [|exact Hsub]. apply insert_subseteq. by apply Hn.
  - intros m Hr d' [Hd1 Hd2]%elem_of_difference. apply (Hok m Hr). assert (d' <> d) by (intros ->; apply Hd2, elem_of_dom; eauto). set_solver.
  - intros d' b' Hb' Hnone. destruct (decide (d' = d)) as [->|Hne].
    + split; [done|]. exists (SealedBatch.mk b d). split_and!; [set_solver|done|by rewrite Hbd in Hb'; injection Hb' as <-|]. intros ->. simpl in Hv. by apply negb_false_iff in Hv.
    + destruct (Hnew d' b' Hb') as (Hin & s & Hs & ?); [unfold store_batch, MemTable.insert; by rewrite lookup_insert_ne|].
      split; [set_solver|]. exists s. split; [set_solver|done].
Qed.

Lemma store_synced_ends is_certified now bs missing response :
  NoDup (SealedBatch.digest <$> response) -> missing = list_to_set (SealedBatch.digest <$> response) ->
  Forall (fun s => is_certified = true \/ BatchValidator.validate_batch s = Ok ()) response ->
  (store_synced is_certified now bs missing response).2 = Ok ∅.
Proof.
  revert bs missing. induction response as [|[b d] response IH]; intros bs missing Hnd -> Hv; cbn [store_synced]; [done|].
  apply Forall_cons in Hv as [Hb Hv]. rewrite fmap_cons in Hnd. apply NoDup_cons in Hnd as [Hni Hnd].
  assert (negb is_certified && negb (is_ok (BatchValidator.validate_batch (SealedBatch.mk b d))) = false) as ->
    by (destruct Hb as [-> | ->]; [done|by rewrite andb_false_r]).
  cbn [SealedBatch.split SealedBatch.digest SealedBatch.batch fmap list_fmap list_to_set] in *.
  rewrite bool_decide_true by set_solver. apply IH; [done| |done]. set_solver.
Qed.

(** When synchronizing the batches of a header succeeds, all of them are stored.  In
    any case the table stays addressed by content, no stored batch is removed or changed,
    and a batch is added only if it was asked for, was sent by a peer and, unless its header
    is certified, passed validation. *)
Theorem synchronize_correct w digests is_certified now answer :
  content (batches w) ->
  let '(w', r) := synchronize w digests is_certified now answer in
  content (batches w') /\ batches w ⊆ batches w' /\
  (r = Ok () -> Forall (fun d => is_Some (batches w' !! d)) digests) /\
  (forall d b, batches w' !! d = Some b -> batches w !! d = None ->
     d ∈ digests /\ exists missing response b', answer missing = Some response /\ b' ∈ response /\ b = Batch.decoded b' /\
       (is_certified = false -> is_ok (BatchValidator.validate_batch (BatchOps.seal_slow b')) = true)).
Proof.
  intros Hc. unfold synchronize. set (missing := list_to_set _ : gset N).
  assert (forall d, d ∈ missing <-> d ∈ digests /\ batches w !! d = None) as Hmiss.
  { intros d. unfold missing. rewrite elem_of_list_to_set, list_elem_of_filter. unfold MemTable.get. tauto. }
  case_bool_decide as Hm.
  { split_and!; [done|done| |congruence]. intros _. apply Forall_forall. intros d Hd. apply not_eq_None_Some.
    intros Hn. assert (d ∈ missing) by by apply Hmiss. set_solver. }
  destruct (answer missing) as [response|] eqn:Ha; [|split_and!; [done|done|done|congruence]].
  pose proof (store_synced_spec is_certified now (batches w) missing (BatchOps.seal_slow <$> response) Hc) as Hs.
  destruct (store_synced _ _ _ _ _) as [bs r]. destruct Hs as (Hc' & Hsub & Hok & Hnew).
  { apply Forall_fmap, Forall_true. by intros. } { intros d Hd. by apply Hmiss. }
  assert (forall d b, bs !! d = Some b -> batches w !! d = None -> d ∈ digests /\ exists missing response b', answer missing = Some response /\ b' ∈ response /\ b = Batch.decoded b' /\
       (is_certified = false -> is_ok (BatchValidator.validate_batch (BatchOps.seal_slow b')) = true)) as Hadd.
  { intros d b Hb Hn. destruct (Hnew d b Hb Hn) as (Hd & s & (b' & -> & Hb')%list_elem_of_fmap & _ & -> & Hv). split; [by apply Hmiss|].
    by exists missing, response, b'. }
  destruct r as [m|[]| |]; (split_and!; [done|done| |done]); try done. cbn [set_batches batches]. case_bool_decide as Hme; [|done]. intros _.
  subst m. specialize (Hok ∅ eq_refl). apply Forall_forall. intros d Hd. apply elem_of_dom.
  destruct (decide (d ∈ dom bs)) as [|Hnd]; [done|]. destruct (batches w !! d) as [b|] eqn:Hb.
  - apply elem_of_dom. exists b. by apply (lookup_weaken _ _ _ _ Hb).
  - assert (d ∈ missing) by by apply Hmiss. set_solver.
Qed.

End content.

(** * Availability *)

Section serving.
Context `{BatchHash}.
Import Worker.

Lemma concat_chunks fuel l : (length l <= fuel)%nat -> concat (chunks_loop fuel l) = l.
Proof.
  revert l. induction fuel as [|fuel IH]; intros l Hl; [destruct l; [done|simpl in Hl; lia]|]. destruct l as [|x l]; [done|]. cbn [chunks_loop].
  rewrite concat_cons, IH; [apply take_drop|]. rewrite length_drop. unfold BATCH_DIGESTS_READ_CHUNK_SIZE. simpl in *. lia.
Qed.

Lemma take_batches_all stored acc :
  acc.2 + N.of_nat (length stored) * size_of_batch <= MAX_REQUEST_BATCHES_RESPONSE_SIZE ->
  take_batches stored acc = (acc.1 ++ stored, acc.2 + N.of_nat (length stored) * size_of_batch).
Proof.
  revert acc. induction stored as [|b stored IH]; intros [bs n]; cbn [take_batches fst snd length]; intros Hle.
  - rewrite app_nil_r. f_equal. lia.
  - unfold BatchOps.size. destruct (N.leb_spec (n + size_of_batch) MAX_REQUEST_BATCHES_RESPONSE_SIZE); [|nia].
    rewrite IH; cbn [fst snd]; [|nia]. rewrite <-app_assoc. f_equal. nia.
Qed.

Lemma length_omap_le {A B} (f : A -> option B) (l : list A) : (length (omap f l) <= length l)%nat.
Proof. induction l as [|x l IH]; [done|]. cbn [omap list_omap]. destruct (f x); simpl; lia. Qed.

Lemma serve_chunks (get : N -> option Batch.t) chunks acc :
  acc.2 + N.of_nat (length (concat chunks)) * size_of_batch <= MAX_REQUEST_BATCHES_RESPONSE_SIZE ->
  (foldl (fun acc chunk => take_batches (omap get chunk) acc) acc chunks).1 = acc.1 ++ omap get (concat chunks).
Proof.
  revert acc. induction chunks as [|chunk chunks IH]; intros [bs n]; cbn [foldl fst snd]; intros Hle; [by rewrite app_nil_r|].
  rewrite concat_cons, length_app in Hle. pose proof (length_omap_le get chunk). rewrite take_batches_all by (cbn [fst snd]; nia).
  rewrite IH; cbn [fst snd]; [|nia]. rewrite concat_cons, omap_app, <-app_assoc. done.
Qed.

(** A request that fits in a response is answered with every batch stored. *)
Lemma process_request_batches_all w ds :
  N.of_nat (length ds) * size_of_batch <= MAX_REQUEST_BATCHES_RESPONSE_SIZE ->
  process_request_batches w ds = omap (fun d => batches w !! d) ds.
Proof. intros Hle. unfold process_request_batches. rewrite serve_chunks; rewrite concat_chunks by done; done. Qed.

Lemma elem_of_distribute n ds k (chunk : list N) :
  distribute n ds !! k = Some chunk -> chunk ⊆ ds /\ (length chunk <= length ds)%nat.
Proof.
  unfold distribute. rewrite list_lookup_fmap_Some. intros (k' & -> & _). split.
  - intros d. rewrite list_elem_of_omap. intros ([i x] & Hin & Hx). case_match; [|done]. simplify_eq. simpl. by apply elem_of_zip_r in Hin.
  - etransitivity; [apply length_omap_le|]. rewrite length_zip. lia.
Qed.

Lemma distribute_covers n ds d :
  (0 < n)%nat -> d ∈ ds -> exists k chunk, (k < n)%nat /\ distribute n ds !! k = Some chunk /\ d ∈ chunk.
Proof.
  intros Hn [i Hi]%list_elem_of_lookup. exists (i mod n)%nat. eexists. pose proof (Nat.mod_upper_bound i n ltac:(lia)). split; [done|].
  unfold distribute. rewrite list_lookup_fmap, lookup_seq_lt by done. split; [done|].
  apply list_elem_of_omap. exists (i, d). split; [|cbn [fst snd]; by rewrite Nat.add_0_l, Nat.eqb_refl].
  apply list_elem_of_lookup. exists i. rewrite lookup_zip_with, lookup_seq_lt by by eapply lookup_lt_Some. simpl. by rewrite Hi.
Qed.

Lemma length_distribute n ds : length (distribute n ds) = n.
Proof. unfold distribute. by rewrite length_fmap, length_seq. Qed.

Lemma length_rotate_left {A} (l : list A) : length (rotate_left l) = length l.
Proof. destruct l; [done|]. simpl. rewrite length_app. simpl. lia. Qed.

Lemma elem_of_rotate_left {A} (x : A) l : x ∈ rotate_left l <-> x ∈ l.
Proof. destruct l; [done|]. set_solver. Qed.

(** What remains is what has not been received; nothing is received twice. *)
Definition accept_inv (requested : list N) (acc : list N * list Batch.t) : Prop :=
  (forall d, d ∈ acc.1 <-> d ∈ requested /\ d ∉ BatchOps.digest <$> acc.2) /\ NoDup acc.2 /\
  Forall (fun b => BatchOps.digest b ∈ requested) acc.2.

Lemma accept_batch_inv requested acc b : accept_inv requested acc -> accept_inv requested (accept_batch requested acc b).
Proof.
  intros (Hr & Hnd & Hreq). unfold accept_batch. case_bool_decide as Hd; [|done]. case_bool_decide as Hb; [done|]. cbn [negb andb]. split_and!; cbn [fst snd].
  - intros d. rewrite list_elem_of_filter, Hr, fmap_app, elem_of_app. simpl. rewrite list_elem_of_singleton. tauto.
  - apply NoDup_app. split_and!; [done|set_solver|apply NoDup_singleton].
  - apply Forall_app. split; [done|]. by constructor.
Qed.

Lemma accept_batch_elem requested acc b b' :
  b' ∈ (accept_batch requested acc b).2 <-> b' ∈ acc.2 \/ (b' = b /\ BatchOps.digest b ∈ requested).
Proof.
  unfold accept_batch. case_bool_decide as Hd; [|naive_solver]. case_bool_decide as Hb; cbn [negb andb]; [naive_solver|].
  cbn [snd]. rewrite elem_of_app, list_elem_of_singleton. naive_solver.
Qed.

Lemma accept_response requested bs acc :
  accept_inv requested acc ->
  let acc' := foldl (accept_batch requested) acc bs in
  accept_inv requested acc' /\ forall b, b ∈ acc'.2 <-> b ∈ acc.2 \/ (b ∈ bs /\ BatchOps.digest b ∈ requested).
Proof.
  revert acc. induction bs as [|b bs IH]; intros acc Hacc; cbn [foldl]; [split; [done|set_solver]|].
  destruct (IH (accept_batch requested acc b)) as [Hinv Hin]; [by apply accept_batch_inv|]. split; [done|].
  intros b'. rewrite Hin, accept_batch_elem. set_solver.
Qed.

Lemma accept_answers_spec requested answers acc :
  accept_inv requested acc ->
  let '(acc', fin) := accept_answers requested answers acc in
  accept_inv requested acc' /\ (fin = true -> acc'.1 = []) /\ (forall b, b ∈ acc'.2 -> b ∈ acc.2 \/ exists bs, Some bs ∈ answers /\ b ∈ bs) /\
  (fin = false -> acc.1 <> [] -> acc'.1 <> [] /\ forall bs b, Some bs ∈ answers -> b ∈ bs -> BatchOps.digest b ∈ requested -> b ∈ acc'.2) /\
  (forall b, b ∈ acc.2 -> b ∈ acc'.2).
Proof.
  revert acc. induction answers as [|[bs|] answers IH]; intros acc Hacc; cbn [accept_answers].
  - split_and!; set_solver.
  - destruct (accept_response requested bs acc Hacc) as [Hinv Hin]. destruct (foldl _ acc bs) as [rem got] eqn:Hf; cbn [fst snd] in *.
    destruct rem as [|d rem].
    + split_and!; [done|done| |done|set_solver]. cbn [snd]. intros b [?|[? _]]%Hin; [by left|right; exists bs; set_solver].
    + specialize (IH _ Hinv). destruct (accept_answers requested answers _) as [acc' fin]. destruct IH as (H1 & H2 & H3 & H4 & H5). split_and!; try done.
      * intros b [Hb|(bs' & ? & ?)]%H3; [|right; exists bs'; set_solver]. apply Hin in Hb as [?|[? _]]; [by left|right; exists bs; set_solver].
      * intros Hfin _. destruct (H4 Hfin) as [Hne Hall]; [done|]. split; [done|]. intros bs' b [[= ->]|Hbs]%elem_of_cons Hb Hd; [|by eapply Hall].
        apply H5, Hin. by right.
      * intros b Hb. apply H5, Hin. by left.
  - specialize (IH _ Hacc). destruct (accept_answers requested answers _) as [acc' fin]. destruct IH as (H1 & H2 & H3 & H4 & H5). split_and!; try done.
    + intros b [?|(bs' & ? & ?)]%H3; [by left|right; exists bs'; set_solver].
    + intros Hfin Hne. destruct (H4 Hfin Hne) as [? Hall]. split; [done|]. intros bs' b [?|Hbs]%elem_of_cons Hb Hd; [done|by eapply Hall].
Qed.

End serving.

Section available.
Context `{BatchHash} `{ExecutionLayer}.
Import Worker.

(** The workers of the peers, and the order in which their answers arrive. *)
Context (stores : N -> Worker.t) (arrive : list (option (list Batch.t)) -> list (option (list Batch.t))).

(** A peer that answers each request from its table. *)
Definition serve (round : nat) (peer : N) (ds : list N) : option WorkerResponse :=
  Some (RequestBatchesResponse (Batch.decoded <$> process_request_batches (stores peer) ds)).

(** The peer holds all of the batches, in a table addressed by content. *)
Definition holds (ds : list N) (peer : N) : Prop :=
  content (batches (stores peer)) /\ Forall (fun d => is_Some (batches (stores peer) !! d)) ds.

Lemma served round peer all ds :
  holds all peer -> ds ⊆ all -> N.of_nat (length ds) * size_of_batch <= MAX_REQUEST_BATCHES_RESPONSE_SIZE ->
  exists bs, request_batches_from_peer ds (serve round peer ds) = Some bs /\
    (forall d, d ∈ ds -> exists b, b ∈ bs /\ BatchOps.digest b = d) /\
    Forall (fun b => batches (stores peer) !! BatchOps.digest b = Some b) bs.
Proof.
  intros [Hc Hall] Hsub Hfit. rewrite Forall_forall in Hall. unfold serve, request_batches_from_peer. rewrite process_request_batches_all by done.
  set (bs := Batch.decoded <$> _). assert (forall b, b ∈ bs <-> exists d, d ∈ ds /\ batches (stores peer) !! d = Some b) as Hin.
  { intros b. unfold bs. rewrite list_elem_of_fmap. setoid_rewrite list_elem_of_omap. split.
    - intros (b' & -> & d & Hd & Hb). exists d. by rewrite (decoded_content _ d b' Hc Hb).
    - intros (d & Hd & Hb). exists b. rewrite (decoded_content _ d b Hc Hb). split; [done|]. by exists d. }
  exists bs. split_and!.
  - assert (forallb (fun b => bool_decide (BatchOps.digest b ∈ ds)) bs = true) as ->; [|done].
    apply forallb_forall. intros b Hb%list_elem_of_In. apply Hin in Hb as (d & Hd & Hb). apply bool_decide_eq_true. by destruct (Hc d b Hb) as [-> _].
  - intros d Hd. destruct (Hall d (Hsub d Hd)) as [b Hb]. exists b. split; [apply Hin; by exists d|by apply (Hc d b Hb)].
  - apply Forall_forall. intros b Hb. apply Hin in Hb as (d & Hd & Hb). by destruct (Hc d b Hb) as [-> _].
Qed.

Lemma NoDup_digests (bs : list Batch.t) :
  Inj (=) (=) hash_batch -> Forall (fun b => Batch.received_at b = None) bs -> NoDup bs -> NoDup (BatchOps.digest <$> bs).
Proof.
  intros Hinj Hr Hnd. apply NoDup_fmap_2_strong; [|done]. rewrite Forall_forall in Hr. intros b b' Hb Hb' Hd%Hinj.
  specialize (Hr b Hb) as Hr1. specialize (Hr b' Hb') as Hr2. destruct b, b'. simpl in *. congruence.
Qed.

Section round.
Context (peers : list N) (ds : list N).
Hypothesis arrive_perm : forall l, arrive l ≡ₚ l.
Hypothesis peers_hold : Forall (holds ds) peers.
Hypothesis fits : N.of_nat (length ds) * size_of_batch <= MAX_REQUEST_BATCHES_RESPONSE_SIZE.

Let asked := filter (fun x => x.2 <> []) (zip (rotate_left peers) (distribute (length peers) ds)).
Let answers round := arrive ((fun x => request_batches_from_peer x.2 (serve round x.1 x.2)) <$> asked).

Lemma asked_served round x : x ∈ asked -> x.1 ∈ peers /\ exists bs, request_batches_from_peer x.2 (serve round x.1 x.2) = Some bs /\
  (forall d, d ∈ x.2 -> exists b, b ∈ bs /\ BatchOps.digest b = d) /\ Forall (fun b => batches (stores x.1) !! BatchOps.digest b = Some b) bs.
Proof.
  destruct x as [p chunk]. intros [_ Hz]%list_elem_of_filter. pose proof (elem_of_zip_l _ _ _ _ Hz) as Hp. apply elem_of_zip_r in Hz as [k Hk]%list_elem_of_lookup.
  apply elem_of_distribute in Hk as [Hsub Hlen]. rewrite elem_of_rotate_left in Hp. split; [done|]. rewrite Forall_forall in peers_hold.
  apply (served round p ds); [by apply peers_hold|done|]. cbn [snd]. nia.
Qed.

Lemma digest_asked d : d ∈ ds -> peers <> [] -> exists x, x ∈ asked /\ d ∈ x.2.
Proof.
  intros Hd Hne. assert (0 < length peers)%nat as Hn by (destruct peers; [done|simpl; lia]).
  destruct (distribute_covers _ ds d Hn Hd) as (k & chunk & Hk & Hl & Hin).
  destruct (lookup_lt_is_Some_2 (rotate_left peers) k) as [p Hp]; [by rewrite length_rotate_left|].
  exists (p, chunk). split; [|done]. apply list_elem_of_filter. split; [intros He; simpl in He; subst; by apply elem_of_nil in Hin|].
  apply list_elem_of_lookup. exists k. by rewrite lookup_zip_with, Hp, Hl.
Qed.

Lemma round_complete round :
  ds <> [] -> peers <> [] ->
  let '(acc, fin) := accept_answers ds (answers round) (ds, []) in
  fin = true /\ accept_inv ds acc /\ acc.1 = [] /\ Forall (fun b => exists p, p ∈ peers /\ batches (stores p) !! BatchOps.digest b = Some b) acc.2.
Proof.
  intros Hds Hpeers. assert (accept_inv ds (ds, [])) as Hinv by (split_and!; [set_solver|constructor|constructor]).
  pose proof (accept_answers_spec ds (answers round) (ds, []) Hinv) as Hs.
  destruct (accept_answers ds (answers round) (ds, [])) as [acc fin]. destruct Hs as (Hacc & Hfin & Hfrom & Hall & _).
  assert (fin = true) as ->.
  { destruct fin; [done|]. destruct (Hall eq_refl Hds) as [Hne Hgot]. destruct acc.1 as [|d rem] eqn:Hrem; [done|].
    assert (d ∈ acc.1) as [Hd Hnd]%(proj1 Hacc) by (rewrite Hrem; set_solver). exfalso. apply Hnd.
    destruct (digest_asked d Hd Hpeers) as (x & Hx & Hdx). destruct (asked_served round x Hx) as (_ & bs & Hbs & Hb & _).
    destruct (Hb d Hdx) as (b & Hbin & <-). apply list_elem_of_fmap_2. apply (Hgot bs b); [|done|done].
    unfold answers. rewrite arrive_perm. apply list_elem_of_fmap. by exists x. }
  split_and!; [done|done|by apply Hfin|]. apply Forall_forall. intros b Hb. destruct (Hfrom b Hb) as [?%elem_of_nil|(bs & Hbs & Hbin)]; [done|].
  unfold answers in Hbs. rewrite arrive_perm in Hbs. apply list_elem_of_fmap in Hbs as (x & Heq & Hx).
  destruct (asked_served round x Hx) as (Hp & bs' & Hbs' & _ & Hst). rewrite Hbs' in Heq. injection Heq as ->. exists x.1. split; [done|].
  rewrite Forall_forall in Hst. by apply Hst.
Qed.

End round.

Lemma request_batches_served peers ds :
  (forall l, arrive l ≡ₚ l) -> Inj (=) (=) hash_batch -> peers <> [] -> ds <> [] -> Forall (holds ds) peers ->
  N.of_nat (length ds) * size_of_batch <= MAX_REQUEST_BATCHES_RESPONSE_SIZE ->
  exists bs, request_batches serve arrive (Some peers) ds = Some bs /\
    NoDup (BatchOps.digest <$> bs) /\ (forall d, d ∈ BatchOps.digest <$> bs <-> d ∈ ds) /\
    Forall (fun b => exists p, p ∈ peers /\ batches (stores p) !! BatchOps.digest b = Some b) bs.
Proof.
  intros Hperm Hinj Hp Hds Hhold Hfit. pose proof (fun r => round_complete peers ds Hperm Hhold Hfit r Hds Hp) as Hr.
  assert (request_batches serve arrive (Some peers) ds =
    match (request_rounds serve arrive ds (length peers) (length peers) peers (ds, [])).2 with [] => None | bs => Some bs end) as ->
    by by destruct ds, peers.
  assert (exists n, length peers = S n) as [n Hn] by (destruct peers; [done|by eexists]). replace (request_rounds serve arrive ds (length peers) (length peers)) with (request_rounds serve arrive ds (length peers) (S n)) by by rewrite Hn.
  cbn [request_rounds fst]. specialize (Hr n).
  destruct (accept_answers ds _ (ds, [])) as [acc fin]. destruct Hr as (-> & (Hrem & Hnd & Hreq) & Hnil & Hst).
  assert (forall d, d ∈ BatchOps.digest <$> acc.2 <-> d ∈ ds) as Hdig.
  { intros d. split.
    - intros (b & -> & Hb)%list_elem_of_fmap. rewrite Forall_forall in Hreq. by apply Hreq.
    - intros Hin. destruct (decide (d ∈ BatchOps.digest <$> acc.2)) as [|Hn']; [done|]. assert (d ∈ acc.1) as Hx by by apply Hrem.
      rewrite Hnil in Hx. by apply elem_of_nil in Hx. }
  exists acc.2. split_and!; [| |done|done].
  - destruct acc.2; [|done]. destruct ds as [|d0 ds0]; [done|].
    assert (d0 ∈ BatchOps.digest <$> ([] : list Batch.t)) as Hx by (apply Hdig; set_solver). by apply elem_of_nil in Hx.
  - apply NoDup_digests; [done| |done]. apply Forall_forall. intros b Hb. rewrite Forall_forall in Hst. destruct (Hst b Hb) as (p & Hpin & Hl).
    rewrite Forall_forall in Hhold. destruct (Hhold p Hpin) as [Hc _]. by apply (Hc _ _ Hl).
Qed.

(** C27: the batches of a header are available as long as peers hold them.  If some peer is
    connected, all connected peers answer requests from tables that hold the batches, the
    batches fit in a response, and hashes do not collide, then synchronizing them succeeds,
    whatever the order in which the answers arrive, for a certified header and for one when
    all batches of the peers are valid.  Afterwards every batch of the header is stored here
    under its digest, each of the new ones is the batch that a peer holds, and what was
    stored before is still there. *)
Theorem batches_available peers w digests is_certified now :
  (forall l, arrive l ≡ₚ l) -> Inj (=) (=) hash_batch -> content (batches w) -> peers <> [] -> Forall (holds digests) peers ->
  N.of_nat (length digests) * size_of_batch <= MAX_REQUEST_BATCHES_RESPONSE_SIZE ->
  (is_certified = true \/ forall p d b, p ∈ peers -> batches (stores p) !! d = Some b -> BatchValidator.validate_batch (BatchOps.seal_slow b) = Ok ()) ->
  let '(w', r) := synchronize w digests is_certified now (fun missing => request_batches serve arrive (Some peers) (elements missing)) in
  r = Ok () /\ batches w ⊆ batches w' /\
  Forall (fun d => exists b, batches w' !! d = Some b /\ BatchOps.digest b = d) digests /\
  (forall d b, batches w' !! d = Some b -> batches w !! d = None -> exists p, p ∈ peers /\ batches (stores p) !! d = Some b).
Proof.
  intros Hperm Hinj Hcw Hp Hhold Hfit Hval.
  pose proof (synchronize_correct w digests is_certified now (fun missing => request_batches serve arrive (Some peers) (elements missing)) Hcw) as Hsync.
  assert (forall w' : Worker.t, content (batches w') -> Forall (fun d => is_Some (batches w' !! d)) digests ->
    Forall (fun d => exists b, batches w' !! d = Some b /\ BatchOps.digest b = d) digests) as Hstored.
  { intros w' Hc Hall. eapply Forall_impl; [exact Hall|]. intros d [b Hb]. exists b. split; [done|]. by apply (Hc d b). }
  unfold synchronize in *. set (missing := list_to_set _ : gset N) in *.
  case_bool_decide as Hm; [destruct Hsync as (Hc & Hsub & Hok & _); split_and!; [done|done|by apply Hstored; [|apply Hok]|congruence]|].
  assert (elements missing ⊆ digests) as Hsub.
  { intros d. unfold missing. rewrite elem_of_elements, elem_of_list_to_set, list_elem_of_filter. tauto. }
  assert (length (elements missing) <= length digests)%nat as Hlen.
  { etransitivity; [apply size_list_to_set_le|]. apply length_filter. }
  destruct (request_batches_served peers (elements missing)) as (bs & Heq & Hnd & Hdig & Hst); try done; [by intros ?%elements_empty_inv%leibniz_equiv| |nia|].
  { eapply Forall_impl; [done|]. intros p [Hc Hall]. split; [done|]. rewrite Forall_forall in Hall |- *. intros d Hd. apply Hall, Hsub, Hd. }
  rewrite Heq in *. rewrite Forall_forall in Hst.
  assert ((store_synced is_certified now (batches w) missing (BatchOps.seal_slow <$> bs)).2 = Ok ∅) as Hok.
  { apply store_synced_ends; rewrite <-?list_fmap_compose; [done| |].
    - apply set_eq. intros d. rewrite elem_of_list_to_set. unfold compose. cbn [BatchOps.seal_slow BatchOps.seal SealedBatch.digest].
      by rewrite Hdig, elem_of_elements.
    - apply Forall_fmap, Forall_forall. intros b Hb. destruct (Hst b Hb) as (p & Hpin & Hl).
      destruct Hval as [->|Hval]; [by left|right]. by apply (Hval p _ b Hpin Hl). }
  pose proof (store_synced_spec is_certified now (batches w) missing (BatchOps.seal_slow <$> bs) Hcw) as Hspec.
  destruct (store_synced _ _ _ _ _) as [bs' r]. cbn [snd] in Hok. subst r.
  destruct Hspec as (_ & _ & _ & Hnew); [by apply Forall_fmap, Forall_true| |].
  { intros d. unfold missing. rewrite elem_of_list_to_set, list_elem_of_filter. by intros [? _]. }
  destruct Hsync as (Hc & Hsubw & Hall & _). split; [done|]. split; [done|]. split; [by apply Hstored; [|apply Hall]|].
  intros d b Hb Hn. destruct (Hnew d b Hb Hn) as (_ & s & (b' & -> & Hb')%list_elem_of_fmap & Hd & -> & _). cbn [BatchOps.seal_slow BatchOps.seal SealedBatch.digest SealedBatch.batch] in *.
  destruct (Hst b' Hb') as (p & Hpin & Hl). exists p. split; [done|]. rewrite Forall_forall in Hhold. destruct (Hhold p Hpin) as [Hcp _].
  by rewrite <-Hd, (decoded_content _ _ _ Hcp Hl).
Qed.

End available.

(** * Sealing *)

Section sealing.
Context `{BatchHash} `{ExecutionLayer}.
Import Worker QuorumWaiter.

(** A worker reports a batch to its primary only once it is stored here and by peers
    that, with this authority, make up a quorum of the stake: each of them validated the
    batch and recorded it with its own primary.  When the batch does not get there, nothing
    is stored, published or reported. *)
Theorem sealed_batch_stored committee wc authority id w sealed_batch (pre : nat -> Worker.t) now replies :
  let stakes := peer_stakes committee wc authority id in
  let '(batch, digest) := SealedBatch.split sealed_batch in
  Authority.voting_power authority + sumN stakes < 2 ^ 62 ->
  NoDup replies.*1 -> Forall (fun x => (x.1 < length stakes)%nat) replies ->
  (forall i, (i, Ack) ∈ replies -> (process_report_batch id (pre i) sealed_batch now).2 = Ok ()) ->
  let '(w', r) := seal id w sealed_batch (verify_batch committee wc authority id replies) in
  (r = Ok () -> batches w' !! digest = Some (Batch.decoded batch) /\ own_batches w' = own_batches w ++ [(digest, id, Batch.timestamp batch)] /\
     Committee.reached_quorum committee (Authority.voting_power authority + accepted_stake stakes replies) = true /\
     forall i, (i, Ack) ∈ replies ->
       let peer := (process_report_batch id (pre i) sealed_batch now).1 in
       BatchOps.digest batch = digest /\ batches peer !! digest = Some (Batch.decoded batch) /\ is_Some (payload peer !! (digest, id))) /\
  (r <> Ok () -> w' = w).
Proof.
  destruct sealed_batch as [batch digest]. cbn [SealedBatch.split SealedBatch.batch SealedBatch.digest]. intros Hb Hnd Hlt Hpeers.
  destruct (verify_batch committee wc authority id replies) as [[]|[]| |] eqn:Hv; cbn [seal]; try (split; [done|reflexivity]).
  split; [|done]. intros _. cbn [SealedBatch.split SealedBatch.batch SealedBatch.digest batches own_batches]. split_and!.
  - apply lookup_insert_eq.
  - done.
  - by apply verify_batch_sound.
  - intros i Hi. specialize (Hpeers i Hi). unfold process_report_batch in *.
    destruct (BatchValidator.validate_batch _) as [[]| | |] eqn:Hval; [|done..]. cbn [SealedBatch.split SealedBatch.batch SealedBatch.digest fst batches payload].
    split_and!; [|apply lookup_insert_eq|eexists; apply lookup_insert_eq].
    unfold BatchValidator.validate_batch in Hval. cbn in Hval. destruct (N.eqb_spec digest (BatchOps.digest batch)); [done|by cbn in Hval].
Qed.

End sealing.

(** * The properties at concrete batches *)

(** An injective hash, and transactions whose gas limit is their first word. *)
Definition demo_batch_hash : BatchHash := {| hash_batch x := N.pos (encode x); size_of_batch := 128 |}.

Definition demo_execution : ExecutionLayer :=
  {| chain_header h := if h =? 7 then Some 100 else None; finalized_block := Some 7; recover_raw_transaction tx := head tx |}.

#[local] Existing Instances demo_batch_hash demo_execution.

Definition demo_batch : Batch.t := Batch.mk [[21000; 1]; [50000; 2; 3]] 7 1 101 None None.
Definition demo_batch' : Batch.t := Batch.mk [[30000; 4]] 8 1 105 (Some 7) None.

Definition holding (bs : list Batch.t) : Worker.t := Worker.mk (Worker.safe_request_batches bs) [] ∅ [].

Lemma holding_content bs : Forall (fun b => Batch.received_at b = None) bs -> content (Worker.batches (holding bs)).
Proof. intros Hr d b [Hd Hb]%safe_request_content. rewrite Forall_forall in Hr. split; [done|by apply Hr]. Qed.

Lemma validate_batch_correct_witness : valid_batch (BatchOps.seal_slow demo_batch).
Proof.
  apply (validate_batch_correct (BatchOps.seal_slow demo_batch)).
  - by vm_compute.
  - intros gas Hg. assert (gas = [21000; 50000]) as -> by (apply (decodes_unique demo_batch); [done|by repeat constructor]). by vm_compute.
  - by vm_compute.
Defined.

Lemma fetch_correct_witness :
  let '(bs', r) := Worker.fetch 200 (Worker.batches (holding [demo_batch])) (list_to_set (BatchOps.digest <$> [demo_batch; demo_batch']))
                     [None; Some [demo_batch']] in
  content bs'.
Proof.
  pose proof (fetch_correct 200 (Worker.batches (holding [demo_batch])) (list_to_set (BatchOps.digest <$> [demo_batch; demo_batch']))
    [None; Some [demo_batch']]) as Hf.
  destruct (Worker.fetch _ _ _ _) as [bs' r]. apply Hf. apply holding_content. by repeat constructor.
Defined.

Lemma synchronize_correct_witness :
  let '(w', r) := Worker.synchronize (holding [demo_batch]) (BatchOps.digest <$> [demo_batch; demo_batch']) false 200 (fun _ => Some [demo_batch']) in
  content (Worker.batches w').
Proof.
  pose proof (synchronize_correct (holding [demo_batch]) (BatchOps.digest <$> [demo_batch; demo_batch']) false 200 (fun _ => Some [demo_batch'])) as Hs.
  destruct (Worker.synchronize _ _ _ _ _) as [w' r]. apply Hs. apply holding_content. by repeat constructor.
Defined.

Definition demo_synchronized : Worker.t * outcome unit unit :=
  Worker.synchronize (holding []) (BatchOps.digest <$> [demo_batch; demo_batch']) true 200
    (fun missing => Worker.request_batches (serve (fun _ => holding [demo_batch; demo_batch'])) (@reverse _) (Some [1; 2; 3]) (elements missing)).

Lemma batches_available_witness :
  demo_synchronized.2 = Ok () /\
  Forall (fun d => exists b, Worker.batches demo_synchronized.1 !! d = Some b /\ BatchOps.digest b = d) (BatchOps.digest <$> [demo_batch; demo_batch']).
Proof.
  pose proof (batches_available (fun _ => holding [demo_batch; demo_batch']) (@reverse _) [1; 2; 3] (holding [])
    (BatchOps.digest <$> [demo_batch; demo_batch']) true 200) as Hb.
  fold demo_synchronized in Hb. destruct demo_synchronized as [w' r]. destruct Hb as (? & _ & ? & _); [..|done].
  - intros l. apply reverse_Permutation.
  - intros x y Hxy. by apply (inj encode), (inj N.pos).
  - by apply holding_content.
  - done.
  - assert (holds (fun _ => holding [demo_batch; demo_batch']) (BatchOps.digest <$> [demo_batch; demo_batch']) 0) as Hh.
    { split; [apply holding_content; by repeat constructor|]. apply Forall_forall. intros d Hd. apply elem_of_dom.
      cbn [holding Worker.batches]. by rewrite safe_request_dom, elem_of_list_to_set. }
    apply Forall_forall. intros p _. exact Hh.
  - by vm_compute.
  - by left.
Defined.

Lemma sealed_batch_stored_witness :
  let '(w', r) := Worker.seal 0 (holding []) (BatchOps.seal_slow demo_batch)
                    (QuorumWaiter.verify_batch demo_committee demo_worker_cache (demo_authority 1) 0 demo_replies) in
  r = Ok () /\ Worker.batches w' !! BatchOps.digest demo_batch = Some demo_batch.
Proof.
  pose proof (sealed_batch_stored demo_committee demo_worker_cache (demo_authority 1) 0 (holding []) (BatchOps.seal_slow demo_batch)
    (fun _ => holding []) 200 demo_replies) as Hs.
  cbn [BatchOps.seal_slow BatchOps.seal SealedBatch.split SealedBatch.batch SealedBatch.digest] in Hs.
  assert (QuorumWaiter.verify_batch demo_committee demo_worker_cache (demo_authority 1) 0 demo_replies = Ok ()) as Hq by by vm_compute.
  rewrite Hq in *. cbn [Worker.seal] in *. split; [done|]. apply Hs.
  - by vm_compute.
  - apply (bool_decide_unpack _). by vm_compute.
  - apply (bool_decide_unpack _). by vm_compute.
  - intros i _. by vm_compute.
  - done.
Defined.

(** The gas limits are summed with wrapping additions: a batch far over the limit passes. *)
Lemma gas_sum_wraps :
  let b := Batch.mk [[2 ^ 64 - 1]; [21001]] 7 1 101 None None in
  BatchValidator.validate_batch (BatchOps.seal_slow b) = Ok () /\ max_batch_gas 101 < sumN [2 ^ 64 - 1; 21001].
Proof. split; [by vm_compute|done]. Qed.
