(* ===== verification/ConsensusChain.v ===== *)
(** The chain of consensus headers: how the committed sub-dags become outputs for
    execution, how they are saved, and how a node restarts and catches up.
    Models crates/storage/src/stores/consensus_store.rs, [ConsensusOutput] of
    crates/types/src/primary/output.rs, crates/state-sync, the subscriber of
    crates/consensus/executor and [Consensus::spawn] of
    crates/consensus/primary/src/consensus/state.rs. *)

From S2P Require Import Prelude Storage Committee Certificate CertStore Output ConsensusState OrderDag LeaderSchedule Bullshark.
From S2P Require Import Consensus Worker.

(** [ConsensusHeader::default()]: an empty sub-dag led by a default certificate. *)
Definition default_consensus_header `{Crypto} : ConsensusHeader.t :=
  let leader := Certificate.mk (Header.genesis 0 0) (Unsigned bls_default) ∅ 0 in
  ConsensusHeader.mk 0 (CommittedSubDag.new [] leader 0 ReputationScores.default None) 0 0.

Module ConsensusOutput.

Record t := mk {
  sub_dag : CommittedSubDag.t;
  batches : list (list Batch.t);
  beneficiary : N;
  batch_digests : list N;
  parent_hash : N;
  number : N;
  extra : N;
  early_finalize : bool;
}.

Definition leader (o : t) : Certificate.t := CommittedSubDag.leader (sub_dag o).
Definition leader_round (o : t) : Round := CommittedSubDag.leader_round (sub_dag o).
Definition committed_at (o : t) : TimestampSec := CommittedSubDag.commit_timestamp (sub_dag o).
Definition nonce (o : t) : N := Header.nonce (Certificate.header (leader o)).
Definition flatten_batches (o : t) : list Batch.t := concat (batches o).

Definition next_batch_digest (o : t) : option N * t :=
  match batch_digests o with
  | [] => (None, o)
  | d :: ds => (Some d, mk (sub_dag o) (batches o) (beneficiary o) ds (parent_hash o) (number o) (extra o) (early_finalize o))
  end.

Definition consensus_header (o : t) : ConsensusHeader.t :=
  ConsensusHeader.mk (parent_hash o) (sub_dag o) (number o) (extra o).

Definition consensus_header_hash `{NetworkKeys} `{Crypto} `{ChainHash} (o : t) : N :=
  ConsensusHeader.digest_from_parts (parent_hash o) (sub_dag o) (number o).

End ConsensusOutput.

(** * Tables *)

Module ConsensusDb.

Record t := mk {
  blocks : gmap N ConsensusHeader.t;
  numbers : gmap N N;
  batches : gmap N Batch.t;
  certs : CertificateStore.t;
}.

Definition set_certs (db : t) (c : CertificateStore.t) : t := mk (blocks db) (numbers db) (batches db) c.

Section store.
Context `{NetworkKeys} `{Crypto} `{ChainHash} `{BatchHash}.

(** [entry(id).and_modify(max).or_insert(round)] *)
Definition entry_max (res : gmap AuthorityIdentifier Round) (x : AuthorityIdentifier * Round) : gmap AuthorityIdentifier Round :=
  match res !! x.1 with
  | Some r => <[x.1 := N.max r x.2]> res
  | None => <[x.1 := x.2]> res
  end.

Definition slot (c : Certificate.t) : AuthorityIdentifier * Round := (Certificate.origin c, Certificate.round c).

Definition read_sub_dag (res : gmap AuthorityIdentifier Round) (d : CommittedSubDag.t) : gmap AuthorityIdentifier Round :=
  let res := entry_max res (Certificate.origin (CommittedSubDag.leader d), CommittedSubDag.leader_round d) in
  foldl entry_max res (slot <$> CommittedSubDag.certificates d).

(** The latest 50 blocks only. *)
Definition read_last_committed (db : t) : gmap AuthorityIdentifier Round :=
  foldl read_sub_dag ∅ ((fun kb => ConsensusHeader.sub_dag kb.2) <$> take 50 (MemTable.reverse_iter (blocks db))).

Definition get_latest_sub_dag (db : t) : option CommittedSubDag.t :=
  (fun kb => ConsensusHeader.sub_dag kb.2) <$> MemTable.last_record (blocks db).

Definition read_committed_sub_dags_from (db : t) (from : N) : list CommittedSubDag.t :=
  (fun kb => ConsensusHeader.sub_dag kb.2) <$> MemTable.skip_to (blocks db) from.

Definition read_latest_commit_with_final_reputation_scores (db : t) : option CommittedSubDag.t :=
  find (fun d => ReputationScores.final_of_schedule (CommittedSubDag.reputation_score d))
    ((fun kb => ConsensusHeader.sub_dag kb.2) <$> MemTable.reverse_iter (blocks db)).

(** One transaction: the batches, the header and its number. *)
Definition save_consensus (db : t) (output : ConsensusOutput.t) : t :=
  let batches := foldl (fun bs b => Worker.store_batch bs (BatchOps.digest b) b) (batches db) (ConsensusOutput.flatten_batches output) in
  let header := ConsensusOutput.consensus_header output in
  mk (MemTable.insert (blocks db) (ConsensusHeader.number header) header)
    (MemTable.insert (numbers db) (ConsensusHeader.digest header) (ConsensusHeader.number header)) batches (certs db).

(** [root] is the [parent_beacon_block_root] of the latest executed block. *)
Definition last_executed_consensus_block (db : t) (root : option N) : option ConsensusHeader.t :=
  last_executed_consensus_hash ← root;
  number ← MemTable.get (numbers db) last_executed_consensus_hash;
  MemTable.get (blocks db) number.

(** [a + 1 ..= b] *)
Definition range (a b : N) : list N := (fun i => a + 1 + N.of_nat i) <$> seq 0 (N.to_nat (b - a)).

(** The saved headers that were not executed; [stream_missing_consensus] sends the same
    ones to the channel of consensus headers. *)
Definition get_missing_consensus (db : t) (root : option N) : list ConsensusHeader.t :=
  let last_executed_block := default default_consensus_header (last_executed_consensus_block db root) in
  let last_db_block := from_option snd last_executed_block (MemTable.last_record (blocks db)) in
  if ConsensusHeader.number last_executed_block <? ConsensusHeader.number last_db_block then
    omap (fun number => MemTable.get (blocks db) number)
      (range (ConsensusHeader.number last_executed_block) (ConsensusHeader.number last_db_block))
  else [].

End store.
End ConsensusDb.

(** * Starting consensus *)

Module Recovery.
Section recovery.
Context `{NetworkKeys} `{Crypto}.
Import ConsensusDb.

Definition construct_dag_from_cert_store (certs : CertificateStore.t) (last_committed : gmap AuthorityIdentifier Round) (gc_round : Round)
    : outcome ConsensusError (gmap Round (gmap AuthorityIdentifier (Digest * Certificate.t))) :=
  match CertificateStore.after_round 0 certs (gc_round + 1) with
  | Ok certificates => ConsensusState.construct_dag certificates last_committed gc_round
  | _ => Panic
  end.

Definition new_from_store (last_committed_round gc_depth : Round) (recovered_last_committed : gmap AuthorityIdentifier Round)
    (latest_sub_dag : option CommittedSubDag.t) (certs : CertificateStore.t) : outcome ConsensusError ConsensusState.t :=
  let last_round := ConsensusRound.new_with_gc_depth last_committed_round gc_depth in
  match construct_dag_from_cert_store certs recovered_last_committed (ConsensusRound.gc_round last_round) with
  | Ok dag => Ok (ConsensusState.mk last_round gc_depth recovered_last_committed latest_sub_dag dag)
  | OutOfFuel => OutOfFuel
  | _ => Panic
  end.

(** [iter().max_by(..)]: the highest round, 0 without one. *)
Definition max_round (m : gmap AuthorityIdentifier Round) : Round := foldr N.max 0 (map_to_list m).*2.

(** The state that [Consensus::spawn] starts from. *)
Definition spawn (gc_depth : Round) (db : t) : outcome ConsensusError ConsensusState.t :=
  let recovered_last_committed := read_last_committed db in
  let last_committed_round := max_round recovered_last_committed in
  let latest_sub_dag := get_latest_sub_dag db in
  _ ← match latest_sub_dag with
      | Some sub_dag => assert (CommittedSubDag.leader_round sub_dag =? last_committed_round)
      | None => Ok ()
      end;
  new_from_store last_committed_round gc_depth recovered_last_committed latest_sub_dag (certs db).

End recovery.
End Recovery.

(** * Catching up with peers *)

Module StateSync.
Section sync.
Context `{NetworkKeys} `{Crypto} `{ChainHash} (committee : Committee.t).

(** The responses of the committee in the order they arrive, [None] for an error; a header
    whose certificates do not verify ends the loop without a result. *)
Fixpoint max_header_loop (responses : list (option ConsensusHeader.t)) (result : option ConsensusHeader.t) : option ConsensusHeader.t :=
  match responses with
  | [] => result
  | None :: responses => max_header_loop responses result
  | Some header :: responses =>
      match ConsensusHeader.verify_certificates header committee with
      | Ok header =>
          let result :=
            match result with
            | Some last =>
                let epoch := Certificate.epoch (CommittedSubDag.leader (ConsensusHeader.sub_dag header)) in
                let last_epoch := Certificate.epoch (CommittedSubDag.leader (ConsensusHeader.sub_dag last)) in
                let round := Certificate.round (CommittedSubDag.leader (ConsensusHeader.sub_dag header)) in
                let last_round := Certificate.round (CommittedSubDag.leader (ConsensusHeader.sub_dag last)) in
                if (last_epoch <? epoch) || ((epoch =? last_epoch) && (last_round <? round)) then Some header else Some last
            | None => Some header
            end in
          max_header_loop responses result
      | _ => None
      end
  end.

Definition max_consensus_header_from_committee (responses : list (option ConsensusHeader.t)) : option ConsensusHeader.t :=
  max_header_loop responses None.

(** Whether the node can take part in consensus, with the rounds it publishes and the last
    consensus header it knows of.  The addition of rounds is 32 bits wide. *)
Definition can_cvv (db : ConsensusDb.t) (root : option N) (gc_depth : Round) (responses : list (option ConsensusHeader.t))
    : bool * ConsensusRound.t * Round * ConsensusHeader.t :=
  let last_executed_block := default default_consensus_header (ConsensusDb.last_executed_consensus_block db root) in
  let last_consensus_epoch := Certificate.epoch (CommittedSubDag.leader (ConsensusHeader.sub_dag last_executed_block)) in
  let last_consensus_round := CommittedSubDag.leader_round (ConsensusHeader.sub_dag last_executed_block) in
  let max_consensus_header := default last_executed_block (max_consensus_header_from_committee responses) in
  let max_epoch := Certificate.epoch (CommittedSubDag.leader (ConsensusHeader.sub_dag max_consensus_header)) in
  let max_round := Certificate.round (CommittedSubDag.leader (ConsensusHeader.sub_dag max_consensus_header)) in
  ((max_epoch =? last_consensus_epoch) && (max_round <? (last_consensus_round + gc_depth) mod u32_modulus),
   ConsensusRound.new_with_gc_depth last_consensus_round gc_depth, last_consensus_round, max_consensus_header).

(** One update of the task that tracks the latest header; [response] is the answer for the
    number that was gossiped. *)
Definition track_recent_consensus (last_consensus_header : ConsensusHeader.t) (response : option ConsensusHeader.t) : ConsensusHeader.t :=
  match response with
  | Some header =>
      match ConsensusHeader.verify_certificates header committee with
      | Ok header => if ConsensusHeader.number last_consensus_header <? ConsensusHeader.number header then header else last_consensus_header
      | _ => last_consensus_header
      end
  | None => last_consensus_header
  end.

(** What peers answer to a request for a number, at each attempt. *)
Context (request : N -> nat -> option ConsensusHeader.t) (default_header : SealedHeader.t).

(** [tries] attempts are left. *)
Fixpoint request_valid (number : N) (tries : nat) : outcome unit ConsensusHeader.t :=
  match tries with
  | O => Err ()
  | S tries =>
      match request number tries with
      | None => Err ()
      | Some header =>
          match ConsensusHeader.verify_certificates header committee with
          | Ok header => Ok header
          | _ => request_valid number tries
          end
      end
  end.

(** The loop over the numbers up to that of [max_consensus]: the bus, the headers sent to
    the channel, and the last one. *)
Fixpoint catch_up_loop (db : ConsensusDb.t) (max_consensus : ConsensusHeader.t) (numbers : list N) (bus : ConsensusBus.t)
    (last_parent : N) (result_header : ConsensusHeader.t) (sent : list ConsensusHeader.t)
    : ConsensusBus.t * list ConsensusHeader.t * outcome unit ConsensusHeader.t :=
  match numbers with
  | [] => (bus, sent, Ok result_header)
  | number :: numbers =>
      match (if number =? ConsensusHeader.number max_consensus then Ok max_consensus
             else match MemTable.get (ConsensusDb.blocks db) number with
                  | Some block => Ok block
                  | None => request_valid number 4
                  end) with
      | Ok consensus_header =>
          let last_parent := ConsensusHeader.digest_from_parts last_parent (ConsensusHeader.sub_dag consensus_header) number in
          if negb (last_parent =? ConsensusHeader.digest consensus_header) then (bus, sent, Err ()) else
          let base_execution_block :=
            Header.latest_execution_block (Certificate.header (CommittedSubDag.leader (ConsensusHeader.sub_dag consensus_header))) in
          match ConsensusBus.wait_for_execution default_header bus base_execution_block with
          | None => (bus, sent, OutOfFuel)
          | Some (bus, false) => (bus, sent, Err ())
          | Some (bus, true) => catch_up_loop db max_consensus numbers bus last_parent consensus_header (sent ++ [consensus_header])
          end
      | Err e => (bus, sent, Err e)
      | Panic => (bus, sent, Panic)
      | OutOfFuel => (bus, sent, OutOfFuel)
      end
  end.

Definition catch_up_consensus_from_to (db : ConsensusDb.t) (bus : ConsensusBus.t) (from max_consensus : ConsensusHeader.t)
    : ConsensusBus.t * list ConsensusHeader.t * outcome unit ConsensusHeader.t :=
  let last_parent := ConsensusHeader.digest from in
  if ConsensusHeader.number max_consensus <=? ConsensusHeader.number from then (bus, [], Ok from) else
  catch_up_loop db max_consensus (ConsensusDb.range (ConsensusHeader.number from) (ConsensusHeader.number max_consensus))
    bus last_parent from [].

(** One update of the task that streams headers, from the last one streamed. *)
Definition stream_consensus_headers (db : ConsensusDb.t) (bus : ConsensusBus.t) (last_consensus_header header : ConsensusHeader.t)
    : ConsensusBus.t * list ConsensusHeader.t * outcome unit ConsensusHeader.t :=
  if ConsensusHeader.number last_consensus_header <? ConsensusHeader.number header then
    catch_up_consensus_from_to db bus last_consensus_header header
  else (bus, [], Ok last_consensus_header).

Definition get_peers (myself : AuthorityIdentifier) : list N := (fun x => x.1.1) <$> Committee.others_primaries_by_id committee myself.

End sync.
End StateSync.

(** * The subscriber *)

Inductive SubscriberError :=
  | ClosedChannel
  | UnexpectedAuthority (authority : AuthorityIdentifier)
  | ClientRequestsFailed.

Module Subscriber.

(** A sub-dag whose batches are being fetched. *)
Record pending := mk_pending {
  deliver : CommittedSubDag.t;
  pending_parent : N;
  pending_number : N;
}.

(** The database, what was sent for execution, the watches and topics the task writes, and
    the variables of [run] with the sub-dags consensus sent to it.  [output_open] tells whether the channel of outputs has a
    receiver. *)
Record t := mk {
  db : ConsensusDb.t;
  outputs : list ConsensusOutput.t;
  output_open : bool;
  consensus_rounds : ConsensusRound.t;
  primary_round : Round;
  last_consensus_header : ConsensusHeader.t;
  published : list (N * N);
  last_parent : N;
  last_number : N;
  waiting : list pending;
  rx_sequence : list CommittedSubDag.t;
}.

Definition MAX_PENDING_PAYLOADS : nat := 1000.

Section subscriber.
Context `{NetworkKeys} `{Crypto} `{ChainHash} `{BatchHash} (committee : Committee.t) (gc_depth : Round) (active : bool).

(** What the worker answers to a request for batches. *)
Definition client := gset N -> option (gmap N Batch.t).

Definition payload_digests (c : Certificate.t) : list N := (Header.payload (Certificate.header c)).*1.

(** The batches of a certificate, from those that were fetched. *)
Definition collect_batches (fetched : gmap N Batch.t) (c : Certificate.t) : outcome SubscriberError (list Batch.t) :=
  foldM (fun output_batches digest =>
      batch ← ok_or (fetched !! digest) ClientRequestsFailed;
      Ok (output_batches ++ [batch])) [] (payload_digests c).

Definition fetch_batches (c : client) (deliver : CommittedSubDag.t) (parent_hash number : N) : outcome SubscriberError ConsensusOutput.t :=
  let num_blocks := CommittedSubDag.num_primary_blocks deliver in
  let leader := Certificate.origin (CommittedSubDag.leader deliver) in
  authority ← ok_or (Committee.authority committee leader) (UnexpectedAuthority leader);
  let address := Authority.execution_address authority in
  if num_blocks =? 0 then Ok (ConsensusOutput.mk deliver [] address [] parent_hash number 0 active) else
  let batch_digests := flat_map payload_digests (CommittedSubDag.certificates deliver) in
  fetched ← ok_or (c (list_to_set batch_digests)) ClientRequestsFailed;
  batches ← foldM (fun batches cert => output_batches ← collect_batches fetched cert; Ok (batches ++ [output_batches]))
              [] (CommittedSubDag.certificates deliver);
  Ok (ConsensusOutput.mk deliver batches address batch_digests parent_hash number 0 active).

(** Saves the output and sends it for execution.  Sending to a broadcast channel never fails:
    an output that nothing receives is lost. *)
Definition save_and_send (s : t) (output : ConsensusOutput.t) : t :=
  mk (ConsensusDb.save_consensus (db s) output) (if output_open s then outputs s ++ [output] else outputs s) (output_open s)
    (consensus_rounds s) (primary_round s) (last_consensus_header s) (published s) (last_parent s) (last_number s) (waiting s) (rx_sequence s).

Definition handle_consensus_header (c : client) (s : t) (header : ConsensusHeader.t) : t * outcome SubscriberError unit :=
  match fetch_batches c (ConsensusHeader.sub_dag header) (ConsensusHeader.parent_hash header) (ConsensusHeader.number header) with
  | Ok output =>
      let s := save_and_send s output in
      let leader := CommittedSubDag.leader (ConsensusOutput.sub_dag output) in
      let certs := CertificateStore.write (ConsensusDb.certs (db s)) leader in
      let certs := CertificateStore.write_all certs (CommittedSubDag.certificates (ConsensusOutput.sub_dag output)) in
      let last_round := ConsensusOutput.leader_round output in
      (mk (ConsensusDb.set_certs (db s) certs) (outputs s) (output_open s) (ConsensusRound.new_with_gc_depth last_round gc_depth)
         last_round (last_consensus_header s) (published s) (last_parent s) (last_number s) (waiting s) (rx_sequence s),
       Ok ())
  | Err e => (s, Err e)
  | Panic => (s, Panic)
  | OutOfFuel => (s, OutOfFuel)
  end.

Fixpoint handle_consensus_headers (c : client) (s : t) (headers : list ConsensusHeader.t) : t * outcome SubscriberError unit :=
  match headers with
  | [] => (s, Ok ())
  | header :: headers =>
      match handle_consensus_header c s header with
      | (s, Ok _) => handle_consensus_headers c s headers
      | (s, r) => (s, r)
      end
  end.

(** Catching up: each header of the channel is handled until one is the last known. *)
Fixpoint catch_up_rejoin_consensus (c : client) (s : t) (headers : list ConsensusHeader.t) : t * outcome SubscriberError bool :=
  match headers with
  | [] => (s, Ok false)
  | header :: headers =>
      match handle_consensus_header c s header with
      | (s, Ok _) =>
          if ConsensusHeader.number header =? ConsensusHeader.number (last_consensus_header s) then (s, Ok true)
          else catch_up_rejoin_consensus c s headers
      | (s, Err e) => (s, Err e)
      | (s, Panic) => (s, Panic)
      | (s, OutOfFuel) => (s, OutOfFuel)
      end
  end.

Definition get_last_executed_consensus (d : ConsensusDb.t) (root : option N) : N * N :=
  let last_executed_block := default default_consensus_header (ConsensusDb.last_executed_consensus_block d root) in
  (ConsensusHeader.digest last_executed_block, ConsensusHeader.number last_executed_block).

(** The start of [run]: [root] is the consensus root of the latest executed block before the
    missing headers are handled, and [root'] when that is done. *)
Definition start (c : client) (s : t) (root root' : option N) : t * outcome SubscriberError unit :=
  match handle_consensus_headers c s (ConsensusDb.get_missing_consensus (db s) root) with
  | (s, Ok _) =>
      let '(parent, number) := get_last_executed_consensus (db s) root' in
      (mk (db s) (outputs s) (output_open s) (consensus_rounds s) (primary_round s) (last_consensus_header s) (published s)
         parent number [] (rx_sequence s), Ok ())
  | (s, r) => (s, r)
  end.

(** A sub-dag is received from consensus, or the worker answers for the first one waiting. *)
Inductive event :=
  | Sequence
  | Fetched (c : client).

(** One turn of the loop: the state and whether the loop goes on. *)
Definition run_step (s : t) (e : event) : t * bool :=
  match e with
  | Sequence =>
      match rx_sequence s with
      | sub_dag :: rx =>
          if (length (waiting s) <? MAX_PENDING_PAYLOADS)%nat then
            let parent_hash := last_parent s in
            let number := last_number s + 1 in
            let parent := ConsensusHeader.digest_from_parts parent_hash sub_dag number in
            (mk (db s) (outputs s) (output_open s) (consensus_rounds s) (primary_round s)
               (ConsensusHeader.mk parent_hash sub_dag number 0) (published s ++ [(number, parent)]) parent number
               (waiting s ++ [mk_pending sub_dag parent_hash number]) rx, true)
          else (s, true)
      | [] => (s, true)
      end
  | Fetched c =>
      match waiting s with
      | [] => (s, true)
      | p :: waiting =>
          let s := mk (db s) (outputs s) (output_open s) (consensus_rounds s) (primary_round s) (last_consensus_header s)
                     (published s) (last_parent s) (last_number s) waiting (rx_sequence s) in
          match fetch_batches c (deliver p) (pending_parent p) (pending_number p) with
          | Ok output => (save_and_send s output, true)
          | _ => (s, true)
          end
      end
  end.

Fixpoint run (s : t) (events : list event) : t :=
  match events with
  | [] => s
  | e :: events => match run_step s e with (s, true) => run s events | (s, false) => s end
  end.

End subscriber.
End Subscriber.

(** * The chain *)

Section chain.
Context `{NetworkKeys} `{Crypto} `{ChainHash}.

(** Each header extends the one before it. *)
Fixpoint linked (h : ConsensusHeader.t) (l : list ConsensusHeader.t) : Prop :=
  match l with
  | [] => True
  | x :: l => ConsensusHeader.parent_hash x = ConsensusHeader.digest h /\
              ConsensusHeader.number x = ConsensusHeader.number h + 1 /\ linked x l
  end.

Lemma last_cons_default {A} (y : A) l : last (y :: l) = Some (default y (last l)).
Proof. rewrite last_cons. by destruct (last l). Qed.

Lemma linked_snoc h l x :
  linked h (l ++ [x]) <-> linked h l /\
    ConsensusHeader.parent_hash x = ConsensusHeader.digest (default h (last l)) /\
    ConsensusHeader.number x = ConsensusHeader.number (default h (last l)) + 1.
Proof.
  revert h. induction l as [|y l IH]; intros h; cbn [linked app]; [simpl; tauto|].
  rewrite IH. rewrite last_cons_default. simpl. tauto.
Qed.

Lemma linked_app h l k : linked h (l ++ k) <-> linked h l /\ linked (default h (last l)) k.
Proof.
  revert h. induction l as [|y l IH]; intros h; cbn [linked app]; [simpl; tauto|].
  rewrite IH. rewrite last_cons_default. simpl. tauto.
Qed.

Lemma linked_last_number h l : linked h l -> ConsensusHeader.number (default h (last l)) = ConsensusHeader.number h + N.of_nat (length l).
Proof.
  revert h. induction l as [|y l IH]; intros h; cbn [linked]; [simpl; lia|]. intros (_ & Hn & Hl).
  rewrite last_cons_default. simpl. rewrite (IH y Hl). lia.
Qed.

Lemma linked_numbers h l i x : linked h l -> l !! i = Some x -> ConsensusHeader.number x = ConsensusHeader.number h + 1 + N.of_nat i.
Proof.
  revert h i. induction l as [|y l IH]; intros h i; [done|]. cbn [linked]. intros (_ & Hn & Hl). destruct i as [|i]; simpl.
  - intros [= ->]. lia.
  - intros Hx. rewrite (IH y i Hl Hx). lia.
Qed.

End chain.

(** Collision resistance of the hash of the chain. *)
Class ChainHashBinds `{ChainHash} := {
  chain_hash_binds p d n p' d' n' : chain_hash p d n = chain_hash p' d' n' -> p = p' /\ n = n';
}.
