(* ===== verification/ChainSafety.v ===== *)
(** The chain of consensus headers: the subscriber extends it by exactly the sub-dags that
    consensus commits, in their order and with their batches, and a node that catches up
    only follows a linked chain. *)

From S2P Require Import Prelude Storage Committee Certificate CertStore Output ConsensusState OrderDag LeaderSchedule Bullshark.
From S2P Require Import Demo Consensus Worker WorkerSafety ConsensusChain.

(** * Outputs *)

Section outputs.
Context `{NetworkKeys} `{Crypto} `{ChainHash} `{BatchHash}.
Import Subscriber.

(** The worker answers the request for the batches of a sub-dag in full, as [fetch] does. *)
Definition answers (c : client) (d : CommittedSubDag.t) : Prop :=
  let ds := list_to_set (flat_map payload_digests (CommittedSubDag.certificates d)) in
  exists m, c ds = Some m /\ ds ⊆ dom m /\ map_Forall (fun d b => BatchOps.digest b = d) m.

(** The batches of an output are those its certificates name, in their order. *)
Definition complete (o : ConsensusOutput.t) : Prop :=
  ConsensusOutput.batch_digests o = flat_map payload_digests (CommittedSubDag.certificates (ConsensusOutput.sub_dag o)) /\
  BatchOps.digest <$> ConsensusOutput.flatten_batches o = ConsensusOutput.batch_digests o.

(** An output rewards the author of its leader. *)
Definition rewards (committee : Committee.t) (o : ConsensusOutput.t) : Prop :=
  exists a, Committee.authority committee (Certificate.origin (CommittedSubDag.leader (ConsensusOutput.sub_dag o))) = Some a /\
    ConsensusOutput.beneficiary o = Authority.execution_address a.

Lemma collect_batches_spec (m : gmap N Batch.t) c acc :
  map_Forall (fun d b => BatchOps.digest b = d) m -> Forall (fun d => d ∈ dom m) (payload_digests c) ->
  exists bs, foldM (fun output_batches digest => batch ← ok_or (m !! digest) ClientRequestsFailed; Ok (output_batches ++ [batch]))
    acc (payload_digests c) = Ok (acc ++ bs) /\ BatchOps.digest <$> bs = payload_digests c.
Proof.
  intros Hc. generalize (payload_digests c). intros l. revert acc. induction l as [|d l IH]; intros acc Hl; cbn [foldM].
  - exists []. by rewrite app_nil_r.
  - apply Forall_cons in Hl as [[b Hb]%elem_of_dom Hl]. rewrite Hb. cbn [ok_or mbind outcome_bind].
    destruct (IH (acc ++ [b]) Hl) as (bs & -> & Hbs). exists (b :: bs). rewrite <-app_assoc. split; [done|]. rewrite fmap_cons, Hbs.
    by rewrite (Hc d b Hb).
Qed.

Lemma collect_all_spec (m : gmap N Batch.t) cs acc :
  map_Forall (fun d b => BatchOps.digest b = d) m -> Forall (fun d => d ∈ dom m) (flat_map payload_digests cs) ->
  exists bs, foldM (fun batches cert => output_batches ← collect_batches m cert; Ok (batches ++ [output_batches])) acc cs = Ok (acc ++ bs) /\
    BatchOps.digest <$> concat bs = flat_map payload_digests cs.
Proof.
  intros Hc. revert acc. induction cs as [|c cs IH]; intros acc Hl; cbn [foldM flat_map].
  - exists []. by rewrite app_nil_r.
  - apply Forall_app in Hl as [H1' H2']. destruct (collect_batches_spec m c [] Hc H1') as (bs & Hbs & Hd).
    assert (collect_batches m c = Ok bs) as -> by exact Hbs. cbn [mbind outcome_bind].
    destruct (IH (acc ++ [bs]) H2') as (bss & -> & Hds). exists (bs :: bss). rewrite <-app_assoc. split; [done|].
    rewrite concat_cons, fmap_app, Hd, Hds. done.
Qed.

Lemma no_blocks_no_digests cs :
  sumN ((fun c => N.of_nat (length (Header.payload (Certificate.header c)))) <$> cs) = 0 -> flat_map payload_digests cs = [].
Proof.
  induction cs as [|c cs IH]; [done|]. rewrite fmap_cons. cbn [flat_map]. intros Hs.
  change (N.of_nat (length (Header.payload (Certificate.header c))) + sumN ((fun c => N.of_nat (length (Header.payload (Certificate.header c)))) <$> cs) = 0) in Hs.
  rewrite IH by lia. unfold payload_digests. destruct (Header.payload (Certificate.header c)); [done|]. cbn [length] in Hs. lia.
Qed.

Lemma fetch_batches_spec committee active c d parent number :
  answers c d -> is_Some (Committee.authority committee (Certificate.origin (CommittedSubDag.leader d))) ->
  exists o, fetch_batches committee active c d parent number = Ok o /\
    ConsensusOutput.consensus_header o = ConsensusHeader.mk parent d number 0 /\ complete o /\ rewards committee o.
Proof.
  intros Hc [a Ha]. unfold fetch_batches. rewrite Ha. cbn [ok_or mbind outcome_bind].
  destruct (N.eqb_spec (CommittedSubDag.num_primary_blocks d) 0) as [Hz|Hz].
  - eexists. split; [done|]. split; [done|]. split; [|by exists a]. split; [|done]. cbn [ConsensusOutput.batch_digests ConsensusOutput.sub_dag].
    by rewrite no_blocks_no_digests.
  - destruct Hc as (m & -> & Hsub & Hm). cbn [ok_or mbind outcome_bind].
    destruct (collect_all_spec m (CommittedSubDag.certificates d) [] Hm) as (bs & Hbs & Hd).
    { apply Forall_forall. intros x Hx. apply Hsub. by apply elem_of_list_to_set. }
    unfold client in *. rewrite Hbs. cbn [app mbind outcome_bind]. eexists. split; [done|]. split; [done|]. split; [|by exists a]. split; [done|]. exact Hd.
Qed.

End outputs.

(** * The chain of the subscriber *)

Section chain.
Context `{NetworkKeys} `{Crypto} `{ChainHash} `{BatchHash} `{!ChainHashBinds}.
Context (committee : Committee.t) (active : bool).
Import Subscriber.

Definition pending_header (p : pending) : ConsensusHeader.t := ConsensusHeader.mk (pending_parent p) (deliver p) (pending_number p) 0.

(** A header that can be found by its number and by its digest. *)
Definition saved (d : ConsensusDb.t) (h : ConsensusHeader.t) : Prop :=
  ConsensusDb.blocks d !! ConsensusHeader.number h = Some h /\ ConsensusDb.numbers d !! ConsensusHeader.digest h = Some (ConsensusHeader.number h).

(** Since the header [base] and the sub-dags [received], the outputs [outs] were sent. *)
Record chain_inv (base : ConsensusHeader.t) (before : list ConsensusOutput.t) (received : list CommittedSubDag.t) (s : t)
    (outs : list ConsensusOutput.t) : Prop := {
  inv_outputs : outputs s = before ++ outs;
  inv_open : output_open s = true;
  inv_linked : linked base ((ConsensusOutput.consensus_header <$> outs) ++ (pending_header <$> waiting s));
  inv_parent : last_parent s = ConsensusHeader.digest (default base (last ((ConsensusOutput.consensus_header <$> outs) ++ (pending_header <$> waiting s))));
  inv_number : last_number s = ConsensusHeader.number (default base (last ((ConsensusOutput.consensus_header <$> outs) ++ (pending_header <$> waiting s))));
  inv_order : received = (ConsensusOutput.sub_dag <$> outs) ++ (deliver <$> waiting s) ++ rx_sequence s;
  inv_saved : Forall (fun o => saved (db s) (ConsensusOutput.consensus_header o) /\ complete o) outs;
  inv_rewards : Forall (rewards committee) outs;
}.

Lemma saved_insert d o h :
  saved d h -> ConsensusHeader.number h <> ConsensusOutput.number o -> saved (ConsensusDb.save_consensus d o) h.
Proof.
  intros [Hb Hn] Hne. split; cbn [ConsensusDb.save_consensus ConsensusDb.blocks ConsensusDb.numbers ConsensusHeader.number]; unfold MemTable.insert.
  - by rewrite lookup_insert_ne.
  - rewrite lookup_insert_ne; [done|]. intros [_ Hx]%chain_hash_binds. by apply Hne.
Qed.

Lemma saved_new d o : saved (ConsensusDb.save_consensus d o) (ConsensusOutput.consensus_header o).
Proof. split; apply lookup_insert_eq. Qed.

Lemma chain_inv_sequence base before received s outs :
  chain_inv base before received s outs -> chain_inv base before received (run_step committee active s Sequence).1 outs.
Proof.
  intros Hinv. unfold run_step. destruct (rx_sequence s) as [|d rx] eqn:Hrx; [done|].
  destruct (_ <? _)%nat; [|done]. cbn [fst]. destruct Hinv as [Ho Hop Hl Hp Hn Hr Hs Hrw]. rewrite Hrx in Hr.
  constructor; cbn [outputs output_open waiting last_parent last_number rx_sequence db]; rewrite ?fmap_app, ?app_assoc; cbn [fmap list_fmap]; try done.
  - apply linked_snoc. split; [done|]. split; [exact Hp|]. cbn [ConsensusHeader.number pending_header pending_number]. by rewrite Hn.
  - by rewrite last_snoc.
  - by rewrite last_snoc.
  - rewrite Hr. by rewrite <-!app_assoc.
Qed.

Lemma chain_inv_fetched base before received s outs c :
  chain_inv base before received s outs -> Forall (answers c) received ->
  Forall (fun d => is_Some (Committee.authority committee (Certificate.origin (CommittedSubDag.leader d)))) received ->
  exists outs', chain_inv base before received (run_step committee active s (Fetched c)).1 (outs ++ outs') /\
    (run_step committee active s (Fetched c)).2 = true.
Proof.
  intros Hinv Hc Hlead. unfold run_step. destruct (waiting s) as [|p w] eqn:Hw; [exists []; by rewrite app_nil_r|].
  destruct Hinv as [Ho Hop Hl Hp Hn Hr Hs Hrw]. rewrite Hw in *.
  destruct (fetch_batches_spec committee active c (deliver p) (pending_parent p) (pending_number p)) as (o & -> & Hh & Hcomp & Hro).
  { rewrite Forall_forall in Hc. apply Hc. rewrite Hr. cbn [fmap list_fmap]. set_solver. }
  { rewrite Forall_forall in Hlead. apply Hlead. rewrite Hr. cbn [fmap list_fmap]. set_solver. }
  exists [o]. cbn [output_open fst snd]. split; [|done].
  assert ((ConsensusOutput.consensus_header <$> outs ++ [o]) ++ (pending_header <$> w) =
          (ConsensusOutput.consensus_header <$> outs) ++ (pending_header <$> p :: w)) as Heq.
  { rewrite fmap_app, <-app_assoc. f_equal. cbn [fmap list_fmap app]. rewrite Hh. done. }
  constructor; cbn [save_and_send outputs output_open waiting last_parent last_number rx_sequence db]; rewrite ?Heq, ?Hop; try done.
  - by rewrite Ho, app_assoc.
  - rewrite Hr, fmap_app, <-!app_assoc. cbn [fmap list_fmap app]. do 2 f_equal. by injection Hh.
  - apply Forall_app. split; [|constructor; [split; [apply saved_new|done]|constructor]]. rewrite Forall_forall in Hs |- *.
    intros x Hx. destruct (Hs x Hx) as [Hsv Hcx]. split; [|done]. apply saved_insert; [done|].
    apply list_elem_of_lookup in Hx as [i Hi].
    assert (((ConsensusOutput.consensus_header <$> outs) ++ (pending_header <$> p :: w)) !! i = Some (ConsensusOutput.consensus_header x)) as Hi'.
    { apply lookup_app_l_Some. by rewrite list_lookup_fmap, Hi. }
    assert (((ConsensusOutput.consensus_header <$> outs) ++ (pending_header <$> p :: w)) !! length outs = Some (pending_header p)) as Hj.
    { rewrite lookup_app_r; rewrite length_fmap; [|lia]. by rewrite Nat.sub_diag. }
    apply (linked_numbers _ _ _ _ Hl) in Hi', Hj. apply lookup_lt_Some in Hi. injection Hh as _ _ Hnum _. rewrite Hnum.
    cbn [pending_header ConsensusHeader.number] in Hj. lia.
  - apply Forall_app. by split; [|constructor].
Qed.

Lemma run_chain_inv base before received s outs events :
  Forall (fun d => is_Some (Committee.authority committee (Certificate.origin (CommittedSubDag.leader d)))) received ->
  Forall (fun e => match e with Fetched c => Forall (answers c) received | Sequence => True end) events ->
  chain_inv base before received s outs -> exists outs', chain_inv base before received (run committee active s events) outs'.
Proof.
  intros Hlead Hev. revert s outs. induction Hev as [|e events He Hev IH]; intros s outs Hinv; cbn [run]; [by exists outs|].
  destruct e as [|c].
  - pose proof (chain_inv_sequence _ _ _ _ _ Hinv) as Hi. assert ((run_step committee active s Sequence).2 = true) as Hgo.
    { unfold run_step. destruct (rx_sequence s); [done|]. by destruct (_ <? _)%nat. }
    destruct (run_step committee active s Sequence) as [s' go]. cbn [fst snd] in *. subst go. by eapply IH.
  - destruct (chain_inv_fetched _ _ _ _ _ c Hinv He Hlead) as (outs' & Hi & Hgo).
    destruct (run_step committee active s (Fetched c)) as [s' go]. cbn [fst snd] in *. subst go. by eapply IH.
Qed.

(** ** Fetches that fail *)

(** The worker answers a request with batches that have the digests they are found under, or
    fails; it need not have every batch. *)
Definition sound_client (c : client) : Prop := forall ds m, c ds = Some m -> map_Forall (fun d b => BatchOps.digest b = d) m.

(** The headers from [h] over the sub-dags [ds]. *)
Fixpoint chain_of (h : ConsensusHeader.t) (ds : list CommittedSubDag.t) : list ConsensusHeader.t :=
  match ds with
  | [] => []
  | d :: ds =>
      let x := ConsensusHeader.mk (ConsensusHeader.digest h) d (ConsensusHeader.number h + 1) 0 in
      x :: chain_of x ds
  end.

Lemma chain_of_snoc h ds d : chain_of h (ds ++ [d]) =
  chain_of h ds ++ [ConsensusHeader.mk (ConsensusHeader.digest (default h (last (chain_of h ds)))) d (ConsensusHeader.number (default h (last (chain_of h ds))) + 1) 0].
Proof.
  revert h. induction ds as [|x ds IH]; intros h; [done|]. cbn [chain_of app]. rewrite IH. f_equal. by rewrite last_cons_default.
Qed.

Lemma chain_of_linked h ds : linked h (chain_of h ds).
Proof. revert h. induction ds as [|d ds IH]; intros h; [done|]. cbn [chain_of linked]. by split_and!. Qed.

Lemma chain_of_sub_dags h ds : ConsensusHeader.sub_dag <$> chain_of h ds = ds.
Proof. revert h. induction ds as [|d ds IH]; intros h; [done|]. cbn [chain_of]. by rewrite fmap_cons, IH. Qed.

(** The batches that are collected have the digests of the payload. *)
Lemma collect_batches_Ok (m : gmap N Batch.t) c bs :
  map_Forall (fun d b => BatchOps.digest b = d) m -> collect_batches m c = Ok bs -> BatchOps.digest <$> bs = payload_digests c.
Proof.
  intros Hm. unfold collect_batches.
  assert (forall l acc, foldM (fun output_batches digest => batch ← ok_or (m !! digest) ClientRequestsFailed; Ok (output_batches ++ [batch])) acc l = Ok bs ->
    BatchOps.digest <$> bs = (BatchOps.digest <$> acc) ++ l) as Hf; [|by intros Hb%Hf].
  induction l as [|d l IH]; intros acc; cbn [foldM]; [intros [= <-]; by rewrite app_nil_r|].
  intros (acc' & (b & Hb%ok_or_Ok & [= <-])%bind_Ok & Hr%IH)%bind_Ok. rewrite Hr, fmap_app, <-app_assoc. cbn. by rewrite (Hm d b Hb).
Qed.

Lemma collect_all_Ok (m : gmap N Batch.t) cs acc bs : map_Forall (fun d b => BatchOps.digest b = d) m ->
  foldM (fun batches cert => output_batches ← collect_batches m cert; Ok (batches ++ [output_batches])) acc cs = Ok bs ->
  BatchOps.digest <$> concat bs = (BatchOps.digest <$> concat acc) ++ flat_map payload_digests cs.
Proof.
  intros Hm. revert acc. induction cs as [|c cs IH]; intros acc; cbn [foldM flat_map]; [intros [= <-]; by rewrite app_nil_r|].
  intros (acc' & (x & Hx & [= <-])%bind_Ok & Hr%IH)%bind_Ok. rewrite Hr, concat_app, fmap_app, <-app_assoc. f_equal.
  cbn [concat]. by rewrite app_nil_r, (collect_batches_Ok m c x Hm Hx).
Qed.

Lemma fetch_batches_Ok c d parent number o : sound_client c -> fetch_batches committee active c d parent number = Ok o ->
  ConsensusOutput.consensus_header o = ConsensusHeader.mk parent d number 0 /\ complete o /\ rewards committee o.
Proof.
  intros Hc. unfold fetch_batches. intros (a & Ha%ok_or_Ok & Hr)%bind_Ok.
  destruct (N.eqb_spec (CommittedSubDag.num_primary_blocks d) 0) as [Hz|Hz].
  - injection Hr as <-. split; [done|]. split; [|by exists a]. split; [|done]. cbn [ConsensusOutput.batch_digests ConsensusOutput.sub_dag].
    by rewrite no_blocks_no_digests.
  - apply bind_Ok in Hr as (m & Hm%ok_or_Ok & (bs & Hbs & [= <-])%bind_Ok). split; [done|]. split; [|by exists a]. split; [done|].
    apply Hc in Hm. exact (collect_all_Ok m _ [] bs Hm Hbs).
Qed.

(** Since the header [base], the sub-dags [taken] were received: each has its place in the chain,
    whether its batches were fetched or not. *)
Record numbered_inv (base : ConsensusHeader.t) (received taken : list CommittedSubDag.t) (s : t) : Prop := {
  num_taken : received = taken ++ rx_sequence s;
  num_parent : last_parent s = ConsensusHeader.digest (default base (last (chain_of base taken)));
  num_number : last_number s = ConsensusHeader.number (default base (last (chain_of base taken)));
  num_waiting : Forall (fun p => pending_header p ∈ chain_of base taken) (waiting s);
  num_outputs : Forall (fun o => ConsensusOutput.consensus_header o ∈ chain_of base taken /\ complete o /\ rewards committee o) (outputs s);
}.

Lemma numbered_step base received taken s e : numbered_inv base received taken s ->
  match e with Fetched c => sound_client c | Sequence => True end ->
  exists taken', numbered_inv base received taken' (run_step committee active s e).1.
Proof.
  intros Hinv Hc. pose proof Hinv as [Ht Hp Hn Hw Ho]. destruct e as [|c]; cbn [run_step].
  - destruct (rx_sequence s) as [|d rx] eqn:Hrx; [by exists taken|]. destruct (_ <? _)%nat; [|by exists taken]. exists (taken ++ [d]).
    assert (forall h, h ∈ chain_of base taken -> h ∈ chain_of base (taken ++ [d])) as Hmono by (rewrite chain_of_snoc; set_solver).
    constructor; cbn [fst rx_sequence last_parent last_number waiting outputs].
    + by rewrite <-app_assoc.
    + rewrite chain_of_snoc, last_snoc. cbn. by rewrite Hp, Hn.
    + rewrite chain_of_snoc, last_snoc. cbn. by rewrite Hn.
    + apply Forall_app. split; [eapply Forall_impl; [exact Hw|by auto]|]. constructor; [|done]. rewrite chain_of_snoc, <-Hp, <-Hn. set_solver.
    + eapply Forall_impl; [exact Ho|]. intros o (Hin & ? & ?). auto.
  - exists taken. destruct (waiting s) as [|p w] eqn:Hwait; [done|]. apply Forall_cons in Hw as [Hp0 Hw].
    destruct (fetch_batches _ _ _ _ _ _) as [o| | |] eqn:Hf; [|by constructor..].
    constructor; cbn [fst save_and_send rx_sequence last_parent last_number waiting outputs output_open]; try done.
    destruct (output_open s); [|done]. apply Forall_app. split; [done|]. constructor; [|done].
    destruct (fetch_batches_Ok _ _ _ _ _ Hc Hf) as (-> & ? & ?). by split_and!.
Qed.

Lemma run_numbered base received taken s events : Forall (fun e => match e with Fetched c => sound_client c | Sequence => True end) events ->
  numbered_inv base received taken s -> exists taken', numbered_inv base received taken' (run committee active s events).
Proof.
  intros Hev. revert taken s. induction Hev as [|e events He _ IH]; intros taken s Hinv; cbn [run]; [by exists taken|].
  destruct (numbered_step _ _ _ _ e Hinv He) as [taken' Hi]. destruct (run_step committee active s e) as [s' []]; [by eapply IH|by exists taken'].
Qed.

(** C15: the subscriber extends the chain of consensus headers by exactly the sub-dags that
    consensus sends it, in their order: whatever the interleaving of new sub-dags and of
    fetched batches, the outputs sent for execution and the sub-dags still waiting form one
    chain of consecutive numbers and linked digests from the header it started on, every
    output was saved, under its number and its digest, and carries exactly the batches its
    certificates name, in their order, with the author of the leader as beneficiary.  The worker answers requests in full and the leaders
    are members of the committee. *)
Theorem subscriber_extends_chain base s events :
  output_open s = true -> waiting s = [] -> last_parent s = ConsensusHeader.digest base -> last_number s = ConsensusHeader.number base ->
  Forall (fun d => is_Some (Committee.authority committee (Certificate.origin (CommittedSubDag.leader d)))) (rx_sequence s) ->
  Forall (fun e => match e with Fetched c => Forall (answers c) (rx_sequence s) | Sequence => True end) events ->
  exists outs, chain_inv base (outputs s) (rx_sequence s) (run committee active s events) outs.
Proof.
  intros Hop Hw Hp Hn Hlead Hev. apply run_chain_inv with (outs := []); [done..|].
  constructor; rewrite ?Hw, ?app_nil_r; done.
Qed.

End chain.

(** * Catching up *)

Section catching_up.
Context `{NetworkKeys} `{Crypto} `{ChainHash} `{!ChainHashBinds}.
Context (committee : Committee.t) (request : N -> nat -> option ConsensusHeader.t) (default_header : SealedHeader.t).
Import StateSync.

Lemma range_cons a b : a < b -> ConsensusDb.range a b = (a + 1) :: ConsensusDb.range (a + 1) b.
Proof.
  intros Hlt. unfold ConsensusDb.range. replace (N.to_nat (b - a)) with (S (N.to_nat (b - (a + 1)))) by lia.
  cbn [seq fmap list_fmap]. f_equal; [lia|]. rewrite <-fmap_S_seq, <-list_fmap_compose. apply list_fmap_ext. intros i x _. simpl. lia.
Qed.

Lemma range_nil a b : b <= a -> ConsensusDb.range a b = [].
Proof. intros Hle. unfold ConsensusDb.range. by replace (N.to_nat (b - a)) with 0%nat by lia. Qed.

(** Where a header that is followed comes from. *)
Definition trusted (db : ConsensusDb.t) (max_consensus h : ConsensusHeader.t) : Prop :=
  h = max_consensus \/ (exists n, ConsensusDb.blocks db !! n = Some h) \/ (exists h0, ConsensusHeader.verify_certificates h0 committee = Ok h).

Lemma request_valid_trusted db mx number tries h :
  request_valid committee request number tries = Ok h -> trusted db mx h.
Proof.
  induction tries as [|tries IH]; cbn [request_valid]; [done|]. destruct (request number tries) as [h0|]; [|done].
  destruct (ConsensusHeader.verify_certificates h0 committee) as [h1| | |] eqn:Hv; [|done..]. intros [= <-]. right. right. by exists h0.
Qed.

Lemma catch_up_loop_spec db mx k bus from sent result :
  (N.to_nat (ConsensusHeader.number mx - ConsensusHeader.number result) = k) ->
  linked from sent -> default from (last sent) = result -> Forall (trusted db mx) sent ->
  let '(bus', sent', r) := catch_up_loop committee request default_header db mx
    (ConsensusDb.range (ConsensusHeader.number result) (ConsensusHeader.number mx)) bus (ConsensusHeader.digest result) result sent in
  linked from sent' /\ Forall (trusted db mx) sent' /\
  (forall h, r = Ok h -> h = default from (last sent') /\ (ConsensusHeader.number result < ConsensusHeader.number mx -> h = mx) /\
     (ConsensusHeader.number mx <= ConsensusHeader.number result -> h = result)).
Proof.
  revert bus sent result. induction k as [|k IH]; intros bus sent result Hk Hl Hlast Ht.
  { rewrite range_nil by lia. cbn [catch_up_loop]. split_and!; [done|done|]. intros h [= <-]. split_and!; [done|lia|done]. }
  rewrite range_cons by lia. cbn [catch_up_loop]. set (number := ConsensusHeader.number result + 1) in *.
  destruct (if number =? _ then _ else _) as [h| | |] eqn:Hh; [|by split_and!..].
  assert (trusted db mx h /\ (number = ConsensusHeader.number mx -> h = mx)) as [Hth Hmx].
  { destruct (N.eqb_spec number (ConsensusHeader.number mx)) as [He|Hne]; [injection Hh as <-; split; [by left|done]|]. split; [|done].
    unfold MemTable.get in Hh. destruct (ConsensusDb.blocks db !! number) as [b|] eqn:Hb.
    - injection Hh as <-. right. left. by exists number.
    - by eapply request_valid_trusted. }
  destruct (N.eqb_spec (ConsensusHeader.digest_from_parts (ConsensusHeader.digest result) (ConsensusHeader.sub_dag h) number) (ConsensusHeader.digest h))
    as [Hd|]; cbn [negb]; [|by split_and!].
  rewrite Hd. apply chain_hash_binds in Hd as [Hp Hn].
  destruct (ConsensusBus.wait_for_execution default_header bus _) as [[bus' []]|]; [|by split_and!..].
  assert (linked from (sent ++ [h])) as Hl'. { apply linked_snoc. rewrite Hlast. unfold number in Hn. done. }
  specialize (IH bus' (sent ++ [h]) h). rewrite last_snoc in IH. rewrite <-Hn in IH.
  destruct (catch_up_loop _ _ _ _ _ _ bus' _ h _) as [[bus2 sent2] r]. destruct IH as (H1' & H2' & H3'); [lia|done|done| |].
  { apply Forall_app. split; [done|]. by constructor. }
  split_and!; [done|done|]. intros x Hx. destruct (H3' x Hx) as (Hx1 & Hx2 & Hx3). split_and!; [done| |lia]. intros Hlt.
  destruct (decide (number < ConsensusHeader.number mx)) as [|Hge]; [by apply Hx2|].
  rewrite Hx3 by lia. apply Hmx. lia.
Qed.

(** C30: a node that catches up follows only a linked chain: the headers it streams for
    execution are consecutive and each names the digest of the one before, from the last
    header it had; each was in its database, or had its certificates verified against the
    committee, or is the header it is catching up to; and when catching up succeeds, that
    header is the last one. *)
Theorem catch_up_linked db bus from mx :
  let '(bus', sent, r) := catch_up_consensus_from_to committee request default_header db bus from mx in
  linked from sent /\ Forall (trusted db mx) sent /\
  (forall h, r = Ok h -> h = default from (last sent) /\ (ConsensusHeader.number from < ConsensusHeader.number mx -> h = mx)).
Proof.
  unfold catch_up_consensus_from_to. destruct (N.leb_spec (ConsensusHeader.number mx) (ConsensusHeader.number from)).
  { split_and!; [done|constructor|]. intros h [= <-]. split; [done|lia]. }
  pose proof (catch_up_loop_spec db mx _ bus from [] from eq_refl I eq_refl (Forall_nil_2 _)) as Hs.
  destruct (catch_up_loop _ _ _ _ _ _ _ _ _ _) as [[bus' sent] r]. destruct Hs as (? & ? & Hok). split_and!; [done|done|].
  intros h Hh. destruct (Hok h Hh) as (? & ? & _). done.
Qed.

End catching_up.

(** * The properties at concrete chains *)

Section witnesses.
#[local] Existing Instances demo_keys demo_crypto demo_batch_hash.

Definition demo_chain_hash : ChainHash :=
  {| sub_dag_hash ds l t := N.pos (encode (l, t)); chain_hash p d n := N.pos (encode (p, d, n)) |}.
#[local] Existing Instance demo_chain_hash.

Lemma demo_chain_binds : ChainHashBinds.
Proof. constructor. intros p d n p' d' n' Heq%(inj N.pos)%(inj encode). by simplify_eq. Qed.
#[local] Existing Instance demo_chain_binds.

(** A certificate that names a batch, and the sub-dag it leads. *)
Definition batch_cert (author round : N) (b : Batch.t) : Certificate.t :=
  Certificate.mk (Header.mk author round 0 0 [(BatchOps.digest b, (0, 0))] ∅ (0, 0) None) (Unsigned 0) ∅ 0.

Definition batch_sub_dag (author round : N) (b : Batch.t) : CommittedSubDag.t :=
  CommittedSubDag.mk [batch_cert author round b] (batch_cert author round b) ReputationScores.default round.

Definition chain_sub_dags : list CommittedSubDag.t := [batch_sub_dag 1 2 demo_batch; batch_sub_dag 2 4 demo_batch'].

Definition demo_client : Subscriber.client := fun _ => Some (Worker.safe_request_batches [demo_batch; demo_batch']).

Definition demo_subscriber : Subscriber.t :=
  Subscriber.mk (ConsensusDb.mk ∅ ∅ ∅ CertificateStore.empty) [] true ConsensusRound.default 0 default_consensus_header []
    (ConsensusHeader.digest default_consensus_header) 0 [] chain_sub_dags.

Definition demo_events : list Subscriber.event :=
  [Subscriber.Sequence; Subscriber.Sequence; Subscriber.Fetched demo_client; Subscriber.Fetched demo_client].

Lemma demo_answers d : d ∈ chain_sub_dags -> answers demo_client d.
Proof.
  intros Hd. eexists. split; [done|]. split; [|by intros x b [Hx _]%safe_request_content].
  rewrite safe_request_dom. apply list_elem_of_In in Hd as [<-|[<-|[]]]; cbn [batch_sub_dag CommittedSubDag.certificates flat_map Subscriber.payload_digests
    batch_cert Certificate.header Header.payload fmap list_fmap fst app]; set_solver.
Qed.

Lemma subscriber_extends_chain_witness :
  length (Subscriber.outputs (Subscriber.run demo_committee true demo_subscriber demo_events)) = 2%nat /\
  exists outs, chain_inv demo_committee default_consensus_header [] chain_sub_dags (Subscriber.run demo_committee true demo_subscriber demo_events) outs.
Proof.
  split; [by vm_compute|].
  apply (subscriber_extends_chain demo_committee true default_consensus_header demo_subscriber demo_events); [done|done|done|done| |].
  - apply (bool_decide_unpack _). by vm_compute.
  - assert (Forall (answers demo_client) chain_sub_dags) as Ha by (apply Forall_forall; apply demo_answers).
    unfold demo_events. rewrite !Forall_cons. done.
Defined.

Definition sealed_zero : SealedHeader.t := SealedHeader.mk 0 0.

Definition follow_bus : ConsensusBus.t :=
  ConsensusBus.mk Observer (RecentBlocks.mk 1 [sealed_zero]) [] [] true [] true 0 0.

(** The headers of the two sub-dags. *)
Definition chain_header (prev : ConsensusHeader.t) (d : CommittedSubDag.t) : ConsensusHeader.t :=
  ConsensusHeader.mk (ConsensusHeader.digest prev) d (ConsensusHeader.number prev + 1) 0.
Definition header_1 : ConsensusHeader.t := chain_header default_consensus_header (batch_sub_dag 1 2 demo_batch).
Definition header_2 : ConsensusHeader.t := chain_header header_1 (batch_sub_dag 2 4 demo_batch').

Definition follow_db : ConsensusDb.t := ConsensusDb.mk {[1 := header_1]} ∅ ∅ CertificateStore.empty.

Lemma catch_up_linked_witness :
  let '(bus', sent, r) := StateSync.catch_up_consensus_from_to demo_committee (fun _ _ => None) sealed_zero follow_db follow_bus
                            default_consensus_header header_2 in
  sent = [header_1; header_2] /\ linked default_consensus_header sent.
Proof.
  pose proof (catch_up_linked demo_committee (fun _ _ => None) sealed_zero follow_db follow_bus default_consensus_header header_2) as Hc.
  assert ((StateSync.catch_up_consensus_from_to demo_committee (fun _ _ => None) sealed_zero follow_db follow_bus
    default_consensus_header header_2).1.2 = [header_1; header_2]) as Hs by by vm_compute.
  destruct (StateSync.catch_up_consensus_from_to _ _ _ _ _ _ _) as [[bus' sent] r]. split; [exact Hs|apply Hc].
Defined.

(** ** Restarts *)

(** The node saved the headers 1 and 2 and executed only the first. *)
Definition restart_db : ConsensusDb.t :=
  ConsensusDb.mk {[1 := header_1; 2 := header_2]} {[ConsensusHeader.digest header_1 := 1; ConsensusHeader.digest header_2 := 2]} ∅ CertificateStore.empty.

Definition restarted (later : list CommittedSubDag.t) : Subscriber.t :=
  Subscriber.mk restart_db [] true ConsensusRound.default 0 default_consensus_header [] 0 0 [] later.

(** The restarted task sends the missing header for execution but does not wait for it: the
    next sub-dag gets number 2 again, and replaces the saved header. *)
Lemma restart_reuses_number :
  let root := Some (ConsensusHeader.digest header_1) in
  let next := batch_sub_dag 3 6 demo_batch in
  let s := (Subscriber.start demo_committee 50 true demo_client (restarted [next]) root root).1 in
  let s' := Subscriber.run demo_committee true s [Subscriber.Sequence; Subscriber.Fetched demo_client] in
  ConsensusOutput.number <$> Subscriber.outputs s' = [2; 2] /\
  ConsensusDb.blocks (Subscriber.db s') !! 2 = Some (chain_header header_1 next).
Proof. by vm_compute. Qed.

(** A sub-dag whose batches cannot be fetched is dropped: the chain that is saved and
    executed misses its number. *)
Lemma fetch_error_leaves_gap :
  let s' := Subscriber.run demo_committee true demo_subscriber
    [Subscriber.Sequence; Subscriber.Sequence; Subscriber.Fetched (fun _ => None); Subscriber.Fetched demo_client] in
  ConsensusOutput.number <$> Subscriber.outputs s' = [2] /\ ConsensusDb.blocks (Subscriber.db s') !! 1 = None.
Proof. by vm_compute. Qed.

(** The digest of a header does not cover the reputation scores: a peer can change them in
    a header that a node catches up with. *)
Lemma digest_ignores_scores h scores :
  let d := ConsensusHeader.sub_dag h in
  ConsensusHeader.digest (ConsensusHeader.mk (ConsensusHeader.parent_hash h)
    (CommittedSubDag.mk (CommittedSubDag.certificates d) (CommittedSubDag.leader d) scores (CommittedSubDag.commit_timestamp_field d))
    (ConsensusHeader.number h) (ConsensusHeader.extra h)) = ConsensusHeader.digest h.
Proof. done. Qed.

End witnesses.
