(* ===== verification/System.v ===== *)
(** The nodes of a network together: what votes, certificates, the commits of Bullshark and
    the chain of outputs give when they are composed.  Honest nodes vote and propose as
    modelled, faulty ones are arbitrary; any two nodes then have the same committed sub-dags
    and the same chain of consensus outputs. *)

From S2P Require Import Prelude Storage Committee Certificate CertStore Output ConsensusState OrderDag LeaderSchedule Bullshark.
From S2P Require Import BullsharkFacts Demo CertificateSafety CertManager BullsharkSafety CertValidator CommitOrder Agreement Consensus.
From S2P Require Import Proposer ProposerSafety VoteHandler VoteSafety Worker WorkerSafety ConsensusChain ChainSafety.
Import DagFacts Bullshark.

Section system.
Context `{NetworkKeys} `{Crypto} `{SeededChoice} `{!BindsHeader}.
Implicit Types (c : Certificate.t) (cs : list Certificate.t).

(** A network: the faulty authorities, and what each honest one has signed. *)
Record network := mk_network {
  faulty : gset AuthorityIdentifier;
  votes : AuthorityIdentifier -> list Vote.t;
  proposals : AuthorityIdentifier -> list Header.t;
}.

(** The faulty authorities hold less than the validity threshold; the others vote with the
    handler of vote requests and propose with the proposer. *)
Record honest_network (committee : Committee.t) (net : network) : Prop := {
  hn_faulty : Committee.reached_validity committee (Committee.weight committee (faulty net)) = false;
  hn_honest a : a ∉ faulty net -> honest (votes net a) (proposals net a);
}.

(** A certificate that a node accepts: its header is valid, its signatures verify, and the
    signature of an honest authority was made by it. *)
Record attested (committee : Committee.t) (net : network) c : Prop := {
  at_header : cert_wf committee c;
  at_verified : exists c', Certificate.verify_cert c committee = Ok c';
  at_endorsed a : a ∉ faulty net -> a ∈ CertificateFacts.signer_ids c committee -> endorsed (votes net a) (proposals net a) a c;
}.

Lemma attested_no_equivocation committee net cs cs' :
  Committee.wf committee -> 0 < Committee.stake (Committee.authorities committee) -> honest_network committee net ->
  Forall (attested committee net) cs -> Forall (attested committee net) cs' -> no_equivocation cs cs'.
Proof.
  rewrite !Forall_forall. intros Hwf Hpos [Hf Hh] Hcs Hcs' x y Hx Hy Hr Ho.
  destruct (Hcs x Hx) as [_ [x' (sx & (_ & _ & Hqx) & _)%verify_cert_iff] Hex]; [|done].
  destruct (Hcs' y Hy) as [_ [y' (sy & (_ & _ & Hqy) & _)%verify_cert_iff] Hey]; [|done].
  destruct (CommitteeFacts.quorums_honest committee Hwf _ _ (faulty net) Hpos Hqx Hqy Hf) as (a & [Hax Hay]%elem_of_intersection & Hnf).
  apply (endorsed_agree (votes net a) (proposals net a) a); auto.
Qed.

Lemma has_stake_positive committee : ScheduleFacts.has_stake committee -> 0 < Committee.stake (Committee.authorities committee).
Proof.
  intros (a & Ha & Hpos). unfold Committee.stake.
  pose proof (sumN_submseteq [Authority.voting_power a] (Authority.voting_power <$> btree_values (Committee.authorities committee))) as Hle.
  cbn in Hle. rewrite N.add_0_r in Hle. enough (Authority.voting_power a <= sumN (Authority.voting_power <$> btree_values (Committee.authorities committee))) by lia.
  apply Hle, singleton_submseteq_l. by apply list_elem_of_fmap_2.
Qed.

Lemma attested_wf committee net cs x : Forall (attested committee net) cs -> x ∈ cs -> cert_wf committee x.
Proof. rewrite Forall_forall. intros Hcs Hx. apply (Hcs x Hx). Qed.

Lemma attested_runs_agree net b gc_depth cs cs' b1 s1 ds b1' s1' ds' :
  protocol_inv b (ConsensusState.new gc_depth) -> honest_network (committee b) net ->
  Forall (attested (committee b) net) cs -> Forall (attested (committee b) net) cs' ->
  quorum_parents (committee b) cs -> quorum_parents (committee b) cs' ->
  run b (ConsensusState.new gc_depth) cs = Ok (b1, s1, ds) -> run b (ConsensusState.new gc_depth) cs' = Ok (b1', s1', ds') ->
  let n := (length ds `min` length ds')%nat in Forall2 same_sub_dag (take n ds) (take n ds').
Proof.
  intros Hp Hn Hcs Hcs' Hq Hq' Hrun Hrun'.
  eapply (runs_agree b gc_depth cs cs'); [done|by intros x; apply attested_wf with net|by intros x; apply attested_wf with net|done|done| |done|done].
  destruct Hp as ([Hwf _ Hst%has_stake_positive _ _ _ _] & _). by apply (attested_no_equivocation (committee b) net).
Qed.

(** C3: Agreement of a network.  When the faulty authorities hold less than the validity
    threshold and the honest ones vote and propose as modelled, two nodes that start in the
    same state and process verified certificates that reference a quorum of the round below,
    each its own certificates in its own order, commit the same sub-dags in the same order,
    as far as both have committed. *)
Theorem honest_nodes_agree net b gc_depth cs cs' b1 s1 ds b1' s1' ds' :
  protocol_inv b (ConsensusState.new gc_depth) -> honest_network (committee b) net ->
  Forall (attested (committee b) net) cs -> Forall (attested (committee b) net) cs' ->
  quorum_parents (committee b) cs -> quorum_parents (committee b) cs' ->
  run b (ConsensusState.new gc_depth) cs = Ok (b1, s1, ds) -> run b (ConsensusState.new gc_depth) cs' = Ok (b1', s1', ds') ->
  let n := (length ds `min` length ds')%nat in Forall2 same_sub_dag (take n ds) (take n ds').
Proof. apply attested_runs_agree. Qed.

End system.

(** * The chains of two nodes *)

Section chains.
Context `{NetworkKeys} `{Crypto} `{SeededChoice} `{!BindsHeader} `{ChainHash} `{BatchHash} `{!ChainHashBinds}.
Import Subscriber.

(** Outputs with the same place in the chain, sub-dag, batches and beneficiary. *)
Record same_output (o o' : ConsensusOutput.t) : Prop := {
  so_number : ConsensusOutput.number o = ConsensusOutput.number o';
  so_parent : ConsensusOutput.parent_hash o = ConsensusOutput.parent_hash o';
  so_hash : ConsensusOutput.consensus_header_hash o = ConsensusOutput.consensus_header_hash o';
  so_beneficiary : ConsensusOutput.beneficiary o = ConsensusOutput.beneficiary o';
  so_sub_dag : same_sub_dag (ConsensusOutput.sub_dag o) (ConsensusOutput.sub_dag o');
  so_batches : ConsensusOutput.batch_digests o = ConsensusOutput.batch_digests o';
  so_content : BatchOps.digest <$> ConsensusOutput.flatten_batches o = BatchOps.digest <$> ConsensusOutput.flatten_batches o';
}.

Lemma same_digest d d' : same_sub_dag d d' -> ConsensusHeader.sub_dag_digest d = ConsensusHeader.sub_dag_digest d'.
Proof.
  intros [Hc [Hl _] _ Ht]. unfold ConsensusHeader.sub_dag_digest. rewrite Hl, Ht. f_equal.
  induction Hc as [|x y l k [Hxy _] _ IH]; [done|]. rewrite !fmap_cons. by rewrite Hxy, IH.
Qed.

Lemma same_payload d d' : same_sub_dag d d' ->
  flat_map payload_digests (CommittedSubDag.certificates d) = flat_map payload_digests (CommittedSubDag.certificates d').
Proof.
  intros [Hc _ _ _]. induction Hc as [|x y l k [_ Hxy] _ IH]; [done|]. cbn [flat_map]. rewrite IH. f_equal.
  unfold payload_digests. by injection Hxy as _ _ _ _ -> _ _.
Qed.

(** Chains from one header over the same sub-dags have the same headers. *)
Lemma linked_agree h h' l l' i x x' :
  ConsensusHeader.digest h = ConsensusHeader.digest h' -> ConsensusHeader.number h = ConsensusHeader.number h' ->
  ConsensusChain.linked h l -> ConsensusChain.linked h' l' -> (forall j y y', l !! j = Some y -> l' !! j = Some y' -> same_sub_dag (ConsensusHeader.sub_dag y) (ConsensusHeader.sub_dag y')) ->
  l !! i = Some x -> l' !! i = Some x' ->
  ConsensusHeader.parent_hash x = ConsensusHeader.parent_hash x' /\ ConsensusHeader.number x = ConsensusHeader.number x' /\
  ConsensusHeader.digest x = ConsensusHeader.digest x'.
Proof.
  revert h h' l l'. induction i as [|i IH]; intros h h' [|y l] [|y' l'] Hd Hn Hl Hl' Hs Hx Hx'; try done;
    destruct Hl as (Hp & Hy & Hl), Hl' as (Hp' & Hy' & Hl'); pose proof (Hs 0%nat y y' eq_refl eq_refl) as Hsub;
    (assert (ConsensusHeader.digest y = ConsensusHeader.digest y') as Hdy
       by (unfold ConsensusHeader.digest, ConsensusHeader.digest_from_parts; rewrite (same_digest _ _ Hsub); congruence)).
  - cbn in Hx, Hx'. simplify_eq. split_and!; congruence.
  - cbn in Hx, Hx'. apply (IH y y' l l'); try done; [congruence|]. intros j. apply (Hs (S j)).
Qed.

(** A node that runs Bullshark over the certificates [cs] and executes from the header
    [base]: its subscriber handles [events] over the committed sub-dags.  The worker may
    fail to answer a request; the batches of an answer have the digests they are found under. *)
Definition node_runs b gc_depth base cs (sub : t) : Prop :=
  exists b1 s1 ds start active events,
    BullsharkSafety.run b (ConsensusState.new gc_depth) cs = Ok (b1, s1, ds) /\
    outputs start = [] /\ waiting start = [] /\
    last_parent start = ConsensusHeader.digest base /\ last_number start = ConsensusHeader.number base /\ rx_sequence start = ds /\
    Forall (fun e => match e with Fetched c => sound_client c | Sequence => True end) events /\
    sub = Subscriber.run (committee b) active start events.

Lemma node_runs_numbered b gc_depth base cs sub : node_runs b gc_depth base cs sub ->
  exists b1 s1 ds taken, BullsharkSafety.run b (ConsensusState.new gc_depth) cs = Ok (b1, s1, ds) /\ numbered_inv (committee b) base ds taken sub.
Proof.
  intros (b1 & s1 & ds & start & active & events & Hrun & Ho & Hw & Hpa & Hnu & Hrx & Hev & ->). exists b1, s1, ds.
  destruct (run_numbered (committee b) active base ds [] start events Hev) as [taken Hinv]; [|by exists taken].
  constructor; rewrite ?Hw, ?Ho; done.
Qed.

Lemma chains_agree committee0 base ds ds' taken taken' sub sub' o o' :
  numbered_inv committee0 base ds taken sub -> numbered_inv committee0 base ds' taken' sub' ->
  (forall j d d', ds !! j = Some d -> ds' !! j = Some d' -> same_sub_dag d d') ->
  o ∈ outputs sub -> o' ∈ outputs sub' -> ConsensusOutput.number o = ConsensusOutput.number o' -> same_output o o'.
Proof.
  intros [Ht _ _ _ Hos] [Ht' _ _ _ Hos'] Hs Ho Ho' Hnum. rewrite Forall_forall in Hos, Hos'.
  destruct (Hos o Ho) as ([i Hi]%list_elem_of_lookup & [Hb Hf] & (a & Ha & Hba)).
  destruct (Hos' o' Ho') as ([i' Hi']%list_elem_of_lookup & [Hb' Hf'] & (a' & Ha' & Hba')).
  pose proof (chain_of_linked base taken) as Hl. pose proof (chain_of_linked base taken') as Hl'.
  assert (i = i') as <-.
  { pose proof (linked_numbers _ _ _ _ Hl Hi) as Hn. pose proof (linked_numbers _ _ _ _ Hl' Hi') as Hn'. cbn in Hn, Hn'. lia. }
  assert (forall j y y', chain_of base taken !! j = Some y -> chain_of base taken' !! j = Some y' ->
    same_sub_dag (ConsensusHeader.sub_dag y) (ConsensusHeader.sub_dag y')) as Hsub.
  { intros j y y' Hy Hy'. apply (Hs j).
    - rewrite Ht. apply lookup_app_l_Some. rewrite <-(chain_of_sub_dags base taken), list_lookup_fmap, Hy. done.
    - rewrite Ht'. apply lookup_app_l_Some. rewrite <-(chain_of_sub_dags base taken'), list_lookup_fmap, Hy'. done. }
  destruct (linked_agree base base _ _ i _ _ eq_refl eq_refl Hl Hl' Hsub Hi Hi') as (Hpa & Hnu & Hdi).
  pose proof (Hsub i _ _ Hi Hi') as Hoo. cbn [ConsensusHeader.sub_dag ConsensusOutput.consensus_header] in Hoo. pose proof (same_payload _ _ Hoo).
  assert (a = a') as -> by (destruct (sd_leader _ _ Hoo) as [_ [= Hau _ _ _ _ _ _]]; unfold Certificate.origin in *; congruence).
  split; try done; congruence.
Qed.

Lemma attested_chains_agree net b gc_depth base cs cs' sub sub' o o' :
  protocol_inv b (ConsensusState.new gc_depth) -> honest_network (committee b) net ->
  Forall (attested (committee b) net) cs -> Forall (attested (committee b) net) cs' ->
  quorum_parents (committee b) cs -> quorum_parents (committee b) cs' ->
  node_runs b gc_depth base cs sub -> node_runs b gc_depth base cs' sub' ->
  o ∈ outputs sub -> o' ∈ outputs sub' -> ConsensusOutput.number o = ConsensusOutput.number o' -> same_output o o'.
Proof.
  intros Hp Hn Hcs Hcs' Hq Hq' (b1 & s1 & ds & taken & Hrun & Hinv)%node_runs_numbered (b1' & s1' & ds' & taken' & Hrun' & Hinv')%node_runs_numbered.
  apply (chains_agree (committee b) base ds ds' taken taken'); try done. intros j d d' Hd Hd'.
  assert (Forall2 same_sub_dag (take (length ds `min` length ds') ds) (take (length ds `min` length ds') ds')) as Hall
    by exact (attested_runs_agree net b gc_depth cs cs' b1 s1 ds b1' s1' ds' Hp Hn Hcs Hcs' Hq Hq' Hrun Hrun').
  eapply Forall2_lookup_lr in Hall; [done|..]; rewrite lookup_take_lt; try done; apply lookup_lt_Some in Hd, Hd'; lia.
Qed.

(** C2: Agreement of the chains.  Two nodes of an honest network that execute from the same
    consensus header, each with its own certificates and any interleaving of commits and
    fetches of batches: two outputs with the same number that they send for execution have the same parent,
    digest, sub-dag, batches and beneficiary.  A request for batches may fail, in which case
    the node sends no output with that number ([fetch_error_leaves_gap]); an answer
    gives batches under their own digests. *)
Theorem honest_chains_agree net b gc_depth base cs cs' sub sub' o o' :
  protocol_inv b (ConsensusState.new gc_depth) -> honest_network (committee b) net ->
  Forall (attested (committee b) net) cs -> Forall (attested (committee b) net) cs' ->
  quorum_parents (committee b) cs -> quorum_parents (committee b) cs' ->
  node_runs b gc_depth base cs sub -> node_runs b gc_depth base cs' sub' ->
  o ∈ outputs sub -> o' ∈ outputs sub' -> ConsensusOutput.number o = ConsensusOutput.number o' -> same_output o o'.
Proof. apply attested_chains_agree. Qed.

End chains.

(** * Evaluation *)

Section witnesses.
#[local] Existing Instances demo_keys whole_crypto demo_choice whole_binds_header.

(** Two authorities, three rounds. *)
Definition duo_cert (author round : N) (parents : list Digest) : Certificate.t :=
  Certificate.mk (demo_header author round parents) (VerifiedDirectly (HeaderOps.digest (demo_header author round parents))) {[0; 1]} 0.

Definition duo_genesis : list Digest := Certificate.digest <$> Certificate.genesis pair_committee.
Definition duo_round1 : list Certificate.t := (fun i => duo_cert i 1 duo_genesis) <$> [1; 2].
Definition duo_round2 : list Certificate.t := (fun i => duo_cert i 2 (demo_digests duo_round1)) <$> [1; 2].
Definition duo_tip : Certificate.t := duo_cert 1 3 (demo_digests duo_round2).
Definition duo_view : list Certificate.t := duo_round1 ++ duo_round2 ++ [duo_tip].
Definition duo_view' : list Certificate.t := reverse duo_round1 ++ reverse duo_round2 ++ [duo_tip].

(** Each proposes its headers when its timer expires. *)
Definition duo_parameters (a : AuthorityIdentifier) : Proposer.parameters := Proposer.mk_parameters a pair_committee 1 10 1 2.
Definition duo_schedule : LeaderSchedule.t := LeaderSchedule.mk pair_committee LeaderSwapTable.default.
Definition duo_events : list Proposer.event :=
  [Proposer.MaxDelayTick; Proposer.HeaderTask 1 (0, 0); Proposer.PendingHeader; Proposer.NewParents duo_round1 1;
   Proposer.MaxDelayTick; Proposer.HeaderTask 2 (0, 0); Proposer.PendingHeader; Proposer.NewParents duo_round2 2;
   Proposer.MaxDelayTick; Proposer.HeaderTask 3 (0, 0)].
Definition duo_proposer (a : AuthorityIdentifier) : Proposer.t :=
  foldl (fun p e => (Proposer.run_step (duo_parameters a) e p).1) (Proposer.new (duo_parameters a) duo_schedule ∅ 0 [])
    (if bool_decide (a = 1 \/ a = 2) then duo_events else []).

(** Each votes for the headers of the other, with the certificates at hand. *)
Definition duo_config (a : AuthorityIdentifier) : ConsensusConfig.t :=
  ConsensusConfig.mk pair_committee (WorkerCache.mk 0 ∅)
    (list_to_map ((fun c => (Certificate.digest c, c)) <$> Certificate.genesis pair_committee)) a 50 SyncConfig.default_config.
Definition duo_validator : CertificateValidator.t :=
  CertificateValidator.mk (CertificateManager.new (foldl CertificateStore.write CertificateStore.empty duo_view) 0 0) true 0 [].
Definition duo_handler : RequestHandler.t := RequestHandler.mk duo_validator demo_bus 1 (0, 0) ∅ ∅ ∅ ∅ ∅.
Definition duo_voting (a : AuthorityIdentifier) : RequestHandler.t * list Vote.t :=
  foldl (fun hv c =>
      let r := RequestHandler.vote (duo_config a) demo_sealed (fun d => d) demo_env (Certificate.origin c) (Certificate.header c) [] hv.1 in
      (r.1, hv.2 ++ answered r.2)) (duo_handler, []) (filter (fun c => Certificate.origin c <> a) duo_view).

Definition duo_network : network := mk_network ∅ (fun a => (duo_voting a).2) (fun a => Proposer.headers (duo_proposer a)).

Definition duo_bullshark : Bullshark.t := Bullshark.new pair_committee 10 duo_schedule 0.

(** ** The network is honest *)

Lemma proposer_run_history cfg es p :
  ProposerFacts.history cfg p ->
  (forall i, (i < length es)%nat -> let p' := foldl (fun p e => (Proposer.run_step cfg e p).1) p (take i es) in
    exists e, es !! i = Some e /\ ProposerFacts.in_range (Proposer.select cfg e p').1) ->
  ProposerFacts.history cfg (foldl (fun p e => (Proposer.run_step cfg e p).1) p es).
Proof.
  revert p. induction es as [|e es IH]; intros p Hp Hr; [done|]. cbn [foldl]. apply IH.
  - apply ProposerFacts.history_step; [done|]. destruct (Hr 0%nat) as (e' & [= <-] & He); [cbn; lia|done].
  - intros i Hi. apply (Hr (S i)). cbn. lia.
Qed.

Lemma duo_proposals a : ProposerFacts.history (duo_parameters a) (duo_proposer a).
Proof.
  apply proposer_run_history; [by apply ProposerFacts.history_start|]. case_bool_decide as Ha; [|cbn; lia].
  intros i Hi. change (length duo_events) with 10%nat in Hi.
  do 10 (destruct i as [|i]; [eexists; split; [done|]; destruct Ha as [-> | ->]; vm_compute; done|]). lia.
Qed.

Lemma duo_votes a : exists h', rtc (serves (duo_config a) demo_sealed (fun d => d)) (duo_handler, []) (h', (duo_voting a).2).
Proof.
  exists (duo_voting a).1. unfold duo_voting. generalize (filter (fun c => Certificate.origin c <> a) duo_view) as l. intros l.
  generalize (@nil Vote.t) as vs. generalize duo_handler as h. induction l as [|c l IH]; intros h vs; [done|]. cbn [foldl].
  eapply rtc_l; [apply serves_vote|]. apply IH.
Qed.

Lemma duo_honest : honest_network pair_committee duo_network.
Proof.
  split; [by vm_compute|]. intros a _. split.
  - destruct (duo_votes a) as [h' Hh]. by exists (duo_config a), demo_sealed, (fun d => d), duo_handler, h'.
  - by exists (duo_parameters a), (duo_proposer a); split; [apply duo_proposals|].
Qed.

Lemma endorsed_exists votes proposals a c :
  (a = Certificate.origin c -> Exists (fun p => Header.round p = Certificate.round c /\ HeaderOps.digest p = Certificate.digest c) proposals) /\
  (a <> Certificate.origin c -> Exists (fun v => Vote.origin v = Certificate.origin c /\ Vote.round v = Certificate.round c /\
    Vote.digest v = Certificate.digest c) votes) -> endorsed votes proposals a c.
Proof. intros [Hp Hv]. unfold endorsed. destruct (decide _) as [Ha|Ha]; [apply Hp in Ha|apply Hv in Ha]; by apply Exists_exists in Ha. Qed.

Definition verifies (c : Certificate.t) : bool := match Certificate.verify_cert c pair_committee with Ok _ => true | _ => false end.

Lemma attested_all cs :
  Forall (fun c => cert_wf pair_committee c /\ verifies c = true /\
    Forall (fun a => (a = Certificate.origin c -> Exists (fun p => Header.round p = Certificate.round c /\ HeaderOps.digest p = Certificate.digest c)
                        (Proposer.headers (duo_proposer a))) /\
      (a <> Certificate.origin c -> Exists (fun v => Vote.origin v = Certificate.origin c /\ Vote.round v = Certificate.round c /\
        Vote.digest v = Certificate.digest c) (duo_voting a).2)) (elements (CertificateFacts.signer_ids c pair_committee))) cs ->
  Forall (attested pair_committee duo_network) cs.
Proof.
  intros Hall. eapply Forall_impl; [exact Hall|]. intros c (Hwf & Hv & He). rewrite Forall_forall in He. split; [done| |].
  - unfold verifies in Hv. destruct (Certificate.verify_cert c pair_committee) as [c'| | |]; [by exists c'|done..].
  - intros a _ Ha. apply endorsed_exists, He. by apply elem_of_elements.
Qed.

Lemma duo_protocol_inv : protocol_inv duo_bullshark (ConsensusState.new 50).
Proof.
  assert (set_Forall (fun i => 0 < Committee.voting_power_by_id pair_committee i) (Committee.members pair_committee)) as Hpos
    by (apply (bool_decide_unpack _); by vm_compute).
  split_and!; [|apply new_state_wf|done]. constructor; [apply pair_committee_wf|by vm_compute| | |done|done|].
  - exists (demo_authority 1). split; [|done]. apply (bool_decide_unpack _). by vm_compute.
  - split; [done|]. split; [constructor|done].
  - apply ScheduleFacts.safe_threshold_0; [apply pair_committee_wf|done|by vm_compute].
Qed.

Lemma duo_attested : Forall (attested pair_committee duo_network) duo_view.
Proof. apply attested_all. unfold cert_wf. apply (bool_decide_unpack _). by vm_compute. Qed.

Lemma duo_attested' : Forall (attested pair_committee duo_network) duo_view'.
Proof. apply attested_all. unfold cert_wf. apply (bool_decide_unpack _). by vm_compute. Qed.

Lemma duo_quorum : quorum_parents pair_committee duo_view.
Proof. apply quorum_parents_all, (bool_decide_unpack _). by vm_compute. Qed.

Lemma duo_quorum' : quorum_parents pair_committee duo_view'.
Proof. apply quorum_parents_all, (bool_decide_unpack _). by vm_compute. Qed.

Definition duo_result (cs : list Certificate.t) : Bullshark.t * ConsensusState.t * list CommittedSubDag.t :=
  match BullsharkSafety.run duo_bullshark (ConsensusState.new 50) cs with Ok r => r | _ => (duo_bullshark, ConsensusState.new 50, []) end.

Lemma honest_nodes_agree_witness :
  let n := (length (duo_result duo_view).2 `min` length (duo_result duo_view').2)%nat in
  n = 1%nat /\ Forall2 same_sub_dag (take n (duo_result duo_view).2) (take n (duo_result duo_view').2).
Proof.
  split; [by vm_compute|].
  apply (honest_nodes_agree duo_network duo_bullshark 50 duo_view duo_view' (duo_result duo_view).1.1 (duo_result duo_view).1.2 (duo_result duo_view).2
    (duo_result duo_view').1.1 (duo_result duo_view').1.2 (duo_result duo_view').2).
  - apply duo_protocol_inv.
  - apply duo_honest.
  - apply duo_attested.
  - apply duo_attested'.
  - apply duo_quorum.
  - apply duo_quorum'.
  - vm_compute. reflexivity.
  - vm_compute. reflexivity.
Defined.

#[local] Existing Instances demo_chain_hash demo_chain_binds demo_batch_hash.

Definition duo_subscriber (cs : list Certificate.t) : Subscriber.t :=
  Subscriber.mk (ConsensusDb.mk ∅ ∅ ∅ CertificateStore.empty) [] true ConsensusRound.default 0 default_consensus_header []
    (ConsensusHeader.digest default_consensus_header) 0 [] (duo_result cs).2.

(** The first node is active in consensus, the second is not. *)
Definition duo_node (active : bool) (cs : list Certificate.t) : Subscriber.t :=
  Subscriber.run pair_committee active (duo_subscriber cs) [Subscriber.Sequence; Subscriber.Fetched (fun _ => Some ∅)].

Lemma node_runs_view active cs b s ds :
  BullsharkSafety.run duo_bullshark (ConsensusState.new 50) cs = Ok (b, s, ds) ->
  node_runs duo_bullshark 50 default_consensus_header cs (duo_node active cs).
Proof.
  intros Hrun. assert ((duo_result cs).2 = ds) as Hds by (unfold duo_result; by rewrite Hrun).
  exists b, s, ds, (duo_subscriber cs), active, [Subscriber.Sequence; Subscriber.Fetched (fun _ => Some ∅)]. split_and!; try done.
  constructor; [done|]. constructor; [|done]. intros x m [= <-]. apply map_Forall_empty.
Qed.

Lemma duo_node_runs active : node_runs duo_bullshark 50 default_consensus_header duo_view (duo_node active duo_view).
Proof.
  apply (node_runs_view active duo_view (duo_result duo_view).1.1 (duo_result duo_view).1.2 (duo_result duo_view).2). vm_compute. reflexivity.
Qed.

Lemma duo_node_runs' active : node_runs duo_bullshark 50 default_consensus_header duo_view' (duo_node active duo_view').
Proof.
  apply (node_runs_view active duo_view' (duo_result duo_view').1.1 (duo_result duo_view').1.2 (duo_result duo_view').2). vm_compute. reflexivity.
Qed.

Definition duo_output (active : bool) (cs : list Certificate.t) : ConsensusOutput.t :=
  default (ConsensusOutput.mk (ConsensusHeader.sub_dag default_consensus_header) [] 0 [] 0 0 0 false)
    (head (Subscriber.outputs (duo_node active cs))).

Lemma duo_outputs : Subscriber.outputs (duo_node true duo_view) = [duo_output true duo_view] /\
  Subscriber.outputs (duo_node false duo_view') = [duo_output false duo_view'].
Proof. split; vm_compute; reflexivity. Qed.

Lemma honest_chains_agree_witness :
  ConsensusOutput.number (duo_output true duo_view) = 1 /\ same_output (duo_output true duo_view) (duo_output false duo_view').
Proof.
  split; [by vm_compute|].
  apply (honest_chains_agree duo_network duo_bullshark 50 default_consensus_header duo_view duo_view' (duo_node true duo_view) (duo_node false duo_view')).
  - apply duo_protocol_inv.
  - apply duo_honest.
  - apply duo_attested.
  - apply duo_attested'.
  - apply duo_quorum.
  - apply duo_quorum'.
  - apply duo_node_runs.
  - apply duo_node_runs'.
  - rewrite (proj1 duo_outputs). by apply list_elem_of_singleton.
  - rewrite (proj2 duo_outputs). by apply list_elem_of_singleton.
  - vm_compute. reflexivity.
Defined.

End witnesses.
