(* ===== verification/RecoverySafety.v ===== *)
(** Restarting consensus: the state read back from the store decides as the state that was
    lost, for every certificate that can still be committed. *)

From S2P Require Import Prelude Storage Committee Certificate CertStore Output ConsensusState OrderDag LeaderSchedule Bullshark.
From S2P Require Import BullsharkFacts Demo CertStoreSafety BullsharkSafety CommitOrder Consensus Worker ConsensusChain.
Import DagFacts CertStoreFacts Bullshark.

(** * The table of committed rounds *)

Section rounds.
Import ConsensusDb.
Implicit Types (m : gmap AuthorityIdentifier Round).

Lemma entry_max_lookup m x a :
  entry_max m x !! a = if decide (a = x.1) then Some (N.max (default 0 (m !! a)) x.2) else m !! a.
Proof.
  unfold entry_max. case_decide as Ha.
  - subst. case_match; rewrite lookup_insert_eq; simpl; f_equal; lia.
  - case_match; by rewrite lookup_insert_ne.
Qed.

Lemma fold_entry_mono m l a r :
  m !! a = Some r -> exists r', foldl entry_max m l !! a = Some r' /\ r <= r'.
Proof.
  revert m r. induction l as [|x l IH]; intros m r Ha; [by exists r|]. cbn [foldl].
  pose proof (entry_max_lookup m x a) as He. case_decide.
  - destruct (IH _ _ He) as (r' & ? & ?). rewrite Ha in *. simpl in *. exists r'. split; [done|lia].
  - rewrite Ha in He. by apply IH.
Qed.

Lemma fold_entry_covers m l a r :
  (a, r) ∈ l -> exists r', foldl entry_max m l !! a = Some r' /\ r <= r'.
Proof.
  revert m. induction l as [|x l IH]; intros m; [by intros ?%elem_of_nil|]. cbn [foldl].
  intros [<-|Hin]%elem_of_cons; [|by apply IH].
  pose proof (entry_max_lookup m (a, r) a) as He. rewrite decide_True in He by done.
  destruct (fold_entry_mono _ l _ _ He) as (r' & ? & ?). exists r'. split; [done|]. simpl in *. lia.
Qed.

Lemma fold_entry_origin m l a r :
  foldl entry_max m l !! a = Some r -> m !! a = Some r \/ (a, r) ∈ l.
Proof.
  revert m. induction l as [|[a' r'] l IH]; intros m; cbn [foldl]; [by left|].
  intros [Hm|Hin]%IH; [|right; set_solver]. rewrite entry_max_lookup in Hm. case_decide as Ha; [|by left]. cbn [fst snd] in *. subst a'.
  injection Hm as <-. destruct (m !! a) as [r0|] eqn:Hr; simpl.
  - destruct (N.max_spec r0 r') as [[_ ->]|[_ ->]]; [right; set_solver|by left].
  - rewrite N.max_0_l. right. set_solver.
Qed.

(** What a sub-dag contributes. *)
Definition sub_dag_slots (d : CommittedSubDag.t) : list (AuthorityIdentifier * Round) :=
  slot (CommittedSubDag.leader d) :: (slot <$> CommittedSubDag.certificates d).

Lemma read_sub_dags m ds : foldl read_sub_dag m ds = foldl entry_max m (flat_map sub_dag_slots ds).
Proof.
  revert m. induction ds as [|d ds IH]; intros m; [done|]. cbn [foldl flat_map]. rewrite IH. unfold sub_dag_slots at 2. cbn [app foldl].
  rewrite foldl_app. done.
Qed.

(** The sub-dags of the chain of headers, in order. *)
Definition chain_of (db : t) (ds : list CommittedSubDag.t) : Prop :=
  (fun kb => ConsensusHeader.sub_dag kb.2) <$> MemTable.iter (blocks db) = ds.

Lemma fmap_rev {A B} (f : A -> B) l : f <$> rev l = rev (f <$> l).
Proof. induction l as [|x l IH]; [done|]. cbn [rev fmap list_fmap]. by rewrite fmap_app, IH. Qed.

Lemma read_last_committed_chain db ds :
  chain_of db ds ->
  read_last_committed db = foldl entry_max ∅ (flat_map sub_dag_slots (rev (drop (length ds - 50) ds))).
Proof.
  intros <-. unfold read_last_committed, MemTable.reverse_iter, MemTable.iter. rewrite read_sub_dags. do 2 f_equal.
  rewrite <-firstn_rev, fmap_take, fmap_rev. done.
Qed.

Lemma latest_chain db ds : chain_of db ds -> get_latest_sub_dag db = last ds.
Proof. intros <-. unfold get_latest_sub_dag, MemTable.last_record, last_key_value, MemTable.iter. by rewrite fmap_last. Qed.

End rounds.

(** * Sequences of leaders *)

(** Even numbers that increase are two apart. *)
Lemma even_gaps (l : list N) M i x :
  StronglySorted N.lt l -> Forall (fun r => r mod 2 = 0) l -> Forall (fun r => r <= M) l -> l !! i = Some x ->
  x + 2 * N.of_nat (length l - 1 - i) <= M.
Proof.
  intros Hs. revert i x. induction Hs as [|y l Hs IH Hy]; intros i x He Hm Hx; [done|].
  apply Forall_cons in He as [Hey He], Hm as [Hmy Hm]. destruct i as [|i]; simpl in Hx.
  - injection Hx as ->. destruct l as [|z l]; [simpl; lia|]. specialize (IH 0%nat z He Hm eq_refl).
    apply Forall_cons in Hy as [Hyz _], He as [Hez _]. cbn [length] in *.
    assert (x + 2 <= z). { pose proof (N.div_mod' x 2). pose proof (N.div_mod' z 2). lia. }
    lia.
  - specialize (IH i x He Hm Hx). cbn [length]. lia.
Qed.

Section history.
Context `{NetworkKeys} `{Crypto} (gc_depth : Round).
Notation start := (ConsensusState.new gc_depth).

Lemma evolves_covers ds s d y :
  evolves start ds s -> d ∈ ds -> y ∈ CommittedSubDag.certificates d ->
  exists r, ConsensusState.last_committed s !! Certificate.origin y = Some r /\ Certificate.round y <= r.
Proof.
  induction 1 as [|ds s c s1 ins _ IH Hins|ds s d' s1 _ IH Hstep]; intros Hd Hy; [by apply elem_of_nil in Hd| |].
  - pose proof (try_insert_fields _ _ _ _ Hins) as (_ & -> & _). by apply IH.
  - rewrite (step_state _ _ _ Hstep). cbn [ConsensusState.set_last_committed_sub_dag ConsensusState.last_committed].
    apply elem_of_app in Hd as [Hd| ->%list_elem_of_singleton]; [|by apply fold_update_covers].
    destruct (IH Hd Hy) as (r & Hr & Hle). destruct (fold_update_mono _ (CommittedSubDag.certificates d') _ _ Hr) as (r' & Hr' & Hle').
    exists r'. split; [done|lia].
Qed.

Lemma evolves_origin ds s a r :
  evolves start ds s -> ConsensusState.last_committed s !! a = Some r ->
  exists d y, d ∈ ds /\ y ∈ CommittedSubDag.certificates d /\ Certificate.origin y = a /\ Certificate.round y = r.
Proof.
  intros Hev. revert a r. induction Hev as [|ds s c s1 ins _ IH Hins|ds s d' s1 _ IH Hstep]; intros a r; [done| |].
  - pose proof (try_insert_fields _ _ _ _ Hins) as (_ & -> & _). by apply IH.
  - rewrite (step_state _ _ _ Hstep). cbn [ConsensusState.set_last_committed_sub_dag ConsensusState.last_committed].
    intros [(d & y & Hd & Hy)%IH|(y & Hy)]%fold_update_origin; [exists d, y; set_solver|]. exists d', y. set_solver.
Qed.

Lemma evolves_sub_dag ds s d y :
  evolves start ds s -> d ∈ ds -> y ∈ CommittedSubDag.certificates d -> Certificate.round y <= CommittedSubDag.leader_round d.
Proof.
  induction 1 as [|ds s c s1 ins _ IH Hins|ds s d' s1 _ IH Hstep]; intros Hd Hy; [by apply elem_of_nil in Hd|by apply IH|].
  apply elem_of_app in Hd as [Hd| ->%list_elem_of_singleton]; [by apply IH|].
  apply (step_elem _ _ _ Hstep) in Hy. by apply sub_dag_inv in Hy as (_ & ? & _); [|apply Hstep].
Qed.

Lemma evolves_last ds s :
  evolves start ds s -> ConsensusState.last_committed_sub_dag s = last ds /\
    ConsensusState.committed_round s = from_option CommittedSubDag.leader_round 0 (last ds).
Proof.
  induction 1 as [|ds s c s1 ins _ IH Hins|ds s d' s1 _ IH Hstep]; [done| |].
  - pose proof (try_insert_fields _ _ _ _ Hins) as (Hlr & _ & ->). unfold ConsensusState.committed_round in *. by rewrite Hlr.
  - rewrite last_snoc. split; [by rewrite (step_state _ _ _ Hstep)|]. by eapply commit_step_round.
Qed.

Lemma evolves_gc_depth ds s : evolves start ds s -> ConsensusState.gc_depth s = gc_depth.
Proof.
  induction 1 as [|ds s c s1 ins _ IH Hins|ds s d' s1 _ IH Hstep]; [done| |].
  - unfold ConsensusState.try_insert in Hins. destruct (ConsensusState.try_insert_in_dag _ _ _ _ _). injection Hins as <- _. done.
  - rewrite (step_state _ _ _ Hstep). cbn [ConsensusState.set_last_committed_sub_dag ConsensusState.gc_depth]. by rewrite fold_update_gc_depth.
Qed.

(** A sub-dag that is not among the last 50 is too old to matter. *)
Lemma evolves_old ds s i d :
  evolves start ds s -> ds !! i = Some d -> (i < length ds - 50)%nat ->
  CommittedSubDag.leader_round d + 100 <= ConsensusState.committed_round s.
Proof.
  intros Hev Hd Hi. pose proof (evolves_advances _ _ _ Hev) as [_ _ Hb Hs Hl].
  pose proof (even_gaps (CommittedSubDag.leader_round <$> ds) (ConsensusState.committed_round s) i (CommittedSubDag.leader_round d)) as Hg.
  rewrite length_fmap in Hg. etransitivity; [|apply Hg]; [lia| | | |].
  - clear -Hs. induction Hs as [|x l Hs IH Hx]; constructor; [done|]. apply Forall_fmap. eapply Forall_impl; [done|]. by intros y [? _].
  - apply Forall_fmap, Forall_forall. intros x Hx. by apply Hl.
  - apply Forall_fmap, Forall_forall. intros x Hx. by apply Hb.
  - by rewrite list_lookup_fmap, Hd.
Qed.

End history.

(** * The DAG read back *)

Section dag.
Context `{NetworkKeys} `{Crypto} (last_committed : gmap AuthorityIdentifier Round) (gc_round : Round).

(** The DAG holds exactly these certificates, each at its place. *)
Definition filed (dag : gmap Round (gmap AuthorityIdentifier (Digest * Certificate.t))) (cs : list Certificate.t) : Prop :=
  forall r a d c, entry dag r a = Some (d, c) <->
    c ∈ cs /\ Certificate.round c = r /\ Certificate.origin c = a /\ Certificate.digest c = d.

Lemma filed_in_dag dag cs c : filed dag cs -> in_dag dag c <-> c ∈ cs.
Proof. intros Hf. unfold in_dag. rewrite (Hf _ _ _ _). naive_solver. Qed.

Lemma insert_filed dag cs c :
  filed dag cs -> gc_round < Certificate.round c ->
  (forall c', c' ∈ cs -> Certificate.round c' = Certificate.round c -> Certificate.origin c' = Certificate.origin c -> c' = c) ->
  exists dag' b, ConsensusState.try_insert_in_dag dag last_committed gc_round c false = (dag', Ok b) /\ filed dag' (cs ++ [c]).
Proof.
  intros Hf Hgc Hu. unfold ConsensusState.try_insert_in_dag. destruct (N.leb_spec (Certificate.round c) gc_round); [lia|].
  set (dag' := <[Certificate.round c := _]> dag).
  assert (filed dag' (cs ++ [c])) as Hf'.
  { intros r a d x. unfold dag'. rewrite entry_insert, elem_of_app, list_elem_of_singleton. case_decide as Hd.
    - destruct Hd as [-> ->]. split; [intros [= <- <-]; naive_solver|]. intros ([Hx| ->] & Hr & Ho & <-); [|done].
      by rewrite (Hu x Hx Hr Ho).
    - rewrite (Hf r a d x). naive_solver. }
  destruct (default ∅ (dag !! Certificate.round c) !! Certificate.origin c) as [[d e]|] eqn:He; [|by eexists _, _].
  assert (e ∈ cs /\ Certificate.round e = Certificate.round c /\ Certificate.origin e = Certificate.origin c) as (Hin & Hr & Ho).
  { assert (entry dag (Certificate.round c) (Certificate.origin c) = Some (d, e)) as Hent; [|apply Hf in Hent; tauto].
    unfold entry. by destruct (dag !! Certificate.round c). }
  rewrite (Hu e Hin Hr Ho), N.eqb_refl. by eexists _, _.
Qed.

Lemma construct_dag_filed cs :
  Forall (fun c => gc_round < Certificate.round c) cs ->
  (forall c c', c ∈ cs -> c' ∈ cs -> Certificate.round c' = Certificate.round c -> Certificate.origin c' = Certificate.origin c -> c' = c) ->
  exists dag, ConsensusState.construct_dag cs last_committed gc_round = Ok dag /\ filed dag cs.
Proof.
  intros Hgc Hu. unfold ConsensusState.construct_dag.
  assert (forall done dag rest, cs = done ++ rest -> filed dag done ->
    exists dag', foldM (fun dag cert => let '(dag', r) := ConsensusState.try_insert_in_dag dag last_committed gc_round cert false in _ ← r; Ok dag') dag rest = Ok dag' /\
      filed dag' cs) as Hgen.
  { intros done dag rest. revert done dag. induction rest as [|c rest IH]; intros done dag Heq Hf; cbn [foldM].
    - rewrite app_nil_r in Heq. subst. by exists dag.
    - assert (c ∈ cs) as Hc by (rewrite Heq; set_solver). rewrite Forall_forall in Hgc.
      destruct (insert_filed dag done c Hf (Hgc c Hc)) as (dag' & b & -> & Hf').
      { intros c' Hc'. apply Hu; [done|]. rewrite Heq. set_solver. }
      apply (IH (done ++ [c])); [|done]. by rewrite <-app_assoc. }
  apply (Hgen []); [done|]. intros r a d c. unfold entry. rewrite lookup_empty. set_solver.
Qed.

Lemma construct_from_store `{!CollisionFree} store :
  store_wf store -> indexed store ->
  exists dag, Recovery.construct_dag_from_cert_store store last_committed gc_round = Ok dag /\
    forall c, in_dag dag c <-> CertificateStore.read store (Certificate.digest c) = Some c /\ gc_round < Certificate.round c.
Proof.
  intros Hs Hx. unfold Recovery.construct_dag_from_cert_store.
  destruct (after_round_correct 0 store (gc_round + 1) Hs Hx) as (cs & -> & Hcs & _).
  destruct (construct_dag_filed cs) as (dag & Hdag & Hf).
  - apply Forall_forall. intros c [_ ?]%Hcs. lia.
  - intros c c' [Hc _]%Hcs [Hc' _]%Hcs Hr Ho. pose proof (Hx _ _ Hc) as Hd. pose proof (Hx _ _ Hc') as Hd'. rewrite Hr, Ho in Hd'.
    rewrite Hd in Hd'. injection Hd' as Hd'. unfold CertificateStore.read, MemTable.get in *. rewrite Hd' in Hc. congruence.
  - exists dag. split; [done|]. intros c. rewrite (filed_in_dag dag cs c Hf), Hcs. split; intros [? ?]; split; try done; lia.
Qed.

End dag.

(** * Recovery *)

Section recovery.
Context `{NetworkKeys} `{Crypto} `{SeededChoice} `{!CollisionFree}.
Import ConsensusDb.

(** The rounds read back never exceed those that were lost, and agree above the GC round. *)
Lemma recovered_rounds gc_depth ds s db :
  evolves (ConsensusState.new gc_depth) ds s -> gc_depth <= 100 -> chain_of db ds ->
  ConsensusState.gc_round s = ConsensusState.committed_round s - gc_depth ->
  (forall a r, read_last_committed db !! a = Some r -> exists r', ConsensusState.last_committed s !! a = Some r' /\ r <= r') /\
  (forall a r, ConsensusState.last_committed s !! a = Some r -> ConsensusState.gc_round s < r -> exists r', read_last_committed db !! a = Some r' /\ r <= r').
Proof.
  intros Hev Hgd Hch Hgc. rewrite (read_last_committed_chain db ds Hch). pose proof (evolves_advances _ _ _ Hev) as Hadv. split.
  - intros a r [?|Hin]%fold_entry_origin; [done|]. apply list_elem_of_In, in_flat_map in Hin as (d & Hd & Hin).
    apply in_rev, list_elem_of_In in Hd.
    assert (d ∈ ds) as Hds by (rewrite <-(take_drop (length ds - 50) ds); set_solver).
    assert (exists y, y ∈ CommittedSubDag.certificates d /\ slot y = (a, r)) as (y & Hy & [= <- <-]).
    { unfold sub_dag_slots in Hin. rewrite <-list_elem_of_In in Hin. apply elem_of_cons in Hin as [Heq|(y & Heq & Hy)%list_elem_of_fmap]; [|by exists y].
      exists (CommittedSubDag.leader d). split; [|done]. destruct (adv_leader _ _ _ Hadv d Hds) as (_ & Hl & _). by apply last_Some_elem_of in Hl. }
    by eapply evolves_covers.
  - intros a r Ha Hr. destruct (evolves_origin _ _ _ _ _ Hev Ha) as (d & y & Hd & Hy & <- & <-). apply fold_entry_covers.
    apply list_elem_of_In, in_flat_map. exists d. split; [|apply list_elem_of_In; right; by apply (list_elem_of_fmap_2 slot)].
    apply in_rev. rewrite rev_involutive. apply list_elem_of_In. apply list_elem_of_lookup in Hd as [i Hi].
    destruct (decide (i < length ds - 50)%nat) as [Hlt|Hge].
    + pose proof (evolves_old _ _ _ _ _ Hev Hi Hlt). pose proof (evolves_sub_dag _ _ _ _ _ Hev (list_elem_of_lookup_2 _ _ _ Hi) Hy). lia.
    + apply list_elem_of_lookup. exists (i - (length ds - 50))%nat. rewrite lookup_drop. by replace (length ds - 50 + (i - (length ds - 50)))%nat with i by lia.
Qed.

Lemma max_round_spec m M :
  (forall a r, m !! a = Some r -> r <= M) -> (M = 0 \/ exists a, m !! a = Some M) -> Recovery.max_round m = M.
Proof.
  intros Hle Hex. unfold Recovery.max_round. apply N.le_antisymm.
  - apply foldr_max_le; [lia|]. intros r ([a r'] & -> & Hin%elem_of_map_to_list)%list_elem_of_fmap. by apply (Hle a).
  - destruct Hex as [-> |[a Ha]]; [lia|]. apply foldr_max_ge. apply list_elem_of_fmap. exists (a, M). by rewrite elem_of_map_to_list.
Qed.

(** The highest round read back is the round of the last leader. *)
Lemma recovered_max gc_depth ds s db :
  evolves (ConsensusState.new gc_depth) ds s -> chain_of db ds ->
  (forall a r, ConsensusState.last_committed s !! a = Some r -> r <= ConsensusState.committed_round s) ->
  (forall a r, read_last_committed db !! a = Some r -> exists r', ConsensusState.last_committed s !! a = Some r' /\ r <= r') ->
  Recovery.max_round (read_last_committed db) = ConsensusState.committed_round s.
Proof.
  intros Hev Hch Hcom Hle. destruct (evolves_last _ _ _ Hev) as [_ Hlast]. apply max_round_spec.
  - intros a r (r' & Hr'%Hcom & ?)%Hle. lia.
  - destruct (last ds) as [d|] eqn:Hd; simpl in Hlast; [|by left]. right. exists (Certificate.origin (CommittedSubDag.leader d)).
    assert (exists r', read_last_committed db !! Certificate.origin (CommittedSubDag.leader d) = Some r' /\ CommittedSubDag.leader_round d <= r') as (r' & Hr' & Hge).
    { rewrite (read_last_committed_chain db ds Hch). apply fold_entry_covers. apply list_elem_of_In, in_flat_map. exists d.
      split; [|by left]. apply in_rev. rewrite rev_involutive. apply list_elem_of_In. apply last_Some in Hd as [l ->].
      rewrite length_app. cbn [length]. rewrite drop_app_le by lia. set_solver. }
    rewrite Hr', Hlast. f_equal. destruct (Hle _ _ Hr') as (r2 & Hr2%Hcom & ?). lia.
Qed.

(** C13: a node that restarts recovers its consensus: from the chain of headers of the
    sub-dags it committed and its certificates, with a GC depth of at most 100 rounds, it
    starts without panicking at the same commit round, GC round and last sub-dag.  Of every
    certificate above the GC round it decides as before whether it is committed, although it
    reads back only the last 50 headers, so it neither commits a certificate twice nor skips
    one; and its DAG holds exactly the stored certificates above the GC round. *)
Theorem recovery_correct b gc_depth cs b' s' ds db :
  protocol_inv b (ConsensusState.new gc_depth) -> Forall (cert_wf (committee b)) cs ->
  run b (ConsensusState.new gc_depth) cs = Ok (b', s', ds) ->
  gc_depth <= 100 -> chain_of db ds -> store_wf (certs db) -> indexed (certs db) ->
  exists s, Recovery.spawn gc_depth db = Ok s /\
    ConsensusState.last_round s = ConsensusState.last_round s' /\
    ConsensusState.last_committed_sub_dag s = ConsensusState.last_committed_sub_dag s' /\
    (forall c, ConsensusState.gc_round s' < Certificate.round c -> fresh s c <-> fresh s' c) /\
    (forall c, in_dag (ConsensusState.dag s) c <->
       CertificateStore.read (certs db) (Certificate.digest c) = Some c /\ ConsensusState.gc_round s' < Certificate.round c).
Proof.
  intros Hinv Hcs Hrun Hgd Hch Hsw Hix. destruct (run_evolves _ _ _ _ _ _ Hinv Hcs Hrun) as [Hev Hwf].
  pose proof (state_gc _ _ Hwf) as Hgc. rewrite (evolves_gc_depth _ _ _ Hev) in Hgc.
  destruct (recovered_rounds gc_depth ds s' db Hev Hgd Hch Hgc) as [Hle Hge].
  pose proof (recovered_max gc_depth ds s' db Hev Hch (state_committed _ _ Hwf) Hle) as Hmax.
  destruct (evolves_last _ _ _ Hev) as [Hsub Hcr]. unfold Recovery.spawn. rewrite Hmax, (latest_chain db ds Hch).
  assert (match last ds with Some d => assert (CommittedSubDag.leader_round d =? ConsensusState.committed_round s') | None => Ok () end
    = Ok () :> outcome ConsensusError unit) as ->.
  { rewrite Hcr. destruct (last ds); [|done]. simpl. by rewrite N.eqb_refl. }
  cbn [mbind outcome_bind]. unfold Recovery.new_from_store.
  assert (ConsensusRound.new_with_gc_depth (ConsensusState.committed_round s') gc_depth = ConsensusState.last_round s') as Hround.
  { unfold ConsensusRound.new_with_gc_depth. rewrite <-Hgc. by destruct (ConsensusState.last_round s') eqn:Hl; unfold ConsensusState.committed_round, ConsensusState.gc_round; rewrite Hl. }
  rewrite Hround. destruct (construct_from_store (read_last_committed db) (ConsensusState.gc_round s') (certs db) Hsw Hix) as (dag & Hdag & Hin).
  unfold ConsensusState.gc_round in Hdag at 1. rewrite Hdag. eexists. split; [done|]. cbn [ConsensusState.last_round ConsensusState.last_committed_sub_dag ConsensusState.dag].
  split_and!; [done|by rewrite Hsub| |done]. intros c Hc. unfold fresh. cbn [ConsensusState.last_committed]. split; intros Hf r Hr.
  - destruct (decide (ConsensusState.gc_round s' < r)) as [Hlt|]; [|lia]. destruct (Hge _ _ Hr Hlt) as (r' & Hr' & ?). specialize (Hf r' Hr'). lia.
  - destruct (Hle _ _ Hr) as (r' & Hr' & ?). specialize (Hf r' Hr'). lia.
Qed.

End recovery.

(** * The recovery at a concrete run *)

Section witnesses.
#[local] Existing Instances demo_keys demo_crypto demo_choice demo_collision_free.

Definition recovery_db : ConsensusDb.t :=
  ConsensusDb.mk (list_to_map (imap (fun i d => (N.of_nat i + 1, ConsensusHeader.mk 0 d (N.of_nat i + 1) 0)) demo_run_result.2)) ∅ ∅ demo_store.

Lemma recovery_correct_witness :
  exists s, Recovery.spawn 50 recovery_db = Ok s /\ ConsensusState.last_round s = ConsensusRound.mk 2 0.
Proof.
  destruct (recovery_correct demo_bullshark 50 demo_certs demo_run_result.1.1 demo_run_result.1.2 demo_run_result.2 recovery_db) as (s & Hs & Hr & _).
  - apply demo_protocol_inv.
  - apply demo_certs_wf.
  - vm_compute. reflexivity.
  - done.
  - vm_compute. reflexivity.
  - apply demo_store_wf.
  - apply demo_store_indexed.
  - exists s. split; [exact Hs|]. rewrite Hr. by vm_compute.
Defined.

End witnesses.
