(* ===== verification/Engine.v ===== *)
(** Execution of consensus output.
    Models crates/engine (lib.rs and payload_builder.rs) and the payload types of
    crates/execution/node-traits/src/engine.rs.  The EVM and the database of blocks are
    those of the execution client, parameters of the model. *)

From S2P Require Import Prelude Storage Committee Certificate CertStore Output ConsensusState OrderDag LeaderSchedule Bullshark.
From S2P Require Import Demo Consensus Worker WorkerSafety ConsensusChain.

(** * Blocks *)

Module ExecHeader.
Record t := mk {
  parent_hash : N;
  beneficiary : N;
  state_root : N;
  transactions_root : N;
  receipts_root : N;
  logs_bloom : N;
  timestamp : N;
  mix_hash : N;
  nonce : N;
  base_fee_per_gas : option N;
  number : N;
  gas_limit : N;
  difficulty : N;
  gas_used : N;
  extra_data : N;
  parent_beacon_block_root : option N;
}.
End ExecHeader.

Record Receipt := mk_receipt {
  receipt_success : bool;
  cumulative_gas_used : N;
  receipt_logs : N;
}.

(** The environment a transaction executes in. *)
Record BlockEnv := mk_env {
  env_number : N;
  env_coinbase : N;
  env_timestamp : N;
  env_prevrandao : N;
  env_gas_limit : N;
  env_basefee : N;
}.

(** The result of a transaction: the state after it, the gas it used, whether it succeeded
    and its logs; a transaction that is not valid; or an error of the EVM. *)
Inductive transact_result (World : Type) :=
  | Executed (w : World) (gas_used : N) (success : bool) (logs : N)
  | InvalidTransaction
  | EvmFailure.
Arguments Executed {World} w gas_used success logs.
Arguments InvalidTransaction {World}.
Arguments EvmFailure {World}.

(** The execution client: transactions, the EVM, hashes, and the tree of blocks. *)
Class ExecutionClient := {
  World : Type;
  Tx : Type;
  Chain : Type;
  recover_tx : list N -> option Tx;
  tx_gas_limit : Tx -> N;
  effective_tip_per_gas : Tx -> N -> option N;
  transact : BlockEnv -> World -> Tx -> transact_result World;
  state_root_of : World -> N;
  transaction_root : list Tx -> N;
  receipts_root_of : list Receipt -> N;
  logs_bloom_of : list Receipt -> N;
  seal_hash : ExecHeader.t -> N;
  state_by_block_hash : Chain -> N -> option World;
  sealed_header_by_hash : Chain -> N -> option ExecHeader.t;
  insert_block : Chain -> ExecHeader.t -> list Tx -> World -> option Chain;
  make_canonical : Chain -> N -> option Chain;
  set_canonical_head : Chain -> ExecHeader.t -> Chain;
  finalize_block : Chain -> N -> option Chain;
  set_finalized : Chain -> ExecHeader.t -> Chain;
  set_safe : Chain -> ExecHeader.t -> Chain;
}.

Inductive TnEngineError :=
  | Provider
  | EvmExecution
  | RecoverTransactionBytes
  | NextBlockDigestMissing
  | InsertNextCanonicalBlock
  | Canonical
  | EngineChannelClosed
  | EmptyQueue
  | MissingFinalBlock.

(** * Payloads *)

Module TNPayload.

Record t := mk {
  parent_header : ExecHeader.t;
  beneficiary : N;
  nonce : N;
  batch_index : N;
  timestamp : N;
  batch_digest : N;
  consensus_output_digest : N;
  base_fee_per_gas : N;
  gas_limit : N;
  mix_hash : N;
}.

Definition new (parent_header : ExecHeader.t) (batch_index batch_digest : N) (output : ConsensusOutput.t)
    (consensus_output_digest base_fee_per_gas gas_limit mix_hash : N) : t :=
  mk parent_header (ConsensusOutput.beneficiary output) (ConsensusOutput.nonce output) batch_index
    (ConsensusOutput.committed_at output) batch_digest consensus_output_digest base_fee_per_gas gas_limit mix_hash.

Definition block_env (p : t) : BlockEnv :=
  mk_env (ExecHeader.number (parent_header p) + 1) (beneficiary p) (timestamp p) (mix_hash p) (gas_limit p) (base_fee_per_gas p).

End TNPayload.

Module Engine.
Section engine.
Context `{NetworkKeys} `{Crypto} `{ChainHash} `{BatchHash} `{ExecutionClient}.
(** The roots of no transactions and of no receipts. *)
Context (EMPTY_TRANSACTIONS EMPTY_RECEIPTS : N).

(** The chain of the execution client, and the blocks inserted into it. *)
Definition state : Type := Chain * list (ExecHeader.t * list Tx).

(** ** Building blocks *)

(** What executing the transactions of a batch has produced so far. *)
Record progress := mk_progress {
  world : World;
  gas_so_far : N;
  receipts : list Receipt;
  executed_txs : list Tx;
}.

Definition execute_tx (env : BlockEnv) (p : progress) (tx_bytes : list N) : outcome TnEngineError progress :=
  recovered ← ok_or (recover_tx tx_bytes) RecoverTransactionBytes;
  match transact env (world p) recovered with
  | Executed w gas_used success logs =>
      let cumulative := wrap64 (gas_so_far p + gas_used) in
      _ ← expect (effective_tip_per_gas recovered (env_basefee env));
      Ok (mk_progress w cumulative (receipts p ++ [mk_receipt success cumulative logs]) (executed_txs p ++ [recovered]))
  | InvalidTransaction => Ok p
  | EvmFailure => Err EvmExecution
  end.

Definition build_block_from_batch_payload (chain : Chain) (payload : TNPayload.t) (batch : Batch.t) (consensus_header_hash : N)
    : outcome TnEngineError (ExecHeader.t * list Tx * World) :=
  let parent_hash := seal_hash (TNPayload.parent_header payload) in
  w ← ok_or (state_by_block_hash chain parent_hash) Provider;
  let env := TNPayload.block_env payload in
  p ← foldM (execute_tx env) (mk_progress w 0 [] []) (Batch.transactions batch);
  let header := ExecHeader.mk parent_hash (env_coinbase env) (state_root_of (world p)) (transaction_root (executed_txs p))
    (receipts_root_of (receipts p)) (logs_bloom_of (receipts p)) (TNPayload.timestamp payload) (TNPayload.mix_hash payload)
    (TNPayload.nonce payload) (Some (env_basefee env)) (ExecHeader.number (TNPayload.parent_header payload) + 1)
    (env_gas_limit env) (TNPayload.batch_index payload) (gas_so_far p) (TNPayload.batch_digest payload) (Some consensus_header_hash) in
  Ok (header, executed_txs p, world p).

Definition build_block_from_empty_payload (chain : Chain) (payload : TNPayload.t) (consensus_header_digest : N)
    : outcome TnEngineError (ExecHeader.t * list Tx * World) :=
  let parent_hash := seal_hash (TNPayload.parent_header payload) in
  w ← ok_or (state_by_block_hash chain parent_hash) Provider;
  let header := ExecHeader.mk parent_hash (TNPayload.beneficiary payload) (state_root_of w) EMPTY_TRANSACTIONS EMPTY_RECEIPTS 0
    (TNPayload.timestamp payload) (TNPayload.mix_hash payload) (TNPayload.nonce payload) (Some (TNPayload.base_fee_per_gas payload))
    (ExecHeader.number (TNPayload.parent_header payload) + 1) (TNPayload.gas_limit payload) 0 0 (TNPayload.batch_digest payload)
    (Some consensus_header_digest) in
  Ok (header, [], w).

(** ** Executing an output *)

Definition insert (s : state) (block : ExecHeader.t * list Tx * World) : outcome TnEngineError state :=
  let '(header, txs, w) := block in
  chain ← ok_or (insert_block s.1 header txs w) InsertNextCanonicalBlock;
  Ok (chain, s.2 ++ [(header, txs)]).

(** The body of the loop over the batches: the state, the canonical header, the index and
    the digests that are left. *)
Definition execute_batch (output : ConsensusOutput.t) (output_digest : N) (acc : state * ExecHeader.t * N * list N) (batch : Batch.t)
    : outcome TnEngineError (state * ExecHeader.t * N * list N) :=
  let '(s, canonical_header, block_index, digests) := acc in
  match digests with
  | [] => Err NextBlockDigestMissing
  | batch_digest :: digests =>
      let base_fee_per_gas := default 0 (Batch.base_fee_per_gas batch) in
      let gas_limit := max_batch_gas (Batch.timestamp batch) in
      let mix_hash := N.lxor output_digest (BatchOps.digest batch) in
      let payload := TNPayload.new canonical_header block_index batch_digest output output_digest base_fee_per_gas gas_limit mix_hash in
      block ← build_block_from_batch_payload s.1 payload batch (ConsensusOutput.consensus_header_hash output);
      s ← insert s block;
      Ok (s, block.1.1, block_index + 1, digests)
  end.

Definition execute_blocks (s : state) (output : ConsensusOutput.t) (parent_header : ExecHeader.t) : outcome TnEngineError (state * ExecHeader.t) :=
  let output_digest := ConsensusOutput.consensus_header_hash output in
  match ConsensusOutput.flatten_batches output with
  | [] =>
      let base_fee_per_gas := default 0 (ExecHeader.base_fee_per_gas parent_header) in
      let gas_limit := ExecHeader.gas_limit parent_header in
      let payload := TNPayload.new parent_header 0 0 output output_digest base_fee_per_gas gas_limit output_digest in
      block ← build_block_from_empty_payload s.1 payload (ConsensusOutput.consensus_header_hash output);
      s ← insert s block;
      Ok (s, block.1.1)
  | batches =>
      acc ← foldM (execute_batch output output_digest) (s, parent_header, 0, ConsensusOutput.batch_digests output) batches;
      Ok acc.1.1
  end.

Definition finalize (chain : Chain) (header : ExecHeader.t) : outcome TnEngineError Chain :=
  chain ← ok_or (finalize_block chain (ExecHeader.number header)) Provider;
  Ok (set_safe (set_finalized chain header) header).

(** The latest block that a certificate of the output signed off. *)
Definition last_signed (output : ConsensusOutput.t) : N * N :=
  foldl (fun last_executed cert =>
      let b := Header.latest_execution_block (Certificate.header cert) in
      if last_executed.1 <? b.1 then b else last_executed)
    (Header.latest_execution_block (Certificate.header (ConsensusOutput.leader output)))
    (CommittedSubDag.certificates (ConsensusOutput.sub_dag output)).

Definition finalize_signed_blocks (chain : Chain) (output : ConsensusOutput.t) (canonical_header : ExecHeader.t) : outcome TnEngineError Chain :=
  let last_executed := last_signed output in
  if last_executed.1 <=? ExecHeader.number canonical_header then
    block ← ok_or (sealed_header_by_hash chain last_executed.2) MissingFinalBlock;
    finalize chain block
  else Ok chain.

Definition execute_consensus_output (s : state) (output : ConsensusOutput.t) (parent_header : ExecHeader.t)
    : outcome TnEngineError (state * ExecHeader.t) :=
  r ← execute_blocks s output parent_header;
  let '(chain, blocks, canonical_header) := r in
  chain ← ok_or (make_canonical chain (seal_hash canonical_header)) Canonical;
  let chain := set_canonical_head chain canonical_header in
  chain ← if ConsensusOutput.early_finalize output then finalize chain canonical_header
          else finalize_signed_blocks chain output canonical_header;
  Ok (chain, blocks, canonical_header).

(** ** The executor *)

(** [executed] is what was executed so far. *)
Record t := mk {
  queued : list ConsensusOutput.t;
  pending_task : option ConsensusOutput.t;
  max_round : option N;
  parent_header : ExecHeader.t;
  client : state;
  executed : list ConsensusOutput.t;
}.

(** What the stream of outputs gives when it is polled; a lagging receiver loses outputs. *)
Inductive stream_item := StreamOutput (o : ConsensusOutput.t) | StreamLagged | StreamClosed | StreamPending.

Inductive status := Continue | Yield | Finished (r : outcome TnEngineError unit).

Definition idle (s : t) : bool := match pending_task s, queued s with None, [] => true | _, _ => false end.

Definition push (s : t) (o : ConsensusOutput.t) : t :=
  mk (queued s ++ [o]) (pending_task s) (max_round s) (parent_header s) (client s) (executed s).

(** Starts the next task if there is none: [None] when nothing is queued. *)
Definition start_task (s : t) : option t :=
  match pending_task s with
  | Some _ => Some s
  | None =>
      match queued s with
      | [] => None
      | o :: queue => Some (mk queue (Some o) (max_round s) (parent_header s) (client s) (executed s))
      end
  end.

Definition has_reached_max_round (s : t) (progress : N) : bool :=
  match max_round s with Some target => target <=? progress | None => false end.

(** Polls the task: [ready] tells whether it is done.  It executes on the parent header of
    the moment it was spawned, which only the end of a task changes.  An error ends the
    engine; the blocks a failed task had inserted are not tracked. *)
Definition poll_task (s : t) (ready : bool) : t * status :=
  match pending_task s with
  | None => (s, Continue)
  | Some o =>
      if ready then
        match execute_consensus_output (client s) o (parent_header s) with
        | Ok (client, finalized_header) =>
            let s := mk (queued s) None (max_round s) finalized_header client (executed s ++ [o]) in
            if has_reached_max_round s (ExecHeader.nonce finalized_header) then (s, Finished (Ok ())) else (s, Continue)
        | Err e => (mk (queued s) None (max_round s) (parent_header s) (client s) (executed s), Finished (Err e))
        | _ => (mk (queued s) None (max_round s) (parent_header s) (client s) (executed s), Finished (Err EngineChannelClosed))
        end
      else (s, Yield)
  end.

(** One turn of the loop of [poll]. *)
Definition poll_loop (s : t) (item : stream_item) (ready : bool) : t * status :=
  let s := match item with StreamOutput o => push s o | _ => s end in
  match item with
  | StreamClosed => if idle s then (s, Finished (Ok ())) else match start_task s with None => (s, Yield) | Some s => poll_task s ready end
  | _ => match start_task s with None => (s, Yield) | Some s => poll_task s ready end
  end.

(** A poll starts with the check for shutdown. *)
Definition poll_start (s : t) (shutdown : bool) : t * status :=
  if shutdown && idle s then (s, Finished (Ok ())) else (s, Continue).

Record event := mk_event {
  event_shutdown : bool;
  event_item : stream_item;
  event_ready : bool;
}.

(** The engine over a sequence of events; a turn that does not follow a [Continue] starts a
    new poll. *)
Fixpoint run (s : t) (polling : bool) (events : list event) : t * status :=
  match events with
  | [] => (s, Yield)
  | e :: events =>
      match (if polling then (s, Continue) else poll_start s (event_shutdown e)) with
      | (s, Finished r) => (s, Finished r)
      | (s, _) =>
          match poll_loop s (event_item e) (event_ready e) with
          | (s, Continue) => run s true events
          | (s, Yield) => run s false events
          | (s, Finished r) => (s, Finished r)
          end
      end
  end.

End engine.
End Engine.
