(* ===== verification/EngineSafety.v ===== *)
(** What execution guarantees: outputs are executed in order, once each, and each extends
    the chain of blocks by the blocks of its batches. *)

From S2P Require Import Prelude Storage Committee Certificate CertStore Output ConsensusState OrderDag LeaderSchedule Bullshark.
From S2P Require Import Demo Consensus Worker WorkerSafety ConsensusChain ChainSafety Engine.
Import Engine.

(** * Blocks *)

(** What the model relies on of the execution client: a block whose parent is known can be
    inserted and made canonical, and its state is known afterwards; blocks can be finalized. *)
Class ClientLaws `{ExecutionClient} := {
  insert_known c h txs w :
    is_Some (state_by_block_hash c (ExecHeader.parent_hash h)) ->
    exists c', insert_block c h txs w = Some c' /\ state_by_block_hash c' (seal_hash h) = Some w;
  canonical_known c hash : is_Some (state_by_block_hash c hash) -> is_Some (make_canonical c hash);
  finalize_known c n : is_Some (finalize_block c n);
}.

(** A block of an output, on a parent. *)
Record child `{NetworkKeys} `{Crypto} `{ChainHash} `{ExecutionClient} (o : ConsensusOutput.t) (parent h : ExecHeader.t) : Prop := {
  child_parent : ExecHeader.parent_hash h = seal_hash parent;
  child_number : ExecHeader.number h = ExecHeader.number parent + 1;
  child_root : ExecHeader.parent_beacon_block_root h = Some (ConsensusOutput.consensus_header_hash o);
  child_nonce : ExecHeader.nonce h = ConsensusOutput.nonce o;
  child_time : ExecHeader.timestamp h = ConsensusOutput.committed_at o;
  child_beneficiary : ExecHeader.beneficiary h = ConsensusOutput.beneficiary o;
}.

Section blocks.
Context `{NetworkKeys} `{Crypto} `{ChainHash} `{BatchHash} `{ExecutionClient} `{!ClientLaws}.
Context (empty_txs empty_receipts : N).
Implicit Types (s : state).

(** The blocks of the batches from an index on: one each, in order. *)
Fixpoint built (o : ConsensusOutput.t) (parent : ExecHeader.t) (index : N) (bs : list Batch.t) (blocks : list (ExecHeader.t * list Tx)) : Prop :=
  match bs, blocks with
  | [], [] => True
  | b :: bs, (h, _) :: blocks =>
      child o parent h /\ ExecHeader.difficulty h = index /\ ExecHeader.extra_data h = BatchOps.digest b /\
      ExecHeader.mix_hash h = N.lxor (ConsensusOutput.consensus_header_hash o) (BatchOps.digest b) /\
      ExecHeader.gas_limit h = max_batch_gas (Batch.timestamp b) /\ built o h (index + 1) bs blocks
  | _, _ => False
  end.

Definition last_header (parent : ExecHeader.t) (blocks : list (ExecHeader.t * list Tx)) : ExecHeader.t := default parent (last blocks.*1).

(** A batch whose transactions decode and do not make the EVM fail. *)
Definition executable (b : Batch.t) : Prop :=
  Forall (fun bytes => exists tx, recover_tx bytes = Some tx /\ forall env w,
    transact env w tx <> EvmFailure /\ (transact env w tx <> InvalidTransaction -> is_Some (effective_tip_per_gas tx (env_basefee env)))) (Batch.transactions b).

Lemma execute_txs_total env txs p :
  Forall (fun bytes => exists tx, recover_tx bytes = Some tx /\ forall env w,
    transact env w tx <> EvmFailure /\ (transact env w tx <> InvalidTransaction -> is_Some (effective_tip_per_gas tx (env_basefee env)))) txs ->
  exists p', foldM (execute_tx env) p txs = Ok p'.
Proof.
  revert p. induction txs as [|bytes txs IH]; intros p Hex; cbn [foldM]; [by exists p|].
  apply Forall_cons in Hex as [(tx & Htx & Hrun) Hex].
  assert (exists p1, execute_tx env p bytes = Ok p1) as [p1 ->]; [|by apply IH].
  unfold execute_tx. rewrite Htx. cbn [ok_or mbind outcome_bind]. destruct (Hrun env (world p)) as [Hf Htip].
  destruct (transact env (world p) tx) as [w gas success logs| |]; [|by eexists|done].
  destruct (Htip ltac:(done)) as [tip ->]. by eexists.
Qed.

Lemma build_batch_spec chain o parent index b :
  is_Some (state_by_block_hash chain (seal_hash parent)) -> executable b ->
  exists h txs w, build_block_from_batch_payload chain
    (TNPayload.new parent index (BatchOps.digest b) o (ConsensusOutput.consensus_header_hash o) (default 0 (Batch.base_fee_per_gas b))
       (max_batch_gas (Batch.timestamp b)) (N.lxor (ConsensusOutput.consensus_header_hash o) (BatchOps.digest b))) b
    (ConsensusOutput.consensus_header_hash o) = Ok (h, txs, w) /\
    child o parent h /\ ExecHeader.difficulty h = index /\ ExecHeader.extra_data h = BatchOps.digest b /\
    ExecHeader.mix_hash h = N.lxor (ConsensusOutput.consensus_header_hash o) (BatchOps.digest b) /\
    ExecHeader.gas_limit h = max_batch_gas (Batch.timestamp b).
Proof.
  intros [w Hw] Hex. unfold build_block_from_batch_payload. cbn [TNPayload.new TNPayload.parent_header]. rewrite Hw. cbn [ok_or mbind outcome_bind].
  match goal with |- context [foldM (execute_tx ?env) ?p _] => destruct (execute_txs_total env (Batch.transactions b) p Hex) as [p' ->] end.
  cbn [mbind outcome_bind]. eexists _, _, _. by split_and!.
Qed.

Lemma execute_batches_spec o bs s parent index :
  is_Some (state_by_block_hash s.1 (seal_hash parent)) -> Forall executable bs ->
  exists s' blocks rest, foldM (execute_batch o (ConsensusOutput.consensus_header_hash o)) (s, parent, index, BatchOps.digest <$> bs) bs =
      Ok (s', last_header parent blocks, rest, []) /\
    s'.2 = s.2 ++ blocks /\ built o parent index bs blocks /\ is_Some (state_by_block_hash s'.1 (seal_hash (last_header parent blocks))).
Proof.
  revert s parent index. induction bs as [|b bs IH]; intros s parent index Hs Hex; cbn [foldM].
  { exists s, [], index. rewrite app_nil_r. done. }
  apply Forall_cons in Hex as [Hb Hex]. cbn [fmap list_fmap execute_batch].
  destruct (build_batch_spec s.1 o parent index b Hs Hb) as (h & txs & w & -> & Hc & Hblock). cbn [mbind outcome_bind insert fst snd].
  destruct (insert_known s.1 h txs w) as (c' & -> & Hw); [by rewrite (child_parent _ _ _ Hc)|]. cbn [ok_or mbind outcome_bind].
  destruct (IH (c', s.2 ++ [(h, txs)]) h (index + 1)) as (s' & blocks & rest & Heq & Hblocks & Hbuilt & Hlast); [by exists w|done|].
  exists s', ((h, txs) :: blocks), rest. unfold last_header in *. rewrite fmap_cons, last_cons_default. cbn [fst default].
  split_and!; [done|rewrite Hblocks; cbn [snd]; by rewrite <-app_assoc| |done]. cbn [built]. tauto.
Qed.

(** The blocks of an output: one for each batch, or a single empty one. *)
Definition output_blocks (o : ConsensusOutput.t) (parent : ExecHeader.t) (blocks : list (ExecHeader.t * list Tx)) : Prop :=
  match ConsensusOutput.flatten_batches o with
  | [] => exists h, blocks = [(h, [])] /\ child o parent h /\ ExecHeader.gas_used h = 0
  | bs => built o parent 0 bs blocks
  end.

Lemma execute_blocks_spec o s parent :
  complete o -> is_Some (state_by_block_hash s.1 (seal_hash parent)) -> Forall executable (ConsensusOutput.flatten_batches o) ->
  exists s' blocks, execute_blocks empty_txs empty_receipts s o parent = Ok (s', last_header parent blocks) /\
    s'.2 = s.2 ++ blocks /\ output_blocks o parent blocks /\ is_Some (state_by_block_hash s'.1 (seal_hash (last_header parent blocks))).
Proof.
  intros [_ Hd] Hs Hex. unfold execute_blocks, output_blocks. cbv zeta. destruct (ConsensusOutput.flatten_batches o) as [|b bs].
  - unfold build_block_from_empty_payload. cbn [TNPayload.new TNPayload.parent_header]. destruct Hs as [w Hw]. rewrite Hw. cbn [ok_or mbind outcome_bind insert].
    match goal with |- context [insert_block _ ?h _ _] => destruct (insert_known s.1 h [] w) as (c' & -> & Hw'); [by eexists|];
      exists (c', s.2 ++ [(h, [])]), [(h, [])] end.
    cbn [ok_or mbind outcome_bind fst snd]. split_and!; [done|done|by eexists|by exists w].
  - destruct (execute_batches_spec o (b :: bs) s parent 0 Hs Hex) as (s' & blocks & rest & Heq & ? & ? & ?).
    exists s', blocks. rewrite Hd in Heq. rewrite Heq. done.
Qed.

(** Executing an output always succeeds when its transactions decode and the EVM does
    not fail, and extends the chain of blocks as specified: one block for each batch in
    order, or a single empty one, each on the hash of the block before it and with the next
    number, naming the consensus header, the batch and its index, and stamped with the
    output's round, time and beneficiary.  The last one becomes the parent of what follows. *)
Theorem output_executed o s parent :
  ConsensusOutput.early_finalize o = true -> complete o ->
  is_Some (state_by_block_hash s.1 (seal_hash parent)) -> Forall executable (ConsensusOutput.flatten_batches o) ->
  exists chain blocks, execute_consensus_output empty_txs empty_receipts s o parent = Ok (chain, s.2 ++ blocks, last_header parent blocks) /\
    output_blocks o parent blocks.
Proof.
  intros Hearly Hc Hs Hex. destruct (execute_blocks_spec o s parent Hc Hs Hex) as ([c bl] & blocks & Heq & Hbl & Hblocks & Hlast).
  cbn [fst snd] in *. unfold execute_consensus_output. rewrite Heq. cbn [mbind outcome_bind].
  destruct (canonical_known _ _ Hlast) as [c' ->]. cbn [ok_or mbind outcome_bind]. rewrite Hearly. unfold finalize.
  destruct (finalize_known (set_canonical_head c' (last_header parent blocks)) (ExecHeader.number (last_header parent blocks))) as [c'' ->].
  cbn [ok_or mbind outcome_bind]. subst. by eexists _, _.
Qed.

End blocks.

(** * Gas *)

Section gas.
Context `{BatchHash} `{ExecutionClient} `{ExecutionLayer}.

(** The validator and the engine decode transactions alike, and a transaction uses at most
    the gas of its limit. *)
Hypothesis same_decoding : forall bytes, recover_raw_transaction bytes = tx_gas_limit <$> recover_tx bytes.
Hypothesis gas_within_limit : forall env w tx w' gas success logs,
  transact env w tx = Executed w' gas success logs -> gas <= tx_gas_limit tx.

Lemma execute_txs_gas env txs gas p p' :
  Forall2 (fun tx g => recover_raw_transaction tx = Some g) txs gas -> gas_so_far p + sumN gas < u64_modulus ->
  foldM (execute_tx env) p txs = Ok p' -> gas_so_far p' <= gas_so_far p + sumN gas.
Proof.
  intros Hdec. revert p. induction Hdec as [|bytes g txs gas Hg Hdec IH]; intros p Hb; cbn [foldM]; [intros [= <-]; simpl; lia|].
  change (sumN (g :: gas)) with (g + sumN gas) in *. intros (p1 & Hp1 & Hrest)%bind_Ok. unfold execute_tx in Hp1.
  rewrite same_decoding in Hg. destruct (recover_tx bytes) as [tx|]; [|done]. injection Hg as <-. cbn [ok_or mbind outcome_bind] in Hp1.
  destruct (transact env (world p) tx) as [w used success logs| |] eqn:Htx; [| |done].
  - apply gas_within_limit in Htx. apply bind_Ok in Hp1 as (tip & _ & [= <-]). apply IH in Hrest; cbn [gas_so_far] in *; rewrite wrap64_small in * by lia; lia.
  - injection Hp1 as <-. specialize (IH p ltac:(lia) Hrest). lia.
Qed.

(** A block never uses more gas than its limit: the limit that workers enforce on the
    sum of the gas limits of a batch bounds the gas of the block built from it. *)
Theorem block_gas_bounded chain payload b hash h txs w :
  valid_batch (BatchOps.seal_slow b) -> TNPayload.gas_limit payload = max_batch_gas (Batch.timestamp b) ->
  build_block_from_batch_payload chain payload b hash = Ok (h, txs, w) ->
  ExecHeader.gas_used h <= ExecHeader.gas_limit h.
Proof.
  intros Hv Hlim. destruct (valid_gas _ Hv) as (gas & Hdec & Hgas). cbn [BatchOps.seal_slow BatchOps.seal SealedBatch.batch] in Hdec, Hgas.
  unfold build_block_from_batch_payload. intros (w0 & _ & (p & Hp & [= <- <- <-])%bind_Ok)%bind_Ok. cbn [ExecHeader.gas_used ExecHeader.gas_limit].
  apply (execute_txs_gas _ _ gas _ _ Hdec) in Hp; cbn [gas_so_far env_gas_limit TNPayload.block_env] in *; [rewrite Hlim; lia|].
  unfold max_batch_gas in Hgas. unfold u64_modulus. lia.
Qed.

End gas.

(** * The executor *)

Section executor.
Context `{NetworkKeys} `{Crypto} `{ChainHash} `{BatchHash} `{ExecutionClient}.
Context (empty_txs empty_receipts : N).
Implicit Types (s : t) (client : state).
Notation execute := (execute_consensus_output empty_txs empty_receipts).
Notation poll_loop := (poll_loop empty_txs empty_receipts).
Notation run := (run empty_txs empty_receipts).

(** Outputs executed one after the other. *)
Definition execute_all (acc : state * ExecHeader.t) (os : list ConsensusOutput.t) : outcome TnEngineError (state * ExecHeader.t) :=
  foldM (fun acc o => execute acc.1 o acc.2) acc os.

(** Everything the engine received: executed, in execution and queued. *)
Definition known_outputs s : list ConsensusOutput.t := executed s ++ option_list (pending_task s) ++ queued s.

Definition item_outputs (i : stream_item) : list ConsensusOutput.t := match i with StreamOutput o => [o] | _ => [] end.

(** From [s] to [s'] the engine executed its outputs in order and received others. *)
Record progressed s (received : list ConsensusOutput.t) s' : Prop := {
  prog_known : known_outputs s' = known_outputs s ++ received;
  prog_max : max_round s' = max_round s;
  prog_executed : exists os, executed s' = executed s ++ os /\ execute_all (client s, parent_header s) os = Ok (client s', parent_header s');
}.

Lemma progressed_refl s : progressed s [] s.
Proof. split; [by rewrite app_nil_r|done|]. exists []. by rewrite app_nil_r. Qed.

Lemma progressed_trans s r s1 r' s2 : progressed s r s1 -> progressed s1 r' s2 -> progressed s (r ++ r') s2.
Proof.
  intros [Hk Hm (os & He & Ha)] [Hk' Hm' (os' & He' & Ha')]. split; [by rewrite Hk', Hk, app_assoc|congruence|].
  exists (os ++ os'). split; [by rewrite He', He, app_assoc|]. unfold execute_all in *. rewrite foldM_app, Ha. done.
Qed.

Definition healthy (st : status) : Prop := match st with Finished (Ok _) => True | Finished _ => False | _ => True end.

Lemma push_progressed s o : progressed s [o] (push s o).
Proof.
  split; [unfold known_outputs; by rewrite <-!app_assoc|done|]. exists []. by rewrite app_nil_r.
Qed.

Lemma start_task_progressed s s' : start_task s = Some s' -> progressed s [] s'.
Proof.
  unfold start_task. destruct (pending_task s) as [o|] eqn:Hp; [intros [= ->]; apply progressed_refl|].
  destruct (queued s) as [|o queue] eqn:Hq; [done|]. intros [= <-]. split; [|done|exists []; by rewrite app_nil_r].
  unfold known_outputs. by rewrite Hp, Hq, app_nil_r.
Qed.

Lemma poll_task_progressed s ready s' st :
  poll_task empty_txs empty_receipts s ready = (s', st) -> healthy st ->
  progressed s [] s' /\ (st = Finished (Ok ()) -> is_Some (max_round s)).
Proof.
  unfold poll_task. destruct (pending_task s) as [o|] eqn:Hp; [|intros [= <- <-]; by split; [apply progressed_refl|]].
  destruct ready; [|intros [= <- <-]; by split; [apply progressed_refl|]].
  destruct (execute (client s) o (parent_header s)) as [[c h]| | |] eqn:Hx; [|intros [= <- <-]; done..].
  set (s1 := Engine.mk _ _ _ _ _ _). assert (progressed s [] s1) as Hprog.
  { split; [unfold known_outputs, s1; cbn; by rewrite Hp, app_nil_r, <-app_assoc|done|]. exists [o]. split; [done|].
    unfold execute_all. cbn [foldM fst snd]. rewrite Hx. done. }
  unfold has_reached_max_round. cbn [max_round s1]. destruct (max_round s) as [m|]; [|intros [= <- <-]; done].
  destruct (m <=? _); intros [= <- <-] _; split; try done; by eexists.
Qed.

Lemma idle_known s : idle s = true -> known_outputs s = executed s.
Proof. unfold idle, known_outputs. destruct (pending_task s), (queued s); try done. intros _. by rewrite app_nil_r. Qed.

Lemma poll_loop_progressed s item ready s' st :
  poll_loop s item ready = (s', st) -> healthy st ->
  progressed s (item_outputs item) s' /\
  (forall r, st = Finished r -> is_Some (max_round s) \/ (item = StreamClosed /\ known_outputs s' = executed s')).
Proof.
  assert (forall s0, match start_task s0 with None => (s0, Yield) | Some s1 => poll_task empty_txs empty_receipts s1 ready end = (s', st) ->
    healthy st -> progressed s0 [] s' /\ (st = Finished (Ok ()) -> is_Some (max_round s0))) as Hrest.
  { intros s0. destruct (start_task s0) as [s1|] eqn:Hs; [|intros [= <- <-]; split; [apply progressed_refl|done]].
    intros Hp Hh. destruct (poll_task_progressed _ _ _ _ Hp Hh) as [Hp1 Hp2]. pose proof (start_task_progressed _ _ Hs) as Hst. split.
    - by apply (progressed_trans s0 [] s1 []).
    - by rewrite <-(prog_max _ _ _ Hst). }
  assert (forall s0, match start_task s0 with None => (s0, Yield) | Some s1 => poll_task empty_txs empty_receipts s1 ready end = (s', st) ->
    healthy st -> max_round s0 = max_round s -> progressed s0 [] s' /\
    (forall r, st = Finished r -> is_Some (max_round s) \/ (item = StreamClosed /\ known_outputs s' = executed s'))) as Hrest'.
  { intros s0 Hp Hh Hm. destruct (Hrest s0 Hp Hh) as [H1' H2']. split; [done|]. intros [u| | |] ->; try done. destruct u. left.
    rewrite <-Hm. by apply H2'. }
  clear Hrest. unfold poll_loop. destruct item as [o| | |]; cbn [item_outputs].
  - intros Hp Hh. destruct (Hrest' _ Hp Hh eq_refl) as [H1' H2']. split; [|done].
    change [o] with ([o] ++ []). eapply progressed_trans; [apply push_progressed|done].
  - intros Hp Hh. by apply Hrest'.
  - destruct (idle s) eqn:Hi; [|intros Hp Hh; by apply Hrest'].
    intros [= <- <-] _. split; [apply progressed_refl|]. intros _ _. right. split; [done|by apply idle_known].
  - intros Hp Hh. by apply Hrest'.
Qed.

(** The outputs that the stream gives over a sequence of events. *)
Definition outputs_of (es : list event) : list ConsensusOutput.t := concat (item_outputs ∘ event_item <$> es).

Lemma outputs_of_cons e es : outputs_of (e :: es) = item_outputs (event_item e) ++ outputs_of es.
Proof. done. Qed.

(** What the engine received over the events: while it runs, every output of the stream.
    When it ends at an event because of a shutdown or the end of the stream, every output
    before that event, and all of them are executed; otherwise it ends because it reached
    its maximal round, and it received every output up to that event. *)
Definition reception s (es : list event) (received : list ConsensusOutput.t) s' (st : status) : Prop :=
  match st with
  | Finished _ => exists i e, es !! i = Some e /\
      ((received = outputs_of (take i es) /\ (event_shutdown e = true \/ event_item e = StreamClosed) /\ known_outputs s' = executed s') \/
       (received = outputs_of (take (S i) es) /\ is_Some (max_round s)))
  | _ => received = outputs_of es
  end.

Lemma reception_cons s s1 e es received s' st :
  max_round s1 = max_round s -> reception s1 es received s' st ->
  reception s (e :: es) (item_outputs (event_item e) ++ received) s' st.
Proof.
  intros Hm. destruct st as [| |r]; cbn [reception]; [by intros ->..|].
  intros (i & e' & Hi & Hr). exists (S i), e'. split; [done|]. rewrite !firstn_cons, !outputs_of_cons, <-Hm.
  destruct Hr as [(-> & ? & ?)|(-> & ?)]; [by left|by right].
Qed.

Lemma reception_prefix s es received s' st : reception s es received s' st -> received `prefix_of` outputs_of es.
Proof.
  assert (forall i, outputs_of (take i es) `prefix_of` outputs_of es) as Htake.
  { intros i. rewrite <-(take_drop i es) at 2. unfold outputs_of. rewrite fmap_app, concat_app. by eexists. }
  destruct st as [| |r]; cbn [reception]; [by intros ->..|]. by intros (i & e & _ & [(-> & _)|(-> & _)]).
Qed.

Lemma run_progressed s polling events s' st :
  run s polling events = (s', st) -> healthy st ->
  exists received, reception s events received s' st /\ progressed s received s'.
Proof.
  revert s polling. induction events as [|e events IH]; intros s polling; cbn [Engine.run].
  { intros [= <- <-] _. exists []. split; [done|apply progressed_refl]. }
  destruct (if polling then _ else _) as [s0 st0] eqn:Hstart.
  assert (s0 = s /\ (forall r, st0 = Finished r -> event_shutdown e = true /\ idle s = true)) as [-> Hst0].
  { destruct polling; [injection Hstart as <- <-; done|]. unfold poll_start in Hstart. destruct (event_shutdown e && idle s) eqn:Hs;
      injection Hstart as <- <-; [|done]. apply andb_true_iff in Hs as [Hs Hi]. split; [done|]. by intros r [= <-]. }
  assert (match poll_loop s (event_item e) (event_ready e) with (s, Continue) => run s true events | (s, Yield) => run s false events
    | (s, Finished r) => (s, Finished r) end = (s', st) -> healthy st ->
    exists received, reception s (e :: events) received s' st /\ progressed s received s') as Hbody.
  { intros Hrun Hh. destruct (poll_loop s (event_item e) (event_ready e)) as [s1 st1] eqn:Hl.
    assert (healthy st1) as Hh1 by (destruct st1; [done|done|by injection Hrun as <- <-]).
    destruct (poll_loop_progressed _ _ _ _ _ Hl Hh1) as [Hp Hend]. destruct st1 as [| |r].
    1-2: destruct (IH _ _ Hrun Hh) as (rec & Hrec & Hprog); exists (item_outputs (event_item e) ++ rec);
      (split; [apply (reception_cons s s1); [apply Hp|done]|by eapply progressed_trans]).
    injection Hrun as <- <-. exists (item_outputs (event_item e)). split; [|done]. exists 0%nat, e. split; [done|].
    destruct (Hend r eq_refl) as [Hm|[Hc Hk]].
    - right. split; [by rewrite firstn_cons, outputs_of_cons, app_nil_r|done].
    - left. rewrite Hc. split_and!; [done|by right|done]. }
  destruct st0 as [| |r]; [exact Hbody..|].
  intros [= <- <-] _. destruct (Hst0 r eq_refl) as [Hs Hi]. exists []. split; [|apply progressed_refl].
  exists 0%nat, e. split; [done|]. left. split_and!; [done|by left|by apply idle_known].
Qed.

(** With tasks that are done when they are polled, a turn leaves nothing unexecuted. *)
Lemma poll_loop_ready s item s' st :
  idle s = true -> poll_loop s item true = (s', st) -> healthy st -> idle s' = true.
Proof.
  intros Hi. assert (pending_task s = None /\ queued s = []) as [Hp Hq].
  { unfold idle in Hi. by destruct (pending_task s), (queued s). }
  unfold poll_loop, start_task. destruct item as [o| | |]; cbn [push pending_task queued]; rewrite ?Hi, ?Hp, ?Hq; cbn [app];
    [|by intros [= <- <-]..].
  unfold poll_task. cbn [pending_task]. destruct (execute _ _ _) as [[c h]| | |]; [|by intros [= <- <-]..].
  destruct (has_reached_max_round _ _); by intros [= <- <-].
Qed.

Lemma run_ready s polling events s' st :
  idle s = true -> Forall (fun e => event_ready e = true) events -> run s polling events = (s', st) -> healthy st ->
  idle s' = true.
Proof.
  intros Hi Hr. revert s polling Hi. induction Hr as [|e events He Hr IH]; intros s polling Hi; cbn [Engine.run]; [by intros [= <- <-]|].
  assert ((if polling then (s, Continue) else poll_start s (event_shutdown e)) = (s, Continue) \/
    exists r, (if polling then (s, Continue) else poll_start s (event_shutdown e)) = (s, Finished r)) as [->|[r ->]];
    [by unfold poll_start; destruct polling, (event_shutdown e && idle s); eauto| |by intros [= <- <-]].
  rewrite He. destruct (poll_loop s (event_item e) true) as [s1 st1] eqn:Hl. intros Hrun Hh.
  assert (healthy st1) as Hh1 by (destruct st1; [done|done|by injection Hrun as <- <-]).
  apply poll_loop_ready in Hl as Hi1; [|done|done]. destruct st1 as [| |r]; [by eapply IH..|by injection Hrun as <- <-].
Qed.

(** C16: the engine executes the outputs it receives in their order and once each, whatever
    the interleaving of new outputs, of tasks that end and of polls: while no execution
    fails, what it executed, executes and has queued is what it received, and its chain is
    the result of executing those outputs one after the other.  While it runs it receives
    every output that the stream delivers (a receiver that lags loses outputs before they
    are delivered, [StreamLagged]); when it ends because of a shutdown or the end of the
    stream it has received and executed every output delivered before that.  When each task
    is done by the time it is polled, nothing waits between two polls. *)
Theorem engine_executes_in_order s polling events s' st :
  run s polling events = (s', st) -> healthy st ->
  exists received, reception s events received s' st /\ progressed s received s' /\
    (idle s = true -> Forall (fun e => event_ready e = true) events -> executed s' = executed s ++ received).
Proof.
  intros Hrun Hh. destruct (run_progressed _ _ _ _ _ Hrun Hh) as (received & Hr & Hp). exists received. split_and!; [done..|].
  intros Hi Hev. rewrite <-(idle_known s Hi), <-(prog_known _ _ _ Hp). symmetry. apply idle_known. by eapply run_ready.
Qed.

End executor.

(** * The properties at a concrete client *)

Section witnesses.
#[local] Existing Instances demo_keys demo_crypto demo_batch_hash demo_chain_hash demo_execution.

(** Blocks are identified by their number; a transaction is its gas limit, and uses it. *)
Definition demo_execution_client : ExecutionClient := {|
  World := N; Tx := N; Chain := gmap N N;
  recover_tx bytes := head bytes;
  tx_gas_limit tx := tx;
  effective_tip_per_gas tx fee := Some 0;
  transact env w tx := Executed (w + tx) tx true 0;
  state_root_of w := w;
  transaction_root txs := sumN txs;
  receipts_root_of rs := N.of_nat (length rs);
  logs_bloom_of rs := 0;
  seal_hash h := ExecHeader.number h;
  state_by_block_hash c hash := c !! hash;
  sealed_header_by_hash c hash := None;
  insert_block c h txs w := Some (<[ExecHeader.number h := w]> c);
  make_canonical c hash := Some c;
  set_canonical_head c h := c;
  finalize_block c n := Some c;
  set_finalized c h := c;
  set_safe c h := c;
|}.
#[local] Existing Instance demo_execution_client.

Lemma demo_client_laws : ClientLaws.
Proof.
  split; [|by eexists|by eexists]. intros c h txs w _. eexists. split; [done|]. apply lookup_insert_eq.
Qed.
#[local] Existing Instance demo_client_laws.

Definition genesis_block : ExecHeader.t := ExecHeader.mk 0 0 0 0 0 0 0 0 0 (Some 7) 0 30000000 0 0 0 None.

Definition demo_consensus_output : ConsensusOutput.t :=
  ConsensusOutput.mk (batch_sub_dag 1 2 demo_batch) [[demo_batch]] 1 [BatchOps.digest demo_batch] (ConsensusHeader.digest default_consensus_header) 1 0 true.

Definition demo_client_state : state := ({[0 := 5]}, []).

Lemma output_executed_witness :
  exists chain blocks, execute_consensus_output 0 0 demo_client_state demo_consensus_output genesis_block =
      Ok (chain, blocks, last_header genesis_block blocks) /\ output_blocks demo_consensus_output genesis_block blocks.
Proof.
  destruct (output_executed 0 0 demo_consensus_output demo_client_state genesis_block) as (chain & blocks & Heq & Hb).
  - done.
  - by split.
  - by exists 5.
  - repeat constructor; (eexists; split; [done|]; intros env w; split; [done|]; by eexists).
  - exists chain, blocks. split; [exact Heq|exact Hb].
Defined.

Lemma block_gas_bounded_witness :
  match build_block_from_batch_payload demo_client_state.1
          (TNPayload.new genesis_block 0 0 demo_consensus_output 0 0 (max_batch_gas 101) 0) demo_batch 0 with
  | Ok (h, _, _) => ExecHeader.gas_used h <= ExecHeader.gas_limit h
  | _ => False
  end.
Proof.
  destruct (build_block_from_batch_payload _ _ _ _) as [[[h txs] w]| | |] eqn:Hb; [|by vm_compute in Hb..].
  assert (valid_batch (BatchOps.seal_slow demo_batch)) as Hv.
  { split; [done|done|done|done|]. exists [21000; 50000]. split; [by repeat constructor|done]. }
  eapply block_gas_bounded; [| |exact Hv| |exact Hb]; [| |done].
  - intros bytes. cbn. by destruct (head bytes).
  - intros env w' tx w'' gas success logs [= _ <- _ _]. done.
Defined.

Lemma engine_executes_in_order_witness :
  let s := Engine.mk [] None None genesis_block demo_client_state [] in
  let events := [mk_event false (StreamOutput demo_consensus_output) true; mk_event false StreamClosed true] in
  let '(s', st) := run 0 0 s false events in
  st = Finished (Ok ()) /\ executed s' = [demo_consensus_output] /\
  exists received, reception s events received s' st /\ progressed 0 0 s received s' /\
    (idle s = true -> Forall (fun e => event_ready e = true) events -> executed s' = executed s ++ received).
Proof.
  intros s events. pose proof (engine_executes_in_order 0 0 s false events) as He.
  assert ((run 0 0 s false events).2 = Finished (Ok ()) /\ executed (run 0 0 s false events).1 = [demo_consensus_output]) as [Hst Hex] by by vm_compute.
  destruct (run 0 0 s false events) as [s' st]. cbn [fst snd] in *. subst st. split; [done|]. split; [done|].
  exact (He s' (Finished (Ok ())) eq_refl I).
Defined.

End witnesses.
