(* ===== verification/ExecutionAgreement.v ===== *)
(** Execution at two nodes: engines that execute the same chain of outputs build the same
    blocks.  Closes the path from certificates to blocks: the nodes of an honest network
    have the same execution blocks, as far as both have executed. *)

From S2P Require Import Prelude Storage Committee Certificate CertStore Output ConsensusState OrderDag LeaderSchedule Bullshark.
From S2P Require Import Demo BullsharkSafety Agreement Consensus Worker WorkerSafety ConsensusChain ChainSafety System Engine EngineSafety.
Import Engine.

(** Collision resistance of the hash of batches. *)
Class BatchHashBinds `{BatchHash} := {
  hash_batch_inj x y : hash_batch x = hash_batch y -> x = y;
}.

(** What the execution client may do with the states of its blocks: a block's hash gives
    the state it was inserted with, and nothing else introduces a state. *)
Class StateLaws `{ExecutionClient} := {
  insert_state c h txs w c' hash w' :
    insert_block c h txs w = Some c' -> state_by_block_hash c' hash = Some w' ->
    if decide (hash = seal_hash h) then w' = w else state_by_block_hash c hash = Some w';
  canonical_state c hash0 c' hash w : make_canonical c hash0 = Some c' -> state_by_block_hash c' hash = Some w -> state_by_block_hash c hash = Some w;
  head_state c h hash w : state_by_block_hash (set_canonical_head c h) hash = Some w -> state_by_block_hash c hash = Some w;
  finalize_state c n c' hash w : finalize_block c n = Some c' -> state_by_block_hash c' hash = Some w -> state_by_block_hash c hash = Some w;
  finalized_state c h hash w : state_by_block_hash (set_finalized c h) hash = Some w -> state_by_block_hash c hash = Some w;
  safe_state c h hash w : state_by_block_hash (set_safe c h) hash = Some w -> state_by_block_hash c hash = Some w;
}.

Section execution.
Context `{NetworkKeys} `{Crypto} `{ChainHash} `{BatchHash} `{!BatchHashBinds} `{ExecutionClient} `{!StateLaws}.
Context (empty_txs empty_receipts : N).
Implicit Types (s : state) (o : ConsensusOutput.t) (c : Chain).

(** Chains that do not contradict each other: a hash gives the same state in both. *)
Definition compatible c c' : Prop :=
  forall hash w w', state_by_block_hash c hash = Some w -> state_by_block_hash c' hash = Some w' -> w = w'.

Definition forgets c c1 : Prop := forall hash w, state_by_block_hash c1 hash = Some w -> state_by_block_hash c hash = Some w.

Lemma forgets_trans c c1 c2 : forgets c c1 -> forgets c1 c2 -> forgets c c2.
Proof. unfold forgets. auto. Qed.

Lemma compatible_forgets c c' c1 c1' : compatible c c' -> forgets c c1 -> forgets c' c1' -> compatible c1 c1'.
Proof. intros Hc Hf Hf' hash w w' Hw%Hf Hw'%Hf'. by apply (Hc hash). Qed.

Lemma compatible_insert c c' h txs w c1 c1' :
  compatible c c' -> insert_block c h txs w = Some c1 -> insert_block c' h txs w = Some c1' -> compatible c1 c1'.
Proof.
  intros Hc Hi Hi' hash v v' Hv Hv'. pose proof (insert_state _ _ _ _ _ _ _ Hi Hv) as H1'. pose proof (insert_state _ _ _ _ _ _ _ Hi' Hv') as H2'.
  destruct (decide _); [congruence|by apply (Hc hash)].
Qed.

(** Outputs that execution cannot tell apart. *)
Record same_execution o o' : Prop := {
  se_hash : ConsensusOutput.consensus_header_hash o = ConsensusOutput.consensus_header_hash o';
  se_nonce : ConsensusOutput.nonce o = ConsensusOutput.nonce o';
  se_time : ConsensusOutput.committed_at o = ConsensusOutput.committed_at o';
  se_beneficiary : ConsensusOutput.beneficiary o = ConsensusOutput.beneficiary o';
  se_digests : ConsensusOutput.batch_digests o = ConsensusOutput.batch_digests o';
  se_batches : Forall2 (fun b b' => Batch.decoded b = Batch.decoded b') (ConsensusOutput.flatten_batches o) (ConsensusOutput.flatten_batches o');
}.

Lemma same_batches (bs bs' : list Batch.t) :
  BatchOps.digest <$> bs = BatchOps.digest <$> bs' -> Forall2 (fun b b' => Batch.decoded b = Batch.decoded b') bs bs'.
Proof.
  revert bs'. induction bs as [|b bs IH]; intros [|b' bs'] Heq; try done. rewrite !fmap_cons in Heq. injection Heq as Hb Hbs.
  constructor; [|by apply IH]. apply hash_batch_inj in Hb. unfold Batch.decoded. by injection Hb as -> -> -> -> ->.
Qed.

Lemma same_output_execution o o' : same_output o o' -> same_execution o o'.
Proof.
  intros [Hn Hp Hh Hb [_ [_ Hl] _ Ht] Hd Hc]. split; try done; [| |by apply same_batches].
  - unfold ConsensusOutput.nonce, Header.nonce, ConsensusOutput.leader. by injection Hl as _ -> -> _ _ _ _.
  - unfold ConsensusOutput.committed_at, CommittedSubDag.commit_timestamp. rewrite Ht. by injection Hl as _ _ _ -> _ _ _.
Qed.

(** ** Blocks *)

Lemma build_batch_agree c c' payload b b' hash r r' :
  compatible c c' -> Batch.transactions b = Batch.transactions b' ->
  build_block_from_batch_payload c payload b hash = Ok r -> build_block_from_batch_payload c' payload b' hash = Ok r' -> r = r'.
Proof.
  intros Hc Htx. unfold build_block_from_batch_payload. intros (w & Hw & Hr)%bind_Ok (w' & Hw' & Hr')%bind_Ok.
  apply ok_or_Ok in Hw, Hw'. rewrite (Hc _ _ _ Hw Hw'), Htx in Hr. rewrite Hr in Hr'. by injection Hr'.
Qed.

Lemma build_empty_agree c c' payload hash r r' :
  compatible c c' -> build_block_from_empty_payload empty_txs empty_receipts c payload hash = Ok r ->
  build_block_from_empty_payload empty_txs empty_receipts c' payload hash = Ok r' -> r = r'.
Proof.
  intros Hc. unfold build_block_from_empty_payload. intros (w & Hw & Hr)%bind_Ok (w' & Hw' & Hr')%bind_Ok.
  apply ok_or_Ok in Hw, Hw'. rewrite (Hc _ _ _ Hw Hw') in Hr. rewrite Hr in Hr'. by injection Hr'.
Qed.

(** Engines with the same blocks on compatible chains. *)
Definition in_step s s' : Prop := s.2 = s'.2 /\ compatible s.1 s'.1.

Lemma insert_agree s s' block s1 s1' : in_step s s' -> insert s block = Ok s1 -> insert s' block = Ok s1' -> in_step s1 s1'.
Proof.
  intros [Hb Hc]. destruct block as [[h txs] w]. intros (c1 & Hi%ok_or_Ok & [= <-])%bind_Ok (c1' & Hi'%ok_or_Ok & [= <-])%bind_Ok.
  split; [by rewrite Hb|by eapply compatible_insert].
Qed.

Lemma execute_batch_agree o o' s s' h i ds b b' s1 h1 i1 ds1 s1' h1' i1' ds1' :
  same_execution o o' -> in_step s s' -> Batch.decoded b = Batch.decoded b' ->
  execute_batch o (ConsensusOutput.consensus_header_hash o) (s, h, i, ds) b = Ok (s1, h1, i1, ds1) ->
  execute_batch o' (ConsensusOutput.consensus_header_hash o') (s', h, i, ds) b' = Ok (s1', h1', i1', ds1') ->
  in_step s1 s1' /\ h1 = h1' /\ i1 = i1' /\ ds1 = ds1'.
Proof.
  intros [Hh Hn Ht Hbe _ _] Hs Hb. unfold execute_batch. destruct ds as [|d ds]; [done|]. injection Hb as Htx Hp Hbn Hts Hfee.
  unfold BatchOps.digest, TNPayload.new. rewrite Hh, Hn, Ht, Hbe, Htx, Hp, Hbn, Hts, Hfee.
  intros (r & Hr & (s2 & Hi & [= <- <- <- <-])%bind_Ok)%bind_Ok (r' & Hr' & (s2' & Hi' & [= <- <- <- <-])%bind_Ok)%bind_Ok.
  assert (r = r') as -> by (eapply build_batch_agree; [apply Hs|exact Htx|exact Hr|exact Hr']).
  split; [by eapply insert_agree|done].
Qed.

Lemma execute_batches_agree o o' bs bs' s s' h i ds acc acc' :
  same_execution o o' -> Forall2 (fun b b' => Batch.decoded b = Batch.decoded b') bs bs' -> in_step s s' ->
  foldM (execute_batch o (ConsensusOutput.consensus_header_hash o)) (s, h, i, ds) bs = Ok acc ->
  foldM (execute_batch o' (ConsensusOutput.consensus_header_hash o')) (s', h, i, ds) bs' = Ok acc' ->
  in_step acc.1.1.1 acc'.1.1.1 /\ acc.1.1.2 = acc'.1.1.2.
Proof.
  intros Ho Hbs. revert s s' h i ds. induction Hbs as [|b b' bs bs' Hb _ IH]; intros s s' h i ds Hs; cbn [foldM]; [by intros [= <-] [= <-]|].
  intros ([[[s1 h1] i1] ds1] & Ha & Hr)%bind_Ok ([[[s1' h1'] i1'] ds1'] & Ha' & Hr')%bind_Ok.
  destruct (execute_batch_agree o o' s s' h i ds b b' _ _ _ _ _ _ _ _ Ho Hs Hb Ha Ha') as (Hs1 & -> & -> & ->).
  exact (IH _ _ _ _ _ Hs1 Hr Hr').
Qed.

Lemma execute_blocks_agree o o' s s' h s1 h1 s1' h1' :
  same_execution o o' -> in_step s s' ->
  execute_blocks empty_txs empty_receipts s o h = Ok (s1, h1) -> execute_blocks empty_txs empty_receipts s' o' h = Ok (s1', h1') ->
  in_step s1 s1' /\ h1 = h1'.
Proof.
  intros Ho Hs. unfold execute_blocks. cbv zeta. pose proof Ho as [Hh Hn Ht Hbe Hd Hbs]. inversion Hbs as [E1 E2|b b' bs bs' Hb Hbs' E1 E2].
  - unfold TNPayload.new. rewrite Hh, Hn, Ht, Hbe.
    intros (r & Hr & (s2 & Hi & [= <- <-])%bind_Ok)%bind_Ok (r' & Hr' & (s2' & Hi' & [= <- <-])%bind_Ok)%bind_Ok.
    assert (r = r') as -> by (eapply build_empty_agree; [apply Hs|exact Hr|exact Hr']). split; [by eapply insert_agree|done].
  - rewrite Hd. intros (acc & Ha & Hr)%bind_Ok (acc' & Ha' & Hr')%bind_Ok.
    destruct (execute_batches_agree o o' (b :: bs) (b' :: bs') s s' h 0 (ConsensusOutput.batch_digests o') acc acc') as [? ?]; [done|by constructor|done..|].
    destruct acc as [[[? ?] ?] ?], acc' as [[[? ?] ?] ?]. by simplify_eq.
Qed.

(** ** Outputs *)

Lemma finalize_forgets c h c' : finalize c h = Ok c' -> forgets c c'.
Proof.
  intros (c1 & Hf%ok_or_Ok & [= <-])%bind_Ok hash w Hw%safe_state%finalized_state. by eapply finalize_state.
Qed.

(** After its blocks are inserted, executing an output only loses states. *)
Lemma execute_output_blocks o s h s1 h1 :
  execute_consensus_output empty_txs empty_receipts s o h = Ok (s1, h1) ->
  exists s2, execute_blocks empty_txs empty_receipts s o h = Ok (s2, h1) /\ s2.2 = s1.2 /\ forgets s2.1 s1.1.
Proof.
  unfold execute_consensus_output. intros ([[c2 bl] h2] & Hb & Hr)%bind_Ok. apply bind_Ok in Hr as (c3 & Hc%ok_or_Ok & (c4 & Hf & [= <- <-])%bind_Ok).
  exists (c2, bl). split_and!; [done..|]. assert (forgets (set_canonical_head c3 h2) c4) as H4'.
  { destruct (ConsensusOutput.early_finalize o); [by eapply finalize_forgets|]. unfold finalize_signed_blocks in Hf.
    destruct (_ <=? _); [|injection Hf as <-; by intros ? ?]. apply bind_Ok in Hf as (blk & _ & Hf). by eapply finalize_forgets. }
  intros hash w Hw%H4'%head_state. by eapply canonical_state.
Qed.

Lemma execute_output_agree o o' s s' h s1 h1 s1' h1' :
  same_execution o o' -> in_step s s' ->
  execute_consensus_output empty_txs empty_receipts s o h = Ok (s1, h1) ->
  execute_consensus_output empty_txs empty_receipts s' o' h = Ok (s1', h1') -> in_step s1 s1' /\ h1 = h1'.
Proof.
  intros Ho Hs (s2 & Hb & Hbl & Hf)%execute_output_blocks (s2' & Hb' & Hbl' & Hf')%execute_output_blocks.
  destruct (execute_blocks_agree o o' s s' h s2 h1 s2' h1' Ho Hs Hb Hb') as [[Heq Hc] ->]. split; [|done].
  split; [congruence|by eapply compatible_forgets].
Qed.

Lemma execute_all_agree os os' s s' h s1 h1 s1' h1' :
  Forall2 same_execution os os' -> in_step s s' ->
  execute_all empty_txs empty_receipts (s, h) os = Ok (s1, h1) -> execute_all empty_txs empty_receipts (s', h) os' = Ok (s1', h1') ->
  in_step s1 s1' /\ h1 = h1'.
Proof.
  intros Hos. revert s s' h. unfold execute_all. induction Hos as [|o o' os os' Ho _ IH]; intros s s' h Hs; cbn [foldM fst snd];
    [by intros [= <- <-] [= <- <-]|].
  intros ([s2 h2] & He & Hr)%bind_Ok ([s2' h2'] & He' & Hr')%bind_Ok.
  destruct (execute_output_agree o o' s s' h s2 h2 s2' h2' Ho Hs He He') as [Hs2 ->]. exact (IH _ _ _ Hs2 Hr Hr').
Qed.

(** Executing only adds blocks. *)
Lemma insert_grows s block s1 : insert s block = Ok s1 -> s.2 `prefix_of` s1.2.
Proof. destruct block as [[h txs] w]. intros (c & _ & [= <-])%bind_Ok. by eexists. Qed.

Lemma execute_output_grows o s h s1 h1 :
  execute_consensus_output empty_txs empty_receipts s o h = Ok (s1, h1) -> s.2 `prefix_of` s1.2.
Proof.
  intros (s2 & Hb & <- & _)%execute_output_blocks. unfold execute_blocks in Hb. cbv zeta in Hb. destruct (ConsensusOutput.flatten_batches o) as [|b bs].
  - apply bind_Ok in Hb as (r & _ & (s3 & Hi & [= <- <-])%bind_Ok). by eapply insert_grows.
  - apply bind_Ok in Hb as ([[[s3 h3] i3] ds3] & Ha & [= <- <-]).
    apply (foldM_invariant _ (fun acc => s.2 `prefix_of` acc.1.1.1.2)) in Ha; [exact Ha|done|].
    intros [[[s0 h0] i0] ds0] x acc' Hp _. unfold execute_batch. destruct ds0 as [|d ds0]; [done|].
    intros (r & _ & (s4 & Hi & [= <-])%bind_Ok)%bind_Ok. cbn [fst snd] in *. etrans; [exact Hp|by eapply insert_grows].
Qed.

Lemma execute_all_grows os s h s1 h1 : execute_all empty_txs empty_receipts (s, h) os = Ok (s1, h1) -> s.2 `prefix_of` s1.2.
Proof.
  intros Ha. apply (foldM_invariant _ (fun acc => s.2 `prefix_of` acc.1.2)) in Ha; [done|done|].
  intros [s0 h0] o [s2 h2] Hp _ He%execute_output_grows. cbn [fst snd] in *. by etrans.
Qed.

(** The engine that has executed fewer outputs has a prefix of the blocks of the other. *)
Lemma execute_prefix os os' s h s1 h1 s1' h1' :
  (length os <= length os')%nat -> (forall i o o', os !! i = Some o -> os' !! i = Some o' -> same_execution o o') ->
  execute_all empty_txs empty_receipts (s, h) os = Ok (s1, h1) -> execute_all empty_txs empty_receipts (s, h) os' = Ok (s1', h1') ->
  s1.2 `prefix_of` s1'.2.
Proof.
  intros Hlen Hsame Hx Hx'. rewrite <-(take_drop (length os) os') in Hx'. unfold execute_all in *. rewrite foldM_app in Hx'.
  apply bind_Ok in Hx' as ([s2 h2] & Hx1 & Hx2).
  destruct (execute_all_agree os (take (length os) os') s s h s1 h1 s2 h2) as [[Heq _] ->]; [|split; [done|intros ? ? ? ? ?; congruence]|done|done|rewrite Heq; by eapply execute_all_grows].
  apply Forall2_same_length_lookup_2; [rewrite length_take; lia|]. intros i x y Hi Hy. rewrite lookup_take_lt in Hy by (by eapply lookup_lt_Some).
  by apply (Hsame i).
Qed.

End execution.

(** * The blocks of two nodes *)

Section nodes.
Context `{NetworkKeys} `{Crypto} `{SeededChoice} `{!BindsHeader} `{ChainHash} `{BatchHash} `{!ChainHashBinds} `{!BatchHashBinds}.
Context `{ExecutionClient} `{!StateLaws} (empty_txs empty_receipts : N).

(** The outputs that the stream of an engine delivers, in the polls that [events] are. *)
Definition delivered (events : list event) : list ConsensusOutput.t := concat (item_outputs ∘ event_item <$> events).

(** The engine of a node executes outputs that its subscriber sent: their numbers are consecutive
    from the header [base], and no execution fails. *)
Definition engine_runs (start : Engine.t) (base : ConsensusHeader.t) (sub : Subscriber.t) (e : Engine.t) : Prop :=
  exists polling events st, Engine.run empty_txs empty_receipts start polling events = (e, st) /\ healthy st /\
    delivered events ⊆ Subscriber.outputs sub /\
    (forall i o, delivered events !! i = Some o -> ConsensusOutput.number o = ConsensusHeader.number base + 1 + N.of_nat i).

Lemma engine_runs_executed start base sub e :
  known_outputs start = [] -> engine_runs start base sub e ->
  exists os, os ⊆ Subscriber.outputs sub /\ (forall i o, os !! i = Some o -> ConsensusOutput.number o = ConsensusHeader.number base + 1 + N.of_nat i) /\
    execute_all empty_txs empty_receipts (client start, parent_header start) os = Ok (client e, parent_header e).
Proof.
  intros Hidle (polling & events & st & Hrun & Hh & Hev & Hnum). destruct (run_progressed _ _ _ _ _ _ _ Hrun Hh) as (received & Hrec%reception_prefix & [Hk _ (os & Hex & Hall)]).
  exists os. assert (executed start = []) as Hnil by (unfold known_outputs in Hidle; by apply app_eq_nil in Hidle as [? _]).
  rewrite Hidle in Hk. rewrite Hnil in Hex. cbn in Hk, Hex.
  assert (os `prefix_of` delivered events) as Hpre by (etrans; [|exact Hrec]; rewrite <-Hk, <-Hex; by eexists).
  split_and!; [|intros i o Ho; apply Hnum; by eapply prefix_lookup_Some|done].
  intros o Ho. apply Hev. destruct Hpre as [k ->]. set_solver.
Qed.

(** C1: Agreement of execution.  In an honest network, two nodes that start from the same
    consensus header and the same execution chain build the same blocks: the blocks of the
    one that is behind are a prefix of the blocks of the other, whatever the order in which
    each received certificates and batches and polled its engine.  This is as long as no
    execution fails and neither engine misses an output: the ones it is given have
    consecutive numbers.  A node whose request for batches failed, or whose engine lagged
    behind its stream, has missed one, and nothing is said about its later blocks. *)
Theorem honest_blocks_agree net b gc_depth base cs cs' sub sub' start e e' :
  protocol_inv b (ConsensusState.new gc_depth) -> honest_network (Bullshark.committee b) net ->
  Forall (attested (Bullshark.committee b) net) cs -> Forall (attested (Bullshark.committee b) net) cs' ->
  quorum_parents (Bullshark.committee b) cs -> quorum_parents (Bullshark.committee b) cs' ->
  node_runs b gc_depth base cs sub -> node_runs b gc_depth base cs' sub' ->
  known_outputs start = [] -> engine_runs start base sub e -> engine_runs start base sub' e' ->
  (client e).2 `prefix_of` (client e').2 \/ (client e').2 `prefix_of` (client e).2.
Proof.
  intros Hp Hn Hcs Hcs' Hq Hq' Hr Hr' Hidle (os & Hsub & Hnum & Hx)%engine_runs_executed (os' & Hsub' & Hnum' & Hx')%engine_runs_executed; [|done..].
  assert (forall i o o', os !! i = Some o -> os' !! i = Some o' -> same_execution o o') as Hsame.
  { intros i o o' Ho Ho'. apply same_output_execution.
    apply (attested_chains_agree net b gc_depth base cs cs' sub sub' o o' Hp Hn Hcs Hcs' Hq Hq' Hr Hr').
    - apply Hsub. by eapply list_elem_of_lookup_2.
    - apply Hsub'. by eapply list_elem_of_lookup_2.
    - by rewrite (Hnum i o Ho), (Hnum' i o' Ho'). }
  destruct (Nat.le_ge_cases (length os) (length os')) as [Hle|Hle]; [left|right].
  - by eapply (execute_prefix empty_txs empty_receipts os os').
  - eapply (execute_prefix empty_txs empty_receipts os' os); [done| |done|done].
    intros i o o' Ho Ho'. destruct (Hsame i o' o Ho' Ho) as [? ? ? ? ? Hbs]. split; try done.
    apply Forall2_flip in Hbs. eapply Forall2_impl; [exact Hbs|done].
Qed.

End nodes.

(** * Evaluation *)

Section witnesses.
#[local] Existing Instances demo_keys whole_crypto demo_choice whole_binds_header demo_chain_hash demo_chain_binds demo_batch_hash demo_execution_client.

Lemma demo_batch_hash_binds : BatchHashBinds.
Proof. constructor. by intros x y [= Heq%(inj encode)]. Qed.
#[local] Existing Instance demo_batch_hash_binds.

Lemma demo_state_laws : StateLaws.
Proof.
  constructor; try done.
  - intros c h txs w c' hash w' [= <-] Hw. cbn in *. case_decide as Heq; [subst hash; by rewrite lookup_insert_eq in Hw; injection Hw|].
    by rewrite lookup_insert_ne in Hw by done.
  - by intros c hash0 c' hash w [= <-].
  - by intros c n c' hash w [= <-].
Qed.
#[local] Existing Instance demo_state_laws.

Definition duo_engine (sub : Subscriber.t) : Engine.t * status :=
  Engine.run 0 0 (Engine.mk [] None None genesis_block demo_client_state []) false
    ((fun o => mk_event false (StreamOutput o) true) <$> Subscriber.outputs sub).

Lemma duo_engine_runs sub :
  healthy (duo_engine sub).2 ->
  (forall i o, Subscriber.outputs sub !! i = Some o -> ConsensusOutput.number o = ConsensusHeader.number default_consensus_header + 1 + N.of_nat i) ->
  engine_runs 0 0 (Engine.mk [] None None genesis_block demo_client_state []) default_consensus_header sub (duo_engine sub).1.
Proof.
  intros Hh Hnum. exists false, ((fun o => mk_event false (StreamOutput o) true) <$> Subscriber.outputs sub), (duo_engine sub).2.
  split; [apply surjective_pairing|]. split; [done|].
  assert (delivered ((fun o => mk_event false (StreamOutput o) true) <$> Subscriber.outputs sub) = Subscriber.outputs sub) as ->; [|done].
  unfold delivered. generalize (Subscriber.outputs sub) as os. induction os as [|o os IH]; [done|]. rewrite !fmap_cons, concat_cons, IH. done.
Qed.

Lemma duo_numbered active cs o : Subscriber.outputs (duo_node active cs) = [o] -> ConsensusOutput.number o = 1 ->
  forall i o', Subscriber.outputs (duo_node active cs) !! i = Some o' -> ConsensusOutput.number o' = ConsensusHeader.number default_consensus_header + 1 + N.of_nat i.
Proof. intros -> Hn [|i] o' Ho; [injection Ho as <-; by rewrite Hn|done]. Qed.

Lemma honest_blocks_agree_witness :
  length (client (duo_engine (duo_node true duo_view)).1).2 = 1%nat /\
  ((client (duo_engine (duo_node true duo_view)).1).2 `prefix_of` (client (duo_engine (duo_node true duo_view')).1).2 \/
   (client (duo_engine (duo_node true duo_view')).1).2 `prefix_of` (client (duo_engine (duo_node true duo_view)).1).2).
Proof.
  split; [by vm_compute|].
  apply (honest_blocks_agree 0 0 duo_network duo_bullshark 50 default_consensus_header duo_view duo_view' (duo_node true duo_view) (duo_node true duo_view')
    (Engine.mk [] None None genesis_block demo_client_state [])).
  - apply duo_protocol_inv.
  - apply duo_honest.
  - apply duo_attested.
  - apply duo_attested'.
  - apply duo_quorum.
  - apply duo_quorum'.
  - apply duo_node_runs.
  - apply duo_node_runs'.
  - done.
  - apply duo_engine_runs; [by vm_compute|]. apply (duo_numbered _ _ (duo_output true duo_view)); vm_compute; reflexivity.
  - apply duo_engine_runs; [by vm_compute|]. apply (duo_numbered _ _ (duo_output true duo_view')); vm_compute; reflexivity.
Defined.

End witnesses.
