(* ===== verification/BatchBuilder.v ===== *)
(** Building batches from the transaction pool.
    Models crates/execution/batch-builder (batch.rs and lib.rs).  The pool belongs to the
    execution client: its transactions and their order are parameters of the model. *)

From S2P Require Import Prelude Storage Committee Certificate CertStore Demo Worker WorkerSafety.

(** * Building a batch *)

(** A transaction of the pool, with the size it has in memory and its encoding. *)
Record PoolTx := mk_pool_tx {
  pool_tx_hash : N;
  pool_tx_gas_limit : N;
  pool_tx_size : N;
  pool_tx_encoded : list N;
}.

(** What is left of the best transactions when one is marked invalid: its dependents are
    no longer considered. *)
Class TransactionPool := {
  mark_invalid : PoolTx -> list PoolTx -> list PoolTx;
  mark_invalid_sublist tx l : mark_invalid tx l `sublist_of` l;
}.

Module LastCanonicalUpdate.
Record t := mk {
  tip_hash : N;
  tip_timestamp : N;
  pending_block_base_fee : N;
}.
End LastCanonicalUpdate.

Inductive BatchBuilderError := AckChannelClosed | WorkerChannelClosed | BuilderFatalDBFailure.

Module BatchBuilder.

(** What the loop of [build_batch] collects. *)
Record progress := mk_progress {
  total_bytes_size : N;
  total_possible_gas : N;
  transactions : list (list N);
  mined_transactions : list N;
}.

Section builder.
Context `{TransactionPool} `{BatchHash}.

(** The loop over the best transactions; each turn takes one off. *)
Fixpoint build_loop (fuel : nat) (gas_limit max_size : N) (best_txs : list PoolTx) (p : progress) : progress :=
  match fuel, best_txs with
  | O, _ | _, [] => p
  | S fuel, pool_tx :: best_txs =>
      if gas_limit <? wrap64 (total_possible_gas p + pool_tx_gas_limit pool_tx)
      then build_loop fuel gas_limit max_size (mark_invalid pool_tx best_txs) p
      else if max_size <? wrap64 (total_bytes_size p + pool_tx_size pool_tx)
      then build_loop fuel gas_limit max_size (mark_invalid pool_tx best_txs) p
      else build_loop fuel gas_limit max_size best_txs
             (mk_progress (wrap64 (total_bytes_size p + pool_tx_size pool_tx)) (wrap64 (total_possible_gas p + pool_tx_gas_limit pool_tx))
                (transactions p ++ [pool_tx_encoded pool_tx]) (mined_transactions p ++ [pool_tx_hash pool_tx]))
  end.

(** The batch and the transactions it takes from the pool. *)
Definition build_batch (best_txs : list PoolTx) (beneficiary : N) (parent_info : LastCanonicalUpdate.t) (now : N) : Batch.t * list N :=
  let tip_timestamp := LastCanonicalUpdate.tip_timestamp parent_info in
  let gas_limit := max_batch_gas tip_timestamp in
  let max_size := max_batch_size tip_timestamp in
  let p := build_loop (length best_txs) gas_limit max_size best_txs (mk_progress 0 0 [] []) in
  let timestamp := if now =? tip_timestamp then tip_timestamp + 1 else now in
  (Batch.mk (transactions p) (LastCanonicalUpdate.tip_hash parent_info) beneficiary timestamp
     (Some (LastCanonicalUpdate.pending_block_base_fee parent_info)) None, mined_transactions p).

(** ** The task *)

(** An update of the pool: the tip and base fee, and the transactions that were mined. *)
Record pool_update := mk_update {
  new_tip : LastCanonicalUpdate.t;
  update_mined : list N;
}.

(** The task in flight is the list of the transactions of its batch.  [proposed] and
    [updates] record the batches sent to the worker and the updates of the pool. *)
Record t := mk {
  pending_task : option (list N);
  latest_canon_state : LastCanonicalUpdate.t;
  address : N;
  proposed : list (SealedBatch.t * list N);
  updates : list pool_update;
}.

(** How a task ends: the worker is gone, its answer is lost, or what sealing gave. *)
Inductive ack := WorkerGone | AckLost | Acked (r : outcome BlockSealError unit).

Definition task_result (a : ack) (mined : list N) : outcome BatchBuilderError (list N) :=
  match a with
  | WorkerGone => Err WorkerChannelClosed
  | AckLost => Err AckChannelClosed
  | Acked (Ok _) => Ok mined
  | Acked (Err SealFatalDBFailure) => Err BuilderFatalDBFailure
  | Acked _ => Ok []
  end.

Definition process_canon_state_update (b : t) (u : pool_update) : t :=
  mk (pending_task b) (new_tip u) (address b) (proposed b) (updates b ++ [u]).

Definition spawn_execution_task (b : t) (best_txs : list PoolTx) (now : N) : t :=
  let '(batch, mined) := build_batch best_txs (address b) (latest_canon_state b) now in
  mk (Some mined) (latest_canon_state b) (address b) (proposed b ++ [(BatchOps.seal_slow batch, mined)]) (updates b).

(** What a turn of the loop of [poll] sees: the canonical updates, the pending transactions
    of the pool, the time, and the end of the task. *)
Record event := mk_event {
  canon_updates : list pool_update;
  pending_transactions : list PoolTx;
  event_now : N;
  event_ack : option ack;
}.

(** The state, and whether the loop goes on, yields or ends with an error. *)
Definition poll_loop (b : t) (e : event) : t * outcome BatchBuilderError bool :=
  let b := foldl process_canon_state_update b (canon_updates e) in
  match pending_task b, pending_transactions e with
  | None, [] => (b, Ok false)
  | _, _ =>
      let b := match pending_task b with None => spawn_execution_task b (pending_transactions e) (event_now e) | Some _ => b end in
      match pending_task b, event_ack e with
      | Some mined, Some a =>
          let b := mk None (latest_canon_state b) (address b) (proposed b) (updates b) in
          match task_result a mined with
          | Ok [] => (b, Ok false)
          | Ok mined => (mk None (latest_canon_state b) (address b) (proposed b) (updates b ++ [mk_update (latest_canon_state b) mined]), Ok true)
          | Err err => (b, Err err)
          | Panic => (b, Panic)
          | OutOfFuel => (b, OutOfFuel)
          end
      | _, _ => (b, Ok false)
      end
  end.

End builder.
End BatchBuilder.

(** * Properties *)

Section properties.
Context `{TransactionPool} `{BatchHash} `{ExecutionLayer}.
Import BatchBuilder.

(** A transaction of the pool: its encoding is recovered with its gas limit, and its gas limit
    and its size in memory are far from the bounds of 64 bits. *)
Definition pool_tx_wf (tx : PoolTx) : Prop :=
  recover_raw_transaction (pool_tx_encoded tx) = Some (pool_tx_gas_limit tx) /\ pool_tx_gas_limit tx < 2 ^ 63 /\ pool_tx_size tx < 2 ^ 63.

(** The transactions taken so far, and their totals. *)
Record taken (gas_limit max_size : N) (best_txs : list PoolTx) (p : progress) (txs : list PoolTx) : Prop := {
  taken_from : txs `sublist_of` best_txs;
  taken_encoded : transactions p = pool_tx_encoded <$> txs;
  taken_mined : mined_transactions p = pool_tx_hash <$> txs;
  taken_gas : total_possible_gas p = sumN (pool_tx_gas_limit <$> txs) /\ total_possible_gas p <= gas_limit;
  taken_bytes : total_bytes_size p = sumN (pool_tx_size <$> txs) /\ total_bytes_size p <= max_size;
}.

Lemma build_loop_taken fuel gas_limit max_size all best_txs p txs :
  gas_limit < 2 ^ 63 -> max_size < 2 ^ 63 -> Forall pool_tx_wf best_txs -> txs ++ best_txs `sublist_of` all ->
  taken gas_limit max_size all p txs ->
  exists txs', taken gas_limit max_size all (build_loop fuel gas_limit max_size best_txs p) txs'.
Proof.
  intros Hgl Hms. assert (u64_modulus = 2 * 2 ^ 63) by done. revert best_txs p txs.
  induction fuel as [|fuel IH]; intros best_txs p txs Hwf Hsub Ht; cbn [build_loop]; [by exists txs|].
  destruct best_txs as [|tx best_txs]; [by exists txs|]. apply Forall_cons in Hwf as [(Hdec & Hg & Hs) Hwf].
  assert (forall rest, rest `sublist_of` best_txs -> txs ++ rest `sublist_of` all) as Hrest.
  { intros rest Hr. etransitivity; [|exact Hsub]. apply sublist_app; [done|by constructor]. }
  assert (forall rest, rest `sublist_of` best_txs -> Forall pool_tx_wf rest) as Hwfr.
  { intros rest Hr. rewrite Forall_forall in Hwf |- *. intros x Hx. apply Hwf. by eapply elem_of_sublist. }
  destruct Ht as [Hfrom Henc Hmined [Hgas Hgle] [Hbytes Hble]].
  assert (taken gas_limit max_size all p txs) as Ht by done. rewrite !wrap64_small by lia.
  destruct (N.ltb_spec gas_limit (total_possible_gas p + pool_tx_gas_limit tx)); [eapply IH; [apply Hwfr, mark_invalid_sublist|apply Hrest, mark_invalid_sublist|done]|].
  destruct (N.ltb_spec max_size (total_bytes_size p + pool_tx_size tx)); [eapply IH; [apply Hwfr, mark_invalid_sublist|apply Hrest, mark_invalid_sublist|done]|].
  apply (IH best_txs _ (txs ++ [tx])); [done|by rewrite <-app_assoc|]. split; cbn [transactions mined_transactions total_possible_gas total_bytes_size].
  - etransitivity; [|exact Hsub]. apply sublist_app; [done|]. constructor. apply sublist_nil_l.
  - by rewrite Henc, fmap_app.
  - by rewrite Hmined, fmap_app.
  - rewrite fmap_app, sumN_app. cbn. lia.
  - rewrite fmap_app, sumN_app. cbn. lia.
Qed.

(** The fuel of [build_batch] is enough: more does not change the result. *)
Lemma build_loop_fuel fuel extra gas_limit max_size best_txs p :
  (length best_txs <= fuel)%nat ->
  build_loop (fuel + extra) gas_limit max_size best_txs p = build_loop fuel gas_limit max_size best_txs p.
Proof.
  revert best_txs p. induction fuel as [|fuel IH]; intros best_txs p Hf.
  { destruct best_txs; [by destruct extra|simpl in Hf; lia]. }
  destruct best_txs as [|tx best_txs]; [done|]. simpl in Hf. cbn [build_loop Nat.add].
  pose proof (sublist_length _ _ (mark_invalid_sublist tx best_txs)). repeat case_match; apply IH; lia.
Qed.

Lemma sumN_sublist {A} (f : A -> N) l k : l `sublist_of` k -> sumN (f <$> l) <= sumN (f <$> k).
Proof. induction 1 as [|x l k _ IH|x l k _ IH]; rewrite ?fmap_cons; unfold sumN in *; cbn [foldr]; lia. Qed.

(** When everything fits, everything is taken. *)
Lemma build_loop_all fuel gas_limit max_size best_txs p :
  (length best_txs <= fuel)%nat -> gas_limit < u64_modulus -> max_size < u64_modulus ->
  total_possible_gas p + sumN (pool_tx_gas_limit <$> best_txs) <= gas_limit -> total_bytes_size p + sumN (pool_tx_size <$> best_txs) <= max_size ->
  transactions (build_loop fuel gas_limit max_size best_txs p) = transactions p ++ (pool_tx_encoded <$> best_txs).
Proof.
  intros Hf Hgl Hms. revert best_txs p Hf. induction fuel as [|fuel IH]; intros [|tx best_txs] p Hf; rewrite ?fmap_cons; cbn [build_loop length] in *;
    try lia; try by rewrite app_nil_r. unfold sumN in *. cbn [foldr]. intros Hg Hs. rewrite !wrap64_small by lia.
  destruct (N.ltb_spec gas_limit (total_possible_gas p + pool_tx_gas_limit tx)); [lia|].
  destruct (N.ltb_spec max_size (total_bytes_size p + pool_tx_size tx)); [lia|].
  rewrite IH; cbn [transactions total_possible_gas total_bytes_size]; [|lia..]. by rewrite <-app_assoc.
Qed.

(** What validation says of a batch whose digest is right, whose transactions decode and whose
    gas is within the limit. *)
Lemma validate_sealed b gas :
  decodes b gas -> sumN gas <= max_batch_gas (Batch.timestamp b) -> transaction_bytes b < u64_modulus ->
  BatchValidator.validate_batch (BatchOps.seal_slow b) =
    if Batch.timestamp b <=? BatchValidator.parent_timestamp b then Err (TimestampIsInPast (BatchValidator.parent_timestamp b) (Batch.timestamp b))
    else if decide (Batch.transactions b = []) then Err EmptyBatch
    else if max_batch_size (Batch.timestamp b) <? transaction_bytes b then Err (HeaderTransactionBytesExceedsMax (transaction_bytes b))
    else Ok ().
Proof.
  intros Hdec Hgas Hbytes. unfold BatchValidator.validate_batch. cbn [SealedBatch.split BatchOps.seal_slow BatchOps.seal SealedBatch.digest SealedBatch.batch].
  rewrite N.eqb_refl. cbn [negb]. unfold BatchValidator.validate_against_parent_timestamp. destruct (_ <=? _); [done|]. cbn [mbind outcome_bind].
  unfold BatchValidator.validate_batch_size_bytes. rewrite reduce_sum_spec by done. fold (transaction_bytes b). destruct (decide _) as [He|Hne]; [by rewrite He|].
  replace (match (_ <$> Batch.transactions b) with [] => None | _ => Some (transaction_bytes b) end) with (Some (transaction_bytes b)) by by destruct (Batch.transactions b).
  cbn [ok_or mbind outcome_bind]. destruct (_ <? _); [done|]. cbn [mbind outcome_bind].
  assert (BatchValidator.decode_transactions (Batch.transactions b) (BatchOps.digest b) = Ok gas) as -> by (apply decode_transactions_spec; by exists gas).
  cbn [mbind outcome_bind]. apply batch_gas_spec; [unfold max_batch_gas, u64_modulus in *; lia| |done]. intros ->. by apply Forall2_nil_inv_r in Hdec.
Qed.

(** C29: What the peers of a worker say of the batches it builds.  The transactions of a batch
    are transactions of the pool, in their order, those reported as mined are the same ones,
    they are within the limits that the builder counts, on gas and on the size in memory,
    and when all of the pool is within these limits all of it is taken.  A peer accepts the
    batch unless its clock or chain makes it too early, it is empty, or the encodings, which
    the peer counts instead of the sizes in memory, exceed the limit; and it is not too early
    when the peer has the tip that the batch is built on and the builder's clock is not behind
    this tip.  The transactions of the pool are taken to be recovered from their encodings
    with their gas limits, and their sizes to be far from the bounds of 64 bits. *)
Theorem built_batch_valid best_txs beneficiary parent_info now :
  Forall pool_tx_wf best_txs -> sumN (N.of_nat ∘ length ∘ pool_tx_encoded <$> best_txs) < u64_modulus ->
  let tip := LastCanonicalUpdate.tip_timestamp parent_info in
  let '(batch, mined) := build_batch best_txs beneficiary parent_info now in
  (exists txs, txs `sublist_of` best_txs /\ Batch.transactions batch = pool_tx_encoded <$> txs /\ mined = pool_tx_hash <$> txs /\
    sumN (pool_tx_gas_limit <$> txs) <= max_batch_gas tip /\ sumN (pool_tx_size <$> txs) <= max_batch_size tip) /\
  (sumN (pool_tx_gas_limit <$> best_txs) <= max_batch_gas tip -> sumN (pool_tx_size <$> best_txs) <= max_batch_size tip ->
    Batch.transactions batch = pool_tx_encoded <$> best_txs) /\
  BatchValidator.validate_batch (BatchOps.seal_slow batch) =
    (if Batch.timestamp batch <=? BatchValidator.parent_timestamp batch then Err (TimestampIsInPast (BatchValidator.parent_timestamp batch) (Batch.timestamp batch))
     else if decide (Batch.transactions batch = []) then Err EmptyBatch
     else if max_batch_size (Batch.timestamp batch) <? transaction_bytes batch then Err (HeaderTransactionBytesExceedsMax (transaction_bytes batch))
     else Ok ()) /\
  (chain_header (LastCanonicalUpdate.tip_hash parent_info) = Some tip -> tip <= now -> BatchValidator.parent_timestamp batch < Batch.timestamp batch).
Proof.
  intros Hwf Hlen tip. unfold build_batch. fold tip.
  destruct (build_loop_taken (length best_txs) (max_batch_gas tip) (max_batch_size tip) best_txs best_txs (mk_progress 0 0 [] []) [])
    as (txs & [Hfrom Henc Hmined [Hgas Hgle] [Hbytes Hble]]); [done|done|done|done|by split; try done; apply sublist_nil_l|].
  assert (Forall pool_tx_wf txs) as Hwft by (rewrite Forall_forall in Hwf |- *; intros x Hx; apply Hwf; by eapply elem_of_sublist).
  split_and!.
  - exists txs. cbn [Batch.transactions]. rewrite <-Hgas, <-Hbytes. done.
  - intros Hg Hs. cbn [Batch.transactions]. by rewrite build_loop_all.
  - apply (validate_sealed _ (pool_tx_gas_limit <$> txs)); cbn [Batch.timestamp]; [|rewrite <-Hgas; exact Hgle|].
    + unfold decodes. cbn [Batch.transactions]. rewrite Henc. clear -Hwft. induction Hwft as [|tx txs (Hdec & _) _ IH]; rewrite ?fmap_cons; constructor; done.
    + unfold transaction_bytes. cbn [Batch.transactions]. rewrite Henc, <-list_fmap_compose. eapply N.le_lt_trans; [|exact Hlen]. by apply sumN_sublist.
  - intros Hparent Hnow. unfold BatchValidator.parent_timestamp. cbn [Batch.parent_hash Batch.timestamp]. rewrite Hparent. destruct (N.eqb_spec now tip); lia.
Qed.

(** The transactions the task takes off the pool were in a batch that reached a quorum: an
    update of its own follows an acknowledgement, for the task in flight. *)
Lemma mined_after_quorum b e b' go :
  poll_loop b e = (b', Ok go) ->
  let canon := foldl process_canon_state_update b (canon_updates e) in
  updates b' = updates canon \/
  exists mined, updates b' = updates canon ++ [mk_update (latest_canon_state canon) mined] /\ event_ack e = Some (Acked (Ok ())) /\
    (pending_task canon = Some mined \/ exists s, last (proposed b') = Some (s, mined)).
Proof.
  unfold poll_loop. set (canon := foldl _ _ _). intros Hp. cbv zeta.
  destruct (pending_task canon) as [mined|] eqn:Hpt.
  - rewrite Hpt in Hp. destruct (event_ack e) as [a|] eqn:Ha; [|injection Hp as <- <-; by left].
    destruct a as [| |[[]|[]| |]]; cbn [task_result] in Hp; try (injection Hp as <- <-; by left); try done.
    destruct mined as [|x mined]; injection Hp as <- <-; [by left|]. right. eexists. split_and!; [done|done|by left].
  - destruct (pending_transactions e) as [|tx txs]; [injection Hp as <- <-; by left|].
    unfold spawn_execution_task in Hp. destruct (build_batch _ _ _ _) as [batch mined]. cbn [pending_task] in Hp.
    destruct (event_ack e) as [a|] eqn:Ha; [|injection Hp as <- <-; by left].
    destruct a as [| |[[]|[]| |]]; cbn [task_result latest_canon_state proposed updates address] in Hp; try (injection Hp as <- <-; by left); try done.
    destruct mined as [|x mined]; injection Hp as <- <-; [by left|]. right. eexists. split_and!; [done|done|]. right. eexists. cbn [proposed]. apply last_snoc.
Qed.

End properties.

(** * The properties at concrete transactions *)

Section witnesses.
#[local] Existing Instances demo_batch_hash demo_execution.

Definition demo_pool : TransactionPool.
Proof. refine {| mark_invalid tx l := filter (fun x => pool_tx_hash x <> pool_tx_hash tx) l |}. intros tx l. apply sublist_filter. Defined.
#[local] Existing Instance demo_pool.

Definition demo_best : list PoolTx := [mk_pool_tx 1 21000 500 [21000; 1]; mk_pool_tx 2 40000000 500 [40000000]; mk_pool_tx 3 50000 500 [50000; 2; 3]].
Definition demo_tip : LastCanonicalUpdate.t := LastCanonicalUpdate.mk 7 100 7.

Lemma built_batch_valid_witness :
  let '(batch, mined) := BatchBuilder.build_batch demo_best 1 demo_tip 100 in
  mined = [1; 3] /\ BatchValidator.validate_batch (BatchOps.seal_slow batch) = Ok ().
Proof.
  pose proof (built_batch_valid demo_best 1 demo_tip 100) as Hb.
  assert ((BatchBuilder.build_batch demo_best 1 demo_tip 100).2 = [1; 3] /\ Batch.transactions (BatchBuilder.build_batch demo_best 1 demo_tip 100).1 <> [] /\
    transaction_bytes (BatchBuilder.build_batch demo_best 1 demo_tip 100).1 = 5) as (Hm & Hne & Hbytes) by by vm_compute.
  destruct (BatchBuilder.build_batch demo_best 1 demo_tip 100) as [batch mined]. split; [exact Hm|]. destruct Hb as (_ & _ & Hv & Hts).
  - repeat constructor; by vm_compute.
  - by vm_compute.
  - specialize (Hts eq_refl ltac:(done)). rewrite Hv. cbn [fst] in *. destruct (N.leb_spec (Batch.timestamp batch) (BatchValidator.parent_timestamp batch)); [lia|].
    rewrite decide_False by done. by rewrite Hbytes.
Defined.

(** A transaction whose encoding is longer than its size in memory fits the limit of the
    builder and not that of the validator. *)
Lemma long_encoding_rejected :
  let '(batch, mined) := BatchBuilder.build_batch [mk_pool_tx 1 21000 500 (21000 :: repeat 0 1000000)] 1 demo_tip 100 in
  mined = [1] /\ BatchValidator.validate_batch (BatchOps.seal_slow batch) = Err (HeaderTransactionBytesExceedsMax 1000001).
Proof. by vm_compute. Qed.

(** When no transaction fits, an empty batch is built and sent, which no peer accepts. *)
Lemma empty_batch_proposed :
  let '(batch, mined) := BatchBuilder.build_batch [mk_pool_tx 2 40000000 500 [40000000]] 1 demo_tip 101 in
  mined = [] /\ BatchValidator.validate_batch (BatchOps.seal_slow batch) = Err EmptyBatch.
Proof. by vm_compute. Qed.

(** With a clock behind the tip, the batch is earlier than its parent, which no peer accepts. *)
Lemma slow_clock_rejected :
  let '(batch, mined) := BatchBuilder.build_batch demo_best 1 demo_tip 99 in
  BatchValidator.validate_batch (BatchOps.seal_slow batch) = Err (TimestampIsInPast 100 99).
Proof. by vm_compute. Qed.

End witnesses.
