(* ===== verification/Network.v ===== *)
(** The peer-to-peer network of the primary and of the workers.
    Models crates/network-libp2p: the codec of requests and responses (codec.rs), and the
    state that consensus.rs keeps of publishers, dials, requests and peers.  libp2p itself,
    the compression and the serialization are parameters. *)

From S2P Require Import Prelude.

(** * The codec *)

(** Serialization and the snappy frame format.  [decompress] reads a number of bytes of a
    frame.  A frame adds a stream identifier of 10 bytes, and 8 bytes for each chunk of
    65536; [max_compress_len] is the bound of the crate for the compressed size. *)
Class MessageFormat (M : Type) := {
  encode_into_buffer : M -> option (list N);
  from_bytes : list N -> option M;
  compress : list N -> list N;
  decompress : list N -> nat -> option (list N);
  max_compress_len : N -> N;
  from_bytes_encode m bytes : encode_into_buffer m = Some bytes -> from_bytes bytes = Some m;
  decompress_compress bytes : decompress (compress bytes) (length bytes) = Some bytes;
  compress_length bytes : N.of_nat (length (compress bytes)) <= 10 + N.of_nat (length bytes) + 8 * (N.of_nat (length bytes) / 65536 + 1);
  max_compress_len_spec n : n <= 2 ^ 31 -> max_compress_len n = 32 + n + n / 6;
}.

Inductive CodecError := UnexpectedEof | PrefixTooLarge | EncodeTooLarge | EncodeFailed | DecompressFailed | DecodeFailed.

Module TNCodec.

(** [u32::to_le_bytes] and [u32::from_le_bytes] *)
Definition to_le_bytes (n : N) : list N := [n mod 256; n / 256 mod 256; n / 65536 mod 256; n / 16777216 mod 256].

Definition from_le_bytes (bytes : list N) : N :=
  match bytes with
  | [a; b; c; d] => a + 256 * b + 65536 * c + 16777216 * d
  | _ => 0
  end.

Section codec.
Context {M : Type} `{MessageFormat M} (max_chunk_size : N).

(** What is written for a message. *)
Definition encode_message (msg : M) : outcome CodecError (list N) :=
  bytes ← ok_or (encode_into_buffer msg) EncodeFailed;
  let len := N.of_nat (length bytes) in
  if max_chunk_size <? len then Err EncodeTooLarge else
  Ok (to_le_bytes (len mod u32_modulus) ++ compress bytes).

(** The message read from a stream of bytes, and the number of bytes that were read. *)
Definition decode_message (io : list N) : nat * outcome CodecError M :=
  if (length io <? 4)%nat then (length io, Err UnexpectedEof) else
  let prefix := take 4 io in
  let length := from_le_bytes prefix in
  if max_chunk_size <? length then (4%nat, Err PrefixTooLarge) else
  let compressed_buffer := take (N.to_nat (max_compress_len length)) (drop 4 io) in
  ((4 + List.length compressed_buffer)%nat,
   match decompress compressed_buffer (N.to_nat length) with
   | None => Err DecompressFailed
   | Some decode_buffer => ok_or (from_bytes decode_buffer) DecodeFailed
   end).

Lemma le_bytes_roundtrip n : n < u32_modulus -> from_le_bytes (to_le_bytes n) = n.
Proof.
  intros Hn. unfold from_le_bytes, to_le_bytes, u32_modulus in *. pose proof (N.div_mod n 256 ltac:(done)) as H0'. pose proof (N.div_mod (n / 256) 256 ltac:(done)) as H1'.
  pose proof (N.div_mod (n / 65536) 256 ltac:(done)) as H2'.
  rewrite N.Div0.div_div in H1', H2'. change (256 * 256) with 65536 in H1'. change (65536 * 256) with 16777216 in H2'.
  assert (n / 16777216 < 256) by (apply N.Div0.div_lt_upper_bound; lia). rewrite (N.mod_small (n / 16777216) 256) by done.
  lia.
Qed.

(** What the codec writes it reads back: a message that is encoded is decoded to itself
    by a peer with the same limit, whatever its size up to that limit; and decoding never
    reads more of a peer's bytes than the prefix and what a message of the limit can take. *)
Theorem codec_roundtrip :
  max_chunk_size <= 2 ^ 31 ->
  (forall msg wire, encode_message msg = Ok wire -> decode_message wire = (length wire, Ok msg)) /\
  (forall io, N.of_nat (decode_message io).1 <= 4 + max_compress_len max_chunk_size).
Proof.
  intros Hmax. pose proof max_compress_len_spec as Hlen.
  split.
  - intros msg wire (bytes & Hb & Hw)%bind_Ok. destruct (encode_into_buffer msg) as [bytes'|] eqn:Henc; [|done]. injection Hb as ->. cbv zeta in Hw.
    destruct (N.ltb_spec max_chunk_size (N.of_nat (length bytes))); [done|].
    assert (wire = to_le_bytes (N.of_nat (length bytes) mod u32_modulus) ++ compress bytes) as -> by congruence. clear Hw.
    assert (N.of_nat (length bytes) < u32_modulus) by (unfold u32_modulus; lia). rewrite (N.mod_small (N.of_nat (length bytes)) u32_modulus) by lia.
    unfold decode_message. cbv zeta. assert (length (to_le_bytes (N.of_nat (length bytes))) = 4%nat) as H4 by done.
    rewrite length_app, H4. destruct (Nat.ltb_spec (4 + length (compress bytes)) 4); [lia|].
    rewrite (take_app_length' _ _ 4), (drop_app_length' _ _ 4) by done. rewrite le_bytes_roundtrip by done.
    destruct (N.ltb_spec max_chunk_size (N.of_nat (length bytes))); [lia|].
    pose proof (compress_length bytes) as Hc. rewrite Hlen by lia.
    assert (length (compress bytes) <= N.to_nat (32 + N.of_nat (length bytes) + N.of_nat (length bytes) / 6))%nat.
    { assert (8 * (N.of_nat (length bytes) / 65536) <= N.of_nat (length bytes) / 6); [|lia].
      apply N.div_le_lower_bound; [done|]. pose proof (N.Div0.mul_div_le (N.of_nat (length bytes)) 65536). lia. }
    rewrite take_ge by done. rewrite Nat2N.id, decompress_compress. by rewrite (from_bytes_encode _ _ Henc).
  - intros io. unfold decode_message. cbv zeta. destruct (Nat.ltb_spec (length io) 4); [cbn [fst]; lia|].
    destruct (N.ltb_spec max_chunk_size (from_le_bytes (take 4 io))); [cbn [fst]; lia|]. cbn [fst].
    rewrite length_take, !Hlen by lia. pose proof (N.Div0.div_le_mono (from_le_bytes (take 4 io)) max_chunk_size 6). lia.
Qed.

End codec.
End TNCodec.

(** * The state of the network *)

Module ConsensusNetwork.

(** Errors that end the network, and those given to callers. *)
Inductive NetworkError := PendingRequestChannelLost | EventStreamClosed | RedialAttempt | NoPeers | DialError | OutboundError.

Inductive GossipAcceptance := Accept | Reject.

Record GossipMessage := mk_gossip {
  source : option N;
  data_length : N;
  gossip_data : N;
}.

Section network.
Context {Req Res : Type}.

(** What is forwarded to the application. *)
Inductive NetworkEvent :=
  | Gossip (m : GossipMessage)
  | InboundRequest (peer : N) (request : Req) (request_id : N).

(** What is sent on the channel of a caller. *)
Inductive reply :=
  | Done
  | Response (r : Res)
  | Failed (e : NetworkError).

(** Channels are numbers.  [next_request] is the id libp2p gives to the next request; [sent]
    are the requests with their id, peer and channel, and [replies] what callers were sent. *)
Record t := mk {
  authorized_publishers : gset N;
  pending_dials : gmap N N;
  outbound_requests : gmap N N;
  inbound_requests : gmap N N;
  connected_peers : list N;
  max_gossip_message_size : N;
  next_request : N;
  sent : list (N * N * Req * N);
  replies : list (N * reply);
  forwarded : list NetworkEvent;
}.

Definition set_publishers (s : t) (p : gset N) : t :=
  mk p (pending_dials s) (outbound_requests s) (inbound_requests s) (connected_peers s) (max_gossip_message_size s) (next_request s) (sent s) (replies s) (forwarded s).
Definition set_dials (s : t) (d : gmap N N) : t :=
  mk (authorized_publishers s) d (outbound_requests s) (inbound_requests s) (connected_peers s) (max_gossip_message_size s) (next_request s) (sent s) (replies s) (forwarded s).
Definition set_outbound (s : t) (o : gmap N N) : t :=
  mk (authorized_publishers s) (pending_dials s) o (inbound_requests s) (connected_peers s) (max_gossip_message_size s) (next_request s) (sent s) (replies s) (forwarded s).
Definition set_inbound (s : t) (i : gmap N N) : t :=
  mk (authorized_publishers s) (pending_dials s) (outbound_requests s) i (connected_peers s) (max_gossip_message_size s) (next_request s) (sent s) (replies s) (forwarded s).
Definition set_peers (s : t) (l : list N) : t :=
  mk (authorized_publishers s) (pending_dials s) (outbound_requests s) (inbound_requests s) l (max_gossip_message_size s) (next_request s) (sent s) (replies s) (forwarded s).
Definition send_reply (s : t) (channel : N) (r : reply) : t :=
  mk (authorized_publishers s) (pending_dials s) (outbound_requests s) (inbound_requests s) (connected_peers s) (max_gossip_message_size s) (next_request s) (sent s) (replies s ++ [(channel, r)]) (forwarded s).
Definition forward (s : t) (e : NetworkEvent) : t :=
  mk (authorized_publishers s) (pending_dials s) (outbound_requests s) (inbound_requests s) (connected_peers s) (max_gossip_message_size s) (next_request s) (sent s) (replies s) (forwarded s ++ [e]).

(** [req_res.send_request] and the registration of its channel. *)
Definition send_request (s : t) (peer : N) (request : Req) (channel : N) : t :=
  mk (authorized_publishers s) (pending_dials s) (<[next_request s := channel]> (outbound_requests s)) (inbound_requests s) (connected_peers s)
    (max_gossip_message_size s) (next_request s + 1) (sent s ++ [(next_request s, peer, request, channel)]) (replies s) (forwarded s).

(** ** Commands *)

(** The commands that change the state; the others only ask libp2p. *)
Inductive NetworkCommand :=
  | UpdateAuthorizedPublishers (authorities : gset N) (channel : N)
  | Dial (peer_id : N) (dialed : bool) (channel : N)
  | SendRequest (peer : N) (request : Req) (channel : N)
  | SendRequestAny (request : Req) (channel : N).

(** [VecDeque::rotate_left], which asserts that there are that many elements. *)
Definition rotate_left {A} (n : nat) (l : list A) : outcome NetworkError (list A) :=
  _ ← assert (n <=? length l)%nat; Ok (drop n l ++ take n l).

Definition process_command (s : t) (c : NetworkCommand) : t * outcome NetworkError unit :=
  match c with
  | UpdateAuthorizedPublishers authorities channel => (send_reply (set_publishers s authorities) channel Done, Ok ())
  | Dial peer_id dialed channel =>
      match pending_dials s !! peer_id with
      | None =>
          if dialed then (set_dials s (<[peer_id := channel]> (pending_dials s)), Ok ())
          else (send_reply s channel (Failed DialError), Ok ())
      | Some _ => (send_reply s channel (Failed RedialAttempt), Ok ())
      end
  | SendRequest peer request channel => (send_request s peer request channel, Ok ())
  | SendRequestAny request channel =>
      match rotate_left 1 (connected_peers s) with
      | Ok peers =>
          let s := set_peers s peers in
          match connected_peers s with
          | peer :: _ => (send_request s peer request channel, Ok ())
          | [] => (send_reply s channel (Failed NoPeers), Ok ())
          end
      | Err e => (s, Err e)
      | Panic => (s, Panic)
      | OutOfFuel => (s, OutOfFuel)
      end
  end.

(** ** Events *)

Definition verify_gossip (s : t) (gossip : GossipMessage) : GossipAcceptance :=
  if max_gossip_message_size s <? data_length gossip then Reject else
  match source gossip with
  | Some id => if bool_decide (id ∈ authorized_publishers s) then Accept else Reject
  | None => Reject
  end.

(** [open] tells whether the application still takes events; [closed] are the channels whose
    callers are gone. *)
Inductive event :=
  | GossipReceived (m : GossipMessage) (open : bool)
  | RequestReceived (peer request_id : N) (request : Req) (notify : N) (open : bool)
  | ResponseReceived (request_id : N) (response : Res)
  | OutboundFailure (request_id : N)
  | InboundFailure (request_id : N)
  | ConnectionEstablished (peer_id : N) (dialer : bool)
  | ConnectionClosed (peer_id num_established : N) (closed : gset N)
  | OutgoingConnectionError (peer_id : N).

(** Answers the caller of a request, whose channel must be known. *)
Definition answer (s : t) (request_id : N) (r : reply) : t * outcome NetworkError unit :=
  match outbound_requests s !! request_id with
  | None => (s, Err PendingRequestChannelLost)
  | Some channel => (send_reply (set_outbound s (delete request_id (outbound_requests s))) channel r, Ok ())
  end.

Definition process_gossip_event (s : t) (m : GossipMessage) (open : bool) : t * outcome NetworkError unit :=
  match verify_gossip s m with
  | Accept => if open then (forward s (Gossip m), Ok ()) else (s, Err EventStreamClosed)
  | Reject => (s, Ok ())
  end.

Definition process_request (s : t) (peer request_id : N) (request : Req) (notify : N) (open : bool) : t * outcome NetworkError unit :=
  if open then
    let s := forward s (InboundRequest peer request request_id) in
    (set_inbound s (<[request_id := notify]> (inbound_requests s)), Ok ())
  else (s, Err EventStreamClosed).

Definition process_inbound_failure (s : t) (request_id : N) : t * outcome NetworkError unit :=
  match inbound_requests s !! request_id with
  | None => (s, Err PendingRequestChannelLost)
  | Some notify => (set_inbound s (delete request_id (inbound_requests s)), Ok ())
  end.

Definition process_event (s : t) (e : event) : t * outcome NetworkError unit :=
  match e with
  | GossipReceived m open => process_gossip_event s m open
  | RequestReceived peer request_id request notify open => process_request s peer request_id request notify open
  | ResponseReceived request_id response => answer s request_id (Response response)
  | OutboundFailure request_id => answer s request_id (Failed OutboundError)
  | InboundFailure request_id => process_inbound_failure s request_id
  | ConnectionEstablished peer_id dialer =>
      let s := match pending_dials s !! peer_id with
               | Some channel => if dialer then send_reply (set_dials s (delete peer_id (pending_dials s))) channel Done else s
               | None => s
               end in
      (if bool_decide (peer_id ∈ connected_peers s) then s else set_peers s (connected_peers s ++ [peer_id]), Ok ())
  | ConnectionClosed peer_id num_established closed =>
      let s := set_peers s (filter (fun p => p <> peer_id) (connected_peers s)) in
      (if num_established =? 0 then set_outbound s (filter (fun x => x.2 ∉ closed) (outbound_requests s)) else s, Ok ())
  | OutgoingConnectionError peer_id =>
      match pending_dials s !! peer_id with
      | Some channel => (send_reply (set_dials s (delete peer_id (pending_dials s))) channel (Failed DialError), Ok ())
      | None => (s, Ok ())
      end
  end.

(** [run]: an event that fails or a command that panics ends the loop. *)
Inductive step := Command (c : NetworkCommand) | Event (e : event).

Fixpoint run (s : t) (steps : list step) : t * outcome NetworkError unit :=
  match steps with
  | [] => (s, Ok ())
  | Command c :: steps => match process_command s c with (s, Ok _) => run s steps | (s, r) => (s, r) end
  | Event e :: steps => match process_event s e with (s, Ok _) => run s steps | (s, r) => (s, r) end
  end.

Definition new (authorized_publishers : gset N) (max_gossip_message_size : N) : t :=
  mk authorized_publishers ∅ ∅ ∅ [] max_gossip_message_size 0 [] [] [].

End network.
End ConsensusNetwork.

(** * Properties of the network *)

Section channels.
Context {V : Type}.
Implicit Types (m : gmap N V).

Lemma fmap_sub {A B} (f : A -> B) (l k : list A) : l ⊆+ k -> f <$> l ⊆+ f <$> k.
Proof. intros [k' ->]%submseteq_Permutation. rewrite fmap_app. by apply submseteq_inserts_r. Qed.

Lemma NoDup_sub {A} (l k : list A) : l ⊆+ k -> NoDup k -> NoDup l.
Proof. intros [k' ->]%submseteq_Permutation. by intros [? _]%NoDup_app. Qed.

Lemma map_to_list_insert_sub m k v : map_to_list (<[k := v]> m) ⊆+ (k, v) :: map_to_list m.
Proof.
  rewrite <-insert_delete_eq, map_to_list_insert by apply lookup_delete_eq. apply submseteq_skip, map_to_list_submseteq, delete_subseteq.
Qed.

Lemma map_to_list_delete_perm m k v : m !! k = Some v -> (map_to_list m).*2 ≡ₚ v :: (map_to_list (delete k m)).*2.
Proof. intros Hk. by rewrite <-(insert_delete_id m k v Hk) at 1; rewrite map_to_list_insert by apply lookup_delete_eq. Qed.

End channels.

Section network.
Context {Req Res : Type}.
Import ConsensusNetwork.
Notation net := (@t Req Res).
Implicit Types (s : net).

(** The channels that were answered or wait for an answer. *)
Definition channels s : list N := (replies s).*1 ++ (map_to_list (pending_dials s)).*2 ++ (map_to_list (outbound_requests s)).*2.

Definition command_channel (c : @NetworkCommand Req) : N :=
  match c with UpdateAuthorizedPublishers _ ch | Dial _ _ ch | SendRequest _ _ ch | SendRequestAny _ ch => ch end.

Lemma channels_reply s ch r : channels (send_reply s ch r) ≡ₚ ch :: channels s.
Proof. unfold channels. cbn [replies pending_dials outbound_requests send_reply]. rewrite fmap_app, <-app_assoc. symmetry. apply Permutation_middle. Qed.

Lemma channels_outbound s m ch :
  (map_to_list m).*2 ⊆+ ch :: (map_to_list (outbound_requests s)).*2 -> channels (set_outbound s m) ⊆+ ch :: channels s.
Proof.
  intros Hm. unfold channels. cbn [replies pending_dials outbound_requests set_outbound].
  rewrite !app_assoc, Permutation_middle. by apply submseteq_app.
Qed.

Lemma channels_dials s m ch :
  (map_to_list m).*2 ⊆+ ch :: (map_to_list (pending_dials s)).*2 -> channels (set_dials s m) ⊆+ ch :: channels s.
Proof.
  intros Hm. unfold channels. cbn [replies pending_dials outbound_requests set_dials]. rewrite Permutation_middle. apply submseteq_app; [done|].
  change (ch :: (map_to_list (pending_dials s)).*2 ++ (map_to_list (outbound_requests s)).*2)
    with ((ch :: (map_to_list (pending_dials s)).*2) ++ (map_to_list (outbound_requests s)).*2). by apply submseteq_app.
Qed.

Lemma channels_resolve_outbound s id ch r :
  outbound_requests s !! id = Some ch -> channels (send_reply (set_outbound s (delete id (outbound_requests s))) ch r) ≡ₚ channels s.
Proof.
  intros Hid. rewrite channels_reply. unfold channels. cbn [replies pending_dials outbound_requests set_outbound].
  rewrite (map_to_list_delete_perm _ _ _ Hid). by rewrite !app_assoc, Permutation_middle.
Qed.

Lemma channels_resolve_dial s peer ch r :
  pending_dials s !! peer = Some ch -> channels (send_reply (set_dials s (delete peer (pending_dials s))) ch r) ≡ₚ channels s.
Proof.
  intros Hid. rewrite channels_reply. unfold channels. cbn [replies pending_dials outbound_requests set_dials].
  rewrite (map_to_list_delete_perm _ _ _ Hid). by rewrite Permutation_middle.
Qed.

Lemma channels_send_request s peer req ch : channels (send_request s peer req ch) ⊆+ ch :: channels s.
Proof.
  apply (channels_outbound s (<[next_request s := ch]> (outbound_requests s)) ch).
  pose proof (map_to_list_insert_sub (outbound_requests s) (next_request s) ch) as Hs. by apply (fmap_sub snd) in Hs.
Qed.

Lemma channels_command s c : channels (process_command s c).1 ⊆+ command_channel c :: channels s.
Proof.
  destruct c as [auth ch|peer dialed ch|peer req ch|req ch]; cbn [process_command command_channel fst].
  - by rewrite channels_reply.
  - destruct (pending_dials s !! peer) as [x|] eqn:Hp; [cbn [fst]; by rewrite channels_reply|]. destruct dialed; [|cbn [fst]; by rewrite channels_reply].
    cbn [fst]. apply channels_dials. pose proof (map_to_list_insert_sub (pending_dials s) peer ch) as Hs. by apply (fmap_sub snd) in Hs.
  - apply channels_send_request.
  - destruct (rotate_left 1 (connected_peers s)) as [peers| | |]; cbn [fst]; [|by apply submseteq_cons..]. cbv zeta.
    destruct (connected_peers (set_peers s peers)) as [|peer l]; cbn [fst]; [by rewrite channels_reply|]. apply (channels_send_request (set_peers s _)).
Qed.

Lemma channels_event s e : channels (process_event s e).1 ⊆+ channels s.
Proof.
  destruct e as [m open|peer id req notify open|id resp|id|id|peer dialer|peer num closed|peer];
    cbn [process_event]; unfold process_gossip_event, process_request, process_inbound_failure.
  - by destruct (verify_gossip s m), open.
  - by destruct open.
  - unfold answer. destruct (outbound_requests s !! id) as [ch|] eqn:Hid; [|done]. cbn [fst]. by rewrite channels_resolve_outbound.
  - unfold answer. destruct (outbound_requests s !! id) as [ch|] eqn:Hid; [|done]. cbn [fst]. by rewrite channels_resolve_outbound.
  - by destruct (inbound_requests s !! id).
  - set (s1 := match pending_dials s !! peer with Some _ => _ | None => _ end).
    assert (channels s1 ⊆+ channels s) as Hs1.
    { unfold s1. destruct (pending_dials s !! peer) as [ch|] eqn:Hp; [|done]. destruct dialer; [|done]. by rewrite channels_resolve_dial. }
    cbn [fst]. case_bool_decide; [done|]. exact Hs1.
  - cbn [fst]. destruct (num =? 0); [|done]. unfold channels. cbn [replies pending_dials outbound_requests set_outbound set_peers].
    do 2 (apply submseteq_app; [done|]). apply fmap_sub, map_to_list_submseteq, map_filter_subseteq.
  - destruct (pending_dials s !! peer) as [ch|] eqn:Hp; [|done]. cbn [fst]. by rewrite channels_resolve_dial.
Qed.

(** ** What a run guarantees *)

Definition step_channels (st : @step Req Res) : list N := match st with Command c => [command_channel c] | Event _ => [] end.

(** The publishers that were authorized at some point, and the callers that went away. *)
Definition authorized (initial : gset N) (hist : list (@step Req Res)) (p : N) : Prop :=
  p ∈ initial \/ exists auths ch, Command (UpdateAuthorizedPublishers auths ch) ∈ hist /\ p ∈ auths.
Definition gone (hist : list (@step Req Res)) (ch : N) : Prop :=
  exists p n closed, Event (ConnectionClosed p n closed) ∈ hist /\ ch ∈ closed.

(** The command that asked for a request. *)
Definition asks (st : @step Req Res) (peer : N) (req : Req) (ch : N) : Prop := st = Command (SendRequest peer req ch) \/ st = Command (SendRequestAny req ch).

Record net_inv (initial : gset N) (max_size : N) (hist : list (@step Req Res)) s : Prop := {
  ni_channels : channels s ⊆+ concat (step_channels <$> hist);
  ni_sent id peer req ch : (id, peer, req, ch) ∈ sent s ->
    id < next_request s /\ (outbound_requests s !! id = Some ch \/ ch ∈ (replies s).*1 \/ gone hist ch);
  ni_asked id peer req ch : (id, peer, req, ch) ∈ sent s -> exists st, st ∈ hist /\ asks st peer req ch;
  ni_outbound id ch : outbound_requests s !! id = Some ch -> exists peer req, (id, peer, req, ch) ∈ sent s;
  ni_responses ch r : (ch, Response r) ∈ replies s ->
    exists id peer req, (id, peer, req, ch) ∈ sent s /\ Event (ResponseReceived id r) ∈ hist;
  ni_peers : NoDup (connected_peers s);
  ni_gossip m : Gossip m ∈ forwarded s -> data_length m <= max_size /\ exists p, source m = Some p /\ authorized initial hist p;
  ni_publishers p : p ∈ authorized_publishers s -> authorized initial hist p;
  ni_size : max_gossip_message_size s = max_size;
}.

Lemma authorized_mono initial hist st p : authorized initial hist p -> authorized initial (hist ++ [st]) p.
Proof. intros [?|(a & ch & ? & ?)]; [by left|right]. exists a, ch. set_solver. Qed.

Lemma gone_mono hist st ch : gone hist ch -> gone (hist ++ [st]) ch.
Proof. intros (p & n & c & ? & ?). exists p, n, c. set_solver. Qed.

(** A step that changes neither requests nor what was forwarded, except for replies that
    are no responses. *)
Lemma net_inv_same initial max_size hist st s s' :
  net_inv initial max_size hist s -> channels s' ⊆+ step_channels st ++ channels s ->
  sent s' = sent s -> next_request s' = next_request s -> outbound_requests s' = outbound_requests s ->
  (exists extra, replies s' = replies s ++ extra /\ forall ch r, (ch, Response r) ∉ extra) ->
  NoDup (connected_peers s') -> (forall m, Gossip m ∈ forwarded s' -> Gossip m ∈ forwarded s) ->
  (forall p, p ∈ authorized_publishers s' -> authorized initial (hist ++ [st]) p) -> max_gossip_message_size s' = max_gossip_message_size s ->
  net_inv initial max_size (hist ++ [st]) s'.
Proof.
  intros [Hc Hs Hq Ho Hr Hp Hg Hpub Hsz] Hch Hsent Hnext Hout (extra & Hrep & Hextra) Hnd Hfw Hauth Hmax. split.
  - rewrite fmap_app, concat_app. cbn. rewrite app_nil_r. rewrite Hch, (Permutation_app_comm (step_channels st)). by apply submseteq_app.
  - intros id peer req ch Hin. rewrite Hsent in Hin. destruct (Hs _ _ _ _ Hin) as [? Hst]. rewrite Hnext, Hout, Hrep, fmap_app. split; [done|].
    destruct Hst as [?|[?|?%(gone_mono _ st)]]; [by left|right; left; set_solver|by right; right].
  - intros id peer req ch. rewrite Hsent. intros (st' & ? & ?)%Hq. exists st'. set_solver.
  - intros id ch. rewrite Hout, Hsent. apply Ho.
  - intros ch r. rewrite Hrep, Hsent. intros [Hin|Hin]%elem_of_app; [|by apply Hextra in Hin]. destruct (Hr _ _ Hin) as (id & peer & req & ? & ?).
    exists id, peer, req. set_solver.
  - done.
  - intros m Hm%Hfw. destruct (Hg m Hm) as (? & p & ? & ?). split; [done|]. exists p. split; [done|]. by apply authorized_mono.
  - done.
  - congruence.
Qed.

Lemma net_inv_send initial max_size hist st s peer req ch :
  net_inv initial max_size hist s -> asks st peer req ch -> net_inv initial max_size (hist ++ [st]) (send_request s peer req ch).
Proof.
  intros [Hc Hs Hq Ho Hr Hp Hg Hpub Hsz] Hask. assert (step_channels st = [ch]) as Hst by by destruct Hask as [-> | ->]. split; cbn [send_request sent next_request outbound_requests replies connected_peers forwarded authorized_publishers max_gossip_message_size].
  - rewrite channels_send_request, fmap_app, concat_app. cbn. rewrite Hst, app_nil_r, <-Permutation_cons_append. by apply submseteq_skip.
  - intros id peer' req' ch' [Hin|[= -> -> -> ->]%list_elem_of_singleton]%elem_of_app; [|split; [lia|left; apply lookup_insert_eq]].
    destruct (Hs _ _ _ _ Hin) as [? Hx]. split; [lia|]. rewrite lookup_insert_ne by lia. destruct Hx as [?|[?|?%(gone_mono _ st)]]; tauto.
  - intros id peer' req' ch' [(st' & ? & ?)%Hq|[= -> -> -> ->]%list_elem_of_singleton]%elem_of_app; [exists st'; set_solver|]. exists st. set_solver.
  - intros id ch'. rewrite lookup_insert_Some. intros [[<- <-]|[_ (peer' & req' & ?)%Ho]]; [exists peer, req; set_solver|]. exists peer', req'. set_solver.
  - intros ch' r Hin. destruct (Hr _ _ Hin) as (id & peer' & req' & ? & ?). exists id, peer', req'. set_solver.
  - done.
  - intros m Hm. destruct (Hg m Hm) as (? & p & ? & ?). split; [done|]. exists p. split; [done|]. by apply authorized_mono.
  - intros p Hpin%Hpub. by apply authorized_mono.
  - done.
Qed.

Lemma rotate_left_perm {A} n (l l' : list A) : rotate_left n l = Ok l' -> l' ≡ₚ l.
Proof. intros (? & _ & [= <-])%bind_Ok. by rewrite Permutation_app_comm, take_drop. Qed.

Lemma net_inv_command initial max_size hist s c :
  net_inv initial max_size hist s -> net_inv initial max_size (hist ++ [Command c]) (process_command s c).1.
Proof.
  intros Hinv. pose proof (channels_command s c) as Hch. pose proof (ni_peers _ _ _ _ Hinv) as Hp.
  assert (forall p, p ∈ authorized_publishers s -> authorized initial (hist ++ [Command c]) p) as Hauth.
  { intros p Hpin. by apply authorized_mono, (ni_publishers _ _ _ _ Hinv). }
  assert (exists extra, replies s = replies s ++ extra /\ forall ch r, (ch, Response r) ∉ extra) as Hextra.
  { exists []. split; [by rewrite app_nil_r|set_solver]. }
  destruct c as [auths ch|peer dialed ch|peer req ch|req ch]; cbn [process_command] in *.
  - apply (net_inv_same _ _ _ _ s); try done; [exists [(ch, Done)]; split; [done|set_solver]|].
    intros p Hpin. right. exists auths, ch. set_solver.
  - destruct (pending_dials s !! peer); [|destruct dialed]; apply (net_inv_same _ _ _ _ s); try done.
    + exists [(ch, Failed RedialAttempt)]. split; [done|set_solver].
    + exists [(ch, Failed DialError)]. split; [done|set_solver].
  - apply net_inv_send; [done|by left].
  - destruct (rotate_left 1 (connected_peers s)) as [peers| | |] eqn:Hrot; [|by apply (net_inv_same _ _ _ _ s)..].
    assert (NoDup peers) as Hnd by by rewrite (rotate_left_perm _ _ _ Hrot).
    assert (net_inv initial max_size hist (set_peers s peers)) as Hinv' by by destruct Hinv.
    cbv zeta in *. destruct (connected_peers (set_peers s peers)) as [|peer l] eqn:Hl; [|apply net_inv_send; [done|by right]].
    apply (net_inv_same _ _ _ _ s); try done. exists [(ch, Failed NoPeers)]; split; [done|set_solver].
Qed.

Lemma net_inv_answer initial max_size hist st s id ch r :
  net_inv initial max_size hist s -> outbound_requests s !! id = Some ch ->
  (forall res, r = Response res -> st = Event (ResponseReceived id res)) -> step_channels st = [] ->
  net_inv initial max_size (hist ++ [st]) (send_reply (set_outbound s (delete id (outbound_requests s))) ch r).
Proof.
  intros [Hc Hs Hq Ho Hr Hp Hg Hpub Hsz] Hid Hres Hst.
  split; cbn [send_reply set_outbound sent next_request outbound_requests replies connected_peers forwarded authorized_publishers max_gossip_message_size].
  - rewrite channels_resolve_outbound, fmap_app, concat_app by done. cbn. by rewrite Hst, !app_nil_r.
  - intros id' peer req ch' Hin. destruct (Hs _ _ _ _ Hin) as [? Hx]. split; [done|]. rewrite fmap_app.
    destruct Hx as [Hx|[Hx|Hx%(gone_mono _ st)]]; [|right; left; set_solver|by right; right].
    destruct (decide (id' = id)) as [->|Hne]; [right; left; simplify_eq; set_solver|left; by rewrite lookup_delete_ne].
  - intros id' peer req ch' (st' & ? & ?)%Hq. exists st'. set_solver.
  - intros id' ch' [_ Hx]%lookup_delete_Some. by apply Ho.
  - intros ch' r' [Hin|[= -> <-]%list_elem_of_singleton]%elem_of_app.
    + destruct (Hr _ _ Hin) as (id' & peer & req & ? & ?). exists id', peer, req. set_solver.
    + destruct (Ho _ _ Hid) as (peer & req & ?). exists id, peer, req. rewrite (Hres r') by done. set_solver.
  - done.
  - intros m Hm. destruct (Hg m Hm) as (? & p & ? & ?). split; [done|]. exists p. split; [done|]. by apply authorized_mono.
  - intros p Hpin%Hpub. by apply authorized_mono.
  - done.
Qed.

Lemma net_inv_gossip initial max_size hist s m :
  net_inv initial max_size hist s -> verify_gossip s m = Accept -> net_inv initial max_size (hist ++ [Event (GossipReceived m true)]) (forward s (Gossip m)).
Proof.
  intros Hinv Hv. pose proof (net_inv_same _ _ _ (Event (GossipReceived m true)) s s Hinv) as [Hc Hs Hq Ho Hr Hp Hg Hpub Hsz]; try done.
  { exists []. split; [by rewrite app_nil_r|set_solver]. } { apply Hinv. } { intros p Hpin. apply authorized_mono. by apply Hinv. }
  split; try done. cbn [forwarded forward]. intros m' [Hm|[= ->]%list_elem_of_singleton]%elem_of_app; [by apply Hg|].
  unfold verify_gossip in Hv. rewrite Hsz in Hv. destruct (N.ltb_spec max_size (data_length m)); [done|]. split; [done|].
  destruct (source m) as [p|]; [|done]. case_bool_decide as Ha; [|done]. exists p. split; [done|]. by apply Hpub.
Qed.

Lemma net_inv_closed initial max_size hist s peer num closed :
  net_inv initial max_size hist s ->
  net_inv initial max_size (hist ++ [Event (ConnectionClosed peer num closed)]) (process_event s (ConnectionClosed peer num closed)).1.
Proof.
  intros Hinv. pose proof (net_inv_same _ _ _ (Event (ConnectionClosed peer num closed)) s (set_peers s (filter (fun p => p <> peer) (connected_peers s))) Hinv)
    as Hinv'.
  assert (net_inv initial max_size (hist ++ [Event (ConnectionClosed peer num closed)]) (set_peers s (filter (fun p => p <> peer) (connected_peers s)))) as Hi.
  { apply Hinv'; try done; [exists []; split; [by rewrite app_nil_r|set_solver]|apply NoDup_filter, Hinv|].
    intros p Hpin. apply authorized_mono. by apply Hinv. }
  cbn [process_event fst]. destruct (num =? 0); [|done]. destruct Hi as [Hc Hs Hq Ho Hr Hp Hg Hpub Hsz]. split; try done.
  - etrans; [|exact Hc]. pose proof (channels_event s (ConnectionClosed peer 0 closed)) as Hch. exact Hch.
  - intros id peer' req ch Hin. destruct (Hs _ _ _ _ Hin) as [? Hx]. split; [done|]. destruct Hx as [Hx|Hx]; [|by right].
    cbn [outbound_requests set_outbound]. destruct (decide (ch ∈ closed)) as [Hcl|Hcl]; [right; right; exists peer, num, closed; set_solver|].
    left. by apply map_lookup_filter_Some.
  - intros id ch [Hx _]%map_lookup_filter_Some. by apply (Ho id ch).
Qed.

Lemma net_inv_event initial max_size hist s e :
  net_inv initial max_size hist s -> net_inv initial max_size (hist ++ [Event e]) (process_event s e).1.
Proof.
  intros Hinv. pose proof (ni_peers _ _ _ _ Hinv) as Hp.
  assert (forall p, p ∈ authorized_publishers s -> authorized initial (hist ++ [Event e]) p) as Hauth.
  { intros p Hpin. by apply authorized_mono, (ni_publishers _ _ _ _ Hinv). }
  assert (exists extra, replies s = replies s ++ extra /\ forall ch r, (ch, Response r) ∉ extra) as Hextra.
  { exists []. split; [by rewrite app_nil_r|set_solver]. }
  assert (net_inv initial max_size (hist ++ [Event e]) s) as Hidle by by apply (net_inv_same _ _ _ _ s).
  pose proof (channels_event s e) as Hch.
  destruct e as [m open|peer id req notify open|id resp|id|id|peer dialer|peer num closed|peer]; [| | | | | |by apply net_inv_closed|];
    cbn [process_event] in *; unfold process_gossip_event, process_request, process_inbound_failure in *.
  - destruct (verify_gossip s m) eqn:Hv, open; try done. by apply net_inv_gossip.
  - destruct open; [|done]. apply (net_inv_same _ _ _ _ s); try done. cbn. set_solver.
  - unfold answer in *. destruct (outbound_requests s !! id) as [ch|] eqn:Hid; [|done]. apply net_inv_answer; [done..| |done]. by intros res [= ->].
  - unfold answer in *. destruct (outbound_requests s !! id) as [ch|] eqn:Hid; [|done]. by apply net_inv_answer.
  - destruct (inbound_requests s !! id) as [n|]; [|done]. by apply (net_inv_same _ _ _ _ s).
  - cbn [fst] in *. destruct (pending_dials s !! peer) as [ch|]; [destruct dialer|]; case_bool_decide as Hin; cbn in Hin;
      apply (net_inv_same _ _ _ _ s); try done; cbn; try (eexists; split; [done|set_solver]); apply NoDup_app; set_solver by apply NoDup_singleton.
  - destruct (pending_dials s !! peer) as [ch|]; [|done]. apply (net_inv_same _ _ _ _ s); try done. eexists; split; [done|set_solver].
Qed.

Lemma net_inv_new initial max_size : net_inv initial max_size [] (new initial max_size).
Proof. split; cbn; try done; try set_solver; [by apply NoDup_nil|]. intros p Hp. by left. Qed.

Lemma net_inv_run initial max_size steps hist s :
  net_inv initial max_size hist s -> exists handled, handled `prefix_of` steps /\ net_inv initial max_size (hist ++ handled) (run s steps).1.
Proof.
  revert hist s. induction steps as [|st steps IH]; intros hist s Hinv; [exists []; by rewrite app_nil_r|].
  assert (forall s', net_inv initial max_size (hist ++ [st]) s' ->
            exists handled, handled `prefix_of` st :: steps /\ net_inv initial max_size (hist ++ handled) (run s' steps).1) as Hnext.
  { intros s' (handled & ? & ?)%IH. exists (st :: handled). split; [by apply prefix_cons|]. by rewrite <-app_assoc in *. }
  assert (forall s', net_inv initial max_size (hist ++ [st]) s' ->
            exists handled, handled `prefix_of` st :: steps /\ net_inv initial max_size (hist ++ handled) s') as Hlast.
  { intros s' Hs'. exists [st]. split; [by apply prefix_cons, prefix_nil|done]. }
  destruct st as [c|e]; cbn [run].
  - pose proof (net_inv_command _ _ _ _ c Hinv) as Hc. destruct (process_command s c) as [s' [[]| | |]]; cbn [fst] in *; auto.
  - pose proof (net_inv_event _ _ _ _ e Hinv) as He. destruct (process_event s e) as [s' [[]| | |]]; cbn [fst] in *; auto.
Qed.

Lemma handled_channels (handled steps : list (@step Req Res)) :
  handled `prefix_of` steps -> concat (step_channels <$> handled) ⊆+ concat (step_channels <$> steps).
Proof. intros [rest ->]. rewrite fmap_app, concat_app. by apply submseteq_inserts_r. Qed.

(** C32: The network answers its callers correctly over any run, from any list of commands and
    libp2p events and up to the event that ends it: no caller is answered twice; a response
    a caller gets is the peer's response to the request that very caller asked for; a request
    that was sent is pending, was answered, or its caller dropped the channel; a peer is listed
    once among the connected ones; and the gossip given to the application is within the size
    limit and from a publisher that was authorized. *)
Theorem callers_answered initial max_size steps s result :
  NoDup (concat (step_channels <$> steps)) -> run (new initial max_size) steps = (s, result) ->
  NoDup (replies s).*1 /\
  (forall ch r, (ch, Response r) ∈ replies s ->
     exists id peer req st, (id, peer, req, ch) ∈ sent s /\ st ∈ steps /\ asks st peer req ch /\ Event (ResponseReceived id r) ∈ steps) /\
  (forall id peer req ch, (id, peer, req, ch) ∈ sent s -> outbound_requests s !! id = Some ch \/ ch ∈ (replies s).*1 \/ gone steps ch) /\
  NoDup (connected_peers s) /\
  (forall m, Gossip m ∈ forwarded s -> data_length m <= max_size /\ exists p, source m = Some p /\ authorized initial steps p).
Proof.
  intros Hnd Hrun. destruct (net_inv_run initial max_size steps [] _ (net_inv_new initial max_size)) as (handled & Hpre & Hinv).
  rewrite Hrun in Hinv. cbn [fst app] in Hinv. pose proof (handled_channels _ _ Hpre) as Hsub.
  assert (forall st, st ∈ handled -> st ∈ steps) as Hin by (intros st; destruct Hpre as [rest ->]; set_solver).
  destruct Hinv as [Hc Hs Hq Ho Hr Hp Hg Hpub Hsz]. split_and!.
  - assert (NoDup (channels s)) as Hn by (eapply NoDup_sub; [by etrans|done]). by apply NoDup_app in Hn as [? _].
  - intros ch r (id & peer & req & Hsent & ?)%Hr. destruct (Hq _ _ _ _ Hsent) as (st & ? & ?). exists id, peer, req, st. auto.
  - intros id peer req ch Hsent. destruct (Hs _ _ _ _ Hsent) as [_ [?|[?|(p & n & c & ? & ?)]]]; [auto..|]. do 2 right. exists p, n, c. auto.
  - done.
  - intros m (? & p & ? & Ha)%Hg. split; [done|]. exists p. split; [done|]. destruct Ha as [?|(a & ch & ? & ?)]; [by left|right]. exists a, ch. auto.
Qed.

(** ** What ends the network *)

(** Finding: a request to any peer panics when no peer is connected, and so the answer
    [NoPeers] is never given. *)
Lemma request_without_peers_panics s req ch steps :
  connected_peers s = [] -> run s (Command (SendRequestAny req ch) :: steps) = (s, Panic).
Proof. intros Hp. cbn [run process_command]. by rewrite Hp. Qed.

Lemma no_peers_never_answered s c ch : (ch, Failed NoPeers) ∉ replies s -> (ch, Failed NoPeers) ∉ replies (process_command s c).1.
Proof.
  intros Hn. destruct c as [a ch'|p d ch'|p r ch'|r ch']; cbn [process_command]; [cbn; set_solver| |done|].
  - destruct (pending_dials s !! p); [|destruct d]; cbn; set_solver.
  - destruct (connected_peers s) as [|x l] eqn:Hl; [done|]. by destruct l.
Qed.

(** Finding: a failure reported for a request the network does not know ends it.  An inbound
    request that cannot be decoded fails before it is registered. *)
Lemma unknown_inbound_failure_fatal s id steps :
  inbound_requests s !! id = None -> run s (Event (InboundFailure id) :: steps) = (s, Err PendingRequestChannelLost).
Proof. intros Hid. cbn [run process_event]; unfold process_inbound_failure. by rewrite Hid. Qed.

(** Finding: closing the last connection to a peer forgets the requests whose callers are gone,
    and the failure libp2p then reports for such a request ends the network. *)
Lemma purged_request_fatal s peer id ch closed steps :
  outbound_requests s !! id = Some ch -> ch ∈ closed ->
  (run s (Event (ConnectionClosed peer 0 closed) :: Event (OutboundFailure id) :: steps)).2 = Err PendingRequestChannelLost.
Proof.
  intros Hid Hcl. cbn [run process_event answer outbound_requests set_outbound set_peers]. cbn [N.eqb]. unfold answer. cbn [outbound_requests set_outbound].
  rewrite (proj2 (map_lookup_filter_None _ _ _)); [done|]. right. intros x Hx. cbn in *. simplify_eq. set_solver.
Qed.

End network.

(** ** Demonstration *)

#[local] Instance identity_format : MessageFormat (list N).
Proof.
  refine {| encode_into_buffer := Some; from_bytes := Some; compress := fun l => l;
            decompress := fun l n => Some (take n l); max_compress_len := fun n => 32 + n + n / 6 |}.
  - by intros m bytes [= <-].
  - intros bytes. by rewrite take_ge.
  - intros bytes. cbv beta. pose proof (N.le_0_l (N.of_nat (length bytes) / 65536)). lia.
  - done.
Defined.

Lemma codec_roundtrip_witness :
  TNCodec.encode_message 8 [7; 5; 3] = Ok [3; 0; 0; 0; 7; 5; 3] /\
  TNCodec.decode_message 8 [3; 0; 0; 0; 7; 5; 3] = (7%nat, Ok [7; 5; 3]) /\
  TNCodec.decode_message 8 [9; 0; 0; 0; 7; 5; 3] = (4%nat, Err PrefixTooLarge : outcome CodecError (list N)).
Proof.
  split_and!; [done| |done]. by apply (TNCodec.codec_roundtrip 8 ltac:(done)).
Defined.

(** Two requests of which one is answered, one fails, and a redial that is refused. *)
Definition demo_steps : list (@ConsensusNetwork.step N N) :=
  [ConsensusNetwork.Command (ConsensusNetwork.Dial 1 true 10);
   ConsensusNetwork.Command (ConsensusNetwork.Dial 1 true 11);
   ConsensusNetwork.Event (ConsensusNetwork.ConnectionEstablished 1 true);
   ConsensusNetwork.Command (ConsensusNetwork.SendRequest 1 100 12);
   ConsensusNetwork.Command (ConsensusNetwork.SendRequestAny 101 13);
   ConsensusNetwork.Event (ConsensusNetwork.ResponseReceived 1 201);
   ConsensusNetwork.Event (ConsensusNetwork.OutboundFailure 0);
   ConsensusNetwork.Event (ConsensusNetwork.GossipReceived (ConsensusNetwork.mk_gossip (Some 1) 20 9) true);
   ConsensusNetwork.Event (ConsensusNetwork.GossipReceived (ConsensusNetwork.mk_gossip (Some 2) 20 8) true)].

Definition demo_network : @ConsensusNetwork.t N N := (ConsensusNetwork.run (ConsensusNetwork.new {[1]} 64) demo_steps).1.

Lemma callers_answered_witness :
  ConsensusNetwork.replies demo_network =
    [(11, ConsensusNetwork.Failed ConsensusNetwork.RedialAttempt); (10, ConsensusNetwork.Done);
     (13, ConsensusNetwork.Response 201); (12, ConsensusNetwork.Failed ConsensusNetwork.OutboundError)] /\
  NoDup (ConsensusNetwork.replies demo_network).*1.
Proof.
  split; [by vm_compute|].
  apply (callers_answered {[1]} 64 demo_steps demo_network (Ok tt)); [|by vm_compute].
  apply (bool_decide_unpack _). by vm_compute.
Defined.
