(* ===== verification/Genesis.v ===== *)
(** Keys and the genesis ceremony: how the validators create their keys, how the committee is
    created from their information, and how a node starts from it.
    Models crates/types/src/crypto/{intent,bls_keypair,bls_signature}.rs (intents and proofs of
    possession), crates/config/src/{keys,genesis,consensus,node,traits}.rs and the commands of
    bin/telcoin-network/src/{genesis,keytool}.  The signature scheme, the hash functions and the
    serialization formats are parameters. *)

From Stdlib Require Import Ascii.
From stdpp Require Import pretty.
From S2P Require Import Prelude Committee Certificate Demo CertValidator.

(** * Intents *)

Inductive IntentScope := ProofOfPossession | EpochBoundary | ConsensusDigest | SystemMessage.
Inductive IntentVersion := IntentV0.
Inductive AppId := AppTelcoin | AppConsensus.

Module Intent.

Record t := mk {
  scope : IntentScope;
  version : IntentVersion;
  app_id : AppId;
}.

(** [#[repr(u8)]] *)
Definition scope_u8 (s : IntentScope) : N :=
  match s with ProofOfPossession => 0 | EpochBoundary => 1 | ConsensusDigest => 2 | SystemMessage => 3 end.
Definition version_u8 (v : IntentVersion) : N := match v with IntentV0 => 0 end.
Definition app_u8 (a : AppId) : N := match a with AppTelcoin => 0 | AppConsensus => 1 end.

(** [TryFrom<u8>] *)
Definition scope_try_from (b : N) : outcome unit IntentScope :=
  if b =? 0 then Ok ProofOfPossession else if b =? 1 then Ok EpochBoundary
  else if b =? 2 then Ok ConsensusDigest else if b =? 3 then Ok SystemMessage else Err ().
Definition version_try_from (b : N) : outcome unit IntentVersion := if b =? 0 then Ok IntentV0 else Err ().
Definition app_try_from (b : N) : outcome unit AppId :=
  if b =? 0 then Ok AppTelcoin else if b =? 1 then Ok AppConsensus else Err ().

(** The serialization: a byte for each field. *)
Definition to_bytes (i : t) : list N := [scope_u8 (scope i); version_u8 (version i); app_u8 (app_id i)].

(** [FromStr] after the hexadecimal digits are decoded. *)
Definition from_bytes (b : list N) : outcome unit t :=
  match b with
  | [s; v; a] => s ← scope_try_from s; v ← version_try_from v; a ← app_try_from a; Ok (mk s v a)
  | _ => Err ()
  end.

Definition from_str (hex_decode : string -> option (list N)) (s : string) : outcome unit t :=
  let s := match s with String "0"%char (String "x"%char s') => s' | _ => s end in
  b ← ok_or (hex_decode s) (); from_bytes b.

Definition telcoin (s : IntentScope) : t := mk s IntentV0 AppTelcoin.
Definition consensus (s : IntentScope) : t := mk s IntentV0 AppConsensus.

(** An [IntentMessage]: the intent before the encoded value. *)
Definition message (i : t) (value : list N) : list N := to_bytes i ++ value.

End Intent.

(** * Keys *)

(** What the libraries provide: BLS keys and signatures (blst), the hash function, the
    network keys (libp2p), base 58 and the encoding of a byte vector (bcs). *)
Class KeyOps := {
  sk_to_pk : N -> BlsPublicKey;
  sk_bytes : N -> list N;
  sk_from_bytes : list N -> option N;
  pk_bytes : BlsPublicKey -> list N;
  pk_validate : BlsPublicKey -> bool;
  blst_sign : N -> list N -> N;
  blst_verify : N -> list N -> BlsPublicKey -> bool;
  signature_bytes : N -> list N;
  hash_bytes : list N -> list N;
  ed25519_from_bytes : list N -> option N;
  ed25519_public : N -> N;
  ed25519_bytes : N -> option (list N);
  bs58_encode : list N -> string;
  bs58_decode : string -> option (list N);
  encode_vec : list N -> list N;
}.

(** [str::trim] *)
Definition is_space (c : ascii) : bool :=
  let n := Ascii.N_of_ascii c in (n =? 32) || ((9 <=? n) && (n <=? 13)).

Fixpoint trim_start (s : string) : string :=
  match s with String c s' => if is_space c then trim_start s' else s | EmptyString => s end.

Definition trim (s : string) : string := String.rev (trim_start (String.rev (trim_start s))).

(** The bytes of a string. *)
Definition string_bytes (s : string) : list N := Ascii.N_of_ascii <$> String.list_ascii_of_string s.

(** [&bytes[a..b]] *)
Definition slice {E A} (l : list A) (a b : nat) : outcome E (list A) :=
  if (b <=? length l)%nat then Ok (take (b - a) (drop a l)) else Panic.

Module KeyConfig.
Section keys.
Context `{KeyOps}.

Record t := mk {
  primary_keypair : N;
  primary_network_keypair : N;
  worker_network_keypair : N;
}.

(** The directory of the keys, when it exists, with its three files. *)
Record dir := mk_dir {
  bls_key : option string;
  primary_seed : option string;
  worker_seed : option string;
}.

Definition generate_network_keypair (primary_keypair : N) (seed_str : string) : outcome unit N :=
  let hash := hash_bytes (signature_bytes (blst_sign primary_keypair (string_bytes seed_str))) in
  bytes ← slice hash 0 32;
  expect (ed25519_from_bytes bytes).

Definition from_keypair (primary_keypair : N) (primary_seed worker_seed : string) : outcome unit t :=
  primary_network_keypair ← generate_network_keypair primary_keypair primary_seed;
  worker_network_keypair ← generate_network_keypair primary_keypair worker_seed;
  Ok (mk primary_keypair primary_network_keypair worker_network_keypair).

(** [fs::read_to_string] fails for a file that is missing. *)
Definition read_config (d : option dir) : outcome unit t :=
  d ← ok_or d ();
  contents ← ok_or (bls_key d) ();
  let primary_seed := default "primary network keypair" (primary_seed d) in
  let worker_seed := default "worker network keypair" (worker_seed d) in
  bytes ← ok_or (bs58_decode (trim contents)) ();
  primary_keypair ← ok_or (sk_from_bytes bytes) ();
  from_keypair primary_keypair primary_seed worker_seed.

(** With the key that the random generator gives; [fs::write] fails in a missing directory. *)
Definition generate_and_save (random : N) (d : option dir) : outcome unit (t * option dir) :=
  let primary_seed := "primary network keypair" in
  let worker_seed := "worker network keypair" in
  config ← from_keypair random primary_seed worker_seed;
  let contents := bs58_encode (sk_bytes random) in
  _ ← ok_or d ();
  Ok (config, Some (mk_dir (Some contents) (Some primary_seed) (Some worker_seed))).

Definition with_random (random : N) : outcome unit t :=
  from_keypair random "primary network keypair" "worker network keypair".

Definition primary_public_key (k : t) : BlsPublicKey := sk_to_pk (primary_keypair k).
Definition primary_network_public_key (k : t) : N := ed25519_public (primary_network_keypair k).
Definition worker_network_public_key (k : t) : N := ed25519_public (worker_network_keypair k).

(** Over the public key and the encoded genesis. *)
Definition generate_proof_of_possession_bls (k : t) (genesis_bytes : list N) : N :=
  let msg := pk_bytes (primary_public_key k) ++ genesis_bytes in
  blst_sign (primary_keypair k) (Intent.message (Intent.telcoin ProofOfPossession) (encode_vec msg)).

End keys.
End KeyConfig.

Definition verify_proof_of_possession_bls `{KeyOps} (proof : N) (public_key : BlsPublicKey) (genesis_bytes : list N)
    : outcome unit unit :=
  if pk_validate public_key then
    let msg := pk_bytes public_key ++ genesis_bytes in
    if blst_verify proof (Intent.message (Intent.telcoin ProofOfPossession) (encode_vec msg)) public_key
    then Ok () else Err ()
  else Err ().

(** * Validator information and configuration *)

Module PrimaryInfo.
Record t := mk {
  network_key : N;
  network_address : string;
  worker_network_key : N;
  worker_index : gmap WorkerId WorkerInfo.t;
}.
End PrimaryInfo.

Module ValidatorInfo.
Record t := mk {
  name : string;
  bls_public_key : BlsPublicKey;
  primary_info : PrimaryInfo.t;
  execution_address : N;
  proof_of_possession : N;
}.

Definition public_key (v : t) : BlsPublicKey := bls_public_key v.
Definition primary_network_key (v : t) : N := PrimaryInfo.network_key (primary_info v).
Definition primary_network_address (v : t) : string := PrimaryInfo.network_address (primary_info v).
End ValidatorInfo.

(** The genesis of the execution layer (alloy): accounts by address, and its bytes. *)
Record GenesisAccount := mk_account {
  account_balance : N;
  account_code : option (list N);
  account_storage : option (gmap N N);
}.

Class GenesisOps := {
  Genesis : Type;
  genesis_bytes : Genesis -> list N;
  genesis_alloc : Genesis -> gmap N GenesisAccount;
  extend_accounts : Genesis -> list (N * GenesisAccount) -> Genesis;
  alloc_insert : Genesis -> N -> GenesisAccount -> Genesis;
}.

Module Config.
Section config.
Context `{GenesisOps}.

(** The configuration of a node, as far as the ceremony reads it. *)
Record t := mk {
  validator_info : ValidatorInfo.t;
  max_header_delay : N;
  min_header_delay : N;
  gc_depth : Round;
  genesis : Genesis;
}.

Definition set_validator (c : t) (v : ValidatorInfo.t) : t :=
  mk v (max_header_delay c) (min_header_delay c) (gc_depth c) (genesis c).

Definition set_genesis (c : t) (g : Genesis) : t :=
  mk (validator_info c) (max_header_delay c) (min_header_delay c) (gc_depth c) g.

Definition set_delays (c : t) (max min : N) : t := mk (validator_info c) max min (gc_depth c) (genesis c).

Definition update_protocol_key (c : t) (value : BlsPublicKey) : t :=
  let v := validator_info c in
  set_validator c (ValidatorInfo.mk (ValidatorInfo.name v) value (ValidatorInfo.primary_info v)
                     (ValidatorInfo.execution_address v) (ValidatorInfo.proof_of_possession v)).

Definition update_proof_of_possession (c : t) (value : N) : t :=
  let v := validator_info c in
  set_validator c (ValidatorInfo.mk (ValidatorInfo.name v) (ValidatorInfo.bls_public_key v) (ValidatorInfo.primary_info v)
                     (ValidatorInfo.execution_address v) value).

Definition set_primary (c : t) (p : PrimaryInfo.t) : t :=
  let v := validator_info c in
  set_validator c (ValidatorInfo.mk (ValidatorInfo.name v) (ValidatorInfo.bls_public_key v) p
                     (ValidatorInfo.execution_address v) (ValidatorInfo.proof_of_possession v)).

Definition update_primary_network_key (c : t) (value : N) : t :=
  let p := ValidatorInfo.primary_info (validator_info c) in
  set_primary c (PrimaryInfo.mk value (PrimaryInfo.network_address p) (PrimaryInfo.worker_network_key p) (PrimaryInfo.worker_index p)).

(** The name of every worker is the network key. *)
Definition update_worker_network_key (c : t) (value : N) : t :=
  let p := ValidatorInfo.primary_info (validator_info c) in
  set_primary c (PrimaryInfo.mk (PrimaryInfo.network_key p) (PrimaryInfo.network_address p) value
    ((fun w => WorkerInfo.mk value (WorkerInfo.transactions w) (WorkerInfo.worker_address w)) <$> PrimaryInfo.worker_index p)).

Definition update_execution_address (c : t) (value : N) : t :=
  let v := validator_info c in
  set_validator c (ValidatorInfo.mk (ValidatorInfo.name v) (ValidatorInfo.bls_public_key v) (ValidatorInfo.primary_info v)
                     value (ValidatorInfo.proof_of_possession v)).

End config.
End Config.

(** * Files *)

(** A serialization format (YAML, JSON) of a type. *)
Class Format (T : Type) := {
  to_text : T -> option string;
  from_text : string -> option T;
}.

Module ConfigTrait.

(** [load_from_path]: the default is written when the file is missing. *)
Definition load_from_path {T} `{Format T} (dflt : T) (file : option string) : outcome unit (T * option string) :=
  match file with
  | Some text => cfg ← ok_or (from_text text) (); Ok (cfg, file)
  | None => text ← ok_or (to_text dflt) (); Ok (dflt, Some text)
  end.

Definition store_path {T} `{Format T} (cfg : T) : outcome unit (option string) :=
  text ← ok_or (to_text cfg) (); Ok (Some text).

End ConfigTrait.

(** The files under the data directory of a node.  The directory of the validators maps
    file names to their contents. *)
Record DataDir := mk_datadir {
  node_config : option string;
  genesis_dir : bool;
  validators_dir : option (gmap string string);
  genesis_file : option string;
  committee_file : option string;
  worker_cache_file : option string;
}.

Definition set_config (d : DataDir) (f : option string) : DataDir :=
  mk_datadir f (genesis_dir d) (validators_dir d) (genesis_file d) (committee_file d) (worker_cache_file d).

Definition set_genesis_file (d : DataDir) (f : option string) : DataDir :=
  mk_datadir (node_config d) true (validators_dir d) f (committee_file d) (worker_cache_file d).

Definition set_committee_file (d : DataDir) (f : option string) : DataDir :=
  mk_datadir (node_config d) true (validators_dir d) (genesis_file d) f (worker_cache_file d).

Definition set_worker_cache_file (d : DataDir) (f : option string) : DataDir :=
  mk_datadir (node_config d) true (validators_dir d) (genesis_file d) (committee_file d) f.

Definition set_validators (d : DataDir) (f : gmap string string) : DataDir :=
  mk_datadir (node_config d) true (Some f) (genesis_file d) (committee_file d) (worker_cache_file d).

(** The formats the ceremony uses, the order of the entries of a directory, the names of the
    files of the validators ([keccak256] of the key), and the labels of the registry. *)
Class Environment `{GenesisOps} := {
  validator_yaml :: Format ValidatorInfo.t;
  config_yaml :: Format Config.t;
  genesis_json :: Format Genesis;
  committee_yaml :: Format Committee.t;
  worker_cache_yaml :: Format WorkerCache.t;
  default_config : Config.t;
  read_dir : gmap string string -> list (string * string);
  hash_name : BlsPublicKey -> string;
  keccak256 : string -> N;
}.

(** The documented behaviour: what is written is read back, without the fields of a committee that
    are not serialized; every entry is read once; hashes do not collide, and their names
    start with a digit. *)
Class EnvironmentLaws `{Environment} := {
  validator_roundtrip v s : to_text v = Some s -> from_text s = Some (v : ValidatorInfo.t);
  config_roundtrip c s : to_text c = Some s -> from_text s = Some (c : Config.t);
  committee_roundtrip (c : Committee.t) s : to_text c = Some s ->
    from_text s = Some (Committee.mk (Committee.authorities c) ∅ (Committee.epoch c) 0 0);
  worker_cache_roundtrip c s : to_text c = Some s -> from_text s = Some (c : WorkerCache.t);
  read_dir_perm m : read_dir m ≡ₚ map_to_list m;
  hash_name_inj k k' : hash_name k = hash_name k' -> k = k';
  hash_name_digit k : exists s, hash_name k = String "0" s;
  keccak256_inj s s' : keccak256 s = keccak256 s' -> s = s';
}.

(** * The registry contract *)

(** The word of 32 bytes, most significant first. *)
Definition be_word (bytes : list N) : N := foldl (fun acc b => 256 * acc + b) 0 bytes.

Module PubkeyFlags.
Section flags.
Context `{KeyOps} `{Environment}.

Record t := mk {
  bls_a : N;
  bls_b : N;
  bls_c : N;
  ed25519 : N;
  ecdsa : N;
}.

Definition label (i : N) (suffix : string) : N := keccak256 ("VALIDATOR_" +:+ pretty i +:+ suffix).

Definition new (num_validators : nat) : list t :=
  (fun i => mk (label i "_BLS_A") (label i "_BLS_B") (label i "_BLS_C") (label i "_ED25519") (label i "_ECDSA"))
    <$> (N.of_nat <$> seq 1 num_validators).

(** [B256::copy_from_slice] and [B256::from_slice] panic on another length than 32. *)
Definition word {E} (bytes : list N) : outcome E N := if (length bytes =? 32)%nat then Ok (be_word bytes) else Panic.

(** The loop over the flags with the index of the first one; an index out of range panics. *)
Fixpoint overwrite_loop (val : N) (i : nat) (flags : list t) (infos : list ValidatorInfo.t) : outcome unit N :=
  match flags with
  | [] => Ok val
  | flag :: flags =>
      if val =? bls_a flag then
        v ← expect (infos !! i); b ← slice (pk_bytes (ValidatorInfo.bls_public_key v)) 0 32; word b
      else if val =? bls_b flag then
        v ← expect (infos !! i); b ← slice (pk_bytes (ValidatorInfo.bls_public_key v)) 32 64; word b
      else if val =? bls_c flag then
        v ← expect (infos !! i); b ← slice (pk_bytes (ValidatorInfo.bls_public_key v)) 64 96; word b
      else if val =? ecdsa flag then
        v ← expect (infos !! i); Ok (ValidatorInfo.execution_address v)
      else if val =? ed25519 flag then
        v ← expect (infos !! i); b ← expect (ed25519_bytes (ValidatorInfo.primary_network_key v)); word b
      else overwrite_loop val (S i) flags infos
  end.

Definition overwrite_if_flag (val : N) (flags : list t) (infos : list ValidatorInfo.t) : outcome unit N :=
  overwrite_loop val 0 flags infos.

End flags.
End PubkeyFlags.

(** * The genesis of the network *)

Module NetworkGenesis.
Section genesis.
Context `{KeyOps} `{Environment} `{NetworkKeys}.

Record t := mk {
  chain : Genesis;
  validators : gmap BlsPublicKey ValidatorInfo.t;
}.

Definition with_chain_spec (chain : Genesis) : t := mk chain ∅.

Definition add_validator (g : t) (v : ValidatorInfo.t) : t :=
  mk (chain g) (<[ValidatorInfo.public_key v := v]> (validators g)).

(** The contracts with the storage of the registry: [cfg] is the parsed storage file, none
    when it cannot be read, [registry_impl] a random address. *)
Definition registry_proxy : N := 0x07e17e17e17e17e17e17e17e17e17e17e17e17e1.

Definition overwrite_storage (g : t) (cfg : gmap N N) : outcome unit (gmap N N) :=
  let pubkey_flags := PubkeyFlags.new (size (validators g)) in
  let validator_info := btree_values (validators g) in
  foldM (fun storage kv =>
      val ← PubkeyFlags.overwrite_if_flag kv.2 pubkey_flags validator_info;
      Ok (<[kv.1 := val]> storage)) cfg (btree_iter cfg).

Definition construct_registry_genesis_accounts (g : t) (cfg : option (gmap N N)) (registry_impl : N)
    (registry_bytecode proxy_bytecode : list N) : outcome unit t :=
  cfg ← expect cfg;
  storage ← overwrite_storage g cfg;
  let accounts := [(registry_impl, mk_account 0 (Some registry_bytecode) None);
                   (registry_proxy, mk_account 0 (Some proxy_bytecode) (Some storage))] in
  Ok (mk (extend_accounts (chain g) accounts) (validators g)).

(** A name that starts with a dot is skipped. *)
Definition hidden (name : string) : bool :=
  match name with String c _ => Ascii.eqb c "."%char | EmptyString => false end.

Definition load_entries (entries : list (string * string)) : outcome unit (list (BlsPublicKey * ValidatorInfo.t)) :=
  foldM (fun acc e =>
      if hidden e.1 then Ok acc else
      v ← ok_or (from_text e.2) ();
      Ok (acc ++ [(ValidatorInfo.bls_public_key v, v)])) [] entries.

Definition load_from_path (d : DataDir) : outcome unit (t * DataDir) :=
  if genesis_dir d then
    dir ← ok_or (validators_dir d) ();
    validators ← load_entries (read_dir dir);
    cfg ← ConfigTrait.load_from_path default_config (node_config d);
    Ok (mk (Config.genesis cfg.1) (collect_map validators), set_config d cfg.2)
  else Err ().

Definition file_name (pubkey : BlsPublicKey) : string := hash_name pubkey +:+ ".yaml".

Definition write_to_path (g : t) (d : DataDir) : outcome unit DataDir :=
  files ← foldM (fun files kv =>
      text ← ok_or (to_text kv.2) ();
      Ok (<[file_name kv.1 := text]> files)) (default ∅ (validators_dir d)) (btree_iter (validators g));
  Ok (set_validators d files).

Definition validate (g : t) : outcome unit unit :=
  foldM (fun _ kv =>
      verify_proof_of_possession_bls (ValidatorInfo.proof_of_possession kv.2) kv.1 (genesis_bytes (chain g)))
    () (btree_iter (validators g)).

Definition create_committee (g : t) : outcome unit Committee.t :=
  CommitteeBuilder.build
    (foldl (fun b kv =>
        CommitteeBuilder.add_authority b kv.1 1 (ValidatorInfo.primary_network_address kv.2)
          (ValidatorInfo.execution_address kv.2) (ValidatorInfo.primary_network_key kv.2) "hostname")
      (CommitteeBuilder.new 0) (btree_iter (validators g))).

Definition create_worker_cache (g : t) : WorkerCache.t :=
  WorkerCache.mk 0
    (collect_map ((fun kv => (kv.1, PrimaryInfo.worker_index (ValidatorInfo.primary_info kv.2))) <$> btree_iter (validators g))).

End genesis.
End NetworkGenesis.

(** * The commands of the ceremony *)

Module Ceremony.
Section commands.
Context `{KeyOps} `{Environment} `{NetworkKeys}.

(** [ValidatorArgs::execute]: the keys are generated and the configuration names them; [chain] and
    [address] are arguments of the command. *)
Definition validator_keys (random address : N) (chain : Genesis) (config : Config.t) (keys : option KeyConfig.dir)
    : outcome unit (KeyConfig.t * Config.t * option KeyConfig.dir) :=
  kd ← KeyConfig.generate_and_save random keys;
  let key_config := kd.1 in
  let proof := KeyConfig.generate_proof_of_possession_bls key_config (genesis_bytes chain) in
  let config := Config.update_protocol_key config (KeyConfig.primary_public_key key_config) in
  let config := Config.update_proof_of_possession config proof in
  let config := Config.update_primary_network_key config (KeyConfig.primary_network_public_key key_config) in
  let config := Config.update_worker_network_key config (KeyConfig.worker_network_public_key key_config) in
  let config := Config.update_execution_address config address in
  Ok (key_config, config, kd.2).

(** [init_path]: the directory of the keys is created when it is missing. *)
Definition init_path (keys : option KeyConfig.dir) : option KeyConfig.dir :=
  match keys with Some k => Some k | None => Some (KeyConfig.mk_dir None None None) end.

(** [load_config]: a configuration that cannot be loaded is replaced by the default one. *)
Definition load_config (d : DataDir) : Config.t :=
  match ConfigTrait.load_from_path default_config (node_config d) with Ok (c, _) => c | _ => default_config end.

(** [keytool generate validator] *)
Definition generate_keys (random address : N) (chain : Genesis) (d : DataDir) (keys : option KeyConfig.dir)
    : outcome unit (KeyConfig.t * DataDir * option KeyConfig.dir) :=
  kcd ← validator_keys random address chain (load_config d) (init_path keys);
  file ← ConfigTrait.store_path kcd.1.2;
  Ok (kcd.1.1, set_config d file, kcd.2).

(** [genesis init]: the funded account, when one is given, is already derived from its word. *)
Definition fund (c : Config.t) (account : option N) : Config.t :=
  match account with
  | Some a => Config.set_genesis c (alloc_insert (Config.genesis c) a (mk_account (10 ^ 27) None None))
  | None => c
  end.

Definition update_config (c : Config.t) (dev_funded_account max_delay min_delay : option N) : Config.t :=
  let c := fund c dev_funded_account in
  Config.set_delays c (default (Config.max_header_delay c) max_delay) (default (Config.min_header_delay c) min_delay).

Definition initialize (dev_funded_account max_delay min_delay : option N) (d : DataDir) : outcome unit DataDir :=
  cfg ← ConfigTrait.load_from_path default_config (node_config d);
  let d := set_config d cfg.2 in
  cd ← (if bool_decide (dev_funded_account = None /\ max_delay = None /\ min_delay = None) then Ok (cfg.1, d) else
    let c := update_config cfg.1 dev_funded_account max_delay min_delay in
    file ← ConfigTrait.store_path c;
    Ok (c, set_config d file));
  NetworkGenesis.write_to_path (NetworkGenesis.with_chain_spec (Config.genesis cd.1)) cd.2.

(** [genesis add-validator] *)
Definition add_validator (d : DataDir) : outcome unit DataDir :=
  cfg ← ConfigTrait.load_from_path default_config (node_config d);
  let validator_info := Config.validator_info cfg.1 in
  gd ← NetworkGenesis.load_from_path (set_config d cfg.2);
  NetworkGenesis.write_to_path (NetworkGenesis.add_validator gd.1 validator_info) gd.2.

(** A command that fails leaves the directory as it is at that point. *)
Definition load_genesis : action DataDir unit NetworkGenesis.t := fun d =>
  match NetworkGenesis.load_from_path d with
  | Ok (g, d) => (d, Ok g)
  | Err e => (d, Err e)
  | Panic => (d, Panic)
  | OutOfFuel => (d, OutOfFuel)
  end.

Definition load_node_config : action DataDir unit Config.t := fun d =>
  match ConfigTrait.load_from_path default_config (node_config d) with
  | Ok (c, file) => (set_config d file, Ok c)
  | Err e => (d, Err e)
  | Panic => (d, Panic)
  | OutOfFuel => (d, OutOfFuel)
  end.

Definition store {T} `{Format T} (set : DataDir -> option string -> DataDir) (cfg : T) : action DataDir unit unit :=
  file ← lift (ConfigTrait.store_path cfg);
  modify (fun d => set d file).

(** [genesis validate] *)
Definition validate : action DataDir unit unit :=
  network_genesis ← load_genesis;
  lift (NetworkGenesis.validate network_genesis).

(** [genesis create-committee] *)
Definition create_committee (registry : option (gmap N N)) (registry_impl : N) (registry_bytecode proxy_bytecode : list N)
    : action DataDir unit unit :=
  network_genesis ← load_genesis;
  _ ← lift (NetworkGenesis.validate network_genesis);
  network_genesis ← lift (NetworkGenesis.construct_registry_genesis_accounts network_genesis registry registry_impl registry_bytecode proxy_bytecode);
  tn_config ← load_node_config;
  let tn_config := Config.set_genesis tn_config (NetworkGenesis.chain network_genesis) in
  _ ← store set_genesis_file (Config.genesis tn_config);
  _ ← store set_config tn_config;
  committee ← lift (NetworkGenesis.create_committee network_genesis);
  let worker_cache := NetworkGenesis.create_worker_cache network_genesis in
  _ ← store set_committee_file committee;
  store set_worker_cache_file worker_cache.

End commands.
End Ceremony.

(** * Starting a node *)

Module NodeConfig.
Section config.
Context `{KeyOps} `{Environment} `{NetworkKeys} `{Crypto}.

(** [ConsensusConfig::new_with_committee]: the node's key has to be in the committee. *)
Definition new_with_committee (config : Config.t) (key_config : KeyConfig.t) (committee : Committee.t)
    (worker_cache : WorkerCache.t) : outcome unit ConsensusConfig.t :=
  authority ← expect (Committee.authority_by_key committee (KeyConfig.primary_public_key key_config));
  let genesis := collect_map ((fun cert => (Certificate.digest cert, cert)) <$> Certificate.genesis committee) in
  Ok (ConsensusConfig.mk committee worker_cache genesis (Authority.id authority) (Config.gc_depth config) SyncConfig.default_config).

(** [ConsensusConfig::new]; missing files are created with their defaults. *)
Definition new (config : Config.t) (d : DataDir) (key_config : KeyConfig.t) : outcome unit ConsensusConfig.t :=
  committee ← ConfigTrait.load_from_path (Committee.mk ∅ ∅ 0 0 0) (committee_file d);
  committee ← Committee.load committee.1;
  worker_cache ← ConfigTrait.load_from_path (WorkerCache.mk 0 ∅) (worker_cache_file d);
  _ ← assert (N.of_nat (length (WorkerCache.all_workers worker_cache.1)) =? Committee.size committee);
  new_with_committee config key_config committee worker_cache.1.

Definition in_committee (c : ConsensusConfig.t) (id : AuthorityIdentifier) : bool :=
  Committee.is_authority (ConsensusConfig.committee c) id.

(** Panics for an id that is not in the worker cache. *)
Definition worker_address (c : ConsensusConfig.t) (key : BlsPublicKey) (id : WorkerId) : outcome unit string :=
  match WorkerCache.worker (ConsensusConfig.worker_cache c) key id with
  | Ok w => Ok (WorkerInfo.worker_address w)
  | _ => Panic
  end.

End config.
End NodeConfig.

(** * Keys survive a restart *)

(** The documented behaviour of the libraries. *)
Class KeyLaws `{KeyOps} := {
  sk_roundtrip sk : sk_from_bytes (sk_bytes sk) = Some sk;
  bs58_roundtrip b : bs58_decode (bs58_encode b) = Some b;
  bs58_alphabet b : Forall (fun c => is_space c = false) (String.list_ascii_of_string (bs58_encode b));
  pk_valid sk : pk_validate (sk_to_pk sk) = true;
  sign_verifies sk m : blst_verify (blst_sign sk m) m (sk_to_pk sk) = true;
  pk_length pk : length (pk_bytes pk) = 96%nat;
}.

Module KeyFacts.

Lemma rev_app_list s s' :
  String.list_ascii_of_string (String.rev_app s s') = rev (String.list_ascii_of_string s) ++ String.list_ascii_of_string s'.
Proof. revert s'. induction s as [|c s IH]; intros s'; simpl; [done|]. rewrite IH. simpl. by rewrite <-app_assoc. Qed.

Lemma rev_list s : String.list_ascii_of_string (String.rev s) = rev (String.list_ascii_of_string s).
Proof. unfold String.rev. rewrite rev_app_list. simpl. by rewrite app_nil_r. Qed.

Lemma list_ascii_inj s s' : String.list_ascii_of_string s = String.list_ascii_of_string s' -> s = s'.
Proof. intros Heq. by rewrite <-(String.string_of_list_ascii_of_string s), Heq, String.string_of_list_ascii_of_string. Qed.

Lemma trim_start_id s : Forall (fun c => is_space c = false) (String.list_ascii_of_string s) -> trim_start s = s.
Proof. destruct s as [|c s]; [done|]. simpl. intros [-> _]%Forall_cons. done. Qed.

Lemma trim_id s : Forall (fun c => is_space c = false) (String.list_ascii_of_string s) -> trim s = s.
Proof.
  intros Hs. unfold trim. rewrite (trim_start_id s), (trim_start_id (String.rev s)) by (rewrite ?rev_list; first [apply Forall_rev; done|done]).
  apply list_ascii_inj. by rewrite !rev_list, rev_involutive.
Qed.

(** A node that restarts has the keys it generated. *)
Lemma key_config_roundtrip `{KeyLaws} random d k d' :
  KeyConfig.generate_and_save random d = Ok (k, d') -> KeyConfig.read_config d' = Ok k.
Proof.
  unfold KeyConfig.generate_and_save. intros (k2 & Hk & (u & _ & [= -> <-])%bind_Ok)%bind_Ok.
  unfold KeyConfig.read_config. simpl. rewrite trim_id by apply bs58_alphabet. rewrite bs58_roundtrip. simpl.
  rewrite sk_roundtrip. exact Hk.
Qed.

Lemma generated_keys `{KeyOps} random p w k : KeyConfig.from_keypair random p w = Ok k -> KeyConfig.primary_keypair k = random.
Proof. unfold KeyConfig.from_keypair. by intros (n & _ & (m & _ & [= <-])%bind_Ok)%bind_Ok. Qed.

(** The proof of possession that a key makes for a genesis verifies for it. *)
Lemma proof_verifies `{KeyLaws} k genesis :
  verify_proof_of_possession_bls (KeyConfig.generate_proof_of_possession_bls k genesis) (KeyConfig.primary_public_key k) genesis = Ok ().
Proof.
  unfold verify_proof_of_possession_bls, KeyConfig.generate_proof_of_possession_bls, KeyConfig.primary_public_key.
  by rewrite pk_valid, sign_verifies.
Qed.

End KeyFacts.

(** * The labels of the registry *)

Module FlagFacts.

Definition digit (c : ascii) : Prop := let n := N_of_ascii c in 48 <= n <= 57.

Lemma pretty_char_digit x : x < 10 -> digit (pretty_N_char x).
Proof. intros Hx. assert (x ∈ (N.of_nat <$> seq 0 10)) as Hin. { apply list_elem_of_fmap. exists (N.to_nat x). rewrite N2Nat.id, elem_of_seq. lia. }
  cbn in Hin. repeat (apply elem_of_cons in Hin as [->|Hin]; [vm_compute; split; congruence|]). by apply not_elem_of_nil in Hin.
Qed.

Lemma pretty_digits_go x s :
  Forall digit (String.list_ascii_of_string s) -> Forall digit (String.list_ascii_of_string (pretty_N_go x s)).
Proof.
  revert s. induction (N.lt_wf_0 x) as [x _ IH]. intros s Hs. destruct (decide (x = 0)) as [->|Hne]; [done|].
  rewrite pretty_N_go_step by lia. apply IH; [apply N.div_lt; lia|]. simpl. constructor; [|done].
  apply pretty_char_digit. by apply N.mod_lt.
Qed.

Lemma pretty_digits (x : N) : Forall digit (String.list_ascii_of_string (pretty x)).
Proof.
  unfold pretty, pretty_N. case_decide; [|by apply pretty_digits_go]. repeat constructor; vm_compute; congruence.
Qed.

Lemma list_app s s' : String.list_ascii_of_string (s +:+ s') = String.list_ascii_of_string s ++ String.list_ascii_of_string s'.
Proof. induction s as [|c s IH]; simpl; [done|]. by rewrite <-IH. Qed.

Lemma digits_split (a b s t : list ascii) c :
  Forall digit a -> Forall digit b -> ~ digit c -> a ++ c :: s = b ++ c :: t -> a = b /\ s = t.
Proof.
  intros Ha Hb Hc. revert b Hb. induction Ha as [|x a Hx Ha IH]; intros [|y b] Hb Heq; simpl in Heq.
  - by injection Heq as ->.
  - injection Heq as -> _. apply Forall_cons in Hb as [Hy _]. done.
  - injection Heq as -> _. done.
  - injection Heq as -> Heq. apply Forall_cons in Hb as [_ Hb]. by destruct (IH b Hb Heq) as [-> ->].
Qed.

Lemma label_inj `{EnvironmentLaws} i j s t :
  PubkeyFlags.label i (String "_" s) = PubkeyFlags.label j (String "_" t) -> i = j /\ s = t.
Proof.
  unfold PubkeyFlags.label. intros Heq%keccak256_inj%(f_equal String.list_ascii_of_string). rewrite !list_app in Heq.
  apply app_inv_head in Heq. simpl in Heq.
  apply digits_split in Heq as [Hp Hs]; [|apply pretty_digits..|vm_compute; intros []; congruence].
  split; [|by apply KeyFacts.list_ascii_inj]. apply KeyFacts.list_ascii_inj in Hp. by apply (inj pretty).
Qed.

(** The values of a validator that the registry holds, the end of their labels, and the word
    that takes the place of the label. *)
Inductive field := BlsA | BlsB | BlsC | Ed25519 | Ecdsa.

#[global] Instance field_eq_dec : EqDecision field.
Proof. solve_decision. Defined.

Definition suffix (f : field) : string :=
  match f with BlsA => "BLS_A" | BlsB => "BLS_B" | BlsC => "BLS_C" | Ed25519 => "ED25519" | Ecdsa => "ECDSA" end.

Lemma suffix_inj f f' : suffix f = suffix f' -> f = f'.
Proof. by destruct f, f'. Qed.

Section flags.
Context `{KeyLaws} `{EnvironmentLaws}.

Definition field_label (i : nat) (f : field) : N := PubkeyFlags.label (N.of_nat (S i)) (String "_" (suffix f)).

Definition field_word (f : field) (v : ValidatorInfo.t) : outcome unit N :=
  let key := pk_bytes (ValidatorInfo.bls_public_key v) in
  match f with
  | BlsA => Ok (be_word (take 32 key))
  | BlsB => Ok (be_word (take 32 (drop 32 key)))
  | BlsC => Ok (be_word (drop 64 key))
  | Ecdsa => Ok (ValidatorInfo.execution_address v)
  | Ed25519 => b ← expect (ed25519_bytes (ValidatorInfo.primary_network_key v)); PubkeyFlags.word b
  end.

Lemma field_label_inj i j f f' : field_label i f = field_label j f' -> i = j /\ f = f'.
Proof. intros [Hi Hf]%label_inj. split; [lia|by apply suffix_inj]. Qed.

Lemma field_label_eqb i j f f' : (field_label i f =? field_label j f') = bool_decide (i = j /\ f = f').
Proof.
  destruct (N.eqb_spec (field_label i f) (field_label j f')) as [Heq|Hne]; symmetry.
  - apply bool_decide_true. by apply field_label_inj.
  - apply bool_decide_false. intros [-> ->]. done.
Qed.

Definition flag (i : nat) : PubkeyFlags.t :=
  PubkeyFlags.mk (field_label i BlsA) (field_label i BlsB) (field_label i BlsC) (field_label i Ed25519) (field_label i Ecdsa).

Lemma flags_new n : PubkeyFlags.new n = flag <$> seq 0 n.
Proof.
  unfold PubkeyFlags.new. rewrite <-fmap_S_seq, <-!list_fmap_compose. done.
Qed.

Lemma key_word pk a : (a + 32 <= 96)%nat ->
  (b ← slice (pk_bytes pk) a (a + 32); PubkeyFlags.word b) = (Ok (be_word (take 32 (drop a (pk_bytes pk)))) : outcome unit N).
Proof.
  intros Ha. unfold slice. rewrite pk_length. destruct (Nat.leb_spec (a + 32) 96); [|lia]. simpl.
  unfold PubkeyFlags.word. replace (a + 32 - a)%nat with 32%nat by lia.
  rewrite length_take, length_drop, pk_length. destruct (Nat.eqb_spec (32 `min` (96 - a)) 32); [done|lia].
Qed.

(** The label of a validator is replaced by its word; the ones before it are passed. *)
Lemma overwrite_hit i f v k n infos : infos !! i = Some v -> (k <= i < k + n)%nat ->
  PubkeyFlags.overwrite_loop (field_label i f) k (flag <$> seq k n) infos = field_word f v.
Proof.
  intros Hv. revert k. induction n as [|n IH]; intros k Hk; [lia|]. simpl. rewrite !field_label_eqb.
  destruct (decide (i = k)) as [->|Hne].
  - rewrite Hv. destruct f; repeat first [rewrite bool_decide_true by done|rewrite bool_decide_false by naive_solver]; simpl.
    + apply (key_word _ 0). lia.
    + apply (key_word _ 32). lia.
    + pose proof (key_word (ValidatorInfo.bls_public_key v) 64 ltac:(lia)) as Hw. simpl in Hw. rewrite Hw. f_equal. f_equal.
      apply take_ge. rewrite length_drop, pk_length. lia.
    + done.
    + done.
  - rewrite !bool_decide_false by naive_solver. apply IH. lia.
Qed.

Lemma overwrite_miss val k n infos : (forall i f, (k <= i < k + n)%nat -> val <> field_label i f) ->
  PubkeyFlags.overwrite_loop val k (flag <$> seq k n) infos = Ok val.
Proof.
  revert k. induction n as [|n IH]; intros k Hm; [done|]. simpl.
  assert (forall f, (val =? field_label k f) = false) as Hf by (intros f; apply N.eqb_neq, Hm; lia).
  rewrite !Hf. apply IH. intros i f Hi. apply Hm. lia.
Qed.

End flags.
End FlagFacts.

(** * The ceremony *)

Module GenesisFacts.

(** Updating every entry of a map. *)
Lemma update_all_spec {E} (f : N -> outcome E N) l m m' :
  foldM (fun s kv => v ← f kv.2; Ok (<[kv.1 := v]> s)) m l = Ok m' -> NoDup l.*1 ->
  (forall k a, (k, a) ∈ l -> exists v, f a = Ok v /\ m' !! k = Some v) /\
  (forall k, k ∉ l.*1 -> m' !! k = (m : gmap N N) !! k).
Proof.
  revert m. induction l as [|[k0 a0] l IH]; intros m; simpl.
  { intros [= ->] _. split; [set_solver|done]. }
  intros (m1 & (v & Hv & [= <-])%bind_Ok & Hl)%bind_Ok [Hni Hnd]%NoDup_cons. destruct (IH _ Hl Hnd) as [H1 H2]. split.
  - intros k a [[= -> ->]|Hin]%elem_of_cons; [|by apply H1]. exists v. rewrite H2, lookup_insert_eq by done. done.
  - intros k [Hne Hk]%not_elem_of_cons. by rewrite H2, lookup_insert_ne.
Qed.

Lemma update_all_total {E} (f : N -> outcome E N) l (m : gmap N N) :
  (forall kv, kv ∈ l -> exists v, f kv.2 = Ok v) -> exists m', foldM (fun s kv => v ← f kv.2; Ok (<[kv.1 := v]> s)) m l = Ok m'.
Proof.
  revert m. induction l as [|kv l IH]; intros m Hf; [by exists m|]. destruct (Hf kv) as [v Hv]; [set_solver|].
  simpl. rewrite Hv. simpl. apply IH. set_solver.
Qed.

Section registry.
Context `{KeyLaws} `{EnvironmentLaws} `{NetworkKeys}.
Import FlagFacts.

(** Every validator has an ed25519 network key. *)
Definition ed25519_keys (g : NetworkGenesis.t) : Prop :=
  forall k v, NetworkGenesis.validators g !! k = Some v ->
    exists b, ed25519_bytes (ValidatorInfo.primary_network_key v) = Some b /\ length b = 32%nat.

Lemma field_word_total g k v f : ed25519_keys g -> NetworkGenesis.validators g !! k = Some v -> exists w, field_word f v = Ok w.
Proof.
  intros Hg Hv. destruct f; simpl; eauto. destruct (Hg k v Hv) as (b & -> & Hb). simpl. unfold PubkeyFlags.word. rewrite Hb. simpl. eauto.
Qed.

Lemma validator_index g i v : btree_values (NetworkGenesis.validators g) !! i = Some v ->
  (i < size (NetworkGenesis.validators g))%nat /\ exists k, NetworkGenesis.validators g !! k = Some v.
Proof.
  intros Hi. split.
  - apply lookup_lt_Some in Hi. unfold btree_values in Hi. by rewrite length_fmap, length_btree_iter in Hi.
  - apply list_elem_of_lookup_2 in Hi. by apply elem_of_btree_values in Hi.
Qed.

Lemma overwrite_cases g val : ed25519_keys g -> exists w,
  PubkeyFlags.overwrite_if_flag val (PubkeyFlags.new (size (NetworkGenesis.validators g))) (btree_values (NetworkGenesis.validators g)) = Ok w /\
  (forall i f v, btree_values (NetworkGenesis.validators g) !! i = Some v -> val = field_label i f -> field_word f v = Ok w) /\
  ((forall i f, (i < size (NetworkGenesis.validators g))%nat -> val <> field_label i f) -> w = val).
Proof.
  intros Hg. set (infos := btree_values _). set (n := size _). unfold PubkeyFlags.overwrite_if_flag. rewrite flags_new.
  destruct (decide (Exists (fun i => Exists (fun f => val = field_label i f) [BlsA; BlsB; BlsC; Ed25519; Ecdsa]) (seq 0 n))) as [He|Hne].
  - apply Exists_exists in He as (i & Hi%elem_of_seq & (f & _ & ->)%Exists_exists).
    destruct (lookup_lt_is_Some_2 infos i) as [v Hv].
    { unfold infos, btree_values. rewrite length_fmap, length_btree_iter. lia. }
    pose proof (validator_index g i v Hv) as [_ [k Hk]]. destruct (field_word_total g k v f Hg Hk) as [w Hw].
    exists w. rewrite (overwrite_hit i f v 0 n infos Hv) by lia. split_and!; [done| |].
    + intros j f' v' Hv' [-> ->]%field_label_inj. congruence.
    + intros Hm. exfalso. by eapply (Hm i f); [lia|].
  - exists val. assert (forall i f, (i < n)%nat -> val <> field_label i f) as Hm.
    { intros i f Hi ->. apply Hne, Exists_exists. exists i. rewrite elem_of_seq. split; [lia|].
      apply Exists_exists. exists f. split; [destruct f; set_solver|done]. }
    split_and!; [apply overwrite_miss; intros; apply Hm; lia| |done].
    intros i f v Hv ->. exfalso. destruct (validator_index g i v Hv) as [Hi _]. by eapply (Hm i f).
Qed.

Lemma storage_overwritten g cfg : ed25519_keys g -> exists storage,
  NetworkGenesis.overwrite_storage g cfg = Ok storage /\ dom storage = dom cfg /\
  forall slot val, cfg !! slot = Some val -> exists w, storage !! slot = Some w /\
    (forall i f v, btree_values (NetworkGenesis.validators g) !! i = Some v -> val = field_label i f -> field_word f v = Ok w) /\
    ((forall i f, (i < size (NetworkGenesis.validators g))%nat -> val <> field_label i f) -> w = val).
Proof.
  intros Hg. unfold NetworkGenesis.overwrite_storage.
  set (over := fun val => PubkeyFlags.overwrite_if_flag val (PubkeyFlags.new (size (NetworkGenesis.validators g))) (btree_values (NetworkGenesis.validators g))).
  destruct (update_all_total over (btree_iter cfg) cfg) as [storage Hs].
  { intros kv _. destruct (overwrite_cases g kv.2 Hg) as (w & Hw & _). by exists w. }
  exists storage. split; [exact Hs|]. destruct (update_all_spec over _ _ _ Hs) as [Hin Hout]; [apply btree_keys_NoDup|]. split.
  - apply set_eq. intros k. rewrite !elem_of_dom. destruct (cfg !! k) as [a|] eqn:Hk.
    + apply elem_of_btree_iter in Hk. destruct (Hin k a Hk) as (v & _ & ->). split; by eexists.
    + rewrite Hout, Hk; [done|]. change (k ∉ btree_keys cfg). rewrite elem_of_btree_keys, Hk. by intros [].
  - intros slot val Hv. apply elem_of_btree_iter in Hv. destruct (Hin slot val Hv) as (w & Hw & Hst).
    destruct (overwrite_cases g val Hg) as (w' & Hw' & Hcase). unfold over in Hw. rewrite Hw' in Hw. injection Hw as ->. by exists w.
Qed.

End registry.

Section files.
Context `{KeyOps} `{EnvironmentLaws} `{NetworkKeys}.
Import NetworkGenesis.

(** The files of the directory are the ones of these validators. *)
Record holds (dir : gmap string string) (vs : gmap BlsPublicKey ValidatorInfo.t) : Prop := {
  holds_files name text : dir !! name = Some text ->
    exists v, from_text text = Some v /\ name = file_name (ValidatorInfo.bls_public_key v);
  holds_validators k v : vs !! k = Some v <->
    ValidatorInfo.bls_public_key v = k /\ exists text, dir !! file_name k = Some text /\ from_text text = Some v;
}.

Lemma file_name_inj k k' : file_name k = file_name k' -> k = k'.
Proof.
  intros Heq%(f_equal String.list_ascii_of_string). unfold file_name in Heq. rewrite !FlagFacts.list_app in Heq.
  apply app_inv_tail, KeyFacts.list_ascii_inj in Heq. by apply hash_name_inj.
Qed.

Lemma file_name_visible k : hidden (file_name k) = false.
Proof. unfold file_name. destruct (hash_name_digit k) as [s ->]. done. Qed.

Lemma holds_empty : holds ∅ ∅.
Proof. constructor; [by intros ? ? []%lookup_empty_Some|]. intros k v. rewrite lookup_empty. split; [done|]. by intros (_ & text & []%lookup_empty_Some & _). Qed.

Lemma load_entries_Ok acc entries :
  (forall e, e ∈ entries -> exists v, from_text e.2 = Some v /\ e.1 = file_name (ValidatorInfo.bls_public_key v)) ->
  exists l, foldM (fun acc e => if hidden e.1 then Ok acc else
      v ← ok_or (from_text e.2) (); Ok (acc ++ [(ValidatorInfo.bls_public_key v, v)])) acc entries = (Ok (acc ++ l) : outcome unit _) /\
    entries.*1 = file_name <$> l.*1 /\
    forall k v, (k, v) ∈ l <-> ValidatorInfo.bls_public_key v = k /\ exists e, e ∈ entries /\ e.1 = file_name k /\ from_text e.2 = Some v.
Proof.
  revert acc. induction entries as [|e entries IH]; intros acc He.
  { exists []. rewrite app_nil_r. split_and!; [done..|]. intros k v. split; [by intros []%not_elem_of_nil|]. intros (_ & e & Hin & _). by apply not_elem_of_nil in Hin. }
  destruct (He e) as (v & Hv & Hn); [set_solver|]. cbn [foldM]. rewrite Hn, file_name_visible, Hv. cbn [ok_or mbind outcome_bind].
  destruct (IH (acc ++ [(ValidatorInfo.bls_public_key v, v)])) as (l & Hl & Hnames & Hiff); [set_solver|].
  exists ((ValidatorInfo.bls_public_key v, v) :: l). rewrite Hl, <-app_assoc. simpl. split_and!; [done|f_equal; [exact Hn|exact Hnames]|].
  intros k w. rewrite elem_of_cons, Hiff. split.
  - intros [[= -> ->]|(Hk & e' & Hin & Hrest)]; [split; [done|]; exists e; set_solver|]. split; [done|]. exists e'. set_solver.
  - intros (Hk & e' & [->|Hin]%elem_of_cons & Hn' & Hv'); [left; congruence|]. right. split; [done|]. by exists e'.
Qed.

Lemma load_holds dir vs : holds dir vs -> exists l, load_entries (read_dir dir) = Ok l /\ collect_map l = vs.
Proof.
  intros [Hf Hvs]. destruct (load_entries_Ok [] (read_dir dir)) as (l & Hl & Hnames & Hiff).
  { intros [name text] Hin. rewrite read_dir_perm, elem_of_map_to_list in Hin. by apply Hf. }
  exists l. split; [exact Hl|]. assert (NoDup l.*1) as Hnd.
  { apply (NoDup_fmap_1 file_name). rewrite <-Hnames. rewrite read_dir_perm. apply NoDup_fst_map_to_list. }
  apply map_eq. intros k. apply option_eq. intros v. rewrite collect_map_lookup, Hiff, Hvs by done.
  split; (intros [Hk Hex]; split; [done|]).
  - destruct Hex as ([name text] & Hin & Hn & Hv). rewrite read_dir_perm, elem_of_map_to_list in Hin. simpl in *. subst name. by exists text.
  - destruct Hex as (text & Hin & Hv). exists (file_name k, text). by rewrite read_dir_perm, elem_of_map_to_list.
Qed.

(** Writing validators under their keys. *)
Lemma write_holds l dir vs : holds dir vs ->
  (forall k v, (k, v) ∈ l -> ValidatorInfo.bls_public_key v = k /\ is_Some (to_text v)) ->
  exists dir', foldM (fun files kv => text ← ok_or (to_text kv.2) (); Ok (<[file_name kv.1 := text]> files)) dir l = (Ok dir' : outcome unit _) /\
    holds dir' (foldl (fun m kv => <[kv.1 := kv.2]> m) vs l).
Proof.
  revert dir vs. induction l as [|[k v] l IH]; intros dir vs Hh Hl; [by exists dir|]. simpl.
  destruct (Hl k v) as [Hk [text Ht]]; [set_solver|]. rewrite Ht. simpl. apply IH; [|set_solver]. pose proof (validator_roundtrip v text Ht) as Hr.
  destruct Hh as [Hf Hvs]. constructor.
  - intros name t [[<- <-]|[_ Hin]]%lookup_insert_Some; [|by apply Hf]. exists v. by rewrite Hk.
  - intros k' v'. destruct (decide (k' = k)) as [->|Hne].
    + rewrite !lookup_insert_eq. naive_solver.
    + rewrite !lookup_insert_ne by (intros ?; by apply Hne; try apply file_name_inj). apply Hvs.
Qed.

Lemma insert_all (l : list (BlsPublicKey * ValidatorInfo.t)) (m : gmap BlsPublicKey ValidatorInfo.t) : NoDup l.*1 ->
  foldl (fun m kv => <[kv.1 := kv.2]> m) m l = list_to_map l ∪ m.
Proof.
  revert m. induction l as [|[k v] l IH]; intros m Hnd; [simpl; by rewrite (left_id_L ∅ (∪))|]. apply NoDup_cons in Hnd as [Hk Hnd].
  simpl. rewrite IH by done. rewrite <-insert_union_l, <-insert_union_r; [done|]. by apply not_elem_of_list_to_map_1.
Qed.

Lemma insert_validators (vs m : gmap BlsPublicKey ValidatorInfo.t) :
  foldl (fun m kv => <[kv.1 := kv.2]> m) m (btree_iter vs) = vs ∪ m.
Proof.
  rewrite insert_all by apply btree_keys_NoDup. f_equal. rewrite <-(list_to_map_to_list vs) at 2.
  apply list_to_map_proper; [apply btree_keys_NoDup|apply btree_iter_perm].
Qed.

(** A data directory with these validators, which can be written. *)
Definition has_validators (d : DataDir) (vs : gmap BlsPublicKey ValidatorInfo.t) : Prop :=
  genesis_dir d = true /\ map_Forall (fun _ v => is_Some (to_text v)) vs /\ exists dir, validators_dir d = Some dir /\ holds dir vs.

Lemma holds_keyed dir vs k v : holds dir vs -> vs !! k = Some v -> ValidatorInfo.bls_public_key v = k.
Proof. intros [_ Hvs] [Hk _]%Hvs. done. Qed.

Lemma load_spec d vs text c : has_validators d vs -> node_config d = Some text -> from_text text = Some c ->
  NetworkGenesis.load_from_path d = Ok (NetworkGenesis.mk (Config.genesis c) vs, d).
Proof.
  intros (Hg & _ & dir & Hd & Hh) Hc Ht. destruct (load_holds dir vs Hh) as (l & Hl & Hm).
  unfold NetworkGenesis.load_from_path. rewrite Hg, Hd. simpl. rewrite Hl. simpl. unfold ConfigTrait.load_from_path. rewrite Hc. simpl.
  rewrite Ht. simpl. rewrite Hm. destruct d; simpl in *; subst. done.
Qed.

Lemma write_spec g d dir vs : validators_dir d = Some dir -> holds dir vs ->
  (forall k v, validators g !! k = Some v -> ValidatorInfo.bls_public_key v = k /\ is_Some (to_text v)) ->
  exists d' dir', write_to_path g d = Ok d' /\ genesis_dir d' = true /\ validators_dir d' = Some dir' /\ holds dir' (validators g ∪ vs).
Proof.
  intros Hd Hh Hk. destruct (write_holds (btree_iter (validators g)) dir vs Hh) as (dir' & Hw & Hh').
  { intros k v Hin%elem_of_btree_iter. by apply Hk. }
  rewrite insert_validators in Hh'. exists (set_validators d dir'), dir'. unfold write_to_path. rewrite Hd. simpl.
  by rewrite Hw.
Qed.

(** [add-validator] adds the information of the node, under its key. *)
Lemma add_validator_spec d vs text c : has_validators d vs -> node_config d = Some text -> from_text text = Some c ->
  let v := Config.validator_info c in is_Some (to_text v) ->
  exists d', Ceremony.add_validator d = Ok d' /\ has_validators d' (<[ValidatorInfo.bls_public_key v := v]> vs).
Proof.
  intros Hv Hc Ht v Hvt. unfold Ceremony.add_validator, ConfigTrait.load_from_path. rewrite Hc. simpl. rewrite Ht. simpl.
  replace (set_config d (Some text)) with d by (destruct d; simpl in *; by subst).
  rewrite (load_spec d vs text c Hv Hc Ht). simpl. destruct Hv as (Hg & Hw & dir & Hd & Hh).
  assert (map_Forall (fun _ v => is_Some (to_text v)) (<[ValidatorInfo.bls_public_key v := v]> vs)) as Hw' by by apply map_Forall_insert_2.
  destruct (write_spec (add_validator (mk (Config.genesis c) vs) v) d dir vs Hd Hh) as (d' & dir' & Hwr & Hg' & Hd' & Hh').
  { simpl. intros k w Hk. split; [|by apply (Hw' k)]. apply lookup_insert_Some in Hk as [[<- <-]|[_ Hin]]; [done|]. by eapply holds_keyed. }
  exists d'. split; [exact Hwr|]. split; [done|]. split; [done|]. exists dir'. split; [done|]. simpl in Hh'. unfold ValidatorInfo.public_key in Hh'.
  by rewrite <-insert_union_l, (map_subseteq_union vs vs) in Hh'.
Qed.

(** Every participant adds itself, in some order, each with its own configuration. *)
Definition add_all (d : DataDir) (configs : list Config.t) : outcome unit DataDir :=
  foldM (fun d c => file ← ConfigTrait.store_path c; Ceremony.add_validator (set_config d file)) d configs.

Definition with_participants (vs : gmap BlsPublicKey ValidatorInfo.t) (configs : list Config.t) : gmap BlsPublicKey ValidatorInfo.t :=
  foldl (fun vs c => let v := Config.validator_info c in <[ValidatorInfo.bls_public_key v := v]> vs) vs configs.

Lemma add_all_spec d vs configs : has_validators d vs -> (forall c, c ∈ configs -> is_Some (to_text c) /\ is_Some (to_text (Config.validator_info c))) ->
  exists d', add_all d configs = Ok d' /\ has_validators d' (with_participants vs configs).
Proof.
  revert d vs. induction configs as [|c configs IH]; intros d vs Hv Hc; [by exists d|].
  destruct (Hc c) as [[text Ht] Hvt]; [set_solver|]. unfold add_all. cbn [foldM]. unfold ConfigTrait.store_path at 2. rewrite Ht. cbn [ok_or mbind outcome_bind].
  destruct (add_validator_spec (set_config d (Some text)) vs text c) as (d' & Ha & Hv'); [done|done|by apply config_roundtrip|done|].
  rewrite Ha. cbn [mbind outcome_bind]. apply IH; [done|set_solver].
Qed.

End files.

Section committee.
Context `{KeyOps} `{EnvironmentLaws} `{NetworkKeys} `{Crypto}.

(** The authority of a validator: everyone has one vote. *)
Definition authority_of (k : BlsPublicKey) (v : ValidatorInfo.t) : Authority.t :=
  Authority.mk k 1 (ValidatorInfo.primary_network_address v) (ValidatorInfo.execution_address v)
    (ValidatorInfo.primary_network_key v) "hostname".

Definition authorities_of (vs : gmap BlsPublicKey ValidatorInfo.t) : gmap BlsPublicKey Authority.t :=
  map_imap (fun k v => Some (authority_of k v)) vs.

Lemma authorities_lookup vs k : authorities_of vs !! k = authority_of k <$> vs !! k.
Proof. unfold authorities_of. rewrite map_lookup_imap. by destruct (vs !! k). Qed.

Lemma builder_authorities l b : NoDup l.*1 ->
  CommitteeBuilder.epoch (foldl (fun b kv => CommitteeBuilder.add_authority b kv.1 1 (ValidatorInfo.primary_network_address kv.2)
    (ValidatorInfo.execution_address kv.2) (ValidatorInfo.primary_network_key kv.2) "hostname") b l) = CommitteeBuilder.epoch b /\
  forall k, CommitteeBuilder.authorities (foldl (fun b kv => CommitteeBuilder.add_authority b kv.1 1 (ValidatorInfo.primary_network_address kv.2)
    (ValidatorInfo.execution_address kv.2) (ValidatorInfo.primary_network_key kv.2) "hostname") b l) !! k =
  match (list_to_map l : gmap N ValidatorInfo.t) !! k with Some v => Some (authority_of k v) | None => CommitteeBuilder.authorities b !! k end.
Proof.
  revert b. induction l as [|[k0 v0] l IH]; intros b Hnd; [done|]. apply NoDup_cons in Hnd as [Hk0 Hnd]. simpl.
  destruct (IH (CommitteeBuilder.add_authority b k0 1 (ValidatorInfo.primary_network_address v0)
    (ValidatorInfo.execution_address v0) (ValidatorInfo.primary_network_key v0) "hostname") Hnd) as [He Ha].
  split; [exact He|]. intros k. rewrite Ha. simpl. destruct (decide (k = k0)) as [->|Hne].
  - rewrite lookup_insert_eq, (not_elem_of_list_to_map_1 l) by done. by rewrite lookup_insert_eq.
  - by rewrite !lookup_insert_ne.
Qed.

Lemma create_committee_new g : NetworkGenesis.create_committee g = Committee.new (authorities_of (NetworkGenesis.validators g)) 0.
Proof.
  unfold NetworkGenesis.create_committee, CommitteeBuilder.build.
  destruct (builder_authorities (btree_iter (NetworkGenesis.validators g)) (CommitteeBuilder.new 0)) as [He Ha]; [apply btree_keys_NoDup|].
  rewrite He. simpl. f_equal. apply map_eq. intros k. rewrite Ha, authorities_lookup. simpl.
  assert ((list_to_map (btree_iter (NetworkGenesis.validators g)) : gmap N ValidatorInfo.t) = NetworkGenesis.validators g) as ->.
  { rewrite <-(list_to_map_to_list (NetworkGenesis.validators g)) at 2. apply list_to_map_proper; [apply btree_keys_NoDup|apply btree_iter_perm]. }
  by destruct (NetworkGenesis.validators g !! k).
Qed.

Lemma size_authorities vs : size (authorities_of vs) = size vs.
Proof.
  rewrite <-!size_dom. f_equal. apply set_eq. intros k. rewrite !elem_of_dom, authorities_lookup. by rewrite fmap_is_Some.
Qed.

Lemma sum_ones {A} (f : A -> N) l : (forall a, a ∈ l -> f a = 1) -> sumN (f <$> l) = N.of_nat (length l).
Proof.
  induction l as [|a l IH]; intros Hf; [done|].
  change (f a + sumN (f <$> l) = N.of_nat (S (length l))). rewrite Hf, IH by set_solver. lia.
Qed.

Lemma stake_authorities vs : Committee.stake (authorities_of vs) = N.of_nat (size vs).
Proof.
  unfold Committee.stake. rewrite sum_ones.
  - unfold btree_values. by rewrite length_fmap, length_btree_iter, size_authorities.
  - intros a (k & Hk)%elem_of_btree_values. rewrite authorities_lookup in Hk. by apply fmap_Some in Hk as (v & _ & ->).
Qed.

Lemma new_load {E} auths e c : @Committee.new _ E auths e = Ok c -> @Committee.load _ E (Committee.mk auths ∅ e 0 0) = Ok c.
Proof.
  unfold Committee.new. intros (c' & Hl & Hc)%bind_Ok. rewrite Hl. f_equal.
  repeat (apply bind_Ok in Hc as (? & _ & Hc)). by injection Hc.
Qed.

(** The workers of all validators. *)
Definition worker_count (vs : gmap BlsPublicKey ValidatorInfo.t) : nat :=
  length (flat_map (fun v => btree_values (PrimaryInfo.worker_index (ValidatorInfo.primary_info v))) (btree_values vs)).

Lemma worker_cache_lookup g k : WorkerCache.workers (NetworkGenesis.create_worker_cache g) !! k =
  (fun v => PrimaryInfo.worker_index (ValidatorInfo.primary_info v)) <$> NetworkGenesis.validators g !! k.
Proof.
  unfold NetworkGenesis.create_worker_cache. simpl. apply option_eq. intros w. rewrite collect_map_lookup.
  - rewrite list_elem_of_fmap, fmap_Some. split.
    + intros ([k' v] & [= -> ->] & Hin%elem_of_btree_iter). by exists v.
    + intros (v & Hv & ->). exists (k, v). by rewrite elem_of_btree_iter.
  - rewrite <-list_fmap_compose. apply btree_keys_NoDup.
Qed.

Lemma length_flat_map_fmap {A B C} (f : A -> list B) (g : A -> list C) l :
  (forall a, length (f a) = length (g a)) -> length (flat_map f l) = length (flat_map g l).
Proof. intros Hf. induction l as [|a l IH]; [done|]. simpl. by rewrite !length_app, Hf, IH. Qed.

Lemma flat_map_values {A B} (f : A -> B) {C} (g : B -> list C) l : flat_map g (f <$> l) = flat_map (fun a => g (f a)) l.
Proof. induction l as [|a l IH]; [done|]. cbn. by rewrite IH. Qed.

Lemma btree_values_fmap {A B} (f : A -> B) (m : gmap N A) : btree_values (f <$> m) = f <$> btree_values m.
Proof.
  unfold btree_values. rewrite <-!list_fmap_compose.
  assert (btree_iter (f <$> m) = (fun kv => (kv.1, f kv.2)) <$> btree_iter m) as ->; [|by rewrite <-list_fmap_compose].
  apply sorted_keys_unique; [apply btree_keys_sorted| |].
  - rewrite <-list_fmap_compose. apply btree_keys_sorted.
  - rewrite !btree_iter_perm. by rewrite map_to_list_fmap.
Qed.

(** The worker cache has the workers of the validators. *)
Lemma worker_cache_count g :
  length (WorkerCache.all_workers (NetworkGenesis.create_worker_cache g)) = worker_count (NetworkGenesis.validators g).
Proof.
  assert (WorkerCache.workers (NetworkGenesis.create_worker_cache g) =
    (fun v => PrimaryInfo.worker_index (ValidatorInfo.primary_info v)) <$> NetworkGenesis.validators g) as Hw.
  { apply map_eq. intros k. by rewrite worker_cache_lookup, lookup_fmap. }
  unfold WorkerCache.all_workers, worker_count. rewrite Hw, btree_values_fmap, flat_map_values.
  apply length_flat_map_fmap. intros v. by rewrite length_fmap.
Qed.

(** A proof of possession is right for the key and the genesis. *)
Definition proven (chain : Genesis) (k : BlsPublicKey) (v : ValidatorInfo.t) : Prop :=
  verify_proof_of_possession_bls (ValidatorInfo.proof_of_possession v) k (genesis_bytes chain) = Ok ().

Lemma verify_result proof k g : verify_proof_of_possession_bls proof k g = Ok () \/ verify_proof_of_possession_bls proof k g = Err ().
Proof. unfold verify_proof_of_possession_bls. repeat case_match; auto. Qed.

Lemma validate_result g :
  (map_Forall (proven (NetworkGenesis.chain g)) (NetworkGenesis.validators g) /\ NetworkGenesis.validate g = Ok ()) \/
  ((exists k v, NetworkGenesis.validators g !! k = Some v /\ ~ proven (NetworkGenesis.chain g) k v) /\ NetworkGenesis.validate g = Err ()).
Proof.
  unfold NetworkGenesis.validate, map_Forall. setoid_rewrite <-(elem_of_btree_iter (NetworkGenesis.validators g)).
  induction (btree_iter (NetworkGenesis.validators g)) as [|[k v] l IH]; simpl.
  { left. split; [|done]. intros ?? []%not_elem_of_nil. }
  destruct (verify_result (ValidatorInfo.proof_of_possession v) k (genesis_bytes (NetworkGenesis.chain g))) as [Hv|Hv]; rewrite Hv; simpl.
  - destruct IH as [[Hall Hok]|[(k' & v' & Hin & Hno) Herr]].
    + left. split; [|done]. intros k' v' [[= -> ->]|Hin]%elem_of_cons; [exact Hv|by apply Hall].
    + right. split; [|done]. exists k', v'. split; [set_solver|done].
  - right. split; [|done]. exists k, v. split; [set_solver|]. unfold proven. by rewrite Hv.
Qed.

Lemma store_Ok {T} `{Format T} set (cfg : T) d d' :
  Ceremony.store set cfg d = (d', Ok ()) -> exists text, to_text cfg = Some text /\ d' = set d (Some text).
Proof.
  unfold Ceremony.store, ConfigTrait.store_path. destruct (to_text cfg) as [text|]; [|done]. intros [= <-]. by exists text.
Qed.

Lemma bind_run {S E A B} (m : action S E A) (k : A -> action S E B) s s' a : m s = (s', Ok a) -> (m ≫= k) s = k a s'.
Proof. intros Hm. unfold mbind, action_bind. by rewrite Hm. Qed.

Lemma lift_Ok {E A} (o : outcome E A) (d d' : DataDir) a : lift o d = (d', Ok a) -> o = Ok a /\ d' = d.
Proof. by intros [= <- ->]. Qed.

Lemma load_genesis_spec d vs text c : has_validators d vs -> node_config d = Some text -> from_text text = Some c ->
  Ceremony.load_genesis d = (d, Ok (NetworkGenesis.mk (Config.genesis c) vs)).
Proof. intros Hv Hc Ht. unfold Ceremony.load_genesis. by rewrite (load_spec d vs text c Hv Hc Ht). Qed.

(** What the files of the committee hold when the command succeeds. *)
Lemma create_committee_files registry impl code proxy d d' vs text c :
  has_validators d vs -> node_config d = Some text -> from_text text = Some c ->
  Ceremony.create_committee registry impl code proxy d = (d', Ok ()) ->
  map_Forall (proven (Config.genesis c)) vs /\
  exists committee chain ctext wtext, Committee.new (E := unit) (authorities_of vs) 0 = Ok committee /\
    to_text committee = Some ctext /\ committee_file d' = Some ctext /\
    to_text (NetworkGenesis.create_worker_cache (NetworkGenesis.mk chain vs)) = Some wtext /\ worker_cache_file d' = Some wtext.
Proof.
  intros Hv Hc Ht Hex. unfold Ceremony.create_committee in Hex.
  apply action_bind_Ok in Hex as (d0 & g0 & Hl & Hex). rewrite (load_genesis_spec d vs text c Hv Hc Ht) in Hl. injection Hl as <- <-.
  apply action_bind_Ok in Hex as (d1 & [] & [Hval ->]%lift_Ok & Hex). apply action_bind_Ok in Hex as (d2 & g & [Hg ->]%lift_Ok & Hex).
  apply action_bind_Ok in Hex as (d3 & cfg & _ & Hex). apply action_bind_Ok in Hex as (d4 & [] & _ & Hex). apply action_bind_Ok in Hex as (d5 & [] & _ & Hex).
  apply action_bind_Ok in Hex as (d6 & committee & [Hcom ->]%lift_Ok & Hex).
  apply action_bind_Ok in Hex as (d7 & [] & (ctext & Hct & ->)%store_Ok & (wtext & Hwt & ->)%store_Ok).
  unfold NetworkGenesis.construct_registry_genesis_accounts in Hg. apply bind_Ok in Hg as (st & _ & Hg). apply bind_Ok in Hg as (st' & _ & Hg).
  injection Hg as <-. rewrite create_committee_new in Hcom. simpl in Hcom, Hwt. split; [|by eexists committee, _, ctext, wtext].
  destruct (validate_result (NetworkGenesis.mk (Config.genesis c) vs)) as [[Hall _]|[_ Herr]]; [exact Hall|congruence].
Qed.

End committee.
End GenesisFacts.

(** * Properties *)

Section properties.
Context `{KeyLaws} `{EnvironmentLaws} `{NetworkKeys} `{Crypto}.
Import GenesisFacts FlagFacts.

(** The keys that [keytool generate] makes are the ones the node uses.  Reading the key
    directory gives the same three key pairs; the configuration file holds the public keys, and a
    proof of possession that verifies for the genesis of the command. *)
Theorem generated_keys_usable random address chain d keys k d' keys' :
  Ceremony.generate_keys random address chain d keys = Ok (k, d', keys') ->
  KeyConfig.read_config keys' = Ok k /\
  exists text c, node_config d' = Some text /\ from_text text = Some c /\
    let v := Config.validator_info c in
    ValidatorInfo.bls_public_key v = KeyConfig.primary_public_key k /\
    ValidatorInfo.primary_network_key v = KeyConfig.primary_network_public_key k /\
    ValidatorInfo.execution_address v = address /\
    map_Forall (fun _ w => WorkerInfo.name w = KeyConfig.worker_network_public_key k)
      (PrimaryInfo.worker_index (ValidatorInfo.primary_info v)) /\
    proven chain (ValidatorInfo.bls_public_key v) v.
Proof.
  unfold Ceremony.generate_keys, Ceremony.validator_keys.
  intros (? & ([k2 kd] & Hgen & [= <-])%bind_Ok & (file & Hfile & [= <- <- <-])%bind_Ok)%bind_Ok. simpl in *.
  split; [by eapply KeyFacts.key_config_roundtrip|].
  unfold ConfigTrait.store_path in Hfile. apply bind_Ok in Hfile as (text & Htext%ok_or_Ok & [= <-]).
  exists text. eexists. split; [done|]. split; [by apply config_roundtrip|]. simpl. split_and!; [done..| |apply KeyFacts.proof_verifies].
  intros i w. rewrite lookup_fmap, fmap_Some. by intros (w' & _ & ->).
Qed.

(** The validators directory collects the participants.  When each of them adds itself with
    [add-validator], in any order and whatever order the directory is read in, loading the
    genesis gives exactly the validators of before and the participants, the last one for a key. *)
Theorem ceremony_collects d vs configs :
  has_validators d vs ->
  (forall c, c ∈ configs -> is_Some (to_text c) /\ is_Some (to_text (Config.validator_info c))) ->
  exists d', add_all d configs = Ok d' /\
    forall text c, node_config d' = Some text -> from_text text = Some c ->
      NetworkGenesis.load_from_path d' = Ok (NetworkGenesis.mk (Config.genesis c) (with_participants vs configs), d').
Proof.
  intros Hv Hc. destruct (add_all_spec d vs configs Hv Hc) as (d' & Ha & Hv'). exists d'. split; [done|].
  intros text c. by apply load_spec.
Qed.

(** C19: The node of every validator starts from the files of [create-committee]: when the
    command succeeds (for fewer than 2^63 validators), the committee they hold is
    well-formed, with one vote and the network key of every validator, in epoch 0.  When
    the validators have as many workers as they are, [ConsensusConfig::new] does not panic
    and gives every validator that committee and the identifier of its own network key; it
    panics for a key that is not a validator's.  The command does not check the number of
    workers: with any other number of them every node panics when it starts. *)
Theorem create_committee_starts registry impl code proxy d d' vs text (c : Config.t) :
  has_validators d vs -> node_config d = Some text -> from_text text = Some c ->
  N.of_nat (size vs) < 2 ^ 63 ->
  Ceremony.create_committee registry impl code proxy d = (d', Ok ()) ->
  exists committee, Committee.wf committee /\ Committee.epoch committee = 0 /\
    Committee.quorum_threshold committee = 2 * N.of_nat (size vs) / 3 + 1 /\
    (forall k, Committee.authority_by_key committee k = authority_of k <$> vs !! k) /\
    forall config keys,
      if (worker_count vs =? size vs)%nat then
        match vs !! KeyConfig.primary_public_key keys with
        | Some v => exists cc, NodeConfig.new config d' keys = Ok cc /\ ConsensusConfig.committee cc = committee /\
            ConsensusConfig.authority_id cc = to_peer_id (ValidatorInfo.primary_network_key v) /\
            NodeConfig.in_committee cc (ConsensusConfig.authority_id cc) = true
        | None => NodeConfig.new config d' keys = Panic
        end
      else NodeConfig.new config d' keys = Panic.
Proof.
  intros Hv Hc Ht Hsz Hex.
  destruct (create_committee_files _ _ _ _ _ _ _ _ _ Hv Hc Ht Hex) as (_ & committee & chain & ctext & wtext & Hnew & Hct & Hcf & Hwt & Hwf).
  destruct (CommitteeFacts.new_wf (E := unit) (authorities_of vs) 0 committee) as (Hcwf & Hauth & Hep); [by rewrite stake_authorities|done|].
  exists committee. split; [done|]. split; [done|]. split.
  { rewrite (Committee.wf_quorum _ Hcwf), Hauth, stake_authorities. done. }
  assert (forall k, Committee.authority_by_key committee k = authority_of k <$> vs !! k) as Hk.
  { intros k. unfold Committee.authority_by_key. by rewrite Hauth, authorities_lookup. }
  split; [done|]. intros config keys.
  assert (NodeConfig.new config d' keys = if (worker_count vs =? size vs)%nat then
    NodeConfig.new_with_committee config keys committee (NetworkGenesis.create_worker_cache (NetworkGenesis.mk chain vs)) else Panic) as ->.
  { unfold NodeConfig.new, ConfigTrait.load_from_path. rewrite Hcf, Hwf. cbn [ok_or mbind outcome_bind fst snd].
    rewrite (committee_roundtrip committee ctext Hct), (worker_cache_roundtrip _ wtext Hwt). cbn [ok_or mbind outcome_bind fst snd].
    rewrite Hauth, Hep, (new_load _ _ _ Hnew). cbn [ok_or mbind outcome_bind fst snd].
    rewrite worker_cache_count. unfold Committee.size. cbn [NetworkGenesis.validators]. rewrite Hauth, size_authorities.
    destruct (Nat.eqb_spec (worker_count vs) (size vs)) as [->|Hne]; [by rewrite N.eqb_refl|].
    by destruct (N.eqb_spec (N.of_nat (worker_count vs)) (N.of_nat (size vs))) as [?%Nat2N.inj|]. }
  destruct (_ =? _)%nat; [|done].
  unfold NodeConfig.new_with_committee. rewrite Hk. destruct (vs !! KeyConfig.primary_public_key keys) as [v|] eqn:Hkey; simpl; [|done].
  eexists. split; [done|]. split; [done|]. split; [done|]. unfold NodeConfig.in_committee, Committee.is_authority. simpl.
  apply bool_decide_true. exists (authority_of (KeyConfig.primary_public_key keys) v). apply Hcwf. split; [done|].
  exists (KeyConfig.primary_public_key keys). unfold Committee.authority_by_key in Hk. by rewrite Hk, Hkey.
Qed.

(** C36: A validator without a proof of possession for the genesis stops the ceremony:
    [validate] and [create-committee] return an error, leave every file of the data
    directory as it is, and do not panic; with a proof for every validator, [validate]
    succeeds, and it writes nothing either.  The configuration of the node and the files of
    the validators are there and can be read. *)
Theorem unproven_validator_refused registry impl code proxy d vs text (c : Config.t) :
  has_validators d vs -> node_config d = Some text -> from_text text = Some c ->
  ((exists k v, vs !! k = Some v /\ ~ proven (Config.genesis c) k v) ->
     Ceremony.validate d = (d, Err ()) /\ Ceremony.create_committee registry impl code proxy d = (d, Err ())) /\
  (map_Forall (proven (Config.genesis c)) vs -> Ceremony.validate d = (d, Ok ())).
Proof.
  intros Hv Hc Ht. unfold Ceremony.validate, Ceremony.create_committee.
  rewrite !(bind_run _ _ _ _ _ (load_genesis_spec d vs text c Hv Hc Ht)).
  destruct (validate_result (NetworkGenesis.mk (Config.genesis c) vs)) as [[Hall Hok]|[(k & v & Hkv & Hno) Herr]]; cbn [NetworkGenesis.chain NetworkGenesis.validators] in *; split.
  - intros (k & v & Hkv & Hno). by destruct (Hno (Hall k v Hkv)).
  - intros _. unfold lift. by rewrite Hok.
  - intros _. unfold lift at 1 2. unfold mbind, action_bind. by rewrite Herr.
  - intros Hall. by destruct (Hno (Hall k v Hkv)).
Qed.

(** The storage of the registry contract gets the keys of the validators.  In the order of
    their BLS keys, a slot with the label of a field of the i-th validator
    gets that field: a third of its BLS key, its network key or its execution
    address.  A slot with any other value keeps it, and no slot is added. *)
Theorem registry_gets_validators g cfg :
  ed25519_keys g ->
  exists storage, NetworkGenesis.overwrite_storage g cfg = Ok storage /\ dom storage = dom cfg /\
  forall slot val, cfg !! slot = Some val -> exists w, storage !! slot = Some w /\
    (forall i f v, btree_values (NetworkGenesis.validators g) !! i = Some v -> val = field_label i f -> field_word f v = Ok w) /\
    ((forall i f, (i < size (NetworkGenesis.validators g))%nat -> val <> field_label i f) -> w = val).
Proof. apply storage_overwritten. Qed.

End properties.

(** * A network of two validators *)

Module GenesisDemo.
Import GenesisFacts.

#[local] Existing Instances Demo.demo_keys Demo.demo_crypto.

Definition unary (l : list N) : string :=
  foldr (fun n s => Nat.iter (N.to_nat n) (String "1") (String "2" s)) EmptyString l.

Fixpoint un_unary (acc : N) (s : string) : list N :=
  match s with
  | String c s => if Ascii.eqb c "1"%char then un_unary (acc + 1) s else acc :: un_unary 0 s
  | EmptyString => []
  end.

Lemma un_unary_run n acc s : un_unary acc (Nat.iter n (String "1") (String "2" s)) = (acc + N.of_nat n) :: un_unary 0 s.
Proof.
  revert acc. induction n as [|n IH]; intros acc; simpl; [by rewrite N.add_0_r|]. rewrite IH. f_equal. lia.
Qed.

Lemma unary_roundtrip l : un_unary 0 (unary l) = l.
Proof. induction l as [|n l IH]; simpl; [done|]. rewrite un_unary_run, IH. f_equal. lia. Qed.

Lemma unary_alphabet l : Forall (fun c => is_space c = false) (String.list_ascii_of_string (unary l)).
Proof.
  induction l as [|n l IH]; simpl; [done|]. induction (N.to_nat n) as [|m IHm]; simpl; by constructor.
Qed.

#[export] Instance toy_keys : KeyOps := {|
  sk_to_pk sk := sk + 100;
  sk_bytes sk := [sk];
  sk_from_bytes b := head b;
  pk_bytes pk := replicate 96 pk;
  pk_validate _ := true;
  blst_sign sk _ := sk;
  blst_verify sig _ pk := sig + 100 =? pk;
  signature_bytes sig := [sig];
  hash_bytes b := replicate 32 (sumN b);
  ed25519_from_bytes b := head b;
  ed25519_public k := k;
  ed25519_bytes k := Some (replicate 32 k);
  bs58_encode := unary;
  bs58_decode s := Some (un_unary 0 s);
  encode_vec b := b;
|}.

#[export] Program Instance toy_key_laws : KeyLaws.
Next Obligation. done. Qed.
Next Obligation. intros b. simpl. by rewrite unary_roundtrip. Qed.
Next Obligation. apply unary_alphabet. Qed.
Next Obligation. done. Qed.
Next Obligation. intros sk m. simpl. lia. Qed.
Next Obligation. done. Qed.

#[export] Instance toy_genesis : GenesisOps := {|
  Genesis := N;
  genesis_bytes g := [g];
  genesis_alloc _ := ∅;
  extend_accounts g l := g + N.of_nat (length l);
  alloc_insert g _ _ := g;
|}.

(** A format that knows some values, by name. *)
Definition table {T} `{EqDecision T} (l : list (string * T)) : Format T := {|
  to_text v := fst <$> find (fun e => bool_decide (e.2 = v)) l;
  from_text s := snd <$> find (fun e => bool_decide (e.1 = s)) l;
|}.

Lemma table_roundtrip {T} `{EqDecision T} (l : list (string * T)) v s :
  NoDup l.*1 -> @to_text T (table l) v = Some s -> @from_text T (table l) s = Some v.
Proof.
  simpl. intros Hnd. destruct (find _ l) as [[s' v']|] eqn:Hf; [|done]. intros [= <-]. apply find_some in Hf as [Hin Hv].
  apply bool_decide_eq_true in Hv as <-. simpl. apply list_elem_of_In, list_elem_of_lookup in Hin as [i Hi].
  clear -Hnd Hi. revert i Hi. induction l as [|[s v] l IH]; intros i Hi; [done|]. apply NoDup_cons in Hnd as [Hs Hnd].
  simpl. case_bool_decide as Hsv; simpl.
  - subst. destruct i as [|i]; simpl in Hi; [by simplify_eq|]. exfalso. apply Hs. apply list_elem_of_lookup_2 in Hi. by apply (list_elem_of_fmap_2 fst) in Hi.
  - destruct i as [|i]; simpl in Hi; [by simplify_eq|]. by apply (IH Hnd i).
Qed.

#[local] Instance worker_info_eq_dec : EqDecision WorkerInfo.t.
Proof. solve_decision. Defined.
#[local] Instance primary_info_eq_dec : EqDecision PrimaryInfo.t.
Proof. solve_decision. Defined.
#[local] Instance validator_info_eq_dec : EqDecision ValidatorInfo.t.
Proof. solve_decision. Defined.
#[local] Instance toy_genesis_eq_dec : EqDecision Genesis := N.eq_dec.
#[local] Instance config_eq_dec : EqDecision Config.t.
Proof. solve_decision. Defined.
#[local] Instance committee_eq_dec : EqDecision Committee.t.
Proof. solve_decision. Defined.
#[local] Instance worker_cache_eq_dec : EqDecision WorkerCache.t.
Proof. solve_decision. Defined.

(** Two validators with generated keys, in a network with genesis 7. *)
Definition toy_primary (k : N) : PrimaryInfo.t := PrimaryInfo.mk k "primary" k {[ 0 := WorkerInfo.mk k "transactions" "worker" ]}.
Definition toy_validator (k : N) : ValidatorInfo.t := ValidatorInfo.mk "name" (k + 100) (toy_primary k) k k.
Definition toy_forged : ValidatorInfo.t := ValidatorInfo.mk "name" 103 (toy_primary 3) 3 4.
Definition toy_chain : @Genesis toy_genesis := 7.
Definition toy_config (k : N) : Config.t := Config.mk (toy_validator k) 10 5 50 toy_chain.
Definition toy_validators : gmap BlsPublicKey ValidatorInfo.t := {[ 101 := toy_validator 1; 102 := toy_validator 2 ]}.

(** The registry adds two accounts to the genesis. *)
Definition toy_final : Config.t := Config.set_genesis (toy_config 2) 9.

Definition toy_committee : Committee.t :=
  match Committee.new (E := unit) (authorities_of toy_validators) 0 with Ok c => c | _ => Committee.mk ∅ ∅ 0 0 0 end.

Definition toy_worker_cache : WorkerCache.t :=
  WorkerCache.mk 0 ((fun v => PrimaryInfo.worker_index (ValidatorInfo.primary_info v)) <$> toy_validators).

Definition committee_format : Format Committee.t := {|
  to_text c := if bool_decide (c = toy_committee) then Some "committee" else None;
  from_text s := if bool_decide (s = "committee")
    then Some (Committee.mk (Committee.authorities toy_committee) ∅ (Committee.epoch toy_committee) 0 0) else None;
|}.

#[export] Instance toy_environment : Environment := {|
  validator_yaml := table [("v1", toy_validator 1); ("v2", toy_validator 2); ("forged", toy_forged)];
  config_yaml := table [("c1", toy_config 1); ("c2", toy_config 2); ("final", toy_final)];
  genesis_json := table [("g", 9 : Genesis)];
  committee_yaml := committee_format;
  worker_cache_yaml := table [("w", toy_worker_cache)];
  default_config := toy_config 0;
  read_dir m := map_to_list m;
  hash_name k := String "0" (pretty k);
  keccak256 s := Npos (encode s);
|}.

#[export] Program Instance toy_environment_laws : EnvironmentLaws.
Next Obligation. intros v s. apply table_roundtrip. apply (bool_decide_unpack _). by vm_compute. Qed.
Next Obligation. intros v s. apply table_roundtrip. apply (bool_decide_unpack _). by vm_compute. Qed.
Next Obligation. intros c s. simpl. case_bool_decide as Hc; [|done]. intros [= <-]. by rewrite Hc. Qed.
Next Obligation. intros v s. apply table_roundtrip. apply (bool_decide_unpack _). by vm_compute. Qed.
Next Obligation. done. Qed.
Next Obligation. intros k k' [= Heq]. by apply (inj pretty). Qed.
Next Obligation. intros k. by eexists. Qed.
Next Obligation. intros s s' [= Heq]. by apply (inj encode). Qed.

Definition toy_dir : DataDir := mk_datadir None true (Some ∅) None None None.
Definition toy_key (k : N) : KeyConfig.t := KeyConfig.mk k k k.
Definition toy_key_dir (k : N) : KeyConfig.dir :=
  KeyConfig.mk_dir (Some (unary [k])) (Some "primary network keypair") (Some "worker network keypair").

Lemma generated_keys_usable_witness :
  KeyConfig.read_config (Some (toy_key_dir 1)) = Ok (toy_key 1) /\ proven toy_chain 101 (toy_validator 1).
Proof.
  destruct (generated_keys_usable 1 1 toy_chain toy_dir None (toy_key 1) (set_config toy_dir (Some "c1")) (Some (toy_key_dir 1)))
    as (Hr & text & c & [= <-] & [= <-] & _ & _ & _ & _ & Hp); [reflexivity|]. by split.
Defined.

Lemma toy_has_none : has_validators toy_dir ∅.
Proof. split; [done|]. split; [apply map_Forall_empty|]. exists ∅. split; [done|apply holds_empty]. Qed.

Lemma toy_written k : k ∈ [1; 2] -> is_Some (to_text (toy_config k)) /\ is_Some (to_text (toy_validator k)).
Proof. intros Hk. assert (k = 1 \/ k = 2) as [-> | ->] by set_solver; split; by eexists. Qed.

Lemma ceremony_collects_witness : exists d', add_all toy_dir [toy_config 1; toy_config 2] = Ok d' /\
  forall text (c : Config.t), node_config d' = Some text -> from_text text = Some c ->
    NetworkGenesis.load_from_path d' = Ok (NetworkGenesis.mk (Config.genesis c) (with_participants ∅ [toy_config 1; toy_config 2]), d').
Proof.
  apply (ceremony_collects toy_dir ∅ [toy_config 1; toy_config 2] toy_has_none). intros c Hc.
  assert (c = toy_config 1 \/ c = toy_config 2) as [-> | ->] by set_solver; apply toy_written; set_solver.
Defined.

(** The directory after both have added themselves. *)
Definition toy_files : gmap string string :=
  {[ NetworkGenesis.file_name 101 := "v1"; NetworkGenesis.file_name 102 := "v2" ]}.
Definition toy_full : DataDir := mk_datadir (Some "c2") true (Some toy_files) None None None.
Definition toy_final_dir : DataDir := mk_datadir (Some "final") true (Some toy_files) (Some "g") (Some "committee") (Some "w").

Lemma toy_cases k v : toy_validators !! k = Some v -> (k = 101 /\ v = toy_validator 1) \/ (k = 102 /\ v = toy_validator 2).
Proof. unfold toy_validators. intros [[<- <-]|[_ [<- <-]%lookup_singleton_Some]]%lookup_insert_Some; auto. Qed.

Lemma toy_full_holds : has_validators toy_full toy_validators.
Proof.
  destruct (write_holds [(102, toy_validator 2); (101, toy_validator 1)] ∅ ∅ holds_empty) as (dir & Hw & Hh).
  { intros k v Hin. assert ((k, v) = (102, toy_validator 2) \/ (k, v) = (101, toy_validator 1)) as [[= -> ->]|[= -> ->]] by set_solver;
      (split; [done|apply toy_written; set_solver]). }
  injection Hw as <-. split; [done|]. split.
  - intros k v [[_ ->]|[_ ->]]%toy_cases; by eexists.
  - exists toy_files. by split.
Qed.

Lemma create_committee_starts_witness : exists cc,
  NodeConfig.new (toy_config 1) toy_final_dir (toy_key 1) = Ok cc /\ ConsensusConfig.authority_id cc = 1.
Proof.
  destruct (create_committee_starts (Some ∅) 5 [] [] toy_full toy_final_dir toy_validators "c2" (toy_config 2)
    toy_full_holds eq_refl eq_refl) as (committee & _ & _ & _ & _ & Hstart); [by vm_compute|by vm_compute|].
  destruct (Hstart (toy_config 1) (toy_key 1)) as (cc & Hcc & _ & Hid & _). by exists cc.
Defined.

(** The second validator's file holds a proof for another key. *)
Definition toy_unproven : gmap BlsPublicKey ValidatorInfo.t := {[ 101 := toy_validator 1; 103 := toy_forged ]}.
Definition toy_unproven_files : gmap string string :=
  {[ NetworkGenesis.file_name 101 := "v1"; NetworkGenesis.file_name 103 := "forged" ]}.
Definition toy_unproven_dir : DataDir := mk_datadir (Some "c2") true (Some toy_unproven_files) None None None.

Lemma toy_unproven_holds : has_validators toy_unproven_dir toy_unproven.
Proof.
  destruct (write_holds [(103, toy_forged); (101, toy_validator 1)] ∅ ∅ holds_empty) as (dir & Hw & Hh).
  { intros k v Hin. assert ((k, v) = (103, toy_forged) \/ (k, v) = (101, toy_validator 1)) as [[= -> ->]|[= -> ->]] by set_solver;
      (split; [done|by eexists]). }
  injection Hw as <-. split; [done|]. split; [|exists toy_unproven_files; by split].
  unfold toy_unproven. intros k v [[_ <-]|[_ [_ <-]%lookup_singleton_Some]]%lookup_insert_Some; by eexists.
Qed.

Lemma unproven_validator_refused_witness :
  Ceremony.validate toy_unproven_dir = (toy_unproven_dir, Err ()) /\
  Ceremony.create_committee (Some ∅) 5 [] [] toy_unproven_dir = (toy_unproven_dir, Err ()).
Proof.
  apply (unproven_validator_refused (Some ∅) 5 [] [] toy_unproven_dir toy_unproven "c2" (toy_config 2) toy_unproven_holds eq_refl eq_refl).
  exists 103, toy_forged. split; [by vm_compute|]. unfold proven. by vm_compute.
Defined.

Lemma registry_gets_validators_witness : exists storage,
  NetworkGenesis.overwrite_storage (NetworkGenesis.mk toy_chain toy_validators) {[ 3 := FlagFacts.field_label 0 FlagFacts.Ecdsa; 4 := 44 ]} = Ok storage /\
  storage !! 3 = Some 1.
Proof.
  destruct (registry_gets_validators (NetworkGenesis.mk toy_chain toy_validators) {[ 3 := FlagFacts.field_label 0 FlagFacts.Ecdsa; 4 := 44 ]})
    as (storage & Hs & _ & Hslot).
  { intros k v _. by eexists. }
  exists storage. split; [exact Hs|]. destruct (Hslot 3 (FlagFacts.field_label 0 FlagFacts.Ecdsa)) as (w & Hw & Hf & _); [reflexivity|].
  specialize (Hf 0%nat FlagFacts.Ecdsa (toy_validator 1) eq_refl eq_refl). by injection Hf as <-.
Defined.

End GenesisDemo.
