(* ===== verification/Sync.v ===== *)
(** The synchronization primitives: the shutdown notifier, the pending reads of the
    certificate store, and the cells that are written once.
    Models crates/types/src/notifier.rs and crates/tn-utils/src/sync.  The operations on shared
    cells are steps of a state; those that take a lock or an atomic instruction more than
    once are split there, so that they interleave.  The channels of tokio are modelled by what
    they hold; the hash that selects a shard is a parameter. *)

From S2P Require Import Prelude.

(** * The notifier *)

(** The cells that the noticers share with the notifier: whether it was notified, and the
    waker of the last task that polled it. *)
Module Notifier.

Record t := mk {
  cells : gmap N (bool * option N);
  noticers : list N;
  woken : list N;
}.

Definition new : t := mk ∅ [] [].

(** A new cell, under an identifier that is not in use. *)
Definition subscribe (s : t) (id : N) : t := mk (<[id := (false, None)]> (cells s)) (noticers s ++ [id]) (woken s).

(** One turn of the loop of [notify]. *)
Definition notify_one (s : t) (id : N) : t :=
  match cells s !! id with
  | Some (_, wake) => mk (<[id := (true, None)]> (cells s)) (noticers s) (woken s ++ option_list wake)
  | None => s
  end.

Definition notify (s : t) : t :=
  let s := foldl notify_one s (noticers s) in mk (cells s) [] (woken s).

(** [Noticer::poll] of the task with this waker. *)
Definition poll (s : t) (id waker : N) : t * bool :=
  match cells s !! id with
  | Some (true, _) => (mk (<[id := (true, None)]> (cells s)) (noticers s) (woken s), true)
  | Some (false, _) => (mk (<[id := (false, Some waker)]> (cells s)) (noticers s) (woken s), false)
  | None => (s, false)
  end.

Inductive op := Subscribe (id : N) | Notify | Poll (id waker : N).

(** Subscriptions get new cells. *)
Definition step (s : t) (o : op) : option t :=
  match o with
  | Subscribe id => if bool_decide (cells s !! id = None) then Some (subscribe s id) else None
  | Notify => Some (notify s)
  | Poll id w => if bool_decide (is_Some (cells s !! id)) then Some (poll s id w).1 else None
  end.

Fixpoint run (s : t) (os : list op) : option t :=
  match os with
  | [] => Some s
  | o :: os => s' ← step s o; run s' os
  end.

End Notifier.

(** * Pending reads *)

Module NotifyRead.

(** What a registration's channel holds: nothing yet, a value, a value that was taken, or its
    receiver was dropped. *)
Inductive chan := Waiting | Sent (value : N) | Taken (value : N) | Dropped.

#[global] Instance chan_eq_dec : EqDecision chan.
Proof. solve_decision. Defined.

(** Calls that are in progress: between the increment of [register] and its push, after the removal
    of [notify], before its sends, and between the drop of a receiver and its cleanup. *)
Inductive thread :=
  | Push (key id : N)
  | Subtract (ids : list N) (value : N)
  | Send (ids : list N) (value : N)
  | Cleanup (key : N).

Section notify_read.
Context (hash : N -> N).

Record t := mk {
  pending : list (gmap N (list N));
  count_pending : N;
  chans : gmap N (N * chan);
  threads : list thread;
}.

Definition new : t := mk (replicate 255 ∅) 0 ∅ [].

(** The shard of a key. *)
Definition shard (key : N) : nat := N.to_nat (hash key mod 255).

Definition get (p : list (gmap N (list N))) (key : N) : option (list N) := p !! shard key ≫= fun m => m !! key.

Definition set (p : list (gmap N (list N))) (key : N) (ids : list N) : list (gmap N (list N)) := alter <[key := ids]> (shard key) p.

Definition unset (p : list (gmap N (list N))) (key : N) : list (gmap N (list N)) := alter (delete key) (shard key) p.

(** [register_one]: the counter, then the push.  [register_all] adds the number of keys at once. *)
Definition register_begin (s : t) (keys : list (N * N)) : t :=
  mk (pending s) (wrap64 (count_pending s + N.of_nat (length keys)))
    (foldl (fun c ki => <[ki.2 := (ki.1, Waiting)]> c) (chans s) keys)
    (threads s ++ ((fun ki => Push ki.1 ki.2) <$> keys)).

Definition push (s : t) (key id : N) (rest : list thread) : t :=
  mk (set (pending s) key (default [] (get (pending s) key) ++ [id])) (count_pending s) (chans s) rest.

(** [notify]: the removal, which returns the counter when there is nothing to notify. *)
Definition notify_begin (s : t) (key value : N) : t * option N :=
  match get (pending s) key with
  | Some ids => (mk (unset (pending s) key) (count_pending s) (chans s) (threads s ++ [Subtract ids value]), None)
  | None => (s, Some (count_pending s))
  end.

(** [fetch_sub] wraps around and returns the counter of before. *)
Definition subtract (s : t) (ids : list N) (value : N) (rest : list thread) : t * N :=
  (mk (pending s) (wrapping_sub64 (count_pending s) (N.of_nat (length ids))) (chans s) (rest ++ [Send ids value]), count_pending s).

(** A send to a receiver that was dropped is ignored. *)
Definition send_one (s : t) (id : N) (ids : list N) (value : N) (rest : list thread) : t :=
  let chans := match chans s !! id with Some (k, Waiting) => <[id := (k, Sent value)]> (chans s) | _ => chans s end in
  mk (pending s) (count_pending s) chans (rest ++ [Send ids value]).

(** [poll]: a value is taken. *)
Definition poll (s : t) (id : N) : t * option N :=
  match chans s !! id with
  | Some (k, Sent v) => (mk (pending s) (count_pending s) (<[id := (k, Taken v)]> (chans s)) (threads s), Some v)
  | _ => (s, None)
  end.

(** [drop] of a registration that was not resolved: the receiver, then the cleanup. *)
Definition drop_begin (s : t) (id : N) : t :=
  match chans s !! id with
  | Some (k, Waiting) | Some (k, Sent _) =>
      mk (pending s) (count_pending s) (<[id := (k, Dropped)]> (chans s)) (threads s ++ [Cleanup k])
  | _ => s
  end.

Definition is_closed (s : t) (id : N) : bool :=
  match chans s !! id with Some (_, Dropped) => true | _ => false end.

(** [cleanup], under the lock of the shard. *)
Definition cleanup (s : t) (key : N) (rest : list thread) : t :=
  match get (pending s) key with
  | None => mk (pending s) (count_pending s) (chans s) rest
  | Some ids =>
      let kept := filter (fun id => is_closed s id = false) ids in
      let count_deleted := (length ids - length kept)%nat in
      mk (if bool_decide (kept = []) then unset (pending s) key else set (pending s) key kept)
        (wrapping_sub64 (count_pending s) (N.of_nat count_deleted)) (chans s) rest
  end.

Definition num_pending (s : t) : N := count_pending s.

(** The steps of the calls, in any order. *)
Inductive step (s : t) : t -> Prop :=
  | step_register keys : (forall k i, (k, i) ∈ keys -> chans s !! i = None) -> NoDup keys.*2 ->
      count_pending s + N.of_nat (length keys) < 2 ^ 64 -> step s (register_begin s keys)
  | step_push l1 l2 key id : threads s = l1 ++ Push key id :: l2 -> step s (push s key id (l1 ++ l2))
  | step_notify key value : step s (notify_begin s key value).1
  | step_subtract l1 l2 ids value : threads s = l1 ++ Subtract ids value :: l2 -> step s (subtract s ids value (l1 ++ l2)).1
  | step_send l1 l2 id ids value : threads s = l1 ++ Send (id :: ids) value :: l2 -> step s (send_one s id ids value (l1 ++ l2))
  | step_sent l1 l2 value : threads s = l1 ++ Send [] value :: l2 -> step s (mk (pending s) (count_pending s) (chans s) (l1 ++ l2))
  | step_poll id : step s (poll s id).1
  | step_drop id : (forall k, Push k id ∉ threads s) -> step s (drop_begin s id)
  | step_cleanup l1 l2 key : threads s = l1 ++ Cleanup key :: l2 -> step s (cleanup s key (l1 ++ l2)).

End notify_read.
End NotifyRead.

(** * Written once *)

(** The waiters of a [NotifyOnce] hold the [Notify] that was there when they started. *)
Module NotifyOnce.

Record t := mk {
  armed : bool;
  waiting : gset N;
  ready : gset N;
}.

Definition new : t := mk true ∅ ∅.

Definition notify (s : t) : outcome unit t :=
  if armed s then Ok (mk false ∅ (ready s ∪ waiting s)) else Err ().

(** [wait]: registered under the lock, or returning at once. *)
Definition wait (s : t) (id : N) : t :=
  if armed s then mk (armed s) ({[id]} ∪ waiting s) (ready s) else mk (armed s) (waiting s) ({[id]} ∪ ready s).

End NotifyOnce.

(** The write lock is held until the value is set. *)
Module AsyncOnceCell.

Record t := mk {
  value : option N;
  writer : bool;
}.

Definition new : t := mk None true.

Definition set (s : t) (v : N) : outcome unit t := if writer s then Ok (mk (Some v) false) else Err ().

(** Not ready while the lock is held; the value is there once it is released. *)
Definition get (s : t) : outcome unit (option N) :=
  if writer s then Ok None else v ← expect (value s); Ok (Some v).

End AsyncOnceCell.

(** * The notifier resolves its subscribers *)

Module NotifierFacts.
Import Notifier.

#[global] Instance op_eq_dec : EqDecision op.
Proof. solve_decision. Defined.

(** The cells that wait are the subscribers. *)
Record inv (s : t) : Prop := {
  inv_nodup : NoDup (noticers s);
  inv_waiting id b w : cells s !! id = Some (b, w) -> (b = false <-> id ∈ noticers s);
  inv_known id : id ∈ noticers s -> is_Some (cells s !! id);
}.

Lemma notify_fold l s : NoDup l -> (forall id, id ∈ l -> is_Some (cells s !! id)) ->
  let s' := foldl notify_one s l in
  noticers s' = noticers s /\
  (forall id, id ∈ l -> cells s' !! id = Some (true, None)) /\ (forall id, id ∉ l -> cells s' !! id = cells s !! id) /\
  (forall w, w ∈ woken s' <-> w ∈ woken s \/ exists id b, id ∈ l /\ cells s !! id = Some (b, Some w)).
Proof.
  revert s. induction l as [|i l IH]; intros s Hnd Hk; simpl.
  { split_and!; [done|set_solver|done|]. intros w. split; [auto|]. intros [?|(id & b & Hin & _)]; [done|set_solver]. }
  apply NoDup_cons in Hnd as [Hi Hnd]. destruct (Hk i) as [[b w0] Hc]; [set_solver|].
  destruct (IH (notify_one s i)) as (Hn & Hin & Hout & Hw); [done| |].
  { intros id Hid. unfold notify_one. rewrite Hc. simpl. apply lookup_insert_is_Some'. right. apply Hk. set_solver. }
  unfold notify_one in *. rewrite Hc in *. simpl in *. split_and!.
  - done.
  - intros id [->|Hid]%elem_of_cons; [|by apply Hin]. rewrite Hout by done. by rewrite lookup_insert_eq.
  - intros id [Hne Hid]%not_elem_of_cons. rewrite Hout by done. by rewrite lookup_insert_ne.
  - intros w. rewrite Hw, elem_of_app. split.
    + intros [[?|Hw0]|(id & b' & Hid & Hcell)]; [auto|..].
      * right. exists i, b. split; [set_solver|]. destruct w0 as [w0|]; simpl in Hw0; [|set_solver]. by apply list_elem_of_singleton in Hw0 as ->.
      * right. exists id, b'. split; [set_solver|]. rewrite lookup_insert_ne in Hcell by set_solver. done.
    + intros [?|(id & b' & [->|Hid]%elem_of_cons & Hcell)]; [auto|..].
      * left. right. rewrite Hc in Hcell. injection Hcell as -> ->. simpl. set_solver.
      * right. exists id, b'. rewrite lookup_insert_ne by set_solver. done.
Qed.

Lemma step_inv s o s' : inv s -> step s o = Some s' -> inv s'.
Proof.
  intros [Hnd Hw Hk]. destruct o as [id| |id w]; simpl.
  - case_bool_decide as Hid; [|done]. intros [= <-]. assert (id ∉ noticers s) as Hni by (intros [? Hc]%Hk; congruence).
    constructor; simpl.
    + apply NoDup_app. split; [done|]. split; [set_solver|apply NoDup_singleton].
    + intros id' b w' [[<- [= <- <-]]|[Hne Hc]]%lookup_insert_Some; [set_solver|]. rewrite (Hw id' b w' Hc). set_solver.
    + intros id' [Hin| ->%list_elem_of_singleton]%elem_of_app; apply lookup_insert_is_Some'; auto.
  - intros [= <-]. destruct (notify_fold (noticers s) s Hnd Hk) as (_ & Hin & Hout & _). constructor; simpl.
    + constructor.
    + intros id b w Hc. destruct (decide (id ∈ noticers s)) as [Hid|Hid].
      * rewrite Hin in Hc by done. injection Hc as <- _. split; [done|set_solver].
      * rewrite Hout in Hc by done. rewrite (Hw _ _ _ Hc). set_solver.
    + set_solver.
  - case_bool_decide as Hid; [|done]. intros [= <-]. unfold poll. destruct (cells s !! id) as [[[] w0]|] eqn:Hc; simpl;
      (constructor; simpl; [done| |]).
    1,3: intros id' b w' [[<- [= <- <-]]|[Hne Hc']]%lookup_insert_Some; [by apply (Hw id _ w0)|by eapply Hw].
    1,2: intros id' Hin; apply lookup_insert_is_Some'; auto.
    + intros id' b w' Hc'. by eapply Hw.
    + done.
Qed.

Lemma notifier_run_inv s os s' : inv s -> run s os = Some s' -> inv s'.
Proof.
  revert s. induction os as [|o os IH]; intros s Hs; simpl; [by intros [= <-]|].
  intros (s1 & Ho & Hr)%bind_Some. eapply IH; [|done]. by eapply step_inv.
Qed.

Lemma notifier_new_inv : inv new.
Proof. constructor; simpl; [constructor| |set_solver]. by intros id b w []%lookup_empty_Some. Qed.

Lemma run_app s os1 os2 : run s (os1 ++ os2) = run s os1 ≫= fun s' => run s' os2.
Proof. revert s. induction os1 as [|o os1 IH]; intros s; simpl; [done|]. destruct (step s o); simpl; [apply IH|done]. Qed.

(** A cell keeps being notified, and is notified by the next [notify]. *)
Lemma run_cell os : forall s s' id b w, inv s -> run s os = Some s' -> cells s !! id = Some (b, w) ->
  exists w', cells s' !! id = Some (b || bool_decide (Notify ∈ os), w').
Proof.
  induction os as [|o os IH]; intros s s' id b w Hs; cbn [run].
  { intros [= <-] Hc. exists w. rewrite bool_decide_false by set_solver. by rewrite orb_false_r. }
  intros (s1 & Ho & Hr)%bind_Some Hc. pose proof (step_inv _ _ _ Hs Ho) as Hs1.
  assert (exists w1, cells s1 !! id = Some (b || bool_decide (o = Notify), w1)) as [w1 Hc1].
  { destruct o as [i| |i wk]; simpl in Ho.
    - case_bool_decide as Hi; [|done]. injection Ho as <-. exists w. simpl. rewrite orb_false_r.
      rewrite lookup_insert_ne by congruence. done.
    - injection Ho as <-. simpl. destruct Hs as [Hnd Hw Hk]. destruct (notify_fold (noticers s) s Hnd Hk) as (_ & Hin & Hout & _).
      rewrite orb_true_r. destruct (decide (id ∈ noticers s)) as [Hid|Hid]; [rewrite Hin by done; eauto|].
      rewrite Hout by done. exists w. rewrite Hc. destruct b; [done|]. destruct Hid. by apply (Hw id false w).
    - case_bool_decide as Hi; [|done]. injection Ho as <-. rewrite orb_false_r. unfold poll.
      destruct (decide (i = id)) as [->|Hne]; [rewrite Hc; destruct b; simpl; rewrite lookup_insert_eq; eauto|].
      destruct (cells s !! i) as [[[] ?]|]; simpl; rewrite ?lookup_insert_ne by done; eauto. }
  destruct (IH s1 s' id _ w1 Hs1 Hr Hc1) as [w' Hc']. exists w'. rewrite Hc'. do 2 f_equal.
  rewrite <-orb_assoc. f_equal. destruct (decide (o = Notify)) as [->|Hne].
  - rewrite (bool_decide_true (Notify = Notify)) by done. symmetry. apply bool_decide_true, elem_of_cons. by left.
  - rewrite (bool_decide_false (o = Notify)) by done. cbn [orb]. apply bool_decide_ext. rewrite elem_of_cons. naive_solver.
Qed.

Lemma step_woken s o s' : step s o = Some s' -> forall w, w ∈ woken s -> w ∈ woken s'.
Proof.
  destruct o as [i| |i wk]; simpl.
  - case_bool_decide; [|done]. by intros [= <-].
  - intros [= <-] w Hw. unfold notify. simpl. generalize (noticers s). intros l. revert s Hw.
    induction l as [|j l IH]; intros s Hw; simpl; [done|].
    apply IH. unfold notify_one. destruct (cells s !! j) as [[? ?]|]; simpl; set_solver.
  - case_bool_decide; [|done]. intros [= <-] w. unfold poll. by destruct (cells s !! i) as [[[] ?]|].
Qed.

Lemma run_woken s os s' : run s os = Some s' -> forall w, w ∈ woken s -> w ∈ woken s'.
Proof.
  revert s. induction os as [|o os IH]; intros s; cbn [run]; [by intros [= <-]|].
  intros (s1 & Ho & Hr)%bind_Some w Hw. eapply IH; [done|]. by eapply step_woken.
Qed.

(** The waker of the last poll is woken by the next [notify]. *)
Lemma run_wakes os : forall s s' id w, inv s -> run s os = Some s' -> cells s !! id = Some (false, Some w) ->
  (forall w', Poll id w' ∉ os) -> Notify ∈ os -> w ∈ woken s'.
Proof.
  induction os as [|o os IH]; intros s s' id w Hs; cbn [run]; [set_solver|].
  intros (s1 & Ho & Hr)%bind_Some Hc Hp Hn. pose proof (step_inv _ _ _ Hs Ho) as Hs1.
  assert (forall w', Poll id w' ∉ os) as Hp' by (intros w' Hin; apply (Hp w'); set_solver).
  destruct o as [i| |i wk]; simpl in Ho.
  - case_bool_decide as Hi; [|done]. injection Ho as <-. apply (IH (subscribe s i) s' id w Hs1 Hr); [|done|set_solver].
    simpl. rewrite lookup_insert_ne by congruence. done.
  - injection Ho as <-. eapply run_woken; [done|]. destruct Hs as [Hnd Hw Hk].
    destruct (notify_fold (noticers s) s Hnd Hk) as (_ & _ & _ & Hwoken). apply Hwoken. right.
    exists id, false. split; [by apply (Hw id false (Some w))|done].
  - case_bool_decide as Hi; [|done]. injection Ho as <-.
    assert (i <> id) as Hne by (intros ->; apply (Hp wk); set_solver).
    apply (IH (poll s i wk).1 s' id w Hs1 Hr); [|done|set_solver].
    unfold poll. destruct (cells s !! i) as [[[] ?]|]; simpl; by rewrite ?lookup_insert_ne.
Qed.

End NotifierFacts.

(** * Registrations are resolved *)

Module NotifyReadFacts.
Import NotifyRead.

Section facts.
Context (hash : N -> N).
Implicit Types (p : list (gmap N (list N))) (s : t).

Local Notation get := (get hash).
Local Notation set := (set hash).
Local Notation unset := (unset hash).

Definition ids_of p : list N := p ≫= fun m => mjoin (map_to_list m).*2.

Lemma shard_lt key : (shard hash key < 255)%nat.
Proof. unfold shard. assert (hash key mod 255 < 255) by (apply N.mod_lt; lia). lia. Qed.

Lemma get_set p k l k' : length p = 255%nat -> get (set p k l) k' = if decide (k' = k) then Some l else get p k'.
Proof.
  intros Hl. unfold NotifyRead.get, NotifyRead.set. pose proof (shard_lt k) as Hk. rewrite <-Hl in Hk.
  destruct (lookup_lt_is_Some_2 p (shard hash k) Hk) as [m Hm]. destruct (decide (shard hash k' = shard hash k)) as [Heq|Hne].
  - rewrite Heq, list_lookup_alter_eq, Hm. simpl. case_decide as Hkk; [by subst; rewrite lookup_insert_eq|]. by rewrite lookup_insert_ne.
  - rewrite list_lookup_alter_ne by done. rewrite decide_False by congruence. done.
Qed.

Lemma get_unset p k k' : length p = 255%nat -> get (unset p k) k' = if decide (k' = k) then None else get p k'.
Proof.
  intros Hl. unfold NotifyRead.get, NotifyRead.unset. pose proof (shard_lt k) as Hk. rewrite <-Hl in Hk.
  destruct (lookup_lt_is_Some_2 p (shard hash k) Hk) as [m Hm]. destruct (decide (shard hash k' = shard hash k)) as [Heq|Hne].
  - rewrite Heq, list_lookup_alter_eq, Hm. simpl. case_decide as Hkk; [by subst; rewrite lookup_delete_eq|]. by rewrite lookup_delete_ne.
  - rewrite list_lookup_alter_ne by done. rewrite decide_False by congruence. done.
Qed.

Lemma length_set p k l : length (set p k l) = length p.
Proof. apply length_alter. Qed.

Lemma length_unset p k : length (unset p k) = length p.
Proof. apply length_alter. Qed.

Lemma ids_of_alter p i f m l : p !! i = Some m -> (mjoin (map_to_list (f m)).*2 : list N) ≡ₚ l ++ mjoin (map_to_list m).*2 ->
  ids_of (alter f i p) ≡ₚ l ++ ids_of p.
Proof.
  intros Hm Hl. revert i Hm. induction p as [|m0 p IH]; intros i Hm; [done|]. destruct i as [|i]; simpl in *.
  - injection Hm as ->. unfold ids_of. simpl. rewrite Hl. by rewrite app_assoc.
  - unfold ids_of in *. simpl. rewrite (IH i Hm). solve_Permutation.
Qed.

Lemma ids_of_set p k l : length p = 255%nat -> get p k = None -> ids_of (set p k l) ≡ₚ l ++ ids_of p.
Proof.
  intros Hl Hg. unfold NotifyRead.get in Hg. pose proof (shard_lt k) as Hk. rewrite <-Hl in Hk.
  destruct (lookup_lt_is_Some_2 p (shard hash k) Hk) as [m Hm]. rewrite Hm in Hg. simpl in Hg.
  apply (ids_of_alter p _ _ m); [done|]. rewrite map_to_list_insert by done. done.
Qed.

Lemma ids_of_unset p k l : length p = 255%nat -> get p k = Some l -> ids_of p ≡ₚ l ++ ids_of (unset p k).
Proof.
  intros Hl Hg. assert (set (unset p k) k l = p) as Heq.
  { unfold NotifyRead.get, NotifyRead.set, NotifyRead.unset in *. apply bind_Some in Hg as (m & Hm & Hml).
    apply list_eq. intros i. destruct (decide (i = shard hash k)) as [->|Hne].
    - rewrite !list_lookup_alter_eq, Hm. simpl. by rewrite insert_delete_eq, insert_id.
    - by rewrite !list_lookup_alter_ne. }
  rewrite <-Heq at 1. apply ids_of_set; [by rewrite length_unset|]. by rewrite get_unset, decide_True.
Qed.

Lemma ids_of_replace p k l l' : length p = 255%nat -> get p k = Some l -> ids_of (set p k l') ≡ₚ l' ++ ids_of (unset p k).
Proof.
  intros Hl Hg. assert (set p k l' = set (unset p k) k l') as ->.
  { unfold NotifyRead.set, NotifyRead.unset. apply list_eq. intros i. destruct (decide (i = shard hash k)) as [->|Hne].
    - rewrite !list_lookup_alter_eq. destruct (p !! shard hash k); simpl; [|done]. by rewrite insert_delete_eq.
    - by rewrite !list_lookup_alter_ne. }
  apply ids_of_set; [by rewrite length_unset|]. by rewrite get_unset, decide_True.
Qed.

Lemma ids_of_push p k id : length p = 255%nat -> ids_of (set p k (default [] (get p k) ++ [id])) ≡ₚ id :: ids_of p.
Proof.
  intros Hl. destruct (get p k) as [l|] eqn:Hg; simpl.
  - rewrite (ids_of_replace p k l) by done. rewrite (ids_of_unset p k l) by done. solve_Permutation.
  - by rewrite ids_of_set.
Qed.

(** The registrations that a call in progress holds, and the ones it still has to count. *)
Definition thread_ids (th : thread) : list N :=
  match th with Push _ id => [id] | Subtract ids _ | Send ids _ => ids | Cleanup _ => [] end.
Definition counted_ids (th : thread) : list N :=
  match th with Push _ id => [id] | Subtract ids _ => ids | Send _ _ | Cleanup _ => [] end.

Definition flying s : list N := threads s ≫= thread_ids.
Definition counted s : list N := threads s ≫= counted_ids.

Record inv s : Prop := {
  i_len : length (pending s) = 255%nat;
  i_count : count_pending s = N.of_nat (length (ids_of (pending s) ++ counted s));
  i_bound : count_pending s < 2 ^ 64;
  i_nodup : NoDup (ids_of (pending s) ++ flying s);
  i_home id : id ∈ ids_of (pending s) -> exists k l, get (pending s) k = Some l /\ id ∈ l;
  i_pending k l : get (pending s) k = Some l -> l <> [] /\ forall id, id ∈ l ->
    id ∈ ids_of (pending s) /\ (chans s !! id = Some (k, Waiting) \/ (chans s !! id = Some (k, Dropped) /\ Cleanup k ∈ threads s));
  i_push k id : Push k id ∈ threads s -> chans s !! id = Some (k, Waiting);
  i_flying id : id ∈ flying s -> exists k c, chans s !! id = Some (k, c) /\ (c = Waiting \/ c = Dropped);
  i_waiting id k : chans s !! id = Some (k, Waiting) -> id ∈ ids_of (pending s) ++ flying s;
}.

Lemma ids_new : ids_of (replicate 255 ∅) = [].
Proof. by vm_compute. Qed.

Lemma notify_read_new_inv : inv new.
Proof.
  assert (forall k, get (replicate 255 ∅) k = None) as Hg.
  { intros k. unfold NotifyRead.get. rewrite lookup_replicate_2 by apply shard_lt. simpl. apply lookup_empty. }
  constructor; unfold new, flying, counted; cbn [pending count_pending chans threads]; rewrite ?ids_new.
  - done.
  - done.
  - done.
  - constructor.
  - set_solver.
  - intros k l. by rewrite Hg.
  - set_solver.
  - set_solver.
  - intros id k. by rewrite lookup_empty.
Qed.

Lemma new_chans keys (c : gmap N (N * chan)) id : NoDup keys.*2 ->
  foldl (fun c ki => <[ki.2 := (ki.1, Waiting)]> c) c keys !! id =
  match list_find (fun ki => ki.2 = id) keys with Some (_, ki) => Some (ki.1, Waiting) | None => c !! id end.
Proof.
  revert c. induction keys as [|[k i] keys IH]; intros c Hnd; simpl; [done|]. apply NoDup_cons in Hnd as [Hi Hnd].
  rewrite IH by done. case_decide as Hid; simpl in *.
  - subst i. destruct (list_find _ keys) as [[j [k' i']]|] eqn:Hf; simpl; [|by rewrite lookup_insert_eq].
    apply list_find_Some in Hf as (Hj & <- & _). destruct Hi. apply list_elem_of_lookup_2 in Hj. by apply (list_elem_of_fmap_2 snd) in Hj.
  - destruct (list_find _ keys) as [[j [k' i']]|] eqn:Hf; simpl; [done|]. by rewrite lookup_insert_ne.
Qed.

Lemma new_chan_in keys (c : gmap N (N * chan)) k id : NoDup keys.*2 -> (k, id) ∈ keys ->
  foldl (fun c ki => <[ki.2 := (ki.1, Waiting)]> c) c keys !! id = Some (k, Waiting).
Proof.
  intros Hnd Hin. rewrite new_chans by done. destruct (list_find _ keys) as [[j [k' i']]|] eqn:Hf.
  - apply list_find_Some in Hf as (Hj & <- & _). simpl. apply list_elem_of_lookup in Hin as [j' Hj'].
    assert (j = j') as <-; [|congruence]. apply (NoDup_lookup keys.*2 j j' i'); [done|by rewrite list_lookup_fmap, Hj|by rewrite list_lookup_fmap, Hj'].
  - apply list_find_None in Hf. rewrite Forall_forall in Hf. by destruct (Hf _ Hin).
Qed.

Lemma new_chan_out keys (c : gmap N (N * chan)) id : NoDup keys.*2 -> id ∉ keys.*2 ->
  foldl (fun c ki => <[ki.2 := (ki.1, Waiting)]> c) c keys !! id = c !! id.
Proof.
  intros Hnd Hin. rewrite new_chans by done. destruct (list_find _ keys) as [[j [k' i']]|] eqn:Hf; [|done].
  apply list_find_Some in Hf as (Hj & <- & _). destruct Hin. apply list_elem_of_lookup_2 in Hj. by apply (list_elem_of_fmap_2 snd) in Hj.
Qed.

Lemma pushes_ids (keys : list (N * N)) (f : thread -> list N) : (forall k i, f (Push k i) = [i]) ->
  (((fun ki => Push ki.1 ki.2) <$> keys) ≫= f) = keys.*2.
Proof. intros Hf. induction keys as [|[k i] keys IH]; simpl; [done|]. rewrite Hf. simpl. by f_equal. Qed.

Lemma known_id s id : inv s -> id ∈ ids_of (pending s) ++ flying s -> is_Some (chans s !! id).
Proof.
  intros Hs [Hin|Hin]%elem_of_app.
  - destruct (i_home _ Hs _ Hin) as (k & l & Hg & Hl). destruct (i_pending _ Hs _ _ Hg) as [_ Hp]. destruct (Hp _ Hl) as [_ [->|[-> _]]]; eauto.
  - destruct (i_flying _ Hs _ Hin) as (k & c & -> & _). eauto.
Qed.

Lemma register_inv s keys : inv s -> (forall k i, (k, i) ∈ keys -> chans s !! i = None) -> NoDup keys.*2 ->
  count_pending s + N.of_nat (length keys) < 2 ^ 64 -> inv (register_begin s keys).
Proof.
  intros Hs Hfresh Hnd Hb.
  assert (forall i, i ∈ keys.*2 -> chans s !! i = None) as Hf by (intros i ([k i'] & -> & Hin)%list_elem_of_fmap; by eapply Hfresh).
  assert (forall i, i ∈ ids_of (pending s) ++ flying s -> i ∉ keys.*2) as Hdis.
  { intros i Hi Hin. destruct (known_id s i Hs Hi) as [? Hc]. rewrite Hf in Hc by done. done. }
  assert (flying (register_begin s keys) = flying s ++ keys.*2) as Hfly.
  { unfold flying, register_begin. simpl. rewrite bind_app. f_equal. by apply pushes_ids. }
  assert (counted (register_begin s keys) = counted s ++ keys.*2) as Hcnt.
  { unfold counted, register_begin. simpl. rewrite bind_app. f_equal. by apply pushes_ids. }
  constructor; rewrite ?Hfly, ?Hcnt; cbn [register_begin pending count_pending chans threads].
  - apply Hs.
  - rewrite wrap64_small by exact Hb. rewrite (i_count _ Hs), app_assoc, length_app, !length_app, length_fmap. lia.
  - rewrite wrap64_small by exact Hb. done.
  - rewrite app_assoc. apply NoDup_app. split; [apply Hs|]. split; [exact Hdis|done].
  - apply Hs.
  - intros k l Hg. destruct (i_pending _ Hs _ _ Hg) as [Hne Hl]. split; [done|]. intros id Hid. destruct (Hl id Hid) as [Hin Hc]. split; [done|].
    rewrite new_chan_out by (try done; apply Hdis; set_solver). destruct Hc as [?|[? ?]]; [by left|right; set_solver].
  - intros k id [Hin|Hin]%elem_of_app.
    + rewrite new_chan_out; [by apply Hs|done|]. apply Hdis, elem_of_app. right. apply list_elem_of_bind. exists (Push k id). set_solver.
    + apply list_elem_of_fmap in Hin as ([k' i'] & [= -> ->] & Hin). by apply new_chan_in.
  - intros id [Hin|Hin]%elem_of_app.
    + rewrite new_chan_out by (try done; apply Hdis; set_solver). by apply Hs.
    + apply list_elem_of_fmap in Hin as ([k i] & -> & Hin). exists k, Waiting. split; [by apply new_chan_in|by left].
  - intros id k Hc. destruct (decide (id ∈ keys.*2)) as [Hin|Hin]; [set_solver|]. rewrite new_chan_out in Hc by done.
    rewrite app_assoc. apply elem_of_app. left. by apply (i_waiting _ Hs id k).
Qed.

Lemma NoDup_perm (l k : list N) : l ≡ₚ k -> NoDup k -> NoDup l.
Proof. by intros ->. Qed.

Lemma bind_split (f : thread -> list N) l1 th l2 : (l1 ++ th :: l2) ≫= f ≡ₚ f th ++ ((l1 ++ l2) ≫= f).
Proof. rewrite !bind_app. simpl. solve_Permutation. Qed.

Lemma bind_snoc (f : thread -> list N) l th : (l ++ [th]) ≫= f = (l ≫= f) ++ f th.
Proof. rewrite bind_app. simpl. by rewrite app_nil_r. Qed.

Lemma push_inv s l1 l2 key id : inv s -> threads s = l1 ++ Push key id :: l2 -> inv (push hash s key id (l1 ++ l2)).
Proof.
  intros Hs Hth. pose proof (i_len _ Hs) as Hl. pose proof (ids_of_push (pending s) key id Hl) as Hp.
  assert (flying s ≡ₚ id :: ((l1 ++ l2) ≫= thread_ids)) as Hfly by (unfold flying; rewrite Hth; apply (bind_split thread_ids)).
  assert (counted s ≡ₚ id :: ((l1 ++ l2) ≫= counted_ids)) as Hcnt by (unfold counted; rewrite Hth; apply (bind_split counted_ids)).
  assert (chans s !! id = Some (key, Waiting)) as Hid by (apply Hs; rewrite Hth; set_solver).
  constructor; unfold flying, counted; cbn [push pending count_pending chans threads].
  - by rewrite length_set.
  - rewrite (i_count _ Hs). f_equal. apply Permutation_length. rewrite Hp, Hcnt. solve_Permutation.
  - apply Hs.
  - rewrite Hp. eapply NoDup_perm; [|exact (i_nodup _ Hs)]. rewrite Hfly. solve_Permutation.
  - intros i. rewrite Hp, elem_of_cons. intros [->|Hin].
    + exists key, (default [] (get (pending s) key) ++ [id]). rewrite get_set, decide_True by done. set_solver.
    + destruct (i_home _ Hs _ Hin) as (k & l & Hg & Hil). destruct (decide (k = key)) as [->|Hne].
      * exists key, (l ++ [id]). rewrite get_set, decide_True, Hg by done. set_solver.
      * exists k, l. rewrite get_set, decide_False by done. done.
  - intros k l. rewrite get_set by done. case_decide as Hk.
    + subst k. intros [= <-]. split; [by destruct (default _ _)|]. intros i [Hin| ->%list_elem_of_singleton]%elem_of_app.
      * destruct (get (pending s) key) as [l0|] eqn:Hg; simpl in Hin; [|set_solver].
        destruct (i_pending _ Hs _ _ Hg) as [_ Hp0]. destruct (Hp0 i Hin) as [Hi Hc]. rewrite Hp. split; [set_solver|].
        destruct Hc as [?|[? Hcl]]; [by left|right]. split; [done|]. rewrite Hth in Hcl. set_solver.
      * rewrite Hp. split; [set_solver|by left].
    + intros Hg. destruct (i_pending _ Hs _ _ Hg) as [Hne Hp0]. split; [done|]. intros i Hin. destruct (Hp0 i Hin) as [Hi Hc].
      rewrite Hp. split; [set_solver|]. destruct Hc as [?|[? Hcl]]; [by left|right]. split; [done|]. rewrite Hth in Hcl. set_solver.
  - intros k i Hin. apply Hs. rewrite Hth. set_solver.
  - intros i Hin. apply Hs. rewrite Hfly. set_solver.
  - intros i k Hc. pose proof (i_waiting _ Hs i k Hc) as Hin. rewrite Hp. rewrite elem_of_app, Hfly in Hin. set_solver.
Qed.

Lemma notify_inv s key value : inv s -> inv (notify_begin hash s key value).1.
Proof.
  intros Hs. unfold notify_begin. destruct (get (pending s) key) as [ids|] eqn:Hg; [|done].
  pose proof (i_len _ Hs) as Hl. pose proof (ids_of_unset (pending s) key ids Hl Hg) as Hp.
  assert (NoDup (ids ++ ids_of (unset (pending s) key))) as Hnd.
  { rewrite <-Hp. pose proof (i_nodup _ Hs) as Hn. by apply NoDup_app in Hn as [? _]. }
  apply NoDup_app in Hnd as (_ & Hdis & _).
  constructor; unfold flying, counted; cbn [fst pending count_pending chans threads]; rewrite ?bind_snoc; cbn [thread_ids counted_ids].
  - by rewrite length_unset.
  - rewrite (i_count _ Hs). f_equal. apply Permutation_length. rewrite Hp. unfold counted. solve_Permutation.
  - apply Hs.
  - eapply NoDup_perm; [|exact (i_nodup _ Hs)]. rewrite Hp. unfold flying. solve_Permutation.
  - intros i Hin. destruct (i_home _ Hs i) as (k & l & Hgk & Hil); [rewrite Hp; set_solver|].
    exists k, l. rewrite get_unset by done. rewrite decide_False; [done|]. intros ->. rewrite Hg in Hgk. injection Hgk as <-. by apply (Hdis i).
  - intros k l. rewrite get_unset by done. case_decide as Hk; [done|]. intros Hgk. destruct (i_pending _ Hs _ _ Hgk) as [Hne Hp0].
    split; [done|]. intros i Hin. destruct (Hp0 i Hin) as [Hi Hc]. split.
    + rewrite Hp in Hi. apply elem_of_app in Hi as [Hi|Hi]; [|done]. exfalso. destruct (i_pending _ Hs _ _ Hg) as [_ Hp1].
      destruct (Hp1 i Hi) as [_ Hc1]. naive_solver congruence.
    + destruct Hc as [?|[? Hcl]]; [by left|right]. set_solver.
  - intros k i Hin. apply Hs. set_solver.
  - intros i [Hin|Hin]%elem_of_app; [by apply Hs|]. destruct (i_pending _ Hs _ _ Hg) as [_ Hp1].
    destruct (Hp1 i Hin) as [_ [Hc|[Hc _]]]; eauto 10.
  - intros i k Hc. pose proof (i_waiting _ Hs i k Hc) as Hin. rewrite Hp in Hin. unfold flying in Hin. set_solver.
Qed.

Lemma subtract_inv s l1 l2 ids value : inv s -> threads s = l1 ++ Subtract ids value :: l2 -> inv (subtract s ids value (l1 ++ l2)).1.
Proof.
  intros Hs Hth.
  assert (flying s ≡ₚ ids ++ ((l1 ++ l2) ≫= thread_ids)) as Hfly by (unfold flying; rewrite Hth; apply (bind_split thread_ids)).
  assert (counted s ≡ₚ ids ++ ((l1 ++ l2) ≫= counted_ids)) as Hcnt by (unfold counted; rewrite Hth; apply (bind_split counted_ids)).
  assert (count_pending s = N.of_nat (length ids) + N.of_nat (length (ids_of (pending s) ++ ((l1 ++ l2) ≫= counted_ids)))) as Hc.
  { rewrite (i_count _ Hs). rewrite (Permutation_length (l' := ids ++ ids_of (pending s) ++ ((l1 ++ l2) ≫= counted_ids))).
    - rewrite length_app. lia.
    - rewrite Hcnt. solve_Permutation. }
  pose proof (i_bound _ Hs) as Hb.
  constructor; unfold flying, counted; cbn [subtract fst pending count_pending chans threads]; rewrite ?bind_snoc; cbn [thread_ids counted_ids];
    rewrite ?app_nil_r.
  - apply Hs.
  - rewrite wrapping_sub64_small by lia. lia.
  - rewrite wrapping_sub64_small by lia. lia.
  - eapply NoDup_perm; [|exact (i_nodup _ Hs)]. rewrite Hfly. solve_Permutation.
  - apply Hs.
  - intros k l Hg. destruct (i_pending _ Hs _ _ Hg) as [Hne Hp]. split; [done|]. intros i Hin. destruct (Hp i Hin) as [Hi [?|[? Hcl]]]; [auto|].
    split; [done|]. right. split; [done|]. rewrite Hth in Hcl. set_solver.
  - intros k i Hin. apply Hs. rewrite Hth. set_solver.
  - intros i Hin. apply Hs. rewrite Hfly. set_solver.
  - intros i k Hci. pose proof (i_waiting _ Hs i k Hci) as Hin. rewrite elem_of_app, Hfly in Hin. set_solver.
Qed.

(** Steps that only change the channel of a registration that is not pending. *)
Lemma pending_kept s (chans' : gmap N (N * chan)) (threads' : list thread) : inv s ->
  (forall id, id ∈ ids_of (pending s) -> chans' !! id = chans s !! id) ->
  (forall k, Cleanup k ∈ threads s -> Cleanup k ∈ threads') ->
  forall k l, get (pending s) k = Some l -> l <> [] /\ forall id, id ∈ l ->
    id ∈ ids_of (pending s) /\ (chans' !! id = Some (k, Waiting) \/ (chans' !! id = Some (k, Dropped) /\ Cleanup k ∈ threads')).
Proof.
  intros Hs Hch Hcl k l Hg. destruct (i_pending _ Hs _ _ Hg) as [Hne Hp]. split; [done|]. intros i Hin.
  destruct (Hp i Hin) as [Hi Hc]. split; [done|]. rewrite Hch by done. naive_solver.
Qed.

Lemma read_send_inv s l1 l2 id ids value : inv s -> threads s = l1 ++ Send (id :: ids) value :: l2 -> inv (send_one s id ids value (l1 ++ l2)).
Proof.
  intros Hs Hth.
  assert (flying s ≡ₚ id :: ids ++ ((l1 ++ l2) ≫= thread_ids)) as Hfly by (unfold flying; rewrite Hth; apply (bind_split thread_ids)).
  assert (counted s ≡ₚ (l1 ++ l2) ≫= counted_ids) as Hcnt by (unfold counted; rewrite Hth; apply (bind_split counted_ids)).
  pose proof (i_nodup _ Hs) as Hnd. rewrite Hfly in Hnd.
  assert (id ∉ ids_of (pending s) /\ id ∉ ids ++ ((l1 ++ l2) ≫= thread_ids)) as [Hnp Hnf].
  { apply NoDup_app in Hnd as (_ & Hd & Hn). apply NoDup_cons in Hn as [? _]. split; [|done]. intros Hin. apply (Hd id Hin). by left. }
  set (ch := chans (send_one s id ids value (l1 ++ l2))).
  assert (forall i, i <> id -> ch !! i = chans s !! i) as Hch.
  { intros i Hi. unfold ch. simpl. destruct (chans s !! id) as [[? []]|]; by rewrite ?lookup_insert_ne. }
  constructor; unfold flying, counted; cbn [send_one pending count_pending threads]; fold ch; rewrite ?bind_snoc; cbn [thread_ids counted_ids];
    rewrite ?app_nil_r.
  - apply Hs.
  - rewrite (i_count _ Hs). f_equal. apply Permutation_length. by rewrite Hcnt.
  - apply Hs.
  - apply NoDup_app in Hnd as (? & Hd & Hn). apply NoDup_cons in Hn as [_ Hn]. apply NoDup_app. split; [done|]. split.
    + intros i Hi Hin. apply (Hd i Hi). right. by rewrite (Permutation_app_comm ids).
    + by rewrite Permutation_app_comm.
  - apply Hs.
  - apply (pending_kept s ch); [done|intros i Hi; apply Hch; by intros ->|]. intros k Hk. rewrite Hth in Hk. set_solver.
  - intros k i Hin. assert (i <> id) as Hne.
    { intros ->. apply Hnf. apply elem_of_app. right. apply list_elem_of_bind. exists (Push k id). set_solver. }
    rewrite Hch by done. apply Hs. rewrite Hth. set_solver.
  - intros i Hin. rewrite Hch by (intros ->; apply Hnf; by rewrite Permutation_app_comm). apply Hs. rewrite Hfly. set_solver.
  - intros i k Hc. destruct (decide (i = id)) as [->|Hne].
    + exfalso. unfold ch in Hc. simpl in Hc. destruct (chans s !! id) as [[? []]|] eqn:Hid; rewrite ?lookup_insert_eq in Hc; congruence.
    + rewrite Hch in Hc by done. pose proof (i_waiting _ Hs i k Hc) as Hin. rewrite elem_of_app, Hfly in Hin. set_solver.
Qed.

Lemma sent_inv s l1 l2 value : inv s -> threads s = l1 ++ Send [] value :: l2 ->
  inv (mk (pending s) (count_pending s) (chans s) (l1 ++ l2)).
Proof.
  intros Hs Hth.
  assert (flying s ≡ₚ (l1 ++ l2) ≫= thread_ids) as Hfly by (unfold flying; rewrite Hth; apply (bind_split thread_ids)).
  assert (counted s ≡ₚ (l1 ++ l2) ≫= counted_ids) as Hcnt by (unfold counted; rewrite Hth; apply (bind_split counted_ids)).
  constructor; unfold flying, counted; cbn [pending count_pending chans threads]; rewrite <-?Hfly, <-?Hcnt; try apply Hs.
  - apply (pending_kept s (chans s)); [done|done|]. intros k Hk. rewrite Hth in Hk. set_solver.
  - intros k i Hin. apply Hs. rewrite Hth. set_solver.
  - intros i. rewrite <-Hfly. apply Hs.
  - intros i k Hc. pose proof (i_waiting _ Hs i k Hc) as Hin. by rewrite elem_of_app, Hfly, <-elem_of_app in Hin.
Qed.

Lemma poll_inv s id : inv s -> inv (poll s id).1.
Proof.
  intros Hs. unfold poll. destruct (chans s !! id) as [[k []]|] eqn:Hid; try done. simpl.
  assert (id ∉ ids_of (pending s)) as Hnp.
  { intros Hin. destruct (i_home _ Hs _ Hin) as (k' & l & Hg & Hl). destruct (i_pending _ Hs _ _ Hg) as [_ Hp]. destruct (Hp _ Hl) as [_ [?|[? _]]]; congruence. }
  assert (id ∉ flying s) as Hnf by (intros Hin; destruct (i_flying _ Hs _ Hin) as (k' & c & Hc & [->| ->]); congruence).
  constructor; cbn [pending count_pending chans threads]; try apply Hs.
  - apply (pending_kept s); [done| |done]. intros i Hi. apply lookup_insert_ne. by intros ->.
  - intros k' i Hin. rewrite lookup_insert_ne; [by apply Hs|]. intros ->. apply Hnf, list_elem_of_bind. exists (Push k' i). set_solver.
  - intros i Hin. rewrite lookup_insert_ne; [by apply Hs|]. by intros ->.
  - intros i k' [[-> [=]]|[_ Hc]]%lookup_insert_Some. by eapply Hs.
Qed.

Lemma drop_inv s id : inv s -> (forall k, Push k id ∉ threads s) -> inv (drop_begin s id).
Proof.
  intros Hs Hnp. unfold drop_begin.
  assert (forall k c, chans s !! id = Some (k, c) -> inv (mk (pending s) (count_pending s) (<[id := (k, Dropped)]> (chans s)) (threads s ++ [Cleanup k]))) as Hd.
  { intros k c Hid. constructor; unfold flying, counted; cbn [pending count_pending chans threads]; rewrite ?bind_snoc; cbn [thread_ids counted_ids];
      rewrite ?app_nil_r; try apply Hs.
    - intros k' l Hg. destruct (i_pending _ Hs _ _ Hg) as [Hne Hp]. split; [done|]. intros i Hin. destruct (Hp i Hin) as [Hi Hc]. split; [done|].
      destruct (decide (i = id)) as [->|Hne']; [|rewrite lookup_insert_ne by done; set_solver]. rewrite lookup_insert_eq. right.
      assert (k' = k) as -> by (destruct Hc as [?|[? _]]; congruence). set_solver.
    - intros k' i [Hin|Hin]%elem_of_app; [|set_solver]. rewrite lookup_insert_ne; [by apply Hs|]. intros ->. by apply (Hnp k').
    - intros i Hin. destruct (decide (i = id)) as [->|Hne]; [rewrite lookup_insert_eq; eauto|]. rewrite lookup_insert_ne by done. by apply Hs.
    - intros i k' [[-> [=]]|[_ Hc]]%lookup_insert_Some. by eapply Hs. }
  destruct (chans s !! id) as [[k []]|] eqn:Hid; eauto.
Qed.

(** What [cleanup] keeps and what it removes. *)
Definition kept s (ids : list N) : list N := filter (fun id => is_closed s id = false) ids.
Definition removed s (ids : list N) : list N := filter (fun id => is_closed s id = true) ids.

Lemma kept_removed s ids : ids ≡ₚ removed s ids ++ kept s ids.
Proof.
  unfold kept, removed. induction ids as [|id ids IH]; [done|]. destruct (is_closed s id) eqn:Hc.
  - rewrite filter_cons_True, filter_cons_False by congruence. simpl. by rewrite <-IH.
  - rewrite filter_cons_False, filter_cons_True by congruence. rewrite <-Permutation_middle. by rewrite <-IH.
Qed.

Lemma cleanup_ids s key ids : inv s -> get (pending s) key = Some ids ->
  let p := if bool_decide (kept s ids = []) then unset (pending s) key else set (pending s) key (kept s ids) in
  length p = 255%nat /\ ids_of (pending s) ≡ₚ removed s ids ++ ids_of p /\
  (forall k, get p k = if decide (k = key) then (if bool_decide (kept s ids = []) then None else Some (kept s ids)) else get (pending s) k).
Proof.
  intros Hs Hg p. pose proof (i_len _ Hs) as Hl. pose proof (ids_of_unset _ _ _ Hl Hg) as Hu. pose proof (kept_removed s ids) as Hkr.
  subst p. case_bool_decide as Hk.
  - split; [by rewrite length_unset|]. split; [|intros k; by rewrite get_unset].
    rewrite Hu. rewrite Hkr at 1. rewrite Hk, app_nil_r. done.
  - split; [by rewrite length_set|]. split; [|intros k; by rewrite get_set].
    rewrite (ids_of_replace _ _ _ _ Hl Hg), Hu. rewrite Hkr at 1. by rewrite <-app_assoc.
Qed.

(** The calls that go on besides a cleanup. *)
Lemma cleanup_rest s l1 l2 key : inv s -> threads s = l1 ++ Cleanup key :: l2 ->
  flying s ≡ₚ (l1 ++ l2) ≫= thread_ids /\ counted s ≡ₚ (l1 ++ l2) ≫= counted_ids /\
  (forall k, k <> key -> Cleanup k ∈ threads s -> Cleanup k ∈ l1 ++ l2) /\
  (forall k i, Push k i ∈ l1 ++ l2 -> chans s !! i = Some (k, Waiting)).
Proof.
  intros Hs Hth. unfold flying, counted. split_and!.
  - rewrite Hth. apply (bind_split thread_ids).
  - rewrite Hth. apply (bind_split counted_ids).
  - intros k Hk. rewrite Hth. set_solver.
  - intros k i Hin. apply Hs. rewrite Hth. set_solver.
Qed.

Lemma cleanup_some_inv s l1 l2 key ids : inv s -> threads s = l1 ++ Cleanup key :: l2 -> get (pending s) key = Some ids ->
  inv (cleanup hash s key (l1 ++ l2)).
Proof.
  intros Hs Hth Hg. unfold cleanup. rewrite Hg.
  destruct (cleanup_rest s l1 l2 key Hs Hth) as (Hfly & Hcnt & Hcl & Hpush).
  fold (kept s ids). destruct (cleanup_ids s key ids Hs Hg) as (Hlen & Hperm & Hget).
  set (p := if bool_decide (kept s ids = []) then _ else _) in *. cbv zeta in *.
  assert (count_pending s = N.of_nat (length (removed s ids)) + N.of_nat (length (ids_of p ++ ((l1 ++ l2) ≫= counted_ids)))) as Hc.
  { rewrite (i_count _ Hs), length_app, (Permutation_length Hperm), (Permutation_length Hcnt), !length_app. lia. }
  assert (length ids - length (kept s ids) = length (removed s ids))%nat as ->.
  { rewrite (Permutation_length (kept_removed s ids)), length_app. lia. }
  pose proof (i_bound _ Hs) as Hb. pose proof (i_nodup _ Hs) as Hnd. rewrite Hperm, Hfly, <-app_assoc in Hnd.
  assert (forall i, i ∈ kept s ids -> chans s !! i = Some (key, Waiting)) as Hkept.
  { intros i [Hci Hi]%list_elem_of_filter. destruct (i_pending _ Hs _ _ Hg) as [_ Hp]. destruct (Hp i Hi) as [_ [?|[Hd _]]]; [done|].
    unfold is_closed in Hci. by rewrite Hd in Hci. }
  constructor; unfold flying, counted; cbn [pending count_pending chans threads].
  + done.
  + rewrite wrapping_sub64_small by lia. lia.
  + rewrite wrapping_sub64_small by lia. lia.
  + by apply NoDup_app in Hnd as (_ & _ & ?).
  + intros i Hi. destruct (i_home _ Hs i) as (k & l & Hgk & Hil); [rewrite Hperm; set_solver|].
    destruct (decide (k = key)) as [->|Hne]; [|exists k, l; rewrite Hget, decide_False by done; done].
    rewrite Hg in Hgk. injection Hgk as <-. assert (i ∈ kept s ids) as Hik.
    { apply list_elem_of_filter. split; [|done]. apply not_true_iff_false. intros Hci. apply NoDup_app in Hnd as (_ & Hd & _).
      apply (Hd i); [by apply list_elem_of_filter|set_solver]. }
    exists key, (kept s ids). rewrite Hget, decide_True, bool_decide_false by (try done; intros Hk0; rewrite Hk0 in Hik; set_solver). done.
  + intros k l. rewrite Hget. case_decide as Hk.
    * subst k. case_bool_decide as Hk0; [done|]. intros [= <-]. split; [done|]. intros i Hi. split; [|left; by apply Hkept].
      destruct (i_pending _ Hs _ _ Hg) as [_ Hp]. pose proof Hi as [Hci Hii]%list_elem_of_filter. destruct (Hp i Hii) as [Hin _].
      rewrite Hperm, elem_of_app in Hin. destruct Hin as [[Hci' _]%list_elem_of_filter|Hin]; [congruence|done].
    * intros Hgk. destruct (i_pending _ Hs _ _ Hgk) as [Hne Hp]. split; [done|]. intros i Hi. destruct (Hp i Hi) as [Hin Hci]. split.
      -- rewrite Hperm, elem_of_app in Hin. destruct Hin as [[_ Hii]%list_elem_of_filter|Hin]; [|done]. exfalso.
         destruct (i_pending _ Hs _ _ Hg) as [_ Hp']. destruct (Hp' i Hii) as [_ Hci']. naive_solver congruence.
      -- naive_solver.
  + exact Hpush.
  + intros i Hi. apply Hs. by rewrite Hfly.
  + intros i k Hci. pose proof (i_waiting _ Hs i k Hci) as Hin. rewrite elem_of_app, Hfly, Hperm, elem_of_app in Hin.
    destruct Hin as [[[Hcl' _]%list_elem_of_filter|Hin]|Hin]; [|set_solver..]. unfold is_closed in Hcl'. by rewrite Hci in Hcl'.
Qed.

Lemma cleanup_inv s l1 l2 key : inv s -> threads s = l1 ++ Cleanup key :: l2 -> inv (cleanup hash s key (l1 ++ l2)).
Proof.
  intros Hs Hth. destruct (get (pending s) key) as [ids|] eqn:Hg; [by eapply cleanup_some_inv|].
  unfold cleanup. rewrite Hg. destruct (cleanup_rest s l1 l2 key Hs Hth) as (Hfly & Hcnt & Hcl & Hpush).
  constructor; unfold flying, counted; cbn [pending count_pending chans threads]; try apply Hs.
  - rewrite (i_count _ Hs). f_equal. apply Permutation_length. by rewrite Hcnt.
  - by rewrite <-Hfly; apply Hs.
  - intros k l Hgk. assert (k <> key) as Hne by congruence. destruct (i_pending _ Hs _ _ Hgk) as [? Hp]. split; [done|].
    intros i Hi. destruct (Hp i Hi) as [? Hci]. naive_solver.
  - exact Hpush.
  - intros i Hi. apply Hs. by rewrite Hfly.
  - intros i k Hci. pose proof (i_waiting _ Hs i k Hci) as Hin. by rewrite elem_of_app, Hfly, <-elem_of_app in Hin.
Qed.

Lemma notify_read_step s s' : inv s -> step hash s s' -> inv s'.
Proof.
  intros Hs [keys Hf Hnd Hb|l1 l2 key id Hth|key value|l1 l2 ids value Hth|l1 l2 id ids value Hth|l1 l2 value Hth|id|id Hnp|l1 l2 key Hth].
  - by apply register_inv.
  - by apply push_inv.
  - by apply notify_inv.
  - by apply subtract_inv.
  - by apply read_send_inv.
  - by eapply sent_inv.
  - by apply poll_inv.
  - by apply drop_inv.
  - by apply cleanup_inv.
Qed.

Lemma notify_read_steps s s' : rtc (step hash) s s' -> inv s -> inv s'.
Proof. induction 1 as [|x y z Hxy _ IH]; [done|]. intros Hx. apply IH. by eapply notify_read_step. Qed.

Lemma notify_read_reachable s : rtc (step hash) new s -> inv s.
Proof. intros Hr. apply (notify_read_steps new s Hr), notify_read_new_inv. Qed.

(** A registration that a [notify] with this value has taken: it will be sent, was sent, or its receiver is gone. *)
Definition delivered s (k id value : N) : Prop :=
  (exists c, chans s !! id = Some (k, c) /\ (c = Sent value \/ c = Taken value \/ c = Dropped)) \/
  (chans s !! id = Some (k, Waiting) /\ exists ids, id ∈ ids /\ (Subtract ids value ∈ threads s \/ Send ids value ∈ threads s)).

Lemma flying_in s th id : th ∈ threads s -> id ∈ thread_ids th -> id ∈ flying s.
Proof. intros Hth Hid. apply list_elem_of_bind. by exists th. Qed.

(** Only one call holds a registration. *)
Lemma flying_once s l1 th l2 th' id : inv s -> threads s = l1 ++ th :: l2 -> id ∈ thread_ids th -> th' ∈ l1 ++ l2 -> id ∉ thread_ids th'.
Proof.
  intros Hs Hth Hid Hin Hid'. pose proof (i_nodup _ Hs) as Hnd. apply NoDup_app in Hnd as (_ & _ & Hnd).
  unfold flying in Hnd. rewrite Hth, bind_split in Hnd. apply NoDup_app in Hnd as (_ & Hd & _).
  apply (Hd id Hid), list_elem_of_bind. by exists th'.
Qed.

(** The steps keep a delivery whose channel they do not change, with its call. *)
Lemma delivered_kept s s' k id value : delivered s k id value -> chans s' !! id = chans s !! id ->
  (forall ids, id ∈ ids -> Subtract ids value ∈ threads s \/ Send ids value ∈ threads s ->
     exists ids', id ∈ ids' /\ (Subtract ids' value ∈ threads s' \/ Send ids' value ∈ threads s')) ->
  delivered s' k id value.
Proof.
  intros [(c & Hc & Hr)|(Hc & ids & Hid & Hth)] Hch Hk; [left; exists c; by rewrite Hch|].
  right. rewrite Hch. split; [done|]. by apply (Hk ids).
Qed.

Lemma delivered_known s k id value : delivered s k id value -> exists c, chans s !! id = Some (k, c).
Proof. intros [(c & Hc & _)|[Hc _]]; eauto. Qed.

Lemma delivered_send s l1 l2 i ids v k id value : inv s -> delivered s k id value -> threads s = l1 ++ Send (i :: ids) v :: l2 ->
  delivered (send_one s i ids v (l1 ++ l2)) k id value.
Proof.
  intros Hs Hd Hth. destruct (delivered_known _ _ _ _ Hd) as [c0 Hc0].
  destruct (decide (i = id)) as [->|Hne].
  + assert (c0 = Waiting -> v = value) as Hv.
    { intros ->. destruct Hd as [(c & Hc & [->|[->| ->]])|(_ & ids' & Hid & Hor)]; [congruence..|]. rewrite Hth in Hor.
      assert (id ∈ thread_ids (Send (id :: ids) v)) as Hin by (simpl; set_solver).
      pose proof (fun th' => flying_once s l1 _ l2 th' id Hs Hth Hin) as Hone.
      destruct Hor as [Hor|Hor]; [destruct (Hone (Subtract ids' value)); [set_solver|done]|].
      apply elem_of_app in Hor as [Hor|[[= _ ->]|Hor]%elem_of_cons]; [|done|]; (destruct (Hone (Send ids' value)); [set_solver|done]). }
    left. unfold send_one. simpl. rewrite Hc0. destruct Hd as [(c & Hc & Hr)|(Hc & _)].
    * rewrite Hc in Hc0. injection Hc0 as ->. exists c0. destruct Hr as [->|[->| ->]]; rewrite Hc; auto.
    * rewrite Hc in Hc0. injection Hc0 as <-. exists (Sent v). rewrite lookup_insert_eq, Hv by done. auto.
  + apply (delivered_kept s); [done| |]; unfold send_one; simpl.
    * destruct (chans s !! i) as [[? []]|]; by rewrite ?lookup_insert_ne.
    * intros ids' Hid [Hor|Hor]; rewrite Hth in Hor; [exists ids'; set_solver|].
      apply elem_of_app in Hor as [Hor|[[= -> ->]|Hor]%elem_of_cons]; 
        [exists ids'|exists ids|exists ids']; (split; [set_solver|right; set_solver]).
Qed.

Lemma delivered_step s s' k id value : inv s -> delivered s k id value -> step hash s s' -> delivered s' k id value.
Proof.
  intros Hs Hd Hst. destruct (delivered_known _ _ _ _ Hd) as [c0 Hc0].
  destruct Hst as [keys Hf Hnd Hb|l1 l2 key i Hth|key v|l1 l2 ids v Hth|l1 l2 i ids v Hth|l1 l2 v Hth|i|i Hnp|l1 l2 key Hth].
  - apply (delivered_kept s); [done| |]; cbn [register_begin chans threads].
    + apply new_chan_out; [done|]. intros ([k' i'] & Heq & Hin)%list_elem_of_fmap. simpl in Heq. subst i'. by rewrite (Hf k' id Hin) in Hc0.
    + intros ids Hid Hor. exists ids. set_solver.
  - apply (delivered_kept s); [done..|]. intros ids Hid Hor. exists ids. simpl. rewrite Hth in Hor. set_solver.
  - unfold notify_begin. destruct (get (pending s) key) as [ids|]; [|done].
    apply (delivered_kept s); [done..|]. intros ids' Hid Hor. exists ids'. simpl. set_solver.
  - apply (delivered_kept s); [done..|]. intros ids' Hid Hor. exists ids'. simpl. rewrite Hth in Hor. set_solver.
  - by apply delivered_send.
  - apply (delivered_kept s); [done..|]. intros ids' Hid Hor. exists ids'. simpl. rewrite Hth in Hor. split; [done|].
    assert (Send ids' value <> Send [] v) as Hne by (intros [= -> _]; set_solver).
    destruct Hor as [Hor|Hor]; [left|right]; rewrite elem_of_app, elem_of_cons in Hor; rewrite elem_of_app; naive_solver.
  - unfold poll. destruct (chans s !! i) as [[k' []]|] eqn:Hi; try done. simpl. destruct (decide (i = id)) as [->|Hne].
    + left. destruct Hd as [(c & Hc & [->|[->| ->]])|[Hc _]]; rewrite Hc in Hi; simplify_eq.
      eexists. simpl. rewrite lookup_insert_eq. eauto.
    + apply (delivered_kept s); [done|by apply lookup_insert_ne|]. eauto.
  - assert (forall k', chans s !! i = Some (k', Waiting) \/ (exists w, chans s !! i = Some (k', Sent w)) ->
      delivered (mk (pending s) (count_pending s) (<[i := (k', Dropped)]> (chans s)) (threads s ++ [Cleanup k'])) k id value) as Hdr.
    { intros k' Hi. destruct (decide (i = id)) as [->|Hne].
      - assert (k' = k) as -> by (destruct Hi as [?|[? ?]]; congruence). left. exists Dropped. simpl. rewrite lookup_insert_eq. auto.
      - apply (delivered_kept s); [done|by apply lookup_insert_ne|]. intros ids Hid Hor. exists ids. simpl. set_solver. }
    unfold drop_begin. destruct (chans s !! i) as [[k' []]|] eqn:Hi; eauto.
  - unfold cleanup. destruct (get (pending s) key) as [l|]; (apply (delivered_kept s); [done..|]); intros ids' Hid Hor; exists ids'; simpl;
      rewrite Hth in Hor; set_solver.
Qed.

Lemma delivered_steps s s' k id value : rtc (step hash) s s' -> inv s -> delivered s k id value -> delivered s' k id value.
Proof.
  induction 1 as [|x y z Hxy _ IH]; [done|]. intros Hx Hd. apply IH; [by eapply notify_read_step|by eapply delivered_step].
Qed.

(** At rest, the pending registrations are the ones that wait. *)
Lemma quiescent_pending s : inv s -> threads s = [] ->
  forall id k, chans s !! id = Some (k, Waiting) <-> exists l, get (pending s) k = Some l /\ id ∈ l.
Proof.
  intros Hs Hq id k. split.
  - intros Hc. pose proof (i_waiting _ Hs id k Hc) as Hin. unfold flying in Hin. rewrite Hq, app_nil_r in Hin.
    destruct (i_home _ Hs id Hin) as (k' & l & Hg & Hl). destruct (i_pending _ Hs _ _ Hg) as [_ Hp].
    destruct (Hp id Hl) as [_ [?|[? Hcl]]]; [|rewrite Hq in Hcl; set_solver]. assert (k' = k) as -> by congruence. eauto.
  - intros (l & Hg & Hl). destruct (i_pending _ Hs _ _ Hg) as [_ Hp]. destruct (Hp id Hl) as [_ [?|[? Hcl]]]; [done|]. rewrite Hq in Hcl. set_solver.
Qed.

Lemma quiescent_count s : inv s -> threads s = [] ->
  count_pending s = N.of_nat (size (filter (fun kc => kc.2.2 = Waiting) (chans s))).
Proof.
  intros Hs Hq. pose proof (i_nodup _ Hs) as Hnd. rewrite (i_count _ Hs). unfold counted, flying in *. rewrite Hq in *.
  cbn [mbind list_bind] in *. rewrite app_nil_r in *. f_equal. rewrite <-size_dom.
  rewrite <-(size_list_to_set (C := gset N) (ids_of (pending s))) by done. f_equal. apply set_eq. intros id.
  rewrite elem_of_list_to_set, elem_of_dom. split.
  - intros Hin. destruct (i_home _ Hs id Hin) as (k & l & Hg & Hl). exists (k, Waiting). apply map_lookup_filter_Some. split; [|done].
    apply quiescent_pending; eauto.
  - intros [[k c] [Hc Hw]%map_lookup_filter_Some]. simpl in Hw. subst c. pose proof (i_waiting _ Hs id k Hc) as Hin.
    unfold flying in Hin. by rewrite Hq, app_nil_r in Hin.
Qed.

End facts.
End NotifyReadFacts.

(** * Written once *)

Module OnceFacts.

(** The calls of a [NotifyOnce], in the order of its lock. *)
Inductive once := Wait (id : N) | Notify.

#[global] Instance once_eq_dec : EqDecision once.
Proof. solve_decision. Defined.

Definition once_step (s : NotifyOnce.t) (o : once) : NotifyOnce.t :=
  match o with
  | Wait id => NotifyOnce.wait s id
  | Notify => match NotifyOnce.notify s with Ok s' => s' | _ => s end
  end.

Definition waiters (os : list once) : gset N := list_to_set (omap (fun o => match o with Wait id => Some id | Notify => None end) os).

(** Nothing is ready before the notification, and every waiter is after it, also those that come
    later; the notification succeeds once. *)
Theorem once_notified os :
  let s := foldl once_step NotifyOnce.new os in
  if bool_decide (Notify ∈ os)
  then NotifyOnce.waiting s = ∅ /\ NotifyOnce.ready s = waiters os /\ NotifyOnce.notify s = Err ()
  else NotifyOnce.waiting s = waiters os /\ NotifyOnce.ready s = ∅ /\ exists s', NotifyOnce.notify s = Ok s'.
Proof.
  cbv zeta. induction os as [|o os IH] using rev_ind; [split_and!; [done..|eauto]|].
  rewrite foldl_app. simpl. destruct (foldl once_step NotifyOnce.new os) as [armed waiting ready]. unfold waiters in *.
  rewrite omap_app, list_to_set_app_L. unfold NotifyOnce.notify in *. simpl in IH.
  destruct o as [id|]; simpl; unfold NotifyOnce.wait, NotifyOnce.notify; simpl.
  - rewrite (bool_decide_ext (Notify ∈ os ++ [Wait id]) (Notify ∈ os)) by set_solver.
    case_bool_decide; destruct IH as (-> & -> & Hn); (destruct armed; [try done|try by destruct Hn]); simpl.
    + split_and!; [done|set_solver|done].
    + split_and!; [set_solver|done|eauto].
  - rewrite (bool_decide_true (Notify ∈ os ++ [Notify])) by set_solver.
    case_bool_decide; destruct IH as (-> & -> & Hn); (destruct armed; [try done|try by destruct Hn]); simpl; (split_and!; [done|set_solver|done]).
Qed.

Definition cell_step (s : AsyncOnceCell.t) (v : N) : AsyncOnceCell.t := match AsyncOnceCell.set s v with Ok s' => s' | _ => s end.

(** The value that is read is the first one that was set: reading waits for it and does not panic. *)
Theorem once_set vs : AsyncOnceCell.get (foldl cell_step AsyncOnceCell.new vs) = Ok (head vs).
Proof.
  destruct vs as [|v vs]; [done|]. simpl. change (cell_step AsyncOnceCell.new v) with (AsyncOnceCell.mk (Some v) false).
  by induction vs as [|v' vs IH].
Qed.

End OnceFacts.

(** * Properties *)

Section properties.
Context (hash : N -> N).

(** A noticer resolves exactly when its notifier is notified after the subscription, in any
    interleaving of subscriptions, notifications and polls; and no wakeup is lost: the
    task whose poll was the last one of the noticer is woken by the notification. *)
Theorem noticer_resolves os1 id os2 s : Notifier.run Notifier.new (os1 ++ Notifier.Subscribe id :: os2) = Some s ->
  (forall w, (Notifier.poll s id w).2 = bool_decide (Notifier.Notify ∈ os2)) /\
  (forall os3 w os4, os2 = os3 ++ Notifier.Poll id w :: os4 -> Notifier.Notify ∉ os3 -> (forall w', Notifier.Poll id w' ∉ os4) ->
     Notifier.Notify ∈ os4 -> w ∈ Notifier.woken s).
Proof.
  rewrite NotifierFacts.run_app. intros (s1 & Hr1 & Hr)%bind_Some. pose proof (NotifierFacts.notifier_run_inv _ _ _ NotifierFacts.notifier_new_inv Hr1) as Hs1.
  cbn [Notifier.run] in Hr. apply bind_Some in Hr as (s2 & Hsub & Hr). pose proof (NotifierFacts.step_inv _ _ _ Hs1 Hsub) as Hs2.
  assert (Notifier.cells s2 !! id = Some (false, None)) as Hc.
  { simpl in Hsub. case_bool_decide; [|done]. injection Hsub as <-. simpl. by rewrite lookup_insert_eq. }
  split.
  - intros w. destruct (NotifierFacts.run_cell os2 s2 s id false None Hs2 Hr Hc) as [w' Hc']. unfold Notifier.poll. rewrite Hc'. simpl.
    by destruct (bool_decide (Notifier.Notify ∈ os2)).
  - intros os3 w os4 -> Hn3 Hp Hn4. rewrite NotifierFacts.run_app in Hr. apply bind_Some in Hr as (s3 & Hr3 & Hr4).
    destruct (NotifierFacts.run_cell os3 s2 s3 id false None Hs2 Hr3 Hc) as [w' Hc']. rewrite bool_decide_false in Hc' by done.
    pose proof (NotifierFacts.notifier_run_inv _ _ _ Hs2 Hr3) as Hs3. cbn [Notifier.run] in Hr4. apply bind_Some in Hr4 as (s4 & Hpoll & Hr4).
    pose proof (NotifierFacts.step_inv _ _ _ Hs3 Hpoll) as Hs4. apply (NotifierFacts.run_wakes os4 s4 s id w Hs4 Hr4); [|done|done].
    simpl in Hpoll. case_bool_decide; [|done]. injection Hpoll as <-. unfold Notifier.poll. rewrite Hc'. simpl. by rewrite lookup_insert_eq.
Qed.

(** Pending reads are resolved and none leaks, in every interleaving of the steps of
    registrations, notifications, polls and cancellations.  When no call is in progress the
    counter is the number of registrations that still wait, and those are the ones in
    the shards.  A registration that is pending when [notify] takes its key has, once the calls
    are done, the value of that notification, unless it was cancelled. *)
Theorem notify_read_resolves s : rtc (NotifyRead.step hash) NotifyRead.new s ->
  (NotifyRead.threads s = [] ->
     NotifyRead.num_pending s = N.of_nat (size (filter (fun kc => kc.2.2 = NotifyRead.Waiting) (NotifyRead.chans s))) /\
     forall id k, NotifyRead.chans s !! id = Some (k, NotifyRead.Waiting) <->
       exists l, NotifyRead.get hash (NotifyRead.pending s) k = Some l /\ id ∈ l) /\
  (forall k l id value s', NotifyRead.get hash (NotifyRead.pending s) k = Some l -> id ∈ l ->
     rtc (NotifyRead.step hash) (NotifyRead.notify_begin hash s k value).1 s' -> NotifyRead.threads s' = [] ->
     exists c, NotifyRead.chans s' !! id = Some (k, c) /\
       (c = NotifyRead.Sent value \/ c = NotifyRead.Taken value \/ c = NotifyRead.Dropped)).
Proof.
  intros Hr. pose proof (NotifyReadFacts.notify_read_reachable hash s Hr) as Hs. split.
  - intros Hq. split; [by apply (NotifyReadFacts.quiescent_count hash)|by apply NotifyReadFacts.quiescent_pending].
  - intros k l id value s' Hg Hl Hr' Hq. pose proof (NotifyReadFacts.notify_inv hash s k value Hs) as Hs1.
    assert (NotifyReadFacts.delivered (NotifyRead.notify_begin hash s k value).1 k id value) as Hd.
    { destruct (NotifyReadFacts.i_pending _ _ Hs k l Hg) as [_ Hp]. destruct (Hp id Hl) as [_ Hc]. unfold NotifyRead.notify_begin. rewrite Hg. simpl.
      destruct Hc as [Hc|[Hc _]]; [right|left; eauto]. split; [done|]. exists l. split; [done|]. left. simpl. set_solver. }
    destruct (NotifyReadFacts.delivered_steps hash _ _ k id value Hr' Hs1 Hd) as [?|(_ & ids & _ & Hth)]; [done|]. rewrite Hq in Hth. set_solver.
Qed.

(** The number that [notify] returns is the one of before: its own registrations are
    counted in it. *)
Theorem notify_returns_previous s ids value rest :
  rtc (NotifyRead.step hash) NotifyRead.new s -> NotifyRead.threads s = NotifyRead.Subtract ids value :: rest ->
  (NotifyRead.subtract s ids value rest).2 =
    NotifyRead.num_pending (NotifyRead.subtract s ids value rest).1 + N.of_nat (length ids).
Proof.
  intros Hr Hth. pose proof (NotifyReadFacts.notify_read_reachable hash s Hr) as Hs. unfold NotifyRead.subtract, NotifyRead.num_pending. simpl.
  pose proof (NotifyReadFacts.i_count _ _ Hs) as Hc. unfold NotifyReadFacts.counted in Hc. rewrite Hth in Hc. simpl in Hc.
  rewrite !length_app in Hc. rewrite wrapping_sub64_small by lia. lia.
Qed.

End properties.

(** * Witnesses *)

Section witnesses.
Import NotifyRead.

Definition id_hash (k : N) : N := k.

Lemma noticer_resolves_witness : exists s,
  Notifier.run Notifier.new ([] ++ Notifier.Subscribe 1 :: [Notifier.Poll 1 5; Notifier.Notify]) = Some s /\
  (Notifier.poll s 1 6).2 = true /\ 5 ∈ Notifier.woken s.
Proof.
  eexists. split; [reflexivity|].
  edestruct (noticer_resolves [] 1 [Notifier.Poll 1 5; Notifier.Notify]) as [Hready Hwoken]; [reflexivity|]. split.
  - rewrite (Hready 6). by apply bool_decide_true, elem_of_cons; right; apply elem_of_cons; left.
  - apply (Hwoken [] 5 [Notifier.Notify] eq_refl); set_solver.
Defined.

(** A registration for key 3, notified with 9. *)
Definition read0 : t := register_begin new [(3, 10)].
Definition read1 : t := push id_hash read0 3 10 [].
Definition read2 : t := (notify_begin id_hash read1 3 9).1.
Definition read3 : t := (subtract read2 [10] 9 []).1.
Definition read4 : t := send_one read3 10 [] 9 [].
Definition read5 : t := mk (pending read4) (count_pending read4) (chans read4) [].

Lemma read1_reachable : rtc (step id_hash) new read1.
Proof.
  apply (rtc_l _ _ read0); [|apply rtc_once].
  - apply step_register; [intros k i _; apply lookup_empty|apply NoDup_singleton|done].
  - by apply (step_push id_hash read0 [] []).
Qed.

Lemma read5_reachable : rtc (step id_hash) read2 read5.
Proof.
  apply (rtc_l _ _ read3); [|apply (rtc_l _ _ read4); [|apply rtc_once]].
  - by apply (step_subtract id_hash read2 [] []).
  - by apply (step_send id_hash read3 [] []).
  - by apply (step_sent id_hash read4 [] [] 9).
Qed.

Lemma notify_read_resolves_witness : exists c, chans read5 !! 10 = Some (3, c) /\ (c = Sent 9 \/ c = Taken 9 \/ c = Dropped).
Proof.
  exact (proj2 (notify_read_resolves id_hash read1 read1_reachable) 3 [10] 10 9 read5 eq_refl (list_elem_of_here 10 []) read5_reachable eq_refl).
Defined.

Lemma notify_returns_previous_witness : (subtract read2 [10] 9 []).2 = 1 /\ num_pending (subtract read2 [10] 9 []).1 = 0.
Proof.
  pose proof (notify_returns_previous id_hash read2 [10] 9 []) as Hp. split; [|reflexivity]. rewrite Hp; [reflexivity| |reflexivity].
  refine (rtc_r _ _ _ read1_reachable _). exact (step_notify id_hash read1 3 9).
Defined.

End witnesses.
