(* ===== verification/Faucet.v ===== *)
(** The faucet: transfers to the addresses that ask for one, limited in time.
    Models crates/execution/faucet/src/service.rs and the front end in lib.rs.  Requests, the
    tasks that wait for a signature and the tasks that watch a transaction are steps of one
    state.  The time-based cache, the signature service, the recovery of public keys, the
    transaction pool and the database are parameters: a class with the documented behaviour of
    the cache, and the answers that a step meets.  Times are in nanoseconds. *)

From S2P Require Import Prelude.

(** * The cache *)

(** [lru_time_cache::LruCache]: values expire a fixed time after their insertion. *)
Class TimeCache := {
  Cache : Type;
  with_expiry_duration : N -> Cache;
  cache_insert : Cache -> N -> N * N -> N -> Cache;
  cache_peek : Cache -> N -> N * N -> option N;
}.

Class TimeCacheLaws `{TimeCache} := {
  expiry : Cache -> N;
  expiry_new d : expiry (with_expiry_duration d) = d;
  expiry_insert c now k v : expiry (cache_insert c now k v) = expiry c;
  peek_new d now k : cache_peek (with_expiry_duration d) now k = None;
  peek_insert c t now k v : t <= now -> now < t + expiry c -> cache_peek (cache_insert c t k v) now k = Some v;
  peek_insert_ne c t now k k' v : k <> k' -> t <= now -> cache_peek (cache_insert c t k v) now k' = cache_peek c now k';
}.

(** * The service *)

Inductive EthApiError :=
  | InternalEthError
  | WaitPeriodOver (secs : N)
  | WaitPeriodPast
  | NonceMaxValue
  | ProviderError
  | SubmitError
  | RecoverError
  | FailedToDecodeSignedTransaction
  | ReplyDropped.

Record Transaction := mk_tx {
  tx_chain_id : N;
  tx_nonce : N;
  tx_fee : N;
  tx_gas_limit : N;
  tx_to : N;
  tx_input : list N;
}.

Module FaucetService.
Section service.
Context `{TimeCache} (abi_encode_params : N -> N -> list N).

(** The [FaucetConfig]. *)
Record config := mk_config {
  faucet_contract : N;
  chain_id : N;
  wait_period : N;
}.

Record t := mk {
  success_cache : Cache;
  pending_cache : Cache;
  next_nonce : N;
}.

(** What the service reads: the clock, the nonces of its transactions in the pool, the nonce of
    its account in the database, and the base fee. *)
Record env := mk_env {
  now : N;
  pool_nonces : list N;
  account_nonce : outcome unit (option N);
  pending_basefee : N;
}.

Definition secs : N := 10 ^ 9.

(** [Faucet::create]: requests are pending for ten seconds. *)
Definition create (c : config) : t := mk (with_expiry_duration (wait_period c)) (with_expiry_duration (10 * secs)) 0.

(** The seconds of a [SystemTime] are a signed integer of 64 bits. *)
Definition calc_wait_period (c : config) (now last_transfer : N) : outcome EthApiError N :=
  let until := last_transfer + wait_period c in
  _ ← ensure (until <? 2 ^ 63 * secs) InternalEthError;
  _ ← ensure (now <=? until) WaitPeriodPast;
  Ok (until - now).

Definition highest_nonce (n : N) (l : list N) : N := foldl (fun acc item => if acc <? item then item else acc) n l.

Definition calc_next_nonce (s : t) (e : env) : outcome EthApiError N :=
  match pool_nonces e with
  | n :: l =>
      let tx_count := highest_nonce n l + 1 in
      if tx_count <? u64_modulus then Ok tx_count else Err NonceMaxValue
  | [] =>
      db ← map_err (fun _ => ProviderError) (account_nonce e);
      Ok (N.max (default 0 db) (next_nonce s))
  end.

(** The selector of [drip(address,address)]. *)
Definition selector : list N := [235; 56; 57; 167].

Definition create_transaction_to_sign (c : config) (s : t) (e : env) (to contract : N) : outcome EthApiError Transaction :=
  nonce ← calc_next_nonce s e;
  Ok (mk_tx (chain_id c) nonce (pending_basefee e) 1000000 (faucet_contract c) (selector ++ abi_encode_params contract to)).

(** The transaction to sign is handed to a task of its own. *)
Definition process_transfer_request (c : config) (s : t) (e : env) (user contract : N) : t * outcome EthApiError Transaction :=
  match create_transaction_to_sign c s e user contract with
  | Ok tx => (mk (success_cache s) (pending_cache s) (wrap64 (tx_nonce tx + 1)), Ok tx)
  | r => (s, r)
  end.

(** A request that is refused is answered with the rest of the wait period. *)
Definition refusal (c : config) (now last_transfer : N) : EthApiError :=
  match calc_wait_period c now last_transfer with
  | Ok time => WaitPeriodOver (time / secs)
  | Err e => e
  | _ => InternalEthError
  end.

(** The updates of the cache. *)
Definition update_cache (s : t) (now : N) (updates : list (N * N)) : t :=
  mk (foldl (fun c p => cache_insert c now p now) (success_cache s) updates) (pending_cache s) (next_nonce s).

(** A request: refused, or a transaction is created for it, unless that fails. *)
Definition handle (c : config) (s : t) (e : env) (user : N) (contract : option N) : t * outcome EthApiError (outcome EthApiError Transaction) :=
  let contract_address := default 0 contract in
  let p := (user, contract_address) in
  match cache_peek (pending_cache s) (now e) p with
  | Some time => (s, Err (refusal c (now e) time))
  | None =>
      match cache_peek (success_cache s) (now e) p with
      | Some time => (s, Err (refusal c (now e) time))
      | None =>
          let s := mk (success_cache s) (cache_insert (pending_cache s) (now e) p (now e)) (next_nonce s) in
          let (s, r) := process_transfer_request c s e user contract_address in
          (s, Ok r)
      end
  end.

End service.

(** [calculate_v]: the recovery identifier for which the key is recovered from the signature;
    [recover] is none when it fails, and the compact signature parses. *)
Definition calculate_v (recover : N -> option N) (parses : bool) (chain_id public_key : N) : outcome EthApiError bool :=
  let try (recovery_id : N) (otherwise : outcome EthApiError bool) :=
    if parses then
      if bool_decide (recover recovery_id = Some public_key)
      then let v := wrap64 (recovery_id + chain_id * 2 + 35) in Ok (v mod 2 =? 0)
      else otherwise
    else Err RecoverError in
  try 0 (try 1 (Err FailedToDecodeSignedTransaction)).

End FaucetService.

(** * The tasks around the service *)

Module Faucet.
Section faucet.
Context `{TimeCache} (abi_encode_params : N -> N -> list N) (c : FaucetService.config).

(** A request that was accepted, until its transaction is signed and submitted. *)
Record task := mk_task {
  task_reply : N;
  task_tx : Transaction;
  task_pair : N * N;
}.

(** The channel of a reply: the value that was sent, or the sender was dropped. *)
Inductive reply := Sent (r : outcome EthApiError N) | Closed.

(** What happened, with its time: a transaction was created, or the service noted that one was mined. *)
Inductive entry := Drip (p : N * N) (tx : Transaction) | Noted (p : N * N).

Record t := mk {
  service : FaucetService.t;
  clock : N;
  updates : list (N * N);
  signing : list task;
  watching : list (N * N);
  replies : gmap N reply;
  log : list (N * entry);
}.

Definition create : t := mk (FaucetService.create c) 0 [] [] [] ∅ [].

Inductive event :=
  | Poll (now : N)
  | Request (id user : N) (contract : option N) (e : FaucetService.env)
  | Signed (i : nat) (submitted : outcome EthApiError N)
  | KmsFailed (i : nat)
  | Mined (i : nat)
  | Discarded (i : nat).

(** The channel of updates is drained. *)
Definition poll (s : t) (now : N) : t :=
  mk (FaucetService.update_cache (service s) now (updates s)) now [] (signing s) (watching s) (replies s)
    (log s ++ ((fun p => (now, Noted p)) <$> updates s)).

Definition request (s : t) (id user : N) (contract : option N) (e : FaucetService.env) : t :=
  let p := (user, default 0 contract) in
  let (sv, r) := FaucetService.handle abi_encode_params c (service s) e user contract in
  match r with
  | Ok (Ok tx) => mk sv (clock s) (updates s) (signing s ++ [mk_task id tx p]) (watching s) (replies s) (log s ++ [(clock s, Drip p tx)])
  | Ok _ => mk sv (clock s) (updates s) (signing s) (watching s) (<[id := Closed]> (replies s)) (log s)
  | Err err => mk sv (clock s) (updates s) (signing s) (watching s) (<[id := Sent (Err err)]> (replies s)) (log s)
  | _ => s
  end.

(** The task of a transaction: signed, submitted to the pool and answered; a transaction that the
    pool takes is watched. *)
Definition signed (s : t) (i : nat) (submitted : outcome EthApiError N) : option t :=
  k ← signing s !! i;
  Some (mk (service s) (clock s) (updates s) (delete i (signing s))
    (match submitted with Ok _ => watching s ++ [task_pair k] | _ => watching s end)
    (<[task_reply k := Sent submitted]> (replies s)) (log s)).

(** The reply is dropped when the signature cannot be had. *)
Definition kms_failed (s : t) (i : nat) : option t :=
  k ← signing s !! i;
  Some (mk (service s) (clock s) (updates s) (delete i (signing s)) (watching s) (<[task_reply k := Closed]> (replies s)) (log s)).

(** [submit_transaction]: the events of a transaction, until it is mined or final. *)
Definition mined (s : t) (i : nat) : option t :=
  p ← watching s !! i;
  Some (mk (service s) (clock s) (updates s ++ [p]) (signing s) (delete i (watching s)) (replies s) (log s)).

Definition discarded (s : t) (i : nat) : option t :=
  _ ← watching s !! i;
  Some (mk (service s) (clock s) (updates s) (signing s) (delete i (watching s)) (replies s) (log s)).

(** Requests have channels of their own, and the clock does not go back. *)
Definition step (s : t) (ev : event) : option t :=
  match ev with
  | Poll now => if clock s <=? now then Some (poll s now) else None
  | Request id user contract e =>
      if (clock s <=? FaucetService.now e) && bool_decide (replies s !! id = None) && forallb (fun k => negb (task_reply k =? id)) (signing s)
      then Some (request (poll s (FaucetService.now e)) id user contract e) else None
  | Signed i submitted => signed s i submitted
  | KmsFailed i => kms_failed s i
  | Mined i => mined s i
  | Discarded i => discarded s i
  end.

Fixpoint run (s : t) (evs : list event) : option t :=
  match evs with
  | [] => Some s
  | ev :: evs => s' ← step s ev; run s' evs
  end.

(** What [handle_request] returns, once the reply or the end of its channel is there. *)
Definition handle_request (s : t) (id : N) : option (outcome EthApiError N) :=
  match replies s !! id with
  | Some (Sent r) => Some r
  | Some Closed => Some (Err ReplyDropped)
  | None => None
  end.

End faucet.
End Faucet.

(** * The caches limit the transfers *)

Module FaucetFacts.
Import Faucet.
Section facts.
Context `{TimeCacheLaws} (abi_encode_params : N -> N -> list N) (c : FaucetService.config).

(** An entry of a cache is held for a time. *)
Definition held (C : Cache) (k : N * N) (t d clk : N) : Prop := forall now, clk <= now -> now < t + d -> is_Some (cache_peek C now k).

Lemma held_insert C k t clk t0 k0 v :
  t <= t0 -> clk <= t0 -> held C k t (expiry C) clk -> held (cache_insert C t0 k0 v) k t (expiry C) t0.
Proof.
  intros Ht Hclk Hh now Hn Hd. destruct (decide (k0 = k)) as [->|Hne].
  - rewrite peek_insert; [done|lia|lia].
  - rewrite peek_insert_ne by done. apply Hh; lia.
Qed.

Lemma held_new C k t0 v : held (cache_insert C t0 k v) k t0 (expiry C) t0.
Proof. intros now Hn Hd. by rewrite peek_insert. Qed.

Lemma held_later C k t d clk clk' : clk <= clk' -> held C k t d clk -> held C k t d clk'.
Proof. intros Hc Hh now Hn. apply Hh. lia. Qed.

Lemma expiry_fold t0 l C : expiry (foldl (fun C p => cache_insert C t0 p t0) C l) = expiry C.
Proof. revert C. induction l as [|p l IH]; intros C; [done|]. simpl. rewrite IH. apply expiry_insert. Qed.

Lemma held_fold C k t t0 l :
  t <= t0 -> held C k t (expiry C) t0 -> held (foldl (fun C p => cache_insert C t0 p t0) C l) k t (expiry C) t0.
Proof.
  intros Ht. revert C. induction l as [|p l IH]; intros C Hh; [done|]. simpl.
  rewrite <- (expiry_insert C t0 p t0). apply IH. rewrite expiry_insert. by apply held_insert with (clk := t0).
Qed.

Lemma held_fold_elem C k t0 l : k ∈ l -> held (foldl (fun C p => cache_insert C t0 p t0) C l) k t0 (expiry C) t0.
Proof.
  revert C. induction l as [|p l IH]; intros C Hk; [by apply elem_of_nil in Hk|]. simpl. rewrite <- (expiry_insert C t0 p t0).
  apply elem_of_cons in Hk as [->|Hk]; [|by apply IH]. apply held_fold; [done|]. rewrite expiry_insert. apply held_new.
Qed.

(** The pair of an entry, and how long it bars another transfer. *)
Definition pair_of (e : entry) : N * N := match e with Drip p _ | Noted p => p end.
Definition bars (e : entry) : N := match e with Drip _ _ => 10 * FaucetService.secs | Noted _ => FaucetService.wait_period c end.

Definition spaced (x y : N * entry) : Prop :=
  match y.2 with Drip p _ => pair_of x.2 = p -> x.1 + bars x.2 <= y.1 | Noted _ => True end.

Definition cache_of (s : FaucetService.t) (e : entry) : Cache :=
  match e with Drip _ _ => FaucetService.pending_cache s | Noted _ => FaucetService.success_cache s end.

Record inv (s : t) : Prop := {
  inv_pending : expiry (FaucetService.pending_cache (service s)) = 10 * FaucetService.secs;
  inv_success : expiry (FaucetService.success_cache (service s)) = FaucetService.wait_period c;
  inv_held : Forall (fun x => x.1 <= clock s /\ held (cache_of (service s) x.2) (pair_of x.2) x.1 (bars x.2) (clock s)) (log s);
  inv_spaced : StronglySorted spaced (log s);
}.

Lemma faucet_create_inv : inv (create c).
Proof. split; simpl; [apply expiry_new..|constructor|constructor]. Qed.

Lemma noted_spaced (t0 : N) (l : list (N * N)) : StronglySorted spaced ((fun p => (t0, Noted p)) <$> l).
Proof. induction l; constructor; [done|]. apply Forall_fmap, Forall_forall. done. Qed.

Lemma faucet_poll_inv s now : inv s -> clock s <= now -> inv (poll s now).
Proof.
  intros [Hp Hs Hh Hsp] Hn. split; simpl; [done|by rewrite expiry_fold| |].
  - apply Forall_app. split.
    + eapply Forall_impl; [exact Hh|]. intros [t e] [Ht He]. simpl in *. split; [lia|]. apply (held_later _ _ _ _ _ now) in He; [|done].
      destruct e as [p tx|p]; simpl in *; [done|]. rewrite <- Hs in *. apply held_fold; [lia|done].
    + apply Forall_fmap, Forall_forall. intros p Hin. simpl. split; [done|]. rewrite <- Hs. by apply held_fold_elem.
  - apply StronglySorted_app_2; [done|apply noted_spaced|]. intros x y _ (p & -> & _)%list_elem_of_fmap. done.
Qed.

Lemma faucet_handle_spec s e user contract :
  match (FaucetService.handle abi_encode_params c s e user contract) with
  | (s', Ok r) =>
      let p := (user, default 0 contract) in
      cache_peek (FaucetService.pending_cache s) (FaucetService.now e) p = None /\
      cache_peek (FaucetService.success_cache s) (FaucetService.now e) p = None /\
      FaucetService.success_cache s' = FaucetService.success_cache s /\
      FaucetService.pending_cache s' = cache_insert (FaucetService.pending_cache s) (FaucetService.now e) p (FaucetService.now e)
  | (s', _) => s' = s
  end.
Proof.
  unfold FaucetService.handle, FaucetService.process_transfer_request.
  destruct (cache_peek (FaucetService.pending_cache s) _ _) eqn:Hp; [done|].
  destruct (cache_peek (FaucetService.success_cache s) _ _) eqn:Hs; [done|].
  by destruct (FaucetService.create_transaction_to_sign _ _ _ _ _ _).
Qed.

(** The entries stay held when a request is added to the pending cache. *)
Lemma accept_inv s sv p lg :
  inv s ->
  FaucetService.success_cache sv = FaucetService.success_cache (service s) ->
  FaucetService.pending_cache sv = cache_insert (FaucetService.pending_cache (service s)) (clock s) p (clock s) ->
  Forall (fun x => x.1 <= clock s /\ held (cache_of sv x.2) (pair_of x.2) x.1 (bars x.2) (clock s)) (log s) /\
  (lg = [] \/ (exists tx, lg = [(clock s, Drip p tx)]) ->
    Forall (fun x => x.1 <= clock s /\ held (cache_of sv x.2) (pair_of x.2) x.1 (bars x.2) (clock s)) (log s ++ lg)).
Proof.
  intros [Hp Hs Hh Hsp] Hsv Hpv.
  assert (Forall (fun x => x.1 <= clock s /\ held (cache_of sv x.2) (pair_of x.2) x.1 (bars x.2) (clock s)) (log s)) as Hall.
  { eapply Forall_impl; [exact Hh|]. intros [t e] [Ht He]. simpl in *. split; [done|].
    destruct e as [q tx|q]; simpl in *; [|by rewrite Hsv]. rewrite Hpv, <- Hp in *. by apply held_insert with (clk := clock s). }
  split; [done|]. intros Hlg. apply Forall_app. split; [done|]. destruct Hlg as [->|(tx & ->)]; constructor; [|done].
  simpl. split; [done|]. rewrite Hpv, <- Hp. apply held_new.
Qed.

Lemma faucet_request_inv s id user contract e :
  inv s -> clock s = FaucetService.now e -> inv (request abi_encode_params c s id user contract e).
Proof.
  intros Hi Hn. unfold request. pose proof (faucet_handle_spec (service s) e user contract) as Hspec.
  destruct (FaucetService.handle _ _ _ _ _ _) as [sv r]. destruct Hi as [Hp Hs Hh Hsp] eqn:HI. clear HI.
  destruct r as [r|err| |]; simpl in *; subst; try by split.
  rewrite <- Hn in Hspec. destruct Hspec as (Hpn & Hsn & Hsv & Hpv).
  pose proof (fun lg => accept_inv s sv _ lg Hi Hsv Hpv) as Hacc.
  assert (expiry (FaucetService.pending_cache sv) = 10 * FaucetService.secs) as Hp' by (by rewrite Hpv, expiry_insert).
  assert (expiry (FaucetService.success_cache sv) = FaucetService.wait_period c) as Hs' by (by rewrite Hsv).
  destruct r as [tx|err| |]; try (split; simpl; [done..|apply (Hacc [])|done]).
  split; simpl; [done..|apply Hacc; by eauto|]. apply StronglySorted_app_2; [done|repeat constructor|].
  intros [t x] y Hx ->%list_elem_of_singleton. rewrite Forall_forall in Hh. destruct (Hh _ Hx) as [Ht Hheld]. simpl in *.
  unfold spaced. simpl. intros Hpair. apply N.nlt_ge. intros Hlt. destruct (Hheld (clock s)) as [v Hv]; [done|done|].
  destruct x; simpl in *; congruence.
Qed.

Lemma faucet_step_inv s ev s' : inv s -> step abi_encode_params c s ev = Some s' -> inv s'.
Proof.
  intros Hi. destruct ev as [now|id user contract e|i r|i|i|i]; simpl.
  - destruct (N.leb_spec (clock s) now); [|done]. intros [= <-]. by apply faucet_poll_inv.
  - destruct (N.leb_spec (clock s) (FaucetService.now e)); [|done]. simpl. case_match; [|done]. intros [= <-].
    apply faucet_request_inv; [|done]. by apply faucet_poll_inv.
  - intros (k & _ & [= <-])%bind_Some. by destruct Hi.
  - intros (k & _ & [= <-])%bind_Some. by destruct Hi.
  - intros (k & _ & [= <-])%bind_Some. by destruct Hi.
  - intros (k & _ & [= <-])%bind_Some. by destruct Hi.
Qed.

Lemma faucet_run_inv s evs s' : inv s -> run abi_encode_params c s evs = Some s' -> inv s'.
Proof.
  revert s. induction evs as [|ev evs IH]; intros s Hi; [by intros [= <-]|].
  simpl. intros (s1 & Hs & Hr)%bind_Some. eapply IH; [|done]. by eapply faucet_step_inv.
Qed.

(** Every request is answered, or its transaction waits for a signature. *)
Definition answered (s : t) (id : N) : Prop := is_Some (replies s !! id) \/ exists k, k ∈ signing s /\ task_reply k = id.

Lemma task_done (s : t) i k (r : reply) sv clk up wa lg id :
  signing s !! i = Some k -> answered s id ->
  answered (mk sv clk up (delete i (signing s)) wa (<[task_reply k := r]> (replies s)) lg) id.
Proof.
  intros Hk [Hr|(k' & Hin & <-)]; unfold answered; simpl.
  - left. rewrite lookup_insert_is_Some. destruct (decide (task_reply k = id)); auto.
  - destruct (decide (task_reply k = task_reply k')) as [->|Hne]; [left; by rewrite lookup_insert_eq|].
    right. exists k'. split; [|done]. rewrite <- (take_drop_middle _ _ _ Hk) in Hin. rewrite delete_take_drop.
    rewrite elem_of_app, elem_of_cons in *. naive_solver.
Qed.

Lemma request_answered s id user contract e id' :
  answered s id' \/ id' = id -> answered (request abi_encode_params c s id user contract e) id'.
Proof.
  assert (forall r sv, answered s id' \/ id' = id -> answered (mk sv (clock s) (updates s) (signing s) (watching s) (<[id := r]> (replies s)) (log s)) id') as Hins.
  { intros r sv [[Hr|Hk]| ->]; unfold answered; simpl; [left|by right|left; by rewrite lookup_insert_eq].
    rewrite lookup_insert_is_Some. destruct (decide (id = id')); auto. }
  intros Ha. unfold request. destruct (FaucetService.handle _ _ _ _ _ _) as [sv r] eqn:Hh. destruct r as [[tx| | |]|err| |]; auto.
  - unfold answered. simpl. destruct Ha as [[Hr|(k & Hk & Hid)]| ->]; [by left|right; exists k|right; eexists].
    + rewrite elem_of_app. auto.
    + split; [by apply elem_of_app; right; apply list_elem_of_singleton|done].
  - unfold FaucetService.handle in Hh. repeat case_match; simplify_eq.
  - unfold FaucetService.handle in Hh. repeat case_match; simplify_eq.
Qed.

Lemma step_answered s ev s' id :
  step abi_encode_params c s ev = Some s' ->
  answered s id \/ (exists user contract e, ev = Request id user contract e) -> answered s' id.
Proof.
  destruct ev as [now|id' user contract e|i r|i|i|i]; simpl.
  - case_match; [|done]. intros [= <-] [Ha|(? & ? & ? & [=])]. exact Ha.
  - case_match; [|done]. intros [= <-] Ha. apply request_answered.
    destruct Ha as [Ha|(? & ? & ? & [= -> _ _ _])]; [by left|by right].
  - intros (k & Hk & [= <-])%bind_Some [Ha|(? & ? & ? & [=])]. by apply task_done.
  - intros (k & Hk & [= <-])%bind_Some [Ha|(? & ? & ? & [=])]. by apply task_done.
  - intros (k & Hk & [= <-])%bind_Some [Ha|(? & ? & ? & [=])]. exact Ha.
  - intros (k & Hk & [= <-])%bind_Some [Ha|(? & ? & ? & [=])]. exact Ha.
Qed.

Lemma run_answered s evs s' id :
  run abi_encode_params c s evs = Some s' ->
  answered s id \/ (exists user contract e, Request id user contract e ∈ evs) -> answered s' id.
Proof.
  revert s. induction evs as [|ev evs IH]; intros s; simpl.
  - intros [= <-] [Ha|(? & ? & ? & []%elem_of_nil)]. done.
  - intros (s1 & Hs & Hr)%bind_Some Ha. apply (IH s1 Hr). destruct Ha as [Ha|(user & contract & e & [Heq|Hin]%elem_of_cons)].
    + left. eapply step_answered; [done|by left].
    + left. eapply step_answered; [done|right; eauto].
    + right. eauto.
Qed.

(** ** Nonces *)

Lemma highest_nonce_le n l : n <= FaucetService.highest_nonce n l /\ forall m, m ∈ l -> m <= FaucetService.highest_nonce n l.
Proof.
  revert n. induction l as [|x l IH]; intros n; simpl; [split; [done|by intros m ?%elem_of_nil]|].
  specialize (IH (if n <? x then x else n)) as [IH1 IH2]. fold (FaucetService.highest_nonce (if n <? x then x else n) l).
  destruct (N.ltb_spec n x); (split; [lia|]; intros m [-> |Hm]%elem_of_cons; [lia|by apply IH2]).
Qed.

End facts.
End FaucetFacts.

(** * Properties *)

Section properties.
Context `{TimeCacheLaws} (abi_encode_params : N -> N -> list N) (c : FaucetService.config).
Import Faucet FaucetFacts.

(** C40: The faucet limits the transfers to an address, for each token.  Whatever the order in which
    requests, signatures and notices of mined transactions arrive, a transaction is created for an
    address and a token only ten seconds after the last one that was created for them,
    and a wait period after the service noted that one was mined.  Every request has its answer
    once no transaction waits for its signature. *)
Theorem transfers_limited evs s :
  run abi_encode_params c (create c) evs = Some s ->
  (forall l1 l2 l3 t1 e t2 tx, log s = l1 ++ (t1, e) :: l2 ++ (t2, Drip (pair_of e) tx) :: l3 -> t1 + bars c e <= t2) /\
  (forall id user contract e, signing s = [] -> Request id user contract e ∈ evs -> is_Some (handle_request s id)).
Proof.
  intros Hr. split.
  - intros l1 l2 l3 t1 e t2 tx Hlog. pose proof (inv_spaced _ _ (faucet_run_inv _ _ _ _ _ (faucet_create_inv c) Hr)) as Hs.
    rewrite Hlog, cons_middle, app_assoc in Hs.
    refine (StronglySorted_app_elem (spaced c) _ _ (t1, e) (t2, Drip (pair_of e) tx) Hs _ _ eq_refl); apply elem_of_app; right; by left.
  - intros id user contract e Hsig Hin. destruct (run_answered _ _ _ _ _ id Hr) as [[r Hr']|(k & Hk & _)].
    + right. eauto.
    + unfold handle_request. rewrite Hr'. by destruct r.
    + rewrite Hsig in Hk. by apply elem_of_nil in Hk.
Qed.

(** The parity of the signature is the recovery identifier that gives the key: [v] of EIP-155 is
    even for the identifier 1, also when it wraps around. *)
Theorem parity_recovered (recover : N -> option N) chain_id public_key odd :
  FaucetService.calculate_v recover true chain_id public_key = Ok odd <->
  (recover 0 = Some public_key /\ odd = false) \/ (recover 0 <> Some public_key /\ recover 1 = Some public_key /\ odd = true).
Proof.
  assert (forall r, r < 2 -> (wrap64 (r + chain_id * 2 + 35) mod 2 =? 0) = (r =? 1)) as Hv.
  { intros r Hr. unfold wrap64, u64_modulus. destruct (N.eqb_spec r 1); [apply N.eqb_eq|apply N.eqb_neq]; div_lia. }
  unfold FaucetService.calculate_v. rewrite !Hv by lia. repeat case_bool_decide; naive_solver.
Qed.

(** The nonce that is used is above those of the pool; without transactions in the pool it is not
    below the nonces that were used before. *)
Theorem next_nonce_spec s e n :
  FaucetService.calc_next_nonce s e = Ok n ->
  (forall m, m ∈ FaucetService.pool_nonces e -> m < n) /\ (FaucetService.pool_nonces e = [] -> FaucetService.next_nonce s <= n).
Proof.
  unfold FaucetService.calc_next_nonce. destruct (FaucetService.pool_nonces e) as [|x l].
  - intros (db & _ & [= <-])%bind_Ok. split; [by intros m ?%elem_of_nil|lia].
  - case_match; [|done]. intros [= <-]. split; [|done]. pose proof (highest_nonce_le x l) as [Hx Hl].
    intros m [-> |Hm]%elem_of_cons; [lia|]. specialize (Hl _ Hm). lia.
Qed.

End properties.

(** * Examples *)

#[local] Instance demo_cache : TimeCache := {|
  Cache := N * gmap (N * N) (N * N);
  with_expiry_duration d := (d, ∅);
  cache_insert c now k v := (c.1, <[k := (now, v)]> c.2);
  cache_peek c now k := '(t, v) ← c.2 !! k; if now <? t + c.1 then Some v else None;
|}.

#[local] Program Instance demo_cache_laws : TimeCacheLaws := {| expiry := fst |}.
Next Obligation. done. Qed.
Next Obligation. done. Qed.
Next Obligation. done. Qed.
Next Obligation. intros c t now k v Ht Hn. simpl in *. rewrite lookup_insert_eq. simpl. by apply N.ltb_lt in Hn as ->. Qed.
Next Obligation. intros c t now k k' v Hk Ht. simpl. by rewrite lookup_insert_ne. Qed.

Definition demo_config : FaucetService.config := FaucetService.mk_config 9 2017 (86400 * FaucetService.secs).
Definition demo_abi (contract to : N) : list N := [contract; to].
Definition demo_env (now : N) (pool : list N) : FaucetService.env := FaucetService.mk_env (now * FaucetService.secs) pool (Ok (Some 3)) 7.

(** A transfer, a request that is refused, and one after the transaction was mined. *)
Definition demo_events : list Faucet.event :=
  [Faucet.Request 1 50 None (demo_env 100 []); Faucet.Signed 0 (Ok 77); Faucet.Request 2 50 None (demo_env 105 [3]);
   Faucet.Mined 0; Faucet.Request 3 50 None (demo_env 111 []); Faucet.Request 4 50 (Some 6) (demo_env 112 []); Faucet.KmsFailed 0].

Definition demo_final : option Faucet.t := Faucet.run demo_abi demo_config (Faucet.create demo_config) demo_events.

Lemma transfers_limited_witness :
  exists s, demo_final = Some s /\ length (Faucet.log s) = 3%nat /\
    (forall l1 l2 l3 t1 e t2 tx, Faucet.log s = l1 ++ (t1, e) :: l2 ++ (t2, Faucet.Drip (FaucetFacts.pair_of e) tx) :: l3 ->
      t1 + FaucetFacts.bars demo_config e <= t2) /\
    (forall id user contract e, Faucet.signing s = [] -> Faucet.Request id user contract e ∈ demo_events -> is_Some (Faucet.handle_request s id)).
Proof.
  destruct demo_final as [s|] eqn:Hs; [|by vm_compute in Hs]. exists s. split; [done|]. split.
  - vm_compute in Hs. by injection Hs as <-.
  - exact (transfers_limited demo_abi demo_config demo_events s Hs).
Defined.

(** Two requests for which a transaction with the nonce 5 is in the pool: the second one is made
    while the first waits for its signature, and its transaction has the same nonce. *)
Theorem nonce_reused :
  exists s tx1 tx2, Faucet.run demo_abi demo_config (Faucet.create demo_config)
      [Faucet.Request 1 50 None (demo_env 100 [5]); Faucet.Request 2 51 None (demo_env 101 [5])] = Some s /\
    Faucet.log s = [(100 * FaucetService.secs, Faucet.Drip (50, 0) tx1); (101 * FaucetService.secs, Faucet.Drip (51, 0) tx2)] /\
    tx_nonce tx1 = 6 /\ tx_nonce tx2 = 6.
Proof. by do 3 eexists; vm_compute. Qed.

(** A request that is pending is told to wait for the wait period, not for ten seconds. *)
Theorem pending_told_wait_period :
  exists s, Faucet.run demo_abi demo_config (Faucet.create demo_config)
      [Faucet.Request 1 50 None (demo_env 100 []); Faucet.Request 2 50 None (demo_env 101 [])] = Some s /\
    Faucet.handle_request s 2 = Some (Err (WaitPeriodOver 86399)).
Proof. by eexists; vm_compute. Qed.
