(* ===== verification/Tasks.v ===== *)
(** The tasks of a node: the hierarchy of task managers, which stops as a whole, and the
    task that publishes the certificates of the node.
    Models crates/types/src/task_manager.rs and [push_certificates] of
    crates/consensus/primary/src/certifier.rs.  The managers of a node share the shutdown notifier
    of [Sync]; the branches of a select are events, a task that ends, a signal, the clock and the
    answer of the network are what they meet.  Times are in milliseconds. *)

From S2P Require Import Prelude Sync.

(** * Task managers *)

Module TaskManager.

(** Where [join_internal] is: in its loop, waiting for its tasks, waiting for its sub-managers. *)
Inductive phase := Running | StopTasks (deadline : N) | StopSubs (deadline : N) | Done.

Record manager := mk_manager {
  at_phase : phase;
  tasks : list N;
  new_tasks : list N;
  submanagers : list N;
  parent : option N;
  rx_shutdown : option N;
  do_exit : bool;
}.

Record t := mk {
  managers : gmap N manager;
  shutdown : Notifier.t;
  clock : N;
}.

(** [TaskManager::new] *)
Definition new (do_exit : bool) (parent : option N) : manager := mk_manager Running [] [] [] parent None do_exit.

Definition set_phase (m : manager) (p : phase) : manager :=
  mk_manager p (tasks m) (new_tasks m) (submanagers m) (parent m) (rx_shutdown m) (do_exit m).
Definition set_tasks (m : manager) (l : list N) : manager :=
  mk_manager (at_phase m) l (new_tasks m) (submanagers m) (parent m) (rx_shutdown m) (do_exit m).
Definition set_new_tasks (m : manager) (l : list N) : manager :=
  mk_manager (at_phase m) (tasks m) l (submanagers m) (parent m) (rx_shutdown m) (do_exit m).
Definition set_submanagers (m : manager) (l : list N) : manager :=
  mk_manager (at_phase m) (tasks m) (new_tasks m) l (parent m) (rx_shutdown m) (do_exit m).
Definition set_rx_shutdown (m : manager) (id : N) : manager :=
  mk_manager (at_phase m) (tasks m) (new_tasks m) (submanagers m) (parent m) (Some id) (do_exit m).

(** [spawn_task] of a manager, and of its clones, whose tasks go through a channel of 100 places;
    a handle that does not fit is dropped. *)
Definition spawn_task (m : manager) (name : N) : manager := set_tasks m (tasks m ++ [name]).
Definition clone_spawn_task (m : manager) (name : N) : manager :=
  if (length (new_tasks m) <? 100)%nat then set_new_tasks m (new_tasks m ++ [name]) else m.

(** [update_tasks]: the tasks in the channel join the others. *)
Definition update_tasks (m : manager) : manager := set_new_tasks (set_tasks m (tasks m ++ new_tasks m)) [].

Definition update (s : t) (i : N) (m : manager) : t := mk (<[i := m]> (managers s)) (shutdown s) (clock s).

(** The future of a manager is polled by the loop of its parent, or by the wait of its parent for
    the sub-managers, when those are polled; there are at most as many parents as managers. *)
Fixpoint polled_by (fuel : nat) (s : t) (m : manager) : bool :=
  match parent m with
  | None => true
  | Some p =>
      match fuel, managers s !! p with
      | S fuel, Some pm => match at_phase pm with Running | StopSubs _ => polled_by fuel s pm | _ => false end
      | _, _ => false
      end
  end.

Definition polled (s : t) (m : manager) : bool := polled_by (size (managers s)) s m.

(** Leaving the loop: the shutdown is notified, and the tasks have two seconds to end. *)
Definition leave (s : t) (i : N) (m : manager) : t :=
  mk (<[i := set_phase m (StopTasks (clock s + 2000))]> (managers s)) (Notifier.notify (shutdown s)) (clock s).

Inductive event :=
  | Start (i id : N)
  | Exit (i : N)
  | Shutdown (i : N)
  | NewTask (i : N)
  | TaskEnded (i : N) (name : N)
  | OutOfTasks (i : N)
  | SubReturned (i : N) (sub : N)
  | Timeout (i : N)
  | Spawned (i name : N)
  | Notified
  | Tick (now : N).

Definition is_done (s : t) (i : N) : bool :=
  match managers s !! i with Some m => match at_phase m with Done => true | _ => false end | None => false end.

Definition remove_one (x : N) (l : list N) : list N := match list_find (x =.) l with Some (k, _) => delete k l | None => l end.

(** The first poll of [join_internal] subscribes. *)
Definition start (s : t) (i id : N) (m : manager) : option t :=
  if bool_decide (rx_shutdown m = None /\ Notifier.cells (shutdown s) !! id = None)
  then Some (mk (<[i := set_rx_shutdown m id]> (managers s)) (Notifier.subscribe (shutdown s) id) (clock s)) else None.

(** The branches of the select. *)
Definition select (s : t) (i : N) (m : manager) (ev : event) : option t :=
  match rx_shutdown m, ev with
  | Some _, Exit _ => if do_exit m then Some (leave s i m) else None
  | Some id, Shutdown _ =>
      let (n, ready) := Notifier.poll (shutdown s) id i in
      let s := mk (managers s) n (clock s) in
      Some (if ready then leave s i m else s)
  | Some _, NewTask _ => match new_tasks m with x :: l => Some (update s i (set_new_tasks (spawn_task m x) l)) | [] => None end
  | Some _, TaskEnded _ x => if bool_decide (x ∈ tasks m) then Some (leave s i (set_tasks m (remove_one x (tasks m)))) else None
  | Some _, OutOfTasks _ => match tasks m with [] => Some (leave s i m) | _ => None end
  | Some _, SubReturned _ x =>
      if bool_decide (x ∈ submanagers m) && is_done s x then Some (leave s i (set_submanagers m (remove_one x (submanagers m)))) else None
  | _, _ => None
  end.

(** The waits of two seconds, for the tasks and for the sub-managers. *)
Definition stop_tasks (s : t) (i : N) (m : manager) (deadline : N) (ev : event) : option t :=
  let stopped := Some (update s i (set_phase m (StopSubs (clock s + 2000)))) in
  match ev with
  | TaskEnded _ x => if bool_decide (x ∈ tasks m) then Some (update s i (set_tasks m (remove_one x (tasks m)))) else None
  | OutOfTasks _ => match tasks m with [] => stopped | _ => None end
  | Timeout _ => if deadline <=? clock s then stopped else None
  | _ => None
  end.

Definition stop_subs (s : t) (i : N) (m : manager) (deadline : N) (ev : event) : option t :=
  let stopped := Some (update s i (set_phase m Done)) in
  match ev with
  | SubReturned _ x =>
      if bool_decide (x ∈ submanagers m) && is_done s x then Some (update s i (set_submanagers m (remove_one x (submanagers m)))) else None
  | OutOfTasks _ => match submanagers m with [] => stopped | _ => None end
  | Timeout _ => if deadline <=? clock s then stopped else None
  | _ => None
  end.

(** [join_internal], from one event to the next. *)
Definition join_internal (s : t) (i : N) (ev : event) : option t :=
  m ← managers s !! i;
  if polled s m then
    match at_phase m with
    | Running => match ev with Start _ id => start s i id m | _ => select s i m ev end
    | StopTasks d => stop_tasks s i m d ev
    | StopSubs d => stop_subs s i m d ev
    | Done => None
    end
  else None.

Definition step (s : t) (ev : event) : option t :=
  match ev with
  | Tick now => if clock s <=? now then Some (mk (managers s) (shutdown s) now) else None
  | Notified => Some (mk (managers s) (Notifier.notify (shutdown s)) (clock s))
  | Spawned i x => m ← managers s !! i; Some (update s i (clone_spawn_task m x))
  | Start i _ | Exit i | Shutdown i | NewTask i | TaskEnded i _ | OutOfTasks i | SubReturned i _ | Timeout i => join_internal s i ev
  end.

Fixpoint run (s : t) (evs : list event) : option t :=
  match evs with
  | [] => Some s
  | ev :: evs => s' ← step s ev; run s' evs
  end.

End TaskManager.

(** * The publisher of certificates *)

Module Publisher.

Record t := mk {
  requests : list N;
  backoff_multiplier : N;
  published : list N;
  latest : option N;
}.

Definition new : t := mk [] 0 [] None.

Inductive event := Received (cert : N) | Lagged | Answered (ok : bool).

(** [push_certificates]: a certificate that could not be published is tried again when it is the
    only one, with a delay of the multiplier. *)
Definition step (s : t) (ev : event) : option t :=
  match ev with
  | Received cert => Some (mk (requests s ++ [cert]) (backoff_multiplier s) (published s) (Some cert))
  | Lagged => Some s
  | Answered ok =>
      match requests s with
      | [] => None
      | cert :: requests =>
          if ok then Some (mk requests 0 (published s ++ [cert]) (latest s))
          else match requests with
               | [] => Some (mk [cert] (N.min (backoff_multiplier s * 2 + 1) 100) (published s) (latest s))
               | _ => Some (mk requests 0 (published s) (latest s))
               end
      end
  end.

Fixpoint run (s : t) (evs : list event) : option t :=
  match evs with
  | [] => Some s
  | ev :: evs => s' ← step s ev; run s' evs
  end.

(** The sleep, in milliseconds. *)
Definition backoff (s : t) : N := 100 * backoff_multiplier s.

End Publisher.

(** * Shutdown reaches every manager *)

Module TaskFacts.
Import TaskManager.

#[global] Instance phase_eq_dec : EqDecision phase.
Proof. solve_decision. Defined.

(** The managers that are joined hold noticers of the shared notifier; the waits end within two
    seconds. *)
Record inv (s : t) : Prop := {
  inv_shutdown : NotifierFacts.inv (shutdown s);
  inv_noticers i m id : managers s !! i = Some m -> rx_shutdown m = Some id -> is_Some (Notifier.cells (shutdown s) !! id);
  inv_deadline i m d : managers s !! i = Some m -> at_phase m = StopTasks d \/ at_phase m = StopSubs d -> d <= clock s + 2000;
}.

Definition left (m : manager) : Prop := at_phase m <> Running.

(** The phases in their order. *)
Definition rank (p : phase) : nat := match p with Running => 0 | StopTasks _ => 1 | StopSubs _ => 2 | Done => 3 end.

(** A manager and the notifier it shares, updated by calls of the notifier: with a notification
    when it leaves its loop. *)
Record moved (s s' : t) (os : list Notifier.op) (i : N) (m m' : manager) : Prop := {
  moved_run : Notifier.run (shutdown s) os = Some (shutdown s');
  moved_clock : clock s' = clock s;
  moved_from : managers s !! i = Some m;
  moved_to : managers s' = <[i := m']> (managers s);
  moved_rx id : rx_shutdown m = Some id -> rx_shutdown m' = Some id;
  moved_new id : rx_shutdown m' = Some id -> rx_shutdown m = Some id \/ is_Some (Notifier.cells (shutdown s') !! id);
  moved_deadline d : at_phase m' = StopTasks d \/ at_phase m' = StopSubs d -> at_phase m = at_phase m' \/ d = clock s + 2000;
  moved_parent : parent m' = parent m;
  moved_order : at_phase m' = at_phase m \/ (rank (at_phase m) < rank (at_phase m'))%nat;
  moved_notify : left m' -> left m \/ Notifier.Notify ∈ os;
}.

Lemma moved_left s s' os i m m' : moved s s' os i m m' -> left m -> left m'.
Proof. intros Hmv. pose proof (moved_order _ _ _ _ _ _ Hmv) as Ho. unfold left. destruct Ho as [-> |Ho]; [done|]. by destruct (at_phase m'); [apply Nat.nlt_0_r in Ho|..]. Qed.

Lemma update_moved s i m m' :
  managers s !! i = Some m -> rx_shutdown m' = rx_shutdown m -> parent m' = parent m ->
  (at_phase m' = at_phase m \/ left m /\ (rank (at_phase m) < rank (at_phase m'))%nat /\ (at_phase m' = StopSubs (clock s + 2000) \/ at_phase m' = Done)) ->
  moved s (update s i m') [] i m m'.
Proof.
  intros Hm Hrx Hpar Hph. split; simpl; try done; try (rewrite Hrx; by auto); unfold left in *; destruct Hph as [Hph|(Hl & Hrk & [Hph|Hph])]; rewrite Hph in *; naive_solver.
Qed.

Lemma leave_moved s s1 os i m m1 :
  Notifier.run (shutdown s) os = Some (shutdown s1) -> managers s1 = managers s -> clock s1 = clock s ->
  managers s !! i = Some m -> at_phase m = Running -> rx_shutdown m1 = rx_shutdown m -> parent m1 = parent m ->
  moved s (leave s1 i m1) (os ++ [Notifier.Notify]) i m (set_phase m1 (StopTasks (clock s1 + 2000))).
Proof.
  intros Hr Hms Hc Hm Hph Hrx Hpar. unfold left in *.
  split; simpl; try (rewrite ?Hrx; by auto); try (rewrite ?Hms; done).
  - by rewrite NotifierFacts.run_app, Hr.
  - intros d [[= <-]|[=]]. right. by rewrite Hc.
  - right. rewrite Hph. simpl. lia.
  - intros _. right. set_solver.
Qed.

Lemma start_moved s i id m s' : managers s !! i = Some m -> start s i id m = Some s' -> exists os m', moved s s' os i m m'.
Proof.
  intros Hm. unfold start. case_bool_decide as Hb; [|done]. destruct Hb as [Hrx Hid]. intros [= <-].
  exists [Notifier.Subscribe id], (set_rx_shutdown m id). unfold left. split; simpl; try done; auto.
  - by rewrite bool_decide_true.
  - by rewrite Hrx.
  - intros id' [= <-]. right. rewrite lookup_insert_eq. eauto.
Qed.

Lemma select_moved s i m ev s' :
  inv s -> managers s !! i = Some m -> at_phase m = Running -> select s i m ev = Some s' -> exists os m', moved s s' os i m m'.
Proof.
  intros Hi Hm Hrun. unfold select. destruct (rx_shutdown m) as [id|] eqn:Hid; [|done].
  pose proof (fun m1 Hrx Hpar => leave_moved s s [] i m m1 eq_refl eq_refl eq_refl Hm Hrun Hrx Hpar) as Hleave.
  destruct ev as [| | | |i' x| |i' x| | | |]; try done; try (case_match; [|done]; intros [= <-]; do 2 eexists; by apply Hleave).
  - destruct (Notifier.poll (shutdown s) id i) as [n ready] eqn:Hp. intros [= <-].
    assert (Notifier.run (shutdown s) [Notifier.Poll id i] = Some n) as Hn.
    { cbn [Notifier.run Notifier.step]. rewrite bool_decide_true by (by eapply inv_noticers). simpl. by rewrite Hp. }
    destruct ready; [do 2 eexists; by apply (leave_moved s (mk (managers s) n (clock s)) [Notifier.Poll id i])|].
    exists [Notifier.Poll id i], m. split; simpl; auto. by rewrite insert_id.
  - destruct (new_tasks m) as [|x l]; [done|]. intros [= <-]. do 2 eexists. apply update_moved; auto.
Qed.

Lemma stop_tasks_moved s i m d ev s' :
  managers s !! i = Some m -> at_phase m = StopTasks d -> stop_tasks s i m d ev = Some s' -> exists os m', moved s s' os i m m'.
Proof.
  intros Hm Hph. assert (left m) as Hl by (unfold left; by rewrite Hph).
  unfold stop_tasks. destruct ev; try done; case_match; try done; intros [= <-]; do 2 eexists; apply update_moved; auto; right; rewrite Hph; simpl; auto with lia.
Qed.

Lemma stop_subs_moved s i m d ev s' :
  managers s !! i = Some m -> at_phase m = StopSubs d -> stop_subs s i m d ev = Some s' -> exists os m', moved s s' os i m m'.
Proof.
  intros Hm Hph. assert (left m) as Hl by (unfold left; by rewrite Hph).
  unfold stop_subs. destruct ev; try done; case_match; try done; intros [= <-]; do 2 eexists; apply update_moved; auto; right; rewrite Hph; simpl; auto with lia.
Qed.

Lemma join_moved s i ev s' : inv s -> join_internal s i ev = Some s' -> exists os m m', moved s s' os i m m'.
Proof.
  intros Hi. unfold join_internal. intros (m & Hm & Hj)%bind_Some. case_match; [|done].
  enough (exists os m', moved s s' os i m m') as (os & m' & Hmv) by eauto.
  destruct (at_phase m) as [|d|d|] eqn:Hph; [| | |done].
  - destruct ev; first [by eapply start_moved|by eapply select_moved].
  - by eapply stop_tasks_moved.
  - by eapply stop_subs_moved.
Qed.

(** The steps that leave the managers alone, or move one. *)
Lemma step_cases s ev s' : inv s -> step s ev = Some s' ->
  (managers s' = managers s /\ clock s <= clock s' /\ exists os, Notifier.run (shutdown s) os = Some (shutdown s')) \/
  exists os i m m', moved s s' os i m m'.
Proof.
  intros Hi. destruct ev; simpl; try (intros (os & m & m' & Hmv)%join_moved; [right; eauto 10|done]).
  - intros (m & Hm & [= <-])%bind_Some. right. do 4 eexists. apply update_moved; [done|..]; unfold clone_spawn_task; case_match; auto.
  - intros [= <-]. left. split_and!; [done|done|]. by exists [Notifier.Notify].
  - case_match eqn:Hc; [|done]. intros [= <-]. apply N.leb_le in Hc. left. split_and!; [done|done|]. by exists [].
Qed.

Lemma cells_kept s os s' id : NotifierFacts.inv s -> Notifier.run s os = Some s' ->
  is_Some (Notifier.cells s !! id) -> is_Some (Notifier.cells s' !! id).
Proof. intros Hi Hr [[b w] Hc]. destruct (NotifierFacts.run_cell os s s' id b w Hi Hr Hc) as [w' ->]. eauto. Qed.

Lemma moved_inv s s' os i m m' : inv s -> moved s s' os i m m' -> inv s'.
Proof.
  intros [Hn Hc Hd] Hmv. destruct Hmv as [Hr Hck Hm Hto _ Hnew Hdl _ _ _]. split.
  - by eapply NotifierFacts.notifier_run_inv.
  - intros j mj id. rewrite Hto. intros [[<- <-]|[_ Hj]]%lookup_insert_Some Hid.
    + destruct (Hnew id Hid) as [Hold|?]; [|done]. eapply cells_kept; eauto.
    + eapply cells_kept; eauto.
  - intros j mj d. rewrite Hto, Hck. intros [[<- <-]|[_ Hj]]%lookup_insert_Some Hph; [|by eapply Hd].
    destruct (Hdl d Hph) as [Heq|?]; [|lia]. rewrite <- Heq in Hph. by eapply Hd.
Qed.

Lemma tasks_step_inv s ev s' : inv s -> step s ev = Some s' -> inv s'.
Proof.
  intros Hi Hs. destruct (step_cases s ev s' Hi Hs) as [(Hms & Hck & os & Hr)|(os & i & m & m' & Hmv)]; [|by eapply moved_inv].
  destruct Hi as [Hn Hc Hd]. split.
  - by eapply NotifierFacts.notifier_run_inv.
  - intros j mj id. rewrite Hms. intros Hj Hid. eapply cells_kept; eauto.
  - intros j mj d. rewrite Hms. intros Hj Hph. specialize (Hd j mj d Hj Hph). lia.
Qed.

Lemma task_run_inv s evs s' : inv s -> run s evs = Some s' -> inv s'.
Proof.
  revert s. induction evs as [|ev evs IH]; intros s Hi; [by intros [= <-]|].
  simpl. intros (s1 & Hs & Hr)%bind_Some. eapply IH; [|done]. by eapply tasks_step_inv.
Qed.

(** A node before its managers are joined. *)
Definition initial (ms : gmap N manager) : t := mk ms Notifier.new 0.

Lemma initial_inv ms : map_Forall (fun _ m => at_phase m = Running /\ rx_shutdown m = None) ms -> inv (initial ms).
Proof.
  intros Hms. split; simpl; [apply NotifierFacts.notifier_new_inv| |].
  - intros i m id Hm Hid. destruct (Hms i m Hm). congruence.
  - intros i m d Hm Hph. destruct (Hms i m Hm) as [Hr _]. rewrite Hr in Hph. by destruct Hph.
Qed.

(** What a manager of before is now, and the cell of its noticer: notified when some manager
    left its loop in between. *)
Record later (s s' : t) : Prop := {
  later_managers j m : managers s !! j = Some m -> exists m', managers s' !! j = Some m' /\
    (forall id, rx_shutdown m = Some id -> rx_shutdown m' = Some id) /\ (left m -> left m');
  later_cells id b w : Notifier.cells (shutdown s) !! id = Some (b, w) -> exists b' w', Notifier.cells (shutdown s') !! id = Some (b', w') /\
    (b = true -> b' = true) /\
    (forall i m m', managers s !! i = Some m -> managers s' !! i = Some m' -> left m' -> left m \/ b' = true);
}.

Lemma step_later s ev s' : inv s -> step s ev = Some s' -> later s s'.
Proof.
  intros Hi Hs. destruct (step_cases s ev s' Hi Hs) as [(Hms & _ & os & Hr)|(os & i & m & m' & Hmv)].
  - split; [intros j mj; rewrite Hms; eauto|]. intros id b w Hc.
    destruct (NotifierFacts.run_cell os _ _ id b w (inv_shutdown _ Hi) Hr Hc) as [w' Hc']. do 2 eexists. split; [done|]. split; [by intros ->|].
    intros j mj mj' Hj. rewrite Hms, Hj. intros [= <-]. auto.
  - pose proof (moved_left _ _ _ _ _ _ Hmv) as Hl. destruct Hmv as [Hr _ Hm Hto Hrx _ _ _ _ Hn]. split.
    + intros j mj Hj. rewrite Hto. destruct (decide (i = j)) as [->|Hne]; [rewrite lookup_insert_eq|rewrite lookup_insert_ne by done; eauto].
      assert (m = mj) as <- by congruence. eauto.
    + intros id b w Hc. destruct (NotifierFacts.run_cell os _ _ id b w (inv_shutdown _ Hi) Hr Hc) as [w' Hc'].
      do 2 eexists. split; [done|]. split; [by intros ->|]. intros j mj mj' Hj. rewrite Hto. intros [[<- <-]|[_ Hj']]%lookup_insert_Some Hleft.
      * assert (m = mj) as <- by congruence. destruct (Hn Hleft) as [?|Hin]; [by left|right]. rewrite bool_decide_true by done. apply orb_true_r.
      * left. assert (mj = mj') as <- by congruence. done.
Qed.

Lemma later_trans s1 s2 s3 : later s1 s2 -> later s2 s3 -> later s1 s3.
Proof.
  intros [Hm1 Hc1] [Hm2 Hc2]. split.
  - intros j m Hj. destruct (Hm1 j m Hj) as (m2 & Hj2 & ? & ?). destruct (Hm2 j m2 Hj2) as (m3 & Hj3 & ? & ?). exists m3. split; [done|]. auto.
  - intros id b w Hc. destruct (Hc1 id b w Hc) as (b2 & w2 & Hcell2 & Hb2 & Hl2). destruct (Hc2 id b2 w2 Hcell2) as (b3 & w3 & Hcell3 & Hb3 & Hl3).
    exists b3, w3. split; [done|]. split; [auto|]. intros i m m3 Hi Hi3 Hleft. destruct (Hm1 i m Hi) as (m2 & Hi2 & _ & _).
    destruct (Hl3 i m2 m3 Hi2 Hi3 Hleft) as [Hleft2|?]; [|auto]. destruct (Hl2 i m m2 Hi Hi2 Hleft2); auto.
Qed.

Lemma run_later s evs s' : inv s -> run s evs = Some s' -> later s s'.
Proof.
  revert s. induction evs as [|ev evs IH]; intros s Hi; simpl.
  - intros [= <-]. split; [eauto|]. intros id b w Hc. do 2 eexists. split; [done|]. split; [done|]. intros i m m' Hm. rewrite Hm. intros [= <-]. auto.
  - intros (s1 & Hs & Hr)%bind_Some. eapply later_trans; [by eapply step_later|]. eapply IH; [|done]. by eapply tasks_step_inv.
Qed.

(** The branch of the shutdown of a manager whose noticer is notified. *)
Lemma shutdown_branch s i m id w : managers s !! i = Some m -> at_phase m = Running -> polled s m = true -> rx_shutdown m = Some id ->
  Notifier.cells (shutdown s) !! id = Some (true, w) ->
  exists s' m', step s (Shutdown i) = Some s' /\ managers s' !! i = Some m' /\ left m'.
Proof.
  intros Hm Hph Hp Hrx Hc. cbn [step]. unfold join_internal. rewrite Hm. simpl. rewrite Hp, Hph. unfold select. rewrite Hrx.
  unfold Notifier.poll. rewrite Hc. do 2 eexists. split; [done|]. simpl. split; [by rewrite lookup_insert_eq|done].
Qed.

(** A manager at the top needs its deadlines only. *)
Lemma timeout_step s i m d p : managers s !! i = Some m -> parent m = None -> d <= clock s ->
  (at_phase m = StopTasks d /\ p = StopSubs (clock s + 2000) \/ at_phase m = StopSubs d /\ p = Done) ->
  step s (Timeout i) = Some (update s i (set_phase m p)).
Proof.
  intros Hm Hpar Hd Hp. cbn [step]. unfold join_internal. rewrite Hm. simpl.
  assert (polled s m = true) as -> by (unfold polled; destruct (size (managers s)); simpl; by rewrite Hpar).
  apply N.leb_le in Hd. destruct Hp as [[-> ->]|[-> ->]]; unfold stop_tasks, stop_subs; by rewrite Hd.
Qed.

Lemma tick_timeout s i m d p t : managers s !! i = Some m -> parent m = None -> d <= t -> clock s <= t ->
  (at_phase m = StopTasks d /\ p = StopSubs (t + 2000) \/ at_phase m = StopSubs d /\ p = Done) ->
  run s [Tick t; Timeout i] = Some (mk (<[i := set_phase m p]> (managers s)) (shutdown s) t).
Proof.
  intros Hm Hpar Hd Ht Hp. apply N.leb_le in Ht. change (run s [Tick t; Timeout i]) with (s1 ← step s (Tick t); s2 ← step s1 (Timeout i); Some s2).
  assert (step s (Tick t) = Some (mk (managers s) (shutdown s) t)) as -> by (simpl; by rewrite Ht). cbn [mbind option_bind].
  by rewrite (timeout_step (mk (managers s) (shutdown s) t) i m d p).
Qed.

Lemma task_run_app s evs1 evs2 : run s (evs1 ++ evs2) = run s evs1 ≫= fun s' => run s' evs2.
Proof. revert s. induction evs1 as [|ev evs1 IH]; intros s; simpl; [done|]. destruct (step s ev); simpl; [apply IH|done]. Qed.

(** The noticer of the manager is notified. *)
Definition noticed (s : t) (m : manager) : Prop := exists id w, rx_shutdown m = Some id /\ Notifier.cells (shutdown s) !! id = Some (true, w).

(** The run-time polls the manager when it is woken, before the clock moves on: while its shutdown
    branch is ready, and at its deadlines. *)
Definition awake (r : N) (s : t) (now : N) : Prop :=
  forall m, managers s !! r = Some m ->
  match at_phase m with
  | Running => noticed s m -> now = clock s
  | StopTasks d | StopSubs d => now <= N.max d (clock s)
  | Done => True
  end.

Fixpoint prompt (r : N) (s : t) (evs : list event) : Prop :=
  match evs with
  | [] => True
  | ev :: evs => match ev with Tick now => awake r s now | _ => True end /\ match step s ev with Some s' => prompt r s' evs | None => True end
  end.

(** Where the manager is at a time, when it was to stop at the time [c]. *)
Definition stopping (c : N) (r : N) (s : t) : Prop :=
  exists m, managers s !! r = Some m /\
  match at_phase m with
  | Running => noticed s m /\ clock s <= c
  | StopTasks d => d <= c + 2000 /\ clock s <= c + 2000
  | StopSubs d => d <= c + 4000 /\ clock s <= c + 4000
  | Done => True
  end.

Lemma noticed_later s s' j m m' : later s s' -> managers s !! j = Some m -> managers s' !! j = Some m' -> noticed s m -> noticed s' m'.
Proof.
  intros [Hm Hc] Hj Hj' (id & w & Hrx & Hcell). destruct (Hm j m Hj) as (m1 & Hj1 & Hrx' & _). assert (m1 = m') as -> by congruence.
  destruct (Hc id true w Hcell) as (b' & w' & Hcell' & Hb & _). rewrite (Hb eq_refl) in Hcell'. exists id, w'. auto.
Qed.

Lemma stopping_moved c r s s' os i m m' : inv s -> later s s' -> stopping c r s -> moved s s' os i m m' -> stopping c r s'.
Proof.
  intros Hinv Hlater (mr & Hr & Hst) Hmv. destruct Hmv as [_ Hck Hm Hto _ _ Hdl _ Ho _]. destruct (decide (i = r)) as [->|Hne].
  - assert (mr = m) as -> by congruence. assert (managers s' !! r = Some m') as Hr' by (rewrite Hto; apply lookup_insert_eq). exists m'. split; [done|].
    rewrite Hck. destruct Ho as [Heq|Hlt].
    + rewrite Heq. destruct (at_phase m) as [|d|d|]; [|done..]. destruct Hst as [Hn ?]. split; [|done]. exact (noticed_later _ _ r _ _ Hlater Hr Hr' Hn).
    + destruct (at_phase m') as [|d|d|] eqn:Hp'; [by apply Nat.nlt_0_r in Hlt| | |done].
      * destruct (Hdl d (or_introl eq_refl)) as [Heq| ->]; [rewrite Heq in Hlt; lia|]. destruct (at_phase m); simpl in Hlt; try lia; destruct Hst; split; lia.
      * destruct (Hdl d (or_intror eq_refl)) as [Heq| ->]; [rewrite Heq in Hlt; lia|]. destruct (at_phase m); simpl in Hlt; try lia; destruct Hst; split; lia.
  - assert (managers s' !! r = Some mr) as Hr' by (rewrite Hto, lookup_insert_ne by done; exact Hr). exists mr. split; [done|]. rewrite Hck.
    destruct (at_phase mr) as [|d|d|]; [|done..]. destruct Hst as [Hn ?]. split; [|done]. exact (noticed_later _ _ r _ _ Hlater Hr Hr' Hn).
Qed.

Lemma stopping_step c r s ev s' : inv s -> stopping c r s -> step s ev = Some s' ->
  match ev with Tick now => awake r s now | _ => True end -> stopping c r s'.
Proof.
  intros Hinv Hst Hs Haw. pose proof (step_later s ev s' Hinv Hs) as Hlater.
  destruct (step_cases s ev s' Hinv Hs) as [(Hms & _ & _)|(os & i & m & m' & Hmv)]; [|by eapply stopping_moved].
  destruct Hst as (mr & Hr & Hst). assert (managers s' !! r = Some mr) as Hr' by by rewrite Hms. exists mr. split; [done|].
  assert (clock s' = clock s \/ exists now, ev = Tick now /\ clock s' = now) as Hck.
  { destruct ev; simpl in Hs; try (destruct (join_moved _ _ _ _ Hinv Hs) as (? & ? & ? & Hmv); left; apply (moved_clock _ _ _ _ _ _ Hmv)).
    - apply bind_Some in Hs as (? & _ & [= <-]). by left.
    - injection Hs as <-. by left.
    - case_match; [|done]. injection Hs as <-. eauto. }
  destruct Hck as [->|(now & -> & ->)].
  - destruct (at_phase mr); [|done..]. destruct Hst as [Hn ?]. split; [|done]. exact (noticed_later _ _ r _ _ Hlater Hr Hr' Hn).
  - specialize (Haw mr Hr). destruct (at_phase mr) as [|d|d|]; [|lia|lia|done]. destruct Hst as [Hn ?]. rewrite (Haw Hn). split; [|done]. exact (noticed_later _ _ r _ _ Hlater Hr Hr' Hn).
Qed.

Lemma stopping_run c r s evs s' : inv s -> stopping c r s -> run s evs = Some s' -> prompt r s evs -> stopping c r s'.
Proof.
  revert s. induction evs as [|ev evs IH]; intros s Hinv Hst; simpl; [by intros [= <-]|].
  intros (s1 & Hs & Hr)%bind_Some. rewrite Hs. intros [Haw Hp]. eapply IH; [by eapply tasks_step_inv|by eapply stopping_step|done|done].
Qed.

Lemma prompt_app r s evs1 evs2 s1 : run s evs1 = Some s1 -> prompt r s evs1 -> prompt r s1 evs2 -> prompt r s (evs1 ++ evs2).
Proof.
  revert s. induction evs1 as [|ev evs1 IH]; intros s; simpl; [by intros [= ->] _|]. intros (s' & Hs & Hr)%bind_Some. rewrite Hs. intros [Ha Hp] Hp2. eauto.
Qed.

Lemma tick_prompt r s now : awake r s now -> prompt r s [Tick now; Timeout r].
Proof. intros Ha. cbn [prompt]. split; [done|]. destruct (step s (Tick now)); [|done]. split; [done|]. by destruct (step _ _). Qed.

(** A manager at the top that is to stop has a prompt run in which it returns. *)
Lemma top_returns s r m : inv s -> managers s !! r = Some m -> parent m = None -> left m ->
  exists evs s' m', run s evs = Some s' /\ prompt r s evs /\ managers s' !! r = Some m' /\ at_phase m' = Done /\ clock s' <= clock s + 4000.
Proof.
  intros Hinv Hm Hpar Hl. destruct (at_phase m) as [|d|d|] eqn:Hph; [done|..|by exists [], s, m; split_and!; [done..|lia]].
  - pose proof (inv_deadline _ Hinv r m d Hm (or_introl Hph)) as Hd. set (t1 := N.max d (clock s)).
    exists ([Tick t1; Timeout r] ++ [Tick (t1 + 2000); Timeout r]).
    rewrite task_run_app, (tick_timeout s r m d (StopSubs (t1 + 2000)) t1) by (done || lia || by left). cbn [mbind option_bind].
    set (s1 := mk _ _ t1). assert (managers s1 !! r = Some (set_phase m (StopSubs (t1 + 2000)))) as Hm1 by apply lookup_insert_eq.
    rewrite (tick_timeout s1 r (set_phase m (StopSubs (t1 + 2000))) (t1 + 2000) Done (t1 + 2000)) by (done || (simpl; lia) || by right).
    do 2 eexists. split; [done|]. split; [|simpl; split; [by rewrite lookup_insert_eq|]; split; [done|lia]].
    apply (prompt_app r s _ _ s1); [apply (tick_timeout s r m d); (done || lia || by left)|apply tick_prompt; intros m0 Hm0; assert (m0 = m) as -> by congruence; rewrite Hph; lia|].
    apply tick_prompt. intros m0 Hm0. assert (m0 = set_phase m (StopSubs (t1 + 2000))) as -> by congruence. simpl. lia.
  - pose proof (inv_deadline _ Hinv r m d Hm (or_intror Hph)) as Hd. set (t1 := N.max d (clock s)).
    exists [Tick t1; Timeout r]. rewrite (tick_timeout s r m d Done t1) by (done || lia || by right).
    do 2 eexists. split; [done|]. split; [|simpl; split; [by rewrite lookup_insert_eq|]; split; [done|lia]].
    apply tick_prompt. intros m0 Hm0. assert (m0 = m) as -> by congruence. rewrite Hph. lia.
Qed.

(** A manager that was joined before another left its loop is notified. *)
Lemma joined_noticed s1 s2 i mi mi' j m m' :
  inv s1 -> later s1 s2 -> managers s1 !! i = Some mi -> at_phase mi = Running -> managers s2 !! i = Some mi' -> left mi' ->
  managers s1 !! j = Some m -> rx_shutdown m <> None -> managers s2 !! j = Some m' -> noticed s2 m'.
Proof.
  intros Hinv [Hlm Hlc] Hi1 Hrun Hi2 Hleft Hj Hrx Hj2. destruct (rx_shutdown m) as [id|] eqn:Hid; [|done].
  destruct (inv_noticers _ Hinv j m id Hj Hid) as [[b w] Hc]. destruct (Hlc id b w Hc) as (b' & w' & Hc' & _ & Hn).
  destruct (Hlm j m Hj) as (m2 & Hj2' & Hrx2 & _). assert (m' = m2) as -> by congruence.
  destruct (Hn i mi mi' Hi1 Hi2 Hleft) as [Hl| ->]; [done|]. exists id, w'. auto.
Qed.

Lemma stopping_start s r m : inv s -> managers s !! r = Some m -> noticed s m ->
  match at_phase m with
  | Running => noticed s m /\ clock s <= clock s
  | StopTasks d => d <= clock s + 2000 /\ clock s <= clock s + 2000
  | StopSubs d => d <= clock s + 4000 /\ clock s <= clock s + 4000
  | Done => True
  end.
Proof.
  intros Hinv Hm Hn. destruct (at_phase m) as [|d|d|] eqn:Hph; [by split| | |done].
  - pose proof (inv_deadline _ Hinv r m d Hm (or_introl Hph)). lia.
  - pose proof (inv_deadline _ Hinv r m d Hm (or_intror Hph)). lia.
Qed.

(** The parents of the managers do not change. *)
Lemma run_parent s evs s' : inv s -> run s evs = Some s' -> forall j m m', managers s !! j = Some m -> managers s' !! j = Some m' -> parent m' = parent m.
Proof.
  revert s. induction evs as [|ev evs IH]; intros s Hinv; simpl; [intros [= <-] j m m'; congruence|].
  intros (s1 & Hs & Hr)%bind_Some j m m' Hj Hj'. destruct (later_managers _ _ (step_later _ _ _ Hinv Hs) j m Hj) as (m1 & Hj1 & _).
  rewrite (IH s1 (tasks_step_inv _ _ _ Hinv Hs) Hr j m1 m' Hj1 Hj').
  destruct (step_cases s ev s1 Hinv Hs) as [(Hms & _ & _)|(os & i & mi & mi' & Hmv)]; [congruence|].
  pose proof (moved_parent _ _ _ _ _ _ Hmv) as Hp. destruct Hmv as [_ _ Hm Hto _ _ _ _ _ _]. rewrite Hto in Hj1. apply lookup_insert_Some in Hj1 as [[<- <-]|[_ ?]]; congruence.
Qed.

(** The manager at the top, once it is notified. *)
Lemma top_stops s r m : inv s -> managers s !! r = Some m -> parent m = None -> noticed s m ->
  exists evs s' m', run s evs = Some s' /\ prompt r s evs /\ managers s' !! r = Some m' /\ at_phase m' = Done /\ clock s' <= clock s + 4000.
Proof.
  intros Hinv Hm Hpar Hn. destruct (decide (at_phase m = Running)) as [Hph|Hl]; [|by apply (top_returns s r m)]. destruct Hn as (id & w & Hid & Hc).
  assert (polled s m = true) as Hp by (unfold polled; destruct (size (managers s)); simpl; by rewrite Hpar).
  destruct (shutdown_branch s r m id w Hm Hph Hp Hid Hc) as (s1 & m1 & Hs & Hm1 & Hl1).
  assert (run s [Shutdown r] = Some s1) as Hr by (cbn [run]; by rewrite Hs).
  assert (parent m1 = None) as Hpar1 by (by rewrite (run_parent s _ s1 Hinv Hr r m m1 Hm Hm1)).
  assert (clock s1 = clock s) as Hck.
  { destruct (join_moved _ _ _ _ Hinv Hs) as (os & m2 & m2' & Hmv). apply (moved_clock _ _ _ _ _ _ Hmv). }
  destruct (top_returns s1 r m1 (tasks_step_inv _ _ _ Hinv Hs) Hm1 Hpar1 Hl1) as (evs & s' & m' & Hr' & Hpr & Hm' & Hd & Hc').
  exists (Shutdown r :: evs), s', m'. cbn [run]. rewrite Hs. split_and!; [done| |done|done|lia]. cbn [prompt]. by rewrite Hs.
Qed.

End TaskFacts.

Module PublisherFacts.
Import Publisher.

Definition received (evs : list event) : list N := omap (fun ev => match ev with Received c => Some c | _ => None end) evs.

(** The latest certificate is at the end of the queue, until it is published. *)
Record inv (s : t) : Prop := {
  inv_latest c : latest s = Some c -> last (requests s) = Some c \/ (requests s = [] /\ last (published s) = Some c);
  inv_empty : latest s = None -> requests s = [];
  inv_backoff : backoff_multiplier s <= 100;
}.

Lemma publisher_step s ev s' : inv s -> step s ev = Some s' ->
  inv s' /\ published s' ++ requests s' `sublist_of` published s ++ requests s ++ received [ev].
Proof.
  intros [Hl He Hb]. destruct ev as [c| |ok]; simpl.
  - intros [= <-]. split; [|done]. split; simpl; [|done|done]. intros c' [= <-]. left. apply last_snoc.
  - intros [= <-]. split; [done|]. by rewrite app_nil_r.
  - destruct (requests s) as [|c l] eqn:Hr; [done|]. destruct ok; [|destruct l as [|c' l]]; intros [= <-].
    + split; [split; simpl; [|by intros ?%He|lia]|simpl; by rewrite app_nil_r, <- app_assoc].
      intros c' Hc. destruct (Hl c' Hc) as [Hlast|[[=] _]]. destruct l as [|c2 l]; simpl in *; [right|by left].
      split; [done|]. injection Hlast as ->. apply last_snoc.
    + split; [split; simpl; [|by intros ?%He|lia]|done]. intros c' Hc. destruct (Hl c' Hc) as [?|[[=] _]]. by left.
    + split; [split; simpl; [|by intros ?%He|lia]|].
      * intros c2 Hc. destruct (Hl c2 Hc) as [?|[[=] _]]. by left.
      * rewrite app_nil_r. simpl. apply sublist_app; [done|]. by apply sublist_cons.
Qed.

Lemma publisher_run s evs s' : inv s -> run s evs = Some s' ->
  inv s' /\ published s' ++ requests s' `sublist_of` published s ++ requests s ++ received evs.
Proof.
  revert s. induction evs as [|ev evs IH]; intros s Hi; [intros [= <-]; split; [done|]; simpl; by rewrite app_nil_r|].
  cbn [run]. intros (s1 & Hs & Hr)%bind_Some. destruct (publisher_step s ev s1 Hi Hs) as [Hi1 Hsub1].
  destruct (IH s1 Hi1 Hr) as [Hi' Hsub]. split; [done|]. etrans; [exact Hsub|].
  rewrite app_assoc. etrans; [by apply sublist_app|]. rewrite <- !app_assoc. unfold received at 2. by destruct ev.
Qed.

Lemma publisher_new_inv : inv new.
Proof. by split. Qed.

End PublisherFacts.

(** * Properties *)

Import TaskManager TaskFacts.

(** C37: A node stops as a whole.  Take the manager at the top, once it is joined, and any manager
    of the hierarchy that leaves its loop after that, whatever made it.  Then the manager at the
    top returns: at no later time than four seconds after that is it still there, in any run in
    which the run-time polls it when it is woken, whatever else happens and even if neither its
    tasks nor its sub-managers end; and there is such a run.  Every other manager that was joined
    and is still in its loop finds the shutdown, the branch of its select is ready and takes it
    out of its loop, provided that its future is polled: one whose parent waits for its own tasks
    is not polled until that wait ends, and not at all once an ancestor has returned. *)
Theorem node_stops ms evs1 s1 evs2 s2 i mi mi' r mr :
  map_Forall (fun _ m => at_phase m = Running /\ rx_shutdown m = None) ms ->
  run (initial ms) evs1 = Some s1 -> run s1 evs2 = Some s2 ->
  managers s1 !! i = Some mi -> at_phase mi = Running -> managers s2 !! i = Some mi' -> at_phase mi' <> Running ->
  managers s1 !! r = Some mr -> rx_shutdown mr <> None -> parent mr = None ->
  (forall evs3 s3 m3, run s2 evs3 = Some s3 -> prompt r s2 evs3 -> managers s3 !! r = Some m3 -> clock s2 + 4000 < clock s3 -> at_phase m3 = Done) /\
  (exists evs3 s3 m3, run s2 evs3 = Some s3 /\ prompt r s2 evs3 /\ managers s3 !! r = Some m3 /\ at_phase m3 = Done /\ clock s3 <= clock s2 + 4000) /\
  (forall j m m', managers s1 !! j = Some m -> rx_shutdown m <> None -> managers s2 !! j = Some m' ->
     at_phase m' = Running -> polled s2 m' = true ->
     exists s3 m3, step s2 (Shutdown j) = Some s3 /\ managers s3 !! j = Some m3 /\ at_phase m3 <> Running).
Proof.
  intros Hms Hr1 Hr2 Hi1 Hrun Hi2 Hleft Hmr Hjoined Hpar. pose proof (task_run_inv _ _ _ (initial_inv ms Hms) Hr1) as Hinv1.
  pose proof (task_run_inv _ _ _ Hinv1 Hr2) as Hinv2. pose proof (run_later _ _ _ Hinv1 Hr2) as Hlater.
  assert (forall j m m', managers s1 !! j = Some m -> rx_shutdown m <> None -> managers s2 !! j = Some m' -> noticed s2 m') as Hnoticed
    by (intros j m m'; by apply (joined_noticed s1 s2 i mi mi')).
  destruct (later_managers _ _ Hlater r mr Hmr) as (mr2 & Hmr2 & _). pose proof (run_parent _ _ _ Hinv1 Hr2 r mr mr2 Hmr Hmr2) as Hpar2. rewrite Hpar in Hpar2.
  split_and!.
  - intros evs3 s3 m3 Hr3 Hp Hm3 Hck. destruct (stopping_run (clock s2) r s2 evs3 s3 Hinv2) as (m & Hm & Hst); [|done|done|].
    { exists mr2. split; [done|]. apply (stopping_start s2 r mr2 Hinv2 Hmr2). by apply (Hnoticed r mr). }
    assert (m = m3) as -> by congruence. destruct (at_phase m3); [lia..|done].
  - apply (top_stops s2 r mr2 Hinv2 Hmr2 Hpar2). by apply (Hnoticed r mr).
  - intros j m m' Hj Hrx Hj2 Hph Hp. destruct (Hnoticed j m m' Hj Hrx Hj2) as (id & w & Hid & Hc). by apply (shutdown_branch s2 j m' id w).
Qed.

(** The latest certificate of the node is in flight until it is published; certificates are published in the
    order they were received, and the delay between two attempts is at most ten seconds. *)
Theorem latest_certificate_in_flight evs s :
  Publisher.run Publisher.new evs = Some s ->
  (forall c, last (PublisherFacts.received evs) = Some c ->
     last (Publisher.requests s) = Some c \/ (Publisher.requests s = [] /\ last (Publisher.published s) = Some c)) /\
  Publisher.published s `sublist_of` PublisherFacts.received evs /\ Publisher.backoff s <= 10000.
Proof.
  intros Hr. destruct (PublisherFacts.publisher_run _ _ _ PublisherFacts.publisher_new_inv Hr) as [[Hl _ Hb] Hsub]. split_and!.
  - enough (forall s0, Publisher.run s0 evs = Some s -> (PublisherFacts.received evs = [] -> Publisher.latest s = Publisher.latest s0) /\
      forall c, last (PublisherFacts.received evs) = Some c -> Publisher.latest s = Some c) as Hlast by (intros c Hc; by apply Hl, (Hlast _ Hr)).
    clear Hr Hl Hb Hsub. induction evs as [|ev evs IH]; intros s0; [by intros [= <-]|].
    cbn [Publisher.run]. intros (s1 & Hs & Hr)%bind_Some. destruct (IH s1 Hr) as [IH1 IH2]. destruct ev as [c| |ok]; simpl in *.
    + injection Hs as <-. split; [done|]. intros c'. destruct (PublisherFacts.received evs) eqn:He; [|by apply IH2].
      intros [= <-]. by rewrite IH1.
    + by injection Hs as <-.
    + split; [|done]. intros He. rewrite (IH1 He). destruct (Publisher.requests s0) as [|? [|]]; [done|..]; destruct ok; by injection Hs as <-.
  - simpl in Hsub. etrans; [|exact Hsub]. by apply sublist_inserts_r.
  - unfold Publisher.backoff. lia.
Qed.

(** * Examples *)

(** A node with a sub-manager: a task of the sub-manager ends. *)
Definition demo_managers : gmap N manager :=
  {[ 0 := mk_manager Running [1] [] [1] None None true; 1 := mk_manager Running [2] [] [] (Some 0) None false ]}.
Definition demo_joined : t := default (initial ∅) (run (initial demo_managers) [Start 0 100; Start 1 101]).
Definition demo_stopped : t := default (initial ∅) (run demo_joined [TaskEnded 1 2]).

Lemma node_stops_witness :
  (forall evs3 s3 m3, run demo_stopped evs3 = Some s3 -> prompt 0 demo_stopped evs3 -> managers s3 !! 0 = Some m3 -> clock demo_stopped + 4000 < clock s3 -> at_phase m3 = Done) /\
  (exists evs3 s3 m3, run demo_stopped evs3 = Some s3 /\ prompt 0 demo_stopped evs3 /\ managers s3 !! 0 = Some m3 /\ at_phase m3 = Done /\ clock s3 <= clock demo_stopped + 4000).
Proof.
  destruct (node_stops demo_managers [Start 0 100; Start 1 101] demo_joined [TaskEnded 1 2] demo_stopped 1
    (mk_manager Running [2] [] [] (Some 0) (Some 101) false) (mk_manager (StopTasks 2000) [] [] [] (Some 0) (Some 101) false)
    0 (mk_manager Running [1] [] [1] None (Some 100) true)) as (H1 & H2 & _).
  - apply map_Forall_insert; [done|]. split; [done|]. by apply map_Forall_singleton.
  - by vm_compute.
  - by vm_compute.
  - by vm_compute.
  - done.
  - by vm_compute.
  - done.
  - by vm_compute.
  - done.
  - done.
  - split; [exact H1|exact H2].
Defined.

(** A certificate is tried again while it is the only one. *)
Definition demo_publisher : Publisher.t :=
  default Publisher.new (Publisher.run Publisher.new
    [Publisher.Received 5; Publisher.Answered false; Publisher.Answered false; Publisher.Received 6; Publisher.Answered false; Publisher.Answered true]).

Lemma latest_certificate_in_flight_witness :
  (forall c, last [5; 6] = Some c ->
     last (Publisher.requests demo_publisher) = Some c \/ (Publisher.requests demo_publisher = [] /\ last (Publisher.published demo_publisher) = Some c)) /\
  Publisher.published demo_publisher `sublist_of` [5; 6] /\ Publisher.backoff demo_publisher <= 10000.
Proof.
  apply (latest_certificate_in_flight [Publisher.Received 5; Publisher.Answered false; Publisher.Answered false; Publisher.Received 6;
    Publisher.Answered false; Publisher.Answered true] demo_publisher). by vm_compute.
Defined.
