(* ===== verification/Node.v ===== *)
(** The assembly of a node: the start of its networks, what the execution node reads back
    from the blocks it persisted, the mode a node starts in and the loop that starts it
    again.  Models crates/node/src/lib.rs and crates/node/src/engine/inner.rs. *)

From S2P Require Import Prelude Storage Committee Certificate CertStore Output ConsensusState OrderDag LeaderSchedule Bullshark.
From S2P Require Import Demo Consensus Worker WorkerSafety ConsensusChain ChainSafety Engine EngineSafety BatchBuilder.

(** * The execution node *)

Module ExecutionNode.

Inductive NodeError :=
  | ProviderFailed
  | UnableToReadBlock (number : N)
  | SealedBlockNotFound (number hash : N)
  | WorkerNotFound (id : WorkerId).

(** What the database of blocks answers.  The provider belongs to the execution client;
    [sealed_header] and [header_by_number] read the same table. *)
Record Provider := mk_provider {
  last_finalized_block_number : outcome NodeError (option N);
  last_block_number : option N;
  header_by_number : N -> outcome NodeError (option ExecHeader.t);
  finalized_block_hash : option N;
  finalized_block_number : option N;
  sealed_block_by_hash : N -> option ExecHeader.t;
}.

Section node.
Context `{ExecutionClient}.

(** The hash of the consensus header that the last finalized block executed. *)
Definition last_executed_output (p : Provider) : outcome NodeError N :=
  finalized ← last_finalized_block_number p;
  header ← header_by_number p (default 0 finalized);
  Ok (from_option (fun h => default 0 (ExecHeader.parent_beacon_block_root h)) 0 header).

Definition last_executed_blocks (p : Provider) (number : N) : outcome NodeError (list ExecHeader.t) :=
  finalized ← last_finalized_block_number p;
  let finalized_block_num := default 0 finalized in
  let start_num := finalized_block_num - number in
  foldM (fun result block_num =>
      header ← header_by_number p block_num;
      Ok (result ++ option_list header)) [] (ConsensusDb.range start_num finalized_block_num).

(** The loop of [last_executed_output_blocks]: [block_num] is the number of the block that
    was read last. *)
Fixpoint walk_back (p : Provider) (number : N) (block_num : nat) (last_nonce blocks : N) (result : list ExecHeader.t)
    : outcome NodeError (list ExecHeader.t) :=
  if blocks <? number then
    match block_num with
    | O => Ok result
    | S block_num =>
        header ← header_by_number p (N.of_nat block_num);
        header ← ok_or header (UnableToReadBlock (N.of_nat block_num));
        if negb (ExecHeader.nonce header =? last_nonce)
        then walk_back p number block_num (ExecHeader.nonce header) (blocks + 1) (result ++ [header])
        else walk_back p number block_num last_nonce blocks result
    end
  else Ok result.

(** The final blocks of the last [number] outputs, the oldest first. *)
Definition last_executed_output_blocks (p : Provider) (number : N) : outcome NodeError (list ExecHeader.t) :=
  let finalized_block_num := default 0 (last_block_number p) in
  if 0 <? number then
    header ← header_by_number p finalized_block_num;
    header ← ok_or header (UnableToReadBlock finalized_block_num);
    result ← walk_back p number (N.to_nat finalized_block_num) (ExecHeader.nonce header) 1 [header];
    Ok (rev result)
  else Ok [].

(** The engine starts on the head of the chain, [lookup_head] of the execution client. *)
Definition start_engine (p : Provider) (head_number : N) (max_block : option N) (client : Engine.state) : outcome NodeError Engine.t :=
  header ← header_by_number p head_number;
  parent_header ← expect header;
  Ok (Engine.mk [] None max_block parent_header client []).

(** The tip that the transaction pool and the batch builder start on. *)
Definition start_batch_builder (MIN_PROTOCOL_BASE_FEE : N) (genesis : ExecHeader.t) (p : Provider) : outcome NodeError LastCanonicalUpdate.t :=
  let last_seen_block_hash := default (seal_hash genesis) (finalized_block_hash p) in
  let last_seen_block_number := default 0 (finalized_block_number p) in
  tip ← match last_seen_block_number with
        | 0 => Ok genesis
        | _ => ok_or (sealed_block_by_hash p last_seen_block_hash) (SealedBlockNotFound last_seen_block_number last_seen_block_hash)
        end;
  Ok (LastCanonicalUpdate.mk (seal_hash tip) (ExecHeader.timestamp tip) MIN_PROTOCOL_BASE_FEE).

End node.

(** The components of the workers: the pool and the address of the server, if it has one. *)
Definition get_worker_transaction_pool {P} (workers : gmap WorkerId (P * option N)) (id : WorkerId) : outcome NodeError P :=
  components ← ok_or (workers !! id) (WorkerNotFound id); Ok components.1.

Definition worker_http_local_address {P} (workers : gmap WorkerId (P * option N)) (id : WorkerId) : outcome NodeError (option N) :=
  components ← ok_or (workers !! id) (WorkerNotFound id); Ok components.2.

End ExecutionNode.

(** * Starting the networks *)

Module StartNetworks.

(** The task that dials a peer until it succeeds: the seconds it sleeps between attempts,
    and whether one of the attempts [results] succeeded. *)
Fixpoint dial_loop (backoff : N) (results : list bool) : list N * bool :=
  match results with
  | [] => ([], false)
  | true :: _ => ([], true)
  | false :: results =>
      let '(sleeps, connected) := dial_loop (if backoff <? 120 then backoff + backoff else backoff) results in
      (backoff :: sleeps, connected)
  end.

Definition dial (results : list bool) : list N * bool := dial_loop 1 results.

Section networks.
Context `{NetworkKeys} (committee : Committee.t) (worker_cache : WorkerCache.t) (authority_id : AuthorityIdentifier) (worker_address : string).

(** The peers that a node dials when it starts. *)
Definition primaries : list AuthorityIdentifier := (fun x => x.1.1) <$> Committee.others_primaries_by_id committee authority_id.
Definition workers : list N := (filter (fun w => w.2 <> worker_address) (WorkerCache.all_workers worker_cache)).*1.

(** The dialing tasks that have not succeeded, and the counters they share. *)
Record t := mk {
  dialing_primaries : list AuthorityIdentifier;
  dialing_workers : list N;
  peers_connected : N;
  workers_connected : N;
}.

Definition start : t := mk primaries workers 0 0.

(** The attempt of the task at an index succeeds. *)
Inductive event := PrimaryConnected (i : nat) | WorkerConnected (i : nat).

Definition step (s : t) (e : event) : option t :=
  match e with
  | PrimaryConnected i =>
      _ ← dialing_primaries s !! i;
      Some (mk (delete i (dialing_primaries s)) (dialing_workers s) ((peers_connected s + 1) mod u32_modulus) (workers_connected s))
  | WorkerConnected i =>
      _ ← dialing_workers s !! i;
      Some (mk (dialing_primaries s) (delete i (dialing_workers s)) (peers_connected s) ((workers_connected s + 1) mod u32_modulus))
  end.

Fixpoint run (s : t) (events : list event) : option t :=
  match events with
  | [] => Some s
  | e :: events => s ← step s e; run s events
  end.

(** The condition of the loop that waits for peers. *)
Definition waiting (s : t) : bool :=
  let quorum := Committee.quorum_threshold committee mod u32_modulus in
  (peers_connected s <? quorum) || (workers_connected s <? quorum).

End networks.

(** The address to listen on: that of the environment if it can be parsed. *)
Definition get_multiaddr_from_env_or_config (parse : string -> option string) (env_var : option string) (fallback : string) : string :=
  default fallback (env_var ≫= parse).

End StartNetworks.

(** * Launching a node *)

Module Launch.
Import ExecutionNode.

Section launch.
Context `{NetworkKeys} `{Crypto} `{ChainHash} `{ExecutionClient} (committee : Committee.t).

Definition seal (h : ExecHeader.t) : SealedHeader.t := SealedHeader.mk (ExecHeader.number h) (seal_hash h).

(** The watch of recent blocks is filled from the blocks of the execution node.  With it
    comes the consensus root of the latest one, which the rest of the node reads. *)
Definition prime_recent_blocks (p : Provider) (recent : RecentBlocks.t) : outcome NodeError (RecentBlocks.t * option N) :=
  blocks ← last_executed_output_blocks p (RecentBlocks.block_capacity recent);
  Ok (foldl RecentBlocks.push_latest recent (seal <$> blocks), last blocks ≫= ExecHeader.parent_beacon_block_root).

(** The task that follows the canonical chain. *)
Definition latest_block (recent : RecentBlocks.t) (tip : ExecHeader.t) : RecentBlocks.t := RecentBlocks.push_latest recent (seal tip).

Record t := mk {
  recent_blocks : RecentBlocks.t;
  root : option N;
  last_consensus_header : ConsensusHeader.t;
  node_mode : NodeMode;
  consensus_rounds : ConsensusRound.t;
}.

(** What the bus of a launched node holds before its components start.  [responses] are
    the answers of the committee to [can_cvv]. *)
Definition launch (observer : bool) (gc_depth : Round) (p : Provider) (db : ConsensusDb.t) (responses : list (option ConsensusHeader.t))
    : outcome NodeError t :=
  primed ← prime_recent_blocks p (RecentBlocks.new (N.to_nat gc_depth));
  let '(recent, root) := primed in
  let last_db_block := from_option snd default_consensus_header (MemTable.last_record (ConsensusDb.blocks db)) in
  if observer then Ok (mk recent root last_db_block Observer ConsensusRound.default) else
  let '(active, rounds, _, max_consensus_header) := StateSync.can_cvv committee db root gc_depth responses in
  Ok (mk recent root max_consensus_header (if active : bool then CvvActive else CvvInactive) rounds).

End launch.

(** A node is launched again while the last launch ended with a restart: [launches] are
    the results of the launches, [None] means that the last of them still runs. *)
Fixpoint launch_node (launches : list (outcome NodeError bool)) : option (outcome NodeError unit) :=
  match launches with
  | [] => None
  | Ok true :: launches => launch_node launches
  | Ok false :: _ => Some (Ok ())
  | Err e :: _ => Some (Err e)
  | _ :: _ => Some Panic
  end.

End Launch.
