(* ===== verification/NodeSafety.v ===== *)
(** Starting and restarting a node: the recent blocks read back from the execution node are
    those the node held before it stopped, and the outputs that were saved but not executed
    are executed as they would have been. *)

From S2P Require Import Prelude Storage Committee Certificate CertStore Output ConsensusState OrderDag LeaderSchedule Bullshark.
From S2P Require Import Demo Consensus Worker WorkerSafety ConsensusChain ChainSafety Engine EngineSafety ExecutionAgreement BatchBuilder Node.
Import Engine ExecutionNode Launch.

(** * The final blocks of outputs *)

Section finals.
Implicit Types (h : ExecHeader.t) (hs : list ExecHeader.t).
Notation nonce := ExecHeader.nonce.

(** The blocks that are the last ones with their nonce. *)
Fixpoint finals hs : list ExecHeader.t :=
  match hs with
  | [] => []
  | h :: hs' =>
      match hs' with
      | [] => [h]
      | h' :: _ => if nonce h =? nonce h' then finals hs' else h :: finals hs'
      end
  end.

(** Going back from a nonce, the blocks at which it changes. *)
Fixpoint changes (n : N) hs : list ExecHeader.t :=
  match hs with
  | [] => []
  | h :: hs => if nonce h =? n then changes n hs else h :: changes (nonce h) hs
  end.

Lemma changes_snoc n hs h :
  changes n (hs ++ [h]) = changes n hs ++ (if nonce h =? from_option nonce n (last hs) then [] else [h]).
Proof.
  revert n. induction hs as [|x hs IH]; intros n; [done|]. cbn [app changes]. rewrite last_cons_default. cbn [from_option].
  destruct (N.eqb_spec (nonce x) n) as [<-|Hne]; rewrite IH; destruct (last hs); done.
Qed.

Lemma finals_app hs gs :
  (forall x y, last hs = Some x -> head gs = Some y -> nonce x <> nonce y) -> gs <> [] -> finals (hs ++ gs) = finals hs ++ finals gs.
Proof.
  intros Hne Hgs. induction hs as [|h hs IH]; [done|]. destruct hs as [|h' hs].
  - destruct gs as [|g gs]; [done|]. cbn [app finals]. destruct (N.eqb_spec (nonce h) (nonce g)) as [He|_]; [|done]. by destruct (Hne h g).
  - change (finals ((h :: h' :: hs) ++ gs)) with (if nonce h =? nonce h' then finals ((h' :: hs) ++ gs) else h :: finals ((h' :: hs) ++ gs)).
    rewrite IH by (intros x y Hx; apply Hne; by rewrite last_cons_cons). change (finals (h :: h' :: hs)) with (if nonce h =? nonce h' then finals (h' :: hs) else h :: finals (h' :: hs)).
    by destruct (_ =? _).
Qed.

Lemma finals_uniform n hs h : last hs = Some h -> Forall (fun x => nonce x = n) hs -> finals hs = [h].
Proof.
  intros Hl Hn. induction hs as [|x hs IH]; [done|]. apply Forall_cons in Hn as [Hx Hn]. destruct hs as [|y hs]; [by injection Hl as ->|].
  rewrite last_cons_cons in Hl. change (finals (x :: y :: hs)) with (if nonce x =? nonce y then finals (y :: hs) else x :: finals (y :: hs)).
  assert (nonce x = nonce y) as -> by (apply Forall_cons in Hn as [-> _]; done). rewrite N.eqb_refl. by apply IH.
Qed.

(** The reading forwards and the reading backwards agree. *)
Lemma rev_finals hs h : rev (finals (hs ++ [h])) = h :: changes (nonce h) (rev hs).
Proof.
  induction hs as [|x hs IH]; [done|]. cbn [rev]. rewrite changes_snoc.
  assert (finals ((x :: hs) ++ [h]) = (if nonce x =? from_option nonce (nonce h) (last (rev hs)) then [] else [x]) ++ finals (hs ++ [h])) as ->.
  { destruct hs as [|y hs]; [cbn; by destruct (_ =? _)|]. cbn [rev]. rewrite last_snoc. cbn [from_option].
    change (finals ((x :: y :: hs) ++ [h])) with (if nonce x =? nonce y then finals ((y :: hs) ++ [h]) else x :: finals ((y :: hs) ++ [h])).
    by destruct (_ =? _). }
  rewrite rev_app_distr, IH. cbn [app]. by destruct (_ =? _).
Qed.

End finals.

Section reading.
Context `{ExecutionClient}.
Implicit Types (p : Provider) (hs : list ExecHeader.t).

(** The provider has exactly these blocks, from genesis on. *)
Record holds p hs : Prop := {
  holds_header i : header_by_number p (N.of_nat i) = Ok (hs !! i);
  holds_last : last_block_number p = Some (N.of_nat (pred (length hs)));
  holds_genesis : hs <> [];
}.

Lemma walk_back_spec p hs number k last_nonce blocks result :
  holds p hs -> (k <= length hs)%nat ->
  walk_back p number k last_nonce blocks result = Ok (result ++ take (N.to_nat (number - blocks)) (changes last_nonce (rev (take k hs)))).
Proof.
  intros Hp. revert last_nonce blocks result. induction k as [|k IH]; intros last_nonce blocks result Hk; cbn [walk_back];
    destruct (N.ltb_spec blocks number) as [Hlt|Hge].
  1, 2: by destruct (N.to_nat (number - blocks)); cbn; rewrite app_nil_r.
  - destruct (lookup_lt_is_Some_2 hs k) as [h Hh]; [lia|]. rewrite (holds_header p hs Hp), Hh. cbn [mbind outcome_bind ok_or].
    rewrite (take_S_r _ _ _ Hh), rev_app_distr. cbn [rev app changes]. destruct (N.eqb_spec (ExecHeader.nonce h) last_nonce) as [_|_]; cbn [negb].
    + apply IH. lia.
    + rewrite IH by lia. rewrite <-app_assoc. do 2 f_equal. replace (N.to_nat (number - blocks)) with (S (N.to_nat (number - (blocks + 1)))) by lia. done.
  - replace (N.to_nat (number - blocks)) with 0%nat by lia. by rewrite app_nil_r.
Qed.

(** What the execution node reports as the last outputs is the end of the list of the final
    blocks of its chain, as many as were asked for. *)
Lemma output_blocks_correct p hs number :
  holds p hs -> last_executed_output_blocks p number = Ok (drop (length (finals hs) - N.to_nat number) (finals hs)).
Proof.
  intros Hp. unfold last_executed_output_blocks. rewrite (holds_last p hs Hp). cbn [default from_option id].
  destruct (N.ltb_spec 0 number) as [Hpos|Hz].
  - destruct (exists_last (holds_genesis p hs Hp)) as (hs' & h & ->). rewrite length_app. cbn [length].
    replace (pred (length hs' + 1)) with (length hs') by lia. rewrite (holds_header p _ Hp), Nat2N.id.
    rewrite (lookup_app_r hs') by done. rewrite Nat.sub_diag. cbn [lookup list_lookup mbind outcome_bind ok_or].
    rewrite (walk_back_spec p (hs' ++ [h])) by (done || rewrite length_app; lia). cbn [mbind outcome_bind]. f_equal.
    rewrite take_app_length. pose proof (rev_finals hs' h) as Hr. rewrite <-(rev_involutive (drop _ _)). f_equal.
    rewrite <-firstn_rev, Hr. replace (N.to_nat number) with (S (N.to_nat (number - 1))) by lia. done.
  - replace (N.to_nat number) with 0%nat by lia. rewrite Nat.sub_0_r, drop_all. done.
Qed.

End reading.

(** * The blocks of executed outputs *)

Lemma last_drop_lt {A} k (l : list A) : (k < length l)%nat -> last (drop k l) = last l.
Proof. intros Hk. rewrite !last_lookup, lookup_drop, length_drop. f_equal. lia. Qed.

Section executed.
Context `{NetworkKeys} `{Crypto} `{ChainHash} `{BatchHash} `{ExecutionClient}.
Context (empty_txs empty_receipts : N).
Implicit Types (s : state) (o : ConsensusOutput.t) (os : list ConsensusOutput.t) (h : ExecHeader.t).
Notation execute := (execute_consensus_output empty_txs empty_receipts).
Notation execute_all := (execute_all empty_txs empty_receipts).

(** The chain has been extended by blocks of the output. *)
Record extended o s s' (blocks : list (ExecHeader.t * list Tx)) : Prop := {
  ext_blocks : s'.2 = s.2 ++ blocks;
  ext_nonce : Forall (fun b => ExecHeader.nonce b.1 = ConsensusOutput.nonce o) blocks;
  ext_root : Forall (fun b => ExecHeader.parent_beacon_block_root b.1 = Some (ConsensusOutput.consensus_header_hash o)) blocks;
}.

Lemma insert_extended o s s0 s' blocks h txs w :
  extended o s s0 blocks -> ExecHeader.nonce h = ConsensusOutput.nonce o ->
  ExecHeader.parent_beacon_block_root h = Some (ConsensusOutput.consensus_header_hash o) -> insert s0 (h, txs, w) = Ok s' ->
  extended o s s' (blocks ++ [(h, txs)]).
Proof.
  intros [Hb Hn Hr] Hnh Hrh (c & _ & [= <-])%bind_Ok. split; [by rewrite app_assoc, <-Hb|apply Forall_app; by split; [|constructor]..].
Qed.

Lemma execute_batches_extended o bs s parent i ds s' h' i' ds' s0 blocks :
  extended o s0 s blocks -> (last blocks.*1 = Some parent \/ bs <> []) ->
  foldM (execute_batch o (ConsensusOutput.consensus_header_hash o)) (s, parent, i, ds) bs = Ok (s', h', i', ds') ->
  exists blocks', extended o s0 s' blocks' /\ last blocks'.*1 = Some h'.
Proof.
  revert s parent i ds blocks. induction bs as [|b bs IH]; intros s parent i ds blocks Hx Hl; cbn [foldM].
  { intros [= <- <- <- <-]. exists blocks. destruct Hl; done. }
  intros ([[[s1 h1] i1] ds1] & Hb & Hr)%bind_Ok. unfold execute_batch in Hb. destruct ds as [|d ds]; [done|].
  apply bind_Ok in Hb as ([[h txs] w] & Hb & (s2 & Hi & [= <- <- <- <-])%bind_Ok).
  unfold build_block_from_batch_payload in Hb. apply bind_Ok in Hb as (w0 & _ & (pr & _ & [= Hh _ _])%bind_Ok).
  apply (IH _ _ _ _ (blocks ++ [(h, txs)])) in Hr; [done| |left; rewrite fmap_app; apply last_snoc].
  eapply insert_extended; [exact Hx| | |exact Hi]; by rewrite <-Hh.
Qed.

(** Executing an output extends the chain by at least one block, the last of which is the
    new head. *)
Lemma execute_extended s o h s' h' :
  execute s o h = Ok (s', h') -> exists blocks, extended o s s' blocks /\ last blocks.*1 = Some h'.
Proof.
  unfold execute_consensus_output. intros ([[c bl] h2] & Hb & (c3 & _ & (c4 & _ & [= <- <-])%bind_Ok)%bind_Ok)%bind_Ok.
  enough (exists blocks, extended o s (c, bl) blocks /\ last blocks.*1 = Some h2) as (blocks & [Heq Hn Hr] & Hl) by by exists blocks.
  assert (extended o s s []) as Hs by (split; [by rewrite app_nil_r|constructor..]).
  unfold execute_blocks in Hb. cbv zeta in Hb. destruct (ConsensusOutput.flatten_batches o) as [|b bs].
  - apply bind_Ok in Hb as ([[h1 txs] w] & Hb & (s1 & Hi & [= <- <-])%bind_Ok). unfold build_block_from_empty_payload in Hb.
    apply bind_Ok in Hb as (w0 & _ & [= Hh _ _]). exists ([] ++ [(h1, txs)]).
    split; [|done]. eapply insert_extended; [exact Hs| | |exact Hi]; by rewrite <-Hh.
  - apply bind_Ok in Hb as ([[[s1 h1] i1] ds1] & Hb & [= <- <-]). eapply execute_batches_extended; [exact Hs| |exact Hb]. by right.
Qed.

(** The heads of the chain after each output. *)
Fixpoint tips s h os : outcome TnEngineError (list ExecHeader.t) :=
  match os with
  | [] => Ok []
  | o :: os => r ← execute s o h; hs ← tips r.1 r.2 os; Ok (r.2 :: hs)
  end.

(** Outputs whose leaders' rounds increase, from a round on. *)
Record advancing (r : Round) os : Prop := {
  adv_rounds : StronglySorted N.lt (r :: (ConsensusOutput.leader_round <$> os));
  adv_width : Forall (fun o => ConsensusOutput.leader_round o < u32_modulus) os;
}.

Lemma nonce_round o : ConsensusOutput.leader_round o < u32_modulus -> ConsensusOutput.nonce o mod u32_modulus = ConsensusOutput.leader_round o.
Proof.
  intros Hr. change u32_modulus with (2 ^ 32) in *. rewrite <-N.land_ones. unfold ConsensusOutput.nonce, Header.nonce.
  rewrite N.land_lor_distr_l, !N.land_ones, N.shiftl_mul_pow2, N.Div0.mod_mul, N.lor_0_l.
  by apply N.mod_small.
Qed.

Lemma advancing_cons r o os : advancing r (o :: os) -> advancing (ConsensusOutput.leader_round o) os /\ r < ConsensusOutput.leader_round o < u32_modulus.
Proof.
  intros [Hs Hw]. inversion Hs as [|? ? Hs' Hr]. apply Forall_cons in Hw as [Hw Hws]. apply Forall_cons in Hr as [Hr _]. by split.
Qed.

(** The final blocks of the chain are those of its start and the heads after each output. *)
Lemma finals_executed os s h hs s' h' ts :
  last hs = Some h -> advancing (ExecHeader.nonce h mod u32_modulus) os ->
  execute_all (s, h) os = Ok (s', h') -> tips s h os = Ok ts ->
  exists blocks, s'.2 = s.2 ++ blocks /\ finals (hs ++ blocks.*1) = finals hs ++ ts /\ default h (last ts) = h' /\ last (hs ++ blocks.*1) = Some h'.
Proof.
  revert s h hs ts. induction os as [|o os IH]; intros s h hs ts Hl Ha; unfold EngineSafety.execute_all; cbn [foldM tips].
  { intros [= <- <-] [= <-]. exists []. rewrite !app_nil_r. done. }
  intros ([s1 h1] & He & Hx)%bind_Ok. cbn [fst snd] in He. rewrite He. cbn [mbind outcome_bind fst snd]. intros (ts' & Ht & [= <-])%bind_Ok.
  destruct (execute_extended s o h s1 h1 He) as (blocks & [Hb Hn Hr] & Hl1).
  apply advancing_cons in Ha as [Ha Hlt]. pose proof (nonce_round o ltac:(lia)) as Hno.
  assert (Forall (fun x => ExecHeader.nonce x = ConsensusOutput.nonce o) blocks.*1) as Hn' by by apply Forall_fmap.
  assert (ExecHeader.nonce h1 = ConsensusOutput.nonce o) as Hn1 by (apply (proj1 (Forall_forall _ _) Hn'); by apply last_Some_elem_of).
  destruct (IH s1 h1 (hs ++ blocks.*1) ts') as (blocks' & Hb' & Hf & Hlast & Hl'); [by rewrite last_app, Hl1|by rewrite Hn1, Hno|done|done|].
  exists (blocks ++ blocks'). rewrite Hb', Hb, fmap_app, !app_assoc. split_and!; [done| |by rewrite last_cons_default|done].
  rewrite Hf, finals_app, (finals_uniform _ _ _ Hl1 Hn'), <-app_assoc; [done| |by intros Hz; rewrite Hz in Hl1].
  intros x y Hx' Hy Heq. rewrite Hl in Hx'. injection Hx' as <-. apply head_Some_elem_of in Hy. rewrite Forall_forall in Hn'.
  rewrite (Hn' y Hy) in Heq. rewrite Heq, Hno in Hlt. lia.
Qed.

Lemma tips_total os s h s' h' : execute_all (s, h) os = Ok (s', h') -> exists ts, tips s h os = Ok ts.
Proof.
  revert s h. induction os as [|o os IH]; intros s h; unfold EngineSafety.execute_all; cbn [foldM tips]; [by eexists|].
  intros ([s1 h1] & He & Hx)%bind_Ok. cbn [fst snd] in He. rewrite He. cbn [mbind outcome_bind fst snd].
  destruct (IH s1 h1 Hx) as [ts ->]. by eexists.
Qed.

Lemma push_all_num r hs : RecentBlocks.num_blocks (foldl RecentBlocks.push_latest r hs) = RecentBlocks.num_blocks r.
Proof. revert r. induction hs as [|h hs IH]; intros r; [done|]. cbn [foldl]. by rewrite IH. Qed.

(** Pushing the last blocks is pushing all of them. *)
Lemma push_last n hs :
  (0 < n)%nat -> foldl RecentBlocks.push_latest (RecentBlocks.new n) (drop (length hs - n) hs) = foldl RecentBlocks.push_latest (RecentBlocks.new n) hs.
Proof.
  intros Hn. assert (forall r r' : RecentBlocks.t, RecentBlocks.num_blocks r = RecentBlocks.num_blocks r' -> RecentBlocks.blocks r = RecentBlocks.blocks r' -> r = r') as Heq
    by (intros [] []; simpl; congruence).
  apply Heq; [by rewrite !push_all_num|]. rewrite !(push_all_window (RecentBlocks.new n) []) by done. cbn [app RecentBlocks.new RecentBlocks.num_blocks].
  replace (Nat.max 1 n) with n by lia. rewrite length_drop, drop_drop. f_equal. lia.
Qed.

(** The watch of recent blocks after a restart is the one that the node held when it had
    executed these outputs, and the latest block names the last of them. *)
Lemma primed_as_running p n genesis s s' h' os :
  (0 < n)%nat -> s.2 = [] -> advancing (ExecHeader.nonce genesis mod u32_modulus) os ->
  execute_all (s, genesis) os = Ok (s', h') -> holds p (genesis :: s'.2.*1) ->
  exists ts, tips s genesis os = Ok ts /\
    prime_recent_blocks p (RecentBlocks.new n) =
      Ok (foldl latest_block (RecentBlocks.new n) (genesis :: ts), ExecHeader.parent_beacon_block_root h').
Proof.
  intros Hn Hs Ha Hx Hp. destruct (tips_total _ _ _ _ _ Hx) as [ts Ht]. exists ts. split; [done|].
  destruct (finals_executed os s genesis [genesis] s' h' ts eq_refl Ha Hx Ht) as (blocks & Hb & Hf & Hl & _). rewrite Hs in Hb. cbn [app] in Hb.
  unfold prime_recent_blocks. rewrite (output_blocks_correct p _ _ Hp), Hb. cbn [app mbind outcome_bind] in *. rewrite Hf. cbn [finals app].
  unfold RecentBlocks.block_capacity. cbn [RecentBlocks.new RecentBlocks.num_blocks]. rewrite Nat2N.id. f_equal. f_equal.
  - rewrite fmap_drop. rewrite <-(length_fmap seal (genesis :: ts)), push_last by done. clear. generalize (genesis :: ts), (RecentBlocks.new n).
    intros l. induction l as [|x l IH]; intros r; [done|]. rewrite fmap_cons. cbn [foldl]. apply IH.
  - rewrite last_drop_lt by (cbn [length]; lia). rewrite last_cons_default. cbn [mbind option_bind]. by rewrite Hl.
Qed.

End executed.

(** * The outputs that were not executed *)

Section missing.
Context `{NetworkKeys} `{Crypto} `{ChainHash} `{BatchHash} `{!ChainHashBinds}.
Implicit Types (db : ConsensusDb.t) (h : ConsensusHeader.t) (hs : list ConsensusHeader.t).

(** The tables hold exactly the headers of a chain. *)
Record chain_db db hs : Prop := {
  cdb_blocks : btree_iter (ConsensusDb.blocks db) = (fun h => (ConsensusHeader.number h, h)) <$> hs;
  cdb_numbers : Forall (fun h => ConsensusDb.numbers db !! ConsensusHeader.digest h = Some (ConsensusHeader.number h)) hs;
}.

Lemma chain_db_block db hs h : chain_db db hs -> h ∈ hs -> ConsensusDb.blocks db !! ConsensusHeader.number h = Some h.
Proof. intros [Hb _] Hh. apply elem_of_btree_iter. rewrite Hb. apply list_elem_of_fmap. by exists h. Qed.

Lemma linked_bound base hs h : linked base hs -> h ∈ hs -> ConsensusHeader.number base < ConsensusHeader.number h <= ConsensusHeader.number base + N.of_nat (length hs).
Proof. intros Hl [i Hi]%list_elem_of_lookup. rewrite (linked_numbers _ _ _ _ Hl Hi). apply lookup_lt_Some in Hi. lia. Qed.

(** Saving the output that comes next keeps the chain. *)
Lemma save_chain_db base db hs o :
  chain_db db hs -> linked base (hs ++ [ConsensusOutput.consensus_header o]) ->
  chain_db (ConsensusDb.save_consensus db o) (hs ++ [ConsensusOutput.consensus_header o]).
Proof.
  intros Hdb Hl. apply linked_snoc in Hl as (Hl & _ & Hn). rewrite (linked_last_number _ _ Hl) in Hn.
  assert (forall h, h ∈ hs -> ConsensusHeader.number h < ConsensusOutput.number o) as Hlt.
  { intros h Hh. pose proof (linked_bound _ _ _ Hl Hh). cbn in Hn. lia. }
  assert (forall l : list ConsensusHeader.t, ((fun h => (ConsensusHeader.number h, h)) <$> l).*1 = ConsensusHeader.number <$> l) as Hfst
    by (intros l; by rewrite <-list_fmap_compose).
  split.
  - cbn [ConsensusDb.save_consensus ConsensusDb.blocks]. unfold MemTable.insert. apply sorted_keys_unique; [apply btree_keys_sorted| |].
    + rewrite Hfst, fmap_app. apply StronglySorted_app_2.
      * rewrite <-Hfst, <-(cdb_blocks _ _ Hdb). apply btree_keys_sorted.
      * repeat constructor.
      * intros x y (h & -> & Hh)%list_elem_of_fmap ->%list_elem_of_singleton. by apply Hlt.
    + rewrite btree_iter_perm, map_to_list_insert.
      * rewrite <-btree_iter_perm, (cdb_blocks _ _ Hdb), fmap_app. by rewrite Permutation_app_comm.
      * destruct (ConsensusDb.blocks db !! _) as [h|] eqn:Hh; [|done]. apply elem_of_btree_iter in Hh. rewrite (cdb_blocks _ _ Hdb) in Hh.
        apply list_elem_of_fmap in Hh as (h' & [= Hnum <-] & Hh). specialize (Hlt h Hh). cbn in Hnum. lia.
  - apply Forall_app. split; [|constructor; [apply lookup_insert_eq|constructor]].
    pose proof (cdb_numbers _ _ Hdb) as Hnum. rewrite Forall_forall in Hnum |- *. intros h Hh.
    cbn [ConsensusDb.save_consensus ConsensusDb.numbers]. unfold MemTable.insert. rewrite lookup_insert_ne; [by apply Hnum|].
    intros [_ Heq]%chain_hash_binds. specialize (Hlt h Hh). cbn in Heq. lia.
Qed.

Lemma range_lookup db base hs :
  linked base hs -> (forall h, h ∈ hs -> ConsensusDb.blocks db !! ConsensusHeader.number h = Some h) ->
  omap (fun number => MemTable.get (ConsensusDb.blocks db) number)
    (ConsensusDb.range (ConsensusHeader.number base) (ConsensusHeader.number (default base (last hs)))) = hs.
Proof.
  revert base. induction hs as [|h hs IH]; intros base; cbn [linked]; [intros _ _; by rewrite range_nil|].
  intros (_ & Hn & Hl) Hb. pose proof (linked_last_number _ _ Hl) as Hlast. rewrite last_cons_default. cbn [default from_option id].
  rewrite range_cons by lia. rewrite <-Hn. cbn [omap list_omap]. unfold MemTable.get at 1. rewrite Hb by set_solver. f_equal.
  apply IH; [done|]. intros h' Hh'. apply Hb. set_solver.
Qed.

(** The root that the latest executed block names: that of the last executed header, or one
    that is unknown when nothing was executed. *)
Definition executed_root db hs (root : option N) : Prop :=
  match last hs with
  | Some h => root = Some (ConsensusHeader.digest h)
  | None => forall r, root = Some r -> ConsensusDb.numbers db !! r = None
  end.

Lemma last_executed_block db hs1 hs2 root :
  chain_db db (hs1 ++ hs2) -> executed_root db hs1 root ->
  default default_consensus_header (ConsensusDb.last_executed_consensus_block db root) = default default_consensus_header (last hs1).
Proof.
  intros Hdb Hr. unfold executed_root in Hr. unfold ConsensusDb.last_executed_consensus_block, MemTable.get.
  destruct (last hs1) as [h|] eqn:Hl; cbn [default from_option id].
  - assert (h ∈ hs1 ++ hs2) as Hh by (apply elem_of_app; left; by apply last_Some_elem_of). subst root. cbn [mbind option_bind].
    pose proof (cdb_numbers _ _ Hdb) as Hn. rewrite Forall_forall in Hn. rewrite (Hn h Hh). cbn [mbind option_bind]. by rewrite (chain_db_block _ _ _ Hdb Hh).
  - destruct root as [r|]; [|done]. cbn [mbind option_bind]. by rewrite (Hr r eq_refl).
Qed.

(** The headers that a restarted node sends for execution are those after the last executed
    one, in their order. *)
Lemma missing_spec db hs1 hs2 root :
  chain_db db (hs1 ++ hs2) -> linked default_consensus_header (hs1 ++ hs2) -> executed_root db hs1 root ->
  ConsensusDb.get_missing_consensus db root = hs2.
Proof.
  intros Hdb Hl Hr. unfold ConsensusDb.get_missing_consensus. rewrite (last_executed_block _ _ _ _ Hdb Hr).
  assert (from_option snd (default default_consensus_header (last hs1)) (MemTable.last_record (ConsensusDb.blocks db)) =
    default (default default_consensus_header (last hs1)) (last hs2)) as ->.
  { unfold MemTable.last_record, last_key_value. rewrite (cdb_blocks _ _ Hdb), fmap_last, last_app.
    destruct (last hs2); [done|]. by destruct (last hs1). }
  apply linked_app in Hl as [Hl1 Hl2]. destruct (N.ltb_spec (ConsensusHeader.number (default default_consensus_header (last hs1)))
    (ConsensusHeader.number (default (default default_consensus_header (last hs1)) (last hs2)))) as [Hlt|Hge].
  - apply range_lookup; [done|]. intros h Hh. apply (chain_db_block _ _ _ Hdb). set_solver.
  - rewrite (linked_last_number _ _ Hl2) in Hge. by destruct hs2; [|cbn [length] in Hge; lia].
Qed.

End missing.

(** * Executing an output again *)

Section replay.
Context `{NetworkKeys} `{Crypto} `{ChainHash} `{BatchHash} `{!ChainHashBinds} `{!BatchHashBinds} `{ExecutionClient}.
Context (empty_txs empty_receipts : N).
Implicit Types (s : state) (o : ConsensusOutput.t) (h : ExecHeader.t).
Notation execute_all := (execute_all empty_txs empty_receipts).

(** Two outputs for the same header, with batches fetched at different times. *)
Record replays o o' : Prop := {
  rp_header : ConsensusOutput.consensus_header o = ConsensusOutput.consensus_header o';
  rp_beneficiary : ConsensusOutput.beneficiary o = ConsensusOutput.beneficiary o';
  rp_digests : ConsensusOutput.batch_digests o = ConsensusOutput.batch_digests o';
  rp_early : ConsensusOutput.early_finalize o = ConsensusOutput.early_finalize o';
  rp_batches : Forall2 (fun b b' => Batch.decoded b = Batch.decoded b') (ConsensusOutput.flatten_batches o) (ConsensusOutput.flatten_batches o');
}.

Lemma foldM_replay {S A E} (R : A -> A -> Prop) (f g : S -> A -> outcome E S) acc l l' :
  (forall acc x y, R x y -> f acc x = g acc y) -> Forall2 R l l' -> foldM f acc l = foldM g acc l'.
Proof.
  intros Hfg Hl. revert acc. induction Hl as [|x y l l' Hxy _ IH]; intros acc; [done|]. cbn [foldM]. rewrite (Hfg _ _ _ Hxy).
  destruct (g acc y); cbn [mbind outcome_bind]; [apply IH|done..].
Qed.

Lemma execute_replay s o o' h : replays o o' -> execute_consensus_output empty_txs empty_receipts s o h = execute_consensus_output empty_txs empty_receipts s o' h.
Proof.
  intros [Hh Hb Hd He Hbs]. destruct o as [d bs be ds ph n x e], o' as [d' bs' be' ds' ph' n' x' e']. cbn in Hh, Hb, Hd, He. injection Hh as -> -> -> ->. subst be' ds' e'.
  assert (forall b b', Batch.decoded b = Batch.decoded b' -> forall acc digest,
    execute_batch (ConsensusOutput.mk d' bs be ds ph' n' x' e) digest acc b = execute_batch (ConsensusOutput.mk d' bs' be ds ph' n' x' e) digest acc b') as Hstep.
  { intros b b' Hdec [[[s0 h0] i0] ds0] digest. unfold execute_batch. destruct ds0 as [|d0 ds0]; [done|]. injection Hdec as Htx Hp Hbn Hts Hfee.
    unfold BatchOps.digest, build_block_from_batch_payload. rewrite Htx, Hp, Hbn, Hts, Hfee. done. }
  enough (execute_blocks empty_txs empty_receipts s (ConsensusOutput.mk d' bs be ds ph' n' x' e) h =
    execute_blocks empty_txs empty_receipts s (ConsensusOutput.mk d' bs' be ds ph' n' x' e) h) as Hx by (unfold execute_consensus_output; by rewrite Hx).
  unfold execute_blocks. cbv zeta. inversion Hbs as [E1 E2|b b' l l' Hbb Hll E1 E2]; [done|].
  f_equal. apply (foldM_replay (fun b b' => Batch.decoded b = Batch.decoded b')); [|by constructor].
  intros acc x y Hxy. exact (Hstep x y Hxy acc _).
Qed.

Lemma execute_all_replay os os' acc : Forall2 replays os os' -> execute_all acc os = execute_all acc os'.
Proof. apply foldM_replay. intros acc' o o'. apply execute_replay. Qed.

Import Subscriber.

(** The output as a node in the given mode makes it. *)
Definition set_early (active : bool) o : ConsensusOutput.t :=
  ConsensusOutput.mk (ConsensusOutput.sub_dag o) (ConsensusOutput.batches o) (ConsensusOutput.beneficiary o) (ConsensusOutput.batch_digests o)
    (ConsensusOutput.parent_hash o) (ConsensusOutput.number o) (ConsensusOutput.extra o) active.

Lemma fetch_batches_early committee active c d parent number o :
  fetch_batches committee active c d parent number = Ok o -> ConsensusOutput.early_finalize o = active.
Proof.
  unfold fetch_batches. intros (a & _ & Ho)%bind_Ok. destruct (_ =? 0); [by injection Ho as <-|].
  by apply bind_Ok in Ho as (m & _ & (bs & _ & [= <-])%bind_Ok).
Qed.

Lemma foldM_fails {S A E} (f : S -> A -> outcome E S) e acc l :
  (forall acc x, (exists acc', f acc x = Ok acc') \/ f acc x = Err e) -> (exists acc', foldM f acc l = Ok acc') \/ foldM f acc l = Err e.
Proof.
  intros Hf. revert acc. induction l as [|x l IH]; intros acc; cbn [foldM]; [left; by eexists|].
  destruct (Hf acc x) as [[acc' ->]| ->]; cbn [mbind outcome_bind]; [apply IH|by right].
Qed.

(** Fetching the batches of a sub-dag whose leader is known fails only with the request. *)
Lemma fetch_batches_fails committee active c d parent number :
  is_Some (Committee.authority committee (Certificate.origin (CommittedSubDag.leader d))) ->
  (exists o, fetch_batches committee active c d parent number = Ok o) \/ fetch_batches committee active c d parent number = Err ClientRequestsFailed.
Proof.
  intros [a Ha]. unfold fetch_batches. rewrite Ha. cbn [ok_or mbind outcome_bind]. destruct (_ =? 0); [left; by eexists|].
  destruct (c _) as [m|]; cbn [ok_or mbind outcome_bind]; [|by right].
  match goal with |- context [foldM ?f [] ?l] => destruct (foldM_fails f ClientRequestsFailed [] l) as [[bs ->]| ->] end; [|left; by eexists|by right].
  intros acc x. unfold collect_batches. match goal with |- context [foldM ?f [] ?l] => destruct (foldM_fails f ClientRequestsFailed [] l) as [[b ->]| ->] end.
  - intros acc' y. destruct (m !! y); cbn [ok_or mbind outcome_bind]; [left; by eexists|by right].
  - left. by eexists.
  - by right.
Qed.

(** What the subscriber guarantees of an output it saved. *)
Record saved_output committee o : Prop := {
  svo_complete : complete o;
  svo_rewards : rewards committee o;
  svo_extra : ConsensusOutput.extra o = 0;
}.

(** What the worker gives for a header again is the output it gave before, or the request
    fails. *)
Lemma handle_replay committee gc_depth active c sub o :
  saved_output committee o -> sound_client c -> output_open sub = true ->
  exists sub' r, handle_consensus_header committee gc_depth active c sub (ConsensusOutput.consensus_header o) = (sub', r) /\
    output_open sub' = true /\ (answers c (ConsensusOutput.sub_dag o) -> r = Ok ()) /\
    ((r = Ok () /\ exists o', outputs sub' = outputs sub ++ [o'] /\ replays (set_early active o) o') \/
     (r = Err ClientRequestsFailed /\ outputs sub' = outputs sub)).
Proof.
  intros [Hc Hr Hx] Hcl Hop. unfold handle_consensus_header. cbn [ConsensusOutput.consensus_header ConsensusHeader.sub_dag ConsensusHeader.parent_hash ConsensusHeader.number].
  assert (is_Some (Committee.authority committee (Certificate.origin (CommittedSubDag.leader (ConsensusOutput.sub_dag o))))) as Ha
    by (destruct Hr as (a & -> & _); by eexists).
  destruct (fetch_batches_fails committee active c (ConsensusOutput.sub_dag o) (ConsensusOutput.parent_hash o) (ConsensusOutput.number o) Ha) as [[o' Hf]|Hf].
  2: { rewrite Hf. eexists sub, _. split_and!; [done|done| |by right]. intros Hans.
       destruct (fetch_batches_spec committee active c _ (ConsensusOutput.parent_hash o) (ConsensusOutput.number o) Hans Ha) as (o' & Hf' & _). congruence. }
  destruct (fetch_batches_Ok committee active c _ _ _ _ Hcl Hf) as (Hh & Hc' & Hr'). rewrite Hf. apply fetch_batches_early in Hf.
  eexists _, (Ok ()). split; [done|]. cbn [save_and_send outputs output_open]. rewrite Hop. split; [done|]. split; [done|]. left. split; [done|].
  exists o'. split; [done|]. unfold ConsensusOutput.consensus_header in *. injection Hh as Hp Hd Hn Hx'. destruct Hc as [Hd1 Hd2], Hc' as [Hd1' Hd2'].
  assert (ConsensusOutput.batch_digests o = ConsensusOutput.batch_digests o') as Hdd by (by rewrite Hd1, Hd1', Hd).
  split; [unfold ConsensusOutput.consensus_header; cbn; by rewrite Hp, Hd, Hn, Hx, Hx'| |done|done|apply same_batches; cbn; unfold ConsensusOutput.flatten_batches in *; cbn; congruence].
  destruct Hr as (a & Ha1 & Hb1), Hr' as (a' & Ha2 & ->). cbn. rewrite Hb1. rewrite Hd, Ha1 in Ha2. by injection Ha2 as <-.
Qed.

Lemma handle_all_replay committee gc_depth active c sub os :
  Forall (saved_output committee) os -> sound_client c -> output_open sub = true ->
  exists sub' os' r, handle_consensus_headers committee gc_depth active c sub (ConsensusOutput.consensus_header <$> os) = (sub', r) /\
    outputs sub' = outputs sub ++ os' /\ Forall2 replays (set_early active <$> take (length os') os) os' /\
    (Forall (fun o => answers c (ConsensusOutput.sub_dag o)) os -> r = Ok ()) /\
    ((r = Ok () /\ length os' = length os) \/ r = Err ClientRequestsFailed).
Proof.
  intros Hos Hcl. revert sub. induction Hos as [|o os Ho _ IH]; intros sub Hop; cbn [handle_consensus_headers fmap list_fmap].
  { exists sub, [], (Ok ()). rewrite app_nil_r. split_and!; [done|done|constructor|done|by left]. }
  destruct (handle_replay committee gc_depth active c sub o Ho Hcl Hop) as (sub1 & r & -> & Hop1 & Hans & [(-> & o' & Hout & Hrp)|(-> & Hout)]).
  - destruct (IH sub1 Hop1) as (sub' & os' & r & -> & Ho' & Hf & Hans' & Hr). exists sub', (o' :: os'), r.
    rewrite Ho', Hout, <-app_assoc. split_and!; [done|done|by constructor|by intros [_ ?]%Forall_cons; auto|].
    cbn [length]. destruct Hr as [[-> ->]|?]; [by left|by right].
  - exists sub1, [], (Err ClientRequestsFailed). rewrite app_nil_r. split_and!; [done|done|constructor| |by right].
    intros [Ha _]%Forall_cons. by apply Hans in Ha.
Qed.

End replay.

(** * A restarted node *)

Section restart.
Context `{NetworkKeys} `{Crypto} `{ChainHash} `{BatchHash} `{!ChainHashBinds} `{!BatchHashBinds} `{ExecutionClient}.
Context (empty_txs empty_receipts : N).
Notation execute_all := (execute_all empty_txs empty_receipts).
Notation tips := (tips empty_txs empty_receipts).

(** The root of the head is that of the last executed output. *)
Lemma executed_root_head os s h s' h' :
  execute_all (s, h) os = Ok (s', h') ->
  ExecHeader.parent_beacon_block_root h' =
    match last os with Some o => Some (ConsensusOutput.consensus_header_hash o) | None => ExecHeader.parent_beacon_block_root h end.
Proof.
  destruct os as [|o os _] using rev_ind; [by intros [= _ <-]|]. unfold EngineSafety.execute_all. rewrite foldM_app, last_snoc.
  intros ([s1 h1] & _ & Hx)%bind_Ok. cbn [foldM fst snd] in Hx. apply bind_Ok in Hx as ([s2 h2] & Hx & [= <- <-]).
  destruct (execute_extended _ _ _ _ _ _ _ Hx) as (blocks & [_ _ Hr] & Hl). apply last_Some_elem_of in Hl.
  apply list_elem_of_fmap in Hl as (b & -> & Hb). by apply (proj1 (Forall_forall _ _) Hr).
Qed.

Lemma launch_primed committee observer gc_depth p db responses recent rt :
  prime_recent_blocks p (RecentBlocks.new (N.to_nat gc_depth)) = Ok (recent, rt) ->
  exists l, launch committee observer gc_depth p db responses = Ok l /\ recent_blocks l = recent /\ root l = rt.
Proof.
  intros Hp. unfold launch. rewrite Hp. cbn [mbind outcome_bind]. destruct observer; [by eexists|].
  destruct (StateSync.can_cvv _ _ _ _ _) as [[[active rounds] round] header]. by eexists.
Qed.

(** C17: A node restarts without losing or repeating an output.  It had saved the outputs
    [os1 ++ os2], as the subscriber makes them, and executed [os1].  What it reads back from
    its blocks are the recent blocks it held when it stopped and the head [h'], and the
    engine starts on that head.  When it is launched as an active validator, the subscriber
    sends one output for each of [os2], in their order, and executing them has the result
    that executing [os2] would have had, blocks, states and errors included, each output
    being finalized early as an active validator does.  Their batches are fetched again
    from a worker that may fail: then the subscriber stops with that error, after a part of
    [os2] that it sent as said, and it does not stop when every batch is answered.  A node
    that is launched as an observer or an inactive validator is not covered: it streams the
    same headers through a channel of bounded capacity. *)
Theorem restart_resumes committee gc_depth observer responses c p genesis s s' h' sub os1 os2 root' mx :
  0 < gc_depth -> s.2 = [] -> advancing (ExecHeader.nonce genesis mod u32_modulus) os1 ->
  execute_all (s, genesis) os1 = Ok (s', h') -> holds p (genesis :: s'.2.*1) ->
  (forall r, ExecHeader.parent_beacon_block_root genesis = Some r -> ConsensusDb.numbers (Subscriber.db sub) !! r = None) ->
  linked default_consensus_header (ConsensusOutput.consensus_header <$> os1 ++ os2) ->
  chain_db (Subscriber.db sub) (ConsensusOutput.consensus_header <$> os1 ++ os2) ->
  Forall (saved_output committee) os2 -> sound_client c -> Subscriber.output_open sub = true ->
  exists ts l,
    tips s genesis os1 = Ok ts /\ launch committee observer gc_depth p (Subscriber.db sub) responses = Ok l /\
    recent_blocks l = foldl latest_block (RecentBlocks.new (N.to_nat gc_depth)) (genesis :: ts) /\
    start_engine p (default 0 (last_block_number p)) mx s' = Ok (Engine.mk [] None mx h' s' []) /\
    (node_mode l = CvvActive -> exists sub' os2' r,
       Subscriber.start committee gc_depth true c sub (root l) root' = (sub', r) /\
       Subscriber.outputs sub' = Subscriber.outputs sub ++ os2' /\
       execute_all (s', h') os2' = execute_all (s', h') (set_early true <$> take (length os2') os2) /\
       ((r = Ok () /\ length os2' = length os2) \/ r = Err ClientRequestsFailed) /\
       (Forall (fun o => answers c (ConsensusOutput.sub_dag o)) os2 -> r = Ok ())).
Proof.
  intros Hn Hs Ha Hx Hp Hg Hl Hdb Hos Hcl Hop.
  destruct (primed_as_running empty_txs empty_receipts p (N.to_nat gc_depth) genesis s s' h' os1) as (ts & Ht & Hprime); [lia|done..|].
  destruct (launch_primed committee observer gc_depth p (Subscriber.db sub) responses _ _ Hprime) as (l & Hlaunch & Hrecent & Hroot').
  destruct (handle_all_replay committee gc_depth true c sub os2 Hos Hcl Hop) as (sub1 & os2' & r & Hh & Ho & Hr & Hans & Hres).
  rewrite fmap_app in Hl, Hdb. pose proof (executed_root_head _ _ _ _ _ Hx) as Hroot.
  assert (executed_root (Subscriber.db sub) (ConsensusOutput.consensus_header <$> os1) (ExecHeader.parent_beacon_block_root h')) as Hex.
  { unfold executed_root. rewrite fmap_last, Hroot. by destruct (last os1). }
  exists ts, l. do 3 (split; [done|]). split.
  - destruct (finals_executed _ _ os1 s genesis [genesis] s' h' ts eq_refl Ha Hx Ht) as (blocks & Hb & _ & _ & Hlast). rewrite Hs in Hb. cbn [app] in Hb, Hlast.
    unfold start_engine. rewrite (holds_last _ _ Hp). cbn [default from_option id]. rewrite (holds_header _ _ Hp), Hb, <-last_lookup, Hlast. done.
  - intros _. unfold Subscriber.start. rewrite Hroot', (missing_spec _ _ _ _ Hdb Hl Hex), Hh.
    destruct (Subscriber.get_last_executed_consensus _ _) as [parent number].
    destruct Hres as [[-> Hlen]| ->]; eexists _, os2', _; (split; [done|]); (split; [done|]); (split; [symmetry; by apply execute_all_replay|]);
      (split; [by auto|done]).
Qed.

End restart.

(** * The mode of a node *)

Section mode.
Context `{NetworkKeys} `{Crypto} `{ChainHash} `{ExecutionClient} (committee : Committee.t).
Import StateSync.
Notation round_of h := (Certificate.round (CommittedSubDag.leader (ConsensusHeader.sub_dag h))).
Notation epoch_of h := (Certificate.epoch (CommittedSubDag.leader (ConsensusHeader.sub_dag h))).

(** The headers among the answers, as they are after their verification. *)
Definition verified_answer (h : ConsensusHeader.t) (r : option ConsensusHeader.t) : Prop :=
  exists h0, r = Some h0 /\ ConsensusHeader.verify_certificates h0 committee = Ok h.

(** Every answer is missing or verifies, and is of the epoch. *)
Definition answers_verify (e : Epoch) (responses : list (option ConsensusHeader.t)) : Prop :=
  Forall (fun r => r = None \/ exists h, verified_answer h r /\ epoch_of h = e) responses.

Lemma max_header_loop_max e responses result :
  answers_verify e responses -> (forall h, result = Some h -> epoch_of h = e) ->
  (forall h, result = Some h \/ (exists r, r ∈ responses /\ verified_answer h r) ->
     exists m, max_header_loop committee responses result = Some m /\ round_of h <= round_of m) /\
  (forall m, max_header_loop committee responses result = Some m ->
     epoch_of m = e /\ (result = Some m \/ exists r, r ∈ responses /\ verified_answer m r)).
Proof.
  intros Hrs. revert result. induction Hrs as [|r responses Hr _ IH]; intros result Hres; cbn [max_header_loop].
  { split; [intros h [->|(r & ?%elem_of_nil & _)]; [|done]; by exists h|]. intros m ->. split; [by apply Hres|by left]. }
  destruct Hr as [->|(h & (h0 & -> & Hv) & He)].
  - destruct (IH result Hres) as [Hmax Hin]. split.
    + intros h [->|(r & [->|Hr]%elem_of_cons & Hva)]; [by apply Hmax; left|by destruct Hva as (? & ? & _)|]. apply Hmax. right. by exists r.
    + intros m Hm. destruct (Hin m Hm) as [? [?|(r & ? & ?)]]; split; auto. right. exists r. split; [by right|done].
  - rewrite Hv. set (best := match result with Some last => _ | None => Some h end).
    assert (exists x, best = Some x /\ epoch_of x = e /\ round_of h <= round_of x /\ (forall y, result = Some y -> round_of y <= round_of x) /\
      (result = Some x \/ x = h)) as (x & Hx & Hxe & Hxh & Hxr & Hxo).
    { unfold best. destruct result as [last|]; [|exists h; split_and!; auto; done]. rewrite He, (Hres last eq_refl), N.ltb_irrefl, N.eqb_refl.
      cbn [orb andb]. destruct (N.ltb_spec (round_of last) (round_of h)).
      - exists h. split_and!; auto; try lia. intros y [= <-]. lia.
      - exists last. split_and!; auto; try lia. intros y [= <-]. lia. }
    destruct (IH best) as [Hmax Hin]; [rewrite Hx; by intros ? [= <-]|]. destruct (Hmax x (or_introl Hx)) as (m & Hm & Hxm). split.
    + intros y [Hy|(r & [->|Hr]%elem_of_cons & Hva)].
      * exists m. split; [done|]. specialize (Hxr y Hy). lia.
      * destruct Hva as (h1 & [= <-] & Hv'). rewrite Hv in Hv'. injection Hv' as <-. exists m. split; [done|lia].
      * apply Hmax. right. by exists r.
    + intros z Hz. destruct (Hin z Hz) as [Hze [Hzb|(r & ? & ?)]]; split; [done| |done|right; exists r; split; [by right|done]].
      rewrite Hx in Hzb. injection Hzb as <-. destruct Hxo as [?| ->]; [by left|]. right. exists (Some h0). split; [by left|]. by exists h0.
Qed.

(** A validator starts as an active one exactly when every peer's last consensus header is
    less than the garbage collection depth ahead of the last one it executed. *)
Lemma launch_active gc_depth p db responses l :
  let last_executed := default default_consensus_header (ConsensusDb.last_executed_consensus_block db (root l)) in
  launch committee false gc_depth p db responses = Ok l ->
  0 < gc_depth -> round_of last_executed + gc_depth < u32_modulus -> answers_verify (epoch_of last_executed) responses ->
  node_mode l = CvvActive <-> forall h r, r ∈ responses -> verified_answer h r -> round_of h < round_of last_executed + gc_depth.
Proof.
  intros le Hl Hgc Hw Ha. unfold launch in Hl. apply bind_Ok in Hl as ([recent rt] & _ & Hl). unfold can_cvv in Hl. injection Hl as Hl.
  assert (root l = rt) as Hrt by by rewrite <-Hl. unfold le in *. rewrite Hrt in *. clear le.
  set (le := default default_consensus_header (ConsensusDb.last_executed_consensus_block db rt)) in *.
  destruct (max_header_loop_max (epoch_of le) responses None Ha) as [Hmax Hin]; [done|].
  assert (node_mode l = CvvActive <-> let m := default le (max_consensus_header_from_committee committee responses) in
    epoch_of m = epoch_of le /\ round_of m < round_of le + gc_depth) as ->.
  { rewrite <-Hl. cbn [node_mode]. unfold CommittedSubDag.leader_round. rewrite N.mod_small by done.
    cbv zeta. rewrite <-N.eqb_eq, <-N.ltb_lt, <-andb_true_iff. match goal with |- (if ?b then _ else _) = _ <-> _ => by destruct b end. }
  unfold max_consensus_header_from_committee. cbv zeta. split.
  - intros [_ Hlt] h r Hr Hv. destruct (Hmax h) as (m & Hm & Hle); [right; by exists r|]. rewrite Hm in Hlt. cbn [default from_option id] in Hlt. lia.
  - intros Hall. destruct (max_header_loop committee responses None) as [m|]; cbn [default from_option id]; [|split; [done|lia]].
    destruct (Hin m eq_refl) as [He [|(r & Hr & Hv)]]; [done|]. split; [done|by eapply Hall].
Qed.

End mode.

(** * Starting the networks *)

Module NetworksFacts.
Import StartNetworks.

Section networks.
Context `{NetworkKeys} (committee : Committee.t) (worker_cache : WorkerCache.t) (me : AuthorityIdentifier) (address : string).
Notation step := StartNetworks.step.
Notation run := StartNetworks.run.
Notation start := (start committee worker_cache me address).
Notation primaries := (primaries committee me).
Notation workers := (workers worker_cache address).

(** The counters are the numbers of tasks that ended. *)
Record counted (s : t) : Prop := {
  cnt_primaries : peers_connected s + N.of_nat (length (dialing_primaries s)) = N.of_nat (length primaries);
  cnt_workers : workers_connected s + N.of_nat (length (dialing_workers s)) = N.of_nat (length workers);
}.

Hypothesis small : N.of_nat (length primaries) < u32_modulus /\ N.of_nat (length workers) < u32_modulus.

Lemma step_counted s e s' : counted s -> step s e = Some s' -> counted s'.
Proof.
  intros [Hp Hw]. destruct e as [i|i]; cbn [step]; intros (x & Hi & [= <-])%bind_Some; pose proof (lookup_lt_Some _ _ _ Hi) as Hlt;
    split; cbn [peers_connected workers_connected dialing_primaries dialing_workers]; try done.
  all: rewrite length_delete by (by eexists); rewrite N.mod_small by lia; lia.
Qed.

Lemma run_counted events s s' : counted s -> run s events = Some s' -> counted s'.
Proof.
  revert s. induction events as [|e events IH]; intros s Hs; cbn [run]; [by intros [= <-]|].
  intros (s1 & Hs1 & Hr)%bind_Some. by eapply IH, Hr; eapply step_counted.
Qed.

(** The node waits for peers until as many primaries and as many workers have been reached
    as the quorum threshold, a voting power, says. *)
Lemma waiting_spec events s :
  Committee.quorum_threshold committee < u32_modulus -> run start events = Some s ->
  waiting committee s = false <->
    Committee.quorum_threshold committee + N.of_nat (length (dialing_primaries s)) <= N.of_nat (length primaries) /\
    Committee.quorum_threshold committee + N.of_nat (length (dialing_workers s)) <= N.of_nat (length workers).
Proof.
  intros Hq Hr. destruct (run_counted events start s) as [Hp Hw]; [by split|done|]. unfold waiting. rewrite N.mod_small by done.
  rewrite orb_false_iff, !N.ltb_ge. lia.
Qed.

(** Every authority has a voting power of one, as at genesis. *)
Definition equal_power : Prop := forall k a, Committee.authorities committee !! k = Some a -> Authority.voting_power a = 1.

Lemma equal_stake : equal_power -> Committee.stake (Committee.authorities committee) = N.of_nat (size (Committee.authorities committee)).
Proof.
  intros Heq. unfold Committee.stake. rewrite <-(length_btree_iter (Committee.authorities committee)). unfold btree_values.
  assert (Forall (fun a => Authority.voting_power a = 1) (btree_iter (Committee.authorities committee)).*2) as Hall.
  { apply Forall_forall. intros a Ha. apply (elem_of_btree_values (Committee.authorities committee)) in Ha as [k Hk]. by eapply Heq. }
  rewrite <-(length_fmap snd). induction Hall as [|a l Ha _ IH]; [done|]. rewrite fmap_cons. cbn [length].
  change (Authority.voting_power a + sumN (Authority.voting_power <$> l) = N.of_nat (S (length l))). lia.
Qed.

Lemma primaries_fewer : Committee.wf committee -> me ∈ Committee.members committee -> (length primaries < size (Committee.authorities committee))%nat.
Proof.
  intros Hwf Hme. unfold StartNetworks.primaries, Committee.others_primaries_by_id. rewrite !length_fmap.
  rewrite <-(length_btree_iter (Committee.authorities committee)), <-(length_fmap snd (btree_iter _)).
  apply Committee.elem_of_members in Hme as [a [Ha [k Hk]]%(Committee.wf_index _ Hwf)].
  apply (length_filter_lt _ _ a); [apply elem_of_btree_values; by exists k|]. intros Hne. by apply Hne.
Qed.

(** C39: A node that starts waits for its peers until both counters reach the quorum threshold,
    which is a voting power that counts the node itself, while the counters do not.  In a
    committee of equal powers it therefore starts only when the primaries it has not reached
    are fewer than the faults the committee tolerates: with as many validators down as may
    be faulty, no node starts. *)
Theorem startup_quorum events s :
  Committee.wf committee -> equal_power -> me ∈ Committee.members committee -> Committee.quorum_threshold committee < u32_modulus ->
  run start events = Some s ->
  (waiting committee s = false <->
    Committee.quorum_threshold committee + N.of_nat (length (dialing_primaries s)) <= N.of_nat (length primaries) /\
    Committee.quorum_threshold committee + N.of_nat (length (dialing_workers s)) <= N.of_nat (length workers)) /\
  (waiting committee s = false -> N.of_nat (length (dialing_primaries s)) < Committee.max_faulty committee).
Proof.
  intros Hwf Heq Hme Hq Hr. pose proof (waiting_spec events s Hq Hr) as Hw. split; [done|]. intros [Hp _]%Hw. pose proof (primaries_fewer Hwf Hme) as Hlt.
  pose proof (equal_stake Heq) as Hst. destruct (CommitteeFacts.thresholds_exact committee Hwf) as [Hth _]; [lia|]. rewrite Hth, Hst in Hp.
  assert (Committee.max_faulty committee <= N.of_nat (size (Committee.authorities committee))) by (unfold Committee.max_faulty; rewrite Hst; div_lia). lia.
Qed.

End networks.

Lemma double_backoff k : (if 2 ^ N.min k 7 <? 120 then 2 ^ N.min k 7 + 2 ^ N.min k 7 else 2 ^ N.min k 7) = 2 ^ N.min (k + 1) 7.
Proof.
  destruct (N.le_gt_cases 7 k) as [Hge|Hlt]; [by rewrite !N.min_r by lia|]. rewrite !N.min_l by lia.
  assert (k = 0 \/ k = 1 \/ k = 2 \/ k = 3 \/ k = 4 \/ k = 5 \/ k = 6) as Hk by lia. by destruct_or! Hk; subst.
Qed.

Lemma dial_loop_spec k results :
  ((dial_loop (2 ^ N.min k 7) results).2 = true <-> true ∈ results) /\
  (forall i d, (dial_loop (2 ^ N.min k 7) results).1 !! i = Some d -> d = 2 ^ N.min (k + N.of_nat i) 7 /\ results !! i = Some false).
Proof.
  revert k. induction results as [|[] results IH]; intros k; cbn [dial_loop]; [split; [split; [done|by intros ?%elem_of_nil]|done]|split; [split; [by left|done]|done]|].
  rewrite double_backoff. destruct (IH (k + 1)) as [Hc Hs]. destruct (dial_loop (2 ^ N.min (k + 1) 7) results) as [sleeps connected]. cbn [fst snd] in *. split.
  - rewrite Hc, elem_of_cons. naive_solver.
  - intros [|i] d; cbn [lookup list_lookup]; [intros [= <-]; by rewrite N.add_0_r|]. intros [-> Hi]%Hs. split; [|done]. do 2 f_equal. lia.
Qed.

(** The dialing task sleeps one second after the first failure, twice as long after each
    further one up to 128 seconds, and ends with the first success. *)
Lemma dial_backoff results :
  ((dial results).2 = true <-> true ∈ results) /\
  (forall i d, (dial results).1 !! i = Some d -> d = 2 ^ N.min (N.of_nat i) 7 /\ results !! i = Some false).
Proof. exact (dial_loop_spec 0 results). Qed.

End NetworksFacts.

(** * Evaluation *)

Section witnesses.
#[local] Existing Instances demo_keys demo_crypto demo_chain_hash demo_chain_binds demo_batch_hash demo_batch_hash_binds demo_execution_client.

(** The subscriber has saved two outputs; the node executed the first and restarts. *)
Definition stopped : Subscriber.t := Subscriber.run demo_committee true demo_subscriber demo_events.
Definition reborn : Subscriber.t :=
  Subscriber.mk (Subscriber.db stopped) [] true ConsensusRound.default 0 default_consensus_header [] 0 0 [] [].
Definition executed_before : list ConsensusOutput.t := take 1 (Subscriber.outputs stopped).
Definition saved_only : list ConsensusOutput.t := drop 1 (Subscriber.outputs stopped).

Definition chain_before : outcome TnEngineError (state * ExecHeader.t) := execute_all 0 0 (demo_client_state, genesis_block) executed_before.
Definition blocks_before : list ExecHeader.t := match chain_before with Ok (s, _) => genesis_block :: s.2.*1 | _ => [] end.

Definition demo_provider (hs : list ExecHeader.t) : Provider :=
  mk_provider (Ok None) (Some (N.of_nat (pred (length hs)))) (fun n => Ok (hs !! N.to_nat n)) None None (fun _ => None).

Lemma demo_provider_holds hs : hs <> [] -> holds (demo_provider hs) hs.
Proof. intros Hne. split; [|done..]. intros i. cbn. by rewrite Nat2N.id. Qed.

Lemma saved_only_outputs : Forall (fun o => saved_output demo_committee o /\ answers demo_client (ConsensusOutput.sub_dag o)) saved_only.
Proof.
  assert (exists outs, chain_inv demo_committee default_consensus_header [] chain_sub_dags stopped outs) as [outs [Ho _ _ _ _ Hr Hs Hrw]].
  { apply (run_chain_inv demo_committee true default_consensus_header [] chain_sub_dags demo_subscriber []).
    - apply (bool_decide_unpack _). by vm_compute.
    - assert (Forall (answers demo_client) chain_sub_dags) as Ha by (apply Forall_forall; apply demo_answers). unfold demo_events. rewrite !Forall_cons. done.
    - by constructor. }
  cbn [app] in Ho. unfold saved_only. rewrite Ho. assert (Forall (fun o => ConsensusOutput.extra o = 0) outs) as He.
  { rewrite <-Ho. apply (bool_decide_unpack _). by vm_compute. }
  apply Forall_drop. rewrite Forall_forall in Hs, Hrw, He |- *. intros o Hin. destruct (Hs o Hin) as [_ Hc].
  split; [split; [done|by apply Hrw|by apply He]|]. apply demo_answers. rewrite Hr. apply elem_of_app. left. by apply list_elem_of_fmap_2.
Qed.

Lemma demo_client_sound : sound_client demo_client.
Proof. intros ds m [= <-] x b Hx. by apply safe_request_content in Hx as [? _]. Qed.

(** No peer answers, so the node starts as an active validator. *)
Lemma restart_resumes_witness :
  exists s' h' l sub' os', chain_before = Ok (s', h') /\ length s'.2 = 1%nat /\
    launch demo_committee false 50 (demo_provider blocks_before) (Subscriber.db reborn) [] = Ok l /\ node_mode l = CvvActive /\
    Subscriber.start demo_committee 50 true demo_client reborn (root l) None = (sub', Ok ()) /\
    Subscriber.outputs sub' = os' /\ length os' = 1%nat /\
    execute_all 0 0 (s', h') os' = execute_all 0 0 (s', h') (set_early true <$> take (length os') saved_only).
Proof.
  destruct chain_before as [[s' h']| | |] eqn:Hx; [|by vm_compute in Hx..].
  assert (blocks_before = genesis_block :: s'.2.*1) as Hb by (unfold blocks_before; by rewrite Hx).
  assert (Forall (saved_output demo_committee) saved_only /\ Forall (fun o => answers demo_client (ConsensusOutput.sub_dag o)) saved_only) as [Hsaved Hans]
    by (rewrite <-Forall_and; apply saved_only_outputs).
  destruct (restart_resumes 0 0 demo_committee 50 false [] demo_client (demo_provider blocks_before) genesis_block demo_client_state s' h' reborn
    executed_before saved_only None None) as (ts & l & Ht & Hlaunch & Hrecent & _ & Hstart).
  - lia.
  - done.
  - split; [|apply (bool_decide_unpack _); by vm_compute]. vm_compute. repeat constructor.
  - exact Hx.
  - rewrite Hb. by apply demo_provider_holds.
  - intros r. done.
  - vm_compute. by repeat split.
  - split; [by vm_compute|]. apply (bool_decide_unpack _). by vm_compute.
  - exact Hsaved.
  - apply demo_client_sound.
  - done.
  - assert (node_mode l = CvvActive) as Hmode.
    { assert (match launch demo_committee false 50 (demo_provider blocks_before) (Subscriber.db reborn) [] with Ok l => node_mode l = CvvActive | _ => False end) as Hm by by vm_compute.
      by rewrite Hlaunch in Hm. }
    destruct (Hstart Hmode) as (sub' & os' & r & Hst & Ho & Hex & Hr & Hok). rewrite (Hok Hans) in *.
    exists s', h', l, sub', os'. split; [done|]. split; [|destruct Hr as [[_ Hlen]|]; [by split_and!|done]].
    assert (length blocks_before = 2%nat) as Hl by by vm_compute. rewrite Hb in Hl. cbn [length] in Hl. rewrite length_fmap in Hl. lia.
Defined.

Definition all_connected : list StartNetworks.event :=
  replicate 3 (StartNetworks.PrimaryConnected 0) ++ replicate 3 (StartNetworks.WorkerConnected 0).
Definition networks_start : StartNetworks.t := StartNetworks.start demo_committee demo_worker_cache 1 "none".
Definition after_dials (events : list StartNetworks.event) : StartNetworks.t := default networks_start (StartNetworks.run networks_start events).

(** With the three other primaries and three workers reached the node starts; with one of
    the primaries down it waits. *)
Lemma startup_quorum_witness :
  StartNetworks.waiting demo_committee (after_dials all_connected) = false /\
  StartNetworks.waiting demo_committee (after_dials (drop 1 all_connected)) = true /\
  N.of_nat (length (StartNetworks.dialing_primaries (after_dials all_connected))) < Committee.max_faulty demo_committee.
Proof.
  destruct (NetworksFacts.startup_quorum demo_committee demo_worker_cache 1 "none") with (events := all_connected) (s := after_dials all_connected) as [_ Hs].
  - by vm_compute.
  - apply demo_committee_wf.
  - intros k a Hk. assert (map_Forall (fun _ a => Authority.voting_power a = 1) (Committee.authorities demo_committee)) as Hall
      by (apply (bool_decide_unpack _); by vm_compute). exact (Hall k a Hk).
  - apply (bool_decide_unpack _). by vm_compute.
  - by vm_compute.
  - by vm_compute.
  - split; [by vm_compute|]. split; [by vm_compute|]. apply Hs. by vm_compute.
Defined.

End witnesses.
