(* ===== verification/Dispatch.v ===== *)
(** Serving the requests of peers: every request and every gossip message is handled by a
    task of its own, which the network cancels when the peer is gone.
    Models [PrimaryNetwork] of crates/consensus/primary/src/network/mod.rs and
    [WorkerNetwork] of crates/consensus/worker/src/network/mod.rs over the handlers of
    requests, and [LocalNetwork] of crates/network-types/src/local.rs. *)

From S2P Require Import Prelude Storage Committee Certificate CertStore PendingCerts Output ConsensusState.
From S2P Require Import OrderDag LeaderSchedule Bullshark BullsharkFacts Demo CertificateSafety Aggregators CertManager.
From S2P Require Import CertValidator Consensus VoteHandler VoteSafety CertFetcher Worker WorkerSafety.

(** * Tasks *)

(** What a turn of a task gives: it still waits, it goes on with another job, or it ends,
    with a response to send or without. *)
Inductive turn (Job Res : Type) :=
  | Waits
  | Goes (j : Job)
  | Ends (r : option Res).
Arguments Waits {Job Res}.
Arguments Goes {Job Res} j.
Arguments Ends {Job Res} r.

(** What a dispatcher needs of the handler of requests: one turn of a job on the state that
    the tasks share; [Env] is what the turn meets. *)
Class Handler (State Job Res Env : Type) := {
  advance : Env -> Job -> State -> State * turn Job Res;
}.

Module Dispatcher.
Section dispatcher.
Context {State Job Res Env : Type} `{!Handler State Job Res Env}.

(** A spawned task, with the channel for its response; a task for gossip has none. *)
Record task := mk_task {
  job : Job;
  channel : option N;
}.

(** [responses] are the responses sent; [cancelled] and [dropped] are the channels of the
    tasks that were cancelled and of those that ended without a response. *)
Record t := mk {
  state : State;
  running : bool;
  tasks : list task;
  responses : list (N * Res);
  cancelled : list N;
  dropped : list N;
}.

Definition new (s : State) : t := mk s true [] [] [] [].

(** An event of the network arrives, a task makes a turn, the network cancels a request,
    the node shuts down, or another part of the node changes the shared state. *)
Inductive step :=
  | Received (j : Job) (channel : option N)
  | Turn (i : nat) (e : Env)
  | Cancelled (i : nat)
  | Shutdown
  | Elsewhere (s : State).

Definition spawn (d : t) (j : Job) (channel : option N) : t :=
  mk (state d) (running d) (tasks d ++ [mk_task j channel]) (responses d) (cancelled d) (dropped d).

(** The end of a task: its response is sent if it has a channel. *)
Definition finish (d : t) (i : nat) (s : State) (channel : option N) (r : option Res) : t :=
  let tasks := delete i (tasks d) in
  match channel, r with
  | Some ch, Some r => mk s (running d) tasks (responses d ++ [(ch, r)]) (cancelled d) (dropped d)
  | Some ch, None => mk s (running d) tasks (responses d) (cancelled d) (dropped d ++ [ch])
  | None, _ => mk s (running d) tasks (responses d) (cancelled d) (dropped d)
  end.

(** [None]: the step is not possible. *)
Definition run_step (d : t) (st : step) : option t :=
  match st with
  | Received j channel => if running d then Some (spawn d j channel) else None
  | Turn i e =>
      task ← tasks d !! i;
      match advance e (job task) (state d) with
      | (_, Waits) => None
      | (s, Goes j) => Some (mk s (running d) (<[i := mk_task j (channel task)]> (tasks d)) (responses d) (cancelled d) (dropped d))
      | (s, Ends r) => Some (finish d i s (channel task) r)
      end
  | Cancelled i =>
      task ← tasks d !! i;
      ch ← channel task;
      Some (mk (state d) (running d) (delete i (tasks d)) (responses d) (cancelled d ++ [ch]) (dropped d))
  | Shutdown => Some (mk (state d) false (tasks d) (responses d) (cancelled d) (dropped d))
  | Elsewhere s => Some (mk s (running d) (tasks d) (responses d) (cancelled d) (dropped d))
  end.

Fixpoint run (d : t) (steps : list step) : option t :=
  match steps with
  | [] => Some d
  | st :: steps => d ← run_step d st; run d steps
  end.

End dispatcher.
Arguments t : clear implicits.
Arguments step : clear implicits.
Arguments task : clear implicits.
End Dispatcher.

(** * The network of the primary *)

Module PrimaryNetwork.
Import Dispatcher.

Inductive PrimaryRequest `{RoaringBitmap} :=
  | VoteRequest (header : Header.t) (parents : list Certificate.t)
  | MissingCertificates (inner : MissingCertificatesRequest.t)
  | ConsensusHeaderRequest (number hash : option N).

Inductive NetworkEvent `{RoaringBitmap} :=
  | Request (peer : N) (request : PrimaryRequest) (channel : N)
  | Gossip (gossip : option PrimaryGossip).

(** The tasks; [RecordVote] is a vote request that has read the table of votes. *)
Inductive job `{RoaringBitmap} :=
  | Vote (peer : N) (header : Header.t) (parents : list Certificate.t)
  | RecordVote (d : RequestHandler.decision)
  | MissingCerts (request : MissingCertificatesRequest.t)
  | ConsensusOutput (number hash : option N)
  | ProcessGossip (gossip : option PrimaryGossip).

(** [time] bounds the certificates that are collected in time. *)
Record env := mk_env {
  request_env : RequestHandler.env;
  time : nat;
}.

Section network.
Context `{NetworkKeys} `{Crypto} `{RoaringBitmap} (config : ConsensusConfig.t) (default_header : SealedHeader.t) (sign : Digest -> BlsSignature).

Definition process_network_event (e : NetworkEvent) : job * option N :=
  match e with
  | Request peer (VoteRequest header parents) channel => (Vote peer header parents, Some channel)
  | Request _ (MissingCertificates inner) channel => (MissingCerts inner, Some channel)
  | Request _ (ConsensusHeaderRequest number hash) channel => (ConsensusOutput number hash, Some channel)
  | Gossip gossip => (ProcessGossip gossip, None)
  end.

Definition process_vote_request (e : env) (peer : N) (header : Header.t) (parents : list Certificate.t) (h : RequestHandler.t)
    : RequestHandler.t * turn job PrimaryResponse :=
  match RequestHandler.vote_decision config default_header sign (request_env e) peer header parents h with
  | (h, Ok d) => (h, Goes (RecordVote d))
  | (h, Err error) => (h, Ends (into_response (Err error)))
  | (h, Panic) => (h, Ends None)
  | (h, OutOfFuel) => (h, Waits)
  end.

Definition process_request_for_missing_certs (e : env) (request : MissingCertificatesRequest.t) (h : RequestHandler.t)
    : RequestHandler.t * turn job PrimaryResponse :=
  (h, Ends (into_response (CertificateCollector.retrieve_missing_certs config (RequestHandler.store h) (time e) request))).

Definition process_consensus_output_request (number hash : option N) (h : RequestHandler.t) : RequestHandler.t * turn job PrimaryResponse :=
  let '(h, r) := RequestHandler.retrieve_consensus_header number hash h in (h, Ends (into_response r)).

(** An error is logged and nothing else. *)
Definition process_gossip (gossip : option PrimaryGossip) (h : RequestHandler.t) : RequestHandler.t * turn job PrimaryResponse :=
  let '(h, _) := RequestHandler.process_gossip config gossip h in (h, Ends None).

Definition advance_job (e : env) (j : job) (h : RequestHandler.t) : RequestHandler.t * turn job PrimaryResponse :=
  match j with
  | Vote peer header parents => process_vote_request e peer header parents h
  | RecordVote d => let '(h, r) := RequestHandler.vote_record d h in (h, Ends (into_response r))
  | MissingCerts request => process_request_for_missing_certs e request h
  | ConsensusOutput number hash => process_consensus_output_request number hash h
  | ProcessGossip gossip => process_gossip gossip h
  end.

#[global] Instance primary_handler : Handler RequestHandler.t job PrimaryResponse env := {| advance := advance_job |}.

End network.
End PrimaryNetwork.

(** * The network of a worker *)

Module WorkerNetwork.
Import Dispatcher.

Inductive WorkerRequest :=
  | ReportBatch (sealed_batch : SealedBatch.t)
  | RequestBatches (batch_digests : list N).

Inductive NetworkEvent :=
  | Request (peer : N) (request : WorkerRequest) (channel : N)
  | Gossip (source : option N) (gossip : option WorkerGossip).

Inductive job :=
  | ProcessReport (sealed_batch : SealedBatch.t)
  | ProcessRequest (batch_digests : list N)
  | ProcessGossip (source : option N) (gossip : option WorkerGossip).

(** The clock, and what peers answer to a request for a batch. *)
Record env := mk_env {
  now : TimestampSec;
  answer : N -> option (list Batch.t);
}.

(** The worker and the peers whose score was lowered. *)
Record t := mk {
  worker : Worker.t;
  penalized : list N;
}.

Section network.
Context `{BatchHash} `{ExecutionLayer} (id : WorkerId).

Definition process_network_event (e : NetworkEvent) : job * option N :=
  match e with
  | Request _ (ReportBatch sealed_batch) channel => (ProcessReport sealed_batch, Some channel)
  | Request _ (RequestBatches batch_digests) channel => (ProcessRequest batch_digests, Some channel)
  | Gossip source gossip => (ProcessGossip source gossip, None)
  end.

Definition process_report_batch (e : env) (sealed_batch : SealedBatch.t) (w : t) : t * turn job WorkerResponse :=
  let '(worker, res) := Worker.process_report_batch id (worker w) sealed_batch (now e) in
  (mk worker (penalized w),
   Ends (match res with Ok _ => Some ReportBatchResponse | Err _ => Some WorkerErrorResponse | _ => None end)).

Definition process_request_batches (batch_digests : list N) (w : t) : t * turn job WorkerResponse :=
  (w, Ends (Some (RequestBatchesResponse (Worker.process_request_batches (worker w) batch_digests)))).

Definition process_gossip (e : env) (source : option N) (gossip : option WorkerGossip) (w : t) : t * turn job WorkerResponse :=
  let '(worker, res) := Worker.process_gossip (worker w) gossip (answer e) in
  (mk worker (match res with Err _ => penalized w ++ option_list source | _ => penalized w end), Ends None).

Definition advance_job (e : env) (j : job) (w : t) : t * turn job WorkerResponse :=
  match j with
  | ProcessReport sealed_batch => process_report_batch e sealed_batch w
  | ProcessRequest batch_digests => process_request_batches batch_digests w
  | ProcessGossip source gossip => process_gossip e source gossip w
  end.

#[global] Instance worker_handler : Handler t job WorkerResponse env := {| advance := advance_job |}.

End network.
End WorkerNetwork.

(** * Requests to peers *)

Module PrimaryNetworkHandle.

Inductive NetworkError := ChannelClosed | RPCError (e : option PrimaryNetworkError) | Outbound.

(** How a request ends: the network is gone, the reply is dropped, the request failed, or
    there is a response. *)
Inductive attempt :=
  | SendFailed
  | ReplyDropped
  | RequestFailed
  | Replied (r : PrimaryResponse).

Definition response (a : attempt) : outcome NetworkError PrimaryResponse :=
  match a with
  | SendFailed | ReplyDropped => Err ChannelClosed
  | RequestFailed => Err Outbound
  | Replied r => Ok r
  end.

Definition fetch_certificates (a : attempt) : outcome NetworkError (list Certificate.t) :=
  res ← response a;
  match res with
  | RequestedCertificates certs => Ok certs
  | ErrorResponse e => Err (RPCError (Some e))
  | _ => Err (RPCError None)
  end.

Definition request_consensus_from_peer (a : attempt) : outcome NetworkError ConsensusHeader.t :=
  res ← response a;
  match res with
  | ConsensusHeaderResponse header => Ok header
  | ErrorResponse e => Err (RPCError (Some e))
  | _ => Err (RPCError None)
  end.

(** Up to three peers are asked; [tries] attempts are left. *)
Fixpoint request_loop (tries : nat) (attempts : list attempt) : outcome NetworkError ConsensusHeader.t :=
  match tries, attempts with
  | O, _ => Err (RPCError None)
  | _, [] => OutOfFuel
  | S tries, SendFailed :: _ | S tries, ReplyDropped :: _ => Err ChannelClosed
  | S tries, Replied (ConsensusHeaderResponse header) :: _ => Ok header
  | S tries, _ :: attempts => request_loop tries attempts
  end.

Definition request_consensus (attempts : list attempt) : outcome NetworkError ConsensusHeader.t := request_loop 3 attempts.

End PrimaryNetworkHandle.

(** * Calls between the primary and its workers *)

Module LocalNetwork.
Section local.
(** [S] is the state that the handlers share. *)
Context {S E : Type}.

Record WorkerToPrimaryClient := mk_worker_to_primary {
  own_batch : N -> WorkerId -> TimestampSec -> action S E unit;
  others_batch : N -> WorkerId -> action S E unit;
}.

Record PrimaryToWorkerClient := mk_primary_to_worker {
  synchronize_batches : list N -> bool -> action S E unit;
  fetch : gset N -> action S E (gmap N Batch.t);
}.

Record t := mk {
  worker_to_primary_handler : option WorkerToPrimaryClient;
  primary_to_worker_handler : option PrimaryToWorkerClient;
}.

Definition new : t := mk None None.

Definition set_worker_to_primary_local_handler (l : t) (handler : WorkerToPrimaryClient) : t :=
  mk (Some handler) (primary_to_worker_handler l).

Definition set_primary_to_worker_local_handler (l : t) (handler : PrimaryToWorkerClient) : t :=
  mk (worker_to_primary_handler l) (Some handler).

(** A call from the primary fails while no worker is there; one from a worker does not. *)
Definition synchronize (not_set : E) (l : t) (digests : list N) (is_certified : bool) : action S E unit :=
  match primary_to_worker_handler l with Some c => synchronize_batches c digests is_certified | None => lift (Err not_set) end.

Definition fetch_batches (not_set : E) (l : t) (digests : gset N) : action S E (gmap N Batch.t) :=
  match primary_to_worker_handler l with Some c => fetch c digests | None => lift (Err not_set) end.

Definition report_own_batch (l : t) (digest : N) (worker_id : WorkerId) (timestamp : TimestampSec) : action S E unit :=
  match worker_to_primary_handler l with Some c => own_batch c digest worker_id timestamp | None => lift (Ok ()) end.

Definition report_others_batch (l : t) (digest : N) (worker_id : WorkerId) : action S E unit :=
  match worker_to_primary_handler l with Some c => others_batch c digest worker_id | None => lift (Ok ()) end.

End local.
Arguments t : clear implicits.
Arguments WorkerToPrimaryClient : clear implicits.
Arguments PrimaryToWorkerClient : clear implicits.
End LocalNetwork.

(** The primary's side of the calls: own batches go to the proposer, which acknowledges
    them, and batches of others to the payload store. *)
Module WorkerReceiverHandler.

Inductive ReportError := DigestsClosed | AckDropped.

Record t := mk {
  our_digests : list (N * WorkerId * TimestampSec);
  our_digests_open : bool;
  payload_store : gmap (N * WorkerId) N;
}.

(** [ack] tells whether the proposer acknowledges the digest. *)
Definition report_own_batch (ack : bool) (digest : N) (worker_id : WorkerId) (timestamp : TimestampSec) : action t ReportError unit := fun h =>
  if our_digests_open h then
    (mk (our_digests h ++ [(digest, worker_id, timestamp)]) true (payload_store h), if ack then Ok () else Err AckDropped)
  else (h, Err DigestsClosed).

Definition report_others_batch (digest : N) (worker_id : WorkerId) : action t ReportError unit :=
  modify (fun h => mk (our_digests h) (our_digests_open h) (PayloadStore.write_payload (payload_store h) digest worker_id)).

Definition client (ack : bool) : LocalNetwork.WorkerToPrimaryClient t ReportError :=
  LocalNetwork.mk_worker_to_primary (report_own_batch ack) report_others_batch.

End WorkerReceiverHandler.

(** * What becomes of the requests *)

Module DispatcherFacts.
Import Dispatcher.

Section accounting.
Context {State Job Res Env : Type} `{!Handler State Job Res Env}.
Implicit Types (d : Dispatcher.t State Job Res) (st : Dispatcher.step State Job Env) (j : Job).

(** The job may end with the response, or without one, its turns meeting states of [seen]. *)
Inductive produces (seen : list State) : Job -> option Res -> Prop :=
  | produces_ends e j s s' r : s ∈ seen -> advance e j s = (s', Ends r) -> produces seen j r
  | produces_goes e j s s' j' r : s ∈ seen -> advance e j s = (s', Goes j') -> produces seen j' r -> produces seen j r.

Lemma produces_mono seen seen' j r : seen ⊆ seen' -> produces seen j r -> produces seen' j r.
Proof. intros Hs. induction 1; [eapply produces_ends|eapply produces_goes]; eauto. Qed.

(** The states that the tasks share, one after the other. *)
Fixpoint visited d (steps : list (Dispatcher.step State Job Env)) : list State :=
  state d :: match steps with
             | [] => []
             | st :: steps => match run_step d st with Some d' => visited d' steps | None => [] end
             end.

(** The requests that were received, with their channels. *)
Definition step_received st : list (N * Job) := match st with Received j (Some ch) => [(ch, j)] | _ => [] end.
Definition received (steps : list (Dispatcher.step State Job Env)) : list (N * Job) := steps ≫= step_received.

Definition in_flight d : list N := omap channel (tasks d).

(** Every channel received is accounted for, and what was sent or will be sent on it is
    for the request that came with it. *)
Record accounted (rs : list (N * Job)) (seen : list State) d : Prop := {
  acc_state : state d ∈ seen;
  acc_channels : rs.*1 ≡ₚ (responses d).*1 ++ in_flight d ++ cancelled d ++ dropped d;
  acc_tasks task ch : task ∈ tasks d -> channel task = Some ch ->
    exists j, (ch, j) ∈ rs /\ forall seen' r, seen ⊆ seen' -> produces seen' (job task) r -> produces seen' j r;
  acc_responses ch r : (ch, r) ∈ responses d -> exists j, (ch, j) ∈ rs /\ produces seen j (Some r);
  acc_dropped ch : ch ∈ dropped d -> exists j, (ch, j) ∈ rs /\ produces seen j None;
}.

Lemma accounted_new s : accounted [] [s] (new s).
Proof. split; [by left|done|by intros ? ? ?%elem_of_nil|by intros ? ? ?%elem_of_nil|by intros ? ?%elem_of_nil]. Qed.

(** More requests, and more states, do not change what is known. *)
Lemma accounted_seen rs seen d s : accounted rs seen d ->
  accounted rs (seen ++ [s]) (mk s (running d) (tasks d) (responses d) (cancelled d) (dropped d)).
Proof.
  intros [_ Hc Ht Hr Hd]. assert (seen ⊆ seen ++ [s]) as Hs by set_solver. split; cbn [state tasks responses dropped]; [set_solver|done| | |].
  - intros task ch Hin Hch. destruct (Ht task ch Hin Hch) as (j & Hj & Hp). exists j. split; [done|]. intros seen' r Hs'. apply Hp. by etransitivity.
  - intros ch r (j & Hj & Hp)%Hr. exists j. split; [done|]. by eapply produces_mono.
  - intros ch (j & Hj & Hp)%Hd. exists j. split; [done|]. by eapply produces_mono.
Qed.

Lemma in_flight_delete (l : list (Dispatcher.task Job)) i task :
  l !! i = Some task -> omap channel l ≡ₚ option_list (channel task) ++ omap channel (delete i l).
Proof.
  intros Hi. rewrite (delete_Permutation _ _ _ Hi) at 1. cbn [omap list_omap]. by destruct (channel task).
Qed.

Lemma in_flight_insert (l : list (Dispatcher.task Job)) i task j :
  l !! i = Some task -> omap channel (<[i := mk_task j (channel task)]> l) = omap channel l.
Proof.
  intros Hi. rewrite insert_take_drop by (by eapply lookup_lt_Some). rewrite <-(take_drop_middle _ _ _ Hi) at 3.
  rewrite !omap_app. cbn [omap list_omap channel]. done.
Qed.

Lemma elem_of_inserted {A} (l : list A) i x y : y ∈ <[i := x]> l -> y = x \/ y ∈ l.
Proof.
  intros [k Hk]%list_elem_of_lookup. destruct (decide (i = k)) as [->|Hne].
  - left. pose proof (lookup_lt_Some _ _ _ Hk) as Hlt. rewrite length_insert in Hlt. rewrite list_lookup_insert_eq in Hk by done. by injection Hk.
  - right. rewrite list_lookup_insert_ne in Hk by done. by eapply list_elem_of_lookup_2.
Qed.

Lemma accounted_goes rs seen d i e task s j :
  accounted rs seen d -> tasks d !! i = Some task -> advance e (job task) (state d) = (s, Goes j) ->
  accounted rs seen (mk (state d) (running d) (<[i := mk_task j (channel task)]> (tasks d)) (responses d) (cancelled d) (dropped d)).
Proof.
  intros [Hs Hc Ht Hr Hd] Hi Ha. split; unfold in_flight; cbn [state tasks responses cancelled dropped]; [done|by rewrite in_flight_insert| |done..].
  intros task' ch [->|Hin]%elem_of_inserted Hch; [|by apply Ht]. cbn [channel job] in *.
  destruct (Ht task ch) as (j0 & Hj & Hp); [by eapply list_elem_of_lookup_2|done|]. exists j0. split; [done|].
  intros seen' r Hsub Hp'. apply Hp; [done|]. eapply produces_goes; [by apply Hsub|done|done].
Qed.

Lemma accounted_ends rs seen d i e task s r :
  accounted rs seen d -> tasks d !! i = Some task -> advance e (job task) (state d) = (s, Ends r) -> accounted rs seen (finish d i (state d) (channel task) r).
Proof.
  intros [Hs Hc Ht Hr Hd] Hi Ha. pose proof (in_flight_delete _ _ _ Hi) as Hf.
  assert (forall ch, channel task = Some ch -> exists j, (ch, j) ∈ rs /\ produces seen j r) as Hnew.
  { intros ch Hch. destruct (Ht task ch) as (j & Hj & Hp); [by eapply list_elem_of_lookup_2|done|]. exists j. split; [done|]. by eapply Hp, produces_ends. }
  unfold finish. destruct (channel task) as [ch|]; [destruct r as [r|]|]; cbn [option_list app] in Hf;
    (split; unfold in_flight in *; cbn [state tasks responses cancelled dropped]; [done| |intros task' ch' Hin%list_elem_of_delete_inv; by apply Ht| |]); try done.
  - rewrite fmap_app, Hc, Hf. cbn [fmap list_fmap fst]. solve_Permutation.
  - intros ch' r' [Hin|[= -> ->]%list_elem_of_singleton]%elem_of_app; [by apply Hr|by apply Hnew].
  - rewrite Hc, Hf. solve_Permutation.
  - intros ch' [Hin| ->%list_elem_of_singleton]%elem_of_app; [by apply Hd|by apply Hnew].
  - by rewrite Hc, Hf.
Qed.

Lemma accounted_spawn rs seen d j och : accounted rs seen d -> accounted (rs ++ step_received (Received j och)) seen (spawn d j och).
Proof.
  intros [Hs Hc Ht Hr Hd]. split; unfold in_flight, spawn in *; cbn [state tasks responses cancelled dropped step_received]; [done|..].
  - rewrite omap_app, fmap_app, Hc. cbn [omap list_omap channel]. destruct och as [ch|]; cbn [fmap list_fmap fst]; [solve_Permutation|]. by rewrite !app_nil_r.
  - intros task ch [Hin| ->%list_elem_of_singleton]%elem_of_app Hch.
    + destruct (Ht task ch Hin Hch) as (j' & ? & ?). exists j'. split; [by apply elem_of_app; left|done].
    + cbn [channel job] in *. subst och. exists j. split; [apply elem_of_app; right; by left|done].
  - intros ch r (j' & ? & ?)%Hr. exists j'. split; [by apply elem_of_app; left|done].
  - intros ch (j' & ? & ?)%Hd. exists j'. split; [by apply elem_of_app; left|done].
Qed.

Lemma accounted_cancelled rs seen d i task ch :
  accounted rs seen d -> tasks d !! i = Some task -> channel task = Some ch ->
  accounted rs seen (mk (state d) (running d) (delete i (tasks d)) (responses d) (cancelled d ++ [ch]) (dropped d)).
Proof.
  intros [Hs Hc Ht Hr Hd] Hi Hch. pose proof (in_flight_delete _ _ _ Hi) as Hf. rewrite Hch in Hf.
  split; unfold in_flight in *; cbn [state tasks responses cancelled dropped option_list] in *; [done| |intros task' ch' Hin%list_elem_of_delete_inv; by apply Ht|done..].
  rewrite Hc, Hf. solve_Permutation.
Qed.

Lemma accounted_step rs seen d st d' : accounted rs seen d -> run_step d st = Some d' -> accounted (rs ++ step_received st) (seen ++ [state d']) d'.
Proof.
  intros Hd Hs. enough (accounted (rs ++ step_received st) seen (mk (state d) (running d') (tasks d') (responses d') (cancelled d') (dropped d'))) as Hx.
  { apply (accounted_seen _ _ _ (state d')) in Hx. by destruct d'. }
  revert Hs. destruct st as [j och|i e|i| |s]; cbn [run_step].
  - destruct (running d); [|done]. intros [= <-]. exact (accounted_spawn rs seen d j och Hd).
  - cbn [step_received]. rewrite app_nil_r. intros (task & Hi & Hs)%bind_Some.
    destruct (advance e (job task) (state d)) as [s [|j|r]] eqn:Ha; [done| |]; injection Hs as <-; [exact (accounted_goes _ _ _ _ _ _ _ _ Hd Hi Ha)|].
    pose proof (accounted_ends _ _ _ _ _ _ _ _ Hd Hi Ha) as Hx. unfold finish in *. by destruct (channel task), r.
  - cbn [step_received]. rewrite app_nil_r. intros (task & Hi & (ch & Hch & [= <-])%bind_Some)%bind_Some. exact (accounted_cancelled _ _ _ _ _ _ Hd Hi Hch).
  - cbn [step_received]. rewrite app_nil_r. intros [= <-]. by destruct Hd.
  - cbn [step_received]. rewrite app_nil_r. intros [= <-]. by destruct Hd.
Qed.

Lemma accounted_from rs seen d steps d' :
  accounted rs seen d -> run d steps = Some d' -> accounted (rs ++ received steps) (seen ++ drop 1 (visited d steps)) d'.
Proof.
  revert rs seen d. induction steps as [|st steps IH]; intros rs seen d Hd; cbn [run received mbind list_bind visited drop]; [intros [= <-]; by rewrite !app_nil_r|].
  intros (d1 & H1' & Hr)%bind_Some. rewrite H1'. pose proof (IH _ _ _ (accounted_step _ _ _ _ _ Hd H1') Hr) as Hx.
  rewrite <-(app_assoc rs), <-(app_assoc seen) in Hx. by destruct steps.
Qed.

Lemma accounted_run s steps d : run (new s) steps = Some d -> accounted (received steps) (visited (new s) steps) d.
Proof. intros Hr. pose proof (accounted_from _ _ _ _ _ (accounted_new s) Hr) as Hx. by destruct steps. Qed.

End accounting.
End DispatcherFacts.

(** * Votes of concurrent tasks *)

Module PrimaryFacts.
Import RequestHandler Dispatcher DispatcherFacts PrimaryNetwork.

Section votes.
Context `{NetworkKeys} `{Crypto} `{RoaringBitmap} (config : ConsensusConfig.t) (default_header : SealedHeader.t) (sign : Digest -> BlsSignature).
#[local] Instance handler : Handler RequestHandler.t job PrimaryResponse env := primary_handler config default_header sign.
Implicit Types (d : Dispatcher.t RequestHandler.t job PrimaryResponse) (st : Dispatcher.step RequestHandler.t job env)
  (h : RequestHandler.t) (v : Vote.t) (vs : list Vote.t) (votes : gmap AuthorityIdentifier VoteInfo.t).

(** The vote that a task is about to record. *)
Definition about_to_record (task : Dispatcher.task job) : option Vote.t :=
  match Dispatcher.job task with RecordVote (Record_vote v) => Some v | _ => None end.

(** A task that is about to record a vote decided on what the table still says; one that
    only repeats a vote is counted in [vs]. *)
Definition task_ok votes vs (task : Dispatcher.task job) : Prop :=
  match Dispatcher.job task with
  | RecordVote (Record_vote v) => exists header, decide_vote config sign (votes !! Header.author header) header = Ok (v, true)
  | RecordVote (Answer (VoteResponse v)) => v ∈ vs
  | _ => True
  end.

Record votes_inv vs d : Prop := {
  vi_consistent : consistent (state d) vs;
  vi_responses ch v : (ch, VoteResponse v) ∈ responses d -> v ∈ vs;
  vi_tasks : Forall (task_ok (vote_digests (state d)) vs) (tasks d);
  vi_exclusive : NoDup (Vote.origin <$> omap about_to_record (tasks d));
}.

(** Jobs come from events of the network. *)
Definition from_network st : Prop :=
  match st with Received j channel => exists e, (j, channel) = process_network_event e | _ => True end.

(** The rest of the node does not write to the table of votes, and no two tasks are about
    to record a vote for the same author. *)
Definition step_exclusive d st d' : Prop :=
  NoDup (Vote.origin <$> omap about_to_record (tasks d')) /\
  match st with Elsewhere h => vote_digests h = vote_digests (state d) | _ => True end.

Fixpoint exclusive d (steps : list (Dispatcher.step RequestHandler.t job env)) : Prop :=
  match steps with
  | [] => True
  | st :: steps => match run_step d st with Some d' => step_exclusive d st d' /\ exclusive d' steps | None => True end
  end.

(** A check of the exclusion, for runs of the dispatcher alone. *)
Fixpoint check_exclusive d (steps : list (Dispatcher.step RequestHandler.t job env)) : bool :=
  match steps with
  | [] => true
  | st :: steps =>
      match run_step d st with
      | Some d' => match st with Elsewhere _ => false | _ => bool_decide (NoDup (Vote.origin <$> omap about_to_record (tasks d'))) && check_exclusive d' steps end
      | None => true
      end
  end.

Lemma check_exclusive_sound d steps : check_exclusive d steps = true -> exclusive d steps.
Proof.
  revert d. induction steps as [|st steps IH]; intros d; cbn [check_exclusive exclusive]; [done|]. destruct (run_step d st) as [d'|]; [|done].
  unfold step_exclusive. destruct st; try done; intros [Hn%bool_decide_eq_true Hr]%andb_true_iff; (split; [by split|by apply IH]).
Qed.

Lemma task_ok_mono votes vs vs' task : vs ⊆ vs' -> task_ok votes vs task -> task_ok votes vs' task.
Proof. unfold task_ok. intros Hs. destruct (Dispatcher.job task) as [|[[]|]| | |]; auto. Qed.

Lemma recorded_origin votes header v rec : decide_vote config sign (votes !! Header.author header) header = Ok (v, rec) -> Vote.origin v = Header.author header.
Proof. by intros [-> _]%decide_vote_Ok. Qed.

Lemma task_ok_recorded votes vs v task :
  (forall w, about_to_record task = Some w -> Vote.origin w <> Vote.origin v) ->
  task_ok votes vs task -> task_ok (VoteDigestStore.write_vote votes v) vs task.
Proof.
  unfold task_ok, about_to_record. destruct (Dispatcher.job task) as [|[[]|w]| | |]; auto. intros Hne (header & Hd). exists header.
  unfold VoteDigestStore.write_vote, MemTable.insert. rewrite lookup_insert_ne; [done|]. rewrite <-(recorded_origin _ _ _ _ Hd). intros Heq. by apply (Hne w).
Qed.

Lemma consistent_digests h h' vs : vote_digests h' = vote_digests h -> consistent h vs -> consistent h' vs.
Proof. intros Hd [Hr Hc]. split; [by rewrite Hd|done]. Qed.

Lemma pending_delete (l : list (Dispatcher.task job)) i task :
  l !! i = Some task -> omap about_to_record l ≡ₚ option_list (about_to_record task) ++ omap about_to_record (delete i l).
Proof. intros Hi. rewrite (delete_Permutation _ _ _ Hi) at 1. cbn [omap list_omap]. by destruct (about_to_record task). Qed.

Lemma pending_NoDup (l : list (Dispatcher.task job)) i task :
  l !! i = Some task -> NoDup (Vote.origin <$> omap about_to_record l) ->
  NoDup (Vote.origin <$> omap about_to_record (delete i l)) /\
  forall v w, about_to_record task = Some v -> w ∈ omap about_to_record (delete i l) -> Vote.origin w <> Vote.origin v.
Proof.
  intros Hi Hnd. rewrite (pending_delete _ _ _ Hi), fmap_app in Hnd. apply NoDup_app in Hnd as (_ & Hdis & Hnd). split; [done|].
  intros v w Hv Hw Heq. rewrite Hv in Hdis. apply (Hdis (Vote.origin v)); [by left|]. rewrite <-Heq. by apply list_elem_of_fmap_2.
Qed.

(** A task ends without a new vote. *)
Lemma votes_finish vs d i task s ch r :
  votes_inv vs d -> tasks d !! i = Some task -> vote_digests s = vote_digests (state d) -> (forall v, r = Some (VoteResponse v) -> v ∈ vs) ->
  votes_inv vs (finish d i s ch r).
Proof.
  intros [Hc Hr Ht He] Hi Hs Hv. destruct (pending_NoDup _ _ _ Hi He) as [He' _]. unfold finish.
  destruct ch as [ch|]; [destruct r as [r|]|]; (split; cbn [state responses tasks]; [by eapply consistent_digests| |rewrite Hs; by apply Forall_delete|done]); [|done..].
  intros ch' v [Hin|[= -> <-]%list_elem_of_singleton]%elem_of_app; [by eapply Hr|by apply Hv].
Qed.

(** A task goes on with a vote it has decided on. *)
Lemma votes_goes vs d i task h dec :
  votes_inv vs d -> tasks d !! i = Some task -> vote_digests h = vote_digests (state d) -> consistent h vs ->
  (forall v, dec = Record_vote v -> exists header, decide_vote config sign (vote_digests h !! Header.author header) header = Ok (v, true)) ->
  (forall v, dec = Answer (VoteResponse v) -> exists header, decide_vote config sign (vote_digests h !! Header.author header) header = Ok (v, false)) ->
  let d' := mk h (running d) (<[i := mk_task (RecordVote dec) (channel task)]> (tasks d)) (responses d) (cancelled d) (dropped d) in
  NoDup (Vote.origin <$> omap about_to_record (tasks d')) -> exists vs', votes_inv vs' d'.
Proof.
  intros [Hc Hr Ht He] Hi Hs Hc' Hrec Hans d' Hnd.
  assert (exists vs', vs ⊆ vs' /\ consistent h vs' /\ task_ok (vote_digests h) vs' (mk_task (RecordVote dec) (channel task))) as (vs' & Hsub & Hc2 & Hok).
  { destruct dec as [[v| | | |]|v]; [|exists vs; by split_and!..|exists vs; split_and!; [done|done|by apply Hrec]].
    destruct (Hans v eq_refl) as (header & Hd). exists (vs ++ [v]). split_and!; [set_solver|by apply (consistent_vote config sign h vs header v false)|]. cbn. set_solver. }
  exists vs'. split; [done|intros ch v Hin; by eapply Hsub, Hr| |done]. cbn [state tasks d']. apply Forall_insert; [|done]. rewrite Hs.
  eapply Forall_impl; [exact Ht|]. intros x. by apply task_ok_mono.
Qed.

(** A task records its vote and answers with it. *)
Lemma votes_record vs d i task v ch :
  votes_inv vs d -> tasks d !! i = Some task -> Dispatcher.job task = RecordVote (Record_vote v) ->
  exists vs', votes_inv vs' (finish d i (set_votes (state d) (VoteDigestStore.write_vote (vote_digests (state d)) v)) ch (Some (VoteResponse v))).
Proof.
  intros [Hc Hr Ht He] Hi Hj. pose proof (Forall_lookup_1 _ _ _ _ Ht Hi) as Hok. unfold task_ok in Hok. rewrite Hj in Hok. destruct Hok as (header & Hd).
  destruct (pending_NoDup _ _ _ Hi He) as [He' Hne]. exists (vs ++ [v]). pose proof (consistent_vote config sign _ _ _ _ _ Hc Hd) as Hc'. cbn [consistent] in Hc'.
  assert (Forall (task_ok (VoteDigestStore.write_vote (vote_digests (state d)) v) (vs ++ [v])) (delete i (tasks d))) as Ht'.
  { apply Forall_forall. intros x Hx. pose proof (proj1 (Forall_forall _ _) Ht x (list_elem_of_delete_inv _ _ _ Hx)) as Hox.
    apply (task_ok_mono _ vs); [set_solver|]. apply task_ok_recorded; [|done]. intros w Hw. apply (Hne v w); [unfold about_to_record; by rewrite Hj|].
    apply list_elem_of_omap. by exists x. }
  unfold finish. destruct ch as [ch|]; (split; cbn [state responses tasks]; [done| |done|done]); intros ch' w.
  - intros [Hin|[= -> <-]%list_elem_of_singleton]%elem_of_app; [apply elem_of_app; left; by eapply Hr|set_solver].
  - intros Hin. apply elem_of_app. left. by eapply Hr.
Qed.

Lemma gossip_keeps gossip : keeps vote_digests (RequestHandler.process_gossip config gossip).
Proof.
  unfold RequestHandler.process_gossip. destruct gossip as [[cert|number hash]|]; [|by intros h|auto with keeps].
  apply keeps_bind; [auto with keeps|intros ?]. by apply process_peer_keeps.
Qed.

Lemma consensus_header_answer number hash h :
  exists r, RequestHandler.retrieve_consensus_header number hash h = (h, r) /\ forall v, into_response r <> Some (VoteResponse v).
Proof.
  unfold retrieve_consensus_header, get_header_by_hash, get_header_by_number, get_latest_output, mbind, action_bind.
  destruct number as [n|], hash as [hash|]; cbn.
  1, 3: destruct (consensus_numbers h !! hash) as [k|]; [destruct (consensus_blocks h !! k)|].
  7: destruct (consensus_blocks h !! n). 9: destruct (MemTable.last_record _).
  all: eexists; split; [reflexivity|]; by intros v.
Qed.

Lemma missing_certs_answer e request h v :
  into_response (CertificateCollector.retrieve_missing_certs config (store h) (time e) request) <> Some (VoteResponse v).
Proof.
  unfold CertificateCollector.retrieve_missing_certs, mbind, outcome_bind. destruct (CertificateCollector.new _ _ _); [|done..].
  by destruct (CertificateCollector.collect _ _ _ _).
Qed.

Lemma votes_turn vs d i e d' :
  votes_inv vs d -> run_step d (Turn i e) = Some d' -> NoDup (Vote.origin <$> omap about_to_record (tasks d')) -> exists vs', votes_inv vs' d'.
Proof.
  intros Hd. cbn [run_step]. intros (task & Hi & Hs)%bind_Some Hnd. change (advance e) with (advance_job config default_header sign e) in Hs.
  pose proof (vi_consistent _ _ Hd) as Hc. destruct (Dispatcher.job task) as [peer header parents|dec|request|number hash|gossip] eqn:Hj; cbn [advance_job] in Hs.
  - unfold process_vote_request in Hs. pose proof (vote_decision_keeps config default_header sign (request_env e) peer header parents (state d)) as Hk.
    destruct (vote_decision _ _ _ _ _ _ _ (state d)) as [h [dec|er| |]] eqn:Hv; cbn [fst] in Hk; [| | |done]; injection Hs as <-.
    + eapply votes_goes; [done|done|done|by eapply consistent_digests| | |done]; intros v ->;
        destruct (vote_decision_inv _ _ _ _ _ _ _ _ _ _ _ Hv eq_refl) as (_ & [] & Hx & Hdv); by try (exists header).
    + exists vs. by eapply votes_finish.
    + exists vs. by eapply votes_finish.
  - destruct dec as [r|v]; cbn in Hs; injection Hs as <-.
    + exists vs. eapply votes_finish; [done|done|done|]. intros v [= ->]. pose proof (Forall_lookup_1 _ _ _ _ (vi_tasks _ _ Hd) Hi) as Hok.
      unfold task_ok in Hok. by rewrite Hj in Hok.
    + by eapply votes_record.
  - injection Hs as <-. exists vs. eapply votes_finish; [done|done|done|]. intros v Hr. by apply missing_certs_answer in Hr.
  - unfold process_consensus_output_request in Hs. destruct (consensus_header_answer number hash (state d)) as (r & Hq & Hr). rewrite Hq in Hs. injection Hs as <-.
    exists vs. eapply votes_finish; [done|done|done|]. intros v Hv. by apply Hr in Hv.
  - unfold process_gossip in Hs. pose proof (gossip_keeps gossip (state d)) as Hk. destruct (RequestHandler.process_gossip config gossip (state d)) as [h r].
    injection Hs as <-. exists vs. by eapply votes_finish.
Qed.

Lemma votes_step vs d st d' : votes_inv vs d -> run_step d st = Some d' -> from_network st -> step_exclusive d st d' -> exists vs', votes_inv vs' d'.
Proof.
  intros Hd Hs Hnet [Hnd Hst]. destruct st as [j och|i e|i| |h]; [| by eapply votes_turn|..]; exists vs; destruct Hd as [Hc Hr Ht He]; cbn [run_step] in Hs.
  - destruct (running d); [|done]. injection Hs as <-. split; [done|done| |done]. apply Forall_app. split; [done|]. apply Forall_singleton.
    destruct Hnet as [[peer [] ch|gossip] [= -> _]]; done.
  - apply bind_Some in Hs as (task & Hi & (ch & _ & [= <-])%bind_Some). split; [done|done|by apply Forall_delete|done].
  - injection Hs as <-. by split.
  - injection Hs as <-. split; cbn [state tasks responses]; [by eapply consistent_digests|done|by rewrite Hst|done].
Qed.

(** C9: The tasks of a primary never send conflicting votes as long as no two of them are about
    to record a vote for the same author at the same time: for one author and round all the
    votes that were sent are for the same header, whatever else the tasks do, whichever are
    cancelled and whatever the rest of the node changes.  Nothing in the code enforces this
    exclusion. *)
Theorem exclusive_votes_agree h steps d ch ch' v w :
  run (new h) steps = Some d -> Forall from_network steps -> exclusive (new h) steps -> (ch, VoteResponse v) ∈ responses d -> (ch', VoteResponse w) ∈ responses d ->
  Vote.origin v = Vote.origin w -> Vote.round v = Vote.round w -> Vote.digest v = Vote.digest w.
Proof.
  intros Hrun Hnet Hex. enough (exists vs, votes_inv vs d) as (vs & [[_ Hc] Hr _ _]) by (intros Hv%Hr Hw%Hr; by apply Hc).
  assert (exists vs, votes_inv vs (new h)) as [vs Hinv].
  { exists []. split; [split; [by intros ? ?%elem_of_nil|by intros ? ? ?%elem_of_nil]|by intros ? ? ?%elem_of_nil|constructor|constructor]. }
  clear ch ch' v w. revert Hrun Hex Hinv. generalize (new (Job := job) (Res := PrimaryResponse) h) as d0. intros d0. revert d0 vs. induction Hnet as [|st steps Hst _ IH]; intros d0 vs; cbn [run exclusive].
  - intros [= <-] _ Hinv. by exists vs.
  - intros (d1 & Hs & Hr)%bind_Some. rewrite Hs. intros [Hse Hex] Hinv. destruct (votes_step vs d0 st d1 Hinv Hs Hst Hse) as [vs' Hinv']. by eapply IH.
Qed.

(** What the handler of a request gives when it runs at once. *)
Definition respond (e : env) (peer : N) (r : PrimaryRequest) : action RequestHandler.t PrimaryNetworkError PrimaryResponse :=
  match r with
  | VoteRequest header parents => vote config default_header sign (request_env e) peer header parents
  | MissingCertificates inner => fun h => (h, CertificateCollector.retrieve_missing_certs config (store h) (time e) inner)
  | ConsensusHeaderRequest number hash => retrieve_consensus_header number hash
  end.

(** The request came from the peer with the channel. *)
Definition requested (steps : list (Dispatcher.step RequestHandler.t job env)) (peer : N) (r : PrimaryRequest) (ch : N) : Prop :=
  let '(j, channel) := process_network_event (Request peer r ch) in Received j channel ∈ steps.

Lemma received_requested steps ch j :
  Forall from_network steps -> (ch, j) ∈ received steps ->
  exists peer r, requested steps peer r ch /\ process_network_event (Request peer r ch) = (j, Some ch).
Proof.
  intros Hnet (st & Hj & Hst)%list_elem_of_bind. pose proof (proj1 (Forall_forall _ _) Hnet st Hst) as Hfrom.
  destruct st as [j0 [ch0|]| | | |]; try by apply elem_of_nil in Hj. apply list_elem_of_singleton in Hj as [= <- <-].
  destruct Hfrom as [[peer r ch1|gossip] Heq]; [|done]. assert (ch1 = ch) as -> by (destruct r; by injection Heq).
  exists peer, r. unfold requested. by rewrite <-Heq.
Qed.

(** The second turn of a vote request does not depend on the state that it meets. *)
Lemma record_produces seen dec h r : produces seen (RecordVote dec) r -> into_response (vote_record dec h).2 = r.
Proof. inversion 1 as [e j s s' r' _ Ha|e j s s' j' r' _ Ha]; subst; by destruct dec; injection Ha. Qed.

Lemma produces_respond seen peer request ch j r :
  process_network_event (Request peer request ch) = (j, Some ch) -> produces seen j r ->
  exists e h, h ∈ seen /\ into_response (respond e peer request h).2 = r.
Proof.
  intros Hev Hp. destruct request as [header parents|inner|number hash]; injection Hev as <-;
    inversion Hp as [e j s s' r' Hs Ha|e j s s' j' r' Hs Ha Hp']; subst; change (advance e) with (advance_job config default_header sign e) in Ha; cbn [advance_job] in Ha.
  - exists e, s. split; [done|]. cbn [respond]. unfold vote, mbind, action_bind. unfold process_vote_request in Ha.
    destruct (vote_decision _ _ _ _ _ _ _ s) as [h' [dec|er| |]]; by simplify_eq/=.
  - exists e, s. split; [done|]. cbn [respond]. unfold vote, mbind, action_bind. unfold process_vote_request in Ha.
    destruct (vote_decision _ _ _ _ _ _ _ s) as [h' [dec|er| |]]; simplify_eq/=. by eapply record_produces.
  - exists e, s. split; [done|]. cbn [respond snd]. by injection Ha.
  - done.
  - exists e, s. split; [done|]. cbn [respond]. unfold process_consensus_output_request in Ha. destruct (retrieve_consensus_header number hash s). by injection Ha.
  - unfold process_consensus_output_request in Ha. by destruct (retrieve_consensus_header number hash s).
Qed.

(** A vote that is sent answers a vote request that came with its channel, for a header
    that was fully checked when the vote was decided. *)
Lemma sent_vote_checked h steps d ch v :
  run (new h) steps = Some d -> Forall from_network steps -> (ch, VoteResponse v) ∈ responses d ->
  exists peer header parents e h', requested steps peer (VoteRequest header parents) ch /\
    vote_checked config (fun ps => check_parents config header ps = Ok ()) e peer header h' /\ v = new_vote config sign header.
Proof.
  intros Hrun Hnet Hv. destruct (accounted_run h steps d Hrun) as [_ _ _ Hr _]. destruct (Hr ch _ Hv) as (j & Hj & Hp).
  destruct (received_requested _ _ _ Hnet Hj) as (peer & request & Hreq & Hev). destruct (produces_respond _ _ _ _ _ _ Hev Hp) as (e & s & _ & Hs).
  destruct request as [header parents|inner|number hash]; cbn [respond] in Hs; [|exfalso..].
  - destruct (vote _ _ _ _ _ _ _ s) as [h' [r| | |]] eqn:Hvote; try done. injection Hs as ->.
    apply vote_inv in Hvote as (h1 & rec & Hc & _ & _ & [-> _]%decide_vote_Ok). by eexists peer, header, parents, _, _.
  - by apply missing_certs_answer in Hs.
  - destruct (consensus_header_answer number hash s) as (r & Hq & Hn). rewrite Hq in Hs. by apply Hn in Hs.
Qed.



End votes.
End PrimaryFacts.

(** * Answers as their callers read them *)

Module HandleFacts.
Import PrimaryNetworkHandle RequestHandler.

Section handles.
Context `{NetworkKeys} `{Crypto} `{RoaringBitmap}.

(** What a peer reads of the response that this node sends; a task that panics sends none. *)
Definition sent (r : outcome PrimaryNetworkError PrimaryResponse) : attempt := from_option Replied ReplyDropped (into_response r).

(** A peer that asks for a consensus header by its number gets the one this node has saved
    under it, and an error when there is none. *)
Lemma consensus_header_served h number :
  request_consensus_from_peer (sent (retrieve_consensus_header (Some number) None h).2) =
    match consensus_blocks h !! number with Some header => Ok header | None => Err (RPCError (Some InvalidRequest)) end.
Proof. unfold retrieve_consensus_header, get_header_by_number, mbind, action_bind. cbn. by destruct (consensus_blocks h !! number). Qed.

(** A peer that fetches certificates gets those the collector found. *)
Lemma certificates_served config store time request certs :
  fetch_certificates (sent (CertificateCollector.retrieve_missing_certs config store time request)) = Ok certs <->
  CertificateCollector.retrieve_missing_certs config store time request = Ok (RequestedCertificates certs).
Proof.
  unfold CertificateCollector.retrieve_missing_certs. destruct (CertificateCollector.new config store request) as [c| | |]; cbn; [|done..].
  destruct (CertificateCollector.collect _ _ _ _) as [l| | |]; cbn; [|done..]. split; congruence.
Qed.

(** Asking any peer succeeds with the first header among the first three answers, unless
    the network is lost before it. *)
Lemma request_consensus_first attempts header :
  request_consensus attempts = Ok header <->
  exists before after, attempts = before ++ Replied (ConsensusHeaderResponse header) :: after /\ (length before < 3)%nat /\
    Forall (fun a => a = RequestFailed \/ exists r, a = Replied r /\ forall header, r <> ConsensusHeaderResponse header) before.
Proof.
  unfold request_consensus. generalize 3%nat as n. intros n. revert attempts. induction n as [|n IH]; intros attempts; cbn [request_loop].
  { split; [by destruct attempts|]. intros (before & after & _ & Hlt & _). lia. }
  destruct attempts as [|a attempts]; [split; [done|]; by intros ([|? ?] & after & [=] & _)|].
  assert (forall P : Prop, (a = RequestFailed \/ exists r, a = Replied r /\ forall header, r <> ConsensusHeaderResponse header) ->
    (request_loop n attempts = Ok header <-> P) -> P <-> exists before after, a :: attempts = before ++ Replied (ConsensusHeaderResponse header) :: after /\
      (length before < S n)%nat /\ Forall (fun a => a = RequestFailed \/ exists r, a = Replied r /\ forall header, r <> ConsensusHeaderResponse header) before) as Hskip.
  { intros P Ha HP. rewrite <-HP, IH. split.
    - intros (before & after & -> & Hlt & Hf). exists (a :: before), after. split_and!; [done|cbn; lia|by constructor].
    - intros ([|a' before] & after & [= -> Heq] & Hlt & Hf); [destruct Ha as [?|(r & [= <-] & Hr)]; [done|by destruct (Hr header)]|].
      exists before, after. apply Forall_cons in Hf as [_ Hf]. split_and!; [done|cbn in Hlt; lia|done]. }
  destruct a as [| | |r]; [split; [done|]; intros ([|a' before] & after & [= <- _] & _ & Hf); by apply Forall_cons in Hf as [[?|(? & ? & _)] _]..| |].
  - apply Hskip; [by left|done].
  - destruct r as [v|cs|ps|h|e]; try (apply Hskip; [right; by eexists|done]). split.
    + intros [= <-]. exists [], attempts. split_and!; [done|cbn; lia|constructor].
    + intros ([|a' before] & after & [= <- Heq] & _ & Hf); [done|].
      apply Forall_cons in Hf as [[?|(r & [= <-] & Hr)] _]; [done|by destruct (Hr h)].
Qed.

End handles.

(** A batch of a peer that a worker reports reaches the payload store once the primary has
    registered; a report before that is lost without an error. *)
Lemma report_reaches_store l ack digest id h :
  let l' := LocalNetwork.set_worker_to_primary_local_handler l (WorkerReceiverHandler.client ack) in
  (LocalNetwork.report_others_batch l' digest id h).2 = Ok () /\
  PayloadStore.contains_payload (WorkerReceiverHandler.payload_store (LocalNetwork.report_others_batch l' digest id h).1) digest id = true.
Proof.
  split; [done|]. apply contains_payload_spec. exists 0. cbn. unfold PayloadStore.write_payload, MemTable.insert. apply lookup_insert_eq.
Qed.

Lemma early_report_lost digest id timestamp (h : WorkerReceiverHandler.t) :
  LocalNetwork.report_own_batch (E := WorkerReceiverHandler.ReportError) LocalNetwork.new digest id timestamp h = (h, Ok ()).
Proof. done. Qed.

End HandleFacts.

(** * Batches of peers *)

Module WorkerFacts.
Import Dispatcher DispatcherFacts WorkerNetwork.

Section reports.
Context `{BatchHash} `{ExecutionLayer} (id : WorkerId).
#[local] Instance handler : Handler WorkerNetwork.t job WorkerResponse env := worker_handler id.
Implicit Types (d : Dispatcher.t WorkerNetwork.t job WorkerResponse) (st : Dispatcher.step WorkerNetwork.t job env)
  (w : WorkerNetwork.t) (sb : SealedBatch.t) (rs : list (N * job)).

(** The worker has the batch, up to the time it was received, and the primary knows of it. *)
Definition holds_batch w sb : Prop :=
  Worker.batches (worker w) !! SealedBatch.digest sb = Some (Batch.decoded (SealedBatch.batch sb)) /\
  is_Some (Worker.payload (worker w) !! (SealedBatch.digest sb, id)).

(** From one state to the other no batch is lost or replaced, and each is still found under
    the digest of its content. *)
Definition keeps_batches w w' : Prop :=
  (content (Worker.batches (worker w)) -> content (Worker.batches (worker w')) /\ Worker.batches (worker w) ⊆ Worker.batches (worker w')) /\
  dom (Worker.payload (worker w)) ⊆ dom (Worker.payload (worker w')).

Lemma keeps_holds w w' sb : content (Worker.batches (worker w)) -> keeps_batches w w' -> holds_batch w sb -> holds_batch w' sb.
Proof.
  intros Hc [Hb Hp] [H1' H2']. destruct (Hb Hc) as [_ Hsub]. split; [by eapply lookup_weaken|]. apply elem_of_dom, Hp. by apply elem_of_dom.
Qed.

Context (Hinj : Inj (=) (=) hash_batch).

Lemma validated_digest sb u : BatchValidator.validate_batch sb = Ok u -> SealedBatch.digest sb = BatchOps.digest (SealedBatch.batch sb).
Proof. destruct sb as [b d]. unfold BatchValidator.validate_batch. cbn. by destruct (N.eqb_spec d (BatchOps.digest b)). Qed.

(** Storing a batch under its digest replaces nothing. *)
Lemma store_batch_keeps bs b : content bs -> content (Worker.store_batch bs (BatchOps.digest b) b) /\ bs ⊆ Worker.store_batch bs (BatchOps.digest b) b.
Proof.
  intros Hc. split; [by apply content_store|]. unfold Worker.store_batch, MemTable.insert. apply map_subseteq_spec. intros d b' Hb'.
  destruct (decide (BatchOps.digest b = d)) as [<-|Hne]; [|by rewrite lookup_insert_ne]. rewrite lookup_insert_eq. destruct (Hc _ _ Hb') as [Hd Hr].
  apply Hinj in Hd. destruct b, b'. unfold Batch.decoded. by simplify_eq/=.
Qed.

Lemma advance_keeps e j w : keeps_batches w (advance_job id e j w).1.
Proof.
  destruct j as [sb|ds|source gossip]; cbn [advance_job].
  - unfold process_report_batch, Worker.process_report_batch. destruct (BatchValidator.validate_batch sb) eqn:Hv; cbn; [|done..].
    apply validated_digest in Hv. destruct sb as [b digest]. cbn in *. subst digest. split; [|apply dom_insert_subseteq].
    rewrite <-(digest_received b (now e)). by apply store_batch_keeps.
  - done.
  - unfold process_gossip, Worker.process_gossip. destruct gossip as [[hash]|]; [|done]. destruct (MemTable.get _ _); [done|].
    destruct (answer e hash) as [[|b l]|]; [done| |done]. split; [by apply store_batch_keeps|done].
Qed.

(** A batch is acknowledged only when it is valid and held. *)
Lemma acknowledged sb e w w' r :
  advance_job id e (ProcessReport sb) w = (w', Ends (Some r)) ->
  r = ReportBatchResponse -> BatchValidator.validate_batch sb = Ok () /\ holds_batch w' sb.
Proof.
  cbn [advance_job]. unfold process_report_batch, Worker.process_report_batch. destruct (BatchValidator.validate_batch sb) as [[]| | |] eqn:Hv; cbn; [|by intros [= _ <-]..].
  destruct sb as [b digest]. cbn. intros [= <- <-] _. split; [done|]. unfold holds_batch. cbn. unfold Worker.store_batch, MemTable.insert, PayloadStore.write_payload.
  unfold MemTable.insert. rewrite !lookup_insert_eq. split; [done|by eexists].
Qed.

(** The rest of the worker does not lose or replace batches. *)
Fixpoint keeping d (steps : list (Dispatcher.step WorkerNetwork.t job env)) : Prop :=
  match steps with
  | [] => True
  | st :: steps =>
      match st with Elsewhere w => keeps_batches (state d) w | _ => True end /\
      match run_step d st with Some d' => keeping d' steps | None => True end
  end.

Lemma keeping_alone d steps : Forall (fun st => match st with Elsewhere _ => False | _ => True end) steps -> keeping d steps.
Proof.
  intros Hst. revert d. induction Hst as [|st steps Hs _ IH]; intros d; cbn [keeping]; [done|]. split; [by destruct st|].
  destruct (run_step d st); [apply IH|done].
Qed.

Record reports_inv rs d : Prop := {
  ri_content : content (Worker.batches (worker (state d)));
  ri_tasks task ch : task ∈ tasks d -> channel task = Some ch -> (ch, Dispatcher.job task) ∈ rs;
  ri_acks ch : (ch, ReportBatchResponse) ∈ responses d ->
    exists sb, (ch, ProcessReport sb) ∈ rs /\ BatchValidator.validate_batch sb = Ok () /\ holds_batch (state d) sb;
}.

Lemma reports_mono rs rs' w w' (rsp : list (N * WorkerResponse)) :
  rs ⊆ rs' -> content (Worker.batches (worker w)) -> keeps_batches w w' ->
  (forall ch, (ch, ReportBatchResponse) ∈ rsp -> exists sb, (ch, ProcessReport sb) ∈ rs /\ BatchValidator.validate_batch sb = Ok () /\ holds_batch w sb) ->
  forall ch, (ch, ReportBatchResponse) ∈ rsp -> exists sb, (ch, ProcessReport sb) ∈ rs' /\ BatchValidator.validate_batch sb = Ok () /\ holds_batch w' sb.
Proof. intros Hs Hc Hk Hr ch (sb & Hin & Hv & Hh)%Hr. exists sb. split_and!; [by apply Hs|done|by eapply keeps_holds]. Qed.

Lemma reports_turn rs d i e d' : reports_inv rs d -> run_step d (Turn i e) = Some d' -> reports_inv rs d'.
Proof.
  intros [Hc Ht Hr]. cbn [run_step]. intros (task & Hi & Hs)%bind_Some. change (advance e) with (advance_job id e) in Hs.
  pose proof (list_elem_of_lookup_2 _ _ _ Hi) as Hin. pose proof (advance_keeps e (Dispatcher.job task) (state d)) as Hk.
  destruct (advance_job id e (Dispatcher.job task) (state d)) as [w [|j|r]] eqn:Ha; cbn [fst] in Hk; [done| |].
  { exfalso. destruct (Dispatcher.job task) as [sb| |source gossip]; cbn [advance_job] in Ha; [| done|];
      [unfold process_report_batch in Ha; by destruct (Worker.process_report_batch _ _ _ _)|unfold process_gossip in Ha; by destruct (Worker.process_gossip _ _ _)]. }
  injection Hs as <-. pose proof (reports_mono rs rs _ _ _ ltac:(done) Hc Hk Hr) as Hr'. destruct (proj1 Hk Hc) as [Hc' _]. unfold finish.
  destruct (channel task) as [ch|] eqn:Hch; [destruct r as [r|]|];
    (split; cbn [tasks responses state]; [done|intros task' ch' Hin'%list_elem_of_delete_inv; by apply Ht|]); [|done..].
  intros ch' [Hin'|[= -> <-]%list_elem_of_singleton]%elem_of_app; [by apply Hr'|]. pose proof (Ht _ _ Hin Hch) as Hj.
  destruct (Dispatcher.job task) as [sb| |source gossip]; cbn [advance_job] in Ha; [|done|unfold process_gossip in Ha; by destruct (Worker.process_gossip _ _ _)].
  exists sb. split; [done|]. by eapply acknowledged.
Qed.

Lemma reports_step rs d st d' :
  reports_inv rs d -> run_step d st = Some d' -> match st with Elsewhere w => keeps_batches (state d) w | _ => True end ->
  reports_inv (rs ++ step_received st) d'.
Proof.
  intros Hd Hs Hst. destruct st as [j och|i e|i| |w]; cbn [step_received]; rewrite ?app_nil_r; [|by eapply reports_turn| | |]; destruct Hd as [Hc Ht Hr]; cbn [run_step] in Hs.
  - destruct (running d); [|done]. injection Hs as <-. split; cbn [spawn tasks responses state]; [done|..].
    + intros task ch [Hin| ->%list_elem_of_singleton]%elem_of_app Hch; [by apply elem_of_app; left; apply Ht|].
      cbn [channel Dispatcher.job] in *. subst och. apply elem_of_app. right. by left.
    + eapply (reports_mono rs _ (state d)); [set_solver|done|done|exact Hr].
  - apply bind_Some in Hs as (task & Hi & (ch & _ & [= <-])%bind_Some). split; [done|intros task' ch' Hin%list_elem_of_delete_inv; by apply Ht|done].
  - injection Hs as <-. by split.
  - injection Hs as <-. split; cbn [tasks responses state]; [by apply Hst|done|]. by eapply reports_mono.
Qed.


End reports.
End WorkerFacts.

(** * Evaluation *)

Section witnesses.
Import Dispatcher.
#[local] Existing Instances demo_keys full_crypto demo_bitmap demo_batch_hash demo_execution.

(** A run that succeeds, without evaluating the state it ends in. *)
Lemma run_succeeds {A} (o : option A) x : bool_decide (is_Some o) = true -> o = Some (default x o).
Proof. intros [y ->]%bool_decide_eq_true. done. Qed.

Definition racing_requests (turns : list (Dispatcher.step RequestHandler.t PrimaryNetwork.job PrimaryNetwork.env))
    : list (Dispatcher.step RequestHandler.t PrimaryNetwork.job PrimaryNetwork.env) :=
  [Received (PrimaryNetwork.Vote 2 demo_proposal []) (Some 1); Received (PrimaryNetwork.Vote 2 other_proposal []) (Some 2);
   Received (PrimaryNetwork.ConsensusOutput None None) (Some 3)] ++ turns.

Definition demo_turn (i : nat) : Dispatcher.step RequestHandler.t PrimaryNetwork.job PrimaryNetwork.env := Turn i (PrimaryNetwork.mk_env demo_env 0).

#[local] Instance voter_handler : Handler RequestHandler.t PrimaryNetwork.job PrimaryResponse PrimaryNetwork.env :=
  PrimaryNetwork.primary_handler (voter_config 1) demo_sealed (fun d => d).

Definition dispatched (turns : list (Dispatcher.step RequestHandler.t PrimaryNetwork.job PrimaryNetwork.env)) : Dispatcher.t RequestHandler.t PrimaryNetwork.job PrimaryResponse :=
  default (new demo_handler) (run (new demo_handler) (racing_requests turns)).

(** Two requests one after the other: the second is refused, and a third is cancelled. *)
Definition in_turn : list (Dispatcher.step RequestHandler.t PrimaryNetwork.job PrimaryNetwork.env) := [demo_turn 0; demo_turn 0; demo_turn 0; Cancelled 0].

(** The two requests at the same time: both are granted a vote. *)
Definition at_once : list (Dispatcher.step RequestHandler.t PrimaryNetwork.job PrimaryNetwork.env) := [demo_turn 0; demo_turn 1; demo_turn 0; demo_turn 0].

Lemma racing_from_network : Forall PrimaryFacts.from_network (racing_requests in_turn).
Proof.
  unfold racing_requests, in_turn. cbn [app]. repeat apply Forall_cons_2; [| | |exact I..|apply Forall_nil_2].
  - exists (PrimaryNetwork.Request 2 (PrimaryNetwork.VoteRequest demo_proposal []) 1). reflexivity.
  - exists (PrimaryNetwork.Request 2 (PrimaryNetwork.VoteRequest other_proposal []) 2). reflexivity.
  - exists (PrimaryNetwork.Request 2 (PrimaryNetwork.ConsensusHeaderRequest None None) 3). reflexivity.
Qed.


Definition demo_new_vote (header : Header.t) : Vote.t := RequestHandler.new_vote (voter_config 1) (fun d => d) header.

Lemma exclusive_votes_agree_witness :
  responses (dispatched in_turn) = [(1, VoteResponse (demo_new_vote demo_proposal));
    (2, ErrorResponse (InvalidHeader (AlreadyVoted (HeaderOps.digest other_proposal) 1)))] /\
  Vote.digest (demo_new_vote demo_proposal) = Vote.digest (demo_new_vote demo_proposal).
Proof.
  assert (responses (dispatched in_turn) = [(1, VoteResponse (demo_new_vote demo_proposal));
    (2, ErrorResponse (InvalidHeader (AlreadyVoted (HeaderOps.digest other_proposal) 1)))]) as Hr by (vm_compute; reflexivity).
  split; [exact Hr|]. apply (PrimaryFacts.exclusive_votes_agree (voter_config 1) demo_sealed (fun d => d) demo_handler (racing_requests in_turn) (dispatched in_turn) 1 1).
  - vm_compute. reflexivity.
  - exact racing_from_network.
  - apply PrimaryFacts.check_exclusive_sound. vm_compute. reflexivity.
  - rewrite Hr. by left.
  - rewrite Hr. by left.
  - done.
  - done.
Defined.

(** Without the exclusion the node sends two votes for different headers of one author and
    round, each in answer to a request of that author. *)
Lemma racing_requests_conflict :
  exists v w, responses (dispatched at_once) = [(1, VoteResponse v); (2, VoteResponse w)] /\
    Vote.origin v = Vote.origin w /\ Vote.round v = Vote.round w /\ Vote.digest v <> Vote.digest w.
Proof. exists (demo_new_vote demo_proposal), (demo_new_vote other_proposal). split; [vm_compute; reflexivity|]. split_and!; [done..|by vm_compute]. Qed.

Definition reported : list (Dispatcher.step WorkerNetwork.t WorkerNetwork.job WorkerNetwork.env) :=
  [Received (WorkerNetwork.ProcessReport (BatchOps.seal_slow demo_batch)) (Some 1); Received (WorkerNetwork.ProcessGossip (Some 4) None) None;
   Turn 0 (WorkerNetwork.mk_env 200 (fun _ => None)); Turn 0 (WorkerNetwork.mk_env 200 (fun _ => None))].
Definition idle_worker : WorkerNetwork.t := WorkerNetwork.mk (holding []) [].
#[local] Instance demo_worker_handler : Handler WorkerNetwork.t WorkerNetwork.job WorkerResponse WorkerNetwork.env := WorkerNetwork.worker_handler 0.
Definition after_report : Dispatcher.t WorkerNetwork.t WorkerNetwork.job WorkerResponse := default (new idle_worker) (run (new idle_worker) reported).


End witnesses.
