(* ===== verification/Channels.v ===== *)
(** The channels the tasks of a node are connected with.
    Models crates/types/src/sync.rs (the sending and receiving halves of broadcast and of
    multi-producer channels) and crates/consensus/consensus-metrics/src/metered_channel.rs
    (channels with a gauge of what is queued).  The channels of tokio are parameters of the
    model: the classes [Mpsc] and [Broadcast] state what its documentation promises of them. *)

From S2P Require Import Prelude Storage Committee Certificate CertStore Output ConsensusState Worker WorkerSafety ConsensusChain ChainSafety Demo.

Inductive TryRecvError := RecvEmpty | RecvDisconnected | RecvLagged.

Inductive TrySendError (T : Type) :=
  | TrySendFull (v : T)
  | TrySendClosed (v : T)
  | TrySendBroadcast (v : T).
Arguments TrySendFull {T} v.
Arguments TrySendClosed {T} v.
Arguments TrySendBroadcast {T} v.

(** What a poll gives: a value or not yet. *)
Inductive poll (A : Type) := Ready (a : A) | Pending.
Arguments Ready {A} a.
Arguments Pending {A}.

Definition CHANNEL_CAPACITY : N := 10000.

(** * Channels with many senders and one receiver *)

(** The errors of tokio's [try_send] and [try_recv]. *)
Inductive mpsc_try_send_error (T : Type) := MpscFull (v : T) | MpscClosed (v : T).
Arguments MpscFull {T} v.
Arguments MpscClosed {T} v.
Inductive mpsc_try_recv_error := MpscEmpty | MpscDisconnected.

(** A bounded queue: [queued] are the values that were sent and not received, [open] tells
    whether the receiver takes further values, and [connected] whether there is a sender. *)
Class Mpsc (T : Type) := {
  mpsc : Type;
  mpsc_channel : N -> mpsc;
  mpsc_try_send : mpsc -> T -> mpsc * (unit + mpsc_try_send_error T);
  mpsc_try_recv : mpsc -> mpsc * (T + mpsc_try_recv_error);
  mpsc_close : mpsc -> mpsc;
  mpsc_drop_receiver : mpsc -> mpsc;
  queued : mpsc -> list T;
  max_capacity : mpsc -> N;
  open : mpsc -> bool;
  connected : mpsc -> bool;
}.

Class MpscLaws (T : Type) `{Mpsc T} := {
  channel_law n : 0 < n -> queued (mpsc_channel n) = [] /\ max_capacity (mpsc_channel n) = n /\ open (mpsc_channel n) = true;
  send_closed_law c v : open c = false -> mpsc_try_send c v = (c, inr (MpscClosed v));
  send_full_law c v : open c = true -> max_capacity c <= N.of_nat (length (queued c)) -> mpsc_try_send c v = (c, inr (MpscFull v));
  send_law c v : open c = true -> N.of_nat (length (queued c)) < max_capacity c ->
    exists c', mpsc_try_send c v = (c', inl ()) /\ queued c' = queued c ++ [v] /\ max_capacity c' = max_capacity c /\ open c' = true;
  recv_law c v q : queued c = v :: q ->
    exists c', mpsc_try_recv c = (c', inl v) /\ queued c' = q /\ max_capacity c' = max_capacity c /\ open c' = open c;
  recv_empty_law c : queued c = [] ->
    mpsc_try_recv c = (c, inr (if open c && connected c then MpscEmpty else MpscDisconnected));
  close_law c : queued (mpsc_close c) = queued c /\ max_capacity (mpsc_close c) = max_capacity c /\ open (mpsc_close c) = false;
  drop_receiver_law c : queued (mpsc_drop_receiver c) = [] /\ max_capacity (mpsc_drop_receiver c) = max_capacity c /\
    open (mpsc_drop_receiver c) = false;
}.

(** The halves of such a channel as [TnSender] and [TnReceiver] see them. *)
Module MpscReceiver.
Section receiver.
Context {T : Type} `{Mpsc T}.

Definition from_try_recv_error (e : mpsc_try_recv_error) : TryRecvError :=
  match e with MpscEmpty => RecvEmpty | MpscDisconnected => RecvDisconnected end.

Definition from_try_send_error (e : mpsc_try_send_error T) : TrySendError T :=
  match e with MpscFull v => TrySendFull v | MpscClosed v => TrySendClosed v end.

Definition try_recv (c : mpsc) : mpsc * (T + TryRecvError) :=
  let '(c, r) := mpsc_try_recv c in
  (c, match r with inl v => inl v | inr e => inr (from_try_recv_error e) end).

(** [recv] waits while there is nothing to receive, and ends with [None] when nothing will
    be sent any more. *)
Definition poll_recv (c : mpsc) : mpsc * poll (option T) :=
  let '(c, r) := mpsc_try_recv c in
  (c, match r with inl v => Ready (Some v) | inr MpscEmpty => Pending | inr MpscDisconnected => Ready None end).

(** [send] waits while the channel is full; the value comes back when it is closed. *)
Definition poll_send (c : mpsc) (v : T) : mpsc * poll (unit + T) :=
  let '(c, r) := mpsc_try_send c v in
  (c, match r with inl _ => Ready (inl ()) | inr (MpscFull _) => Pending | inr (MpscClosed v) => Ready (inr v) end).

End receiver.
End MpscReceiver.

(** ** Metered channels *)

Module MeteredMpscChannel.
Section metered.
Context {T : Type} `{Mpsc T}.

(** [receiver] tells whether the sender holds the receiver, for [subscribe].  A send and its
    count are two steps, between which the value may be received: [counting] are the sends
    that are not counted yet, [taking] the receptions that are not. *)
Record t := mk {
  inner : mpsc;
  gauge : Z;
  total : option N;
  receiver : bool;
  counting : nat;
  taking : nat;
}.

(** The constructors set the gauge to zero, whatever it was. *)
Definition channel (size : N) : t := mk (mpsc_channel size) 0 None false 0 0.

Definition channel_with_total (size total : N) : t := mk (mpsc_channel size) 0 (Some total) false 0 0.

Definition channel_sender (size : N) : t := mk (mpsc_channel size) 0 None true 0 0.

Definition channel_with_total_sender (size total : N) : t := mk (mpsc_channel size) 0 (Some total) true 0 0.

Definition take_receiver (s : t) : t := mk (inner s) (gauge s) (total s) false (counting s) (taking s).

(** [subscribe] takes the receiver, and panics when it is not there. *)
Definition subscribe (s : t) : outcome False t :=
  _ ← assert (receiver s);
  Ok (take_receiver s).

(** The send on the inner channel, and the closure that counts it. *)
Definition offer (v : T) (s : t) : t * poll (unit + T) :=
  let '(c, r) := MpscReceiver.poll_send (inner s) v in
  (mk c (gauge s) (total s) (receiver s) (match r with Ready (inl _) => S (counting s) | _ => counting s end) (taking s), r).

Definition count_sent (s : t) : t :=
  mk (inner s) (gauge s + 1) (total s) (receiver s) (pred (counting s)) (taking s).

(** [send] as its poll runs on one thread. *)
Definition send (v : T) (s : t) : t * poll (unit + T) :=
  let '(s, r) := offer v s in
  (match r with Ready (inl _) => count_sent s | _ => s end, r).

Definition try_send (v : T) (s : t) : t * (unit + TrySendError T) :=
  let '(c, r) := mpsc_try_send (inner s) v in
  match r with
  | inl _ => (mk c (gauge s + 1) (total s) (receiver s) (counting s) (taking s), inl ())
  | inr e => (mk c (gauge s) (total s) (receiver s) (counting s) (taking s), inr (MpscReceiver.from_try_send_error e))
  end.

(** The reception from the inner channel, and the closure that counts it. *)
Definition take (s : t) : t * poll (option T) :=
  let '(c, r) := MpscReceiver.poll_recv (inner s) in
  (mk c (gauge s) (total s) (receiver s) (counting s) (match r with Ready (Some _) => S (taking s) | _ => taking s end), r).

Definition count_taken (s : t) : t :=
  mk (inner s) (gauge s - 1) (N.succ <$> total s) (receiver s) (counting s) (pred (taking s)).

(** [recv] and [poll_recv]. *)
Definition recv (s : t) : t * poll (option T) :=
  let '(s, r) := take s in
  (match r with Ready (Some _) => count_taken s | _ => s end, r).

Definition try_recv (s : t) : t * (T + TryRecvError) :=
  let '(c, r) := MpscReceiver.try_recv (inner s) in
  let s := mk c (gauge s) (total s) (receiver s) (counting s) (S (taking s)) in
  match r with
  | inl v => (count_taken s, inl v)
  | inr e => (mk c (gauge s) (total s) (receiver s) (counting s) (pred (taking s)), inr e)
  end.

Definition close (s : t) : t :=
  mk (mpsc_close (inner s)) (gauge s) (total s) (receiver s) (counting s) (taking s).

Definition drop_receiver (s : t) : t :=
  mk (mpsc_drop_receiver (inner s)) (gauge s) (total s) (receiver s) (counting s) (taking s).

(** What the halves of a channel do, on several threads. *)
Inductive event :=
  | Offer (v : T)
  | CountSent
  | TrySend (v : T)
  | Take
  | CountTaken
  | TryRecv
  | Close
  | DropReceiver.

(** The channel with what was sent and received, and the number of values that were dropped
    with the receiver. *)
Record trace := mk_trace {
  chan : t;
  sent : list T;
  received : list T;
  lost : nat;
}.

Definition start (s : t) : trace := mk_trace s [] [] 0.

Definition step (x : trace) (e : event) : option trace :=
  match e with
  | Offer v =>
      let '(s, r) := offer v (chan x) in
      Some (mk_trace s (match r with Ready (inl _) => sent x ++ [v] | _ => sent x end) (received x) (lost x))
  | CountSent =>
      match counting (chan x) with
      | O => None
      | _ => Some (mk_trace (count_sent (chan x)) (sent x) (received x) (lost x))
      end
  | TrySend v =>
      let '(s, r) := try_send v (chan x) in
      Some (mk_trace s (match r with inl _ => sent x ++ [v] | _ => sent x end) (received x) (lost x))
  | Take =>
      let '(s, r) := take (chan x) in
      Some (mk_trace s (sent x) (match r with Ready (Some v) => received x ++ [v] | _ => received x end) (lost x))
  | CountTaken =>
      match taking (chan x) with
      | O => None
      | _ => Some (mk_trace (count_taken (chan x)) (sent x) (received x) (lost x))
      end
  | TryRecv =>
      let '(s, r) := try_recv (chan x) in
      Some (mk_trace s (sent x) (match r with inl v => received x ++ [v] | _ => received x end) (lost x))
  | Close => Some (mk_trace (close (chan x)) (sent x) (received x) (lost x))
  | DropReceiver =>
      Some (mk_trace (drop_receiver (chan x)) (sent x) (received x) (lost x + length (queued (inner (chan x)))))
  end.

Fixpoint run (x : trace) (events : list event) : option trace :=
  match events with
  | [] => Some x
  | e :: events => x ← step x e; run x events
  end.

End metered.
Arguments t T {_}.
Arguments trace T {_}.
Arguments event T : clear implicits.
End MeteredMpscChannel.

(** * Broadcast channels *)

(** What receiving from a broadcast channel gives. *)
Inductive broadcast_recv (T : Type) :=
  | BroadcastValue (v : T)
  | BroadcastLagged (n : N)
  | BroadcastClosed
  | BroadcastEmpty.
Arguments BroadcastValue {T} v.
Arguments BroadcastLagged {T} n.
Arguments BroadcastClosed {T}.
Arguments BroadcastEmpty {T}.

(** Every receiver gets every value sent after it subscribed, unless more than [retained]
    values are waiting for it: it is then told how many it lost and goes on with the oldest
    one kept.  [log] are the values sent, [position] is how many of them the receiver has
    passed; [senders] tells whether there is a sender, [receivers] how many receivers. *)
Class Broadcast (T : Type) := {
  broadcast : Type;
  broadcast_rx : Type;
  broadcast_channel : N -> broadcast;
  broadcast_send : broadcast -> T -> broadcast * (N + T);
  broadcast_subscribe : broadcast -> broadcast * broadcast_rx;
  broadcast_try_recv : broadcast -> broadcast_rx -> broadcast_rx * broadcast_recv T;
  log : broadcast -> list T;
  retained : broadcast -> N;
  receivers : broadcast -> N;
  senders : broadcast -> bool;
  position : broadcast_rx -> N;
}.

Class BroadcastLaws (T : Type) `{Broadcast T} := {
  broadcast_send_law c v : 0 < receivers c ->
    exists c', broadcast_send c v = (c', inl (receivers c)) /\ log c' = log c ++ [v] /\
      retained c' = retained c /\ receivers c' = receivers c /\ senders c' = senders c;
  broadcast_unheard_law c v : receivers c = 0 -> broadcast_send c v = (c, inr v);
  broadcast_subscribe_law c :
    exists c' rx, broadcast_subscribe c = (c', rx) /\ position rx = N.of_nat (length (log c)) /\ log c' = log c /\
      retained c' = retained c /\ receivers c' = receivers c + 1 /\ senders c' = senders c;
  broadcast_channel_law n : 0 < n -> log (broadcast_channel n) = [] /\ n <= retained (broadcast_channel n) /\
    senders (broadcast_channel n) = true;
  broadcast_lagged_law c rx : position rx + retained c < N.of_nat (length (log c)) ->
    exists rx', broadcast_try_recv c rx = (rx', BroadcastLagged (N.of_nat (length (log c)) - retained c - position rx)) /\
      position rx' = N.of_nat (length (log c)) - retained c;
  broadcast_recv_law c rx v : N.of_nat (length (log c)) <= position rx + retained c -> log c !! N.to_nat (position rx) = Some v ->
    exists rx', broadcast_try_recv c rx = (rx', BroadcastValue v) /\ position rx' = position rx + 1;
  broadcast_empty_law c rx : N.of_nat (length (log c)) <= position rx ->
    broadcast_try_recv c rx = (rx, if senders c then BroadcastEmpty else BroadcastClosed);
}.

Module BroadcastChannel.
Section broadcast.
Context {T : Type} `{Broadcast T}.

(** Sending never fails: an error of the inner channel is ignored. *)
Definition send (c : broadcast) (v : T) : broadcast * (unit + T) := ((broadcast_send c v).1, inl ()).

Definition try_send (c : broadcast) (v : T) : broadcast * (unit + TrySendError T) := ((broadcast_send c v).1, inl ()).

Definition subscribe (c : broadcast) : broadcast * broadcast_rx := broadcast_subscribe c.

(** [recv] turns every error into [None], the one of a receiver that lags included. *)
Definition recv (c : broadcast) (rx : broadcast_rx) : broadcast_rx * poll (option T) :=
  let '(rx, r) := broadcast_try_recv c rx in
  (rx, match r with
       | BroadcastValue v => Ready (Some v)
       | BroadcastLagged _ | BroadcastClosed => Ready None
       | BroadcastEmpty => Pending
       end).

Definition try_recv (c : broadcast) (rx : broadcast_rx) : broadcast_rx * (T + TryRecvError) :=
  let '(rx, r) := broadcast_try_recv c rx in
  (rx, match r with
       | BroadcastValue v => inl v
       | BroadcastLagged _ => inr RecvLagged
       | BroadcastClosed => inr RecvDisconnected
       | BroadcastEmpty => inr RecvEmpty
       end).

Definition poll_recv (c : broadcast) (rx : broadcast_rx) : outcome False (poll (option T)) := Panic.

(** Sends one value after another. *)
Fixpoint send_all (c : broadcast) (l : list T) : broadcast :=
  match l with
  | [] => c
  | v :: l => send_all (send c v).1 l
  end.

(** [while let Some(v) = rx.recv().await], as long as a value is there: the values taken and
    whether the loop ended. *)
Fixpoint drain (fuel : nat) (c : broadcast) (rx : broadcast_rx) : list T * bool :=
  match fuel with
  | O => ([], false)
  | S fuel =>
      match recv c rx with
      | (rx, Ready (Some v)) => let '(l, ended) := drain fuel c rx in (v :: l, ended)
      | (_, Ready None) => ([], true)
      | (_, Pending) => ([], false)
      end
  end.

End broadcast.
End BroadcastChannel.

(** ** The backlog of a node that catches up *)

Module CatchUp.
Section catch_up.
Context `{NetworkKeys} `{Crypto} `{ChainHash} `{BatchHash} `{!Broadcast ConsensusHeader.t}.
Context (committee : Committee.t) (gc_depth : Round) (active : bool).

(** The headers that were saved and not executed are sent to the channel of consensus
    headers. *)
Definition stream_missing_consensus (db : ConsensusDb.t) (root : option N) (c : broadcast) : broadcast :=
  BroadcastChannel.send_all c (ConsensusDb.get_missing_consensus db root).

(** The node subscribes to the channel, sends the headers it missed and then handles what it
    receives; the result is [None] while the loop waits for further headers. *)
Definition catch_up (cl : Subscriber.client) (s : Subscriber.t) (root : option N) (c : broadcast)
    : Subscriber.t * option (outcome SubscriberError bool) :=
  let '(c, rx) := BroadcastChannel.subscribe c in
  let c := stream_missing_consensus (Subscriber.db s) root c in
  let '(headers, ended) := BroadcastChannel.drain (S (length (log c))) c rx in
  let '(s, r) := Subscriber.catch_up_rejoin_consensus committee gc_depth active cl s headers in
  (s, match r with Ok false => if ended then Some (Ok false) else None | r => Some r end).

End catch_up.
End CatchUp.

(** * Theorems *)

Module MeteredFacts.
Section facts.
Context {T : Type} `{MpscLaws T}.
Import MeteredMpscChannel.

(** A channel that was just made. *)
Definition fresh (size : N) (s : t T) : Prop :=
  exists k, s = channel size \/ s = channel_with_total size k \/ s = channel_sender size \/ s = channel_with_total_sender size k.

(** The gauge is what is queued, corrected by the sends and receptions in progress and by
    what was dropped with the receiver; values come out in the order they went in. *)
Record exact (size : N) (k : option N) (x : trace T) : Prop := {
  exact_gauge : (gauge (chan x) + Z.of_nat (counting (chan x)) = Z.of_nat (length (queued (inner (chan x)))) + Z.of_nat (taking (chan x)) + Z.of_nat (lost x))%Z;
  exact_taking : (taking (chan x) <= length (received x))%nat;
  exact_total : total (chan x) = (fun k => k + N.of_nat (length (received x) - taking (chan x))) <$> k;
  exact_capacity : max_capacity (inner (chan x)) = size;
  exact_bound : N.of_nat (length (queued (inner (chan x)))) <= size;
  exact_order : exists dropped, sent x = received x ++ queued (inner (chan x)) ++ dropped /\ length dropped = lost x /\
    (dropped <> [] -> queued (inner (chan x)) = [] /\ open (inner (chan x)) = false);
}.

Lemma try_send_cases c v :
  (exists c', mpsc_try_send c v = (c', inl ()) /\ queued c' = queued c ++ [v] /\ max_capacity c' = max_capacity c /\
     open c = true /\ open c' = true /\ N.of_nat (length (queued c)) < max_capacity c) \/
  mpsc_try_send c v = (c, inr (MpscFull v)) \/ mpsc_try_send c v = (c, inr (MpscClosed v)).
Proof.
  destruct (open c) eqn:Ho; [|right; right; by apply send_closed_law].
  destruct (decide (max_capacity c <= N.of_nat (length (queued c)))) as [Hf|Hf]; [right; left; by apply send_full_law|].
  left. destruct (send_law c v Ho) as (c' & ? & ? & ? & ?); [lia|]. exists c'. split_and!; (done || lia).
Qed.

Lemma try_recv_cases c :
  (exists c' v, mpsc_try_recv c = (c', inl v) /\ queued c = v :: queued c' /\ max_capacity c' = max_capacity c /\ open c' = open c) \/
  (exists e, mpsc_try_recv c = (c, inr e)).
Proof.
  destruct (queued c) as [|v q] eqn:Hq; [right; eexists; by apply recv_empty_law|].
  left. destruct (recv_law c v q Hq) as (c' & ? & <- & ? & ?). by exists c', v.
Qed.

Lemma exact_sent size k x s v :
  exact size k x -> mpsc_try_send (inner (chan x)) v = (inner s, inl ()) -> total s = total (chan x) -> taking s = taking (chan x) ->
  (gauge s + Z.of_nat (counting s) = gauge (chan x) + Z.of_nat (counting (chan x)) + 1)%Z ->
  exact size k (mk_trace s (sent x ++ [v]) (received x) (lost x)).
Proof.
  intros [Hg Hk Ht Hc Hb (d & Hs & Hl & Hd)] Hi Htot Htak Hgc.
  destruct (try_send_cases (inner (chan x)) v) as [(c' & He & Hq & Hm & Ho & _ & Hlt)|[He|He]]; rewrite Hi in He; [|done..].
  injection He as <-. assert (d = []) as -> by (destruct d; [done|]; destruct Hd as [_ Hf]; [done|congruence]).
  split; cbn [chan sent received lost]; rewrite ?Hq, ?Htot, ?Htak, ?Hm, ?length_app; cbn [length] in *; try (done || lia).
  exists []. rewrite Hs, !app_nil_r, app_assoc. by split_and!.
Qed.

Lemma exact_received size k x s v :
  exact size k x -> mpsc_try_recv (inner (chan x)) = (inner s, inl v) ->
  (taking s <= S (taking (chan x)))%nat -> (gauge s - Z.of_nat (taking s) + Z.of_nat (counting s) = gauge (chan x) - Z.of_nat (taking (chan x)) + Z.of_nat (counting (chan x)) - 1)%Z ->
  total s = (fun k => k + N.of_nat (S (length (received x)) - taking s)) <$> k ->
  exact size k (mk_trace s (sent x) (received x ++ [v]) (lost x)).
Proof.
  intros [Hg Hk Ht Hc Hb (d & Hs & Hl & Hd)] Hi Htak Hgc Htot.
  destruct (try_recv_cases (inner (chan x))) as [(c' & w & He & Hq & Hm & Ho)|[e He]]; rewrite Hi in He; [|done].
  injection He as <- <-. rewrite Hq in *. assert (d = []) as -> by (destruct d; [done|]; by destruct Hd as [Hf _]).
  split; cbn [chan sent received lost]; rewrite ?Hm, ?Htot, ?length_app; cbn [length] in *; try (done || lia).
  - destruct k; cbn; [|done]. do 3 f_equal. lia.
  - exists []. rewrite Hs, !app_nil_r. cbn. rewrite <-app_assoc. by split_and!.
Qed.

(** A step that neither sends nor receives. *)
Lemma exact_kept size k x s :
  exact size k x -> inner s = inner (chan x) -> (taking s <= taking (chan x))%nat ->
  (gauge s - Z.of_nat (taking s) + Z.of_nat (counting s) = gauge (chan x) - Z.of_nat (taking (chan x)) + Z.of_nat (counting (chan x)))%Z ->
  total s = (fun k => k + N.of_nat (length (received x) - taking s)) <$> k ->
  exact size k (mk_trace s (sent x) (received x) (lost x)).
Proof. intros [Hg Hk Ht Hc Hb Ho] Hi Htak Hgc Htot. split; cbn [chan sent received lost]; rewrite ?Hi, ?Htot; (done || lia). Qed.

Lemma step_exact size k x e x' : exact size k x -> step x e = Some x' -> exact size k x'.
Proof.
  intros Hx Hs. pose proof Hx as [Hg Hk Ht Hc Hb (d & Hd)]. destruct e as [v| |v| | | | |]; cbn [step] in Hs.
  - unfold offer, MpscReceiver.poll_send in Hs.
    destruct (try_send_cases (inner (chan x)) v) as [(c' & He & _)|[He|He]]; rewrite He in Hs; injection Hs as <-.
    + apply exact_sent; cbn; (done || lia).
    + apply exact_kept; cbn; (done || lia).
    + apply exact_kept; cbn; (done || lia).
  - destruct (counting (chan x)) eqn:Hn; [done|]. injection Hs as <-. apply exact_kept; cbn; (done || lia).
  - unfold try_send in Hs.
    destruct (try_send_cases (inner (chan x)) v) as [(c' & He & _)|[He|He]]; rewrite He in Hs; injection Hs as <-.
    + apply exact_sent; cbn; (done || lia).
    + apply exact_kept; cbn; (done || lia).
    + apply exact_kept; cbn; (done || lia).
  - unfold take, MpscReceiver.poll_recv in Hs.
    destruct (try_recv_cases (inner (chan x))) as [(c' & v & He & _)|[[] He]]; rewrite He in Hs; injection Hs as <-.
    + apply exact_received; cbn; (done || lia).
    + apply exact_kept; cbn; (done || lia).
    + apply exact_kept; cbn; (done || lia).
  - destruct (taking (chan x)) as [|n] eqn:Hn; [done|]. injection Hs as <-. apply exact_kept; cbn; rewrite ?Ht; try (done || lia).
    destruct k; cbn; [|done]. f_equal. lia.
  - unfold try_recv, MpscReceiver.try_recv in Hs.
    destruct (try_recv_cases (inner (chan x))) as [(c' & v & He & _)|[e He]]; rewrite He in Hs; injection Hs as <-.
    + apply exact_received; cbn; rewrite ?Ht; try (done || lia). destruct k; cbn; [|done]. f_equal. lia.
    + apply exact_kept; cbn; (done || lia).
  - injection Hs as <-. destruct (close_law (inner (chan x))) as (Hq & Hm & Ho).
    split; cbn; rewrite ?Hq, ?Hm; try done. exists d. rewrite ?Hq. destruct Hd as (? & ? & Hd). split_and!; [done..|]. intros Hne. by destruct (Hd Hne).
  - injection Hs as <-. destruct (drop_receiver_law (inner (chan x))) as (Hq & Hm & Ho). destruct Hd as (Hd1 & Hd2 & Hd3).
    split; cbn; rewrite ?Hq, ?Hm; cbn; try (done || lia). exists (queued (inner (chan x)) ++ d). rewrite length_app. split_and!; [done|lia|done].
Qed.

Lemma fresh_exact size s : 0 < size -> fresh size s -> exact size (total s) (start s).
Proof.
  intros Hn (k & Hf). destruct (channel_law size Hn) as (Hq & Hm & Ho).
  destruct Hf as [->|[->|[->| ->]]]; (split; cbn; rewrite ?Hq, ?Hm; cbn; (done || lia || (f_equal; lia) || by exists [])).
Qed.

(** However the threads of the senders and of the receiver interleave, the receiver gets the
    values that were sent, in their order and without a gap; at most [size] values are
    queued; the gauge is the number of queued values when no send or reception is in
    progress and the receiver was not dropped; and the counter grows by what was received. *)
Theorem metered_channel_exact size s events x :
  0 < size -> fresh size s -> run (start s) events = Some x ->
  received x `prefix_of` sent x /\ N.of_nat (length (queued (inner (chan x)))) <= size /\
  (lost x = 0%nat -> sent x = received x ++ queued (inner (chan x))) /\
  (lost x = 0%nat -> counting (chan x) = 0%nat -> taking (chan x) = 0%nat ->
     gauge (chan x) = Z.of_nat (length (queued (inner (chan x)))) /\
     total (chan x) = (fun k => k + N.of_nat (length (received x))) <$> total s).
Proof.
  intros Hn Hf Hrun. assert (exact size (total s) x) as [Hg Hk Ht Hc Hb (d & Hs & Hl & _)].
  { apply fresh_exact in Hf; [|done]. revert Hf Hrun. generalize (start s). induction events as [|e events IH]; intros y Hy Hrun.
    - by injection Hrun as <-.
    - cbn [run] in Hrun. apply bind_Some in Hrun as (z & Hz & Hrun). eapply IH, Hrun. by eapply step_exact. }
  split_and!; [rewrite Hs; by eexists|done| |].
  - intros Hl0. destruct d; [|by rewrite Hl0 in Hl]. by rewrite Hs, app_nil_r.
  - intros Hl0 Hc0 Ht0. rewrite Hl0, Hc0, Ht0 in Hg. split; [lia|]. by rewrite Ht, Ht0, Nat.sub_0_r.
Qed.

(** The receiver can be had once, and only from a channel that holds it. *)
Lemma subscribe_once size s : fresh size s ->
  match subscribe s with
  | Ok s' => (s = channel_sender size \/ exists k, s = channel_with_total_sender size k) /\ subscribe s' = Panic
  | r => r = Panic /\ (s = channel size \/ exists k, s = channel_with_total size k)
  end.
Proof. intros (k & [->|[->|[->| ->]]]); cbn; eauto. Qed.

(** The values that a dropped receiver had not taken stay in the gauge. *)
Lemma dropped_receiver_gauge size k x : exact size k x -> (0 < length (queued (inner (chan x))))%nat ->
  counting (chan x) = 0%nat -> taking (chan x) = 0%nat ->
  exists x', step x DropReceiver = Some x' /\ queued (inner (chan x')) = [] /\ (0 < gauge (chan x'))%Z.
Proof.
  intros [Hg _ _ _ _ _] Hq Hc Ht. eexists. split; [done|]. cbn. destruct (drop_receiver_law (inner (chan x))) as (-> & _). split; [done|]. lia.
Qed.

End facts.
End MeteredFacts.

Module BroadcastFacts.
Section facts.
Context {T : Type} `{BroadcastLaws T}.
Import BroadcastChannel.

(** Sending never fails, whether a receiver is there or not. *)
Lemma send_accepted c v : (send c v).2 = inl () /\ (try_send c v).2 = inl ().
Proof. done. Qed.

Lemma send_all_spec c l : 0 < receivers c ->
  log (send_all c l) = log c ++ l /\ retained (send_all c l) = retained c /\ receivers (send_all c l) = receivers c /\
  senders (send_all c l) = senders c.
Proof.
  revert c. induction l as [|v l IH]; intros c Hr; cbn [send_all]; [by rewrite app_nil_r|].
  unfold send. destruct (broadcast_send_law c v Hr) as (c' & -> & Hl & Hk & Hr' & Hs). cbn [fst].
  destruct (IH c') as (-> & -> & -> & ->); [lia|]. by rewrite Hl, <-app_assoc.
Qed.

(** A receiver that is not too far behind takes what is left of the log. *)
Lemma drain_spec fuel c rx : (length (log c) - N.to_nat (position rx) < fuel)%nat -> senders c = true ->
  N.of_nat (length (log c)) <= position rx + retained c ->
  drain fuel c rx = (drop (N.to_nat (position rx)) (log c), false).
Proof.
  revert rx. induction fuel as [|fuel IH]; intros rx Hf Hs Hk; [lia|]. cbn [drain]. unfold recv.
  destruct (log c !! N.to_nat (position rx)) as [v|] eqn:Hv.
  - destruct (broadcast_recv_law c rx v Hk Hv) as (rx' & -> & Hp). apply lookup_lt_Some in Hv as Hlt.
    rewrite IH by (done || lia). rewrite Hp, N2Nat.inj_add. change (N.to_nat 1) with 1%nat. rewrite Nat.add_1_r.
    by rewrite <-(drop_S _ _ _ Hv).
  - apply lookup_ge_None in Hv. rewrite broadcast_empty_law, Hs by lia. by rewrite drop_ge by lia.
Qed.

(** A receiver that is too far behind is told [None], as if the channel were closed. *)
Lemma drain_lagged fuel c rx : position rx + retained c < N.of_nat (length (log c)) -> drain (S fuel) c rx = ([], true).
Proof. intros Hk. cbn [drain]. unfold recv. by destruct (broadcast_lagged_law c rx Hk) as (rx' & -> & _). Qed.

(** A receiver that gets [None] may take values from the same channel afterwards. *)
Lemma lagged_goes_on c rx : 0 < retained c -> position rx + retained c < N.of_nat (length (log c)) ->
  exists rx' rx'' v, recv c rx = (rx', Ready None) /\ recv c rx' = (rx'', Ready (Some v)).
Proof.
  intros Hr Hk. unfold recv. destruct (broadcast_lagged_law c rx Hk) as (rx' & -> & Hp). exists rx'.
  destruct (lookup_lt_is_Some_2 (log c) (N.to_nat (position rx'))) as [v Hv]; [lia|].
  destruct (broadcast_recv_law c rx' v) as (rx'' & -> & _); [lia|done|]. by exists rx'', v.
Qed.

End facts.
End BroadcastFacts.

Section catching_up.
Context `{NetworkKeys} `{Crypto} `{ChainHash} `{BatchHash} `{BroadcastLaws ConsensusHeader.t}.
Context (committee : Committee.t) (gc_depth : Round) (active : bool).

(** C31: A node that catches up handles the headers it missed only when the channel of consensus
    headers can hold all of them: one more, and the loop of the node ends at once, with no
    header handled and without an error. *)
Theorem catch_up_backlog cl s root c : senders c = true ->
  let missing := ConsensusDb.get_missing_consensus (Subscriber.db s) root in
  CatchUp.catch_up committee gc_depth active cl s root c =
    if N.of_nat (length missing) <=? retained c then
      let '(s', r) := Subscriber.catch_up_rejoin_consensus committee gc_depth active cl s missing in
      (s', match r with Ok false => None | r => Some r end)
    else (s, Some (Ok false)).
Proof.
  intros Hs missing. unfold CatchUp.catch_up, BroadcastChannel.subscribe, CatchUp.stream_missing_consensus. fold missing.
  destruct (broadcast_subscribe_law c) as (c' & rx & -> & Hp & Hl & Hk & Hr & Hs').
  destruct (BroadcastFacts.send_all_spec c' missing) as (Hl' & Hk' & _ & Hs''); [lia|].
  assert (length (log (BroadcastChannel.send_all c' missing)) = length (log c) + length missing)%nat as Hlen by (by rewrite Hl', Hl, length_app).
  destruct (N.leb_spec (N.of_nat (length missing)) (retained c)).
  - rewrite BroadcastFacts.drain_spec by (congruence || lia). rewrite Hl', Hl, Hp, Nat2N.id, drop_app_length.
    by destruct (Subscriber.catch_up_rejoin_consensus _ _ _ _ _ _) as [s' [[]| | |]].
  - by rewrite BroadcastFacts.drain_lagged by lia.
Qed.

End catching_up.

(** * Channels that keep the laws *)

(** A queue of values, its capacity, and whether the receiver and a sender are there. *)
#[local] Instance queue_mpsc T : Mpsc T := {|
  mpsc := list T * N * bool;
  mpsc_channel n := ([], n, true);
  mpsc_try_send c v := let '(q, n, o) := c in
    if negb o then (c, inr (MpscClosed v)) else if n <=? N.of_nat (length q) then (c, inr (MpscFull v)) else ((q ++ [v], n, o), inl ());
  mpsc_try_recv c := let '(q, n, o) := c in
    match q with v :: q => ((q, n, o), inl v) | [] => (c, inr (if o then MpscEmpty else MpscDisconnected)) end;
  mpsc_close c := (c.1, false);
  mpsc_drop_receiver c := ([], c.1.2, false);
  queued c := c.1.1;
  max_capacity c := c.1.2;
  open c := c.2;
  connected c := true;
|}.

#[local] Instance queue_mpsc_laws T : MpscLaws T.
Proof.
  split.
  - done.
  - by intros [[q n] []] v.
  - intros [[q n] []] v; [cbn|done]. intros _. by destruct (N.leb_spec n (N.of_nat (length q))); [|lia].
  - intros [[q n] []] v; [cbn|done]. intros _ Hlt. destruct (N.leb_spec n (N.of_nat (length q))); [lia|]. by eexists.
  - intros [[q n] o] v q' Hq. cbn in Hq. subst q. by eexists.
  - intros [[q n] o] Hq. cbn in Hq. subst q. cbn. by rewrite andb_true_r.
  - by intros [[q n] o].
  - by intros [[q n] o].
Qed.

(** The log of all values with the number of values kept and of receivers. *)
#[local] Instance log_broadcast T : Broadcast T := {|
  broadcast := list T * N * N;
  broadcast_rx := N;
  broadcast_channel n := ([], n, 0);
  broadcast_send c v := let '(l, k, r) := c in if r =? 0 then (c, inr v) else ((l ++ [v], k, r), inl r);
  broadcast_subscribe c := let '(l, k, r) := c in ((l, k, r + 1), N.of_nat (length l));
  broadcast_try_recv c rx := let '(l, k, r) := c in
    if rx + k <? N.of_nat (length l) then (N.of_nat (length l) - k, BroadcastLagged (N.of_nat (length l) - k - rx))
    else match l !! N.to_nat rx with Some v => (rx + 1, BroadcastValue v) | None => (rx, BroadcastEmpty) end;
  log c := c.1.1;
  retained c := c.1.2;
  receivers c := c.2;
  senders c := true;
  position rx := rx;
|}.

#[local] Instance log_broadcast_laws T : BroadcastLaws T.
Proof.
  split.
  - intros [[l k] r] v Hr. cbn in *. destruct (N.eqb_spec r 0); [lia|]. by eexists.
  - intros [[l k] r] v Hr. cbn in *. by subst r.
  - intros [[l k] r]. by eexists _, _.
  - intros n Hn. cbn. split_and!; (done || lia).
  - intros [[l k] r] rx Hlt. cbn in *. apply N.ltb_lt in Hlt as ->. by eexists.
  - intros [[l k] r] rx v Hle Hv. cbn in *. apply N.ltb_ge in Hle as ->. rewrite Hv. by eexists.
  - intros [[l k] r] rx Hle. cbn in *. destruct (N.ltb_spec (rx + k) (N.of_nat (length l))); [lia|].
    by rewrite lookup_ge_None_2 by lia.
Qed.

(** A channel of two places: the third value does not fit, and a value is received before
    the send of it is counted. *)
Lemma metered_channel_exact_witness :
  exists x, MeteredMpscChannel.run (T := N) (MeteredMpscChannel.start (MeteredMpscChannel.channel_with_total_sender 2 0))
    [MeteredMpscChannel.Offer 7; MeteredMpscChannel.Take; MeteredMpscChannel.CountTaken; MeteredMpscChannel.CountSent;
     MeteredMpscChannel.TrySend 8; MeteredMpscChannel.TrySend 9; MeteredMpscChannel.TrySend 10] = Some x /\
    MeteredMpscChannel.received x = [7] /\ MeteredMpscChannel.sent x = [7; 8; 9] /\
    MeteredMpscChannel.gauge (MeteredMpscChannel.chan x) = Z.of_nat (length (queued (MeteredMpscChannel.inner (MeteredMpscChannel.chan x)))).
Proof.
  eexists. split; [by vm_compute|]. split; [done|]. split; [done|].
  refine (proj1 (proj2 (proj2 (proj2 (MeteredFacts.metered_channel_exact (T := N) 2 (MeteredMpscChannel.channel_with_total_sender 2 0)
    [MeteredMpscChannel.Offer 7; MeteredMpscChannel.Take; MeteredMpscChannel.CountTaken; MeteredMpscChannel.CountSent;
     MeteredMpscChannel.TrySend 8; MeteredMpscChannel.TrySend 9; MeteredMpscChannel.TrySend 10] _ _ _ _))) _ _ _)).
  - done.
  - exists 0. by do 3 right.
  - by vm_compute.
  - done.
  - done.
  - done.
Defined.

Section backlog_witness.
#[local] Existing Instances demo_keys demo_crypto demo_chain_hash demo_batch_hash.

(** A node that saved two headers and executed neither. *)
Definition behind : Subscriber.t :=
  Subscriber.mk restart_db [] true ConsensusRound.default 0 header_2 [] 0 0 [] [].

(** The catch-up of that node with a channel that keeps [k] headers. *)
Definition catching_up (k : N) : Subscriber.t * option (outcome SubscriberError bool) :=
  CatchUp.catch_up demo_committee 50 true demo_client behind None ([], k, 0).

(** A channel that keeps two headers brings the node up to date, one that keeps one header
    does not: the loop ends and nothing was handled. *)
Lemma catch_up_backlog_witness :
  (catching_up 2).2 = Some (Ok true) /\ ConsensusOutput.number <$> Subscriber.outputs (catching_up 2).1 = [1; 2] /\
  catching_up 1 = (behind, Some (Ok false)).
Proof.
  split_and!.
  - unfold catching_up. rewrite catch_up_backlog by done. by vm_compute.
  - by vm_compute.
  - unfold catching_up. rewrite catch_up_backlog by done. by vm_compute.
Defined.

End backlog_witness.
