(* ===== verification/Metrics.v ===== *)
(** Metrics of a running node: histograms that report exact percentiles, and gauges of what
    is in progress.
    Models crates/consensus/consensus-metrics/src/histogram.rs (the collector of data points
    and the reporter of percentiles), guards.rs and the monitored scopes of lib.rs.  A vector
    of metrics is a map from the values of its labels. *)

From stdpp Require Import pretty.
From S2P Require Import Prelude.

(** * Histograms *)

(** A data point is a [u64]. *)
Notation Point := N (only parsing).

(** [point as i64] *)
Definition as_i64 (n : N) : Z := if n <? 2 ^ 63 then Z.of_N n else (Z.of_N n - 2 ^ 64)%Z.

Definition HISTOGRAM_CHANNEL : nat := 1000.

Module HistogramLabels.
(** The labels of a histogram with their hash. *)
Record t := mk {
  labels : list string;
  hash : N;
}.

(** [DefaultHasher] *)
Definition new (hasher : list string -> N) (labels : list string) : t := mk labels (hasher labels).

(** Labels are compared by their hash. *)
Definition eq (a b : t) : bool := hash a =? hash b.
End HistogramLabels.

Module HistogramReporter.

(** The data points of a window; the labels are those the first point came with.  A map keyed
    by [HistogramLabels] is a map keyed by their hash. *)
Notation labeled_data := (gmap N (HistogramLabels.t * list Point)) (only parsing).

Record t := mk {
  gauge : gmap (list string) Z;
  sum : gmap (list string) N;
  count : gmap (list string) N;
  known_labels : gmap N HistogramLabels.t;
  percentiles : list N;
}.

(** [len * pct1000 / 1000] on [usize] *)
Definition pct1000_index (len pct1000 : N) : N := wrap64 (len * pct1000) / 1000.

(** [format!("{}", pct1000 as f64 / 10.)]: the shortest decimal of the quotient. *)
Definition format_pct1000 (pct1000 : N) : string :=
  (pretty (pct1000 / 10) +:+ if (pct1000 mod 10 =? 0)%N then EmptyString else "." +:+ pretty (pct1000 mod 10))%string.

Definition gauge_labels (label : HistogramLabels.t) (pct_str : string) : list string := HistogramLabels.labels label ++ [pct_str].

Definition set_gauge (s : t) (labels : list string) (v : Z) : t :=
  mk (<[labels := v]> (gauge s)) (sum s) (count s) (known_labels s) (percentiles s).

(** Counters are 64 bits wide and wrap. *)
Definition inc_by (m : gmap (list string) N) (labels : list string) (n : N) : gmap (list string) N :=
  <[labels := wrap64 (default 0 (m !! labels) + n)]> m.

(** [sum += point] for every point *)
Definition sum_points (data : list Point) : N := foldl (fun s p => wrap64 (s + p)) 0 data.

(** The percentiles of the sorted points. *)
Definition set_percentiles (label : HistogramLabels.t) (data : list Point) (s : t) : outcome False t :=
  foldM (fun s pct1000 =>
    point ← expect (data !! N.to_nat (pct1000_index (N.of_nat (length data)) pct1000));
    Ok (set_gauge s (gauge_labels label (format_pct1000 pct1000)) (as_i64 point))) s (percentiles s).

(** A [HashSet] keeps the label it has. *)
Definition insert_known (known : gmap N HistogramLabels.t) (label : HistogramLabels.t) : gmap N HistogramLabels.t :=
  if known !! HistogramLabels.hash label then known else <[HistogramLabels.hash label := label]> known.

(** The body of the loop over the labels. *)
Definition report_label (s : t) (label : HistogramLabels.t) (data : list Point) : outcome False t :=
  let s := mk (gauge s) (sum s) (count s) (insert_known (known_labels s) label) (percentiles s) in
  _ ← assert (negb (bool_decide (data = [])));
  let data := sort_by_key id data in
  s ← set_percentiles label data s;
  Ok (mk (gauge s) (inc_by (sum s) (HistogramLabels.labels label) (sum_points data))
        (inc_by (count s) (HistogramLabels.labels label) (N.of_nat (length data))) (known_labels s) (percentiles s)).

Definition reset_label (s : t) (label : HistogramLabels.t) : t :=
  foldl (fun s pct1000 => set_gauge s (gauge_labels label (format_pct1000 pct1000)) 0) s (percentiles s).

Definition report (s : t) (data : labeled_data) : outcome False t :=
  let reset_labels := filter (fun kl => data !! kl.1 = None) (known_labels s) in
  s ← foldM (fun s '(_, (label, data)) => report_label s label data) s (map_to_list data);
  Ok (foldl (fun s '(_, label) => reset_label s label) s (map_to_list reset_labels)).

End HistogramReporter.

Module HistogramCollector.

Definition MAX_POINTS : N := 500000.

(** The channel with its senders, the window that is collected, and the reporter with the
    window it is busy with, which holds a reference to it. *)
Record t := mk {
  channel : list (HistogramLabels.t * Point);
  senders : bool;
  labeled_data : HistogramReporter.labeled_data;
  count : N;
  reporter : HistogramReporter.t;
  reporting : option HistogramReporter.labeled_data;
  running : bool;
}.

Definition new (percentiles : list N) : t :=
  mk [] true ∅ 0 (HistogramReporter.mk ∅ ∅ ∅ ∅ percentiles) None true.

(** [Histogram::report]: a point that does not fit the channel is dropped. *)
Definition report (s : t) (label : HistogramLabels.t) (v : Point) : t :=
  if running s && (length (channel s) <? HISTOGRAM_CHANNEL)%nat then
    mk (channel s ++ [(label, v)]) (senders s) (labeled_data s) (count s) (reporter s) (reporting s) (running s)
  else s.

(** [labeled_data.entry(label).or_default().push(point)] *)
Definition push (data : HistogramReporter.labeled_data) (label : HistogramLabels.t) (point : Point) : HistogramReporter.labeled_data :=
  let values := default (label, []) (data !! HistogramLabels.hash label) in
  <[HistogramLabels.hash label := (values.1, values.2 ++ [point])]> data.

(** The branch of [cycle] that receives, with [None] when all senders are gone. *)
Definition receive (s : t) (point : option (HistogramLabels.t * Point)) : t :=
  let count := count s + 1 in
  let data := if MAX_POINTS <? count then labeled_data s
              else match point with Some (label, point) => push (labeled_data s) label point | None => labeled_data s end in
  mk (channel s) (senders s) data count (reporter s) (reporting s)
    (if MAX_POINTS <? count then running s else if point then running s else false).

(** The end of [cycle]: the window is handed to the reporter, and dropped when that is still
    busy with the window before; [run] starts the next one. *)
Definition timeout (s : t) : t :=
  mk (channel s) (senders s) ∅ 0 (reporter s) (if reporting s then reporting s else Some (labeled_data s)) (running s).

Inductive event :=
  | Report (label : HistogramLabels.t) (v : Point)
  | Recv
  | Timeout
  | Reported
  | DropSenders.

(** [Recv] waits while there is nothing to receive. *)
Definition step (s : t) (e : event) : outcome False t :=
  match e with
  | Report label v => Ok (report s label v)
  | Recv =>
      if running s then
        match channel s with
        | point :: channel =>
            Ok (receive (mk channel (senders s) (labeled_data s) (count s) (reporter s) (reporting s) (running s)) (Some point))
        | [] => Ok (if senders s then s else receive s None)
        end
      else Ok s
  | Timeout => Ok (if running s then timeout s else s)
  | Reported =>
      match reporting s with
      | Some data =>
          reporter ← HistogramReporter.report (reporter s) data;
          Ok (mk (channel s) (senders s) (labeled_data s) (count s) reporter None (running s))
      | None => Ok s
      end
  | DropSenders => Ok (mk (channel s) false (labeled_data s) (count s) (reporter s) (reporting s) (running s))
  end.

Definition run (s : t) (events : list event) : outcome False t := foldM step s events.

End HistogramCollector.

(** * Guards *)

(** Gauges that count what is in progress. *)
Module GaugeGuard.

Definition acquire (gauges : gmap string Z) (name : string) : gmap string Z :=
  <[name := (default 0 (gauges !! name) + 1)%Z]> gauges.

Definition drop (gauges : gmap string Z) (name : string) : gmap string Z :=
  <[name := (default 0 (gauges !! name) - 1)%Z]> gauges.

End GaugeGuard.

Module MonitoredScope.

Record Metrics := mk_metrics {
  scope_iterations : gmap string Z;
  scope_duration_ns : gmap string Z;
  scope_entrance : gmap string Z;
}.

(** The cell of the metrics, which is empty until the server of metrics is started, and the
    guards that are alive: the name of the scope, and whether there were metrics. *)
Record t := mk {
  METRICS : option Metrics;
  guards : list (string * bool);
}.

(** [OnceCell::set] keeps a value that is there; the metrics can be registered once. *)
Definition init_metrics (s : t) : t :=
  match METRICS s with Some _ => s | None => mk (Some (mk_metrics ∅ ∅ ∅)) (guards s) end.

Definition monitored_scope (s : t) (name : string) : t :=
  match METRICS s with
  | Some m => mk (Some (mk_metrics (GaugeGuard.acquire (scope_iterations m) name) (scope_duration_ns m)
                     (GaugeGuard.acquire (scope_entrance m) name))) ((name, true) :: guards s)
  | None => mk None ((name, false) :: guards s)
  end.

(** A guard is dropped after [elapsed] nanoseconds. *)
Definition drop_guard (s : t) (i : nat) (elapsed : N) : t :=
  match guards s !! i, METRICS s with
  | Some (name, true), Some m =>
      mk (Some (mk_metrics (scope_iterations m)
            (<[name := (default 0 (scope_duration_ns m !! name) + as_i64 (wrap64 elapsed))%Z]> (scope_duration_ns m))
            (GaugeGuard.drop (scope_entrance m) name))) (delete i (guards s))
  | Some _, _ => mk (METRICS s) (delete i (guards s))
  | None, _ => s
  end.

Inductive event := Start | Enter (name : string) | Leave (i : nat) (elapsed : N).

Definition step (s : t) (e : event) : t :=
  match e with
  | Start => init_metrics s
  | Enter name => monitored_scope s name
  | Leave i elapsed => drop_guard s i elapsed
  end.

Definition run (s : t) (events : list event) : t := foldl step s events.

End MonitoredScope.

(** * Theorems *)

(** ** The reporter *)

Module ReporterFacts.
Import HistogramReporter.

(** [v] is the exact percentile of the points: it is one of them, more than the given share
    of them are at most [v], and at most that share are smaller. *)
Definition percentile (data : list Point) (pct1000 : N) (v : Point) : Prop :=
  v ∈ data /\
  N.of_nat (length data) * pct1000 / 1000 < N.of_nat (length (filter (fun p => p <= v) data)) /\
  N.of_nat (length (filter (fun p => p < v) data)) <= N.of_nat (length data) * pct1000 / 1000.

(** Percentiles a reporter can be made with: all of them below 1000, and no two printed
    alike. *)
Definition valid_percentiles (pcts : list N) : Prop :=
  Forall (fun p => p < 1000) pcts /\ NoDup (format_pct1000 <$> pcts).

Definition small {A} (data : list A) : Prop := N.of_nat (length data) * 1000 < u64_modulus.

Lemma index_small len pct1000 : len * 1000 < u64_modulus -> pct1000 < 1000 -> pct1000_index len pct1000 = len * pct1000 / 1000.
Proof. intros Hl Hp. unfold pct1000_index. rewrite wrap64_small; [done|]. nia. Qed.

Lemma index_bound len pct1000 : 0 < len -> len * 1000 < u64_modulus -> pct1000 < 1000 -> pct1000_index len pct1000 < len.
Proof. intros H0 Hl Hp. rewrite index_small by done. apply N.Div0.div_lt_upper_bound. nia. Qed.

(** In a sorted list, the points before an index are at most the point there. *)
Lemma sorted_percentile data i v : StronglySorted N.le data -> data !! i = Some v ->
  (i < length (filter (fun p => (p <= v)%N) data))%nat /\ (length (filter (fun p => (p < v)%N) data) <= i)%nat.
Proof.
  intros Hs Hi. rewrite <-(take_drop_middle data i v Hi) in Hs |- *. apply lookup_lt_Some in Hi as Hlt.
  assert (Forall (fun p => p <= v) (take i data)) as Hle.
  { rewrite Forall_forall. intros p Hp. eapply StronglySorted_app_elem; [exact Hs|done|set_solver]. }
  assert (Forall (fun p => ~ p < v) (v :: drop (S i) data)) as Hge.
  { constructor; [lia|]. rewrite Forall_forall. intros p Hp.
    assert (StronglySorted N.le (v :: drop (S i) data)) as Hsv.
    { clear -Hs. induction (take i data) as [|a l IH]; [done|]. apply IH. by apply StronglySorted_inv in Hs as [? _]. }
    apply StronglySorted_inv in Hsv as [_ Hall]. rewrite Forall_forall in Hall. specialize (Hall p Hp). lia. }
  rewrite !filter_app, !length_app. split.
  - rewrite (filter_all _ (take i data)) by (by apply Forall_forall). rewrite length_take, filter_cons_True by lia. cbn. lia.
  - assert (filter (fun p => p < v) (v :: drop (S i) data) = []) as ->.
    { revert Hge. generalize (v :: drop (S i) data). induction 1 as [|p l Hp _ IH]; [done|]. by rewrite filter_cons_False. }
    pose proof (length_filter (fun p => p < v) (take i data)). rewrite length_take in *. cbn. lia.
Qed.

Lemma sort_points_sorted (data : list Point) : StronglySorted N.le (sort_by_key id data).
Proof. exact (sort_by_key_sorted id data). Qed.

Lemma percentile_of_sorted data pct1000 : data <> [] -> small data -> pct1000 < 1000 ->
  exists v, sort_by_key id data !! N.to_nat (pct1000_index (N.of_nat (length (sort_by_key id data))) pct1000) = Some v /\
    percentile data pct1000 v.
Proof.
  intros Hne Hsm Hp. pose proof (sort_by_key_perm id data) as Hperm.
  assert (length (sort_by_key id data) = length data) as Hlen by (by rewrite Hperm). rewrite Hlen.
  assert (0 < N.of_nat (length data)) as Hpos by (destruct data; [done|cbn; lia]).
  pose proof (index_bound _ _ Hpos Hsm Hp) as Hb. rewrite index_small in * by done.
  destruct (lookup_lt_is_Some_2 (sort_by_key id data) (N.to_nat (N.of_nat (length data) * pct1000 / 1000))) as [v Hv]; [lia|].
  exists v. split; [done|]. destruct (sorted_percentile _ _ _ (sort_points_sorted data) Hv) as [H1 H2].
  rewrite Hperm in H1, H2. unfold percentile. set (i := N.of_nat (length data) * pct1000 / 1000) in *. clearbody i.
  split_and!; [|lia..]. rewrite <-Hperm. by eapply list_elem_of_lookup_2.
Qed.

Lemma sum_points_wrap data : sum_points data = wrap64 (sumN data).
Proof.
  unfold sum_points. assert (forall a, a < u64_modulus -> foldl (fun s p => wrap64 (s + p)) a data = wrap64 (a + sumN data)) as Hs; [|by apply Hs].
  induction data as [|p data IH]; intros a Ha; cbn; [by rewrite N.add_0_r, wrap64_small|].
  rewrite IH by apply wrap64_bound. unfold wrap64. by rewrite N.Div0.add_mod_idemp_l, N.add_assoc.
Qed.

(** What one label of a window does to the gauges. *)
Lemma set_percentiles_spec label data pcts s : data <> [] -> small data -> Forall (fun p => p < 1000) pcts -> NoDup (format_pct1000 <$> pcts) ->
  exists g, foldM (fun s pct1000 =>
      point ← expect (sort_by_key id data !! N.to_nat (pct1000_index (N.of_nat (length (sort_by_key id data))) pct1000));
      @Ok False _ (set_gauge s (gauge_labels label (format_pct1000 pct1000)) (as_i64 point))) s pcts =
    Ok (mk g (sum s) (count s) (known_labels s) (percentiles s)) /\
    (forall p, p ∈ pcts -> exists v, g !! gauge_labels label (format_pct1000 p) = Some (as_i64 v) /\ percentile data p v) /\
    (forall k, (forall p, p ∈ pcts -> k <> gauge_labels label (format_pct1000 p)) -> g !! k = gauge s !! k).
Proof.
  intros Hne Hsm Hlt. revert s. induction Hlt as [|p pcts Hp Hlt IH]; intros s Hnd.
  { exists (gauge s). split_and!; [by destruct s|set_solver|done]. }
  cbn [foldM fmap list_fmap] in *. apply NoDup_cons in Hnd as [Hni Hnd].
  destruct (percentile_of_sorted data p Hne Hsm Hp) as (v & -> & Hv). cbn [expect mbind outcome_bind].
  destruct (IH (set_gauge s (gauge_labels label (format_pct1000 p)) (as_i64 v)) Hnd) as (g & -> & Hg & Hk).
  exists g. split_and!; [done| |].
  - intros q [->|Hq]%elem_of_cons; [|by apply Hg]. exists v. split; [|done]. rewrite Hk; [apply lookup_insert_eq|].
    intros q Hq [_ [= Heq]]%app_inj_tail. apply Hni. rewrite Heq. by apply list_elem_of_fmap_2.
  - intros k Hd. rewrite Hk by set_solver. cbn. apply lookup_insert_ne. intros <-. by apply (Hd p); [set_solver|].
Qed.

Lemma report_label_spec s label data : data <> [] -> small data -> valid_percentiles (percentiles s) ->
  exists g, report_label s label data =
    Ok (mk g (inc_by (sum s) (HistogramLabels.labels label) (sumN data))
          (inc_by (count s) (HistogramLabels.labels label) (N.of_nat (length data))) (insert_known (known_labels s) label) (percentiles s)) /\
    (forall p, p ∈ percentiles s -> exists v, g !! gauge_labels label (format_pct1000 p) = Some (as_i64 v) /\ percentile data p v) /\
    (forall k, (forall p, k <> gauge_labels label (format_pct1000 p)) -> g !! k = gauge s !! k).
Proof.
  intros Hne Hsm [Hlt Hnd]. unfold report_label, set_percentiles. cbn [percentiles gauge sum count known_labels].
  rewrite bool_decide_false by done. cbn [negb assert mbind outcome_bind].
  set (s1 := mk _ _ _ _ _). destruct (set_percentiles_spec label data (percentiles s) s1 Hne Hsm Hlt Hnd) as (g & Heq & Hg & Hk).
  setoid_rewrite Heq. subst s1. cbn [percentiles gauge sum count known_labels] in *. exists g. split_and!.
  - cbn [mbind outcome_bind]. do 2 f_equal.
    + unfold inc_by. f_equal. rewrite sum_points_wrap, (sort_by_key_perm id data). unfold wrap64. by rewrite N.Div0.add_mod_idemp_r.
    + by rewrite (sort_by_key_perm id data).
  - done.
  - intros k Hd. by apply Hk.
Qed.

Section report.
Context (hasher : list string -> N).

(** Labels carry their own hash, under which they are filed. *)
Definition filed (h : N) (label : HistogramLabels.t) : Prop :=
  label = HistogramLabels.new hasher (HistogramLabels.labels label) /\ HistogramLabels.hash label = h.

Definition known_wf (known : gmap N HistogramLabels.t) : Prop := map_Forall filed known.

Definition data_wf (data : labeled_data) : Prop :=
  map_Forall (fun h ld => filed h ld.1 /\ ld.2 <> [] /\ small ld.2) data.

(** What a window with the points [pts] for the labels [ls] does to the metrics of [ls]. *)
Record recorded (s s' : t) (ls : list string) (pts : list Point) : Prop := {
  recorded_gauge p : p ∈ percentiles s -> exists v, gauge s' !! (ls ++ [format_pct1000 p]) = Some (as_i64 v) /\ percentile pts p v;
  recorded_sum : sum s' !! ls = Some (wrap64 (default 0 (sum s !! ls) + sumN pts));
  recorded_count : count s' !! ls = Some (wrap64 (default 0 (count s !! ls) + N.of_nat (length pts)));
}.

Record untouched (s s' : t) (ls : list string) : Prop := {
  untouched_gauge p : gauge s' !! (ls ++ [p]) = gauge s !! (ls ++ [p]);
  untouched_sum : sum s' !! ls = sum s !! ls;
  untouched_count : count s' !! ls = count s !! ls;
}.

Lemma filed_labels h h' l l' : filed h l -> filed h' l' -> HistogramLabels.labels l = HistogramLabels.labels l' -> h = h'.
Proof. intros [Hl <-] [Hl' <-] Heq. rewrite Hl, Hl', Heq. done. Qed.

Lemma insert_known_wf known l : known_wf known -> l = HistogramLabels.new hasher (HistogramLabels.labels l) -> known_wf (insert_known known l).
Proof. intros Hk Hl. unfold insert_known. destruct (known !! _); [done|]. by apply map_Forall_insert_2. Qed.

Lemma report_labels_spec L s : valid_percentiles (percentiles s) -> known_wf (known_labels s) ->
  Forall (fun e => filed e.1 e.2.1 /\ e.2.2 <> [] /\ small e.2.2) L -> NoDup L.*1 ->
  exists s', foldM (fun s '(_, (label, data)) => report_label s label data) s L = Ok s' /\
    percentiles s' = percentiles s /\ known_wf (known_labels s') /\
    (forall h l pts, (h, (l, pts)) ∈ L -> recorded s s' (HistogramLabels.labels l) pts) /\
    (forall ls, Forall (fun e => HistogramLabels.labels e.2.1 <> ls) L -> untouched s s' ls).
Proof.
  revert s. induction L as [|[h [l pts]] L IH]; intros s Hv Hk Hall Hnd.
  { exists s. split_and!; try done. intros ? ? ? ?%elem_of_nil. done. }
  apply Forall_cons in Hall as [(Hf & Hne & Hsm) Hall]. apply NoDup_cons in Hnd as [Hni Hnd]. cbn [fst snd foldM] in *.
  destruct (report_label_spec s l pts Hne Hsm Hv) as (g & -> & Hg & Hgk). cbn [mbind outcome_bind].
  destruct (IH (mk g (inc_by (sum s) (HistogramLabels.labels l) (sumN pts)) (inc_by (count s) (HistogramLabels.labels l) (N.of_nat (length pts)))
    (insert_known (known_labels s) l) (percentiles s))) as (s' & -> & Hp & Hk' & Hrec & Hun); [done|apply insert_known_wf; [done|by destruct Hf]|done..|].
  assert (Forall (fun e => HistogramLabels.labels e.2.1 <> HistogramLabels.labels l) L) as Hother.
  { rewrite Forall_forall in Hall |- *. intros [h' [l' d]] He Heq. destruct (Hall _ He) as [Hf' _]. cbn in *.
    apply Hni. rewrite <-(filed_labels _ _ _ _ Hf' Hf Heq). by apply (list_elem_of_fmap_2 fst _ _ He). }
  exists s'. split_and!; [done|done|done| |].
  - intros h' l' d [[= -> -> ->]|He]%elem_of_cons.
    + destruct (Hun _ Hother) as [Ug Us Uc]. cbn in *. split.
      * intros p Hp'. rewrite Ug. by apply Hg.
      * rewrite Us. unfold inc_by. by rewrite lookup_insert_eq.
      * rewrite Uc. unfold inc_by. by rewrite lookup_insert_eq.
    + rewrite Forall_forall in Hother. pose proof (Hother _ He) as Hne'. destruct (Hrec _ _ _ He) as [Rg Rs Rc]. cbn in *.
      unfold inc_by in *. rewrite lookup_insert_ne in Rs, Rc by done. by split.
  - intros ls [Hl Hls]%Forall_cons. destruct (Hun ls Hls) as [Ug Us Uc]. cbn in *. unfold inc_by in *.
    rewrite lookup_insert_ne in Us, Uc by done. split; [|done..]. intros p. rewrite Ug. apply Hgk. intros q [Heq _]%app_inj_tail. by apply Hl.
Qed.

Lemma reset_label_spec pcts s l :
  let s' := foldl (fun s pct1000 => set_gauge s (gauge_labels l (format_pct1000 pct1000)) 0) s pcts in
  sum s' = sum s /\ count s' = count s /\ known_labels s' = known_labels s /\ percentiles s' = percentiles s /\
  (forall p, p ∈ pcts -> gauge s' !! gauge_labels l (format_pct1000 p) = Some 0%Z) /\
  (forall k, (forall p, k <> gauge_labels l p) -> gauge s' !! k = gauge s !! k).
Proof.
  revert s. induction pcts as [|p pcts IH] using rev_ind; intros s.
  { cbn. split_and!; try done. intros ? ?%elem_of_nil. done. }
  destruct (IH s) as (H1 & H2 & H3 & H4 & H5 & H6). rewrite foldl_app. cbn [foldl]. unfold set_gauge.
  cbn [sum count known_labels percentiles gauge]. split_and!; [done..| |].
  - intros q [Hq|Hq]%elem_of_app; [|apply list_elem_of_singleton in Hq as ->; apply lookup_insert_eq].
    destruct (decide (format_pct1000 p = format_pct1000 q)) as [->|Hne]; [apply lookup_insert_eq|].
    rewrite lookup_insert_ne; [by apply H5|]. by intros [_ [= ?]]%app_inj_tail.
  - intros k Hk. rewrite lookup_insert_ne; [by apply H6|]. intros <-. by eapply Hk.
Qed.

Lemma reset_labels_spec L s : let s' := foldl (fun s '(_, label) => reset_label s label) s L in
  sum s' = sum s /\ count s' = count s /\ known_labels s' = known_labels s /\ percentiles s' = percentiles s /\
  (forall h l p, (h, l) ∈ L -> p ∈ percentiles s -> gauge s' !! gauge_labels l (format_pct1000 p) = Some 0%Z) /\
  (forall ls p, Forall (fun e : N * HistogramLabels.t => HistogramLabels.labels e.2 <> ls) L -> gauge s' !! (ls ++ [p]) = gauge s !! (ls ++ [p])).
Proof.
  induction L as [|[h l] L IH] using rev_ind; cbn zeta.
  { split_and!; try done. intros ? ? ? ?%elem_of_nil. done. }
  rewrite foldl_app. cbn [foldl]. destruct IH as (H1 & H2 & H3 & H4 & H5 & H6). set (s1 := foldl _ s L) in *.
  unfold reset_label. destruct (reset_label_spec (percentiles s1) s1 l) as (R1 & R2 & R3 & R4 & R5 & R6). split_and!; [congruence..| |].
  - intros h' l' p He Hp. destruct (decide (HistogramLabels.labels l' = HistogramLabels.labels l)) as [Heq|Hne].
    + unfold gauge_labels. rewrite Heq. apply R5. by rewrite H4.
    + apply elem_of_app in He as [He|He]; [|apply list_elem_of_singleton in He; congruence].
      rewrite R6; [by eapply H5|]. intros q [Heq _]%app_inj_tail. done.
  - intros ls p [HL Hl]%Forall_app. apply Forall_cons in Hl as [Hl _]. rewrite R6; [by apply H6|]. intros q [Heq _]%app_inj_tail. by apply Hl.
Qed.

(** A report records every label of the window, and resets the gauges of the known labels
    that have no point in it. *)
Lemma report_spec s data : valid_percentiles (percentiles s) -> known_wf (known_labels s) -> data_wf data ->
  exists s', report s data = Ok s' /\ percentiles s' = percentiles s /\ known_wf (known_labels s') /\
    (forall ls pts, data !! hasher ls = Some (HistogramLabels.new hasher ls, pts) -> recorded s s' ls pts) /\
    (forall ls, (forall h ld, data !! h = Some ld -> HistogramLabels.labels ld.1 <> ls) -> sum s' !! ls = sum s !! ls /\ count s' !! ls = count s !! ls) /\
    (forall ls p, known_labels s !! hasher ls = Some (HistogramLabels.new hasher ls) -> data !! hasher ls = None -> p ∈ percentiles s ->
       gauge s' !! (ls ++ [format_pct1000 p]) = Some 0%Z).
Proof.
  intros Hv Hk Hd. unfold report. set (R := filter _ (known_labels s)).
  destruct (report_labels_spec (map_to_list data) s Hv Hk) as (s1 & -> & Hp1 & Hk1 & Hrec & Hun).
  { apply map_Forall_to_list in Hd. eapply Forall_impl; [exact Hd|]. by intros [h [l pts]]. }
  { apply NoDup_fst_map_to_list. }
  cbn [mbind outcome_bind]. eexists. split; [done|].
  destruct (reset_labels_spec (map_to_list R) s1) as (E1 & E2 & E3 & E4 & E5 & E6). rewrite E3, E4. split_and!; [done|done| | |].
  - intros ls pts Hls. destruct (Hrec (hasher ls) (HistogramLabels.new hasher ls) pts) as [Rg Rs Rc]; [by apply elem_of_map_to_list|].
    split; [|by rewrite E1|by rewrite E2]. intros p Hp. rewrite E6; [by apply Rg|]. rewrite Forall_forall. intros [h l] Hin%elem_of_map_to_list Heq.
    apply map_lookup_filter_Some in Hin as [Hkn Hnone]. cbn in *. apply Hk in Hkn as [Hl Hh]. rewrite <-Hh, Hl, Heq in Hnone. cbn in Hnone. congruence.
  - intros ls Hls. rewrite E1, E2. destruct (Hun ls) as [_ Us Uc]; [|done]. rewrite Forall_forall. intros [h ld] Hin%elem_of_map_to_list. by eapply Hls.
  - intros ls p Hkn Hnone Hp. apply (E5 (hasher ls) (HistogramLabels.new hasher ls)); [|by rewrite Hp1].
    apply elem_of_map_to_list, map_lookup_filter_Some. done.
Qed.

End report.
End ReporterFacts.

(** ** The collector *)

Module CollectorFacts.
Import HistogramReporter HistogramCollector ReporterFacts.
Section collector.
Context (hasher : list string -> N).

(** The points of a window that were reported for the labels [ls]. *)
Definition points (ls : list string) (pts : list (list string * Point)) : list Point := (filter (fun p => p.1 = ls) pts).*2.

(** A collector between two windows, with a reporter that is not busy. *)
Record idle (s : HistogramCollector.t) : Prop := {
  idle_channel : channel s = [];
  idle_data : HistogramCollector.labeled_data s = ∅;
  idle_count : HistogramCollector.count s = 0;
  idle_reporting : reporting s = None;
  idle_running : running s = true;
  idle_percentiles : valid_percentiles (percentiles (reporter s));
  idle_known : known_wf hasher (known_labels (reporter s));
}.

(** A window: every point is reported and received before the timeout. *)
Definition window (pts : list (list string * Point)) : list event :=
  flat_map (fun '(ls, v) => [Report (HistogramLabels.new hasher ls) v; Recv]) pts ++ [Timeout; Reported].

Definition collect (pts : list (list string * Point)) : HistogramReporter.labeled_data :=
  foldl (fun data '(ls, v) => push data (HistogramLabels.new hasher ls) v) ∅ pts.

Lemma collect_snoc pts ls v : collect (pts ++ [(ls, v)]) = push (collect pts) (HistogramLabels.new hasher ls) v.
Proof. unfold collect. by rewrite foldl_app. Qed.

Lemma points_snoc ls pts ls' v : points ls (pts ++ [(ls', v)]) = points ls pts ++ (if decide (ls' = ls) then [v] else []).
Proof. unfold points. rewrite filter_app, fmap_app. f_equal. rewrite filter_cons. cbn [fst]. by case_decide. Qed.

(** No two of the labels have the same hash. *)
Definition collision_free (labels : list (list string)) : Prop :=
  forall a b, a ∈ labels -> b ∈ labels -> hasher a = hasher b -> a = b.

Lemma collect_lookup pts all h : collision_free all -> pts.*1 ⊆ all ->
  match collect pts !! h with
  | Some (l, d) => exists ls, ls ∈ all /\ h = hasher ls /\ l = HistogramLabels.new hasher ls /\ d = points ls pts /\ d <> []
  | None => forall ls, ls ∈ all -> h = hasher ls -> points ls pts = []
  end.
Proof.
  intros Hcf. induction pts as [|[ls v] pts IH] using rev_ind; intros Hsub; [by rewrite (lookup_empty h : collect [] !! h = None)|].
  rewrite fmap_app in Hsub. specialize (IH ltac:(set_solver)). assert (ls ∈ all) as Hls by (apply Hsub; set_solver).
  rewrite collect_snoc. unfold push. cbn [HistogramLabels.hash HistogramLabels.new].
  destruct (decide (h = hasher ls)) as [->|Hne].
  - rewrite lookup_insert_eq. destruct (collect pts !! hasher ls) as [[l d]|]; cbn [default from_option id fst snd].
    + destruct IH as (ls' & Hls' & Hh & -> & -> & Hd). apply Hcf in Hh as <-; [|done..]. exists ls. rewrite points_snoc, decide_True by done.
      split_and!; try done. by destruct (points ls pts).
    + exists ls. rewrite points_snoc, decide_True, (IH ls) by done. by split_and!.
  - rewrite lookup_insert_ne by done. destruct (collect pts !! h) as [[l d]|].
    + destruct IH as (ls' & Hls' & -> & -> & -> & Hd). exists ls'. rewrite points_snoc, decide_False, app_nil_r by congruence. by split_and!.
    + intros ls' Hls' ->. rewrite points_snoc, decide_False, app_nil_r by congruence. by apply IH.
Qed.

Lemma collect_one sn data n r l v : n + 1 <= MAX_POINTS ->
  foldM step (HistogramCollector.mk [] sn data n r None true) [Report l v; Recv] = Ok (HistogramCollector.mk [] sn (push data l v) (n + 1) r None true).
Proof. intros Hn. apply N.ltb_ge in Hn. cbn -[MAX_POINTS N.ltb push]. unfold receive. cbn -[MAX_POINTS N.ltb push]. by rewrite Hn. Qed.

(** The points of a window that is not too large are all collected. *)
Lemma collect_run s pts : idle s -> N.of_nat (length pts) <= MAX_POINTS ->
  run s (flat_map (fun '(ls, v) => [Report (HistogramLabels.new hasher ls) v; Recv]) pts) =
    Ok (HistogramCollector.mk [] (senders s) (collect pts) (N.of_nat (length pts)) (reporter s) None true).
Proof.
  intros [H1 H2 H3 H4 H5 _ _]. induction pts as [|[ls v] pts IH] using rev_ind; intros Hlen.
  { destruct s. cbn in *. by subst. }
  rewrite length_app in Hlen |- *. cbn [length] in *. unfold run in *. rewrite flat_map_app, foldM_app, IH by lia.
  cbn [mbind outcome_bind flat_map app]. rewrite collect_one by lia. by rewrite collect_snoc, Nat2N.inj_add.
Qed.

Lemma collect_wf pts all : collision_free all -> pts.*1 ⊆ all -> N.of_nat (length pts) <= MAX_POINTS -> data_wf hasher (collect pts).
Proof.
  intros Hcf Hsub Hlen h [l d] Hd. pose proof (collect_lookup pts all h Hcf Hsub) as Hc. rewrite Hd in Hc.
  destruct Hc as (ls & _ & -> & -> & -> & Hne). split_and!; [done..|]. unfold small, points. cbn [snd].
  rewrite length_fmap. pose proof (length_filter (fun p : list string * N => p.1 = ls) pts). unfold MAX_POINTS in *.
  assert (500000 * 1000 < u64_modulus) by done. lia.
Qed.

(** A window of at most [MAX_POINTS] points is reported exactly: the gauges of labels with
    points in the window are set to the percentiles of those points, their counters grow by
    the sum and the number of them, the gauges of known labels without a point are reset, and
    no other counter changes. *)
Theorem window_reported s pts ls : idle s -> N.of_nat (length pts) <= MAX_POINTS ->
  collision_free (ls :: pts.*1) ->
  exists s', run s (window pts) = Ok s' /\ idle s' /\
    (points ls pts <> [] -> recorded (reporter s) (reporter s') ls (points ls pts)) /\
    (points ls pts = [] -> sum (reporter s') !! ls = sum (reporter s) !! ls /\ HistogramReporter.count (reporter s') !! ls = HistogramReporter.count (reporter s) !! ls) /\
    (points ls pts = [] -> known_labels (reporter s) !! hasher ls = Some (HistogramLabels.new hasher ls) ->
       forall p, p ∈ percentiles (reporter s) -> gauge (reporter s') !! (ls ++ [format_pct1000 p]) = Some 0%Z).
Proof.
  intros Hs Hlen Hcf. pose proof Hs as [H1 H2 H3 H4 H5 Hv Hk].
  assert (pts.*1 ⊆ ls :: pts.*1) as Hsub by set_solver.
  destruct (report_spec hasher (reporter s) (collect pts) Hv Hk (collect_wf pts _ Hcf Hsub Hlen)) as (r & Hr & Hp & Hk' & Hrec & Hun & Hz).
  exists (HistogramCollector.mk [] (senders s) ∅ 0 r None true). unfold window, run. rewrite foldM_app.
  pose proof (collect_run s pts Hs Hlen) as Hc. unfold run in Hc. rewrite Hc.
  cbn [mbind outcome_bind foldM step timeout running reporting HistogramCollector.labeled_data reporter channel senders]. rewrite Hr.
  cbn [mbind outcome_bind reporter]. pose proof (collect_lookup pts _ (hasher ls) Hcf Hsub) as Hl. split_and!.
  - done.
  - split; cbn; rewrite ?Hp; done.
  - intros Hne. apply Hrec. destruct (collect pts !! hasher ls) as [[l d]|]; [|by destruct Hne; apply Hl; [set_solver|]].
    destruct Hl as (ls' & Hls' & Hh & -> & -> & _). apply Hcf in Hh as <-; [done|set_solver|done].
  - intros He. apply Hun. intros h [l d] Hd Heq. cbn [fst] in Heq. pose proof (collect_lookup pts _ h Hcf Hsub) as Hl'. rewrite Hd in Hl'.
    destruct Hl' as (ls' & _ & -> & -> & -> & Hne). cbn in Heq. subst ls'. done.
  - intros He Hkn p Hp'. apply Hz; [done| |done]. destruct (collect pts !! hasher ls) as [[l d]|]; [|done].
    destruct Hl as (ls' & Hls' & Hh & _ & -> & Hne). apply Hcf in Hh as <-; [done|set_solver|done].
Qed.

End collector.

(** A point is counted and dropped once the window holds [MAX_POINTS] points. *)
Lemma overflow_dropped s point : MAX_POINTS <= HistogramCollector.count s ->
  receive s point = HistogramCollector.mk (channel s) (senders s) (HistogramCollector.labeled_data s) (HistogramCollector.count s + 1)
    (reporter s) (reporting s) (running s).
Proof. intros Hc. unfold receive. destruct (N.ltb_spec MAX_POINTS (HistogramCollector.count s + 1)); [done|lia]. Qed.

(** When the senders are gone the collector ends, except after [MAX_POINTS] points: it then
    receives nothing over and over until the timeout. *)
Lemma closed_channel s : running s = true -> senders s = false -> channel s = [] ->
  exists s', step s Recv = Ok s' /\ running s' = (MAX_POINTS <=? HistogramCollector.count s).
Proof.
  intros Hr Hs Hc. cbn [step]. rewrite Hr, Hc, Hs. eexists. split; [done|]. unfold receive. cbn [running]. rewrite Hr.
  destruct (N.ltb_spec MAX_POINTS (HistogramCollector.count s + 1)), (N.leb_spec MAX_POINTS (HistogramCollector.count s)); (done || lia).
Qed.

(** A window that ends while the reporter is busy is dropped. *)
Lemma busy_window_dropped s data : reporting s = Some data -> reporting (timeout s) = Some data /\ HistogramCollector.labeled_data (timeout s) = ∅.
Proof. intros Hr. unfold timeout. by rewrite Hr. Qed.

(** The percentile 1000 is no index of the points: the report panics. *)
Lemma whole_percentile_panics s label data : percentiles s = [1000] -> data <> [] -> small data -> report_label s label data = Panic.
Proof.
  intros Hp Hne Hsm. unfold report_label, set_percentiles. cbn [percentiles]. rewrite bool_decide_false, Hp by done. cbn [foldM negb assert mbind outcome_bind].
  unfold small in Hsm. unfold pct1000_index. assert (length (sort_by_key id data) = length data) as Hl by (by rewrite sort_by_key_perm).
  rewrite Hl, wrap64_small, N.div_mul, Nat2N.id, lookup_ge_None_2 by (done || lia). done.
Qed.

End CollectorFacts.

(** ** Scopes *)

Module ScopeFacts.
Import MonitoredScope.

Definition entered (name : string) (s : t) : nat := length (filter (fun g => g = (name, true)) (guards s)).

Definition gauge (name : string) (s : t) : Z := from_option (fun m => default 0%Z (scope_entrance m !! name)) 0%Z (METRICS s).

(** Guards that hold metrics were made with them. *)
Definition wf (s : t) : Prop := METRICS s = None -> Forall (fun g => g.2 = false) (guards s).

Lemma entered_delete name s i g m : guards s !! i = Some g ->
  entered name s = (entered name (mk m (delete i (guards s))) + if decide (g = (name, true)) then 1 else 0)%nat.
Proof.
  intros Hi. unfold entered. cbn [guards]. rewrite <-(take_drop_middle _ _ _ Hi) at 1. rewrite delete_take_drop, !filter_app, !length_app, filter_cons.
  destruct (decide (g = (name, true))); cbn [length]; lia.
Qed.

Lemma step_balanced s e name : wf s -> gauge name s = Z.of_nat (entered name s) ->
  wf (step s e) /\ gauge name (step s e) = Z.of_nat (entered name (step s e)).
Proof.
  intros Hwf Hg. destruct e as [|n|i ns]; cbn [step].
  - unfold init_metrics. destruct (METRICS s) eqn:Hm; [done|]. split; [done|]. unfold gauge in *. rewrite Hm in Hg. exact Hg.
  - unfold monitored_scope. destruct (METRICS s) as [m|] eqn:Hm; (split; [|unfold gauge, entered in *; rewrite Hm in Hg; cbn [from_option METRICS guards scope_entrance] in *]).
    + done.
    + rewrite filter_cons. unfold GaugeGuard.acquire. destruct (decide (n = name)) as [->|Hne].
      * rewrite lookup_insert_eq, decide_True by done. cbn. lia.
      * rewrite lookup_insert_ne, decide_False by congruence. done.
    + intros _. constructor; [done|]. by apply Hwf.
    + rewrite filter_cons, decide_False by done. done.
  - unfold drop_guard. destruct (guards s !! i) as [[n b]|] eqn:Hi; [|done].
    pose proof (fun m => entered_delete name s i (n, b) m Hi) as Hd. destruct (METRICS s) as [m|] eqn:Hm.
    + destruct b; (split; [done|]).
      * specialize (Hd (Some (mk_metrics (scope_iterations m)
            (<[n := (default 0 (scope_duration_ns m !! n) + as_i64 (wrap64 ns))%Z]> (scope_duration_ns m)) (GaugeGuard.drop (scope_entrance m) n)))).
        unfold gauge in *. rewrite Hm in Hg. cbn [from_option METRICS scope_entrance] in Hg |- *. unfold GaugeGuard.drop in *. destruct (decide (n = name)) as [->|Hne].
        -- rewrite lookup_insert_eq. rewrite decide_True in Hd by done. cbn [default from_option id]. lia.
        -- rewrite lookup_insert_ne by done. rewrite decide_False in Hd by congruence. lia.
      * specialize (Hd (Some m)). rewrite decide_False in Hd by congruence. unfold gauge in *. rewrite Hm in Hg. cbn [from_option METRICS] in *. lia.
    + specialize (Hwf Hm) as Hall. rewrite Forall_forall in Hall. pose proof (Hall _ (list_elem_of_lookup_2 _ _ _ Hi)) as Hb. cbn in Hb. subst b.
      split; [intros _; cbn; apply Forall_delete, Forall_forall, Hall|]. specialize (Hd None). rewrite decide_False in Hd by congruence.
      unfold gauge in *. rewrite Hm in Hg. cbn [from_option METRICS] in *. lia.
Qed.

(** The gauge of a scope is the number of its guards that are alive and were made after the
    metrics, whenever those are started. *)
Lemma scopes_balanced events name : let s := run (mk None []) events in gauge name s = Z.of_nat (entered name s).
Proof.
  enough (forall s, wf s -> gauge name s = Z.of_nat (entered name s) -> gauge name (run s events) = Z.of_nat (entered name (run s events))) as Hall
    by (apply Hall; [intros _; by constructor|done]).
  induction events as [|e events IH]; intros s Hwf Hg; [done|]. destruct (step_balanced s e name Hwf Hg) as [Hw He]. by apply IH.
Qed.

End ScopeFacts.

(** * The properties at concrete inputs *)

Section witnesses.
Import HistogramReporter HistogramCollector ReporterFacts CollectorFacts.

(** A hash that tells the labels of the example apart. *)
Definition demo_hasher (ls : list string) : N := match ls with ["a"%string] => 1 | ["b"%string] => 2 | _ => 0 end.

Definition demo_points : list (list string * N) :=
  [(["a"%string], 4); (["b"%string], 10); (["a"%string], 2); (["a"%string], 3); (["a"%string], 1); (["b"%string], 20)].

Lemma demo_window_values :
  match run (HistogramCollector.new [500; 900]) (window demo_hasher demo_points) with
  | Ok s' => HistogramReporter.gauge (reporter s') !! ["a"%string; "50"%string] = Some 3%Z /\ HistogramReporter.sum (reporter s') !! ["a"%string] = Some 10
  | _ => False
  end.
Proof. by vm_compute. Qed.

(** The window of the test of the repository: of 1, 2, 3 and 4 the median is 3. *)
Lemma window_reported_witness :
  exists s', run (HistogramCollector.new [500; 900]) (window demo_hasher demo_points) = Ok s' /\
    recorded (reporter (HistogramCollector.new [500; 900])) (reporter s') ["a"%string] [4; 2; 3; 1] /\
    HistogramReporter.gauge (reporter s') !! ["a"%string; "50"%string] = Some 3%Z /\
    HistogramReporter.sum (reporter s') !! ["a"%string] = Some 10.
Proof.
  destruct (window_reported demo_hasher (HistogramCollector.new [500; 900]) demo_points ["a"%string]) as (s' & Hs & _ & Hr & _).
  - split; try done. split; [by repeat constructor|]. apply (bool_decide_unpack _). by vm_compute.
  - by vm_compute.
  - intros a b Ha Hb. unfold demo_points in *. cbn in Ha, Hb. rewrite !elem_of_cons, elem_of_nil in Ha, Hb.
    destruct_or?; subst; done.
  - assert (points ["a"%string] demo_points = [4; 2; 3; 1]) as Hp by by vm_compute. rewrite Hp in Hr.
    exists s'. split; [done|]. split; [by apply Hr|].
    pose proof demo_window_values as Hv. rewrite Hs in Hv. exact Hv.
Defined.

End witnesses.
