(* ===== verification/Encodings.v ===== *)
(** What a node writes and reads as text and bytes: keys, signatures, the index of workers,
    the handshake of a peer, and the arguments of the faucet.
    Models crates/types/src/crypto/{bls_public_key,bls_signature,network}.rs (serialization and
    proofs of possession of network keys), crates/types/src/worker/info.rs ([WorkerIndex]),
    crates/types/src/helpers.rs, crates/execution/tn-rpc/src/{handshake,rpc_ext,error}.rs and
    crates/execution/faucet/src/cli_ext.rs. *)

From Stdlib Require Import Ascii.
From stdpp Require Import pretty.
From S2P Require Import Prelude Committee Certificate Demo CertValidator Genesis.

(** * Numbers as text *)

(** [from_str] of an unsigned integer type with the given number of values: digits after an
    optional sign. *)
Fixpoint parse_digits (bound n : N) (s : string) : option N :=
  match s with
  | EmptyString => Some n
  | String c s =>
      let d := N_of_ascii c in
      if (48 <=? d) && (d <=? 57) then
        let n := n * 10 + (d - 48) in
        if n <? bound then parse_digits bound n s else None
      else None
  end.

Definition parse_unsigned (bound : N) (s : string) : option N :=
  let s := match s with String "+"%char s' => s' | _ => s end in
  match s with EmptyString => None | _ => parse_digits bound 0 s end.

Definition u16_modulus : N := 2 ^ 16.

(** * Serialized values *)

(** What a serializer is given: text when the format is read by people. *)
Inductive wire := WireStr (s : string) | WireBytes (b : list N).

Section serde.
Context `{KeyOps}.

Definition serialize_bytes (is_human_readable : bool) (b : list N) : wire :=
  if is_human_readable then WireStr (bs58_encode b) else WireBytes b.

(** The visitor gets what is on the wire, if that is what the format holds. *)
Definition deserialize_bytes {A} (visit_bytes : list N -> outcome unit A) (is_human_readable : bool) (w : wire) : outcome unit A :=
  match w, is_human_readable with
  | WireStr s, true => bytes ← ok_or (bs58_decode s) (); visit_bytes bytes
  | WireBytes b, false => visit_bytes b
  | _, _ => Err ()
  end.
End serde.

(** The keys of the network (libp2p). *)
Class NetworkKeyOps := {
  net_public : N -> N;
  encode_protobuf : N -> list N;
  try_decode_protobuf : list N -> option N;
  net_sign : N -> list N -> option (list N);
  net_verify : N -> list N -> list N -> bool;
}.

(** Public keys and signatures as blst reads them; they are written with [pk_bytes] and
    [signature_bytes]. *)
Class BlstBytes := {
  pk_from_bytes : list N -> option BlsPublicKey;
  pk_deserialize : list N -> option BlsPublicKey;
  signature_from_bytes : list N -> option N;
}.

Module NetworkPublicKey.
Section key.
Context `{KeyOps} `{NetworkKeyOps}.

Definition serialize (is_human_readable : bool) (k : N) : wire := serialize_bytes is_human_readable (encode_protobuf k).

Definition visit_bytes (v : list N) : outcome unit N := ok_or (try_decode_protobuf v) ().

Definition deserialize (is_human_readable : bool) (w : wire) : outcome unit N := deserialize_bytes visit_bytes is_human_readable w.

End key.
End NetworkPublicKey.

Module BlsKey.
Section key.
Context `{KeyOps} `{BlstBytes}.

(** A public key with its bytes. *)
Record t := mk {
  pubkey : BlsPublicKey;
  bytes : list N;
}.

Definition from_core (pubkey : BlsPublicKey) : t := mk pubkey (pk_bytes pubkey).

(** [BlsPublicKeyBytes::from] *)
Definition to_bytes (k : t) : list N := pk_bytes (pubkey k).

(** [BlsPublicKey::from] panics for bytes that are no key. *)
Definition from_bytes (bytes : list N) : outcome unit t :=
  pubkey ← expect (pk_from_bytes bytes); Ok (mk pubkey bytes).

Definition encode_base58 (k : t) : string := bs58_encode (to_bytes k).

(** Keys are equal when the points are, and ordered by their bytes. *)
Definition eq (a b : t) : bool := bool_decide (pubkey a = pubkey b).

Fixpoint lex_compare (a b : list N) : comparison :=
  match a, b with
  | [], [] => Eq
  | [], _ => Lt
  | _, [] => Gt
  | x :: a, y :: b => match x ?= y with Eq => lex_compare a b | c => c end
  end.

Definition cmp (a b : t) : comparison := lex_compare (bytes a) (bytes b).

(** The bytes of a [BlsPublicKeyBytes] are read as a key, to be sure that they are one. *)
Definition visit_bytes (v : list N) : outcome unit (list N) :=
  pubkey ← ok_or (pk_deserialize v) (); Ok (to_bytes (from_core pubkey)).

Definition serialize (is_human_readable : bool) (k : t) : wire := serialize_bytes is_human_readable (to_bytes k).

Definition deserialize (is_human_readable : bool) (w : wire) : outcome unit t :=
  bytes ← deserialize_bytes visit_bytes is_human_readable w; from_bytes bytes.

End key.
End BlsKey.

Module BlsSig.
Section signature.
Context `{KeyOps} `{BlstBytes}.

Definition from_bytes (bytes : list N) : outcome unit N := ok_or (signature_from_bytes bytes) ().

Definition serialize (is_human_readable : bool) (sig : N) : wire := serialize_bytes is_human_readable (signature_bytes sig).

Definition deserialize (is_human_readable : bool) (w : wire) : outcome unit N :=
  deserialize_bytes from_bytes is_human_readable w.

(** The point at infinity: the first byte of 48 tells that it is compressed and infinite. *)
Definition default : outcome unit N :=
  match from_bytes (192 :: replicate 47 0) with Ok s => Ok s | _ => Panic end.

End signature.
End BlsSig.

(** * The index of workers *)

Module WorkerIndex.

Definition t : Type := gmap WorkerId WorkerInfo.t.

(** A map with the identifiers as text: integers are no keys of a TOML file. *)
Definition serialize (index : t) : list (string * WorkerInfo.t) :=
  (fun kv => (pretty kv.1, kv.2)) <$> btree_iter index.

Definition visit_map (entries : list (string * WorkerInfo.t)) : outcome unit t :=
  foldM (fun (m : t) '(key, value) => key ← ok_or (parse_unsigned u16_modulus key) (); Ok (<[key := value]> m)) (∅ : t) entries.

Definition insert (index : t) (worker_id : WorkerId) (worker_info : WorkerInfo.t) : t := <[worker_id := worker_info]> index.

Definition first_worker (index : t) : outcome unit (WorkerId * WorkerInfo.t) := ok_or (first_key_value index) ().

End WorkerIndex.

(** * The handshake of a peer *)

Section proof_of_possession.
Context `{KeyOps} `{NetworkKeyOps}.

(** The message that is signed: the key and the encoded genesis, with the intent. *)
Definition handshake_message (public : N) (genesis_bytes : list N) : list N :=
  Intent.message (Intent.telcoin ProofOfPossession) (encode_vec (encode_protobuf public ++ genesis_bytes)).

Definition generate_proof_of_possession_network (keypair : N) (genesis_bytes : list N) : outcome unit (list N) :=
  expect (net_sign keypair (handshake_message (net_public keypair) genesis_bytes)).

Definition verify_proof_of_possession_network (proof : list N) (public_key : N) (genesis_bytes : list N) : bool :=
  net_verify public_key (handshake_message public_key genesis_bytes) proof.

End proof_of_possession.

Module Handshake.
Section handshake.
Context `{KeyOps} `{NetworkKeyOps}.

Record t := mk {
  network_key : N;
  proof : list N;
  address : string;
}.

Definition verify_proof (h : t) (genesis_bytes : list N) : bool :=
  verify_proof_of_possession_network (proof h) (network_key h) genesis_bytes.

(** [HandshakeBuilder] *)
Record builder := mk_builder {
  network_keypair : N;
  builder_address : string;
  genesis : list N;
}.

Definition build (b : builder) : outcome unit t :=
  proof ← generate_proof_of_possession_network (network_keypair b) (genesis b);
  Ok (mk (net_public (network_keypair b)) proof (builder_address b)).

End handshake.
End Handshake.

Inductive TNRpcError := InvalidProofOfPossession.

(** The code of the JSON-RPC error. *)
Definition rpc_error_code (e : TNRpcError) : N := match e with InvalidProofOfPossession => 401 end.

(** The [validatorHandshake] method, with the genesis of the chain of the node. *)
Definition handshake `{KeyOps} `{NetworkKeyOps} (chain_genesis : list N) (h : Handshake.t) : outcome TNRpcError unit :=
  if negb (Handshake.verify_proof h chain_genesis) then Err InvalidProofOfPossession else Ok ().

(** * Free ports *)

Inductive PortError := PortIoError | NoPortsAvailable.

Definition MAX_RETRIES : nat := 1000.

(** [bind n] is the port that the system gives at the [n]th attempt. *)
Fixpoint get_available_port (bind : nat -> option N) (max_retries : nat) : outcome PortError N :=
  match max_retries with
  | O => Err NoPortsAvailable
  | S n => match bind n with Some port => Ok port | None => get_available_port bind n end
  end.

Definition get_available_tcp_port (bind : nat -> option N) : option N :=
  match get_available_port bind MAX_RETRIES with Ok port => Some port | _ => None end.

(** * The arguments of the faucet *)

Module FaucetArgs.

Definition u256_modulus : N := 2 ^ 256.

(** [U256::checked_pow] *)
Definition checked_pow (base exp : N) : option N := let r := base ^ exp in if r <? u256_modulus then Some r else None.

(** [10 * decimal_amount] is computed on 16 bits, and wraps. *)
Definition parse_u256_from_decimal_value (value : string) : outcome unit N :=
  decimal_amount ← ok_or (parse_unsigned u16_modulus value) ();
  ok_or (checked_pow ((10 * decimal_amount) mod u16_modulus) 18) ().

Section args.
(** The keys of secp256k1: from PEM (k256), from bytes and from hexadecimal digits; the
    compressed bytes and the address of a key. *)
Context (PublicKey : Type) (from_public_key_pem : string -> option (list N)) (from_slice : list N -> option PublicKey)
  (from_str : string -> option PublicKey) (serialize : PublicKey -> list N) (public_key_to_address : PublicKey -> N)
  (contains : string -> string -> bool).

Definition parse_pubkey (value : string) : outcome unit PublicKey :=
  if contains value "-----BEGIN PUBLIC KEY-----"%string then
    encoded_point ← ok_or (from_public_key_pem value) ();
    ok_or (from_slice encoded_point) ()
  else ok_or (from_str value) ().

Record t := mk {
  wait_period : N;
  contract_address : N;
  chain_id : N;
  public_key : PublicKey;
  google_kms : bool;
  project_id : option string;
  key_locations : option string;
  key_rings : option string;
  crypto_keys : option string;
  crypto_key_versions : option string;
}.

Record FaucetWallet := mk_wallet {
  address : N;
  public_key_bytes : list N;
  name : string;
}.

Record FaucetConfig := mk_config {
  config_wait_period : N;
  config_chain_id : N;
  wallet : FaucetWallet;
  config_contract_address : N;
}.

(** The configuration that the extension of the RPC is spawned with. *)
Definition create_rpc_extension (a : t) : outcome unit FaucetConfig :=
  if google_kms a then
    google_project_id ← expect (project_id a);
    locations ← expect (key_locations a);
    key_rings ← expect (key_rings a);
    crypto_keys ← expect (crypto_keys a);
    crypto_key_versions ← expect (crypto_key_versions a);
    let name := ("projects/" +:+ google_project_id +:+ "/locations/" +:+ locations +:+ "/keyRings/" +:+ key_rings +:+
                 "/cryptoKeys/" +:+ crypto_keys +:+ "/cryptoKeyVersions/" +:+ crypto_key_versions)%string in
    Ok (mk_config (wait_period a) (chain_id a)
          (mk_wallet (public_key_to_address (public_key a)) (serialize (public_key a)) name) (contract_address a))
  else Err ().

End args.
End FaucetArgs.

(** * Theorems *)

Module TextFacts.

Lemma char_value d : d < 10 -> N_of_ascii (pretty_N_char d) = 48 + d.
Proof.
  intros Hd. assert (d ∈ (N.of_nat <$> seq 0 10)) as Hin. { apply list_elem_of_fmap. exists (N.to_nat d). rewrite N2Nat.id, elem_of_seq. lia. }
  cbn in Hin. repeat (apply elem_of_cons in Hin as [->|Hin]; [by vm_compute|]). by apply not_elem_of_nil in Hin.
Qed.

Lemma parse_digit bound n d s : d < 10 -> n * 10 + d < bound ->
  parse_digits bound n (String (pretty_N_char d) s) = parse_digits bound (n * 10 + d) s.
Proof.
  intros Hd Hb. cbn [parse_digits]. rewrite char_value by done. replace (48 + d - 48) with d by lia.
  destruct (N.leb_spec 48 (48 + d)), (N.leb_spec (48 + d) 57); [|lia..]. cbn [andb]. by apply N.ltb_lt in Hb as ->.
Qed.

Lemma parse_pretty_go bound x s : 0 < x < bound -> parse_digits bound 0 (pretty_N_go x s) = parse_digits bound x s.
Proof.
  revert s. induction (N.lt_wf_0 x) as [x _ IH]. intros s Hx. rewrite pretty_N_go_step by lia.
  assert (x = x / 10 * 10 + x mod 10) as He by (pose proof (N.div_mod x 10); lia). assert (x mod 10 < 10) by (by apply N.mod_lt).
  destruct (decide (x / 10 = 0)) as [H0|H0].
  - rewrite H0, pretty_N_go_0, parse_digit by lia. f_equal. lia.
  - assert (x / 10 < x) by (apply N.div_lt; lia). rewrite IH, parse_digit by lia. f_equal. lia.
Qed.

(** A number is read back from its decimal digits. *)
Lemma parse_pretty bound n : n < bound -> parse_unsigned bound (pretty n) = Some n.
Proof.
  intros Hn. assert (parse_digits bound 0 (pretty n) = Some n) as Hp.
  { unfold pretty, pretty_N. case_decide as H0; [subst n|by rewrite parse_pretty_go by lia]. exact (parse_digit bound 0 0 EmptyString ltac:(lia) Hn). }
  pose proof (FlagFacts.pretty_digits n) as Hd. unfold parse_unsigned. destruct (pretty n) as [|c s] eqn:He.
  { unfold pretty, pretty_N in He. case_decide; [done|]. cbn [parse_digits] in Hp. by injection Hp as <-. }
  apply Forall_cons in Hd as [Hc _]. unfold FlagFacts.digit in Hc.
  destruct (decide (c = "+"%char)) as [->|Hne]; [vm_compute in Hc; by destruct Hc|].
  by destruct c as [[] [] [] [] [] [] [] []].
Qed.

Lemma visit_entries (l : list (N * WorkerInfo.t)) (m : WorkerIndex.t) : Forall (fun kv => kv.1 < u16_modulus) l ->
  foldM (fun (m : WorkerIndex.t) '(key, value) => key ← @ok_or unit N (parse_unsigned u16_modulus key) (); Ok (<[key := value]> m)) m
    ((fun kv => (pretty kv.1, kv.2)) <$> l) = Ok (foldl (fun m kv => <[kv.1 := kv.2]> m) m l).
Proof.
  intros Hl. revert m. induction Hl as [|[k v] l Hk _ IH]; intros m; [done|]. cbn [foldM fmap list_fmap fst snd foldl].
  rewrite parse_pretty by done. cbn [ok_or mbind outcome_bind]. apply IH.
Qed.

(** An index of workers that is written and read is the same. *)
Theorem worker_index_roundtrip (index : WorkerIndex.t) : map_Forall (fun (k : N) _ => k < u16_modulus) (index : gmap N WorkerInfo.t) ->
  WorkerIndex.visit_map (WorkerIndex.serialize index) = Ok index.
Proof.
  intros Hall. unfold WorkerIndex.visit_map, WorkerIndex.serialize. rewrite visit_entries; [f_equal; apply collect_map_btree|].
  rewrite Forall_forall. intros [k v] Hin%elem_of_btree_iter. by apply (Hall k v).
Qed.

Lemma visit_map_returns entries : returns (WorkerIndex.visit_map entries).
Proof. apply returns_foldM. intros m [k v] _. apply returns_bind; auto with returns. Qed.

(** Text that is no 16-bit number is refused. *)
Lemma worker_index_refused entries key value : parse_unsigned u16_modulus key = None ->
  WorkerIndex.visit_map (entries ++ [(key, value)]) = Err ().
Proof.
  intros Hk. pose proof (visit_map_returns entries) as [Hp Hf]. unfold WorkerIndex.visit_map in *. rewrite foldM_app.
  destruct (foldM _ _ entries) as [m|[]| |]; [cbn; by rewrite Hk|done..].
Qed.

End TextFacts.

(** What the code relies on of the libraries: keys and signatures are read back from their
    bytes, a signature verifies for the key and the message it was made for, and for no
    other. *)
Class NetworkKeyLaws `{KeyOps} `{NetworkKeyOps} := {
  protobuf_roundtrip k : try_decode_protobuf (encode_protobuf k) = Some k;
  net_signs k m : exists s, net_sign k m = Some s;
  net_verify_iff k m s pk m' : net_sign k m = Some s -> net_verify pk m' s = true <-> pk = net_public k /\ m' = m;
  encode_vec_inj b b' : encode_vec b = encode_vec b' -> b = b';
}.

Class BlstBytesLaws `{KeyOps} `{BlstBytes} := {
  pk_bytes_roundtrip k : pk_from_bytes (pk_bytes k) = Some k;
  pk_deserialize_roundtrip k : pk_deserialize (pk_bytes k) = Some k;
  signature_roundtrip s : signature_from_bytes (signature_bytes s) = Some s;
}.

Module KeyTextFacts.
Section facts.
Context `{KeyLaws} `{!NetworkKeyOps} `{!NetworkKeyLaws} `{!BlstBytes} `{!BlstBytesLaws}.

Lemma bytes_roundtrip {A} (visit : list N -> outcome unit A) human b :
  deserialize_bytes visit human (serialize_bytes human b) = visit b.
Proof. destruct human; cbn; [by rewrite bs58_roundtrip|done]. Qed.

(** A key whose bytes are those of its point. *)
Definition key_wf (k : BlsKey.t) : Prop := BlsKey.bytes k = BlsKey.to_bytes k.

(** Keys and signatures are read back as they were written, as text and as bytes. *)
Lemma keys_roundtrip human (nk : N) (k : BlsKey.t) (sig : N) : key_wf k ->
  NetworkPublicKey.deserialize human (NetworkPublicKey.serialize human nk) = Ok nk /\
  BlsKey.deserialize human (BlsKey.serialize human k) = Ok k /\
  BlsSig.deserialize human (BlsSig.serialize human sig) = Ok sig.
Proof.
  intros Hk. unfold NetworkPublicKey.deserialize, NetworkPublicKey.serialize, BlsKey.deserialize, BlsKey.serialize, BlsSig.deserialize, BlsSig.serialize.
  rewrite !bytes_roundtrip. unfold NetworkPublicKey.visit_bytes, BlsSig.from_bytes, BlsKey.visit_bytes.
  rewrite protobuf_roundtrip, signature_roundtrip. unfold BlsKey.to_bytes in *. rewrite pk_deserialize_roundtrip. cbn.
  unfold BlsKey.from_bytes, BlsKey.to_bytes. cbn. rewrite pk_bytes_roundtrip. cbn. destruct k. cbn in *. by rewrite Hk.
Qed.

(** Whatever is on the wire, reading a key does not panic, and gives a key whose bytes are
    those of its point. *)
Lemma key_read_returns human w : match BlsKey.deserialize human w with Ok k => key_wf k | r => r = Err () end.
Proof.
  unfold BlsKey.deserialize. destruct w as [s|b], human; cbn; try done.
  - destruct (bs58_decode s) as [b|]; cbn; [|done]. unfold BlsKey.visit_bytes. destruct (pk_deserialize b) as [pk|]; cbn; [|done].
    unfold BlsKey.from_bytes, BlsKey.to_bytes. cbn. by rewrite pk_bytes_roundtrip.
  - unfold BlsKey.visit_bytes. destruct (pk_deserialize b) as [pk|]; cbn; [|done].
    unfold BlsKey.from_bytes, BlsKey.to_bytes. cbn. by rewrite pk_bytes_roundtrip.
Qed.

Lemma lex_compare_eq a b : BlsKey.lex_compare a b = Eq <-> a = b.
Proof.
  revert b. induction a as [|x a IH]; intros [|y b]; cbn; try done.
  destruct (N.compare_spec x y) as [->|Hlt|Hlt]; [rewrite IH; split; congruence|split; [done|intros [=]; lia]..].
Qed.

(** The order of keys agrees with their equality. *)
Lemma key_order_eq a b : key_wf a -> key_wf b -> BlsKey.cmp a b = Eq <-> BlsKey.eq a b = true.
Proof.
  unfold key_wf, BlsKey.cmp, BlsKey.eq, BlsKey.to_bytes. intros -> ->. rewrite lex_compare_eq, bool_decide_eq_true. split; [|congruence].
  intros Heq. apply (f_equal pk_from_bytes) in Heq. rewrite !pk_bytes_roundtrip in Heq. by injection Heq.
Qed.

Lemma handshake_message_inj pk g g' : handshake_message pk g = handshake_message pk g' -> g = g'.
Proof. unfold handshake_message, Intent.message. intros Heq%app_inv_head%encode_vec_inj%app_inv_head. done. Qed.

(** A handshake is built for every key; a node accepts it, or one that carries its proof for
    whatever key and address, exactly when the key is the one that signed and the chain of
    the node has the genesis that was signed. *)
Theorem handshake_bound keypair address genesis :
  exists h, Handshake.build (Handshake.mk_builder keypair address genesis) = Ok h /\
    Handshake.network_key h = net_public keypair /\ Handshake.address h = address /\
    forall key address' chain_genesis,
      handshake chain_genesis (Handshake.mk key (Handshake.proof h) address') =
        if decide (key = net_public keypair /\ chain_genesis = genesis) then Ok () else Err InvalidProofOfPossession.
Proof.
  unfold Handshake.build, generate_proof_of_possession_network. cbn [Handshake.network_keypair Handshake.genesis Handshake.builder_address].
  destruct (net_signs keypair (handshake_message (net_public keypair) genesis)) as [s Hs]. rewrite Hs. cbn [expect mbind outcome_bind]. eexists. split; [done|].
  cbn [Handshake.network_key Handshake.address Handshake.proof]. split_and!; [done..|]. intros key address' chain. unfold handshake, Handshake.verify_proof, verify_proof_of_possession_network. cbn [Handshake.network_key Handshake.proof].
  pose proof (net_verify_iff _ _ _ key (handshake_message key chain) Hs) as Hv. case_decide as Hd.
  - destruct Hd as [-> ->]. by rewrite (proj2 Hv) by done.
  - destruct (net_verify _ _ _); [|done]. exfalso. apply Hd. destruct Hv as [[-> Hm] _]; [done|]. split; [done|]. by eapply handshake_message_inj.
Qed.

End facts.

(** The system is asked for a port at most as often as allowed, and the first port it gives
    is taken. *)
Lemma port_available bind n : match get_available_port bind n with
  | Ok port => exists i, (i < n)%nat /\ bind i = Some port /\ forall j, (i < j < n)%nat -> bind j = None
  | Err e => e = NoPortsAvailable /\ forall i, (i < n)%nat -> bind i = None
  | _ => False
  end.
Proof.
  induction n as [|n IH]; cbn [get_available_port]; [split; [done|lia]|]. destruct (bind n) as [p|] eqn:Hb.
  { exists n. split_and!; [lia|done|lia]. }
  destruct (get_available_port bind n) as [p|e| |]; [|split; [apply IH|]|done..].
  - destruct IH as (i & Hi & Hp & Hj). exists i. split_and!; [lia|done|]. intros j Hlt. destruct (decide (j = n)) as [->|]; [done|]. apply Hj. lia.
  - intros i Hi. destruct (decide (i = n)) as [->|]; [done|]. apply IH. lia.
Qed.

End KeyTextFacts.

Module FaucetArgsFacts.
Import FaucetArgs.

(** The 18th power of a number is never a multiple of 10 to the 18th, for the amounts that
    wrap. *)
Lemma wrapped_power w d : 6553 < d < u16_modulus -> w ^ 18 <> d * 10 ^ 18.
Proof.
  unfold u16_modulus. intros Hd Heq. destruct (decide (w <= 16)) as [Hle|]; [|destruct (decide (19 <= w)) as [Hge|]].
  - apply (N.pow_le_mono_l _ _ 18) in Hle. change (16 ^ 18) with 4722366482869645213696 in Hle. lia.
  - apply (N.pow_le_mono_l _ _ 18) in Hge. change (19 ^ 18) with 104127350297911241532841 in Hge. lia.
  - assert (w = 17 \/ w = 18) as [->| ->] by lia.
    + change (17 ^ 18) with 14063084452067724991009 in Heq. lia.
    + change (18 ^ 18) with 39346408075296537575424 in Heq. lia.
Qed.

(** The amount of TEL is right for 0 and for 1 only: the tenfold of the amount is raised to
    the 18th power, where the amount is meant to be multiplied with that power of ten. *)
Lemma faucet_amount_wrong d : d < u16_modulus ->
  parse_u256_from_decimal_value (pretty d) = Ok (d * 10 ^ 18) <-> d <= 1.
Proof.
  intros Hd. unfold parse_u256_from_decimal_value. rewrite TextFacts.parse_pretty by done. cbn [ok_or mbind outcome_bind]. rewrite ok_or_Ok.
  split.
  - unfold checked_pow. destruct (_ <? _); [|done]. intros [= Heq]. destruct (decide (6553 < d)); [by apply wrapped_power in Heq|].
    rewrite N.mod_small in Heq by (unfold u16_modulus; lia). destruct (decide (2 <= d)) as [H2|]; [|lia]. exfalso.
    rewrite N.pow_mul_l in Heq. assert (d ^ 18 = d) as Hp by lia. change 18 with (1 + 17) in Hp. rewrite N.pow_add_r, N.pow_1_r in Hp.
    apply (N.pow_le_mono_l _ _ 17) in H2. change (2 ^ 17) with 131072 in H2. nia.
  - intros Hle. assert (d = 0 \/ d = 1) as [->| ->] by lia; by vm_compute.
Qed.

(** Without Google KMS there is no extension; with it, a missing variable panics. *)
Lemma rpc_extension_cases PublicKey ser addr (a : t PublicKey) :
  match create_rpc_extension PublicKey ser addr a with
  | Ok c => google_kms _ a = true /\ config_chain_id c = chain_id _ a /\ address (wallet c) = addr (public_key _ a)
  | Err _ => google_kms _ a = false
  | Panic => google_kms _ a = true /\
      (project_id _ a = None \/ key_locations _ a = None \/ key_rings _ a = None \/ crypto_keys _ a = None \/ crypto_key_versions _ a = None)
  | OutOfFuel => False
  end.
Proof.
  unfold create_rpc_extension. destruct (google_kms _ a); [|done].
  destruct (project_id _ a), (key_locations _ a), (key_rings _ a), (crypto_keys _ a), (crypto_key_versions _ a); cbn; auto 10.
Qed.

End FaucetArgsFacts.

(** * The properties at concrete inputs *)

Section witnesses.

Import GenesisDemo.
(** Signatures that are the key and the message. *)
#[local] Instance toy_network_keys : NetworkKeyOps := {|
  net_public k := k;
  encode_protobuf k := [k];
  try_decode_protobuf b := head b;
  net_sign k m := Some (k :: m);
  net_verify pk m s := bool_decide (s = pk :: m);
|}.

#[local] Instance toy_network_key_laws : NetworkKeyLaws.
Proof.
  split; [done|by eexists| |done]. cbn. intros k m s pk m' [= <-]. rewrite bool_decide_eq_true. split; [by intros [= -> ->]|by intros [-> ->]].
Qed.

Lemma handshake_bound_witness :
  exists h, Handshake.build (Handshake.mk_builder 7 "/ip4/10.10.10.33/udp/49590"%string [1; 2]) = Ok h /\
    handshake [1; 2] (Handshake.mk 7 (Handshake.proof h) EmptyString) = Ok () /\
    handshake [1; 3] (Handshake.mk 7 (Handshake.proof h) EmptyString) = Err InvalidProofOfPossession /\
    handshake [1; 2] (Handshake.mk 8 (Handshake.proof h) EmptyString) = Err InvalidProofOfPossession.
Proof.
  destruct (KeyTextFacts.handshake_bound 7 "/ip4/10.10.10.33/udp/49590"%string [1; 2]) as (h & Hb & _ & _ & Hh).
  exists h. split; [done|]. rewrite !Hh. done.
Defined.

Definition demo_index : WorkerIndex.t :=
  WorkerIndex.insert (WorkerIndex.insert ∅ 10 (WorkerInfo.mk 1 "tx"%string "addr"%string)) 0 (WorkerInfo.mk 2 "tx"%string "addr"%string).

Lemma worker_index_roundtrip_witness :
  WorkerIndex.visit_map (WorkerIndex.serialize demo_index) = Ok demo_index /\ fst <$> WorkerIndex.serialize demo_index = ["0"; "10"]%string.
Proof.
  split; [|by vm_compute]. apply TextFacts.worker_index_roundtrip. unfold demo_index, WorkerIndex.insert.
  apply map_Forall_insert_2; [done|]. apply map_Forall_insert_2; [done|]. apply map_Forall_empty.
Defined.

End witnesses.
