(* ===== verification/Rocks.v ===== *)
(** The RocksDB backend beyond single operations: opening the database with its column
    families and options, optimistic transactions, and retrying them.
    Models crates/storage/src/rocks/mod.rs and the transactions and the opening of
    crates/storage/src/rocks/database.rs, and the opening of the databases in
    crates/storage/src/lib.rs.  The engine is a parameter, with its documented behaviour. *)

From stdpp Require Import pretty.
From S2P Require Import Prelude Storage Backends Committee Certificate Genesis Encodings.

(** * Retrying a transaction *)

Inductive TypedStoreError := RocksDBError | RetryableTransactionError | OtherStoreError.

(** [retry_transaction!] and [retry_transaction_forever!]: [attempts] are the results of the
    transaction one after the other; [OutOfFuel] stands for a loop that still goes on. *)
Fixpoint retry_loop {A} (max_retries : option nat) (retries : nat) (attempts : list (outcome TypedStoreError A)) : outcome TypedStoreError A :=
  match attempts with
  | [] => OutOfFuel
  | Err RetryableTransactionError :: attempts =>
      let retries := S retries in
      if from_option (fun m => (m <? retries)%nat) false max_retries then Err RetryableTransactionError
      else retry_loop max_retries retries attempts
  | status :: _ => status
  end.

Definition retry_transaction {A} (attempts : list (outcome TypedStoreError A)) : outcome TypedStoreError A :=
  retry_loop (Some 20%nat) 0 attempts.

Definition retry_transaction_forever {A} (attempts : list (outcome TypedStoreError A)) : outcome TypedStoreError A :=
  retry_loop None 0 attempts.

(** * Optimistic transactions *)

(** A transaction keeps its writes until it commits.  It remembers the sequence number of the
    database when it began: the commit is refused when a key it writes was written after
    that.  Every call but the one that begins a transaction can fail. *)
Inductive rocks_write :=
  | RocksPut (name : N) (key value : list N)
  | RocksDelete (name : N) (key : list N).

Definition written (w : rocks_write) : N * list N := match w with RocksPut n k _ | RocksDelete n k => (n, k) end.

Class RocksTransactions `{RocksEngine} := {
  RocksTxn : Type;
  transaction_opt : Rocks -> RocksTxn;
  txn_get_cf : Rocks -> RocksTxn -> N -> list N -> option (option (list N));
  txn_put_cf : RocksTxn -> N -> list N -> list N -> RocksTxn * bool;
  txn_delete_cf : RocksTxn -> N -> list N -> RocksTxn * bool;
  txn_commit : Rocks -> RocksTxn -> Rocks * bool;
  txn_writes : RocksTxn -> list rocks_write;
  txn_snapshot : RocksTxn -> N;
  sequence : Rocks -> N;
  last_write : Rocks -> N * list N -> N;
}.

Definition apply_write (s : RawStore) (w : rocks_write) : RawStore :=
  match w with
  | RocksPut n k v => match s !! n with Some m => <[n := <[k := v]> m]> s | None => s end
  | RocksDelete n k => match s !! n with Some m => <[n := delete k m]> s | None => s end
  end.

(** What the transaction itself wrote under a key last. *)
Definition own_write (ws : list rocks_write) (nk : N * list N) : option (option (list N)) :=
  last (omap (fun w => if bool_decide (written w = nk) then Some (match w with RocksPut _ _ v => Some v | RocksDelete _ _ => None end) else None) ws).

(** What a transaction reads: its own write, or what the tables hold. *)
Definition read_through (tables : RawStore) (ws : list rocks_write) (n : N) (k : list N) : option (list N) :=
  match own_write ws (n, k) with Some v => v | None => tables !! n ≫= fun m => m !! k end.

Definition conflict `{RocksTransactions} (d : Rocks) (t : RocksTxn) : bool :=
  existsb (fun w => txn_snapshot t <? last_write d (written w)) (txn_writes t).

Class RocksTransactionLaws `{RocksTransactions} := {
  transaction_law d : txn_writes (transaction_opt d) = [] /\ txn_snapshot (transaction_opt d) = sequence d;
  txn_put_law t n k v t' : txn_put_cf t n k v = (t', true) -> txn_writes t' = txn_writes t ++ [RocksPut n k v] /\ txn_snapshot t' = txn_snapshot t;
  txn_delete_law t n k t' : txn_delete_cf t n k = (t', true) -> txn_writes t' = txn_writes t ++ [RocksDelete n k] /\ txn_snapshot t' = txn_snapshot t;
  txn_get_law d t n k r : txn_get_cf d t n k = Some r -> r = read_through (rocks_tables d) (txn_writes t) n k;
  txn_commit_law d t d' : txn_commit d t = (d', true) -> conflict d t = false /\
    rocks_tables d' = foldl apply_write (rocks_tables d) (txn_writes t) /\
    (forall w, w ∈ txn_writes t -> sequence d < last_write d' (written w));
  txn_commit_fails d t d' : txn_commit d t = (d', false) -> rocks_tables d' = rocks_tables d;
}.

(** [RocksDbTxMut], on the database that it shares. *)
Module RocksDbTxMut.
Section txn.
Context `{Serializer} `{RocksTransactions}.

Definition write_txn (d : Rocks) : RocksTxn := transaction_opt d.

Definition txn_call (f : RocksTxn -> RocksTxn * bool) : action RocksTxn unit unit := fun t =>
  let '(t, ok) := f t in (t, ensure ok ()).

(** The table must exist, or the call panics. *)
Definition tx_get (d : Rocks) (t : RocksTxn) (name key : N) : outcome unit (option N) :=
  _ ← RocksDatabase.cf_handle d name;
  let key_buf := encode_key key in
  res ← ok_or (txn_get_cf d t name key_buf) ();
  match res with
  | Some bytes => v ← decode_value bytes; Ok (Some v)
  | None => Ok None
  end.

Definition tx_insert (d : Rocks) (name key value : N) : action RocksTxn unit unit :=
  _ ← lift (RocksDatabase.cf_handle d name);
  let key_buf := encode_key key in
  value_buf ← lift (encode_value value);
  txn_call (fun t => txn_put_cf t name key_buf value_buf).

Definition tx_remove (d : Rocks) (name key : N) : action RocksTxn unit unit :=
  _ ← lift (RocksDatabase.cf_handle d name);
  let key_buf := encode_key key in
  txn_call (fun t => txn_delete_cf t name key_buf).

(** Clearing a table does not wait for the commit. *)
Definition tx_clear_table (d : Rocks) (name : N) : Rocks * outcome unit unit := RocksDatabase.clear_table d name.

Definition commit (d : Rocks) (t : RocksTxn) : Rocks * outcome unit unit :=
  let '(d, ok) := txn_commit d t in (d, ensure ok ()).

(** The writes of a transaction that wait for its commit. *)
Definition tx_write (d : Rocks) (w : write) : action RocksTxn unit unit :=
  match w with
  | WInsert n k v => tx_insert d n k v
  | WRemove n k => tx_remove d n k
  | WClear _ => mret ()
  end.

Fixpoint tx_writes (d : Rocks) (ws : list write) : action RocksTxn unit unit :=
  match ws with
  | [] => mret ()
  | w :: ws => _ ← tx_write d w; tx_writes d ws
  end.

End txn.
End RocksDbTxMut.

(** * Column families *)

Section column_families.
Context {Options : Type} (default_options : Options).

(** Every column family that exists must be opened: the ones that are not asked for are
    opened with default options.  [existing] is what [list_cf] gives, if the database is
    there. *)
Definition populate_missing_cfs (input_cfs : list (string * Options)) (existing : option (list string)) : list (string * Options) :=
  let existing_cfs := default [] existing in
  ((fun cf_name => (cf_name, default_options)) <$> filter (fun cf_name => cf_name ∉ input_cfs.*1) existing_cfs) ++ input_cfs.

(** The tables without the default column family, which is not used. *)
Definition list_tables (existing : option (list string)) : outcome unit (list string) :=
  cfs ← ok_or existing (); Ok (filter (fun s => s <> "default"%string) cfs).

End column_families.

(** The tables of the node. *)
Definition table_names : list string :=
  ["last_proposed"; "votes"; "certificates"; "certificate_digest_by_round"; "certificate_digest_by_origin"; "payload"; "batches";
   "consensus_block"; "consensus_block_number_by_digest"]%string.

(** * Options *)

(** [n as i32] *)
Definition as_i32 (n : N) : Z := let n := n mod 2 ^ 32 in if n <? 2 ^ 31 then Z.of_N n else (Z.of_N n - 2 ^ 32)%Z.

Definition i32_max : N := 2 ^ 31 - 1.
Definition i64_max : N := 2 ^ 63 - 1.

(** [try_into().unwrap()] *)
Definition try_into_unwrap (max n : N) : outcome False N := if n <=? max then Ok n else Panic.

(** The variables of the environment. *)
Definition Environ : Type := string -> option string.

Definition read_size_from_env (env : Environ) (var_name : string) : option N := env var_name ≫= parse_unsigned u64_modulus.

Module DBOptions.

(** The numeric settings that the code changes; [None] stands for the default of RocksDB. *)
Record t := mk {
  max_open_files : option Z;
  max_background_jobs : option N;
  db_write_buffer_size : option N;
  max_total_wal_size : option N;
  enable_blob_files : bool;
  min_blob_size : option N;
  write_buffer_size : option N;
  max_write_buffer_number : option N;
  max_write_buffer_size_to_maintain : option N;
  level_zero_file_num_compaction_trigger : option N;
  level_zero_slowdown_writes_trigger : option N;
  level_zero_stop_writes_trigger : option N;
  target_file_size_base : option N;
  max_bytes_for_level_base : option N;
  block_cache_size : option N;
  min_write_buffer_number_to_merge : option N;
}.

Definition rocksdb_default : t := mk None None None None false None None None None None None None None None None None.

Section options.
Context (env : Environ).

Definition size_or (var_name : string) (d : N) : N := default d (read_size_from_env env var_name).

Definition get_block_options (block_cache_size_mb : N) : N := wrap64 (block_cache_size_mb * 2 ^ 20).

(** [fd_limit] is the limit of open files, when it could be raised. *)
Definition default_db_options (fd_limit : option N) : outcome False t :=
  jobs ← try_into_unwrap i32_max (size_or "MAX_BACKGROUND_JOBS" 2);
  Ok (mk ((fun n => as_i32 (n / 8)) <$> fd_limit) (Some jobs)
        (Some (wrap64 (size_or "DB_WRITE_BUFFER_SIZE_MB" 1024 * 1024 * 1024)))
        (Some (wrap64 (size_or "DB_WAL_SIZE_MB" 1024 * 1024 * 1024)))
        false None None None None None None None None None (Some (get_block_options 128)) None).

Definition optimize_for_large_values_no_scan (s : t) (size : N) : t :=
  if bool_decide (is_Some (env "DISABLE_BLOB_STORAGE")) then s else
  let max_level_zero_file_num := size_or "L0_NUM_FILES_COMPACTION_TRIGGER" 6 in
  mk (max_open_files s) (max_background_jobs s) (db_write_buffer_size s) (max_total_wal_size s) true (Some size)
    (Some (wrap64 (size_or "MAX_WRITE_BUFFER_SIZE_MB" 256 * 1024 * 1024))) (max_write_buffer_number s)
    (max_write_buffer_size_to_maintain s) (level_zero_file_num_compaction_trigger s) (level_zero_slowdown_writes_trigger s)
    (level_zero_stop_writes_trigger s) (Some (64 * 2 ^ 20)) (Some (wrap64 (64 * 2 ^ 20 * max_level_zero_file_num)))
    (block_cache_size s) (min_write_buffer_number_to_merge s).

Definition optimize_for_read (s : t) (block_cache_size_mb : N) : t :=
  mk (max_open_files s) (max_background_jobs s) (db_write_buffer_size s) (max_total_wal_size s) (enable_blob_files s) (min_blob_size s)
    (write_buffer_size s) (max_write_buffer_number s) (max_write_buffer_size_to_maintain s) (level_zero_file_num_compaction_trigger s)
    (level_zero_slowdown_writes_trigger s) (level_zero_stop_writes_trigger s) (target_file_size_base s) (max_bytes_for_level_base s)
    (Some (get_block_options block_cache_size_mb)) (min_write_buffer_number_to_merge s).

Definition optimize_db_for_write_throughput (s : t) (db_max_write_buffer_gb : N) : t :=
  let size := wrap64 (db_max_write_buffer_gb * 1024 * 1024 * 1024) in
  mk (max_open_files s) (max_background_jobs s) (Some size) (Some size) (enable_blob_files s) (min_blob_size s)
    (write_buffer_size s) (max_write_buffer_number s) (max_write_buffer_size_to_maintain s) (level_zero_file_num_compaction_trigger s)
    (level_zero_slowdown_writes_trigger s) (level_zero_stop_writes_trigger s) (target_file_size_base s) (max_bytes_for_level_base s)
    (block_cache_size s) (min_write_buffer_number_to_merge s).

Definition optimize_for_write_throughput (s : t) : outcome False t :=
  let size := wrap64 (size_or "MAX_WRITE_BUFFER_SIZE_MB" 256 * 1024 * 1024) in
  number ← try_into_unwrap i32_max (size_or "MAX_WRITE_BUFFER_NUMBER" 6);
  maintain ← try_into_unwrap i64_max size;
  let max_level_zero_file_num := size_or "L0_NUM_FILES_COMPACTION_TRIGGER" 6 in
  trigger ← try_into_unwrap i32_max max_level_zero_file_num;
  slowdown ← try_into_unwrap i32_max (wrap64 (max_level_zero_file_num * 4));
  stop ← try_into_unwrap i32_max (wrap64 (max_level_zero_file_num * 5));
  Ok (mk (max_open_files s) (max_background_jobs s) (db_write_buffer_size s) (max_total_wal_size s) (enable_blob_files s) (min_blob_size s)
    (Some size) (Some number) (Some maintain) (Some trigger) (Some slowdown) (Some stop)
    (Some (wrap64 (size_or "TARGET_FILE_SIZE_BASE_MB" 128 * 1024 * 1024))) (Some (wrap64 (size * max_level_zero_file_num)))
    (block_cache_size s) (min_write_buffer_number_to_merge s)).

Definition optimize_for_pruning (s : t) : t :=
  mk (max_open_files s) (max_background_jobs s) (db_write_buffer_size s) (max_total_wal_size s) (enable_blob_files s) (min_blob_size s)
    (write_buffer_size s) (max_write_buffer_number s) (max_write_buffer_size_to_maintain s) (level_zero_file_num_compaction_trigger s)
    (level_zero_slowdown_writes_trigger s) (level_zero_stop_writes_trigger s) (target_file_size_base s) (max_bytes_for_level_base s)
    (block_cache_size s) (Some 2).

(** The column families that [RocksDatabase::open_db] opens, with their options. *)
Definition column_family_options (fd_limit : option N) : outcome False (list (string * t)) :=
  defaults ← default_db_options fd_limit;
  let cf_options := optimize_db_for_write_throughput defaults 2 in
  throughput ← optimize_for_write_throughput defaults;
  let large := optimize_for_large_values_no_scan throughput (2 ^ 10) in
  Ok [("last_proposed", cf_options); ("votes", cf_options); ("certificates", large); ("certificate_digest_by_round", cf_options);
      ("certificate_digest_by_origin", cf_options); ("payload", cf_options); ("batches", large); ("consensus_block", cf_options);
      ("consensus_block_number_by_digest", cf_options)]%string.

(** The column families that are opened on a database that has [existing] ones. *)
Definition open_db (fd_limit : option N) (existing : option (list string)) : outcome False (list (string * t)) :=
  cfs ← column_family_options fd_limit; Ok (populate_missing_cfs rocksdb_default cfs existing).

End options.
End DBOptions.

(** * Theorems *)

(** ** Retries *)

Module RetryFacts.

Lemma retry_spec {A} m n k (status : outcome TypedStoreError A) rest : status <> Err RetryableTransactionError ->
  retry_loop (Some m) k (replicate n (Err RetryableTransactionError) ++ status :: rest) =
    if (k + n <=? m)%nat then status else if (k <=? m)%nat then Err RetryableTransactionError else
    match n with O => status | _ => Err RetryableTransactionError end.
Proof.
  intros Hs. revert k. induction n as [|n IH]; intros k; cbn [replicate app retry_loop from_option].
  - rewrite Nat.add_0_r. destruct status as [|[]| |]; try done; by destruct (k <=? m)%nat.
  - destruct (Nat.ltb_spec m (S k)) as [Hlt|Hge].
    + destruct (Nat.leb_spec (k + S n) m); [lia|]. by destruct (k <=? m)%nat.
    + rewrite IH. replace (S k + n)%nat with (k + S n)%nat by lia. destruct (Nat.leb_spec (S k) m); [|lia].
      destruct (Nat.leb_spec k m); [|lia]. done.
Qed.

(** A transaction that conflicts [n] times and then ends is retried up to 20 times; with
    more conflicts the caller gets the error.  Only [retry_transaction_forever] goes on. *)
Lemma retry_transaction_bounded {A} n (status : outcome TypedStoreError A) rest : status <> Err RetryableTransactionError ->
  let attempts := replicate n (Err RetryableTransactionError) ++ status :: rest in
  retry_transaction attempts = (if (n <=? 20)%nat then status else Err RetryableTransactionError) /\
  retry_transaction_forever attempts = status.
Proof.
  intros Hs attempts. split; [unfold retry_transaction, attempts; by rewrite retry_spec|].
  unfold retry_transaction_forever, attempts. generalize 0%nat. induction n as [|n IH]; intros k; cbn; [by destruct status as [|[]| |]|apply IH].
Qed.

End RetryFacts.

(** ** Transactions *)

Module RocksTxnFacts.
Section facts.
Context `{SerializerLaws} `{!RocksEngine} `{!RocksEngineLaws} `{!RocksTransactions} `{!RocksTransactionLaws}.
Import RocksDbTxMut RocksFacts.

(** The writes that a transaction can undo. *)
Definition undoable (w : write) : Prop := match w with WClear _ => False | _ => True end.

(** A write as the engine gets it. *)
Definition encoded (w : write) (r : rocks_write) : Prop :=
  match w with
  | WInsert n k v => exists b, encode_value v = Ok b /\ r = RocksPut n (encode_key k) b
  | WRemove n k => r = RocksDelete n (encode_key k)
  | WClear _ => False
  end.

Lemma tx_write_spec d t w t' : undoable w -> is_Some (rocks_view d !! write_name w) -> tx_write d w t = (t', Ok ()) ->
  exists r, encoded w r /\ txn_writes t' = txn_writes t ++ [r] /\ txn_snapshot t' = txn_snapshot t.
Proof.
  intros Hu Hop. apply rocks_open in Hop as [m Hm]. destruct w as [n k v|n k|n]; [| |done]; cbn [tx_write write_name] in *.
  - destruct (encode_value_Ok v) as (b & Hv & Hb). unfold tx_insert, lift, mbind, action_bind. rewrite (cf_handle_Ok d n m Hm), Hv.
    unfold txn_call. destruct (txn_put_cf t n (encode_key k) b) as [t1 []] eqn:Hp; [|done]. intros [= <-].
    exists (RocksPut n (encode_key k) b). split; [by exists b|]. by apply txn_put_law.
  - unfold tx_remove, lift, mbind, action_bind. rewrite (cf_handle_Ok d n m Hm).
    unfold txn_call. destruct (txn_delete_cf t n (encode_key k)) as [t1 []] eqn:Hp; [|done]. intros [= <-].
    exists (RocksDelete n (encode_key k)). split; [done|]. by apply txn_delete_law.
Qed.

Lemma tx_writes_spec d t ws t' : Forall undoable ws -> Forall (fun w => is_Some (rocks_view d !! write_name w)) ws ->
  tx_writes d ws t = (t', Ok ()) ->
  exists rs, Forall2 encoded ws rs /\ txn_writes t' = txn_writes t ++ rs /\ txn_snapshot t' = txn_snapshot t.
Proof.
  intros Hu Hop. revert t. induction Hu as [|w ws Hw _ IH]; intros t; cbn [tx_writes].
  { intros [= <-]. exists []. rewrite app_nil_r. by split_and!. }
  apply Forall_cons in Hop as [Hn Hop]. unfold mbind, action_bind. destruct (tx_write d w t) as [t1 [[]| | |]] eqn:Hr; try done.
  intros Ht. destruct (tx_write_spec d t w t1 Hw Hn Hr) as (r & He & Hrs & Hs). destruct (IH Hop t1 Ht) as (rs & Hf & Hrss & Hss).
  exists (r :: rs). split; [by constructor|]. rewrite Hrss, Hrs, <-app_assoc. split; [done|congruence].
Qed.

(** A write keeps the tables that were opened. *)
Lemma mem_write_open (s : Store) w n : is_Some (s !! n) -> is_Some (mem_write s w !! n).
Proof.
  intros Hn. destruct w as [m k v|m k|m]; cbn [mem_write]; unfold MemDatabase.insert, MemDatabase.remove, MemDatabase.clear_table;
    (destruct (s !! m); [|done]); (destruct (decide (m = n)) as [->|]; [rewrite lookup_insert_eq; by eexists|by rewrite lookup_insert_ne]).
Qed.

(** Applying the writes to the column families is the writes on the tables. *)
Lemma apply_writes_spec (s : RawStore) ws rs : wf_store s -> Forall2 encoded ws rs -> Forall (fun w => is_Some (decoded s !! write_name w)) ws ->
  wf_store (foldl apply_write s rs) /\ decoded (foldl apply_write s rs) = foldl mem_write (decoded s) ws.
Proof.
  intros Hwf Hf. revert s Hwf. induction Hf as [|w r ws rs He _ IH]; intros s Hwf Hop; [done|]. cbn [foldl].
  apply Forall_cons in Hop as [Hn Hop]. apply decoded_open in Hn as [m Hm].
  assert (wf_store (apply_write s r) /\ decoded (apply_write s r) = mem_write (decoded s) w) as [Hwf' Hv].
  { destruct w as [n k v|n k|n]; cbn [encoded write_name] in *; [destruct He as (b & Hb & ->)|subst r|done]; cbn [apply_write mem_write]; rewrite Hm.
    - destruct (encode_value_Ok v) as (b' & Hv & Hb'). assert (b' = b) as -> by congruence. by apply put_decoded.
    - by apply del_decoded. }
  destruct (IH (apply_write s r) Hwf') as [Hw Hvw].
  - rewrite Hv. eapply Forall_impl; [exact Hop|]. intros x Hx. by apply mem_write_open.
  - split; [done|]. by rewrite Hvw, Hv.
Qed.

(** A transaction is all or nothing: when it commits, the tables are the ones at that time
    with all of its insertions and removals, in their order; when the commit fails, the tables
    are as they were. *)
Lemma rocks_txn_atomic d0 d ws t : Forall undoable ws ->
  Forall (fun w => is_Some (rocks_view d0 !! write_name w)) ws -> Forall (fun w => is_Some (rocks_view d !! write_name w)) ws -> rocks_wf d ->
  tx_writes d0 ws (write_txn d0) = (t, Ok ()) ->
  let '(d', r) := commit d t in
  rocks_wf d' /\ match r with Ok _ => rocks_view d' = foldl mem_write (rocks_view d) ws | _ => r = Err () /\ rocks_view d' = rocks_view d end.
Proof.
  intros Hu Hop0 Hop Hwf Ht. destruct (tx_writes_spec d0 (write_txn d0) ws t Hu Hop0 Ht) as (rs & Hf & Hr & _).
  unfold write_txn in *. destruct (transaction_law d0) as [Hw0 _]. rewrite Hw0, app_nil_l in Hr.
  unfold commit. destruct (txn_commit d t) as [d' []] eqn:Hc; cbn [ensure]; unfold rocks_wf, rocks_view.
  - apply txn_commit_law in Hc as (_ & -> & _). rewrite Hr. by apply apply_writes_spec.
  - by rewrite (txn_commit_fails d t d' Hc).
Qed.

(** Of two transactions that write the same key and were both begun before either commits,
    the second to commit is refused: no update is lost. *)
Lemma lost_update_refused d t1 t2 d1 nk : txn_snapshot t2 <= sequence d -> commit d t1 = (d1, Ok ()) ->
  nk ∈ written <$> txn_writes t1 -> nk ∈ written <$> txn_writes t2 ->
  (commit d1 t2).2 = Err () /\ rocks_tables (commit d1 t2).1 = rocks_tables d1.
Proof.
  intros Hs Hc Hw1 Hw2. unfold commit in *. destruct (txn_commit d t1) as [d1' []] eqn:Hc1; [|done]. injection Hc as ->.
  apply txn_commit_law in Hc1 as (_ & _ & Hlast). destruct (txn_commit d1 t2) as [d2 []] eqn:Hc2; cbn [fst snd ensure].
  - apply txn_commit_law in Hc2 as (Hn & _). apply list_elem_of_fmap in Hw1 as (w1 & -> & Hin1). apply list_elem_of_fmap in Hw2 as (w2 & Heq & Hin2).
    assert (conflict d1 t2 = true) as Hx; [|congruence]. unfold conflict. apply existsb_exists. exists w2. split; [by apply list_elem_of_In|].
    apply N.ltb_lt. pose proof (Hlast w1 Hin1). rewrite <-Heq. lia.
  - split; [done|]. by apply (txn_commit_fails d1 t2).
Qed.

(** A transaction reads its own writes. *)
Lemma txn_reads_own d t n k v t' r : is_Some (rocks_view d !! n) -> tx_insert d n k v t = (t', Ok ()) -> tx_get d t' n k = Ok r -> r = Some v.
Proof.
  intros [m Hm]%rocks_open. destruct (encode_value_Ok v) as (b & Hv & Hb). unfold tx_insert, tx_get, lift, mbind, action_bind.
  rewrite (cf_handle_Ok d n m Hm), Hv. unfold txn_call. destruct (txn_put_cf t n (encode_key k) b) as [t1 []] eqn:Hp; [|done]. intros [= <-].
  cbn [outcome_bind mbind]. destruct (txn_get_cf d t1 n (encode_key k)) as [x|] eqn:Hg; [|done]. apply txn_get_law in Hg as ->.
  apply txn_put_law in Hp as [-> _]. unfold read_through, own_write. rewrite omap_app, last_app. cbn. rewrite bool_decide_true by done. cbn.
  unfold decode_value. rewrite (bcs_roundtrip v b Hb). by intros [= <-].
Qed.

(** Clearing a table in a transaction is not undone when the transaction is dropped. *)
Lemma clear_not_undone d n : RocksAnswers -> rocks_wf d -> is_Some (rocks_view d !! n) ->
  exists d', tx_clear_table d n = (d', Ok ()) /\ rocks_view d' = MemDatabase.clear_table (rocks_view d) n.
Proof.
  intros Ha Hwf Hop. destruct (impl_clear_table _ _ _ (rocks_table_ops Ha) d n Hwf Hop) as (d' & Hc & _ & Hv). by exists d'.
Qed.

End facts.
End RocksTxnFacts.

(** ** Opening *)

Module OpenFacts.

(** Every column family that exists is opened, and every one that is asked for, with the
    options it is asked for; none twice. *)
Lemma populated {O} (d : O) input existing : NoDup input.*1 -> NoDup (default [] existing) ->
  let cfs := populate_missing_cfs d input existing in
  NoDup cfs.*1 /\ input ⊆ cfs /\ (forall n, n ∈ cfs.*1 <-> n ∈ input.*1 \/ n ∈ default [] existing).
Proof.
  intros Hi He cfs. unfold cfs, populate_missing_cfs. set (l := filter _ (default [] existing)).
  assert (((fun cf_name => (cf_name, d)) <$> l).*1 = l) as Hl by (rewrite <-list_fmap_compose; apply list_fmap_id).
  rewrite fmap_app, Hl. split_and!.
  - apply NoDup_app. split_and!; [by apply NoDup_filter| |done]. intros n Hn. unfold l in Hn. by apply list_elem_of_filter in Hn as [? _].
  - set_solver.
  - intros n. rewrite elem_of_app. unfold l. rewrite list_elem_of_filter. destruct (decide (n ∈ input.*1)); naive_solver.
Qed.

(** Whatever the environment says, a database that is opened has every table of the node and
    every column family that it had. *)
Lemma opened_tables env fd_limit existing cfs : NoDup (default [] existing) -> DBOptions.open_db env fd_limit existing = Ok cfs ->
  NoDup cfs.*1 /\ forall n, n ∈ cfs.*1 <-> n ∈ table_names \/ n ∈ default [] existing.
Proof.
  intros He. unfold DBOptions.open_db. intros (input & Hin & [= <-])%bind_Ok. unfold DBOptions.column_family_options in Hin.
  apply bind_Ok in Hin as (o & _ & (t & _ & [= <-])%bind_Ok). set (input := [_; _; _; _; _; _; _; _; _]) in *.
  assert (input.*1 = table_names) as Hn by done. destruct (populated DBOptions.rocksdb_default input existing) as (Hnd & _ & Hall).
  { rewrite Hn. apply (bool_decide_unpack _). by vm_compute. }
  { done. }
  split; [done|]. intros n. by rewrite Hall, Hn.
Qed.

(** Without variables in the environment the database is opened. *)
Lemma opens_by_default fd_limit existing : exists cfs, DBOptions.open_db (fun _ => None) fd_limit existing = Ok cfs.
Proof. by eexists. Qed.

(** A variable that is a number too large for RocksDB panics. *)
Lemma large_variable_panics fd_limit existing :
  DBOptions.open_db (fun v => if (v =? "L0_NUM_FILES_COMPACTION_TRIGGER")%string then Some "500000000"%string else None) fd_limit existing = Panic.
Proof. by vm_compute. Qed.

End OpenFacts.

(** * Transactions at a concrete database *)

Section witnesses.
#[local] Existing Instances demo_serializer demo_serializer_laws.

(** The tables with the writes so far, the latest first. *)
#[local] Instance logged_rocks : RocksEngine := {|
  Rocks := RawStore * list rocks_write;
  RawIter := @RawIter demo_rocks;
  rocks_tables s := s.1;
  get_cf s := @get_cf demo_rocks s.1;
  put_cf s n k v := ((@put_cf demo_rocks s.1 n k v).1, RocksPut n k v :: s.2, true);
  delete_cf s n k := ((@delete_cf demo_rocks s.1 n k).1, RocksDelete n k :: s.2, true);
  drop_cf s n := ((@drop_cf demo_rocks s.1 n).1, s.2, true);
  create_cf s n := ((@create_cf demo_rocks s.1 n).1, s.2, (@create_cf demo_rocks s.1 n).2);
  key_may_exist_cf s := @key_may_exist_cf demo_rocks s.1;
  raw_iterator_cf s := @raw_iterator_cf demo_rocks s.1;
  raw_entries := @raw_entries demo_rocks;
  raw_pos := @raw_pos demo_rocks;
  raw_key := @raw_key demo_rocks;
  raw_value := @raw_value demo_rocks;
  raw_valid := @raw_valid demo_rocks;
  seek_to_first := @seek_to_first demo_rocks;
  seek_to_last := @seek_to_last demo_rocks;
  seek := @seek demo_rocks;
  seek_for_prev := @seek_for_prev demo_rocks;
  raw_next := @raw_next demo_rocks;
  raw_prev := @raw_prev demo_rocks;
|}.

Fixpoint logged_at (l : list rocks_write) (nk : N * list N) : N :=
  match l with
  | [] => 0
  | w :: l => if decide (nk = written w) then N.of_nat (S (length l)) else logged_at l nk
  end.

(** A transaction is its writes and the number of writes before it. *)
#[local] Instance logged_transactions : RocksTransactions := {|
  RocksTxn := list rocks_write * N;
  transaction_opt d := ([], N.of_nat (length d.2));
  txn_get_cf d t n k := Some (read_through d.1 t.1 n k);
  txn_put_cf t n k v := (t.1 ++ [RocksPut n k v], t.2, true);
  txn_delete_cf t n k := (t.1 ++ [RocksDelete n k], t.2, true);
  txn_commit d t := if existsb (fun w => t.2 <? logged_at d.2 (written w)) t.1 then (d, false) else (foldl apply_write d.1 t.1, reverse t.1 ++ d.2, true);
  txn_writes t := t.1;
  txn_snapshot t := t.2;
  sequence d := N.of_nat (length d.2);
  last_write d := logged_at d.2;
|}.

Lemma logged_at_app l1 l2 nk : nk ∈ written <$> l1 -> N.of_nat (length l2) < logged_at (l1 ++ l2) nk.
Proof.
  induction l1 as [|w l1 IH]; cbn [fmap list_fmap app logged_at]; [by intros ?%elem_of_nil|]. intros Hin. case_decide as Hd.
  - rewrite length_app. lia.
  - apply IH. set_solver.
Qed.

#[local] Instance logged_transaction_laws : RocksTransactionLaws.
Proof.
  split; cbn [txn_put_cf txn_delete_cf txn_get_cf txn_commit logged_transactions]; try done.
  - by intros t n k v t' [= <-].
  - by intros t n k t' [= <-].
  - by intros d t n k r [= <-].
  - intros d t d' Hc. unfold conflict. cbn [txn_snapshot last_write txn_writes logged_transactions] in *.
    destruct (existsb _ _); [done|]. injection Hc as <-. split_and!; [done..|]. intros w Hw.
    cbn [sequence logged_transactions]. apply (logged_at_app (reverse t.1)). apply list_elem_of_fmap. exists w. split; [done|]. by apply elem_of_reverse.
  - intros d t d'. destruct (existsb _ _); [|done]. by intros [= <-].
Qed.

Definition logged_demo : Rocks := (demo_store, []).

Definition one_put (value : N) : RocksTxn := (txn_put_cf (transaction_opt logged_demo) 1 [4] [value]).1.

(** The second of two transactions that write key 4 is refused. *)
Lemma lost_update_refused_witness :
  exists d1, RocksDbTxMut.commit logged_demo (one_put 41) = (d1, Ok ()) /\ (RocksDbTxMut.commit d1 (one_put 42)).2 = Err () /\
    RocksDatabase.get d1 1 4 = Ok (Some 41).
Proof.
  exists (RocksDbTxMut.commit logged_demo (one_put 41)).1. split; [done|]. split; [|by vm_compute].
  apply (RocksTxnFacts.lost_update_refused logged_demo (one_put 41) (one_put 42) _ (1, [4])).
  - done.
  - done.
  - by apply list_elem_of_singleton.
  - by apply list_elem_of_singleton.
Qed.

End witnesses.
