(* ===== verification/Assembly.v ===== *)
(** The tasks of the primary and the channels that connect them.
    Models the channels of crates/consensus/primary/src/consensus_bus.rs, the spawning of the
    tasks in primary.rs, certifier.rs, certificate_fetcher.rs, proposer.rs, state_handler.rs,
    consensus/state.rs and state_sync/mod.rs of that crate, in crates/consensus/executor/src/subscriber.rs
    and in crates/node/src/primary.rs, and the construction of the worker in
    crates/consensus/worker/src/worker.rs.  What the tasks do with their messages is modelled
    with the components; here a task takes its receivers when it is first polled, and receives. *)

From S2P Require Import Prelude Storage Committee Certificate CertStore Output ConsensusState CertManager Proposer Consensus ConsensusChain.
From S2P Require Import Worker WorkerSafety ChainSafety Dispatch Channels Demo.

(** * The bus *)

(** The channels with one receiver. *)
Inductive bus_channel :=
  | NewCertificates
  | CommittedCertificates
  | CertificateFetcherChannel
  | Parents
  | OurDigests
  | Headers
  | CommittedOwnHeaders
  | Sequence
  | CertificateManagerChannel.

#[global] Instance bus_channel_eq_dec : EqDecision bus_channel.
Proof. solve_decision. Defined.

(** The oneshot of a message is named by a number. *)
Record OurDigestMessage := mk_our_digest {
  our_digest : ProposerDigest.t;
  ack_channel : N;
}.

Inductive CertificateManagerCommand :=
  | ProcessVerifiedCertificates (certificates : list Certificate.t) (reply : N)
  | FilterUnkownDigests (unknown : list Digest) (reply : N).

Definition message (c : bus_channel) : Type :=
  match c with
  | NewCertificates => Certificate.t
  | CommittedCertificates => Round * list Certificate.t
  | CertificateFetcherChannel => CertificateFetcherCommand
  | Parents => list Certificate.t * Round
  | OurDigests => OurDigestMessage
  | Headers => Header.t
  | CommittedOwnHeaders => Round * list Round
  | Sequence => CommittedSubDag.t
  | CertificateManagerChannel => CertificateManagerCommand
  end.

Module ConsensusBusInner.
Section bus.
Context {M : forall T, Mpsc T} {B : forall T, Broadcast T} `{Crypto}.

(** A watch is the value it holds. *)
Record t := mk {
  channels : forall c : bus_channel, MeteredMpscChannel.t (message c);
  committed_round_updates : Round;
  gc_round_updates : Round;
  primary_round_updates : Round;
  recent_blocks : RecentBlocks.t;
  last_consensus_header : ConsensusHeader.t;
  last_published_consensus_num_hash : N * N;
  node_mode : NodeMode;
  consensus_output : broadcast (T := ConsensusOutput.t);
  consensus_header : broadcast (T := ConsensusHeader.t);
  restart : bool;
}.

(** The metrics count what some of the channels delivered in total, from zero on. *)
Definition new_channel (c : bus_channel) : MeteredMpscChannel.t (message c) :=
  match c with
  | NewCertificates | CommittedCertificates | Sequence => MeteredMpscChannel.channel_sender CHANNEL_CAPACITY
  | _ => MeteredMpscChannel.channel_with_total_sender CHANNEL_CAPACITY 0
  end.

Definition new_with_args (recent : N) : t :=
  mk new_channel 0 0 0 (RecentBlocks.new (N.to_nat recent)) default_consensus_header (0, 0) CvvActive
    (broadcast_channel CHANNEL_CAPACITY) (broadcast_channel CHANNEL_CAPACITY) false.

Definition set_channels (b : t) (cs : forall c, MeteredMpscChannel.t (message c)) : t :=
  mk cs (committed_round_updates b) (gc_round_updates b) (primary_round_updates b) (recent_blocks b) (last_consensus_header b)
    (last_published_consensus_num_hash b) (node_mode b) (consensus_output b) (consensus_header b) (restart b).

Definition set_node_mode (b : t) (m : NodeMode) : t :=
  mk (channels b) (committed_round_updates b) (gc_round_updates b) (primary_round_updates b) (recent_blocks b) (last_consensus_header b)
    (last_published_consensus_num_hash b) m (consensus_output b) (consensus_header b) (restart b).

Definition store_restart (b : t) (flag : bool) : t :=
  mk (channels b) (committed_round_updates b) (gc_round_updates b) (primary_round_updates b) (recent_blocks b) (last_consensus_header b)
    (last_published_consensus_num_hash b) (node_mode b) (consensus_output b) (consensus_header b) flag.

Definition set_restart (b : t) : t := store_restart b true.
Definition clear_restart (b : t) : t := store_restart b false.

(** Subscribing to one of the channels. *)
Definition subscribe (b : t) (c : bus_channel) : outcome False t :=
  _ ← MeteredMpscChannel.subscribe (channels b c);
  Ok (set_channels b (fun c' => if decide (c = c') then MeteredMpscChannel.take_receiver (channels b c') else channels b c')).

(** Sending to one of them, and receiving. *)
Definition send (b : t) (c : bus_channel) (v : message c) : t :=
  set_channels b (fun c' =>
    match decide (c = c') with
    | left e => (MeteredMpscChannel.send (eq_rect c message v c' e) (channels b c')).1
    | right _ => channels b c'
    end).

Definition recv (b : t) (c : bus_channel) : t :=
  set_channels b (fun c' => if decide (c = c') then (MeteredMpscChannel.recv (channels b c')).1 else channels b c').

End bus.
Arguments t {_ _}.
End ConsensusBusInner.

(** * Spawning *)

Inductive task :=
  | CertificateManagerTask
  | BroadcastCertificates (name : AuthorityIdentifier)
  | CertifierTask
  | CertificateFetcherTask
  | ProposerTask
  | StateHandlerTask
  | ConsensusTask
  | SubscriberTask
  | SubscriberFollowTask (rejoin : bool).

(** The receivers a task takes before its loop. *)
Definition subscribes (k : task) : list bus_channel :=
  match k with
  | CertificateManagerTask => [CertificateManagerChannel]
  | CertifierTask => [Headers]
  | CertificateFetcherTask => [CertificateFetcherChannel]
  | ProposerTask => [OurDigests; Parents; CommittedOwnHeaders]
  | StateHandlerTask => [CommittedCertificates]
  | ConsensusTask => [NewCertificates]
  | SubscriberTask => [Sequence]
  | BroadcastCertificates _ | SubscriberFollowTask _ => []
  end.

Definition is_cvv (m : NodeMode) : bool := match m with CvvActive | CvvInactive => true | Observer => false end.

(** The tasks that were spawned, in order. *)
Notation tasks := (list task).

Module CertifierSpawn.
Section spawn.
Context `{NetworkKeys} {B : Broadcast Certificate.t}.

(** The other primaries each have a receiver before the certificate is sent. *)
Fixpoint subscribe_all (c : broadcast) (names : list AuthorityIdentifier) : broadcast * list (AuthorityIdentifier * broadcast_rx) :=
  match names with
  | [] => (c, [])
  | name :: names =>
      let '(c, rx) := broadcast_subscribe c in
      let '(c, targets) := subscribe_all c names in
      (c, (name, rx) :: targets)
  end.

(** The tasks, the channel of own certificates and the receivers of those that publish. *)
Definition spawn (committee : Committee.t) (authority_id : AuthorityIdentifier) (store : CertificateStore.t)
    : tasks * broadcast * list (AuthorityIdentifier * broadcast_rx) :=
  let '(tx, targets) :=
    subscribe_all (broadcast_channel CHANNEL_CAPACITY)
      ((fun x => x.1.1) <$> Committee.others_primaries_by_id committee authority_id) in
  let tx := match CertificateStore.last_round store authority_id with Some cert => (broadcast_send tx cert).1 | None => tx end in
  ((BroadcastCertificates <$> targets.*1) ++ [CertifierTask], tx, targets).

End spawn.
End CertifierSpawn.

Module PrimaryAssembly.
Section spawn.
Context `{NetworkKeys} {B : Broadcast Certificate.t}.
Context (committee : Committee.t) (authority_id : AuthorityIdentifier) (store : CertificateStore.t).

(** Each task starts in the initial state of its component; what it is given besides are the
    configuration, the bus and the network. *)
Definition state_sync_spawn : tasks := [CertificateManagerTask].

Definition certificate_fetcher_spawn : tasks := [CertificateFetcherTask].

Definition proposer_spawn (mode : NodeMode) : tasks := if is_active_cvv mode then [ProposerTask] else [].

Definition state_handler_spawn : tasks := [StateHandlerTask].

Definition consensus_spawn (mode : NodeMode) : tasks := if is_active_cvv mode then [ConsensusTask] else [].

(** The subscriber of an active validator orders what is committed; the others follow the chain,
    a validator to rejoin. *)
Definition spawn_subscriber (mode : NodeMode) : tasks :=
  match mode with
  | CvvActive => [SubscriberTask]
  | CvvInactive => [SubscriberFollowTask true]
  | Observer => [SubscriberFollowTask false]
  end.

(** [Primary::spawn] *)
Definition spawn (mode : NodeMode) : tasks :=
  (if is_active_cvv mode then state_sync_spawn else []) ++
  (CertifierSpawn.spawn committee authority_id store).1.1 ++
  certificate_fetcher_spawn ++
  (if is_cvv mode then proposer_spawn mode else []) ++
  state_handler_spawn.

(** The consensus task gets the schedule read from the store and a new ordering engine, the
    [LeaderSchedule] and [Bullshark] of the consensus core. *)
Definition spawn_consensus (mode : NodeMode) : tasks := consensus_spawn mode ++ spawn_subscriber mode.

(** [PrimaryNode::start]; the mode of the node is set before and does not change meanwhile. *)
Definition spawn_primary (mode : NodeMode) : tasks := spawn_consensus mode ++ spawn mode.

End spawn.
End PrimaryAssembly.

(** * Connecting the primary and its worker *)

Module LocalAssembly.
Section local.
Context {S E : Type}.

(** [Primary::new] and [new_worker] give the other side their handlers; the latter reads the
    address of the worker for its log at the end, and panics without one. *)
Definition primary_new (l : LocalNetwork.t S E) (handler : LocalNetwork.WorkerToPrimaryClient S E) : LocalNetwork.t S E :=
  LocalNetwork.set_worker_to_primary_local_handler l handler.

Definition new_worker (l : LocalNetwork.t S E) (cache : WorkerCache.t) (protocol_key : BlsPublicKey) (id : WorkerId)
    (handler : LocalNetwork.PrimaryToWorkerClient S E) : LocalNetwork.t S E * outcome False unit :=
  (LocalNetwork.set_primary_to_worker_local_handler l handler,
   match WorkerCache.worker cache protocol_key id with Ok _ => Ok () | _ => Panic end).

(** Once both are made every call reaches its handler; until the worker is made, those of the
    primary fail. *)
Lemma assembled cache protocol_key id hp hw not_set :
  let l := primary_new LocalNetwork.new hp in
  let r := new_worker l cache protocol_key id hw in
  (forall digests certified, LocalNetwork.synchronize not_set l digests certified = lift (Err not_set)) /\
  (forall digests certified, LocalNetwork.synchronize not_set r.1 digests certified = LocalNetwork.synchronize_batches hw digests certified) /\
  (forall digests, LocalNetwork.fetch_batches not_set r.1 digests = LocalNetwork.fetch hw digests) /\
  (forall d w ts, LocalNetwork.report_own_batch r.1 d w ts = LocalNetwork.own_batch hp d w ts) /\
  (r.2 = Ok () <-> exists ws, WorkerCache.workers cache !! protocol_key = Some ws /\ is_Some (ws !! id)).
Proof.
  split_and!; [done..|]. cbn. unfold WorkerCache.worker, ok_or.
  destruct (WorkerCache.workers cache !! protocol_key) as [ws|]; cbn; [|split; [done|by intros (? & ? & _)]].
  destruct (ws !! id) as [w|] eqn:Hw; cbn; (split; [try done|]).
  - intros _. exists ws. by rewrite Hw.
  - done.
  - intros (ws' & [= <-] & [w Hs]). congruence.
Qed.

End local.
End LocalAssembly.

(** * The running tasks *)

Module Wiring.
Section wiring.
Context {M : forall T, Mpsc T} {B : forall T, Broadcast T}.
Import ConsensusBusInner.

(** [started] are the positions of the tasks that were polled, [taken] counts the messages
    that were received. *)
Record node := mk_node {
  bus : ConsensusBusInner.t;
  started : list nat;
  taken : bus_channel -> nat;
}.

Definition launched (b : ConsensusBusInner.t) : node := mk_node b [] (fun _ => O).

Inductive event :=
  | Polled (i : nat)
  | Sent (c : bus_channel) (v : message c)
  | Received (i : nat) (c : bus_channel).

(** The first poll of a task takes its receivers; a task receives from these.  An event that
    cannot happen is an error. *)
Definition step (spawned : tasks) (n : node) (e : event) : outcome unit node :=
  match e with
  | Polled i =>
      if bool_decide (i ∈ started n) then Err () else
      k ← ok_or (spawned !! i) ();
      match foldM subscribe (bus n) (subscribes k) with
      | Ok b => Ok (mk_node b (i :: started n) (taken n))
      | _ => Panic
      end
  | Sent c v => Ok (mk_node (send (bus n) c v) (started n) (taken n))
  | Received i c =>
      _ ← ensure (bool_decide (i ∈ started n)) ();
      k ← ok_or (spawned !! i) ();
      _ ← ensure (bool_decide (c ∈ subscribes k)) ();
      Ok (mk_node (recv (bus n) c) (started n)
            (fun c' => match decide (c = c'), (MeteredMpscChannel.recv (channels (bus n) c)).2 with
                       | left _, Ready (Some _) => S (taken n c')
                       | _, _ => taken n c'
                       end))
  end.

Definition run (spawned : tasks) (n : node) (es : list event) : outcome unit node := foldM (step spawned) n es.

(** How often a message was offered to a channel; a sender that waits offers it again. *)
Definition is_sent (c : bus_channel) (e : event) : bool := match e with Sent c' _ => bool_decide (c = c') | _ => false end.
Definition sends (c : bus_channel) (es : list event) : nat := length (filter (is_sent c) es).

End wiring.
Arguments node {_ _}.
End Wiring.

(** * Every receiver is taken at most once *)

Module WiringFacts.
Import ConsensusBusInner Wiring.

(** The position of the task that consumes a channel is unique. *)
Lemma unique_consumer {A C} (f : A -> list C) (l : list A) i j x y c :
  NoDup (l ≫= f) -> l !! i = Some x -> l !! j = Some y -> c ∈ f x -> c ∈ f y -> i = j.
Proof.
  revert i j. induction l as [|a l IH]; intros [|i] [|j] Hnd Hi Hj Hx Hy; cbn in *; try done;
    apply NoDup_app in Hnd as (Ha & Hd & Hl).
  - simplify_eq. destruct (Hd c Hx). apply list_elem_of_bind. exists y. by split; [|eapply list_elem_of_lookup_2].
  - simplify_eq. destruct (Hd c Hy). apply list_elem_of_bind. exists x. by split; [|eapply list_elem_of_lookup_2].
  - f_equal. eauto.
Qed.

Lemma consumer_nodup {A C} (f : A -> list C) (l : list A) i x : NoDup (l ≫= f) -> l !! i = Some x -> NoDup (f x).
Proof.
  revert i. induction l as [|a l IH]; intros [|i] Hnd Hi; cbn in *; try done; apply NoDup_app in Hnd as (Ha & Hd & Hl); [by simplify_eq|eauto].
Qed.

Section facts.
Context {M : forall T, Mpsc T} {B : forall T, Broadcast T}.
Implicit Types (n : Wiring.node) (b : ConsensusBusInner.t) (e : event).

Definition held b (c : bus_channel) : bool := MeteredMpscChannel.receiver (channels b c).
Definition queue b (c : bus_channel) : list (message c) := queued (MeteredMpscChannel.inner (channels b c)).

Lemma subscribe_spec b c : held b c = true ->
  exists b', subscribe b c = Ok b' /\ forall c', held b' c' = (if decide (c = c') then false else held b c').
Proof.
  intros Hr. unfold subscribe, held, MeteredMpscChannel.subscribe. unfold held in Hr. rewrite Hr. cbn. eexists. split; [done|]. intros c'. cbn.
  by destruct (decide (c = c')).
Qed.

Lemma subscribe_list b l : NoDup l -> (forall c, c ∈ l -> held b c = true) ->
  exists b', foldM subscribe b l = Ok b' /\ forall c, held b' c = (if decide (c ∈ l) then false else held b c).
Proof.
  revert b. induction l as [|c l IH]; intros b Hnd Hr.
  { exists b. split; [done|]. intros c. by destruct (decide (c ∈ [])) as [?%not_elem_of_nil|]. }
  apply NoDup_cons in Hnd as [Hc Hnd]. destruct (subscribe_spec b c) as (b1 & Hb1 & H1); [apply Hr; by left|].
  destruct (IH b1 Hnd) as (b2 & Hb2 & H2).
  { intros c' Hc'. rewrite H1. destruct (decide (c = c')) as [->|]; [done|]. apply Hr. by right. }
  exists b2. cbn [foldM]. rewrite Hb1. split; [done|]. intros c'. rewrite H2, H1.
  destruct (decide (c = c')) as [->|], (decide (c' ∈ l)), (decide _) as [Hin|Hin]; set_solver.
Qed.

(** The receivers that are taken are those of the tasks that run. *)
Definition wired (spawned : tasks) n : Prop :=
  forall c, held (bus n) c = true <-> forall i k, i ∈ started n -> spawned !! i = Some k -> c ∉ subscribes k.

Lemma step_wired spawned n e : NoDup (spawned ≫= subscribes) -> wired spawned n ->
  match step spawned n e with Ok n' => wired spawned n' | Err _ => True | _ => False end.
Proof.
  intros Hnd Hw. destruct e as [i|c v|i c]; cbn [step].
  - destruct (bool_decide_reflect (i ∈ started n)) as [|Hi]; [done|]. destruct (spawned !! i) as [k|] eqn:Hk; [|done]. cbn.
    destruct (subscribe_list (bus n) (subscribes k)) as (b' & -> & Hb').
    { by eapply consumer_nodup. }
    { intros c Hc. apply Hw. intros j k' Hj Hk' Hc'. by rewrite (unique_consumer _ _ _ _ _ _ _ Hnd Hk Hk' Hc Hc') in Hi. }
    intros c. cbn. rewrite Hb'. destruct (decide (c ∈ subscribes k)) as [Hc|Hc].
    + split; [done|]. intros Hall. by destruct (Hall i k ltac:(by left) Hk).
    + rewrite (Hw c). split; intros Hall j k' Hj Hk'; [|apply (Hall j k'); [by right|done]].
      apply elem_of_cons in Hj as [->|Hj]; [by simplify_eq|by apply (Hall j k')].
  - intros c'. rewrite <-(Hw c'). unfold held. cbn. destruct (decide (c = c')) as [<-|]; [cbn|done].
    unfold MeteredMpscChannel.send, MeteredMpscChannel.offer. repeat case_match; by simplify_eq.
  - destruct (bool_decide_reflect (i ∈ started n)) as [Hi|]; [|done]. cbn. destruct (spawned !! i) as [k|] eqn:Hk; [|done]. cbn.
    destruct (bool_decide_reflect (c ∈ subscribes k)); [|done]. cbn. intros c'. rewrite <-(Hw c'). unfold held. cbn.
    destruct (decide (c = c')) as [<-|]; [|done]. unfold MeteredMpscChannel.recv, MeteredMpscChannel.take. repeat case_match; by simplify_eq.
Qed.

Lemma run_wired spawned n es : NoDup (spawned ≫= subscribes) -> wired spawned n ->
  match run spawned n es with Ok n' => wired spawned n' | Err _ => True | _ => False end.
Proof.
  intros Hnd. revert n. induction es as [|e es IH]; intros n Hw; [done|]. unfold run in *. cbn [foldM].
  pose proof (step_wired spawned n e Hnd Hw) as Hs. destruct (step spawned n e) as [n'| | |]; cbn; [by apply IH|done..].
Qed.

Lemma wired_launched spawned b : (forall c, held b c = true) -> wired spawned (launched b).
Proof. intros Hb c. cbn. rewrite Hb. split; [|done]. intros _ i k Hi. by apply not_elem_of_nil in Hi. Qed.

Lemma subscribe_taken b c b' : subscribe b c = Ok b' -> held b c = true /\ forall c', held b' c' = (if decide (c = c') then false else held b c').
Proof.
  intros Hs. destruct (held b c) eqn:Hr; [|by unfold subscribe, MeteredMpscChannel.subscribe, held in *; rewrite Hr in Hs].
  destruct (subscribe_spec b c Hr) as (b1 & Hb1 & H1). rewrite Hs in Hb1. by injection Hb1 as <-.
Qed.

Lemma subscribed_kept b l b' c : foldM subscribe b l = Ok b' -> held b c = false -> held b' c = false.
Proof.
  revert b. induction l as [|c' l IH]; intros b Hb Hf; cbn [foldM] in Hb; [by simplify_eq|].
  apply bind_Ok in Hb as (b1 & [_ H1]%subscribe_taken & Hb). apply (IH b1 Hb). rewrite H1. by destruct (decide (c' = c)).
Qed.

Lemma subscribe_inner b l b' c : foldM subscribe b l = Ok b' ->
  MeteredMpscChannel.inner (channels b' c) = MeteredMpscChannel.inner (channels b c).
Proof.
  revert b. induction l as [|c' l IH]; intros b Hb; cbn [foldM] in Hb; [by simplify_eq|].
  apply bind_Ok in Hb as (b1 & Hb1 & Hb). rewrite (IH _ Hb). unfold subscribe, MeteredMpscChannel.subscribe in Hb1.
  destruct (MeteredMpscChannel.receiver _); [|done]. cbn in Hb1. simplify_eq. cbn. by destruct (decide (c' = c)).
Qed.

Context {L : forall T, MpscLaws T}.

(** A channel from which nothing was taken, after so many sends. *)
Record unheard n (c : bus_channel) (sent : nat) : Prop := {
  unheard_open : open (MeteredMpscChannel.inner (channels (bus n) c)) = true;
  unheard_capacity : max_capacity (MeteredMpscChannel.inner (channels (bus n) c)) = CHANNEL_CAPACITY;
  unheard_queue : length (queue (bus n) c) = Nat.min (N.to_nat CHANNEL_CAPACITY) sent;
  unheard_taken : taken n c = O;
}.

Lemma unheard_inner n n' c sent : MeteredMpscChannel.inner (channels (bus n') c) = MeteredMpscChannel.inner (channels (bus n) c) ->
  taken n' c = taken n c -> unheard n c sent -> unheard n' c sent.
Proof. intros Hi Ht [Ho Hc Hq Hz]. split; unfold queue in *; by rewrite ?Hi, ?Ht. Qed.

Lemma unheard_sent n c sent v : unheard n c sent -> unheard (mk_node (send (bus n) c v) (started n) (taken n)) c (S sent).
Proof.
  intros [Ho Hc Hq Hz]. unfold queue in Hq.
  assert (exists s, MeteredMpscChannel.send v (channels (bus n) c) = s /\ open (MeteredMpscChannel.inner s.1) = true /\
            max_capacity (MeteredMpscChannel.inner s.1) = CHANNEL_CAPACITY /\
            length (queued (MeteredMpscChannel.inner s.1)) = Nat.min (N.to_nat CHANNEL_CAPACITY) (S sent)) as (s & Hs & Hso & Hsc & Hsq).
  { eexists. split; [done|]. unfold MeteredMpscChannel.send, MeteredMpscChannel.offer, MpscReceiver.poll_send.
    destruct (decide (CHANNEL_CAPACITY <= N.of_nat (length (queued (MeteredMpscChannel.inner (channels (bus n) c)))))) as [Hf|Hf].
    - rewrite (send_full_law _ v Ho) by (by rewrite Hc). cbn. split_and!; [done..|lia].
    - destruct (send_law (MeteredMpscChannel.inner (channels (bus n) c)) v Ho) as (c' & -> & Hq' & Hm & Ho'); [rewrite Hc; lia|].
      cbn. rewrite Hq', length_app. cbn. split_and!; [done|congruence|lia]. }
  assert (channels (send (bus n) c v) c = s.1) as Hch.
  { cbn. destruct (decide (c = c)) as [e|]; [|done]. rewrite (Eqdep_dec.UIP_dec bus_channel_eq_dec e eq_refl), <-Hs. done. }
  split; unfold queue; cbn [bus taken]; rewrite ?Hch; done.
Qed.

Lemma step_unheard spawned n e n' c sent : (forall k, k ∈ spawned -> c ∉ subscribes k) -> unheard n c sent ->
  step spawned n e = Ok n' -> unheard n' c (sent + if is_sent c e then 1 else 0).
Proof.
  intros Hno Hu Hs. destruct e as [i|c' v|i c']; cbn [step is_sent] in *; rewrite ?Nat.add_0_r.
  - destruct (bool_decide (i ∈ started n)); [done|]. apply bind_Ok in Hs as (k & Hk & Hs).
    destruct (foldM subscribe (bus n) (subscribes k)) as [b| | |] eqn:Hb; [|done..]. injection Hs as <-.
    apply (unheard_inner n); [by apply (subscribe_inner _ _ _ _ Hb)|done..].
  - injection Hs as <-. destruct (bool_decide_reflect (c = c')) as [<-|Hne].
    + rewrite Nat.add_1_r. by apply unheard_sent.
    + rewrite Nat.add_0_r. apply (unheard_inner n); [cbn; by destruct (decide (c' = c))|done..].
  - apply bind_Ok in Hs as (_ & _ & Hs). apply bind_Ok in Hs as (k & Hk & Hs). apply bind_Ok in Hs as (u & Hc & Hs). injection Hs as <-.
    destruct (bool_decide_reflect (c' ∈ subscribes k)) as [Hin|]; [|done]. destruct (spawned !! i) as [k'|] eqn:Hi; [|done]. cbn in Hk. simplify_eq.
    assert (c' <> c) by (intros ->; by apply (Hno k); [eapply list_elem_of_lookup_2|]).
    apply (unheard_inner n); [cbn; by destruct (decide (c' = c))|cbn; by destruct (decide (c' = c))|done].
Qed.

Lemma run_unheard spawned n es n' c sent : (forall k, k ∈ spawned -> c ∉ subscribes k) -> unheard n c sent ->
  run spawned n es = Ok n' -> unheard n' c (sent + sends c es).
Proof.
  intros Hno. revert n sent. induction es as [|e es IH]; intros n sent Hu Hr; unfold run, sends in *; cbn [foldM] in Hr.
  { injection Hr as <-. by rewrite Nat.add_0_r. }
  apply bind_Ok in Hr as (n1 & Hs & Hr). pose proof (IH _ _ (step_unheard _ _ _ _ _ _ Hno Hu Hs) Hr) as Hu'.
  rewrite filter_cons. destruct (is_sent c e); cbn in *; [|by rewrite Nat.add_0_r in Hu'].
  by rewrite <-Nat.add_assoc in Hu'.
Qed.

Lemma unheard_launched `{Crypto} recent mode c : unheard (launched (set_node_mode (new_with_args recent) mode)) c 0.
Proof.
  destruct (channel_law (T := message c) CHANNEL_CAPACITY) as (Hq & Hm & Ho); [done|].
  split; unfold queue; cbn; destruct c; cbn in *; by rewrite ?Hq.
Qed.

End facts.
End WiringFacts.

(** * The certificate of the last run is published again *)

Module CertifierSpawnFacts.
Import CertifierSpawn.
Section facts.
Context `{NetworkKeys} `{BroadcastLaws Certificate.t}.

Lemma subscribe_all_spec c names : let '(c', targets) := subscribe_all c names in
  targets.*1 = names /\ Forall (fun x => position x.2 = N.of_nat (length (log c))) targets /\ log c' = log c /\
  retained c' = retained c /\ receivers c' = receivers c + N.of_nat (length names).
Proof.
  revert c. induction names as [|name names IH]; intros c; cbn [subscribe_all]; [split_and!; (done || cbn; lia)|].
  destruct (broadcast_subscribe_law c) as (c1 & rx & -> & Hp & Hl & Hk & Hr & _). specialize (IH c1).
  destruct (subscribe_all c1 names) as [c' targets]. destruct IH as (Hn & Hf & Hl' & Hk' & Hr'). rewrite Hl in *.
  split_and!; [cbn; by f_equal|by constructor|done|congruence|cbn [length]; lia].
Qed.

(** Every task that publishes to a peer receives the latest certificate of this authority. *)
Lemma spawn_republishes committee me store cert tasks tx targets name rx :
  spawn committee me store = (tasks, tx, targets) -> CertificateStore.last_round store me = Some cert -> (name, rx) ∈ targets ->
  exists rx', broadcast_try_recv tx rx = (rx', BroadcastValue cert).
Proof.
  unfold spawn. intros Hs Hc Hin. rewrite Hc in Hs.
  pose proof (subscribe_all_spec (broadcast_channel CHANNEL_CAPACITY) ((fun x => x.1.1) <$> Committee.others_primaries_by_id committee me)) as Ha.
  destruct (subscribe_all _ _) as [c targets']. destruct Ha as (Hn & Hf & Hl & Hk & Hr).
  destruct (broadcast_channel_law (T := Certificate.t) CHANNEL_CAPACITY) as (Hl0 & Hk0 & _); [done|].
  injection Hs as _ <- <-. rewrite Forall_forall in Hf. pose proof (Hf _ Hin) as Hp. cbn in Hp. rewrite Hl0 in *.
  assert (0 < receivers c) as Hpos.
  { rewrite Hr. apply list_elem_of_lookup_1 in Hin as [i Hi%lookup_lt_Some]. rewrite <-(length_fmap fst), Hn in Hi. lia. }
  destruct (broadcast_send_law c cert Hpos) as (c' & -> & Hl' & Hk' & _). cbn [fst].
  destruct (broadcast_recv_law c' rx cert) as (rx' & -> & _); [| |by exists rx'].
  - rewrite Hl', Hk', Hl, Hk, Hp. cbn. unfold CHANNEL_CAPACITY in *. lia.
  - by rewrite Hl', Hl, Hp.
Qed.

End facts.
End CertifierSpawnFacts.

Module AssemblyFacts.
Import ConsensusBusInner Wiring WiringFacts PrimaryAssembly.

Section facts.
Context {M : forall T, Mpsc T} {B : forall T, Broadcast T} {L : forall T, MpscLaws T} `{NetworkKeys} `{Crypto}.

Definition always_consumed : list bus_channel := [Headers; CertificateFetcherChannel; CommittedCertificates].

Lemma spawned_channels committee me store mode : spawn_primary committee me store mode ≫= subscribes =
  match mode with
  | CvvActive => [NewCertificates; Sequence; CertificateManagerChannel; Headers; CertificateFetcherChannel;
                  OurDigests; Parents; CommittedOwnHeaders; CommittedCertificates]
  | _ => always_consumed
  end.
Proof.
  unfold spawn_primary, spawn_consensus, spawn, CertifierSpawn.spawn. destruct (CertifierSpawn.subscribe_all _ _) as [c targets]. cbn [fst].
  rewrite !bind_app.
  assert ((BroadcastCertificates <$> targets.*1) ≫= subscribes = []) as -> by (induction targets; [done|]; by cbn; rewrite IHtargets).
  by destruct mode.
Qed.

Lemma spawned_nodup committee me store mode : NoDup (spawn_primary committee me store mode ≫= subscribes).
Proof. rewrite spawned_channels. apply (bool_decide_unpack _). by destruct mode; vm_compute. Qed.

(** C38: The tasks of a node take every receiver at most once, in whatever order they start and
    whatever they send and receive, so none of them panics.  In an active node every channel has
    exactly one consumer.  In the other modes only headers, missing certificates and committed
    certificates have one: what is sent to any other channel is never received, and a sender waits
    for ever once the channel is full. *)
Theorem node_wiring committee me store recent mode es :
  let spawned := spawn_primary committee me store mode in
  let final := run spawned (launched (set_node_mode (new_with_args recent) mode)) es in
  returns final /\
  (forall c, (exists i k, spawned !! i = Some k /\ c ∈ subscribes k /\
                forall j k', spawned !! j = Some k' -> c ∈ subscribes k' -> j = i) <-> mode = CvvActive \/ c ∈ always_consumed) /\
  (forall n c, final = Ok n -> mode <> CvvActive -> c ∉ always_consumed ->
     taken n c = O /\ held (bus n) c = true /\ length (queue (bus n) c) = Nat.min 10000 (sends c es)).
Proof.
  intros spawned final. pose proof (spawned_nodup committee me store mode) as Hnd. fold spawned in Hnd.
  assert (wired spawned (launched (set_node_mode (new_with_args recent) mode))) as Hw by (apply wired_launched; by intros []).
  pose proof (run_wired _ _ es Hnd Hw) as Hr. fold final in Hr.
  assert (forall c, (exists k, k ∈ spawned /\ c ∈ subscribes k) <-> mode = CvvActive \/ c ∈ always_consumed) as Hc.
  { intros c. transitivity (c ∈ spawned ≫= subscribes); [rewrite list_elem_of_bind; naive_solver|].
    unfold spawned. rewrite spawned_channels. destruct mode; [|naive_solver..]. split; [by left|]. intros _. apply (bool_decide_unpack _). by destruct c. }
  split_and!.
  - by destruct final.
  - intros c. rewrite <-Hc. split; [intros (i & k & Hi%list_elem_of_lookup_2 & Hin & _); by exists k|].
    intros (k & [i Hi]%list_elem_of_lookup_1 & Hin). exists i, k. split_and!; [done..|]. intros j k' Hj Hin'.
    by apply (unique_consumer subscribes spawned j i k' k c).
  - intros n c Hn Hm Hno.
    assert (forall k, k ∈ spawned -> c ∉ subscribes k) as Hfree by (intros k Hk Hin; destruct (proj1 (Hc c)) as [?|?]; [by exists k|done..]).
    destruct (run_unheard spawned _ es n c 0 Hfree (unheard_launched recent mode c) Hn) as [_ _ Hq Ht]. rewrite Hn in Hr.
    split_and!; [done| |done]. apply Hr. intros i k _ Hi%list_elem_of_lookup_2. by apply Hfree.
Qed.

(** The tasks of a node that is started again need a new bus. *)
Lemma second_start_panics b k b' : subscribes k <> [] -> foldM subscribe b (subscribes k) = Ok b' -> foldM subscribe b' (subscribes k) = Panic.
Proof.
  destruct (subscribes k) as [|c l]; [done|]. intros _ Hb. cbn [foldM] in *.
  apply bind_Ok in Hb as (b1 & Hc & Hb). apply subscribe_taken in Hc as [_ Hc].
  assert (held b' c = false) as Hf by (apply (subscribed_kept _ _ _ _ Hb); rewrite Hc; by rewrite decide_True).
  assert (subscribe b' c = Panic) as -> by (unfold subscribe, MeteredMpscChannel.subscribe; unfold held in Hf; by rewrite Hf). done.
Qed.

End facts.
End AssemblyFacts.

(** An observer is sent a batch of its worker before and after its tasks start. *)
Definition demo_wiring : list Wiring.event :=
  Wiring.Sent OurDigests (mk_our_digest (ProposerDigest.mk 5 0 1) 0) :: (Wiring.Polled <$> seq 0 6) ++
  [Wiring.Sent OurDigests (mk_our_digest (ProposerDigest.mk 6 0 2) 1); Wiring.Sent CertificateFetcherChannel Kick].

Definition demo_observer : outcome unit (@Wiring.node queue_mpsc log_broadcast) :=
  Wiring.run (PrimaryAssembly.spawn_primary (H := demo_keys) (B := log_broadcast _) demo_committee 1 CertificateStore.empty Observer)
    (Wiring.launched (ConsensusBusInner.set_node_mode (ConsensusBusInner.new_with_args (H := demo_crypto) 50) Observer)) demo_wiring.

Lemma demo_observer_runs : match demo_observer with Ok n => length (Wiring.started n) | _ => O end = 6%nat.
Proof. by vm_compute. Qed.

Lemma node_wiring_witness : exists n, demo_observer = Ok n /\ length (Wiring.started n) = 6%nat /\ Wiring.taken n OurDigests = O /\
  length (WiringFacts.queue (Wiring.bus n) OurDigests) = Nat.min 10000 (Wiring.sends OurDigests demo_wiring).
Proof.
  destruct (@AssemblyFacts.node_wiring queue_mpsc log_broadcast queue_mpsc_laws demo_keys demo_crypto demo_committee 1 CertificateStore.empty 50
    Observer demo_wiring) as (_ & _ & Hn).
  change (forall n c, demo_observer = Ok n -> Observer <> CvvActive -> c ∉ AssemblyFacts.always_consumed ->
    Wiring.taken n c = O /\ WiringFacts.held (Wiring.bus n) c = true /\
    length (WiringFacts.queue (Wiring.bus n) c) = Nat.min 10000 (Wiring.sends c demo_wiring)) in Hn.
  pose proof demo_observer_runs as Hs. destruct demo_observer as [n| | |]; [|discriminate Hs..]. exists n. split; [reflexivity|].
  destruct (Hn n OurDigests eq_refl) as (Ht & _ & Hq); [discriminate|by apply (bool_decide_unpack _); vm_compute|].
  exact (conj Hs (conj Ht Hq)).
Defined.
